(* ===== verification/_CoqProject ===== *)
-Q . S2P
Prelude.v
BTree.v
Memo.v
Contracts.v
Pipeline.v
PipelineProps.v
FunctionTable.v
Lexer.v
WasmBinary.v
Identity.v
Text.v
Worklist.v
Functions.v
Reachability.v
PatchGraph.v
PatchPlan.v
Hir.v
Types.v
TypesProps.v
TypesTable.v
BodyScan.v
BodyExpr.v
BodyParser.v
BodyScanProps.v
BodyExprProps.v
BodyTokensProps.v
BodyStmts.v
BodyProps.v
RealtimeData.v
RealtimeSession.v
RealtimeInv.v
RealtimeProps.v
RealtimeReplay.v
StateLayout.v
StateMigration.v
StateMigrationProps.v
AtlasPacking.v
AtlasPlanner.v
AtlasInv.v
AtlasClusters.v
AtlasProps.v
Documents.v
DocumentsProps.v
Imports.v
ImportsProps.v
ParserTokens.v
ParserFunctions.v
ParserLayout.v
ParserLocals.v
ParserProps.v
ParserTotal.v
ParserPasses.v
ParserTests.v
ParserTestsProps.v
Effects.v
EffectComponents.v
EffectProps.v
StateQuery.v
StateQueryProps.v
RecordData.v
RecordDocument.v
Recorder.v
ReplayPlayer.v
RecordSegments.v
RecordReplay.v
RecorderInv.v
RecordProps.v
ModuleGraph.v
RecordState.v
RecordStateProps.v
ModuleGraphProps.v
Formatter.v
FormatterProps.v
EffectContracts.v
EffectContractsProps.v
Indexer.v
ConstantIndex.v
ConstantIndexProps.v
ConstantEval.v
ConstantEvalProps.v
