(* ===== verification/Prelude.v ===== *)
(** * Stasis: a verification library for the compiler, the hot-swap runtime and
    the deterministic network session

    Stasis is a language for games that are changed while they run.  Its compiler
    ([src/crates/stasis_compiler]) finds the functions to compile and plans which of
    them a code change affects; its runtime ([src/crates/stasis_runner] and
    [src/crates/stasis_jit]) compiles them in the background and swaps them in
    between two ticks; its network layer ([src/crates/stasis_network]) runs the same
    ticks on several machines.  This library models those parts in Rocq, translated
    from the Rust sources, and proves them correct.

    ** Layout

    - [Prelude]: results, machine integers, bytes, stable sorting, tactics.
    - [BTree]: [BTreeMap] and [BTreeSet] as sorted lists over the class [OrdKey],
      which derives the order of a key as Rust derives [Ord].
    - [Contracts], [Pipeline], [PipelineProps]: the hot-swap pipeline
      (stasis_runner/src/swap/contracts.rs and pipeline.rs).  [Pipeline B] is
      [DevHotSwapPipeline] together with its channels and its compiler thread; each
      method is a function on it.  [CompilerBackend] (the trait), [CommitGate] (the
      closure given to [process_commits_at_safe_point]) and [Clock] are classes;
      [LawfulBackend] and [LawfulGate] add that answers carry their request's id and
      the current contract version.  [step] interleaves files, host settings, the
      four phases of [pump_coordinator], the thread, safe points and shutdown.
    - [FunctionTable]: the function pointer table and the targets of
      stasis_jit/src/lib.rs.
    - [Lexer]: stasis_compiler/src/frontend/lexer.rs on bytes, with a grammar.
    - [WasmBinary]: stasis_compiler/src/backend/wasm/binary.rs, with readers.
    - [Identity]: stasis_compiler/src/identity.rs and backend/hash.rs.
    - [Worklist], [Functions], [Reachability]: the function records and
      backend/reachability.rs.
    - [PatchGraph], [PatchPlan]: backend/patch_plan.rs: the current graph,
      Kosaraju's algorithm on it, and the planner.
    - [Hir]: ir/hir.rs: the trees and the constant folder.
    - [Text], [Types], [TypesProps], [TypesTable]: frontend/types.rs with the
      functions of the Rust library on texts: the descriptors of collections and their
      lanes, the keys and layouts of types, and the table that interns them.
    - [BodyScan], [BodyExpr], [BodyParser]: frontend/body_parser.rs: the
      scanners of a function body, its tokens, its expressions and its statements, which
      intern the types they name in the table of [Types].  [BodyScanProps],
      [BodyExprProps], [BodyTokensProps], [BodyStmts] and [BodyProps] prove them correct in
      the same order.
    - [StateLayout], [StateMigration], [StateMigrationProps]: backend/state_layout.rs
      (the layouts, their symbols and versions, over the class [LayoutCodec] of the
      serializer and digest) and backend/state_migration.rs ([plan_state_migration]).
    - [AtlasPacking], [AtlasPlanner], [AtlasInv], [AtlasClusters], [AtlasProps]:
      stasis_dynload/src/atlas_placement.rs: shelf packing, then the planner around it.
    - [Documents], [DocumentsProps]: stasis_language_service/src/documents.rs.
    - [Imports], [ImportsProps], [ModuleGraph], [ModuleGraphProps]:
      frontend/module_graph.rs, with the two functions of frontend/parser.rs it calls
      and the diagnostics of lib.rs.  [Imports] is the text side, on the tokens of
      [Lexer] and the paths of [Identity]; [ModuleGraph] loads, checks and traverses.
      The reader of the sources is an argument; the declaration parsers the graphics
      policy calls are the class [GraphicsFrontEnd].
    - [ParserTokens], [ParserFunctions], [ParserLayout], [ParserLocals], [ParserTests]:
      frontend/parser.rs, in the parser monad [Parse]: names of types, generic parameters
      and annotations; functions and extern functions; structs, enums, globals and
      constants; local variables and angle brackets; tests and their rewriting.
      [ParserProps] is what the pass over functions accepts, [ParserTotal] and
      [ParserPasses] that all passes answer, by a weakest precondition [answers], and
      [ParserTestsProps] that rewritten tests map back.
    - [Indexer]: frontend/indexer.rs and host_exports.rs: the record of each function of a
      file, with its hashes, contracts and calls, and the exports to the host.
    - [Memo]: memoized evaluation with a stack of the declarations in progress, the part
      that both evaluators of constants share, and its meaning as a least fixed point.
    - [ConstantIndex], [ConstantIndexProps]: frontend/constant_index.rs: the index of the
      constants, groups and enums, the resolution of names, and the evaluator of [i32]
      expressions.  [ConstantEval], [ConstantEvalProps]: frontend/constant_evaluation.rs:
      the typed evaluator of scalars, with IEEE floats over the class [NanBits].
    - [Formatter]: frontend/formatter.rs, the formatter of sources: the scan that keeps the
      comments, the commas of enums, the writer, the rendering and the two checks of the
      result; [FormatterProps] its theorems.
    - [Effects], [EffectContracts]: data_flow.rs and
      data_flow/effect_contracts.rs: the effect sets of functions and how a call takes
      them to the caller; the aggregates over the components of the call graph; the
      contracts that bound them.  [EffectComponents] is the components and
      their order, [EffectProps] the aggregates as facts that reach a function, and
      [EffectContractsProps] what an accepted contract bounds.
    - [StateQuery], [StateQueryProps]: backend/state_query.rs: the queries of a
      running program, with their grammar.
    - [RecordData], [RecordDocument], [Recorder], [ReplayPlayer], [RecordSegments],
      [RecordReplay], [RecorderInv], [RecordProps]:
      apps/stasis/src/record_replay.rs: the types of recordings, the documents that are
      accepted, the recorder, the player, and the proofs that they fit together.  The
      JSON codec and SHA-256 are the class [ReplayCodec].
    - [RecordState], [RecordStateProps]: the simulation state a
      recording starts from, over the class [ProgramMemory] of the compiled program's
      memory, with the paths of backend/state_layout.rs that are not part of it.
    - [RealtimeData], [RealtimeSession], [RealtimeInv], [RealtimeProps],
      [RealtimeReplay]: stasis_network/src/realtime.rs.  [RealtimeSession] is the
      record of the same name, field by field; its fixed arrays are lists whose
      lengths the invariant [Inv] keeps.

    ** Conventions

    A [w]-bit integer is a [Z] and its range a hypothesis ([in_u], [in_i]); casts are
    [wrap] and [swrap], checked operations [checked_u] and [checked_i].  A byte
    string or a Rust [str] is a list of bytes, in [Documents] a list of scalar values
    whose encoding gives the bytes.  [Result T E] is Rust's; [option]
    around a result is a panic or, for a loop that is not structural, a lack of
    fuel.  Such a loop takes its fuel from its caller, which passes a bound that a
    theorem shows to be enough: the length of the source for the lexer, five and
    ten bytes for LEB128, and for the worklists of the compiler the length of the
    stack plus [weight_left], the weight of the keys that are not visited yet
    ([closure_loop_spec]).  Loading modules takes the fuel [load_fuel], which is enough
    when the reader knows finitely many modules; the traversal recurses at most as
    deep as there are modules.  The parsers of function bodies call each other on shorter
    texts; [expr_fuel] and [body_fuel] count four calls for each token and each byte.
    The searches of call chains take one more than the functions, or the functions with
    the paths they write, that can be visited.
    The loops of the declaration parser take one more than the tokens that are left.
    Formatting of errors is modelled where a message carries data.

    ** What is shown

    - The session: envelopes survive the wire and the wire format is canonical; no
      input makes a session panic; a tick applies exactly what is due; arrival order
      and repeated delivery do not matter; a transition that was equivocated about is
      never applied; a complete log replays, unless a resync was asked for, in which
      case it may not.
    - The pipeline: at most one request is outstanding; no file change is lost; the
      pipeline comes to rest; shutdown rejects what is outstanding and nothing runs
      after it; a shutdown may reject a commit that was applied.
    - The table: the preview of a commit is the commit; generations retire in order
      after the window; generated pointers are injective.
    - The compiler: the lexer is its grammar and its tokens tile the source; LEB128
      and the name section read back; identities are lossless and paths canonical;
      reachability is exact in both policies; components are the classes of mutual
      calls; a plan compiles again exactly what a change affects, reuses only what is
      current and gives true reasons; constants fold exactly as the language says.
    - Types: whatever is interned, the table has one type per key, with the layout its key
      determines.  As long as texts are interned, which is all the compiler does, a text
      resolves to the type it was interned as, for ever, and the name of a type is read back
      as that type; [intern_instantiated_nominal], which only tests call, may break that.
      The lanes of a collection are aligned and apart.
    - Function bodies: the scanners find what they look for outside strings and comments;
      expressions are exactly those of their grammar; parsing a body always answers and
      gives a tree whose spans are where the body has the names, whose types are in the
      table, and whose debug statements are at the statements.
    - Declarations: the tokens of an accepted source divide into functions whose parts
      are as the grammar says and which lie one after the other; no pass panics or runs
      forever when tokens end between characters; every byte of a rewritten test file is
      mapped back to where it came from.
    - The indexer: the records of a file are those of its functions, with the types that
      the names of a signature resolve to for ever; the calls of a body are exactly its
      callees; a single change of a signature or a body changes its hash; the exports of a
      program are valid exactly when their names differ.
    - Constants: a name that resolves stands for one declaration of the program and could
      stand for no other; both evaluators always answer and find exactly the value of a
      semantics without cache and stack, unless a limit is exceeded; a scalar has the type
      that was expected of it.
    - Formatter: formatting changes white space and the commas of enums only, its layout is
      canonical, and it answers for every ASCII source.
    - Effects: an aggregate holds exactly the facts that reach a function through calls,
      and only recursive programs are refused; an accepted contract bounds every host
      effect of the calls of its function, and every write but those whose path is lost at
      an argument without a known path, which the code lets pass; the chains in messages are
      chains of calls, though they may stop short of the write or end at another one.
    - State migration: every value of the new program has exactly one source, none of
      the running one is discarded without a warning, a plan is refused exactly for
      the reasons it lists.
    - Modules: [parse_imports] is exact and never panics; loading terminates and
      succeeds exactly when every module reads, no alias repeats and no cycle exists;
      the traversal puts imports first; closures are exact.
    - The atlas planner: a plan never overlaps sprites and cuts less than the
      baseline, and the planner always answers.
    - Queries: the parser accepts exactly the grammar and always answers.
    - Recordings: whatever a recorder publishes loads and plays back the recorded host
      frames with their hashes; playback is its reference definition and never panics;
      an honest recording is refused only for its size or by the serializer; a captured
      state is restored exactly, and a state that is rejected touches nothing.
    - The documents of the editor: offsets and positions are inverse and every one of them
      is answered, a change is all or nothing, snapshots are consistent.

    ** What is not modelled

    Generics and the language server; the manifest of host exports in JSON; the
    analysis of statements that fills the effect sets, and the reuse of summaries between
    compilations; the capture and application of a migration in native memory; code generation through
    Cranelift, the linker and the WebAssembly emitter above its byte writer; sockets,
    threads, processes, files and foreign bridges around the modelled cores.
    Accessors that return a field are the record projections.  Memory exhaustion is
    not modelled.

    Next: the analysis of statements of data_flow.rs, an instance of
    [GraphicsFrontEnd] by the declaration parser, and the memory report of the state
    layout. *)

From stdpp Require Export base decidable list numbers gmap sets sorting strings.
From Stdlib Require Export ZArith Lia.

(** ** Notation scope of the development *)

Declare Scope stasis_scope.
Delimit Scope stasis_scope with stasis.

(** ** Fallible results

    [Result T E] is Rust's [Result<T, E>]. *)

Inductive Result (T E : Type) : Type :=
| Ok (value : T)
| Err (error : E).
Arguments Ok {T E} value.
Arguments Err {T E} error.

#[export] Instance Result_eq_dec {T E} `{EqDecision T, EqDecision E} : EqDecision (Result T E).
Proof. solve_decision. Defined.

Definition is_ok {T E} (r : Result T E) : bool :=
  match r with Ok _ => true | Err _ => false end.

Definition is_err {T E} (r : Result T E) : bool := negb (is_ok r).

Definition result_bind {T U E} (r : Result T E) (k : T → Result U E) : Result U E :=
  match r with Ok v => k v | Err e => Err e end.

Definition map_err {T E F} (f : E → F) (r : Result T E) : Result T F :=
  match r with Ok v => Ok v | Err e => Err (f e) end.

Definition ok_or {T E} (o : option T) (e : E) : Result T E :=
  match o with Some v => Ok v | None => Err e end.

Lemma Ok_inj {T E} (a b : T) : @Ok T E a = Ok b → a = b.
Proof. by intros [=]. Qed.

Lemma Some_pair_inj {A B} (a a' : A) (b b' : B) :
  Some (a, b) = Some (a', b') → a = a' ∧ b = b'.
Proof. by intros [=]. Qed.

Notation "'let?' x ':=' r 'in' k" := (result_bind r (λ x, k))
  (at level 10, x pattern, r at level 100, k at level 200) : stasis_scope.
Open Scope stasis_scope.

(** ** Machine integers

    A [w]-bit unsigned value is a [Z] in [0, 2^w); a signed one a [Z] in
    [-2^(w-1), 2^(w-1)).  [wrap] and [swrap] are Rust's [as] casts and the
    wrapping operators of the release profile. *)

Definition wrap (w z : Z) : Z := (z `mod` 2 ^ w)%Z.
Definition swrap (w z : Z) : Z := ((z + 2 ^ (w - 1)) `mod` 2 ^ w - 2 ^ (w - 1))%Z.

Definition in_u (w z : Z) : Prop := (0 ≤ z < 2 ^ w)%Z.
Definition in_i (w z : Z) : Prop := (- 2 ^ (w - 1) ≤ z < 2 ^ (w - 1))%Z.

#[export] Instance in_u_dec w z : Decision (in_u w z).
Proof. unfold in_u; apply _. Defined.
#[export] Instance in_i_dec w z : Decision (in_i w z).
Proof. unfold in_i; apply _. Defined.

Definition u32_max : Z := 4294967295%Z.
Definition u64_max : Z := 18446744073709551615%Z.

(** Rust's [checked_*], [saturating_*] on unsigned [w]-bit values. *)
Definition checked_u (w z : Z) : option Z :=
  if bool_decide (in_u w z) then Some z else None.
Definition checked_i (w z : Z) : option Z :=
  if bool_decide (in_i w z) then Some z else None.
Definition saturating_u64_add (a b : Z) : Z := Z.min (a + b)%Z u64_max.

Section integers.
#[local] Open Scope Z_scope.
Implicit Types w z : Z.

Lemma wrap_range w z : 0 ≤ w → in_u w (wrap w z).
Proof. intros. apply Z.mod_pos_bound. lia. Qed.

Lemma wrap_small w z : in_u w z → wrap w z = z.
Proof. apply Z.mod_small. Qed.

Lemma swrap_range w z : 1 ≤ w → in_i w (swrap w z).
Proof.
  intros. unfold in_i, swrap.
  assert (2 ^ w = 2 * 2 ^ (w - 1)) as E.
  { rewrite <- (Z.pow_succ_r 2) by lia. f_equal. lia. }
  pose proof (Z.mod_pos_bound (z + 2 ^ (w - 1)) (2 ^ w)) as H1.
  assert (0 < 2 ^ w) by (apply Z.pow_pos_nonneg; lia). lia.
Qed.

Lemma swrap_small w z : 1 ≤ w → in_i w z → swrap w z = z.
Proof.
  intros Hw Hz. unfold in_i, swrap in *.
  assert (2 ^ w = 2 * 2 ^ (w - 1)) as E.
  { rewrite <- (Z.pow_succ_r 2) by lia. f_equal. lia. }
  rewrite Z.mod_small; lia.
Qed.

(** Casting to unsigned and back is the identity on signed values. *)
Lemma swrap_wrap w z : 1 ≤ w → in_i w z → swrap w (wrap w z) = z.
Proof.
  intros Hw Hz. unfold swrap, wrap.
  rewrite Zplus_mod_idemp_l. by apply swrap_small.
Qed.

(** Bits above and below position [n] do not overlap. *)
Lemma lor_shiftl_low a b n : 0 ≤ n → 0 ≤ b < 2 ^ n → Z.lor (Z.shiftl a n) b = a * 2 ^ n + b.
Proof.
  intros Hn Hb. pose proof (Z.add_lor_land (Z.shiftl a n) b) as E.
  pose proof (Z.shiftl_mul_pow2 a n Hn) as Es.
  cut (Z.land (Z.shiftl a n) b = 0); [lia|]. clear E Es.
  destruct (decide (b = 0)) as [->|Hb0]; [by rewrite Z.land_0_r|]. apply Z.bits_inj'.
  intros i Hi. rewrite Z.land_spec, Z.bits_0.
  destruct (decide (i < n)); [by rewrite Z.shiftl_spec_low|].
  rewrite (Z.bits_above_log2 b i), andb_false_r; [done|lia|].
  apply Z.log2_lt_pow2; [lia|].
  apply (Z.lt_le_trans _ (2 ^ n)); [lia|]. apply Z.pow_le_mono_r; lia.
Qed.

Lemma checked_u_Some w z v : checked_u w z = Some v ↔ in_u w z ∧ v = z.
Proof.
  unfold checked_u. case_bool_decide; split; intros; simplify_eq; try tauto.
  by destruct_and?; subst.
Qed.

Lemma checked_i_Some w z v : checked_i w z = Some v ↔ in_i w z ∧ v = z.
Proof.
  unfold checked_i. case_bool_decide; split; intros; simplify_eq; try tauto.
  by destruct_and?; subst.
Qed.
End integers.

Create HintDb stasis.
#[export] Hint Resolve wrap_range swrap_range : stasis.

(** ** Tactics *)

(** Split every conditional and match of the goal or of a hypothesis, keeping
    the equation. *)
Ltac split_ifs :=
  repeat (case_match || case_decide || case_bool_decide); simplify_eq/=.
(** Turn the boolean tests of the code into propositions. *)
Ltac to_props :=
  repeat match goal with
  | H : context [negb (negb ?b)] |- _ => rewrite negb_involutive in H
  | H : negb _ = true |- _ => apply negb_true_iff in H
  | H : negb _ = false |- _ => apply negb_false_iff in H
  | H : _ && _ = true |- _ => apply andb_true_iff in H; destruct H
  | H : _ || _ = false |- _ => apply orb_false_iff in H; destruct H
  | H : bool_decide _ = true |- _ => apply bool_decide_eq_true in H
  | H : bool_decide _ = false |- _ => apply bool_decide_eq_false in H
  | H : (_ =? _)%Z = true |- _ => apply Z.eqb_eq in H
  | H : (_ =? _)%Z = false |- _ => apply Z.eqb_neq in H
  | H : (_ <? _)%Z = true |- _ => apply Z.ltb_lt in H
  | H : (_ <? _)%Z = false |- _ => apply Z.ltb_ge in H
  | H : (_ <=? _)%Z = true |- _ => apply Z.leb_le in H
  | H : (_ <=? _)%Z = false |- _ => apply Z.leb_gt in H
  | H : (_ =? _)%nat = true |- _ => apply Nat.eqb_eq in H
  | H : (_ =? _)%nat = false |- _ => apply Nat.eqb_neq in H
  | H : (_ <? _)%nat = true |- _ => apply Nat.ltb_lt in H
  | H : (_ <? _)%nat = false |- _ => apply Nat.ltb_ge in H
  | H : (_ <=? _)%nat = true |- _ => apply Nat.leb_le in H
  | H : (_ <=? _)%nat = false |- _ => apply Nat.leb_gt in H
  end.

(** ** Bytes and big-endian integers

    A byte is a [Z] in [0, 256).  [be_bytes n] is [to_be_bytes] of an [8 * n]-bit
    unsigned integer and [from_be] the matching [from_be_bytes]. *)

Fixpoint be_bytes (n : nat) (z : Z) : list Z :=
  match n with
  | O => []
  | S n' => wrap 8 (Z.shiftr z (8 * Z.of_nat n')) :: be_bytes n' z
  end.

Definition from_be (bs : list Z) : Z := foldl (λ acc b, (acc * 256 + b)%Z) 0%Z bs.

Definition bytes_ok (bs : list Z) : Prop := Forall (in_u 8) bs.

(** The bytes of a string literal. *)
Definition string_bytes (s : string) : list Z :=
  (λ a, Z.of_nat (Ascii.nat_of_ascii a)) <$> String.list_ascii_of_string s.

Section bytes.
#[local] Open Scope Z_scope.
Implicit Types (bs : list Z) (z : Z).

Lemma length_be_bytes n z : length (be_bytes n z) = n.
Proof. induction n; simpl; congruence. Qed.

Lemma be_bytes_ok n z : bytes_ok (be_bytes n z).
Proof. induction n; constructor; [apply wrap_range; lia | done]. Qed.

Lemma from_be_acc bs acc :
  foldl (λ a b, a * 256 + b) acc bs = acc * 256 ^ Z.of_nat (length bs) + from_be bs.
Proof.
  unfold from_be. revert acc. induction bs as [|b bs IH]; intros acc; [simpl; lia|].
  cbn [foldl length]. rewrite (IH (acc * 256 + b)), (IH (0 * 256 + b)).
  rewrite Nat2Z.inj_succ, Z.pow_succ_r by lia. lia.
Qed.

Lemma from_be_cons b bs :
  from_be (b :: bs) = b * 256 ^ Z.of_nat (length bs) + from_be bs.
Proof. unfold from_be at 1. simpl. by rewrite from_be_acc. Qed.

Lemma from_be_range bs : bytes_ok bs → in_u (8 * Z.of_nat (length bs)) (from_be bs).
Proof.
  unfold in_u. intros H. rewrite Z.pow_mul_r by lia. change (2 ^ 8) with 256.
  induction H as [|b bs Hb _ IH]; [done|].
  rewrite from_be_cons. unfold in_u in Hb. change (2 ^ 8) with 256 in Hb.
  simpl length. rewrite Nat2Z.inj_succ, Z.pow_succ_r by lia. nia.
Qed.

Lemma from_be_be_bytes_mod n z : from_be (be_bytes n z) = z `mod` 256 ^ Z.of_nat n.
Proof.
  induction n as [|n IH]; [by rewrite Z.mod_1_r|].
  simpl be_bytes. rewrite from_be_cons, length_be_bytes, IH. unfold wrap.
  rewrite Z.shiftr_div_pow2 by lia. rewrite Z.pow_mul_r by lia.
  change (2 ^ 8) with 256. rewrite Nat2Z.inj_succ, Z.pow_succ_r by lia.
  rewrite (Z.mul_comm 256), Z.rem_mul_r by (apply Z.pow_nonzero || lia; lia). lia.
Qed.

(** Decoding an encoded integer gives it back. *)
Lemma from_be_be_bytes n z : in_u (8 * Z.of_nat n) z → from_be (be_bytes n z) = z.
Proof.
  intros H. rewrite from_be_be_bytes_mod. apply Z.mod_small. unfold in_u in H.
  rewrite Z.pow_mul_r in H by lia. exact H.
Qed.

(** The value of the low bytes does not depend on the high ones. *)
Lemma be_bytes_add n z k : be_bytes n (z + k * 256 ^ Z.of_nat n) = be_bytes n z.
Proof.
  revert z k. induction n as [|n IH]; intros z k; [done|].
  cbn [be_bytes]. f_equal.
  - unfold wrap. rewrite !Z.shiftr_div_pow2, !Z.pow_mul_r by lia.
    change (2 ^ 8) with 256. rewrite Nat2Z.inj_succ, Z.pow_succ_r by lia.
    replace (z + k * (256 * 256 ^ Z.of_nat n))
      with (z + (k * 256) * 256 ^ Z.of_nat n) by lia.
    rewrite Z.div_add by (apply Z.pow_nonzero; lia). apply Z.mod_add. lia.
  - rewrite Nat2Z.inj_succ, Z.pow_succ_r by lia.
    replace (z + k * (256 * 256 ^ Z.of_nat n))
      with (z + (k * 256) * 256 ^ Z.of_nat n) by lia. apply IH.
Qed.

(** Encoding a decoded byte string gives it back. *)
Lemma be_bytes_from_be bs : bytes_ok bs → be_bytes (length bs) (from_be bs) = bs.
Proof.
  induction 1 as [|b bs Hb Hbs IH]; [done|].
  rewrite from_be_cons. cbn [length be_bytes]. f_equal.
  - pose proof (from_be_range bs Hbs) as R. unfold in_u in R.
    rewrite Z.shiftr_div_pow2, Z.add_comm by lia. rewrite Z.pow_mul_r in R |- * by lia.
    change (2 ^ 8) with 256 in *. rewrite Z.div_add by (apply Z.pow_nonzero; lia).
    rewrite Z.div_small by lia. by apply wrap_small.
  - rewrite Z.add_comm, be_bytes_add. exact IH.
Qed.

Lemma be_bytes_from_be_len n bs :
  length bs = n → bytes_ok bs → be_bytes n (from_be bs) = bs.
Proof. intros <-. apply be_bytes_from_be. Qed.
End bytes.

#[export] Hint Resolve be_bytes_ok : stasis.

(** Prove that an explicit list holds bytes, from a hypothesis per element. *)
Ltac bytes_lit :=
  unfold bytes_ok; repeat (apply Forall_cons_2; [assumption|]); apply Forall_nil_2.

(** ** Stable sorting

    [sort_by le] is Rust's stable [sort_by_key]: [le] compares the keys. *)

Section stable_sort.
Context {A : Type} (le : A → A → bool).

Fixpoint insert_stable (x : A) (l : list A) : list A :=
  match l with
  | [] => [x]
  | y :: l' => if le x y then x :: y :: l' else y :: insert_stable x l'
  end.

Definition sort_by (l : list A) : list A := foldr insert_stable [] l.

Lemma insert_stable_Permutation x l : insert_stable x l ≡ₚ x :: l.
Proof.
  induction l as [|y l IH]; simpl; [done|]. case_match; [done|].
  rewrite IH. apply Permutation_swap.
Qed.

Lemma sort_by_Permutation l : sort_by l ≡ₚ l.
Proof.
  induction l as [|x l IH]; simpl; [done|]. by rewrite insert_stable_Permutation, IH.
Qed.

Lemma length_sort_by l : length (sort_by l) = length l.
Proof. by rewrite sort_by_Permutation. Qed.

Lemma elem_of_sort_by x l : x ∈ sort_by l ↔ x ∈ l.
Proof. by rewrite sort_by_Permutation. Qed.

Context (le_total : ∀ x y, le x y = true ∨ le y x = true).
Context (le_trans : ∀ x y z, le x y = true → le y z = true → le x z = true).

Lemma insert_stable_sorted x l :
  StronglySorted (λ a b, le a b = true) l →
  StronglySorted (λ a b, le a b = true) (insert_stable x l).
Proof.
  induction 1 as [|y l Hs IH Hall]; simpl; [by repeat constructor|].
  destruct (le x y) eqn:E.
  - constructor; [by constructor|]. constructor; [done|].
    eapply Forall_impl; [exact Hall|]. intros z Hz. by eapply le_trans.
  - constructor; [done|]. rewrite insert_stable_Permutation. constructor; [|done].
    destruct (le_total x y); congruence.
Qed.

Lemma sort_by_sorted l : StronglySorted (λ a b, le a b = true) (sort_by l).
Proof.
  induction l as [|x l IH]; simpl; [constructor|]. by apply insert_stable_sorted.
Qed.

(** Two sorted permutations of each other agree when the order is
    antisymmetric on their elements. *)
Lemma StronglySorted_unique l1 l2 :
  (∀ x y, x ∈ l1 → y ∈ l1 → le x y = true → le y x = true → x = y) →
  StronglySorted (λ a b, le a b = true) l1 → StronglySorted (λ a b, le a b = true) l2 →
  l1 ≡ₚ l2 → l1 = l2.
Proof.
  intros Hanti Hs1. revert l2 Hanti. induction Hs1 as [|x l1 Hs1 IH Hx]; intros l2 Hanti Hs2 Hp.
  - by apply Permutation_nil_l in Hp.
  - destruct l2 as [|y l2]; [by apply Permutation_nil_r in Hp|].
    inversion_clear Hs2 as [|? ? Hs2' Hy].
    assert (x = y) as ->.
    { assert (y ∈ x :: l1) as Hy1 by (rewrite Hp; apply list_elem_of_here).
      assert (x ∈ y :: l2) as Hx2 by (rewrite <- Hp; apply list_elem_of_here).
      rewrite elem_of_cons in Hy1, Hx2.
      destruct Hy1 as [->|Hy1]; [done|]. destruct Hx2 as [->|Hx2]; [done|].
      rewrite Forall_forall in Hx, Hy.
      apply Hanti; [apply list_elem_of_here|by apply list_elem_of_further|by apply Hx|by apply Hy]. }
    f_equal. apply IH; [|done|by apply Permutation_cons_inv in Hp].
    intros a b Ha Hb. apply Hanti; by apply list_elem_of_further.
Qed.

Lemma sort_by_unique l1 l2 :
  (∀ x y, x ∈ l1 → y ∈ l1 → le x y = true → le y x = true → x = y) →
  l1 ≡ₚ l2 → sort_by l1 = sort_by l2.
Proof.
  intros Hanti Hp. apply StronglySorted_unique; [|apply sort_by_sorted..|].
  - intros x y. rewrite !elem_of_sort_by. apply Hanti.
  - by rewrite !sort_by_Permutation.
Qed.
End stable_sort.

#[export] Hint Resolve be_bytes_ok sort_by_sorted : stasis.

(** ** Lists *)

Lemma Forall_filter_sub {A} (P Q : A → Prop) `{∀ x, Decision (Q x)} l :
  Forall P l → Forall P (filter Q l).
Proof.
  rewrite !Forall_forall. intros H0 x [_ Hx]%list_elem_of_filter. by apply H0.
Qed.

Lemma NoDup_fmap_filter {A B} (f : A → B) (Q : A → Prop) `{∀ x, Decision (Q x)} l :
  NoDup (f <$> l) → NoDup (f <$> filter Q l).
Proof.
  induction l as [|x l IH]; [done|]. rewrite fmap_cons, NoDup_cons, filter_cons.
  intros [Hx Hl]. case_decide; [|by apply IH]. rewrite fmap_cons, NoDup_cons. split; [|by apply IH].
  intros (y & Hy & [_ Hin]%list_elem_of_filter)%list_elem_of_fmap.
  apply Hx. rewrite Hy. by apply list_elem_of_fmap_2.
Qed.

(** An injective image identifies the elements of a duplicate-free list. *)
Lemma NoDup_fmap_elem {A B} (f : A → B) (l : list A) x y :
  NoDup (f <$> l) → x ∈ l → y ∈ l → f x = f y → x = y.
Proof.
  intros Hn [i Hi]%list_elem_of_lookup [j Hj]%list_elem_of_lookup E.
  assert (i = j) as ->; [|congruence].
  eapply NoDup_lookup; [exact Hn| |]; rewrite list_lookup_fmap, ?Hi, ?Hj; simpl; by rewrite ?E.
Qed.

Lemma StronglySorted_snoc {A} (R : A → A → Prop) l x :
  StronglySorted R l → Forall (λ y, R y x) l → StronglySorted R (l ++ [x]).
Proof.
  induction 1 as [|y l Hs IH Hy]; intros Hx; simpl; [by repeat constructor|].
  inversion_clear Hx as [|? ? Hyx Hlx]. constructor; [by apply IH|].
  apply Forall_app. split; [done|]. by constructor.
Qed.

(** The occurrence of an element splits a duplicate-free list in one way. *)
Lemma NoDup_split_unique {A} (x : A) l1 l2 m1 m2 :
  NoDup (l1 ++ x :: l2) → l1 ++ x :: l2 = m1 ++ x :: m2 → l1 = m1 ∧ l2 = m2.
Proof.
  revert m1. induction l1 as [|y l1 IH]; intros [|z m1]; cbn [app]; intros Hn Heq.
  - by injection Heq.
  - injection Heq as -> ->. inversion_clear Hn as [|? ? Hx _]. destruct Hx.
    apply elem_of_app. right. apply list_elem_of_here.
  - injection Heq as -> <-. inversion_clear Hn as [|? ? Hx _]. destruct Hx.
    apply elem_of_app. right. apply list_elem_of_here.
  - injection Heq as -> Heq. inversion_clear Hn as [|? ? _ Hn'].
    by destruct (IH m1 Hn' Heq) as [-> ->].
Qed.
