(* ===== verification/BTree.v ===== *)
(** * Ordered sets and maps

    The [BTreeSet] and [BTreeMap] of the Rust standard library, which the
    compiler and the hot-swap runtime use wherever iteration order must be
    deterministic.  A set is its strictly increasing list of elements and a map
    its list of entries in strictly increasing key order; the order of a key
    type is the class [OrdKey], Rust's [Ord]. *)

From S2P Require Import Prelude.
#[local] Set Warnings "-clear-no-such-hyp".

(** ** Totally ordered keys *)

Class OrdKey (K : Type) := {
  cmp : K → K → comparison;
  cmp_eq x y : cmp x y = Eq ↔ x = y;
  cmp_antisym x y : cmp y x = CompOpp (cmp x y);
  cmp_trans x y z : cmp x y = Lt → cmp y z = Lt → cmp x z = Lt;
}.

Definition key_lt {K} `{OrdKey K} (x y : K) : Prop := cmp x y = Lt.

Section ord_key.
Context `{OrdKey K}.
Implicit Types x y : K.

Lemma cmp_refl x : cmp x x = Eq.
Proof. by apply cmp_eq. Qed.

Lemma cmp_gt_lt x y : cmp x y = Gt → cmp y x = Lt.
Proof. intros E. by rewrite cmp_antisym, E. Qed.

Lemma key_lt_irrefl x : ¬ key_lt x x.
Proof. unfold key_lt. by rewrite cmp_refl. Qed.

Lemma key_lt_ne x y : key_lt x y → x ≠ y.
Proof. intros H' ->. by apply key_lt_irrefl in H'. Qed.

#[export] Instance key_lt_trans : Transitive key_lt.
Proof. intros x y z. apply cmp_trans. Qed.

#[export] Instance key_lt_dec x y : Decision (key_lt x y).
Proof. unfold key_lt. apply _. Defined.
End ord_key.

#[export] Instance ord_key_eq_dec `{OrdKey K} : EqDecision K | 100.
Proof.
  intros x y. destruct (cmp x y) eqn:E.
  - left. by apply cmp_eq.
  - right. intros ->. by rewrite cmp_refl in E.
  - right. intros ->. by rewrite cmp_refl in E.
Defined.

#[export] Hint Resolve cmp_refl key_lt_irrefl : stasis.

#[export] Instance Z_ord : OrdKey Z.
Proof.
  refine {| cmp := Z.compare |}.
  - intros. apply Z.compare_eq_iff.
  - intros. apply Z.compare_antisym.
  - intros x y z. rewrite !Z.compare_lt_iff. lia.
Defined.

#[export] Instance nat_ord : OrdKey nat.
Proof.
  refine {| cmp := Nat.compare |}.
  - intros. apply Nat.compare_eq_iff.
  - intros. apply Nat.compare_antisym.
  - intros x y z. rewrite !Nat.compare_lt_iff. lia.
Defined.

(** Lexicographic comparison of pairs and of sequences. *)
Definition pair_cmp {A B} `{OrdKey A, OrdKey B} (x y : A * B) : comparison :=
  match cmp x.1 y.1 with Eq => cmp x.2 y.2 | c => c end.

#[export] Instance pair_ord {A B} `{OrdKey A, OrdKey B} : OrdKey (A * B).
Proof.
  refine {| cmp := pair_cmp |}; unfold pair_cmp.
  - intros [a b] [c d]. cbn [fst snd]. destruct (cmp a c) eqn:E.
    + apply cmp_eq in E as ->. rewrite cmp_eq. split; [by intros ->|by intros [= ->]].
    + split; [done|]. intros [= -> ->]. by rewrite cmp_refl in E.
    + split; [done|]. intros [= -> ->]. by rewrite cmp_refl in E.
  - intros [a b] [c d]. cbn [fst snd]. rewrite (cmp_antisym a c), (cmp_antisym b d).
    by destruct (cmp a c).
  - intros [a b] [c d] [e f]. cbn [fst snd].
    destruct (cmp a c) eqn:E1; [apply cmp_eq in E1 as ->| |done].
    + destruct (cmp c e) eqn:E2; [|done..]. apply cmp_trans.
    + destruct (cmp c e) eqn:E2; [apply cmp_eq in E2 as ->; by rewrite E1| |done].
      by rewrite (cmp_trans _ _ _ E1 E2).
Defined.

Fixpoint list_cmp {A} `{OrdKey A} (x y : list A) : comparison :=
  match x, y with
  | [], [] => Eq
  | [], _ :: _ => Lt
  | _ :: _, [] => Gt
  | a :: x', b :: y' => match cmp a b with Eq => list_cmp x' y' | c => c end
  end.

#[export] Instance list_ord {A} `{OrdKey A} : OrdKey (list A).
Proof.
  refine {| cmp := list_cmp |}.
  - induction x as [|a x IH]; intros [|b y]; simpl; try done. destruct (cmp a b) eqn:E.
    + apply cmp_eq in E as ->. rewrite IH. split; [by intros ->|by intros [= ->]].
    + split; [done|]. intros [= -> ->]. by rewrite cmp_refl in E.
    + split; [done|]. intros [= -> ->]. by rewrite cmp_refl in E.
  - induction x as [|a x IH]; intros [|b y]; simpl; try done.
    rewrite (cmp_antisym a b), IH. by destruct (cmp a b).
  - induction x as [|a x IH]; intros [|b y] [|c z]; simpl; try done.
    destruct (cmp a b) eqn:E1; [apply cmp_eq in E1 as ->| |done].
    + destruct (cmp b c) eqn:E2; [|done..]. apply IH.
    + destruct (cmp b c) eqn:E2; [apply cmp_eq in E2 as ->; by rewrite E1| |done].
      by rewrite (cmp_trans _ _ _ E1 E2).
Defined.

(** Keys ordered through an injective view. *)
Definition ord_via {A B} `{OrdKey B} (f : A → B) (f_inj : ∀ x y, f x = f y → x = y) : OrdKey A.
Proof.
  refine {| cmp := λ x y, cmp (f x) (f y) |}.
  - intros. rewrite cmp_eq. split; [apply f_inj|by intros ->].
  - intros. apply cmp_antisym.
  - intros x y z. apply cmp_trans.
Defined.

(** Strings compare by their bytes. *)
Fixpoint string_codes (s : string) : list nat :=
  match s with
  | EmptyString => []
  | String a s' => Ascii.nat_of_ascii a :: string_codes s'
  end.

Lemma string_codes_inj x y : string_codes x = string_codes y → x = y.
Proof.
  revert y. induction x as [|a x IH]; intros [|b y]; simpl; try done.
  intros [= Ha Hx]. apply IH in Hx as ->. f_equal.
  rewrite <- (Ascii.ascii_nat_embedding a), Ha. apply Ascii.ascii_nat_embedding.
Qed.

#[export] Instance string_ord : OrdKey string := ord_via string_codes string_codes_inj.

(** ** Sets *)

Section btree_set.
Context `{OrdKey K}.
Implicit Types (x y : K) (l : list K).

Definition sorted_keys (l : list K) : Prop := StronglySorted key_lt l.

Fixpoint set_insert (x : K) (l : list K) : list K :=
  match l with
  | [] => [x]
  | y :: l' => match cmp x y with
               | Lt => x :: l
               | Eq => l
               | Gt => y :: set_insert x l'
               end
  end.

Definition set_of_list (l : list K) : list K := foldl (λ acc x, set_insert x acc) [] l.

Lemma elem_of_set_insert x y l : y ∈ set_insert x l ↔ y = x ∨ y ∈ l.
Proof.
  induction l as [|z l IH]; simpl.
  - rewrite list_elem_of_singleton, elem_of_nil. tauto.
  - destruct (cmp x z) eqn:E; [apply cmp_eq in E as ->|..]; rewrite ?elem_of_cons, ?IH; tauto.
Qed.

Lemma set_insert_sorted x l : sorted_keys l → sorted_keys (set_insert x l).
Proof.
  induction 1 as [|y l Hs IH Hy]; simpl; [by repeat constructor|].
  destruct (cmp x y) eqn:E.
  - by constructor.
  - constructor; [by constructor|]. constructor; [done|].
    eapply Forall_impl; [exact Hy|]. intros z. by apply key_lt_trans.
  - constructor; [done|]. apply Forall_forall. intros z [->|Hz]%elem_of_set_insert.
    + by apply cmp_gt_lt.
    + rewrite Forall_forall in Hy. by apply Hy.
Qed.

Lemma set_insert_not_nil x l : set_insert x l ≠ [].
Proof. destruct l; simpl; [done|]. by case_match. Qed.

Lemma set_fold_spec l acc :
  sorted_keys acc →
  sorted_keys (foldl (λ acc x, set_insert x acc) acc l) ∧
  ∀ y, y ∈ foldl (λ acc x, set_insert x acc) acc l ↔ y ∈ l ∨ y ∈ acc.
Proof.
  revert acc. induction l as [|x l IH]; intros acc Ha; simpl.
  - split; [done|]. intros y. rewrite elem_of_nil. tauto.
  - destruct (IH (set_insert x acc)) as [Hs Hm]; [by apply set_insert_sorted|].
    split; [done|]. intros y. rewrite Hm, elem_of_set_insert, elem_of_cons. tauto.
Qed.

Lemma set_of_list_sorted l : sorted_keys (set_of_list l).
Proof. apply set_fold_spec. constructor. Qed.

Lemma elem_of_set_of_list l y : y ∈ set_of_list l ↔ y ∈ l.
Proof.
  unfold set_of_list. rewrite (proj2 (set_fold_spec l [] (SSorted_nil _))).
  rewrite elem_of_nil. tauto.
Qed.

Lemma sorted_keys_NoDup l : sorted_keys l → NoDup l.
Proof.
  induction 1 as [|x l Hs IH Hx]; constructor; [|done]. intros Hin.
  rewrite Forall_forall in Hx. by apply (key_lt_irrefl x), Hx.
Qed.

(** A set has one representation. *)
Lemma sorted_keys_unique l l' :
  sorted_keys l → sorted_keys l' → (∀ x, x ∈ l ↔ x ∈ l') → l = l'.
Proof.
  intros Hl. revert l'. induction Hl as [|x l Hs IH Hx]; intros [|y l'] Hl' Heq; [done|..].
  - exfalso. apply (not_elem_of_nil y), Heq. apply list_elem_of_here.
  - exfalso. apply (not_elem_of_nil x), Heq. apply list_elem_of_here.
  - inversion_clear Hl' as [|? ? Hs' Hy]. rewrite Forall_forall in Hx, Hy.
    assert (x = y) as <-.
    { pose proof (proj1 (Heq x) (list_elem_of_here _ _)) as [?|H1]%elem_of_cons; [done|].
      pose proof (proj2 (Heq y) (list_elem_of_here _ _)) as [?|H2]%elem_of_cons; [done|].
      exfalso. apply (key_lt_irrefl x). etrans; [by apply Hx|by apply Hy]. }
    f_equal. apply IH; [done|]. intros z. specialize (Heq z). rewrite !elem_of_cons in Heq.
    split; intros Hz.
    + destruct (proj1 Heq) as [->|]; [by right| |done]. exfalso. by apply (key_lt_irrefl x), Hx.
    + destruct (proj2 Heq) as [->|]; [by right| |done]. exfalso. by apply (key_lt_irrefl x), Hy.
Qed.
End btree_set.

#[export] Hint Resolve set_insert_sorted set_of_list_sorted : stasis.

(** ** Maps *)

Section btree_map.
Context `{OrdKey K} {V : Type}.
Implicit Types (k : K) (v : V) (m : list (K * V)).

Definition sorted_map (m : list (K * V)) : Prop := sorted_keys m.*1.

Fixpoint map_get (k : K) (m : list (K * V)) : option V :=
  match m with
  | [] => None
  | (k', v) :: m' => match cmp k k' with
                     | Lt => None
                     | Eq => Some v
                     | Gt => map_get k m'
                     end
  end.

Fixpoint map_insert (k : K) (v : V) (m : list (K * V)) : list (K * V) :=
  match m with
  | [] => [(k, v)]
  | (k', v') :: m' => match cmp k k' with
                      | Lt => (k, v) :: m
                      | Eq => (k, v) :: m'
                      | Gt => (k', v') :: map_insert k v m'
                      end
  end.

(** [iter().collect()]: a later entry replaces an earlier one. *)
Definition map_of_list (l : list (K * V)) : list (K * V) :=
  foldl (λ acc e, map_insert e.1 e.2 acc) [] l.

Lemma map_insert_keys k v m : (map_insert k v m).*1 = set_insert k m.*1.
Proof.
  induction m as [|[k' v'] m IH]; [done|]. rewrite fmap_cons. simpl.
  destruct (cmp k k') eqn:E; simpl; [|done|].
  - apply cmp_eq in E as ->. done.
  - by f_equal.
Qed.

Lemma map_insert_sorted k v m : sorted_map m → sorted_map (map_insert k v m).
Proof. unfold sorted_map. rewrite map_insert_keys. apply set_insert_sorted. Qed.

Lemma map_get_insert k v m : map_get k (map_insert k v m) = Some v.
Proof.
  induction m as [|[k' v'] m IH]; simpl; [by rewrite cmp_refl|].
  destruct (cmp k k') eqn:E; simpl; [by rewrite cmp_refl..|]. by rewrite E.
Qed.

Lemma map_get_insert_ne k k' v m :
  sorted_map m → k ≠ k' → map_get k (map_insert k' v m) = map_get k m.
Proof.
  unfold sorted_map. intros Hs Hne. induction m as [|[k1 v1] m IH]; simpl.
  { destruct (cmp k k') eqn:E; [|done..]. by apply cmp_eq in E. }
  rewrite fmap_cons in Hs. cbn [fst] in Hs. inversion_clear Hs as [|? ? Hs' Hk1].
  destruct (cmp k' k1) eqn:E1; simpl.
  - apply cmp_eq in E1 as ->. destruct (cmp k k1) eqn:E; [|done..]. by apply cmp_eq in E.
  - destruct (cmp k k') eqn:E2; simpl.
    + by apply cmp_eq in E2.
    + by rewrite (cmp_trans _ _ _ E2 E1).
    + done.
  - destruct (cmp k k1); [done..|]. by apply IH.
Qed.

Lemma map_get_elem k v m : sorted_map m → map_get k m = Some v ↔ (k, v) ∈ m.
Proof.
  unfold sorted_map. induction m as [|[k1 v1] m IH]; intros Hs; simpl.
  { split; [done|]. by intros ?%not_elem_of_nil. }
  rewrite fmap_cons in Hs. cbn [fst] in Hs. inversion_clear Hs as [|? ? Hs' Hk1].
  rewrite Forall_forall in Hk1. rewrite elem_of_cons. destruct (cmp k k1) eqn:E.
  - apply cmp_eq in E as ->. split; [by intros [= ->]; left|].
    intros [[= ->]|Hin]; [done|]. exfalso. apply (key_lt_irrefl k1), Hk1.
    by apply (list_elem_of_fmap_2' fst m (k1, v)).
  - split; [done|]. intros [[= -> ->]|Hin]; [by rewrite cmp_refl in E|]. exfalso.
    apply (key_lt_irrefl k). etrans; [exact E|]. apply Hk1.
    by apply (list_elem_of_fmap_2' fst m (k, v)).
  - rewrite IH by done. split; [by right|]. intros [[= -> ->]|Hin]; [|done].
    by rewrite cmp_refl in E.
Qed.

Lemma map_insert_twice k v v' m : map_insert k v (map_insert k v' m) = map_insert k v m.
Proof.
  induction m as [|[k1 v1] m IH]; simpl; [by rewrite cmp_refl|].
  destruct (cmp k k1) eqn:E; simpl; rewrite ?cmp_refl, ?E; [done..|]. by rewrite IH.
Qed.

Lemma map_get_keys k m : sorted_map m → is_Some (map_get k m) ↔ k ∈ m.*1.
Proof.
  intros Hm. rewrite list_elem_of_fmap. split.
  - intros [v Hv%map_get_elem]; [by exists (k, v)|done].
  - intros ([k' v] & -> & Hin). exists v. by apply map_get_elem.
Qed.

Lemma map_get_keys_None k m : sorted_map m → map_get k m = None ↔ k ∉ m.*1.
Proof. intros Hm. rewrite <- map_get_keys by done. by rewrite eq_None_not_Some. Qed.

Lemma elem_of_map_insert_keys k k' v m : k ∈ (map_insert k' v m).*1 ↔ k = k' ∨ k ∈ m.*1.
Proof. rewrite map_insert_keys. apply elem_of_set_insert. Qed.

Lemma map_fold_sorted l m :
  sorted_map m → sorted_map (foldl (λ acc e, map_insert e.1 e.2 acc) m l).
Proof.
  revert m. induction l as [|e l IH]; intros m Hm; simpl; [done|].
  by apply IH, map_insert_sorted.
Qed.

Lemma map_of_list_sorted l : sorted_map (map_of_list l).
Proof. apply map_fold_sorted. constructor. Qed.

(** Collecting a list: the last entry of a key wins. *)
Lemma map_get_fold k l m :
  sorted_map m →
  map_get k (foldl (λ acc e, map_insert e.1 e.2 acc) m l) =
  match list_find (λ e, k = e.1) (reverse l) with
  | Some (_, e) => Some e.2
  | None => map_get k m
  end.
Proof.
  intros Hm. induction l as [|[k1 v1] l IH] using rev_ind; [done|].
  rewrite foldl_app, reverse_snoc. cbn [foldl list_find fst snd].
  destruct (decide (k = k1)) as [->|Hne].
  - cbn. by rewrite map_get_insert.
  - rewrite map_get_insert_ne by (done || by apply map_fold_sorted). rewrite IH.
    destruct (list_find _ (reverse l)) as [[i e]|]; done.
Qed.

Lemma map_get_of_list k l :
  map_get k (map_of_list l) = (snd ∘ snd) <$> list_find (λ e, k = e.1) (reverse l).
Proof.
  unfold map_of_list. rewrite map_get_fold by constructor.
  by destruct (list_find _ _) as [[]|].
Qed.

(** [remove] leaves the other entries in their order. *)
Definition map_remove (k : K) (m : list (K * V)) : list (K * V) := filter (λ e, e.1 ≠ k) m.

Lemma map_get_insert_case k k' v m :
  sorted_map m → map_get k (map_insert k' v m) = if decide (k = k') then Some v else map_get k m.
Proof.
  intros Hm. destruct (decide (k = k')) as [->|]; [apply map_get_insert|by apply map_get_insert_ne].
Qed.

Lemma map_remove_sorted k m : sorted_map m → sorted_map (map_remove k m).
Proof.
  unfold sorted_map, map_remove. intros Hm. induction m as [|[k' v'] m IH]; [done|].
  rewrite fmap_cons in Hm. cbn [fst] in Hm. inversion_clear Hm as [|? ? Hm0 Hall].
  rewrite filter_cons. case_decide; [|by apply IH]. rewrite fmap_cons. constructor; [by apply IH|].
  rewrite Forall_forall in *. intros j (e & -> & [_ He]%list_elem_of_filter)%list_elem_of_fmap.
  by apply Hall, list_elem_of_fmap_2.
Qed.

Lemma map_get_remove k j m :
  sorted_map m → map_get j (map_remove k m) = if decide (j = k) then None else map_get j m.
Proof.
  intros Hm. pose proof (map_remove_sorted k m Hm) as Hr.
  apply option_eq. intros v. rewrite map_get_elem by done. unfold map_remove.
  rewrite list_elem_of_filter. cbn. case_decide; subst; [naive_solver|].
  rewrite map_get_elem by done. naive_solver.
Qed.

(** Extending a map by another. *)
Lemma map_get_extend k l m :
  sorted_map l → sorted_map m →
  map_get k (foldl (λ acc e, map_insert e.1 e.2 acc) m l) =
  match map_get k l with Some v => Some v | None => map_get k m end.
Proof.
  intros Hl Hm. rewrite map_get_fold by done.
  destruct (list_find _ (reverse l)) as [[i e]|] eqn:E.
  - apply list_find_Some in E as (Hi & -> & _).
    apply list_elem_of_lookup_2 in Hi. rewrite elem_of_reverse in Hi.
    by rewrite (proj2 (map_get_elem e.1 e.2 l Hl)) by (by destruct e).
  - apply list_find_None in E. rewrite (proj2 (map_get_keys_None k l Hl)); [done|].
    intros (e & -> & He)%list_elem_of_fmap. rewrite Forall_forall in E.
    apply (E e); [by apply elem_of_reverse|done].
Qed.
End btree_map.

Lemma map_get_fmap `{OrdKey K} {V W} (f : V → W) (m : list (K * V)) (j : K) :
  map_get j (prod_map id f <$> m) = f <$> map_get j m.
Proof.
  induction m as [|[k v] m IH]; [done|]. cbn. by destruct (cmp j k).
Qed.

Lemma sorted_map_fmap `{OrdKey K} {V W} (f : V → W) (m : list (K * V)) :
  sorted_map m → sorted_map (prod_map id f <$> m).
Proof.
  unfold sorted_map. by rewrite <- list_fmap_compose.
Qed.


#[export] Hint Resolve map_insert_sorted map_of_list_sorted : stasis.
