(* ===== verification/Memo.v ===== *)
(** * Memoized evaluation of declarations

    Both evaluators of compile-time constants
    ([crates/stasis_compiler/src/frontend/constant_index.rs] and
    [constant_evaluation.rs]) evaluate a declaration by way of the declarations it names:
    they remember the values they found, keep the declarations in progress on a stack, and
    refuse a cycle and a stack that is too deep.  The common part is [memoized], over the
    evaluation [body] of one declaration.

    Its meaning is the least fixed point of a relation [step] between a declaration and
    its value: whatever is evaluated has the value of the relation, and a declaration that
    has a value is evaluated to it unless a limit is exceeded. *)

From S2P Require Import Prelude.
#[local] Open Scope nat_scope.

(** ** The state and its monad *)

(** The stack grows at its end, as the [Vec] does. *)
Record Memo (K V X : Type) := mkMemo { cache : list (K * V); stack : list K; extra : X }.
Arguments mkMemo {K V X} cache stack extra.
Arguments cache {K V X} m.
Arguments stack {K V X} m.
Arguments extra {K V X} m.

(** [None] is a lack of fuel. *)
Definition Evaluation (K V X E A : Type) : Type := Memo K V X → option (Result A E * Memo K V X).

Definition eval_ret {K V X E A} (a : A) : Evaluation K V X E A := λ st, Some (Ok a, st).
Definition eval_fail {K V X E A} (e : E) : Evaluation K V X E A := λ st, Some (Err e, st).
Definition eval_lift {K V X E A} (r : Result A E) : Evaluation K V X E A := λ st, Some (r, st).
Definition eval_bind {K V X E A B} (m : Evaluation K V X E A) (k : A → Evaluation K V X E B) : Evaluation K V X E B :=
  λ st, match m st with
        | None => None
        | Some (Err e, st) => Some (Err e, st)
        | Some (Ok a, st) => k a st
        end.

Notation "'do!' x ':=' m 'in' k" := (eval_bind m (λ x, k))
  (at level 10, x pattern, m at level 100, k at level 200) : stasis_scope.

(** ** Evaluation *)

Section memoized.
Context {K V X E P : Type} `{EqDecision K}.
Context (limit : nat) (cycle_error : list K → E) (depth_error : E).
Context (prepare : K → Result P E) (body : (K → Evaluation K V X E V) → P → Evaluation K V X E V).
#[local] Abbreviation State := (Memo K V X).
#[local] Abbreviation M := (Evaluation K V X E).

Definition cached (k : K) (st : State) : option V := snd <$> List.find (λ e, bool_decide (e.1 = k)) (cache st).
Definition position (k : K) (st : State) : option nat := fst <$> list_find (λ j, j = k) (stack st).
Definition push (k : K) (st : State) : State := mkMemo (cache st) (stack st ++ [k]) (extra st).
Definition pop (st : State) : State := mkMemo (cache st) (removelast (stack st)) (extra st).
Definition remember (k : K) (v : V) (st : State) : State := mkMemo ((k, v) :: cache st) (stack st) (extra st).

(** The evaluation between push and pop, whose value is remembered. *)
Definition in_progress (k : K) (m : M V) : M V := λ st,
  match m (push k st) with
  | None => None
  | Some (r, st) =>
      let st := pop st in
      Some (r, match r with Ok v => remember k v st | Err _ => st end)
  end.

Fixpoint memoized (depth : nat) (k : K) : M V :=
  match depth with
  | O => λ _, None
  | S depth' => λ st,
      match cached k st with
      | Some v => Some (Ok v, st)
      | None =>
          match position k st with
          | Some i => Some (Err (cycle_error (drop i (stack st) ++ [k])), st)
          | None =>
              if limit <=? length (stack st) then Some (Err depth_error, st)
              else
                match prepare k with
                | Err e => Some (Err e, st)
                | Ok p => in_progress k (body (memoized depth') p) st
                end
          end
      end
  end.

(** ** It replies *)

(** With [n] declarations in progress an evaluation replies and leaves the stack; what it
    replies satisfies [Q]. *)
Definition replies_with {A} (n : nat) (m : M A) (Q : A → Prop) : Prop :=
  ∀ st, n ≤ length (stack st) → ∃ r st', m st = Some (r, st') ∧ stack st' = stack st ∧ ∀ a, r = Ok a → Q a.

Definition replies {A} (n : nat) (m : M A) : Prop := replies_with n m (λ _, True).

Lemma replies_lift {A} n (r : Result A E) (Q : A → Prop) : (∀ a, r = Ok a → Q a) → replies_with n (eval_lift r) Q.
Proof. intros Hr st _. by eexists _, _. Qed.

Lemma replies_ret {A} n (a : A) (Q : A → Prop) : Q a → replies_with n (eval_ret a) Q.
Proof. intros Ha. apply replies_lift. by intros b [= <-]. Qed.

Lemma replies_fail {A} n (e : E) (Q : A → Prop) : replies_with n (eval_fail e) Q.
Proof. by apply replies_lift. Qed.

Lemma replies_bind {A B} n (m : M A) (k : A → M B) (Q : A → Prop) (R : B → Prop) :
  replies_with n m Q → (∀ a, Q a → replies_with n (k a) R) → replies_with n (eval_bind m k) R.
Proof.
  intros Hm Hk st Hst. unfold eval_bind. destruct (Hm st Hst) as (r & st1 & -> & Hs & Hr). destruct r as [a|e]; [|by eexists _, _].
  destruct (Hk a (Hr a eq_refl) st1) as (r2 & st2 & -> & Hs2 & HR); [by rewrite Hs|]. exists r2, st2. split_and!; [done|congruence|done].
Qed.

Lemma replies_mono {A} n (m : M A) (Q R : A → Prop) : replies_with n m Q → (∀ a, Q a → R a) → replies_with n m R.
Proof. intros Hm HQ st Hst. destruct (Hm st Hst) as (r & st' & ? & ? & Hr). exists r, st'. split_and!; [done..|]. intros a Ha. by apply HQ, Hr. Qed.

Context (body_answers : ∀ n rec p, (∀ k, replies n (rec k)) → replies n (body rec p)).

Lemma memoized_answers depth : ∀ n k, 1 ≤ depth → limit < n + depth → replies n (memoized depth k).
Proof.
  induction depth as [|depth IH]; intros n k Hd Hn; [lia|]. intros st Hst. cbn [memoized].
  destruct (cached k st); [by eexists _, _|]. destruct (position k st); [by eexists _, _|].
  destruct (Nat.leb_spec limit (length (stack st))); [by eexists _, _|]. destruct (prepare k) as [p|e]; [|by eexists _, _].
  unfold in_progress.
  destruct (body_answers (S (length (stack st))) (memoized depth) p) with (st := push k st) as (r & st' & -> & Hs & _).
  - intros k'. apply IH; lia.
  - cbn [push stack]. rewrite length_app. simpl. lia.
  - eexists _, _. split; [done|]. split; [|done]. transitivity (stack (pop st')); [by destruct r|]. cbn [pop stack]. rewrite Hs. cbn [push stack].
    apply removelast_last.
Qed.

(** ** Its meaning *)

Context (step : (K → V → Prop) → P → V → Prop).
Context (step_mono : ∀ (D D' : K → V → Prop) p v, (∀ k w, D k w → D' k w) → step D p v → step D' p v).

(** The value of a declaration, by way of at most [n] nested ones. *)
Fixpoint denotes_in (n : nat) (k : K) (v : V) : Prop :=
  match n with
  | O => False
  | S n' => ∃ p, prepare k = Ok p ∧ step (denotes_in n') p v
  end.

Definition denotes (k : K) (v : V) : Prop := ∃ n, denotes_in n k v.

Lemma denotes_in_S n : ∀ k v, denotes_in n k v → denotes_in (S n) k v.
Proof.
  induction n as [|n IH]; intros k v; [done|]. intros (p & Hp & Hs). exists p. split; [done|]. by eapply step_mono.
Qed.

Lemma denotes_in_mono n n' k v : denotes_in n k v → n ≤ n' → denotes_in n' k v.
Proof. intros H. induction 1 as [|n' _ IH]; [done|]. by apply denotes_in_S. Qed.

(** *** Soundness *)

(** What is remembered is right. *)
Definition sound (st : State) : Prop := ∀ k v, (k, v) ∈ cache st → denotes k v.

Definition finds {A} (m : M A) (Q : A → Prop) : Prop :=
  ∀ st r st', sound st → m st = Some (r, st') → sound st' ∧ stack st' = stack st ∧ ∀ a, r = Ok a → Q a.

Lemma finds_lift {A} (r : Result A E) (Q : A → Prop) : (∀ a, r = Ok a → Q a) → finds (eval_lift r) Q.
Proof. intros Hr st r' st' Hs [= <- <-]. done. Qed.

Lemma finds_ret {A} (a : A) (Q : A → Prop) : Q a → finds (eval_ret a) Q.
Proof. intros Ha. apply finds_lift. by intros b [= <-]. Qed.

Lemma finds_fail {A} (e : E) (Q : A → Prop) : finds (eval_fail e) Q.
Proof. by apply finds_lift. Qed.

Lemma finds_bind {A B} (m : M A) (k : A → M B) (Q : A → Prop) (R : B → Prop) :
  finds m Q → (∀ a, Q a → finds (k a) R) → finds (eval_bind m k) R.
Proof.
  intros Hm Hk st r st' Hs. unfold eval_bind. destruct (m st) as [[[a|e] st1]|] eqn:Em; [| |done].
  - destruct (Hm _ _ _ Hs Em) as (Hs1 & Hst & Ha). intros Ek. destruct (Hk a (Ha a eq_refl) _ _ _ Hs1 Ek) as (? & ? & ?).
    split_and!; [done|congruence|done].
  - intros [= <- <-]. destruct (Hm _ _ _ Hs Em) as (Hs1 & Hst & _). by split_and!.
Qed.

Lemma finds_mono {A} (m : M A) (Q R : A → Prop) : finds m Q → (∀ a, Q a → R a) → finds m R.
Proof. intros Hm HQ st r st' Hs Er. destruct (Hm _ _ _ Hs Er) as (? & ? & Ha). split_and!; [done..|]. intros a Hr. by apply HQ, Ha. Qed.

Lemma cached_elem k v st : cached k st = Some v → (k, v) ∈ cache st.
Proof.
  unfold cached. destruct (List.find _ _) as [[k' v']|] eqn:Em; [|done]. intros [= ->]. apply find_some in Em as [Hin Hk].
  simpl in Hk. apply bool_decide_eq_true in Hk as ->. by apply list_elem_of_In.
Qed.

Context (step_finite : ∀ p v, step denotes p v → ∃ n, step (denotes_in n) p v).
Context (body_finds : ∀ rec p, (∀ k, finds (rec k) (denotes k)) → finds (body rec p) (step denotes p)).

Lemma step_denotes k p v : prepare k = Ok p → step denotes p v → denotes k v.
Proof. intros Hp [n Hn]%step_finite. by exists (S n), p. Qed.

Lemma memoized_sound depth : ∀ k, finds (memoized depth k) (denotes k).
Proof.
  induction depth as [|depth IH]; intros k st r st' Hs; cbn [memoized]; [done|].
  destruct (cached k st) as [w|] eqn:Ec.
  { intros [= <- <-]. split_and!; [done..|]. intros a [= <-]. by apply Hs, cached_elem. }
  destruct (position k st); [by intros [= <- <-]|]. destruct (limit <=? _); [by intros [= <- <-]|].
  destruct (prepare k) as [p|e] eqn:Ep; [|by intros [= <- <-]]. unfold in_progress.
  destruct (body (memoized depth) p (push k st)) as [[r1 st1]|] eqn:Eb; [|done]. intros [= <- <-].
  destruct (body_finds (memoized depth) p IH _ _ _ (Hs : sound (push k st)) Eb) as (Hs1 & Hst & Hr).
  assert (stack (pop st1) = stack st) as Hpop by (cbn [pop stack]; rewrite Hst; apply removelast_last).
  destruct r1 as [v|e]; [|by split_and!].
  assert (denotes k v) as Hv by (by eapply step_denotes; [|apply Hr]). split_and!; [|done|by intros a [= <-]].
  intros k' v' [[= -> ->]|Hin]%elem_of_cons; [done|]. by apply Hs1.
Qed.

(** *** Completeness *)

Context (step_det : ∀ D, (∀ k v w, D k v → D k w → v = w) → ∀ p v w, step D p v → step D p w → v = w).
Context (is_limit : E → Prop) (depth_is_limit : is_limit depth_error).

Lemma denotes_in_det n : ∀ k v w, denotes_in n k v → denotes_in n k w → v = w.
Proof.
  induction n as [|n IH]; intros k v w; [done|]. intros (p & Hp & Hv) (q & Hq & Hw). rewrite Hp in Hq. injection Hq as <-.
  by eapply step_det.
Qed.

Lemma denotes_det k v w : denotes k v → denotes k w → v = w.
Proof.
  intros [n Hn] [m Hm]. eapply (denotes_in_det (max n m)); eapply denotes_in_mono; try done; lia.
Qed.

(** No declaration in progress has a value by way of [n] nested declarations. *)
Definition fresh (n : nat) (st : State) : Prop := ∀ k v, k ∈ stack st → ¬ denotes_in n k v.

Definition completes {A} (n : nat) (m : M A) (a : A) : Prop :=
  ∀ st r st', sound st → fresh n st → m st = Some (r, st') →
    sound st' ∧ stack st' = stack st ∧ (r = Ok a ∨ ∃ e, r = Err e ∧ is_limit e).

Lemma completes_ret {A} n (a : A) : completes n (eval_ret a) a.
Proof. intros st r st' Hs _ [= <- <-]. split_and!; [done..|by left]. Qed.

Lemma completes_lift {A} n (r : Result A E) (a : A) : r = Ok a → completes n (eval_lift r) a.
Proof. intros ->. apply completes_ret. Qed.

Lemma completes_bind {A B} n (m : M A) (k : A → M B) a b :
  completes n m a → completes n (k a) b → completes n (eval_bind m k) b.
Proof.
  intros Hm Hk st r st' Hs Hf. unfold eval_bind. destruct (m st) as [[r1 st1]|] eqn:Em; [|done].
  destruct (Hm _ _ _ Hs Hf Em) as (Hs1 & Hst & [->|(e & -> & He)]).
  - intros Ek. destruct (Hk _ _ _ Hs1 ltac:(unfold fresh; by rewrite Hst) Ek) as (? & ? & ?). split_and!; [done|congruence|done].
  - intros [= <- <-]. split_and!; [done..|]. right. by exists e.
Qed.

Context (body_completes : ∀ n rec p v,
  (∀ k w, denotes_in n k w → completes n (rec k) w) → step (denotes_in n) p v → completes n (body rec p) v).

Context `{EqDecision V} `{∀ e, Decision (is_limit e)}.

#[local] Instance completed_dec (r : Result V E) v : Decision (r = Ok v ∨ ∃ e, r = Err e ∧ is_limit e).
Proof.
  destruct r as [w|e].
  - destruct (decide (w = v)) as [->|Hn]; [by left; left|]. right. intros [[= ->]|(e & He & _)]; done.
  - destruct (decide (is_limit e)) as [He|Hn]; [left; right; by exists e|]. right. intros [?|(e' & [= <-] & He)]; done.
Defined.

(** A value that is found at no smaller depth. *)
Lemma in_progress_completes n k p v (rec : K → M V) :
  (∀ k w, denotes_in n k w → completes n (rec k) w) →
  prepare k = Ok p → step (denotes_in n) p v → (∀ w, ¬ denotes_in n k w) →
  ∀ st r st', sound st → fresh n st → in_progress k (body rec p) st = Some (r, st') → r = Ok v ∨ ∃ e, r = Err e ∧ is_limit e.
Proof.
  intros Hrec Hp Hv Hk st r st' Hs Hf. unfold in_progress.
  destruct (body rec p (push k st)) as [[r1 st1]|] eqn:Eb; [|done]. intros [= <- _].
  destruct (body_completes n rec p v Hrec Hv (push k st) r1 st1) as (_ & _ & ?); try done.
  intros j w [Hj| ->%list_elem_of_singleton]%elem_of_app; [by apply Hf|by apply Hk].
Qed.

Lemma position_elem k st i : position k st = Some i → k ∈ stack st.
Proof.
  unfold position. destruct (list_find _ _) as [[j w]|] eqn:El; [|done]. apply list_find_Some in El as (Hl & -> & _). intros _.
  by eapply list_elem_of_lookup_2.
Qed.

Lemma memoized_completes n : ∀ depth k v, denotes_in n k v → completes n (memoized depth k) v.
Proof.
  induction n as [|n IH]; intros depth k v; [done|]. intros Hv st r st' Hs Hf Er.
  destruct (memoized_sound depth k st r st' Hs Er) as (Hs' & Hst & Hden). split_and!; [done..|].
  destruct (decide (r = Ok v ∨ ∃ e, r = Err e ∧ is_limit e)) as [?|Hno]; [done|exfalso].
  (* at a smaller depth the hypothesis of the induction applies *)
  assert (∀ w, ¬ denotes_in n k w) as Hleast.
  { intros w Hw. assert (w = v) as -> by (by eapply (denotes_in_det (S n)); [apply denotes_in_S|]). apply Hno.
    destruct (IH depth k v Hw st r st') as (_ & _ & ?); try done. intros j u Hj Hu. by eapply Hf, denotes_in_S. }
  apply Hno. revert Er. destruct depth as [|depth]; [done|]. cbn [memoized]. destruct (cached k st) as [w|] eqn:Ec.
  { intros [= <- _]. left. f_equal. eapply denotes_det; [by apply Hs, cached_elem|by exists (S n)]. }
  destruct (position k st) as [i|] eqn:Ei; [apply position_elem in Ei; by destruct (Hf k v Ei)|].
  destruct (limit <=? length (stack st)); [intros [= <- _]; right; by exists depth_error|].
  destruct Hv as (p & Hp & Hv). rewrite Hp. eapply in_progress_completes; try done.
  - intros k' w. apply IH.
  - intros j u Hj Hu. by eapply Hf, denotes_in_S.
Qed.
End memoized.

Arguments finds_bind {K V X E P prepare step A B} m k Q R.
Arguments finds_lift {K V X E P prepare step A} r Q.
Arguments finds_ret {K V X E P prepare step A} a Q.
Arguments finds_fail {K V X E P prepare step A} e Q.
Arguments finds_mono {K V X E P prepare step A} m Q R.
Arguments completes_bind {K V X E P prepare step is_limit A B} n m k a b.
Arguments completes_ret {K V X E P prepare step is_limit A} n a.
Arguments completes_lift {K V X E P prepare step is_limit A} n r a.

#[export] Hint Resolve replies_ret replies_fail finds_fail completes_ret : stasis.
