(* ===== verification/Contracts.v ===== *)
(** * The hot-swap contracts

    The messages of [crates/stasis_runner/src/swap/contracts.rs] that the
    watcher, the coordinator, the compiler thread and the commit gate exchange,
    with their constructors and the version check.  Serialization attributes are
    not modelled. *)

From S2P Require Import Prelude BTree.
From stdpp Require Import pretty.
#[local] Open Scope Z_scope.

(** ** Paths

    [PathBuf] compares and hashes by its components; the spelling between
    separators is not observable here. *)

Inductive PathComponent :=
| RootDir | CurDir | ParentDir | Normal (name : string).

Definition component_key (c : PathComponent) : nat * string :=
  match c with
  | RootDir => (1%nat, "") | CurDir => (2%nat, "") | ParentDir => (3%nat, "")
  | Normal name => (4%nat, name)
  end%string.

#[export] Instance PathComponent_ord : OrdKey PathComponent.
Proof. refine (ord_via component_key _). intros [] [] [=]; congruence. Defined.

Definition PathBuf := list PathComponent.

(** ** Versions *)

Definition CONTRACT_VERSION : Z := 1.
Definition CONTRACT_VERSION_UNSUPPORTED_CODE : string := "stasis.contractVersionUnsupported".

Record ContractVersionError := mkVersionError { expected : Z; actual : Z }.

(** The [Display] implementation. *)
Definition version_error_display (e : ContractVersionError) : string :=
  "contract version mismatch: expected " +:+ pretty (expected e) +:+ ", got " +:+ pretty (actual e).

Definition validate_contract_version (version : Z) : Result unit ContractVersionError :=
  if version =? CONTRACT_VERSION then Ok tt else Err (mkVersionError CONTRACT_VERSION version).

(** ** Identifiers *)

Record RequestId := mkRequestId { request_number : Z }.
Record FnId := mkFnId { fn_number : Z }.
Record CodeGeneration := mkGeneration { generation_number : Z }.
Record LayoutHash := mkLayoutHash { layout_bytes : list Z }.

#[export] Instance RequestId_ord : OrdKey RequestId.
Proof. refine (ord_via request_number _). intros [] []. simpl. congruence. Defined.
#[export] Instance FnId_ord : OrdKey FnId.
Proof. refine (ord_via fn_number _). intros [] []. simpl. congruence. Defined.
#[export] Instance CodeGeneration_ord : OrdKey CodeGeneration.
Proof. refine (ord_via generation_number _). intros [] []. simpl. congruence. Defined.
#[export] Instance LayoutHash_eq_dec : EqDecision LayoutHash.
Proof. solve_decision. Defined.

(** ** File changes *)

Inductive TextSource := FileWatcher | EditorBuffer.
Inductive FileChangeKind := Created | Modified | Deleted.

Record FileChangeEvent := mkFileChange {
  fc_contract_version : Z;
  fc_path : PathBuf;
  fc_revision : Z;
  fc_text_source : TextSource;
  fc_change_kind : FileChangeKind;
}.

Definition FileChangeEvent_new (path : PathBuf) (revision : Z) (src : TextSource)
    (kind : FileChangeKind) : FileChangeEvent :=
  mkFileChange CONTRACT_VERSION path revision src kind.

Definition FileChangeEvent_validate_version (e : FileChangeEvent) : Result unit ContractVersionError :=
  validate_contract_version (fc_contract_version e).

(** ** Compile requests and results *)

Inductive TargetMode := JitDev | AotProd.

Record CompileRequest := mkCompileRequest {
  cq_contract_version : Z;
  cq_request_id : RequestId;
  cq_changed_files : list PathBuf;
  cq_target_mode : TargetMode;
  cq_host_set_id : option string;
  cq_host_set_hash : option (list Z);
}.

Definition CompileRequest_new (id : RequestId) (changed_files : list PathBuf) (mode : TargetMode)
    : CompileRequest :=
  mkCompileRequest CONTRACT_VERSION id changed_files mode None None.

Definition CompileRequest_validate_version (r : CompileRequest) : Result unit ContractVersionError :=
  validate_contract_version (cq_contract_version r).

Inductive DiagnosticSeverity := SevError | SevWarning | SevNote.

Record Diagnostic := mkDiagnostic {
  diag_severity : DiagnosticSeverity;
  diag_code : option string;
  diag_message : string;
  diag_path : option PathBuf;
  diag_line : option Z;
  diag_column : option Z;
}.

Record FunctionPatch := mkFunctionPatch { patch_fn_id : FnId }.
Record FunctionPatchSet := mkFunctionPatchSet { functions : list FunctionPatch }.
Record AotFunctionSymbol := mkAotSymbol { aot_fn_id : FnId; aot_symbol : string }.
Record JitCodePtrOverride := mkOverride { override_fn_id : FnId; override_code_ptr : Z }.

Inductive CompileStatus := CompileSuccess | CompileFailed.

#[export] Instance CompileStatus_eq_dec : EqDecision CompileStatus.
Proof. solve_decision. Defined.

Record CompileResult := mkCompileResult {
  cr_contract_version : Z;
  cr_request_id : RequestId;
  cr_status : CompileStatus;
  cr_diagnostics : list Diagnostic;
  cr_layout_hash : option LayoutHash;
  cr_fn_patch_set : option FunctionPatchSet;
  cr_hook_symbol : option string;
  cr_host_set_id : option string;
  cr_host_set_hash : option (list Z);
  cr_hook_fn_id : option FnId;
  cr_aot_linked_image_path : option PathBuf;
  cr_aot_linked_image_size_bytes : option Z;
  cr_aot_linked_image_sha256 : option string;
  cr_aot_function_symbols : option (list AotFunctionSymbol);
  cr_jit_code_ptr_overrides : option (list JitCodePtrOverride);
}.

Definition CompileResult_validate_version (r : CompileResult) : Result unit ContractVersionError :=
  validate_contract_version (cr_contract_version r).

Definition success_with_host_set_metadata (id : RequestId) (layout : LayoutHash)
    (patches : FunctionPatchSet) (host_set_id : option string) (host_set_hash : option (list Z))
    (hook_symbol : option string) (hook_fn_id : option FnId) (image_path : option PathBuf)
    (image_size : option Z) (image_sha256 : option string)
    (symbols : option (list AotFunctionSymbol)) : CompileResult :=
  mkCompileResult CONTRACT_VERSION id CompileSuccess [] (Some layout) (Some patches) hook_symbol
    host_set_id host_set_hash hook_fn_id image_path image_size image_sha256 symbols None.

Definition success_with_hook_symbol (id : RequestId) (layout : LayoutHash)
    (patches : FunctionPatchSet) (hook_symbol : option string) : CompileResult :=
  success_with_host_set_metadata id layout patches None None hook_symbol None None None None None.

Definition CompileResult_success (id : RequestId) (layout : LayoutHash) (patches : FunctionPatchSet)
    : CompileResult := success_with_hook_symbol id layout patches None.

Definition CompileResult_failed (id : RequestId) (diagnostics : list Diagnostic) : CompileResult :=
  mkCompileResult CONTRACT_VERSION id CompileFailed diagnostics None None None None None None None
    None None None None.

(** ** Commit requests and results *)

Record SwapCommitRequest := mkCommitRequest {
  sq_contract_version : Z;
  sq_request_id : RequestId;
  sq_layout_hash : LayoutHash;
  sq_fn_patch_set : FunctionPatchSet;
  sq_hook_symbol : option string;
  sq_host_set_id : option string;
  sq_host_set_hash : option (list Z);
  sq_hook_fn_id : option FnId;
}.

Definition SwapCommitRequest_new (id : RequestId) (layout : LayoutHash) (patches : FunctionPatchSet)
    (hook_symbol : option string) : SwapCommitRequest :=
  mkCommitRequest CONTRACT_VERSION id layout patches hook_symbol None None None.

Definition SwapCommitRequest_validate_version (r : SwapCommitRequest)
    : Result unit ContractVersionError :=
  validate_contract_version (sq_contract_version r).

Inductive SwapCommitStatus := CommitSuccess | CommitFailed.

#[export] Instance SwapCommitStatus_eq_dec : EqDecision SwapCommitStatus.
Proof. solve_decision. Defined.

Record SwapCommitResult := mkCommitResult {
  sr_contract_version : Z;
  sr_request_id : RequestId;
  sr_status : SwapCommitStatus;
  sr_swapped_fn_ids : list FnId;
  sr_new_generation : option CodeGeneration;
  sr_error : option string;
}.

Definition SwapCommitResult_validate_version (r : SwapCommitResult)
    : Result unit ContractVersionError :=
  validate_contract_version (sr_contract_version r).

Definition SwapCommitResult_success (id : RequestId) (swapped : list FnId) (g : CodeGeneration)
    : SwapCommitResult :=
  mkCommitResult CONTRACT_VERSION id CommitSuccess swapped (Some g) None.

Definition SwapCommitResult_failed (id : RequestId) (error : string) : SwapCommitResult :=
  mkCommitResult CONTRACT_VERSION id CommitFailed [] None (Some error).

#[export] Instance RequestId_eq_dec : EqDecision RequestId.
Proof. solve_decision. Defined.
#[export] Instance FnId_eq_dec : EqDecision FnId.
Proof. solve_decision. Defined.
