(* ===== verification/Pipeline.v ===== *)
(** * The development hot-swap pipeline

    Models [DevHotSwapPipeline] of [crates/stasis_runner/src/swap/pipeline.rs].
    Each crossbeam channel is the FIFO list of the messages sent and not yet
    received; the compiler thread is the state of its backend ([None] once the
    thread has returned), and its interleaving with the coordinator is an
    explicit sequence of steps.  The backend is the class [CompilerBackend] (the
    Rust trait) and the commit closure the class [CommitGate]; what the liveness
    results need of them is stated by their lawful subclasses. *)

From S2P Require Import Prelude BTree Contracts.
From stdpp Require Import pretty.
#[local] Open Scope Z_scope.

Definition PIPELINE_STOPPED_BEFORE_COMMIT : string :=
  "development swap pipeline stopped before candidate commit".

Inductive CompilerThreadMessage :=
| Compile (request : CompileRequest)
| Shutdown.

(** ** The collaborators *)

Class CompilerBackend (B : Type) := compile : B → CompileRequest → B * CompileResult.

(** The closure given to [process_commits_at_safe_point]. *)
Class CommitGate (A : Type) := apply_commit : A → SwapCommitRequest → A * SwapCommitResult.

(** Answers carry the id of their question. *)
Class LawfulBackend (B : Type) `{CompilerBackend B} :=
  compile_echo : ∀ b r, cr_request_id (compile b r).2 = cq_request_id r.
Class LawfulGate (A : Type) `{CommitGate A} :=
  commit_echo : ∀ a r, sr_request_id (apply_commit a r).2 = sq_request_id r.

(** [Instant::now]: the time of the [n]-th reading. *)
Class Clock := now : nat → Z.

(** ** The pipeline *)

Record Pipeline (B : Type) := mkPipeline {
  file_changes : list FileChangeEvent;           (* file_change_tx / rx *)
  compiler_queue : list CompilerThreadMessage;   (* compiler_tx *)
  compile_results : list CompileResult;          (* compile_result_rx *)
  commit_requests : list SwapCommitRequest;      (* commit_request_tx / rx *)
  commit_results : list SwapCommitResult;        (* commit_result_tx / rx *)
  pending_files : list PathBuf;                  (* BTreeSet *)
  target_mode : TargetMode;
  host_set_id : option string;
  host_set_hash : option (list Z);
  in_flight_compile : option RequestId;
  in_flight_compile_started_at : option Z;
  in_flight_commit : option RequestId;
  in_flight_commit_started_at : option Z;
  next_request_id : Z;
  last_compile_result : option CompileResult;
  last_compile_duration : option Z;
  last_commit_result : option SwapCommitResult;
  last_commit_duration : option Z;
  compiler_thread : bool;                        (* the join handle is present *)
  worker : option B;                             (* the thread runs with this backend *)
  clock_reads : nat;
}.
Arguments mkPipeline {B}.
Arguments file_changes {B}.
Arguments compiler_queue {B}.
Arguments compile_results {B}.
Arguments commit_requests {B}.
Arguments commit_results {B}.
Arguments pending_files {B}.
Arguments target_mode {B}.
Arguments host_set_id {B}.
Arguments host_set_hash {B}.
Arguments in_flight_compile {B}.
Arguments in_flight_compile_started_at {B}.
Arguments in_flight_commit {B}.
Arguments in_flight_commit_started_at {B}.
Arguments next_request_id {B}.
Arguments last_compile_result {B}.
Arguments last_compile_duration {B}.
Arguments last_commit_result {B}.
Arguments last_commit_duration {B}.
Arguments compiler_thread {B}.
Arguments worker {B}.
Arguments clock_reads {B}.

(** Field assignments [self.f = v]. *)
Definition set_file_changes {B} (v : list FileChangeEvent) (s : Pipeline B) : Pipeline B :=
  mkPipeline v (compiler_queue s) (compile_results s) (commit_requests s) (commit_results s)
    (pending_files s) (target_mode s) (host_set_id s) (host_set_hash s) (in_flight_compile
    s) (in_flight_compile_started_at s) (in_flight_commit s) (in_flight_commit_started_at s)
    (next_request_id s) (last_compile_result s) (last_compile_duration s)
    (last_commit_result s) (last_commit_duration s) (compiler_thread s) (worker s)
    (clock_reads s).
Definition set_compiler_queue {B} (v : list CompilerThreadMessage) (s : Pipeline B) : Pipeline B :=
  mkPipeline (file_changes s) v (compile_results s) (commit_requests s) (commit_results s)
    (pending_files s) (target_mode s) (host_set_id s) (host_set_hash s) (in_flight_compile
    s) (in_flight_compile_started_at s) (in_flight_commit s) (in_flight_commit_started_at s)
    (next_request_id s) (last_compile_result s) (last_compile_duration s)
    (last_commit_result s) (last_commit_duration s) (compiler_thread s) (worker s)
    (clock_reads s).
Definition set_compile_results {B} (v : list CompileResult) (s : Pipeline B) : Pipeline B :=
  mkPipeline (file_changes s) (compiler_queue s) v (commit_requests s) (commit_results s)
    (pending_files s) (target_mode s) (host_set_id s) (host_set_hash s) (in_flight_compile
    s) (in_flight_compile_started_at s) (in_flight_commit s) (in_flight_commit_started_at s)
    (next_request_id s) (last_compile_result s) (last_compile_duration s)
    (last_commit_result s) (last_commit_duration s) (compiler_thread s) (worker s)
    (clock_reads s).
Definition set_commit_requests {B} (v : list SwapCommitRequest) (s : Pipeline B) : Pipeline B :=
  mkPipeline (file_changes s) (compiler_queue s) (compile_results s) v (commit_results s)
    (pending_files s) (target_mode s) (host_set_id s) (host_set_hash s) (in_flight_compile
    s) (in_flight_compile_started_at s) (in_flight_commit s) (in_flight_commit_started_at s)
    (next_request_id s) (last_compile_result s) (last_compile_duration s)
    (last_commit_result s) (last_commit_duration s) (compiler_thread s) (worker s)
    (clock_reads s).
Definition set_commit_results {B} (v : list SwapCommitResult) (s : Pipeline B) : Pipeline B :=
  mkPipeline (file_changes s) (compiler_queue s) (compile_results s) (commit_requests s) v
    (pending_files s) (target_mode s) (host_set_id s) (host_set_hash s) (in_flight_compile
    s) (in_flight_compile_started_at s) (in_flight_commit s) (in_flight_commit_started_at s)
    (next_request_id s) (last_compile_result s) (last_compile_duration s)
    (last_commit_result s) (last_commit_duration s) (compiler_thread s) (worker s)
    (clock_reads s).
Definition set_pending_files {B} (v : list PathBuf) (s : Pipeline B) : Pipeline B :=
  mkPipeline (file_changes s) (compiler_queue s) (compile_results s) (commit_requests s)
    (commit_results s) v (target_mode s) (host_set_id s) (host_set_hash s)
    (in_flight_compile s) (in_flight_compile_started_at s) (in_flight_commit s)
    (in_flight_commit_started_at s) (next_request_id s) (last_compile_result s)
    (last_compile_duration s) (last_commit_result s) (last_commit_duration s)
    (compiler_thread s) (worker s) (clock_reads s).
Definition set_target_mode {B} (v : TargetMode) (s : Pipeline B) : Pipeline B :=
  mkPipeline (file_changes s) (compiler_queue s) (compile_results s) (commit_requests s)
    (commit_results s) (pending_files s) v (host_set_id s) (host_set_hash s)
    (in_flight_compile s) (in_flight_compile_started_at s) (in_flight_commit s)
    (in_flight_commit_started_at s) (next_request_id s) (last_compile_result s)
    (last_compile_duration s) (last_commit_result s) (last_commit_duration s)
    (compiler_thread s) (worker s) (clock_reads s).
Definition set_host_set_id {B} (v : option string) (s : Pipeline B) : Pipeline B :=
  mkPipeline (file_changes s) (compiler_queue s) (compile_results s) (commit_requests s)
    (commit_results s) (pending_files s) (target_mode s) v (host_set_hash s)
    (in_flight_compile s) (in_flight_compile_started_at s) (in_flight_commit s)
    (in_flight_commit_started_at s) (next_request_id s) (last_compile_result s)
    (last_compile_duration s) (last_commit_result s) (last_commit_duration s)
    (compiler_thread s) (worker s) (clock_reads s).
Definition set_host_set_hash {B} (v : option (list Z)) (s : Pipeline B) : Pipeline B :=
  mkPipeline (file_changes s) (compiler_queue s) (compile_results s) (commit_requests s)
    (commit_results s) (pending_files s) (target_mode s) (host_set_id s) v
    (in_flight_compile s) (in_flight_compile_started_at s) (in_flight_commit s)
    (in_flight_commit_started_at s) (next_request_id s) (last_compile_result s)
    (last_compile_duration s) (last_commit_result s) (last_commit_duration s)
    (compiler_thread s) (worker s) (clock_reads s).
Definition set_in_flight_compile {B} (v : option RequestId) (s : Pipeline B) : Pipeline B :=
  mkPipeline (file_changes s) (compiler_queue s) (compile_results s) (commit_requests s)
    (commit_results s) (pending_files s) (target_mode s) (host_set_id s) (host_set_hash s) v
    (in_flight_compile_started_at s) (in_flight_commit s) (in_flight_commit_started_at s)
    (next_request_id s) (last_compile_result s) (last_compile_duration s)
    (last_commit_result s) (last_commit_duration s) (compiler_thread s) (worker s)
    (clock_reads s).
Definition set_in_flight_compile_started_at {B} (v : option Z) (s : Pipeline B) : Pipeline B :=
  mkPipeline (file_changes s) (compiler_queue s) (compile_results s) (commit_requests s)
    (commit_results s) (pending_files s) (target_mode s) (host_set_id s) (host_set_hash s)
    (in_flight_compile s) v (in_flight_commit s) (in_flight_commit_started_at s)
    (next_request_id s) (last_compile_result s) (last_compile_duration s)
    (last_commit_result s) (last_commit_duration s) (compiler_thread s) (worker s)
    (clock_reads s).
Definition set_in_flight_commit {B} (v : option RequestId) (s : Pipeline B) : Pipeline B :=
  mkPipeline (file_changes s) (compiler_queue s) (compile_results s) (commit_requests s)
    (commit_results s) (pending_files s) (target_mode s) (host_set_id s) (host_set_hash s)
    (in_flight_compile s) (in_flight_compile_started_at s) v (in_flight_commit_started_at s)
    (next_request_id s) (last_compile_result s) (last_compile_duration s)
    (last_commit_result s) (last_commit_duration s) (compiler_thread s) (worker s)
    (clock_reads s).
Definition set_in_flight_commit_started_at {B} (v : option Z) (s : Pipeline B) : Pipeline B :=
  mkPipeline (file_changes s) (compiler_queue s) (compile_results s) (commit_requests s)
    (commit_results s) (pending_files s) (target_mode s) (host_set_id s) (host_set_hash s)
    (in_flight_compile s) (in_flight_compile_started_at s) (in_flight_commit s) v
    (next_request_id s) (last_compile_result s) (last_compile_duration s)
    (last_commit_result s) (last_commit_duration s) (compiler_thread s) (worker s)
    (clock_reads s).
Definition set_next_request_id {B} (v : Z) (s : Pipeline B) : Pipeline B :=
  mkPipeline (file_changes s) (compiler_queue s) (compile_results s) (commit_requests s)
    (commit_results s) (pending_files s) (target_mode s) (host_set_id s) (host_set_hash s)
    (in_flight_compile s) (in_flight_compile_started_at s) (in_flight_commit s)
    (in_flight_commit_started_at s) v (last_compile_result s) (last_compile_duration s)
    (last_commit_result s) (last_commit_duration s) (compiler_thread s) (worker s)
    (clock_reads s).
Definition set_last_compile_result {B} (v : option CompileResult) (s : Pipeline B) : Pipeline B :=
  mkPipeline (file_changes s) (compiler_queue s) (compile_results s) (commit_requests s)
    (commit_results s) (pending_files s) (target_mode s) (host_set_id s) (host_set_hash s)
    (in_flight_compile s) (in_flight_compile_started_at s) (in_flight_commit s)
    (in_flight_commit_started_at s) (next_request_id s) v (last_compile_duration s)
    (last_commit_result s) (last_commit_duration s) (compiler_thread s) (worker s)
    (clock_reads s).
Definition set_last_compile_duration {B} (v : option Z) (s : Pipeline B) : Pipeline B :=
  mkPipeline (file_changes s) (compiler_queue s) (compile_results s) (commit_requests s)
    (commit_results s) (pending_files s) (target_mode s) (host_set_id s) (host_set_hash s)
    (in_flight_compile s) (in_flight_compile_started_at s) (in_flight_commit s)
    (in_flight_commit_started_at s) (next_request_id s) (last_compile_result s) v
    (last_commit_result s) (last_commit_duration s) (compiler_thread s) (worker s)
    (clock_reads s).
Definition set_last_commit_result {B} (v : option SwapCommitResult) (s : Pipeline B) : Pipeline B :=
  mkPipeline (file_changes s) (compiler_queue s) (compile_results s) (commit_requests s)
    (commit_results s) (pending_files s) (target_mode s) (host_set_id s) (host_set_hash s)
    (in_flight_compile s) (in_flight_compile_started_at s) (in_flight_commit s)
    (in_flight_commit_started_at s) (next_request_id s) (last_compile_result s)
    (last_compile_duration s) v (last_commit_duration s) (compiler_thread s) (worker s)
    (clock_reads s).
Definition set_last_commit_duration {B} (v : option Z) (s : Pipeline B) : Pipeline B :=
  mkPipeline (file_changes s) (compiler_queue s) (compile_results s) (commit_requests s)
    (commit_results s) (pending_files s) (target_mode s) (host_set_id s) (host_set_hash s)
    (in_flight_compile s) (in_flight_compile_started_at s) (in_flight_commit s)
    (in_flight_commit_started_at s) (next_request_id s) (last_compile_result s)
    (last_compile_duration s) (last_commit_result s) v (compiler_thread s) (worker s)
    (clock_reads s).
Definition set_compiler_thread {B} (v : bool) (s : Pipeline B) : Pipeline B :=
  mkPipeline (file_changes s) (compiler_queue s) (compile_results s) (commit_requests s)
    (commit_results s) (pending_files s) (target_mode s) (host_set_id s) (host_set_hash s)
    (in_flight_compile s) (in_flight_compile_started_at s) (in_flight_commit s)
    (in_flight_commit_started_at s) (next_request_id s) (last_compile_result s)
    (last_compile_duration s) (last_commit_result s) (last_commit_duration s) v (worker s)
    (clock_reads s).
Definition set_worker {B} (v : option B) (s : Pipeline B) : Pipeline B :=
  mkPipeline (file_changes s) (compiler_queue s) (compile_results s) (commit_requests s)
    (commit_results s) (pending_files s) (target_mode s) (host_set_id s) (host_set_hash s)
    (in_flight_compile s) (in_flight_compile_started_at s) (in_flight_commit s)
    (in_flight_commit_started_at s) (next_request_id s) (last_compile_result s)
    (last_compile_duration s) (last_commit_result s) (last_commit_duration s)
    (compiler_thread s) v (clock_reads s).
Definition set_clock_reads {B} (v : nat) (s : Pipeline B) : Pipeline B :=
  mkPipeline (file_changes s) (compiler_queue s) (compile_results s) (commit_requests s)
    (commit_results s) (pending_files s) (target_mode s) (host_set_id s) (host_set_hash s)
    (in_flight_compile s) (in_flight_compile_started_at s) (in_flight_commit s)
    (in_flight_commit_started_at s) (next_request_id s) (last_compile_result s)
    (last_compile_duration s) (last_commit_result s) (last_commit_duration s)
    (compiler_thread s) (worker s) v.
Ltac pl_simpl := cbn [file_changes compiler_queue compile_results commit_requests commit_results pending_files target_mode host_set_id host_set_hash in_flight_compile in_flight_compile_started_at in_flight_commit in_flight_commit_started_at next_request_id last_compile_result last_compile_duration last_commit_result last_commit_duration compiler_thread worker clock_reads set_file_changes set_compiler_queue set_compile_results set_commit_requests set_commit_results set_pending_files set_target_mode set_host_set_id set_host_set_hash set_in_flight_compile set_in_flight_compile_started_at set_in_flight_commit set_in_flight_commit_started_at set_next_request_id set_last_compile_result set_last_compile_duration set_last_commit_result set_last_commit_duration set_compiler_thread set_worker set_clock_reads] in *.

(** ** Channels and the clock *)

Section pipeline.
Context {B : Type} `{CompilerBackend B} `{Clock}.
Implicit Types s : Pipeline B.

(** [compiler_tx.send(message)]: fails once the thread has dropped its
    receiver, and every caller ignores the failure. *)
Definition send_compiler (m : CompilerThreadMessage) (s : Pipeline B) : Pipeline B :=
  match worker s with
  | Some _ => set_compiler_queue (compiler_queue s ++ [m]) s
  | None => s
  end.

(** [Instant::now()] *)
Definition read_clock (s : Pipeline B) : Z * Pipeline B :=
  (now (clock_reads s), set_clock_reads (S (clock_reads s)) s).

(** [started_at.take().map(|started| started.elapsed())] *)
Definition elapsed (started_at : option Z) (s : Pipeline B) : option Z * Pipeline B :=
  match started_at with
  | None => (None, s)
  | Some started => let '(t, s1) := read_clock s in (Some (Z.max 0 (t - started)), s1)
  end.

(** ** Construction *)

Definition with_target_mode (backend : B) (mode : TargetMode) : Pipeline B :=
  mkPipeline [] [] [] [] [] [] mode None None None None None None 1 None None None None
    true (Some backend) 0.

Definition Pipeline_new (backend : B) : Pipeline B := with_target_mode backend JitDev.

Definition set_host_set_contract (id : option string) (hash : option (list Z))
    (s : Pipeline B) : Pipeline B :=
  set_host_set_hash hash (set_host_set_id id s).

(** Also what a [watcher_sender] clone does. *)
Definition submit_file_change (event : FileChangeEvent) (s : Pipeline B) : Pipeline B :=
  set_file_changes (file_changes s ++ [event]) s.

(** ** The coordinator *)

Definition drain_file_changes (s : Pipeline B) : Pipeline B :=
  set_file_changes []
    (set_pending_files
       (foldl (λ files change, set_insert (fc_path change) files) (pending_files s)
          (file_changes s)) s).

Definition maybe_dispatch_compile_request (s : Pipeline B) : Pipeline B :=
  if bool_decide (in_flight_compile s ≠ None) || bool_decide (in_flight_commit s ≠ None) ||
     bool_decide (pending_files s = [])
  then s
  else
    let request_id := mkRequestId (next_request_id s) in
    let s1 := set_next_request_id (wrap 64 (next_request_id s + 1)) s in
    let changed_files := pending_files s1 in
    let s2 := set_pending_files [] s1 in
    let request := CompileRequest_new request_id changed_files (target_mode s2) in
    let request := mkCompileRequest (cq_contract_version request) (cq_request_id request)
      (cq_changed_files request) (cq_target_mode request) (host_set_id s2) (host_set_hash s2) in
    let s3 := send_compiler (Compile request) s2 in
    let s4 := set_in_flight_compile (Some request_id) s3 in
    let '(t, s5) := read_clock s4 in
    set_in_flight_compile_started_at (Some t) s5.

Definition enqueue_commit_request (request_id : RequestId) (layout : option LayoutHash)
    (patches : option FunctionPatchSet) (hook_symbol : option string) (hs_id : option string)
    (hs_hash : option (list Z)) (hook_fn_id : option FnId) (s : Pipeline B) : Pipeline B :=
  match layout with
  | None => s
  | Some layout_hash =>
  match patches with
  | None => s
  | Some fn_patch_set =>
      match functions fn_patch_set with
      | [] => s
      | _ :: _ =>
          let request := mkCommitRequest CONTRACT_VERSION request_id layout_hash fn_patch_set
            hook_symbol hs_id hs_hash hook_fn_id in
          let s1 := set_commit_requests (commit_requests s ++ [request]) s in
          let s2 := set_in_flight_commit (Some request_id) s1 in
          let '(t, s3) := read_clock s2 in
          set_in_flight_commit_started_at (Some t) s3
      end
  end end.

(** The result a mismatched contract version is replaced with. *)
Definition checked_compile_result (result : CompileResult) : CompileResult :=
  if is_ok (CompileResult_validate_version result) then result
  else CompileResult_failed (cr_request_id result)
    [mkDiagnostic SevError (Some CONTRACT_VERSION_UNSUPPORTED_CODE)
       ("compile contract version mismatch: expected " +:+ pretty CONTRACT_VERSION +:+
        ", got " +:+ pretty (cr_contract_version result)) None None None].

Definition handle_compile_result (result0 : CompileResult) (s : Pipeline B) : Pipeline B :=
  let result := checked_compile_result result0 in
  let s1 := set_last_compile_result (Some result) s in
  if bool_decide (in_flight_compile s1 = Some (cr_request_id result)) then
    let s2 := set_in_flight_compile None s1 in
    let started := in_flight_compile_started_at s2 in
    let '(d, s3) := elapsed started (set_in_flight_compile_started_at None s2) in
    let s4 := set_last_compile_duration d s3 in
    if bool_decide (cr_status result = CompileSuccess) then
      enqueue_commit_request (cr_request_id result) (cr_layout_hash result)
        (cr_fn_patch_set result) (cr_hook_symbol result) (cr_host_set_id result)
        (cr_host_set_hash result) (cr_hook_fn_id result) s4
    else s4
  else s1.

Definition drain_compile_results (s : Pipeline B) : Pipeline B :=
  foldl (λ s result, handle_compile_result result s) (set_compile_results [] s)
    (compile_results s).

Definition checked_commit_result (result : SwapCommitResult) : SwapCommitResult :=
  if is_ok (SwapCommitResult_validate_version result) then result
  else SwapCommitResult_failed (sr_request_id result)
    ("commit contract version mismatch: expected " +:+ pretty CONTRACT_VERSION +:+
     ", got " +:+ pretty (sr_contract_version result)).

Definition handle_commit_result (result0 : SwapCommitResult) (s : Pipeline B) : Pipeline B :=
  let result := checked_commit_result result0 in
  let s1 := set_last_commit_result (Some result) s in
  if bool_decide (in_flight_commit s1 = Some (sr_request_id result)) then
    let s2 := set_in_flight_commit None s1 in
    let started := in_flight_commit_started_at s2 in
    let '(d, s3) := elapsed started (set_in_flight_commit_started_at None s2) in
    set_last_commit_duration d s3
  else s1.

Definition drain_commit_results (s : Pipeline B) : Pipeline B :=
  foldl (λ s result, handle_commit_result result s) (set_commit_results [] s) (commit_results s).

Definition pump_coordinator (s : Pipeline B) : Pipeline B :=
  drain_commit_results (drain_compile_results (maybe_dispatch_compile_request
    (drain_file_changes s))).

Definition has_in_flight_work (s : Pipeline B) : bool :=
  bool_decide (in_flight_compile s ≠ None) || bool_decide (in_flight_commit s ≠ None) ||
  negb (bool_decide (pending_files s = [])).

Definition pending_commit_requests (s : Pipeline B) : nat := length (commit_requests s).

(** ** The compiler thread *)

(** One iteration of the thread's loop; blocked on an empty queue.  The
    compile call and its answer are reported. *)
Definition worker_step (s : Pipeline B) : Pipeline B * list (CompileRequest * CompileResult) :=
  match worker s, compiler_queue s with
  | Some b, Compile r :: q =>
      let '(b', res) := compile b r in
      (set_compile_results (compile_results s ++ [res])
         (set_compiler_queue q (set_worker (Some b') s)), [(r, res)])
  | Some _, Shutdown :: _ => (set_compiler_queue [] (set_worker None s), [])
  | _, _ => (s, [])
  end.

(** The thread run until it returns; [None] if it would wait forever. *)
Fixpoint worker_exit (q : list CompilerThreadMessage) (b : B)
    : option (list (CompileRequest * CompileResult)) :=
  match q with
  | [] => None
  | Shutdown :: _ => Some []
  | Compile r :: q' =>
      let '(b', res) := compile b r in
      rest ← worker_exit q' b'; Some ((r, res) :: rest)
  end.

(** [join_handle.join()] *)
Definition join_worker (s : Pipeline B)
    : option (Pipeline B * list (CompileRequest * CompileResult)) :=
  match worker s with
  | None => Some (s, [])
  | Some b =>
      calls ← worker_exit (compiler_queue s) b;
      Some (set_compile_results (compile_results s ++ calls.*2)
              (set_compiler_queue [] (set_worker None s)), calls)
  end.

(** ** Shutdown *)

Definition shutdown (s : Pipeline B)
    : option (Pipeline B * list (CompileRequest * CompileResult) * list SwapCommitResult) :=
  if negb (compiler_thread s) then Some (s, [], [])
  else
    let s1 := send_compiler Shutdown s in
    '(s2, calls) ← join_worker (set_compiler_thread false s1);
    let ids0 := match in_flight_compile s2 with Some id => set_insert id [] | None => [] end in
    let s3 := set_in_flight_compile None s2 in
    let ids1 := match in_flight_commit s3 with Some id => set_insert id ids0 | None => ids0 end in
    let s4 := set_in_flight_commit None s3 in
    let ids2 := foldl (λ ids request, set_insert (sq_request_id request) ids) ids1
      (commit_requests s4) in
    let s5 := set_commit_requests [] s4 in
    let s6 := set_file_changes [] s5 in
    let s7 := set_compile_results [] s6 in
    let s8 := set_commit_results [] s7 in
    let s9 := set_pending_files [] s8 in
    let s10 := set_in_flight_compile_started_at None s9 in
    let s11 := set_in_flight_commit_started_at None s10 in
    let results := (λ id, SwapCommitResult_failed id PIPELINE_STOPPED_BEFORE_COMMIT) <$> ids2 in
    let s12 := match last results with
               | Some r => set_last_commit_result (Some r) s11
               | None => s11
               end in
    Some (s12, calls, results).
End pipeline.

(** ** The safe point *)

Section safe_point.
Context {B : Type} {A : Type} `{CommitGate A}.

Fixpoint commit_loop (requests : list SwapCommitRequest) (gate : A)
    : A * list (SwapCommitRequest * SwapCommitResult) :=
  match requests with
  | [] => (gate, [])
  | request :: rest =>
      let '(gate1, result) := apply_commit gate request in
      let '(gate2, calls) := commit_loop rest gate1 in
      (gate2, (request, result) :: calls)
  end.

(** The closure's calls are reported; their number is what the code returns. *)
Definition process_commits_at_safe_point (gate : A) (s : Pipeline B)
    : Pipeline B * A * list (SwapCommitRequest * SwapCommitResult) :=
  let '(gate1, calls) := commit_loop (commit_requests s) gate in
  (set_commit_results (commit_results s ++ calls.*2) (set_commit_requests [] s), gate1, calls).
End safe_point.

(** ** Runs

    The pipeline, the commit gate and the calls made to the two so far. *)

Inductive Call :=
| CCompile (request : CompileRequest) (result : CompileResult)
| CCommit (request : SwapCommitRequest) (result : SwapCommitResult).

Record System (B A : Type) := mkSystem {
  pipe : Pipeline B;
  gate : A;
  history : list Call;
}.
Arguments mkSystem {B A}.
Arguments pipe {B A}.
Arguments gate {B A}.
Arguments history {B A}.

(** The compiler thread and the watchers run between any two of the four
    phases of [pump_coordinator], so each phase is an event of its own. *)
Inductive Event :=
| EvFile (event : FileChangeEvent)
| EvHostSet (id : option string) (hash : option (list Z))
| EvDrainFiles
| EvDispatch
| EvDrainCompile
| EvDrainCommit
| EvWorker
| EvCommits
| EvShutdown.

Section system.
Context {B A : Type} `{CompilerBackend B} `{CommitGate A} `{Clock}.

Definition System_new (backend : B) (g : A) (mode : TargetMode) : System B A :=
  mkSystem (with_target_mode backend mode) g [].

Definition compile_calls (l : list (CompileRequest * CompileResult)) : list Call :=
  (λ c, CCompile c.1 c.2) <$> l.
Definition commit_calls (l : list (SwapCommitRequest * SwapCommitResult)) : list Call :=
  (λ c, CCommit c.1 c.2) <$> l.

Definition on_pipe (f : Pipeline B → Pipeline B) (y : System B A) : System B A :=
  mkSystem (f (pipe y)) (gate y) (history y).

Definition step (e : Event) (y : System B A) : option (System B A) :=
  match e with
  | EvFile ev => Some (on_pipe (submit_file_change ev) y)
  | EvHostSet id hash => Some (on_pipe (set_host_set_contract id hash) y)
  | EvDrainFiles => Some (on_pipe drain_file_changes y)
  | EvDispatch => Some (on_pipe maybe_dispatch_compile_request y)
  | EvDrainCompile => Some (on_pipe drain_compile_results y)
  | EvDrainCommit => Some (on_pipe drain_commit_results y)
  | EvWorker =>
      let '(s, calls) := worker_step (pipe y) in
      Some (mkSystem s (gate y) (history y ++ compile_calls calls))
  | EvCommits =>
      let '(s, g, calls) := process_commits_at_safe_point (gate y) (pipe y) in
      Some (mkSystem s g (history y ++ commit_calls calls))
  | EvShutdown =>
      '(s, calls, _) ← shutdown (pipe y);
      Some (mkSystem s (gate y) (history y ++ compile_calls calls))
  end.

Fixpoint steps (es : list Event) (y : System B A) : option (System B A) :=
  match es with
  | [] => Some y
  | e :: rest => y1 ← step e y; steps rest y1
  end.

(** An uninterrupted [pump_coordinator]. *)
Definition pump_events : list Event := [EvDrainFiles; EvDispatch; EvDrainCompile; EvDrainCommit].
End system.
