(* ===== verification/PipelineProps.v ===== *)
(** * What the hot-swap pipeline guarantees

    Safety of every interleaving of the coordinator, the compiler thread, the
    watchers and the safe point for an arbitrary backend and commit gate;
    progress when the two echo request ids; no lost file change; shutdown. *)

From S2P Require Import Prelude BTree Contracts Pipeline.
#[local] Open Scope Z_scope.

(** ** Specification of a commit *)

(** [q] is the commit request the compile result [res] entitles to. *)
Record commit_of (res : CompileResult) (q : SwapCommitRequest) : Prop := {
  co_version : cr_contract_version res = CONTRACT_VERSION;
  co_status : cr_status res = CompileSuccess;
  co_id : sq_request_id q = cr_request_id res;
  co_own_version : sq_contract_version q = CONTRACT_VERSION;
  co_layout : cr_layout_hash res = Some (sq_layout_hash q);
  co_patches : cr_fn_patch_set res = Some (sq_fn_patch_set q);
  co_nonempty : functions (sq_fn_patch_set q) ≠ [];
  co_hook : sq_hook_symbol q = cr_hook_symbol res;
  co_host_id : sq_host_set_id q = cr_host_set_id res;
  co_host_hash : sq_host_set_hash q = cr_host_set_hash res;
  co_hook_fn : sq_hook_fn_id q = cr_hook_fn_id res;
}.

(** Every commit call directly follows the compile call that produced it. *)
Definition commits_follow (h : list Call) : Prop :=
  ∀ h1 q r h2, h = h1 ++ CCommit q r :: h2 →
  ∃ h0 c res, h1 = h0 ++ [CCompile c res] ∧ commit_of res q ∧
    sq_request_id q = cq_request_id c.

Definition compile_ids (h : list Call) : list Z :=
  omap (λ c, match c with
             | CCompile r _ => Some (request_number (cq_request_id r))
             | CCommit _ _ => None
             end) h.

Lemma commits_follow_nil : commits_follow [].
Proof. intros [|? ?] ? ? ? [=]. Qed.

Lemma snoc_split {A} (h h1 h2 : list A) x y :
  h ++ [x] = h1 ++ y :: h2 → (h2 = [] ∧ h1 = h ∧ x = y) ∨ ∃ h2', h2 = h2' ++ [x] ∧ h = h1 ++ y :: h2'.
Proof.
  destruct h2 as [|z h2 _] using rev_ind.
  - intros [-> [= ->]]%app_inj_tail. by left.
  - rewrite app_comm_cons, app_assoc. intros [-> ->]%app_inj_tail. right. by eexists.
Qed.

Lemma commits_follow_compile h c res : commits_follow h → commits_follow (h ++ [CCompile c res]).
Proof.
  intros Hh h1 q r h2 [(_ & _ & [=])|(h2' & -> & ->)]%snoc_split. by eapply Hh.
Qed.

Lemma commits_follow_commit h c res q r :
  commits_follow (h ++ [CCompile c res]) → commit_of res q →
  sq_request_id q = cq_request_id c →
  commits_follow ((h ++ [CCompile c res]) ++ [CCommit q r]).
Proof.
  intros Hh Hc Hid h1 q' r' h2 [(_ & -> & [= <- <-])|(h2' & -> & Heq)]%snoc_split.
  - by exists h, c, res.
  - by eapply Hh.
Qed.

(** ** The phases of the pipeline *)

(** In-flight ids and the contents of the request and result channels. *)
Record View := mkView {
  v_compile : option RequestId;
  v_commit : option RequestId;
  v_queue : list CompilerThreadMessage;
  v_results : list CompileResult;
  v_requests : list SwapCommitRequest;
  v_commit_results : list SwapCommitResult;
}.

Definition view {B} (s : Pipeline B) : View :=
  mkView (in_flight_compile s) (in_flight_commit s) (compiler_queue s) (compile_results s)
    (commit_requests s) (commit_results s).

Inductive phase : View → list Call → Prop :=
| ph_idle h : phase (mkView None None [] [] [] []) h
| ph_queued c h : phase (mkView (Some (cq_request_id c)) None [Compile c] [] [] []) h
| ph_compiled c res h :
    phase (mkView (Some (cq_request_id c)) None [] [res] [] []) (h ++ [CCompile c res])
| ph_lost_compile id h : phase (mkView (Some id) None [] [] [] []) h
| ph_requested c res q h :
    commit_of res q → sq_request_id q = cq_request_id c →
    phase (mkView None (Some (sq_request_id q)) [] [] [q] []) (h ++ [CCompile c res])
| ph_committed id r h : phase (mkView None (Some id) [] [] [] [r]) h
| ph_lost_commit id h : phase (mkView None (Some id) [] [] [] []) h.

(** ** What each operation does to the view *)

Section view.
Context {B : Type} `{CompilerBackend B} `{Clock}.
Implicit Types s : Pipeline B.

Lemma elapsed_spec o s : ∃ d n, elapsed o s = (d, set_clock_reads n s).
Proof. destruct o; [by do 2 eexists|]. exists None, (clock_reads s). by destruct s. Qed.

(** The fields [handle_compile_result] and its helpers leave alone. *)
Definition frame (s : Pipeline B) :=
  (worker s, compiler_thread s, next_request_id s, pending_files s, file_changes s,
   target_mode s).

Lemma dispatch_busy s :
  in_flight_compile s ≠ None ∨ in_flight_commit s ≠ None ∨ pending_files s = [] →
  maybe_dispatch_compile_request s = s.
Proof.
  intros Hb. unfold maybe_dispatch_compile_request.
  destruct (_ || _ || _) eqn:E; [done|]. to_props. tauto.
Qed.

(** The request [maybe_dispatch_compile_request] sends. *)
Definition dispatched (s : Pipeline B) : CompileRequest :=
  mkCompileRequest CONTRACT_VERSION (mkRequestId (next_request_id s)) (pending_files s)
    (target_mode s) (host_set_id s) (host_set_hash s).

Lemma dispatch_idle s :
  in_flight_compile s = None → in_flight_commit s = None → pending_files s ≠ [] →
  let s' := maybe_dispatch_compile_request s in
  view s' = mkView (Some (mkRequestId (next_request_id s))) None
    (match worker s with Some _ => compiler_queue s ++ [Compile (dispatched s)]
                       | None => compiler_queue s end)
    (compile_results s) (commit_requests s) (commit_results s) ∧
  frame s' = (worker s, compiler_thread s, wrap 64 (next_request_id s + 1), [],
              file_changes s, target_mode s).
Proof.
  intros E1 E2 E3. unfold maybe_dispatch_compile_request. rewrite E1, E2.
  rewrite (bool_decide_eq_false_2 (pending_files s = [])) by done.
  cbn -[wrap]. unfold send_compiler. pl_simpl.
  destruct (worker s) eqn:Ew; unfold view, frame; pl_simpl; by rewrite ?E2, ?Ew.
Qed.

Lemma checked_id r : cr_request_id (checked_compile_result r) = cr_request_id r.
Proof. unfold checked_compile_result. by case_match. Qed.

Lemma checked_success r :
  cr_status (checked_compile_result r) = CompileSuccess →
  checked_compile_result r = r ∧ cr_contract_version r = CONTRACT_VERSION.
Proof.
  unfold checked_compile_result, CompileResult_validate_version, validate_contract_version.
  destruct (_ =? _) eqn:E; [|done]. by to_props.
Qed.

Lemma enqueue_spec r s :
  let s' := enqueue_commit_request (cr_request_id r) (cr_layout_hash r) (cr_fn_patch_set r)
    (cr_hook_symbol r) (cr_host_set_id r) (cr_host_set_hash r) (cr_hook_fn_id r) s in
  cr_contract_version r = CONTRACT_VERSION → cr_status r = CompileSuccess →
  frame s' = frame s ∧
  (view s' = view s ∨
   ∃ q, commit_of r q ∧
     view s' = mkView (in_flight_compile s) (Some (sq_request_id q)) (compiler_queue s)
       (compile_results s) (commit_requests s ++ [q]) (commit_results s)).
Proof.
  intros s' Hv Hs. unfold s', enqueue_commit_request.
  destruct (cr_layout_hash r) as [lh|] eqn:El; [|by split; [|left]].
  destruct (cr_fn_patch_set r) as [ps|] eqn:Ep; [|by split; [|left]].
  destruct (functions ps) eqn:Ef; [by split; [|left]|]. cbn.
  split; [done|]. right. eexists (mkCommitRequest _ _ _ _ _ _ _ _). split; [|done].
  split; cbn; try done. by rewrite Ef.
Qed.

Lemma handle_compile_miss r s :
  in_flight_compile s ≠ Some (cr_request_id r) →
  view (handle_compile_result r s) = view s ∧ frame (handle_compile_result r s) = frame s.
Proof.
  intros Hne. unfold handle_compile_result. rewrite checked_id. pl_simpl.
  by rewrite bool_decide_eq_false_2.
Qed.

Lemma handle_compile_hit r s :
  in_flight_compile s = Some (cr_request_id r) →
  let s' := handle_compile_result r s in
  frame s' = frame s ∧
  (view s' = mkView None (in_flight_commit s) (compiler_queue s) (compile_results s)
     (commit_requests s) (commit_results s) ∨
   ∃ q, commit_of r q ∧
     view s' = mkView None (Some (sq_request_id q)) (compiler_queue s) (compile_results s)
       (commit_requests s ++ [q]) (commit_results s)).
Proof.
  intros Hin. unfold handle_compile_result. rewrite checked_id. pl_simpl.
  rewrite bool_decide_eq_true_2 by done.
  match goal with |- context [elapsed ?o ?t] => destruct (elapsed_spec o t) as (d & n & ->) end.
  case_bool_decide as Hok; [|by split; [|left]].
  destruct (checked_success r Hok) as [Er Hv]. rewrite Er in *.
  rewrite <- (checked_id r), Er.
  match goal with |- context [enqueue_commit_request _ _ _ _ _ _ _ ?t] =>
    destruct (enqueue_spec r t Hv Hok) as [Hf Hview] end.
  split; [by rewrite Hf|]. exact Hview.
Qed.

Lemma handle_commit_spec r s :
  let s' := handle_commit_result r s in
  frame s' = frame s ∧
  view s' = mkView (in_flight_compile s)
    (if bool_decide (in_flight_commit s = Some (sr_request_id r)) then None
     else in_flight_commit s)
    (compiler_queue s) (compile_results s) (commit_requests s) (commit_results s).
Proof.
  assert (sr_request_id (checked_commit_result r) = sr_request_id r) as Eid
    by (unfold checked_commit_result; by case_match).
  unfold handle_commit_result. rewrite Eid. pl_simpl. case_bool_decide; [|done].
  match goal with |- context [elapsed ?o ?t] => destruct (elapsed_spec o t) as (d & n & ->) end.
  done.
Qed.
End view.

(** ** The system invariant *)

Section safety.
Context {B A : Type} `{CompilerBackend B} `{CommitGate A} `{Clock}.
Implicit Types (s : Pipeline B) (y : System B A).

Definition queued_ids (q : list CompilerThreadMessage) : list Z :=
  omap (λ m, match m with
             | Compile r => Some (request_number (cq_request_id r))
             | Shutdown => None
             end) q.

(** [n] bounds the number of requests ever dispatched. *)
Record SysInv (n : Z) (y : System B A) : Prop := {
  si_phase : phase (view (pipe y)) (history y);
  si_worker : worker (pipe y) = None ↔ compiler_thread (pipe y) = false;
  si_follow : commits_follow (history y);
  si_ids : StronglySorted Z.lt (compile_ids (history y) ++ queued_ids (compiler_queue (pipe y)));
  si_next : Forall (λ id, id < next_request_id (pipe y))
              (compile_ids (history y) ++ queued_ids (compiler_queue (pipe y)));
  si_bound : 1 ≤ next_request_id (pipe y) ≤ n;
  si_files : sorted_keys (pending_files (pipe y));
  si_closed : worker (pipe y) = None →
    compiler_queue (pipe y) = [] ∧ compile_results (pipe y) = [] ∧ commit_requests (pipe y) = [];
}.

Lemma SysInv_new b g mode : SysInv 1 (System_new b g mode).
Proof.
  split; cbn; try done; try constructor.
  apply commits_follow_nil.
Qed.

(** Operations of the coordinator that keep the queue and the ids. *)
Lemma SysInv_frame n s s' (g : A) h :
  SysInv n (mkSystem s g h) → phase (view s') h → frame s' = frame s →
  compiler_queue s' = compiler_queue s →
  (worker s = None → compile_results s' = [] ∧ commit_requests s' = []) →
  SysInv n (mkSystem s' g h).
Proof.
  intros [] Hp [= Ew Et En Ep Ef Em] Eq Hc. cbn in *.
  split; cbn; rewrite ?Ew, ?Et, ?En, ?Ep, ?Eq; try done.
  intros Hw. split; [|by apply Hc]. by apply si_closed0.
Qed.

(** The phase determines the channels: at most one message is anywhere. *)
Lemma phase_results v h :
  phase v h → v_results v = [] ∨
  ∃ c res h0, h = h0 ++ [CCompile c res] ∧
    v = mkView (Some (cq_request_id c)) None [] [res] [] [].
Proof. intros []; eauto 10. Qed.

Lemma phase_exclusive v h : phase v h → v_compile v = None ∨ v_commit v = None.
Proof. intros []; auto. Qed.

Lemma phase_idle_view v h :
  phase v h → v_compile v = None → v_commit v = None → v = mkView None None [] [] [] [].
Proof. by intros []. Qed.

Lemma phase_queue v h :
  phase v h → v_queue v = [] ∨
  ∃ c, v = mkView (Some (cq_request_id c)) None [Compile c] [] [] [].
Proof. intros []; eauto. Qed.

Lemma phase_requests v h :
  phase v h → v_requests v = [] ∨
  ∃ c res q h0, h = h0 ++ [CCompile c res] ∧ commit_of res q ∧
    sq_request_id q = cq_request_id c ∧
    v = mkView None (Some (sq_request_id q)) [] [] [q] [].
Proof. intros []; eauto 12. Qed.

Lemma phase_commit_results v h :
  phase v h → v_commit_results v = [] ∨ ∃ id r, v = mkView None (Some id) [] [] [] [r].
Proof. intros []; eauto. Qed.

Lemma drain_compile_Inv n s (g : A) h :
  SysInv n (mkSystem s g h) → SysInv n (mkSystem (drain_compile_results s) g h).
Proof.
  intros HI. pose proof (si_phase _ _ HI) as Hp. cbn in Hp. unfold drain_compile_results.
  destruct (phase_results _ _ Hp) as [Hr|(c & res & h0 & -> & Hv)].
  { cbn in Hr. rewrite Hr. cbn [foldl]. apply (SysInv_frame _ s); try done.
    - unfold view in *. cbn. rewrite <- Hr. done.
    - intros Hw. apply HI in Hw as (_ & _ & ?). done. }
  injection Hv as V1 V2 V3 V4 V5 V6. rewrite V4. cbn [foldl].
  set (s1 := set_compile_results [] s).
  assert (frame s1 = frame s ∧ compiler_queue s1 = []) as [Hf1 Hq1] by done.
  assert (worker s = None → False) as Hlive.
  { intros Hw. apply HI in Hw as (_ & Hw & _). cbn in Hw. congruence. }
  destruct (decide (cq_request_id c = cr_request_id res)) as [Hid|Hid].
  - destruct (handle_compile_hit res s1) as [Hf Hcase]; [cbn; congruence|].
    cbv zeta in Hf, Hcase. subst s1. pl_simpl.
    rewrite V2, V3, V5, V6 in Hcase.
    apply (SysInv_frame _ s); [done| |by rewrite Hf| |done].
    + destruct Hcase as [->|(q & Hq & ->)]; [apply ph_idle|].
      apply ph_requested; [done|]. by rewrite (co_id _ _ Hq).
    + destruct Hcase as [E|(q & Hq & E)]; injection E; congruence.
  - destruct (handle_compile_miss res s1) as [Hv1 Hf1']; [cbn; congruence|].
    subst s1. apply (SysInv_frame _ s); [done| |by rewrite Hf1'| |].
    + rewrite Hv1. unfold view. pl_simpl. rewrite V1, V2, V3, V5, V6. apply ph_lost_compile.
    + by injection Hv1.
    + done.
Qed.

Lemma drain_commit_Inv n s (g : A) h :
  SysInv n (mkSystem s g h) → SysInv n (mkSystem (drain_commit_results s) g h).
Proof.
  intros HI. pose proof (si_phase _ _ HI) as Hp. cbn in Hp. unfold drain_commit_results.
  destruct (phase_commit_results _ _ Hp) as [Hr|(id & r & Hv)].
  { cbn in Hr. rewrite Hr. cbn [foldl]. apply (SysInv_frame _ s); try done.
    - unfold view in *. cbn. rewrite <- Hr. done.
    - intros Hw. apply HI in Hw as (_ & ? & ?). done. }
  injection Hv as V1 V2 V3 V4 V5 V6. rewrite V6. cbn [foldl].
  destruct (handle_commit_spec r (set_commit_results [] s)) as [Hf Hv1].
  cbv zeta in Hf, Hv1. pl_simpl. rewrite V1, V2, V3, V4, V5 in Hv1.
  apply (SysInv_frame _ s); [done| |by rewrite Hf| |].
  - rewrite Hv1. case_bool_decide; [apply ph_idle|apply ph_lost_commit].
  - injection Hv1; congruence.
  - injection Hv1 as _ _ _ -> -> _. done.
Qed.

Lemma drain_files_sorted s :
  sorted_keys (pending_files s) → sorted_keys (pending_files (drain_file_changes s)).
Proof.
  intros Hs. unfold drain_file_changes. pl_simpl. revert Hs. generalize (pending_files s).
  induction (file_changes s) as [|e l IH]; intros fs Hs; simpl; [done|].
  by apply IH, set_insert_sorted.
Qed.

Lemma worker_step_Inv n s (g : A) h s' calls :
  SysInv n (mkSystem s g h) → worker_step s = (s', calls) →
  SysInv n (mkSystem s' g (h ++ compile_calls calls)).
Proof.
  intros HI. unfold worker_step. destruct (worker s) as [b|] eqn:Ew.
  2:{ intros [= <- <-]. unfold compile_calls. cbn. by rewrite app_nil_r. }
  pose proof (si_phase _ _ HI) as Hp.
  destruct (phase_queue _ _ Hp) as [Hq|(c & Hv)]; cbn in *.
  { rewrite Hq. intros [= <- <-]. unfold compile_calls. cbn. by rewrite app_nil_r. }
  injection Hv as V1 V2 V3 V4 V5 V6. rewrite V3.
  destruct (compile b c) as [b' res] eqn:Ec. intros [= <- <-]. destruct HI. cbn in *.
  rewrite V3 in *. split; cbn; try done.
  - unfold view. pl_simpl. rewrite V1, V2, V4, V5, V6. apply ph_compiled.
  - split; [done|]. intros Ht. apply si_worker0 in Ht. congruence.
  - by apply commits_follow_compile.
  - unfold compile_ids in *. rewrite omap_app. cbn. by rewrite app_nil_r.
  - unfold compile_ids in *. rewrite omap_app. cbn. by rewrite app_nil_r.
Qed.

Lemma commits_Inv n s (g : A) h s' g' calls :
  SysInv n (mkSystem s g h) → process_commits_at_safe_point g s = (s', g', calls) →
  SysInv n (mkSystem s' g' (h ++ commit_calls calls)).
Proof.
  intros HI. unfold process_commits_at_safe_point. pose proof (si_phase _ _ HI) as Hp. cbn in Hp.
  destruct (phase_requests _ _ Hp) as [Hr|(c & res & q & h0 & -> & Hc & Hid & Hv)]; cbn in *.
  - rewrite Hr. intros [= <- <- <-]. unfold commit_calls. cbn. rewrite !app_nil_r.
    apply (SysInv_frame _ s); try done.
    + unfold view in *. pl_simpl. by rewrite <- Hr at 1.
    + intros Hw. by apply HI in Hw as (_ & ? & _).
  - pose proof Hv as [= V1 V2 V3 V4 V5 V6]. rewrite V5, V6. cbn [commit_loop].
    destruct (apply_commit g q) as [g1 r] eqn:Eg. intros [= <- <- <-].
    destruct HI. cbn in *. split; cbn; rewrite ?V3 in *; try done.
    + unfold view. pl_simpl. rewrite V1, V2, V3, V4. apply ph_committed.
    + by apply (commits_follow_commit h0 c res q r).
    + unfold compile_ids in *. rewrite omap_app. cbn. rewrite app_nil_r. done.
    + unfold compile_ids in *. rewrite omap_app. cbn. rewrite app_nil_r. done.
Qed.

Lemma dispatch_Inv n s (g : A) h :
  SysInv n (mkSystem s g h) → n < u64_max →
  SysInv (n + 1) (mkSystem (maybe_dispatch_compile_request s) g h).
Proof.
  intros HI Hn. assert (SysInv (n + 1) (mkSystem s g h)) as HI1
    by (destruct HI; split; try done; lia).
  destruct (decide (in_flight_compile s = None)) as [E1|E1]; [|by rewrite dispatch_busy by tauto].
  destruct (decide (in_flight_commit s = None)) as [E2|E2]; [|by rewrite dispatch_busy by tauto].
  destruct (decide (pending_files s = [])) as [E3|E3]; [by rewrite dispatch_busy by tauto|].
  destruct (dispatch_idle s E1 E2 E3) as [Hv Hf]. cbv zeta in Hv, Hf.
  set (s' := maybe_dispatch_compile_request s) in *.
  destruct HI. cbn in *. injection Hf as Ew Et En Ep Ef Em.
  assert (view s = mkView None None [] [] [] []) as Hidle
    by (apply (phase_idle_view _ h); done).
  injection Hidle as _ _ Q1 Q2 Q3 Q4. rewrite Q1, Q2, Q3, Q4 in Hv.
  assert (wrap 64 (next_request_id s + 1) = next_request_id s + 1) as Hw
    by (apply wrap_small; unfold in_u, u64_max in *; lia).
  rewrite Hw in En. rewrite Q1 in *. cbn [queued_ids omap list_omap] in *.
  rewrite app_nil_r in *. pose proof Hv as [= V1 V2 V3 V4 V5 V6].
  split; cbn; rewrite ?Ew, ?Et, ?En, ?Ep; try done.
  - rewrite Hv. destruct (worker s); [|apply ph_lost_compile]. apply (ph_queued (dispatched s)).
  - rewrite V3. destruct (worker s); cbn; [|by rewrite app_nil_r].
    apply StronglySorted_snoc; [done|]. eapply Forall_impl; [exact si_next0|]. done.
  - rewrite V3. apply Forall_app. split; [eapply Forall_impl; [exact si_next0|]; cbn; lia|].
    destruct (worker s); cbn; repeat constructor. lia.
  - lia.
  - constructor.
  - intros Hws. rewrite Hws in V3. done.
Qed.

(** ** Shutdown *)

(** The requests dispatched and not answered. *)
Definition outstanding (s : Pipeline B) : list RequestId :=
  option_list (in_flight_compile s) ++ option_list (in_flight_commit s).

(** What a first [shutdown] leaves. *)
Record stopped (s : Pipeline B) : Prop := {
  st_thread : compiler_thread s = false;
  st_worker : worker s = None;
  st_view : view s = mkView None None [] [] [] [];
  st_pending : pending_files s = [];
  st_changes : file_changes s = [];
}.

(** The compile calls the thread still makes before it returns. *)
Definition join_calls (s : Pipeline B) (b : B) : list (CompileRequest * CompileResult) :=
  match compiler_queue s with
  | Compile c :: _ => [(c, (compile b c).2)]
  | _ => []
  end.

Lemma shutdown_spec n s (g : A) h b :
  SysInv n (mkSystem s g h) → worker s = Some b →
  ∃ s', shutdown s = Some (s', join_calls s b,
      (λ id, SwapCommitResult_failed id PIPELINE_STOPPED_BEFORE_COMMIT) <$> outstanding s) ∧
    stopped s' ∧ next_request_id s' = next_request_id s ∧
    last_commit_result s' =
      match last (outstanding s) with
      | Some id => Some (SwapCommitResult_failed id PIPELINE_STOPPED_BEFORE_COMMIT)
      | None => last_commit_result s
      end.
Proof.
  intros HI Hw. pose proof (si_phase _ _ HI) as Hp. cbn in Hp.
  assert (compiler_thread s = true) as Ht.
  { destruct (compiler_thread s) eqn:E; [done|]. apply HI in E. cbn in E. congruence. }
  unfold shutdown. rewrite Ht. cbn [negb]. unfold send_compiler. rewrite Hw.
  unfold join_worker. pl_simpl. rewrite Hw.
  assert (worker_exit (compiler_queue s ++ [Shutdown]) b = Some (join_calls s b)) as ->.
  { unfold join_calls. destruct (phase_queue _ _ Hp) as [E|(c & Hv)].
    - cbn in E. by rewrite E.
    - injection Hv as _ _ -> _ _ _. cbn. by destruct (compile b c). }
  cbn [mbind option_bind]. pl_simpl.
  assert (foldl (λ ids request, set_insert (sq_request_id request) ids)
    match in_flight_commit s with
    | Some id => set_insert id match in_flight_compile s with Some id => set_insert id [] | None => [] end
    | None => match in_flight_compile s with Some id => set_insert id [] | None => [] end
    end (commit_requests s) = outstanding s) as ->.
  { unfold outstanding.
    destruct (phase_requests _ _ Hp) as [E|(c & res & q & h0 & _ & _ & _ & Hv)].
    - cbn in E. rewrite E.
      destruct (phase_exclusive _ _ Hp) as [E'|E']; cbn in E'; rewrite E'; cbn;
        by destruct (in_flight_compile s), (in_flight_commit s).
    - injection Hv as -> -> _ _ -> _. cbn. by rewrite Z.compare_refl. }
  eexists. split; [done|]. rewrite fmap_last.
  destruct (last (outstanding s)); cbn; (split; [by split|]); done.
Qed.

Lemma shutdown_stopped s : compiler_thread s = false → shutdown s = Some (s, [], []).
Proof. intros Ht. unfold shutdown. by rewrite Ht. Qed.

Lemma shutdown_Inv n s (g : A) h :
  SysInv n (mkSystem s g h) →
  ∃ s' calls rs, shutdown s = Some (s', calls, rs) ∧
    SysInv n (mkSystem s' g (h ++ compile_calls calls)).
Proof.
  intros HI. destruct (worker s) as [b|] eqn:Hw; swap 1 2.
  { exists s, [], []. rewrite shutdown_stopped by (by apply HI). split; [done|].
    unfold compile_calls. cbn. by rewrite app_nil_r. }
  destruct (shutdown_spec _ _ _ _ _ HI Hw) as (s' & -> & [St Sw Sv Sp Sf] & En & _).
  do 3 eexists. split; [done|]. pose proof Sv as [= V1 V2 V3 V4 V5 V6].
  pose proof (si_phase _ _ HI) as Hp. destruct HI. cbn in *.
  assert (commits_follow (h ++ compile_calls (join_calls s b)) ∧
    compile_ids (h ++ compile_calls (join_calls s b)) =
    compile_ids h ++ queued_ids (compiler_queue s)) as [Hfol Hids].
  { unfold join_calls, compile_calls. destruct (phase_queue _ _ Hp) as [E|(c & Hv)].
    - cbn in E. rewrite E. cbn. by rewrite !app_nil_r.
    - injection Hv as _ _ -> _ _ _. cbn. split; [by apply commits_follow_compile|].
      unfold compile_ids. by rewrite omap_app. }
  split; cbn [pipe gate history]; rewrite ?Sv, ?St, ?Sw, ?Sp, ?En, ?V3; try done.
  - apply ph_idle.
  - cbn [queued_ids omap list_omap]. by rewrite app_nil_r, Hids.
  - cbn [queued_ids omap list_omap]. by rewrite app_nil_r, Hids.
  - constructor.
Qed.

(** ** Every interleaving *)

Lemma SysInv_mono n m y : SysInv n y → n ≤ m → SysInv m y.
Proof. intros [] ?. split; try done. lia. Qed.

Lemma system_step_Inv n e y :
  SysInv n y → n < u64_max → ∃ y', step e y = Some y' ∧ SysInv (n + 1) y'.
Proof.
  intros HI Hn. destruct y as [s g h]. assert (SysInv (n + 1) (mkSystem s g h)) as HI1
    by (apply (SysInv_mono n); [done|lia]).
  destruct e; unfold step, on_pipe; cbn [pipe gate history].
  - eexists. split; [done|]. by destruct HI1.
  - eexists. split; [done|]. by destruct HI1.
  - eexists. split; [done|]. destruct HI1. split; try done. by apply drain_files_sorted.
  - eexists. split; [done|]. by apply dispatch_Inv.
  - eexists. split; [done|]. by apply drain_compile_Inv.
  - eexists. split; [done|]. by apply drain_commit_Inv.
  - destruct (worker_step s) as [s' calls] eqn:E. eexists. split; [done|].
    by eapply worker_step_Inv.
  - destruct (process_commits_at_safe_point g s) as [[s' g'] calls] eqn:E.
    eexists. split; [done|]. by eapply commits_Inv.
  - destruct (shutdown_Inv _ _ _ _ HI1) as (s' & calls & rs & -> & HI').
    eexists. split; [done|]. exact HI'.
Qed.

Lemma steps_Inv es n y :
  SysInv n y → n + Z.of_nat (length es) ≤ u64_max →
  ∃ y', steps es y = Some y' ∧ SysInv (n + Z.of_nat (length es)) y'.
Proof.
  revert n y. induction es as [|e es IH]; intros n y HI Hn; cbn [steps length] in *.
  { exists y. split; [done|]. by rewrite Z.add_0_r. }
  destruct (system_step_Inv n e y HI) as (y1 & -> & HI1); [lia|]. cbn [mbind option_bind].
  destruct (IH (n + 1) y1 HI1) as (y' & -> & HI'); [lia|].
  exists y'. split; [done|]. by replace (n + Z.of_nat (S (length es)))
    with (n + 1 + Z.of_nat (length es)) by lia.
Qed.
End safety.

(** ** File changes *)

Section files.
Context {B A : Type} `{CompilerBackend B} `{CommitGate A} `{Clock}.
Implicit Types (s : Pipeline B) (y : System B A) (p : PathBuf).

(** [p] changed and no compile request covers the change yet. *)
Definition awaiting p (s : Pipeline B) : Prop :=
  (p ∈ fc_path <$> file_changes s) ∨ p ∈ pending_files s.

(** [p] is awaiting or in a request on its way to the compiler. *)
Definition covered p (s : Pipeline B) : Prop :=
  awaiting p s ∨ ∃ c, Compile c ∈ compiler_queue s ∧ p ∈ cq_changed_files c.

Lemma elem_of_drain_files p s :
  p ∈ pending_files (drain_file_changes s) ↔ awaiting p s.
Proof.
  unfold drain_file_changes, awaiting. pl_simpl.
  generalize (file_changes s) as l, (pending_files s) as fs.
  induction l as [|e l IH]; intros fs; [cbn; rewrite elem_of_nil; tauto|].
  rewrite fmap_cons, elem_of_cons. cbn [foldl]. rewrite IH, elem_of_set_insert. tauto.
Qed.

Lemma handle_compile_frame r s :
  frame (handle_compile_result r s) = frame s ∧
  compiler_queue (handle_compile_result r s) = compiler_queue s.
Proof.
  destruct (decide (in_flight_compile s = Some (cr_request_id r))) as [E|E].
  - destruct (handle_compile_hit r s E) as [Hf [Hv|(q & _ & Hv)]]; by injection Hv.
  - destruct (handle_compile_miss r s E) as [Hv Hf]. by injection Hv.
Qed.

Lemma drain_compile_frame s :
  frame (drain_compile_results s) = frame s ∧
  compiler_queue (drain_compile_results s) = compiler_queue s.
Proof.
  unfold drain_compile_results. assert (∀ l t,
    frame (foldl (λ s r, handle_compile_result r s) t l) = frame t ∧
    compiler_queue (foldl (λ s r, handle_compile_result r s) t l) = compiler_queue t) as Hl.
  { induction l as [|r l IH]; intros t; [done|]. cbn [foldl].
    destruct (IH (handle_compile_result r t)) as [-> ->]. apply handle_compile_frame. }
  apply (Hl (compile_results s) (set_compile_results [] s)).
Qed.

Lemma drain_commit_frame s :
  frame (drain_commit_results s) = frame s ∧
  compiler_queue (drain_commit_results s) = compiler_queue s.
Proof.
  unfold drain_commit_results. assert (∀ l t,
    frame (foldl (λ s r, handle_commit_result r s) t l) = frame t ∧
    compiler_queue (foldl (λ s r, handle_commit_result r s) t l) = compiler_queue t) as Hl.
  { induction l as [|r l IH]; intros t; [done|]. cbn [foldl].
    destruct (IH (handle_commit_result r t)) as [-> ->].
    destruct (handle_commit_spec r t) as [Hf Hv]. by injection Hv. }
  apply (Hl (commit_results s) (set_commit_results [] s)).
Qed.

Lemma covered_frame p s s' :
  frame s' = frame s → compiler_queue s' = compiler_queue s → covered p s → covered p s'.
Proof. intros [= _ _ _ E1 E2 _] E3. unfold covered, awaiting. by rewrite E1, E2, E3. Qed.

Lemma covered_dispatch p s :
  worker s ≠ None → in_flight_compile s = None → in_flight_commit s = None →
  covered p s → covered p (maybe_dispatch_compile_request s).
Proof.
  intros Hw E1 E2 Hc. destruct (decide (pending_files s = [])) as [E3|E3].
  { by rewrite dispatch_busy by tauto. }
  destruct (dispatch_idle s E1 E2 E3) as [Hv Hf]. cbv zeta in Hv, Hf.
  injection Hv as _ _ Hq _ _ _. injection Hf as _ _ _ Ep Ef _.
  destruct (worker s) as [b|]; [|done]. unfold covered, awaiting in *. rewrite Hq, Ep, Ef.
  destruct Hc as [[Hc|Hc]|(c & Hin & Hp)].
  - by left; left.
  - right. exists (dispatched s). split; [|done]. apply elem_of_app. right. apply list_elem_of_here.
  - right. exists c. split; [|done]. apply elem_of_app. by left.
Qed.

(** A covered change stays covered until a compile call includes it. *)
Lemma covered_step p e y y' :
  step e y = Some y' → e ≠ EvShutdown → worker (pipe y) ≠ None →
  (∀ m, m ∈ compiler_queue (pipe y) → m ≠ Shutdown) → covered p (pipe y) →
  covered p (pipe y') ∨
  ∃ c res, history y' = history y ++ [CCompile c res] ∧ p ∈ cq_changed_files c.
Proof.
  destruct y as [s g h]. intros E He Hw Hq Hc. cbn [pipe history] in *.
  destruct e; unfold step, on_pipe in E; cbn [pipe gate history] in E; try done.
  - injection E as <-. left. destruct Hc as [[Hc|Hc]|Hc]; [left; left|left; right|right]; try done.
    cbn. rewrite fmap_app, elem_of_app. by left.
  - injection E as <-. by left.
  - injection E as <-. left. destruct Hc as [Hc|Hc]; [left; right|by right].
    by apply elem_of_drain_files.
  - injection E as <-. left.
    destruct (decide (in_flight_compile s = None)) as [E1|E1]; [|cbn; by rewrite dispatch_busy by tauto].
    destruct (decide (in_flight_commit s = None)) as [E2|E2]; [|cbn; by rewrite dispatch_busy by tauto].
    by apply covered_dispatch.
  - injection E as <-. left. eapply covered_frame; [apply drain_compile_frame..|done].
  - injection E as <-. left. eapply covered_frame; [apply drain_commit_frame..|done].
  - unfold worker_step in E. destruct (worker s) as [b|]; [|done].
    destruct (compiler_queue s) as [|[c|] q] eqn:Eq.
    + injection E as <-. by left.
    + destruct (compile b c) as [b' res]. injection E as <-. cbn.
      destruct Hc as [Hc|(c' & Hin & Hp)]; [by left; left|]. rewrite Eq in Hin.
      apply elem_of_cons in Hin as [[= ->]|Hin].
      * right. by exists c, res.
      * left; right. by exists c'.
    + exfalso. by apply (Hq Shutdown); [apply list_elem_of_here|].
  - unfold process_commits_at_safe_point in E.
    destruct (commit_loop _ _) as [g1 calls]. injection E as <-. by left.
Qed.

Lemma no_shutdown_queued n y :
  SysInv n y → ∀ m, m ∈ compiler_queue (pipe y) → m ≠ Shutdown.
Proof.
  intros HI m Hm ->. destruct (phase_queue _ _ (si_phase _ _ HI)) as [E|(c & Hv)].
  - cbn in E. rewrite E in Hm. by apply not_elem_of_nil in Hm.
  - injection Hv as _ _ E _ _ _. rewrite E in Hm. by apply list_elem_of_singleton in Hm.
Qed.

(** The history grows, and the thread lives until the shutdown. *)
Lemma step_grows n e y y' :
  SysInv n y → step e y = Some y' → ∃ l, history y' = history y ++ l.
Proof.
  intros HI. destruct y as [s g h]. destruct e; unfold step, on_pipe; cbn [pipe gate history];
    try (intros [= <-]; exists []; by rewrite app_nil_r).
  - destruct (worker_step s). intros [= <-]. by eexists.
  - destruct (process_commits_at_safe_point g s) as [[]]. intros [= <-]. by eexists.
  - destruct (shutdown s) as [[[]]|]; [|done]. intros [= <-]. by eexists.
Qed.

Lemma step_alive n e y y' :
  SysInv n y → step e y = Some y' → e ≠ EvShutdown →
  worker (pipe y) ≠ None → worker (pipe y') ≠ None.
Proof.
  intros HI E He Hw. pose proof (no_shutdown_queued _ _ HI) as Hq.
  destruct y as [s g h]. cbn [pipe] in *.
  destruct e; unfold step, on_pipe in E; cbn [pipe gate history] in E; try done;
    try (injection E as <-; exact Hw).
  - injection E as <-. cbn [pipe].
    destruct (decide (in_flight_compile s = None)) as [E1|E1]; [|by rewrite dispatch_busy by tauto].
    destruct (decide (in_flight_commit s = None)) as [E2|E2]; [|by rewrite dispatch_busy by tauto].
    destruct (decide (pending_files s = [])) as [E3|E3]; [by rewrite dispatch_busy by tauto|].
    destruct (dispatch_idle s E1 E2 E3) as [_ Hf]. injection Hf. congruence.
  - injection E as <-. cbn [pipe]. destruct (drain_compile_frame s) as [Hf _].
    injection Hf. congruence.
  - injection E as <-. cbn [pipe]. destruct (drain_commit_frame s) as [Hf _].
    injection Hf. congruence.
  - unfold worker_step in E. destruct (worker s) as [b|] eqn:Ew; [|done].
    destruct (compiler_queue s) as [|[c|] q] eqn:Eq.
    + injection E as <-. cbn. congruence.
    + destruct (compile b c). by injection E as <-.
    + exfalso. by apply (Hq Shutdown); [apply list_elem_of_here|].
  - unfold process_commits_at_safe_point in E.
    destruct (commit_loop _ _) as [g1 calls]. injection E as <-. exact Hw.
Qed.

Lemma steps_grows es n y y' :
  SysInv n y → n + Z.of_nat (length es) ≤ u64_max → steps es y = Some y' →
  ∃ l, history y' = history y ++ l.
Proof.
  revert n y. induction es as [|e es IH]; intros n y HI Hn E; cbn [steps length] in *.
  { injection E as <-. exists []. by rewrite app_nil_r. }
  destruct (system_step_Inv n e y HI) as (y1 & E1 & HI1); [lia|]. rewrite E1 in E.
  cbn [mbind option_bind] in E. destruct (step_grows _ _ _ _ HI E1) as [l1 Ha].
  destruct (IH (n + 1) y1 HI1) as [l2 Hb]; [lia|done|].
  exists (l1 ++ l2). by rewrite Hb, Ha, app_assoc.
Qed.

Lemma steps_alive es n y y' :
  SysInv n y → n + Z.of_nat (length es) ≤ u64_max → EvShutdown ∉ es →
  worker (pipe y) ≠ None → steps es y = Some y' → worker (pipe y') ≠ None.
Proof.
  intros HI Hn Hes Hw. revert n y HI Hn Hw.
  induction es as [|e es IH]; intros n y HI Hn Hw E; cbn [steps length] in *.
  { by injection E as <-. }
  apply not_elem_of_cons in Hes as [He Hes].
  destruct (system_step_Inv n e y HI) as (y1 & E1 & HI1); [lia|]. rewrite E1 in E.
  cbn [mbind option_bind] in E. apply (IH Hes (n + 1) y1); [done|lia| |done].
  by apply (step_alive n e y y1).
Qed.

(** Once the thread has returned nothing is called any more. *)
Lemma dead_step n e y y' :
  SysInv n y → step e y = Some y' → worker (pipe y) = None →
  history y' = history y ∧ worker (pipe y') = None.
Proof.
  intros HI E Hw. destruct (si_closed _ _ HI Hw) as (_ & _ & Er).
  pose proof (proj1 (si_worker _ _ HI) Hw) as Ht.
  destruct y as [s g h]. cbn [pipe] in *.
  destruct e; unfold step, on_pipe in E; cbn [pipe gate history] in E; try (by injection E as <-).
  - injection E as <-. cbn [pipe history]. split; [done|].
    destruct (decide (in_flight_compile s = None)) as [E1|E1]; [|by rewrite dispatch_busy by tauto].
    destruct (decide (in_flight_commit s = None)) as [E2|E2]; [|by rewrite dispatch_busy by tauto].
    destruct (decide (pending_files s = [])) as [E3|E3]; [by rewrite dispatch_busy by tauto|].
    destruct (dispatch_idle s E1 E2 E3) as [_ Hf]. injection Hf. congruence.
  - injection E as <-. cbn [pipe history]. destruct (drain_compile_frame s) as [Hf _].
    injection Hf. intuition congruence.
  - injection E as <-. cbn [pipe history]. destruct (drain_commit_frame s) as [Hf _].
    injection Hf. intuition congruence.
  - unfold worker_step in E. rewrite Hw in E. injection E as <-.
    unfold compile_calls. cbn. by rewrite app_nil_r.
  - unfold process_commits_at_safe_point in E. rewrite Er in E. injection E as <-.
    unfold commit_calls. cbn. by rewrite app_nil_r.
  - rewrite shutdown_stopped in E by done. injection E as <-.
    unfold compile_calls. cbn. by rewrite app_nil_r.
Qed.

Lemma covered_steps p es n y y' :
  SysInv n y → n + Z.of_nat (length es) ≤ u64_max → EvShutdown ∉ es →
  worker (pipe y) ≠ None → steps es y = Some y' → covered p (pipe y) →
  covered p (pipe y') ∨
  ∃ c res, CCompile c res ∈ drop (length (history y)) (history y') ∧ p ∈ cq_changed_files c.
Proof.
  intros HI Hn Hes Hw E Hc.
  revert n y HI Hn Hw E Hc. induction es as [|e es IH]; intros n y HI Hn Hw E Hc;
    cbn [steps length] in *.
  { injection E as <-. by left. }
  apply not_elem_of_cons in Hes as [He Hes].
  destruct (system_step_Inv n e y HI) as (y1 & E1 & HI1); [lia|]. rewrite E1 in E.
  cbn [mbind option_bind] in E. destruct (steps_grows es (n + 1) y1 y' HI1) as [l2 Hl2]; [lia|done|].
  destruct (step_grows _ _ _ _ HI E1) as [l1 Hl1].
  destruct (covered_step p e y y1) as [Hc1|(c & res & Hh & Hp)]; try done.
  - by eapply no_shutdown_queued.
  - destruct (IH Hes (n + 1) y1 HI1) as [?|(c & res & Hin & Hp)]; [lia| |done|done|by left|].
    { eapply step_alive; [exact HI|exact E1|done|done]. }
    right. exists c, res. split; [|done]. revert Hin. rewrite Hl2, Hl1, <- app_assoc.
    rewrite drop_app_length. rewrite app_assoc, drop_app_length.
    rewrite elem_of_app. by right.
  - right. exists c, res. split; [|done]. rewrite Hl2, Hh, <- app_assoc, drop_app_length.
    apply elem_of_app. left. apply list_elem_of_here.
Qed.
End files.

(** ** Progress with a lawful backend and gate *)

Section liveness.
Context {B A : Type} `{LawfulBackend B} `{LawfulGate A} `{Clock}.
Implicit Types (s : Pipeline B) (y : System B A).

(** How many answers the pipeline still waits for; ids always match. *)
Inductive live : nat → View → Prop :=
| lv_idle : live 0%nat (mkView None None [] [] [] [])
| lv_committed id r : sr_request_id r = id → live 1%nat (mkView None (Some id) [] [] [] [r])
| lv_requested q : live 2%nat (mkView None (Some (sq_request_id q)) [] [] [q] [])
| lv_compiled id res : cr_request_id res = id → live 3%nat (mkView (Some id) None [] [res] [] [])
| lv_queued c : live 4%nat (mkView (Some (cq_request_id c)) None [Compile c] [] [] []).

Lemma live_idle k v :
  live k v → v_compile v = None → v_commit v = None → v = mkView None None [] [] [] [].
Proof. by intros []. Qed.

Lemma live_0 v : live 0%nat v → v = mkView None None [] [] [] [].
Proof. by inversion 1. Qed.

(** The state a quiescence argument follows. *)
Definition files_of s := (pending_files s, file_changes s).

(** [s'] follows [s] without touching files or ending the thread, and does
    not wait for answer number [k]. *)
Definition answered (k : nat) (s s' : Pipeline B) : Prop :=
  ∀ i, live i (view s) → worker s ≠ None →
  worker s' ≠ None ∧ files_of s' = files_of s ∧
  ∃ j, live j (view s') ∧ (j ≤ i)%nat ∧ j ≠ k.

Lemma view_fields s v :
  view s = v →
  in_flight_compile s = v_compile v ∧ in_flight_commit s = v_commit v ∧
  compiler_queue s = v_queue v ∧ compile_results s = v_results v ∧
  commit_requests s = v_requests v ∧ commit_results s = v_commit_results v.
Proof. by intros <-. Qed.

(** Case analysis on what the pipeline waits for. *)
Ltac live_cases s :=
  let Hl := fresh "Hl" in intros i Hl; remember (view s) as v eqn:Ev;
  destruct Hl; symmetry in Ev; apply view_fields in Ev as (V1 & V2 & V3 & V4 & V5 & V6);
  cbn [v_compile v_commit v_queue v_results v_requests v_commit_results] in *.

(** Closes the cases in which nothing was there to answer. *)
Ltac same_view s :=
  eexists; (split; [|split; [reflexivity|lia]]); unfold view; pl_simpl;
  repeat match goal with E : _ s = _ |- _ => rewrite E end; by constructor.

Lemma drain_compile_answers s : answered 3 s (drain_compile_results s).
Proof.
  destruct (drain_compile_frame s) as [[= Ew _ _ Ep Ef _] _].
  unfold answered, files_of. rewrite Ew, Ep, Ef. unfold drain_compile_results.
  live_cases s; intros Hw; (split_and!; [done|done|]); rewrite V4; cbn [foldl];
    try same_view s.
  destruct (handle_compile_hit res (set_compile_results [] s)) as [_ Hv]; [cbn; congruence|].
  cbv zeta in Hv. pl_simpl. rewrite V2, V3, V5, V6 in Hv.
  destruct Hv as [->|(q & _ & ->)];
    [exists 0%nat|exists 2%nat]; (split; [constructor|lia]).
Qed.

Lemma drain_commit_answers s : answered 1 s (drain_commit_results s).
Proof.
  destruct (drain_commit_frame s) as [[= Ew _ _ Ep Ef _] _].
  unfold answered, files_of. rewrite Ew, Ep, Ef. unfold drain_commit_results.
  live_cases s; intros Hw; (split_and!; [done|done|]); rewrite V6; cbn [foldl];
    try same_view s.
  destruct (handle_commit_spec r (set_commit_results [] s)) as [_ ->]. pl_simpl.
  rewrite V1, V2, V3, V4, V5, bool_decide_eq_true_2 by congruence.
  exists 0%nat. split; [constructor|lia].
Qed.

Lemma worker_answers s : answered 4 s (worker_step s).1.
Proof.
  unfold answered, files_of, worker_step.
  live_cases s; intros Hw; destruct (worker s) as [b|] eqn:Ew; try done; rewrite V3.
  1-4: cbn [fst]; rewrite Ew; (split_and!; [done|done|]); same_view s.
  pose proof (compile_echo b c) as Hid. destruct (compile b c) as [b' res].
  cbn [fst snd] in *. pl_simpl. split_and!; [done|done|]. exists 3%nat. split; [|lia].
  unfold view. pl_simpl. rewrite V1, V2, V4, V5, V6. by constructor.
Qed.

Lemma commits_answers (g : A) s : answered 2 s (process_commits_at_safe_point g s).1.1.
Proof.
  unfold answered, files_of, process_commits_at_safe_point.
  live_cases s; intros Hw; rewrite V5; cbn [commit_loop fst snd fmap list_fmap];
    try (pl_simpl; (split_and!; [done|done|]); rewrite app_nil_r; same_view s).
  pose proof (commit_echo g q) as Hid. destruct (apply_commit g q) as [g' r].
  cbn [fst snd fmap list_fmap] in *. pl_simpl. split_and!; [done|done|].
  exists 1%nat. split; [|lia].
  unfold view. pl_simpl. rewrite V1, V2, V3, V4, V6. by constructor.
Qed.

(** Which answer an event delivers. *)
Definition answer_of (e : Event) : option nat :=
  match e with
  | EvWorker => Some 4%nat | EvDrainCompile => Some 3%nat
  | EvCommits => Some 2%nat | EvDrainCommit => Some 1%nat
  | _ => None
  end.

Lemma answer_step e k y :
  answer_of e = Some k → ∃ y', step e y = Some y' ∧ answered k (pipe y) (pipe y').
Proof.
  destruct y as [s g h]. destruct e; intros [= <-]; cbn [step pipe gate history].
  - eexists. split; [done|apply drain_compile_answers].
  - eexists. split; [done|apply drain_commit_answers].
  - pose proof (worker_answers s). destruct (worker_step s). by eexists.
  - pose proof (commits_answers g s). destruct (process_commits_at_safe_point g s) as [[]].
    by eexists.
Qed.

(** The four answers in a row settle everything in flight. *)
Definition settle_events : list Event := [EvWorker; EvDrainCompile; EvCommits; EvDrainCommit].

Lemma settle y k :
  live k (view (pipe y)) → worker (pipe y) ≠ None →
  ∃ y', steps settle_events y = Some y' ∧ view (pipe y') = mkView None None [] [] [] [] ∧
    worker (pipe y') ≠ None ∧ files_of (pipe y') = files_of (pipe y).
Proof.
  intros L W. unfold settle_events. cbn [steps].
  destruct (answer_step EvWorker 4 y eq_refl) as (y1 & -> & A1).
  destruct (A1 k L W) as (W1 & F1 & k1 & L1 & K1 & N1). cbn [mbind option_bind].
  destruct (answer_step EvDrainCompile 3 y1 eq_refl) as (y2 & -> & A2).
  destruct (A2 k1 L1 W1) as (W2 & F2 & k2 & L2 & K2 & N2). cbn [mbind option_bind].
  destruct (answer_step EvCommits 2 y2 eq_refl) as (y3 & -> & A3).
  destruct (A3 k2 L2 W2) as (W3 & F3 & k3 & L3 & K3 & N3). cbn [mbind option_bind].
  destruct (answer_step EvDrainCommit 1 y3 eq_refl) as (y4 & -> & A4).
  destruct (A4 k3 L3 W3) as (W4 & F4 & k4 & L4 & K4 & N4). cbn [mbind option_bind].
  exists y4. split_and!; [done| |done|congruence].
  assert (k ≤ 4)%nat as H4 by (clear -L; destruct L; lia).
  assert (k4 = 0%nat) as -> by (clear -K1 K2 K3 K4 N1 N2 N3 N4 H4; lia). by apply live_0.
Qed.

(** ... and what was waiting is dispatched and settled in turn. *)
Definition quiesce_events : list Event :=
  settle_events ++ [EvDrainFiles; EvDispatch] ++ settle_events.

Lemma steps_app es1 es2 y : steps (es1 ++ es2) y = y1 ← steps es1 y; steps es2 y1.
Proof.
  revert y. induction es1 as [|e es1 IH]; intros y; cbn [steps app]; [done|].
  destruct (step e y) as [y1|]; [|done]. cbn [mbind option_bind]. apply IH.
Qed.

Lemma dispatch_live s :
  view s = mkView None None [] [] [] [] → worker s ≠ None →
  let s' := maybe_dispatch_compile_request s in
  worker s' ≠ None ∧ pending_files s' = [] ∧ file_changes s' = file_changes s ∧
  ∃ k, live k (view s').
Proof.
  intros Hv Hw s'. destruct (decide (pending_files s = [])) as [E|E].
  { unfold s'. rewrite dispatch_busy by tauto. rewrite Hv. eauto using live. }
  apply view_fields in Hv as (V1 & V2 & V3 & V4 & V5 & V6). cbn in *.
  destruct (dispatch_idle s V1 V2 E) as [Hv [= Ew _ _ Ep Ef _]]. cbv zeta in Hv. fold s' in Hv.
  split_and!; [unfold s'; congruence|done|done|]. rewrite Hv, V3, V4, V5, V6.
  destruct (worker s); [|done]. exists 4%nat. apply (lv_queued (dispatched s)).
Qed.

Lemma quiesce y k :
  live k (view (pipe y)) → worker (pipe y) ≠ None →
  ∃ y', steps quiesce_events y = Some y' ∧ view (pipe y') = mkView None None [] [] [] [] ∧
    worker (pipe y') ≠ None ∧ pending_files (pipe y') = [] ∧ file_changes (pipe y') = [].
Proof.
  intros Hl Hw. unfold quiesce_events. rewrite steps_app.
  destruct (settle y k Hl Hw) as ([s1 g1 h1] & -> & V1 & Hw1 & _). cbn [mbind option_bind].
  rewrite steps_app. cbn [steps step on_pipe pipe gate history mbind option_bind] in *.
  unfold on_pipe. cbn [pipe gate history].
  destruct (dispatch_live (drain_file_changes s1) V1 Hw1) as (Hw2 & Ep & Ef & k2 & L2).
  set (s2 := maybe_dispatch_compile_request _) in *.
  destruct (settle (mkSystem s2 g1 h1) k2 L2 Hw2) as (y' & -> & V & Hw' & [= Ep' Ef']).
  cbn [pipe] in *. exists y'. split_and!; [done|done|done|by rewrite Ep'|by rewrite Ef', Ef].
Qed.

(** Every interleaving without a shutdown stays live. *)
Lemma live_step e y y' k :
  live k (view (pipe y)) → worker (pipe y) ≠ None → e ≠ EvShutdown →
  step e y = Some y' → worker (pipe y') ≠ None ∧ ∃ k', live k' (view (pipe y')).
Proof.
  destruct y as [s g h]. cbn [pipe]. intros Hl Hw He.
  destruct e; unfold step, on_pipe; cbn [pipe gate history]; try done.
  - intros [= <-]. eauto.
  - intros [= <-]. eauto.
  - intros [= <-]. eauto.
  - intros [= <-]. cbn [pipe].
    destruct (decide (in_flight_compile s = None)) as [E1|E1];
      [|rewrite dispatch_busy by tauto; eauto].
    destruct (decide (in_flight_commit s = None)) as [E2|E2];
      [|rewrite dispatch_busy by tauto; eauto].
    destruct (dispatch_live s) as (? & _ & _ & ?); [|done|done].
    by apply (live_idle k).
  - intros [= <-]. destruct (drain_compile_answers s k Hl Hw) as (? & _ & j & ? & _). eauto.
  - intros [= <-]. destruct (drain_commit_answers s k Hl Hw) as (? & _ & j & ? & _). eauto.
  - pose proof (worker_answers s k Hl Hw) as (? & _ & j & ? & _).
    destruct (worker_step s). intros [= <-]. eauto.
  - pose proof (commits_answers g s k Hl Hw) as (? & _ & j & ? & _).
    destruct (process_commits_at_safe_point g s) as [[]]. intros [= <-]. eauto.
Qed.

Lemma live_steps es y y' k :
  live k (view (pipe y)) → worker (pipe y) ≠ None → EvShutdown ∉ es →
  steps es y = Some y' → worker (pipe y') ≠ None ∧ ∃ k', live k' (view (pipe y')).
Proof.
  intros Hl Hw Hes. revert y k Hl Hw. induction es as [|e es IH]; intros y k Hl Hw; cbn [steps].
  { intros [= <-]. eauto. }
  apply not_elem_of_cons in Hes as [He Hes].
  destruct (step e y) as [y1|] eqn:E; [|done]. cbn [mbind option_bind].
  destruct (live_step e y y1 k Hl Hw (not_eq_sym He) E) as [Hw1 [k1 L1]]. by eapply IH.
Qed.
End liveness.

(** ** Results *)

(** Channels of the pipeline that carry requests or answers. *)
Definition in_transit {B} (s : Pipeline B) : nat :=
  length (compiler_queue s) + length (compile_results s) + length (commit_requests s) +
  length (commit_results s).

Lemma phase_in_transit {B} (s : Pipeline B) h : phase (view s) h → (in_transit s ≤ 1)%nat.
Proof.
  unfold in_transit. intros Hp. remember (view s) as v eqn:Ev.
  destruct Hp; symmetry in Ev; apply view_fields in Ev as (_ & _ & -> & -> & -> & ->); cbn; lia.
Qed.

Section results.
Context {B A : Type} `{CompilerBackend B} `{CommitGate A} `{Clock}.

(** C6 Commits are serialised.  For every backend, commit closure and
    interleaving of file changes, coordinator phases, thread iterations, safe
    points and shutdowns: every commit call directly follows the compile call
    that produced it, carries that call's request id, layout hash and non-empty
    patch set, and was entitled by a successful result of the current contract
    version; compile ids strictly increase; a compile and a commit are never in
    flight together, and at most one message is in any of the four channels. *)
Theorem commits_are_serialised b (g : A) mode es :
  1 + Z.of_nat (length es) ≤ u64_max →
  ∃ y, steps es (System_new b g mode) = Some y ∧
    commits_follow (history y) ∧
    StronglySorted Z.lt (compile_ids (history y)) ∧
    (in_flight_compile (pipe y) = None ∨ in_flight_commit (pipe y) = None) ∧
    (in_transit (pipe y) ≤ 1)%nat.
Proof.
  intros Hn. destruct (steps_Inv es 1 _ (SysInv_new b g mode) Hn) as (y & E & HI).
  exists y. split_and!; [done|apply HI| | |].
  - pose proof (si_ids _ _ HI) as Hs. by apply StronglySorted_app_1_l in Hs.
  - apply (phase_exclusive _ _ (si_phase _ _ HI)).
  - apply (phase_in_transit _ _ (si_phase _ _ HI)).
Qed.

(** No file change is lost.  A change that is queued or pending stays so
    through every interleaving without a shutdown until it is in a compile
    request, and a compile request stays queued until the compiler is called
    with it. *)
Theorem file_changes_reach_compiler b (g : A) mode es1 es2 y y' p :
  1 + Z.of_nat (length (es1 ++ es2)) ≤ u64_max → EvShutdown ∉ es1 ++ es2 →
  steps es1 (System_new b g mode) = Some y → steps es2 y = Some y' →
  awaiting p (pipe y) →
  covered p (pipe y') ∨
  ∃ c res, CCompile c res ∈ drop (length (history y)) (history y') ∧ p ∈ cq_changed_files c.
Proof.
  rewrite length_app, Nat2Z.inj_add, not_elem_of_app. intros Hn [Hs1 Hs2] E1 E2 Hp.
  destruct (steps_Inv es1 1 _ (SysInv_new b g mode)) as (y1 & E1' & HI); [lia|].
  assert (y1 = y) as -> by congruence.
  apply (covered_steps p es2 (1 + Z.of_nat (length es1))); [exact HI|lia|done| |done|by left].
  apply (steps_alive es1 1 (System_new b g mode)); [apply SysInv_new|lia|done|done|done].
Qed.

(** Shutdown.  In every reachable state with the thread running, [shutdown]
    returns (the join ends), rejects exactly the requests in flight, each once,
    and leaves every channel, the pending files and both in-flight ids empty;
    a second call returns nothing and changes nothing. *)
Theorem shutdown_rejects_outstanding b (g : A) mode es y :
  1 + Z.of_nat (length es) ≤ u64_max → steps es (System_new b g mode) = Some y →
  worker (pipe y) ≠ None →
  ∃ s' calls, shutdown (pipe y) = Some (s', calls,
      (λ id, SwapCommitResult_failed id PIPELINE_STOPPED_BEFORE_COMMIT) <$> outstanding (pipe y)) ∧
    NoDup (outstanding (pipe y)) ∧ (length (outstanding (pipe y)) ≤ 1)%nat ∧
    in_transit s' = 0%nat ∧ has_in_flight_work s' = false ∧ file_changes s' = [] ∧
    shutdown s' = Some (s', [], []).
Proof.
  intros Hn E Hw. destruct (steps_Inv es 1 _ (SysInv_new b g mode) Hn) as (y' & E' & HI).
  assert (y' = y) as -> by congruence. destruct y as [s g' h]. cbn [pipe] in *.
  destruct (worker s) as [b'|] eqn:Ew; [|done].
  destruct (shutdown_spec _ _ _ _ _ HI Ew) as (s' & Es & [St Sw Sv Sp Sf] & _ & _).
  apply view_fields in Sv as (V1 & V2 & V3 & V4 & V5 & V6). cbn in V1, V2, V3, V4, V5, V6.
  pose proof (phase_exclusive _ _ (si_phase _ _ HI)) as Hx. cbn in Hx.
  exists s', (join_calls s b'). split_and!; [done| | | | |done|by apply shutdown_stopped].
  - unfold outstanding. destruct Hx as [-> | ->];
      [destruct (in_flight_commit s)|destruct (in_flight_compile s)]; cbn; repeat constructor;
      apply not_elem_of_nil.
  - unfold outstanding. destruct Hx as [-> | ->];
      [destruct (in_flight_commit s)|destruct (in_flight_compile s)]; cbn; lia.
  - unfold in_transit. by rewrite V3, V4, V5, V6.
  - unfold has_in_flight_work. by rewrite V1, V2, Sp.
Qed.

(** After a shutdown neither the backend nor the commit closure is ever
    called again, whatever is submitted or pumped. *)
Theorem nothing_runs_after_shutdown b (g : A) mode es1 es2 y y' :
  1 + Z.of_nat (length (es1 ++ EvShutdown :: es2)) ≤ u64_max →
  steps (es1 ++ [EvShutdown]) (System_new b g mode) = Some y → steps es2 y = Some y' →
  history y' = history y.
Proof.
  rewrite length_app. cbn [length]. rewrite Nat2Z.inj_add, Nat2Z.inj_succ.
  intros Hn E1 E2.
  destruct (steps_Inv (es1 ++ [EvShutdown]) 1 _ (SysInv_new b g mode)) as (y1 & E1' & HI).
  { rewrite length_app. cbn. lia. }
  assert (y1 = y) as -> by congruence. rewrite length_app in HI. cbn [length] in HI.
  assert (worker (pipe y) = None) as Hw.
  { rewrite steps_app in E1. destruct (steps es1 _) as [[s0 g0 h0]|] eqn:E0; [|done].
    cbn [mbind option_bind steps] in E1. unfold step in E1. cbn [pipe gate history] in E1.
    destruct (steps_Inv es1 1 _ (SysInv_new b g mode)) as (y0 & E0' & HI0); [lia|].
    rewrite E0 in E0'. injection E0' as <-.
    destruct (worker s0) as [b0|] eqn:Ew.
    - destruct (shutdown_spec _ _ _ _ _ HI0 Ew) as (s' & Es & St & _). rewrite Es in E1.
      injection E1 as <-. apply St.
    - rewrite shutdown_stopped in E1 by (by apply HI0). by injection E1 as <-. }
  assert (1 + Z.of_nat (length es1 + 1) + Z.of_nat (length es2) ≤ u64_max) as Hm by lia.
  revert HI Hm Hw E2. clear. generalize (1 + Z.of_nat (length es1 + 1)) as n. revert y.
  induction es2 as [|e es2 IH]; intros y n HI Hm Hw E; cbn [steps length] in *.
  { by injection E as <-. }
  destruct (system_step_Inv n e y HI) as (y1 & E1 & HI1); [lia|]. rewrite E1 in E.
  cbn [mbind option_bind] in E. destruct (dead_step n e y y1 HI E1 Hw) as [<- Hw1].
  apply (IH y1 (n + 1)); [done|lia|done|done].
Qed.
End results.

(** C29 The pipeline quiesces.  With a backend and a commit closure that answer
    under the id they were asked with, from every state reachable without a
    shutdown the ten coordinator, thread and safe-point events of
    [quiesce_events] leave no work: nothing is in flight or in a channel, no
    file is pending, and every file change that was awaiting has been in a
    compile call. *)
Theorem pipeline_quiesces {B A} `{LawfulBackend B} `{LawfulGate A} `{Clock}
    b (g : A) mode es y :
  1 + Z.of_nat (length (es ++ quiesce_events)) ≤ u64_max → EvShutdown ∉ es →
  steps es (System_new b g mode) = Some y →
  ∃ y', steps quiesce_events y = Some y' ∧ has_in_flight_work (pipe y') = false ∧
    in_transit (pipe y') = 0%nat ∧ file_changes (pipe y') = [] ∧
    ∀ p, awaiting p (pipe y) →
      ∃ c res, CCompile c res ∈ drop (length (history y)) (history y') ∧ p ∈ cq_changed_files c.
Proof.
  rewrite length_app, Nat2Z.inj_add. intros Hn Hes E.
  destruct (live_steps es (System_new b g mode) y 0) as [Hw [k L]]; [constructor|done|done|done|].
  destruct (quiesce y k L Hw) as (y' & E' & V & Hw' & Ep & Ef).
  apply view_fields in V as (V1 & V2 & V3 & V4 & V5 & V6). cbn in V1, V2, V3, V4, V5, V6.
  exists y'. split_and!; [done| | |done|].
  - unfold has_in_flight_work. by rewrite V1, V2, Ep.
  - unfold in_transit. by rewrite V3, V4, V5, V6.
  - intros p Hp.
    destruct (steps_Inv es 1 _ (SysInv_new b g mode)) as (y1 & E1 & HI); [lia|].
    assert (y1 = y) as -> by congruence.
    destruct (covered_steps p quiesce_events _ y y' HI) as [[[Hc|Hc]|(c & Hc & _)]|Hc];
      try done; [lia| | | | |].
    + unfold quiesce_events, settle_events. cbn [app]. rewrite !not_elem_of_cons.
      repeat split; (discriminate || apply not_elem_of_nil).
    + by left.
    + rewrite Ef in Hc. by apply not_elem_of_nil in Hc.
    + rewrite Ep in Hc. by apply not_elem_of_nil in Hc.
    + rewrite V3 in Hc. by apply not_elem_of_nil in Hc.
Qed.

(** ** Concrete runs *)

Module Sample.
#[export] Instance sample_backend : CompilerBackend unit := λ u r,
  (u, CompileResult_success (cq_request_id r) (mkLayoutHash [1; 2])
        (mkFunctionPatchSet [mkFunctionPatch (mkFnId 7)])).
#[export] Instance sample_gate : CommitGate unit := λ u r,
  (u, SwapCommitResult_success (sq_request_id r) [mkFnId 7] (mkGeneration 1)).
#[export] Instance sample_backend_lawful : LawfulBackend unit.
Proof. by intros [] r. Qed.
#[export] Instance sample_gate_lawful : LawfulGate unit.
Proof. by intros [] r. Qed.
#[export] Instance sample_clock : Clock := Z.of_nat.

Definition change (name : string) : Event :=
  EvFile (FileChangeEvent_new [RootDir; Normal name] 1 FileWatcher Modified).

Definition start : System unit unit := System_new tt tt JitDev.

Definition after (es : list Event) : System unit unit :=
  match steps es start with Some y => y | None => start end.
(** One change compiled and its commit applied, the answer not yet drained. *)
Definition applied : list Event :=
  [change "a.stasis"; EvDrainFiles; EvDispatch; change "b.stasis"; EvWorker; EvDrainCompile;
   EvCommits].
End Sample.
Import Sample.

Lemma commits_are_serialised_witness :
  ∃ y, steps Sample.applied (System_new tt tt JitDev) = Some y ∧
    commits_follow (history y) ∧ StronglySorted Z.lt (compile_ids (history y)) ∧
    (in_flight_compile (pipe y) = None ∨ in_flight_commit (pipe y) = None) ∧
    (in_transit (pipe y) ≤ 1)%nat.
Proof. apply commits_are_serialised. by vm_compute. Defined.

Lemma file_changes_reach_compiler_witness :
  let p := [RootDir; Normal "a.stasis"] in
  let y := Sample.after [Sample.change "a.stasis"] in
  let y' := Sample.after Sample.applied in
  covered p (pipe y') ∨
  ∃ c res, CCompile c res ∈ drop (length (history y)) (history y') ∧ p ∈ cq_changed_files c.
Proof.
  cbv zeta. apply (file_changes_reach_compiler tt tt JitDev [Sample.change "a.stasis"]
    (drop 1 Sample.applied)).
  - by vm_compute.
  - unfold Sample.applied, Sample.change. cbn [drop app]. rewrite !not_elem_of_cons.
    repeat split; (discriminate || apply not_elem_of_nil).
  - reflexivity.
  - vm_compute. reflexivity.
  - left. vm_compute. apply list_elem_of_here.
Defined.

Lemma pipeline_quiesces_witness :
  ∃ y', steps quiesce_events (Sample.after Sample.applied) = Some y' ∧
    has_in_flight_work (pipe y') = false ∧ in_transit (pipe y') = 0%nat ∧
    file_changes (pipe y') = [] ∧
    ∀ p, awaiting p (pipe (Sample.after Sample.applied)) →
      ∃ c res, CCompile c res ∈ drop (length (history (Sample.after Sample.applied))) (history y') ∧
        p ∈ cq_changed_files c.
Proof.
  apply (pipeline_quiesces tt tt JitDev Sample.applied).
  - by vm_compute.
  - unfold Sample.applied, Sample.change. rewrite !not_elem_of_cons.
    repeat split; (discriminate || apply not_elem_of_nil).
  - vm_compute. reflexivity.
Defined.

Lemma shutdown_rejects_outstanding_witness :
  ∃ s' calls, shutdown (pipe (Sample.after Sample.applied)) = Some (s', calls,
      (λ id, SwapCommitResult_failed id PIPELINE_STOPPED_BEFORE_COMMIT) <$>
        outstanding (pipe (Sample.after Sample.applied))) ∧
    NoDup (outstanding (pipe (Sample.after Sample.applied))) ∧
    (length (outstanding (pipe (Sample.after Sample.applied))) ≤ 1)%nat ∧
    in_transit s' = 0%nat ∧ has_in_flight_work s' = false ∧ file_changes s' = [] ∧
    shutdown s' = Some (s', [], []).
Proof.
  apply (shutdown_rejects_outstanding tt tt JitDev Sample.applied).
  - by vm_compute.
  - vm_compute. reflexivity.
  - vm_compute. discriminate.
Defined.

Lemma nothing_runs_after_shutdown_witness :
  history (Sample.after (Sample.applied ++ EvShutdown :: Sample.applied)) =
  history (Sample.after (Sample.applied ++ [EvShutdown])).
Proof.
  apply (nothing_runs_after_shutdown tt tt JitDev Sample.applied Sample.applied).
  - by vm_compute.
  - vm_compute. reflexivity.
  - vm_compute. reflexivity.
Defined.

(** A shutdown between the safe point and the next [drain_commit_results]
    rejects a commit that was applied: the commit closure has answered request 1
    with success, yet [shutdown] returns a failure for request 1, with the text
    that it stopped before the commit, and records it as the last result. *)
Theorem shutdown_rejects_applied_commit :
  ∃ y s' calls q r, steps Sample.applied Sample.start = Some y ∧
    last (history y) = Some (CCommit q r) ∧ sr_status r = CommitSuccess ∧
    sr_request_id r = mkRequestId 1 ∧
    shutdown (pipe y) = Some (s', calls,
      [SwapCommitResult_failed (mkRequestId 1) PIPELINE_STOPPED_BEFORE_COMMIT]) ∧
    last_commit_result s' =
      Some (SwapCommitResult_failed (mkRequestId 1) PIPELINE_STOPPED_BEFORE_COMMIT).
Proof. do 5 eexists. split_and!; vm_compute; reflexivity. Qed.
