(* ===== verification/FunctionTable.v ===== *)
(** * The function pointer table

    Models [FunctionPointerTable] and [AotTarget] of
    [crates/stasis_jit/src/lib.rs]: the indirection table from function ids to
    code pointers that a hot swap commits into, and its retirement window.
    Linking, objects and the environment are not modelled. *)

From S2P Require Import Prelude BTree Contracts.
From stdpp Require Import pretty.
#[local] Open Scope Z_scope.

Record CodePtr := mkCodePtr { code_address : Z }.

#[export] Instance CodePtr_eq_dec : EqDecision CodePtr.
Proof. solve_decision. Defined.

Record CommitOutcome := mkOutcome {
  new_generation : CodeGeneration;
  swapped_fn_ids : list FnId;
  retired_generations : list CodeGeneration;
}.

(** ** Targets *)

Inductive AotTarget :=
| Native
| AndroidArm64 (min_sdk : Z)
| AndroidX86_64 (min_sdk : Z)
| IosArm64
| IosSimulatorArm64.

Definition android_arm64_default : AotTarget := AndroidArm64 26.
Definition android_x86_64_default : AotTarget := AndroidX86_64 26.
Definition ios_arm64_default : AotTarget := IosArm64.
Definition ios_simulator_arm64_default : AotTarget := IosSimulatorArm64.

Definition object_triple (t : AotTarget) : option string :=
  match t with
  | Native => None
  | AndroidArm64 _ => Some "aarch64-linux-android"
  | AndroidX86_64 _ => Some "x86_64-linux-android"
  | IosArm64 => Some "aarch64-apple-ios"
  | IosSimulatorArm64 => Some "aarch64-apple-ios-sim"
  end%string.

Definition clang_target (t : AotTarget) : option string :=
  match t with
  | Native => None
  | AndroidArm64 min_sdk => Some ("aarch64-linux-android" +:+ pretty min_sdk)
  | AndroidX86_64 min_sdk => Some ("x86_64-linux-android" +:+ pretty min_sdk)
  | IosArm64 => Some "aarch64-apple-ios"
  | IosSimulatorArm64 => Some "arm64-apple-ios15.0-simulator"
  end%string.

Definition is_android (t : AotTarget) : bool :=
  match t with AndroidArm64 _ | AndroidX86_64 _ => true | _ => false end.

(** [macos] is [cfg!(target_os = "macos")]. *)
Definition requires_position_independent_code (macos : bool) (t : AotTarget) : bool :=
  match t with Native => macos | _ => true end.

(** ** The table *)

Record FunctionPointerTable := mkTable {
  entries : list (FnId * CodePtr);         (* BTreeMap *)
  generation : Z;                          (* u64 *)
  pending_retire : list CodeGeneration;    (* VecDeque *)
  safe_retire_window : nat;
}.

Definition with_safe_retire_window (window : nat) : FunctionPointerTable := mkTable [] 0 [] window.
Definition Table_new : FunctionPointerTable := with_safe_retire_window 2.

Definition table_generation (t : FunctionPointerTable) : CodeGeneration := mkGeneration (generation t).

Definition code_ptr (t : FunctionPointerTable) (f : FnId) : option CodePtr := map_get f (entries t).

(** [(generation.0 << 32) | u64::from(fn_id.0)] *)
Definition make_code_ptr (g : CodeGeneration) (f : FnId) : CodePtr :=
  mkCodePtr (Z.lor (wrap 64 (Z.shiftl (generation_number g) 32)) (fn_number f)).

Definition preview_code_ptr_after_commit (t : FunctionPointerTable) (patches : FunctionPatchSet)
    (overrides : option (list JitCodePtrOverride)) (f : FnId) : option CodePtr :=
  if negb (existsb (λ p, bool_decide (patch_fn_id p = f)) (functions patches)) then code_ptr t f
  else
    let computed := Some (make_code_ptr (mkGeneration (wrap 64 (generation t + 1))) f) in
    match overrides with
    | None => computed
    | Some l =>
        match list_find (λ e, override_fn_id e = f) l with
        | Some (_, e) => Some (mkCodePtr (override_code_ptr e))
        | None => computed
        end
    end.

(** The two loops the commit functions share: the entries a patch set writes,
    and the retirement window. *)
Definition commit_entries (ptr : FnId → CodePtr) (patches : list FunctionPatch)
    (m : list (FnId * CodePtr)) : list (FnId * CodePtr) :=
  foldl (λ m p, map_insert (patch_fn_id p) (ptr (patch_fn_id p)) m) m patches.

Fixpoint retire_loop (fuel window : nat) (pending retired : list CodeGeneration)
    : list CodeGeneration * list CodeGeneration :=
  match fuel with
  | O => (pending, retired)
  | S fuel' =>
      if (window <? length pending)%nat then
        match pending with
        | g :: rest => retire_loop fuel' window rest (retired ++ [g])
        | [] => (pending, retired)
        end
      else (pending, retired)
  end.

Definition retire (window : nat) (pending : list CodeGeneration)
    : list CodeGeneration * list CodeGeneration :=
  retire_loop (length pending) window pending [].

Definition commit_patch_set (patches : FunctionPatchSet) (t : FunctionPointerTable)
    : FunctionPointerTable * CommitOutcome :=
  let g := wrap 64 (generation t + 1) in
  let m := commit_entries (make_code_ptr (mkGeneration g)) (functions patches) (entries t) in
  let pending := if 1 <? g then pending_retire t ++ [mkGeneration (g - 1)] else pending_retire t in
  let '(pending', retired) := retire (safe_retire_window t) pending in
  (mkTable m g pending' (safe_retire_window t),
   mkOutcome (mkGeneration g) (patch_fn_id <$> functions patches) retired).

Definition commit_patch_set_with_overrides (patches : FunctionPatchSet)
    (overrides : list JitCodePtrOverride) (t : FunctionPointerTable)
    : FunctionPointerTable * CommitOutcome :=
  let g := wrap 64 (generation t + 1) in
  let override_by_fn :=
    map_of_list ((λ e, (override_fn_id e, mkCodePtr (override_code_ptr e))) <$> overrides) in
  let ptr f := default (make_code_ptr (mkGeneration g) f) (map_get f override_by_fn) in
  let m := commit_entries ptr (functions patches) (entries t) in
  let pending := if 1 <? g then pending_retire t ++ [mkGeneration (g - 1)] else pending_retire t in
  let '(pending', retired) := retire (safe_retire_window t) pending in
  (mkTable m g pending' (safe_retire_window t),
   mkOutcome (mkGeneration g) (patch_fn_id <$> functions patches) retired).

(** ** Entries *)

Lemma commit_entries_sorted ptr l m : sorted_map m → sorted_map (commit_entries ptr l m).
Proof.
  unfold commit_entries. revert m. induction l as [|p l IH]; intros m Hm; simpl; [done|].
  by apply IH, map_insert_sorted.
Qed.

Lemma commit_entries_get ptr l m f :
  sorted_map m →
  map_get f (commit_entries ptr l m) =
  if existsb (λ p, bool_decide (patch_fn_id p = f)) l then Some (ptr f) else map_get f m.
Proof.
  unfold commit_entries. revert m. induction l as [|p l IH]; intros m Hm; simpl; [done|].
  rewrite IH by by apply map_insert_sorted.
  destruct (existsb _ l); [by rewrite orb_true_r|]. rewrite orb_false_r.
  case_bool_decide as E; [subst; by rewrite map_get_insert|].
  by apply map_get_insert_ne.
Qed.

(** The override a map built from the list answers with is the list's last one. *)
Lemma override_get f l :
  map_get f (map_of_list ((λ e, (override_fn_id e, mkCodePtr (override_code_ptr e))) <$> l)) =
  (λ e, mkCodePtr (override_code_ptr e.2)) <$> list_find (λ e, override_fn_id e = f) (reverse l).
Proof.
  rewrite map_get_of_list. rewrite <- fmap_reverse. induction (reverse l) as [|e l' IH]; [done|].
  rewrite fmap_cons. cbn [list_find fst].
  destruct (decide (f = override_fn_id e)), (decide (override_fn_id e = f)); try congruence; [done|].
  destruct (list_find (λ x, f = x.1) _) as [[]|], (list_find _ l') as [[]|]; done.
Qed.

Lemma list_find_rev_NoDup f (l : list JitCodePtrOverride) :
  NoDup (override_fn_id <$> l) →
  snd <$> list_find (λ e, override_fn_id e = f) (reverse l) =
  snd <$> list_find (λ e, override_fn_id e = f) l.
Proof.
  intros Hd. destruct (list_find _ l) as [[i e]|] eqn:E; cbn.
  - apply list_find_Some in E as (Hi & He & _).
    destruct (list_find _ (reverse l)) as [[j e']|] eqn:E'; cbn.
    + apply list_find_Some in E' as (Hj & He' & _). f_equal.
      apply (NoDup_fmap_elem override_fn_id l); [done| | |congruence].
      * rewrite <- elem_of_reverse. by eapply list_elem_of_lookup_2.
      * by eapply list_elem_of_lookup_2.
    + exfalso. apply list_find_None in E'. rewrite Forall_forall in E'. apply (E' e); [|done].
      rewrite elem_of_reverse. by eapply list_elem_of_lookup_2.
  - apply list_find_None in E. rewrite Forall_forall in E.
    destruct (list_find _ (reverse l)) as [[j e']|] eqn:E'; [|done].
    apply list_find_Some in E' as (Hj & He' & _). exfalso. apply (E e'); [|done].
    rewrite <- elem_of_reverse. by eapply list_elem_of_lookup_2.
Qed.

(** ** Retirement *)

Lemma retire_loop_spec fuel window pending retired :
  (length pending ≤ fuel)%nat →
  retire_loop fuel window pending retired =
  (drop (length pending - window) pending, retired ++ take (length pending - window) pending).
Proof.
  revert pending retired. induction fuel as [|fuel IH]; intros pending retired Hf.
  { destruct pending; [|simpl in *; lia]. simpl. by rewrite app_nil_r. }
  cbn [retire_loop]. destruct (_ <? _)%nat eqn:E; to_props.
  - destruct pending as [|g rest]; [simpl in *; lia|]. rewrite IH by (simpl in *; lia).
    cbn [length] in *. rewrite Nat.sub_succ_l by lia. cbn [drop take].
    by rewrite <- app_assoc.
  - replace (length pending - window)%nat with 0%nat by lia. by rewrite drop_0, take_0, app_nil_r.
Qed.

(** The fuel of [retire] is enough: it empties the queue down to the window. *)
Lemma retire_spec window pending :
  retire window pending =
  (drop (length pending - window) pending, take (length pending - window) pending).
Proof. unfold retire. by rewrite retire_loop_spec. Qed.

Definition generations (start n : nat) : list CodeGeneration :=
  (λ i, mkGeneration (Z.of_nat i)) <$> seq start n.

(** After [n] commits: the generations retired so far and those pending. *)
Record commits_inv (n : nat) (t : FunctionPointerTable) (retired : list CodeGeneration) : Prop := {
  ci_generation : generation t = Z.of_nat n;
  ci_sorted : sorted_map (entries t);
  ci_split : retired ++ pending_retire t = generations 1 (n - 1);
  ci_retired : length retired = (n - 1 - safe_retire_window t)%nat;
}.

(** The part both commit functions share. *)
Definition commit_with (ptr : CodeGeneration → FnId → CodePtr) (patches : FunctionPatchSet)
    (t : FunctionPointerTable) : FunctionPointerTable * CommitOutcome :=
  let g := wrap 64 (generation t + 1) in
  let pending := if 1 <? g then pending_retire t ++ [mkGeneration (g - 1)] else pending_retire t in
  let '(pending', retired) := retire (safe_retire_window t) pending in
  (mkTable (commit_entries (ptr (mkGeneration g)) (functions patches) (entries t)) g pending'
     (safe_retire_window t),
   mkOutcome (mkGeneration g) (patch_fn_id <$> functions patches) retired).

Definition override_ptr (overrides : list JitCodePtrOverride) (g : CodeGeneration) (f : FnId) : CodePtr :=
  default (make_code_ptr g f)
    (map_get f (map_of_list
       ((λ e, (override_fn_id e, mkCodePtr (override_code_ptr e))) <$> overrides))).

Inductive Commit :=
| CommitPlain (patches : FunctionPatchSet)
| CommitOverrides (patches : FunctionPatchSet) (overrides : list JitCodePtrOverride).

Definition apply_commit_op (c : Commit) (t : FunctionPointerTable)
    : FunctionPointerTable * CommitOutcome :=
  match c with
  | CommitPlain p => commit_patch_set p t
  | CommitOverrides p l => commit_patch_set_with_overrides p l t
  end.

Lemma apply_commit_with c t : ∃ ptr p, apply_commit_op c t = commit_with ptr p t.
Proof. destruct c as [p|p l]; [by exists make_code_ptr, p|by exists (override_ptr l), p]. Qed.

Fixpoint run_commits (cs : list Commit) (t : FunctionPointerTable)
    : FunctionPointerTable * list CodeGeneration :=
  match cs with
  | [] => (t, [])
  | c :: rest =>
      let '(t1, o) := apply_commit_op c t in
      let '(t2, retired) := run_commits rest t1 in
      (t2, retired_generations o ++ retired)
  end.

Lemma generations_snoc n : generations 1 (S n) = generations 1 n ++ [mkGeneration (Z.of_nat (S n))].
Proof. unfold generations. by rewrite seq_S, fmap_app. Qed.

Lemma commit_with_inv ptr p n t retired :
  Z.of_nat n < u64_max → commits_inv n t retired →
  let '(t', o) := commit_with ptr p t in
  commits_inv (S n) t' (retired ++ retired_generations o) ∧
  safe_retire_window t' = safe_retire_window t.
Proof.
  intros Hn [Hg Hs Hsplit Hl]. unfold commit_with. rewrite Hg.
  rewrite wrap_small by (unfold in_u, u64_max in *; lia).
  replace (Z.of_nat n + 1) with (Z.of_nat (S n)) by lia.
  set (pending := if 1 <? _ then _ else _). rewrite retire_spec.
  assert (retired ++ pending = generations 1 n) as Hp.
  { unfold pending. destruct (1 <? _) eqn:E; to_props.
    - destruct n as [|n]; [lia|]. rewrite generations_snoc, app_assoc. f_equal.
      + rewrite Hsplit. f_equal. lia.
      + do 2 f_equal. lia.
    - destruct n as [|n]; [|lia]. exact Hsplit. }
  assert (length retired + length pending = n)%nat as Hlen.
  { rewrite <- length_app, Hp. unfold generations. by rewrite length_fmap, length_seq. }
  split; [|done]. split; cbn.
  - done.
  - by apply commit_entries_sorted.
  - by rewrite <- app_assoc, take_drop, Hp, Nat.sub_0_r.
  - rewrite length_app, length_take. lia.
Qed.

Lemma run_commits_inv cs n t retired :
  Z.of_nat (n + length cs) ≤ u64_max → commits_inv n t retired →
  let '(t', r) := run_commits cs t in
  commits_inv (n + length cs) t' (retired ++ r) ∧
  safe_retire_window t' = safe_retire_window t.
Proof.
  revert n t retired. induction cs as [|c cs IH]; intros n t retired Hn HI; cbn [run_commits].
  { cbn [length]. by rewrite Nat.add_0_r, app_nil_r. }
  cbn [length] in *. destruct (apply_commit_with c t) as (ptr & p & ->).
  pose proof (commit_with_inv ptr p n t retired ltac:(lia) HI) as H1.
  destruct (commit_with ptr p t) as [t1 o]. destruct H1 as [H1 Hw1].
  specialize (IH (S n) t1 (retired ++ retired_generations o) ltac:(lia) H1).
  destruct (run_commits cs t1) as [t2 r]. destruct IH as [H2 Hw2].
  rewrite <- app_assoc in H2. split; [|congruence].
  by replace (n + S (length cs))%nat with (S n + length cs)%nat by lia.
Qed.

(** ** Results *)

(** [preview_code_ptr_after_commit] tells exactly what the commit does to any
    function, patched or not: with no overrides it is the pointer after
    [commit_patch_set], and with overrides that name each function at most once
    the pointer after [commit_patch_set_with_overrides]. *)
Theorem preview_is_commit t patches overrides f :
  sorted_map (entries t) →
  code_ptr (commit_patch_set patches t).1 f = preview_code_ptr_after_commit t patches None f ∧
  (NoDup (override_fn_id <$> overrides) →
   code_ptr (commit_patch_set_with_overrides patches overrides t).1 f =
   preview_code_ptr_after_commit t patches (Some overrides) f).
Proof.
  intros Hs. split; [|intros Hd].
  - unfold code_ptr, commit_patch_set, preview_code_ptr_after_commit. rewrite retire_spec. cbn -[wrap].
    rewrite commit_entries_get by done. by destruct (existsb _ _).
  - unfold code_ptr, commit_patch_set_with_overrides, preview_code_ptr_after_commit.
    rewrite retire_spec. cbn -[wrap]. rewrite commit_entries_get by done.
    destruct (existsb _ _); [|done]. cbn [negb]. rewrite override_get.
    pose proof (list_find_rev_NoDup f overrides Hd) as E.
    destruct (list_find _ (reverse overrides)) as [[i e]|], (list_find _ overrides) as [[j e']|];
      simplify_eq/=; done.
Qed.

Lemma preview_is_commit_witness :
  let t := (commit_patch_set (mkFunctionPatchSet [mkFunctionPatch (mkFnId 3)]) Table_new).1 in
  let p := mkFunctionPatchSet [mkFunctionPatch (mkFnId 3); mkFunctionPatch (mkFnId 4)] in
  let l := [mkOverride (mkFnId 4) 99] in
  code_ptr (commit_patch_set p t).1 (mkFnId 3) = preview_code_ptr_after_commit t p None (mkFnId 3) ∧
  (NoDup (override_fn_id <$> l) →
   code_ptr (commit_patch_set_with_overrides p l t).1 (mkFnId 3) =
   preview_code_ptr_after_commit t p (Some l) (mkFnId 3)).
Proof. cbv zeta. apply preview_is_commit. vm_compute. repeat constructor. Defined.

(** Retirement.  After any [k] commits to a new table with window [w], the
    generations reported as retired are exactly [1 .. k-1-w], each once and in
    order: neither the live generation nor the [w] before it is ever retired,
    and nothing older is kept. *)
Theorem retirement_window w cs :
  Z.of_nat (length cs) ≤ u64_max →
  let '(t, retired) := run_commits cs (with_safe_retire_window w) in
  generation t = Z.of_nat (length cs) ∧
  retired = generations 1 (length cs - 1 - w) ∧
  pending_retire t = generations (1 + (length cs - 1 - w)) (Nat.min w (length cs - 1)).
Proof.
  intros Hn. pose proof (run_commits_inv cs 0 (with_safe_retire_window w) [] ltac:(lia)) as HI.
  destruct (run_commits cs _) as [t retired].
  destruct HI as [[Hg _ Hsplit Hl] Hw]; [split; try done; constructor|].
  cbn [app Nat.add] in *. rewrite Hw in Hl. cbn [safe_retire_window with_safe_retire_window] in Hl.
  split; [done|].
  assert (generations 1 (length cs - 1) =
    generations 1 (length cs - 1 - w) ++ generations (1 + (length cs - 1 - w)) (Nat.min w (length cs - 1)))
    as Hg2.
  { unfold generations. rewrite <- fmap_app, <- seq_app. do 2 f_equal. lia. }
  rewrite Hg2 in Hsplit. apply app_inj_1 in Hsplit as [-> ->]; [done|].
  rewrite Hl. unfold generations. by rewrite length_fmap, length_seq.
Qed.

Lemma retirement_window_witness :
  let cs := replicate 5 (CommitPlain (mkFunctionPatchSet [])) in
  let '(t, retired) := run_commits cs (with_safe_retire_window 2) in
  generation t = 5 ∧ retired = generations 1 2 ∧ pending_retire t = generations 3 2.
Proof. apply (retirement_window 2 (replicate 5 (CommitPlain (mkFunctionPatchSet [])))). by vm_compute. Defined.

(** Generated code pointers identify their generation and function: below
    generation [2^32], distinct pairs have distinct pointers, and a pointer read
    back as generation and id gives the pair. *)
Theorem make_code_ptr_faithful g f :
  in_u 32 (generation_number g) → in_u 32 (fn_number f) →
  let a := code_address (make_code_ptr g f) in
  in_u 64 a ∧ Z.shiftr a 32 = generation_number g ∧ a `mod` 2 ^ 32 = fn_number f.
Proof.
  intros Hg Hf. unfold in_u in *. cbn -[wrap Z.lor]. rewrite wrap_small.
  - rewrite lor_shiftl_low by lia. split_and!; [lia|lia| |].
    + rewrite Z.shiftr_div_pow2, Z.div_add_l, Z.div_small by lia. lia.
    + rewrite Z.add_comm, Z.mod_add, Z.mod_small by lia. done.
  - unfold in_u. rewrite Z.shiftl_mul_pow2 by lia. lia.
Qed.

Lemma make_code_ptr_faithful_witness :
  let a := code_address (make_code_ptr (mkGeneration 9) (mkFnId 4294967295)) in
  in_u 64 a ∧ Z.shiftr a 32 = 9 ∧ a `mod` 2 ^ 32 = 4294967295.
Proof. apply (make_code_ptr_faithful (mkGeneration 9) (mkFnId 4294967295)); by vm_compute. Defined.
