(* ===== verification/Lexer.v ===== *)
(** * The lexer

    Models [crates/stasis_compiler/src/frontend/lexer.rs]: the byte loop with
    its comment, quote, number, identifier and punctuation cases, on the bytes
    of the source.  Every [while] takes fuel and returns [None] when it runs
    out; [lex_total] shows that it never does.  [lexed] is the lexical grammar
    the loop implements. *)

From S2P Require Import Prelude.
#[local] Open Scope Z_scope.

(** ** Tokens *)

Inductive TokenKind :=
| FunctionKw | Identifier | Integer | StringLiteral | BacktickLiteral
| LParen | RParen | LBrace | RBrace | Colon | Comma | Semicolon | Other | Eof.

#[export] Instance TokenKind_eq_dec : EqDecision TokenKind.
Proof. solve_decision. Defined.

Record Token := mkToken { kind : TokenKind; start : nat; end_ : nat }.

#[export] Instance Token_eq_dec : EqDecision Token.
Proof. solve_decision. Defined.

Record LexerDiagnostic := mkLexerDiagnostic { message : string; offset : nat }.

(** ** Bytes *)

Definition is_ascii_whitespace (b : Z) : bool :=
  (b =? 32) || (b =? 9) || (b =? 10) || (b =? 12) || (b =? 13).
Definition is_ascii_digit (b : Z) : bool := (48 <=? b) && (b <=? 57).
Definition is_ascii_alphabetic (b : Z) : bool :=
  ((65 <=? b) && (b <=? 90)) || ((97 <=? b) && (b <=? 122)).
Definition is_identifier_start (b : Z) : bool := is_ascii_alphabetic b || (b =? 95).
Definition is_identifier_continue (b : Z) : bool := is_identifier_start b || is_ascii_digit b.

Definition NEWLINE : Z := 10.
Definition QUOTE : Z := 34.
Definition STAR : Z := 42.
Definition SLASH : Z := 47.
Definition BACKSLASH : Z := 92.
Definition BACKTICK : Z := 96.

(** ** The loops *)

(** [while i < bytes.len() && p(bytes[i]) { i += 1; }] *)
Fixpoint skip_while (fuel : nat) (p : Z → bool) (bytes : list Z) (i : nat) : option nat :=
  match fuel with
  | O => None
  | S fuel' =>
      match bytes !! i with
      | Some b => if p b then skip_while fuel' p bytes (i + 1) else Some i
      | None => Some i
      end
  end.

(** [while i + 1 < bytes.len() && !(bytes[i] == b'*' && bytes[i + 1] == b'/')] *)
Fixpoint skip_block (fuel : nat) (bytes : list Z) (i : nat) : option nat :=
  match fuel with
  | O => None
  | S fuel' =>
      match bytes !! i, bytes !! (i + 1)%nat with
      | Some a, Some b =>
          if (a =? STAR) && (b =? SLASH) then Some i else skip_block fuel' bytes (i + 1)
      | _, _ => Some i
      end
  end.

(** The loop over a quoted region opened by [q]: [closed] and the index. *)
Fixpoint skip_quoted (fuel : nat) (q : Z) (bytes : list Z) (i : nat) : option (bool * nat) :=
  match fuel with
  | O => None
  | S fuel' =>
      match bytes !! i with
      | None => Some (false, i)
      | Some b =>
          if (q =? QUOTE) && (b =? BACKSLASH) then skip_quoted fuel' q bytes (i + 2)
          else if b =? q then Some (true, (i + 1)%nat)
          else skip_quoted fuel' q bytes (i + 1)
      end
  end.

Definition punctuation (b : Z) : TokenKind :=
  if b =? 40 then LParen else if b =? 41 then RParen
  else if b =? 123 then LBrace else if b =? 125 then RBrace
  else if b =? 58 then Colon else if b =? 44 then Comma
  else if b =? 59 then Semicolon else Other.

(** One iteration of the outer loop at index [i] on byte [b]: the tokens pushed
    and the next index, or the diagnostic. *)
Definition lex_one (bytes : list Z) (i : nat) (b : Z)
    : option (Result (list Token * nat) LexerDiagnostic) :=
  let fuel := S (length bytes) in
  if is_ascii_whitespace b then Some (Ok ([], (i + 1)%nat))
  else if (b =? SLASH) && bool_decide (bytes !! (i + 1)%nat = Some SLASH) then
    j ← skip_while fuel (λ c, negb (c =? NEWLINE)) bytes (i + 2); Some (Ok ([], j))
  else if (b =? SLASH) && bool_decide (bytes !! (i + 1)%nat = Some STAR) then
    j ← skip_block fuel bytes (i + 2);
    if (length bytes <=? j + 1)%nat
    then Some (Err (mkLexerDiagnostic "unterminated block comment" i))
    else Some (Ok ([], (j + 2)%nat))
  else if (b =? QUOTE) || (b =? BACKTICK) then
    '(closed, j) ← skip_quoted fuel b bytes (i + 1);
    if negb closed then
      Some (Err (mkLexerDiagnostic
        (if b =? BACKTICK then "unterminated test name (missing closing backtick)"
         else "unterminated string literal") i))
    else Some (Ok ([mkToken (if b =? BACKTICK then BacktickLiteral else StringLiteral) i
                      (Nat.min j (length bytes))], j))
  else if is_ascii_digit b then
    j ← skip_while fuel is_ascii_digit bytes (i + 1); Some (Ok ([mkToken Integer i j], j))
  else if is_identifier_start b then
    j ← skip_while fuel is_identifier_continue bytes (i + 1);
    let text := take (j - i) (drop i bytes) in
    Some (Ok ([mkToken (if bool_decide (text = string_bytes "function") then FunctionKw
                        else Identifier) i j], j))
  else Some (Ok ([mkToken (punctuation b) i (i + 1)], (i + 1)%nat)).

Fixpoint lex_loop (fuel : nat) (bytes : list Z) (i : nat) (tokens : list Token)
    : option (Result (list Token) LexerDiagnostic) :=
  match fuel with
  | O => None
  | S fuel' =>
      match bytes !! i with
      | None => Some (Ok (tokens ++ [mkToken Eof (length bytes) (length bytes)]))
      | Some b =>
          r ← lex_one bytes i b;
          match r with
          | Err e => Some (Err e)
          | Ok (ts, j) => lex_loop fuel' bytes j (tokens ++ ts)
          end
      end
  end.

Definition lex_with_diagnostic (bytes : list Z) : option (Result (list Token) LexerDiagnostic) :=
  lex_loop (S (length bytes)) bytes 0 [].

Definition lex (bytes : list Z) : option (Result (list Token) string) :=
  map_err message <$> lex_with_diagnostic bytes.

(** ** The lexical grammar

    [token_of w rest k]: the word [w], followed by [rest], is one token of kind
    [k]; [trivia w rest]: it is skipped. *)

Definition starts_with (p : Z → bool) (l : list Z) : Prop :=
  match l with [] => False | b :: _ => p b = true end.

(** Inside a string: escape pairs and bytes other than quote and backslash. *)
Inductive string_body : list Z → Prop :=
| sb_nil : string_body []
| sb_char b l : b ≠ QUOTE → b ≠ BACKSLASH → string_body l → string_body (b :: l)
| sb_escape b l : string_body l → string_body (BACKSLASH :: b :: l).

(** A block comment's text: no closer before its end. *)
Inductive block_body : list Z → Prop :=
| bb_nil : block_body []
| bb_cons b l : ¬ (b = STAR ∧ starts_with (Z.eqb SLASH) (l ++ [STAR; SLASH])) →
    block_body l → block_body (b :: l).

Inductive trivia : list Z → list Z → Prop :=
| tr_space b rest : is_ascii_whitespace b = true → trivia [b] rest
| tr_line body rest :
    Forall (λ c, c ≠ NEWLINE) body → ¬ starts_with (λ c, negb (c =? NEWLINE)) rest →
    trivia (SLASH :: SLASH :: body) rest
| tr_block body rest :
    block_body body → trivia ([SLASH; STAR] ++ body ++ [STAR; SLASH]) rest.

Inductive token_of : list Z → list Z → TokenKind → Prop :=
| to_string body rest : string_body body → token_of (QUOTE :: body ++ [QUOTE]) rest StringLiteral
| to_test body rest :
    Forall (λ c, c ≠ BACKTICK) body → token_of (BACKTICK :: body ++ [BACKTICK]) rest BacktickLiteral
| to_number b w rest :
    is_ascii_digit b = true → Forall (λ c, is_ascii_digit c = true) w →
    ¬ starts_with is_ascii_digit rest → token_of (b :: w) rest Integer
| to_word b w rest :
    is_identifier_start b = true → Forall (λ c, is_identifier_continue c = true) w →
    ¬ starts_with is_identifier_continue rest →
    token_of (b :: w) rest
      (if bool_decide (b :: w = string_bytes "function") then FunctionKw else Identifier)
| to_symbol b rest :
    is_ascii_whitespace b = false → b ≠ QUOTE → b ≠ BACKTICK → is_ascii_digit b = false →
    is_identifier_start b = false →
    ¬ (b = SLASH ∧ starts_with (λ c, (c =? SLASH) || (c =? STAR)) rest) →
    token_of [b] rest (punctuation b).

(** [lexed i l ts]: at index [i], the remaining source [l] has the tokens [ts]. *)
Inductive lexed : nat → list Z → list Token → Prop :=
| lx_end i : lexed i [] [mkToken Eof i i]
| lx_trivia i w rest ts :
    trivia w rest → lexed (i + length w) rest ts → lexed i (w ++ rest) ts
| lx_token i w rest k ts :
    token_of w rest k → lexed (i + length w) rest ts →
    lexed i (w ++ rest) (mkToken k i (i + length w) :: ts).

(** ** The loops meet the grammar *)

Lemma drop_cons_lookup (l : list Z) i b r : drop i l = b :: r → l !! i = Some b ∧ drop (i + 1) l = r.
Proof.
  intros E. split.
  - rewrite <- (Nat.add_0_r i), <- lookup_drop, E. done.
  - by rewrite <- drop_drop, E.
Qed.

Lemma cons_eq {A} (x y : A) l k : x :: l = y :: k → x = y ∧ l = k.
Proof. by intros [= -> ->]. Qed.

Lemma drop_nil_lookup (l : list Z) i : drop i l = [] → l !! i = None.
Proof. intros E. rewrite <- (Nat.add_0_r i), <- lookup_drop, E. done. Qed.

Lemma drop_nil_length (l : list Z) i : drop i l = [] → (length l ≤ i)%nat.
Proof. intros E. apply (f_equal length) in E. rewrite length_drop in E. cbn in E. lia. Qed.

Lemma drop_cons_length (l : list Z) i b r : drop i l = b :: r → length l = (i + S (length r))%nat.
Proof.
  intros E. apply (f_equal length) in E. rewrite length_drop in E. cbn [length] in E. lia.
Qed.

Lemma skip_while_spec p fuel bytes i :
  (length bytes - i < fuel)%nat →
  ∃ w, skip_while fuel p bytes i = Some (i + length w)%nat ∧
    drop i bytes = w ++ drop (i + length w) bytes ∧ Forall (λ c, p c = true) w ∧
    ¬ starts_with p (drop (i + length w) bytes).
Proof.
  revert i. induction fuel as [|fuel IH]; intros i Hf; [lia|].
  cbn [skip_while]. destruct (drop i bytes) as [|b r] eqn:E.
  - rewrite (drop_nil_lookup _ _ E). exists []. cbn [length]. rewrite Nat.add_0_r, E.
    split_and!; [done|done|constructor|auto].
  - destruct (drop_cons_lookup _ _ _ _ E) as [-> Er]. pose proof (drop_cons_length _ _ _ _ E).
    destruct (p b) eqn:Hp.
    + destruct (IH (i + 1)%nat) as (w & -> & Ew & Hw & Hn); [lia|]. exists (b :: w). cbn [length].
      replace (i + S (length w))%nat with (i + 1 + length w)%nat by lia.
      split_and!; [done|cbn; by rewrite <- Ew, Er|by constructor|done].
    + exists []. cbn [length]. rewrite Nat.add_0_r, E. cbn.
      split_and!; [done|done|constructor|congruence].
Qed.

(** ** Block comments *)

Lemma skip_block_spec fuel bytes i :
  (length bytes - i < fuel)%nat →
  ∃ j, skip_block fuel bytes i = Some j ∧
    if (length bytes <=? j + 1)%nat
    then ∀ body rest, drop i bytes ≠ body ++ STAR :: SLASH :: rest
    else ∃ body, drop i bytes = body ++ STAR :: SLASH :: drop (j + 2) bytes ∧
      block_body body ∧ j = (i + length body)%nat.
Proof.
  revert i. induction fuel as [|fuel IH]; intros i Hf; [lia|].
  cbn [skip_block]. destruct (drop i bytes) as [|a r] eqn:E.
  { rewrite (drop_nil_lookup _ _ E). exists i. split; [done|]. apply drop_nil_length in E.
    rewrite (proj2 (Nat.leb_le _ _)) by lia. by intros []. }
  destruct (drop_cons_lookup _ _ _ _ E) as [-> Er]. pose proof (drop_cons_length _ _ _ _ E) as El.
  destruct r as [|b r].
  { rewrite (drop_nil_lookup _ _ Er). exists i. split; [done|]. cbn in El.
    rewrite (proj2 (Nat.leb_le _ _)) by lia. intros [|? [|? ?]]; done. }
  destruct (drop_cons_lookup _ _ _ _ Er) as [-> Err].
  destruct ((a =? STAR) && (b =? SLASH)) eqn:Ec.
  - to_props. subst a b. exists i. split; [done|]. cbn [length] in El.
    rewrite (proj2 (Nat.leb_gt _ _)) by lia. exists [].
    replace (i + 1 + 1)%nat with (i + 2)%nat in Err by lia.
    rewrite Err. split_and!; [done|constructor|cbn; lia].
  - destruct (IH (i + 1)%nat) as (j & -> & Hj); [lia|]. exists j. split; [done|]. rewrite Er in Hj.
    destruct (_ <=? _)%nat.
    + intros [|c body] rest Heq; cbn [app] in Heq.
      * injection Heq as -> -> _. done.
      * injection Heq as -> Heq. by apply (Hj body rest).
    + destruct Hj as (body & Hb & Hbody & ->). exists (a :: body). cbn [length app].
      rewrite Hb. split_and!; [done| |lia]. constructor; [|done]. intros [-> Hs].
      assert (∃ l, body ++ [STAR; SLASH] = b :: l) as [l Hl].
      { destruct body as [|c body']; cbn in Hb |- *; injection Hb as -> _; eauto. }
      rewrite Hl in Hs. cbn [starts_with] in Hs. apply Z.eqb_eq in Hs as <-. done.
Qed.

(** ** Quoted regions *)

(** The text of a region opened by [q]. *)
Definition quoted_body (q : Z) (body : list Z) : Prop :=
  if q =? QUOTE then string_body body else Forall (λ c, c ≠ q) body.

Lemma skip_quoted_spec fuel q bytes i :
  (length bytes - i < fuel)%nat →
  ∃ closed j, skip_quoted fuel q bytes i = Some (closed, j) ∧
    if closed : bool
    then ∃ body, drop i bytes = body ++ q :: drop j bytes ∧ quoted_body q body ∧
      j = (i + length body + 1)%nat
    else ∀ body rest, quoted_body q body → drop i bytes ≠ body ++ q :: rest.
Proof.
  revert i. induction fuel as [|fuel IH]; intros i Hf; [lia|].
  cbn [skip_quoted]. destruct (drop i bytes) as [|b r] eqn:E.
  { rewrite (drop_nil_lookup _ _ E). do 2 eexists. split; [done|]. by intros [] ? ?. }
  destruct (drop_cons_lookup _ _ _ _ E) as [-> Er]. pose proof (drop_cons_length _ _ _ _ E) as El.
  destruct ((q =? QUOTE) && (b =? BACKSLASH)) eqn:Ec.
  - apply andb_true_iff in Ec as [Eq Eb%Z.eqb_eq]. subst b.
    destruct (IH (i + 2)%nat) as (closed & j & -> & Hj); [lia|]. exists closed, j. split; [done|].
    assert (drop (i + 2) bytes = drop 1 r) as Er2.
    { rewrite <- Er, drop_drop. f_equal. lia. }
    rewrite Er2 in Hj. unfold quoted_body in *. rewrite Eq in *. apply Z.eqb_eq in Eq. subst q.
    destruct closed.
    + destruct Hj as (body & Hb & Hbody & ->). destruct r as [|c r].
      { cbn in Hb. by destruct body. }
      cbn [drop] in Hb. exists (BACKSLASH :: c :: body). cbn [app length].
      assert (i + S (S (length body)) + 1 = i + 2 + length body + 1)%nat as -> by lia.
      split_and!; [by rewrite Hb at 1|by constructor|done].
    + intros body rest Hbody Heq. destruct Hbody as [|c body Hc1 Hc2 Hbody|c body Hbody]; cbn [app] in Heq;
        apply cons_eq in Heq as [Hc Heq]; [discriminate Hc|congruence|].
      apply (Hj body rest Hbody). by rewrite Heq.
  - destruct (b =? q) eqn:Eb.
    + apply Z.eqb_eq in Eb as ->. do 2 eexists. split; [done|]. exists [].
      rewrite Er. cbn. split_and!; [done| |lia]. unfold quoted_body.
      destruct (q =? QUOTE); constructor.
    + apply Z.eqb_neq in Eb. destruct (IH (i + 1)%nat) as (closed & j & -> & Hj); [lia|].
      exists closed, j. split; [done|]. rewrite Er in Hj. destruct closed.
      * destruct Hj as (body & -> & Hbody & ->). exists (b :: body). cbn [app length].
        assert (i + S (length body) + 1 = i + 1 + length body + 1)%nat as -> by lia.
        split_and!; [done| |done]. unfold quoted_body in *. destruct (q =? QUOTE) eqn:Eq.
        -- apply Z.eqb_eq in Eq. subst q. constructor; [done| |done]. by intros ->.
        -- by constructor.
      * intros body rest Hbody Heq. destruct body as [|c body]; cbn [app] in Heq;
          apply cons_eq in Heq as [-> Heq]; [done|].
        subst r. revert Hbody. unfold quoted_body in *. destruct (q =? QUOTE) eqn:Eq.
        -- inversion 1 as [|? ? Hc1 Hc2 Hb|? body2 Hb Hbs]; subst; [by apply (Hj body rest)|discriminate Ec].
        -- inversion_clear 1. by apply (Hj body rest).
Qed.

(** Why the lexer gives up: the rest of the source opens a region that nothing closes. *)
Inductive unterminated : list Z → string → Prop :=
| un_block l :
    (∀ body rest, l ≠ body ++ STAR :: SLASH :: rest) →
    unterminated (SLASH :: STAR :: l) "unterminated block comment"
| un_string l :
    (∀ body rest, string_body body → l ≠ body ++ QUOTE :: rest) →
    unterminated (QUOTE :: l) "unterminated string literal"
| un_test l :
    (∀ body rest, Forall (λ c, c ≠ BACKTICK) body → l ≠ body ++ BACKTICK :: rest) →
    unterminated (BACKTICK :: l) "unterminated test name (missing closing backtick)".

Inductive lex_fails : nat → list Z → LexerDiagnostic → Prop :=
| lf_here i l msg : unterminated l msg → lex_fails i l (mkLexerDiagnostic msg i)
| lf_trivia i w rest e :
    trivia w rest → lex_fails (i + length w) rest e → lex_fails i (w ++ rest) e
| lf_token i w rest k e :
    token_of w rest k → lex_fails (i + length w) rest e → lex_fails i (w ++ rest) e.

(** What one iteration of the loop does with the rest of the source. *)
Definition one_spec (bytes : list Z) (i : nat) (res : Result (list Token * nat) LexerDiagnostic) : Prop :=
  match res with
  | Ok (ts, j) =>
      ∃ w, drop i bytes = w ++ drop j bytes ∧ j = (i + length w)%nat ∧ w ≠ [] ∧
        ((ts = [] ∧ trivia w (drop j bytes)) ∨
         ∃ k, ts = [mkToken k i j] ∧ token_of w (drop j bytes) k)
  | Err e => unterminated (drop i bytes) (message e) ∧ offset e = i
  end.

Section one.
Context (bytes : list Z) (i : nat) (b : Z) (r : list Z).
Hypothesis Hb : drop i bytes = b :: r.

Let Hlen : length bytes = (i + S (length r))%nat.
Proof. exact (drop_cons_length _ _ _ _ Hb). Qed.

Let Hr : drop (i + 1) bytes = r.
Proof. exact (proj2 (drop_cons_lookup _ _ _ _ Hb)). Qed.

(** A run after the first byte. *)
Lemma one_run p :
  ∃ w, skip_while (S (length bytes)) p bytes (i + 1) = Some (i + length (b :: w))%nat ∧
    drop i bytes = (b :: w) ++ drop (i + length (b :: w)) bytes ∧
    Forall (λ c, p c = true) w ∧ ¬ starts_with p (drop (i + length (b :: w)) bytes) ∧
    take (i + length (b :: w) - i) (drop i bytes) = b :: w.
Proof.
  destruct (skip_while_spec p (S (length bytes)) bytes (i + 1)) as (w & -> & Ew & Hw & Hn); [lia|].
  exists w. cbn [length]. replace (i + S (length w))%nat with (i + 1 + length w)%nat by lia.
  assert (drop i bytes = (b :: w) ++ drop (i + 1 + length w) bytes) as E
    by (cbn [app]; by rewrite Hb, <- Ew, Hr).
  split_and!; [done|exact E|done|done|]. rewrite E.
  replace (i + 1 + length w - i)%nat with (length (b :: w)) by (cbn [length]; lia).
  by rewrite take_app_length.
Qed.

Lemma one_line :
  b = SLASH → bytes !! (i + 1)%nat = Some SLASH →
  ∃ j, skip_while (S (length bytes)) (λ c, negb (c =? NEWLINE)) bytes (i + 2) = Some j ∧
    one_spec bytes i (Ok ([], j)).
Proof.
  intros -> H2. set (p := λ c, negb (c =? NEWLINE)).
  assert (∃ r', r = SLASH :: r' ∧ drop (i + 2) bytes = r') as (r' & -> & Hr').
  { destruct r as [|c r']; [by rewrite (drop_nil_lookup _ _ Hr) in H2|].
    destruct (drop_cons_lookup _ _ _ _ Hr) as [E1 E2]. rewrite E1 in H2. injection H2 as ->.
    exists r'. split; [done|]. rewrite <- E2. f_equal. lia. }
  destruct (skip_while_spec p (S (length bytes)) bytes (i + 2)) as (w & -> & Ew & Hw & Hn);
    [cbn in Hlen; lia|].
  eexists. split; [done|]. exists (SLASH :: SLASH :: w). cbn [length].
  replace (i + S (S (length w)))%nat with (i + 2 + length w)%nat by lia.
  split_and!; [|done|done|].
  - cbn [app]. by rewrite Hb, <- Ew, Hr'.
  - left. split; [done|]. constructor; [|done].
    eapply Forall_impl; [exact Hw|]. unfold p. intros c Hc%negb_true_iff%Z.eqb_neq. done.
Qed.

Lemma one_block :
  b = SLASH → bytes !! (i + 1)%nat = Some STAR →
  ∃ j, skip_block (S (length bytes)) bytes (i + 2) = Some j ∧
    one_spec bytes i (if (length bytes <=? j + 1)%nat
      then Err (mkLexerDiagnostic "unterminated block comment" i) else Ok ([], (j + 2)%nat)).
Proof.
  intros -> H2.
  assert (∃ r', r = STAR :: r' ∧ drop (i + 2) bytes = r') as (r' & -> & Hr').
  { destruct r as [|c r']; [by rewrite (drop_nil_lookup _ _ Hr) in H2|].
    destruct (drop_cons_lookup _ _ _ _ Hr) as [E1 E2]. rewrite E1 in H2. injection H2 as ->.
    exists r'. split; [done|]. rewrite <- E2. f_equal. lia. }
  destruct (skip_block_spec (S (length bytes)) bytes (i + 2)) as (j & -> & Hj); [lia|].
  exists j. split; [done|]. rewrite Hr' in Hj. destruct (_ <=? _)%nat.
  - split; [|done]. rewrite Hb. by constructor.
  - destruct Hj as (body & Hbody & Hok & ->).
    exists ([SLASH; STAR] ++ body ++ [STAR; SLASH]). split_and!; [|rewrite !length_app; cbn; lia|done|].
    + rewrite Hb, Hbody, <- !app_assoc. done.
    + left. split; [done|]. by constructor.
Qed.

Lemma one_quoted :
  b = QUOTE ∨ b = BACKTICK →
  ∃ closed j, skip_quoted (S (length bytes)) b bytes (i + 1) = Some (closed, j) ∧
    one_spec bytes i
      (if negb closed then Err (mkLexerDiagnostic
         (if b =? BACKTICK then "unterminated test name (missing closing backtick)"
          else "unterminated string literal") i)
       else Ok ([mkToken (if b =? BACKTICK then BacktickLiteral else StringLiteral) i
                   (Nat.min j (length bytes))], j)).
Proof.
  intros Hq.
  destruct (skip_quoted_spec (S (length bytes)) b bytes (i + 1)) as (closed & j & -> & Hj); [lia|].
  exists closed, j. split; [done|]. rewrite Hr in Hj. destruct closed; cbn [negb].
  - destruct Hj as (body & Hbody & Hok & ->). exists (b :: body ++ [b]).
    pose proof (f_equal length Hbody) as Hl. rewrite length_app, length_cons, length_drop in Hl.
    assert (i + 1 + length body + 1 = i + length (b :: body ++ [b]))%nat as ->
      by (cbn [length]; rewrite length_app; cbn [length]; lia).
    split_and!; [|done|done|].
    + rewrite Hb, Hbody at 1. cbn [app]. rewrite <- app_assoc. cbn [app]. do 4 f_equal.
      cbn [length]. rewrite length_app. cbn [length]. lia.
    + right. eexists. split; [do 2 f_equal; cbn [length]; rewrite length_app; cbn [length]; lia|].
      destruct Hq as [-> | ->]; by constructor.
  - split; [|done]. rewrite Hb. destruct Hq as [-> | ->]; by constructor.
Qed.

Lemma lex_one_spec : ∃ res, lex_one bytes i b = Some res ∧ one_spec bytes i res.
Proof.
  unfold lex_one. destruct (is_ascii_whitespace b) eqn:Ew.
  { eexists. split; [done|]. exists [b]. rewrite Hb, Hr. cbn.
    split_and!; [done|lia|done|]. left. split; [done|by constructor]. }
  destruct ((b =? SLASH) && bool_decide (bytes !! (i + 1)%nat = Some SLASH)) eqn:E1.
  { to_props. destruct one_line as (j & -> & Hj); [done|done|]. by eexists. }
  destruct ((b =? SLASH) && bool_decide (bytes !! (i + 1)%nat = Some STAR)) eqn:E2.
  { to_props. destruct one_block as (j & -> & Hj); [done|done|]. cbn [mbind option_bind].
    revert Hj. destruct (_ <=? _)%nat; by eexists. }
  destruct ((b =? QUOTE) || (b =? BACKTICK)) eqn:E3.
  { apply orb_true_iff in E3. rewrite !Z.eqb_eq in E3.
    destruct (one_quoted E3) as (closed & j & -> & Hj). cbn [mbind option_bind].
    revert Hj. destruct closed; by eexists. }
  to_props. destruct (is_ascii_digit b) eqn:E4.
  { destruct (one_run is_ascii_digit) as (w & -> & E & Hw & Hn & _). eexists. split; [done|].
    exists (b :: w). split_and!; [done|done|done|]. right. eexists. split; [done|]. by constructor. }
  destruct (is_identifier_start b) eqn:E5.
  { destruct (one_run is_identifier_continue) as (w & -> & E & Hw & Hn & Ht).
    cbn [mbind option_bind]. rewrite Ht. eexists. split; [done|].
    exists (b :: w). split_and!; [done|done|done|]. right. eexists. split; [done|]. by constructor. }
  eexists. split; [done|]. exists [b]. rewrite Hb, Hr. split_and!; [done|cbn; lia|done|].
  right. eexists. split; [done|]. constructor; try done.
  intros [-> Hs]. rewrite <- Hr in Hs. destruct (drop (i + 1) bytes) as [|c r'] eqn:Ed; [done|].
  destruct (drop_cons_lookup _ _ _ _ Ed) as [Hc _]. cbn [starts_with] in Hs.
  rewrite Hc in E1, E2. rewrite Z.eqb_refl in E1, E2. cbn [andb] in E1, E2. to_props.
  apply orb_true_iff in Hs. rewrite !Z.eqb_eq in Hs. destruct Hs; congruence.
Qed.
End one.

Definition loop_spec (i : nat) (l : list Z) (tokens : list Token)
    (res : Result (list Token) LexerDiagnostic) : Prop :=
  match res with
  | Ok ts => ∃ ts', ts = tokens ++ ts' ∧ lexed i l ts'
  | Err e => lex_fails i l e
  end.

Lemma lex_loop_spec fuel bytes i tokens :
  (length bytes - i < fuel)%nat → (i ≤ length bytes)%nat →
  ∃ res, lex_loop fuel bytes i tokens = Some res ∧ loop_spec i (drop i bytes) tokens res.
Proof.
  revert i tokens. induction fuel as [|fuel IH]; intros i tokens Hf Hi; [lia|]. cbn [lex_loop].
  destruct (drop i bytes) as [|b r] eqn:E.
  { rewrite (drop_nil_lookup _ _ E). eexists. split; [done|]. eexists. split; [done|].
    apply drop_nil_length in E. assert (length bytes = i) as -> by lia. constructor. }
  destruct (drop_cons_lookup _ _ _ _ E) as [-> _]. pose proof (drop_cons_length _ _ _ _ E) as El.
  cbn [mbind option_bind]. destruct (lex_one_spec bytes i b r E) as ([[ts j]|e] & -> & Hone);
    cbn [mbind option_bind one_spec] in *.
  - destruct Hone as (w & Ew & -> & Hw & Hcase). rewrite <- E, Ew.
    assert (length w ≠ 0)%nat by (by destruct w).
    pose proof (f_equal length Ew) as Hlw. rewrite length_app, !length_drop in Hlw.
    destruct (IH (i + length w)%nat (tokens ++ ts)) as (res & -> & Hres); [lia|lia|].
    exists res. split; [done|]. destruct Hcase as [[-> Htr]|(k & -> & Htok)], res as [ts2|e]; cbn in *.
    + destruct Hres as (ts' & -> & Hl). exists ts'. rewrite app_nil_r. split; [done|].
      by apply lx_trivia.
    + by apply lf_trivia.
    + destruct Hres as (ts' & -> & Hl). eexists. rewrite <- app_assoc. split; [done|].
      by apply lx_token.
    + by eapply lf_token.
  - exists (Err e). split; [done|]. destruct Hone as [Hu <-]. rewrite <- E. destruct e.
    by apply lf_here.
Qed.

(** ** Consequences of the grammar *)

Lemma token_of_nonempty w rest k : token_of w rest k → w ≠ [] ∧ k ≠ Eof.
Proof.
  destruct 1; (split; [done|]); try done.
  - by case_bool_decide.
  - unfold punctuation. by repeat case_match.
Qed.

Lemma trivia_nonempty w rest : trivia w rest → w ≠ [].
Proof. by destruct 1. Qed.

(** Tokens follow each other and fill at least a byte. *)
Lemma lexed_layout i l ts :
  lexed i l ts →
  ∃ ts', ts = ts' ++ [mkToken Eof (i + length l) (i + length l)] ∧
    Forall (λ t, kind t ≠ Eof ∧ (i ≤ start t < end_ t)%nat ∧ (end_ t ≤ i + length l)%nat) ts' ∧
    StronglySorted (λ t u, (end_ t ≤ start u)%nat) ts.
Proof.
  induction 1 as [i|i w rest ts Ht _ IH|i w rest k ts Ht _ IH].
  - exists []. cbn. rewrite Nat.add_0_r. split_and!; [done|constructor|by repeat constructor].
  - destruct IH as (ts' & -> & Hf & Hs). exists ts'. rewrite length_app, Nat.add_assoc.
    split_and!; [done| |done]. eapply Forall_impl; [exact Hf|].
    intros t (Hk & ? & ?). split; [done|lia].
  - destruct IH as (ts' & -> & Hf & Hs). exists (mkToken k i (i + length w) :: ts').
    destruct (token_of_nonempty _ _ _ Ht) as [Hw Hk]. assert (length w ≠ 0)%nat by (by destruct w).
    rewrite length_app, Nat.add_assoc. split_and!; [done| |].
    + constructor; [cbn; split; [done|lia]|]. eapply Forall_impl; [exact Hf|].
      intros t (Hk' & ? & ?). split; [done|lia].
    + constructor; [done|]. apply Forall_app.
      split; [|cbn; constructor; [cbn; lia|constructor]].
      eapply Forall_impl; [exact Hf|]. intros t (_ & ? & _). cbn. lia.
Qed.

(** ** Character boundaries *)

Definition is_continuation (b : Z) : bool := (128 <=? b) && (b <=? 191).

(** [str::is_char_boundary], which slicing a [&str] asserts. *)
Definition is_char_boundary (bytes : list Z) (i : nat) : bool :=
  match bytes !! i with
  | Some b => negb (is_continuation b)
  | None => (i =? length bytes)%nat
  end.

(** What the lexer needs of UTF-8: a continuation byte follows a non-ASCII byte. *)
Definition utf8_like (bytes : list Z) : Prop :=
  ∀ i c, bytes !! i = Some c → is_continuation c = true →
  ∃ j b, i = S j ∧ bytes !! j = Some b ∧ 128 ≤ b.

Lemma identifier_continue_ascii c : is_identifier_continue c = true → c < 128.
Proof.
  unfold is_identifier_continue, is_identifier_start, is_ascii_alphabetic, is_ascii_digit.
  rewrite !orb_true_iff, !andb_true_iff, !Z.leb_le, !Z.eqb_eq. lia.
Qed.

Lemma ascii_digit_continue c : is_ascii_digit c = true → is_identifier_continue c = true.
Proof. unfold is_identifier_continue. intros ->. apply orb_true_r. Qed.

Lemma Forall_last_ascii b w :
  b < 128 → Forall (λ c, c < 128) w → ∃ c, last (b :: w) = Some c ∧ c < 128.
Proof.
  intros Hb Hw. destruct (last (b :: w)) as [c|] eqn:E; [|by apply last_None in E].
  exists c. split; [done|]. apply last_Some in E as [l' E].
  assert (c ∈ b :: w) as Hin by (rewrite E; apply elem_of_app; right; apply list_elem_of_here).
  apply elem_of_cons in Hin as [->|Hin]; [done|]. rewrite Forall_forall in Hw. by apply Hw.
Qed.

(** Except for punctuation, a token starts and ends with an ASCII byte. *)
Lemma token_of_ascii w rest k :
  token_of w rest k → k ≠ Other →
  (∃ b, head w = Some b ∧ b < 128) ∧ ∃ c, last w = Some c ∧ c < 128.
Proof.
  destruct 1 as [body rest _|body rest _|b w rest Hb Hw _|b w rest Hb Hw _|b rest _ _ _ _ _ _]; intros Hk.
  - split; [by eexists|]. exists QUOTE. by rewrite app_comm_cons, last_snoc.
  - split; [by eexists|]. exists BACKTICK. by rewrite app_comm_cons, last_snoc.
  - assert (b < 128) by (by apply identifier_continue_ascii, ascii_digit_continue).
    split; [by exists b|]. apply Forall_last_ascii; [done|].
    eapply Forall_impl; [exact Hw|]. intros c Hc. by apply identifier_continue_ascii, ascii_digit_continue.
  - assert (b < 128).
    { apply identifier_continue_ascii. unfold is_identifier_continue. by rewrite Hb. }
    split; [by exists b|]. apply Forall_last_ascii; [done|].
    eapply Forall_impl; [exact Hw|]. intros c Hc. by apply identifier_continue_ascii.
  - assert (b < 128).
    { revert Hk. unfold punctuation. repeat (destruct (_ =? _) eqn:?; to_props; [lia|]). done. }
    split; by exists b.
Qed.

Lemma lexed_boundaries bytes i l ts :
  utf8_like bytes → lexed i l ts → drop i bytes = l → (i ≤ length bytes)%nat →
  Forall (λ t, kind t ≠ Other →
    is_char_boundary bytes (start t) = true ∧ is_char_boundary bytes (end_ t) = true) ts.
Proof.
  intros Hu H. induction H as [i|i w rest ts Ht _ IH|i w rest k ts Ht _ IH]; intros Hd Hi.
  - apply drop_nil_length in Hd as Hl. constructor; [|constructor]. intros _.
    unfold is_char_boundary. cbn [start end_]. rewrite (lookup_ge_None_2 bytes i) by lia.
    by rewrite (proj2 (Nat.eqb_eq _ _)) by lia.
  - pose proof (f_equal length Hd) as Hl. rewrite length_app, length_drop in Hl.
    apply IH; [|lia]. by rewrite <- drop_drop, Hd, drop_app_length.
  - pose proof (f_equal length Hd) as Hl. rewrite length_app, length_drop in Hl.
    assert (drop (i + length w) bytes = rest) as Hd' by (by rewrite <- drop_drop, Hd, drop_app_length).
    constructor; [|apply IH; [done|lia]]. intros Hk. cbn [kind start end_] in *.
    destruct (token_of_ascii _ _ _ Ht Hk) as [(b & Hb & Hb1) (c & Hc & Hc1)].
    assert (∀ j, (j < length w)%nat → bytes !! (i + j)%nat = w !! j) as Hlook.
    { intros j Hj. by rewrite <- lookup_drop, Hd, lookup_app_l. }
    destruct (token_of_nonempty _ _ _ Ht) as [Hw _]. assert (length w ≠ 0)%nat by (by destruct w).
    unfold is_char_boundary. split.
    + rewrite head_lookup in Hb. rewrite <- (Nat.add_0_r i), (Hlook 0%nat), Hb by lia.
      unfold is_continuation. by rewrite (proj2 (Z.leb_gt _ _)).
    + destruct (bytes !! (i + length w)%nat) as [e|] eqn:Ee.
      * apply negb_true_iff. destruct (is_continuation e) eqn:Ec; [|done].
        destruct (Hu _ _ Ee Ec) as (j & d & Hj & Hlj & Hd128).
        rewrite last_lookup in Hc.
        assert (j = i + pred (length w))%nat as -> by lia.
        rewrite (Hlook (pred (length w))), Hc in Hlj by lia. injection Hlj as ->. lia.
      * apply lookup_ge_None_1 in Ee. apply Nat.eqb_eq. lia.
Qed.

(** ** Results *)

Lemma lex_spec bytes :
  ∃ res, lex_with_diagnostic bytes = Some res ∧
    match res with
    | Ok ts => lexed 0 bytes ts
    | Err e => lex_fails 0 bytes e
    end.
Proof.
  destruct (lex_loop_spec (S (length bytes)) bytes 0 []) as (res & E & H); [lia|lia|].
  exists res. split; [done|]. rewrite drop_0 in H. destruct res; cbn in H; [|done].
  by destruct H as (ts & -> & H).
Qed.

(** C30 The lexer implements the lexical grammar and always terminates: on every
    byte string no loop runs out of fuel, an accepted source decomposes into
    the white space, comments and maximal tokens of [lexed], and a refused one
    opens, at the reported offset and after a lexed prefix, a block comment,
    string or test name that nothing closes. *)
Theorem lex_correct bytes :
  ∃ res, lex_with_diagnostic bytes = Some res ∧
    match res with
    | Ok ts => lexed 0 bytes ts
    | Err e => lex_fails 0 bytes e
    end.
Proof. apply lex_spec. Qed.

Lemma lex_Ok_lexed bytes ts : lex_with_diagnostic bytes = Some (Ok ts) → lexed 0 bytes ts.
Proof. intros E. destruct (lex_spec bytes) as (res & E' & H). rewrite E in E'. by injection E' as <-. Qed.

(** The layout of a token list: it ends with one [Eof] at the end of the
    source, and before it every token is non-empty, inside the source and starts
    at or after the end of the one before. *)
Theorem token_layout bytes ts :
  lex_with_diagnostic bytes = Some (Ok ts) →
  ∃ ts', ts = ts' ++ [mkToken Eof (length bytes) (length bytes)] ∧
    Forall (λ t, kind t ≠ Eof ∧ (start t < end_ t ≤ length bytes)%nat) ts' ∧
    StronglySorted (λ t u, (end_ t ≤ start u)%nat) ts.
Proof.
  intros E%lex_Ok_lexed. destruct (lexed_layout _ _ _ E) as (ts' & -> & Hf & Hs).
  exists ts'. split_and!; [done| |done]. eapply Forall_impl; [exact Hf|].
  intros t (Hk & ? & ?). split; [done|lia].
Qed.

Definition sample_source : list Z := string_bytes "function f(): i32 { return 12; } /* x */ `t`".

Lemma token_layout_witness :
  ∃ ts ts', lex_with_diagnostic sample_source = Some (Ok ts) ∧
    ts = ts' ++ [mkToken Eof (length sample_source) (length sample_source)] ∧
    Forall (λ t, kind t ≠ Eof ∧ (start t < end_ t ≤ length sample_source)%nat) ts' ∧
    StronglySorted (λ t u, (end_ t ≤ start u)%nat) ts.
Proof.
  destruct (lex_with_diagnostic sample_source) as [[ts|]|] eqn:E; [|vm_compute in E; discriminate E..].
  exists ts. destruct (token_layout sample_source ts E) as (ts' & H). by exists ts'.
Defined.

(** In UTF-8 source every token but [Other] starts and ends on a character
    boundary, so slicing the source by its range cannot panic. *)
Theorem token_char_boundaries bytes ts t :
  utf8_like bytes → lex_with_diagnostic bytes = Some (Ok ts) → t ∈ ts → kind t ≠ Other →
  is_char_boundary bytes (start t) = true ∧ is_char_boundary bytes (end_ t) = true.
Proof.
  intros Hu E%lex_Ok_lexed Ht. pose proof (lexed_boundaries bytes 0 bytes ts Hu E) as H.
  rewrite drop_0 in H. specialize (H eq_refl ltac:(lia)). rewrite Forall_forall in H. by apply H.
Qed.

(** The source [let é], whose last character is the bytes 195 and 169. *)
Definition accented_source : list Z := string_bytes "let " ++ [195; 169].

Lemma token_char_boundaries_witness :
  is_char_boundary accented_source 0 = true ∧ is_char_boundary accented_source 3 = true.
Proof.
  apply (token_char_boundaries accented_source
    [mkToken Identifier 0 3; mkToken Other 4 5; mkToken Other 5 6; mkToken Eof 6 6]
    (mkToken Identifier 0 3)).
  - intros i c Hi Hc. do 6 (destruct i as [|i]; [vm_compute in Hi; injection Hi as <-; try (vm_compute in Hc; discriminate Hc)|]); [|by destruct i].
    exists 4%nat, 195. split_and!; [done|by vm_compute|by vm_compute].
  - by vm_compute.
  - apply list_elem_of_here.
  - discriminate.
Defined.

(** An [Other] token need not be a character: the lexer accepts the source
    [let é] and splits its last character into two one-byte tokens, of which
    neither range is a [&str] slice. *)
Theorem other_token_splits_character :
  ∃ ts t u, lex_with_diagnostic accented_source = Some (Ok ts) ∧ utf8_like accented_source ∧
    t ∈ ts ∧ u ∈ ts ∧ kind t = Other ∧ kind u = Other ∧
    is_char_boundary accented_source (end_ t) = false ∧
    is_char_boundary accented_source (start u) = false.
Proof.
  exists [mkToken Identifier 0 3; mkToken Other 4 5; mkToken Other 5 6; mkToken Eof 6 6],
    (mkToken Other 4 5), (mkToken Other 5 6).
  split; [by vm_compute|]. split.
  { intros i c Hi Hc. do 6 (destruct i as [|i];
      [vm_compute in Hi; injection Hi as <-; try (vm_compute in Hc; discriminate Hc)|]); [|by destruct i].
    exists 4%nat, 195. split_and!; [done|by vm_compute|by vm_compute]. }
  split_and!; try done; apply (bool_decide_unpack _); by vm_compute.
Qed.
