(* ===== verification/WasmBinary.v ===== *)
(** * The binary encoding of WebAssembly modules

    Models [crates/stasis_compiler/src/backend/wasm/binary.rs]: the LEB128
    writers, strings, sections and the name section.  A writer takes the buffer
    and returns it extended; the encoding loops take fuel, and [None] is out of
    fuel.  The readers follow the WebAssembly binary format and are the
    specification of the writers. *)

From S2P Require Import Prelude.
#[local] Open Scope Z_scope.

Definition I32 : Z := 127.
Definition F32 : Z := 125.
Definition F64 : Z := 124.

(** ** The writers *)

Fixpoint uleb_loop (fuel : nat) (value : Z) (out : list Z) : option (list Z) :=
  match fuel with
  | O => None
  | S fuel' =>
      let byte := Z.land value 127 in
      let value := Z.shiftr value 7 in
      let byte := if negb (value =? 0) then Z.lor byte 128 else byte in
      let out := out ++ [byte] in
      if value =? 0 then Some out else uleb_loop fuel' value out
  end.

Fixpoint sleb_loop (fuel : nat) (value : Z) (out : list Z) : option (list Z) :=
  match fuel with
  | O => None
  | S fuel' =>
      let byte := Z.land value 127 in
      let value := Z.shiftr value 7 in
      let done := ((value =? 0) && (Z.land byte 64 =? 0)) ||
                  ((value =? -1) && negb (Z.land byte 64 =? 0)) in
      let out := out ++ [if done then byte else Z.lor byte 128] in
      if done then Some out else sleb_loop fuel' value out
  end.

(** [value: u32], [value: i32] and [value: i64]. *)
Definition uleb (value : Z) (out : list Z) : option (list Z) := uleb_loop 5 value out.
Definition sleb (value : Z) (out : list Z) : option (list Z) := sleb_loop 5 value out.
Definition sleb64 (value : Z) (out : list Z) : option (list Z) := sleb_loop 10 value out.

(** [len() as u32] *)
Definition len32 {A} (l : list A) : Z := wrap 32 (Z.of_nat (length l)).

Definition string_ (value out : list Z) : option (list Z) :=
  out ← uleb (len32 value) out; Some (out ++ value).

Definition section (id : Z) (payload module : list Z) : option (list Z) :=
  if bool_decide (payload = []) then Some module
  else
    module ← uleb (len32 payload) (module ++ [id]);
    Some (module ++ payload).

Fixpoint name_entries (function_names : list (Z * list Z)) (out : list Z) : option (list Z) :=
  match function_names with
  | [] => Some out
  | (index, name) :: rest =>
      out ← uleb index out;
      out ← string_ name out;
      name_entries rest out
  end.

Definition NAME : list Z := [110; 97; 109; 101].

Definition append_name_section (function_names : list (Z * list Z)) (module : list Z)
    : option (list Z) :=
  sub ← uleb (len32 function_names) [];
  sub ← name_entries function_names sub;
  payload ← string_ NAME [];
  payload ← uleb (len32 sub) (payload ++ [1]);
  section 0 (payload ++ sub) module.

(** ** The readers *)

Fixpoint read_uleb (bs : list Z) : option (Z * list Z) :=
  match bs with
  | [] => None
  | b :: rest =>
      if b <? 128 then Some (b, rest)
      else '(hi, rest) ← read_uleb rest; Some (b - 128 + 128 * hi, rest)
  end.

Fixpoint read_sleb (bs : list Z) : option (Z * list Z) :=
  match bs with
  | [] => None
  | b :: rest =>
      if b <? 128 then Some (if b <? 64 then b else b - 128, rest)
      else '(hi, rest) ← read_sleb rest; Some (b - 128 + 128 * hi, rest)
  end.

Definition read_bytes (n : Z) (bs : list Z) : option (list Z * list Z) :=
  if bool_decide (Z.to_nat n ≤ length bs)%nat
  then Some (take (Z.to_nat n) bs, drop (Z.to_nat n) bs) else None.

Definition read_string (bs : list Z) : option (list Z * list Z) :=
  '(n, bs) ← read_uleb bs; read_bytes n bs.

Definition read_section (bs : list Z) : option (Z * list Z * list Z) :=
  match bs with
  | [] => None
  | id :: bs => '(n, bs) ← read_uleb bs; '(payload, bs) ← read_bytes n bs; Some (id, payload, bs)
  end.

Fixpoint read_entries (n : nat) (bs : list Z) : option (list (Z * list Z) * list Z) :=
  match n with
  | O => Some ([], bs)
  | S n' =>
      '(index, bs) ← read_uleb bs;
      '(name, bs) ← read_string bs;
      '(l, bs) ← read_entries n' bs;
      Some ((index, name) :: l, bs)
  end.

(** A name section with one function-name subsection: its names and what follows. *)
Definition read_name_section (bs : list Z) : option (list (Z * list Z) * list Z) :=
  '(id, payload, rest) ← read_section bs;
  '(name, payload) ← read_string payload;
  match payload with
  | sub_id :: payload =>
      '(n, sub) ← read_uleb payload;
      '(count, entries) ← read_uleb sub;
      '(names, tail) ← read_entries (Z.to_nat count) entries;
      if bool_decide (id = 0 ∧ name = NAME ∧ sub_id = 1 ∧ n = Z.of_nat (length sub) ∧ tail = [])
      then Some (names, rest) else None
  | [] => None
  end.

(** ** Seven bits at a time *)

Lemma land_127 v : Z.land v 127 = v `mod` 128.
Proof. exact (Z.land_ones v 7 ltac:(lia)). Qed.

Lemma shiftr_7 v : Z.shiftr v 7 = v `div` 128.
Proof. exact (Z.shiftr_div_pow2 v 7 ltac:(lia)). Qed.

Lemma lor_128 b : 0 ≤ b < 128 → Z.lor b 128 = b + 128.
Proof.
  intros Hb. rewrite Z.lor_comm. change 128 with (Z.shiftl 1 7) at 1.
  rewrite (lor_shiftl_low 1 b 7) by lia. lia.
Qed.

Lemma land_64 b : 0 ≤ b < 128 → (Z.land b 64 =? 0) = (b <? 64).
Proof.
  intros Hb. assert (forallb (λ n, Bool.eqb (Z.land (Z.of_nat n) 64 =? 0) (Z.of_nat n <? 64))
    (seq 0 128) = true) as E by by vm_compute.
  rewrite forallb_forall in E. specialize (E (Z.to_nat b)).
  rewrite Z2Nat.id in E by lia. apply Bool.eqb_prop, E. apply in_seq. lia.
Qed.

Lemma div_mod_128 v : v = 128 * (v `div` 128) + v `mod` 128 ∧ 0 ≤ v `mod` 128 < 128.
Proof. pose proof (Z.div_mod v 128). pose proof (Z.mod_pos_bound v 128). lia. Qed.

(** ** Unsigned integers *)

(** [enc] is what a writer appends for [v], and [read] takes exactly it back. *)
Definition codes {A} (write : list Z → option (list Z)) (read : list Z → option (A * list Z))
    (v : A) (enc : list Z) : Prop :=
  (∀ out, write out = Some (out ++ enc)) ∧ (∀ rest, read (enc ++ rest) = Some (v, rest)).

Lemma uleb_loop_spec fuel v :
  0 ≤ v < 128 ^ Z.of_nat fuel → fuel ≠ 0%nat →
  ∃ enc, codes (uleb_loop fuel v) read_uleb v enc ∧
    bytes_ok enc ∧ (1 ≤ length enc ≤ fuel)%nat ∧ (last enc = Some 0 → enc = [0]).
Proof.
  revert v. induction fuel as [|fuel IH]; intros v Hv Hf; [done|].
  destruct (div_mod_128 v) as [Ev Hm].
  rewrite Nat2Z.inj_succ, Z.pow_succ_r in Hv by lia.
  destruct (decide (v `div` 128 = 0)) as [E|E].
  - exists [v `mod` 128]. unfold codes. split_and!.
    + intros out. cbn [uleb_loop]. by rewrite land_127, shiftr_7, E.
    + intros rest. cbn. rewrite (proj2 (Z.ltb_lt _ 128)) by lia. do 2 f_equal. lia.
    + repeat constructor; unfold in_u; lia.
    + cbn. lia.
    + cbn. lia.
    + by intros [= ->].
  - destruct fuel as [|fuel]; [cbn in Hv; lia|].
    destruct (IH (v `div` 128)) as (enc & [Hw Hr] & Hb & Hl & Hlast); [lia|done|].
    exists (v `mod` 128 + 128 :: enc). unfold codes. split_and!.
    + intros out. remember (S fuel) as f. cbn [uleb_loop]. rewrite land_127, shiftr_7.
      rewrite (proj2 (Z.eqb_neq _ _)) by done. cbn [negb].
      by rewrite lor_128, Hw, <- app_assoc by lia.
    + intros rest. cbn [app read_uleb]. rewrite (proj2 (Z.ltb_ge _ 128)), Hr by lia.
      cbn [mbind option_bind]. do 2 f_equal. lia.
    + constructor; [unfold in_u; lia|done].
    + cbn. lia.
    + cbn. lia.
    + destruct enc as [|b enc]; [cbn in Hl; lia|]. intros H. exfalso.
      rewrite last_cons_cons in H. specialize (Hlast H). injection Hlast as -> ->.
      specialize (Hr []). cbn in Hr. injection Hr as Hr. lia.
Qed.

Lemma pow128_5 : 2 ^ 32 ≤ 128 ^ Z.of_nat 5.
Proof. by vm_compute. Qed.

Lemma uleb_ok v :
  in_u 32 v →
  ∃ enc, codes (uleb v) read_uleb v enc ∧ bytes_ok enc ∧ (1 ≤ length enc ≤ 5)%nat ∧
    (last enc = Some 0 → enc = [0]).
Proof.
  intros Hv. apply uleb_loop_spec; [|done]. pose proof pow128_5. unfold in_u in Hv. lia.
Qed.

(** ** Signed integers *)

Lemma sleb_loop_eq fuel v out :
  sleb_loop (S fuel) v out =
  if ((v `div` 128 =? 0) && (v `mod` 128 <? 64)) || ((v `div` 128 =? -1) && negb (v `mod` 128 <? 64))
  then Some (out ++ [v `mod` 128])
  else sleb_loop fuel (v `div` 128) (out ++ [v `mod` 128 + 128]).
Proof.
  cbn [sleb_loop]. rewrite land_127, shiftr_7. destruct (div_mod_128 v) as [_ Hm].
  rewrite land_64, lor_128 by lia. by destruct (_ || _).
Qed.

Lemma sleb_last fuel v out :
  (v `div` 128 = 0 ∧ v `mod` 128 < 64) ∨ (v `div` 128 = -1 ∧ 64 ≤ v `mod` 128) →
  sleb_loop (S fuel) v out = Some (out ++ [v `mod` 128]).
Proof.
  intros H. rewrite sleb_loop_eq.
  assert (((v `div` 128 =? 0) && (v `mod` 128 <? 64)) ||
          ((v `div` 128 =? -1) && negb (v `mod` 128 <? 64)) = true) as ->; [|done].
  apply orb_true_iff. rewrite !andb_true_iff, negb_true_iff, !Z.eqb_eq, Z.ltb_lt, Z.ltb_ge. tauto.
Qed.

Lemma sleb_loop_spec fuel v :
  - (64 * 128 ^ Z.of_nat fuel) ≤ v < 64 * 128 ^ Z.of_nat fuel →
  ∃ enc, codes (sleb_loop (S fuel) v) read_sleb v enc ∧ bytes_ok enc ∧
    (1 ≤ length enc ≤ S fuel)%nat.
Proof.
  revert v. induction fuel as [|fuel IH]; intros v Hv; destruct (div_mod_128 v) as [Ev Hm];
    destruct (((v `div` 128 =? 0) && (v `mod` 128 <? 64)) ||
              ((v `div` 128 =? -1) && negb (v `mod` 128 <? 64))) eqn:E.
  1,3: apply orb_true_iff in E; rewrite !andb_true_iff, negb_true_iff, !Z.eqb_eq, Z.ltb_lt, Z.ltb_ge in E;
    exists [v `mod` 128]; unfold codes; split_and!;
    [intros out; apply sleb_last; lia|intros rest; cbn; rewrite (proj2 (Z.ltb_lt _ 128)) by lia;
     do 2 f_equal; destruct (_ <? 64) eqn:E'; to_props; lia
    |repeat constructor; unfold in_u; lia|cbn; lia|cbn; lia].
  - exfalso. cbn in Hv. revert E. rewrite orb_false_iff, !andb_false_iff.
    rewrite negb_false_iff, !Z.eqb_neq, Z.ltb_ge, Z.ltb_lt. lia.
  - rewrite Nat2Z.inj_succ, Z.pow_succ_r in Hv by lia.
    destruct (IH (v `div` 128)) as (enc & [Hw Hr] & Hb & Hl); [lia|].
    exists (v `mod` 128 + 128 :: enc). unfold codes. split_and!.
    + intros out. rewrite sleb_loop_eq, E, Hw, <- app_assoc. done.
    + intros rest. cbn [app read_sleb]. rewrite (proj2 (Z.ltb_ge _ 128)), Hr by lia.
      cbn [mbind option_bind]. do 2 f_equal. lia.
    + constructor; [unfold in_u; lia|done].
    + cbn. lia.
    + cbn. lia.
Qed.

Lemma pow128_sleb32 : 2 ^ 31 ≤ 64 * 128 ^ Z.of_nat 4.
Proof. by vm_compute. Qed.
Lemma pow128_sleb64 : 2 ^ 63 ≤ 64 * 128 ^ Z.of_nat 9.
Proof. by vm_compute. Qed.

(** ** Strings and sections *)

(** A length that [as u32] keeps. *)
Definition fits32 {A} (l : list A) : Prop := Z.of_nat (length l) < 2 ^ 32.

Lemma len32_fits {A} (l : list A) : fits32 l → len32 l = Z.of_nat (length l) ∧ in_u 32 (len32 l).
Proof.
  unfold fits32, len32. intros H. rewrite wrap_small by (unfold in_u; lia).
  unfold in_u. lia.
Qed.

Lemma read_bytes_app l rest : read_bytes (Z.of_nat (length l)) (l ++ rest) = Some (l, rest).
Proof.
  unfold read_bytes. rewrite Nat2Z.id, bool_decide_eq_true_2 by (rewrite length_app; lia).
  by rewrite take_app_length, drop_app_length.
Qed.

Lemma string_ok value :
  fits32 value →
  ∃ enc, codes (string_ value) read_string value enc ∧ (length enc ≤ 5 + length value)%nat.
Proof.
  intros Hf. destruct (len32_fits value Hf) as [El Hu].
  destruct (uleb_ok (len32 value) Hu) as (enc & [Hw Hr] & _ & Hl & _).
  exists (enc ++ value). split; [split|rewrite length_app; lia].
  - intros out. unfold string_. rewrite Hw. cbn [mbind option_bind]. by rewrite app_assoc.
  - intros rest. unfold read_string. rewrite <- app_assoc, Hr. cbn [mbind option_bind].
    by rewrite El, read_bytes_app.
Qed.

Lemma section_ok id payload :
  fits32 payload → payload ≠ [] →
  ∃ enc, codes (section id payload) read_section (id, payload) enc.
Proof.
  intros Hf Hn. destruct (len32_fits payload Hf) as [El Hu].
  destruct (uleb_ok (len32 payload) Hu) as (enc & [Hw Hr] & _).
  exists ([id] ++ enc ++ payload). split.
  - intros out. unfold section. rewrite bool_decide_eq_false_2, Hw by done.
    cbn [mbind option_bind]. by rewrite <- !app_assoc.
  - intros rest. rewrite <- !app_assoc. cbn [app read_section]. rewrite Hr.
    cbn [mbind option_bind]. by rewrite El, read_bytes_app.
Qed.

(** ** The name section *)

Definition names_ok (l : list (Z * list Z)) : Prop :=
  Forall (λ e, in_u 32 e.1 ∧ fits32 e.2) l.

(** An upper bound of the encoded size. *)
Definition names_size (l : list (Z * list Z)) : nat := sum_list_with (λ e, 10 + length e.2)%nat l.

Lemma name_entries_ok l :
  names_ok l →
  ∃ enc, codes (name_entries l) (read_entries (length l)) l enc ∧
    (length enc ≤ names_size l)%nat.
Proof.
  induction 1 as [|[index name] l [Hi Hn] _ (enc3 & [Hw3 Hr3] & L3)].
  { exists []. split; [split|done]; [intros out; by rewrite app_nil_r|done]. }
  cbn [fst snd] in *.
  destruct (uleb_ok index Hi) as (enc1 & [Hw1 Hr1] & _ & L1 & _).
  destruct (string_ok name Hn) as (enc2 & [Hw2 Hr2] & L2).
  exists (enc1 ++ enc2 ++ enc3). split; [split|].
  - intros out. cbn [name_entries]. rewrite Hw1. cbn [mbind option_bind].
    rewrite Hw2. cbn [mbind option_bind]. by rewrite Hw3, <- !app_assoc.
  - intros rest. cbn [length read_entries]. rewrite <- !app_assoc, Hr1. cbn [mbind option_bind].
    rewrite Hr2. cbn [mbind option_bind]. by rewrite Hr3.
  - rewrite !length_app. unfold names_size in *. cbn [sum_list_with snd]. lia.
Qed.

Lemma fits32_NAME : fits32 NAME.
Proof. by vm_compute. Qed.

Lemma name_section_ok l :
  names_ok l → Z.of_nat (30 + names_size l) < 2 ^ 32 →
  ∃ enc, codes (append_name_section l) read_name_section l enc.
Proof.
  intros Hl Hsize.
  assert (length l ≤ names_size l)%nat as Hlen.
  { clear. unfold names_size. induction l as [|e l IH]; [done|]. cbn [length sum_list_with]. lia. }
  assert (fits32 l) as Hfl by (unfold fits32; lia).
  destruct (len32_fits l Hfl) as [Ec Hc].
  destruct (uleb_ok (len32 l) Hc) as (enc1 & [Hw1 Hr1] & _ & L1 & _).
  destruct (name_entries_ok l Hl) as (enc2 & [Hw2 Hr2] & L2).
  destruct (string_ok NAME fits32_NAME) as (enc3 & [Hw3 Hr3] & L3).
  set (sub := enc1 ++ enc2).
  assert (fits32 sub) as Hfs by (unfold fits32, sub; rewrite length_app; lia).
  destruct (len32_fits sub Hfs) as [Es Hs].
  destruct (uleb_ok (len32 sub) Hs) as (enc4 & [Hw4 Hr4] & _ & L4 & _).
  set (payload := enc3 ++ [1] ++ enc4 ++ sub).
  assert (length NAME = 4%nat) as HN by done.
  destruct (section_ok 0 payload) as (enc & Hw & Hr).
  { unfold fits32, payload, sub. rewrite !length_app. cbn [length]. lia. }
  { unfold payload. by destruct enc3. }
  exists enc. split.
  - intros out. unfold append_name_section. rewrite Hw1. cbn [mbind option_bind app].
    rewrite Hw2. cbn [mbind option_bind]. fold sub. rewrite Hw3. cbn [mbind option_bind app].
    rewrite Hw4. cbn [mbind option_bind]. rewrite <- !app_assoc. apply Hw.
  - intros rest. unfold read_name_section. rewrite Hr. cbn [mbind option_bind].
    unfold payload. rewrite Hr3. cbn [mbind option_bind app]. rewrite Hr4. cbn [mbind option_bind].
    rewrite (Hr1 enc2 : read_uleb sub = _). cbn [mbind option_bind]. rewrite Ec, Nat2Z.id.
    pose proof (Hr2 []) as Hr2'. rewrite app_nil_r in Hr2'. rewrite Hr2'.
    cbn [mbind option_bind]. by rewrite bool_decide_eq_true_2.
Qed.

(** ** Results *)

(** Unsigned LEB128: every [u32] is written in one to five bytes, read back
    by the format's reader whatever follows, and in its shortest form (no
    trailing zero group). *)
Theorem uleb_roundtrip v :
  in_u 32 v →
  ∃ enc, (∀ out, uleb v out = Some (out ++ enc)) ∧
    (∀ rest, read_uleb (enc ++ rest) = Some (v, rest)) ∧
    bytes_ok enc ∧ (1 ≤ length enc ≤ 5)%nat ∧ (last enc = Some 0 → enc = [0]).
Proof. intros Hv. destruct (uleb_ok v Hv) as (enc & [Hw Hr] & H). by exists enc. Qed.

Lemma uleb_roundtrip_witness :
  ∃ enc, (∀ out, uleb 4294967295 out = Some (out ++ enc)) ∧
    (∀ rest, read_uleb (enc ++ rest) = Some (4294967295, rest)) ∧
    bytes_ok enc ∧ (1 ≤ length enc ≤ 5)%nat ∧ (last enc = Some 0 → enc = [0]).
Proof. apply uleb_roundtrip. by vm_compute. Defined.

(** Signed LEB128: every [i32] is written in at most five bytes and every
    [i64] in at most ten, and the format's reader, which sign-extends, returns
    the value and what follows. *)
Theorem sleb_roundtrip v :
  (in_i 32 v → ∃ enc, (∀ out, sleb v out = Some (out ++ enc)) ∧
    (∀ rest, read_sleb (enc ++ rest) = Some (v, rest)) ∧ bytes_ok enc ∧ (1 ≤ length enc ≤ 5)%nat) ∧
  (in_i 64 v → ∃ enc, (∀ out, sleb64 v out = Some (out ++ enc)) ∧
    (∀ rest, read_sleb (enc ++ rest) = Some (v, rest)) ∧ bytes_ok enc ∧ (1 ≤ length enc ≤ 10)%nat).
Proof.
  split; intros Hv.
  - destruct (sleb_loop_spec 4 v) as (enc & [Hw Hr] & H); [|by exists enc].
    pose proof pow128_sleb32. unfold in_i in Hv. lia.
  - destruct (sleb_loop_spec 9 v) as (enc & [Hw Hr] & H); [|by exists enc].
    pose proof pow128_sleb64. unfold in_i in Hv. lia.
Qed.

Lemma sleb_roundtrip_witness :
  (∃ enc, (∀ out, sleb (-65) out = Some (out ++ enc)) ∧
    (∀ rest, read_sleb (enc ++ rest) = Some (-65, rest)) ∧ bytes_ok enc ∧ (1 ≤ length enc ≤ 5)%nat).
Proof. apply (proj1 (sleb_roundtrip (-65))). by vm_compute. Defined.

(** The name section: for function names whose lengths fit, the bytes that
    [append_name_section] adds to any module are one custom section of the
    format, from which the reader returns exactly those indices and names and
    leaves what follows. *)
Theorem name_section_roundtrip l :
  names_ok l → Z.of_nat (30 + names_size l) < 2 ^ 32 →
  ∃ enc, (∀ module, append_name_section l module = Some (module ++ enc)) ∧
    (∀ rest, read_name_section (enc ++ rest) = Some (l, rest)).
Proof. intros Hl Hs. destruct (name_section_ok l Hl Hs) as (enc & Hw & Hr). by exists enc. Qed.

Lemma name_section_roundtrip_witness :
  let l := [(0, [109; 97; 105; 110]); (300, [])] in
  ∃ enc, (∀ module, append_name_section l module = Some (module ++ enc)) ∧
    (∀ rest, read_name_section (enc ++ rest) = Some (l, rest)).
Proof.
  cbv zeta. apply name_section_roundtrip; [|by vm_compute].
  repeat apply Forall_cons_2; try apply Forall_nil_2; split; by vm_compute.
Defined.
