(* ===== verification/Identity.v ===== *)
(** * Symbol identities and canonical source paths

    Models [crates/stasis_compiler/src/identity.rs] and
    [crates/stasis_compiler/src/backend/hash.rs].  A [str] is its list of bytes;
    error messages are bytes too. *)

From S2P Require Import Prelude.
#[local] Open Scope Z_scope.

Definition str := list Z.

(** ** The string operations used *)

Definition PERCENT : Z := 37.
Definition DOT : Z := 46.
Definition SEP : Z := 47.
Definition COLON : Z := 58.
Definition BACKSLASH : Z := 92.
Definition BAR : Z := 124.

(** [replace(b, w)] *)
Definition replace_byte (b : Z) (w s : str) : str :=
  concat ((λ c, if c =? b then w else [c]) <$> s).

(** [split(b)]: at least one component. *)
Fixpoint split_on (b : Z) (s : str) : list str :=
  match s with
  | [] => [[]]
  | c :: s' =>
      if c =? b then [] :: split_on b s'
      else match split_on b s' with
           | [] => [[c]]
           | w :: ws => (c :: w) :: ws
           end
  end.

(** [join] *)
Fixpoint join (b : Z) (ws : list str) : str :=
  match ws with
  | [] => []
  | [w] => w
  | w :: ws' => w ++ b :: join b ws'
  end.

(** [join] with a text. *)
Fixpoint join_with (sep : str) (ws : list str) : str :=
  match ws with
  | [] => []
  | [w] => w
  | w :: ws' => w ++ sep ++ join_with sep ws'
  end.

Definition starts_with (p s : str) : bool := bool_decide (take (length p) s = p).

Definition strip_prefix (p s : str) : option str :=
  if starts_with p s then Some (drop (length p) s) else None.

Fixpoint trim_start_matches (b : Z) (s : str) : str :=
  match s with
  | c :: s' => if c =? b then trim_start_matches b s' else s
  | [] => []
  end.

Definition trim_end_matches (b : Z) (s : str) : str := reverse (trim_start_matches b (reverse s)).

Definition contains (b : Z) (s : str) : bool := existsb (Z.eqb b) s.

Definition to_ascii_uppercase (s : str) : str :=
  (λ c, if (97 <=? c) && (c <=? 122) then c - 32 else c) <$> s.

Definition is_ascii_alphabetic (c : Z) : bool :=
  ((65 <=? c) && (c <=? 90)) || ((97 <=? c) && (c <=? 122)).

(** [Vec::pop] *)
Definition vec_pop {A} (l : list A) : option (list A) :=
  match l with [] => None | _ => Some (take (pred (length l)) l) end.

(** ** Hashes *)

Definition fnv1a32 (bytes : str) : Z :=
  foldl (λ hash byte, wrap 32 (Z.lxor hash byte * 16777619)) 2166136261 bytes.

(** [backend/hash.rs]: a second implementation, cast to [i32]. *)
Definition hash_global_path (path : str) : Z :=
  swrap 32 (foldl (λ hash byte, let hash := Z.lxor hash byte in wrap 32 (hash * 16777619))
              2166136261 path).

Definition hash_string_literal (value : str) : Z := hash_global_path value.

(** ** Paths *)

Definition normalize_source_path (path : str) : str :=
  let replaced := replace_byte BACKSLASH [SEP] path in
  let path := default replaced (strip_prefix (string_bytes "//?/") replaced) in
  join SEP (filter (λ c, c ≠ [] ∧ c ≠ [DOT]) (split_on SEP path)).

Definition has_drive_prefix (path : str) : bool :=
  match path with
  | c :: d :: _ => is_ascii_alphabetic c && (d =? COLON)
  | _ => false
  end.

Definition is_rooted (path : str) : bool :=
  starts_with [SEP] path ||
  (has_drive_prefix path && bool_decide (path !! 2%nat = Some SEP)).

Fixpoint relative_loop (path : str) (components rest : list str) : Result (list str) str :=
  match rest with
  | [] => Ok components
  | c :: rest' =>
      if bool_decide (c = [] ∨ c = [DOT]) then relative_loop path components rest'
      else if bool_decide (c = [DOT; DOT]) then
        match vec_pop components with
        | None => Err (string_bytes "source path escapes project root: '" ++ path ++ string_bytes "'")
        | Some components' => relative_loop path components' rest'
        end
      else if contains COLON c then
        Err (string_bytes "invalid rooted source path component '" ++ c ++ string_bytes "'")
      else relative_loop path (components ++ [c]) rest'
  end.

Definition normalize_relative (path : str) : Result str str :=
  let? components := relative_loop path [] (split_on SEP path) in
  if bool_decide (components = []) then Err (string_bytes "canonical source path is empty")
  else Ok (join SEP components).

Definition normalize_absolute (path : str) : Result str str :=
  let prefix_len := if bool_decide (path !! 1%nat = Some COLON) then 2%nat else 0%nat in
  let prefix := take prefix_len path in
  let tail := trim_start_matches SEP (drop prefix_len path) in
  let? relative := normalize_relative tail in
  Ok (if (prefix_len =? 0)%nat then SEP :: relative else prefix ++ SEP :: relative).

(** The absolute branch of [canonical_source_path]: the path below the root. *)
Definition below_root (project_root : option str) (path : str) : Result str str :=
  let? root := ok_or project_root
    (string_bytes "absolute source path requires an explicit project root: '" ++ path ++
     string_bytes "'") in
  let root := replace_byte BACKSLASH [SEP] root in
  if negb (is_rooted root) || starts_with [SEP; SEP] root then
    Err (string_bytes "project root must be an unambiguous absolute path: '" ++ root ++
         string_bytes "'")
  else
    let? root := normalize_absolute root in
    let? path := normalize_absolute path in
    let prefix := trim_end_matches SEP root ++ [SEP] in
    if bool_decide (path = root)
    then Err (string_bytes "source path resolves to the project root, not a file")
    else ok_or (strip_prefix prefix path)
           (string_bytes "source path is outside project root: '" ++ path ++ string_bytes "'").

Definition canonical_source_path (project_root : option str) (path : str) : Result str str :=
  let replaced := replace_byte BACKSLASH [SEP] path in
  if starts_with (string_bytes "//?/UNC/") (to_ascii_uppercase replaced) then
    Err (string_bytes "UNC source paths are not valid canonical project paths: '" ++ replaced ++
         string_bytes "'")
  else
  let path := default replaced (strip_prefix (string_bytes "//?/") replaced) in
  if starts_with [SEP; SEP] path then
    Err (string_bytes "UNC source paths are not valid canonical project paths: '" ++ path ++
         string_bytes "'")
  else if has_drive_prefix path && negb (is_rooted path) then
    Err (string_bytes "drive-relative source paths are not supported: '" ++ path ++
         string_bytes "'")
  else
    let? relative := if is_rooted path then below_root project_root path else Ok path in
    normalize_relative relative.

(** ** Identities *)

Record CanonicalSourcePath := mkCanonicalPath { path_str : str }.

Definition project_relative (path : str) : Result CanonicalSourcePath str :=
  let? p := canonical_source_path None path in Ok (mkCanonicalPath p).

Definition under_project_root (project_root path : str) : Result CanonicalSourcePath str :=
  let? p := canonical_source_path (Some project_root) path in Ok (mkCanonicalPath p).

Definition escape_component (component : str) : str :=
  replace_byte BACKSLASH (string_bytes "%5c")
    (replace_byte BAR (string_bytes "%7c") (replace_byte PERCENT (string_bytes "%25") component)).

Definition overload_discriminator (param_type_names : list str) : str :=
  if bool_decide (param_type_names = []) then string_bytes "()"
  else string_bytes "(" ++ join 44 param_type_names ++ string_bytes ")".

Record SymbolId := mkSymbolId { canonical : str }.

Definition SymbolId_declaration (kind : str) (source_path : CanonicalSourcePath)
    (qualified_name discriminator : str) : SymbolId :=
  mkSymbolId (string_bytes "v1|" ++ escape_component kind ++ [BAR] ++
    escape_component (path_str source_path) ++ [BAR] ++ escape_component qualified_name ++ [BAR] ++
    escape_component discriminator).

Definition SymbolId_function (source_path : CanonicalSourcePath)
    (qualified_name overload : str) : SymbolId :=
  SymbolId_declaration (string_bytes "function") source_path qualified_name overload.

Definition fn_id (s : SymbolId) : Z := fnv1a32 (canonical s).

(** ** Reading an identity back *)

(** The inverse of [escape_component]. *)
Fixpoint unescape (s : str) : str :=
  match s with
  | 37 :: 50 :: 53 :: s' => PERCENT :: unescape s'
  | 37 :: 55 :: 99 :: s' => BAR :: unescape s'
  | 37 :: 53 :: 99 :: s' => BACKSLASH :: unescape s'
  | c :: s' => c :: unescape s'
  | [] => []
  end.

Definition parse_symbol (s : SymbolId) : option (str * str * str * str) :=
  match split_on BAR (canonical s) with
  | [v; k; p; n; d] =>
      if bool_decide (v = string_bytes "v1")
      then Some (unescape k, unescape p, unescape n, unescape d) else None
  | _ => None
  end.

(** ** Splitting and joining *)

Lemma contains_spec b s : contains b s = true ↔ b ∈ s.
Proof.
  unfold contains. rewrite existsb_exists. split.
  - intros (c & Hin & ->%Z.eqb_eq). by apply list_elem_of_In.
  - intros Hin. exists b. split; [by apply list_elem_of_In|apply Z.eqb_refl].
Qed.

Lemma split_on_nonempty b s : split_on b s ≠ [].
Proof. destruct s as [|c s]; simpl; [done|]. repeat case_match; done. Qed.

Lemma split_on_none b w : b ∉ w → split_on b w = [w].
Proof.
  induction w as [|c w IH]; intros Hn; [done|]. apply not_elem_of_cons in Hn as [Hne Hn].
  cbn [split_on]. rewrite (proj2 (Z.eqb_neq _ _)) by done. by rewrite IH.
Qed.

Lemma split_on_app b u v : split_on b (u ++ b :: v) = split_on b u ++ split_on b v.
Proof.
  induction u as [|c u IH]; cbn [app split_on]; [by rewrite Z.eqb_refl|].
  destruct (c =? b); [by rewrite IH|]. rewrite IH.
  destruct (split_on b u) eqn:E; [by apply split_on_nonempty in E|]. done.
Qed.

Lemma split_on_join b ws :
  ws ≠ [] → Forall (λ w, b ∉ w) ws → split_on b (join b ws) = ws.
Proof.
  intros Hn Hw. induction Hw as [|w ws Hb Hw IH]; [done|]. destruct ws as [|w' ws].
  - by apply split_on_none.
  - cbn [join]. rewrite split_on_app, split_on_none by done. cbn [app]. f_equal. by apply IH.
Qed.

Lemma join_cons b w ws : ws ≠ [] → join b (w :: ws) = w ++ b :: join b ws.
Proof. by destruct ws. Qed.

Lemma join_split b s : join b (split_on b s) = s.
Proof.
  induction s as [|c s IH]; [done|]. cbn [split_on]. destruct (c =? b) eqn:E.
  - apply Z.eqb_eq in E as ->. rewrite join_cons by apply split_on_nonempty. by rewrite IH.
  - destruct (split_on b s) as [|w ws] eqn:Es; [by apply split_on_nonempty in Es|].
    rewrite <- IH. by destruct ws.
Qed.

Lemma split_on_fresh b s : Forall (λ w, b ∉ w) (split_on b s).
Proof.
  induction s as [|c s IH]; cbn [split_on]; [repeat constructor; apply not_elem_of_nil|].
  destruct (c =? b) eqn:E; [constructor; [apply not_elem_of_nil|done]|]. apply Z.eqb_neq in E.
  destruct (split_on b s) as [|w ws] eqn:Es; [by apply split_on_nonempty in Es|].
  inversion_clear IH as [|? ? Hw Hws]. constructor; [|done]. by apply not_elem_of_cons.
Qed.

Lemma elem_of_split_on b s w c : w ∈ split_on b s → c ∈ w → c ∈ s.
Proof.
  revert w. induction s as [|d s IH]; intros w; cbn [split_on].
  - intros ->%list_elem_of_singleton Hc. done.
  - destruct (d =? b).
    + intros [->|Hw]%elem_of_cons Hc; [by apply not_elem_of_nil in Hc|].
      apply list_elem_of_further. by apply (IH w).
    + destruct (split_on b s) as [|w' ws] eqn:Es; [by apply split_on_nonempty in Es|].
      intros [->|Hw]%elem_of_cons Hc.
      * apply elem_of_cons in Hc as [->|Hc]; [apply list_elem_of_here|].
        apply list_elem_of_further. apply (IH w'); [apply list_elem_of_here|done].
      * apply list_elem_of_further. apply (IH w); [by apply list_elem_of_further|done].
Qed.

(** ** Escaping *)

(** One pass over the component. *)
Definition escape_byte (c : Z) : str :=
  if c =? PERCENT then [37; 50; 53] else if c =? BAR then [37; 55; 99]
  else if c =? BACKSLASH then [37; 53; 99] else [c].

Lemma replace_byte_app b w u v : replace_byte b w (u ++ v) = replace_byte b w u ++ replace_byte b w v.
Proof. unfold replace_byte. by rewrite fmap_app, concat_app. Qed.

Lemma replace_byte_cons b w c s :
  replace_byte b w (c :: s) = (if c =? b then w else [c]) ++ replace_byte b w s.
Proof. done. Qed.

Lemma escape_cons c s : escape_component (c :: s) = escape_byte c ++ escape_component s.
Proof.
  unfold escape_component, escape_byte. rewrite replace_byte_cons, !replace_byte_app. f_equal.
  destruct (c =? PERCENT) eqn:E1; [by vm_compute|].
  rewrite replace_byte_cons. cbn [replace_byte fmap list_fmap concat].
  destruct (c =? BAR) eqn:E2; [by vm_compute|]. rewrite app_nil_r, replace_byte_cons.
  cbn [replace_byte fmap list_fmap concat]. destruct (c =? BACKSLASH); [by vm_compute|done].
Qed.

Lemma unescape_plain c s : c ≠ PERCENT → unescape (c :: s) = c :: unescape s.
Proof.
  unfold PERCENT. intros Hc. cbn [unescape].
  repeat (match goal with |- context [match ?x with _ => _ end] => is_var x; destruct x end; try done).
Qed.

Lemma unescape_escape s : unescape (escape_component s) = s.
Proof.
  induction s as [|c s IH]; [done|]. rewrite escape_cons. unfold escape_byte.
  destruct (c =? PERCENT) eqn:E1; [apply Z.eqb_eq in E1 as ->; cbn [app unescape]; by rewrite IH|].
  destruct (c =? BAR) eqn:E2; [apply Z.eqb_eq in E2 as ->; cbn [app unescape]; by rewrite IH|].
  destruct (c =? BACKSLASH) eqn:E3; [apply Z.eqb_eq in E3 as ->; cbn [app unescape]; by rewrite IH|].
  to_props. cbn [app]. by rewrite unescape_plain, IH.
Qed.

Lemma escape_no_bar s : BAR ∉ escape_component s.
Proof.
  induction s as [|c s IH]; [apply not_elem_of_nil|]. rewrite escape_cons, elem_of_app.
  intros [H|H]; [|done]. revert H. change (BAR ∉ escape_byte c). unfold escape_byte.
  destruct (c =? PERCENT); [apply (bool_decide_unpack _); by vm_compute|].
  destruct (c =? BAR) eqn:E; [apply (bool_decide_unpack _); by vm_compute|].
  destruct (c =? BACKSLASH); [apply (bool_decide_unpack _); by vm_compute|].
  intros Hc%list_elem_of_singleton. subst c. by rewrite Z.eqb_refl in E.
Qed.

Lemma parse_declaration k p n d :
  parse_symbol (SymbolId_declaration k p n d) = Some (k, path_str p, n, d).
Proof.
  unfold parse_symbol, SymbolId_declaration. cbn [canonical].
  assert (split_on BAR (string_bytes "v1|" ++ escape_component k ++ [BAR] ++
    escape_component (path_str p) ++ [BAR] ++ escape_component n ++ [BAR] ++ escape_component d) =
    [string_bytes "v1"; escape_component k; escape_component (path_str p); escape_component n;
     escape_component d]) as ->.
  { rewrite <- (split_on_join BAR [string_bytes "v1"; escape_component k;
      escape_component (path_str p); escape_component n; escape_component d]); [done|done|].
    repeat apply Forall_cons_2; try apply Forall_nil_2; try apply escape_no_bar.
    apply (bool_decide_unpack _). by vm_compute. }
  rewrite bool_decide_eq_true_2 by done. by rewrite !unescape_escape.
Qed.

(** ** Canonical components *)

Record good_component (c : str) : Prop := {
  gc_nonempty : c ≠ [];
  gc_dot : c ≠ [DOT];
  gc_dotdot : c ≠ [DOT; DOT];
  gc_colon : COLON ∉ c;
  gc_sep : SEP ∉ c;
}.

(** A canonical path: at least one component, all of them good. *)
Definition canonical_path (q : str) : Prop :=
  ∃ cs, cs ≠ [] ∧ Forall good_component cs ∧ q = join SEP cs ∧ BACKSLASH ∉ q.

Lemma vec_pop_sub {A} (P : A → Prop) l l' : vec_pop l = Some l' → Forall P l → Forall P l'.
Proof. destruct l; [done|]. intros [= <-] H. by apply Forall_take. Qed.

Lemma relative_loop_good path rest acc cs :
  Forall (λ w, SEP ∉ w) rest → Forall good_component acc →
  relative_loop path acc rest = Ok cs → Forall good_component cs.
Proof.
  intros Hr. revert acc. induction Hr as [|c rest Hc Hr IH]; intros acc Ha; cbn [relative_loop].
  { by intros <-%Ok_inj. }
  case_bool_decide as E1; [by apply IH|]. case_bool_decide as E2.
  { destruct (vec_pop acc) eqn:E; [|done]. apply IH. by eapply vec_pop_sub. }
  destruct (contains COLON c) eqn:E3; [done|]. apply IH. apply Forall_app. split; [done|].
  apply Forall_singleton. split; try tauto. by rewrite <- contains_spec, E3.
Qed.

(** Good components are kept as they are. *)
Lemma relative_loop_id path acc cs :
  Forall good_component cs → relative_loop path acc cs = Ok (acc ++ cs).
Proof.
  intros H. revert acc. induction H as [|c cs Hc _ IH]; intros acc; cbn [relative_loop].
  { by rewrite app_nil_r. }
  destruct Hc. rewrite bool_decide_eq_false_2 by tauto. rewrite bool_decide_eq_false_2 by done.
  destruct (contains COLON c) eqn:E; [by apply contains_spec in E|].
  by rewrite IH, <- app_assoc.
Qed.

Lemma normalize_relative_join cs :
  cs ≠ [] → Forall good_component cs → normalize_relative (join SEP cs) = Ok (join SEP cs).
Proof.
  intros Hn Hg. unfold normalize_relative. rewrite split_on_join; [|done|].
  - rewrite relative_loop_id by done. cbn [result_bind app]. by rewrite bool_decide_eq_false_2.
  - eapply Forall_impl; [exact Hg|]. by intros c [].
Qed.

Lemma elem_of_join b c ws : c ∈ join b ws → c = b ∨ ∃ w, w ∈ ws ∧ c ∈ w.
Proof.
  induction ws as [|w ws IH]; [by intros ?%not_elem_of_nil|]. destruct ws as [|w' ws].
  - intros H. right. exists w. split; [apply list_elem_of_here|done].
  - rewrite join_cons by done. rewrite elem_of_app, elem_of_cons. intros [H|[->|H]]; [|by left|].
    + right. exists w. split; [apply list_elem_of_here|done].
    + destruct (IH H) as [->|(v & Hv & Hc)]; [by left|]. right. exists v.
      split; [by apply list_elem_of_further|done].
Qed.

Lemma relative_loop_elems path rest acc cs c :
  relative_loop path acc rest = Ok cs → c ∈ cs → c ∈ acc ∨ c ∈ rest.
Proof.
  revert acc. induction rest as [|d rest IH]; intros acc; cbn [relative_loop].
  { intros <-%Ok_inj. by left. }
  case_bool_decide; [intros H' Hc; destruct (IH _ H' Hc); [by left|right; by apply list_elem_of_further]|].
  case_bool_decide.
  { destruct (vec_pop acc) as [acc'|] eqn:E; [|done]. intros H' Hc.
    destruct (IH _ H' Hc) as [Hin|]; [left|right; by apply list_elem_of_further].
    destruct acc; [done|]. injection E as <-. eapply subseteq_take, Hin. }
  destruct (contains COLON d); [done|]. intros H' Hc. destruct (IH _ H' Hc) as [Hin|Hin].
  - apply elem_of_app in Hin as [?| ->%list_elem_of_singleton]; [by left|right; apply list_elem_of_here].
  - right. by apply list_elem_of_further.
Qed.

Lemma normalize_relative_Ok s q :
  normalize_relative s = Ok q →
  ∃ cs, cs ≠ [] ∧ Forall good_component cs ∧ q = join SEP cs ∧ (BACKSLASH ∉ s → BACKSLASH ∉ q).
Proof.
  unfold normalize_relative. destruct (relative_loop _ _ _) as [cs|] eqn:E; [|done].
  cbn [result_bind]. case_bool_decide; [done|]. intros <-%Ok_inj. exists cs. split_and!; try done.
  - eapply relative_loop_good; [apply split_on_fresh|constructor|exact E].
  - intros Hs [Hb|(w & Hw & Hb)]%elem_of_join; [done|].
    destruct (relative_loop_elems _ _ _ _ _ E Hw) as [H'|H']; [by apply not_elem_of_nil in H'|].
    by apply Hs, (elem_of_split_on SEP s w).
Qed.

(** ** Canonical paths are fixed points *)

Lemma replace_byte_id b w s : b ∉ s → replace_byte b w s = s.
Proof.
  induction s as [|c s IH]; intros Hn; [done|]. apply not_elem_of_cons in Hn as [Hc Hn].
  rewrite replace_byte_cons, IH by done. by rewrite (proj2 (Z.eqb_neq _ _)).
Qed.

Lemma replace_byte_fresh b w s : b ∉ w → b ∉ replace_byte b w s.
Proof.
  intros Hw. induction s as [|c s IH]; [apply not_elem_of_nil|].
  rewrite replace_byte_cons, elem_of_app. intros [H|H]; [|done].
  destruct (c =? b) eqn:E; [done|]. apply list_elem_of_singleton in H as ->. by rewrite Z.eqb_refl in E.
Qed.

Lemma starts_with_head c p s : starts_with (c :: p) s = true → head s = Some c.
Proof. unfold starts_with. rewrite bool_decide_eq_true. destruct s; cbn; [done|]. by intros [= -> _]. Qed.

Lemma starts_with_spec p s : starts_with p s = true ↔ ∃ t, s = p ++ t.
Proof.
  unfold starts_with. rewrite bool_decide_eq_true. split.
  - intros E. exists (drop (length p) s). rewrite <- E at 1. by rewrite take_drop.
  - intros [t ->]. by rewrite take_app_length.
Qed.

Lemma strip_prefix_spec p s t : strip_prefix p s = Some t ↔ s = p ++ t.
Proof.
  unfold strip_prefix. destruct (starts_with p s) eqn:E.
  - apply starts_with_spec in E as [t' ->]. rewrite drop_app_length.
    split; [by intros [= ->]|by intros ->%app_inv_head].
  - split; [done|]. intros ->. by rewrite (proj2 (starts_with_spec _ _)) in E by eauto.
Qed.

Lemma has_drive_prefix_colon s : has_drive_prefix s = true → COLON ∈ s.
Proof.
  destruct s as [|c [|d s]]; try done. cbn. rewrite andb_true_iff, Z.eqb_eq. intros [_ ->].
  apply list_elem_of_further, list_elem_of_here.
Qed.

Lemma good_join_facts cs :
  cs ≠ [] → Forall good_component cs →
  head (join SEP cs) ≠ Some SEP ∧ COLON ∉ join SEP cs.
Proof.
  intros Hn Hg. split.
  - destruct Hg as [|c cs Hc _]; [done|]. destruct Hc as [H1 _ _ _ H2]. destruct c as [|x c]; [done|].
    apply not_elem_of_cons in H2 as [H2 _]. destruct cs; cbn; congruence.
  - intros [H|(w & Hw & Hc)]%elem_of_join; [done|]. rewrite Forall_forall in Hg.
    by destruct (Hg w Hw).
Qed.

Lemma uppercase_head s : head (to_ascii_uppercase s) = Some SEP → head s = Some SEP.
Proof.
  destruct s as [|c s]; [done|]. unfold to_ascii_uppercase. cbn.
  destruct ((97 <=? c) && (c <=? 122)) eqn:E; [|done]. to_props. unfold SEP. intros [= Hc]. lia.
Qed.

Lemma canonical_fixed r q : canonical_path q → canonical_source_path r q = Ok q.
Proof.
  intros (cs & Hn & Hg & -> & Hb). destruct (good_join_facts cs Hn Hg) as [Hh Hc].
  set (q := join SEP cs) in *. unfold canonical_source_path. rewrite replace_byte_id by done.
  destruct (starts_with (string_bytes "//?/UNC/") _) eqn:E1.
  { exfalso. by apply Hh, uppercase_head, (starts_with_head _ (string_bytes "/?/UNC/")). }
  destruct (strip_prefix (string_bytes "//?/") q) as [t|] eqn:E2.
  { exfalso. apply strip_prefix_spec in E2. apply Hh. by rewrite E2. }
  cbn [default]. destruct (starts_with [SEP; SEP] q) eqn:E3.
  { exfalso. by apply Hh, (starts_with_head _ [SEP]). }
  destruct (has_drive_prefix q) eqn:E4; [by apply has_drive_prefix_colon in E4|].
  unfold is_rooted. rewrite E4. destruct (starts_with [SEP] q) eqn:E5.
  { exfalso. by apply Hh, (starts_with_head _ []). }
  cbn. by apply normalize_relative_join.
Qed.

(** ** Absolute paths *)

Lemma trim_start_sub b s c : c ∈ trim_start_matches b s → c ∈ s.
Proof.
  induction s as [|d s IH]; [done|]. cbn. destruct (d =? b); [|done].
  intros H. by apply list_elem_of_further, IH.
Qed.

(** A normalised absolute path: a root that no component can spell, and its components. *)
Lemma normalize_absolute_Ok s p :
  normalize_absolute s = Ok p →
  ∃ pre cs, (pre = [] ∨ ∃ c, pre = [c; COLON]) ∧ cs ≠ [] ∧ Forall good_component cs ∧
    p = pre ++ SEP :: join SEP cs ∧ (BACKSLASH ∉ s → BACKSLASH ∉ p).
Proof.
  unfold normalize_absolute. case_bool_decide as Hc; cbn [Nat.eqb].
  - destruct s as [|c [|d s]]; try done. cbn in Hc. injection Hc as ->. cbn [drop take]. rewrite drop_0, take_0.
    destruct (normalize_relative _) as [q|] eqn:E; [|done]. cbn [result_bind]. intros <-%Ok_inj.
    apply normalize_relative_Ok in E as (cs & Hn & Hg & -> & Hb).
    exists [c; COLON], cs. split_and!; [by right; exists c|done|done|done|].
    intros Hs. rewrite elem_of_app. intros [H|[H|H]%elem_of_cons]; [|discriminate H|].
    + apply Hs. apply elem_of_cons in H as [->|H%list_elem_of_singleton]; [apply list_elem_of_here|discriminate H].
    + revert H. apply Hb. intros H%trim_start_sub. by apply Hs, list_elem_of_further, list_elem_of_further.
  - rewrite drop_0. destruct (normalize_relative _) as [q|] eqn:E; [|done]. cbn [result_bind].
    intros <-%Ok_inj. apply normalize_relative_Ok in E as (cs & Hn & Hg & -> & Hb).
    exists [], cs. split_and!; [by left|done|done|done|].
    intros Hs. cbn [app]. rewrite elem_of_cons. intros [H|H]; [discriminate H|]. revert H. apply Hb.
    intros H%trim_start_sub. by apply Hs.
Qed.

Lemma trim_end_noop b s : last s ≠ Some b → trim_end_matches b s = s.
Proof.
  intros Hl. unfold trim_end_matches. destruct s as [|c s _] using rev_ind; [done|].
  rewrite reverse_snoc. cbn [trim_start_matches]. rewrite last_snoc in Hl.
  rewrite (proj2 (Z.eqb_neq _ _)) by congruence. by rewrite reverse_cons, reverse_involutive.
Qed.

Lemma last_good_join cs : cs ≠ [] → Forall good_component cs → last (join SEP cs) ≠ Some SEP.
Proof.
  intros Hn Hg. induction Hg as [|c cs Hc Hg IH]; [done|].
  assert (last c ≠ Some SEP ∧ c ≠ []) as [Hl Hne].
  { destruct Hc as [H1 _ _ _ H2]. split; [|done]. intros [l' ->]%last_Some.
    apply H2, elem_of_app. right. apply list_elem_of_here. }
  destruct cs as [|c' cs]; [done|]. rewrite join_cons by done.
  assert (join SEP (c' :: cs) ≠ []) as Hj.
  { inversion_clear Hg as [|? ? H1 _]. destruct H1 as [H1 _ _ _ _]. destruct c'; [done|]. by destruct cs. }
  rewrite last_app_cons. destruct (join SEP (c' :: cs)) eqn:E; [done|].
  rewrite last_cons_cons. by apply IH.
Qed.

Lemma split_absolute pre cs :
  (pre = [] ∨ ∃ c, pre = [c; COLON]) → cs ≠ [] → Forall good_component cs →
  split_on SEP (pre ++ SEP :: join SEP cs) = split_on SEP pre ++ cs.
Proof.
  intros _ Hn Hg. rewrite split_on_app. f_equal. apply split_on_join; [done|].
  eapply Forall_impl; [exact Hg|]. by intros c [].
Qed.

(** The part of a normalised path below a normalised root is already canonical. *)
Lemma below_canonical s p r0 r rel :
  normalize_absolute s = Ok p → normalize_absolute r0 = Ok r →
  strip_prefix (trim_end_matches SEP r ++ [SEP]) p = Some rel →
  BACKSLASH ∉ s → rel ≠ [] ∧ p = r ++ SEP :: rel ∧ canonical_path rel.
Proof.
  intros Hp Hr Hrel Hs.
  destruct (normalize_absolute_Ok _ _ Hp) as (pp & ps & Hpp & Hpn & Hpg & Ep & Hpb).
  destruct (normalize_absolute_Ok _ _ Hr) as (rp & rs & Hrp & Hrn & Hrg & Er & _).
  rewrite trim_end_noop in Hrel; swap 1 2.
  { rewrite Er, last_app_cons. destruct (join SEP rs) eqn:E.
    - destruct (good_join_facts rs Hrn Hrg) as [_ _]. destruct Hrg as [|c rs Hc _]; [done|].
      destruct Hc as [H1 _ _ _ _]. destruct c; [done|]. by destruct rs.
    - rewrite last_cons_cons, <- E. by apply last_good_join. }
  apply strip_prefix_spec in Hrel. rewrite <- app_assoc in Hrel. cbn [app] in Hrel.
  pose proof (f_equal (split_on SEP) Hrel) as Hsplit. rewrite split_on_app in Hsplit.
  rewrite Ep, Er in Hsplit. rewrite !split_absolute in Hsplit by done.
  assert (length (split_on SEP pp) ≤ length (split_on SEP rp ++ rs))%nat as Hlen.
  { assert (∀ x, (x = [] ∨ ∃ c, x = [c; COLON]) → length (split_on SEP x) ≤ 2)%nat as H2.
    { intros x [->|[c ->]]; cbn; [lia|]. destruct (c =? SEP); cbn; lia. }
    specialize (H2 pp Hpp). rewrite length_app.
    pose proof (split_on_nonempty SEP rp). destruct (split_on SEP rp); [done|].
    destruct rs; [done|]. cbn [length]. lia. }
  assert (∃ k, split_on SEP rel = drop k ps) as [k Hk].
  { exists (length (split_on SEP rp ++ rs) - length (split_on SEP pp))%nat.
    apply (f_equal (drop (length (split_on SEP rp ++ rs)))) in Hsplit.
    rewrite drop_app_length in Hsplit. rewrite <- Hsplit, drop_app_ge by done. done. }
  assert (Forall good_component (split_on SEP rel)) as Hg by (rewrite Hk; by apply Forall_drop).
  split_and!.
  - intros ->. cbn in Hg. inversion_clear Hg as [|? ? H1 _]. by destruct H1.
  - done.
  - exists (split_on SEP rel). split_and!; [apply split_on_nonempty|done|by rewrite join_split|].
    intros Hb. apply (Hpb Hs). rewrite Hrel. apply elem_of_app. right. by apply list_elem_of_further.
Qed.

(** ** Results *)

(** The path after the separators are unified and the verbatim prefix dropped. *)
Definition unified (path : str) : str :=
  let replaced := replace_byte BACKSLASH [SEP] path in
  default replaced (strip_prefix (string_bytes "//?/") replaced).

Lemma unified_no_backslash path : BACKSLASH ∉ unified path.
Proof.
  unfold unified. assert (BACKSLASH ∉ replace_byte BACKSLASH [SEP] path) as H.
  { apply replace_byte_fresh. apply (bool_decide_unpack _). by vm_compute. }
  destruct (strip_prefix _ _) as [t|] eqn:E; [|done]. cbn [default].
  apply strip_prefix_spec in E. intros Ht. apply H. rewrite E. apply elem_of_app. by right.
Qed.

Lemma canonical_source_path_Ok r path q :
  canonical_source_path r path = Ok q →
  ∃ relative, (if is_rooted (unified path) then below_root r (unified path) else Ok (unified path)) =
    Ok relative ∧ normalize_relative relative = Ok q.
Proof.
  unfold canonical_source_path. case_match; [done|]. fold (unified path). case_match; [done|].
  case_match; [done|]. destruct (if is_rooted (unified path) then _ else _) as [rel|]; [|done].
  cbn [result_bind]. eauto.
Qed.

Lemma below_root_Ok r path rel :
  below_root r path = Ok rel →
  ∃ root root' p, r = Some root ∧ normalize_absolute (replace_byte BACKSLASH [SEP] root) = Ok root' ∧
    normalize_absolute path = Ok p ∧
    strip_prefix (trim_end_matches SEP root' ++ [SEP]) p = Some rel.
Proof.
  unfold below_root. destruct r as [root|]; [|done]. cbn [ok_or result_bind].
  case_match; [done|].
  destruct (normalize_absolute (replace_byte BACKSLASH [SEP] root)) as [root'|] eqn:E1; [|done].
  destruct (normalize_absolute path) as [p|] eqn:E2; [|done]. cbn [result_bind].
  case_bool_decide; [done|]. destruct (strip_prefix _ p) as [t|] eqn:E3; [|done]. cbn [ok_or].
  intros ->%Ok_inj. by exists root, root', p.
Qed.

Lemma canonical_result r path q : canonical_source_path r path = Ok q → canonical_path q.
Proof.
  intros (rel & Hrel & Hq)%canonical_source_path_Ok. pose proof (unified_no_backslash path) as Hu.
  destruct (is_rooted (unified path)).
  - destruct (below_root_Ok _ _ _ Hrel) as (root & root' & p & _ & Hr & Hp & Hs).
    destruct (below_canonical _ _ _ _ _ Hp Hr Hs Hu) as (_ & _ & cs & Hn & Hg & -> & Hb).
    rewrite normalize_relative_join in Hq by done. apply Ok_inj in Hq as <-. by exists cs.
  - apply Ok_inj in Hrel as <-. apply normalize_relative_Ok in Hq as (cs & Hn & Hg & -> & Hb).
    exists cs. split_and!; try done. by apply Hb.
Qed.

(** A symbol identity is lossless: the canonical text of a declaration reads
    back as its kind, source path, qualified name and discriminator whatever
    bytes they contain, so equal identities come from equal declarations. *)
Theorem symbol_id_lossless k p n d k' p' n' d' :
  parse_symbol (SymbolId_declaration k p n d) = Some (k, path_str p, n, d) ∧
  (SymbolId_declaration k p n d = SymbolId_declaration k' p' n' d' →
   k = k' ∧ p = p' ∧ n = n' ∧ d = d').
Proof.
  split; [apply parse_declaration|]. intros E. pose proof (parse_declaration k p n d) as H.
  rewrite E, parse_declaration in H. injection H as -> Hp -> ->.
  destruct p, p'. cbn in Hp. by subst.
Qed.

Lemma symbol_id_lossless_witness :
  parse_symbol (SymbolId_declaration [37; 124] (mkCanonicalPath [97]) [92] []) =
    Some ([37; 124], [97], [92], []) ∧
  (SymbolId_declaration [37; 124] (mkCanonicalPath [97]) [92] [] =
   SymbolId_declaration [37; 124] (mkCanonicalPath [97]) [92] [] →
   [37; 124] = [37; 124] ∧ mkCanonicalPath [97] = mkCanonicalPath [97] ∧ [92] = [92] ∧
   ([] : str) = []).
Proof. apply symbol_id_lossless. Defined.

(** Canonical source paths: an accepted path is a non-empty sequence of
    components joined by slashes, none of them empty, dot, dot-dot or holding a
    slash, backslash or colon; and canonicalising it again, under any project
    root or none, returns it unchanged. *)
Theorem canonical_paths_are_canonical r path q :
  canonical_source_path r path = Ok q →
  canonical_path q ∧ ∀ r', canonical_source_path r' q = Ok q.
Proof.
  intros H%canonical_result. split; [done|]. intros r'. by apply canonical_fixed.
Qed.

Lemma canonical_paths_are_canonical_witness :
  let q := string_bytes "src/main.stasis" in
  canonical_path q ∧ ∀ r', canonical_source_path r' q = Ok q.
Proof.
  cbv zeta. apply (canonical_paths_are_canonical (Some (string_bytes "C:/Games"))
    (string_bytes "C:\Games\lib\..\src\.\main.stasis")). vm_compute. reflexivity.
Defined.

(** Root bound: an absolute path is accepted only below the project root,
    and the result is the remainder: the normalised path is the normalised root,
    a slash and the canonical path, whatever dot-dot components were used. *)
Theorem canonical_path_below_root root path q :
  canonical_source_path (Some root) path = Ok q → is_rooted (unified path) = true →
  ∃ root' p, normalize_absolute (replace_byte BACKSLASH [SEP] root) = Ok root' ∧
    normalize_absolute (unified path) = Ok p ∧ p = root' ++ SEP :: q.
Proof.
  intros (rel & Hrel & Hq)%canonical_source_path_Ok Hroot. rewrite Hroot in Hrel.
  destruct (below_root_Ok _ _ _ Hrel) as (root0 & root' & p & [= <-] & Hr & Hp & Hs).
  destruct (below_canonical _ _ _ _ _ Hp Hr Hs (unified_no_backslash path))
    as (_ & Ep & cs & Hn & Hg & -> & _).
  rewrite normalize_relative_join in Hq by done. apply Ok_inj in Hq as <-. by exists root', p.
Qed.

Lemma canonical_path_below_root_witness :
  ∃ root' p, normalize_absolute (replace_byte BACKSLASH [SEP] (string_bytes "/home/me/game/")) = Ok root' ∧
    normalize_absolute (unified (string_bytes "/home/me/x/../game/main.stasis")) = Ok p ∧
    p = root' ++ SEP :: string_bytes "main.stasis".
Proof.
  apply canonical_path_below_root; by vm_compute.
Defined.

Lemma hash_step_range bytes h :
  in_u 32 h → in_u 32 (foldl (λ h b, wrap 32 (Z.lxor h b * 16777619)) h bytes).
Proof.
  revert h. induction bytes as [|b bytes IH]; intros h Hh; [done|]. cbn [foldl].
  apply IH, wrap_range. lia.
Qed.

(** The two FNV-1a implementations agree: the identity hash of a function is
    an unsigned 32-bit value, and the hash the native and Web emitters use for
    global paths and string literals is the same value as a signed one. *)
Theorem hashes_agree bytes :
  in_u 32 (fnv1a32 bytes) ∧ in_i 32 (hash_global_path bytes) ∧
  hash_global_path bytes = swrap 32 (fnv1a32 bytes) ∧
  wrap 32 (hash_global_path bytes) = fnv1a32 bytes ∧
  hash_string_literal bytes = hash_global_path bytes.
Proof.
  assert (in_u 32 (fnv1a32 bytes)) as Hr by (apply hash_step_range; by vm_compute).
  split_and!; try done.
  - apply swrap_range. lia.
  - unfold hash_global_path. change (foldl _ _ _) with (fnv1a32 bytes).
    unfold swrap, wrap, in_u in *.
    rewrite Zminus_mod_idemp_l. replace (fnv1a32 bytes + 2 ^ (32 - 1) - 2 ^ (32 - 1)) with (fnv1a32 bytes) by lia.
    apply Z.mod_small. lia.
Qed.

(** The values the repository's own test pins down. *)
Example hash_score : hash_global_path (string_bytes "score") = -768634731.
Proof. by vm_compute. Qed.
Example hash_sample : hash_string_literal (string_bytes "fixed browser sample") = -1269689559.
Proof. by vm_compute. Qed.
