(* ===== verification/Text.v ===== *)
(** * Texts

    What Rust's [str] does with a text, which is its list of bytes: white space, searching,
    numbers in decimal.  Slices at ASCII bytes never split a character. *)

From Stdlib Require Import SpecFloat.
From stdpp Require Import pretty.
From S2P Require Import Prelude BTree Lexer Identity.
#[local] Open Scope Z_scope.

(** ** Searching *)

(** [find] and [rfind] of an ASCII character. *)
Definition find_byte (b : Z) (s : list Z) : option nat := fst <$> list_find (λ c, c = b) s.
Definition rfind_byte (b : Z) (s : list Z) : option nat :=
  (λ e, length s - 1 - e.1)%nat <$> list_find (λ c, c = b) (reverse s).

Definition rsplit_once (b : Z) (s : str) : option (str * str) :=
  (λ i, (take i s, drop (S i) s)) <$> rfind_byte b s.

(** The first occurrence of a text. *)
Fixpoint find_text (pattern s : str) : option nat :=
  if starts_with pattern s then Some 0%nat
  else match s with [] => None | _ :: s' => S <$> find_text pattern s' end.

(** ** White space *)

(** [trim().is_empty()]: only characters with the property White_Space. *)
Fixpoint is_blank (s : str) : bool :=
  match s with
  | [] => true
  | a :: s1 =>
      if ((9 <=? a) && (a <=? 13)) || (a =? 32) then is_blank s1 else
      match s1 with
      | [] => false
      | b :: s2 =>
          if (a =? 194) && ((b =? 133) || (b =? 160)) then is_blank s2 else
          match s2 with
          | [] => false
          | c :: s3 =>
              if ((a =? 225) && (b =? 154) && (c =? 128)) ||
                 ((a =? 226) && (b =? 128) &&
                  (((128 <=? c) && (c <=? 138)) || (c =? 168) || (c =? 169) || (c =? 175))) ||
                 ((a =? 226) && (b =? 129) && (c =? 159)) ||
                 ((a =? 227) && (b =? 128) && (c =? 128))
              then is_blank s3 else false
          end
      end
  end.

(** The length of the white space character at the start of a text. *)
Definition blank_char (s : str) : option nat :=
  if is_blank (take 1 s) && negb (bool_decide (s = [])) then Some 1%nat
  else if is_blank (take 2 s) && (2 <=? length s)%nat then Some 2%nat
  else if is_blank (take 3 s) && (3 <=? length s)%nat then Some 3%nat
  else None.

Fixpoint trim_start (fuel : nat) (s : str) : str :=
  match fuel with
  | O => s
  | S fuel' => match blank_char s with Some n => trim_start fuel' (drop n s) | None => s end
  end.

(** The text before its longest blank suffix. *)
Fixpoint trim_end (s : str) : str :=
  if is_blank s then [] else match s with [] => [] | b :: s' => b :: trim_end s' end.

(** [str::trim] *)
Definition trim (s : str) : str := trim_end (trim_start (length s) s).

(** ** Characters *)

(** The number of bytes of a character that starts with the byte [b]. *)
Definition char_len (b : Z) : nat :=
  if b <? 128 then 1 else if b <? 224 then 2 else if b <? 240 then 3 else 4.

(** [byte as char], encoded. *)
Definition byte_as_char (b : Z) : str :=
  if b <? 128 then [b] else [192 + b `div` 64; 128 + b `mod` 64].

(** The length of the longest prefix of bytes with a property. *)
Fixpoint prefix_len (p : Z → bool) (l : list Z) : nat :=
  match l with
  | b :: l => if p b then S (prefix_len p l) else 0
  | [] => 0
  end.

(** ** Numbers *)

Definition digit_value (b : Z) : Z := b - 48.

(** The value of a string of digits. *)
Definition decimal (digits : str) : Z := foldl (λ acc b, acc * 10 + digit_value b) 0 digits.

(** [str::parse::<f64>] of digits with one point: the nearest binary64, ties to even. *)
Definition round_decimal (mantissa : Z) (fraction_digits : nat) : spec_float :=
  if mantissa =? 0 then S754_zero false
  else
    let '(q, e, l) := SFdiv_core_binary 53 1024 mantissa 0 (10 ^ Z.of_nat fraction_digits) 0 in
    binary_round_aux 53 1024 false q e l.

Definition POINT : Z := 46.

Definition parse_f64 (s : str) : spec_float :=
  match find_byte POINT s with
  | Some i => round_decimal (decimal (take i s ++ drop (S i) s)) (length s - S i)
  | None => round_decimal (decimal s) 0
  end.

(** [str::parse] of an unsigned [w]-bit integer, of a text of digits only. *)
Definition parse_unsigned (w : Z) (digits : str) : option Z :=
  if bool_decide (digits = []) then None else checked_u w (decimal digits).

Definition all_digits (s : str) : bool := forallb is_ascii_digit s.

(** [to_string] of an integer. *)
Definition show (z : Z) : str := string_bytes (pretty z).

(** ** Texts: trimming and decimal numbers

    [trim] is idempotent, keeps texts that begin and end with ASCII characters that are
    not white space, and numbers are read back from their decimal notation. *)
#[local] Open Scope Z_scope.

Lemma bool_if (b : bool) : (if b then true else false) = b.
Proof. by destruct b. Qed.

(** *** Trimming *)

(** The bytes a white space character can end with. *)
Definition blank_byte (b : Z) : bool := ((9 <=? b) && (b <=? 13)) || (b =? 32) || (128 <=? b).

Lemma is_blank_last s b : is_blank (s ++ [b]) = true → blank_byte b = true.
Proof.
  remember (length s) as n eqn:Hn. revert s Hn. induction n as [n IH] using lt_wf_ind. intros s ->.
  unfold blank_byte. destruct s as [|x [|y [|z s]]]; cbn [app is_blank].
  - case_match; [done|]. done.
  - case_match; [apply (IH 0%nat ltac:(simpl; lia) []); done|]. case_match; [|done].
    intros _. apply orb_true_iff. right. lia.
  - case_match; [apply (IH 1%nat ltac:(simpl; lia) [y]); done|].
    case_match; [apply (IH 0%nat ltac:(simpl; lia) []); done|]. case_match; [|done].
    intros _. apply orb_true_iff. right. lia.
  - case_match; [apply (IH (S (S (length s))) ltac:(simpl; lia) (y :: z :: s)); done|].
    case_match; [apply (IH (S (length s)) ltac:(simpl; lia) (z :: s)); done|].
    case_match; [apply (IH (length s) ltac:(simpl; lia) s); done|]. done.
Qed.

Lemma trim_end_blank s : is_blank s = true → trim_end s = [].
Proof. intros H. destruct s; [done|]. cbn [trim_end]. by rewrite H. Qed.

Lemma trim_end_cons b s : is_blank (b :: s) = false → trim_end (b :: s) = b :: trim_end s.
Proof. intros H. cbn [trim_end]. by rewrite H. Qed.

Lemma trim_end_prefix s : ∃ r, s = trim_end s ++ r ∧ is_blank r = true.
Proof.
  induction s as [|b s IH]; [by exists []|].
  destruct (is_blank (b :: s)) eqn:E; [exists (b :: s); by rewrite trim_end_blank|].
  rewrite trim_end_cons by done. destruct IH as (r & Hr & Hb). exists r. split; [|done]. simpl. by rewrite <- Hr.
Qed.

(** Texts without a blank suffix. *)
Definition ends_solid (s : str) : Prop := ∀ p r, s = p ++ r → r ≠ [] → is_blank r = false.

Lemma trim_end_solid s : ends_solid s → trim_end s = s.
Proof.
  intros Hs. destruct (trim_end_prefix s) as (r & Hr & Hb). destruct r as [|c r]; [by rewrite app_nil_r in Hr|].
  by rewrite (Hs _ _ Hr) in Hb.
Qed.

Lemma solid_last s b : blank_byte b = false → ends_solid (s ++ [b]).
Proof.
  intros Hb p r Hs Hr. destruct r as [|c r _] using rev_ind; [done|]. rewrite app_assoc in Hs.
  apply app_inj_2 in Hs as [_ [= <-]]; [|done]. destruct (is_blank (r ++ [b])) eqn:E; [|done].
  apply is_blank_last in E. congruence.
Qed.

Lemma is_blank_app s1 s2 : is_blank s1 = true → is_blank s2 = true → is_blank (s1 ++ s2) = true.
Proof.
  remember (length s1) as n eqn:Hn. revert s1 Hn. induction n as [n IH] using lt_wf_ind. intros s1 -> H1 H2.
  destruct s1 as [|x [|y [|z s]]]; cbn [app is_blank] in *.
  - done.
  - case_match; [|done]. done.
  - case_match; [apply (IH 1%nat ltac:(simpl; lia) [y]); done|]. case_match; [|done]. done.
  - case_match; [apply (IH (S (S (length s))) ltac:(simpl; lia) (y :: z :: s)); done|].
    case_match; [apply (IH (S (length s)) ltac:(simpl; lia) (z :: s)); done|].
    case_match; [apply (IH (length s) ltac:(simpl; lia) s); done|]. done.
Qed.

Lemma trim_end_ends_solid s : ends_solid (trim_end s).
Proof.
  induction s as [|b s IH]; [intros p r Hp Hr; by destruct p, r|].
  destruct (is_blank (b :: s)) eqn:E; [rewrite trim_end_blank by done; intros p r Hp Hr; by destruct p, r|].
  rewrite trim_end_cons by done. intros [|c p] r Hs Hr; simpl in Hs.
  - subst r. destruct (is_blank (b :: trim_end s)) eqn:Eb; [|done]. exfalso.
    destruct (trim_end_prefix s) as (r & Hr' & Hb). rewrite Hr' in E.
    change (is_blank ((b :: trim_end s) ++ r) = false) in E. rewrite is_blank_app in E by done. done.
  - injection Hs as -> Hs. by eapply IH.
Qed.

Lemma blank_char_Some s n : blank_char s = Some n → (0 < n ≤ length s)%nat ∧ is_blank (take n s) = true.
Proof.
  unfold blank_char. case_match eqn:E1.
  { intros [= <-]. apply andb_true_iff in E1 as [? E1]. apply negb_true_iff, bool_decide_eq_false in E1.
    destruct s; [done|]. simpl in *. split; [lia|done]. }
  case_match eqn:E2; [intros [= <-]; apply andb_true_iff in E2 as [? E2%Nat.leb_le]; split; [lia|done]|].
  case_match eqn:E3; [intros [= <-]; apply andb_true_iff in E3 as [? E3%Nat.leb_le]; split; [lia|done]|]. done.
Qed.

Lemma blank_char_None s : blank_char s = None ↔ ∀ n, (0 < n ≤ 3)%nat → (n ≤ length s)%nat → is_blank (take n s) = false.
Proof.
  unfold blank_char. split.
  - intros H n Hn Hl. destruct s as [|b s]; [simpl in Hl; lia|]. revert H.
    case_match eqn:E1; [done|]. case_match eqn:E2; [done|]. case_match eqn:E3; [done|]. intros _.
    rewrite bool_decide_eq_false_2, andb_true_r in E1 by done.
    assert (n = 1 ∨ n = 2 ∨ n = 3)%nat as [->|[->| ->]] by lia; [done| |].
    + by rewrite (proj2 (Nat.leb_le _ _) Hl), andb_true_r in E2.
    + by rewrite (proj2 (Nat.leb_le _ _) Hl), andb_true_r in E3.
  - intros H. destruct s as [|b s]; [done|]. rewrite (H 1%nat) by (simpl; lia). cbn [andb].
    destruct (2 <=? length (b :: s))%nat eqn:E2.
    + apply Nat.leb_le in E2. rewrite (H 2%nat) by lia. cbn [andb].
      destruct (3 <=? length (b :: s))%nat eqn:E3; [apply Nat.leb_le in E3; by rewrite (H 3%nat) by lia|].
      by rewrite andb_false_r.
    + rewrite andb_false_r. replace (3 <=? length (b :: s))%nat with false by (symmetry; apply Nat.leb_gt in E2; apply Nat.leb_gt; lia).
      by rewrite andb_false_r.
Qed.

Lemma trim_start_None n s : blank_char s = None → trim_start n s = s.
Proof. intros H. destruct n; simpl; [done|]. by rewrite H. Qed.

Lemma trim_start_spec n s :
  (length s ≤ n)%nat →
  blank_char (trim_start n s) = None ∧ ∃ p, s = p ++ trim_start n s ∧ is_blank p = true.
Proof.
  revert s. induction n as [|n IH]; intros s Hn; cbn [trim_start].
  { destruct s; [|simpl in Hn; lia]. split; [done|by exists []]. }
  destruct (blank_char s) as [k|] eqn:E; [|split; [done|by exists []]].
  apply blank_char_Some in E as [Hk Hb]. destruct (IH (drop k s)) as (Hn' & p & Hp & Hbp).
  { rewrite length_drop. lia. }
  split; [done|]. exists (take k s ++ p). split; [|by apply is_blank_app].
  rewrite <- app_assoc, <- Hp. symmetry. apply take_drop.
Qed.

(** A prefix starts with white space when the text does, unless it is too short. *)
Lemma blank_char_prefix p r : blank_char (p ++ r) = None → blank_char p = None.
Proof.
  rewrite !blank_char_None. intros H n Hn Hl. rewrite <- (H n Hn); [|rewrite length_app; lia].
  by rewrite take_app_le.
Qed.

Lemma trim_trimmed s : blank_char s = None → ends_solid s → trim s = s.
Proof. intros Hb Hs. unfold trim. rewrite trim_start_None by done. by apply trim_end_solid. Qed.

Lemma trim_spec s : blank_char (trim s) = None ∧ ends_solid (trim s).
Proof.
  unfold trim. destruct (trim_start_spec (length s) s) as (Hb & p & Hp & _); [done|].
  split; [|apply trim_end_ends_solid].
  destruct (trim_end_prefix (trim_start (length s) s)) as (r & Hr & _). rewrite Hr in Hb. by eapply blank_char_prefix.
Qed.

Lemma trim_trim s : trim (trim s) = trim s.
Proof. destruct (trim_spec s). by apply trim_trimmed. Qed.

Lemma trim_space s : trim (32 :: s) = trim s.
Proof. unfold trim. cbn [length trim_start]. by assert (blank_char (32 :: s) = Some 1%nat) as -> by done. Qed.

(** The text around a trimmed text is blank. *)
Lemma trim_split s : ∃ p r, s = p ++ trim s ++ r ∧ is_blank p = true ∧ is_blank r = true.
Proof.
  unfold trim. destruct (trim_start_spec (length s) s) as (_ & p & Hp & Hbp); [done|].
  destruct (trim_end_prefix (trim_start (length s) s)) as (r & Hr & Hbr).
  exists p, r. split_and!; [|done|done]. rewrite <- Hr. done.
Qed.

Lemma length_trim s : (length (trim s) ≤ length s)%nat.
Proof. destruct (trim_split s) as (p & r & E & _). rewrite E at 2. rewrite !length_app. lia. Qed.

(** A text that starts with an ASCII character that is no white space. *)
Lemma blank_char_ascii b s : blank_byte b = false → blank_char (b :: s) = None.
Proof.
  intros Hb. apply blank_char_None. intros n Hn _. destruct n as [|n]; [lia|]. cbn [take is_blank].
  unfold blank_byte in Hb. apply orb_false_iff in Hb as [Hb H128]. apply orb_false_iff in Hb as [Ha Hs].
  rewrite Ha, Hs. simpl. apply Z.leb_gt in H128.
  rewrite (proj2 (Z.eqb_neq b 194)), (proj2 (Z.eqb_neq b 225)), (proj2 (Z.eqb_neq b 226)), (proj2 (Z.eqb_neq b 227)) by lia.
  repeat case_match; done.
Qed.

(** What follows a text, if it is an ASCII character, does not make it start with white space. *)
Lemma blank_char_app s c r :
  s ≠ [] → blank_char s = None → 32 < c < 128 → blank_char (s ++ c :: r) = None.
Proof.
  rewrite !blank_char_None. intros Hne H Hc n Hn Hl.
  destruct (decide (n ≤ length s)%nat); [rewrite take_app_le by done; by apply H|].
  destruct s as [|x [|y [|z s]]]; [done|..|simpl in *; lia].
  - pose proof (H 1%nat ltac:(lia) ltac:(simpl; lia)) as H1. cbn [take is_blank] in H1.
    assert (((9 <=? x) && (x <=? 13)) || (x =? 32) = false) as Hx by (by rewrite bool_if in H1).
    destruct n as [|[|n]]; [lia|simpl in *; lia|]. cbn [app take is_blank]. rewrite Hx.
    rewrite (proj2 (Z.eqb_neq c 133)), (proj2 (Z.eqb_neq c 160)), (proj2 (Z.eqb_neq c 154)), (proj2 (Z.eqb_neq c 128)),
      (proj2 (Z.eqb_neq c 129)) by lia. rewrite !andb_false_r. simpl.
    destruct (take n r); [done|]. by rewrite ?andb_false_r, ?andb_false_l.
  - pose proof (H 1%nat ltac:(lia) ltac:(simpl; lia)) as H1. pose proof (H 2%nat ltac:(lia) ltac:(simpl; lia)) as H2.
    cbn [take is_blank] in H1, H2.
    assert (((9 <=? x) && (x <=? 13)) || (x =? 32) = false) as Hx by (by rewrite bool_if in H1). rewrite Hx in H2.
    assert ((x =? 194) && ((y =? 133) || (y =? 160)) = false) as Hy by (by rewrite bool_if in H2).
    assert (n = 3)%nat as -> by (simpl in *; lia). cbn [app take is_blank]. rewrite Hx, Hy.
    rewrite (proj2 (Z.eqb_neq c 128)), (proj2 (Z.leb_gt 128 c)), (proj2 (Z.eqb_neq c 168)), (proj2 (Z.eqb_neq c 169)),
      (proj2 (Z.eqb_neq c 175)), (proj2 (Z.eqb_neq c 159)) by lia. by rewrite !andb_false_r.
Qed.

(** *** Numbers *)

Lemma decimal_snoc ds d : decimal (ds ++ [d]) = decimal ds * 10 + digit_value d.
Proof. unfold decimal. by rewrite foldl_app. Qed.

Lemma string_bytes_cons a s : string_bytes (String a s) = Z.of_nat (Ascii.nat_of_ascii a) :: string_bytes s.
Proof. done. Qed.

Lemma pretty_char_digit n :
  (n < 10)%N → Z.of_nat (Ascii.nat_of_ascii (pretty_N_char n)) = 48 + Z.of_N n.
Proof.
  intros Hn. assert (n = 0 ∨ n = 1 ∨ n = 2 ∨ n = 3 ∨ n = 4 ∨ n = 5 ∨ n = 6 ∨ n = 7 ∨ n = 8 ∨ n = 9)%N as Hc by lia.
  repeat destruct Hc as [->|Hc]; try reflexivity. by rewrite Hc.
Qed.

Lemma pretty_go_digits x s :
  ∃ ds, string_bytes (pretty_N_go x s) = ds ++ string_bytes s ∧ all_digits ds = true
    ∧ decimal ds = Z.of_N x ∧ (x ≠ 0%N → ds ≠ []).
Proof.
  revert s. induction (N.lt_wf_0 x) as [x _ IH]. intros s. destruct (decide (x = 0)%N) as [->|Hx].
  { exists []. by rewrite pretty_N_go_0. }
  rewrite pretty_N_go_step by lia.
  destruct (IH (x `div` 10)%N ltac:(apply N.div_lt; lia) (String (pretty_N_char (x `mod` 10)) s))
    as (ds & -> & Hd & Hv & _).
  pose proof (N.mod_lt x 10 ltac:(done)) as Hm. pose proof (pretty_char_digit _ Hm) as Hc.
  exists (ds ++ [48 + Z.of_N (x `mod` 10)]). rewrite string_bytes_cons, Hc. split_and!.
  - by rewrite <- app_assoc.
  - unfold all_digits. rewrite forallb_app. apply andb_true_iff. split; [done|]. cbn [forallb].
    apply andb_true_iff. split; [|done]. apply andb_true_iff. clear - Hm.
    revert Hm. generalize (x `mod` 10)%N. intros d Hm. split; apply Z.leb_le; lia.
  - rewrite decimal_snoc, Hv. unfold digit_value. rewrite N2Z.inj_div, N2Z.inj_mod.
    pose proof (Z.div_mod (Z.of_N x) 10 ltac:(done)). change (Z.of_N 10) with 10. lia.
  - intros _ Hn. by apply app_nil in Hn as [_ ?].
Qed.

Lemma show_spec z : 0 ≤ z → all_digits (show z) = true ∧ show z ≠ [] ∧ decimal (show z) = z.
Proof.
  intros Hz. destruct z as [|p|p]; [done| |lia]. unfold show. change (pretty (Z.pos p)) with (pretty (N.pos p)).
  unfold pretty, pretty_N. rewrite decide_False by done.
  destruct (pretty_go_digits (N.pos p) "") as (ds & -> & Hd & Hv & Hn). rewrite app_nil_r. split_and!; [done|by apply Hn|done].
Qed.

Lemma parse_show w z : in_u w z → parse_unsigned w (show z) = Some z.
Proof.
  intros Hz. assert (0 ≤ z) as Hpos by (unfold in_u in Hz; lia). destruct (show_spec z Hpos) as (_ & Hn & Hv).
  unfold parse_unsigned. rewrite bool_decide_eq_false_2, Hv by done. by apply checked_u_Some.
Qed.

Lemma parse_unsigned_range w s v : parse_unsigned w s = Some v → in_u w v.
Proof. unfold parse_unsigned. case_bool_decide; [done|]. by intros [? ->]%checked_u_Some. Qed.

Lemma all_digits_elem s b : all_digits s = true → b ∈ s → 48 ≤ b ≤ 57.
Proof.
  unfold all_digits. rewrite forallb_forall. intros H Hb%list_elem_of_In%H.
  unfold is_ascii_digit in Hb. to_props. lia.
Qed.

Lemma show_inj y z : 0 ≤ y → 0 ≤ z → show y = show z → y = z.
Proof. intros Hy Hz E. rewrite <- (proj2 (proj2 (show_spec y Hy))), <- (proj2 (proj2 (show_spec z Hz))). by rewrite E. Qed.

Lemma trim_digits s : s ≠ [] → all_digits s = true → trim s = s.
Proof.
  intros Hn Hd. apply trim_trimmed.
  - destruct s as [|b s]; [done|]. apply blank_char_ascii.
    pose proof (all_digits_elem _ b Hd (list_elem_of_here _ _)). unfold blank_byte.
    rewrite (proj2 (Z.leb_gt b 13)), (proj2 (Z.eqb_neq b 32)), (proj2 (Z.leb_gt 128 b)) by lia. by rewrite andb_false_r.
  - destruct s as [|b s _] using rev_ind; [done|]. apply solid_last.
    pose proof (all_digits_elem _ b Hd ltac:(apply elem_of_app; right; apply list_elem_of_here)). unfold blank_byte.
    rewrite (proj2 (Z.leb_gt b 13)), (proj2 (Z.eqb_neq b 32)), (proj2 (Z.leb_gt 128 b)) by lia. by rewrite andb_false_r.
Qed.

Lemma trim_show z : 0 ≤ z → trim (show z) = show z.
Proof. intros Hz. destruct (show_spec z Hz) as (? & ? & _). by apply trim_digits. Qed.

(** *** Searching *)

Lemma find_byte_app b s r : b ∉ s → find_byte b (s ++ b :: r) = Some (length s).
Proof.
  intros Hb. unfold find_byte. rewrite list_find_app_r.
  - cbn [list_find]. by rewrite decide_True by done.
  - apply list_find_None, Forall_forall. intros x Hx ->. done.
Qed.
