(* ===== verification/Worklist.v ===== *)
(** * Worklists over a finite universe

    [closure_loop] is the worklist of [closure_from] (frontend/module_graph.rs) and of
    the reachability pass; [closure_loop_spec] shows that it ends and computes the
    least closed set.

    The measure that bounds the worklist loops of the compiler: every pop either
    meets a visited key and shrinks the stack, or visits a fresh key and pays for
    what it pushes with that key's weight. *)

From stdpp Require Import relations.
From S2P Require Import Prelude BTree.

Section weight.
Context {A K : Type} `{OrdKey K} (key : A → K) (w : A → nat).
Implicit Types (a : A) (k : K) (univ : list A) (visited : list K).

(** The total weight of the members of [univ] whose key is not visited yet. *)
Fixpoint weight_left univ visited : nat :=
  match univ with
  | [] => 0
  | a :: univ' =>
      (if bool_decide (key a ∈ visited) then 0 else w a) + weight_left univ' visited
  end.

Lemma weight_left_le univ v v' :
  (∀ k, k ∈ v → k ∈ v') → weight_left univ v' ≤ weight_left univ v.
Proof.
  intros Hs. induction univ as [|a univ IH]; simpl; [lia|].
  do 2 case_bool_decide; try lia. exfalso. auto.
Qed.

(** Visiting a fresh key releases the weight of its members. *)
Lemma weight_left_visit univ v v' a :
  a ∈ univ → key a ∉ v → (∀ k, k ∈ v → k ∈ v') → key a ∈ v' →
  weight_left univ v' + w a ≤ weight_left univ v.
Proof.
  intros Ha Hn Hs Hv. induction univ as [|x univ IH]; simpl.
  { by apply not_elem_of_nil in Ha. }
  pose proof (weight_left_le univ v v' Hs) as Hle.
  apply elem_of_cons in Ha as [->|Ha].
  - rewrite bool_decide_eq_true_2 by done. rewrite bool_decide_eq_false_2 by done. lia.
  - specialize (IH Ha). do 2 case_bool_decide; try lia. exfalso. auto.
Qed.

Lemma weight_left_total univ v : weight_left univ v ≤ sum_list_with w univ.
Proof. induction univ as [|x univ IH]; simpl; [lia|]. case_bool_decide; lia. Qed.
End weight.

(** ** Closing a set under successors *)

Section closure.
Context {K : Type} `{OrdKey K} (succ : K → list K).
Implicit Types (i : K) (stack closed : list K).

(** [while let Some(item) = pending.pop()]; the top of the stack is the head. *)
Fixpoint closure_loop (fuel : nat) (stack closed : list K) : option (list K) :=
  match fuel with
  | O => None
  | S fuel' =>
      match stack with
      | [] => Some closed
      | i :: stack' =>
          if bool_decide (i ∈ closed) then closure_loop fuel' stack' closed
          else closure_loop fuel' (reverse (succ i) ++ stack') (set_insert i closed)
      end
  end.

(** [i] follows, directly or not, from a root. *)
Definition closed_from (roots : list K) (i : K) : Prop :=
  ∃ r, r ∈ roots ∧ rtc (λ a b, b ∈ succ a) r i.

Lemma closed_from_step roots a b : closed_from roots a → b ∈ succ a → closed_from roots b.
Proof. intros (r & Hr & Ha) Hb. exists r. split; [done|]. by eapply rtc_r. Qed.

(** The invariant of the loop: everything seen follows from the roots, and
    everything to visit is on the stack. *)
Record closure_inv (roots stack closed : list K) : Prop := {
  ci_sorted : sorted_keys closed;
  ci_sound : ∀ i, i ∈ stack ∨ i ∈ closed → closed_from roots i;
  ci_roots : ∀ i, i ∈ roots → i ∈ stack ∨ i ∈ closed;
  ci_closed : ∀ a b, a ∈ closed → b ∈ succ a → b ∈ stack ∨ b ∈ closed;
}.

Lemma closure_inv_start roots : closure_inv roots roots [].
Proof.
  split; [constructor| | |].
  - intros i [Hi|Hi]; [|by apply not_elem_of_nil in Hi]. exists i. split; [done|]. apply rtc_refl.
  - intros i Hi. by left.
  - intros a b Ha. by apply not_elem_of_nil in Ha.
Qed.

Lemma closure_inv_skip roots i stack closed :
  closure_inv roots (i :: stack) closed → i ∈ closed → closure_inv roots stack closed.
Proof.
  intros [Hs Hsound Hr Hc] Hi. split; [done| | |].
  - intros j [Hj|Hj]; apply Hsound; [left; by apply list_elem_of_further|by right].
  - intros j Hj. destruct (Hr j Hj) as [[->|?]%elem_of_cons|?]; auto.
  - intros a b Ha Hb. destruct (Hc a b Ha Hb) as [[->|?]%elem_of_cons|?]; auto.
Qed.

Lemma closure_inv_visit roots i stack closed :
  closure_inv roots (i :: stack) closed →
  closure_inv roots (reverse (succ i) ++ stack) (set_insert i closed).
Proof.
  intros [Hs Hsound Hr Hc].
  assert (∀ j, j ∈ i :: stack ∨ j ∈ closed →
    j ∈ reverse (succ i) ++ stack ∨ j ∈ set_insert i closed) as Hkeep.
  { intros j. rewrite elem_of_cons, elem_of_app, elem_of_set_insert. tauto. }
  assert (closed_from roots i) as Hi by (apply Hsound; left; apply list_elem_of_here).
  split.
  - by apply set_insert_sorted.
  - intros j. rewrite elem_of_app, elem_of_reverse, elem_of_set_insert.
    intros [[Hj|Hj]|[->|Hj]]; [by eapply closed_from_step| |done|].
    + apply Hsound. left. by apply list_elem_of_further.
    + apply Hsound. by right.
  - intros j Hj. by apply Hkeep, Hr.
  - intros a b [->|Ha]%elem_of_set_insert Hb.
    + left. apply elem_of_app. left. by apply elem_of_reverse.
    + by apply Hkeep, (Hc a).
Qed.

(** At the end the result is exactly what the roots lead to. *)
Lemma closure_inv_final roots result :
  closure_inv roots [] result → ∀ i, i ∈ result ↔ closed_from roots i.
Proof.
  intros [_ Hsound Hr Hc] i. split; [intros Hi; apply Hsound; by right|].
  intros (r & Hroot & Hi). destruct (Hr r Hroot) as [Hin|Hin]; [by apply not_elem_of_nil in Hin|].
  clear Hroot. revert Hin. induction Hi as [a|a b c Hab _ IH]; [done|]. intros Ha. apply IH.
  destruct (Hc a b Ha Hab) as [Hn|]; [by apply not_elem_of_nil in Hn|done].
Qed.

(** Fuel for a universe [univ] that holds everything with successors. *)
Context {A : Type} (key : A → K) (w : A → nat) (univ : list A).
Context (succ_bound : ∀ i, succ i = [] ∨ ∃ a, a ∈ univ ∧ key a = i ∧ length (succ i) ≤ w a).

Lemma closure_loop_inv roots fuel stack closed :
  closure_inv roots stack closed → length stack + weight_left key w univ closed < fuel →
  ∃ result, closure_loop fuel stack closed = Some result ∧ closure_inv roots [] result.
Proof using succ_bound.
  revert stack closed. induction fuel as [|fuel IH]; intros stack closed HI Hf; [lia|].
  cbn [closure_loop]. destruct stack as [|i stack]; [by eexists|]. cbn [length] in Hf.
  case_bool_decide as Hi.
  - apply IH; [by eapply closure_inv_skip|lia].
  - apply IH; [by apply closure_inv_visit|]. rewrite length_app, length_reverse.
    assert (∀ k, k ∈ closed → k ∈ set_insert i closed) as Hkeep
      by (intros; apply elem_of_set_insert; auto).
    destruct (succ_bound i) as [->|(a & Ha & <- & Hl)].
    + pose proof (weight_left_le key w univ closed (set_insert i closed) Hkeep). cbn. lia.
    + pose proof (weight_left_visit key w univ closed (set_insert (key a) closed) a Ha Hi Hkeep) as Hw.
      rewrite elem_of_set_insert in Hw. specialize (Hw ltac:(auto)). lia.
Qed.

Lemma closure_loop_spec roots fuel :
  length roots + sum_list_with w univ < fuel →
  ∃ result, closure_loop fuel roots [] = Some result ∧ sorted_keys result ∧
            ∀ i, i ∈ result ↔ closed_from roots i.
Proof using succ_bound.
  intros Hf. destruct (closure_loop_inv roots fuel roots [] (closure_inv_start roots)) as (r & E & HI).
  - pose proof (weight_left_total key w univ []). lia.
  - exists r. split; [done|]. split; [apply HI|]. by apply closure_inv_final.
Qed.
End closure.
