(* ===== verification/Functions.v ===== *)
(** * Function metadata

    The compiler's records of functions and files
    ([crates/stasis_compiler/src/compiler.rs]), the reachability policy
    ([backend/mod.rs]), the primitive type ids ([frontend/types.rs]) and the host
    export signature ([host_exports.rs]) that the backend passes read. *)

From S2P Require Import Prelude BTree Identity.
#[local] Open Scope Z_scope.

Definition FunctionId := Z.          (* u32 *)
Definition TypeId := Z.              (* u16 *)

Definition TYPE_ID_VOID : TypeId := 0.
Definition TYPE_ID_I32 : TypeId := 1.
Definition TYPE_ID_F32 : TypeId := 2.
Definition TYPE_ID_BOOL : TypeId := 3.
Definition TYPE_ID_F64 : TypeId := 4.
Definition TYPE_ID_U8 : TypeId := 5.
Definition TYPE_ID_U16 : TypeId := 6.
Definition TYPE_ID_U32 : TypeId := 7.

Record HostExport := mkHostExport {
  he_name : str;
  he_parameters : list str;
  he_return_type : str;
}.

Record FunctionCallSite := mkCallSite { callee : FunctionId; cs_source_range : Z * Z }.

Record FunctionMeta := mkFunctionMeta {
  id : FunctionId;
  symbol_id : SymbolId;
  storage_index : Z;
  name : str;
  module_alias : str;
  name_hash : Z;
  file_id : Z;
  source_range : Z * Z;
  signature_range : Z * Z;
  signature_hash : Z;
  body_hash : Z;
  param_names : list str;
  params : list TypeId;
  return_type : TypeId;
  inline : bool;
  host_export : option HostExport;
  effect_contract : option (list str);
  requires_contract : option (list str);
  dependencies : list FunctionId;
  dependents : list FunctionId;
  call_sites : list FunctionCallSite;
  dirty : bool;
}.

Record SourceFile := mkSourceFile {
  sf_path : str;
  sf_content : str;
  sf_original_content : str;
  sf_hash : Z;
  sf_functions : list FunctionId;
}.

Inductive ReachabilityPolicy := Development | Release.

#[export] Instance ReachabilityPolicy_eq_dec : EqDecision ReachabilityPolicy.
Proof. solve_decision. Defined.

(** A compile-time-only helper: it has a [requires] contract. *)
Definition is_helper (f : FunctionMeta) : bool :=
  match requires_contract f with Some _ => true | None => false end.

(** [functions.iter().find(|function| function.id == id)] *)
Definition find_function (functions : list FunctionMeta) (i : FunctionId) : option FunctionMeta :=
  snd <$> list_find (λ f, id f = i) functions.

Lemma find_function_Some fs i f : find_function fs i = Some f → f ∈ fs ∧ id f = i.
Proof.
  unfold find_function. destruct (list_find _ fs) as [[j g]|] eqn:E; [|done].
  intros [= ->]. apply list_find_Some in E as (Hj & Hi & _).
  split; [by eapply list_elem_of_lookup_2|done].
Qed.

Lemma find_function_unique fs f : NoDup (id <$> fs) → f ∈ fs → find_function fs (id f) = Some f.
Proof.
  intros Hd Hf. destruct (find_function fs (id f)) as [g|] eqn:E.
  - apply find_function_Some in E as [Hg Hi]. f_equal. by apply (NoDup_fmap_elem id fs).
  - unfold find_function in E. destruct (list_find _ fs) eqn:E'; [done|].
    apply list_find_None in E'. rewrite Forall_forall in E'. by destruct (E' f Hf).
Qed.
