(* ===== verification/Reachability.v ===== *)
(** * Reachability of functions

    Models [crates/stasis_compiler/src/backend/reachability.rs]: the roots of a
    policy and the worklist that closes them under calls.  The worklist takes
    fuel; [reachable_exact] shows that the given fuel is enough and that the
    result is the least closed set. *)

From stdpp Require Import relations.
From S2P Require Import Prelude BTree Worklist Identity Functions.
#[local] Open Scope Z_scope.

(** ** Roots *)

Definition TICK : str := string_bytes "tick".
Definition ON_CODE_SWAP : str := string_bytes "on_code_swap".

Definition DEFAULT_ROOTS : list str :=
  [TICK; string_bytes "main"; string_bytes "render"; ON_CODE_SWAP;
   string_bytes "gfx_cmd_construction_reset"; string_bytes "gfx_cmd_construction_finish"].

Definition matches_root (function : FunctionMeta) (root_name : str) : bool :=
  bool_decide (name function = root_name) &&
  (if bool_decide (root_name = TICK) then bool_decide (params function = [])
   else if bool_decide (root_name = ON_CODE_SWAP) then
     bool_decide (params function = []) && (return_type function =? TYPE_ID_VOID)
   else true).

(** The functions a list of root names contributes. *)
Definition named_roots (functions : list FunctionMeta) (policy : ReachabilityPolicy)
    (names : list str) : list FunctionId :=
  concat ((λ root_name,
    if bool_decide (policy = Release) && bool_decide (root_name = ON_CODE_SWAP) then []
    else id <$> filter (λ f, is_helper f = false ∧ matches_root f root_name = true) functions)
    <$> names).

Definition roots_of (functions : list FunctionMeta) (required_emit_roots : list str)
    (policy : ReachabilityPolicy) : list FunctionId :=
  (id <$> filter (λ f, host_export f ≠ None) functions) ++
  named_roots functions policy DEFAULT_ROOTS ++
  named_roots functions policy required_emit_roots.

(** ** The worklist *)

(** A call of [d] is followed unless it names a compile-time-only helper. *)
Definition follows (functions : list FunctionMeta) (d : FunctionId) : bool :=
  match find_function functions d with
  | None => true
  | Some candidate => negb (is_helper candidate)
  end.

(** The calls of [i] that are followed. *)
Definition successors (functions : list FunctionMeta) (i : FunctionId) : list FunctionId :=
  match find_function functions i with
  | None => []
  | Some f => filter (λ d, follows functions d = true) (dependencies f)
  end.

(** [while let Some(function_id) = stack.pop()]: the worklist over the followed calls. *)
Definition reach_loop (fuel : nat) (functions : list FunctionMeta)
    (stack reachable : list FunctionId) : option (list FunctionId) :=
  closure_loop (successors functions) fuel stack reachable.

(** Every dependency is pushed at most once. *)
Definition reach_fuel (functions : list FunctionMeta) (roots : list FunctionId) : nat :=
  S (length roots + sum_list_with (λ f, length (dependencies f)) functions).

Definition compute_reachable_function_ids_with_policy (functions : list FunctionMeta)
    (required_emit_roots : list str) (policy : ReachabilityPolicy) : option (list FunctionId) :=
  let roots := roots_of functions required_emit_roots policy in
  if bool_decide (roots = []) && bool_decide (policy = Development)
  then Some (set_of_list (id <$> filter (λ f, is_helper f = false) functions))
  else reach_loop (reach_fuel functions roots) functions (reverse roots) [].

Definition compute_reachable_function_ids (functions : list FunctionMeta)
    (required_emit_roots : list str) : option (list FunctionId) :=
  compute_reachable_function_ids_with_policy functions required_emit_roots Development.

(** ** Specification *)

(** [i] is called, directly or not, from a root. *)
Definition reachable_from (functions : list FunctionMeta) (roots : list FunctionId)
    (i : FunctionId) : Prop :=
  ∃ r, r ∈ roots ∧ rtc (λ a b, b ∈ successors functions a) r i.

(** Only the functions of the program have successors. *)
Lemma successors_bound fs i :
  successors fs i = [] ∨
  ∃ f, f ∈ fs ∧ id f = i ∧ (length (successors fs i) ≤ length (dependencies f))%nat.
Proof.
  unfold successors. destruct (find_function fs i) as [f|] eqn:E; [|by left]. right. exists f.
  apply find_function_Some in E as [Hin <-]. split; [done|]. split; [done|]. apply length_filter.
Qed.

Lemma compute_reachable_spec fs required policy :
  let roots := roots_of fs required policy in
  ∃ result, compute_reachable_function_ids_with_policy fs required policy = Some result ∧
    sorted_keys result ∧
    ∀ i, i ∈ result ↔
      if bool_decide (roots = []) && bool_decide (policy = Development)
      then ∃ f, f ∈ fs ∧ is_helper f = false ∧ id f = i
      else reachable_from fs roots i.
Proof.
  intros roots. unfold compute_reachable_function_ids_with_policy. fold roots.
  destruct (_ && _) eqn:E.
  - eexists. split; [done|]. split; [apply set_of_list_sorted|]. intros i.
    rewrite elem_of_set_of_list, list_elem_of_fmap. setoid_rewrite list_elem_of_filter.
    split; [intros (f & -> & ? & ?); by exists f|intros (f & ? & ? & <-); by exists f].
  - destruct (closure_loop_spec (successors fs) id (λ f, length (dependencies f)) fs (successors_bound fs)
      (reverse roots) (reach_fuel fs roots)) as (result & Eresult & Hs & HI).
    { rewrite length_reverse. unfold reach_fuel. lia. }
    exists result. split; [done|]. split; [done|]. intros i. rewrite HI. unfold closed_from, reachable_from.
    by setoid_rewrite elem_of_reverse.
Qed.

(** ** Properties *)

Lemma elem_of_named_roots fs policy names i :
  i ∈ named_roots fs policy names ↔
  ∃ r f, r ∈ names ∧ ¬ (policy = Release ∧ r = ON_CODE_SWAP) ∧
    f ∈ fs ∧ is_helper f = false ∧ matches_root f r = true ∧ id f = i.
Proof.
  unfold named_roots. rewrite list_elem_of_In, in_concat. setoid_rewrite <- list_elem_of_In.
  setoid_rewrite list_elem_of_fmap. split.
  - intros (l & (r & -> & Hr) & Hi). destruct (_ && _) eqn:E; [by apply not_elem_of_nil in Hi|].
    apply list_elem_of_fmap in Hi as (f & -> & Hf). apply list_elem_of_filter in Hf as ([? ?] & ?).
    exists r, f. split_and!; try done. intros [-> ->]. by vm_compute in E.
  - intros (r & f & Hr & Hn & Hf & Hh & Hm & <-). eexists. split; [by exists r|].
    assert (bool_decide (policy = Release) && bool_decide (r = ON_CODE_SWAP) = false) as ->
      by (apply andb_false_iff; rewrite !bool_decide_eq_false; destruct (decide (policy = Release)); tauto).
    apply list_elem_of_fmap_2, list_elem_of_filter. done.
Qed.

Lemma elem_of_roots_of fs required policy i :
  i ∈ roots_of fs required policy ↔
  (∃ f, f ∈ fs ∧ host_export f ≠ None ∧ id f = i) ∨
  i ∈ named_roots fs policy DEFAULT_ROOTS ∨ i ∈ named_roots fs policy required.
Proof.
  unfold roots_of. rewrite !elem_of_app, list_elem_of_fmap. setoid_rewrite list_elem_of_filter.
  split.
  - intros [(f & -> & ? & ?)|?]; [left; by exists f|by right].
  - intros [(f & ? & ? & <-)|?]; [left; by exists f|by right].
Qed.

Lemma release_roots fs required i :
  i ∈ roots_of fs required Release → i ∈ roots_of fs required Development.
Proof.
  rewrite !elem_of_roots_of, !elem_of_named_roots.
  intros [?|[(r & f & ? & _ & ?)|(r & f & ? & _ & ?)]]; [by left|right..]; [left|right];
    exists r, f; (split; [done|]); split; [by intros [? _]|done|by intros [? _]|done].
Qed.


(** A helper is neither a root nor followed, so it is never reached. *)
Lemma reachable_from_not_helper fs roots f :
  NoDup (id <$> fs) → f ∈ fs → (∀ g, g ∈ fs → id g ∈ roots → is_helper g = false) →
  reachable_from fs roots (id f) → is_helper f = false.
Proof.
  intros Hd Hf Hroots (r & Hr & Hrtc). apply rtc_inv_r in Hrtc as [->|(a & _ & Ha)]; [by apply Hroots|].
  unfold successors in Ha. destruct (find_function fs a); [|by apply not_elem_of_nil in Ha].
  apply list_elem_of_filter in Ha as [Ha _]. unfold follows in Ha.
  rewrite (find_function_unique fs f Hd Hf) in Ha. by apply negb_true_iff in Ha.
Qed.

Lemma roots_not_helper fs required policy :
  NoDup (id <$> fs) → (∀ f, f ∈ fs → is_helper f = true → host_export f = None) →
  ∀ g, g ∈ fs → id g ∈ roots_of fs required policy → is_helper g = false.
Proof.
  intros Hd He g Hg. rewrite elem_of_roots_of, !elem_of_named_roots.
  intros [(f & Hf & Hh & Hi)|[(r & f & _ & _ & Hf & Hh & _ & Hi)|(r & f & _ & _ & Hf & Hh & _ & Hi)]];
    apply (NoDup_fmap_elem id fs f g Hd Hf Hg) in Hi as <-; [|done..].
  destruct (is_helper f) eqn:E; [|done]. by destruct Hh; apply He.
Qed.

(** A release build emits no function a development build of the same
    program leaves out, and neither emits a compile-time-only helper, when
    function ids are distinct and no helper is exported to the host. *)
Theorem release_within_development (functions : list FunctionMeta) (required : list str)
    (Hids : NoDup (id <$> functions))
    (Hexports : ∀ f, f ∈ functions → is_helper f = true → host_export f = None) :
  ∃ release development,
    compute_reachable_function_ids_with_policy functions required Release = Some release ∧
    compute_reachable_function_ids functions required = Some development ∧
    (∀ i, i ∈ release → i ∈ development) ∧
    ∀ f, f ∈ functions → id f ∈ development → is_helper f = false.
Proof.
  destruct (compute_reachable_spec functions required Release) as (release & Hr & _ & HR).
  destruct (compute_reachable_spec functions required Development) as (development & Hd & _ & HD).
  cbv zeta in HR, HD. setoid_rewrite andb_false_r in HR. rewrite andb_true_r in HD.
  exists release, development. split_and!; [done|done| |].
  - intros i. rewrite HR, HD. intros (r & Hin%release_roots & Hrtc).
    case_bool_decide as Hnil; simpl; [|by exists r]. rewrite Hnil in Hin. by apply not_elem_of_nil in Hin.
  - intros f Hf. rewrite HD. case_bool_decide; simpl.
    + intros (g & Hg & Hh & Hi). by apply (NoDup_fmap_elem id functions g f) in Hi as <-.
    + apply reachable_from_not_helper; [done..|]. by apply roots_not_helper.
Qed.

(** ** A program: [tick] calls [step], which calls the helper [need]; [orphan]
    is called by [on_code_swap] only. *)

Definition sample_function (i : FunctionId) (n : string) (helper : bool)
    (deps : list FunctionId) : FunctionMeta := {|
  id := i; symbol_id := mkSymbolId (string_bytes n);
  storage_index := 0; name := string_bytes n; module_alias := string_bytes "main"; name_hash := 0;
  file_id := 0; source_range := (0, 0); signature_range := (0, 0); signature_hash := 0;
  body_hash := 0; param_names := []; params := []; return_type := TYPE_ID_VOID; inline := false;
  host_export := None; effect_contract := None;
  requires_contract := if helper then Some [] else None;
  dependencies := deps; dependents := []; call_sites := []; dirty := false;
|}.

Definition sample_program : list FunctionMeta :=
  [sample_function 1 "tick" false [2; 9]; sample_function 2 "step" false [3];
   sample_function 3 "need" true []; sample_function 4 "on_code_swap" false [5];
   sample_function 5 "orphan" false []].

Example sample_reachable :
  compute_reachable_function_ids_with_policy sample_program [] Release = Some [1; 2; 9] ∧
  compute_reachable_function_ids sample_program [] = Some [1; 2; 4; 5; 9].
Proof. by vm_compute. Qed.

Lemma release_within_development_witness :
  NoDup (id <$> sample_program) ∧
  ∃ release development,
    compute_reachable_function_ids_with_policy sample_program [] Release = Some release ∧
    compute_reachable_function_ids sample_program [] = Some development ∧
    (∀ i, i ∈ release → i ∈ development) ∧
    ∀ f, f ∈ sample_program → id f ∈ development → is_helper f = false.
Proof.
  assert (NoDup (id <$> sample_program)) as Hd by (apply (bool_decide_unpack _); by vm_compute).
  split; [done|]. apply (release_within_development sample_program [] Hd).
  apply (Forall_forall (λ f, is_helper f = true → host_export f = None)). by repeat constructor.
Defined.
