(* ===== verification/PatchGraph.v ===== *)
(** * The function graph of a patch plan

    Models the data and the current graph of
    [crates/stasis_compiler/src/backend/patch_plan.rs]: stable function keys,
    [CurrentGraph::build] and [strongly_connected_components] (Kosaraju's
    algorithm with explicit stacks).  The end of the file proves the components exact and
    [PatchPlan.v] models and verifies the planner. *)

From stdpp Require Import relations.
From S2P Require Import Prelude BTree Worklist Identity Functions Reachability.
#[local] Open Scope Z_scope.

Definition LIFECYCLE_ROOTS : list str :=
  [string_bytes "main"; TICK; string_bytes "render"; ON_CODE_SWAP].

(** ** Keys *)

Record FunctionKey := mkFunctionKey { fk_symbol_id : SymbolId; fk_name : str }.

(** The derived order: the symbol first, then the name. *)
Definition function_key_view (k : FunctionKey) : str * str :=
  (canonical (fk_symbol_id k), fk_name k).

Lemma function_key_view_inj k k' : function_key_view k = function_key_view k' → k = k'.
Proof. destruct k as [[] ?], k' as [[] ?]. by intros [= -> ->]. Qed.

#[export] Instance FunctionKey_ord : OrdKey FunctionKey :=
  ord_via function_key_view function_key_view_inj.

Definition from_function (function : FunctionMeta) : FunctionKey :=
  mkFunctionKey (symbol_id function) (name function).

Definition display_name (k : FunctionKey) : str := canonical (fk_symbol_id k).

(** ** Data *)

Record AcceptedFunction := mkAcceptedFunction {
  af_key : FunctionKey;
  af_body_hash : Z;
  af_dependencies : list FunctionKey;
}.

Record AcceptedProgram := mkAcceptedProgram {
  ap_functions : list (FunctionKey * AcceptedFunction);
  ap_reachable : list FunctionKey;
}.

Inductive PatchReason :=
| ColdStart
| BodyChanged
| AddedOrSignatureChanged
| BecameReachable
| CompilerLayoutChanged
| LoweredContractChanged
| SccPeer (changed : FunctionKey)
| DirectCaller (callee : FunctionKey).

Record PatchReasonChain := mkReason {
  pr_function : FunctionKey;
  pr_reason : PatchReason;
  path_from_change : list FunctionKey;
}.

Record PatchPlan := mkPatchPlan {
  cold_start : bool;
  changed : list FunctionKey;
  re_jit_ids : list FunctionId;
  re_jit : list FunctionKey;
  reused : list FunctionKey;
  retained_dependencies : list FunctionKey;
  affected_host_entries : list FunctionKey;
  removed : list FunctionKey;
  reasons : list PatchReasonChain;
}.

Definition reason_for (p : PatchPlan) (k : FunctionKey) : option PatchReasonChain :=
  snd <$> list_find (λ r, pr_function r = k) (reasons p).

Record CurrentFunction := mkCurrentFunction {
  cf_id : FunctionId;
  cf_body_hash : Z;
  cf_dependencies : list FunctionKey;
  compile_time_only : bool;
}.

Record CurrentGraph := mkCurrentGraph {
  by_key : list (FunctionKey * CurrentFunction);
  reachable : list FunctionKey;
  reverse_calls : list (FunctionKey * list FunctionKey);
  host_entries : list FunctionKey;
  scc_index_by_key : list (FunctionKey * nat);
  sccs : list (list FunctionKey);
}.

(** ** Strongly connected components *)

(** The keys a function depends on; none when the key is unknown. *)
Definition dependencies_of (functions : list (FunctionKey * CurrentFunction)) (k : FunctionKey)
    : list FunctionKey :=
  match map_get k functions with Some f => cf_dependencies f | None => [] end.

(** The first search from one start: the top of the stack is its head, and
    [finish] grows at its end. *)
Fixpoint finish_loop (fuel : nat) (functions : list (FunctionKey * CurrentFunction))
    (reach : list FunctionKey) (stack : list (FunctionKey * bool)) (visited finish : list FunctionKey)
    : option (list FunctionKey * list FunctionKey) :=
  match fuel with
  | O => None
  | S fuel' =>
      match stack with
      | [] => Some (visited, finish)
      | (key, true) :: stack' => finish_loop fuel' functions reach stack' visited (finish ++ [key])
      | (key, false) :: stack' =>
          if bool_decide (key ∈ visited) then finish_loop fuel' functions reach stack' visited finish
          else
            let visited' := set_insert key visited in
            let pushed := filter (λ d, d ∈ reach ∧ d ∉ visited') (dependencies_of functions key) in
            finish_loop fuel' functions reach
              (((λ d, (d, false)) <$> pushed) ++ (key, true) :: stack') visited' finish
      end
  end.

Definition finish_fuel (functions : list (FunctionKey * CurrentFunction)) (reach : list FunctionKey)
    : nat :=
  S (S (sum_list_with (λ k, S (length (dependencies_of functions k))) reach)).

(** [for start in reachable] *)
Fixpoint finish_starts (functions : list (FunctionKey * CurrentFunction)) (reach starts : list FunctionKey)
    (visited finish : list FunctionKey) : option (list FunctionKey * list FunctionKey) :=
  match starts with
  | [] => Some (visited, finish)
  | start :: starts' =>
      if bool_decide (start ∈ visited) then finish_starts functions reach starts' visited finish
      else
        '(visited', finish') ←
          finish_loop (finish_fuel functions reach) functions reach [(start, false)] visited finish;
        finish_starts functions reach starts' visited' finish'
  end.

(** [reverse.entry(callee).or_default().insert(caller)] *)
Definition add_caller (caller : FunctionKey) (m : list (FunctionKey * list FunctionKey))
    (callee : FunctionKey) : list (FunctionKey * list FunctionKey) :=
  map_insert callee (set_insert caller (default [] (map_get callee m))) m.

Definition reverse_of (functions : list (FunctionKey * CurrentFunction)) (reach : list FunctionKey)
    : list (FunctionKey * list FunctionKey) :=
  foldl (λ m e,
    if bool_decide (e.1 ∈ reach)
    then foldl (add_caller e.1) m (filter (λ d, d ∈ reach) (cf_dependencies e.2))
    else m) [] functions.

(** One caller of the second search: (assigned, component, stack). *)
Definition assign_caller (st : list FunctionKey * list FunctionKey * list FunctionKey)
    (caller : FunctionKey) : list FunctionKey * list FunctionKey * list FunctionKey :=
  let '(assigned, component, stack) := st in
  if bool_decide (caller ∈ assigned) then st
  else (set_insert caller assigned, set_insert caller component, caller :: stack).

Fixpoint component_loop (fuel : nat) (rev : list (FunctionKey * list FunctionKey))
    (stack assigned component : list FunctionKey) : option (list FunctionKey * list FunctionKey) :=
  match fuel with
  | O => None
  | S fuel' =>
      match stack with
      | [] => Some (assigned, component)
      | key :: stack' =>
          let '(assigned', component', stack'') :=
            foldl assign_caller (assigned, component, stack')
              (reverse (default [] (map_get key rev))) in
          component_loop fuel' rev stack'' assigned' component'
      end
  end.

(** [for start in finish_order.into_iter().rev()] *)
Fixpoint component_starts (fuel : nat) (rev : list (FunctionKey * list FunctionKey))
    (starts assigned : list FunctionKey) (components : list (list FunctionKey))
    : option (list (list FunctionKey)) :=
  match starts with
  | [] => Some components
  | start :: starts' =>
      if bool_decide (start ∈ assigned) then component_starts fuel rev starts' assigned components
      else
        '(assigned', component) ←
          component_loop fuel rev [start] (set_insert start assigned) [start];
        component_starts fuel rev starts' assigned' (components ++ [component])
  end.

(** [for (index, component) in components.iter().enumerate()] *)
Fixpoint index_components (index : nat) (components : list (list FunctionKey))
    (m : list (FunctionKey * nat)) : list (FunctionKey * nat) :=
  match components with
  | [] => m
  | c :: components' =>
      index_components (S index) components' (foldl (λ m k, map_insert k index m) m c)
  end.

Definition strongly_connected_components (functions : list (FunctionKey * CurrentFunction))
    (reach : list FunctionKey) : option (list (FunctionKey * nat) * list (list FunctionKey)) :=
  '(_, finish_order) ← finish_starts functions reach reach [] [];
  components ← component_starts (S (S (length reach))) (reverse_of functions reach)
    (reverse finish_order) [] [];
  Some (index_components 0 components [], components).

(** ** The current graph *)

Definition missing_file (function : FunctionMeta) : str :=
  string_bytes "function '" ++ name function ++ string_bytes "' references missing source file".

Definition no_stable_key (function : FunctionMeta) : str :=
  string_bytes "function '" ++ name function ++ string_bytes "' has no stable key".

Fixpoint collect_keys (files : list SourceFile) (functions : list FunctionMeta)
    (key_by_id : list (FunctionId * FunctionKey)) : Result (list (FunctionId * FunctionKey)) str :=
  match functions with
  | [] => Ok key_by_id
  | f :: functions' =>
      match files !! Z.to_nat (file_id f) with
      | None => Err (missing_file f)
      | Some _ => collect_keys files functions' (map_insert (id f) (from_function f) key_by_id)
      end
  end.

Definition keys_of_ids (key_by_id : list (FunctionId * FunctionKey)) (ids : list FunctionId)
    : list FunctionKey :=
  set_of_list (omap (λ i, map_get i key_by_id) ids).

Definition compute_host_entries (functions : list FunctionMeta) (required_roots : list str)
    (key_by_id : list (FunctionId * FunctionKey)) : list FunctionKey :=
  let required_names := set_of_list (LIFECYCLE_ROOTS ++ required_roots) in
  keys_of_ids key_by_id
    (id <$> filter (λ f, is_helper f = false ∧ name f ∈ required_names ∧
        existsb (matches_root f) (LIFECYCLE_ROOTS ++ required_roots) = true) functions).

Definition current_function (key_by_id : list (FunctionId * FunctionKey)) (f : FunctionMeta)
    : CurrentFunction :=
  mkCurrentFunction (id f) (body_hash f) (keys_of_ids key_by_id (dependencies f)) (is_helper f).

(** The loop that fills [by_key] and [reverse]. *)
Fixpoint index_functions (key_by_id : list (FunctionId * FunctionKey)) (functions : list FunctionMeta)
    (keyed : list (FunctionKey * CurrentFunction)) (rev : list (FunctionKey * list FunctionKey))
    : Result (list (FunctionKey * CurrentFunction) * list (FunctionKey * list FunctionKey)) str :=
  match functions with
  | [] => Ok (keyed, rev)
  | f :: functions' =>
      match map_get (id f) key_by_id with
      | None => Err (no_stable_key f)
      | Some key =>
          let current := current_function key_by_id f in
          index_functions key_by_id functions' (map_insert key current keyed)
            (foldl (add_caller key) rev (cf_dependencies current))
      end
  end.

(** [None] is a loop that ran out of fuel; [build_total] excludes it. *)
Definition CurrentGraph_build (functions : list FunctionMeta) (files : list SourceFile)
    (required_roots : list str) : option (Result CurrentGraph str) :=
  match collect_keys files functions [] with
  | Err e => Some (Err e)
  | Ok key_by_id =>
      reachable_ids ← compute_reachable_function_ids functions required_roots;
      let reach := keys_of_ids key_by_id reachable_ids in
      let entries := compute_host_entries functions required_roots key_by_id in
      match index_functions key_by_id functions [] [] with
      | Err e => Some (Err e)
      | Ok (keyed, rev) =>
          '(index, components) ← strongly_connected_components keyed reach;
          Some (Ok (mkCurrentGraph keyed reach rev entries index components))
      end
  end.

#[local] Close Scope Z_scope.

(** ** The components are the classes of mutual calls

    The correctness of [strongly_connected_components] (PatchGraph.v): the first
    search finishes every reachable key in an order that respects calls, and the
    second collects exactly the keys that call each other. *)
#[local] Set Warnings "-clear-no-such-hyp".

(** *** The callers recorded in a reversed graph *)

Definition callers_in (m : list (FunctionKey * list FunctionKey)) (k : FunctionKey) : list FunctionKey :=
  default [] (map_get k m).

Lemma add_callers_spec (a : FunctionKey) m ds :
  sorted_map m →
  sorted_map (foldl (add_caller a) m ds) ∧
  ∀ c k, c ∈ callers_in (foldl (add_caller a) m ds) k ↔ c ∈ callers_in m k ∨ (c = a ∧ k ∈ ds).
Proof.
  revert m. induction ds as [|d ds IH]; intros m Hm; cbn [foldl].
  - split; [done|]. intros c k. rewrite elem_of_nil. tauto.
  - destruct (IH (add_caller a m d)) as [Hs Hc]; [by apply map_insert_sorted|]. split; [done|].
    intros c k. rewrite Hc, elem_of_cons. unfold callers_in, add_caller.
    destruct (decide (k = d)) as [->|Hne].
    + rewrite map_get_insert. simpl. rewrite elem_of_set_insert. naive_solver.
    + rewrite map_get_insert_ne by done. naive_solver.
Qed.

Section scc.
Context (functions : list (FunctionKey * CurrentFunction)) (reach : list FunctionKey).
Implicit Types (x y a b k u s : FunctionKey) (stack : list (FunctionKey * bool)).

(** [a] calls [b], both reachable. *)
Definition calls a b : Prop := a ∈ reach ∧ b ∈ reach ∧ b ∈ dependencies_of functions a.

Definition calls_rtc : FunctionKey → FunctionKey → Prop := rtc calls.

(** They call each other, directly or not. *)
Definition mutual a b : Prop := calls_rtc a b ∧ calls_rtc b a.

#[export] Instance calls_rtc_preorder : PreOrder calls_rtc.
Proof. unfold calls_rtc. apply _. Qed.

#[export] Instance mutual_equivalence : Equivalence mutual.
Proof.
  split; unfold mutual.
  - intros x. done.
  - intros x y [? ?]. done.
  - intros x y z [? ?] [? ?]. split; etrans; eassumption.
Qed.

Lemma calls_rtc_once a b : calls a b → calls_rtc a b.
Proof. apply rtc_once. Qed.

(** *** The first search *)

(** Below an expanded key, everything it calls is visited or waits above it. *)
Fixpoint waiting (visited above : list FunctionKey) stack : Prop :=
  match stack with
  | [] => True
  | (k, false) :: stack' => waiting visited (k :: above) stack'
  | (k, true) :: stack' =>
      (∀ b, calls k b → b ∈ visited ∨ b ∈ above) ∧ waiting visited above stack'
  end.

Lemma waiting_mono v v' above above' stack :
  (∀ x, x ∈ v ∨ x ∈ above → x ∈ v' ∨ x ∈ above') → waiting v above stack → waiting v' above' stack.
Proof.
  revert above above'. induction stack as [|[k []] stack IH]; intros above above' Hm; simpl; [done|..].
  - intros [Hk Hs]. split; [intros b Hb; by apply Hm, Hk|]. by apply (IH above).
  - apply IH. intros x. rewrite !elem_of_cons. specialize (Hm x). tauto.
Qed.

Lemma waiting_push v above l stack :
  waiting v above (((λ d, (d, false)) <$> l) ++ stack) ↔ waiting v (reverse l ++ above) stack.
Proof.
  revert above. induction l as [|d l IH]; intros above; [done|]. rewrite fmap_cons. simpl. rewrite IH.
  by rewrite reverse_cons, <- app_assoc.
Qed.

Definition expanded stack : list FunctionKey := (filter (λ e, e.2 = true) stack).*1.

Lemma elem_of_expanded k stack : k ∈ expanded stack ↔ (k, true) ∈ stack.
Proof.
  unfold expanded. rewrite list_elem_of_fmap. setoid_rewrite list_elem_of_filter. split.
  - intros ([k' b] & -> & Hb & Hin). cbn in *. by rewrite <- Hb.
  - intros Hin. by exists (k, true).
Qed.

(** What is called from a prefix of the finish order is in the prefix, or calls
    back the last key of the prefix. *)
Definition finish_ordered (finish : list FunctionKey) : Prop :=
  ∀ l1 u l2, finish = l1 ++ u :: l2 →
    ∀ a b, a ∈ l1 ++ [u] → calls a b → b ∈ l1 ++ [u] ∨ calls_rtc b u.

Record dfs_inv stack (visited finish : list FunctionKey) : Prop := {
  d_visited : ∀ x, x ∈ visited ↔ x ∈ finish ∨ (x, true) ∈ stack;
  d_reach : ∀ x, x ∈ visited ∨ x ∈ stack.*1 → x ∈ reach;
  d_nodup : NoDup (finish ++ expanded stack);
  d_path : StronglySorted (λ e e', e'.2 = true → calls_rtc e'.1 e.1) stack;
  d_wait : waiting visited [] stack;
  d_closed : ∀ a b, a ∈ finish → calls a b → b ∈ visited;
  d_order : finish_ordered finish;
}.

(** Everything expanded below the top of the stack calls the top. *)
Lemma dfs_path_top e stack visited finish x :
  dfs_inv (e :: stack) visited finish → (x, true) ∈ stack → calls_rtc x e.1.
Proof.
  intros HI Hx. pose proof (d_path _ _ _ HI) as Hp. inversion_clear Hp as [|? ? _ Hall].
  rewrite Forall_forall in Hall. by apply (Hall (x, true)).
Qed.

Lemma finish_ordered_snoc finish k stack visited :
  dfs_inv ((k, true) :: stack) visited finish → finish_ordered (finish ++ [k]).
Proof.
  intros HI l1 u l2 Heq a b Ha Hab. destruct l2 as [|w l2 _] using rev_ind.
  - apply app_inj_tail in Heq as [<- <-].
    assert (b ∈ visited) as Hb.
    { apply elem_of_app in Ha as [Ha|Ha%list_elem_of_singleton]; [by eapply (d_closed _ _ _ HI a)|].
      subst a. destruct (d_wait _ _ _ HI) as [Hk _].
      by destruct (Hk b Hab) as [?|?%not_elem_of_nil]. }
    rewrite (d_visited _ _ _ HI), elem_of_cons in Hb. destruct Hb as [Hb|[[= ->]|Hb]].
    + left. apply elem_of_app. by left.
    + by right.
    + right. by apply (dfs_path_top _ _ _ _ _ HI) in Hb.
  - rewrite app_comm_cons, app_assoc in Heq. apply app_inj_tail in Heq as [-> ->].
    by apply (d_order _ _ _ HI l1 u l2 eq_refl a b).
Qed.

Lemma dfs_inv_finish k stack visited finish :
  dfs_inv ((k, true) :: stack) visited finish → dfs_inv stack visited (finish ++ [k]).
Proof.
  intros HI. pose proof (d_wait _ _ _ HI) as [Hk Hw]. split.
  - intros x. rewrite (d_visited _ _ _ HI), elem_of_app, elem_of_cons, list_elem_of_singleton.
    naive_solver.
  - intros x Hx. apply (d_reach _ _ _ HI). rewrite fmap_cons, elem_of_cons. tauto.
  - pose proof (d_nodup _ _ _ HI) as Hn. by rewrite <- app_assoc.
  - pose proof (d_path _ _ _ HI) as Hp. by inversion_clear Hp.
  - done.
  - intros a b [Ha|Ha%list_elem_of_singleton]%elem_of_app Hab; [by eapply (d_closed _ _ _ HI)|].
    subst a. by destruct (Hk b Hab) as [?|?%not_elem_of_nil].
  - by apply finish_ordered_snoc in HI.
Qed.

Lemma dfs_inv_skip k stack visited finish :
  dfs_inv ((k, false) :: stack) visited finish → k ∈ visited → dfs_inv stack visited finish.
Proof.
  intros HI Hk. split; try apply HI.
  - intros x. rewrite (d_visited _ _ _ HI), elem_of_cons. naive_solver.
  - intros x Hx. apply (d_reach _ _ _ HI). rewrite fmap_cons, elem_of_cons. tauto.
  - pose proof (d_path _ _ _ HI) as Hp. by inversion_clear Hp.
  - pose proof (d_wait _ _ _ HI) as Hw. simpl in Hw. eapply waiting_mono, Hw.
    intros x. rewrite elem_of_cons. intros [?|[->|?]]; auto.
Qed.

Lemma expanded_push l k stack :
  expanded (((λ d, (d, false)) <$> l) ++ (k, true) :: stack) = k :: expanded stack.
Proof.
  induction l as [|d l IH]; [done|]. rewrite fmap_cons. exact IH.
Qed.

Lemma path_push l k stack :
  Forall (calls k) l → StronglySorted (λ e e', e'.2 = true → calls_rtc e'.1 e.1) ((k, true) :: stack) →
  StronglySorted (λ e e', e'.2 = true → calls_rtc e'.1 e.1)
    (((λ d, (d, false)) <$> l) ++ (k, true) :: stack).
Proof.
  intros Hl Hs. induction Hl as [|d l Hd Hl IH]; [done|]. rewrite fmap_cons. simpl.
  constructor; [exact IH|]. apply Forall_app. split.
  - apply Forall_fmap, Forall_true. by intros ? [=].
  - inversion_clear Hs as [|? ? _ Hall]. constructor; [intros _; by apply calls_rtc_once|].
    eapply Forall_impl; [exact Hall|]. cbn. intros e He Ht. etrans; [by apply He|].
    by apply calls_rtc_once.
Qed.

Definition pushed k visited : list FunctionKey :=
  filter (λ d, d ∈ reach ∧ d ∉ set_insert k visited) (dependencies_of functions k).

Lemma dfs_inv_visit k stack visited finish :
  dfs_inv ((k, false) :: stack) visited finish → k ∉ visited →
  dfs_inv (((λ d, (d, false)) <$> pushed k visited) ++ (k, true) :: stack)
    (set_insert k visited) finish.
Proof.
  intros HI Hk. assert (k ∈ reach) as Hkr.
  { apply (d_reach _ _ _ HI). right. apply list_elem_of_here. }
  assert (Forall (calls k) (pushed k visited)) as Hpush.
  { apply Forall_forall. intros d [[? _] ?]%list_elem_of_filter. done. }
  split.
  - intros x. rewrite elem_of_set_insert, (d_visited _ _ _ HI), elem_of_app, list_elem_of_fmap.
    rewrite !elem_of_cons. naive_solver.
  - intros x. rewrite elem_of_set_insert, fmap_app, elem_of_app, fmap_cons, elem_of_cons.
    rewrite <- list_fmap_compose, list_elem_of_fmap.
    intros [[->|Hx]|[(d & -> & Hd)|[->|Hx]]]; [done| |rewrite Forall_forall in Hpush; by apply Hpush|done|].
    + apply (d_reach _ _ _ HI). by left.
    + apply (d_reach _ _ _ HI). right. by apply list_elem_of_further.
  - rewrite expanded_push. pose proof (d_nodup _ _ _ HI) as Hn.
    rewrite <- Permutation_middle. constructor; [|done].
    rewrite elem_of_app, elem_of_expanded. intros Hin. apply Hk, (d_visited _ _ _ HI).
    rewrite elem_of_cons. tauto.
  - apply path_push; [done|]. pose proof (d_path _ _ _ HI) as Hp.
    inversion_clear Hp as [|? ? Hs Hall]. by constructor.
  - rewrite waiting_push, app_nil_r. pose proof (d_wait _ _ _ HI) as Hw. simpl in Hw. split.
    + intros b (_ & Hb & Hdep). destruct (decide (b ∈ set_insert k visited)) as [|Hn]; [by left|].
      right. apply elem_of_reverse, list_elem_of_filter. done.
    + eapply waiting_mono, Hw. intros x. rewrite elem_of_set_insert, list_elem_of_singleton. tauto.
  - intros a b Ha Hab. apply elem_of_set_insert. right. by eapply (d_closed _ _ _ HI).
  - apply (d_order _ _ _ HI).
Qed.

(** *** Enough fuel for the first search *)

Definition dfs_weight k : nat := S (length (dependencies_of functions k)).
Definition dfs_left (visited : list FunctionKey) : nat :=
  weight_left (λ k, k) dfs_weight reach visited.

Lemma dfs_left_visit k visited :
  k ∈ reach → k ∉ visited → dfs_left (set_insert k visited) + dfs_weight k ≤ dfs_left visited.
Proof.
  intros Hk Hv. apply (weight_left_visit (λ k, k)); [done|done| |].
  - intros x Hx. apply elem_of_set_insert. by right.
  - apply elem_of_set_insert. by left.
Qed.

Lemma pushed_length k visited : length (pushed k visited) < dfs_weight k.
Proof. apply le_n_S, length_filter. Qed.

Lemma finish_loop_spec fuel stack visited finish :
  dfs_inv stack visited finish → length stack + dfs_left visited < fuel →
  ∃ visited' finish', finish_loop fuel functions reach stack visited finish = Some (visited', finish') ∧
    dfs_inv [] visited' finish' ∧ ∀ x, x ∈ visited ∨ x ∈ stack.*1 → x ∈ visited'.
Proof.
  revert stack visited finish. induction fuel as [|fuel IH]; intros stack visited finish HI Hf; [lia|].
  cbn [finish_loop]. destruct stack as [|[k []] stack]; cbn [length] in Hf.
  - eexists _, _. split; [done|]. split; [done|]. intros x [?|?%not_elem_of_nil]; done.
  - destruct (IH stack visited (finish ++ [k])) as (v' & f' & E & HI' & Hm);
      [by apply dfs_inv_finish|lia|].
    eexists _, _. split; [done|]. split; [done|]. intros x. rewrite fmap_cons, elem_of_cons.
    intros [?|[->|?]]; apply Hm; [by left| |by right]. left. apply (d_visited _ _ _ HI). right.
    apply list_elem_of_here.
  - case_bool_decide as Hk.
    + destruct (IH stack visited finish) as (v' & f' & E & HI' & Hm);
        [by eapply dfs_inv_skip|lia|].
      eexists _, _. split; [done|]. split; [done|]. intros x. rewrite fmap_cons, elem_of_cons.
      intros [?|[->|?]]; apply Hm; auto.
    + pose proof (dfs_inv_visit _ _ _ _ HI Hk) as HI1. assert (k ∈ reach) as Hkr.
      { apply (d_reach _ _ _ HI). right. apply list_elem_of_here. }
      pose proof (dfs_left_visit k visited Hkr Hk). pose proof (pushed_length k visited).
      destruct (IH _ _ _ HI1) as (v' & f' & E & HI' & Hm).
      { rewrite length_app, length_fmap. cbn [length]. lia. }
      eexists _, _. split; [exact E|]. split; [done|]. intros x. rewrite fmap_cons, elem_of_cons.
      intros Hx. apply Hm. rewrite elem_of_set_insert, fmap_app, elem_of_app, fmap_cons, elem_of_cons.
      cbn in Hx |- *. tauto.
Qed.

Lemma finish_starts_spec starts visited finish :
  dfs_inv [] visited finish → (∀ x, x ∈ starts → x ∈ reach) →
  ∃ visited' finish', finish_starts functions reach starts visited finish = Some (visited', finish') ∧
    dfs_inv [] visited' finish' ∧ ∀ x, x ∈ visited ∨ x ∈ starts → x ∈ visited'.
Proof.
  revert visited finish. induction starts as [|s starts IH]; intros visited finish HI Hs; cbn [finish_starts].
  - eexists _, _. split; [done|]. split; [done|]. intros x [?|?%not_elem_of_nil]; done.
  - assert (∀ x, x ∈ starts → x ∈ reach) as Hs' by (intros; apply Hs; by apply list_elem_of_further).
    case_bool_decide as Hv.
    + destruct (IH visited finish HI Hs') as (v' & f' & E & HI' & Hm). eexists _, _.
      split; [done|]. split; [done|]. intros x. rewrite elem_of_cons. intros [?|[->|?]]; auto.
    + destruct (finish_loop_spec (finish_fuel functions reach) [(s, false)] visited finish)
        as (v1 & f1 & -> & HI1 & Hm1).
      * split; try apply HI.
        -- intros x. rewrite (d_visited _ _ _ HI), list_elem_of_singleton, elem_of_nil. naive_solver.
        -- intros x [?| ->%list_elem_of_singleton]; [apply (d_reach _ _ _ HI); by left|].
           apply Hs, list_elem_of_here.
        -- repeat constructor.
      * cbn [length]. unfold finish_fuel.
        pose proof (weight_left_total (λ k, k) dfs_weight reach visited). unfold dfs_left, dfs_weight in *.
        lia.
      * cbn [mbind option_bind]. destruct (IH v1 f1 HI1 Hs') as (v' & f' & E & HI' & Hm). eexists _, _.
        split; [exact E|]. split; [done|]. intros x. rewrite elem_of_cons.
        intros [?|[->|?]]; apply Hm; [left; apply Hm1; by left|left; apply Hm1|by right].
        right. apply list_elem_of_here.
Qed.

(** The finish order lists every reachable key once and is ordered. *)
Lemma finish_order_spec :
  ∃ visited finish, finish_starts functions reach reach [] [] = Some (visited, finish) ∧
    NoDup finish ∧ (∀ x, x ∈ finish ↔ x ∈ reach) ∧ finish_ordered finish.
Proof.
  destruct (finish_starts_spec reach [] []) as (v & f & E & HI & Hm); [|done|].
  - split; [|by intros x [?%not_elem_of_nil|?%not_elem_of_nil]|constructor..|done| |].
    + intros x. rewrite !elem_of_nil. tauto.
    + by intros a b ?%not_elem_of_nil.
    + by intros [|? ?] ? ? [=].
  - exists v, f. split; [done|]. split; [|split].
    + pose proof (d_nodup _ _ _ HI) as Hn. by rewrite app_nil_r in Hn.
    + intros x. split.
      * intros Hx. apply (d_reach _ _ _ HI). left. apply (d_visited _ _ _ HI). by left.
      * intros Hx. destruct (proj1 (d_visited _ _ _ HI x)) as [?|?%not_elem_of_nil]; [|done..].
        apply Hm. by right.
    + apply (d_order _ _ _ HI).
Qed.

(** *** The keys that call each other, from the finish order *)

Context (finish : list FunctionKey) (Hnodup : NoDup finish)
  (Hfinish : ∀ x, x ∈ finish ↔ x ∈ reach) (Hordered : finish_ordered finish).

Lemma calls_rtc_finish x y : x ∈ finish → calls_rtc x y → y ∈ finish.
Proof. intros Hx. induction 1 as [|x y z (_ & Hy & _) _ IH]; [done|]. apply IH. by apply Hfinish. Qed.

(** A path that leaves a prefix of the finish order meets, outside it, a key
    that calls back the prefix's last key. *)
Lemma path_leaves l1 x l2 s :
  finish = l1 ++ x :: l2 → calls_rtc x s → s ∉ l1 ++ [x] →
  ∃ b, b ∈ l2 ∧ mutual b x ∧ calls_rtc b s.
Proof.
  intros Heq Hxs Hs.
  assert (∀ a, a ∈ l1 ++ [x] → calls_rtc x a → calls_rtc a s →
    ∃ b, b ∈ l2 ∧ mutual b x ∧ calls_rtc b s) as Hgo.
  { intros a Ha Hxa Has. induction Has as [a|a b s Hab Hbs IH]; [done|].
    assert (calls_rtc x b) as Hxb by (etrans; [exact Hxa|by apply calls_rtc_once]).
    destruct (decide (b ∈ l1 ++ [x])) as [Hb|Hb]; [by apply IH|].
    destruct (Hordered _ _ _ Heq a b Ha Hab) as [?|Hbx]; [done|].
    exists b. split; [|done]. assert (b ∈ finish) as Hin by (apply Hfinish, Hab).
    rewrite Heq, (cons_middle x), app_assoc, elem_of_app in Hin. tauto. }
  apply (Hgo x); [|done..]. apply elem_of_app. right. apply list_elem_of_here.
Qed.

(** A key that calls [s] is called by it, when everything that finishes after
    [s] is in another component. *)
Lemma calls_latest l1 s l2 x :
  finish = l1 ++ s :: l2 → calls_rtc x s → (∀ y, mutual y x → y ∉ l2) → x ∈ finish →
  calls_rtc s x.
Proof.
  intros Heq Hxs Hl2 Hx. apply list_elem_of_split in Hx as (m1 & m2 & Hx).
  remember (length m2) as n eqn:Hn. revert x m1 m2 Hxs Hl2 Hx Hn.
  induction (lt_wf n) as [n _ IH]. intros x m1 m2 Hxs Hl2 Hx ->.
  destruct (decide (s ∈ m1 ++ [x])) as [Hs|Hs].
  - apply elem_of_app in Hs as [Hs|Hs%list_elem_of_singleton]; [|by subst].
    exfalso. apply (Hl2 x); [done|]. apply list_elem_of_split in Hs as (p1 & p2 & ->).
    rewrite <- app_assoc in Hx. simpl in Hx. rewrite Heq in Hx.
    assert (l1 = p1 ∧ l2 = p2 ++ x :: m2) as [_ ->].
    { apply (NoDup_split_unique s); [by rewrite <- Heq|done]. }
    apply elem_of_app. right. apply list_elem_of_here.
  - destruct (path_leaves m1 x m2 s Hx Hxs Hs) as (b & Hb & Hbx & Hbs).
    apply list_elem_of_split in Hb as (p1 & p2 & ->).
    assert (calls_rtc s b) as Hsb; [|etrans; [exact Hsb|apply Hbx]].
    eapply (IH (length p2)); [|done| | |done].
    + rewrite length_app. simpl. lia.
    + intros y Hy. apply Hl2. by etrans.
    + rewrite Hx. by rewrite (cons_middle x), !app_assoc.
Qed.

(** *** The second search *)

Context (Hkeyed : sorted_map functions).

Lemma reverse_of_spec c k : c ∈ callers_in (reverse_of functions reach) k ↔ calls c k.
Proof.
  assert (∀ l m, sorted_map m →
    ∀ c k, c ∈ callers_in (foldl (λ m e, if bool_decide (e.1 ∈ reach)
      then foldl (add_caller e.1) m (filter (λ d, d ∈ reach) (cf_dependencies e.2)) else m) m l) k ↔
    c ∈ callers_in m k ∨ ∃ f, (c, f) ∈ l ∧ c ∈ reach ∧ k ∈ reach ∧ k ∈ cf_dependencies f) as Hgo.
  { clear c k. induction l as [|[a f] l IH]; intros m Hm c k; cbn [foldl fst snd].
    - split; [by left|]. intros [?|(f & ?%not_elem_of_nil & _)]; done.
    - setoid_rewrite elem_of_cons. case_bool_decide as Ha.
      + destruct (add_callers_spec a m (filter (λ d, d ∈ reach) (cf_dependencies f)) Hm) as [Hs Hc].
        rewrite IH, Hc, list_elem_of_filter by done. naive_solver.
      + rewrite IH by done. naive_solver. }
  unfold reverse_of. rewrite Hgo by constructor. unfold callers_in at 1, calls, dependencies_of. simpl.
  rewrite elem_of_nil. split.
  - intros [[]|(f & Hf & ? & ? & ?)]. by apply map_get_elem in Hf as ->.
  - intros (Hc & Hk & Hd). right. destruct (map_get c functions) as [f|] eqn:E.
    + exists f. apply map_get_elem in E; done.
    + by apply not_elem_of_nil in Hd.
Qed.

Definition unassigned (assigned : list FunctionKey) : nat :=
  weight_left (λ k, k) (λ _, 1) reach assigned.

(** Scanning the callers of one key. *)
Lemma assign_callers_spec l assigned component work :
  (∀ c, c ∈ l → c ∈ reach) → sorted_keys component →
  ∃ assigned' component' fresh,
    foldl assign_caller (assigned, component, work) l = (assigned', component', fresh ++ work) ∧
    (∀ x, x ∈ assigned' ↔ x ∈ assigned ∨ x ∈ fresh) ∧
    (∀ x, x ∈ component' ↔ x ∈ component ∨ x ∈ fresh) ∧
    (∀ x, x ∈ fresh → x ∈ l ∧ x ∉ assigned) ∧
    (∀ x, x ∈ l → x ∈ assigned') ∧ sorted_keys component' ∧
    length (fresh ++ work) + unassigned assigned' ≤ length work + unassigned assigned.
Proof.
  revert assigned component work. induction l as [|c l IH]; intros assigned component work Hl Hs.
  - exists assigned, component, []. split_and!; try done; intros x;
      rewrite ?elem_of_nil; naive_solver.
  - cbn [foldl]. assert (∀ c, c ∈ l → c ∈ reach) as Hl' by (intros; apply Hl; by right).
    unfold assign_caller at 2. case_bool_decide as Hc.
    + destruct (IH assigned component work Hl' Hs) as (a' & c' & f & -> & Ha & Hcm & Hf & Hla & Hs' & Hfuel).
      exists a', c', f. split_and!; try done.
      * intros x Hx. apply Hf in Hx as [? ?]. split; [by right|done].
      * intros x [->|Hx]%elem_of_cons; [|by apply Hla]. apply Ha. by left.
    + destruct (IH (set_insert c assigned) (set_insert c component) (c :: work) Hl')
        as (a' & c' & f & -> & Ha & Hcm & Hf & Hla & Hs' & Hfuel); [by apply set_insert_sorted|].
      exists a', c', (f ++ [c]). rewrite <- app_assoc. split_and!; try done.
      * intros x. rewrite Ha, elem_of_set_insert, elem_of_app, list_elem_of_singleton. tauto.
      * intros x. rewrite Hcm, elem_of_set_insert, elem_of_app, list_elem_of_singleton. tauto.
      * intros x [Hx|Hx%list_elem_of_singleton]%elem_of_app; [|subst x; split; [by left|done]].
        apply Hf in Hx as [? Hx]. rewrite elem_of_set_insert in Hx. split; [by right|tauto].
      * intros x [->|Hx]%elem_of_cons; [|by apply Hla]. apply Ha. left. apply elem_of_set_insert. by left.
      * simpl in Hfuel |- *. etrans; [exact Hfuel|].
        pose proof (weight_left_visit (λ k, k) (λ _, 1) reach assigned (set_insert c assigned) c
          (Hl c (list_elem_of_here _ _)) Hc) as Hw. unfold unassigned.
        assert (weight_left (λ k, k) (λ _, 1) reach (set_insert c assigned) + 1 ≤
          weight_left (λ k, k) (λ _, 1) reach assigned); [|lia].
        apply Hw; [intros; apply elem_of_set_insert; by right|apply elem_of_set_insert; by left].
Qed.

Record comp_inv s (before work assigned component : list FunctionKey) : Prop := {
  c_assigned : ∀ x, x ∈ assigned ↔ x ∈ before ∨ x ∈ component;
  c_fresh : ∀ x, x ∈ component → x ∉ before;
  c_start : s ∈ component;
  c_calls : ∀ x, x ∈ component → calls_rtc x s;
  c_closed : ∀ x, x ∈ component → x ∈ work ∨ ∀ c, calls c x → c ∈ assigned;
  c_stack : ∀ x, x ∈ work → x ∈ component;
  c_sorted : sorted_keys component;
}.

Lemma component_loop_spec fuel s before work assigned component :
  comp_inv s before work assigned component → length work + unassigned assigned < fuel →
  ∃ assigned' component',
    component_loop fuel (reverse_of functions reach) work assigned component =
      Some (assigned', component') ∧ comp_inv s before [] assigned' component'.
Proof.
  revert work assigned component. induction fuel as [|fuel IH]; intros work assigned component HI Hf; [lia|].
  cbn [component_loop]. destruct work as [|k work]; [by eexists _, _|]. cbn [length] in Hf.
  fold (callers_in (reverse_of functions reach) k).
  assert (∀ c, c ∈ reverse (callers_in (reverse_of functions reach) k) ↔ calls c k) as Hcallers.
  { intros c. rewrite elem_of_reverse. apply reverse_of_spec. }
  destruct (assign_callers_spec (reverse (callers_in (reverse_of functions reach) k)) assigned component work)
    as (a' & c' & f & -> & Ha & Hc & Hfr & Hla & Hs & Hfuel).
  { intros c [? _]%Hcallers. done. } { apply HI. }
  assert (k ∈ component) as Hk by (apply (c_stack _ _ _ _ _ HI); apply list_elem_of_here).
  apply IH; [|lia]. split.
  - intros x. rewrite Ha, Hc, (c_assigned _ _ _ _ _ HI). tauto.
  - intros x [Hx|Hx]%Hc Hb; [by apply (c_fresh _ _ _ _ _ HI x)|].
    apply Hfr in Hx as [_ Hx]. apply Hx, (c_assigned _ _ _ _ _ HI). by left.
  - apply Hc. left. apply HI.
  - intros x [Hx|Hx]%Hc; [by apply (c_calls _ _ _ _ _ HI)|]. apply Hfr in Hx as [Hx%Hcallers _].
    etrans; [by apply calls_rtc_once|by apply (c_calls _ _ _ _ _ HI)].
  - intros x [Hx|Hx]%Hc; [|left; apply elem_of_app; by left].
    destruct (c_closed _ _ _ _ _ HI x Hx) as [[->|Hst]%elem_of_cons|Hcl].
    + right. intros c Hcx. by apply Hla, Hcallers.
    + left. apply elem_of_app. by right.
    + right. intros c Hcx. apply Ha. left. by apply Hcl.
  - intros x [Hx|Hx]%elem_of_app; apply Hc; [by right|left].
    apply (c_stack _ _ _ _ _ HI). by apply list_elem_of_further.
  - done.
Qed.

(** When what finishes later is settled, the component of [s] is exact. *)
Lemma component_exact l1 s l2 before assigned component :
  finish = l1 ++ s :: l2 → (∀ x, x ∈ l2 → x ∈ before) →
  (∀ x y, mutual x y → x ∈ before → y ∈ before) → s ∉ before →
  comp_inv s before [] assigned component → ∀ x, x ∈ component ↔ mutual x s.
Proof.
  intros Heq Hl2 Hclosed Hs HI x. split.
  - intros Hx. pose proof (c_calls _ _ _ _ _ HI x Hx) as Hxs. split; [done|].
    assert (x ∈ finish) as Hxf.
    { destruct (rtc_inv _ _ Hxs) as [->|(y & (Hr & _) & _)]; [|by apply Hfinish].
      rewrite Heq. apply elem_of_app. right. apply list_elem_of_here. }
    eapply calls_latest; [done|done| |done].
    intros y Hyx Hy. apply (c_fresh _ _ _ _ _ HI x Hx). by apply (Hclosed y), Hl2.
  - intros [Hxs Hsx].
    assert (∀ y, calls_rtc s y → calls_rtc y s → y ∈ component) as Hgo; [|by apply Hgo].
    clear x Hxs Hsx. intros y Hsy Hys. induction Hys as [|a b s Hab Hbs IH]; [apply HI|].
    assert (b ∈ component) as Hb.
    { apply IH; [done..|]. etrans; [exact Hsy|by apply calls_rtc_once]. }
    destruct (c_closed _ _ _ _ _ HI b Hb) as [?%not_elem_of_nil|Hcl]; [done|].
    destruct (proj1 (c_assigned _ _ _ _ _ HI a) (Hcl a Hab)) as [Ha|]; [|done].
    exfalso. apply Hs, (Hclosed a); [|done]. split; [|done].
    by eapply rtc_l.
Qed.

(** The components found so far. *)
Record comps_inv (starts assigned : list FunctionKey) (components : list (list FunctionKey)) : Prop := {
  k_split : ∃ done, reverse finish = done ++ starts ∧ ∀ x, x ∈ done → x ∈ assigned;
  k_closed : ∀ x y, mutual x y → x ∈ assigned → y ∈ assigned;
  k_union : ∀ x, x ∈ assigned ↔ ∃ C, C ∈ components ∧ x ∈ C;
  k_exact : ∀ C, C ∈ components → sorted_keys C ∧ ∃ s, s ∈ finish ∧ ∀ x, x ∈ C ↔ mutual x s;
  k_disjoint : ∀ i j C D x, components !! i = Some C → components !! j = Some D →
    x ∈ C → x ∈ D → i = j;
}.

Lemma comps_inv_skip s starts assigned components :
  comps_inv (s :: starts) assigned components → s ∈ assigned → comps_inv starts assigned components.
Proof.
  intros HI Hs. split; try apply HI. destruct (k_split _ _ _ HI) as (d & Hd & Hin).
  exists (d ++ [s]). rewrite <- app_assoc. split; [done|].
  intros x [Hx|Hx%list_elem_of_singleton]%elem_of_app; [by apply Hin|by subst].
Qed.

Lemma comps_inv_step s starts before assigned components component :
  comps_inv (s :: starts) before components → s ∉ before →
  comp_inv s before [] assigned component →
  comps_inv starts assigned (components ++ [component]).
Proof.
  intros HI Hs HC. destruct (k_split _ _ _ HI) as (d & Hd & Hin).
  assert (finish = reverse starts ++ s :: reverse d) as Heq.
  { rewrite <- (reverse_involutive finish), Hd, reverse_app, reverse_cons, <- app_assoc. done. }
  assert (∀ x, x ∈ component ↔ mutual x s) as Hexact.
  { eapply component_exact; [exact Heq| |apply HI|done|exact HC].
    intros x Hx. apply Hin. by rewrite elem_of_reverse in Hx. }
  assert (∀ x, x ∈ assigned ↔ x ∈ before ∨ x ∈ component) as Ha by apply HC.
  split.
  - exists (d ++ [s]). rewrite <- app_assoc. split; [done|].
    intros x [Hx|Hx%list_elem_of_singleton]%elem_of_app; apply Ha; [left; by apply Hin|right].
    subst x. by apply Hexact.
  - intros x y Hxy [Hx|Hx]%Ha; apply Ha; [left; by eapply (k_closed _ _ _ HI)|right].
    apply Hexact in Hx. apply Hexact. etrans; [by symmetry|done].
  - intros x. rewrite Ha, (k_union _ _ _ HI). setoid_rewrite elem_of_app.
    setoid_rewrite list_elem_of_singleton. naive_solver.
  - intros C [HC'|HC'%list_elem_of_singleton]%elem_of_app; [by apply (k_exact _ _ _ HI)|]. subst C.
    split; [apply HC|]. exists s. split; [|done]. rewrite Heq. apply elem_of_app. right.
    apply list_elem_of_here.
  - assert (∀ i C x, components !! i = Some C → x ∈ C → x ∉ component) as Hold.
    { intros i C x HiC Hx Hxc. apply (c_fresh _ _ _ _ _ HC x Hxc), (k_union _ _ _ HI).
      exists C. split; [by eapply list_elem_of_lookup_2|done]. }
    intros i j C D x [HC'|[Hi HC']]%lookup_app_Some [HD|[Hj HD]]%lookup_app_Some HxC HxD;
      try apply list_lookup_singleton_Some in HC' as [? ->];
      try apply list_lookup_singleton_Some in HD as [? ->];
      [by eapply (k_disjoint _ _ _ HI)|by destruct (Hold _ _ _ HC' HxC)|
       by destruct (Hold _ _ _ HD HxD)|lia].
Qed.

Lemma component_starts_spec starts assigned components :
  comps_inv starts assigned components →
  ∃ assigned' components',
    component_starts (S (S (length reach))) (reverse_of functions reach) starts assigned components =
      Some components' ∧ comps_inv [] assigned' components'.
Proof.
  revert assigned components. induction starts as [|s starts IH]; intros assigned components HI.
  { by eexists _, _. }
  cbn [component_starts]. case_bool_decide as Hs; [by apply IH, (comps_inv_skip s)|].
  destruct (component_loop_spec (S (S (length reach))) s assigned [s] (set_insert s assigned) [s])
    as (a' & c' & -> & HC).
  - split.
    + intros x. rewrite elem_of_set_insert, list_elem_of_singleton. tauto.
    + by intros x ->%list_elem_of_singleton.
    + apply list_elem_of_here.
    + by intros x ->%list_elem_of_singleton.
    + intros x Hx. by left.
    + done.
    + repeat constructor.
  - cbn [length]. unfold unassigned.
    pose proof (weight_left_total (λ k, k) (λ _, 1) reach (set_insert s assigned)).
    assert (sum_list_with (λ _ : FunctionKey, 1) reach = length reach) as Hlen; [|lia].
    clear. induction reach; simpl; lia.
  - cbn [mbind option_bind]. by eapply IH, comps_inv_step.
Qed.
End scc.

(** *** The index of the components *)

Lemma fold_index (index : nat) (C : list FunctionKey) m :
  sorted_map m →
  sorted_map (foldl (λ m k, map_insert k index m) m C) ∧
  ∀ k, map_get k (foldl (λ m k, map_insert k index m) m C) =
    if bool_decide (k ∈ C) then Some index else map_get k m.
Proof.
  revert m. induction C as [|c C IH]; intros m Hm; cbn [foldl]; [done|].
  destruct (IH (map_insert c index m)) as [Hs Hg]; [by apply map_insert_sorted|]. split; [done|].
  intros k. rewrite Hg. destruct (decide (k = c)) as [->|Hne].
  - rewrite map_get_insert, (bool_decide_eq_true_2 (c ∈ c :: C)) by (by left). by case_bool_decide.
  - rewrite map_get_insert_ne by done. erewrite (bool_decide_ext (k ∈ c :: C) (k ∈ C)); [done|].
    rewrite elem_of_cons. tauto.
Qed.

Lemma index_components_spec n components m :
  sorted_map m →
  (∀ i j (C D : list FunctionKey) x, components !! i = Some C → components !! j = Some D →
    x ∈ C → x ∈ D → i = j) →
  (∀ k i C, components !! i = Some C → k ∈ C →
    map_get k (index_components n components m) = Some (n + i)) ∧
  ∀ k, (∀ C, C ∈ components → k ∉ C) → map_get k (index_components n components m) = map_get k m.
Proof.
  revert n m. induction components as [|C comps IH]; intros n m Hm Hd; cbn [index_components]; [done|].
  destruct (fold_index n C m Hm) as [Hs Hg].
  destruct (IH (S n) _ Hs) as [Hin Hout].
  { intros i j D E x Hi Hj HD HE. enough (S i = S j) by lia. by eapply (Hd (S i) (S j)). }
  split.
  - intros k [|i] D Hi Hk; cbn in Hi.
    + injection Hi as ->. rewrite Hout; [rewrite Hg, bool_decide_eq_true_2 by done; f_equal; lia|].
      intros E HE HkE. apply list_elem_of_lookup in HE as [j Hj]. by pose proof (Hd 0 (S j) D E k eq_refl Hj Hk HkE).
    + rewrite (Hin k i D Hi Hk). f_equal. lia.
  - intros k Hk. rewrite Hout; [rewrite Hg, bool_decide_eq_false_2; [done|apply Hk; by left]|].
    intros E HE. apply Hk. by right.
Qed.

(** *** The components are exact *)

Lemma calls_rtc_reach functions reach x y :
  y ∈ reach → calls_rtc functions reach x y → x ∈ reach.
Proof. intros Hy Hxy. by destruct (rtc_inv _ _ Hxy) as [->|(z & (? & _) & _)]. Qed.

Lemma scc_spec functions reach :
  sorted_map functions →
  ∃ index components, strongly_connected_components functions reach = Some (index, components) ∧
    (∀ C, C ∈ components → sorted_keys C ∧
      ∃ s, s ∈ reach ∧ ∀ x, x ∈ C ↔ mutual functions reach x s) ∧
    (∀ x, x ∈ reach ↔ ∃ C, C ∈ components ∧ x ∈ C) ∧
    ∀ i x, map_get x index = Some i ↔ ∃ C, components !! i = Some C ∧ x ∈ C.
Proof.
  intros Hsorted.
  destruct (finish_order_spec functions reach) as (v & f & Hf & Hnd & Hin & Hord).
  destruct (component_starts_spec functions reach f Hnd Hin Hord Hsorted (reverse f) [] [])
    as (a & comps & Hc & HI).
  { split.
    - exists []. split; [done|]. by intros x ?%not_elem_of_nil.
    - by intros x y _ ?%not_elem_of_nil.
    - intros x. split; [by intros ?%not_elem_of_nil|by intros (C & ?%not_elem_of_nil & _)].
    - by intros C ?%not_elem_of_nil.
    - done. }
  exists (index_components 0 comps []), comps. unfold strongly_connected_components.
  rewrite Hf. cbn [mbind option_bind]. rewrite Hc. cbn [mbind option_bind].
  destruct (k_split _ _ _ _ _ _ HI) as (d & Hd & Hda). rewrite app_nil_r in Hd.
  assert (∀ C, C ∈ comps → sorted_keys C ∧ ∃ s, s ∈ reach ∧ ∀ x, x ∈ C ↔ mutual functions reach x s) as Hex.
  { intros C HC. destruct (k_exact _ _ _ _ _ _ HI C HC) as (Hs & s & Hsf & Hm).
    split; [done|]. exists s. split; [by apply Hin|done]. }
  destruct (index_components_spec 0 comps [] (SSorted_nil _) (k_disjoint _ _ _ _ _ _ HI)) as [Hi Ho].
  split; [done|]. split; [done|]. split.
  - intros x. rewrite <- (k_union _ _ _ _ _ _ HI). split.
    + intros Hx. apply Hda. rewrite <- Hd, elem_of_reverse. by apply Hin.
    + intros (C & HC & Hx)%(k_union _ _ _ _ _ _ HI). destruct (Hex C HC) as (_ & s & Hs & Hm).
      rewrite Hm in Hx. by eapply calls_rtc_reach, Hx.
  - intros i x. split; [|intros (C & HC & Hx); by apply (Hi x i C)]. intros Hg.
    destruct (decide (Exists (λ C, x ∈ C) comps)) as [(C & HC & Hx)%Exists_exists|Hn].
    + apply list_elem_of_lookup in HC as [j Hj]. rewrite (Hi x j C Hj Hx) in Hg.
      injection Hg as <-. by exists C.
    + rewrite Ho in Hg; [done|]. intros C HC Hx. apply Hn, Exists_exists. by exists C.
Qed.

(** The component search always finishes, and splits the reachable keys into
    exactly the groups of keys that call each other: every reachable key lies in
    one component, no other key does, and two of them have the same component
    index precisely when each calls the other, directly or not. *)
Theorem scc_correct (functions : list (FunctionKey * CurrentFunction)) (reach : list FunctionKey)
    (Hsorted : sorted_map functions) :
  ∃ index components, strongly_connected_components functions reach = Some (index, components) ∧
    (∀ x, x ∈ reach ↔ is_Some (map_get x index)) ∧
    (∀ i x, map_get x index = Some i ↔ ∃ C, components !! i = Some C ∧ x ∈ C) ∧
    ∀ a b, a ∈ reach → b ∈ reach →
      (map_get a index = map_get b index ↔ mutual functions reach a b).
Proof.
  destruct (scc_spec functions reach Hsorted) as (index & comps & Heq & Hex & Hcover & Hindex).
  assert (∀ x, x ∈ reach → ∃ i C s, map_get x index = Some i ∧ comps !! i = Some C ∧
    x ∈ C ∧ ∀ y, y ∈ C ↔ mutual functions reach y s) as Hone.
  { intros x (C & HC & Hx)%Hcover. destruct (Hex C HC) as (_ & s & _ & Hm).
    apply list_elem_of_lookup in HC as [i Hi]. exists i, C, s. split; [|done]. apply Hindex. by exists C. }
  exists index, comps. split; [done|]. split; [|split; [done|]].
  - intros x. split.
    + intros Hx. destruct (Hone x Hx) as (i & _ & _ & -> & _). by eexists.
    + intros [i (C & HC & Hx)%Hindex]. apply Hcover. exists C. split; [by eapply list_elem_of_lookup_2|done].
  - intros a b Ha Hb. destruct (Hone a Ha) as (i & C & s & Hia & HC & HaC & Hm).
    destruct (Hone b Hb) as (j & D & t & Hjb & HD & HbD & Hm'). split.
    + intros Hab. assert (i = j) as <- by congruence. assert (C = D) as <- by congruence.
      etrans; [by apply Hm|]. symmetry. by apply Hm.
    + intros Hab. rewrite Hia. symmetry. apply Hindex. exists C. split; [done|]. apply Hm.
      etrans; [symmetry; exact Hab|]. by apply Hm.
Qed.

(** *** A graph with a loop: [a] calls [b], [b] and [c] call each other, [c] calls [d]. *)

Definition sample_key (n : string) : FunctionKey :=
  mkFunctionKey (Identity.mkSymbolId (string_bytes n)) (string_bytes n).

Definition sample_graph : list (FunctionKey * CurrentFunction) :=
  let current i ds := mkCurrentFunction i 0 (sample_key <$> ds) false in
  [(sample_key "a", current 1%Z ["b"%string]); (sample_key "b", current 2%Z ["c"%string]);
   (sample_key "c", current 3%Z ["b"; "d"]%string); (sample_key "d", current 4%Z [])].

Example sample_components :
  snd <$> strongly_connected_components sample_graph sample_graph.*1 =
  Some [[sample_key "a"]; sample_key <$> ["b"; "c"]%string; [sample_key "d"]].
Proof. by vm_compute. Qed.

Lemma scc_correct_witness :
  sorted_map sample_graph ∧
  ∃ index components,
    strongly_connected_components sample_graph sample_graph.*1 = Some (index, components) ∧
    (∀ x, x ∈ sample_graph.*1 ↔ is_Some (map_get x index)) ∧
    (∀ i x, map_get x index = Some i ↔ ∃ C, components !! i = Some C ∧ x ∈ C) ∧
    ∀ a b, a ∈ sample_graph.*1 → b ∈ sample_graph.*1 →
      (map_get a index = map_get b index ↔ mutual sample_graph sample_graph.*1 a b).
Proof.
  assert (sorted_map sample_graph) as Hs by (repeat constructor).
  split; [exact Hs|]. apply (scc_correct sample_graph sample_graph.*1 Hs).
Defined.
