(* ===== verification/PatchPlan.v ===== *)
(** * Incremental patch plans

    Models the planner of [crates/stasis_compiler/src/backend/patch_plan.rs]:
    [capture_accepted_program], [plan_patch], [insert_seed] and
    [expand_affected_closure], over the graph of PatchGraph.v.  The theorems show
    that a plan always exists, that it splits the reachable functions into the
    ones compiled again and the ones reused, that exactly the callers of a change
    are compiled again, and that a reused function is unchanged and calls no
    function that is not. *)

From stdpp Require Import relations.
From S2P Require Import Prelude BTree Worklist Identity Functions Reachability PatchGraph.
#[local] Set Warnings "-clear-no-such-hyp".

(** ** The accepted program *)

Definition capture_accepted_program (functions : list FunctionMeta) (files : list SourceFile)
    (required_roots : list str) : option (Result AcceptedProgram str) :=
  graph ← CurrentGraph_build functions files required_roots;
  Some (let? g := graph in
    Ok (mkAcceptedProgram
      ((λ e, (e.1, mkAcceptedFunction e.1 (cf_body_hash e.2) (cf_dependencies e.2))) <$> by_key g)
      (reachable g))).

(** ** Seeds *)

(** The planner's maps: the reasons by key, and the queue. *)
Definition Reasons := list (FunctionKey * PatchReasonChain).
Definition PlanState : Type := Reasons * list FunctionKey.

Definition insert_seed (st : PlanState) (key : FunctionKey) (reason : PatchReason) : PlanState :=
  let '(reasons, queue) := st in
  match map_get key reasons with
  | Some _ => st
  | None => (map_insert key (mkReason key reason [key]) reasons, queue ++ [key])
  end.

Definition seed_reason (accepted : AcceptedProgram) (lowered_contract_changes : list FunctionKey)
    (key : FunctionKey) (current : CurrentFunction) : option PatchReason :=
  match map_get key (ap_functions accepted) with
  | None => Some AddedOrSignatureChanged
  | Some previous =>
      if bool_decide (key ∉ ap_reachable accepted) then Some BecameReachable
      else if negb (af_body_hash previous =? cf_body_hash current)%Z then Some BodyChanged
      else if bool_decide (key ∈ lowered_contract_changes) then Some LoweredContractChanged
      else None
  end.

Definition missing_function (key : FunctionKey) : str :=
  string_bytes "reachable function '" ++ display_name key ++ string_bytes "' is missing".

Fixpoint seed_changes (graph : CurrentGraph) (accepted : AcceptedProgram)
    (lowered_contract_changes keys : list FunctionKey) (st : PlanState) : Result PlanState str :=
  match keys with
  | [] => Ok st
  | key :: keys' =>
      match map_get key (by_key graph) with
      | None => Err (missing_function key)
      | Some current =>
          seed_changes graph accepted lowered_contract_changes keys'
            (match seed_reason accepted lowered_contract_changes key current with
             | Some reason => insert_seed st key reason
             | None => st
             end)
      end
  end.

(** A compile-time-only dependency whose body changed or was added. *)
Definition template_changed (graph : CurrentGraph) (accepted : AcceptedProgram)
    (dependency : FunctionKey) : bool :=
  match map_get dependency (by_key graph) with
  | None => false
  | Some current =>
      compile_time_only current &&
      match map_get dependency (ap_functions accepted) with
      | None => true
      | Some previous => negb (af_body_hash previous =? cf_body_hash current)%Z
      end
  end.

Definition changed_template (graph : CurrentGraph) (accepted : AcceptedProgram) (caller : FunctionKey)
    : option FunctionKey :=
  snd <$> list_find (λ d, template_changed graph accepted d = true)
    (dependencies_of (by_key graph) caller).

Definition seed_template (graph : CurrentGraph) (accepted : AcceptedProgram) (st : PlanState)
    (caller : FunctionKey) : PlanState :=
  match map_get caller st.1 with
  | Some _ => st
  | None =>
      match changed_template graph accepted caller with
      | Some callee => insert_seed st caller (DirectCaller callee)
      | None => st
      end
  end.

Definition removed_callee (accepted : AcceptedProgram) (removed_reachable : list FunctionKey)
    (caller : FunctionKey) : option FunctionKey :=
  function ← map_get caller (ap_functions accepted);
  snd <$> list_find (λ d, d ∈ removed_reachable) (af_dependencies function).

(** The path of a removed callee starts at the callee. *)
Definition insert_path_head (reasons : Reasons) (caller head : FunctionKey) : Reasons :=
  match map_get caller reasons with
  | None => reasons
  | Some r => map_insert caller
      (mkReason (pr_function r) (pr_reason r) (head :: path_from_change r)) reasons
  end.

Definition seed_removed (accepted : AcceptedProgram) (removed_reachable : list FunctionKey)
    (st : PlanState) (caller : FunctionKey) : PlanState :=
  match removed_callee accepted removed_reachable caller with
  | None => st
  | Some callee =>
      match map_get caller st.1 with
      | Some _ => st
      | None =>
          let '(reasons, queue) := insert_seed st caller (DirectCaller callee) in
          (insert_path_head reasons caller callee, queue)
      end
  end.

Definition removed_keys (graph : CurrentGraph) (accepted : AcceptedProgram) : list FunctionKey :=
  filter (λ k, map_get k (by_key graph) = None) (ap_functions accepted).*1.

(** All the seeds, in the order they are inserted. *)
Definition seeds (graph : CurrentGraph) (accepted : option AcceptedProgram)
    (lowered_contract_changes : list FunctionKey) : Result PlanState str :=
  match accepted with
  | None => Ok (foldl (λ st k, insert_seed st k ColdStart) ([], []) (reachable graph))
  | Some accepted =>
      let? st := seed_changes graph accepted lowered_contract_changes (reachable graph) ([], []) in
      let st := foldl (seed_template graph accepted) st (reachable graph) in
      let removed_reachable :=
        filter (λ k, k ∈ ap_reachable accepted) (removed_keys graph accepted) in
      Ok (foldl (seed_removed accepted removed_reachable) st (reachable graph))
  end.

(** ** The affected closure *)

(** Add [key] after [callee] unless it has a reason already. *)
Definition add_affected (reason : PatchReason) (base_path : list FunctionKey) (st : PlanState)
    (key : FunctionKey) : PlanState :=
  let '(reasons, queue) := st in
  match map_get key reasons with
  | Some _ => st
  | None => (map_insert key (mkReason key reason (base_path ++ [key])) reasons, queue ++ [key])
  end.

Definition path_of (reasons : Reasons) (callee : FunctionKey) : list FunctionKey :=
  match map_get callee reasons with Some r => path_from_change r | None => [callee] end.

Definition expand_component (graph : CurrentGraph) (callee : FunctionKey) (st : PlanState)
    (expanded_components : list nat) : PlanState * list nat :=
  match map_get callee (scc_index_by_key graph) with
  | None => (st, expanded_components)
  | Some index =>
      if bool_decide (index ∈ expanded_components) then (st, expanded_components)
      else
        (match sccs graph !! index with
         | None => st
         | Some component => foldl (add_affected (SccPeer callee) (path_of st.1 callee)) st component
         end, set_insert index expanded_components)
  end.

Definition expand_callers (graph : CurrentGraph) (callee : FunctionKey) (st : PlanState) : PlanState :=
  match map_get callee (reverse_calls graph) with
  | None => st
  | Some callers =>
      foldl (λ st caller,
          if bool_decide (caller ∉ reachable graph) then st
          else add_affected (DirectCaller callee) (path_of st.1 callee) st caller) st callers
  end.

Fixpoint expand_affected_closure (fuel : nat) (graph : CurrentGraph) (st : PlanState)
    (expanded_components : list nat) : option Reasons :=
  match fuel with
  | O => None
  | S fuel' =>
      match st.2 with
      | [] => Some st.1
      | callee :: queue =>
          let '(st1, expanded_components') :=
            expand_component graph callee (st.1, queue) expanded_components in
          expand_affected_closure fuel' graph (expand_callers graph callee st1) expanded_components'
      end
  end.

(** ** The plan *)

Definition finish_plan (graph : CurrentGraph) (accepted : option AcceptedProgram)
    (changed : list FunctionKey) (reasons : Reasons) : PatchPlan :=
  let re_jit := reasons.*1 in
  {| cold_start := match accepted with None => true | Some _ => false end;
     changed := changed;
     re_jit_ids := omap (λ k, cf_id <$> map_get k (by_key graph)) re_jit;
     re_jit := re_jit;
     reused := filter (λ k, k ∉ re_jit) (reachable graph);
     retained_dependencies :=
       set_of_list (filter (λ d, d ∉ re_jit) (filter (λ d, d ∈ reachable graph)
         (mjoin (dependencies_of (by_key graph) <$> re_jit))));
     affected_host_entries := filter (λ k, k ∈ host_entries graph) re_jit;
     removed := match accepted with None => [] | Some a => removed_keys graph a end;
     reasons := reasons.*2 |}.

Definition plan_graph (graph : CurrentGraph) (accepted : option AcceptedProgram)
    (lowered_contract_changes : list FunctionKey) : option (Result PatchPlan str) :=
  match seeds graph accepted lowered_contract_changes with
  | Err e => Some (Err e)
  | Ok st =>
      let changed := st.1.*1 in
      reasons ← match accepted with
                | None => Some st.1
                | Some _ =>
                    expand_affected_closure (S (length (reachable graph) + length (reachable graph)))
                      graph st []
                end;
      Some (Ok (finish_plan graph accepted changed reasons))
  end.

Definition plan_patch (functions : list FunctionMeta) (files : list SourceFile)
    (required_roots : list str) (accepted : option AcceptedProgram)
    (lowered_contract_changes : list FunctionKey) : option (Result PatchPlan str) :=
  graph ← CurrentGraph_build functions files required_roots;
  match graph with
  | Err e => Some (Err e)
  | Ok graph => plan_graph graph accepted lowered_contract_changes
  end.

(** ** What a plan has to be *)

(** What the planner relies on in its graph; [CurrentGraph_build_spec] establishes it. *)
Record graph_ok (g : CurrentGraph) : Prop := {
  g_sorted : sorted_map (by_key g);
  g_reachable : sorted_keys (reachable g);
  g_known : ∀ k, k ∈ reachable g → is_Some (map_get k (by_key g));
  g_reverse : ∀ c k, c ∈ callers_in (reverse_calls g) k ↔ k ∈ dependencies_of (by_key g) c;
  g_scc : ∀ k i C, map_get k (scc_index_by_key g) = Some i → sccs g !! i = Some C →
    ∀ x, x ∈ C → mutual (by_key g) (reachable g) x k ∧ x ∈ reachable g;
}.

Section plan.
Context (g : CurrentGraph) (Hg : graph_ok g).
Context (accepted : option AcceptedProgram) (lowered : list FunctionKey).
Implicit Types (k c x : FunctionKey) (st : PlanState) (m : Reasons).

Abbreviation calls := (calls (by_key g) (reachable g)).
Abbreviation mutual := (mutual (by_key g) (reachable g)).

Definition removed_reachable (a : AcceptedProgram) : list FunctionKey :=
  filter (λ k, k ∈ ap_reachable a) (removed_keys g a).

(** A reason and its path account for a key: a change of the key itself, of a
    template it expands, of a removed callee, of a key of its component, or of a
    key it calls. *)
Inductive explained : FunctionKey → PatchReason → list FunctionKey → Prop :=
| explained_cold k : accepted = None → k ∈ reachable g → explained k ColdStart [k]
| explained_change k a current reason :
    accepted = Some a → k ∈ reachable g → map_get k (by_key g) = Some current →
    seed_reason a lowered k current = Some reason → explained k reason [k]
| explained_template k a callee :
    accepted = Some a → k ∈ reachable g → changed_template g a k = Some callee →
    explained k (DirectCaller callee) [k]
| explained_removed k a callee :
    accepted = Some a → k ∈ reachable g → removed_callee a (removed_reachable a) k = Some callee →
    explained k (DirectCaller callee) [callee; k]
| explained_peer k callee reason path :
    explained callee reason path → mutual k callee → explained k (SccPeer callee) (path ++ [k])
| explained_caller k callee reason path :
    explained callee reason path → calls k callee → explained k (DirectCaller callee) (path ++ [k]).

(** A key whose own situation changed. *)
Definition is_seed k : Prop :=
  k ∈ reachable g ∧
  match accepted with
  | None => True
  | Some a =>
      (∃ current, map_get k (by_key g) = Some current ∧ seed_reason a lowered k current ≠ None) ∨
      changed_template g a k ≠ None ∨ removed_callee a (removed_reachable a) k ≠ None
  end.

Lemma explained_from_seed k reason path :
  explained k reason path → ∃ s, is_seed s ∧ calls_rtc (by_key g) (reachable g) k s.
Proof.
  unfold is_seed. induction 1 as [k Ha Hk|k a cur r Ha Hk Hc Hr|k a c Ha Hk Hc|k a c Ha Hk Hc|
    k c r p _ (s & Hs & Hcs) Hm|k c r p _ (s & Hs & Hcs) Hkc].
  - exists k. rewrite Ha. done.
  - exists k. rewrite Ha. split; [|done]. split; [done|]. left. exists cur. by rewrite Hr.
  - exists k. rewrite Ha. split; [|done]. split; [done|]. right. left. by rewrite Hc.
  - exists k. rewrite Ha. split; [|done]. split; [done|]. do 2 right. by rewrite Hc.
  - exists s. split; [done|]. etrans; [apply Hm|done].
  - exists s. split; [done|]. by eapply rtc_l.
Qed.

(** The planner's invariant: every reason is explained, and queued keys have one. *)
Record plan_inv st : Prop := {
  p_sorted : sorted_map st.1;
  p_reachable : ∀ x, x ∈ st.1.*1 → x ∈ reachable g;
  p_explained : ∀ x r, map_get x st.1 = Some r →
    pr_function r = x ∧ explained x (pr_reason r) (path_from_change r);
  p_queue : ∀ x, x ∈ st.2 → x ∈ st.1.*1;
  p_nodup : NoDup st.2;
}.

Definition unplanned m : nat := weight_left (λ k, k) (λ _, 1) (reachable g) m.*1.

(** Growing the plan: reasons are kept, new keys are queued, fuel is not used up. *)
Record extends st st' : Prop := {
  e_mono : ∀ x r, map_get x st.1 = Some r → map_get x st'.1 = Some r;
  e_queue : ∀ x, x ∈ st.2 → x ∈ st'.2;
  e_new : ∀ x, is_Some (map_get x st'.1) → is_Some (map_get x st.1) ∨ x ∈ st'.2;
  e_fuel : length st'.2 + unplanned st'.1 ≤ length st.2 + unplanned st.1;
}.

#[local] Instance extends_preorder : PreOrder extends.
Proof.
  split.
  - intros st. split; try done. by left.
  - intros a b c [H1 H2 H3 H4] [H5 H6 H7 H8]. split; [by eauto..| |lia].
    intros x [Hx|Hx]%H7; [|by right]. apply H3 in Hx as [Hx|Hx]; [by left|right; auto].
Qed.

Lemma extends_keys st st' x :
  extends st st' → is_Some (map_get x st.1) → is_Some (map_get x st'.1).
Proof. intros He [r Hr]. exists r. by apply He. Qed.

(** Adding a key with an explained reason. *)
Lemma plan_inv_add st k r :
  plan_inv st → k ∈ reachable g → pr_function r = k →
  explained k (pr_reason r) (path_from_change r) → map_get k st.1 = None →
  plan_inv (map_insert k r st.1, st.2 ++ [k]) ∧ extends st (map_insert k r st.1, st.2 ++ [k]).
Proof.
  intros HI Hk Hf Hr Hn. pose proof (p_sorted _ HI) as Hs.
  assert (k ∉ st.1.*1) as Hnk by (by apply map_get_keys_None). split; split; cbn [fst snd].
  - by apply map_insert_sorted.
  - intros x [->|Hx]%elem_of_map_insert_keys; [done|by apply (p_reachable _ HI)].
  - intros x r'. destruct (decide (x = k)) as [->|Hne].
    + rewrite map_get_insert. by intros [= <-].
    + rewrite map_get_insert_ne by done. apply (p_explained _ HI).
  - intros x. rewrite elem_of_map_insert_keys, elem_of_app, list_elem_of_singleton.
    intros [Hx|Hx]; [right; by apply (p_queue _ HI)|by left].
  - apply NoDup_app. split; [apply HI|]. split; [|apply NoDup_singleton].
    intros x Hx%(p_queue _ HI) ->%list_elem_of_singleton. done.
  - intros x r' Hx. rewrite map_get_insert_ne; [done|done|]. intros ->. by rewrite Hn in Hx.
  - intros x Hx. apply elem_of_app. by left.
  - intros x. destruct (decide (x = k)) as [->|Hne].
    + intros _. right. apply elem_of_app. right. apply list_elem_of_here.
    + rewrite map_get_insert_ne by done. by left.
  - rewrite length_app. cbn [length].
    pose proof (weight_left_visit (λ k, k) (λ _, 1) (reachable g) st.1.*1 (map_insert k r st.1).*1 k
      Hk Hnk) as Hw. unfold unplanned.
    assert (weight_left (λ k, k) (λ _, 1) (reachable g) (map_insert k r st.1).*1 + 1 ≤
      weight_left (λ k, k) (λ _, 1) (reachable g) st.1.*1); [|lia].
    apply Hw; [|apply elem_of_map_insert_keys; by left].
    intros x Hx. apply elem_of_map_insert_keys. by right.
Qed.

(** ** Seeds *)

(** The state of the seed phases: everything with a reason is queued. *)
Definition seed_inv st : Prop := plan_inv st ∧ ∀ x, is_Some (map_get x st.1) → x ∈ st.2.

(** One key of a seed phase gets a reason when [P] holds of it. *)
Definition seeds_when (P : FunctionKey → Prop) (f : PlanState → FunctionKey → PlanState) : Prop :=
  ∀ st k, seed_inv st → k ∈ reachable g →
    seed_inv (f st k) ∧
    ∀ x, is_Some (map_get x (f st k).1) ↔ is_Some (map_get x st.1) ∨ (x = k ∧ P k).

Lemma seeds_fold P f l st :
  seeds_when P f → seed_inv st → (∀ k, k ∈ l → k ∈ reachable g) →
  seed_inv (foldl f st l) ∧
  ∀ x, is_Some (map_get x (foldl f st l).1) ↔ is_Some (map_get x st.1) ∨ (x ∈ l ∧ P x).
Proof.
  intros Hf. revert st. induction l as [|k l IH]; intros st HI Hl; cbn [foldl].
  - split; [done|]. intros x. rewrite elem_of_nil. tauto.
  - destruct (Hf st k HI) as [HI' Hk]; [apply Hl; by left|].
    destruct (IH (f st k) HI') as [HI'' Hx]; [intros; apply Hl; by right|].
    split; [done|]. intros x. rewrite Hx, Hk, elem_of_cons. naive_solver.
Qed.

(** Inserting a key that has no reason, with any explained reason. *)
Lemma seed_inv_add st k r :
  seed_inv st → k ∈ reachable g → pr_function r = k →
  explained k (pr_reason r) (path_from_change r) → map_get k st.1 = None →
  seed_inv (map_insert k r st.1, st.2 ++ [k]) ∧
  ∀ x, is_Some (map_get x (map_insert k r st.1)) ↔ is_Some (map_get x st.1) ∨ x = k.
Proof.
  intros [HI Hq] Hk Hf Hr Hn. destruct (plan_inv_add st k r HI Hk Hf Hr Hn) as [HI' He].
  split; [split; [done|]|].
  - intros x [Hx|Hx]%(e_new _ _ He); [|done]. by apply (e_queue _ _ He), Hq.
  - intros x. pose proof (p_sorted _ HI) as Hs. pose proof (p_sorted _ HI') as Hs'. cbn in Hs'.
    rewrite !map_get_keys, elem_of_map_insert_keys by done. tauto.
Qed.

Lemma insert_seed_spec st k reason :
  seed_inv st → k ∈ reachable g → explained k reason [k] →
  seed_inv (insert_seed st k reason) ∧
  ∀ x, is_Some (map_get x (insert_seed st k reason).1) ↔ is_Some (map_get x st.1) ∨ x = k.
Proof.
  intros HI Hk Hr. destruct st as [m q]. unfold insert_seed.
  destruct (map_get k m) as [r|] eqn:E.
  - split; [done|]. intros x. split; [by left|]. intros [?| ->]; [done|]. cbn. by eexists.
  - by apply (seed_inv_add (m, q)).
Qed.

Lemma cold_seeds : accepted = None → seeds_when (λ _, True) (λ st k, insert_seed st k ColdStart).
Proof.
  intros Ha st k HI Hk. destruct (insert_seed_spec st k ColdStart) as [? Hx]; [done|done|by constructor|].
  split; [done|]. intros x. rewrite Hx. tauto.
Qed.

(** Skipping a key that has a reason already. *)
Lemma seeds_skip (P : Prop) st k :
  seed_inv st → is_Some (map_get k st.1) →
  seed_inv st ∧ ∀ x, is_Some (map_get x st.1) ↔ is_Some (map_get x st.1) ∨ (x = k ∧ P).
Proof. intros HI Hk. split; [done|]. intros x. split; [by left|]. by intros [?|[-> _]]. Qed.

Lemma seeds_none (P : Prop) st k :
  seed_inv st → ¬ P →
  seed_inv st ∧ ∀ x, is_Some (map_get x st.1) ↔ is_Some (map_get x st.1) ∨ (x = k ∧ P).
Proof. intros HI Hk. split; [done|]. intros x. tauto. Qed.

Lemma template_seeds a :
  accepted = Some a → seeds_when (λ k, changed_template g a k ≠ None) (seed_template g a).
Proof.
  intros Ha st k HI Hk. unfold seed_template. destruct (map_get k st.1) as [r|] eqn:E.
  { apply seeds_skip; [done|]. by eexists. }
  destruct (changed_template g a k) as [c|] eqn:Ec; [|by apply seeds_none; [|intros []]].
  destruct (insert_seed_spec st k (DirectCaller c)) as [? Hx]; [done|done|by eapply explained_template|].
  split; [done|]. intros x. rewrite Hx. naive_solver.
Qed.

Lemma removed_seeds a :
  accepted = Some a →
  seeds_when (λ k, removed_callee a (removed_reachable a) k ≠ None) (seed_removed a (removed_reachable a)).
Proof.
  intros Ha st k HI Hk. unfold seed_removed.
  destruct (removed_callee a (removed_reachable a) k) as [c|] eqn:Ec;
    [|by apply seeds_none; [|intros []]].
  destruct (map_get k st.1) as [r|] eqn:E.
  { apply seeds_skip; [done|]. by eexists. }
  destruct st as [m q]. unfold insert_seed. cbn in E. rewrite E. unfold insert_path_head.
  rewrite map_get_insert, map_insert_twice. cbn [pr_function pr_reason path_from_change].
  destruct (seed_inv_add (m, q) k (mkReason k (DirectCaller c) [c; k])) as [HI' Hx];
    [done..|by eapply explained_removed|done|].
  split; [exact HI'|]. intros x. cbn [fst snd] in Hx |- *. rewrite Hx. naive_solver.
Qed.

Definition change_seed (a : AcceptedProgram) k : Prop :=
  ∃ current, map_get k (by_key g) = Some current ∧ seed_reason a lowered k current ≠ None.

Lemma seed_changes_spec a keys st :
  accepted = Some a → seed_inv st → (∀ k, k ∈ keys → k ∈ reachable g) →
  ∃ st', seed_changes g a lowered keys st = Ok st' ∧ seed_inv st' ∧
    ∀ x, is_Some (map_get x st'.1) ↔ is_Some (map_get x st.1) ∨ (x ∈ keys ∧ change_seed a x).
Proof.
  intros Ha. revert st. induction keys as [|k keys IH]; intros st HI Hl; cbn [seed_changes].
  { exists st. split; [done|]. split; [done|]. intros x. rewrite elem_of_nil. tauto. }
  assert (k ∈ reachable g) as Hk by (apply Hl; by left).
  assert (∀ k, k ∈ keys → k ∈ reachable g) as Hl' by (intros; apply Hl; by right).
  destruct (g_known _ Hg k Hk) as [cur Hc]. rewrite Hc.
  destruct (seed_reason a lowered k cur) as [r|] eqn:Er.
  - destruct (insert_seed_spec st k r) as [HI' Hx]; [done|done|by eapply explained_change|].
    destruct (IH _ HI' Hl') as (st' & -> & HI'' & Hx'). exists st'. split; [done|]. split; [done|].
    intros x. rewrite Hx', Hx, elem_of_cons. unfold change_seed.
    split; [intros [[?|?]|?]|intros [?|[[?|?] ?]]]; try tauto. right. split; [by left|]. subst x.
    exists cur. by rewrite Er.
  - destruct (IH _ HI Hl') as (st' & -> & HI'' & Hx'). exists st'. split; [done|]. split; [done|].
    intros x. rewrite Hx', elem_of_cons. unfold change_seed.
    split; [tauto|]. intros [?|[[-> |?] (c' & Hc' & Hn)]]; [by left| |by right; eauto].
    congruence.
Qed.

(** The seeds are exactly the keys whose own situation changed. *)
Lemma seeds_spec :
  ∃ st, seeds g accepted lowered = Ok st ∧ seed_inv st ∧
    ∀ x, is_Some (map_get x st.1) ↔ is_seed x.
Proof.
  assert (seed_inv ([], [])) as H0.
  { split; [split; try done|]; cbn; try by intros x ?%not_elem_of_nil.
    - constructor.
    - constructor.
    - by intros x []. }
  assert (∀ x, ¬ is_Some (map_get x (@nil (FunctionKey * PatchReasonChain)))) as Hno by by intros x [].
  unfold seeds, is_seed. destruct accepted as [a|] eqn:Ha.
  - destruct (seed_changes_spec a (reachable g) ([], []) Ha H0) as (s1 & -> & H1 & Hx1); [done|].
    cbn [result_bind]. eexists. split; [done|]. fold (removed_reachable a).
    destruct (seeds_fold _ _ (reachable g) s1 (template_seeds a Ha) H1) as [H2 Hx2]; [done|].
    destruct (seeds_fold _ _ (reachable g) _ (removed_seeds a Ha) H2) as [H3 Hx3]; [done|].
    split; [done|]. intros x. rewrite Hx3, Hx2, Hx1. unfold change_seed. specialize (Hno x). cbn. tauto.
  - eexists. split; [done|].
    destruct (seeds_fold _ _ (reachable g) _ (cold_seeds Ha) H0) as [H1 Hx1]; [done|].
    split; [done|]. intros x. rewrite Hx1. specialize (Hno x). cbn. tauto.
Qed.

(** ** The affected closure *)

(** One key added on behalf of [callee], whose reason is [rc]. *)
Definition grows callee (rc : PatchReasonChain) (P : FunctionKey → Prop)
    (f : PlanState → FunctionKey → PlanState) : Prop :=
  ∀ st k, plan_inv st → map_get callee st.1 = Some rc → P k →
    plan_inv (f st k) ∧ extends st (f st k).

Lemma grows_fold callee rc P f l st :
  grows callee rc P f → plan_inv st → map_get callee st.1 = Some rc → (∀ k, k ∈ l → P k) →
  plan_inv (foldl f st l) ∧ extends st (foldl f st l).
Proof.
  intros Hf. revert st. induction l as [|k l IH]; intros st HI Hc Hl; cbn [foldl]; [done|].
  destruct (Hf st k HI Hc) as [HI' He]; [apply Hl; by left|].
  destruct (IH (f st k) HI') as [HI'' He'];
    [by apply (e_mono _ _ He)|intros; apply Hl; by right|].
  split; [done|]. by etrans.
Qed.

Lemma add_affected_grows st reason base k :
  plan_inv st → k ∈ reachable g → explained k reason (base ++ [k]) →
  plan_inv (add_affected reason base st k) ∧ extends st (add_affected reason base st k).
Proof.
  intros HI Hk He. destruct st as [m q]. unfold add_affected.
  destruct (map_get k m) as [r|] eqn:E; [done|]. by apply (plan_inv_add (m, q)).
Qed.

Lemma add_affected_keys reason base st k :
  is_Some (map_get k (add_affected reason base st k).1).
Proof.
  destruct st as [m q]. unfold add_affected.
  destruct (map_get k m) as [r|] eqn:E; cbn; [by eexists|]. rewrite map_get_insert. by eexists.
Qed.

Lemma expand_component_spec callee st expanded :
  plan_inv st → is_Some (map_get callee st.1) →
  let st' := (expand_component g callee st expanded).1 in plan_inv st' ∧ extends st st'.
Proof.
  intros HI [rc Hc]. unfold expand_component.
  destruct (map_get callee (scc_index_by_key g)) as [i|] eqn:Ei; [|done].
  case_bool_decide; [done|]. cbn [fst]. destruct (sccs g !! i) as [C|] eqn:EC; [|done].
  unfold path_of. rewrite Hc.
  destruct (p_explained _ HI _ _ Hc) as [_ Hex].
  apply (grows_fold callee rc (λ k, k ∈ C)); [|done..]. intros st' k HI' _ Hk.
  destruct (g_scc _ Hg _ _ _ Ei EC k Hk) as [Hm Hkr].
  apply add_affected_grows; [done..|]. by eapply explained_peer.
Qed.

Definition add_caller_of callee st c : PlanState :=
  if bool_decide (c ∉ reachable g) then st
  else add_affected (DirectCaller callee) (path_of st.1 callee) st c.

Lemma add_caller_grows callee rc :
  callee ∈ reachable g →
  grows callee rc (λ c, callee ∈ dependencies_of (by_key g) c) (add_caller_of callee).
Proof.
  intros Hcr st c HI Hc Hd. unfold add_caller_of. case_bool_decide as Hn; [done|].
  assert (c ∈ reachable g) as Hk by (destruct (decide (c ∈ reachable g)); tauto).
  unfold path_of. rewrite Hc. destruct (p_explained _ HI _ _ Hc) as [_ Hex].
  apply add_affected_grows; [done..|]. by eapply explained_caller.
Qed.

Lemma expand_callers_spec callee st :
  plan_inv st → is_Some (map_get callee st.1) →
  plan_inv (expand_callers g callee st) ∧ extends st (expand_callers g callee st) ∧
  ∀ c, calls c callee → is_Some (map_get c (expand_callers g callee st).1).
Proof.
  intros HI Hcs. assert (callee ∈ reachable g) as Hcr.
  { apply (p_reachable _ HI), map_get_keys; [apply HI|done]. }
  destruct Hcs as [rc Hc]. unfold expand_callers. pose proof (g_reverse _ Hg) as Hrev.
  unfold callers_in in Hrev.
  destruct (map_get callee (reverse_calls g)) as [l|] eqn:El.
  - assert (∀ c, c ∈ l → callee ∈ dependencies_of (by_key g) c) as Hl.
    { intros c Hin. apply Hrev. by rewrite El. }
    change (foldl _ st l) with (foldl (add_caller_of callee) st l).
    destruct (grows_fold callee rc _ _ l st (add_caller_grows callee rc Hcr) HI Hc Hl) as [HI' He].
    split; [done|]. split; [done|]. intros c (Hk & _ & Hd). apply Hrev in Hd. rewrite El in Hd. cbn in Hd.
    apply list_elem_of_split in Hd as (l1 & l2 & ->). rewrite foldl_app. cbn [foldl].
    destruct (grows_fold callee rc _ _ l1 st (add_caller_grows callee rc Hcr) HI Hc) as [HI1 He1].
    { intros x Hx. apply Hl, elem_of_app. by left. }
    pose proof (e_mono _ _ He1 _ _ Hc) as Hc1.
    assert (callee ∈ dependencies_of (by_key g) c) as Hd by (apply Hl, elem_of_app; right; by left).
    destruct (add_caller_grows callee rc Hcr _ c HI1 Hc1 Hd) as [HI2 He2].
    destruct (grows_fold callee rc _ _ l2 _ (add_caller_grows callee rc Hcr) HI2) as [_ He3].
    { by apply (e_mono _ _ He2). } { intros x Hx. apply Hl, elem_of_app. right. by right. }
    apply (extends_keys _ _ _ He3). unfold add_caller_of. rewrite bool_decide_eq_false_2 by tauto.
    apply add_affected_keys.
  - split; [done|]. split; [done|]. intros c (_ & _ & Hd). apply Hrev in Hd. rewrite El in Hd.
    by apply not_elem_of_nil in Hd.
Qed.

(** Every planned key is queued or has all its callers planned. *)
Definition closed_but_queue st : Prop :=
  ∀ k, is_Some (map_get k st.1) → k ∈ st.2 ∨ ∀ c, calls c k → is_Some (map_get c st.1).

Lemma expand_spec fuel st expanded :
  plan_inv st → closed_but_queue st → length st.2 + unplanned st.1 < fuel →
  ∃ m, expand_affected_closure fuel g st expanded = Some m ∧ plan_inv (m, []) ∧
    (∀ x r, map_get x st.1 = Some r → map_get x m = Some r) ∧ closed_but_queue (m, []).
Proof.
  revert st expanded. induction fuel as [|fuel IH]; intros [m q] expanded HI Hcl Hf; [lia|].
  cbn [expand_affected_closure fst snd] in *. destruct q as [|k q].
  { exists m. split; [done|]. split; [done|]. split; done. }
  assert (plan_inv (m, q)) as HIq.
  { split; try apply HI; cbn.
    - intros x Hx. apply (p_queue _ HI). by right.
    - pose proof (p_nodup _ HI) as Hn. by inversion_clear Hn. }
  assert (is_Some (map_get k m)) as Hkm.
  { apply map_get_keys; [apply HI|]. apply (p_queue _ HI). by left. }
  pose proof (expand_component_spec k (m, q) expanded HIq Hkm) as [HI1 He1].
  destruct (expand_component g k (m, q) expanded) as [st1 expanded'] eqn:E. cbn [fst] in HI1, He1.
  destruct (expand_callers_spec k st1 HI1) as (HI2 & He2 & Hcallers); [by apply (extends_keys _ _ _ He1)|].
  assert (extends (m, q) (expand_callers g k st1)) as He by by etrans.
  destruct (IH (expand_callers g k st1) expanded') as (m' & E' & HI' & Hmono & Hcl'); [done| | |].
  - intros x [Hx|Hx]%(e_new _ _ He); [|by left]. cbn in Hx.
    destruct (Hcl x Hx) as [[->|Hq]%elem_of_cons|Hc]; [by right| |].
    + left. by apply (e_queue _ _ He).
    + right. intros c Hcx. by apply (extends_keys _ _ _ He), Hc.
  - pose proof (e_fuel _ _ He) as Hfu. cbn [fst snd length] in Hf, Hfu. lia.
  - exists m'. split; [done|]. split; [done|]. split; [|done].
    intros x r Hx. by apply Hmono, (e_mono _ _ He).
Qed.

(** A closed plan contains everything that calls one of its keys. *)
Lemma closed_callers m k x :
  closed_but_queue (m, []) → is_Some (map_get k m) → calls_rtc (by_key g) (reachable g) x k →
  is_Some (map_get x m).
Proof.
  intros Hcl Hk. induction 1 as [|x y z Hxy _ IH]; [done|].
  destruct (Hcl y (IH Hk)) as [?%not_elem_of_nil|Hc]; [done|]. by apply Hc.
Qed.
End plan.

(** ** The graph of a program *)

(** The function whose file is missing first. *)
Definition first_missing (functions : list FunctionMeta) (files : list SourceFile)
    : option FunctionMeta :=
  snd <$> list_find (λ f, files !! Z.to_nat (file_id f) = None) functions.

Lemma collect_keys_spec files fs m :
  collect_keys files fs m =
  match first_missing fs files with
  | Some f => Err (missing_file f)
  | None => Ok (foldl (λ acc e, map_insert e.1 e.2 acc) m ((λ f, (id f, from_function f)) <$> fs))
  end.
Proof.
  unfold first_missing. revert m. induction fs as [|f fs IH]; intros m; [done|].
  cbn [collect_keys list_find fmap list_fmap foldl fst snd]. destruct (files !! Z.to_nat (file_id f)) as [s|] eqn:E.
  - rewrite IH. rewrite decide_False by done. by destruct (list_find _ fs) as [[]|].
  - by rewrite decide_True.
Qed.

Section build.
Context (functions : list FunctionMeta) (files : list SourceFile) (required : list str).
Context (Hids : NoDup (id <$> functions)) (Hkeys : NoDup (from_function <$> functions)).

Definition key_by_id : list (FunctionId * FunctionKey) :=
  foldl (λ acc e, map_insert e.1 e.2 acc) [] ((λ f, (id f, from_function f)) <$> functions).

Lemma map_get_key_by_id i k :
  map_get i key_by_id = Some k ↔ ∃ f, f ∈ functions ∧ id f = i ∧ from_function f = k.
Proof.
  unfold key_by_id. rewrite map_get_fold by constructor. split.
  - destruct (list_find _ _) as [[j e]|] eqn:E; [|done]. intros [= <-].
    apply list_find_Some in E as (Hj & -> & _). apply list_elem_of_lookup_2 in Hj.
    apply elem_of_reverse, list_elem_of_fmap in Hj as (f & -> & Hf). by exists f.
  - intros (f & Hf & <- & <-). destruct (list_find _ _) as [[j e]|] eqn:E.
    + apply list_find_Some in E as (Hj & Hi & _). apply list_elem_of_lookup_2 in Hj.
      apply elem_of_reverse, list_elem_of_fmap in Hj as (h & -> & Hh). cbn in Hi |- *.
      by rewrite (NoDup_fmap_elem id functions f h Hids Hf Hh Hi).
    + apply list_find_None in E. rewrite Forall_forall in E.
      by destruct (E (id f, from_function f)); [apply elem_of_reverse, (list_elem_of_fmap_2' _ _ f)|].
Qed.

Lemma elem_of_keys_of_ids ids k :
  k ∈ keys_of_ids key_by_id ids ↔ ∃ f, f ∈ functions ∧ id f ∈ ids ∧ from_function f = k.
Proof.
  unfold keys_of_ids. rewrite elem_of_set_of_list, list_elem_of_omap. setoid_rewrite map_get_key_by_id.
  naive_solver.
Qed.

(** Later functions do not disturb the entry of an earlier one. *)
Lemma index_functions_spec fs keyed rev :
  (∀ f, f ∈ fs → f ∈ functions) → NoDup (from_function <$> fs) → sorted_map keyed → sorted_map rev →
  ∃ keyed' rev', index_functions key_by_id fs keyed rev = Ok (keyed', rev') ∧ sorted_map keyed' ∧
    (∀ k, map_get k keyed' =
      match list_find (λ f, from_function f = k) fs with
      | Some (_, f) => Some (current_function key_by_id f)
      | None => map_get k keyed
      end) ∧
    ∀ c k, c ∈ callers_in rev' k ↔ c ∈ callers_in rev k ∨
      ∃ f, f ∈ fs ∧ from_function f = c ∧ k ∈ cf_dependencies (current_function key_by_id f).
Proof.
  revert keyed rev. induction fs as [|f fs IH]; intros keyed rev Hin Hnd Hk Hr; cbn [index_functions].
  { exists keyed, rev. split_and!; try done. intros c k. split; [by left|].
    intros [?|(f & ?%not_elem_of_nil & _)]; done. }
  assert (map_get (id f) key_by_id = Some (from_function f)) as ->.
  { apply map_get_key_by_id. exists f. split; [apply Hin; by left|done]. }
  apply NoDup_cons in Hnd as [Hf Hnd].
  destruct (add_callers_spec (from_function f) rev (cf_dependencies (current_function key_by_id f)) Hr)
    as [Hr' Hc].
  destruct (IH (map_insert (from_function f) (current_function key_by_id f) keyed)
    (foldl (add_caller (from_function f)) rev (cf_dependencies (current_function key_by_id f))))
    as (keyed' & rev' & -> & Hs' & Hg' & Hc'); [intros; apply Hin; by right|done|by apply map_insert_sorted|done|].
  exists keyed', rev'. split; [done|]. split; [done|]. split.
  - intros k. rewrite Hg'. cbn [list_find]. case_decide as Hfk.
    + subst k. rewrite map_get_insert.
      destruct (list_find _ fs) as [[j h]|] eqn:E; [|done]. exfalso.
      apply list_find_Some in E as (Hj & Hh & _). apply Hf. rewrite <- Hh.
      apply list_elem_of_fmap_2. by eapply list_elem_of_lookup_2.
    + rewrite map_get_insert_ne by done. by destruct (list_find _ fs) as [[]|].
  - intros c k. rewrite Hc', Hc. setoid_rewrite elem_of_cons. naive_solver.
Qed.

(** The graph says of its functions what the source says of them. *)
Record describes (g : CurrentGraph) : Prop := {
  ds_by_key : ∀ k current, map_get k (by_key g) = Some current ↔
    ∃ f, f ∈ functions ∧ from_function f = k ∧ current = current_function key_by_id f;
  ds_reachable : ∀ k, k ∈ reachable g ↔
    ∃ f ids, f ∈ functions ∧ from_function f = k ∧
      compute_reachable_function_ids functions required = Some ids ∧ id f ∈ ids;
  ds_host : ∀ k, k ∈ host_entries g ↔
    ∃ f, f ∈ functions ∧ from_function f = k ∧ is_helper f = false ∧
      ∃ root, root ∈ LIFECYCLE_ROOTS ++ required ∧ matches_root f root = true;
}.

Lemma host_entries_spec k :
  k ∈ compute_host_entries functions required key_by_id ↔
  ∃ f, f ∈ functions ∧ from_function f = k ∧ is_helper f = false ∧
    ∃ root, root ∈ LIFECYCLE_ROOTS ++ required ∧ matches_root f root = true.
Proof.
  unfold compute_host_entries. rewrite elem_of_keys_of_ids. split.
  - intros (f & Hf & Hi & Hk). apply list_elem_of_fmap in Hi as (h & Hi & Hh).
    apply list_elem_of_filter in Hh as [(Hn & _ & Hm) Hh].
    apply (NoDup_fmap_elem id functions f h Hids Hf Hh) in Hi as <-.
    apply existsb_exists in Hm as (root & Hr & Hm). rewrite <- list_elem_of_In in Hr. eauto 8.
  - intros (f & Hf & Hk & Hn & root & Hr & Hm). exists f. split; [done|]. split; [|done].
    apply list_elem_of_fmap_2, list_elem_of_filter. split; [|done]. split; [done|]. split.
    + apply elem_of_set_of_list. unfold matches_root in Hm. apply andb_true_iff in Hm as [Hm _].
      apply bool_decide_eq_true in Hm. by rewrite Hm.
    + apply existsb_exists. exists root. by rewrite <- list_elem_of_In.
Qed.

Lemma CurrentGraph_build_spec :
  first_missing functions files = None →
  ∃ g, CurrentGraph_build functions files required = Some (Ok g) ∧ graph_ok g ∧ describes g.
Proof.
  intros Hm. unfold CurrentGraph_build. rewrite collect_keys_spec, Hm. fold key_by_id.
  destruct (compute_reachable_spec functions required Development) as (ids & Hr & _ & _).
  fold (compute_reachable_function_ids functions required) in Hr. rewrite Hr. cbn [mbind option_bind].
  destruct (index_functions_spec functions [] []) as (keyed & rev & -> & Hs & Hg & Hc); [done|done|constructor..|].
  destruct (scc_spec keyed (keys_of_ids key_by_id ids) Hs) as (index & comps & -> & Hex & Hcov & Hi).
  cbn [mbind option_bind]. eexists. split; [done|].
  assert (∀ k current, map_get k keyed = Some current ↔
    ∃ f, f ∈ functions ∧ from_function f = k ∧ current = current_function key_by_id f) as Hby.
  { intros k cur. rewrite Hg. split.
    - destruct (list_find _ functions) as [[j f]|] eqn:E; [|done]. intros [= <-].
      apply list_find_Some in E as (Hj & Hf & _). apply list_elem_of_lookup_2 in Hj. by exists f.
    - intros (f & Hf & Hk & ->). destruct (list_find _ functions) as [[j h]|] eqn:E.
      + apply list_find_Some in E as (Hj & Hh & _). apply list_elem_of_lookup_2 in Hj.
        by rewrite (NoDup_fmap_elem from_function functions f h Hkeys Hf Hj) by congruence.
      + apply list_find_None in E. rewrite Forall_forall in E. by destruct (E f Hf). }
  split; split; cbn [by_key reachable reverse_calls host_entries scc_index_by_key sccs]; try done.
  - apply set_of_list_sorted.
  - intros k (f & Hf & _ & Hk)%elem_of_keys_of_ids. eexists. apply Hby. by exists f.
  - intros c k. rewrite Hc. unfold dependencies_of, callers_in. cbn. rewrite elem_of_nil. split.
    + intros [[]|(f & Hf & <- & Hk)].
      by rewrite (proj2 (Hby (from_function f) (current_function key_by_id f)) ltac:(by exists f)).
    + destruct (map_get c keyed) as [cur|] eqn:E; [|by intros ?%not_elem_of_nil].
      apply Hby in E as (f & Hf & <- & ->). right. by exists f.
  - intros k i C (D & HD & Hk)%Hi HC x Hx. assert (D = C) as -> by congruence.
    assert (C ∈ comps) as HCin by by eapply list_elem_of_lookup_2.
    destruct (Hex C HCin) as (_ & s & _ & Hm'). split; [|apply Hcov; by exists C].
    etrans; [by apply Hm'|]. symmetry. by apply Hm'.
  - intros k. rewrite elem_of_keys_of_ids. naive_solver.
  - intros k. apply host_entries_spec.
Qed.
End build.

(** ** The plan of a graph *)

Lemma NoDup_sub_length {A} `{EqDecision A} (l m : list A) :
  NoDup l → (∀ x, x ∈ l → x ∈ m) → length l ≤ length m.
Proof. intros Hn Hs. by apply submseteq_length, NoDup_submseteq. Qed.

Section plan_graph.
Context (g : CurrentGraph) (Hg : graph_ok g).
Context (accepted : option AcceptedProgram) (lowered : list FunctionKey).

Lemma closure_fuel st :
  plan_inv g accepted lowered st →
  length st.2 + unplanned g st.1 < S (length (reachable g) + length (reachable g)).
Proof.
  intros HI.
  assert (length st.2 ≤ length (reachable g)).
  { apply NoDup_sub_length; [apply HI|]. intros x Hx. by eapply p_reachable, p_queue. }
  unfold unplanned.
  pose proof (weight_left_total (λ k, k) (λ _, 1) (reachable g) st.1.*1).
  assert (sum_list_with (λ _ : FunctionKey, 1) (reachable g) = length (reachable g)) as Hlen; [|lia].
  clear. induction (reachable g); simpl; lia.
Qed.

Lemma plan_graph_spec :
  ∃ changed m, plan_graph g accepted lowered = Some (Ok (finish_plan g accepted changed m)) ∧
    plan_inv g accepted lowered (m, []) ∧
    (∀ k, k ∈ changed ↔ is_seed g accepted lowered k) ∧
    ∀ k, k ∈ m.*1 ↔ ∃ s, is_seed g accepted lowered s ∧ calls_rtc (by_key g) (reachable g) k s.
Proof.
  destruct (seeds_spec g Hg accepted lowered) as (st & Hst & [HI Hq] & Hseed).
  unfold plan_graph. rewrite Hst. exists st.1.*1.
  assert (∀ k, k ∈ st.1.*1 ↔ is_seed g accepted lowered k) as Hch.
  { intros k. rewrite <- Hseed. symmetry. apply map_get_keys, HI. }
  assert (∀ m k, plan_inv g accepted lowered (m, []) → k ∈ m.*1 →
    ∃ s, is_seed g accepted lowered s ∧ calls_rtc (by_key g) (reachable g) k s) as Hsound.
  { intros m k HIm Hk. apply map_get_keys in Hk as [r Hr]; [|apply HIm].
    destruct (p_explained _ _ _ _ HIm _ _ Hr) as [_ Hex]. by eapply explained_from_seed. }
  assert (plan_inv g accepted lowered (st.1, [])) as HI0.
  { split; try apply HI; cbn; [by intros x ?%not_elem_of_nil|constructor]. }
  destruct accepted as [a|] eqn:Ha.
  - destruct (expand_spec g Hg (Some a) lowered (S (length (reachable g) + length (reachable g))) st []
      HI) as (m & Hm & HIm & Hmono & Hcl).
    { intros k Hk. left. by apply Hq. } { rewrite <- Ha in HI. by apply closure_fuel. }
    exists m. rewrite Hm. split; [done|]. split; [done|]. split; [done|]. intros k. split; [by apply Hsound|].
    intros (s & Hs & Hks). apply map_get_keys; [apply HIm|].
    eapply (closed_callers g m s); [exact Hcl| |done].
    apply Hseed in Hs as [r Hr]. exists r. by apply Hmono.
  - exists st.1. split; [done|]. split; [done|]. split; [done|]. intros k. split; [by apply Hsound|].
    intros (s & [Hs _] & Hks). apply Hch. split; [|done]. by eapply calls_rtc_reach.
Qed.
End plan_graph.

(** ** Properties *)

Section properties.
Context (functions : list FunctionMeta) (files : list SourceFile) (required : list str).

(** The program can be planned: its files exist, its ids and keys are distinct. *)
Definition plannable : Prop :=
  first_missing functions files = None ∧ NoDup (id <$> functions) ∧
  NoDup (from_function <$> functions).

Lemma plan_patch_spec accepted lowered :
  plannable →
  ∃ g changed m, CurrentGraph_build functions files required = Some (Ok g) ∧
    graph_ok g ∧ describes functions required g ∧
    plan_patch functions files required accepted lowered =
      Some (Ok (finish_plan g accepted changed m)) ∧
    plan_inv g accepted lowered (m, []) ∧
    (∀ k, k ∈ changed ↔ is_seed g accepted lowered k) ∧
    ∀ k, k ∈ m.*1 ↔ ∃ s, is_seed g accepted lowered s ∧ calls_rtc (by_key g) (reachable g) k s.
Proof.
  intros (Hm & Hi & Hk). destruct (CurrentGraph_build_spec functions files required Hi Hk Hm)
    as (g & Hb & Hg & Hd).
  destruct (plan_graph_spec g Hg accepted lowered) as (changed & m & Hp & HI & Hc & Hr).
  exists g, changed, m. unfold plan_patch. rewrite Hb. done.
Qed.


(** Reusing a function is safe: it was reachable in the accepted program with
    the same body, its lowering contract did not change, no template it expands
    changed, no callee it was compiled against was removed, and every reachable
    function it calls is reused as well. *)
Theorem reused_is_current (a : AcceptedProgram) (lowered : list FunctionKey) (H : plannable) :
  ∃ g plan, CurrentGraph_build functions files required = Some (Ok g) ∧
    plan_patch functions files required (Some a) lowered = Some (Ok plan) ∧
    ∀ k, k ∈ reused plan →
      ∃ previous current,
        map_get k (ap_functions a) = Some previous ∧ map_get k (by_key g) = Some current ∧
        k ∈ ap_reachable a ∧ af_body_hash previous = cf_body_hash current ∧ (k ∉ lowered) ∧
        (∀ d, d ∈ cf_dependencies current → template_changed g a d = false) ∧
        (∀ d, d ∈ af_dependencies previous → d ∉ removed_reachable g a) ∧
        ∀ d, d ∈ cf_dependencies current → d ∈ reachable g → d ∈ reused plan.
Proof.
  destruct (plan_patch_spec (Some a) lowered H) as (g & ch & m & Hb & Hg & _ & Hp & _ & _ & Hr).
  exists g. eexists. split; [done|]. split; [exact Hp|]. intros k. cbn.
  generalize dependent m.*1. intros ks Hr [Hn Hk]%list_elem_of_filter.
  assert (¬ is_seed g (Some a) lowered k) as Hs.
  { intros Hs. apply Hn, Hr. by exists k. }
  destruct (g_known _ Hg k Hk) as [cur Hc].
  assert (seed_reason a lowered k cur = None) as Hseed.
  { destruct (seed_reason a lowered k cur) eqn:E; [|done]. destruct Hs. split; [done|].
    left. exists cur. by rewrite E. }
  unfold seed_reason in Hseed. destruct (map_get k (ap_functions a)) as [prev|] eqn:Ep; [|done].
  case_bool_decide as Ha; [done|]. destruct (negb _) eqn:Eh; [done|].
  case_bool_decide as Hl; [done|]. apply negb_false_iff, Z.eqb_eq in Eh.
  exists prev, cur. split_and!; try done.
  - intros d Hd. destruct (template_changed g a d) eqn:Et; [|done]. destruct Hs. split; [done|].
    right. left. unfold changed_template, dependencies_of. rewrite Hc. intros Hf.
    apply fmap_None, list_find_None in Hf. rewrite Forall_forall in Hf. by apply (Hf d).
  - intros d Hd Hrm. destruct Hs. split; [done|]. do 2 right. unfold removed_callee. rewrite Ep.
    cbn [mbind option_bind]. intros Hf. apply fmap_None, list_find_None in Hf.
    rewrite Forall_forall in Hf. by apply (Hf d).
  - intros d Hd Hdr. apply list_elem_of_filter. split; [|done]. intros Hdk. apply Hn, Hr.
    apply Hr in Hdk as (s & Hs' & Hds). exists s. split; [done|].
    eapply rtc_l; [|exact Hds]. split; [done|]. split; [done|]. unfold dependencies_of. by rewrite Hc.
Qed.

(** Every function compiled again has one reason, and the reason is true: it
    names what changed, and its path leads from the change, through callers and
    keys of a component, to the function. *)
Theorem reasons_are_true (accepted : option AcceptedProgram) (lowered : list FunctionKey)
    (H : plannable) :
  ∃ g plan, CurrentGraph_build functions files required = Some (Ok g) ∧
    plan_patch functions files required accepted lowered = Some (Ok plan) ∧
    pr_function <$> reasons plan = re_jit plan ∧
    (∀ k, k ∈ re_jit plan → ∃ r, reason_for plan k = Some r ∧ pr_function r = k ∧
      last (path_from_change r) = Some k) ∧
    ∀ r, r ∈ reasons plan → explained g accepted lowered (pr_function r) (pr_reason r) (path_from_change r).
Proof.
  destruct (plan_patch_spec accepted lowered H) as (g & ch & m & Hb & Hg & _ & Hp & HI & _ & _).
  assert (∀ k r, (k, r) ∈ m → pr_function r = k ∧
    explained g accepted lowered k (pr_reason r) (path_from_change r)) as Hall.
  { intros k r Hkr. apply (p_explained _ _ _ _ HI). apply map_get_elem; [apply HI|done]. }
  exists g. eexists. split; [done|]. split; [exact Hp|].
  unfold reason_for. cbn [reasons re_jit finish_plan]. split_and!.
  - clear -Hall. induction m as [|[k r] m IH]; [done|]. rewrite !fmap_cons. cbn [snd fst].
    f_equal; [by apply Hall; left|]. apply IH. intros. apply Hall. by right.
  - intros k Hk. destruct (list_find _ m.*2) as [[i r]|] eqn:E.
    + exists r. split; [done|]. apply list_find_Some in E as (Hi & Hf & _). split; [done|].
      apply list_elem_of_lookup_2, list_elem_of_fmap in Hi as ([k' r'] & -> & Hin). cbn in *.
      destruct (Hall _ _ Hin) as [Hk' He]. rewrite <- Hf, Hk'.
      by inversion He; subst; rewrite ?last_snoc.
    + exfalso. apply list_find_None in E. rewrite Forall_forall in E.
      apply list_elem_of_fmap in Hk as ([k' r] & -> & Hin).
      by apply (E r); [apply (list_elem_of_fmap_2' _ _ (k', r))|apply Hall].
  - intros r ([k r'] & -> & Hin)%list_elem_of_fmap. cbn. destruct (Hall _ _ Hin) as [-> He]. done.
Qed.

(** A plan fails exactly when a function's file is missing, and the error
    names the first such function; the planner's other error, a reachable
    function without an entry, cannot happen. *)
Theorem plan_errors (accepted : option AcceptedProgram) (lowered : list FunctionKey)
    (Hids : NoDup (id <$> functions)) (Hkeys : NoDup (from_function <$> functions)) :
  match first_missing functions files with
  | Some f => plan_patch functions files required accepted lowered = Some (Err (missing_file f))
  | None => ∃ plan, plan_patch functions files required accepted lowered = Some (Ok plan)
  end.
Proof.
  destruct (first_missing functions files) as [f|] eqn:E.
  - unfold plan_patch, CurrentGraph_build. by rewrite collect_keys_spec, E.
  - destruct (plan_patch_spec accepted lowered) as (g & ch & m & _ & _ & _ & Hp & _); [done|].
    eexists. exact Hp.
Qed.

(** A program planned against its own accepted capture compiles nothing
    again: every reachable function is reused and nothing is removed. *)
Theorem accepted_program_is_reused (H : plannable) :
  ∃ a plan, capture_accepted_program functions files required = Some (Ok a) ∧
    plan_patch functions files required (Some a) [] = Some (Ok plan) ∧
    changed plan = [] ∧ re_jit plan = [] ∧ removed plan = [] ∧ reused plan = ap_reachable a.
Proof.
  destruct (CurrentGraph_build_spec functions files required) as (g & Hb & Hg & Hd); [apply H..|].
  pose (a := mkAcceptedProgram
    ((λ e, (e.1, mkAcceptedFunction e.1 (cf_body_hash e.2) (cf_dependencies e.2))) <$> by_key g)
    (reachable g)).
  assert (ap_functions a = (λ e, (e.1, mkAcceptedFunction e.1 (cf_body_hash e.2) (cf_dependencies e.2)))
    <$> by_key g) as Hfun by done.
  assert (∀ k, map_get k (ap_functions a) =
    (λ c, mkAcceptedFunction k (cf_body_hash c) (cf_dependencies c)) <$> map_get k (by_key g)) as Hget.
  { intros k. rewrite Hfun. clear. induction (by_key g) as [|[k' c] l IH]; [done|].
    rewrite fmap_cons. cbn [fst snd map_get]. destruct (cmp k k') eqn:E; [|done|exact IH].
    by apply cmp_eq in E as ->. }
  assert (removed_keys g a = []) as Hrm.
  { unfold removed_keys. apply elem_of_nil_inv.
    intros k [Hn [[k' f] [-> Hin]]%list_elem_of_fmap]%list_elem_of_filter.
    rewrite Hfun in Hin. apply list_elem_of_fmap in Hin as ([k2 c] & [= -> ->] & Hin). cbn in Hn.
    apply map_get_elem in Hin; [congruence|apply Hg]. }
  assert (removed_reachable g a = []) as Hrr by (unfold removed_reachable; by rewrite Hrm).
  assert (∀ k, ¬ is_seed g (Some a) [] k) as Hno.
  { intros k [Hk [(cur & Hc & Hs)|[Hs|Hs]]]; apply Hs; clear Hs.
    - unfold seed_reason. rewrite Hget, Hc. cbn [fmap option_fmap option_map af_body_hash].
      rewrite bool_decide_eq_false_2 by tauto. by rewrite Z.eqb_refl.
    - unfold changed_template. rewrite (proj2 (list_find_None _ _)); [done|].
      apply Forall_forall. intros d _. unfold template_changed. rewrite Hget.
      destruct (map_get d (by_key g)); [|done]. cbn. by rewrite Z.eqb_refl, andb_false_r.
    - unfold removed_callee. destruct (map_get k (ap_functions a)); [|done].
      cbn [mbind option_bind]. rewrite (proj2 (list_find_None _ _)); [done|].
      apply Forall_forall. intros d _. rewrite Hrr. by intros ?%not_elem_of_nil. }
  exists a. destruct (plan_graph_spec g Hg (Some a) []) as (ch & m & Hp & _ & Hc & Hr).
  eexists. split; [by unfold capture_accepted_program; rewrite Hb|].
  split; [unfold plan_patch; rewrite Hb; exact Hp|]. cbn [changed re_jit removed reused finish_plan].
  assert (m.*1 = []) as ->.
  { apply elem_of_nil_inv. intros k (s & Hs & _)%Hr. by apply (Hno s). }
  split_and!; [|done|done|].
  - apply elem_of_nil_inv. intros k Hk%Hc. by apply (Hno k).
  - cbn. clear. induction (reachable g) as [|k l IH]; [done|].
    rewrite filter_cons_True by apply not_elem_of_nil. by f_equal.
Qed.
End properties.

(** ** A plan: [step] got a new body, so it and its caller [tick] are compiled
    again; [on_code_swap] and [orphan] are reused. *)

Definition sample_files : list SourceFile := [mkSourceFile (string_bytes "main.stasis") [] [] 0 [1; 2]%Z].

Definition with_body (h : Z) (f : FunctionMeta) : FunctionMeta := {|
  id := id f; symbol_id := symbol_id f; storage_index := storage_index f; name := name f;
  module_alias := module_alias f; name_hash := name_hash f; file_id := file_id f;
  source_range := source_range f; signature_range := signature_range f;
  signature_hash := signature_hash f; body_hash := h; param_names := param_names f;
  params := params f; return_type := return_type f; inline := inline f;
  host_export := host_export f; effect_contract := effect_contract f;
  requires_contract := requires_contract f; dependencies := dependencies f;
  dependents := dependents f; call_sites := call_sites f; dirty := dirty f;
|}.

Definition edited_program : list FunctionMeta :=
  (λ f, if (id f =? 2)%Z then with_body 7 f else f) <$> sample_program.

Definition sample_accepted : AcceptedProgram :=
  match capture_accepted_program sample_program sample_files [] with
  | Some (Ok a) => a
  | _ => mkAcceptedProgram [] []
  end.

Example sample_plan :
  (λ p, match p with
        | Ok p => (canonical ∘ fk_symbol_id <$> re_jit p, canonical ∘ fk_symbol_id <$> reused p)
        | Err _ => ([], [])
        end) <$> plan_patch edited_program sample_files [] (Some sample_accepted) [] =
  Some (string_bytes <$> ["step"; "tick"]%string, string_bytes <$> ["on_code_swap"; "orphan"]%string).
Proof. by vm_compute. Qed.

Lemma sample_plannable : plannable edited_program sample_files.
Proof. split; [by vm_compute|]. split; apply (bool_decide_unpack _); by vm_compute. Qed.


Lemma reused_is_current_witness :
  plannable edited_program sample_files ∧
  ∃ g plan, CurrentGraph_build edited_program sample_files [] = Some (Ok g) ∧
    plan_patch edited_program sample_files [] (Some sample_accepted) [] = Some (Ok plan) ∧
    ∀ k, k ∈ reused plan →
      ∃ previous current,
        map_get k (ap_functions sample_accepted) = Some previous ∧
        map_get k (by_key g) = Some current ∧
        k ∈ ap_reachable sample_accepted ∧ af_body_hash previous = cf_body_hash current ∧ (k ∉ []) ∧
        (∀ d, d ∈ cf_dependencies current → template_changed g sample_accepted d = false) ∧
        (∀ d, d ∈ af_dependencies previous → d ∉ removed_reachable g sample_accepted) ∧
        ∀ d, d ∈ cf_dependencies current → d ∈ reachable g → d ∈ reused plan.
Proof.
  split; [exact sample_plannable|].
  apply (reused_is_current edited_program sample_files [] sample_accepted [] sample_plannable).
Defined.

Lemma reasons_are_true_witness :
  plannable edited_program sample_files ∧
  ∃ g plan, CurrentGraph_build edited_program sample_files [] = Some (Ok g) ∧
    plan_patch edited_program sample_files [] (Some sample_accepted) [] = Some (Ok plan) ∧
    pr_function <$> reasons plan = re_jit plan ∧
    (∀ k, k ∈ re_jit plan → ∃ r, reason_for plan k = Some r ∧ pr_function r = k ∧
      last (path_from_change r) = Some k) ∧
    ∀ r, r ∈ reasons plan →
      explained g (Some sample_accepted) [] (pr_function r) (pr_reason r) (path_from_change r).
Proof.
  split; [exact sample_plannable|].
  apply (reasons_are_true edited_program sample_files [] (Some sample_accepted) [] sample_plannable).
Defined.

Lemma plan_errors_witness :
  NoDup (id <$> edited_program) ∧
  match first_missing edited_program [] with
  | Some f => plan_patch edited_program [] [] None [] = Some (Err (missing_file f))
  | None => ∃ plan, plan_patch edited_program [] [] None [] = Some (Ok plan)
  end.
Proof.
  split; [apply sample_plannable|].
  apply (plan_errors edited_program [] [] None [] (proj1 (proj2 sample_plannable))
    (proj2 (proj2 sample_plannable))).
Defined.

Lemma accepted_program_is_reused_witness :
  plannable edited_program sample_files ∧
  ∃ a plan, capture_accepted_program edited_program sample_files [] = Some (Ok a) ∧
    plan_patch edited_program sample_files [] (Some a) [] = Some (Ok plan) ∧
    changed plan = [] ∧ re_jit plan = [] ∧ removed plan = [] ∧ reused plan = ap_reachable a.
Proof.
  split; [exact sample_plannable|].
  apply (accepted_program_is_reused edited_program sample_files [] sample_plannable).
Defined.
