(* ===== verification/Hir.v ===== *)
(** * The intermediate representation and its constant folder

    Models [crates/stasis_compiler/src/ir/hir.rs]: the typed trees every analysis
    and code generator consumes, the operators with their spelling and
    precedence, the recognition of contextual integer literals, and the constant
    folder [eval_const_i64], with [i64] checked arithmetic and [i32] bitwise
    lanes kept at their widths. *)

From S2P Require Import Prelude Identity Functions.
#[local] Set Warnings "-register-all,-clear-no-such-hyp".
#[local] Open Scope Z_scope.

(** ** Identities and constants *)

Definition SourceSpan : Type := Z * Z.     (* Range<u32> *)

Record SourceTypeOrigin := mkOrigin { sto_path : str; sto_name : str }.

Inductive CompileTimeValueOwner := FlatOwner | GroupOwner (group : str) | EnumOwner (enum : str).

Record CompileTimeValueId := mkValueId {
  ctv_source_path : str;
  ctv_owner : CompileTimeValueOwner;
  ctv_member : str;
}.

Inductive ResolvedConstantValue :=
| Scalar (bits : Z) (nominal_origin : option SourceTypeOrigin)
| ConstString (text : str).

Record ExternCallIdentity := mkExternCall {
  eci_source_path : str;
  eci_name : str;
  symbol_candidates : list str;
  declared_params : list str;
  declared_return_type : str;
}.

Inductive ResolvedCallTarget := TargetFunction (f : Z) | TargetExtern (e : ExternCallIdentity).

(** ** Operators *)

Inductive ExprBinaryOp :=
| Add | Subtract | Multiply | Divide | Remainder | ShiftLeft | ShiftRight | BitAnd | BitXor | BitOr.

Inductive ExprUnaryOp := Negate | BitwiseNot.
Inductive ComparisonOp := CmpEq | CmpNe | CmpLt | CmpLe | CmpGt | CmpGe.
Inductive AssignOp := AssignSet | AssignAdd | AssignSub | AssignMul | AssignDiv | AssignMod.
Inductive ConversionKind := FromI32 | FromF32 | FromF64.

Definition binary_spelling (op : ExprBinaryOp) : string :=
  match op with
  | Add => "+" | Subtract => "-" | Multiply => "*" | Divide => "/" | Remainder => "%"
  | ShiftLeft => "<<" | ShiftRight => ">>" | BitAnd => "&" | BitXor => "^" | BitOr => "|"
  end%string.

Definition precedence (op : ExprBinaryOp) : Z :=
  match op with
  | Multiply | Divide | Remainder => 100
  | Add | Subtract => 90
  | ShiftLeft | ShiftRight => 80
  | BitAnd => 60
  | BitXor => 50
  | BitOr => 40
  end.

Definition requires_integer_operands (op : ExprBinaryOp) : bool :=
  match op with ShiftLeft | ShiftRight | BitAnd | BitXor | BitOr => true | _ => false end.

Definition is_shift (op : ExprBinaryOp) : bool :=
  match op with ShiftLeft | ShiftRight => true | _ => false end.

Definition unary_spelling (op : ExprUnaryOp) : string :=
  match op with Negate => "-" | BitwiseNot => "~" end%string.

(** ** Trees

    An [f64] literal is represented by its bits; nothing here computes with it. *)

Inductive SimpleExpr :=
| DefaultValue (type_id : TypeId)
| Int (value : Z)
| Float (bits : Z)
| Bool (value : bool)
| StringLiteral (text : str)
| ResolvedConstant (id : CompileTimeValueId) (type_id : TypeId) (value : ResolvedConstantValue)
| Condition (condition : SimpleCondition)
| Identifier (name : str)
| IndexedPathExpr (collection_path : str) (index : SimpleExpr) (suffix : str)
    (nested_index : option SimpleExpr)
| Call (target : str) (args : list SimpleExpr) (source_span : option SourceSpan)
    (resolved_target : option ResolvedCallTarget)
| Unary (op : ExprUnaryOp) (operand : SimpleExpr)
| Binary (lhs : SimpleExpr) (op : ExprBinaryOp) (rhs : SimpleExpr)
with SimpleCondition :=
| Comparison (lhs : SimpleExpr) (op : ComparisonOp) (rhs : SimpleExpr)
| CondExpr (e : SimpleExpr)
| CondAnd (l r : SimpleCondition)
| CondOr (l r : SimpleCondition)
| CondNot (c : SimpleCondition).

Inductive AssignTarget :=
| LocalTarget (name : str)
| GlobalPath (path : str)
| IndexedPathTarget (collection_path : str) (index : SimpleExpr) (suffix : str)
    (nested_index : option SimpleExpr).

Inductive SimpleStmt :=
| Noop
| LetStmt (name : str) (type_id : option TypeId) (expression : SimpleExpr)
| Assign (target : AssignTarget) (op : AssignOp) (expression : SimpleExpr)
| Convert (target : AssignTarget) (kind : ConversionKind) (method_span : SourceSpan) (source : SimpleExpr)
| IfStmt (condition : SimpleCondition) (then_statements : list SimpleStmt)
    (else_statements : option (list SimpleStmt))
| ForStmt (init : SimpleStmt) (condition : SimpleCondition) (step : SimpleStmt)
    (body_statements : list SimpleStmt)
| Foreach (item_name : str) (index_name : option str) (collection_path : str)
    (body_statements : list SimpleStmt)
| ExprStmt (e : SimpleExpr)
| Continue
| Return (e : SimpleExpr)
| ReturnVoid.

Inductive DebugStatement := mkDebugStatement (source_offset : Z) (children : list DebugStatement).

Record ParsedSimpleStatements := mkParsed {
  parsed_statements : list SimpleStmt;
  parsed_debug : list DebugStatement;
}.

Record FunctionHIR := mkFunctionHIR {
  hir_statements : list SimpleStmt;
  hir_debug_statements : list DebugStatement;
}.

(** ** Contextual integer literals *)

Definition checked_neg (v : Z) : option Z := checked_i 64 (- v).

Fixpoint contextual_integer_literal_value (e : SimpleExpr) : option Z :=
  match e with
  | Int value => Some value
  | Unary Negate operand => v ← contextual_integer_literal_value operand; checked_neg v
  | Binary (Int 0) Subtract rhs => v ← contextual_integer_literal_value rhs; checked_neg v
  | _ => None
  end.

Fixpoint is_contextual_integer_expression (e : SimpleExpr) : bool :=
  match contextual_integer_literal_value e with
  | Some _ => true
  | None =>
      match e with
      | Unary (BitwiseNot | Negate) operand => is_contextual_integer_expression operand
      | Binary lhs (BitAnd | BitXor | BitOr) rhs =>
          is_contextual_integer_expression lhs && is_contextual_integer_expression rhs
      | Binary lhs (ShiftLeft | ShiftRight) _ => is_contextual_integer_expression lhs
      | _ => false
      end
  end.

(** ** Constant folding *)

Definition as_i32 (v : Z) : Z := swrap 32 v.

(** [wrapping_shl] and [wrapping_shr] on an [i32]. *)
Definition i32_wrapping_shl (v n : Z) : Z := swrap 32 (Z.shiftl v n).
Definition i32_wrapping_shr (v n : Z) : Z := Z.shiftr v n.

Definition checked_div (l r : Z) : option Z :=
  if r =? 0 then None else checked_i 64 (Z.quot l r).
Definition checked_rem (l r : Z) : option Z :=
  if r =? 0 then None else if (l =? - 2 ^ 63) && (r =? -1) then None else Some (Z.rem l r).

Definition shift_count (r : Z) : Z := Z.land (wrap 32 r) 31.

Definition eval_binary (op : ExprBinaryOp) (lhs rhs : Z) : option Z :=
  match op with
  | Add => checked_i 64 (lhs + rhs)
  | Subtract => checked_i 64 (lhs - rhs)
  | Multiply => checked_i 64 (lhs * rhs)
  | Divide => if negb (rhs =? 0) then checked_div lhs rhs else None
  | Remainder => if negb (rhs =? 0) then checked_rem lhs rhs else None
  | BitAnd => Some (Z.land (as_i32 lhs) (as_i32 rhs))
  | BitXor => Some (Z.lxor (as_i32 lhs) (as_i32 rhs))
  | BitOr => Some (Z.lor (as_i32 lhs) (as_i32 rhs))
  | ShiftLeft => Some (i32_wrapping_shl (as_i32 lhs) (shift_count rhs))
  | ShiftRight => Some (i32_wrapping_shr (as_i32 lhs) (shift_count rhs))
  end.

Definition eval_scalar (type_id : TypeId) (bits : Z) (nominal_origin : option SourceTypeOrigin)
    : option Z :=
  match nominal_origin with
  | Some _ => Some (as_i32 (wrap 32 bits))
  | None =>
      if type_id =? TYPE_ID_I32 then Some (as_i32 (wrap 32 bits))
      else if type_id =? TYPE_ID_U8 then Some (wrap 8 bits)
      else if type_id =? TYPE_ID_U16 then Some (wrap 16 bits)
      else if type_id =? TYPE_ID_U32 then Some (wrap 32 bits)
      else None
  end.

Fixpoint eval_const_i64 (e : SimpleExpr) : option Z :=
  match e with
  | Int value => Some value
  | ResolvedConstant _ type_id (Scalar bits nominal_origin) => eval_scalar type_id bits nominal_origin
  | Unary Negate operand => v ← eval_const_i64 operand; checked_neg v
  | Unary BitwiseNot operand => v ← eval_const_i64 operand; Some (Z.lnot (as_i32 v))
  | Binary lhs op rhs => l ← eval_const_i64 lhs; r ← eval_const_i64 rhs; eval_binary op l r
  | _ => None
  end.

(** ** Reference semantics

    Mathematical integers, the lanes of the language, and nothing else: an
    arithmetic result that does not fit has no value, a bitwise result is the
    [i32] with the prescribed bits. *)

(** The literals of the folded part of an expression are [i64]s. *)
Fixpoint literals_ok (e : SimpleExpr) : Prop :=
  match e with
  | Int v => in_i 64 v
  | Unary _ operand => literals_ok operand
  | Binary lhs _ rhs => literals_ok lhs ∧ literals_ok rhs
  | _ => True
  end.

(** [u] is the [i32] whose bits are [f 0], ..., [f 31]. *)
Definition i32_with_bits (f : Z → bool) (u : Z) : Prop :=
  in_i 32 u ∧ ∀ i, 0 ≤ i < 32 → Z.testbit u i = f i.

(** The lane of a resolved scalar: an enum or an [i32], or an unsigned type. *)
Inductive scalar_lane : TypeId → option SourceTypeOrigin → Z → Z → Prop :=
| lane_enum ty origin bits v :
    in_i 32 v → v `mod` 2 ^ 32 = bits `mod` 2 ^ 32 → scalar_lane ty (Some origin) bits v
| lane_i32 bits v :
    in_i 32 v → v `mod` 2 ^ 32 = bits `mod` 2 ^ 32 → scalar_lane TYPE_ID_I32 None bits v
| lane_unsigned ty w bits v :
    (ty = TYPE_ID_U8 ∧ w = 8) ∨ (ty = TYPE_ID_U16 ∧ w = 16) ∨ (ty = TYPE_ID_U32 ∧ w = 32) →
    in_u w v → v = bits `mod` 2 ^ w → scalar_lane ty None bits v.

Inductive const_value : SimpleExpr → Z → Prop :=
| cv_int v : const_value (Int v) v
| cv_scalar i ty bits origin v :
    scalar_lane ty origin bits v → const_value (ResolvedConstant i ty (Scalar bits origin)) v
| cv_negate e v : const_value e v → in_i 64 (- v) → const_value (Unary Negate e) (- v)
| cv_not e v u :
    const_value e v → i32_with_bits (λ i, negb (Z.testbit v i)) u → const_value (Unary BitwiseNot e) u
| cv_arith op f a b l r :
    (op, f) ∈ [(Add, Z.add); (Subtract, Z.sub); (Multiply, Z.mul)] →
    const_value a l → const_value b r → in_i 64 (f l r) → const_value (Binary a op b) (f l r)
| cv_division op f a b l r :
    (op, f) ∈ [(Divide, Z.quot); (Remainder, Z.rem)] →
    const_value a l → const_value b r → r ≠ 0 → in_i 64 (Z.quot l r) →
    const_value (Binary a op b) (f l r)
| cv_bitwise op f a b l r u :
    (op, f) ∈ [(BitAnd, andb); (BitXor, xorb); (BitOr, orb)] →
    const_value a l → const_value b r →
    i32_with_bits (λ i, f (Z.testbit l i) (Z.testbit r i)) u → const_value (Binary a op b) u
| cv_shift_left a b l r u :
    const_value a l → const_value b r →
    in_i 32 u → u `mod` 2 ^ 32 = (l * 2 ^ (r `mod` 32)) `mod` 2 ^ 32 →
    const_value (Binary a ShiftLeft b) u
| cv_shift_right a b l r x :
    const_value a l → const_value b r → in_i 32 x → x `mod` 2 ^ 32 = l `mod` 2 ^ 32 →
    const_value (Binary a ShiftRight b) (x / 2 ^ (r `mod` 32)).

(** ** Lanes *)

Lemma swrap_mod w v : 1 ≤ w → swrap w v `mod` 2 ^ w = v `mod` 2 ^ w.
Proof.
  intros Hw. unfold swrap. rewrite <- Zminus_mod_idemp_l, Z.mod_mod, Zminus_mod_idemp_l.
  - f_equal. lia.
  - pose proof (Z.pow_pos_nonneg 2 w). lia.
Qed.

Lemma in_i_mod_inj w u v : 1 ≤ w → in_i w u → in_i w v → u `mod` 2 ^ w = v `mod` 2 ^ w → u = v.
Proof.
  intros Hw Hu Hv E. rewrite <- (swrap_small w u), <- (swrap_small w v) by done. unfold swrap.
  by rewrite <- (Zplus_mod_idemp_l u), <- (Zplus_mod_idemp_l v), E.
Qed.

Lemma swrap_unique w u v : 1 ≤ w → in_i w u → u `mod` 2 ^ w = v `mod` 2 ^ w → u = swrap w v.
Proof.
  intros Hw Hu E. apply (in_i_mod_inj w); [done..|by apply swrap_range|]. by rewrite swrap_mod.
Qed.

Lemma testbit_swrap w v i : 1 ≤ w → 0 ≤ i < w → Z.testbit (swrap w v) i = Z.testbit v i.
Proof.
  intros Hw Hi. rewrite <- (Z.mod_pow2_bits_low (swrap w v) w i) by lia.
  rewrite swrap_mod by done. apply Z.mod_pow2_bits_low. lia.
Qed.

(** An [i32] is determined by its bits. *)
Lemma i32_with_bits_unique f u v : i32_with_bits f u → i32_with_bits f v → u = v.
Proof.
  intros [Hu Bu] [Hv Bv]. apply (in_i_mod_inj 32); [lia|done..|]. apply Z.bits_inj'. intros i Hi.
  destruct (decide (i < 32)).
  - rewrite !Z.mod_pow2_bits_low by lia. rewrite Bu, Bv by lia. done.
  - by rewrite !Z.mod_pow2_bits_high by lia.
Qed.

Lemma i32_with_bits_ext f g u :
  (∀ i, 0 ≤ i < 32 → f i = g i) → i32_with_bits f u → i32_with_bits g u.
Proof. intros Hfg [Hu Hb]. split; [done|]. intros i Hi. by rewrite Hb, Hfg. Qed.

Lemma in_i_shiftr w z : 1 ≤ w → in_i w z ↔ Z.shiftr z (w - 1) = 0 ∨ Z.shiftr z (w - 1) = -1.
Proof.
  intros Hw. unfold in_i. rewrite Z.shiftr_div_pow2 by lia.
  pose proof (Z.pow_pos_nonneg 2 (w - 1)) as Hp. split.
  - intros Hz. destruct (decide (0 ≤ z)).
    + left. apply Z.div_small. lia.
    + right. symmetry. apply (Z.div_unique_pos z (2 ^ (w - 1)) (-1) (z + 2 ^ (w - 1))); lia.
  - pose proof (Z.div_mod z (2 ^ (w - 1))). pose proof (Z.mod_pos_bound z (2 ^ (w - 1))). nia.
Qed.

Lemma in_i_bitwise op w l r :
  (∀ a b n, Z.shiftr (op a b) n = op (Z.shiftr a n) (Z.shiftr b n)) →
  (op 0 0 = 0 ∨ op 0 0 = -1) → (op 0 (-1) = 0 ∨ op 0 (-1) = -1) →
  (op (-1) 0 = 0 ∨ op (-1) 0 = -1) → (op (-1) (-1) = 0 ∨ op (-1) (-1) = -1) →
  1 ≤ w → in_i w l → in_i w r → in_i w (op l r).
Proof.
  intros Hs H00 H01 H10 H11 Hw. rewrite !in_i_shiftr, Hs by done.
  intros [->| ->] [->| ->]; done.
Qed.

Lemma shift_count_spec r : shift_count r = r `mod` 32.
Proof.
  unfold shift_count, wrap. change 31 with (Z.ones 5). rewrite Z.land_ones by lia.
  change (2 ^ 5) with 32. apply Z.mod_mod_divide.
  exists (2 ^ 27). reflexivity.
Qed.

Lemma as_i32_not v : i32_with_bits (λ i, negb (Z.testbit v i)) (Z.lnot (as_i32 v)).
Proof.
  unfold as_i32. split.
  - pose proof (swrap_range 32 v ltac:(lia)) as Hr. unfold in_i, Z.lnot in *. lia.
  - intros i Hi. rewrite Z.lnot_spec by lia. by rewrite testbit_swrap by lia.
Qed.

Lemma as_i32_bitwise op f l r :
  (op, f) ∈ [(Z.land, andb); (Z.lxor, xorb); (Z.lor, orb)] →
  i32_with_bits (λ i, f (Z.testbit l i) (Z.testbit r i)) (op (as_i32 l) (as_i32 r)).
Proof.
  intros Hop. pose proof (swrap_range 32 l ltac:(lia)). pose proof (swrap_range 32 r ltac:(lia)).
  rewrite !elem_of_cons, elem_of_nil in Hop.
  destruct Hop as [[= -> ->]|[[= -> ->]|[[= -> ->]|[]]]]; unfold as_i32.
  - split; [apply in_i_bitwise; auto using Z.shiftr_land with lia|].
    intros i Hi. by rewrite Z.land_spec, !testbit_swrap by lia.
  - split; [apply in_i_bitwise; auto using Z.shiftr_lxor with lia|].
    intros i Hi. by rewrite Z.lxor_spec, !testbit_swrap by lia.
  - split; [apply in_i_bitwise; auto using Z.shiftr_lor with lia|].
    intros i Hi. by rewrite Z.lor_spec, !testbit_swrap by lia.
Qed.

Lemma eval_scalar_spec ty bits origin v :
  eval_scalar ty bits origin = Some v ↔ scalar_lane ty origin bits v.
Proof.
  assert (swrap 32 (wrap 32 bits) `mod` 2 ^ 32 = bits `mod` 2 ^ 32) as Hm.
  { rewrite swrap_mod by lia. unfold wrap. apply Z.mod_mod. lia. }
  assert (∀ u, in_i 32 u → u `mod` 2 ^ 32 = bits `mod` 2 ^ 32 → u = swrap 32 (wrap 32 bits)) as Hu.
  { intros u Hr E. apply (in_i_mod_inj 32); [lia|done|apply swrap_range; lia|by rewrite Hm]. }
  unfold eval_scalar, as_i32. split.
  - destruct origin as [o|].
    + intros [= <-]. constructor; [apply swrap_range; lia|done].
    + destruct (ty =? TYPE_ID_I32) eqn:E1; [|destruct (ty =? TYPE_ID_U8) eqn:E2;
        [|destruct (ty =? TYPE_ID_U16) eqn:E3; [|destruct (ty =? TYPE_ID_U32) eqn:E4; [|done]]]];
        to_props; subst; intros [= <-].
      * constructor; [apply swrap_range; lia|done].
      * eapply (lane_unsigned _ 8); [auto|apply wrap_range; lia|done].
      * eapply (lane_unsigned _ 16); [auto|apply wrap_range; lia|done].
      * eapply (lane_unsigned _ 32); [auto 6|apply wrap_range; lia|done].
  - intros [ty' o bits' v' Hr E|bits' v' Hr E|ty' w bits' v' Hw Hr ->].
    + f_equal. symmetry. apply (in_i_mod_inj 32); [lia|done|apply swrap_range; lia|].
      rewrite swrap_mod by lia. unfold wrap. rewrite Z.mod_mod by lia. done.
    + simpl. f_equal. symmetry. apply (in_i_mod_inj 32); [lia|done|apply swrap_range; lia|].
      rewrite swrap_mod by lia. unfold wrap. rewrite Z.mod_mod by lia. done.
    + by destruct Hw as [[-> ->]|[[-> ->]|[-> ->]]].
Qed.

(** ** Ranges *)

Lemma checked_i64 v u : checked_i 64 v = Some u → in_i 64 u ∧ u = v.
Proof. intros [? ->]%checked_i_Some. done. Qed.

Lemma in_i_32_64 v : in_i 32 v → in_i 64 v.
Proof. unfold in_i. simpl. lia. Qed.

Lemma quot_rem_range l r : in_i 64 l → in_i 64 r → r ≠ 0 → in_i 64 (Z.rem l r).
Proof.
  unfold in_i. intros Hl Hr Hz. pose proof (Z.rem_bound_abs l r Hz). lia.
Qed.

(** Only the division of the least [i64] by -1 overflows. *)
Lemma quot_overflow l r :
  in_i 64 l → in_i 64 r → r ≠ 0 → in_i 64 (Z.quot l r) ↔ ¬ (l = - 2 ^ 63 ∧ r = -1).
Proof.
  unfold in_i. change (64 - 1) with 63. intros Hl Hr Hz. split.
  - intros [_ Hq] [-> ->]. by vm_compute in Hq.
  - intros Hn. pose proof (Z.quot_abs l r Hz) as Ha. pose proof (Z.abs_nonneg (Z.quot l r)) as Hnn.
    destruct (decide (r = -1)) as [->|Hm1].
    { change (-1) with (- (1)). rewrite Z.quot_opp_r, Z.quot_1_r by lia. lia. }
    destruct (decide (r = 1)) as [->|H1]; [by rewrite Z.quot_1_r|].
    assert (Z.quot (Z.abs l) (Z.abs r) ≤ Z.abs l / 2) as Hle.
    { rewrite Z.quot_div_nonneg by lia. apply Z.div_le_compat_l; lia. }
    assert (Z.abs l / 2 ≤ 2 ^ 62) by (apply Z.div_le_upper_bound; lia). lia.
Qed.

Lemma eval_binary_range op l r v :
  in_i 64 l → in_i 64 r → eval_binary op l r = Some v →
  in_i 64 v ∧ (requires_integer_operands op = true → in_i 32 v).
Proof.
  intros Hl Hr. destruct op; cbn [eval_binary requires_integer_operands];
    try (intros [? ->]%checked_i64; done).
  - unfold checked_div. destruct (r =? 0); [done|]. cbn. by intros [? ->]%checked_i64.
  - unfold checked_rem. destruct (r =? 0) eqn:E; [done|]. cbn. destruct (_ && _); [done|].
    intros [= <-]. to_props. split; [by apply quot_rem_range|done].
  - intros [= <-]. pose proof (swrap_range 32 (Z.shiftl (as_i32 l) (shift_count r)) ltac:(lia)).
    split; [by apply in_i_32_64|done].
  - intros [= <-]. assert (in_i 32 (i32_wrapping_shr (as_i32 l) (shift_count r))); [|by auto using in_i_32_64].
    pose proof (swrap_range 32 l ltac:(lia)) as Hs. unfold i32_wrapping_shr, as_i32.
    rewrite shift_count_spec. pose proof (Z.mod_pos_bound r 32 ltac:(lia)).
    rewrite Z.shiftr_div_pow2 by lia. unfold in_i in *.
    pose proof (Z.pow_pos_nonneg 2 (r `mod` 32) ltac:(lia) ltac:(lia)).
    split; [apply Z.div_le_lower_bound|apply Z.div_lt_upper_bound]; nia.
  - intros [= <-]. pose proof (as_i32_bitwise Z.land andb l r ltac:(by left)) as [? _].
    auto using in_i_32_64.
  - intros [= <-]. pose proof (as_i32_bitwise Z.lxor xorb l r ltac:(by right; left)) as [? _].
    auto using in_i_32_64.
  - intros [= <-]. pose proof (as_i32_bitwise Z.lor orb l r ltac:(by right; right; left)) as [? _].
    auto using in_i_32_64.
Qed.

Lemma eval_scalar_range ty bits origin v : eval_scalar ty bits origin = Some v → in_i 64 v.
Proof.
  intros [? ? ? ? Hr _|? ? Hr _|? w ? ? Hw Hr _]%eval_scalar_spec; [by apply in_i_32_64..|].
  unfold in_u, in_i in *. destruct Hw as [[_ ->]|[[_ ->]|[_ ->]]]; lia.
Qed.

Lemma eval_const_range_aux e v : literals_ok e → eval_const_i64 e = Some v → in_i 64 v.
Proof.
  revert v. induction e using SimpleExpr_ind; intros v Hok; cbn [eval_const_i64 literals_ok] in *; try done.
  - by intros [= <-].
  - destruct value as [bits origin|]; [|done]. apply eval_scalar_range.
  - destruct op.
    + destruct (eval_const_i64 e) as [x|]; [|done]. cbn. by intros [? ->]%checked_i64.
    + destruct (eval_const_i64 e) as [x|]; [|done]. cbn. intros [= <-].
      destruct (as_i32_not x). by apply in_i_32_64.
  - destruct Hok as [H1 H2]. destruct (eval_const_i64 e1) as [l|]; [|done].
    destruct (eval_const_i64 e2) as [r|]; [|done]. cbn. intros He.
    eapply eval_binary_range; [by apply IHe1|by apply IHe2|exact He].
Qed.

(** ** The folder and the reference semantics, one operation at a time *)

(** What the reference semantics says of an operation on two values. *)
Definition binary_value (op : ExprBinaryOp) (l r v : Z) : Prop :=
  match op with
  | Add => v = l + r ∧ in_i 64 v
  | Subtract => v = l - r ∧ in_i 64 v
  | Multiply => v = l * r ∧ in_i 64 v
  | Divide => v = Z.quot l r ∧ r ≠ 0 ∧ in_i 64 (Z.quot l r)
  | Remainder => v = Z.rem l r ∧ r ≠ 0 ∧ in_i 64 (Z.quot l r)
  | BitAnd => i32_with_bits (λ i, Z.testbit l i && Z.testbit r i) v
  | BitXor => i32_with_bits (λ i, xorb (Z.testbit l i) (Z.testbit r i)) v
  | BitOr => i32_with_bits (λ i, Z.testbit l i || Z.testbit r i) v
  | ShiftLeft => in_i 32 v ∧ v `mod` 2 ^ 32 = (l * 2 ^ (r `mod` 32)) `mod` 2 ^ 32
  | ShiftRight => ∃ x, in_i 32 x ∧ x `mod` 2 ^ 32 = l `mod` 2 ^ 32 ∧ v = x / 2 ^ (r `mod` 32)
  end.

Lemma checked_i64_iff z v : checked_i 64 z = Some v ↔ v = z ∧ in_i 64 v.
Proof. rewrite checked_i_Some. split; intros [? ?]; subst; done. Qed.

Lemma as_i32_shl l n : 0 ≤ n →
  i32_wrapping_shl (as_i32 l) n `mod` 2 ^ 32 = (l * 2 ^ n) `mod` 2 ^ 32.
Proof.
  intros Hn. unfold i32_wrapping_shl, as_i32. rewrite swrap_mod, Z.shiftl_mul_pow2 by lia.
  by rewrite <- Zmult_mod_idemp_l, swrap_mod, Zmult_mod_idemp_l by lia.
Qed.

Lemma eval_binary_value op l r v :
  in_i 64 l → in_i 64 r → eval_binary op l r = Some v ↔ binary_value op l r v.
Proof.
  intros Hl Hr. assert (0 ≤ r `mod` 32 < 32) as Hc by (apply Z.mod_pos_bound; lia).
  assert (∀ f u w, i32_with_bits f u → Some u = Some w ↔ i32_with_bits f w) as Hbits.
  { intros f u w Hu. split; [by intros [= <-]|]. intros Hw. f_equal. by eapply i32_with_bits_unique. }
  destruct op; cbn [eval_binary binary_value]; rewrite ?shift_count_spec.
  - apply checked_i64_iff.
  - apply checked_i64_iff.
  - apply checked_i64_iff.
  - unfold checked_div. destruct (r =? 0) eqn:E; cbn; to_props; [naive_solver|].
    rewrite checked_i64_iff. naive_solver.
  - unfold checked_rem. destruct (r =? 0) eqn:E; cbn [negb]; [to_props; naive_solver|].
    apply Z.eqb_neq in E. rewrite (quot_overflow l r) by done.
    destruct (_ && _) eqn:E'; [to_props; naive_solver|].
    apply andb_false_iff in E'. rewrite !Z.eqb_neq in E'. split; [intros [= <-]; tauto|].
    by intros [-> _].
  - pose proof (as_i32_shl l _ (proj1 Hc)) as Hs. split.
    + intros [= <-]. split; [apply swrap_range; lia|done].
    + intros [Hv E]. f_equal. apply (in_i_mod_inj 32); [lia|apply swrap_range; lia|done|congruence].
  - unfold i32_wrapping_shr. rewrite Z.shiftr_div_pow2 by lia. split.
    + intros [= <-]. exists (as_i32 l). split; [apply swrap_range; lia|]. split; [apply swrap_mod; lia|done].
    + intros (x & Hx & E & ->). do 2 f_equal. symmetry. by apply swrap_unique.
  - apply Hbits, (as_i32_bitwise Z.land andb). by left.
  - apply Hbits, (as_i32_bitwise Z.lxor xorb). by right; left.
  - apply Hbits, (as_i32_bitwise Z.lor orb). by right; right; left.
Qed.

Lemma binary_const_value a op b l r v :
  const_value a l → const_value b r → binary_value op l r v → const_value (Binary a op b) v.
Proof.
  intros Ha Hb. destruct op; cbn [binary_value].
  - intros [-> Hv]. eapply (cv_arith Add Z.add); [by left|done..].
  - intros [-> Hv]. eapply (cv_arith Subtract Z.sub); [by right; left|done..].
  - intros [-> Hv]. eapply (cv_arith Multiply Z.mul); [by right; right; left|done..].
  - intros (-> & Hr & Hq). eapply (cv_division Divide Z.quot); [by left|done..].
  - intros (-> & Hr & Hq). eapply (cv_division Remainder Z.rem); [by right; left|done..].
  - intros [Hv E]. by eapply cv_shift_left.
  - intros (x & Hx & E & ->). by eapply cv_shift_right.
  - intros Hv. eapply (cv_bitwise BitAnd andb); [by left|done..].
  - intros Hv. eapply (cv_bitwise BitXor xorb); [by right; left|done..].
  - intros Hv. eapply (cv_bitwise BitOr orb); [by right; right; left|done..].
Qed.

Lemma const_value_binary a op b v :
  const_value (Binary a op b) v →
  ∃ l r, const_value a l ∧ const_value b r ∧ binary_value op l r v.
Proof.
  inversion 1 as [| | | |op' f a' b' l r Hop Ha Hb Hv|op' f a' b' l r Hop Ha Hb Hr Hq|
    op' f a' b' l r u Hop Ha Hb Hu|a' b' l r u Ha Hb Hu E|a' b' l r x Ha Hb Hx E]; subst;
    exists l, r; (split; [done|]); (split; [done|]);
    try (rewrite !elem_of_cons, elem_of_nil in Hop; naive_solver); [done|].
  by exists x.
Qed.

Lemma eval_const_value_aux e v :
  literals_ok e → eval_const_i64 e = Some v ↔ const_value e v.
Proof.
  revert v. induction e using SimpleExpr_ind; intros v Hok; cbn [eval_const_i64 literals_ok] in *;
    try (split; [done|by inversion 1]).
  - split; [intros [= <-]; constructor|by inversion 1].
  - destruct value as [bits origin|]; [|split; [done|by inversion 1]].
    rewrite eval_scalar_spec. split; [by constructor|by inversion 1].
  - destruct op; split.
    + destruct (eval_const_i64 e) as [x|] eqn:E; [|done]. cbn. unfold checked_neg.
      intros [Hv ->]%checked_i64. constructor; [by apply IHe|done].
    + inversion 1 as [| |e' x He Hx| | | | | |]; subst. apply IHe in He; [|done]. rewrite He. cbn.
      by apply checked_i64_iff.
    + destruct (eval_const_i64 e) as [x|] eqn:E; [|done]. cbn. intros [= <-].
      econstructor; [by apply IHe|apply as_i32_not].
    + inversion 1 as [| | |e' x u He Hu| | | | |]; subst. apply IHe in He; [|done]. rewrite He. cbn.
      f_equal. eapply i32_with_bits_unique; [apply as_i32_not|done].
  - destruct Hok as [H1 H2]. split.
    + destruct (eval_const_i64 e1) as [l|] eqn:El; [|done].
      destruct (eval_const_i64 e2) as [r|] eqn:Er; [|done]. cbn. intros Hv.
      eapply binary_const_value; [by apply IHe1|by apply IHe2|].
      apply eval_binary_value; [by apply (eval_const_range_aux e1)|by apply (eval_const_range_aux e2)|done].
    + intros (l & r & Ha & Hb & Hv)%const_value_binary. apply IHe1 in Ha; [|done].
      apply IHe2 in Hb; [|done]. rewrite Ha, Hb. cbn.
      apply eval_binary_value; [by apply (eval_const_range_aux e1)|by apply (eval_const_range_aux e2)|done].
Qed.

(** ** Properties *)

(** C38 The constant folder is exact: on [i64] literals it returns a value
    precisely when the reference semantics gives one, and then that one.  So an
    overflow, a division by zero or a part that is not constant is never folded,
    and everything else always is. *)
Theorem eval_const_exact (e : SimpleExpr) (v : Z) (Hok : literals_ok e) :
  eval_const_i64 e = Some v ↔ const_value e v.
Proof. by apply eval_const_value_aux. Qed.

Definition sample_expression : SimpleExpr :=
  Binary (Unary BitwiseNot (Int 5)) ShiftRight (Binary (Int 33) Subtract (Int 0)).

Example sample_folds : eval_const_i64 sample_expression = Some (-3).
Proof. by vm_compute. Qed.

Lemma eval_const_exact_witness :
  literals_ok sample_expression ∧
  (eval_const_i64 sample_expression = Some (-3) ↔ const_value sample_expression (-3)).
Proof.
  assert (literals_ok sample_expression) as Hok
    by (repeat split; by apply (bool_decide_unpack _)).
  split; [exact Hok|]. apply (eval_const_exact sample_expression (-3) Hok).
Defined.

(** Folding stays at its widths: a folded value is an [i64], and the value of a
    bitwise operation or a shift is an [i32]. *)
Theorem eval_const_widths (e : SimpleExpr) (v : Z) (Hok : literals_ok e)
    (Hv : eval_const_i64 e = Some v) :
  in_i 64 v ∧
  match e with
  | Unary BitwiseNot _ => in_i 32 v
  | Binary _ op _ => requires_integer_operands op = true → in_i 32 v
  | _ => True
  end.
Proof.
  split; [by apply (eval_const_range_aux e)|]. destruct e as [| | | | | | | | | |op e|a op b]; try done.
  - destruct op; [done|]. cbn in Hv. destruct (eval_const_i64 e) as [x|]; [|done].
    injection Hv as <-. apply as_i32_not.
  - cbn in Hv, Hok. destruct Hok as [Ha Hb]. destruct (eval_const_i64 a) as [l|] eqn:El; [|done].
    destruct (eval_const_i64 b) as [r|] eqn:Er; [|done].
    apply (eval_binary_range op l r v); [by apply (eval_const_range_aux a)|
      by apply (eval_const_range_aux b)|done].
Qed.

Lemma eval_const_widths_witness :
  literals_ok sample_expression ∧ eval_const_i64 sample_expression = Some (-3) ∧
  in_i 64 (-3) ∧ (requires_integer_operands ShiftRight = true → in_i 32 (-3)).
Proof.
  assert (literals_ok sample_expression) as Hok
    by (repeat split; by apply (bool_decide_unpack _)).
  split; [exact Hok|]. split; [by vm_compute|].
  apply (eval_const_widths sample_expression (-3) Hok). by vm_compute.
Defined.

(** A contextual integer literal folds to its own value, whatever the width its
    context gives it, and is a contextual integer expression. *)
Theorem contextual_literal_folds (e : SimpleExpr) (v : Z)
    (Hv : contextual_integer_literal_value e = Some v) :
  eval_const_i64 e = Some v ∧ is_contextual_integer_expression e = true.
Proof.
  split; [|destruct e; cbn [is_contextual_integer_expression]; by rewrite Hv].
  revert v Hv. induction e using SimpleExpr_ind; intros v; cbn [contextual_integer_literal_value]; try done.
  - destruct op; [|done]. destruct (contextual_integer_literal_value e) as [x|]; [|done].
    cbn. by rewrite (IHe x).
  - destruct e1 as [|[]| | | | | | | | | |]; try done. destruct op; try done.
    destruct (contextual_integer_literal_value e2) as [x|]; [|done]. cbn. by rewrite (IHe2 x).
Qed.

Lemma contextual_literal_folds_witness :
  contextual_integer_literal_value (Unary Negate (Int 7)) = Some (-7) ∧
  eval_const_i64 (Unary Negate (Int 7)) = Some (-7) ∧
  is_contextual_integer_expression (Unary Negate (Int 7)) = true.
Proof.
  split; [by vm_compute|]. apply (contextual_literal_folds (Unary Negate (Int 7)) (-7)). by vm_compute.
Defined.
