(* ===== verification/Types.v ===== *)
(** * The type table

    Models [crates/stasis_compiler/src/frontend/types.rs]: the types of a program as
    interned keys, their layouts, the spelling of types, the descriptors of the
    compiler's collections with the layout of their lanes, and the compatibility of
    types.

    A [TypeId] is a [u16], a size or extent a [u32] and an offset of a lane a [u64].
    The depth counters of the scanners are [i32] and cannot overflow on a source of less
    than two gigabytes.  The text of an error is its constructor with its data;
    [ErrPanic] is the panic of an [expect].

    [resolve_existing] and [resolve_or_intern_inner] recurse on shorter texts: they take
    as fuel one more than the length of the text. *)

From S2P Require Import Prelude BTree Lexer Identity Text Functions Hir.
#[local] Open Scope Z_scope.

(** ** Keys *)

Inductive GenericArgument := ArgType (type_id : TypeId) | ArgI32 (value : Z).

Inductive BuiltinType := BVoid | BI32 | BF32 | BBool | BF64 | BU8 | BU16 | BU32.

Inductive TypedCollectionKind :=
| Pool | StablePool | Queue | RingBuffer | MapKind | SetKind | PriorityQueue | Grid | Bitset.

Definition kind_as_str (kind : TypedCollectionKind) : str :=
  string_bytes (match kind with
                | Pool => "pool" | StablePool => "stable_pool" | Queue => "queue"
                | RingBuffer => "ring_buffer" | MapKind => "map" | SetKind => "set"
                | PriorityQueue => "priority_queue" | Grid => "grid" | Bitset => "bitset"
                end).

Record TypedCollectionLane := mkLane {
  ln_name : str;
  ln_type_id : TypeId;
  ln_element_count : Z;
  ln_offset_bytes : Z;
  ln_byte_size : Z;
  ln_alignment_bytes : Z;
}.

Inductive TypeKey :=
| KeyBuiltin (builtin : BuiltinType)
| KeyNamed (name : str)
| KeyInstantiated (definition : str) (arguments : list GenericArgument)
| KeyCollection (kind : TypedCollectionKind) (element_type key_type value_type : option TypeId)
    (capacity : Z) (width height : option Z) (lanes : list TypedCollectionLane)
| KeyArrayFixed (element : TypeId) (max_len : Z)
| KeyArrayView (element : TypeId)
| KeyAsciiFixed (max_len : Z)
| KeyAsciiView
| KeyUtf8Fixed (max_len : Z)
| KeyUtf8View.

#[export] Instance GenericArgument_eq_dec : EqDecision GenericArgument.
Proof. solve_decision. Defined.
#[export] Instance BuiltinType_eq_dec : EqDecision BuiltinType.
Proof. solve_decision. Defined.
#[export] Instance TypedCollectionKind_eq_dec : EqDecision TypedCollectionKind.
Proof. solve_decision. Defined.
#[export] Instance TypedCollectionLane_eq_dec : EqDecision TypedCollectionLane.
Proof. solve_decision. Defined.
#[export] Instance TypeKey_eq_dec : EqDecision TypeKey.
Proof. solve_decision. Defined.

Inductive TypeCategory :=
| CatBuiltin | CatNamed | CatArrayFixed | CatArrayView | CatAsciiFixed | CatAsciiView
| CatUtf8Fixed | CatUtf8View.

#[export] Instance TypeCategory_eq_dec : EqDecision TypeCategory.
Proof. solve_decision. Defined.

Record TypeLayout := mkTypeLayout {
  header_i32_words : Z;
  payload_size_bytes : option Z;
  static_size_bytes : option Z;
}.

Record TypeInfo := mkTypeInfo {
  ti_name : str;
  ti_category : TypeCategory;
  ti_layout : TypeLayout;
}.

Record TypedCollectionDescriptor := mkDescriptor {
  td_kind : TypedCollectionKind;
  td_element_type : option TypeId;
  td_key_type : option TypeId;
  td_value_type : option TypeId;
  td_capacity : Z;
  td_width : option Z;
  td_height : option Z;
  td_lanes : list TypedCollectionLane;
  td_static_size_bytes : Z;
}.

(** ** Errors *)

Inductive TypeError :=
| ErrEmptyName
| ErrEmptyArrayBase
| ErrMissingMetadata (type_id : TypeId)
| ErrTableFull
| ErrLayoutOverflow
| ErrUnmatchedBracket
| ErrMissingBracket
| ErrInvalidExtent (extent : str)
| ErrEmptyDefinition
| ErrNoArguments (definition : str)
| ErrArity (kind : TypedCollectionKind) (expected got : nat)
| ErrLegacyPolicy (source policy : str) (kind : TypedCollectionKind) (arguments : list str)
| ErrCellsOverflow (kind : TypedCollectionKind)
| ErrCellsExceed (kind : TypedCollectionKind)
| ErrStaticSize (kind : TypedCollectionKind) (size : Z)
| ErrNotScalar (kind : TypedCollectionKind) (role : string) (name : str)
| ErrNotScalarLane (kind : TypedCollectionKind) (role : string) (name : str)
| ErrKeyNotInteger (kind : TypedCollectionKind) (name : str)
| ErrCapacityText (kind : TypedCollectionKind) (role : string) (text : str)
| ErrCapacityRange (kind : TypedCollectionKind) (role : string) (text : str)
| ErrCapacityExceeds (kind : TypedCollectionKind) (role : string) (value : Z)
| ErrApplicationClose (source : str)
| ErrApplicationName (source : str)
| ErrApplicationUnmatchedClose (source : str)
| ErrApplicationUnmatchedOpenSquare (source : str)
| ErrApplicationUnmatchedSquare (source : str)
| ErrApplicationEmptyArgument (source : str)
| ErrApplicationTrailing (source : str)
| ErrApplicationUnbalanced (source : str)
| ErrLaneType (name : str) (type_id : TypeId)
| ErrLaneSize (name : str)
| ErrLaneOffset (name : str)
| ErrTotalSize
| ErrAlignmentZero
| ErrAlignmentOverflow
| ErrWordCount
| ErrPanic (message : string).

(** ** The table *)

(** [by_key] is a [HashMap]: only lookups and insertions of new keys are made. *)
Record TypeTable := mkTypeTable {
  tt_types : list TypeInfo;
  tt_keys : list TypeKey;
  tt_by_key : list (TypeKey * TypeId);
  tt_origins : list (str * SourceTypeOrigin);
}.

Definition key_get (key : TypeKey) (m : list (TypeKey * TypeId)) : option TypeId :=
  snd <$> List.find (λ e, bool_decide (e.1 = key)) m.

Definition type_info (t : TypeTable) (id : TypeId) : option TypeInfo := tt_types t !! Z.to_nat id.
Definition type_key (t : TypeTable) (id : TypeId) : option TypeKey := tt_keys t !! Z.to_nat id.

(** The pushes at the end of [intern_builtin] and of [intern_with_info]. *)
Definition push_type (key : TypeKey) (info : TypeInfo) (id : TypeId) (t : TypeTable) : TypeTable :=
  mkTypeTable (tt_types t ++ [info]) (tt_keys t ++ [key]) ((key, id) :: tt_by_key t) (tt_origins t).

Definition intern_builtin (name : string) (builtin : BuiltinType) (static_size : Z) (t : TypeTable) :
    TypeTable :=
  let id := wrap 16 (Z.of_nat (length (tt_types t))) in
  push_type (KeyBuiltin builtin)
    (mkTypeInfo (string_bytes name) CatBuiltin (mkTypeLayout 0 None (Some static_size))) id t.

Definition TypeTable_new : TypeTable :=
  let t := mkTypeTable [] [] [] [] in
  let t := intern_builtin "void" BVoid 0 t in
  let t := intern_builtin "i32" BI32 4 t in
  let t := intern_builtin "f32" BF32 4 t in
  let t := intern_builtin "bool" BBool 1 t in
  let t := intern_builtin "f64" BF64 8 t in
  let t := intern_builtin "u8" BU8 1 t in
  let t := intern_builtin "u16" BU16 2 t in
  intern_builtin "u32" BU32 4 t.

(** A method of [&mut self]: the table after, also when it fails. *)
Abbreviation Interned A := (TypeTable * Result A TypeError)%type.

Definition intern_with_info (key : TypeKey) (info : TypeInfo) (t : TypeTable) : Interned TypeId :=
  match key_get key (tt_by_key t) with
  | Some existing => (t, Ok existing)
  | None =>
      match checked_u 16 (Z.of_nat (length (tt_types t))) with
      | None => (t, Err ErrTableFull)
      | Some id => (push_type key info id t, Ok id)
      end
  end.

Definition no_layout : TypeLayout := mkTypeLayout 0 None None.

Definition intern_named (name : str) (t : TypeTable) : Interned TypeId :=
  intern_with_info (KeyNamed name) (mkTypeInfo name CatNamed no_layout) t.

Definition replace_source_type_origins (origins : list (str * SourceTypeOrigin)) (t : TypeTable) : TypeTable :=
  mkTypeTable (tt_types t) (tt_keys t) (tt_by_key t) origins.

Definition source_type_origin (t : TypeTable) (id : TypeId) : option SourceTypeOrigin :=
  info ← type_info t id;
  map_get (ti_name info : list Z) (tt_origins t).

Definition find_first_type_id_by_category (t : TypeTable) (category : TypeCategory) : option TypeId :=
  e ← list_find (λ info, ti_category info = category) (tt_types t);
  checked_u 16 (Z.of_nat e.1).

Definition string_literal_type_id (t : TypeTable) : option TypeId :=
  match find_first_type_id_by_category t CatUtf8View with
  | Some id => Some id
  | None => find_first_type_id_by_category t CatAsciiView
  end.

(** ** Classes of types *)

Definition is_typed_collection_type (t : TypeTable) (id : TypeId) : bool :=
  match type_key t id with Some (KeyCollection _ _ _ _ _ _ _ _) => true | _ => false end.

Definition unsigned_integer_bits (t : TypeTable) (id : TypeId) : option Z :=
  match type_key t id with
  | Some (KeyBuiltin BU8) => Some 8
  | Some (KeyBuiltin BU16) => Some 16
  | Some (KeyBuiltin BU32) => Some 32
  | _ => None
  end.

Definition integer_width_bits (t : TypeTable) (id : TypeId) : option Z :=
  match type_key t id with
  | Some (KeyBuiltin BI32) => Some 32
  | Some _ => unsigned_integer_bits t id
  | None => None
  end.

Definition integer_literal_fits (t : TypeTable) (value : Z) (id : TypeId) : bool :=
  match integer_width_bits t id with
  | None => false
  | Some bits =>
      if bool_decide (is_Some (unsigned_integer_bits t id))
      then (0 <=? value) && (value <=? Z.shiftl 1 bits - 1)
      else bool_decide (in_i 32 value)
  end.

Definition is_integer (t : TypeTable) (id : TypeId) : bool :=
  match type_key t id with
  | Some (KeyBuiltin (BI32 | BU8 | BU16 | BU32)) => true
  | _ => false
  end.

Definition abi_category (category : TypeCategory) : bool :=
  match category with CatBuiltin => false | _ => true end.

Definition is_i32_abi_compatible (t : TypeTable) (id : TypeId) : bool :=
  if is_typed_collection_type t id then false
  else if (id =? TYPE_ID_I32) || (id =? TYPE_ID_BOOL) || bool_decide (is_Some (unsigned_integer_bits t id))
  then true
  else match type_info t id with Some info => abi_category (ti_category info) | None => false end.

Definition is_sealed_sprite_ref (t : TypeTable) (id : TypeId) : bool :=
  match type_info t id with
  | Some info => bool_decide (ti_name info = string_bytes "SpriteRef")
  | None => false
  end.

Definition is_ascii_buffer_key (key : TypeKey) : bool :=
  match key with KeyAsciiFixed _ | KeyAsciiView => true | _ => false end.
Definition is_utf8_buffer_key (key : TypeKey) : bool :=
  match key with KeyUtf8Fixed _ | KeyUtf8View => true | _ => false end.
Definition is_text_buffer_key (key : TypeKey) : bool := is_ascii_buffer_key key || is_utf8_buffer_key key.

Definition key_is_some_and (key : option TypeKey) (p : TypeKey → bool) : bool :=
  match key with Some key => p key | None => false end.

Definition assignment_types_are_compatible (t : TypeTable) (target expression : TypeId) : bool :=
  if target =? expression then true
  else if is_sealed_sprite_ref t target then false
  else if (target =? TYPE_ID_BOOL) || (expression =? TYPE_ID_BOOL) then false
  else
    let target_key := type_key t target in
    let expression_key := type_key t expression in
    if (key_is_some_and target_key is_ascii_buffer_key && key_is_some_and expression_key is_utf8_buffer_key)
       || (key_is_some_and target_key is_utf8_buffer_key && key_is_some_and expression_key is_ascii_buffer_key)
    then false
    else is_i32_abi_compatible t target && is_i32_abi_compatible t expression.

Definition is_i32_lane_builtin (key : TypeKey) : bool :=
  match key with KeyBuiltin (BI32 | BBool | BU8 | BU16 | BU32) => true | _ => false end.

Definition are_i32_scalar_abi_compatible (argument parameter : TypeKey) : bool :=
  if is_i32_lane_builtin argument && is_i32_lane_builtin parameter then true
  else
    match argument, parameter with
    | KeyBuiltin BI32, KeyBuiltin BI32 | KeyBuiltin BBool, KeyBuiltin BBool
    | KeyBuiltin BI32, KeyBuiltin BBool | KeyBuiltin BBool, KeyBuiltin BI32 => true
    | _, _ => false
    end.

Definition is_byte_array_key (t : TypeTable) (key : TypeKey) : bool :=
  match key with
  | KeyArrayFixed element _ | KeyArrayView element =>
      match type_key t element with Some (KeyBuiltin BU8) => true | _ => false end
  | _ => false
  end.

Definition is_argument_compatible_with_param (t : TypeTable) (argument parameter : TypeId) : bool :=
  if argument =? parameter then true
  else
    match type_key t argument, type_key t parameter with
    | Some argument_key, Some parameter_key =>
        if are_i32_scalar_abi_compatible argument_key parameter_key then true
        else if (is_text_buffer_key argument_key && is_byte_array_key t parameter_key)
                || (is_text_buffer_key parameter_key && is_byte_array_key t argument_key)
        then true
        else
          match argument_key, parameter_key with
          | KeyArrayFixed lhs _, KeyArrayView rhs => lhs =? rhs
          | KeyArrayView lhs, KeyArrayView rhs => lhs =? rhs
          | KeyAsciiFixed _, KeyAsciiView => true
          | KeyUtf8Fixed _, KeyUtf8View => true
          | _, _ => false
          end
    | _, _ => false
    end.

(** ** The spelling of types *)

Definition LT : Z := 60.
Definition GT : Z := 62.
Definition COMMA : Z := 44.
Definition LSQUARE : Z := 91.
Definition RSQUARE : Z := 93.

Inductive ArrayExtent := ViewExtent | FixedExtent (max_len : Z).

(** The scan of [split_array_suffix] from the byte before [index] down. *)
Fixpoint suffix_loop (bytes : str) (index : nat) (depth : Z) : Result (option nat) TypeError :=
  match index with
  | O => Err ErrMissingBracket
  | S index' =>
      let b := bytes !!! index' in
      if b =? RSQUARE then suffix_loop bytes index' (depth + 1)
      else if b =? LSQUARE then
        let depth := depth - 1 in
        if depth =? 0 then Ok (Some index')
        else if depth <? 0 then Err ErrUnmatchedBracket
        else suffix_loop bytes index' depth
      else suffix_loop bytes index' depth
  end.

Definition split_array_suffix (type_name : str) : Result (option (str * str)) TypeError :=
  if bool_decide (last type_name = Some RSQUARE) then
    let? found := suffix_loop type_name (length type_name) 0 in
    Ok ((λ index, (take index type_name,
                   take (length type_name - 1 - S index) (drop (S index) type_name))) <$> found)
  else Ok None.

Definition parse_array_extent (extent_text : str) : Result ArrayExtent TypeError :=
  let trimmed := trim extent_text in
  if bool_decide (trimmed = []) then Ok ViewExtent
  else if negb (all_digits trimmed) then Err (ErrInvalidExtent trimmed)
  else
    let? max_len := ok_or (parse_unsigned 32 trimmed) (ErrInvalidExtent trimmed) in
    Ok (FixedExtent max_len).

Definition TYPED_COLLECTION_KINDS : list TypedCollectionKind :=
  [Pool; StablePool; Queue; RingBuffer; MapKind; SetKind; PriorityQueue; Grid; Bitset].

Definition parse_typed_collection_kind (name : str) : option TypedCollectionKind :=
  List.find (λ kind, bool_decide (trim name = kind_as_str kind)) TYPED_COLLECTION_KINDS.

Definition typed_collection_arity (kind : TypedCollectionKind) : nat :=
  match kind with
  | Pool | StablePool | Queue | RingBuffer | SetKind | PriorityQueue => 2
  | MapKind | Grid => 3
  | Bitset => 1
  end.

Definition is_legacy_typed_collection_policy (text : str) : bool :=
  existsb (λ p, bool_decide (trim text = string_bytes p)) ["error"; "drop_newest"; "overwrite_oldest"]%string.

Definition legacy_typed_collection_policy_diagnostic (source : str) (kind : TypedCollectionKind)
    (arguments : list str) (canonical_arity : nat) : TypeError :=
  ErrLegacyPolicy source (trim (arguments !!! canonical_arity)) kind (take canonical_arity arguments).

Definition i32_max : Z := 2147483647.

Definition parse_typed_capacity (kind : TypedCollectionKind) (text : str) (role : string) :
    Result Z TypeError :=
  let trimmed := trim text in
  if bool_decide (trimmed = []) || negb (all_digits trimmed) then Err (ErrCapacityText kind role trimmed)
  else
    let? value := ok_or (parse_unsigned 64 trimmed) (ErrCapacityRange kind role trimmed) in
    if i32_max <? value then Err (ErrCapacityExceeds kind role value) else Ok value.

(** An argument of an application, between two indices. *)
Definition application_argument (trimmed : str) (start index : nat) : Result str TypeError :=
  let argument := trim (take (index - start) (drop start trimmed)) in
  if bool_decide (argument = []) then Err (ErrApplicationEmptyArgument trimmed) else Ok argument.

(** The loop over the bytes from [index] on, which are [rest]. *)
Fixpoint application_loop (trimmed rest : str) (index : nat) (angle square : Z) (start : nat)
    (arguments : list str) : Result (list str) TypeError :=
  match rest with
  | [] =>
      if negb (angle =? 0) || negb (square =? 0) || bool_decide (arguments = [])
      then Err (ErrApplicationUnbalanced trimmed) else Ok arguments
  | b :: rest' =>
      if b =? LT then application_loop trimmed rest' (S index) (angle + 1) square start arguments
      else if b =? GT then
        let angle := angle - 1 in
        if angle <? 0 then Err (ErrApplicationUnmatchedClose trimmed)
        else if angle =? 0 then
          if negb (square =? 0) then Err (ErrApplicationUnmatchedOpenSquare trimmed)
          else
            let? argument := application_argument trimmed start index in
            if negb (S index =? length trimmed)%nat then Err (ErrApplicationTrailing trimmed)
            else application_loop trimmed rest' (S index) angle square start (arguments ++ [argument])
        else application_loop trimmed rest' (S index) angle square start arguments
      else if b =? LSQUARE then application_loop trimmed rest' (S index) angle (square + 1) start arguments
      else if b =? RSQUARE then
        let square := square - 1 in
        if square <? 0 then Err (ErrApplicationUnmatchedSquare trimmed)
        else application_loop trimmed rest' (S index) angle square start arguments
      else if (b =? COMMA) && (angle =? 1) && (square =? 0) then
        let? argument := application_argument trimmed start index in
        application_loop trimmed rest' (S index) angle square (S index) (arguments ++ [argument])
      else application_loop trimmed rest' (S index) angle square start arguments
  end.

Definition split_type_application (type_name : str) : Result (option (str * list str)) TypeError :=
  let trimmed := trim type_name in
  match find_byte LT trimmed with
  | None => Ok None
  | Some open =>
      if negb (bool_decide (last trimmed = Some GT)) then Err (ErrApplicationClose trimmed)
      else
        let base := trim (take open trimmed) in
        if bool_decide (base = []) then Err (ErrApplicationName trimmed)
        else
          let? arguments := application_loop trimmed (drop open trimmed) open 0 0 (S open) [] in
          Ok (Some (base, arguments))
  end.

(** ** Lanes of collections *)

Definition is_typed_scalar_type (id : TypeId) : bool :=
  bool_decide (id ∈ [TYPE_ID_I32; TYPE_ID_F32; TYPE_ID_F64; TYPE_ID_BOOL; TYPE_ID_U8; TYPE_ID_U16; TYPE_ID_U32]).

(** The size and the alignment of an element. *)
Definition typed_scalar_lane_layout (id : TypeId) : option (Z * Z) :=
  if bool_decide (id ∈ [TYPE_ID_I32; TYPE_ID_F32; TYPE_ID_U32; TYPE_ID_BOOL]) then Some (4, 4)
  else if id =? TYPE_ID_F64 then Some (8, 8)
  else if id =? TYPE_ID_U8 then Some (1, 1)
  else if id =? TYPE_ID_U16 then Some (2, 2)
  else None.

Definition align_typed_offset (offset alignment : Z) : Result Z TypeError :=
  let? adjustment := ok_or (checked_u 64 (alignment - 1)) ErrAlignmentZero in
  let? value := ok_or (checked_u 64 (offset + adjustment)) ErrAlignmentOverflow in
  Ok (value `div` alignment * alignment).

(** The lanes and the offset after them. *)
Abbreviation Lanes := (list TypedCollectionLane * Z)%type.

Definition append_typed_lane (name : string) (type_id : TypeId) (element_count : Z) (s : Lanes) :
    Result Lanes TypeError :=
  let '(lanes, offset) := s in
  let? (element_size, alignment) :=
    ok_or (typed_scalar_lane_layout type_id) (ErrLaneType (string_bytes name) type_id) in
  if element_count =? 0 then
    Ok (lanes ++ [mkLane (string_bytes name) type_id element_count offset 0 alignment], offset)
  else
    let? aligned_offset := align_typed_offset offset alignment in
    let? byte_size := ok_or (checked_u 64 (element_size * element_count)) (ErrLaneSize (string_bytes name)) in
    let? lane_end := ok_or (checked_u 64 (aligned_offset + byte_size)) (ErrLaneOffset (string_bytes name)) in
    Ok (lanes ++ [mkLane (string_bytes name) type_id element_count aligned_offset byte_size alignment], lane_end).

(** [.expect(message)] *)
Definition expect (o : option TypeId) (message : string) : Result TypeId TypeError := ok_or o (ErrPanic message).

Definition build_typed_collection_lanes (d : TypedCollectionDescriptor) : Result (list TypedCollectionLane) TypeError :=
  let s := ([], 0) in
  let? s :=
    match td_kind d with
    | Pool =>
        let? s := append_typed_lane "count" TYPE_ID_I32 1 s in
        let? element := expect (td_element_type d) "pool element validated" in
        append_typed_lane "values" element (td_capacity d) s
    | StablePool =>
        let? s := append_typed_lane "count" TYPE_ID_I32 1 s in
        let? s := append_typed_lane "occupied" TYPE_ID_U8 (td_capacity d) s in
        let? element := expect (td_element_type d) "stable pool element validated" in
        append_typed_lane "values" element (td_capacity d) s
    | Queue | RingBuffer =>
        let? s := append_typed_lane "count" TYPE_ID_I32 1 s in
        let? s := append_typed_lane "head" TYPE_ID_I32 1 s in
        let? element := expect (td_element_type d) "queue element validated" in
        append_typed_lane "values" element (td_capacity d) s
    | MapKind =>
        let? s := append_typed_lane "count" TYPE_ID_I32 1 s in
        let? s := append_typed_lane "occupied" TYPE_ID_U8 (td_capacity d) s in
        let? key := expect (td_key_type d) "map key validated" in
        let? s := append_typed_lane "keys" key (td_capacity d) s in
        let? value := expect (td_value_type d) "map value validated" in
        append_typed_lane "values" value (td_capacity d) s
    | SetKind =>
        let? s := append_typed_lane "count" TYPE_ID_I32 1 s in
        let? s := append_typed_lane "occupied" TYPE_ID_U8 (td_capacity d) s in
        let? key := expect (td_key_type d) "set key validated" in
        append_typed_lane "keys" key (td_capacity d) s
    | PriorityQueue =>
        let? s := append_typed_lane "count" TYPE_ID_I32 1 s in
        let? s := append_typed_lane "next_order" TYPE_ID_U32 1 s in
        let? s := append_typed_lane "priority" TYPE_ID_I32 (td_capacity d) s in
        let? s := append_typed_lane "order" TYPE_ID_U32 (td_capacity d) s in
        let? element := expect (td_element_type d) "priority queue element validated" in
        append_typed_lane "values" element (td_capacity d) s
    | Grid =>
        let? element := expect (td_element_type d) "grid element validated" in
        append_typed_lane "values" element (td_capacity d) s
    | Bitset =>
        let? words := ok_or (checked_u 64 (td_capacity d + 31)) ErrWordCount in
        append_typed_lane "words" TYPE_ID_U32 (words `div` 32) s
    end in
  Ok s.1.

Fixpoint total_size_loop (lanes : list TypedCollectionLane) (end_ alignment : Z) : Result (Z * Z) TypeError :=
  match lanes with
  | [] => Ok (end_, alignment)
  | lane :: lanes' =>
      let? lane_end := ok_or (checked_u 64 (ln_offset_bytes lane + ln_byte_size lane)) ErrTotalSize in
      total_size_loop lanes' (Z.max end_ lane_end)
        (if 0 <? ln_byte_size lane then Z.max alignment (ln_alignment_bytes lane) else alignment)
  end.

Definition typed_collection_total_size (lanes : list TypedCollectionLane) : Result Z TypeError :=
  let? (end_, alignment) := total_size_loop lanes 0 1 in
  align_typed_offset end_ alignment.

(** ** Descriptors

    [resolve] is [TypeTable::resolve], which these functions call on the arguments. *)

Section descriptors.
Context (resolve : str → option TypeId) (t : TypeTable).

Definition resolve_typed_scalar_argument (kind : TypedCollectionKind) (role : string) (type_name : str) :
    Result TypeId TypeError :=
  let? id := ok_or (resolve type_name) (ErrNotScalar kind role (trim type_name)) in
  if negb (is_typed_scalar_type id) then Err (ErrNotScalarLane kind role (trim type_name)) else Ok id.

Definition resolve_typed_key_argument (kind : TypedCollectionKind) (type_name : str) : Result TypeId TypeError :=
  let? id := resolve_typed_scalar_argument kind "key" type_name in
  if negb (is_integer t id) then Err (ErrKeyNotInteger kind (trim type_name)) else Ok id.

(** The fields of a descriptor that its arguments determine, for the kinds in order. *)
Definition describe (kind : TypedCollectionKind) (arguments : list str) :
    Result TypedCollectionDescriptor TypeError :=
  let d element key value capacity width height :=
    mkDescriptor kind element key value capacity width height [] 0 in
  match kind with
  | Pool | StablePool | Queue | RingBuffer | PriorityQueue =>
      let? element := resolve_typed_scalar_argument kind "element" (arguments !!! 0%nat) in
      let? capacity := parse_typed_capacity kind (arguments !!! 1%nat) "capacity" in
      Ok (d (Some element) None None capacity None None)
  | MapKind =>
      let? key := resolve_typed_key_argument kind (arguments !!! 0%nat) in
      let? value := resolve_typed_scalar_argument kind "value" (arguments !!! 1%nat) in
      let? capacity := parse_typed_capacity kind (arguments !!! 2%nat) "capacity" in
      Ok (d None (Some key) (Some value) capacity None None)
  | SetKind =>
      let? key := resolve_typed_key_argument kind (arguments !!! 0%nat) in
      let? capacity := parse_typed_capacity kind (arguments !!! 1%nat) "capacity" in
      Ok (d None (Some key) None capacity None None)
  | Grid =>
      let? element := resolve_typed_scalar_argument kind "element" (arguments !!! 0%nat) in
      let? width := parse_typed_capacity kind (arguments !!! 1%nat) "width" in
      let? height := parse_typed_capacity kind (arguments !!! 2%nat) "height" in
      let? cells := ok_or (checked_u 64 (width * height)) (ErrCellsOverflow kind) in
      if i32_max <? cells then Err (ErrCellsExceed kind)
      else Ok (d (Some element) None None (wrap 32 cells) (Some width) (Some height))
  | Bitset =>
      let? capacity := parse_typed_capacity kind (arguments !!! 0%nat) "capacity" in
      Ok (d None None None capacity None None)
  end.

Definition with_lanes (d : TypedCollectionDescriptor) (lanes : list TypedCollectionLane) (size : Z) :
    TypedCollectionDescriptor :=
  mkDescriptor (td_kind d) (td_element_type d) (td_key_type d) (td_value_type d) (td_capacity d)
    (td_width d) (td_height d) lanes size.

Definition parse_descriptor_with (type_name : str) : Result (option TypedCollectionDescriptor) TypeError :=
  let trimmed := trim type_name in
  match find_byte LT trimmed with
  | None => Ok None
  | Some open =>
      match parse_typed_collection_kind (trim (take open trimmed)) with
      | None => Ok None
      | Some _ =>
          let? split := split_type_application trimmed in
          match split with
          | None => Ok None
          | Some (kind_name, arguments) =>
              match parse_typed_collection_kind kind_name with
              | None => Ok None
              | Some kind =>
                  let expected_arity := typed_collection_arity kind in
                  if (length arguments =? expected_arity + 1)%nat
                     && is_legacy_typed_collection_policy (arguments !!! expected_arity)
                  then Err (legacy_typed_collection_policy_diagnostic trimmed kind arguments expected_arity)
                  else if negb (length arguments =? expected_arity)%nat
                  then Err (ErrArity kind expected_arity (length arguments))
                  else
                    let? d := describe kind arguments in
                    let? lanes := build_typed_collection_lanes d in
                    let? size := typed_collection_total_size lanes in
                    if u32_max <? size then Err (ErrStaticSize kind size)
                    else Ok (Some (with_lanes d lanes size))
              end
          end
      end
  end.

End descriptors.

Definition descriptor_key (d : TypedCollectionDescriptor) : TypeKey :=
  KeyCollection (td_kind d) (td_element_type d) (td_key_type d) (td_value_type d) (td_capacity d)
    (td_width d) (td_height d) (td_lanes d).

(** The name a type argument is displayed with. *)
Definition type_display (t : TypeTable) (id : option TypeId) : str :=
  match id ≫= type_info t with Some info => ti_name info | None => string_bytes "?" end.

Definition applied (name : str) (arguments : list str) (separator : string) : str :=
  name ++ [LT]
  ++ match arguments with
     | [] => []
     | a :: rest => a ++ concat ((λ b, string_bytes separator ++ b) <$> rest)
     end ++ [GT].

Definition canonical_type_name (d : TypedCollectionDescriptor) (t : TypeTable) : str :=
  applied (kind_as_str (td_kind d))
    (match td_kind d with
     | Pool | StablePool | Queue | RingBuffer | PriorityQueue =>
         [type_display t (td_element_type d); show (td_capacity d)]
     | MapKind => [type_display t (td_key_type d); type_display t (td_value_type d); show (td_capacity d)]
     | SetKind => [type_display t (td_key_type d); show (td_capacity d)]
     | Grid =>
         [type_display t (td_element_type d); show (default 0 (td_width d)); show (default 0 (td_height d))]
     | Bitset => [show (td_capacity d)]
     end) ", ".

(** ** Resolving a name *)

Definition BUILTIN_NAMES : list (string * TypeId) :=
  [("void", TYPE_ID_VOID); ("i32", TYPE_ID_I32); ("f32", TYPE_ID_F32); ("bool", TYPE_ID_BOOL);
   ("f64", TYPE_ID_F64); ("u8", TYPE_ID_U8); ("u16", TYPE_ID_U16); ("u32", TYPE_ID_U32)]%string.

Definition builtin_id (type_name : str) : option TypeId :=
  snd <$> List.find (λ e, bool_decide (type_name = string_bytes e.1)) BUILTIN_NAMES.

Definition name_index (t : TypeTable) (type_name : str) : option nat :=
  fst <$> list_find (λ info, ti_name info = type_name) (tt_types t).

Definition get_key (t : TypeTable) (key : TypeKey) : option TypeId := key_get key (tt_by_key t).

Definition text_array_key (base : str) (extent : ArrayExtent) : option TypeKey :=
  if bool_decide (base = string_bytes "ascii") then
    Some (match extent with ViewExtent => KeyAsciiView | FixedExtent n => KeyAsciiFixed n end)
  else if bool_decide (base = string_bytes "utf8") || bool_decide (base = string_bytes "string") then
    Some (match extent with ViewExtent => KeyUtf8View | FixedExtent n => KeyUtf8Fixed n end)
  else None.

Definition array_key (element : TypeId) (extent : ArrayExtent) : TypeKey :=
  match extent with ViewExtent => KeyArrayView element | FixedExtent n => KeyArrayFixed element n end.

(** One call of [resolve_existing]; [rec] is the recursive one. *)
Definition resolve_with (rec : str → option TypeId) (t : TypeTable) (type_name : str) : option TypeId :=
  if bool_decide (type_name = []) then None
  else
    match builtin_id type_name with
    | Some id => Some id
    | None =>
        if bool_decide (type_name = string_bytes "string") then get_key t KeyUtf8View
        else
          match name_index t type_name with
          | Some index => checked_u 16 (Z.of_nat index)
          | None =>
              match parse_descriptor_with (λ s, rec (trim s)) t type_name with
              | Ok (Some d) => get_key t (descriptor_key d)
              | _ =>
                  match split_array_suffix type_name with
                  | Err _ => None
                  | Ok None => get_key t (KeyNamed type_name)
                  | Ok (Some (base, extent_text)) =>
                      match parse_array_extent extent_text with
                      | Err _ => None
                      | Ok extent =>
                          let base := trim base in
                          match text_array_key base extent with
                          | Some key => get_key t key
                          | None =>
                              element ← rec base;
                              get_key t (array_key element extent)
                          end
                      end
                  end
              end
          end
    end.

Fixpoint resolve_fuel (fuel : nat) (t : TypeTable) (type_name : str) : option TypeId :=
  match fuel with
  | O => None
  | S fuel' => resolve_with (resolve_fuel fuel' t) t type_name
  end.

Definition resolve_existing (t : TypeTable) (type_name : str) : option TypeId :=
  resolve_fuel (S (length type_name)) t type_name.

Definition resolve (t : TypeTable) (type_name : str) : option TypeId := resolve_existing t (trim type_name).

Definition parse_typed_collection_descriptor (t : TypeTable) (type_name : str) :
    Result (option TypedCollectionDescriptor) TypeError :=
  parse_descriptor_with (resolve t) t type_name.

(** ** Interning *)

Definition intern_typed_collection (d : TypedCollectionDescriptor) (t : TypeTable) : Interned TypeId :=
  match get_key t (descriptor_key d) with
  | Some existing => (t, Ok existing)
  | None =>
      match checked_u 32 (td_static_size_bytes d) with
      | None => (t, Err (ErrStaticSize (td_kind d) (td_static_size_bytes d)))
      | Some size =>
          intern_with_info (descriptor_key d)
            (mkTypeInfo (canonical_type_name d t) CatNamed (mkTypeLayout 0 (Some size) (Some size))) t
      end
  end.

Definition checked_mul (lhs rhs : Z) : Result Z TypeError := ok_or (checked_u 32 (lhs * rhs)) ErrLayoutOverflow.
Definition checked_add (lhs rhs : Z) : Result Z TypeError := ok_or (checked_u 32 (lhs + rhs)) ErrLayoutOverflow.

Definition bracketed (name : str) (extent : ArrayExtent) : str :=
  name ++ [LSQUARE] ++ match extent with ViewExtent => [] | FixedExtent n => show n end ++ [RSQUARE].

(** The layout of a text buffer whose header has [words] words. *)
Definition text_layout (words : Z) (extent : ArrayExtent) : Result TypeLayout TypeError :=
  match extent with
  | ViewExtent => Ok (mkTypeLayout words None None)
  | FixedExtent max_len =>
      let? header := checked_mul words 4 in
      let? static_size := checked_add header max_len in
      Ok (mkTypeLayout words (Some max_len) (Some static_size))
  end.

Definition intern_text_array (base : string) (words : Z) (view fixed : TypeCategory) (key : TypeKey)
    (extent : ArrayExtent) (t : TypeTable) : Interned TypeId :=
  match text_layout words extent with
  | Err e => (t, Err e)
  | Ok layout =>
      intern_with_info key
        (mkTypeInfo (bracketed (string_bytes base) extent)
           (match extent with ViewExtent => view | FixedExtent _ => fixed end) layout) t
  end.

(** [option.map(f).transpose()?] *)
Definition transpose_map (o : option Z) (f : Z → Result Z TypeError) : Result (option Z) TypeError :=
  match o with
  | None => Ok None
  | Some z => let? v := f z in Ok (Some v)
  end.

Definition array_layout (element_static_size : option Z) (extent : ArrayExtent) : Result TypeLayout TypeError :=
  match extent with
  | ViewExtent => Ok (mkTypeLayout 1 None None)
  | FixedExtent max_len =>
      let? payload_size := transpose_map element_static_size (λ size, checked_mul size max_len) in
      let? static_size := transpose_map payload_size (λ payload, checked_add 4 payload) in
      Ok (mkTypeLayout 1 payload_size static_size)
  end.

(** [rec] is [resolve_or_intern_inner]. *)
Definition intern_array_with (rec : str → TypeTable → Interned TypeId) (base : str) (extent : ArrayExtent)
    (t : TypeTable) : Interned TypeId :=
  let base := trim base in
  if bool_decide (base = []) then (t, Err ErrEmptyArrayBase)
  else if bool_decide (base = string_bytes "ascii") then
    intern_text_array "ascii" 2 CatAsciiView CatAsciiFixed
      (match extent with ViewExtent => KeyAsciiView | FixedExtent n => KeyAsciiFixed n end) extent t
  else if bool_decide (base = string_bytes "utf8") || bool_decide (base = string_bytes "string") then
    intern_text_array "utf8" 3 CatUtf8View CatUtf8Fixed
      (match extent with ViewExtent => KeyUtf8View | FixedExtent n => KeyUtf8Fixed n end) extent t
  else
    match rec base t with
    | (t, Err e) => (t, Err e)
    | (t, Ok element) =>
        match type_info t element with
        | None => (t, Err (ErrMissingMetadata element))
        | Some info =>
            match array_layout (static_size_bytes (ti_layout info)) extent with
            | Err e => (t, Err e)
            | Ok layout =>
                intern_with_info (array_key element extent)
                  (mkTypeInfo (bracketed (ti_name info) extent)
                     (match extent with ViewExtent => CatArrayView | FixedExtent _ => CatArrayFixed end) layout) t
            end
        end
    end.

(** One call of [resolve_or_intern_inner]. *)
Definition intern_with (rec : str → TypeTable → Interned TypeId) (type_name : str) (t : TypeTable) :
    Interned TypeId :=
  if bool_decide (type_name = []) then (t, Err ErrEmptyName)
  else if bool_decide (type_name = string_bytes "string") then
    intern_array_with rec (string_bytes "utf8") ViewExtent t
  else
    match resolve_existing t type_name with
    | Some id => (t, Ok id)
    | None =>
        match split_array_suffix type_name with
        | Err e => (t, Err e)
        | Ok (Some (base, extent_text)) =>
            match parse_array_extent extent_text with
            | Err e => (t, Err e)
            | Ok extent => intern_array_with rec base extent t
            end
        | Ok None =>
            match parse_typed_collection_descriptor t type_name with
            | Err e => (t, Err e)
            | Ok (Some d) => intern_typed_collection d t
            | Ok None => intern_named type_name t
            end
        end
    end.

Fixpoint intern_fuel (fuel : nat) (type_name : str) (t : TypeTable) : Interned TypeId :=
  match fuel with
  | O => (t, Err (ErrPanic "fuel"))
  | S fuel' => intern_with (intern_fuel fuel') type_name t
  end.

Definition resolve_or_intern_inner (type_name : str) (t : TypeTable) : Interned TypeId :=
  intern_fuel (S (length type_name)) type_name t.

Definition resolve_or_intern (type_name : str) (t : TypeTable) : Interned TypeId :=
  resolve_or_intern_inner (trim type_name) t.

Definition resolve_or_intern_array (base : str) (extent : ArrayExtent) (t : TypeTable) : Interned TypeId :=
  intern_array_with resolve_or_intern_inner base extent t.

Definition ensure_ascii_view_id (t : TypeTable) : Interned TypeId :=
  resolve_or_intern_array (string_bytes "ascii") ViewExtent t.
Definition ensure_utf8_view_id (t : TypeTable) : Interned TypeId :=
  resolve_or_intern_array (string_bytes "utf8") ViewExtent t.

Definition argument_display (t : TypeTable) (argument : GenericArgument) : str :=
  match argument with
  | ArgType id => match type_info t id with Some info => ti_name info | None => string_bytes "type" ++ show id end
  | ArgI32 value => show value
  end.

Definition intern_instantiated_nominal (definition : str) (arguments : list GenericArgument) (t : TypeTable) :
    Interned TypeId :=
  let definition := trim definition in
  if bool_decide (definition = []) then (t, Err ErrEmptyDefinition)
  else if bool_decide (arguments = []) then (t, Err (ErrNoArguments definition))
  else
    intern_with_info (KeyInstantiated definition arguments)
      (mkTypeInfo (applied definition (argument_display t <$> arguments) ",") CatNamed no_layout) t.

Definition instantiated_nominal_identity (t : TypeTable) (id : TypeId) : option (str * list GenericArgument) :=
  match type_key t id with
  | Some (KeyInstantiated definition arguments) => Some (definition, arguments)
  | _ => None
  end.

(** ** Elements *)

Definition indexed_element_type_id (t : TypeTable) (id : TypeId) : option TypeId :=
  match type_key t id with
  | Some (KeyArrayFixed element _) | Some (KeyArrayView element) => Some element
  | Some (KeyAsciiFixed _) | Some KeyAsciiView | Some (KeyUtf8Fixed _) | Some KeyUtf8View =>
      match resolve_existing t (string_bytes "u8") with Some id => Some id | None => Some TYPE_ID_I32 end
  | _ => None
  end.

Definition fixed_collection_len (t : TypeTable) (id : TypeId) : option Z :=
  match type_key t id with
  | Some (KeyArrayFixed _ max_len) | Some (KeyAsciiFixed max_len) | Some (KeyUtf8Fixed max_len) =>
      checked_i 32 max_len
  | _ => None
  end.
