(* ===== verification/TypesProps.v ===== *)
(** * The type table: collections

    The lanes of a collection are laid out apart and aligned, within the size of the
    collection; its canonical spelling is read back as the same collection. *)

From S2P Require Import Prelude BTree Lexer Identity Text Functions Hir Types.
#[local] Open Scope Z_scope.

Lemma res_Ok {A B} (r : Result A TypeError) (k : A → Result B TypeError) y :
  result_bind r k = Ok y ↔ ∃ x, r = Ok x ∧ k x = Ok y.
Proof. destruct r as [x|e]; simpl; split; [by eauto|by intros (? & [= <-] & ?)|done|by intros (? & ? & ?)]. Qed.

Lemma res_ok_or {A} (o : option A) (e : TypeError) x : ok_or o e = Ok x ↔ o = Some x.
Proof. destruct o; simpl; split; congruence. Qed.

(** Inverts a chain of steps that succeeded. *)
Ltac inv_steps :=
  repeat match goal with
  | H : result_bind _ _ = Ok _ |- _ => apply res_Ok in H as (? & ? & H)
  | H : ok_or _ _ = Ok _ |- _ => apply res_ok_or in H
  | H : expect _ _ = Ok _ |- _ => apply res_ok_or in H
  | H : checked_u _ _ = Some _ |- _ => apply checked_u_Some in H as [? ->]
  | H : Ok _ = Ok _ |- _ => apply Ok_inj in H
  end.

(** ** Lanes *)

(** A lane of scalars, aligned if it has any. *)
Definition lane_ok (l : TypedCollectionLane) : Prop :=
  ∃ size align, typed_scalar_lane_layout (ln_type_id l) = Some (size, align)
    ∧ ln_alignment_bytes l = align ∧ ln_byte_size l = size * ln_element_count l
    ∧ 0 ≤ ln_element_count l ∧ 0 ≤ ln_offset_bytes l
    ∧ (ln_element_count l ≠ 0 → (align | ln_offset_bytes l)).

Definition lane_before (a b : TypedCollectionLane) : Prop := ln_offset_bytes a + ln_byte_size a ≤ ln_offset_bytes b.
Definition lane_within (size : Z) (l : TypedCollectionLane) : Prop := ln_offset_bytes l + ln_byte_size l ≤ size.

Record lanes_ok (lanes : list TypedCollectionLane) (size : Z) : Prop := {
  lo_lanes : Forall lane_ok lanes;
  lo_apart : StronglySorted lane_before lanes;
  lo_within : Forall (lane_within size) lanes;
}.

Definition lane_shape (l : TypedCollectionLane) : str * TypeId * Z := (ln_name l, ln_type_id l, ln_element_count l).

Lemma scalar_layout_cases id size align :
  typed_scalar_lane_layout id = Some (size, align) →
  (size = align ∧ (align = 1 ∨ align = 2 ∨ align = 4 ∨ align = 8)).
Proof. unfold typed_scalar_lane_layout. intros. repeat case_match; simplify_eq; auto. Qed.

Lemma align_offset_Ok offset align v :
  align = 1 ∨ align = 2 ∨ align = 4 ∨ align = 8 → align_typed_offset offset align = Ok v →
  offset ≤ v < offset + align ∧ (align | v).
Proof.
  intros Ha. unfold align_typed_offset. intros H. inv_steps. subst v. split; [|apply Z.divide_factor_r].
  assert (0 < align) by lia. replace (offset + (align - 1)) with (offset + align - 1) by lia.
  pose proof (Z.div_mod (offset + align - 1) align ltac:(lia)).
  pose proof (Z.mod_pos_bound (offset + align - 1) align ltac:(lia)). nia.
Qed.

Lemma append_lane_ok name id count lanes offset lanes' offset' :
  append_typed_lane name id count (lanes, offset) = Ok (lanes', offset') →
  lanes_ok lanes offset → 0 ≤ offset → 0 ≤ count →
  lanes_ok lanes' offset' ∧ 0 ≤ offset'
  ∧ lane_shape <$> lanes' = (lane_shape <$> lanes) ++ [(string_bytes name, id, count)].
Proof.
  unfold append_typed_lane. intros H [Hl Ha Hw] Ho Hc. inv_steps. rename select (_ = Some x) into Hx.
  destruct x as [size align]. pose proof (scalar_layout_cases _ _ _ Hx) as [-> Hcase].
  rewrite fmap_app || idtac. destruct (Z.eqb_spec count 0) as [->|Hne]; inv_steps; simplify_eq.
  - rewrite fmap_app. split_and!; [|done|done]. split.
    + apply Forall_app. split; [done|]. constructor; [|done]. exists align, align. simpl. split_and!; (done || lia).
    + apply StronglySorted_snoc; [done|]. by apply (Forall_impl _ _ _ Hw).
    + apply Forall_app. split; [done|]. constructor; [|done]. unfold lane_within. simpl. lia.
  - rename select (align_typed_offset _ _ = _) into Hal. apply align_offset_Ok in Hal as [Hr Hd]; [|done].
    assert (0 ≤ align * count) by lia. rewrite fmap_app. split_and!; [|lia|done]. split.
    + apply Forall_app. split; [done|]. constructor; [|done]. exists align, align. simpl. split_and!; (done || lia).
    + apply StronglySorted_snoc; [done|]. apply (Forall_impl _ _ _ Hw).
      unfold lane_within, lane_before. simpl. intros l ?. lia.
    + apply Forall_app. split; [|constructor; [unfold lane_within; simpl; lia|done]].
      apply (Forall_impl _ _ _ Hw). unfold lane_within. intros l ?. lia.
Qed.

(** The lanes of each kind of collection. *)
Definition lane_schema (d : TypedCollectionDescriptor) : list (string * option TypeId * Z) :=
  let i32 := Some TYPE_ID_I32 in let u8 := Some TYPE_ID_U8 in let u32 := Some TYPE_ID_U32 in
  let n := td_capacity d in
  match td_kind d with
  | Pool => [("count", i32, 1); ("values", td_element_type d, n)]
  | StablePool => [("count", i32, 1); ("occupied", u8, n); ("values", td_element_type d, n)]
  | Queue | RingBuffer => [("count", i32, 1); ("head", i32, 1); ("values", td_element_type d, n)]
  | MapKind => [("count", i32, 1); ("occupied", u8, n); ("keys", td_key_type d, n); ("values", td_value_type d, n)]
  | SetKind => [("count", i32, 1); ("occupied", u8, n); ("keys", td_key_type d, n)]
  | PriorityQueue =>
      [("count", i32, 1); ("next_order", u32, 1); ("priority", i32, n); ("order", u32, n);
       ("values", td_element_type d, n)]
  | Grid => [("values", td_element_type d, n)]
  | Bitset => [("words", u32, (n + 31) `div` 32)]
  end%string.

Definition schema_shape (e : string * option TypeId * Z) : str * option TypeId * Z := (string_bytes e.1.1, e.1.2, e.2).
Definition shape_of (l : TypedCollectionLane) : str * option TypeId * Z := (ln_name l, Some (ln_type_id l), ln_element_count l).

Lemma build_lanes_ok d lanes :
  build_typed_collection_lanes d = Ok lanes → 0 ≤ td_capacity d →
  (∃ offset, lanes_ok lanes offset) ∧ shape_of <$> lanes = schema_shape <$> lane_schema d.
Proof.
  intros H Hc. unfold build_typed_collection_lanes in H. inv_steps. rename x into s. rename H into Hl. subst lanes.
  assert (lanes_ok [] 0) as Hnil by (split; constructor).
  rewrite (list_fmap_ext shape_of ((λ e : str * TypeId * Z, (e.1.1, Some e.1.2, e.2)) ∘ lane_shape)) by done.
  rewrite list_fmap_compose. unfold lane_schema.
  destruct (td_kind d); inv_steps;
    repeat match goal with
    | H : append_typed_lane _ _ _ ?p = Ok ?q |- _ => is_var q; destruct q as [? ?]
    end; pose proof (Z.le_refl 0);
    repeat match goal with
    | Hk : lanes_ok ?l ?o, Hp : 0 ≤ ?o, H : append_typed_lane _ _ _ (?l, ?o) = Ok (_, _) |- _ =>
        apply append_lane_ok in H as (? & ? & ?); [|exact Hk|exact Hp|Z.to_euclidean_division_equations; lia]
    end; (split; [by eexists|]);
    repeat match goal with H : _ = Some _ |- _ => rewrite H end;
    cbn [fst]; repeat match goal with H : lane_shape <$> _ = _ |- _ => rewrite H end; done.
Qed.

(** ** The whole collection *)

Lemma total_loop_Ok lanes end_ alignment e a :
  total_size_loop lanes end_ alignment = Ok (e, a) →
  (alignment = 1 ∨ alignment = 2 ∨ alignment = 4 ∨ alignment = 8) → Forall lane_ok lanes →
  end_ ≤ e ∧ Forall (lane_within e) lanes ∧ (a = 1 ∨ a = 2 ∨ a = 4 ∨ a = 8)
  ∧ (alignment | a) ∧ Forall (λ l, 0 < ln_byte_size l → (ln_alignment_bytes l | a)) lanes.
Proof.
  revert end_ alignment. induction lanes as [|l lanes IH]; intros end_ alignment; cbn [total_size_loop].
  { intros [= <- <-] Ha _. split_and!; [lia|constructor|done|done|constructor]. }
  intros H Ha Hl. inv_steps. apply Forall_cons in Hl as [Hl Hls].
  destruct Hl as (size & align & Hsz & Hal & _). apply scalar_layout_cases in Hsz as [-> Hc]. subst align.
  apply IH in H as (He & Hw & Hcase & Hdiv & Hall); [|destruct (0 <? ln_byte_size l); lia|done].
  split_and!; [lia|constructor; [unfold lane_within; lia|done]|done| |constructor; [|done]].
  - destruct (0 <? ln_byte_size l); [|done]. etrans; [|exact Hdiv].
    destruct Ha as [->|[->|[->| ->]]], Hc as [->|[->|[->| ->]]]; simpl; apply Z.mod_divide; done.
  - intros Hpos%Z.ltb_lt. rewrite Hpos in Hdiv. etrans; [|exact Hdiv].
    destruct Ha as [->|[->|[->| ->]]], Hc as [->|[->|[->| ->]]]; simpl; apply Z.mod_divide; done.
Qed.

Lemma total_size_Ok lanes size :
  typed_collection_total_size lanes = Ok size → Forall lane_ok lanes →
  Forall (lane_within size) lanes ∧ Forall (λ l, 0 < ln_byte_size l → (ln_alignment_bytes l | size)) lanes.
Proof.
  unfold typed_collection_total_size. intros Hs Hl. inv_steps. destruct x as [e a].
  rename select (total_size_loop _ _ _ = _) into Ht.
  apply total_loop_Ok in Ht as (_ & Hw & Hc & _ & Hall); [|by left|done].
  apply align_offset_Ok in Hs as [Hr Hd]; [|done]. split.
  - apply (Forall_impl _ _ _ Hw). unfold lane_within. intros l ?. lia.
  - apply (Forall_impl _ _ _ Hall). intros l Hdl Hpos. etrans; [by apply Hdl|done].
Qed.

Lemma capacity_Ok kind text role v : parse_typed_capacity kind text role = Ok v → 0 ≤ v ≤ i32_max.
Proof.
  unfold parse_typed_capacity. case_match; [done|]. intros Hs. inv_steps.
  rename select (parse_unsigned _ _ = _) into Hp. apply parse_unsigned_range in Hp. unfold in_u in Hp.
  case_match eqn:E; [done|]. inv_steps. subst. to_props. lia.
Qed.

Lemma describe_Ok resolve t kind arguments d :
  describe resolve t kind arguments = Ok d → td_kind d = kind ∧ 0 ≤ td_capacity d ≤ i32_max.
Proof.
  unfold describe. intros H. destruct kind; inv_steps;
    repeat match goal with H : parse_typed_capacity _ _ _ = Ok _ |- _ => apply capacity_Ok in H end;
    subst; try (split; [done|assumption]).
  case_match eqn:E; [done|]. inv_steps. subst d. to_props. split; [done|]. cbn [td_capacity].
  rewrite wrap_small; [nia|]. unfold in_u, i32_max in *. nia.
Qed.

(** ** Descriptors *)

(** What a descriptor that was accepted says. *)
Record descriptor_wf (d : TypedCollectionDescriptor) : Prop := {
  dw_element : ∀ id, td_element_type d = Some id → is_typed_scalar_type id = true;
  dw_key : ∀ id, td_key_type d = Some id → is_typed_scalar_type id = true;
  dw_value : ∀ id, td_value_type d = Some id → is_typed_scalar_type id = true;
  dw_capacity : 0 ≤ td_capacity d ≤ i32_max;
  dw_fields :
    match td_kind d with
    | Pool | StablePool | Queue | RingBuffer | PriorityQueue =>
        is_Some (td_element_type d) ∧ td_key_type d = None ∧ td_value_type d = None
        ∧ td_width d = None ∧ td_height d = None
    | MapKind =>
        td_element_type d = None ∧ is_Some (td_key_type d) ∧ is_Some (td_value_type d)
        ∧ td_width d = None ∧ td_height d = None
    | SetKind =>
        td_element_type d = None ∧ is_Some (td_key_type d) ∧ td_value_type d = None
        ∧ td_width d = None ∧ td_height d = None
    | Grid =>
        is_Some (td_element_type d) ∧ td_key_type d = None ∧ td_value_type d = None
        ∧ ∃ w h, td_width d = Some w ∧ td_height d = Some h ∧ 0 ≤ w ≤ i32_max ∧ 0 ≤ h ≤ i32_max
          ∧ td_capacity d = w * h
    | Bitset =>
        td_element_type d = None ∧ td_key_type d = None ∧ td_value_type d = None
        ∧ td_width d = None ∧ td_height d = None
    end;
}.

Lemma scalar_argument_Ok resolve kind role name id :
  resolve_typed_scalar_argument resolve kind role name = Ok id →
  resolve name = Some id ∧ is_typed_scalar_type id = true.
Proof.
  unfold resolve_typed_scalar_argument. intros H. inv_steps. case_match eqn:E; [done|]. inv_steps. subst.
  split; [done|]. by apply negb_false_iff.
Qed.

Lemma key_argument_Ok resolve t kind name id :
  resolve_typed_key_argument resolve t kind name = Ok id →
  resolve name = Some id ∧ is_typed_scalar_type id = true ∧ is_integer t id = true.
Proof.
  unfold resolve_typed_key_argument. intros Hs. inv_steps. case_match eqn:E; [done|]. inv_steps. subst.
  rename select (resolve_typed_scalar_argument _ _ _ _ = _) into Ha. apply scalar_argument_Ok in Ha as [? ?].
  split_and!; [done..|]. by apply negb_false_iff.
Qed.

Ltac inv_arguments :=
  repeat match goal with
  | H : resolve_typed_scalar_argument _ _ _ _ = Ok _ |- _ => apply scalar_argument_Ok in H as [? ?]
  | H : resolve_typed_key_argument _ _ _ _ = Ok _ |- _ => apply key_argument_Ok in H as (? & ? & ?)
  | H : parse_typed_capacity _ _ _ = Ok _ |- _ => pose proof (capacity_Ok _ _ _ _ H); revert H
  end; intros.

Lemma describe_wf resolve t kind arguments d :
  describe resolve t kind arguments = Ok d → descriptor_wf d ∧ td_kind d = kind.
Proof.
  intros H. pose proof (describe_Ok _ _ _ _ _ H) as [Hk Hc]. split; [|done]. split; try exact Hc; rewrite ?Hk.
  all: unfold describe in H; destruct kind; inv_steps; try (case_match; [discriminate H|]; inv_steps); inv_arguments; subst d;
    cbn [td_element_type td_key_type td_value_type td_width td_height td_capacity] in *;
    try (simplify_eq; assumption); try done; try (split_and!; done).
  split_and!; try done. do 2 eexists. split_and!; try done; try lia.
  rename select (_ = false) into Hle. to_props. apply wrap_small. unfold in_u, i32_max in *. nia.
Qed.

(** Errors that a caller sees: no panic, no missing metadata. *)
Definition clean_error (e : TypeError) : Prop :=
  match e with ErrPanic _ | ErrMissingMetadata _ => False | _ => True end.

Definition clean {A} (r : Result A TypeError) : Prop := match r with Ok _ => True | Err e => clean_error e end.

Lemma clean_bind {A B} (r : Result A TypeError) (k : A → Result B TypeError) :
  clean r → (∀ x, r = Ok x → clean (k x)) → clean (result_bind r k).
Proof. destruct r as [x|e]; simpl; auto. Qed.

Lemma clean_ok_or {A} (o : option A) e : clean_error e → clean (ok_or o e).
Proof. by destruct o. Qed.

Create HintDb clean.
#[export] Hint Resolve clean_ok_or : clean.
#[export] Hint Extern 1 (clean_error _) => exact I : clean.
#[export] Hint Extern 1 (clean (Ok _)) => exact I : clean.
#[export] Hint Extern 1 (clean (ok_or (Some _) _)) => exact I : clean.
#[export] Hint Extern 1 (clean (Err _)) => exact I : clean.

(** Goes through the steps of an operation that only fails cleanly. *)
Ltac clean_steps :=
  repeat (first
    [ progress auto with clean
    | apply clean_bind; [|intros ? ?]
    | match goal with |- clean (if ?b then _ else _) => destruct b end
    | match goal with |- clean (match ?o with _ => _ end) => destruct o end ]).

Lemma append_lane_clean name id count s : clean (append_typed_lane name id count s).
Proof. destruct s. unfold append_typed_lane, align_typed_offset. clean_steps. Qed.
#[export] Hint Resolve append_lane_clean : clean.

(** The [expect]s of the lanes never panic. *)
Lemma build_lanes_clean d : descriptor_wf d → clean (build_typed_collection_lanes d).
Proof.
  intros [_ _ _ _ Hf]. unfold build_typed_collection_lanes. apply clean_bind; [|done].
  destruct (td_kind d); destruct_and?; repeat match goal with H : is_Some _ |- _ => destruct H as [? ->] end;
    unfold expect; clean_steps.
Qed.

Lemma total_size_clean lanes : clean (typed_collection_total_size lanes).
Proof.
  unfold typed_collection_total_size, align_typed_offset. apply clean_bind; [|intros [e a] _; clean_steps].
  generalize 0 1. induction lanes as [|l lanes IH]; intros e a; [done|]. cbn [total_size_loop]. clean_steps.
Qed.

Lemma describe_clean resolve t kind arguments : clean (describe resolve t kind arguments).
Proof.
  unfold describe, resolve_typed_key_argument, resolve_typed_scalar_argument, parse_typed_capacity.
  destruct kind; clean_steps.
Qed.

Lemma argument_clean trimmed start index : clean (application_argument trimmed start index).
Proof. unfold application_argument. clean_steps. Qed.
#[export] Hint Resolve argument_clean : clean.

Lemma loop_clean trimmed rest : ∀ index angle square start acc,
  clean (application_loop trimmed rest index angle square start acc).
Proof.
  induction rest as [|b rest IH]; intros index angle square start acc; cbn [application_loop]; clean_steps.
Qed.

Lemma split_application_clean s : clean (split_type_application s).
Proof.
  unfold split_type_application. destruct (find_byte LT (trim s)) as [o|]; [|done]. destruct (negb _); [done|].
  case_bool_decide; [done|]. apply clean_bind; [|done].
  apply loop_clean.
Qed.

Lemma parse_descriptor_clean resolve t s : clean (parse_descriptor_with resolve t s).
Proof.
  unfold parse_descriptor_with. destruct (find_byte LT (trim s)); [|done].
  destruct (parse_typed_collection_kind _); [|done]. apply clean_bind; [apply split_application_clean|].
  intros [[name args]|] _; [|done]. destruct (parse_typed_collection_kind name); [|done].
  destruct (_ && _); [done|]. destruct (negb _); [done|]. apply clean_bind; [apply describe_clean|]. intros d Hd.
  apply describe_wf in Hd as [Hd _]. apply clean_bind; [by apply build_lanes_clean|]. intros lanes _.
  apply clean_bind; [apply total_size_clean|]. intros size _. clean_steps.
Qed.

Lemma parse_descriptor_Ok resolve t s d :
  parse_descriptor_with resolve t s = Ok (Some d) →
  descriptor_wf d ∧ ∃ base lanes size, build_typed_collection_lanes base = Ok lanes
    ∧ typed_collection_total_size lanes = Ok size ∧ size ≤ u32_max ∧ d = with_lanes base lanes size ∧ descriptor_wf base.
Proof.
  unfold parse_descriptor_with. intros H. repeat (case_match; try done; inv_steps).
  all: rename select (describe _ _ _ _ = _) into Hd; apply describe_wf in Hd as [Hwf _]; to_props; simplify_eq.
  split; [by destruct Hwf; split|]. by do 3 eexists.
Qed.

(** The layout of the lanes does not look at the lanes a descriptor has. *)
Lemma build_with_lanes d lanes size : build_typed_collection_lanes (with_lanes d lanes size) = build_typed_collection_lanes d.
Proof. done. Qed.

(** C25 A collection that is accepted is laid out soundly.  Its lanes are those of its kind,
    each is aligned for its elements and as large as they are, no two overlap, all lie
    within the static size, which is a multiple of their alignments and fits a [u32]; its
    capacity fits an [i32], the capacity of a grid being its width times its height. *)
Theorem collection_layout_sound t s d :
  parse_typed_collection_descriptor t s = Ok (Some d) →
  descriptor_wf d
  ∧ shape_of <$> td_lanes d = schema_shape <$> lane_schema d
  ∧ lanes_ok (td_lanes d) (td_static_size_bytes d)
  ∧ Forall (λ l, 0 < ln_byte_size l → (ln_alignment_bytes l | td_static_size_bytes d)) (td_lanes d)
  ∧ 0 ≤ td_static_size_bytes d ≤ u32_max.
Proof.
  intros H. apply parse_descriptor_Ok in H as (Hwf & base & lanes & size & Hb & Hs & Hm & -> & Hwb).
  destruct (build_lanes_ok _ _ Hb) as ((offset & [Hl Ha _]) & Hshape); [apply Hwb|].
  destruct (total_size_Ok _ _ Hs Hl) as [Hw Hd]. split_and!; try done; cbn [td_static_size_bytes td_lanes with_lanes] in *.
  unfold typed_collection_total_size in Hs. inv_steps. destruct x as [e a].
  rename select (total_size_loop _ _ _ = _) into Ht. apply total_loop_Ok in Ht as (He & _ & Hc & _ & _); [|by left|done].
  apply align_offset_Ok in Hs as [? _]; [lia|done].
Qed.

(** ** The canonical spelling *)

(** The bytes of an argument that has no brackets and no comma. *)
Definition plain_byte (b : Z) : bool := negb (bool_decide (b ∈ [LT; GT; COMMA; LSQUARE; RSQUARE])).
Definition plain (s : str) : Prop := Forall (λ b, plain_byte b = true) s.

Lemma plain_byte_ne b : plain_byte b = true → b ≠ LT ∧ b ≠ GT ∧ b ≠ COMMA ∧ b ≠ LSQUARE ∧ b ≠ RSQUARE.
Proof.
  unfold plain_byte. intros H%negb_true_iff%bool_decide_eq_false. rewrite !not_elem_of_cons in H. tauto.
Qed.

Lemma loop_plain trimmed a rest index start acc :
  plain a →
  application_loop trimmed (a ++ rest) index 1 0 start acc
  = application_loop trimmed rest (index + length a) 1 0 start acc.
Proof.
  intros Ha. revert index. induction Ha as [|b a Hb _ IH]; intros index; [f_equal; simpl; lia|].
  apply plain_byte_ne in Hb as (H1 & H2 & H3 & H4 & H5). cbn [app application_loop].
  rewrite (proj2 (Z.eqb_neq _ _) H1), (proj2 (Z.eqb_neq _ _) H2), (proj2 (Z.eqb_neq _ _) H3),
    (proj2 (Z.eqb_neq _ _) H4), (proj2 (Z.eqb_neq _ _) H5). cbn [andb]. rewrite IH. f_equal. simpl. lia.
Qed.

Lemma argument_of_segment pre seg rest trimmed :
  trimmed = pre ++ seg ++ rest → trim seg ≠ [] →
  application_argument trimmed (length pre) (length pre + length seg) = Ok (trim seg).
Proof.
  intros -> Hs. unfold application_argument. rewrite drop_app_length.
  replace (length pre + length seg - length pre)%nat with (length seg) by lia. rewrite take_app_length.
  by rewrite bool_decide_eq_false_2.
Qed.

Lemma loop_segments segs : ∀ pre acc trimmed,
  segs ≠ [] → Forall (λ s, plain s ∧ trim s ≠ []) segs → trimmed = pre ++ join COMMA segs ++ [GT] →
  application_loop trimmed (join COMMA segs ++ [GT]) (length pre) 1 0 (length pre) acc
  = Ok (acc ++ (trim <$> segs)).
Proof.
  induction segs as [|seg [|seg2 segs] IH]; intros pre acc trimmed Hn Hall Ht; [done|..];
    apply Forall_cons in Hall as [[Hp Htr] Hall].
  - cbn [join] in *. rewrite loop_plain by done. cbn [application_loop]. change (GT =? LT) with false.
    change (GT =? GT) with true. cbn [Z.ltb Z.eqb Z.sub Z.add Z.opp Z.pos_sub Z.compare negb].
    rewrite (argument_of_segment pre seg [GT]) by done. cbn [result_bind].
    rewrite (proj2 (Nat.eqb_eq _ _)) by (rewrite Ht, !length_app; simpl; lia). cbn [negb application_loop].
    rewrite bool_decide_eq_false_2; [done|]. by destruct acc.
  - change (join COMMA (seg :: seg2 :: segs)) with (seg ++ COMMA :: join COMMA (seg2 :: segs)) in *.
    rewrite <- app_assoc in *. cbn [app] in *. rewrite loop_plain by done. cbn [application_loop].
    change (COMMA =? LT) with false. change (COMMA =? GT) with false. change (COMMA =? LSQUARE) with false.
    change (COMMA =? RSQUARE) with false. cbn [Z.eqb andb Pos.eqb].
    change (COMMA =? COMMA) with true. cbn [andb].
    rewrite (argument_of_segment pre seg (COMMA :: join COMMA (seg2 :: segs) ++ [GT])) by done. cbn [result_bind].
    assert (S (length pre + length seg) = length (pre ++ seg ++ [COMMA])) as -> by (rewrite !length_app; simpl; lia).
    rewrite IH; [by rewrite <- app_assoc|done|done|]. rewrite Ht, <- !app_assoc. done.
Qed.

Lemma applied_join name a rest separator segs :
  separator = ", "%string → segs = a :: ((λ b, 32 :: b) <$> rest) →
  applied name (a :: rest) separator = name ++ LT :: join COMMA segs ++ [GT].
Proof.
  intros -> ->. unfold applied. f_equal. cbn [app]. f_equal. f_equal.
  revert a. induction rest as [|b rest IH]; intros a; [by rewrite app_nil_r|].
  cbn [fmap list_fmap concat join]. f_equal. change (string_bytes ", ") with [COMMA; 32]. cbn [app]. f_equal.
  specialize (IH (32 :: b)). simpl in IH. rewrite <- IH. done.
Qed.

(** A name applied to plain arguments is split into them. *)
Lemma split_applied name a rest :
  name ≠ [] → trim name = name → plain name →
  Forall (λ b, plain b ∧ b ≠ [] ∧ trim b = b) (a :: rest) →
  split_type_application (applied name (a :: rest) ", ") = Ok (Some (name, a :: rest))
  ∧ trim (applied name (a :: rest) ", ") = applied name (a :: rest) ", "
  ∧ find_byte LT (applied name (a :: rest) ", ") = Some (length name).
Proof.
  intros Hn Htr Hp Hall. set (segs := a :: ((λ b, 32 :: b) <$> rest)).
  rewrite (applied_join name a rest _ segs) by done. set (s := name ++ LT :: join COMMA segs ++ [GT]).
  assert (LT ∉ name) as Hlt.
  { intros Hin. unfold plain in Hp. rewrite Forall_forall in Hp. by apply Hp, plain_byte_ne in Hin as [? _]. }
  assert (trim s = s) as Hts.
  { apply trim_trimmed.
    - apply blank_char_app; [done| |done]. rewrite <- Htr. apply trim_spec.
    - unfold s. rewrite app_comm_cons, app_assoc. by apply solid_last. }
  assert (find_byte LT s = Some (length name)) as Hf by by apply find_byte_app.
  split_and!; [|done|done]. unfold split_type_application. rewrite Hts, Hf.
  rewrite bool_decide_eq_true_2 by (unfold s; by rewrite app_comm_cons, app_assoc, last_snoc). cbn [negb].
  assert (take (length name) s = name) as -> by apply take_app_length.
  rewrite Htr, bool_decide_eq_false_2 by done.
  assert (drop (length name) s = LT :: join COMMA segs ++ [GT]) as -> by apply drop_app_length.
  cbn [application_loop]. change (LT =? LT) with true. change (0 + 1) with 1.
  assert (S (length name) = length (name ++ [LT])) as -> by (rewrite length_app; simpl; lia).
  assert (trim <$> segs = a :: rest) as Hsegs.
  { apply Forall_cons in Hall as [(_ & _ & Ha) Hr]. unfold segs. cbn [fmap list_fmap]. f_equal; [done|].
    clear -Hr. induction Hr as [|b rest (_ & _ & Hb) _ IH]; [done|]. cbn [fmap list_fmap].
    by rewrite trim_space, Hb, IH. }
  rewrite (loop_segments segs (name ++ [LT]) [] s); [by rewrite Hsegs|done| |by unfold s; rewrite <- app_assoc].
  clear -Hall. apply Forall_cons in Hall as [(Ha & Hna & Hta) Hr]. constructor; [by rewrite Hta|].
  apply Forall_fmap, (Forall_impl _ _ _ Hr). intros b (Hb & Hnb & Htb). simpl. rewrite trim_space, Htb.
  split; [|done]. by constructor.
Qed.

(** The builtins of a table. *)
Definition builtins_in (t : TypeTable) : Prop :=
  take 8 (tt_types t) = tt_types TypeTable_new ∧ take 8 (tt_keys t) = tt_keys TypeTable_new.

Lemma lookup_take_8 {A} (l l8 : list A) i x : take 8 l = l8 → l8 !! i = Some x → l !! i = Some x.
Proof. intros <- H. by apply lookup_take_Some in H as [? _]. Qed.

(** The seven scalars a lane may have. *)
Lemma scalar_cases id :
  is_typed_scalar_type id = true →
  id ∈ [TYPE_ID_I32; TYPE_ID_F32; TYPE_ID_F64; TYPE_ID_BOOL; TYPE_ID_U8; TYPE_ID_U16; TYPE_ID_U32].
Proof. apply bool_decide_eq_true. Qed.

Definition scalar_name (id : TypeId) : str :=
  string_bytes (match id with
                | 1 => "i32" | 2 => "f32" | 3 => "bool" | 4 => "f64" | 5 => "u8" | 6 => "u16" | _ => "u32"
                end)%string.

Lemma scalar_facts t id :
  builtins_in t → is_typed_scalar_type id = true →
  type_display t (Some id) = scalar_name id ∧ resolve t (scalar_name id) = Some id
  ∧ is_integer t id = is_integer TypeTable_new id
  ∧ plain (scalar_name id) ∧ scalar_name id ≠ [] ∧ trim (scalar_name id) = scalar_name id.
Proof.
  intros [Ht Hk] Hid%scalar_cases. rewrite !elem_of_cons in Hid.
  assert (∀ i x, tt_types TypeTable_new !! i = Some x → tt_types t !! i = Some x) as Ht' by (intros; by eapply lookup_take_8).
  assert (∀ i x, tt_keys TypeTable_new !! i = Some x → tt_keys t !! i = Some x) as Hk' by (intros; by eapply lookup_take_8).
  unfold type_display, is_integer, type_key. cbn [mbind option_bind]. unfold type_info.
  destruct Hid as [->|[->|[->|[->|[->|[->|[->|Hid]]]]]]]; [..|by apply elem_of_nil in Hid];
    (erewrite Ht' by reflexivity; erewrite Hk' by reflexivity);
    (split_and!; [reflexivity|reflexivity|reflexivity|repeat constructor|done|reflexivity]).
Qed.

Definition canonical_arguments (d : TypedCollectionDescriptor) (t : TypeTable) : list str :=
  match td_kind d with
  | Pool | StablePool | Queue | RingBuffer | PriorityQueue =>
      [type_display t (td_element_type d); show (td_capacity d)]
  | MapKind => [type_display t (td_key_type d); type_display t (td_value_type d); show (td_capacity d)]
  | SetKind => [type_display t (td_key_type d); show (td_capacity d)]
  | Grid =>
      [type_display t (td_element_type d); show (default 0 (td_width d)); show (default 0 (td_height d))]
  | Bitset => [show (td_capacity d)]
  end.

Lemma kind_name_facts kind :
  parse_typed_collection_kind (kind_as_str kind) = Some kind ∧ kind_as_str kind ≠ []
  ∧ trim (kind_as_str kind) = kind_as_str kind ∧ plain (kind_as_str kind).
Proof. destruct kind; (split_and!; [reflexivity|done|reflexivity|repeat constructor]). Qed.

Lemma digits_plain s : all_digits s = true → plain s.
Proof.
  intros H. apply Forall_forall. intros b Hb. pose proof (all_digits_elem _ _ H Hb) as Hr. unfold plain_byte.
  apply negb_true_iff, bool_decide_eq_false. rewrite !not_elem_of_cons.
  unfold LT, GT, COMMA, LSQUARE, RSQUARE. split_and!; try lia. apply not_elem_of_nil.
Qed.

Lemma show_argument z : 0 ≤ z → plain (show z) ∧ show z ≠ [] ∧ trim (show z) = show z.
Proof. intros Hz. destruct (show_spec z Hz) as (Hd & Hn & _). split_and!; [by apply digits_plain|done|by apply trim_show]. Qed.

Lemma capacity_show kind role z : 0 ≤ z ≤ i32_max → parse_typed_capacity kind (show z) role = Ok z.
Proof.
  intros Hz. destruct (show_spec z ltac:(lia)) as (Hd & Hn & _). unfold parse_typed_capacity.
  rewrite trim_show, bool_decide_eq_false_2, Hd by (lia || done). cbn [negb orb].
  rewrite parse_show by (unfold in_u, i32_max in *; lia). cbn [ok_or result_bind].
  by rewrite (proj2 (Z.ltb_ge _ _)) by lia.
Qed.

Lemma scalar_argument_show t kind role id :
  builtins_in t → is_typed_scalar_type id = true →
  resolve_typed_scalar_argument (resolve t) kind role (type_display t (Some id)) = Ok id.
Proof.
  intros Hb Hs. destruct (scalar_facts t id Hb Hs) as (-> & Hr & _). unfold resolve_typed_scalar_argument.
  rewrite Hr. cbn [ok_or result_bind]. by rewrite Hs.
Qed.

Definition strip_lanes (d : TypedCollectionDescriptor) : TypedCollectionDescriptor := with_lanes d [] 0.

Lemma describe_canonical t d :
  builtins_in t → descriptor_wf d → (∀ id, td_key_type d = Some id → is_integer t id = true) →
  describe (resolve t) t (td_kind d) (canonical_arguments d t) = Ok (strip_lanes d)
  ∧ Forall (λ b, plain b ∧ b ≠ [] ∧ trim b = b) (canonical_arguments d t)
  ∧ length (canonical_arguments d t) = typed_collection_arity (td_kind d).
Proof.
  intros Hb [He Hk Hv Hc Hf] Hi.
  assert (∀ id, is_typed_scalar_type id = true →
    plain (type_display t (Some id)) ∧ type_display t (Some id) ≠ [] ∧ trim (type_display t (Some id)) = type_display t (Some id)) as Hd.
  { intros id Hid. destruct (scalar_facts t id Hb Hid) as (-> & _ & _ & ? & ? & ?). done. }
  assert (∀ z, 0 ≤ z → plain (show z) ∧ show z ≠ [] ∧ trim (show z) = show z) as Hn by apply show_argument.
  unfold canonical_arguments, describe. destruct d as [kind el ky vl cap w h ls sz].
  cbn [td_kind td_element_type td_key_type td_value_type td_capacity td_width td_height] in *.
  destruct kind; repeat match type of Hf with _ ∧ _ => let H := fresh in destruct Hf as [H Hf] end;
    try destruct Hf as (? & ? & -> & -> & ? & ? & ->);
    repeat match goal with H : is_Some _ |- _ => destruct H as [? ->] end; subst;
    cbn [lookup_total list_lookup_total default from_option Datatypes.id];
    try (unfold resolve_typed_key_argument; rewrite scalar_argument_show by (done || by apply Hk); cbn [result_bind];
         rewrite Hi by done; cbn [negb result_bind]);
    rewrite ?scalar_argument_show by (first [done|by apply He|by apply Hv]); cbn [result_bind];
    rewrite ?capacity_show by done; cbn [result_bind].
  all: split_and!; try done;
    try (repeat (constructor; [first [by apply Hd, He|by apply Hd, Hk|by apply Hd, Hv|apply Hn; lia]|]); by constructor).
  unfold checked_u. rewrite bool_decide_eq_true_2 by (unfold in_u, i32_max in *; nia). cbn [ok_or result_bind].
  rewrite (proj2 (Z.ltb_ge _ _)) by lia. rewrite wrap_small by (unfold in_u, i32_max in *; lia). done.
Qed.

Lemma describe_key_integer resolve t kind arguments d id :
  describe resolve t kind arguments = Ok d → td_key_type d = Some id → is_integer t id = true.
Proof.
  unfold describe. intros H Hk. destruct kind; inv_steps; try (case_match; [discriminate H|]; inv_steps);
    inv_arguments; subst d; simplify_eq/=; done.
Qed.

Lemma parse_descriptor_integer resolve t s d id :
  parse_descriptor_with resolve t s = Ok (Some d) → td_key_type d = Some id → is_integer t id = true.
Proof.
  unfold parse_descriptor_with. intros H Hk. repeat (case_match; try done; inv_steps).
  all: rename select (describe _ _ _ _ = _) into Hd; eapply describe_key_integer; [exact Hd|]; by simplify_eq.
Qed.

Lemma canonical_spelling_lemma t s d :
  builtins_in t → parse_typed_collection_descriptor t s = Ok (Some d) →
  parse_typed_collection_descriptor t (canonical_type_name d t) = Ok (Some d).
Proof.
  intros Hb H. pose proof (parse_descriptor_Ok _ _ _ _ H) as (Hwf & base & lanes & size & Hbl & Hts & Hle & -> & Hwb).
  set (d := with_lanes base lanes size) in *.
  destruct (describe_canonical t d Hb Hwf) as (Hd & Hargs & Hlen); [intros id; by eapply parse_descriptor_integer|].
  change (canonical_type_name d t) with (applied (kind_as_str (td_kind d)) (canonical_arguments d t) ", ").
  destruct (kind_name_facts (td_kind d)) as (Hk & Hn & Htr & Hp).
  destruct (canonical_arguments d t) as [|a rest] eqn:Ha; [by destruct (td_kind d)|].
  destruct (split_applied (kind_as_str (td_kind d)) a rest Hn Htr Hp Hargs) as (Hsplit & Htrim & Hfind).
  unfold parse_typed_collection_descriptor, parse_descriptor_with. rewrite Htrim, Hfind.
  unfold applied at 1. rewrite take_app_length, Htr, Hk, Hsplit. cbn [result_bind]. rewrite Hk, Hlen.
  rewrite (proj2 (Nat.eqb_neq _ _)), Nat.eqb_refl by lia. cbn [andb negb].
  rewrite Hd. cbn [result_bind]. change (build_typed_collection_lanes (strip_lanes d)) with (build_typed_collection_lanes base).
  rewrite Hbl. cbn [result_bind]. rewrite Hts. cbn [result_bind]. by rewrite (proj2 (Z.ltb_ge _ _)) by lia.
Qed.

(** The canonical spelling of a collection denotes it.  The name that is built for a
    collection that was read from any text is read back as the same collection, with the
    same fields, lanes and size: so two texts with the same canonical name denote the same
    collection. *)
Theorem canonical_spelling t s d :
  builtins_in t → parse_typed_collection_descriptor t s = Ok (Some d) →
  parse_typed_collection_descriptor t (canonical_type_name d t) = Ok (Some d)
  ∧ ∀ s' d', parse_typed_collection_descriptor t s' = Ok (Some d') →
      canonical_type_name d' t = canonical_type_name d t → d' = d.
Proof.
  intros Hb H. pose proof (canonical_spelling_lemma _ _ _ Hb H) as Hc. split; [done|]. intros s' d' H' E.
  pose proof (canonical_spelling_lemma _ _ _ Hb H') as Hc'. rewrite E, Hc in Hc'. congruence.
Qed.

(** ** Witnesses *)

Definition sample_map : str := string_bytes " map< u16 ,f64, 10 > ".

Definition sample_descriptor : TypedCollectionDescriptor :=
  match parse_typed_collection_descriptor TypeTable_new sample_map with
  | Ok (Some d) => d
  | _ => mkDescriptor Bitset None None None 0 None None [] 0
  end.

(** The lanes of the sample: a count, flags, keys and values. *)
Example sample_lanes :
  (λ l, (ln_offset_bytes l, ln_byte_size l)) <$> td_lanes sample_descriptor = [(0, 4); (4, 10); (14, 20); (40, 80)]
  ∧ td_static_size_bytes sample_descriptor = 120
  ∧ canonical_type_name sample_descriptor TypeTable_new = string_bytes "map<u16, f64, 10>".
Proof. by vm_compute. Qed.

Lemma collection_layout_sound_witness : descriptor_wf sample_descriptor.
Proof. apply (collection_layout_sound TypeTable_new sample_map sample_descriptor). vm_compute. reflexivity. Defined.

Lemma canonical_spelling_witness :
  parse_typed_collection_descriptor TypeTable_new (canonical_type_name sample_descriptor TypeTable_new)
  = Ok (Some sample_descriptor).
Proof. apply (canonical_spelling TypeTable_new sample_map sample_descriptor); [by split|vm_compute; reflexivity]. Defined.
