(* ===== verification/TypesTable.v ===== *)
(** * The type table: interning

    A text denotes a key, by rules that do not look at the names of the table; a table
    that was built by interning texts resolves a text to the type of the key it denotes,
    and what it interns resolves to itself from then on.  A table in which types were also
    instantiated, which only tests do, keeps all of this but what the names denote. *)

From S2P Require Import Prelude BTree Lexer Identity Text Functions Hir Types TypesProps.
#[local] Open Scope Z_scope.

(** ** Recursion on shorter texts *)

Lemma argument_shorter trimmed start index a :
  application_argument trimmed start index = Ok a → (0 < start)%nat → (length a < length trimmed)%nat.
Proof.
  unfold application_argument. intros H Hs. case_bool_decide as Hn; [done|]. apply Ok_inj in H as <-.
  destruct trimmed as [|b s]; [exfalso; apply Hn; by rewrite drop_nil, take_nil|].
  pose proof (length_trim (take (index - start) (drop start (b :: s)))) as Hl.
  rewrite length_take, length_drop in Hl. simpl in *. lia.
Qed.

Lemma loop_shorter trimmed rest : ∀ index angle square start acc args,
  application_loop trimmed rest index angle square start acc = Ok args → (0 < start)%nat →
  Forall (λ a, (length a < length trimmed)%nat) acc → Forall (λ a, (length a < length trimmed)%nat) args.
Proof.
  induction rest as [|b rest IH]; intros index angle square start acc args H Hs Ha; cbn [application_loop] in H.
  { case_match; [done|]. by apply Ok_inj in H as <-. }
  repeat match type of H with
  | (if ?c then _ else _) = Ok _ => destruct c
  end; try done; try (by eapply IH in H); apply res_Ok in H as (a & Harg & H).
  - destruct (negb _); [done|]. eapply IH in H; [done|done|]. apply Forall_app_2; [done|].
    constructor; [|done]. by eapply argument_shorter.
  - eapply IH in H; [done|lia|]. apply Forall_app_2; [done|]. constructor; [|done]. by eapply argument_shorter.
Qed.

Lemma split_shorter s name args :
  split_type_application s = Ok (Some (name, args)) → Forall (λ a, (length a < length s)%nat) args.
Proof.
  unfold split_type_application. intros H. case_match; [|done]. destruct (negb _); [done|]. case_bool_decide as Hne; [done|].
  inv_steps. simplify_eq. rename select (application_loop _ _ _ _ _ _ _ = _) into Hl.
  apply loop_shorter in Hl; [|lia|done]. apply (Forall_impl _ _ _ Hl). intros a ?. pose proof (length_trim s). lia.
Qed.

Lemma suffix_shorter s base extent :
  split_array_suffix s = Ok (Some (base, extent)) → (length base < length s)%nat.
Proof.
  unfold split_array_suffix. case_bool_decide as Hn; [|done]. intros H. inv_steps. rename x into found.
  destruct found as [i|]; simplify_eq/=. rewrite length_take.
  assert (∀ n d i, suffix_loop s n d = Ok (Some i) → (i < n)%nat) as Hlt.
  { clear. induction n as [|n IH]; intros d i; cbn [suffix_loop]; [done|]. intros H.
    repeat match type of H with (if ?c then _ else _) = _ => destruct c end; try done;
      [apply IH in H; lia|by simplify_eq; lia|apply IH in H; lia|apply IH in H; lia]. }
  rename select (suffix_loop _ _ _ = _) into Hs. apply Hlt in Hs. lia.
Qed.

(** The text of a collection, well formed or not: its name up to the bracket is a kind. *)
Definition collection_text (s : str) : bool :=
  match find_byte LT (trim s) with
  | Some open => bool_decide (is_Some (parse_typed_collection_kind (trim (take open (trim s)))))
  | None => false
  end.

Lemma args_lookup (args : list str) i : args !!! i ∈ args ∨ args !!! i = [].
Proof.
  destruct (args !! i) as [a|] eqn:E; [left|right].
  - rewrite (list_lookup_total_correct _ _ _ E). by eapply list_elem_of_lookup_2.
  - rewrite list_lookup_total_alt. unfold str in *. by rewrite E.
Qed.

(** ** Descriptors depend on what their arguments resolve to *)

Section descriptor_monotone.
Context (r r' : str → option TypeId) (t t' : TypeTable).

(** [r'] resolves the scalars [r] does. *)
Definition scalars_agree (a : str) : Prop :=
  ∀ id, r a = Some id → is_typed_scalar_type id = true → r' a = Some id ∧ is_integer t' id = is_integer t id.

Lemma scalar_argument_mono kind role a id :
  scalars_agree a → resolve_typed_scalar_argument r kind role a = Ok id →
  resolve_typed_scalar_argument r' kind role a = Ok id.
Proof.
  intros Ha H. apply scalar_argument_Ok in H as [Hr Hs]. destruct (Ha _ Hr Hs) as [Hr' _].
  unfold resolve_typed_scalar_argument. rewrite Hr'. cbn [ok_or result_bind]. by rewrite Hs.
Qed.

Lemma key_argument_mono kind a id :
  scalars_agree a → resolve_typed_key_argument r t kind a = Ok id → resolve_typed_key_argument r' t' kind a = Ok id.
Proof.
  intros Ha H. pose proof (key_argument_Ok _ _ _ _ _ H) as (Hr & Hs & Hi). destruct (Ha _ Hr Hs) as [_ He].
  unfold resolve_typed_key_argument in *. apply res_Ok in H as (x & Hx & Hk).
  rewrite (scalar_argument_mono _ _ _ _ Ha Hx). cbn [result_bind]. case_match eqn:E; [done|]. apply Ok_inj in Hk as ->.
  by rewrite He, Hi.
Qed.

Lemma describe_mono kind args d :
  (∀ a, a ∈ args ∨ a = [] → scalars_agree a) → describe r t kind args = Ok d → describe r' t' kind args = Ok d.
Proof.
  intros Ha. assert (∀ i, scalars_agree (args !!! i)) as Hi by (intros i; apply Ha, args_lookup).
  unfold describe. destruct kind; intros H;
    repeat match type of H with
    | result_bind (resolve_typed_key_argument _ _ _ _) _ = _ =>
        let x := fresh in let Hx := fresh in apply res_Ok in H as (x & Hx & H);
        rewrite (key_argument_mono _ _ _ (Hi _) Hx); cbn [result_bind]
    | result_bind (resolve_typed_scalar_argument _ _ _ _) _ = _ =>
        let x := fresh in let Hx := fresh in apply res_Ok in H as (x & Hx & H);
        rewrite (scalar_argument_mono _ _ _ _ (Hi _) Hx); cbn [result_bind]
    end; exact H.
Qed.

Lemma parse_mono s d :
  (∀ a, (length a < length s)%nat → scalars_agree a) →
  parse_descriptor_with r t s = Ok (Some d) → parse_descriptor_with r' t' s = Ok (Some d).
Proof.
  intros Ha. unfold parse_descriptor_with. intros H. destruct (find_byte LT (trim s)) as [o|] eqn:Ho; [|done].
  destruct (parse_typed_collection_kind _); [|done]. apply res_Ok in H as (split & Hs & H). rewrite Hs. cbn [result_bind].
  destruct split as [[name args]|]; [|done]. destruct (parse_typed_collection_kind name); [|done].
  destruct (_ && _); [done|]. destruct (negb _); [done|]. apply res_Ok in H as (d' & Hd & H).
  apply describe_mono in Hd as ->; [exact H|]. pose proof (split_shorter _ _ _ Hs) as Hl.
  pose proof (length_trim s) as Htr. intros a [Hin| ->].
  - rewrite Forall_forall in Hl. apply Hl in Hin. apply Ha. lia.
  - apply Ha. destruct s; [done|simpl; lia].
Qed.
End descriptor_monotone.

(** A text that is not a collection has no descriptor, and is not refused as one. *)
Lemma parse_collection_text r t s :
  parse_descriptor_with r t s = Ok None ↔ collection_text s = false.
Proof.
  unfold parse_descriptor_with, collection_text. destruct (find_byte LT (trim s)) as [o|] eqn:Ho; [|done].
  destruct (parse_typed_collection_kind _) as [k|] eqn:Hk; [|by rewrite bool_decide_eq_false_2 by (by intros [])].
  rewrite bool_decide_eq_true_2 by done. split; [|done]. intros H. apply res_Ok in H as (split & Hs & H).
  unfold split_type_application in Hs. rewrite trim_trim, Ho in Hs. destruct (negb _); [done|].
  case_bool_decide; [done|]. inv_steps. subst split. rewrite Hk in H.
  destruct (_ && _); [done|]. destruct (negb _); [done|]. inv_steps. case_match; [done|]. inv_steps. done.
Qed.

Section descriptor_ext.
Context (r r' : str → option TypeId) (t : TypeTable).

Lemma describe_ext kind args :
  (∀ a, a ∈ args ∨ a = [] → r a = r' a) → describe r t kind args = describe r' t kind args.
Proof.
  intros Ha. assert (∀ i, r (args !!! i) = r' (args !!! i)) as Hi by (intros i; apply Ha, args_lookup).
  unfold describe, resolve_typed_key_argument, resolve_typed_scalar_argument. by rewrite !Hi.
Qed.

Lemma parse_ext s :
  (∀ a, (length a < length s)%nat → r a = r' a) → parse_descriptor_with r t s = parse_descriptor_with r' t s.
Proof.
  intros Ha. unfold parse_descriptor_with. destruct (find_byte LT (trim s)) as [o|] eqn:Ho; [|done].
  destruct (parse_typed_collection_kind _); [|done].
  destruct (split_type_application (trim s)) as [[[name args]|]|] eqn:Hs; [|done..]. cbn [result_bind].
  destruct (parse_typed_collection_kind name); [|done]. destruct (_ && _); [done|]. destruct (negb _); [done|].
  rewrite describe_ext; [done|]. pose proof (split_shorter _ _ _ Hs) as Hl. pose proof (length_trim s).
  intros a [Hin| ->]; apply Ha.
  - rewrite Forall_forall in Hl. apply Hl in Hin. lia.
  - destruct s; [done|simpl; lia].
Qed.
End descriptor_ext.

Lemma resolve_with_ext rec rec' t s :
  (∀ a, (length a < length s)%nat → rec a = rec' a) → resolve_with rec t s = resolve_with rec' t s.
Proof.
  intros Ha. unfold resolve_with. repeat (case_match; [done|]).
  rewrite (parse_ext (λ a, rec (trim a)) (λ a, rec' (trim a)))
    by (intros a ?; apply Ha; pose proof (length_trim a); lia).
  assert (∀ b e, split_array_suffix s = Ok (Some (b, e)) → rec (trim b) = rec' (trim b)) as Hb
    by (intros b e ?%suffix_shorter; apply Ha; pose proof (length_trim b); lia).
  destruct (parse_descriptor_with _ t s) as [[d|]|]; [done| |];
    (destruct (split_array_suffix s) as [[[b e]|]|]; [|done..]; by rewrite (Hb b e)).
Qed.

Lemma resolve_fuel_enough t s : ∀ n m,
  (length s < n)%nat → (length s < m)%nat → resolve_fuel n t s = resolve_fuel m t s.
Proof.
  remember (length s) as k eqn:Hk. revert s Hk. induction k as [k IH] using lt_wf_ind. intros s -> n m Hn Hm.
  destruct n as [|n], m as [|m]; try lia. cbn [resolve_fuel]. apply resolve_with_ext. intros a Ha.
  apply (IH (length a)); (done || lia).
Qed.

(** [resolve_existing] without its fuel. *)
Lemma resolve_existing_unfold t s : resolve_existing t s = resolve_with (resolve_existing t) t s.
Proof.
  unfold resolve_existing at 1. cbn [resolve_fuel]. apply resolve_with_ext. intros a Ha.
  apply resolve_fuel_enough; lia.
Qed.

Lemma intern_with_ext rec rec' s t :
  (∀ a t, (length a < length s)%nat → rec a t = rec' a t) →
  s ≠ string_bytes "string" → intern_with rec s t = intern_with rec' s t.
Proof.
  intros Ha Hn. unfold intern_with. case_match; [done|]. rewrite bool_decide_eq_false_2 by done.
  case_match; [done|]. destruct (split_array_suffix s) as [[[b e]|]|] eqn:Hs; [|done..].
  destruct (parse_array_extent e); [|done]. unfold intern_array_with. repeat (case_match; [done|]).
  rewrite Ha; [done|]. apply suffix_shorter in Hs. pose proof (length_trim b). lia.
Qed.

Lemma intern_fuel_enough s : ∀ n m t,
  (length s < n)%nat → (length s < m)%nat → intern_fuel n s t = intern_fuel m s t.
Proof.
  remember (length s) as k eqn:Hk. revert s Hk. induction k as [k IH] using lt_wf_ind. intros s -> n m t Hn Hm.
  destruct n as [|n], m as [|m]; try lia. cbn [intern_fuel].
  destruct (decide (s = string_bytes "string")) as [->|Hs]; [done|]. apply intern_with_ext; [|done].
  intros a t' Ha. apply (IH (length a)); (done || lia).
Qed.

Lemma resolve_or_intern_inner_unfold s t :
  resolve_or_intern_inner s t = intern_with resolve_or_intern_inner s t.
Proof.
  unfold resolve_or_intern_inner at 1. cbn [intern_fuel].
  destruct (decide (s = string_bytes "string")) as [->|Hs]; [done|]. apply intern_with_ext; [|done].
  intros a t' Ha. apply intern_fuel_enough; lia.
Qed.

(** ** What a text denotes

    The key of a text; [rec] gives the types of the shorter texts in it. *)

Definition denoted_key (rec : str → option TypeId) (t : TypeTable) (s : str) : option TypeKey :=
  if bool_decide (s = []) then None
  else
    match builtin_id s with
    | Some id => tt_keys TypeTable_new !! Z.to_nat id
    | None =>
        if bool_decide (s = string_bytes "string") then Some KeyUtf8View
        else
          match parse_descriptor_with (λ a, rec (trim a)) t s with
          | Ok (Some d) => Some (descriptor_key d)
          | _ =>
              match split_array_suffix s with
              | Err _ => None
              | Ok None => Some (KeyNamed s)
              | Ok (Some (base, extent_text)) =>
                  match parse_array_extent extent_text with
                  | Err _ => None
                  | Ok extent =>
                      match text_array_key (trim base) extent with
                      | Some key => Some key
                      | None => e ← rec (trim base); Some (array_key e extent)
                      end
                  end
              end
          end
    end.

Fixpoint denote_fuel (fuel : nat) (t : TypeTable) (s : str) : option TypeId :=
  match fuel with
  | O => None
  | S fuel' => denoted_key (denote_fuel fuel' t) t s ≫= get_key t
  end.

(** The type with the key that a text denotes. *)
Definition denote (t : TypeTable) (s : str) : option TypeId := denote_fuel (S (length s)) t s.

Lemma denoted_key_ext rec rec' t s :
  (∀ a, (length a < length s)%nat → rec a = rec' a) → denoted_key rec t s = denoted_key rec' t s.
Proof.
  intros Ha. unfold denoted_key. repeat (case_match; [done|]).
  rewrite (parse_ext (λ a, rec (trim a)) (λ a, rec' (trim a)))
    by (intros a ?; apply Ha; pose proof (length_trim a); lia).
  assert (∀ b e, split_array_suffix s = Ok (Some (b, e)) → rec (trim b) = rec' (trim b)) as Hb
    by (intros b e ?%suffix_shorter; apply Ha; pose proof (length_trim b); lia).
  destruct (parse_descriptor_with _ t s) as [[d|]|]; [done| |];
    (destruct (split_array_suffix s) as [[[b e]|]|]; [|done..]; by rewrite (Hb b e)).
Qed.

Lemma denote_fuel_enough t s : ∀ n m,
  (length s < n)%nat → (length s < m)%nat → denote_fuel n t s = denote_fuel m t s.
Proof.
  remember (length s) as k eqn:Hk. revert s Hk. induction k as [k IH] using lt_wf_ind. intros s -> n m Hn Hm.
  destruct n as [|n], m as [|m]; try lia. cbn [denote_fuel]. f_equal. apply denoted_key_ext. intros a Ha.
  apply (IH (length a)); (done || lia).
Qed.

Lemma denote_unfold t s : denote t s = denoted_key (denote t) t s ≫= get_key t.
Proof.
  unfold denote at 1. cbn [denote_fuel]. f_equal. apply denoted_key_ext. intros a Ha. apply denote_fuel_enough; lia.
Qed.

(** ** The invariant of a table *)

(** [words] words of a header, then the payload, if its size is known. *)
Definition header_layout (words : Z) (payload : option Z) : TypeLayout :=
  mkTypeLayout words payload ((λ size, 4 * words + size) <$> payload).

Definition array_info (t : TypeTable) (element : TypeId) (extent : ArrayExtent) (category : TypeCategory) :
    option TypeInfo :=
  info ← type_info t element;
  Some (mkTypeInfo (bracketed (ti_name info) extent) category
    (header_layout 1
      (match extent with
       | ViewExtent => None
       | FixedExtent n => (λ size, size * n) <$> static_size_bytes (ti_layout info)
       end))).

Definition text_info (base : string) (words : Z) (extent : ArrayExtent) (category : TypeCategory) : TypeInfo :=
  mkTypeInfo (bracketed (string_bytes base) extent) category
    (header_layout words (match extent with ViewExtent => None | FixedExtent n => Some n end)).

(** A static size is a [u32]. *)
Definition layout_fits (layout : TypeLayout) : Prop := ∀ size, static_size_bytes layout = Some size → in_u 32 size.

(** The information a key determines. *)
Definition expected_info (t : TypeTable) (key : TypeKey) : option TypeInfo :=
  match key with
  | KeyBuiltin _ | KeyInstantiated _ _ => None
  | KeyNamed name => Some (mkTypeInfo name CatNamed no_layout)
  | KeyCollection kind element key value capacity width height lanes =>
      match typed_collection_total_size lanes with
      | Ok size =>
          Some (mkTypeInfo (canonical_type_name (mkDescriptor kind element key value capacity width height lanes size) t)
                  CatNamed (mkTypeLayout 0 (Some size) (Some size)))
      | Err _ => None
      end
  | KeyArrayFixed element n => array_info t element (FixedExtent n) CatArrayFixed
  | KeyArrayView element => array_info t element ViewExtent CatArrayView
  | KeyAsciiFixed n => Some (text_info "ascii" 2 (FixedExtent n) CatAsciiFixed)
  | KeyAsciiView => Some (text_info "ascii" 2 ViewExtent CatAsciiView)
  | KeyUtf8Fixed n => Some (text_info "utf8" 3 (FixedExtent n) CatUtf8Fixed)
  | KeyUtf8View => Some (text_info "utf8" 3 ViewExtent CatUtf8View)
  end.

Definition extent_ok (extent : ArrayExtent) : Prop :=
  match extent with ViewExtent => True | FixedExtent n => in_u 32 n end.

(** What the key at the index [i] is made of. *)
Definition key_ok (i : nat) (key : TypeKey) : Prop :=
  match key with
  | KeyNamed name => collection_text name = false
  | KeyArrayFixed element n => 0 ≤ element < Z.of_nat i ∧ in_u 32 n
  | KeyArrayView element => 0 ≤ element < Z.of_nat i
  | KeyAsciiFixed n | KeyUtf8Fixed n => in_u 32 n
  | KeyAsciiView | KeyUtf8View => True
  | KeyCollection kind element key value capacity width height lanes =>
      descriptor_wf (mkDescriptor kind element key value capacity width height lanes 0)
  | KeyBuiltin _ | KeyInstantiated _ _ => False
  end.

Record entry_ok (t : TypeTable) (i : nat) (key : TypeKey) (info : TypeInfo) : Prop := {
  eo_key : key_ok i key;
  eo_info : expected_info t key = Some info;
  eo_fits : layout_fits (ti_layout info);
  eo_name : ti_name info ≠ [] ∧ trim (ti_name info) = ti_name info;
  eo_denotes : denoted_key (denote t) t (ti_name info) = Some key;
}.

Record Table (t : TypeTable) : Prop := {
  tb_len : length (tt_types t) = length (tt_keys t);
  tb_bound : Z.of_nat (length (tt_keys t)) ≤ 65536;
  tb_exact : ∀ key id, get_key t key = Some id ↔ 0 ≤ id ∧ tt_keys t !! Z.to_nat id = Some key;
  tb_builtins : builtins_in t;
  tb_entries : ∀ i key info, (8 ≤ i)%nat → tt_keys t !! i = Some key → tt_types t !! i = Some info →
    entry_ok t i key info;
}.

(** [t'] has the types of [t] under the same ids. *)
Definition extends (t t' : TypeTable) : Prop :=
  tt_types t `prefix_of` tt_types t' ∧ tt_keys t `prefix_of` tt_keys t'.

#[export] Instance extends_preorder : PreOrder extends.
Proof. split; [by intros t|intros t1 t2 t3 [? ?] [? ?]; split; by etrans]. Qed.

(** ** Denotation in a larger table *)

Lemma last_trim_solid s b : last s = Some b → blank_byte b = false → last (trim s) = Some b.
Proof.
  intros Hl Hb. apply last_Some in Hl as [l ->]. destruct (trim_split (l ++ [b])) as (p & r & E & Hp & Hr).
  destruct r as [|c r _] using rev_ind.
  - rewrite app_nil_r in E. destruct (trim (l ++ [b])) as [|c u _] using rev_ind; [|rewrite last_snoc].
    + rewrite app_nil_r in E. rewrite <- E in Hp. apply is_blank_last in Hp. congruence.
    + rewrite app_assoc in E. by apply app_inj_2 in E as [_ [= ->]].
  - apply is_blank_last in Hr. rewrite !app_assoc in E. apply app_inj_2 in E as [_ [= ->]]; [|done]. congruence.
Qed.

(** A text that ends in a bracket is no collection. *)
Lemma parse_bracket r t s d : last s = Some RSQUARE → parse_descriptor_with r t s ≠ Ok (Some d).
Proof.
  intros Hl H. pose proof (last_trim_solid _ _ Hl eq_refl) as Hlt. unfold parse_descriptor_with in H.
  destruct (find_byte LT (trim s)) as [o|] eqn:Ho; [|done]. destruct (parse_typed_collection_kind _); [|done].
  unfold split_type_application in H. rewrite trim_trim, Ho in H. by rewrite Hlt in H.
Qed.

Lemma suffix_last s x : split_array_suffix s = Ok (Some x) → last s = Some RSQUARE.
Proof. unfold split_array_suffix. by case_bool_decide. Qed.

Lemma is_integer_builtins t t' id :
  builtins_in t → builtins_in t' → is_typed_scalar_type id = true → is_integer t' id = is_integer t id.
Proof.
  intros H H' Hs. destruct (scalar_facts t id H Hs) as (_ & _ & -> & _).
  by destruct (scalar_facts t' id H' Hs) as (_ & _ & -> & _).
Qed.

(** The keys of texts: a name in the table is not the text of a collection. *)
Definition proper_key (key : TypeKey) : Prop := ∀ name, key = KeyNamed name → collection_text name = false.

Lemma denoted_key_mono rec rec' t t' s key :
  builtins_in t → builtins_in t' → proper_key key →
  (∀ a id, (length a < length s)%nat → rec a = Some id → rec' a = Some id) →
  denoted_key rec t s = Some key → denoted_key rec' t' s = Some key.
Proof.
  intros Hb Hb' Hp Ha. unfold denoted_key. repeat (case_match; [done|]).
  set (p := λ a, rec (trim a)). set (p' := λ a, rec' (trim a)).
  assert (∀ d, parse_descriptor_with p t s = Ok (Some d) → parse_descriptor_with p' t' s = Ok (Some d)) as Hd.
  { intros d. apply parse_mono. intros a Hl id Hr Hs. pose proof (length_trim a). split; [|by apply is_integer_builtins].
    apply Ha; [lia|done]. }
  destruct (split_array_suffix s) as [[[b e]|]|] eqn:Hs.
  - pose proof (suffix_last _ _ Hs) as Hl. pose proof (suffix_shorter _ _ _ Hs) as Hsh. pose proof (length_trim b) as Hlb.
    assert (∀ T (x : T) f r u, match parse_descriptor_with r u s with Ok (Some d) => f d | _ => x end = x) as Hskip.
    { intros T x f r u. destruct (parse_descriptor_with r u s) as [[d|]|] eqn:E; [|done..]. by apply parse_bracket in E. }
    rewrite !Hskip. destruct (parse_array_extent e); [|done]. destruct (text_array_key _ _); [done|].
    destruct (rec (trim b)) as [id|] eqn:Hr; [|done]. by rewrite (Ha (trim b) id ltac:(lia) Hr).
  - destruct (parse_descriptor_with p t s) as [[d|]|] eqn:E; [by rewrite (Hd d)| |].
    + apply parse_collection_text in E. rewrite (proj2 (parse_collection_text _ _ _)); done.
    + intros [= <-]. specialize (Hp _ eq_refl). rewrite (proj2 (parse_collection_text _ _ _)) in E; done.
  - destruct (parse_descriptor_with p t s) as [[d|]|] eqn:E; [by rewrite (Hd d)|done..].
Qed.

Lemma table_proper t key id : Table t → get_key t key = Some id → proper_key key.
Proof.
  intros [Hl Hbd He [Hbt Hbk] Hen] Hg name ->. apply He in Hg as [Hpos Hk].
  destruct (decide (Z.to_nat id < 8)%nat) as [Hlt|Hge].
  - rewrite <- (lookup_take_lt _ 8), Hbk in Hk by lia.
    destruct (Z.to_nat id) as [|[|[|[|[|[|[|[|n]]]]]]]]; try done.
  - assert (is_Some (tt_types t !! Z.to_nat id)) as [info Hi]
      by (apply lookup_lt_is_Some; rewrite Hl; by eapply lookup_lt_Some).
    by destruct (Hen (Z.to_nat id) _ info ltac:(lia) Hk Hi).
Qed.

Lemma extends_builtins t t' : builtins_in t → extends t t' → builtins_in t'.
Proof.
  intros [Ht Hk] [[l Et] [k Ek]]. unfold builtins_in. rewrite Et, Ek.
  assert (length (tt_types TypeTable_new) = 8%nat ∧ length (tt_keys TypeTable_new) = 8%nat) as [H8 H8'] by done.
  rewrite <- Ht, length_take in H8. rewrite <- Hk, length_take in H8'. rewrite !take_app_le by lia. done.
Qed.

Lemma type_info_mono t t' id info : extends t t' → type_info t id = Some info → type_info t' id = Some info.
Proof. intros [H _] Hi. by eapply prefix_lookup_Some. Qed.

Lemma get_key_mono t t' key id :
  Table t → (∀ key id, get_key t' key = Some id ↔ 0 ≤ id ∧ tt_keys t' !! Z.to_nat id = Some key) →
  extends t t' → get_key t key = Some id → get_key t' key = Some id.
Proof.
  intros Ht He' [_ Hk] Hg. apply (tb_exact _ Ht) in Hg as [Hp Hi]. apply He'. split; [done|].
  by eapply prefix_lookup_Some.
Qed.

Lemma denote_mono t t' s id :
  Table t → (∀ key id, get_key t' key = Some id ↔ 0 ≤ id ∧ tt_keys t' !! Z.to_nat id = Some key) →
  extends t t' → denote t s = Some id → denote t' s = Some id.
Proof.
  intros Ht He' Hx. remember (length s) as n eqn:Hn. revert s id Hn.
  induction n as [n IH] using lt_wf_ind. intros s id ->. rewrite !(denote_unfold _ s).
  destruct (denoted_key (denote t) t s) as [key|] eqn:E; [|done]. cbn [mbind option_bind]. intros Hg.
  rewrite (denoted_key_mono (denote t) (denote t') t t' s key); [by eapply get_key_mono|apply Ht| |by eapply table_proper| |done].
  - by eapply extends_builtins; [apply Ht|].
  - intros a id' Ha. by eapply IH.
Qed.

(** ** Names are a cache of keys *)

Lemma builtins_named t i info :
  builtins_in t → (i < 8)%nat → tt_types t !! i = Some info → is_Some (builtin_id (ti_name info)).
Proof.
  intros [Ht _] Hi H. rewrite <- (lookup_take_lt _ 8), Ht in H by lia.
  destruct i as [|[|[|[|[|[|[|[|n]]]]]]]]; [..|lia]; injection H as <-; eexists; reflexivity.
Qed.

Lemma builtin_id_key t s id :
  builtins_in t → builtin_id s = Some id → ∃ key,
    tt_keys TypeTable_new !! Z.to_nat id = Some key ∧ 0 ≤ id ∧ tt_keys t !! Z.to_nat id = Some key.
Proof.
  intros [_ Hk] H. unfold builtin_id in H. cbn [List.find BUILTIN_NAMES fst] in H.
  repeat (case_bool_decide; [injection H as <-; eexists; split_and!;
    [reflexivity|done|eapply lookup_take_8; [exact Hk|reflexivity]]|]). done.
Qed.

Lemma resolve_by_keys_existing t s : Table t → resolve_existing t s = denote t s.
Proof.
  intros Ht. remember (length s) as n eqn:Hn. revert s Hn. induction n as [n IH] using lt_wf_ind. intros s ->.
  rewrite resolve_existing_unfold, denote_unfold.
  rewrite (resolve_with_ext _ (denote t)) by (intros a Ha; by eapply IH). unfold resolve_with, denoted_key.
  case_match; [done|]. destruct (builtin_id s) as [id|] eqn:Hb.
  { destruct (builtin_id_key _ _ _ (tb_builtins _ Ht) Hb) as (key & -> & Hp & Hk). cbn [mbind option_bind].
    symmetry. by apply (tb_exact _ Ht). }
  case_match eqn:Hstr; [done|]. destruct (name_index t s) as [i|] eqn:Hi.
  - unfold name_index in Hi. apply fmap_Some in Hi as ([j info] & Hf & ->). apply list_find_Some in Hf as (Hj & Hname & _).
    destruct (decide (j < 8)%nat) as [Hlt|Hge].
    { destruct (builtins_named _ _ _ (tb_builtins _ Ht) Hlt Hj) as [x Hx]. simpl in *. congruence. }
    assert (is_Some (tt_keys t !! j)) as [key Hk]
      by (apply lookup_lt_is_Some; rewrite <- (tb_len _ Ht); by eapply lookup_lt_Some).
    destruct (tb_entries _ Ht j key info ltac:(lia) Hk Hj) as [_ _ _ _ Hd]. simpl in Hname. subst s.
    assert (get_key t key = Some (Z.of_nat j)) as Hg by (apply (tb_exact _ Ht); rewrite Nat2Z.id; split; [lia|done]).
    unfold denoted_key in Hd. rewrite H, Hb, Hstr in Hd. rewrite Hd. cbn [mbind option_bind fst]. rewrite Hg.
    apply checked_u_Some. split; [|done]. apply lookup_lt_Some in Hk. pose proof (tb_bound _ Ht). unfold in_u. lia.
  - destruct (parse_descriptor_with _ t s) as [[d|]|]; [done| |];
      (destruct (split_array_suffix s) as [[[b e]|]|]; [|done..]; destruct (parse_array_extent e); [|done];
       destruct (text_array_key _ _); [done|]; by destruct (denote t (trim b))).
Qed.

(** ** Adding a type *)

Lemma expected_info_mono t t' i key info :
  builtins_in t → extends t t' → key_ok i key → expected_info t key = Some info → expected_info t' key = Some info.
Proof.
  intros Hb Hx Hk. pose proof (extends_builtins _ _ Hb Hx) as Hb'. destruct key; try done; simpl.
  - destruct (typed_collection_total_size lanes) as [size|]; [|done]. intros [= <-]. do 2 f_equal.
    destruct Hk as [He Hky Hv _ Hf]. cbn in He, Hky, Hv, Hf.
    assert (∀ id, is_typed_scalar_type id = true → type_display t' (Some id) = type_display t (Some id)) as Hd.
    { intros id Hs. destruct (scalar_facts t id Hb Hs) as [-> _].
      by destruct (scalar_facts t' id Hb' Hs) as [-> _]. }
    unfold canonical_type_name. cbn [td_kind td_element_type td_key_type td_value_type td_capacity td_width td_height].
    destruct kind; repeat match type of Hf with _ ∧ _ => let H := fresh in destruct Hf as [H Hf] end;
      repeat match goal with H : is_Some _ |- _ => destruct H as [? ->] end;
      rewrite ?Hd by (first [by apply He|by apply Hky|by apply Hv]); done.
  - unfold array_info. destruct (type_info t element) as [e|] eqn:E; [|done]. by rewrite (type_info_mono _ _ _ _ Hx E).
  - unfold array_info. destruct (type_info t element) as [e|] eqn:E; [|done]. by rewrite (type_info_mono _ _ _ _ Hx E).
Qed.

(** What must hold of a new entry. *)
Record new_entry (t : TypeTable) (key : TypeKey) (info : TypeInfo) : Prop := {
  ne_key : key_ok (length (tt_keys t)) key;
  ne_info : expected_info t key = Some info;
  ne_fits : layout_fits (ti_layout info);
  ne_name : ti_name info ≠ [] ∧ trim (ti_name info) = ti_name info;
  ne_denotes : denoted_key (denote t) t (ti_name info) = Some key;
}.

Lemma key_get_push key id key' m :
  key_get key' ((key, id) :: m) = if bool_decide (key = key') then Some id else key_get key' m.
Proof. unfold key_get. simpl. by case_bool_decide. Qed.

Lemma key_ok_proper i key : key_ok i key → proper_key key.
Proof. intros H name ->. exact H. Qed.

Lemma push_extends key info id t : extends t (push_type key info id t).
Proof. split; by apply prefix_app_r. Qed.

Lemma push_exact t key info :
  (∀ key id, get_key t key = Some id ↔ 0 ≤ id ∧ tt_keys t !! Z.to_nat id = Some key) → get_key t key = None → ∀ k i,
  get_key (push_type key info (Z.of_nat (length (tt_keys t))) t) k = Some i
  ↔ 0 ≤ i ∧ tt_keys (push_type key info (Z.of_nat (length (tt_keys t))) t) !! Z.to_nat i = Some k.
Proof.
  intros He Hn k i. unfold get_key. cbn [push_type tt_by_key tt_keys]. rewrite key_get_push. case_bool_decide as E.
  - subst k. split.
    + intros [= <-]. rewrite Nat2Z.id, lookup_app_r, Nat.sub_diag by lia. split; [lia|done].
    + intros [Hp Hi]. apply lookup_app_Some in Hi as [Hi|[Hge Hi]].
      * assert (get_key t key = Some i) as Hg by by apply He. congruence.
      * apply list_lookup_singleton_Some in Hi as [Hz _]. f_equal. lia.
  - rewrite (He k i). split; intros [Hp Hi]; (split; [done|]).
    + apply lookup_app_Some. by left.
    + apply lookup_app_Some in Hi as [Hi|[_ Hi]]; [done|]. by apply list_lookup_singleton_Some in Hi as [_ ?].
Qed.

Lemma entry_mono t t' i key info :
  Table t → (∀ key id, get_key t' key = Some id ↔ 0 ≤ id ∧ tt_keys t' !! Z.to_nat id = Some key) →
  extends t t' → entry_ok t i key info → entry_ok t' i key info.
Proof.
  intros Ht He' Hx [Hk Hi Hf Hn Hd]. split; [done|by eapply expected_info_mono; [apply Ht|..]|done..|].
  eapply denoted_key_mono; [apply Ht|by eapply extends_builtins; [apply Ht|]|by eapply key_ok_proper| |exact Hd].
  intros a id _. by apply denote_mono.
Qed.

Lemma push_table t key info :
  Table t → get_key t key = None → new_entry t key info → Z.of_nat (length (tt_keys t)) < 65536 →
  Table (push_type key info (Z.of_nat (length (tt_keys t))) t).
Proof.
  intros Ht Hn [Hk Hi Hf Hnm Hd] Hlt. set (t' := push_type _ _ _ _). pose proof (push_exact t key info (tb_exact _ Ht) Hn) as He'.
  fold t' in He'. assert (extends t t') as Hx by apply push_extends. pose proof (tb_len _ Ht) as Hl. split.
  - cbn. rewrite !length_app. simpl. lia.
  - cbn. rewrite length_app. simpl. lia.
  - exact He'.
  - by eapply extends_builtins; [apply Ht|].
  - intros i k inf H8 Hki Hii. cbn [t' push_type tt_keys tt_types] in Hki, Hii.
    apply lookup_app_Some in Hki as [Hki|[Hge Hki]].
    + rewrite lookup_app_l in Hii by (rewrite Hl; by eapply lookup_lt_Some).
      apply (entry_mono t t'); [done..|]. by apply (tb_entries _ Ht).
    + apply list_lookup_singleton_Some in Hki as [Hz <-]. rewrite lookup_app_r in Hii by lia.
      apply list_lookup_singleton_Some in Hii as [_ <-]. replace i with (length (tt_keys t)) by lia.
      by apply (entry_mono t t').
Qed.

(** The outcome of an operation that interns: [P] holds of the new table and the type. *)
Definition interned (t : TypeTable) (P : TypeTable → TypeId → Prop) (o : Interned TypeId) : Prop :=
  Table o.1 ∧ extends t o.1 ∧ match o.2 with Ok id => P o.1 id | Err e => clean_error e end.

Lemma interned_err t P e : Table t → clean_error e → interned t P (t, Err e).
Proof. by intros. Qed.

Lemma intern_info_spec t key info :
  Table t → (get_key t key = None → new_entry t key info) →
  interned t (λ t' id, get_key t' key = Some id) (intern_with_info key info t).
Proof.
  intros Ht Hn. unfold intern_with_info. change (key_get key (tt_by_key t)) with (get_key t key).
  destruct (get_key t key) as [id|] eqn:E; [by split_and!|].
  rewrite (tb_len _ Ht). unfold checked_u. case_bool_decide as Hr; [|by apply interned_err].
  assert (Table (push_type key info (Z.of_nat (length (tt_keys t))) t)) as Ht'.
  { apply push_table; [done|done|by apply Hn|]. unfold in_u in Hr. lia. }
  split_and!; [done|apply push_extends|]. cbn [snd fst]. apply (tb_exact _ Ht'). rewrite Nat2Z.id. split; [lia|].
  cbn. by rewrite lookup_app_r, Nat.sub_diag.
Qed.

(** ** The names of arrays and collections *)

(** The byte that [split_array_suffix] looks at. *)
Lemma byte_at pre b rest (s : str) i : s = pre ++ b :: rest → i = length pre → s !!! i = b.
Proof. intros -> ->. apply list_lookup_total_correct. by rewrite list_lookup_middle. Qed.

Lemma suffix_skip pre ds rest depth :
  all_digits ds = true →
  suffix_loop (pre ++ ds ++ rest) (length pre + length ds) depth = suffix_loop (pre ++ ds ++ rest) (length pre) depth.
Proof.
  revert rest. induction ds as [|d ds IH] using rev_ind; intros rest Hd; [by rewrite Nat.add_0_r|].
  unfold all_digits in Hd. rewrite forallb_app in Hd. apply andb_true_iff in Hd as [Hds Hd]. simpl in Hd.
  rewrite length_app, Nat.add_1_r, <- app_assoc. cbn [app].
  replace (length pre + S (length ds))%nat with (S (length pre + length ds)) by lia. cbn [suffix_loop].
  rewrite (byte_at (pre ++ ds) d rest) by first [done|by rewrite <- app_assoc|rewrite length_app; lia].
  unfold is_ascii_digit in Hd. to_props.
  rewrite (proj2 (Z.eqb_neq d RSQUARE)), (proj2 (Z.eqb_neq d LSQUARE)) by (unfold RSQUARE, LSQUARE; lia).
  by apply IH.
Qed.

Definition extent_text (extent : ArrayExtent) : str := match extent with ViewExtent => [] | FixedExtent n => show n end.

Lemma split_bracketed base extent :
  extent_ok extent → split_array_suffix (bracketed base extent) = Ok (Some (base, extent_text extent)).
Proof.
  intros He. change (bracketed base extent) with (base ++ [LSQUARE] ++ extent_text extent ++ [RSQUARE]).
  set (s := base ++ _). assert (all_digits (extent_text extent) = true) as Hd.
  { destruct extent as [|n]; [done|]. apply show_spec. unfold extent_ok, in_u in He. lia. }
  assert (s = (base ++ [LSQUARE]) ++ extent_text extent ++ [RSQUARE]) as Hs by (unfold s; by rewrite <- !app_assoc).
  unfold split_array_suffix. rewrite bool_decide_eq_true_2 by (rewrite Hs, app_assoc; apply last_snoc).
  assert (length s = S (length (base ++ [LSQUARE]) + length (extent_text extent))) as ->
    by (rewrite Hs, !length_app; simpl; lia).
  cbn [suffix_loop].
  rewrite (byte_at ((base ++ [LSQUARE]) ++ extent_text extent) RSQUARE []) by first [by rewrite Hs, <- !app_assoc|by rewrite !length_app].
  change (RSQUARE =? RSQUARE) with true. rewrite Hs, suffix_skip by done. rewrite <- Hs.
  rewrite length_app, Nat.add_1_r. cbn [suffix_loop].
  rewrite (byte_at base LSQUARE (extent_text extent ++ [RSQUARE])) by done.
  change (LSQUARE =? RSQUARE) with false. change (LSQUARE =? LSQUARE) with true. change (0 + 1 - 1 =? 0) with true.
  cbn [result_bind fmap option_fmap option_map]. do 3 f_equal; unfold s.
  - apply take_app_length.
  - cbn [app]. assert (drop (S (length base)) (base ++ LSQUARE :: extent_text extent ++ [RSQUARE]) = extent_text extent ++ [RSQUARE]) as ->.
    { rewrite cons_middle, app_assoc. replace (S (length base)) with (length (base ++ [LSQUARE])) by (rewrite length_app; simpl; lia).
      apply drop_app_length. }
    replace (S (S (length base) + length (extent_text extent)) - 1 - S (length base))%nat with (length (extent_text extent)) by lia.
    apply take_app_length.
Qed.

Lemma parse_extent_text extent : extent_ok extent → parse_array_extent (extent_text extent) = Ok extent.
Proof.
  intros He. destruct extent as [|n]; [done|]. unfold extent_ok in He. assert (0 ≤ n) by (unfold in_u in He; lia).
  destruct (show_spec n) as (Hd & Hne & _); [done|]. unfold parse_array_extent. cbn [extent_text].
  rewrite trim_show, bool_decide_eq_false_2, Hd by done. cbn [negb]. by rewrite parse_show.
Qed.

Lemma last_bracketed base extent : last (bracketed base extent) = Some RSQUARE.
Proof. unfold bracketed. by rewrite !app_assoc, last_snoc. Qed.

Lemma builtin_last s id b : builtin_id s = Some id → b = RSQUARE ∨ b = GT → last s ≠ Some b.
Proof.
  intros H Hb. unfold builtin_id in H. cbn [List.find BUILTIN_NAMES fst] in H.
  by repeat (case_bool_decide; [subst s; destruct Hb as [-> | ->]; by vm_compute|]).
Qed.

Lemma parse_skip {A} (f : TypedCollectionDescriptor → A) x r t s :
  last s = Some RSQUARE → match parse_descriptor_with r t s with Ok (Some d) => f d | _ => x end = x.
Proof. intros Hl. destruct (parse_descriptor_with r t s) as [[d|]|] eqn:E; [by apply parse_bracket in E|done..]. Qed.

Lemma denoted_bracketed rec t base extent :
  extent_ok extent →
  denoted_key rec t (bracketed base extent)
  = match text_array_key (trim base) extent with
    | Some key => Some key
    | None => e ← rec (trim base); Some (array_key e extent)
    end.
Proof.
  intros He. pose proof (last_bracketed base extent) as Hl. unfold denoted_key.
  rewrite bool_decide_eq_false_2 by (intros E; by rewrite E in Hl).
  destruct (builtin_id _) eqn:Hb; [eapply builtin_last in Hb; [done|by left]|].
  rewrite bool_decide_eq_false_2 by (intros E; by rewrite E in Hl).
  by rewrite parse_skip, split_bracketed, parse_extent_text by done.
Qed.

Lemma bracketed_trim base extent :
  base ≠ [] → trim base = base → bracketed base extent ≠ [] ∧ trim (bracketed base extent) = bracketed base extent.
Proof.
  intros Hn Ht. split; [by destruct base|]. apply trim_trimmed.
  - unfold bracketed. apply blank_char_app; [done| |unfold LSQUARE; lia]. rewrite <- Ht. apply trim_spec.
  - unfold bracketed. rewrite !app_assoc. by apply solid_last.
Qed.

(** ** Interning arrays *)

(** A base that names a text buffer. *)
Definition text_base (base : str) : bool := bool_decide (base ∈ string_bytes <$> ["ascii"; "utf8"; "string"]%string).

Lemma text_array_key_None base extent : text_array_key base extent = None ↔ text_base base = false.
Proof.
  unfold text_array_key, text_base. cbn [fmap list_fmap]. split.
  - repeat case_bool_decide; try done. intros _. rename select (base ∈ _) into Hin. rewrite !elem_of_cons in Hin.
    by destruct Hin as [?|[?|[?|?%elem_of_nil]]].
  - intros H%bool_decide_eq_false. rewrite !not_elem_of_cons in H. destruct H as (? & ? & ? & _).
    by rewrite !bool_decide_eq_false_2.
Qed.

Lemma denoted_named rec t s name : denoted_key rec t s = Some (KeyNamed name) → s = name.
Proof.
  unfold denoted_key. case_bool_decide as Hn; [done|]. destruct (builtin_id s) as [id|] eqn:Hb.
  { destruct (builtin_id_key TypeTable_new _ _ (conj eq_refl eq_refl) Hb) as (key & _ & _ & Hk). rewrite Hk. intros [= ->].
    destruct (Z.to_nat id) as [|[|[|[|[|[|[|[|n]]]]]]]]; by vm_compute in Hk. }
  case_bool_decide; [done|].
  assert (∀ r : Result (option (str * str)) TypeError, match r with
    | Err _ => None | Ok None => Some (KeyNamed s)
    | Ok (Some (base, e)) => match parse_array_extent e with Err _ => None | Ok extent =>
        match text_array_key (trim base) extent with Some key => Some key
        | None => e ← rec (trim base); Some (array_key e extent) end end
    end = Some (KeyNamed name) → s = name) as Ha.
  { intros [[[b e]|]|]; [|by intros [= ->]|done]. destruct (parse_array_extent e) as [x|]; [|done].
    unfold text_array_key. repeat case_bool_decide; try (by destruct x).
    all: destruct (rec (trim b)); [|done]; by destruct x. }
  destruct (parse_descriptor_with _ t s) as [[d|]|]; [done|apply Ha..].
Qed.

Lemma denote_key t s id :
  Table t → denote t s = Some id → ∃ key, denoted_key (denote t) t s = Some key
    ∧ 0 ≤ id ∧ tt_keys t !! Z.to_nat id = Some key.
Proof.
  intros Ht. rewrite denote_unfold. destruct (denoted_key (denote t) t s) as [key|]; [|done].
  intros Hg%(tb_exact _ Ht). by exists key.
Qed.

(** Only the names of text buffers denote types with these names. *)
Lemma text_base_name t a e info :
  Table t → denote t a = Some e → type_info t e = Some info → text_base a = false → text_base (ti_name info) = false.
Proof.
  intros Ht Hd Hi Ha. destruct (text_base (ti_name info)) eqn:E; [|done]. exfalso.
  destruct (denote_key _ _ _ Ht Hd) as (key & Hk & Hp & Hx).
  destruct (decide (Z.to_nat e < 8)%nat) as [Hlt|Hge].
  { destruct (builtins_named _ _ _ (tb_builtins _ Ht) Hlt Hi) as [x Hb]. apply bool_decide_eq_true in E.
    cbn [fmap list_fmap] in E. rewrite !elem_of_cons in E.
    destruct E as [E|[E|[E|E]]]; [rewrite E in Hb; vm_compute in Hb; discriminate..|by apply elem_of_nil in E]. }
  destruct (tb_entries _ Ht (Z.to_nat e) key info ltac:(lia) Hx Hi) as [_ Hin _ _ Hdn].
  apply bool_decide_eq_true in E. cbn [fmap list_fmap] in E. rewrite !elem_of_cons in E.
  destruct E as [E|[E|[E|E]]]; [..|by apply elem_of_nil in E]; rewrite E in Hdn; vm_compute in Hdn;
    injection Hdn as <-; [apply denoted_named in Hk as ->; done..|].
  cbn in Hin. injection Hin as <-. done.
Qed.

Lemma trim_text_base a : text_base a = true → trim a = a ∧ a ≠ [].
Proof.
  intros H%bool_decide_eq_true. cbn [fmap list_fmap] in H. rewrite !elem_of_cons in H.
  destruct H as [->|[->|[->|H]]]; [by split..|by apply elem_of_nil in H].
Qed.

(** What an array of a base denotes. *)
Definition array_denotes (t : TypeTable) (base : str) (extent : ArrayExtent) : option TypeKey :=
  match text_array_key base extent with
  | Some key => Some key
  | None => e ← denote t base; Some (array_key e extent)
  end.

Lemma checked_layout z e : match @ok_or Z TypeError (checked_u 32 z) e with Ok v => v = z ∧ in_u 32 z | Err e' => e' = e end.
Proof. unfold checked_u. by case_bool_decide. Qed.

Lemma text_layout_Ok words extent :
  match text_layout words extent with
  | Ok layout =>
      layout = header_layout words (match extent with ViewExtent => None | FixedExtent n => Some n end) ∧ layout_fits layout
  | Err e => clean_error e
  end.
Proof.
  destruct extent as [|n]; [by split|]. unfold text_layout, checked_mul, checked_add.
  pose proof (checked_layout (words * 4) ErrLayoutOverflow) as H1. destruct (ok_or _ _) as [v|e]; [|by subst e].
  destruct H1 as [-> H1]. cbn [result_bind]. pose proof (checked_layout (words * 4 + n) ErrLayoutOverflow) as H2.
  destruct (ok_or _ _) as [v|e]; [|by subst e]. destruct H2 as [-> H2]. cbn [result_bind].
  unfold header_layout. cbn [fmap option_fmap option_map]. rewrite (Z.mul_comm 4). split; [done|]. by intros size [= <-].
Qed.

Lemma array_layout_Ok element extent :
  match array_layout element extent with
  | Ok layout =>
      layout = header_layout 1 (match extent with ViewExtent => None | FixedExtent n => (λ size, size * n) <$> element end)
      ∧ layout_fits layout
  | Err e => clean_error e
  end.
Proof.
  destruct extent as [|n]; [by split|]. unfold array_layout, transpose_map, checked_mul, checked_add.
  destruct element as [size|]; [|by split].
  pose proof (checked_layout (size * n) ErrLayoutOverflow) as H1. destruct (ok_or _ _) as [v|e]; [|by subst e].
  destruct H1 as [-> H1]. cbn [result_bind]. pose proof (checked_layout (4 + size * n) ErrLayoutOverflow) as H2.
  destruct (ok_or _ _) as [v|e]; [|by subst e]. destruct H2 as [-> H2]. cbn [result_bind].
  split; [done|]. by intros z [= <-].
Qed.

Lemma intern_text_spec t base words view fixed key extent :
  Table t → extent_ok extent → key_ok (length (tt_keys t)) key →
  text_array_key (string_bytes base) extent = Some key →
  expected_info t key = Some (text_info base words extent (match extent with ViewExtent => view | FixedExtent _ => fixed end)) →
  interned t (λ t' id, get_key t' key = Some id) (intern_text_array base words view fixed key extent t).
Proof.
  intros Ht He Hok Hk Hi. unfold intern_text_array. unfold text_info in Hi.
  assert (text_base (string_bytes base) = true) as Hb.
  { destruct (text_base (string_bytes base)) eqn:E; [done|]. apply (text_array_key_None _ extent) in E. congruence. }
  destruct (trim_text_base _ Hb) as [Htr Hn].
  pose proof (text_layout_Ok words extent) as Hl. destruct (text_layout words extent) as [layout|e]; [|by apply interned_err].
  destruct Hl as [-> Hf]. apply intern_info_spec; [done|]. intros _. split; [done..|by apply bracketed_trim|].
  cbn [ti_name]. by rewrite denoted_bracketed, Htr, Hk.
Qed.

Lemma array_key_ok t e extent :
  extent_ok extent → 0 ≤ e < Z.of_nat (length (tt_keys t)) → key_ok (length (tt_keys t)) (array_key e extent).
Proof. by destruct extent. Qed.

Lemma table_info t e key :
  Table t → tt_keys t !! Z.to_nat e = Some key → ∃ info, type_info t e = Some info.
Proof. intros Ht Hk. apply lookup_lt_is_Some. rewrite (tb_len _ Ht). by eapply lookup_lt_Some. Qed.

Lemma table_name t e info :
  Table t → type_info t e = Some info →
  ti_name info ≠ [] ∧ trim (ti_name info) = ti_name info ∧ (0 ≤ e → denote t (ti_name info) = Some e).
Proof.
  intros Ht Hi. assert (is_Some (tt_keys t !! Z.to_nat e)) as [key Hk]
    by (apply lookup_lt_is_Some; rewrite <- (tb_len _ Ht); by eapply lookup_lt_Some).
  assert (denoted_key (denote t) t (ti_name info) = Some key ∧ ti_name info ≠ [] ∧ trim (ti_name info) = ti_name info)
    as (Hd & Hn & Htr).
  { destruct (decide (Z.to_nat e < 8)%nat) as [Hlt|Hge].
    - pose proof (tb_builtins _ Ht) as [Htt Htk]. unfold type_info in Hi.
      rewrite <- (lookup_take_lt _ 8), Htt in Hi by lia. rewrite <- (lookup_take_lt _ 8), Htk in Hk by lia.
      destruct (Z.to_nat e) as [|[|[|[|[|[|[|[|n]]]]]]]]; [..|lia];
        injection Hi as <-; injection Hk as <-; by vm_compute.
    - destruct (tb_entries _ Ht (Z.to_nat e) key info ltac:(lia) Hk Hi) as [_ _ _ [? ?] ?]. done. }
  split_and!; [done..|]. intros He. rewrite denote_unfold, Hd. cbn [mbind option_bind]. by apply (tb_exact _ Ht).
Qed.

Lemma array_denotes_mono t t' base extent key :
  Table t → Table t' → extends t t' → array_denotes t base extent = Some key → array_denotes t' base extent = Some key.
Proof.
  intros Ht Ht' Hx. unfold array_denotes. destruct (text_array_key base extent); [done|].
  destruct (denote t base) as [e|] eqn:E; [|done]. by rewrite (denote_mono _ _ _ _ Ht (tb_exact _ Ht') Hx E).
Qed.

Lemma intern_array_spec rec base extent t :
  Table t → extent_ok extent →
  (text_base (trim base) = false → interned t (λ t' id, denote t' (trim base) = Some id) (rec (trim base) t)) →
  interned t (λ t' id, array_denotes t' (trim base) extent ≫= get_key t' = Some id) (intern_array_with rec base extent t).
Proof.
  intros Ht He Hrec. unfold intern_array_with. case_bool_decide as Hn; [by apply interned_err|].
  unfold array_denotes, text_array_key.
  case_bool_decide as Ha.
  { apply intern_text_spec; try done; destruct extent; done. }
  case_bool_decide as Hu; [|case_bool_decide as Hs]; cbn [orb].
  1, 2: apply intern_text_spec; try done; destruct extent; done.
  assert (text_base (trim base) = false) as Htb.
  { apply (text_array_key_None _ extent). unfold text_array_key. by rewrite !bool_decide_eq_false_2. }
  destruct (Hrec Htb) as (Ht1 & Hx & Hr). destruct (rec (trim base) t) as [t1 [e|err]]; cbn [fst snd] in *; [|done].
  destruct (denote_key _ _ _ Ht1 Hr) as (key & _ & Hp & Hk). destruct (table_info _ _ _ Ht1 Hk) as [info Hi].
  rewrite Hi. pose proof (array_layout_Ok (static_size_bytes (ti_layout info)) extent) as Hl.
  destruct (array_layout _ extent) as [layout|err]; [|by split_and!]. destruct Hl as [-> Hf].
  destruct (table_name _ _ _ Ht1 Hi) as (Hne & Htr & Hd).
  assert (new_entry t1 (array_key e extent)
    (mkTypeInfo (bracketed (ti_name info) extent) (match extent with ViewExtent => CatArrayView | FixedExtent _ => CatArrayFixed end)
      (header_layout 1 (match extent with ViewExtent => None | FixedExtent n => (λ size, size * n) <$> static_size_bytes (ti_layout info) end)))) as Hnew.
  { split.
    - apply array_key_ok; [done|]. split; [done|]. apply lookup_lt_Some in Hk. lia.
    - destruct extent; cbn [array_key expected_info]; unfold array_info; by rewrite Hi.
    - done.
    - by apply bracketed_trim.
    - cbn [ti_name]. rewrite denoted_bracketed, Htr by done.
      rewrite (proj2 (text_array_key_None _ _)) by by eapply text_base_name. by rewrite Hd. }
  destruct (intern_info_spec _ _ _ Ht1 (λ _, Hnew)) as (Ht2 & Hx2 & Hr2). split_and!; [done|by etrans|].
  destruct (intern_with_info _ _ _) as [t2 [id|err]]; cbn [fst snd] in *; [|done].
  by rewrite (denote_mono _ _ _ _ Ht1 (tb_exact _ Ht2) Hx2 Hr).
Qed.

(** ** Interning collections *)

Lemma parse_resolve t s : Table t → parse_typed_collection_descriptor t s = parse_descriptor_with (λ a, denote t (trim a)) t s.
Proof. intros Ht. apply parse_ext. intros a _. by apply resolve_by_keys_existing. Qed.

Lemma canonical_name_facts t d :
  builtins_in t → descriptor_wf d → (∀ id, td_key_type d = Some id → is_integer t id = true) →
  canonical_type_name d t ≠ [] ∧ trim (canonical_type_name d t) = canonical_type_name d t
  ∧ last (canonical_type_name d t) = Some GT.
Proof.
  intros Hb Hwf Hi. destruct (describe_canonical t d Hb Hwf Hi) as (_ & Hargs & Hlen).
  change (canonical_type_name d t) with (applied (kind_as_str (td_kind d)) (canonical_arguments d t) ", ").
  destruct (kind_name_facts (td_kind d)) as (Hk & Hn & Htr & Hp).
  destruct (canonical_arguments d t) as [|a rest] eqn:Ha; [by destruct (td_kind d)|].
  destruct (split_applied (kind_as_str (td_kind d)) a rest Hn Htr Hp Hargs) as (_ & Htrim & _).
  split_and!; [by destruct (td_kind d)|done|]. unfold applied. by rewrite !app_assoc, last_snoc.
Qed.

Lemma descriptor_wf_lanes d lanes size : descriptor_wf d → descriptor_wf (with_lanes d lanes size).
Proof. by intros [????]; split. Qed.

Lemma intern_collection_spec t s d :
  Table t → parse_typed_collection_descriptor t s = Ok (Some d) →
  interned t (λ t' id, get_key t' (descriptor_key d) = Some id) (intern_typed_collection d t).
Proof.
  intros Ht Hp. unfold intern_typed_collection. destruct (get_key t (descriptor_key d)) as [id|] eqn:E; [by split_and!|].
  unfold checked_u. case_bool_decide as Hu; [|by apply interned_err].
  apply intern_info_spec; [done|]. intros _.
  pose proof (parse_descriptor_Ok _ _ _ _ Hp) as (Hwf & base & lanes & size & Hbl & Hts & Hle & Hd & Hwb).
  assert (∀ id, td_key_type d = Some id → is_integer t id = true) as Hi by (intros id; by eapply parse_descriptor_integer).
  destruct (canonical_name_facts t d (tb_builtins _ Ht) Hwf Hi) as (Hn & Htr & Hl). split.
  - cbn. by apply (descriptor_wf_lanes _ (td_lanes d) 0) in Hwf.
  - subst d. cbn. by rewrite Hts.
  - by intros z [= <-].
  - done.
  - cbn [ti_name]. unfold denoted_key. rewrite bool_decide_eq_false_2 by done.
    assert (builtin_id (canonical_type_name d t) = None) as ->.
    { destruct (builtin_id _) eqn:Hb; [|done]. eapply builtin_last in Hb; [done|by right]. }
    rewrite bool_decide_eq_false_2 by (intros Heq; by rewrite Heq in Hl).
    rewrite <- parse_resolve by done. by rewrite (canonical_spelling_lemma _ _ _ (tb_builtins _ Ht) Hp).
Qed.

(** ** Interning texts *)

Lemma denote_split t s base e extent :
  split_array_suffix s = Ok (Some (base, e)) → parse_array_extent e = Ok extent →
  denote t s = array_denotes t (trim base) extent ≫= get_key t.
Proof.
  intros Hs He. pose proof (suffix_last _ _ Hs) as Hl. rewrite denote_unfold. f_equal. unfold denoted_key.
  rewrite bool_decide_eq_false_2 by (intros E; by rewrite E in Hl).
  destruct (builtin_id _) eqn:Hb; [eapply builtin_last in Hb; [done|by left]|].
  rewrite bool_decide_eq_false_2 by (intros E; by rewrite E in Hl). rewrite parse_skip by done. by rewrite Hs, He.
Qed.

Lemma parse_extent_ok e extent : parse_array_extent e = Ok extent → extent_ok extent.
Proof.
  unfold parse_array_extent. case_bool_decide; [by intros [= <-]|]. case_match; [done|]. intros Hs. inv_steps. subst.
  rename select (parse_unsigned _ _ = _) into Hp. by apply parse_unsigned_range in Hp.
Qed.

Lemma suffix_clean s : clean (split_array_suffix s).
Proof.
  unfold split_array_suffix. case_bool_decide; [|done]. apply clean_bind; [|done]. generalize 0.
  induction (length s) as [|n IH]; intros z; cbn [suffix_loop]; clean_steps.
Qed.

Lemma extent_clean e : clean (parse_array_extent e).
Proof. unfold parse_array_extent. clean_steps. Qed.

Lemma intern_inner_spec s : ∀ t,
  Table t → trim s = s → interned t (λ t' id, denote t' s = Some id) (resolve_or_intern_inner s t).
Proof.
  remember (length s) as n eqn:Hn. revert s Hn. induction n as [n IH] using lt_wf_ind. intros s -> t Ht Hs.
  rewrite resolve_or_intern_inner_unfold. unfold intern_with. case_bool_decide as Hne; [by apply interned_err|].
  case_bool_decide as Hstr.
  { subst s. assert (∀ t', denote t' (string_bytes "string") = array_denotes t' (trim (string_bytes "utf8")) ViewExtent ≫= get_key t')
      as Hd by (intros t'; by rewrite denote_unfold).
    destruct (intern_array_spec resolve_or_intern_inner (string_bytes "utf8") ViewExtent t Ht) as (? & ? & Hr); [done..|].
    split_and!; [done..|]. case_match; [|done]. by rewrite Hd. }
  rewrite resolve_by_keys_existing by done. destruct (denote t s) as [id|] eqn:E; [by split_and!|].
  destruct (split_array_suffix s) as [[[b e]|]|err] eqn:Hsp.
  - destruct (parse_array_extent e) as [extent|err] eqn:He.
    2:{ apply interned_err; [done|]. pose proof (extent_clean e) as Hc. by rewrite He in Hc. }
    pose proof (suffix_shorter _ _ _ Hsp). pose proof (length_trim b).
    destruct (intern_array_spec resolve_or_intern_inner b extent t Ht) as (? & ? & Hr); [by eapply parse_extent_ok| |].
    { intros _. apply (IH (length (trim b))); [lia|done|done|by apply trim_trim]. }
    split_and!; [done..|]. case_match; [|done]. by rewrite (denote_split _ _ _ _ _ Hsp He).
  - assert (builtin_id s = None) as Hb.
    { destruct (builtin_id s) as [id|] eqn:Hb; [|done]. rewrite <- resolve_by_keys_existing, resolve_existing_unfold in E by done.
      unfold resolve_with in E. by rewrite bool_decide_eq_false_2, Hb in E. }
    destruct (parse_typed_collection_descriptor t s) as [[d|]|err] eqn:Hp.
    + pose proof (intern_collection_spec _ _ _ Ht Hp) as (Ht' & Hx & Hr). split_and!; [done..|]. case_match; [|done].
      rewrite denote_unfold. rewrite parse_resolve in Hp by done.
      unfold denoted_key. rewrite bool_decide_eq_false_2, Hb, bool_decide_eq_false_2 by done.
      rewrite (parse_mono (λ a, denote t (trim a)) (λ a, denote (intern_typed_collection d t).1 (trim a)) t
        (intern_typed_collection d t).1 s d); [done| |done].
      intros a _ id' Hr' Hsc. split; [by eapply denote_mono; [| | |exact Hr']; [|apply Ht'|]|].
      apply is_integer_builtins; [apply Ht|apply Ht'|done].
    + apply parse_collection_text in Hp. destruct (intern_info_spec t (KeyNamed s) (mkTypeInfo s CatNamed no_layout) Ht) as (Ht' & Hx & Hr).
      { intros _. split; [done..|]. cbn [ti_name]. unfold denoted_key.
        by rewrite bool_decide_eq_false_2, Hb, bool_decide_eq_false_2, (proj2 (parse_collection_text _ _ _)), Hsp by done. }
      split_and!; [done..|]. unfold intern_named. case_match; [|done]. rewrite denote_unfold. unfold denoted_key.
      by rewrite bool_decide_eq_false_2, Hb, bool_decide_eq_false_2, (proj2 (parse_collection_text _ _ _)), Hsp by done.
    + apply interned_err; [done|]. pose proof (parse_descriptor_clean (resolve t) t s) as Hc.
      unfold parse_typed_collection_descriptor in Hp. by rewrite Hp in Hc.
  - apply interned_err; [done|]. pose proof (suffix_clean s) as Hc. by rewrite Hsp in Hc.
Qed.

(** ** Histories of a table

    The operations that the compiler calls; [RegistryStep] below adds the one that only
    tests call. *)

Inductive TableStep (t : TypeTable) : TypeTable → Prop :=
| step_intern s : TableStep t (resolve_or_intern s t).1
| step_array base extent : extent_ok extent → TableStep t (resolve_or_intern_array base extent t).1
| step_ascii_view : TableStep t (ensure_ascii_view_id t).1
| step_utf8_view : TableStep t (ensure_utf8_view_id t).1
| step_origins origins : TableStep t (replace_source_type_origins origins t).

Lemma new_table : Table TypeTable_new.
Proof.
  split; [done|done| |done|].
  - assert (∀ n, (n < 8)%nat → ∃ key, tt_keys TypeTable_new !! n = Some key ∧ get_key TypeTable_new key = Some (Z.of_nat n)) as Hf.
    { intros n Hn. destruct n as [|[|[|[|[|[|[|[|n]]]]]]]]; [..|lia]; eexists; by vm_compute. }
    intros key id. split.
    + unfold get_key, key_get. cbn [TypeTable_new intern_builtin push_type tt_by_key tt_types length].
      intros H. apply fmap_Some in H as ([k i] & Hfind & ->). cbn [snd].
      apply find_some in Hfind as [Hin E]. apply bool_decide_eq_true in E. cbn [fst] in E. subst k. simpl in Hin.
      repeat destruct Hin as [[= <- <-]|Hin]; (split; [done|reflexivity]) || done.
    + intros [Hp Hk]. assert (Z.to_nat id < 8)%nat as Hlt by (by apply lookup_lt_Some in Hk).
      destruct (Hf _ Hlt) as (key' & Hk' & Hg). rewrite Hk in Hk'. injection Hk' as <-. rewrite Hg. f_equal. lia.
  - intros i key info Hi Hk. apply lookup_lt_Some in Hk. cbn in Hk. lia.
Qed.

Lemma origins_table t origins : Table t → Table (replace_source_type_origins origins t) ∧ extends t (replace_source_type_origins origins t).
Proof.
  intros Ht. set (t' := replace_source_type_origins origins t). assert (extends t t') as Hx by (split; done).
  split; [|done]. split; try apply Ht. intros i key info Hi Hk Hti.
  apply (entry_mono t t'); [done|apply Ht|done|]. by apply (tb_entries _ Ht).
Qed.

Lemma intern_array_table t base extent :
  Table t → extent_ok extent →
  interned t (λ t' id, array_denotes t' (trim base) extent ≫= get_key t' = Some id) (resolve_or_intern_array base extent t).
Proof.
  intros Ht He. apply intern_array_spec; [done..|]. intros _. apply intern_inner_spec; [done|apply trim_trim].
Qed.

Lemma step_table t t' : Table t → TableStep t t' → Table t' ∧ extends t t'.
Proof.
  intros Ht Hs. destruct Hs.
  - by destruct (intern_inner_spec (trim s) t Ht (trim_trim s)) as (? & ? & _).
  - by destruct (intern_array_table t base extent Ht) as (? & ? & _).
  - by destruct (intern_array_table t (string_bytes "ascii") ViewExtent Ht) as (? & ? & _).
  - by destruct (intern_array_table t (string_bytes "utf8") ViewExtent Ht) as (? & ? & _).
  - by apply origins_table.
Qed.

Lemma steps_table t t' : Table t → rtc TableStep t t' → Table t' ∧ extends t t'.
Proof.
  intros Ht Hs. induction Hs as [t|t u v Hs _ IH]; [done|]. destruct (step_table _ _ Ht Hs) as [Hu Hx].
  destruct (IH Hu) as [Hv Hx']. split; [done|by etrans].
Qed.

(** The names of the table are only a cache of its keys.  A text resolves to the type of
    the key that it denotes by the rules of the language alone: builtins, [string],
    collections, arrays and text buffers, named types, which never look at the name of a
    type in the table.  So the search through the names first, which the code makes, never
    changes the answer. *)
Theorem resolve_by_keys t s : Table t → resolve t s = denote t (trim s).
Proof. apply resolve_by_keys_existing. Qed.

(** C12 What a text was interned as is what it resolves to.  Interning never panics and never
    misses the metadata of a type; the type it answers is the one the text resolves to, at
    once and after any further steps, and so does its name; the table stays exact and keeps
    its types, also when the text is refused.  The further steps are those of [TableStep],
    which are all that the compiler calls: an instantiated type, which only tests intern, can
    hide a text from then on ([instantiated_names_shadow]). *)
Theorem interned_texts_resolve t s t' r :
  Table t → resolve_or_intern s t = (t', r) →
  Table t' ∧ extends t t' ∧
  match r with
  | Err e => clean_error e
  | Ok id =>
      (∀ t'', rtc TableStep t' t'' → resolve t'' s = Some id)
      ∧ ∃ info, type_info t' id = Some info ∧ ∀ t'', rtc TableStep t' t'' → resolve t'' (ti_name info) = Some id
  end.
Proof.
  intros Ht H. pose proof (intern_inner_spec (trim s) t Ht (trim_trim s)) as (Ht' & Hx & Hr).
  change (resolve_or_intern_inner (trim s) t) with (resolve_or_intern s t) in *. rewrite H in *. cbn [fst snd] in *.
  split_and!; [done..|]. destruct r as [id|e]; [|done].
  assert (∀ t'' s id, rtc TableStep t' t'' → denote t' (trim s) = Some id → resolve t'' s = Some id) as Hlater.
  { intros t'' a i Hs Ha. destruct (steps_table _ _ Ht' Hs) as [Ht'' Hx']. unfold resolve.
    rewrite resolve_by_keys_existing by done. eapply denote_mono; [exact Ht'|apply Ht''|done|done]. }
  split; [intros t'' Hs; by eapply Hlater|]. destruct (denote_key _ _ _ Ht' Hr) as (key & _ & Hp & Hk).
  destruct (table_info _ _ _ Ht' Hk) as [info Hi]. exists info. split; [done|]. intros t'' Hs. apply Hlater; [done|].
  destruct (table_name _ _ _ Ht' Hi) as (_ & -> & Hd). by apply Hd.
Qed.

(** ** Instantiated types

    [intern_instantiated_nominal] takes the definition and the arguments of a type apart,
    and records the text [definition<arguments>] as its name only for display: that text
    denotes a named type or a collection, and once the type is there the search through the
    names answers the type for it.  So a table with such types is no [Table].  What holds of
    it whatever is interned is the following invariant, which says nothing of what the names
    denote. *)

(** The table when it had [n] types. *)
Definition first_types (n : nat) (t : TypeTable) : TypeTable :=
  mkTypeTable (take n (tt_types t)) (take n (tt_keys t)) (tt_by_key t) (tt_origins t).

(** What a key at the index [i] determines: an instantiated type shows its arguments by the
    names they had when it was interned. *)
Definition registered_info (t : TypeTable) (i : nat) (key : TypeKey) : option TypeInfo :=
  match key with
  | KeyInstantiated definition arguments =>
      Some (mkTypeInfo (applied definition (argument_display (first_types i t) <$> arguments) ",") CatNamed no_layout)
  | _ => expected_info t key
  end.

Definition key_formed (i : nat) (key : TypeKey) : Prop :=
  match key with
  | KeyInstantiated definition arguments => definition ≠ [] ∧ trim definition = definition ∧ arguments ≠ []
  | _ => key_ok i key
  end.

Record registered (t : TypeTable) (i : nat) (key : TypeKey) (info : TypeInfo) : Prop := {
  re_key : key_formed i key;
  re_info : registered_info t i key = Some info;
  re_fits : layout_fits (ti_layout info);
  re_name : ti_name info ≠ [] ∧ trim (ti_name info) = ti_name info;
}.

Record Registry (t : TypeTable) : Prop := {
  rg_len : length (tt_types t) = length (tt_keys t);
  rg_bound : Z.of_nat (length (tt_keys t)) ≤ 65536;
  rg_exact : ∀ key id, get_key t key = Some id ↔ 0 ≤ id ∧ tt_keys t !! Z.to_nat id = Some key;
  rg_builtins : builtins_in t;
  rg_entries : ∀ i key info, (8 ≤ i)%nat → tt_keys t !! i = Some key → tt_types t !! i = Some info →
    registered t i key info;
}.

(** A type of the table. *)
Definition known (t : TypeTable) (id : TypeId) : Prop := 0 ≤ id ∧ is_Some (tt_keys t !! Z.to_nat id).

Definition registers (t : TypeTable) (P : TypeTable → TypeId → Prop) (o : Interned TypeId) : Prop :=
  Registry o.1 ∧ extends t o.1 ∧ match o.2 with Ok id => P o.1 id | Err e => clean_error e end.

Lemma registers_err t P e : Registry t → clean_error e → registers t P (t, Err e).
Proof. by intros. Qed.

Lemma registers_impl t (P Q : TypeTable → TypeId → Prop) o :
  (∀ t' id, Registry t' → P t' id → Q t' id) → registers t P o → registers t Q o.
Proof. intros HPQ (Ht & Hx & Hr). split_and!; [done..|]. destruct (o.2); [by apply HPQ|done]. Qed.

Lemma get_key_known t key id : Registry t → get_key t key = Some id → known t id.
Proof. intros Ht Hg. apply (rg_exact _ Ht) in Hg as [? ?]. by split. Qed.

Lemma known_info t id : Registry t → known t id → ∃ info, type_info t id = Some info.
Proof.
  intros Ht [_ Hk]. apply lookup_lt_is_Some. rewrite (rg_len _ Ht). by apply lookup_lt_is_Some.
Qed.

Lemma resolve_known t s id : Registry t → resolve_existing t s = Some id → known t id.
Proof.
  intros Ht. rewrite resolve_existing_unfold. unfold resolve_with. case_match; [done|].
  destruct (builtin_id s) as [b|] eqn:Hb.
  { intros [= ->]. destruct (builtin_id_key t _ _ (rg_builtins _ Ht) Hb) as (key & _ & ? & ?). by split. }
  case_match; [by apply get_key_known|]. destruct (name_index t s) as [i|] eqn:Hi.
  { intros Hc. apply checked_u_Some in Hc as [Hu ->]. unfold name_index in Hi.
    apply fmap_Some in Hi as ([j info] & Hf & ->). apply list_find_Some in Hf as (Hj & _ & _). cbn [fst] in *.
    split; [lia|]. simpl. rewrite Nat2Z.id. apply lookup_lt_is_Some. rewrite <- (rg_len _ Ht). by eapply lookup_lt_Some. }
  destruct (parse_descriptor_with _ t s) as [[d|]|]; [by apply get_key_known|..];
    (destruct (split_array_suffix s) as [[[b e]|]|]; [|by apply get_key_known|done];
     destruct (parse_array_extent e); [|done]; destruct (text_array_key _ _); [by apply get_key_known|];
     destruct (resolve_existing t (trim b)); [by apply get_key_known|done]).
Qed.

Lemma first_types_extends i t t' : extends t t' → (i ≤ length (tt_types t))%nat →
  tt_types (first_types i t') = tt_types (first_types i t).
Proof. intros [[l E] _] Hi. cbn. by rewrite E, take_app_le. Qed.

Lemma argument_display_types t t' a : tt_types t = tt_types t' → argument_display t a = argument_display t' a.
Proof. intros E. destruct a; [|done]. cbn. unfold type_info. by rewrite E. Qed.

Lemma registered_mono t t' i key info :
  builtins_in t → extends t t' → (i ≤ length (tt_types t))%nat → registered t i key info → registered t' i key info.
Proof.
  intros Hb Hx Hi [Hk Hf Hl Hn]. split; [done| |done..].
  destruct key; try exact (expected_info_mono t t' i _ info Hb Hx Hk Hf). cbn in Hf |- *. rewrite <- Hf. do 3 f_equal.
  apply list_fmap_ext. intros _ a _. by apply argument_display_types, first_types_extends.
Qed.

(** ** Adding a type to any table *)

Lemma push_registry t key info :
  Registry t → get_key t key = None → registered t (length (tt_keys t)) key info → Z.of_nat (length (tt_keys t)) < 65536 →
  Registry (push_type key info (Z.of_nat (length (tt_keys t))) t).
Proof.
  intros Ht Hn Hr Hlt. set (t' := push_type _ _ _ _). assert (extends t t') as Hx by apply push_extends.
  pose proof (rg_len _ Ht) as Hl. split.
  - cbn. rewrite !length_app. simpl. lia.
  - cbn. rewrite length_app. simpl. lia.
  - exact (push_exact t key info (rg_exact _ Ht) Hn).
  - by eapply extends_builtins; [apply Ht|].
  - intros i k inf H8 Hki Hii. cbn [t' push_type tt_keys tt_types] in Hki, Hii.
    apply lookup_app_Some in Hki as [Hki|[Hge Hki]].
    + pose proof (lookup_lt_Some _ _ _ Hki). rewrite lookup_app_l in Hii by lia.
      apply (registered_mono t t'); [apply Ht|done|lia|]. by apply (rg_entries _ Ht).
    + apply list_lookup_singleton_Some in Hki as [Hz <-]. rewrite lookup_app_r in Hii by lia.
      apply list_lookup_singleton_Some in Hii as [_ <-]. replace i with (length (tt_keys t)) by lia.
      apply (registered_mono t t'); [apply Ht|done|lia|done].
Qed.

Lemma register_info t key info :
  Registry t → (get_key t key = None → registered t (length (tt_keys t)) key info) →
  registers t (λ t' id, get_key t' key = Some id) (intern_with_info key info t).
Proof.
  intros Ht Hn. unfold intern_with_info. change (key_get key (tt_by_key t)) with (get_key t key).
  destruct (get_key t key) as [id|] eqn:E; [by split_and!|].
  rewrite (rg_len _ Ht). unfold checked_u. case_bool_decide as Hr; [|by apply registers_err].
  assert (Registry (push_type key info (Z.of_nat (length (tt_keys t))) t)) as Ht'.
  { apply push_registry; [done|done|by apply Hn|]. unfold in_u in Hr. lia. }
  split_and!; [done|apply push_extends|]. cbn [snd fst]. apply (rg_exact _ Ht'). rewrite Nat2Z.id. split; [lia|].
  cbn. by rewrite lookup_app_r, Nat.sub_diag.
Qed.

Lemma register_known t key info :
  Registry t → (get_key t key = None → registered t (length (tt_keys t)) key info) →
  registers t known (intern_with_info key info t).
Proof.
  intros Ht Hn. apply (registers_impl t (λ t' id, get_key t' key = Some id)); [|by apply register_info].
  intros t' id Ht'. by apply get_key_known.
Qed.

Lemma register_text t base words view fixed key extent :
  Registry t → extent_ok extent → key_ok (length (tt_keys t)) key → text_base (string_bytes base) = true →
  expected_info t key = Some (text_info base words extent (match extent with ViewExtent => view | FixedExtent _ => fixed end)) →
  registers t known (intern_text_array base words view fixed key extent t).
Proof.
  intros Ht He Hok Hb Hi. unfold intern_text_array. unfold text_info in Hi. destruct (trim_text_base _ Hb) as [Htr Hn].
  pose proof (text_layout_Ok words extent) as Hl. destruct (text_layout words extent) as [layout|e]; [|by apply registers_err].
  destruct Hl as [-> Hf]. apply register_known; [done|]. intros _.
  split; [by destruct key|by destruct key|done|by apply bracketed_trim].
Qed.

Lemma known_name t e info : Registry t → known t e → type_info t e = Some info →
  ti_name info ≠ [] ∧ trim (ti_name info) = ti_name info.
Proof.
  intros Ht [_ [key Hk]] Hi. destruct (decide (Z.to_nat e < 8)%nat) as [Hlt|Hge].
  - destruct (rg_builtins _ Ht) as [Htt _]. unfold type_info in Hi. rewrite <- (lookup_take_lt _ 8), Htt in Hi by lia.
    destruct (Z.to_nat e) as [|[|[|[|[|[|[|[|n]]]]]]]]; [..|lia]; injection Hi as <-; by vm_compute.
  - by destruct (rg_entries _ Ht (Z.to_nat e) key info ltac:(lia) Hk Hi).
Qed.

Lemma register_array rec base extent t :
  Registry t → extent_ok extent → (trim base ≠ [] → registers t known (rec (trim base) t)) →
  registers t known (intern_array_with rec base extent t).
Proof.
  intros Ht He Hrec. unfold intern_array_with. case_bool_decide as Hn; [by apply registers_err|].
  case_bool_decide as Ha.
  { apply register_text; try done; destruct extent; done. }
  case_match.
  { apply register_text; try done; destruct extent; done. }
  destruct (Hrec Hn) as (Ht1 & Hx & Hr). destruct (rec (trim base) t) as [t1 [e|err]]; cbn [fst snd] in *; [|done].
  destruct (known_info _ _ Ht1 Hr) as [info Hi]. rewrite Hi.
  pose proof (array_layout_Ok (static_size_bytes (ti_layout info)) extent) as Hl.
  destruct (array_layout _ extent) as [layout|err]; [|by split_and!]. destruct Hl as [-> Hf].
  destruct (known_name _ _ _ Ht1 Hr Hi) as (Hne & Htr). destruct Hr as [Hp [key Hk]]. apply lookup_lt_Some in Hk.
  eassert (registers t1 known (intern_with_info (array_key e extent) _ t1)) as (Ht2 & Hx2 & Hr2).
  2:{ split_and!; [exact Ht2|by etrans|exact Hr2]. }
  apply register_known; [done|]. intros _. split; [| |exact Hf|by apply bracketed_trim].
  - pose proof (array_key_ok t1 e extent He ltac:(lia)). by destruct extent.
  - destruct extent; cbn [array_key registered_info expected_info]; unfold array_info; by rewrite Hi.
Qed.

Lemma register_collection t s d :
  Registry t → parse_typed_collection_descriptor t s = Ok (Some d) → registers t known (intern_typed_collection d t).
Proof.
  intros Ht Hp. unfold intern_typed_collection.
  destruct (get_key t (descriptor_key d)) as [id|] eqn:E; [split_and!; [done..|by eapply get_key_known]|].
  unfold checked_u. case_bool_decide as Hu; [|by apply registers_err].
  apply register_known; [done|]. intros _.
  pose proof (parse_descriptor_Ok _ _ _ _ Hp) as (Hwf & base & lanes & size & Hbl & Hts & Hle & Hd & Hwb).
  assert (∀ id, td_key_type d = Some id → is_integer t id = true) as Hi by (intros id; by eapply parse_descriptor_integer).
  destruct (canonical_name_facts t d (rg_builtins _ Ht) Hwf Hi) as (Hn & Htr & Hl). split; [| |by intros z [= <-]|done].
  - cbn. by apply (descriptor_wf_lanes _ (td_lanes d) 0) in Hwf.
  - subst d. cbn. by rewrite Hts.
Qed.

Lemma register_inner s : ∀ t, Registry t → trim s = s → registers t known (resolve_or_intern_inner s t).
Proof.
  remember (length s) as n eqn:Hn. revert s Hn. induction n as [n IH] using lt_wf_ind. intros s -> t Ht Hs.
  rewrite resolve_or_intern_inner_unfold. unfold intern_with. case_bool_decide as Hne; [by apply registers_err|].
  case_bool_decide as Hstr; [by apply (register_text t "utf8" 3 CatUtf8View CatUtf8Fixed KeyUtf8View ViewExtent)|].
  destruct (resolve_existing t s) as [id|] eqn:E; [split_and!; [done..|by eapply resolve_known]|].
  destruct (split_array_suffix s) as [[[b e]|]|err] eqn:Hsp.
  - destruct (parse_array_extent e) as [extent|err] eqn:He.
    2:{ apply registers_err; [done|]. pose proof (extent_clean e) as Hc. by rewrite He in Hc. }
    pose proof (suffix_shorter _ _ _ Hsp). pose proof (length_trim b).
    apply register_array; [done|by eapply parse_extent_ok|]. intros _.
    apply (IH (length (trim b))); [lia|done|done|by apply trim_trim].
  - destruct (parse_typed_collection_descriptor t s) as [[d|]|err] eqn:Hp; [by eapply register_collection| |].
    + apply register_known; [done|]. intros _. split; [by eapply parse_collection_text|done..].
    + apply registers_err; [done|]. pose proof (parse_descriptor_clean (resolve t) t s) as Hc.
      unfold parse_typed_collection_descriptor in Hp. by rewrite Hp in Hc.
  - apply registers_err; [done|]. pose proof (suffix_clean s) as Hc. by rewrite Hsp in Hc.
Qed.

Lemma applied_trim name arguments separator :
  name ≠ [] → trim name = name →
  applied name arguments separator ≠ [] ∧ trim (applied name arguments separator) = applied name arguments separator.
Proof.
  intros Hn Htr. unfold applied. split; [by destruct name|]. apply trim_trimmed.
  - apply blank_char_app; [done| |done]. rewrite <- Htr. apply trim_spec.
  - rewrite !app_assoc. by apply solid_last.
Qed.

Lemma register_instantiated definition arguments t :
  Registry t →
  registers t (λ t' id, get_key t' (KeyInstantiated (trim definition) arguments) = Some id)
    (intern_instantiated_nominal definition arguments t).
Proof.
  intros Ht. unfold intern_instantiated_nominal. case_bool_decide as Hn; [by apply registers_err|].
  case_bool_decide as Ha; [by apply registers_err|]. apply register_info; [done|]. intros _.
  pose proof (trim_trim definition) as Htr. split; [done| |done|by apply applied_trim].
  cbn [registered_info]. do 3 f_equal. apply list_fmap_ext. intros _ a _. apply argument_display_types. cbn.
  by rewrite <- (rg_len _ Ht), firstn_all.
Qed.

(** ** Histories with every operation *)

Inductive RegistryStep (t : TypeTable) : TypeTable → Prop :=
| step_text t' : TableStep t t' → RegistryStep t t'
| step_instantiated definition arguments :
    RegistryStep t (intern_instantiated_nominal definition arguments t).1.

Definition is_instantiated (key : TypeKey) : bool := match key with KeyInstantiated _ _ => true | _ => false end.

(** No instantiated type is in the table. *)
Definition only_texts (t : TypeTable) : Prop := Forall (λ key, is_instantiated key = false) (tt_keys t).

Lemma only_texts_extends t t' : extends t t' → only_texts t' → only_texts t.
Proof. unfold only_texts. intros [_ [l ->]] H. by apply Forall_app in H as [? _]. Qed.

Lemma new_registry : Registry TypeTable_new.
Proof.
  split; [done|done|apply new_table|done|]. intros i key info Hi Hk. apply lookup_lt_Some in Hk. cbn in Hk. lia.
Qed.

Lemma text_step_registry t t' : Registry t → TableStep t t' → Registry t' ∧ extends t t'.
Proof.
  intros Ht Hs. destruct Hs.
  - by destruct (register_inner (trim s) t Ht (trim_trim s)) as (? & ? & _).
  - edestruct (register_array resolve_or_intern_inner base extent t Ht) as (? & ? & _); [done| |done].
    intros _. apply register_inner; [done|apply trim_trim].
  - by edestruct (register_array resolve_or_intern_inner (string_bytes "ascii") ViewExtent t Ht) as (? & ? & _);
      [|intros _; apply register_inner|].
  - by edestruct (register_array resolve_or_intern_inner (string_bytes "utf8") ViewExtent t Ht) as (? & ? & _);
      [|intros _; apply register_inner|].
  - assert (extends t (replace_source_type_origins origins t)) as Hx by (split; done). split; [|done].
    split; try apply Ht. intros i key info Hi Hk Hti.
    apply (registered_mono t); [apply Ht|done| |by apply (rg_entries _ Ht)]. apply lookup_lt_Some in Hti. cbn in Hti. lia.
Qed.

(** A table without instantiated types was not changed by the step that makes them. *)
Lemma instantiated_only_texts definition arguments t :
  only_texts (intern_instantiated_nominal definition arguments t).1 →
  (intern_instantiated_nominal definition arguments t).1 = t.
Proof.
  unfold intern_instantiated_nominal, intern_with_info, only_texts. repeat (case_match; [done|]).
  destruct (checked_u 16 _); [|done]. cbn. intros [_ Hi]%Forall_app. by inversion Hi.
Qed.

Lemma registry_step t t' :
  Registry t → (only_texts t → Table t) → RegistryStep t t' →
  Registry t' ∧ (only_texts t' → Table t') ∧ extends t t'.
Proof.
  intros Ht Hp Hs. destruct Hs as [t' Hs|definition arguments].
  - destruct (text_step_registry _ _ Ht Hs) as [Ht' Hx]. split_and!; [done| |done]. intros Ho.
    apply (only_texts_extends _ _ Hx), Hp in Ho. by apply (step_table t).
  - destruct (register_instantiated definition arguments t Ht) as (Ht' & Hx & _). split_and!; [done| |done].
    intros Ho. rewrite instantiated_only_texts by done. apply Hp. by eapply only_texts_extends.
Qed.

Lemma registry_steps t t' :
  Registry t → (only_texts t → Table t) → rtc RegistryStep t t' →
  Registry t' ∧ (only_texts t' → Table t') ∧ extends t t'.
Proof.
  intros Ht Hp Hs. induction Hs as [t|t u v Hs _ IH]; [done|].
  destruct (registry_step _ _ Ht Hp Hs) as (Hu & Hp' & Hx). destruct (IH Hu Hp') as (Hv & Hpv & Hx').
  split_and!; [done..|by etrans].
Qed.

(** C13 The table of types is exact whatever is interned.  In a table that was built from
    the new one by any sequence of interning texts, arrays and instantiated types, asking
    for the text views and replacing the origins, there is one type per key and the map finds
    each key at its index; the first eight types are the builtins; every other type has
    exactly the name, the category and the layout its key determines, a static size fits a
    [u32], an array refers to an earlier type, a collection is well formed, a name is a
    trimmed text.  A step never changes a type that exists, so an instantiated type keeps
    the definition and the arguments it was made of, and interning them again gives it.  As
    long as no instantiated type was interned (the compiler interns none: only tests call the
    operation), the name of a type also denotes its key, as [Table] says; an instantiated
    type breaks that, as [instantiated_names_shadow] shows. *)
Theorem interning_exact t t' :
  rtc RegistryStep TypeTable_new t → rtc RegistryStep t t' →
  Registry t' ∧ (only_texts t' → Table t') ∧ extends t t'
  ∧ ∀ definition arguments id, (intern_instantiated_nominal definition arguments t).2 = Ok id →
      ∀ t'', rtc RegistryStep (intern_instantiated_nominal definition arguments t).1 t'' →
      instantiated_nominal_identity t'' id = Some (trim definition, arguments)
      ∧ intern_instantiated_nominal definition arguments t'' = (t'', Ok id).
Proof.
  intros H H'. destruct (registry_steps _ _ new_registry (λ _, new_table) H) as (Ht & Hp & _).
  destruct (registry_steps _ _ Ht Hp H') as (? & ? & ?). split_and!; [done..|]. intros definition arguments id Hid t'' Hs.
  destruct (registry_step _ _ Ht Hp (step_instantiated t definition arguments)) as (Hu & Hpu & _).
  destruct (registry_steps _ _ Hu Hpu Hs) as (Ht'' & _ & Hx).
  destruct (register_instantiated definition arguments t Ht) as (_ & _ & Hg). rewrite Hid in Hg.
  apply (rg_exact _ Hu) in Hg as [Hpos Hk]. pose proof (prefix_lookup_Some _ _ _ _ Hk (proj2 Hx)) as Hk''. split.
  - unfold instantiated_nominal_identity, type_key. by rewrite Hk''.
  - unfold intern_instantiated_nominal in Hid |- *. case_bool_decide; [done|]. case_bool_decide; [done|].
    unfold intern_with_info. change (key_get ?k (tt_by_key t'')) with (get_key t'' k).
    by rewrite (proj2 (rg_exact _ Ht'' _ id) (conj Hpos Hk'')).
Qed.

(** ** Witnesses *)

Definition sample_text : str := string_bytes " Enemy [ 4 ] ".

(** The table after interning the sample: the element, then the array of it. *)
Definition sample_table : TypeTable := (resolve_or_intern sample_text TypeTable_new).1.

Example sample_names :
  ti_name <$> drop 8 (tt_types sample_table) = string_bytes <$> ["Enemy"; "Enemy[4]"]%string
  ∧ resolve sample_table (string_bytes "Enemy[04]") = Some 9.
Proof. by vm_compute. Qed.

(** The table of the test of the frontend: [Buffer<12>], after the collection
    [pool<i32, 4>] and before a type that is shown as [pool<i32,4>]. *)
Definition collection_table : TypeTable := (resolve_or_intern (string_bytes "pool<i32, 4>") sample_table).1.
Definition buffer_table : TypeTable :=
  (intern_instantiated_nominal (string_bytes " Buffer") [ArgI32 12] collection_table).1.
Definition shadowed_table : TypeTable :=
  (intern_instantiated_nominal (string_bytes "pool") [ArgType TYPE_ID_I32; ArgI32 4] buffer_table).1.

(** The name of an instantiated type resolves to it, and hides what the text denotes: the
    text of a collection resolved to the collection, and resolves to the instantiated type
    from then on. *)
Example instantiated_names_shadow :
  resolve buffer_table (string_bytes "Buffer<12>") = Some 11
  ∧ denote buffer_table (string_bytes "Buffer<12>") = None
  ∧ resolve buffer_table (string_bytes "pool<i32,4>") = Some 10
  ∧ resolve shadowed_table (string_bytes "pool<i32,4>") = Some 12
  ∧ instantiated_nominal_identity shadowed_table 12 = Some (string_bytes "pool", [ArgType TYPE_ID_I32; ArgI32 4]).
Proof. by vm_compute. Qed.

Lemma interning_exact_witness : Registry shadowed_table ∧ Table sample_table ∧ extends sample_table shadowed_table.
Proof.
  assert (rtc RegistryStep TypeTable_new sample_table) as H by apply rtc_once, step_text, (step_intern _ sample_text).
  assert (rtc RegistryStep sample_table shadowed_table) as H'.
  { eapply rtc_l; [apply step_text, (step_intern _ (string_bytes "pool<i32, 4>"))|].
    eapply rtc_l; [apply (step_instantiated _ (string_bytes " Buffer") [ArgI32 12])|].
    apply rtc_once, (step_instantiated _ (string_bytes "pool") [ArgType TYPE_ID_I32; ArgI32 4]). }
  split_and!; [apply (interning_exact sample_table); [exact H|exact H']| |apply (interning_exact sample_table); [exact H|exact H']].
  apply (interning_exact TypeTable_new sample_table); [apply rtc_refl|exact H|].
  apply (bool_decide_unpack (only_texts sample_table)). vm_compute. exact I.
Defined.

Lemma resolve_by_keys_witness : resolve TypeTable_new (string_bytes " u8") = denote TypeTable_new (trim (string_bytes " u8")).
Proof. apply (resolve_by_keys TypeTable_new (string_bytes " u8")). apply new_table. Defined.

Lemma interned_texts_resolve_witness : resolve sample_table sample_text = Some 9.
Proof.
  apply (interned_texts_resolve TypeTable_new sample_text sample_table (Ok 9)); [apply new_table|by vm_compute|].
  apply rtc_refl.
Defined.
