(* ===== verification/BodyScan.v ===== *)
(** * The body parser: scanning

    Models the part of [crates/stasis_compiler/src/frontend/body_parser.rs] that walks
    over the text of a function body: white space and comments, delimiters, the ends of
    statements, the header of a [for], identifiers and their paths, and the tests that
    tell statements apart.

    A text is its bytes.  The index of every slice is next to an ASCII byte or at an end
    of the text, so that no slice panics.  The loops that skip a string or a comment are
    modes of the loop around them: the newline that ends a line comment is then read as
    code, which passes over it.  The depth counters are [i32] and cannot overflow on a
    source of less than two gigabytes. *)

From Stdlib Require Import Floats.SpecFloat.
From S2P Require Import Prelude Lexer Identity Text Functions Hir Types.
#[local] Open Scope Z_scope.

(** An error is its message with the texts it quotes; [BodyFuel] is a lack of fuel. *)
Inductive BodyError :=
| BodyErr (message : string) (quoted : list str)
| BodyFuel.

#[export] Instance BodyError_eq_dec : EqDecision BodyError.
Proof. solve_decision. Defined.

Definition LPAR : Z := 40.
Definition RPAR : Z := 41.
Definition LCURLY : Z := 123.
Definition RCURLY : Z := 125.
Definition SEMI : Z := 59.
Definition EQUALS : Z := 61.

Definition is_ascii_alphanumeric (b : Z) : bool := is_ascii_alphabetic b || is_ascii_digit b.

(** [&source[start..end]] *)
Definition text_slice (source : str) (start end_ : nat) : str := take (end_ - start) (drop start source).

(** ** Code, strings and comments

    The loops over a text share the cases that skip a string or a comment.  [InOpen] and
    [InClose] are at the second byte of the marks of a block comment. *)

Inductive ScanMode := InCode | InString (escaped : bool) | InLine | InOpen | InBlock | InClose.

#[export] Instance ScanMode_eq_dec : EqDecision ScanMode.
Proof. solve_decision. Defined.

(** The mode after a byte that is not code, with the byte after it. *)
Definition comment_mode (b : Z) (next : option Z) : option ScanMode :=
  if (b =? SLASH) && bool_decide (next = Some SLASH) then Some InLine
  else if (b =? SLASH) && bool_decide (next = Some STAR) then Some InOpen
  else None.

Definition skipped (mode : ScanMode) (b : Z) (next : option Z) : option ScanMode :=
  match mode with
  | InString true => Some (InString false)
  | InString false =>
      Some (if b =? BACKSLASH then InString true else if b =? QUOTE then InCode else InString false)
  | InLine => Some (if b =? NEWLINE then InCode else InLine)
  | InOpen => Some InBlock
  | InBlock => Some (if (b =? STAR) && bool_decide (next = Some SLASH) then InClose else InBlock)
  | InClose => Some InCode
  | InCode =>
      match comment_mode b next with
      | Some mode => Some mode
      | None => if b =? QUOTE then Some (InString false) else None
      end
  end.

(** ** White space *)

Fixpoint blanks (rest : str) : nat :=
  match rest with
  | b :: rest' => if is_ascii_whitespace b then S (blanks rest') else 0
  | [] => 0
  end.

Definition skip_ascii_whitespace (source : str) (cursor : nat) : nat := cursor + blanks (drop cursor source).

(** The loop of [skip_ascii_whitespace_and_comments] at [index], with [rest] after it. *)
Fixpoint skip_loop (rest : str) (index : nat) (mode : ScanMode) : nat :=
  match rest with
  | [] => index
  | b :: rest' =>
      match mode with
      | InCode | InString _ =>
          if is_ascii_whitespace b then skip_loop rest' (S index) InCode
          else
            match comment_mode b (head rest') with
            | Some mode => skip_loop rest' (S index) mode
            | None => index
            end
      | _ => skip_loop rest' (S index) (default InCode (skipped mode b (head rest')))
      end
  end.

Definition skip_ascii_whitespace_and_comments (source : str) (cursor : nat) : nat :=
  skip_loop (drop cursor source) cursor InCode.

Definition starts_with_keyword (source : str) (cursor : nat) (keyword : string) : bool :=
  starts_with (string_bytes keyword) (drop cursor source)
  && match source !! (cursor + String.length keyword)%nat with
     | None => true
     | Some b => negb (is_ascii_alphanumeric b) && negb (b =? 95)
     end.

(** ** Snippets of errors *)

Definition char_starts (source : str) (index : nat) : bool :=
  match source !! index with
  | None => (index <=? length source)%nat
  | Some b => negb ((128 <=? b) && (b <? 192))
  end.

Fixpoint take_chars (n : nat) (s : str) : str :=
  match n, s with
  | S n', b :: _ => take (char_len b) s ++ take_chars n' (drop (char_len b) s)
  | _, _ => []
  end.

Definition snippet_from (source : str) (cursor : nat) : str :=
  if char_starts source cursor then take_chars 24 (drop cursor source) else [].

(** ** Delimiters *)

(** The loop of [find_matching_delimiter]. *)
Fixpoint matching_loop (open close : Z) (rest : str) (index : nat) (mode : ScanMode) (depth : Z) :
    option nat :=
  match rest with
  | [] => None
  | b :: rest' =>
      match skipped mode b (head rest') with
      | Some mode => matching_loop open close rest' (S index) mode depth
      | None =>
          if b =? open then matching_loop open close rest' (S index) InCode (depth + 1)
          else if b =? close then
            if depth - 1 =? 0 then Some index else matching_loop open close rest' (S index) InCode (depth - 1)
          else matching_loop open close rest' (S index) InCode depth
      end
  end.

Definition find_matching_delimiter (source : str) (open_index : nat) (open close : Z) : option nat :=
  if negb (bool_decide (source !! open_index = Some open)) then None
  else matching_loop open close (drop open_index source) open_index InCode 0.

(** The loop of [find_statement_terminator]; [Err] tells an open comment. *)
Fixpoint terminator_loop (rest : str) (index : nat) (mode : ScanMode) (paren brace bracket : Z) :
    Result nat string :=
  match rest with
  | [] => Err (match mode with InBlock => "unterminated block comment near" | _ => "missing ';' terminator near" end)%string
  | b :: rest' =>
      match skipped mode b (head rest') with
      | Some mode => terminator_loop rest' (S index) mode paren brace bracket
      | None =>
          if b =? LPAR then terminator_loop rest' (S index) InCode (paren + 1) brace bracket
          else if b =? RPAR then terminator_loop rest' (S index) InCode (paren - 1) brace bracket
          else if b =? LCURLY then terminator_loop rest' (S index) InCode paren (brace + 1) bracket
          else if b =? RCURLY then terminator_loop rest' (S index) InCode paren (brace - 1) bracket
          else if b =? LSQUARE then terminator_loop rest' (S index) InCode paren brace (bracket + 1)
          else if b =? RSQUARE then terminator_loop rest' (S index) InCode paren brace (bracket - 1)
          else if (b =? SEMI) && (paren =? 0) && (brace =? 0) && (bracket =? 0) then Ok index
          else terminator_loop rest' (S index) InCode paren brace bracket
      end
  end.

Definition find_statement_terminator (source : str) (start : nat) : Result nat BodyError :=
  map_err (λ message, BodyErr message [snippet_from source start])
    (terminator_loop (drop start source) start InCode 0 0 0).

(** The loop of [split_for_header_ranges]: a comment that is not closed leaves its last
    byte as code. *)
Fixpoint header_loop (rest : str) (index : nat) (mode : ScanMode) (depth : Z) (segment_start : nat)
    (parts : list (nat * nat)) : list (nat * nat) :=
  match rest with
  | [] => parts ++ [(segment_start, index)]
  | b :: rest' =>
      let mode := match mode, rest' with InBlock, [] => InCode | _, _ => mode end in
      match skipped mode b (head rest') with
      | Some mode => header_loop rest' (S index) mode depth segment_start parts
      | None =>
          if b =? LPAR then header_loop rest' (S index) InCode (depth + 1) segment_start parts
          else if b =? RPAR then header_loop rest' (S index) InCode (depth - 1) segment_start parts
          else if (b =? SEMI) && (depth =? 0)
          then header_loop rest' (S index) InCode depth (S index) (parts ++ [(segment_start, index)])
          else header_loop rest' (S index) InCode depth segment_start parts
      end
  end.

Definition split_for_header_ranges (header : str) :
    Result ((nat * nat) * (nat * nat) * (nat * nat)) BodyError :=
  match header_loop header 0 InCode 0 0 [] with
  | [a; b; c] => Ok (a, b, c)
  | _ => Err (BodyErr "for header must contain exactly 3 segments separated by ';'" [header])
  end.

(** ** Identifiers *)

Definition expect_byte (source : str) (cursor : nat) (expected : Z) (context : string) : Result nat BodyError :=
  if bool_decide (source !! cursor = Some expected) then Ok (S cursor)
  else Err (BodyErr ("expected " ++ context ++ " near") [snippet_from source cursor]).

Fixpoint identifier_len (rest : str) : nat :=
  match rest with
  | b :: rest' => if is_ascii_alphanumeric b || (b =? 95) then S (identifier_len rest') else 0
  | [] => 0
  end.

Definition parse_identifier (source : str) (cursor : nat) : Result (str * nat) BodyError :=
  match source !! cursor with
  | None => Err (BodyErr "expected identifier but reached end of statement" [])
  | Some start_byte =>
      if negb (is_ascii_alphabetic start_byte) && negb (start_byte =? 95)
      then Err (BodyErr "expected identifier near" [snippet_from source cursor])
      else
        let end_ := (S cursor + identifier_len (drop (S cursor) source))%nat in
        Ok (text_slice source cursor end_, end_)
  end.

Definition dotted (path segment : str) : str := path ++ [DOT] ++ segment.

(** The loop of [parse_identifier_path]. *)
Fixpoint path_loop (fuel : nat) (source path : str) (next : nat) : Result (str * nat) BodyError :=
  match fuel with
  | O => Err BodyFuel
  | S fuel' =>
      let next := skip_ascii_whitespace source next in
      if negb (bool_decide (source !! next = Some DOT)) then Ok (path, next)
      else
        let next := skip_ascii_whitespace source (S next) in
        let? (segment, after_segment) := parse_identifier source next in
        path_loop fuel' source (dotted path segment) after_segment
  end.

Definition parse_identifier_path (source : str) (cursor : nat) : Result (str * nat) BodyError :=
  let? (first, next) := parse_identifier source cursor in
  path_loop (S (length source)) source first next.

Definition assign_target_from_path (path : str) : AssignTarget :=
  if contains DOT path then GlobalPath path else LocalTarget path.

(** ** What a statement looks like *)

(** The loop of [looks_like_assignment], which knows no strings and no comments. *)
Fixpoint assignment_loop (rest : str) (paren bracket : Z) : bool :=
  match rest with
  | [] => false
  | b :: rest' =>
      if b =? LPAR then assignment_loop rest' (paren + 1) bracket
      else if b =? RPAR then
        if paren - 1 <? 0 then false else assignment_loop rest' (paren - 1) bracket
      else if b =? LSQUARE then assignment_loop rest' paren (bracket + 1)
      else if b =? RSQUARE then
        if bracket - 1 <? 0 then false else assignment_loop rest' paren (bracket - 1)
      else if (b =? SEMI) && (paren =? 0) && (bracket =? 0) then false
      else if (b =? EQUALS) && (paren =? 0) && (bracket =? 0) then negb (bool_decide (head rest' = Some EQUALS))
      else assignment_loop rest' paren bracket
  end.

Definition looks_like_assignment (source : str) (cursor : nat) : bool :=
  match source !! cursor with
  | None => false
  | Some b =>
      if negb (is_ascii_alphabetic b) && negb (b =? 95) then false
      else assignment_loop (drop cursor source) 0 0
  end.

Definition looks_like_from_conversion_statement (source : str) (cursor : nat) : bool :=
  if looks_like_assignment source cursor then false
  else
    match find_statement_terminator source cursor with
    | Err _ => false
    | Ok semicolon =>
        let tail := trim (text_slice source cursor semicolon) in
        match find_text (string_bytes ".from_") tail with
        | None => false
        | Some dot_pos =>
            if (dot_pos =? 0)%nat then false
            else
              match trim (take dot_pos tail) with
              | [] => false
              | first :: _ =>
                  if negb (is_ascii_alphabetic first) && negb (first =? 95) then false
                  else
                    let method_tail := drop dot_pos tail in
                    starts_with (string_bytes ".from_i32(") method_tail
                    || starts_with (string_bytes ".from_f32(") method_tail
                    || starts_with (string_bytes ".from_f64(") method_tail
              end
        end
    end.

(** The offset of the first character of [trim s] in [s]. *)
Definition trim_offset (s : str) : nat := length s - length (trim_start (length s) s).

(** The type of a [let], and its initializer with its offset. *)
Definition split_type_annotation_and_initializer (source : str) (type_start : nat) :
    Result (str * option (str * nat)) BodyError :=
  let missing := Err (BodyErr "missing type annotation in let statement" []) in
  if (length source <=? type_start)%nat then missing
  else
    match find_byte EQUALS (drop type_start source) with
    | Some distance =>
        let cursor := (type_start + distance)%nat in
        let type_name := trim (text_slice source type_start cursor) in
        if bool_decide (type_name = []) then missing
        else
          let tail := drop (S cursor) source in
          let initializer := trim tail in
          if bool_decide (initializer = []) then Err (BodyErr "missing expression in let statement" [])
          else Ok (type_name, Some (initializer, S cursor + trim_offset tail)%nat)
    | None =>
        let type_name := trim (drop type_start source) in
        if bool_decide (type_name = []) then missing else Ok (type_name, None)
    end.

(** ** The body parser: tokens

    Models [tokenize_simple_expression_at] of
    [crates/stasis_compiler/src/frontend/body_parser.rs].

    [token_loop] takes fuel for the bytes of the text; every iteration passes one at
    least.  A string literal holds characters, which are copied whole.  The value of a
    float literal is its bits. *)
#[local] Open Scope Z_scope.

Inductive ExprToken :=
| TInt (value : Z)
| TFloat (bits : Z)
| TString (text : str)
| TIdentifier (name : str) (source_span : SourceSpan)
| TOperator (op : ExprBinaryOp)
| TCompare (op : ComparisonOp)
| TLogicalNot | TBitwiseNot | TLogicalAnd | TLogicalOr | TComma | TColonColon | TDot
| TLess | TGreater | TLBracket | TRBracket | TLParen | TRParen.

(** *** Literals *)

(** The bits of a canonical binary64. *)
Definition f64_bits (x : spec_float) : Z :=
  let signed (s : bool) (bits : Z) := if s then Z.setbit bits 63 else bits in
  match x with
  | S754_zero s => signed s 0
  | S754_infinity s => signed s (Z.shiftl 2047 52)
  | S754_nan => Z.shiftl 4095 51
  | S754_finite s m e =>
      signed s (if Zpos m <? 2 ^ 52 then Zpos m else Z.shiftl (e + 1075) 52 + (Zpos m - 2 ^ 52))
  end.

Fixpoint digits_len (rest : str) : nat :=
  match rest with
  | b :: rest' => if is_ascii_digit b then S (digits_len rest') else 0
  | [] => 0
  end.

(** A number that starts [rest]: its token and its length. *)
Definition number_token (rest : str) : Result (ExprToken * nat) BodyError :=
  let whole := digits_len rest in
  match drop whole rest with
  | point :: (digit :: _) as fraction =>
      if (point =? POINT) && is_ascii_digit digit then
        let len := (whole + S (digits_len fraction))%nat in
        Ok (TFloat (f64_bits (parse_f64 (take len rest))), len)
      else
        let? value := ok_or (checked_i 64 (decimal (take whole rest)))
                            (BodyErr "invalid integer literal" [take whole rest]) in
        Ok (TInt value, whole)
  | _ =>
      let? value := ok_or (checked_i 64 (decimal (take whole rest)))
                          (BodyErr "invalid integer literal" [take whole rest]) in
      Ok (TInt value, whole)
  end.

Definition escaped_char (b : Z) : option Z :=
  if b =? 110 then Some 10
  else if b =? 114 then Some 13
  else if b =? 116 then Some 9
  else if b =? 48 then Some 0
  else if b =? BACKSLASH then Some BACKSLASH
  else if b =? QUOTE then Some QUOTE
  else None.

(** The rest of a string literal after its opening quote: the text and the number of
    bytes up to its end. *)
Fixpoint string_loop (fuel : nat) (expression rest literal : str) (used : nat) : Result (str * nat) BodyError :=
  match fuel with
  | O => Err BodyFuel
  | S fuel' =>
      match rest with
      | [] => Err (BodyErr "unterminated string literal in expression" [expression])
      | current :: rest' =>
          if current =? BACKSLASH then
            match rest' with
            | [] => Err (BodyErr "unterminated escape sequence in string literal" [expression])
            | escaped :: rest'' =>
                match escaped_char escaped with
                | Some decoded => string_loop fuel' expression rest'' (literal ++ [decoded]) (S (S used))
                | None => Err (BodyErr "unsupported escape sequence" [byte_as_char escaped; expression])
                end
            end
          else if current =? QUOTE then Ok (literal, S used)
          else
            let len := char_len current in
            string_loop fuel' expression (drop len rest) (literal ++ take len rest) (used + len)
      end
  end.

(** *** Comments *)

(** The bytes of a line comment, from its first slash to the newline. *)
Fixpoint line_len (rest : str) : nat :=
  match rest with
  | b :: rest' => if b =? NEWLINE then 0 else S (line_len rest')
  | [] => 0
  end.

(** The bytes of a block comment after its opening mark. *)
Fixpoint block_len (rest : str) : option nat :=
  match rest with
  | b :: rest' =>
      match rest' with
      | c :: _ => if (b =? STAR) && (c =? SLASH) then Some 2%nat else S <$> block_len rest'
      | [] => None
      end
  | [] => None
  end.

(** *** Operators *)

Definition next_is (b : Z) (rest : str) : bool := bool_decide (head rest = Some b).

(** The token of punctuation that starts with [b], and its length. *)
Definition operator_token (b : Z) (rest : str) : option (ExprToken * nat) :=
  if b =? 43 then Some (TOperator Add, 1%nat)
  else if b =? 45 then Some (TOperator Subtract, 1%nat)
  else if b =? 42 then Some (TOperator Multiply, 1%nat)
  else if b =? 47 then Some (TOperator Divide, 1%nat)
  else if b =? 37 then Some (TOperator Remainder, 1%nat)
  else if b =? 38 then if next_is 38 rest then Some (TLogicalAnd, 2%nat) else Some (TOperator BitAnd, 1%nat)
  else if b =? 124 then if next_is 124 rest then Some (TLogicalOr, 2%nat) else Some (TOperator BitOr, 1%nat)
  else if b =? 94 then Some (TOperator BitXor, 1%nat)
  else if b =? 126 then Some (TBitwiseNot, 1%nat)
  else if b =? 33 then if next_is 61 rest then Some (TCompare CmpNe, 2%nat) else Some (TLogicalNot, 1%nat)
  else if b =? 61 then if next_is 61 rest then Some (TCompare CmpEq, 2%nat) else None
  else if b =? 60 then
    if next_is 60 rest then Some (TOperator ShiftLeft, 2%nat)
    else if next_is 61 rest then Some (TCompare CmpLe, 2%nat)
    else Some (TLess, 1%nat)
  else if b =? 44 then Some (TComma, 1%nat)
  else if b =? 58 then if next_is 58 rest then Some (TColonColon, 2%nat) else None
  else if b =? 46 then Some (TDot, 1%nat)
  else if b =? 62 then
    if next_is 62 rest then Some (TOperator ShiftRight, 2%nat)
    else if next_is 61 rest then Some (TCompare CmpGe, 2%nat)
    else Some (TGreater, 1%nat)
  else if b =? 40 then Some (TLParen, 1%nat)
  else if b =? 41 then Some (TRParen, 1%nat)
  else if b =? 91 then Some (TLBracket, 1%nat)
  else if b =? 93 then Some (TRBracket, 1%nat)
  else None.

(** *** The tokens of an expression *)

(** An offset of the body, as [u32]. *)
Definition source_u32 (source_offset : Z) (relative : nat) (message : string) : Result Z BodyError :=
  ok_or (checked_u 32 (saturating_u64_add source_offset (Z.of_nat relative))) (BodyErr message []).

(** One iteration of the loop at [index], before [rest]: the token and the bytes passed. *)
Definition token_step (expression : str) (source_offset : Z) (index : nat) (byte : Z) (rest : str) :
    Result (option ExprToken * nat) BodyError :=
  if is_ascii_whitespace byte then Ok (None, 1%nat)
  else if (byte =? SLASH) && next_is SLASH (tail rest) then Ok (None, 2 + line_len (drop 2 rest))%nat
  else if (byte =? SLASH) && next_is STAR (tail rest) then
    let? len := ok_or (block_len (drop 2 rest)) (BodyErr "unterminated block comment in expression" [expression]) in
    Ok (None, 2 + len)%nat
  else if byte =? QUOTE then
    let? (literal, used) := string_loop (S (length rest)) expression (tail rest) [] 1 in
    Ok (Some (TString literal), used)
  else if is_ascii_digit byte then
    let? (token, len) := number_token rest in Ok (Some token, len)
  else if is_ascii_alphabetic byte || (byte =? 95) then
    let len := S (identifier_len (tail rest)) in
    let? first := source_u32 source_offset index "call source offset exceeds u32" in
    let? last := source_u32 source_offset (index + len) "call source offset exceeds u32" in
    Ok (Some (TIdentifier (take len rest) (first, last)), len)
  else
    match operator_token byte (tail rest) with
    | Some (token, len) => Ok (Some token, len)
    | None => Err (BodyErr "unsupported token in return expression" [byte_as_char byte; expression])
    end.

Fixpoint token_loop (fuel : nat) (expression : str) (source_offset : Z) (index : nat) (tokens : list ExprToken) :
    Result (list ExprToken) BodyError :=
  match fuel with
  | O => Err BodyFuel
  | S fuel' =>
      match drop index expression with
      | [] => Ok tokens
      | (byte :: _) as rest =>
          let? (token, len) := token_step expression source_offset index byte rest in
          token_loop fuel' expression source_offset (index + len) (tokens ++ option_list token)
      end
  end.

Definition tokenize_simple_expression_at (expression : str) (source_offset : Z) : Result (list ExprToken) BodyError :=
  token_loop (S (length expression)) expression source_offset 0 [].

Definition tokenize_simple_expression (expression : str) : Result (list ExprToken) BodyError :=
  tokenize_simple_expression_at expression 0.
