(* ===== verification/BodyExpr.v ===== *)
(** * The body parser: expressions

    Models [ExprParser] of [crates/stasis_compiler/src/frontend/body_parser.rs]: the
    precedence climbing over the tokens of an expression, with calls, receiver calls and
    the paths with one or two indices.

    The cursor of the parser is the list of the tokens after it.  The functions call each
    other on fewer tokens and take fuel for that; [BodyExprProps] shows that [expr_fuel]
    is enough. *)

From S2P Require Import Prelude Lexer Identity Text Functions Hir Types BodyScan.
#[local] Open Scope Z_scope.

Inductive ParsedExpression := PValue (e : SimpleExpr) | PCondition (c : SimpleCondition).

Definition into_value (p : ParsedExpression) : Result SimpleExpr BodyError :=
  match p with
  | PValue e => Ok e
  | PCondition _ => Err (BodyErr "condition cannot be used in a scalar expression" [])
  end.

Definition into_expression (p : ParsedExpression) : SimpleExpr :=
  match p with PValue e => e | PCondition c => Condition c end.

Definition into_condition (p : ParsedExpression) : SimpleCondition :=
  match p with PValue e => CondExpr e | PCondition c => c end.

(** ** Operators *)

Inductive InfixOperator := InfixBinary (op : ExprBinaryOp) | InfixCompare (op : ComparisonOp) | InfixAnd | InfixOr.

Definition infix_precedence (operator : InfixOperator) : Z :=
  match operator with
  | InfixBinary op => precedence op
  | InfixCompare (CmpLt | CmpLe | CmpGt | CmpGe) => 70
  | InfixCompare (CmpEq | CmpNe) => 65
  | InfixAnd => 30
  | InfixOr => 20
  end.

Definition peek_infix_operator (tokens : list ExprToken) : option (InfixOperator * Z) :=
  let found operator := Some (operator, infix_precedence operator) in
  match tokens with
  | TOperator op :: _ => found (InfixBinary op)
  | TCompare op :: _ => found (InfixCompare op)
  | TLess :: _ => found (InfixCompare CmpLt)
  | TGreater :: _ => found (InfixCompare CmpGt)
  | TLogicalAnd :: _ => found InfixAnd
  | TLogicalOr :: _ => found InfixOr
  | _ => None
  end.

(** The expression of an operator and its operands. *)
Definition combine (operator : InfixOperator) (lhs rhs : ParsedExpression) : Result ParsedExpression BodyError :=
  match operator with
  | InfixBinary op =>
      if requires_integer_operands op
      then Ok (PValue (Binary (into_expression lhs) op (into_expression rhs)))
      else
        let? l := into_value lhs in
        let? r := into_value rhs in
        Ok (PValue (Binary l op r))
  | InfixCompare op => Ok (PCondition (Comparison (into_expression lhs) op (into_expression rhs)))
  | InfixAnd => Ok (PCondition (CondAnd (into_condition lhs) (into_condition rhs)))
  | InfixOr => Ok (PCondition (CondOr (into_condition lhs) (into_condition rhs)))
  end.

(** ** Explicit generic arguments, which are refused *)

Definition no_generic_argument : BodyError := BodyErr "explicit generic call requires at least one argument" [].

(** The loop of [generic_arguments_end]: the tokens after the arguments. *)
Fixpoint generic_loop (tokens : list ExprToken) (depth : nat) (has_argument : bool) :
    Result (list ExprToken) BodyError :=
  let close depth rest :=
    if (depth =? 0)%nat then if has_argument then Ok rest else Err no_generic_argument
    else generic_loop rest depth has_argument in
  match tokens with
  | [] => Err (BodyErr "missing closing '>' in explicit generic call" [])
  | token :: rest =>
      let other := generic_loop rest depth (has_argument || (depth =? 1)%nat) in
      match token with
      | TLess => generic_loop rest (S depth) has_argument
      | TGreater => close (depth - 1)%nat rest
      | TOperator ShiftRight => if (2 <=? depth)%nat then close (depth - 2)%nat rest else other
      | TComma => if (depth =? 1)%nat then generic_loop rest depth has_argument else other
      | TColonColon => Err (BodyErr "nested explicit generic call is not a type argument" [])
      | _ => other
      end
  end.

Definition generic_arguments_end (tokens : list ExprToken) : Result (list ExprToken) BodyError :=
  match tokens with
  | TColonColon :: TLess :: rest => generic_loop rest 1 false
  | _ => Err (BodyErr "expected '<' after '::' in explicit generic call" [])
  end.

Definition explicit_generic_call : BodyError :=
  BodyErr "explicit generic function calls are not supported; remove the explicit arguments and infer from the first parameter's generic struct" [].

Definition consume_explicit_generic_arguments (tokens : list ExprToken) : Result unit BodyError :=
  match tokens with
  | TColonColon :: _ =>
      let? _ := generic_arguments_end tokens in
      Err explicit_generic_call
  | _ => Ok tt
  end.

(** ** Paths *)

(** The state of [parse_identifier_access_chain]. *)
Record Chain := mkChain {
  ch_path : str;
  ch_index : option SimpleExpr;
  ch_nested : option SimpleExpr;
  ch_suffix : str;
}.

Definition chain_segment (c : Chain) (segment : str) : Chain :=
  match ch_index c with
  | None => mkChain (dotted (ch_path c) segment) None (ch_nested c) (ch_suffix c)
  | Some _ =>
      mkChain (ch_path c) (ch_index c) (ch_nested c)
        (if bool_decide (ch_suffix c = []) then segment else dotted (ch_suffix c) segment)
  end.

Definition chain_expr (c : Chain) : SimpleExpr :=
  match ch_index c with
  | Some index => IndexedPathExpr (ch_path c) index (ch_suffix c) (ch_nested c)
  | None => Identifier (ch_path c)
  end.

Definition negative_index : BodyError :=
  BodyErr "negative collection indices are unsupported (use .length/.max_length)" [].

Definition is_negative_constant (e : SimpleExpr) : bool :=
  match eval_const_i64 e with Some v => v <? 0 | None => false end.

Definition chain_index (c : Chain) (index : SimpleExpr) : Result Chain BodyError :=
  match ch_index c with
  | None => Ok (mkChain (ch_path c) (Some index) (ch_nested c) (ch_suffix c))
  | Some _ =>
      match ch_nested c with
      | None =>
          if bool_decide (ch_suffix c = []) then Err (BodyErr "second collection index requires one field path in expression path" [])
          else Ok (mkChain (ch_path c) (ch_index c) (Some index) (ch_suffix c))
      | Some _ => Err (BodyErr "second collection index requires one field path in expression path" [])
      end
  end.

(** ** The parser *)

Abbreviation Parsed A := (Result (A * list ExprToken) BodyError).

(** Is the segment after a dot, before [after], the method of a call?  [generic_arguments_end]
    may fail. *)
Definition is_method (after : list ExprToken) : Result bool BodyError :=
  let? call_open := match after with TColonColon :: _ => generic_arguments_end after | _ => Ok after end in
  Ok (match call_open with TLParen :: _ => true | _ => false end).

Fixpoint parse_precedence (fuel : nat) (min_precedence : Z) (tokens : list ExprToken) : Parsed ParsedExpression :=
  match fuel with
  | O => Err BodyFuel
  | S fuel' =>
      let? (lhs, tokens) := parse_primary fuel' tokens in
      infix_loop fuel' min_precedence lhs tokens
  end
with infix_loop (fuel : nat) (min_precedence : Z) (lhs : ParsedExpression) (tokens : list ExprToken) :
    Parsed ParsedExpression :=
  match fuel with
  | O => Err BodyFuel
  | S fuel' =>
      match peek_infix_operator tokens with
      | None => Ok (lhs, tokens)
      | Some (operator, precedence) =>
          if precedence <? min_precedence then Ok (lhs, tokens)
          else
            let? (rhs, tokens) := parse_precedence fuel' (precedence + 1) (tail tokens) in
            let? lhs := combine operator lhs rhs in
            infix_loop fuel' min_precedence lhs tokens
      end
  end
with parse_primary (fuel : nat) (tokens : list ExprToken) : Parsed ParsedExpression :=
  match fuel with
  | O => Err BodyFuel
  | S fuel' =>
      match tokens with
      | [] => Err (BodyErr "unexpected end of expression" [])
      | TInt value :: rest => Ok (PValue (Int value), rest)
      | TFloat bits :: rest => Ok (PValue (Float bits), rest)
      | TString text :: rest => Ok (PValue (StringLiteral text), rest)
      | TIdentifier name source_span :: rest =>
          if bool_decide (name = string_bytes "true") then Ok (PValue (Bool true), rest)
          else if bool_decide (name = string_bytes "false") then Ok (PValue (Bool false), rest)
          else
            let? _ := consume_explicit_generic_arguments rest in
            match rest with
            | TLParen :: rest =>
                let? (args, rest) := call_arguments fuel' "expected ')' after call arguments" [] rest in
                Ok (PValue (Call name args (Some source_span) None), rest)
            | _ =>
                let? (e, rest) := access_loop fuel' (mkChain name None None []) rest in
                Ok (PValue e, rest)
            end
      | TOperator Subtract :: rest =>
          let? (operand, rest) := parse_precedence fuel' 110 rest in
          let? operand := into_value operand in
          Ok (PValue (Unary Negate operand), rest)
      | TOperator Add :: rest => parse_precedence fuel' 110 rest
      | TBitwiseNot :: rest =>
          let? (operand, rest) := parse_precedence fuel' 110 rest in
          let? operand := into_value operand in
          Ok (PValue (Unary BitwiseNot operand), rest)
      | TLogicalNot :: rest =>
          let? (operand, rest) := parse_precedence fuel' 110 rest in
          Ok (PCondition (CondNot (into_condition operand)), rest)
      | TLParen :: rest =>
          let? (e, rest) := parse_precedence fuel' 0 rest in
          match rest with
          | TRParen :: rest => Ok (e, rest)
          | _ => Err (BodyErr "expected ')' in expression" [])
          end
      | _ => Err (BodyErr "unexpected token in expression" [])
      end
  end
(** The arguments of a call after its parenthesis, up to the closing one; [args] has the
    receiver. *)
with call_arguments (fuel : nat) (message : string) (args : list SimpleExpr) (tokens : list ExprToken) :
    Parsed (list SimpleExpr) :=
  match fuel with
  | O => Err BodyFuel
  | S fuel' =>
      match tokens with
      | TRParen :: rest => Ok (args, rest)
      | _ => argument_loop fuel' message args tokens
      end
  end
with argument_loop (fuel : nat) (message : string) (args : list SimpleExpr) (tokens : list ExprToken) :
    Parsed (list SimpleExpr) :=
  match fuel with
  | O => Err BodyFuel
  | S fuel' =>
      let? (arg, tokens) := parse_precedence fuel' 0 tokens in
      let args := args ++ [into_expression arg] in
      match tokens with
      | TComma :: rest => argument_loop fuel' message args rest
      | TRParen :: rest => Ok (args, rest)
      | _ => Err (BodyErr message [])
      end
  end
(** The loop of [parse_identifier_access_chain]. *)
with access_loop (fuel : nat) (c : Chain) (tokens : list ExprToken) : Parsed SimpleExpr :=
  match fuel with
  | O => Err BodyFuel
  | S fuel' =>
      match tokens with
      | TDot :: rest =>
          match ch_nested c with
          | Some _ => Err (BodyErr "field access after a second collection index is unsupported in expression path" [])
          | None =>
              match rest with
              | TIdentifier method source_span :: after =>
                  let? is_call := is_method after in
                  if negb is_call then access_loop fuel' (chain_segment c method) after
                  else
                    let? _ := consume_explicit_generic_arguments after in
                    let? (args, rest) :=
                      call_arguments fuel' "expected ')' after receiver call arguments" [chain_expr c] (tail after) in
                    Ok (Call method args (Some source_span) None, rest)
              | _ => Err (BodyErr "expected identifier after '.' in expression path" [])
              end
          end
      | TLBracket :: rest =>
          let? (index, rest) := parse_precedence fuel' 0 rest in
          let? index := into_value index in
          if is_negative_constant index then Err negative_index
          else
            match rest with
            | TRBracket :: rest =>
                let? c := chain_index c index in
                access_loop fuel' c rest
            | _ => Err (BodyErr "expected ']' in expression path" [])
            end
      | _ => Ok (chain_expr c, tokens)
      end
  end.

Definition expr_fuel (tokens : list ExprToken) : nat := S (S (S (4 * length tokens))).

Definition parse_tokens (expression : str) (tokens : list ExprToken) : Result ParsedExpression BodyError :=
  let? (parsed, rest) := parse_precedence (expr_fuel tokens) 0 tokens in
  match rest with
  | [] => Ok parsed
  | _ => Err (BodyErr "unexpected trailing tokens in expression" [expression])
  end.

Definition parse_expression_at (expression : str) (source_offset : Z) : Result ParsedExpression BodyError :=
  let? tokens := tokenize_simple_expression_at expression source_offset in
  parse_tokens expression tokens.

Definition parse_simple_expression_at (expression : str) (source_offset : Z) : Result SimpleExpr BodyError :=
  let? parsed := parse_expression_at expression source_offset in
  into_value parsed.

Definition parse_simple_expression (expression : str) : Result SimpleExpr BodyError :=
  parse_simple_expression_at expression 0.

Definition parse_value_expression_at (expression : str) (source_offset : Z) : Result SimpleExpr BodyError :=
  let? parsed := parse_expression_at expression source_offset in
  Ok (into_expression parsed).

Definition parse_simple_condition_at (condition_text : str) (source_offset : Z) : Result SimpleCondition BodyError :=
  let? parsed :=
    parse_expression_at (trim condition_text) (saturating_u64_add source_offset (Z.of_nat (trim_offset condition_text))) in
  Ok (into_condition parsed).
