(* ===== verification/BodyParser.v ===== *)
(** * The body parser: statements

    Models [parse_simple_statements_with_debug] and the parsers of the statements of
    [crates/stasis_compiler/src/frontend/body_parser.rs].  A parser that may intern a
    type takes the type table and gives it back, also when it fails ([Tabled]).

    Offsets are [usize]s that saturate.  [slice_offset] of a trimmed slice is the offset of
    the slice and the white space before it.  The blocks and the statements that contain
    blocks call each other on shorter texts and take fuel for that; [BodyProps] shows that
    [body_fuel] is enough. *)

From S2P Require Import Prelude Lexer Identity Text Functions Hir Types BodyScan BodyExpr.
#[local] Open Scope Z_scope.

(** ** A parser that interns types *)

Definition Tabled (A : Type) : Type := TypeTable → TypeTable * Result A BodyError.

Definition tabled_bind {A B} (m : Tabled A) (k : A → Tabled B) : Tabled B :=
  λ t, match m t with
       | (t, Ok x) => k x t
       | (t, Err e) => (t, Err e)
       end.

(** A step that does not touch the table. *)
Definition lift {A} (r : Result A BodyError) : Tabled A := λ t, (t, r).

Notation "'let!' x ':=' m 'in' k" := (tabled_bind m (λ x, k))
  (at level 10, x pattern, m at level 100, k at level 200) : stasis_scope.

Definition fail {A} (message : string) (quoted : list str) : Tabled A := lift (Err (BodyErr message quoted)).

(** [a.saturating_add(n)] *)
Definition offset_add (offset : Z) (n : nat) : Z := saturating_u64_add offset (Z.of_nat n).

Definition debug_statement (base : Z) (relative : nat) (children : list DebugStatement) :
    Result DebugStatement BodyError :=
  let? source_offset := ok_or (checked_u 32 (offset_add base relative))
                              (BodyErr "statement source offset exceeds u32" []) in
  Ok (mkDebugStatement source_offset children).

(** ** Targets *)

(** The loop of [parse_assignment_target_at]. *)
Fixpoint target_loop (fuel : nat) (source : str) (source_offset : Z) (c : Chain) (next : nat) :
    Result (Chain * nat) BodyError :=
  match fuel with
  | O => Err BodyFuel
  | S fuel' =>
      let next := skip_ascii_whitespace source next in
      match source !! next with
      | None => Ok (c, next)
      | Some byte =>
          if byte =? DOT then
            match ch_nested c with
            | Some _ =>
                Err (BodyErr "field access after a second collection index is unsupported in assignment target near" [snippet_from source next])
            | None =>
                let next := skip_ascii_whitespace source (S next) in
                let? (segment, after_segment) := parse_identifier source next in
                target_loop fuel' source source_offset (chain_segment c segment) after_segment
            end
          else if byte =? LSQUARE then
            if bool_decide (is_Some (ch_index c)) && (bool_decide (is_Some (ch_nested c)) || bool_decide (ch_suffix c = []))
            then Err (BodyErr "second collection index requires one field path in assignment target near" [snippet_from source next])
            else
              let? close := ok_or (find_matching_delimiter source next LSQUARE RSQUARE)
                                  (BodyErr "missing closing ']' in assignment target near" [snippet_from source next]) in
              let index_source := text_slice source (S next) close in
              let index_text := trim index_source in
              if bool_decide (index_text = []) then Err (BodyErr "empty index expression in assignment target near" [snippet_from source next])
              else
                let? expression :=
                  parse_simple_expression_at index_text
                    (offset_add (offset_add source_offset (S next)) (trim_offset index_source)) in
                if is_negative_constant expression then Err negative_index
                else
                  let c :=
                    match ch_index c with
                    | Some _ => mkChain (ch_path c) (ch_index c) (Some expression) (ch_suffix c)
                    | None => mkChain (ch_path c) (Some expression) (ch_nested c) (ch_suffix c)
                    end in
                  target_loop fuel' source source_offset c (S close)
          else Ok (c, next)
      end
  end.

Definition chain_target (c : Chain) : AssignTarget :=
  match ch_index c with
  | Some index => IndexedPathTarget (ch_path c) index (ch_suffix c) (ch_nested c)
  | None => assign_target_from_path (ch_path c)
  end.

Definition parse_assignment_target_at (source : str) (cursor : nat) (source_offset : Z) :
    Result (AssignTarget * nat) BodyError :=
  let? (first, next) := parse_identifier source cursor in
  let? (c, next) := target_loop (S (length source)) source source_offset (mkChain first None None []) next in
  Ok (chain_target c, next).

(** ** Simple statements *)

Definition parse_let_statement_at (statement_text : str) (source_offset : Z) : Tabled SimpleStmt :=
  let! after_let := lift (ok_or (strip_prefix (string_bytes "let") statement_text)
                                (BodyErr "invalid let statement" [statement_text])) in
  let cursor := skip_ascii_whitespace after_let 0 in
  let! (name, next) := lift (parse_identifier after_let cursor) in
  let cursor := skip_ascii_whitespace after_let next in
  match after_let !! cursor with
  | Some byte =>
      if byte =? COLON then
        let cursor := skip_ascii_whitespace after_let (S cursor) in
        let! (type_name, initializer) := lift (split_type_annotation_and_initializer after_let cursor) in
        let! type_id := λ t,
          match resolve_or_intern type_name t with
          | (t, Ok id) => (t, Ok id)
          | (t, Err _) => (t, Err (BodyErr "unsupported let type" [type_name; statement_text]))
          end in
        let! expression :=
          match initializer with
          | Some (expression_text, at_) =>
              lift (parse_value_expression_at expression_text (offset_add source_offset (3 + at_)))
          | None => lift (Ok (DefaultValue type_id))
          end in
        lift (Ok (LetStmt name (Some type_id) expression))
      else if byte =? EQUALS then
        let tail := drop (S cursor) after_let in
        let expression_text := trim tail in
        if bool_decide (expression_text = []) then fail "missing expression in let statement" [statement_text]
        else
          let! expression :=
            lift (parse_value_expression_at expression_text
                    (offset_add source_offset (3 + (S cursor + trim_offset tail)))) in
          lift (Ok (LetStmt name None expression))
      else fail "invalid let statement: expected ':' type annotation or '=' inferred initializer" [statement_text]
  | None => fail "invalid let statement: expected ':' type annotation or '=' inferred initializer" [statement_text]
  end.

Definition assignment_operator (rest : str) : option (AssignOp * nat) :=
  let is_ (op : string) := starts_with (string_bytes op) rest in
  if is_ "+="%string then Some (AssignAdd, 2%nat)
  else if is_ "-="%string then Some (AssignSub, 2%nat)
  else if is_ "*="%string then Some (AssignMul, 2%nat)
  else if is_ "/="%string then Some (AssignDiv, 2%nat)
  else if is_ "%="%string then Some (AssignMod, 2%nat)
  else if is_ "="%string then Some (AssignSet, 1%nat)
  else None.

Definition parse_assignment_statement_at (statement_text : str) (source_offset : Z) : Result SimpleStmt BodyError :=
  let cursor := skip_ascii_whitespace statement_text 0 in
  let? (target, next) := parse_assignment_target_at statement_text cursor source_offset in
  let cursor := skip_ascii_whitespace statement_text next in
  let? (op, op_width) := ok_or (assignment_operator (drop cursor statement_text))
                               (BodyErr "unsupported assignment operator in statement" [statement_text]) in
  let cursor := (cursor + op_width)%nat in
  let tail := drop cursor statement_text in
  let expression_text := trim tail in
  if bool_decide (expression_text = []) then Err (BodyErr "missing expression in assignment statement" [statement_text])
  else
    let? expression := parse_value_expression_at expression_text (offset_add source_offset (cursor + trim_offset tail)) in
    Ok (Assign target op expression).

(** The first marker in the order of the code. *)
Definition conversion_marker (trimmed : str) : option (nat * string * ConversionKind) :=
  let find_ (marker : string) kind rest :=
    match find_text (string_bytes marker) trimmed with
    | Some pos => Some (pos, marker, kind)
    | None => rest
    end in
  find_ ".from_i32("%string FromI32 (find_ ".from_f32("%string FromF32 (find_ ".from_f64("%string FromF64 None)).

Definition parse_from_conversion_statement_at (statement_text : str) (source_offset : Z) :
    Result SimpleStmt BodyError :=
  let trimmed := trim statement_text in
  let trimmed_at := trim_offset statement_text in
  let? (marker_pos, marker, kind) :=
    ok_or (conversion_marker trimmed)
          (BodyErr "unsupported conversion statement: expected from_i32, from_f32, or from_f64" [statement_text]) in
  let target_source := take marker_pos trimmed in
  let target_text := trim target_source in
  if bool_decide (target_text = []) then Err (BodyErr "missing conversion target in statement" [statement_text])
  else
    let open := (marker_pos + String.length marker - 1)%nat in
    let? close := ok_or (find_matching_delimiter trimmed open LPAR RPAR)
                        (BodyErr "missing ')' in conversion statement" [statement_text]) in
    let arg_source := text_slice trimmed (S open) close in
    let arg_text := trim arg_source in
    if bool_decide (arg_text = []) then Err (BodyErr "missing source expression in conversion statement" [statement_text])
    else
      let? source :=
        parse_simple_expression_at arg_text
          (offset_add source_offset (trimmed_at + (S open + trim_offset arg_source))) in
      let method_start := offset_add (offset_add source_offset trimmed_at) (S marker_pos) in
      let method_end := offset_add method_start (String.length marker - 2) in
      let too_far := BodyErr "conversion method source span exceeds supported range" [] in
      let? first := ok_or (checked_u 32 method_start) too_far in
      let? last := ok_or (checked_u 32 method_end) too_far in
      if negb (bool_decide (trim (drop (S close) trimmed) = []))
      then Err (BodyErr "unexpected trailing tokens in conversion statement" [statement_text])
      else
        let? (target, next) :=
          parse_assignment_target_at target_text 0
            (offset_add source_offset (trimmed_at + trim_offset target_source)) in
        if negb (skip_ascii_whitespace target_text next =? length target_text)%nat
        then Err (BodyErr "unsupported conversion target in statement" [target_text; statement_text])
        else Ok (Convert target kind (first, last) source).

Definition is_call (e : SimpleExpr) : bool := match e with Call _ _ _ _ => true | _ => false end.

Definition parse_call_statement_at (statement_text : str) (source_offset : Z) : Result SimpleStmt BodyError :=
  let? expression := parse_value_expression_at statement_text source_offset in
  if is_call expression then Ok (ExprStmt expression)
  else Err (BodyErr "unsupported expression statement: expected call expression" [statement_text]).

Definition parse_return_statement_at (statement_text : str) (source_offset : Z) : Result SimpleStmt BodyError :=
  let? after_return := ok_or (strip_prefix (string_bytes "return") statement_text)
                             (BodyErr "invalid return statement" [statement_text]) in
  let expression_text := trim after_return in
  if bool_decide (expression_text = []) then Ok ReturnVoid
  else
    let? expression := parse_value_expression_at expression_text (offset_add source_offset (6 + trim_offset after_return)) in
    Ok (Return expression).

Definition parse_continue_statement (statement_text : str) : Result SimpleStmt BodyError :=
  if negb (bool_decide (trim statement_text = string_bytes "continue"))
  then Err (BodyErr "invalid continue statement: expected bare continue" [statement_text])
  else Ok Continue.

Definition looks_like_call_statement (source : str) (cursor : nat) : bool :=
  match find_statement_terminator source cursor with
  | Err _ => false
  | Ok semicolon =>
      let statement_text := trim (text_slice source cursor semicolon) in
      if bool_decide (statement_text = []) then false
      else match parse_simple_expression statement_text with Ok e => is_call e | Err _ => false end
  end.

Definition parse_for_control_segment_at (segment_text : str) (source_offset : Z) : Tabled SimpleStmt :=
  let trimmed := trim segment_text in
  let at_ := offset_add source_offset (trim_offset segment_text) in
  if bool_decide (trimmed = []) then lift (Ok Noop)
  else if starts_with_keyword trimmed 0 "let" then parse_let_statement_at trimmed at_
  else if bool_decide (is_Some (conversion_marker trimmed)) then lift (parse_from_conversion_statement_at trimmed at_)
  else if looks_like_assignment trimmed 0 then lift (parse_assignment_statement_at trimmed at_)
  else
    match parse_call_statement_at trimmed at_ with
    | Ok call_statement => lift (Ok call_statement)
    | Err _ => fail "unsupported for-loop control segment" [trimmed]
    end.

(** ** Blocks *)

(** A statement, its debug statement and the cursor after it. *)
Abbreviation Stepped := (SimpleStmt * DebugStatement * nat)%type.

(** A statement up to its semicolon, from [cursor] on. *)
Definition terminated_statement (inner : str) (inner_offset : Z) (cursor : nat)
    (parse : str → Z → Tabled SimpleStmt) : Tabled Stepped :=
  let! semicolon := lift (find_statement_terminator inner cursor) in
  let statement_source := text_slice inner cursor semicolon in
  let statement_text := trim statement_source in
  let! statement := parse statement_text (offset_add inner_offset (cursor + trim_offset statement_source)) in
  let! debug := lift (debug_statement inner_offset cursor []) in
  lift (Ok (statement, debug, S semicolon)).

(** The block that opens at [cursor], which the caller checks to be a brace. *)
Definition block_at (source : str) (cursor : nat) (context message : string) : Result (nat * nat) BodyError :=
  let? cursor := expect_byte source cursor LCURLY context in
  let body_open := (cursor - 1)%nat in
  let? body_close := ok_or (find_matching_delimiter source body_open LCURLY RCURLY) (BodyErr message []) in
  Ok (body_open, body_close).

(** The header in parentheses at [cursor]. *)
Definition header_at (source : str) (cursor : nat) (context message : string) : Result (nat * nat) BodyError :=
  let? cursor := expect_byte source cursor LPAR context in
  let header_open := (cursor - 1)%nat in
  let? header_close := ok_or (find_matching_delimiter source header_open LPAR RPAR) (BodyErr message []) in
  Ok (header_open, header_close).

(** The header of a [for]: its init, condition and step. *)
Definition parse_for_header (header : str) (header_source_offset : Z) :
    Tabled (SimpleStmt * SimpleCondition * SimpleStmt) :=
  let! (init_range, condition_range, step_range) := lift (split_for_header_ranges header) in
  let source_of (range : nat * nat) := text_slice header range.1 range.2 in
  let init_text := trim (source_of init_range) in
  let condition_text := trim (source_of condition_range) in
  let step_text := trim (source_of step_range) in
  if bool_decide (init_text = []) || bool_decide (condition_text = []) || bool_decide (step_text = [])
  then fail "for header must include init, condition, and step" [header]
  else
    let expression_offset (range : nat * nat) :=
      offset_add (offset_add header_source_offset range.1) (trim_offset (source_of range)) in
    let! init := parse_for_control_segment_at init_text (expression_offset init_range) in
    let! condition := lift (parse_simple_condition_at condition_text (expression_offset condition_range)) in
    let! step := parse_for_control_segment_at step_text (expression_offset step_range) in
    lift (Ok (init, condition, step)).

(** The header of a [foreach]: the item, the index and the collection. *)
Definition parse_foreach_header (header : str) : Result (str * option str * str) BodyError :=
  if negb (starts_with_keyword header 0 "let") then Err (BodyErr "foreach header must start with 'let'" [header])
  else
    let? header_body := ok_or (strip_prefix (string_bytes "let") header) (BodyErr "invalid foreach header" [header]) in
    let cursor := skip_ascii_whitespace header_body 0 in
    let? (first_identifier, next) := parse_identifier header_body cursor in
    let cursor := skip_ascii_whitespace header_body next in
    let? (index_name, cursor) :=
      if bool_decide (header_body !! cursor = Some COMMA) then
        let cursor := skip_ascii_whitespace header_body (S cursor) in
        let? (second_identifier, next) := parse_identifier header_body cursor in
        Ok (Some second_identifier, skip_ascii_whitespace header_body next)
      else Ok (None, cursor) in
    if negb (starts_with_keyword header_body cursor "in")
    then Err (BodyErr "foreach header must include 'in <collection>' segment" [header])
    else
      let cursor := skip_ascii_whitespace header_body (cursor + 2) in
      let? (collection_path, next) := parse_identifier_path header_body cursor in
      if negb (skip_ascii_whitespace header_body next =? length header_body)%nat
      then Err (BodyErr "unexpected trailing tokens in foreach header" [header])
      else Ok (first_identifier, index_name, collection_path).

(** The statement at [cursor] that ends with a semicolon, and that no keyword of a block
    starts. *)
Definition parse_simple_statement (inner : str) (inner_offset : Z) (cursor : nat) : Tabled Stepped :=
  if starts_with_keyword inner cursor "while"
  then fail "unsupported statement in function body near" [snippet_from inner cursor]
  else if looks_like_from_conversion_statement inner cursor then
    terminated_statement inner inner_offset cursor (λ s o, lift (parse_from_conversion_statement_at s o))
  else if looks_like_assignment inner cursor then
    terminated_statement inner inner_offset cursor (λ s o, lift (parse_assignment_statement_at s o))
  else if looks_like_call_statement inner cursor then
    terminated_statement inner inner_offset cursor (λ s o, lift (parse_call_statement_at s o))
  else fail "unsupported statement in function body near" [snippet_from inner cursor].

(** [parse_simple_statements_with_debug_at], its loop at [cursor], and the statements with
    blocks. *)
Fixpoint parse_block (fuel : nat) (block_text : str) (block_offset : Z) : Tabled ParsedSimpleStatements :=
  match fuel with
  | O => lift (Err BodyFuel)
  | S fuel' =>
      let leading := trim_offset block_text in
      let trimmed := trim block_text in
      if negb (bool_decide (head trimmed = Some LCURLY)) || negb (bool_decide (last trimmed = Some RCURLY))
      then fail "expected function body block enclosed in '{...}'" []
      else
        let inner := text_slice trimmed 1 (length trimmed - 1) in
        let! inner_offset := lift (ok_or (checked_u 64 (block_offset + Z.of_nat leading + 1))
                                         (BodyErr "statement source offset overflow" [])) in
        statements_loop fuel' inner inner_offset 0 [] []
  end
with statements_loop (fuel : nat) (inner : str) (inner_offset : Z) (cursor : nat) (statements : list SimpleStmt)
    (debug_statements : list DebugStatement) : Tabled ParsedSimpleStatements :=
  match fuel with
  | O => lift (Err BodyFuel)
  | S fuel' =>
      let cursor := skip_ascii_whitespace_and_comments inner cursor in
      if (length inner <=? cursor)%nat then lift (Ok (mkParsed statements debug_statements))
      else
        let! (statement, debug, next_cursor) := parse_statement fuel' inner inner_offset cursor in
        statements_loop fuel' inner inner_offset next_cursor (statements ++ [statement]) (debug_statements ++ [debug])
  end
with parse_statement (fuel : nat) (inner : str) (inner_offset : Z) (cursor : nat) : Tabled Stepped :=
  match fuel with
  | O => lift (Err BodyFuel)
  | S fuel' =>
      if starts_with_keyword inner cursor "let" then
        terminated_statement inner inner_offset cursor parse_let_statement_at
      else if starts_with_keyword inner cursor "return" then
        terminated_statement inner inner_offset cursor (λ s o, lift (parse_return_statement_at s o))
      else if starts_with_keyword inner cursor "continue" then
        terminated_statement inner inner_offset cursor (λ s o, lift (parse_continue_statement s))
      else if starts_with_keyword inner cursor "for" then parse_for_statement_at fuel' inner cursor inner_offset
      else if starts_with_keyword inner cursor "foreach" then parse_foreach_statement_at fuel' inner cursor inner_offset
      else if starts_with_keyword inner cursor "if" then parse_if_statement_at fuel' inner cursor inner_offset
      else parse_simple_statement inner inner_offset cursor
  end
with parse_for_statement_at (fuel : nat) (source : str) (start : nat) (source_offset : Z) : Tabled Stepped :=
  match fuel with
  | O => lift (Err BodyFuel)
  | S fuel' =>
      let cursor := skip_ascii_whitespace_and_comments source (start + 3) in
      let! (header_open, header_close) := lift (header_at source cursor "'(' after for" "missing ')' for for-header") in
      let header := text_slice source (S header_open) header_close in
      let! (init, condition, step) := parse_for_header header (offset_add source_offset (S header_open)) in
      let cursor := skip_ascii_whitespace_and_comments source (S header_close) in
      let! (body_open, body_close) := lift (block_at source cursor "'{' after for header" "missing '}' for for body") in
      let! body := parse_block fuel' (text_slice source body_open (S body_close)) (offset_add source_offset body_open) in
      let! debug := lift (debug_statement source_offset start (parsed_debug body)) in
      lift (Ok (ForStmt init condition step (parsed_statements body), debug, S body_close))
  end
with parse_foreach_statement_at (fuel : nat) (source : str) (start : nat) (source_offset : Z) : Tabled Stepped :=
  match fuel with
  | O => lift (Err BodyFuel)
  | S fuel' =>
      let cursor := skip_ascii_whitespace_and_comments source (start + 7) in
      let! (header_open, header_close) := lift (header_at source cursor "'(' after foreach" "missing ')' for foreach-header") in
      let header := trim (text_slice source (S header_open) header_close) in
      let! (item_name, index_name, collection_path) := lift (parse_foreach_header header) in
      let cursor := skip_ascii_whitespace_and_comments source (S header_close) in
      let! (body_open, body_close) := lift (block_at source cursor "'{' after foreach header" "missing '}' for foreach body") in
      let! body := parse_block fuel' (text_slice source body_open (S body_close)) (offset_add source_offset body_open) in
      let! debug := lift (debug_statement source_offset start (parsed_debug body)) in
      lift (Ok (Foreach item_name index_name collection_path (parsed_statements body), debug, S body_close))
  end
with parse_if_statement_at (fuel : nat) (source : str) (start : nat) (source_offset : Z) : Tabled Stepped :=
  match fuel with
  | O => lift (Err BodyFuel)
  | S fuel' =>
      let cursor := skip_ascii_whitespace_and_comments source (start + 2) in
      let! (condition_open, condition_close) := lift (header_at source cursor "'(' after if" "missing ')' for if condition") in
      let condition_source := text_slice source (S condition_open) condition_close in
      let condition_text := trim condition_source in
      if bool_decide (condition_text = []) then fail "if condition expression cannot be empty" []
      else
        let! condition := lift (parse_simple_condition_at condition_text
          (offset_add (offset_add source_offset (S condition_open)) (trim_offset condition_source))) in
        let cursor := skip_ascii_whitespace_and_comments source (S condition_close) in
        let! (then_open, then_close) := lift (block_at source cursor "'{' after if condition" "missing '}' for if body") in
        let! parsed_then := parse_block fuel' (text_slice source then_open (S then_close)) (offset_add source_offset then_open) in
        let! (else_statements, children, next_cursor) :=
          parse_else fuel' source (S then_close) source_offset (parsed_debug parsed_then) in
        let! debug := lift (debug_statement source_offset start children) in
        lift (Ok (IfStmt condition (parsed_statements parsed_then) else_statements, debug, next_cursor))
  end
(** The [else] of an [if], whose then part ends at [next_cursor] with the debug statements
    [children]. *)
with parse_else (fuel : nat) (source : str) (next_cursor : nat) (source_offset : Z) (children : list DebugStatement) :
    Tabled (option (list SimpleStmt) * list DebugStatement * nat) :=
  match fuel with
  | O => lift (Err BodyFuel)
  | S fuel' =>
      let else_cursor := skip_ascii_whitespace_and_comments source next_cursor in
      if negb (starts_with_keyword source else_cursor "else") then lift (Ok (None, children, next_cursor))
      else
        let cursor := skip_ascii_whitespace_and_comments source (else_cursor + 4) in
        if starts_with_keyword source cursor "if" then
          let! (else_if_statement, else_if_debug, after_else_if) := parse_if_statement_at fuel' source cursor source_offset in
          lift (Ok (Some [else_if_statement], children ++ [else_if_debug], after_else_if))
        else
          let! (else_open, else_close) := lift (block_at source cursor "'{' after else" "missing '}' for else body") in
          let! parsed_else := parse_block fuel' (text_slice source else_open (S else_close)) (offset_add source_offset else_open) in
          lift (Ok (Some (parsed_statements parsed_else), children ++ parsed_debug parsed_else, S else_close))
  end.

Definition body_fuel (block_text : str) : nat := S (S (4 * length block_text)).

Definition parse_simple_statements_with_debug (block_text : str) : Tabled ParsedSimpleStatements :=
  parse_block (body_fuel block_text) block_text 0.
