(* ===== verification/BodyScanProps.v ===== *)
(** * The body parser: what the scanners find

    The scanners agree on what is code: they look at the bytes outside strings and
    comments, [code_bytes], and find there what its definition says. *)

From S2P Require Import Prelude Lexer Identity Text Functions Hir Types BodyScan.
#[local] Open Scope Z_scope.

(** ** Bounds *)

Lemma blanks_spec rest :
  (blanks rest ≤ length rest)%nat ∧ ∀ b, rest !! blanks rest = Some b → is_ascii_whitespace b = false.
Proof.
  induction rest as [|b rest [IH1 IH2]]; [by split|]. cbn [blanks]. destruct (is_ascii_whitespace b) eqn:E; simpl.
  - split; [lia|done].
  - split; [lia|]. by intros c [= <-].
Qed.

Lemma skip_whitespace_spec source cursor :
  (cursor ≤ skip_ascii_whitespace source cursor)%nat
  ∧ ((cursor ≤ length source)%nat → (skip_ascii_whitespace source cursor ≤ length source)%nat).
Proof.
  unfold skip_ascii_whitespace. destruct (blanks_spec (drop cursor source)) as [H _]. rewrite length_drop in H. lia.
Qed.

Lemma skip_loop_spec rest : ∀ index mode,
  (index ≤ skip_loop rest index mode ≤ index + length rest)%nat
  ∧ ∀ b, rest !! (skip_loop rest index mode - index)%nat = Some b → is_ascii_whitespace b = false.
Proof.
  induction rest as [|b rest IH]; intros index mode; [simpl; split; [lia|done]|].
  assert (∀ mode, (index ≤ skip_loop rest (S index) mode ≤ index + S (length rest))%nat
    ∧ ∀ c, (b :: rest) !! (skip_loop rest (S index) mode - index)%nat = Some c → is_ascii_whitespace c = false) as Hstep.
  { intros m. destruct (IH (S index) m) as [H1 H2]. split; [lia|]. intros c.
    replace (skip_loop rest (S index) m - index)%nat with (S (skip_loop rest (S index) m - S index)) by lia. apply H2. }
  assert (is_ascii_whitespace b = false →
    (index ≤ index ≤ index + S (length rest))%nat
    ∧ ∀ c, (b :: rest) !! (index - index)%nat = Some c → is_ascii_whitespace c = false) as Hstop.
  { intros Hb. split; [lia|]. rewrite Nat.sub_diag. by intros c [= <-]. }
  cbn [skip_loop length]. destruct mode; try apply Hstep;
    (destruct (is_ascii_whitespace b) eqn:Hb; [apply Hstep|]; destruct (comment_mode b (head rest)); [apply Hstep|by apply Hstop]).
Qed.

Lemma skip_comments_spec source cursor :
  (cursor ≤ skip_ascii_whitespace_and_comments source cursor)%nat
  ∧ ((cursor ≤ length source)%nat → (skip_ascii_whitespace_and_comments source cursor ≤ length source)%nat)
  ∧ ∀ b, source !! skip_ascii_whitespace_and_comments source cursor = Some b → is_ascii_whitespace b = false.
Proof.
  unfold skip_ascii_whitespace_and_comments. destruct (skip_loop_spec (drop cursor source) cursor InCode) as [H1 H2].
  rewrite length_drop in H1. split_and!; [lia|lia|]. intros b Hb. apply H2. unfold str in *. rewrite lookup_drop.
  by replace (cursor + (skip_loop (drop cursor source) cursor InCode - cursor))%nat
    with (skip_loop (drop cursor source) cursor InCode) by lia.
Qed.

Lemma identifier_len_spec rest :
  (identifier_len rest ≤ length rest)%nat
  ∧ Forall (λ b, is_ascii_alphanumeric b || (b =? 95) = true) (take (identifier_len rest) rest).
Proof.
  induction rest as [|b rest [IH1 IH2]]; [by split|]. cbn [identifier_len].
  destruct (is_ascii_alphanumeric b || (b =? 95)) eqn:E; simpl; [|by split; [lia|]].
  split; [lia|]. by constructor.
Qed.

(** A name of the language. *)
Definition identifier (name : str) : Prop :=
  ∃ b rest, name = b :: rest ∧ is_ascii_alphabetic b || (b =? 95) = true
    ∧ Forall (λ b, is_ascii_alphanumeric b || (b =? 95) = true) rest.

Lemma parse_identifier_Ok source cursor name end_ :
  parse_identifier source cursor = Ok (name, end_) →
  (cursor < end_ ≤ length source)%nat ∧ name = text_slice source cursor end_ ∧ identifier name.
Proof.
  unfold parse_identifier. destruct (source !! cursor) as [b|] eqn:Hb; [|done].
  destruct (negb _ && negb _) eqn:E; [done|]. intros [= <- <-].
  pose proof (identifier_len_spec (drop (S cursor) source)) as [Hl Hf]. rewrite length_drop in Hl.
  pose proof (lookup_lt_Some _ _ _ Hb) as Hlt. split_and!; [lia|lia|done|].
  exists b, (take (identifier_len (drop (S cursor) source)) (drop (S cursor) source)). split_and!; [|by revert E; destruct (is_ascii_alphabetic b), (b =? 95)|done].
  unfold text_slice. rewrite (drop_S _ _ _ Hb).
  by replace (S (cursor + identifier_len (drop (S cursor) source)) - cursor)%nat
    with (S (identifier_len (drop (S cursor) source))) by lia.
Qed.

Lemma expect_byte_Ok source cursor b context next :
  expect_byte source cursor b context = Ok next → next = S cursor ∧ source !! cursor = Some b.
Proof. unfold expect_byte. case_bool_decide; [|done]. by intros [= <-]. Qed.

Lemma length_string_bytes s : length (string_bytes s) = String.length s.
Proof. unfold string_bytes. rewrite length_fmap. induction s; simpl; congruence. Qed.

Lemma keyword_spec source cursor keyword :
  starts_with_keyword source cursor keyword = true →
  take (String.length keyword) (drop cursor source) = string_bytes keyword.
Proof.
  unfold starts_with_keyword, starts_with. intros [H _]%andb_true_iff. apply bool_decide_eq_true in H.
  by rewrite length_string_bytes in H.
Qed.

(** ** Code *)

(** The bytes of [rest] outside strings and comments, with their indexes. *)
Fixpoint code_bytes (rest : str) (index : nat) (mode : ScanMode) : list (nat * Z) :=
  match rest with
  | [] => []
  | b :: rest' =>
      match skipped mode b (head rest') with
      | Some mode => code_bytes rest' (S index) mode
      | None => (index, b) :: code_bytes rest' (S index) InCode
      end
  end.

Lemma code_bytes_lookup rest : ∀ index mode i b,
  (i, b) ∈ code_bytes rest index mode → (index ≤ i)%nat ∧ rest !! (i - index)%nat = Some b.
Proof.
  induction rest as [|c rest IH]; intros index mode i b; cbn [code_bytes]; [by intros ?%elem_of_nil|].
  assert (∀ m, (i, b) ∈ code_bytes rest (S index) m → (index ≤ i)%nat ∧ (c :: rest) !! (i - index)%nat = Some b) as Hs.
  { intros m Hin. apply IH in Hin as [H1 H2]. split; [lia|].
    by replace (i - index)%nat with (S (i - S index)) by lia. }
  destruct (skipped mode c (head rest)); [apply Hs|]. rewrite elem_of_cons. intros [[= -> ->]|Hin]; [|by eapply Hs].
  split; [lia|]. by rewrite Nat.sub_diag.
Qed.

(** [opens - closes] among some bytes of code. *)
Definition balance (open close : Z) (code : list (nat * Z)) : Z :=
  foldr (λ e acc, acc + (if e.2 =? open then 1 else if e.2 =? close then -1 else 0)) 0 code.

Lemma balance_cons open close e code :
  balance open close (e :: code)
  = balance open close code + (if e.2 =? open then 1 else if e.2 =? close then -1 else 0).
Proof. done. Qed.

Lemma balance_app open close c1 c2 :
  balance open close (c1 ++ c2) = balance open close c1 + balance open close c2.
Proof. induction c1 as [|e c1 IH]; [simpl; lia|]. cbn [app]. rewrite !balance_cons, IH. lia. Qed.

(** [i] is where the code first comes back to balance. *)
Definition matches (open close : Z) (code : list (nat * Z)) (depth : Z) (i : nat) : Prop :=
  ∃ before after, code = before ++ (i, close) :: after
    ∧ depth + balance open close before = 1
    ∧ ∀ b1 j after', before = b1 ++ (j, close) :: after' → depth + balance open close b1 ≠ 1.

Lemma matching_loop_spec open close rest :
  open ≠ close → ∀ index mode depth i,
  matching_loop open close rest index mode depth = Some i
  ↔ matches open close (code_bytes rest index mode) depth i.
Proof.
  intros Hne. induction rest as [|b rest IH]; intros index mode depth i; cbn [matching_loop code_bytes].
  { split; [done|]. intros (before & after & E & _). by destruct before. }
  destruct (skipped mode b (head rest)); [apply IH|].
  assert (∀ d, d = depth + (if b =? open then 1 else if b =? close then -1 else 0) → (b = close → depth ≠ 1) →
    matching_loop open close rest (S index) InCode d = Some i
    ↔ matches open close ((index, b) :: code_bytes rest (S index) InCode) depth i) as Hnext.
  { intros d Hd Hcl. rewrite IH. split.
    - intros (before & after & E & Hb & Hmin). exists ((index, b) :: before), after. rewrite E.
      split_and!; [done|rewrite balance_cons; cbn [snd]; lia|]. intros b1 j after' E'.
      destruct b1 as [|e b1]; [injection E' as ? <- ?; simpl; specialize (Hcl eq_refl); lia|].
      injection E' as <- E'. rewrite balance_cons. cbn [snd]. specialize (Hmin _ _ _ E'). lia.
    - intros (before & after & E & Hb & Hmin). destruct before as [|e before].
      + injection E as ? -> ?. simpl in Hb. specialize (Hcl eq_refl). lia.
      + injection E as <- E. rewrite balance_cons in Hb. cbn [snd] in Hb. exists before, after.
        split_and!; [done|lia|]. intros b1 j after' E'. specialize (Hmin ((index, b) :: b1) j after').
        rewrite balance_cons in Hmin. cbn [snd app] in Hmin. rewrite E' in Hmin. specialize (Hmin eq_refl). lia. }
  destruct (Z.eqb_spec b open) as [->|Hbo].
  { apply Hnext; [lia|]. by intros ->. }
  destruct (Z.eqb_spec b close) as [->|Hbc].
  - destruct (Z.eqb_spec (depth - 1) 0) as [Hd|Hd].
    + split.
      * intros [= <-]. exists [], (code_bytes rest (S index) InCode). split_and!; [done|simpl; lia|].
        intros b1 j after' E. by destruct b1.
      * intros (before & after & E & Hb & Hmin). destruct before as [|e before]; [by injection E as ->|].
        injection E as <- E. exfalso. apply (Hmin [] index before); [done|]. simpl. lia.
    + apply Hnext; [lia|]. intros _. lia.
  - apply Hnext; [lia|done].
Qed.

Lemma find_matching_spec source o open close i :
  open ≠ close →
  find_matching_delimiter source o open close = Some i
  ↔ source !! o = Some open ∧ matches open close (code_bytes (drop o source) o InCode) 0 i.
Proof.
  intros Hne. unfold find_matching_delimiter. case_bool_decide as Ho; cbn [negb]; [|by split; [|intros [? _]]].
  rewrite matching_loop_spec by done. tauto.
Qed.

Lemma find_matching_bounds source o open close i :
  open ≠ close → find_matching_delimiter source o open close = Some i →
  (o < i < length source)%nat ∧ source !! o = Some open ∧ source !! i = Some close.
Proof.
  intros Hne H. apply find_matching_spec in H as [Ho (before & after & E & _)]; [|done].
  assert ((i, close) ∈ code_bytes (drop o source) o InCode) as Hin by (rewrite E; set_solver).
  apply code_bytes_lookup in Hin as [Hle Hi]. unfold str in *. rewrite lookup_drop in Hi.
  replace (o + (i - o))%nat with i in Hi by lia. split_and!; [|by eapply lookup_lt_Some|done..].
  destruct (decide (o = i)) as [->|]; [congruence|lia].
Qed.

(** ** The end of a statement *)

(** [i] is the first semicolon of the code outside all brackets, whose depths are given. *)
Definition terminates (code : list (nat * Z)) (paren brace bracket : Z) (i : nat) : Prop :=
  let outside before :=
    paren + balance LPAR RPAR before = 0 ∧ brace + balance LCURLY RCURLY before = 0
    ∧ bracket + balance LSQUARE RSQUARE before = 0 in
  ∃ before after, code = before ++ (i, SEMI) :: after ∧ outside before
    ∧ ∀ b1 j after', before = b1 ++ (j, SEMI) :: after' → ¬ outside b1.

Lemma terminates_cons index b code p c k i :
  ¬ (b = SEMI ∧ p = 0 ∧ c = 0 ∧ k = 0) →
  terminates ((index, b) :: code) p c k i
  ↔ terminates code (p + balance LPAR RPAR [(index, b)]) (c + balance LCURLY RCURLY [(index, b)])
      (k + balance LSQUARE RSQUARE [(index, b)]) i.
Proof.
  intros Hn. unfold terminates. split.
  - intros (before & after & E & (Hp & Hc & Hk) & Hmin). destruct before as [|e before].
    { injection E as ? -> ?. simpl in *. exfalso. apply Hn. split_and!; (done || lia). }
    injection E as <- E. change ((index, b) :: before) with ([(index, b)] ++ before) in Hp, Hc, Hk.
    rewrite balance_app in Hp, Hc, Hk. exists before, after. split_and!; [done|lia..|].
    intros b1 j after' E' (H1 & H2 & H3). apply (Hmin ([(index, b)] ++ b1) j after'); [by rewrite E'|].
    rewrite !balance_app. lia.
  - intros (before & after & -> & (Hp & Hc & Hk) & Hmin). exists ([(index, b)] ++ before), after.
    rewrite !balance_app. split_and!; [done|lia..|]. intros b1 j after' E'. destruct b1 as [|e b1].
    + injection E' as ? -> ?. simpl. intros (? & ? & ?). apply Hn. split_and!; (done || lia).
    + injection E' as <- E'. change ((index, b) :: b1) with ([(index, b)] ++ b1). rewrite !balance_app.
      intros (? & ? & ?). apply (Hmin _ _ _ E'). lia.
Qed.

Lemma terminator_loop_spec rest : ∀ index mode p c k i,
  terminator_loop rest index mode p c k = Ok i ↔ terminates (code_bytes rest index mode) p c k i.
Proof.
  induction rest as [|b rest IH]; intros index mode p c k i; cbn [terminator_loop code_bytes].
  { split; [done|]. intros (before & after & E & _). by destruct before. }
  destruct (skipped mode b (head rest)); [apply IH|].
  destruct ((b =? SEMI) && (p =? 0) && (c =? 0) && (k =? 0)) eqn:E.
  - assert (b = SEMI ∧ p = 0 ∧ c = 0 ∧ k = 0) as (-> & -> & -> & ->) by (to_props; done).
    cbn [Z.eqb Pos.eqb LPAR RPAR LCURLY RCURLY LSQUARE RSQUARE SEMI]. split.
    + intros [= <-]. exists [], (code_bytes rest (S index) InCode). split_and!; [done..|]. intros b1 j after' E'. by destruct b1.
    + intros (before & after & E1 & _ & Hmin). destruct before as [|e before]; [by injection E1 as ->|].
      injection E1 as <- E1. exfalso. by apply (Hmin [] index before).
  - rewrite terminates_cons by (intros (-> & -> & -> & ->); done).
    unfold balance. cbn [foldr snd].
    destruct (Z.eqb_spec b LPAR) as [->|]; [rewrite IH; cbn; by rewrite !Z.add_0_r|].
    destruct (Z.eqb_spec b RPAR) as [->|]; [rewrite IH; cbn; by rewrite !Z.add_0_r|].
    destruct (Z.eqb_spec b LCURLY) as [->|]; [rewrite IH; cbn; by rewrite !Z.add_0_r|].
    destruct (Z.eqb_spec b RCURLY) as [->|]; [rewrite IH; cbn; by rewrite !Z.add_0_r|].
    destruct (Z.eqb_spec b LSQUARE) as [->|]; [rewrite IH; cbn; by rewrite !Z.add_0_r|].
    destruct (Z.eqb_spec b RSQUARE) as [->|]; [rewrite IH; cbn; by rewrite !Z.add_0_r|].
    rewrite IH. by rewrite !Z.add_0_r.
Qed.

Lemma find_terminator_spec source start i :
  find_statement_terminator source start = Ok i
  ↔ terminates (code_bytes (drop start source) start InCode) 0 0 0 i.
Proof.
  unfold find_statement_terminator. rewrite <- terminator_loop_spec.
  destruct (terminator_loop _ _ _ _ _ _); simpl; split; congruence.
Qed.

Lemma find_terminator_bounds source start i :
  find_statement_terminator source start = Ok i → (start ≤ i < length source)%nat ∧ source !! i = Some SEMI.
Proof.
  intros H. apply find_terminator_spec in H as (before & after & E & _).
  assert ((i, SEMI) ∈ code_bytes (drop start source) start InCode) as Hin by (rewrite E; set_solver).
  apply code_bytes_lookup in Hin as [Hle Hi]. unfold str in *. rewrite lookup_drop in Hi.
  replace (start + (i - start))%nat with i in Hi by lia. split; [|done]. apply lookup_lt_Some in Hi. lia.
Qed.

(** ** What code is *)

(** The inside of a string literal. *)
Inductive literal : str → Prop :=
| lit_nil : literal []
| lit_escape b lit : literal lit → literal (BACKSLASH :: b :: lit)
| lit_byte b lit : b ≠ BACKSLASH → b ≠ QUOTE → literal lit → literal (b :: lit).

(** No mark in [c] closes a block comment. *)
Definition unclosed (c : str) : Prop := ∀ pre post, c ≠ pre ++ [STAR; SLASH] ++ post.

(** The code of a text that starts at an index: the bytes outside its strings and comments.
    A string or a comment may be open at the end of the text. *)
Inductive code_of : str → nat → list (nat * Z) → Prop :=
| code_end index : code_of [] index []
| code_byte b rest index code :
    b ≠ QUOTE → ¬ (b = SLASH ∧ (head rest = Some SLASH ∨ head rest = Some STAR)) →
    code_of rest (S index) code → code_of (b :: rest) index ((index, b) :: code)
| code_string lit rest index code :
    literal lit → code_of rest (index + length lit + 2) code → code_of (QUOTE :: lit ++ QUOTE :: rest) index code
| code_open_string lit tail index :
    literal lit → tail = [] ∨ tail = [BACKSLASH] → code_of (QUOTE :: lit ++ tail) index []
| code_line c rest index code :
    NEWLINE ∉ c → code_of rest (index + length c + 3) code → code_of (SLASH :: SLASH :: c ++ NEWLINE :: rest) index code
| code_open_line c index : NEWLINE ∉ c → code_of (SLASH :: SLASH :: c) index []
| code_block c rest index code :
    unclosed c → code_of rest (index + length c + 4) code →
    code_of (SLASH :: STAR :: c ++ STAR :: SLASH :: rest) index code
| code_open_block c index : unclosed c → code_of (SLASH :: STAR :: c) index [].

Lemma code_literal lit rest : literal lit → ∀ index,
  code_bytes (lit ++ rest) index (InString false) = code_bytes rest (index + length lit) (InString false).
Proof.
  intros Hl. induction Hl as [|b lit _ IH|b lit Hb Hq _ IH]; intros index; [by rewrite Nat.add_0_r| |].
  - cbn [app code_bytes skipped length]. change (BACKSLASH =? BACKSLASH) with true. cbn [code_bytes skipped]. rewrite IH. f_equal. lia.
  - cbn [app code_bytes skipped length]. rewrite (proj2 (Z.eqb_neq b BACKSLASH)), (proj2 (Z.eqb_neq b QUOTE)) by done.
    rewrite IH. f_equal. lia.
Qed.

Lemma code_in_line c rest : NEWLINE ∉ c → ∀ index,
  code_bytes (c ++ rest) index InLine = code_bytes rest (index + length c) InLine.
Proof.
  induction c as [|b c IH]; intros Hc index; [by rewrite Nat.add_0_r|]. rewrite not_elem_of_cons in Hc. destruct Hc as [Hb Hc].
  cbn [app code_bytes skipped length]. rewrite (proj2 (Z.eqb_neq b NEWLINE)) by done. rewrite IH by done. f_equal. lia.
Qed.

Lemma unclosed_cons b c : unclosed (b :: c) → unclosed c ∧ (b = STAR → head c ≠ Some SLASH).
Proof.
  intros H. split; [intros pre post ->; by apply (H (b :: pre) post)|].
  intros -> Hc. destruct c as [|d c]; [done|]. injection Hc as ->. by apply (H [] c).
Qed.

Lemma code_in_block c rest : unclosed c → head rest ≠ Some SLASH → ∀ index,
  code_bytes (c ++ rest) index InBlock = code_bytes rest (index + length c) InBlock.
Proof.
  intros Hc Hr. induction c as [|b c IH]; intros index; [by rewrite Nat.add_0_r|]. apply unclosed_cons in Hc as [Hc Hb].
  cbn [app code_bytes skipped length]. destruct (Z.eqb_spec b STAR) as [Heq|]; cbn [andb].
  - rewrite bool_decide_eq_false_2; [rewrite IH by done; f_equal; lia|].
    specialize (Hb Heq). by destruct c.
  - rewrite IH by done. f_equal. lia.
Qed.

Lemma code_skip mode m b rest index :
  skipped mode b (head rest) = Some m → code_bytes (b :: rest) index mode = code_bytes rest (S index) m.
Proof. cbn [code_bytes]. by intros ->. Qed.

Lemma code_of_bytes s index code : code_of s index code → code_bytes s index InCode = code.
Proof.
  intros H. induction H as [|b rest index code Hq Hc _ IH|lit rest index code Hl _ IH|lit tail index Hl Ht
    |c rest index code Hc _ IH|c index Hc|c rest index code Hc _ IH|c index Hc]; [done|..].
  - cbn [code_bytes skipped]. assert (comment_mode b (head rest) = None) as ->.
    { unfold comment_mode. destruct (Z.eqb_spec b SLASH); [|done]. cbn [andb]. rewrite !bool_decide_eq_false_2; [done|..]; tauto. }
    rewrite (proj2 (Z.eqb_neq b QUOTE)) by done. by rewrite IH.
  - rewrite (code_skip _ (InString false)) by done. rewrite code_literal by done. rewrite (code_skip _ InCode) by done.
    rewrite <- IH. f_equal. lia.
  - rewrite (code_skip _ (InString false)) by done. rewrite code_literal by done. by destruct Ht as [-> | ->].
  - rewrite (code_skip _ InLine), (code_skip _ InLine) by done. rewrite code_in_line by done. rewrite (code_skip _ InCode) by done.
    rewrite <- IH. f_equal. lia.
  - rewrite (code_skip _ InLine), (code_skip _ InLine) by done. rewrite <- (app_nil_r c). by rewrite code_in_line.
  - rewrite (code_skip _ InOpen), (code_skip _ InBlock) by done. rewrite code_in_block by done.
    rewrite (code_skip _ InClose), (code_skip _ InCode) by done. rewrite <- IH. f_equal. lia.
  - rewrite (code_skip _ InOpen), (code_skip _ InBlock) by done. rewrite <- (app_nil_r c). by rewrite code_in_block.
Qed.

Lemma literal_split s : ∃ lit tail, s = lit ++ tail ∧ literal lit ∧ (tail = [] ∨ tail = [BACKSLASH] ∨ ∃ rest, tail = QUOTE :: rest).
Proof.
  induction s as [s IH] using (induction_ltof1 _ length). destruct s as [|b s]; [exists [], []; split_and!; [done|constructor|by left]|].
  destruct (decide (b = QUOTE)) as [->|Hq]; [exists [], (QUOTE :: s); split_and!; [done|constructor|by eauto]|].
  destruct (decide (b = BACKSLASH)) as [->|Hb].
  - destruct s as [|e s]; [exists [], [BACKSLASH]; split_and!; [done|constructor|by auto]|].
    destruct (IH s) as (lit & tail & -> & Hl & Ht); [unfold ltof; simpl; lia|].
    exists (BACKSLASH :: e :: lit), tail. split_and!; [done|by constructor|done].
  - destruct (IH s) as (lit & tail & -> & Hl & Ht); [unfold ltof; simpl; lia|].
    exists (b :: lit), tail. split_and!; [done|by constructor|done].
Qed.

Lemma line_split s : NEWLINE ∉ s ∨ ∃ c rest, s = c ++ NEWLINE :: rest ∧ NEWLINE ∉ c.
Proof.
  destruct (decide (NEWLINE ∈ s)) as [Hin|]; [right|by left]. apply list_elem_of_split_l in Hin as (c & rest & -> & Hc). by exists c, rest.
Qed.

Lemma block_split s : unclosed s ∨ ∃ c rest, s = c ++ STAR :: SLASH :: rest ∧ unclosed c.
Proof.
  induction s as [|b s IH]; [left; by intros [|? [|? ?]] post|].
  destruct (decide (b = STAR ∧ head s = Some SLASH)) as [[-> Hs]|Hn].
  { right. destruct s as [|d s]; [done|]. injection Hs as ->. exists [], s. split; [done|]. by intros [|? [|? ?]] post. }
  assert (∀ c, unclosed c → (head c = Some SLASH → head s = Some SLASH) → unclosed (b :: c)) as Hcons.
  { intros c Hc Hh [|e pre] post E; [injection E as -> ->; apply Hn; split; [done|by apply Hh]|]. injection E as -> ->. by eapply Hc. }
  destruct IH as [Hs|(c & rest & -> & Hc)]; [left; by apply Hcons|]. right. exists (b :: c), rest. split; [done|].
  apply Hcons; [done|]. by destruct c.
Qed.

Lemma code_of_total s : ∀ index, ∃ code, code_of s index code.
Proof.
  induction s as [s IH] using (induction_ltof1 _ length). intros index. destruct s as [|b s]; [eexists; constructor|].
  destruct (decide (b = QUOTE)) as [->|Hq].
  { destruct (literal_split s) as (lit & tail & -> & Hl & Ht). destruct Ht as [->|[->|[rest ->]]];
      [eexists; apply code_open_string; by auto..|].
    destruct (IH rest) with (index := (index + length lit + 2)%nat) as [code Hc]; [unfold ltof; simpl; rewrite length_app; simpl; lia|].
    exists code. by constructor. }
  destruct (decide (b = SLASH ∧ head s = Some SLASH)) as [[-> Hs]|Hl].
  { destruct s as [|d s]; [done|]. injection Hs as ->. destruct (line_split s) as [Hs|(c & rest & -> & Hc)]; [by eexists; constructor|].
    destruct (IH rest) with (index := (index + length c + 3)%nat) as [code Hcode]; [unfold ltof; simpl; rewrite length_app; simpl; lia|].
    exists code. by constructor. }
  destruct (decide (b = SLASH ∧ head s = Some STAR)) as [[-> Hs]|Hb].
  { destruct s as [|d s]; [done|]. injection Hs as ->. destruct (block_split s) as [Hs|(c & rest & -> & Hc)]; [by eexists; constructor|].
    destruct (IH rest) with (index := (index + length c + 4)%nat) as [code Hcode]; [unfold ltof; simpl; rewrite length_app; simpl; lia|].
    exists code. by constructor. }
  destruct (IH s) with (index := S index) as [code Hc]; [unfold ltof; simpl; lia|]. exists ((index, b) :: code).
  constructor; [done|tauto|done].
Qed.

(** The scanners of delimiters and of statements find what they look for in the code.
    [find_matching_delimiter] answers exactly the first place outside strings and comments
    where the brackets that are opened from [open_index] on are all closed;
    [find_statement_terminator] answers exactly the first semicolon outside strings,
    comments and brackets of the three kinds.  Both fail only when there is no such place.
    Every text has one division into code, strings and comments. *)
Theorem scanners_exact source :
  (∀ open_index open close code i, open ≠ close → code_of (drop open_index source) open_index code →
     find_matching_delimiter source open_index open close = Some i
     ↔ source !! open_index = Some open ∧ matches open close code 0 i)
  ∧ (∀ start code i, code_of (drop start source) start code →
       find_statement_terminator source start = Ok i ↔ terminates code 0 0 0 i)
  ∧ ∀ start, ∃ code, code_of (drop start source) start code ∧ ∀ code', code_of (drop start source) start code' → code' = code.
Proof.
  split_and!.
  - intros o open close code i Hne <-%code_of_bytes. by apply find_matching_spec.
  - intros start code i <-%code_of_bytes. apply find_terminator_spec.
  - intros start. destruct (code_of_total (drop start source) start) as [code Hc]. exists code. split; [done|].
    intros code' <-%code_of_bytes. by apply code_of_bytes.
Qed.

(** ** Witness *)

(** [f(")", 1) ;]: the parenthesis in the string does not close the call. *)
Definition sample_call : str := string_bytes "f(" ++ [QUOTE; RPAR; QUOTE] ++ string_bytes ", 1) ;".

Lemma scanners_exact_witness :
  (∃ code, code_of (drop 1 sample_call) 1 code ∧ matches LPAR RPAR code 0 8)
  ∧ ∃ code, code_of (drop 0 sample_call) 0 code ∧ terminates code 0 0 0 10.
Proof.
  destruct (scanners_exact sample_call) as (Hm & Ht & Hcode). split.
  - destruct (Hcode 1%nat) as (code & Hc & _). exists code. split; [done|].
    apply (Hm 1%nat LPAR RPAR code 8%nat); [done|done|by vm_compute].
  - destruct (Hcode 0%nat) as (code & Hc & _). exists code. split; [done|].
    apply (Ht 0%nat code 10%nat); [done|by vm_compute].
Defined.
