(* ===== verification/BodyExprProps.v ===== *)
(** * The body parser: expressions are their grammar

    The parser of expressions always answers, and accepts exactly the token lists that the
    grammar [derives], with the expression it gives.  Operators bind by their precedence,
    to the left; the prefix operators bind more than all of them. *)

From S2P Require Import Prelude Lexer Identity Text Functions Hir Types BodyScan BodyExpr.
#[local] Open Scope Z_scope.

(** ** The grammar *)

Definition infix_token (t : ExprToken) (operator : InfixOperator) : Prop :=
  peek_infix_operator [t] = Some (operator, infix_precedence operator).

Definition not_bool (name : str) : Prop := name ≠ string_bytes "true" ∧ name ≠ string_bytes "false".

(** [derives n ts p]: [ts] is the expression [p], whose operators outside brackets have
    precedence [n] at least; the prefix operators and the rest have 110.  [arguments ts as]:
    the arguments of a call, with the closing parenthesis.  [path c ts c']: what follows the
    path [c] makes it the path [c']. *)
Inductive derives : Z → list ExprToken → ParsedExpression → Prop :=
| d_int value : derives 110 [TInt value] (PValue (Int value))
| d_float bits : derives 110 [TFloat bits] (PValue (Float bits))
| d_string text : derives 110 [TString text] (PValue (StringLiteral text))
| d_true span : derives 110 [TIdentifier (string_bytes "true") span] (PValue (Bool true))
| d_false span : derives 110 [TIdentifier (string_bytes "false") span] (PValue (Bool false))
| d_call name span ts args :
    not_bool name → arguments ts args →
    derives 110 (TIdentifier name span :: TLParen :: ts) (PValue (Call name args (Some span) None))
| d_path name span ts c :
    not_bool name → path (mkChain name None None []) ts c →
    derives 110 (TIdentifier name span :: ts) (PValue (chain_expr c))
| d_method name span ts c method mspan tas args :
    not_bool name → path (mkChain name None None []) ts c → ch_nested c = None → arguments tas args →
    derives 110 (TIdentifier name span :: ts ++ TDot :: TIdentifier method mspan :: TLParen :: tas)
      (PValue (Call method (chain_expr c :: args) (Some mspan) None))
| d_negate ts p e :
    derives 110 ts p → into_value p = Ok e → derives 110 (TOperator Subtract :: ts) (PValue (Unary Negate e))
| d_plus ts p : derives 110 ts p → derives 110 (TOperator Add :: ts) p
| d_bitwise_not ts p e :
    derives 110 ts p → into_value p = Ok e → derives 110 (TBitwiseNot :: ts) (PValue (Unary BitwiseNot e))
| d_not ts p : derives 110 ts p → derives 110 (TLogicalNot :: ts) (PCondition (CondNot (into_condition p)))
| d_paren ts p : derives 0 ts p → derives 110 (TLParen :: ts ++ [TRParen]) p
| d_lower n m ts p : derives n ts p → m ≤ n → derives m ts p
| d_infix l t r operator p1 p2 p :
    infix_token t operator → derives (infix_precedence operator) l p1 →
    derives (infix_precedence operator + 1) r p2 → combine operator p1 p2 = Ok p →
    derives (infix_precedence operator) (l ++ t :: r) p
with arguments : list ExprToken → list SimpleExpr → Prop :=
| a_none : arguments [TRParen] []
| a_some ts args : argument_list ts args → arguments ts args
with argument_list : list ExprToken → list SimpleExpr → Prop :=
| al_last ts p : derives 0 ts p → argument_list (ts ++ [TRParen]) [into_expression p]
| al_more ts p ts' args :
    derives 0 ts p → argument_list ts' args → argument_list (ts ++ TComma :: ts') (into_expression p :: args)
with path : Chain → list ExprToken → Chain → Prop :=
| p_end c : path c [] c
| p_segment c segment span ts c' :
    ch_nested c = None → path (chain_segment c segment) ts c' →
    path c (TDot :: TIdentifier segment span :: ts) c'
| p_index c ts p e c1 ts' c' :
    derives 0 ts p → into_value p = Ok e → is_negative_constant e = false → chain_index c e = Ok c1 →
    path c1 ts' c' → path c (TLBracket :: ts ++ TRBracket :: ts') c'.

Scheme derives_ind' := Minimality for derives Sort Prop
  with arguments_ind' := Minimality for arguments Sort Prop
  with argument_list_ind' := Minimality for argument_list Sort Prop
  with path_ind' := Minimality for path Sort Prop.
Combined Scheme derives_mutind from derives_ind', arguments_ind', argument_list_ind', path_ind'.

(** ** Operators *)

Lemma infix_precedence_range operator : 20 ≤ infix_precedence operator ≤ 100.
Proof. destruct operator as [[]|[]| |]; cbn; lia. Qed.

Lemma peek_precedence ts operator n :
  peek_infix_operator ts = Some (operator, n) →
  n = infix_precedence operator ∧ ∃ t, ts = t :: tail ts ∧ infix_token t operator.
Proof.
  destruct ts as [|t ts]; [done|]. destruct t; try done; intros [= <- <-]; (split; [done|]); eexists; done.
Qed.

Lemma peek_infix t operator ts :
  infix_token t operator → peek_infix_operator (t :: ts) = Some (operator, infix_precedence operator).
Proof. unfold infix_token. by destruct t. Qed.

(** ** The parser answers *)

(** It does not run out of fuel, and leaves fewer than [n] tokens. *)
Definition answers {A} (n : nat) (r : Parsed A) : Prop :=
  match r with Ok (_, rest) => (length rest < n)%nat | Err e => e ≠ BodyFuel end.

Lemma answers_le {A} n m (r : Parsed A) : answers n r → (n ≤ m)%nat → answers m r.
Proof. destruct r as [[x rest]|e]; simpl; [lia|done]. Qed.

Lemma answers_bind {A B} n m (r : Parsed A) (k : A → list ExprToken → Parsed B) :
  answers n r → (∀ x rest, (length rest < n)%nat → answers m (k x rest)) →
  answers m (let? (x, rest) := r in k x rest).
Proof. destruct r as [[x rest]|e]; simpl; auto. Qed.

Lemma answers_step {A B} m (r : Result A BodyError) (k : A → Parsed B) :
  r ≠ Err BodyFuel → (∀ x, r = Ok x → answers m (k x)) → answers m (let? x := r in k x).
Proof. destruct r as [x|e]; simpl; [auto|]. intros H _ ->. by apply H. Qed.

Lemma generic_no_fuel ts : generic_arguments_end ts ≠ Err BodyFuel.
Proof.
  assert (∀ ts d h, generic_loop ts d h ≠ Err BodyFuel) as Hl.
  { intros us. induction us as [|u us IH]; intros d h; [done|]. cbn [generic_loop].
    repeat case_match; first [apply IH|done]. }
  unfold generic_arguments_end. destruct ts as [|[] [|[] ts]]; done.
Qed.

Lemma bind_no_fuel {A B} (r : Result A BodyError) (k : A → Result B BodyError) :
  r ≠ Err BodyFuel → (∀ x, k x ≠ Err BodyFuel) → result_bind r k ≠ Err BodyFuel.
Proof. destruct r as [x|e]; simpl; auto. congruence. Qed.

Lemma consume_no_fuel ts : consume_explicit_generic_arguments ts ≠ Err BodyFuel.
Proof. destruct ts as [|[] ts]; try done. apply bind_no_fuel; [apply generic_no_fuel|done]. Qed.

Lemma is_method_no_fuel ts : is_method ts ≠ Err BodyFuel.
Proof. apply bind_no_fuel; [|done]. destruct ts as [|[] ts]; try done. apply generic_no_fuel. Qed.

(** The tokens after a name, without explicit generic arguments. *)
Definition plain_rest (ts : list ExprToken) : Prop := head ts ≠ Some TColonColon.

Lemma consume_Ok ts : consume_explicit_generic_arguments ts = Ok tt ↔ plain_rest ts.
Proof.
  unfold consume_explicit_generic_arguments, plain_rest. destruct ts as [|[] ts]; try done. cbn [head].
  destruct (generic_arguments_end (TColonColon :: ts)); by split.
Qed.

Lemma combine_no_fuel operator p1 p2 : combine operator p1 p2 ≠ Err BodyFuel.
Proof.
  unfold combine. destruct operator as [op| | |]; try done. destruct (requires_integer_operands op); [done|].
  by destruct p1, p2.
Qed.

Lemma into_value_no_fuel p : into_value p ≠ Err BodyFuel.
Proof. by destruct p. Qed.

Lemma chain_index_no_fuel c e : chain_index c e ≠ Err BodyFuel.
Proof. unfold chain_index. by repeat case_match. Qed.

(** Goes into the steps of a parser that answers. *)
Ltac step_answers :=
  repeat first
    [ apply answers_step; [first [apply combine_no_fuel|apply into_value_no_fuel|apply consume_no_fuel|apply is_method_no_fuel|apply chain_index_no_fuel]|intros ? ?]
    | progress cbn [length] in * ].

Lemma expression_parser_answers fuel :
  (∀ m ts, (4 * length ts + 2 ≤ fuel)%nat → answers (length ts) (parse_precedence fuel m ts)) ∧
  (∀ m p ts, (4 * length ts + 1 ≤ fuel)%nat → answers (S (length ts)) (infix_loop fuel m p ts)) ∧
  (∀ ts, (4 * length ts + 1 ≤ fuel)%nat → answers (length ts) (parse_primary fuel ts)) ∧
  (∀ message args ts, (4 * length ts + 4 ≤ fuel)%nat → answers (length ts) (call_arguments fuel message args ts)) ∧
  (∀ message args ts, (4 * length ts + 3 ≤ fuel)%nat → answers (length ts) (argument_loop fuel message args ts)) ∧
  (∀ c ts, (4 * length ts + 1 ≤ fuel)%nat → answers (S (length ts)) (access_loop fuel c ts)).
Proof.
  induction fuel as [|fuel (IHprec & IHloop & IHprim & IHargs & IHarg & IHpath)]; [split_and!; intros; lia|].
  split_and!.
  - intros m ts Hf. cbn [parse_precedence]. eapply answers_bind; [apply IHprim; lia|]. intros p rest Hr.
    eapply answers_le; [apply IHloop; lia|lia].
  - intros m p ts Hf. cbn [infix_loop]. destruct ts as [|t ts]; [simpl; lia|]. cbn [tail length] in *.
    destruct (peek_infix_operator (t :: ts)) as [[operator n]|]; [|simpl; lia].
    destruct (n <? m); [simpl; lia|].
    eapply answers_bind; [apply IHprec; lia|]. intros rhs rest Hr. step_answers.
    eapply answers_le; [apply IHloop; lia|lia].
  - intros ts Hf. cbn [parse_primary]. destruct ts as [|t ts]; [done|]. cbn [length] in *.
    assert (∀ (k : ParsedExpression → list ExprToken → Parsed ParsedExpression) m,
      (∀ p rest, (length rest < length ts)%nat → answers (S (length ts)) (k p rest)) →
      answers (S (length ts)) (let? (p, rest) := parse_precedence fuel m ts in k p rest)) as Hprec.
    { intros k m Hk. eapply answers_bind; [apply IHprec; lia|]. exact Hk. }
    destruct t; try done; try (simpl; lia).
    + case_bool_decide; [simpl; lia|]. case_bool_decide; [simpl; lia|]. step_answers.
      assert (answers (S (length ts)) (let? (e, rest) := access_loop fuel (mkChain name None None []) ts in Ok (PValue e, rest))) as Hp.
      { eapply answers_bind; [apply IHpath; lia|]. intros e rest Hr. simpl. lia. }
      destruct ts as [|[] ts]; try exact Hp. cbn [length] in *.
      eapply answers_bind; [apply IHargs; lia|]. intros args rest Hr. simpl. lia.
    + destruct op; try done.
      * eapply answers_le; [apply IHprec; lia|lia].
      * apply Hprec. intros p rest Hr. step_answers. simpl. lia.
    + apply Hprec. intros p rest Hr. simpl. lia.
    + apply Hprec. intros p rest Hr. step_answers. simpl. lia.
    + apply Hprec. intros p rest Hr. destruct rest as [|[] rest]; try done. simpl in *. lia.
  - intros message args ts Hf. cbn [call_arguments].
    destruct ts as [|[] ts]; try (apply IHarg; lia). simpl. lia.
  - intros message args ts Hf. cbn [argument_loop]. eapply answers_bind; [apply IHprec; lia|]. intros arg rest Hr.
    destruct rest as [|[] rest]; try done; cbn [length] in *; [|simpl; lia].
    eapply answers_le; [apply IHarg; lia|lia].
  - intros c ts Hf. cbn [access_loop].
    destruct ts as [|t ts]; [simpl; lia|]. destruct t; try (simpl; lia); cbn [length] in *.
    + destruct (ch_nested c); [done|]. destruct ts as [|[] after]; try done. cbn [length] in *. step_answers.
      destruct (negb _) eqn:Eb; [eapply answers_le; [apply IHpath; lia|lia]|]. step_answers.
      assert (length (tail after) ≤ length after)%nat by (destruct after; simpl; lia).
      eapply answers_bind; [apply IHargs; lia|]. intros args rest Hr. simpl. lia.
    + eapply answers_bind; [apply IHprec; lia|]. intros index rest Hr. step_answers.
      destruct (is_negative_constant _); [done|]. destruct rest as [|[] rest]; try done. cbn [length] in *. step_answers.
      eapply answers_le; [apply IHpath; lia|lia].
Qed.

(** ** More fuel does not change an answer *)

Lemma parsed_Ok {A B} (r : Parsed A) (k : A → list ExprToken → Parsed B) y :
  (let? (x, rest) := r in k x rest) = Ok y ↔ ∃ x rest, r = Ok (x, rest) ∧ k x rest = Ok y.
Proof.
  destruct r as [[x rest]|e]; simpl; split.
  - by eauto.
  - by intros (? & ? & [= <- <-] & ?).
  - done.
  - by intros (? & ? & ? & _).
Qed.

Lemma step_Ok {A B} (r : Result A BodyError) (k : A → Result B BodyError) y :
  (let? x := r in k x) = Ok y ↔ ∃ x, r = Ok x ∧ k x = Ok y.
Proof. destruct r as [x|e]; simpl; split; [by eauto|by intros (? & [= <-] & ?)|done|by intros (? & ? & _)]. Qed.

(** Takes the steps of a parser that succeeded apart. *)
Ltac inv_parse H :=
  repeat match type of H with
  | (let? (_, _) := _ in _) = Ok _ =>
      let x := fresh "x" in let rest := fresh "rest" in let Hx := fresh "Hx" in
      apply parsed_Ok in H as (x & rest & Hx & H)
  | (let? _ := _ in _) = Ok _ =>
      let x := fresh "x" in let Hx := fresh "Hx" in apply step_Ok in H as (x & Hx & H)
  end.

(** A result that is not a lack of fuel. *)
Definition settled {A} (r : Result A BodyError) : Prop := r ≠ Err BodyFuel.

Lemma bind_mono {A B} (r r' : Result A BodyError) (k k' : A → Result B BodyError) :
  (settled r → r' = r) → (∀ x, r = Ok x → settled (k x) → k' x = k x) →
  settled (result_bind r k) → result_bind r' k' = result_bind r k.
Proof.
  intros Hr Hk Hs. destruct r as [x|e]; simpl in *; [rewrite Hr by done; simpl; by apply Hk|].
  rewrite Hr; [done|]. by intros [= ->].
Qed.

Section mono.
Context (fuel fuel' : nat).
Context (IHprec : ∀ m ts, settled (parse_precedence fuel m ts) → parse_precedence fuel' m ts = parse_precedence fuel m ts).
Context (IHloop : ∀ m p ts, settled (infix_loop fuel m p ts) → infix_loop fuel' m p ts = infix_loop fuel m p ts).
Context (IHprim : ∀ ts, settled (parse_primary fuel ts) → parse_primary fuel' ts = parse_primary fuel ts).
Context (IHargs : ∀ message args ts, settled (call_arguments fuel message args ts) →
  call_arguments fuel' message args ts = call_arguments fuel message args ts).
Context (IHarg : ∀ message args ts, settled (argument_loop fuel message args ts) →
  argument_loop fuel' message args ts = argument_loop fuel message args ts).
Context (IHpath : ∀ c ts, settled (access_loop fuel c ts) → access_loop fuel' c ts = access_loop fuel c ts).

(** Goes into the steps of a parser, with the calls that settle. *)
Ltac more_fuel :=
  repeat first
    [ done
    | apply IHprec | apply IHloop | apply IHprim | apply IHargs | apply IHarg | apply IHpath
    | apply bind_mono; [|intros [? ?] _|assumption]
    | apply bind_mono; [|intros ? _|assumption]
    | progress intros ?
    | match goal with |- context [match ?x with _ => _ end] => is_var x; destruct x end
    | match goal with |- context [if negb ?x then _ else _] => is_var x; destruct x; cbn [negb] in * end ].

Lemma mono_precedence m ts :
  settled (parse_precedence (S fuel) m ts) → parse_precedence (S fuel') m ts = parse_precedence (S fuel) m ts.
Proof. cbn [parse_precedence]. more_fuel. Qed.

Lemma mono_infix m p ts :
  settled (infix_loop (S fuel) m p ts) → infix_loop (S fuel') m p ts = infix_loop (S fuel) m p ts.
Proof.
  cbn [infix_loop]. destruct (peek_infix_operator ts) as [[operator n]|]; [|done]. destruct (n <? m); [done|]. more_fuel.
Qed.

Lemma mono_primary ts :
  settled (parse_primary (S fuel) ts) → parse_primary (S fuel') ts = parse_primary (S fuel) ts.
Proof.
  cbn [parse_primary]. destruct ts as [|t ts]; [done|]. destruct t; try done; [|destruct op; try done; more_fuel|more_fuel..].
  case_bool_decide; [done|]. case_bool_decide; [done|]. more_fuel.
Qed.

Lemma mono_arguments message args ts :
  settled (call_arguments (S fuel) message args ts) → call_arguments (S fuel') message args ts = call_arguments (S fuel) message args ts.
Proof. cbn [call_arguments]. destruct ts as [|[] ts]; more_fuel. Qed.

Lemma mono_argument message args ts :
  settled (argument_loop (S fuel) message args ts) → argument_loop (S fuel') message args ts = argument_loop (S fuel) message args ts.
Proof. cbn [argument_loop]. more_fuel. Qed.

Lemma mono_access c ts :
  settled (access_loop (S fuel) c ts) → access_loop (S fuel') c ts = access_loop (S fuel) c ts.
Proof.
  cbn [access_loop]. destruct ts as [|t ts]; [done|]. destruct t; try done.
  - destruct (ch_nested c); [done|]. destruct ts as [|[] after]; more_fuel.
  - intros Hs. apply bind_mono; [by apply IHprec|intros [index rest] _|done]. clear Hs. intros Hs.
    apply bind_mono; [done|intros e _|done]. clear Hs. destruct (is_negative_constant e); [done|]. more_fuel.
Qed.
End mono.

Lemma expression_parser_mono fuel : ∀ fuel', (fuel ≤ fuel')%nat →
  (∀ m ts, settled (parse_precedence fuel m ts) → parse_precedence fuel' m ts = parse_precedence fuel m ts) ∧
  (∀ m p ts, settled (infix_loop fuel m p ts) → infix_loop fuel' m p ts = infix_loop fuel m p ts) ∧
  (∀ ts, settled (parse_primary fuel ts) → parse_primary fuel' ts = parse_primary fuel ts) ∧
  (∀ message args ts, settled (call_arguments fuel message args ts) →
     call_arguments fuel' message args ts = call_arguments fuel message args ts) ∧
  (∀ message args ts, settled (argument_loop fuel message args ts) →
     argument_loop fuel' message args ts = argument_loop fuel message args ts) ∧
  (∀ c ts, settled (access_loop fuel c ts) → access_loop fuel' c ts = access_loop fuel c ts).
Proof.
  induction fuel as [|fuel IH]; [by intros; split_and!; intros * []|]. intros [|fuel'] Hle; [lia|].
  destruct (IH fuel') as (? & ? & ? & ? & ? & ?); [lia|].
  split_and!; intros *; [by apply mono_precedence|by apply mono_infix|by apply mono_primary|by apply mono_arguments|by apply mono_argument|by apply mono_access].
Qed.

(** ** Soundness *)

(** The next token, if it is an operator, has precedence below [n]. *)
Definition next_below (n : Z) (ts : list ExprToken) : Prop :=
  ∀ operator m, peek_infix_operator ts = Some (operator, m) → m < n.

(** What the loop of a path reads: a path, or a path and the call of a method. *)
Inductive accesses (c : Chain) : list ExprToken → SimpleExpr → Prop :=
| ac_path ts c' : path c ts c' → accesses c ts (chain_expr c')
| ac_method ts c' method mspan tas args :
    path c ts c' → ch_nested c' = None → arguments tas args →
    accesses c (ts ++ TDot :: TIdentifier method mspan :: TLParen :: tas)
      (Call method (chain_expr c' :: args) (Some mspan) None).

Lemma accesses_segment c segment span ts e :
  ch_nested c = None → accesses (chain_segment c segment) ts e → accesses c (TDot :: TIdentifier segment span :: ts) e.
Proof.
  intros Hn [us c' Hp|us c' method mspan tas args Hp Hn' Ha].
  - apply ac_path. by apply p_segment.
  - rewrite !app_comm_cons. apply ac_method; [by apply p_segment|done..].
Qed.

Lemma accesses_index c ts p e c1 us e' :
  derives 0 ts p → into_value p = Ok e → is_negative_constant e = false → chain_index c e = Ok c1 →
  accesses c1 us e' → accesses c (TLBracket :: ts ++ TRBracket :: us) e'.
Proof.
  intros Hd Hv Hn Hc [vs c' Hp|vs c' method mspan tas args Hp Hn' Ha].
  - apply ac_path. by eapply p_index.
  - assert (∀ ws, TLBracket :: ts ++ TRBracket :: vs ++ ws = (TLBracket :: ts ++ TRBracket :: vs) ++ ws) as ->
      by (intros ws; simpl; by rewrite <- app_assoc).
    apply ac_method; [by eapply p_index|done..].
Qed.

Lemma derives_accesses name span ts e :
  not_bool name → accesses (mkChain name None None []) ts e → derives 110 (TIdentifier name span :: ts) (PValue e).
Proof. intros Hn [us c Hp|us c method mspan tas args Hp Hn' Ha]; [by apply d_path|by apply d_method]. Qed.

Lemma is_method_true after : is_method after = Ok true → plain_rest after → ∃ rest, after = TLParen :: rest.
Proof. unfold is_method, plain_rest. intros H Hp. destruct after as [|[] after]; try done. by exists after. Qed.

Section sound.
Context (fuel : nat).
Context (IHprec : ∀ m ts p rest, 0 ≤ m ≤ 110 → parse_precedence fuel m ts = Ok (p, rest) →
  ∃ used, ts = used ++ rest ∧ derives m used p ∧ next_below m rest).
Context (IHloop : ∀ m k before p1 ts p rest, 0 ≤ m ≤ k → derives k before p1 → next_below (k + 1) ts →
  infix_loop fuel m p1 ts = Ok (p, rest) → ∃ used, ts = used ++ rest ∧ derives m (before ++ used) p ∧ next_below m rest).
Context (IHprim : ∀ ts p rest, parse_primary fuel ts = Ok (p, rest) → ∃ used, ts = used ++ rest ∧ derives 110 used p).
Context (IHargs : ∀ message args ts args' rest, call_arguments fuel message args ts = Ok (args', rest) →
  ∃ used new, ts = used ++ rest ∧ args' = args ++ new ∧ arguments used new).
Context (IHarg : ∀ message args ts args' rest, argument_loop fuel message args ts = Ok (args', rest) →
  ∃ used new, ts = used ++ rest ∧ args' = args ++ new ∧ argument_list used new).
Context (IHpath : ∀ c ts e rest, access_loop fuel c ts = Ok (e, rest) → ∃ used, ts = used ++ rest ∧ accesses c used e).

Lemma sound_precedence m ts p rest :
  0 ≤ m ≤ 110 → parse_precedence (S fuel) m ts = Ok (p, rest) →
  ∃ used, ts = used ++ rest ∧ derives m used p ∧ next_below m rest.
Proof.
  intros Hm. cbn [parse_precedence]. intros H. inv_parse H. apply IHprim in Hx as (used1 & -> & Hd1).
  apply (IHloop m 110 used1) in H as (used & -> & Hd & Hn); [|lia|done|].
  - exists (used1 ++ used). by rewrite app_assoc.
  - intros operator n [-> _]%peek_precedence. pose proof (infix_precedence_range operator). lia.
Qed.

Lemma sound_infix m k before p1 ts p rest :
  0 ≤ m ≤ k → derives k before p1 → next_below (k + 1) ts → infix_loop (S fuel) m p1 ts = Ok (p, rest) →
  ∃ used, ts = used ++ rest ∧ derives m (before ++ used) p ∧ next_below m rest.
Proof.
  intros Hm Hd Hk. cbn [infix_loop]. intros H. destruct (peek_infix_operator ts) as [[operator n]|] eqn:E.
  2:{ injection H as <- <-. exists []. rewrite app_nil_r. split_and!; [done|eapply d_lower; [done|lia]|].
      intros operator n. congruence. }
  specialize (Hk _ _ E). pose proof (peek_precedence _ _ _ E) as (-> & t & Et & Ht).
  destruct (Z.ltb_spec (infix_precedence operator) m) as [Hlt|Hge].
  { injection H as <- <-. exists []. rewrite app_nil_r. split_and!; [done|eapply d_lower; [done|lia]|].
    intros operator' n'. rewrite E. intros [= <- <-]. done. }
  inv_parse H. pose proof (infix_precedence_range operator).
  apply IHprec in Hx as (used2 & Ets & Hd2 & Hn2); [|lia].
  apply (IHloop m (infix_precedence operator) (before ++ t :: used2)) in H as (used & -> & Hd' & Hn'); [|lia| |done].
  - exists (t :: used2 ++ used). split_and!; [|by rewrite <- app_assoc in Hd'|done].
    by rewrite Et, Ets, <- app_comm_cons, <- app_assoc.
  - eapply d_infix; [done| |exact Hd2|exact Hx0]. eapply d_lower; [done|lia].
Qed.

Lemma sound_primary ts p rest : parse_primary (S fuel) ts = Ok (p, rest) → ∃ used, ts = used ++ rest ∧ derives 110 used p.
Proof.
  cbn [parse_primary]. destruct ts as [|t ts]; [done|]. intros H.
  assert (∀ p', derives 110 [t] p' → Ok (p', ts) = @Ok _ BodyError (p, rest) → ∃ used, t :: ts = used ++ rest ∧ derives 110 used p) as Hone
    by (intros p' Hd [= <- <-]; by exists [t]).
  destruct t; try done; try (eapply Hone; [|exact H]; constructor).
  - case_bool_decide as Ht; [subst; eapply Hone; [|exact H]; constructor|].
    case_bool_decide as Hf; [subst; eapply Hone; [|exact H]; constructor|].
    inv_parse H. destruct x. rewrite consume_Ok in Hx.
    assert ((let? (e, rest) := access_loop fuel (mkChain name None None []) ts in Ok (PValue e, rest)) = Ok (p, rest) →
      ∃ used, TIdentifier name source_span :: ts = used ++ rest ∧ derives 110 used p) as Hpath.
    { intros H'. inv_parse H'. injection H' as <- <-. apply IHpath in Hx0 as (used & -> & Ha).
      exists (TIdentifier name source_span :: used). split; [done|]. by apply derives_accesses. }
    destruct ts as [|[] ts]; try (by apply Hpath). inv_parse H. injection H as <- <-.
    apply IHargs in Hx0 as (used & new & -> & -> & Ha). exists (TIdentifier name source_span :: TLParen :: used).
    split; [done|]. by apply d_call.
  - destruct op; try done.
    + apply IHprec in H as (used & -> & Hd & _); [|lia]. exists (TOperator Add :: used). split; [done|]. by apply d_plus.
    + inv_parse H. injection H as <- <-. apply IHprec in Hx as (used & -> & Hd & _); [|lia].
      exists (TOperator Subtract :: used). split; [done|]. by eapply d_negate.
  - inv_parse H. injection H as <- <-. apply IHprec in Hx as (used & -> & Hd & _); [|lia].
    exists (TLogicalNot :: used). split; [done|]. by eapply d_not.
  - inv_parse H. injection H as <- <-. apply IHprec in Hx as (used & -> & Hd & _); [|lia].
    exists (TBitwiseNot :: used). split; [done|]. by eapply d_bitwise_not.
  - inv_parse H. apply IHprec in Hx as (used & -> & Hd & _); [|lia].
    destruct rest0 as [|[] rest0]; try done. injection H as <- <-.
    exists (TLParen :: used ++ [TRParen]). split; [by rewrite <- app_comm_cons, <- app_assoc|]. by apply d_paren.
Qed.

Lemma sound_arguments message args ts args' rest :
  call_arguments (S fuel) message args ts = Ok (args', rest) →
  ∃ used new, ts = used ++ rest ∧ args' = args ++ new ∧ arguments used new.
Proof.
  cbn [call_arguments]. intros H.
  assert (argument_loop fuel message args ts = Ok (args', rest) →
    ∃ used new, ts = used ++ rest ∧ args' = args ++ new ∧ arguments used new) as Hloop.
  { intros (used & new & -> & -> & Ha)%IHarg. exists used, new. split_and!; [done..|]. by apply a_some. }
  destruct ts as [|[] ts]; try (by apply Hloop). injection H as <- <-. exists [TRParen], []. rewrite app_nil_r.
  split_and!; [done..|constructor].
Qed.

Lemma sound_argument message args ts args' rest :
  argument_loop (S fuel) message args ts = Ok (args', rest) →
  ∃ used new, ts = used ++ rest ∧ args' = args ++ new ∧ argument_list used new.
Proof.
  cbn [argument_loop]. intros H. inv_parse H. apply IHprec in Hx as (used & -> & Hd & _); [|lia].
  destruct rest0 as [|[] rest0]; try done.
  - apply IHarg in H as (used' & new & -> & -> & Ha). exists (used ++ TComma :: used'), (into_expression x :: new).
    rewrite <- !app_assoc. split_and!; [done..|]. by apply al_more.
  - injection H as <- <-. exists (used ++ [TRParen]), [into_expression x]. rewrite <- app_assoc.
    split_and!; [done..|]. by apply al_last.
Qed.

Lemma sound_access c ts e rest :
  access_loop (S fuel) c ts = Ok (e, rest) → ∃ used, ts = used ++ rest ∧ accesses c used e.
Proof.
  cbn [access_loop]. intros H.
  assert (Ok (chain_expr c, ts) = @Ok _ BodyError (e, rest) → ∃ used, ts = used ++ rest ∧ accesses c used e) as Hend.
  { intros [= <- <-]. exists []. split; [done|]. apply ac_path. constructor. }
  destruct ts as [|t ts]; [by apply Hend|]. destruct t; try (by apply Hend).
  - destruct (ch_nested c) eqn:En; [done|]. destruct ts as [|[] after]; try done. inv_parse H.
    destruct x; cbn [negb] in H.
    + inv_parse H. injection H as <- <-. destruct x. rewrite consume_Ok in Hx0.
      destruct (is_method_true _ Hx Hx0) as [us ->]. cbn [tail] in Hx1.
      apply IHargs in Hx1 as (used & new & -> & -> & Ha).
      exists ([] ++ TDot :: TIdentifier name source_span :: TLParen :: used). split; [done|].
      apply (ac_method c [] c); [constructor|done..].
    + apply IHpath in H as (used & -> & Ha). exists (TDot :: TIdentifier name source_span :: used).
      split; [done|]. by apply accesses_segment.
  - inv_parse H. apply IHprec in Hx as (used & -> & Hd & _); [|lia].
    destruct (is_negative_constant x0) eqn:En; [done|]. destruct rest0 as [|[] rest0]; try done. inv_parse H.
    apply IHpath in H as (used' & -> & Ha). exists (TLBracket :: used ++ TRBracket :: used').
    split; [by rewrite <- app_comm_cons, <- app_assoc|]. by eapply accesses_index.
Qed.
End sound.

Lemma expression_parser_sound fuel :
  (∀ m ts p rest, 0 ≤ m ≤ 110 → parse_precedence fuel m ts = Ok (p, rest) →
     ∃ used, ts = used ++ rest ∧ derives m used p ∧ next_below m rest) ∧
  (∀ m k before p1 ts p rest, 0 ≤ m ≤ k → derives k before p1 → next_below (k + 1) ts →
     infix_loop fuel m p1 ts = Ok (p, rest) → ∃ used, ts = used ++ rest ∧ derives m (before ++ used) p ∧ next_below m rest) ∧
  (∀ ts p rest, parse_primary fuel ts = Ok (p, rest) → ∃ used, ts = used ++ rest ∧ derives 110 used p) ∧
  (∀ message args ts args' rest, call_arguments fuel message args ts = Ok (args', rest) →
     ∃ used new, ts = used ++ rest ∧ args' = args ++ new ∧ arguments used new) ∧
  (∀ message args ts args' rest, argument_loop fuel message args ts = Ok (args', rest) →
     ∃ used new, ts = used ++ rest ∧ args' = args ++ new ∧ argument_list used new) ∧
  (∀ c ts e rest, access_loop fuel c ts = Ok (e, rest) → ∃ used, ts = used ++ rest ∧ accesses c used e).
Proof.
  induction fuel as [|fuel (? & ? & ? & ? & ? & ?)]; [by split_and!|].
  split_and!; intros *; [by apply sound_precedence|by apply sound_infix|by apply sound_primary|by apply sound_arguments|by apply sound_argument|by apply sound_access].
Qed.

(** ** Completeness *)

(** Some fuel gives the answer. *)
Definition prec_gives m ts r : Prop := ∃ fuel, parse_precedence fuel m ts = Ok r.
Definition loop_gives m p ts r : Prop := ∃ fuel, infix_loop fuel m p ts = Ok r.
Definition prim_gives ts r : Prop := ∃ fuel, parse_primary fuel ts = Ok r.
Definition args_gives message args ts r : Prop := ∃ fuel, call_arguments fuel message args ts = Ok r.
Definition arg_gives message args ts r : Prop := ∃ fuel, argument_loop fuel message args ts = Ok r.
Definition access_gives c ts r : Prop := ∃ fuel, access_loop fuel c ts = Ok r.

Lemma prec_more f g m ts r : parse_precedence f m ts = Ok r → (f ≤ g)%nat → parse_precedence g m ts = Ok r.
Proof. intros H Hle. rewrite <- H. apply (proj1 (expression_parser_mono f g Hle)). by rewrite H. Qed.
Lemma loop_more f g m p ts r : infix_loop f m p ts = Ok r → (f ≤ g)%nat → infix_loop g m p ts = Ok r.
Proof. intros H Hle. rewrite <- H. apply (proj1 (proj2 (expression_parser_mono f g Hle))). by rewrite H. Qed.
Lemma args_more f g s args ts r : call_arguments f s args ts = Ok r → (f ≤ g)%nat → call_arguments g s args ts = Ok r.
Proof. intros H Hle. destruct (expression_parser_mono f g Hle) as (_ & _ & _ & Hm & _). rewrite <- H. apply Hm. by rewrite H. Qed.
Lemma arg_more f g s args ts r : argument_loop f s args ts = Ok r → (f ≤ g)%nat → argument_loop g s args ts = Ok r.
Proof. intros H Hle. destruct (expression_parser_mono f g Hle) as (_ & _ & _ & _ & Hm & _). rewrite <- H. apply Hm. by rewrite H. Qed.
Lemma access_more f g c ts r : access_loop f c ts = Ok r → (f ≤ g)%nat → access_loop g c ts = Ok r.
Proof. intros H Hle. destruct (expression_parser_mono f g Hle) as (_ & _ & _ & _ & _ & Hm). rewrite <- H. apply Hm. by rewrite H. Qed.
Lemma prim_more f g ts r : parse_primary f ts = Ok r → (f ≤ g)%nat → parse_primary g ts = Ok r.
Proof. intros H Hle. destruct (expression_parser_mono f g Hle) as (_ & _ & Hm & _). rewrite <- H. apply Hm. by rewrite H. Qed.

Lemma prec_intro m ts p ts1 r : prim_gives ts (p, ts1) → loop_gives m p ts1 r → prec_gives m ts r.
Proof.
  intros [f1 E1] [f2 E2]. exists (S (max f1 f2)). cbn [parse_precedence].
  rewrite (prim_more f1 _ _ _ E1) by lia. cbn [result_bind]. apply (loop_more f2); [done|lia].
Qed.

Lemma loop_stop m p ts : next_below m ts → loop_gives m p ts (p, ts).
Proof.
  intros Hn. exists 1%nat. cbn [infix_loop]. destruct (peek_infix_operator ts) as [[operator n]|] eqn:E; [|done].
  by rewrite (proj2 (Z.ltb_lt _ _) (Hn _ _ E)).
Qed.

Lemma loop_take m p1 operator t ts p2 ts2 p r :
  infix_token t operator → m ≤ infix_precedence operator →
  prec_gives (infix_precedence operator + 1) ts (p2, ts2) → combine operator p1 p2 = Ok p → loop_gives m p ts2 r →
  loop_gives m p1 (t :: ts) r.
Proof.
  intros Ht Hm [f1 E1] Hc [f2 E2]. exists (S (max f1 f2)). cbn [infix_loop]. rewrite (peek_infix _ _ ts Ht).
  rewrite (proj2 (Z.ltb_ge _ _) Hm). cbn [tail]. rewrite (prec_more f1 _ _ _ _ E1) by lia. cbn [result_bind].
  rewrite Hc. cbn [result_bind]. apply (loop_more f2); [done|lia].
Qed.

(** What the loop takes at a level it takes at a lower one. *)
Lemma loop_lower fuel n m p1 ts p ts1 r :
  m ≤ n → infix_loop fuel n p1 ts = Ok (p, ts1) → loop_gives m p ts1 r → loop_gives m p1 ts r.
Proof.
  intros Hm. revert p1 ts. induction fuel as [|fuel IH]; intros p1 ts E Hr; [done|]. cbn [infix_loop] in E.
  destruct (peek_infix_operator ts) as [[operator k]|] eqn:Eop; [|by injection E as -> ->].
  apply peek_precedence in Eop as (-> & t & Et & Ht). destruct (Z.ltb_spec (infix_precedence operator) n); [by injection E as -> ->|].
  inv_parse E. rewrite Et. eapply loop_take; [done|lia|by eexists|done|]. by apply IH.
Qed.

Lemma prec_lower n m ts p ts1 r : m ≤ n → prec_gives n ts (p, ts1) → loop_gives m p ts1 r → prec_gives m ts r.
Proof.
  intros Hm [[|fuel] E] Hr; [done|]. cbn [parse_precedence] in E. inv_parse E.
  eapply prec_intro; [by eexists|]. by eapply loop_lower.
Qed.

(** The token after an expression does not continue a path or a call. *)
Definition follow (ts : list ExprToken) : Prop :=
  match ts with TDot :: _ | TLBracket :: _ | TLParen :: _ | TColonColon :: _ => False | _ => True end.
Definition no_call (ts : list ExprToken) : Prop := match ts with TLParen :: _ | TColonColon :: _ => False | _ => True end.

Lemma follow_no_call ts : follow ts → no_call ts.
Proof. by destruct ts as [|[] ts]. Qed.

Lemma infix_follow t operator ts : infix_token t operator → follow (t :: ts).
Proof. unfold infix_token. by destruct t. Qed.

Lemma no_call_plain ts : no_call ts → plain_rest ts.
Proof. by destruct ts as [|[] ts]. Qed.

Lemma no_call_method ts : no_call ts → is_method ts = Ok false.
Proof. by destruct ts as [|[] ts]. Qed.

Lemma path_head c ts c' rest : path c ts c' → no_call rest → no_call (ts ++ rest).
Proof. by intros []. Qed.

Lemma derives_head n ts p : derives n ts p → ∃ t ts', ts = t :: ts' ∧ t ≠ TRParen.
Proof.
  induction 1; try by eexists _, _.
  - done.
  - destruct IHderives1 as (t' & ts' & -> & ?). by eexists _, _.
Qed.

Lemma expression_derives_level n ts p : derives n ts p → n ≤ 110.
Proof. induction 1; lia. Qed.

Lemma access_stop c rest : follow rest → access_gives c rest (chain_expr c, rest).
Proof. intros Hf. exists 1%nat. cbn [access_loop]. by destruct rest as [|[] rest]. Qed.

Lemma access_method c method mspan ts args rest :
  ch_nested c = None → args_gives "expected ')' after receiver call arguments" [chain_expr c] ts (args, rest) →
  access_gives c (TDot :: TIdentifier method mspan :: TLParen :: ts) (Call method args (Some mspan) None, rest).
Proof.
  intros Hn [f E]. exists (S f). cbn [access_loop]. rewrite Hn. cbn [is_method result_bind negb consume_explicit_generic_arguments tail].
  by rewrite E.
Qed.

Lemma prim_path name span ts e rest :
  not_bool name → no_call ts → access_gives (mkChain name None None []) ts (e, rest) →
  prim_gives (TIdentifier name span :: ts) (PValue e, rest).
Proof.
  intros [Ht Hf] Hn [f E]. exists (S f). cbn [parse_primary]. rewrite !bool_decide_eq_false_2 by done.
  rewrite (proj2 (consume_Ok ts)) by by apply no_call_plain. cbn [result_bind]. rewrite E. by destruct ts as [|[] ts].
Qed.

Lemma prim_wrap (op : ExprToken) (wrap_ : ParsedExpression → Result ParsedExpression BodyError) ts p p' rest :
  (∀ fuel, parse_primary (S fuel) (op :: ts) = (let? (p, rest) := parse_precedence fuel 110 ts in let? p := wrap_ p in Ok (p, rest))) →
  prec_gives 110 ts (p, rest) → wrap_ p = Ok p' → prim_gives (op :: ts) (p', rest).
Proof. intros Hp [f E] Hw. exists (S f). rewrite Hp, E. cbn [result_bind]. by rewrite Hw. Qed.

Definition complete_derives (n : Z) (ts : list ExprToken) (p : ParsedExpression) : Prop :=
  (n = 110 → ∀ rest, follow rest → prim_gives (ts ++ rest) (p, rest))
  ∧ ∀ rest r, follow rest → next_below (n + 1) rest → loop_gives n p rest r → prec_gives n (ts ++ rest) r.
Definition complete_arguments (ts : list ExprToken) (args : list SimpleExpr) : Prop :=
  ∀ message args0 rest, args_gives message args0 (ts ++ rest) (args0 ++ args, rest).
Definition complete_list (ts : list ExprToken) (args : list SimpleExpr) : Prop :=
  ∀ message args0 rest, arg_gives message args0 (ts ++ rest) (args0 ++ args, rest).
Definition complete_path (c : Chain) (ts : list ExprToken) (c' : Chain) : Prop :=
  ∀ rest r, no_call rest → access_gives c' rest r → access_gives c (ts ++ rest) r.

Lemma complete_atom ts p : (∀ rest, follow rest → prim_gives (ts ++ rest) (p, rest)) → complete_derives 110 ts p.
Proof. intros H. split; [done|]. intros rest r Hf _ Hr. eapply prec_intro; [by apply H|done]. Qed.

Lemma below_110 rest : next_below 110 rest.
Proof. intros operator n [-> _]%peek_precedence. pose proof (infix_precedence_range operator). lia. Qed.

(** A complete expression before a token that ends it. *)
Lemma complete_closed n ts p rest :
  complete_derives n ts p → follow rest → peek_infix_operator rest = None → prec_gives n (ts ++ rest) (p, rest).
Proof. intros [_ H] Hf Hp. apply H; [done| |apply loop_stop]; intros operator m; congruence. Qed.

Lemma complete_prefix ts p rest : complete_derives 110 ts p → follow rest → prec_gives 110 (ts ++ rest) (p, rest).
Proof.
  intros [_ H] Hf. apply H; [done| |apply loop_stop, below_110]. intros operator n Hp. pose proof (below_110 _ _ _ Hp). lia.
Qed.

Lemma complete_infix l t r operator p1 p2 p :
  infix_token t operator → complete_derives (infix_precedence operator) l p1 →
  complete_derives (infix_precedence operator + 1) r p2 → combine operator p1 p2 = Ok p →
  complete_derives (infix_precedence operator) (l ++ t :: r) p.
Proof.
  intros Ht [_ H1] [_ H2] Hc. pose proof (infix_precedence_range operator). split; [lia|]. intros rest q Hf Hn Hq.
  rewrite <- app_assoc. cbn [app]. apply H1; [by eapply infix_follow| |].
  - intros operator' n. rewrite (peek_infix _ _ (r ++ rest) Ht). intros [= <- <-]. lia.
  - eapply loop_take; [done|lia| |done|exact Hq].
    apply H2; [done| |by apply loop_stop]. intros operator' n Hp. specialize (Hn _ _ Hp). lia.
Qed.

Lemma complete_lower n m ts p : complete_derives n ts p → n ≤ 110 → m ≤ n → complete_derives m ts p.
Proof.
  intros [Hp H] Hn Hm. split; [intros ->; apply Hp; lia|]. intros rest r Hf Hb Hr.
  destruct (decide (m = n)) as [->|Hne]; [by apply H|].
  assert (next_below n rest) as Hbn by (intros operator k Hk; specialize (Hb _ _ Hk); lia).
  eapply prec_lower; [exact Hm| |exact Hr].
  apply H; [done| |by apply loop_stop]. intros operator k Hk. specialize (Hbn _ _ Hk). lia.
Qed.

Lemma complete_call name span ts args :
  not_bool name → complete_arguments ts args →
  complete_derives 110 (TIdentifier name span :: TLParen :: ts) (PValue (Call name args (Some span) None)).
Proof.
  intros [Ht Hf] Ha. apply complete_atom. intros rest _. destruct (Ha "expected ')' after call arguments"%string [] rest) as [f E].
  exists (S f). cbn [app parse_primary]. rewrite !bool_decide_eq_false_2 by done.
  cbn [consume_explicit_generic_arguments result_bind]. by rewrite E.
Qed.

Lemma complete_index c ts p e c1 ts' c' :
  complete_derives 0 ts p → into_value p = Ok e → is_negative_constant e = false → chain_index c e = Ok c1 →
  complete_path c1 ts' c' → complete_path c (TLBracket :: ts ++ TRBracket :: ts') c'.
Proof.
  intros Hd Hv Hn Hc Hp rest r Hr Ha. rewrite <- app_comm_cons, <- app_assoc. cbn [app].
  destruct (Hp rest r Hr Ha) as [f2 E2].
  destruct (complete_closed 0 ts p (TRBracket :: ts' ++ rest) Hd I eq_refl) as [f1 E1].
  exists (S (max f1 f2)). cbn [access_loop]. rewrite (prec_more f1 _ _ _ _ E1) by lia. cbn [result_bind].
  rewrite Hv. cbn [result_bind]. rewrite Hn, Hc. cbn [result_bind]. apply (access_more f2); [done|lia].
Qed.

Lemma expression_parser_complete :
  (∀ n ts p, derives n ts p → complete_derives n ts p) ∧ (∀ ts args, arguments ts args → complete_arguments ts args)
  ∧ (∀ ts args, argument_list ts args → complete_list ts args ∧ ∃ t ts', ts = t :: ts' ∧ t ≠ TRParen)
  ∧ (∀ c ts c', path c ts c' → complete_path c ts c').
Proof.
  apply derives_mutind; try (intros; apply complete_atom; intros rest _; by exists 1%nat).
  - intros name span ts args Hn _ Ha. by apply complete_call.
  - intros name span ts c Hn Hp IH. apply complete_atom. intros rest Hf. cbn [app].
    apply prim_path; [done|by eapply path_head, follow_no_call|]. apply IH; [by apply follow_no_call|by apply access_stop].
  - intros name span ts c method mspan tas args Hn Hp IH Hnest _ Ha. apply complete_atom. intros rest Hf.
    cbn [app]. rewrite <- app_assoc. cbn [app]. apply prim_path; [done|by eapply path_head|].
    apply IH; [done|]. apply access_method; [done|]. apply (Ha _ [chain_expr c]).
  - intros ts p e _ IH Hv. apply complete_atom. intros rest Hf. cbn [app].
    apply (prim_wrap _ (λ p, let? e := into_value p in Ok (PValue (Unary Negate e))) _ p); [|by apply complete_prefix|by rewrite Hv].
    intros fuel. cbn [parse_primary]. by destruct (parse_precedence _ _ _) as [[[] ?]|].
  - intros ts p _ IH. apply complete_atom. intros rest Hf. cbn [app].
    apply (prim_wrap _ Ok _ p); [|by apply complete_prefix|done].
    intros fuel. cbn [parse_primary]. by destruct (parse_precedence _ _ _) as [[[] ?]|].
  - intros ts p e _ IH Hv. apply complete_atom. intros rest Hf. cbn [app].
    apply (prim_wrap _ (λ p, let? e := into_value p in Ok (PValue (Unary BitwiseNot e))) _ p); [|by apply complete_prefix|by rewrite Hv].
    intros fuel. cbn [parse_primary]. by destruct (parse_precedence _ _ _) as [[[] ?]|].
  - intros ts p _ IH. apply complete_atom. intros rest Hf. cbn [app].
    apply (prim_wrap _ (λ p, Ok (PCondition (CondNot (into_condition p)))) _ p); [|by apply complete_prefix|done].
    intros fuel. cbn [parse_primary]. by destruct (parse_precedence _ _ _) as [[[] ?]|].
  - intros ts p _ IH. apply complete_atom. intros rest Hf. cbn [app]. rewrite <- app_assoc. cbn [app].
    destruct (complete_closed 0 ts p (TRParen :: rest) IH I eq_refl) as [f E]. exists (S f). cbn [parse_primary]. by rewrite E.
  - intros n m ts p Hd IH Hm. eapply complete_lower; [done|by eapply expression_derives_level|done].
  - intros l t r operator p1 p2 p Ht _ IH1 _ IH2 Hc. by eapply complete_infix.
  - intros message args0 rest. exists 1%nat. by rewrite app_nil_r.
  - intros ts args _ [Ha (t & ts' & -> & Ht)] message args0 rest. destruct (Ha message args0 rest) as [f E].
    exists (S f). cbn [call_arguments app] in *. by destruct t.
  - intros ts p Hd IH. split; [|destruct (derives_head _ _ _ Hd) as (t & ts' & -> & ?); by eexists _, _].
    intros message args0 rest. rewrite <- app_assoc. cbn [app].
    destruct (complete_closed 0 ts p (TRParen :: rest) IH I eq_refl) as [f E]. exists (S f). cbn [argument_loop]. by rewrite E.
  - intros ts p ts' args Hd IH _ [Ha _]. split; [|destruct (derives_head _ _ _ Hd) as (t & us & -> & ?); by eexists _, _].
    intros message args0 rest. rewrite <- app_assoc. cbn [app].
    destruct (complete_closed 0 ts p (TComma :: ts' ++ rest) IH I eq_refl) as [f1 E1].
    destruct (Ha message (args0 ++ [into_expression p]) rest) as [f2 E2].
    exists (S (max f1 f2)). cbn [argument_loop]. rewrite (prec_more f1 _ _ _ _ E1) by lia. cbn [result_bind].
    rewrite (arg_more f2 _ _ _ _ _ E2) by lia. by rewrite <- app_assoc.
  - intros c rest r _ Ha. done.
  - intros c segment span ts c' Hn Hp IH rest r Hr Ha. destruct (IH rest r Hr Ha) as [f E]. exists (S f).
    cbn [app access_loop]. rewrite Hn. rewrite no_call_method by by eapply path_head. by cbn [result_bind negb].
  - intros c ts p e c1 ts' c' _ IHd Hv Hn Hc _ IHp. by eapply complete_index.
Qed.

(** ** The parser is the grammar *)

Lemma parse_tokens_settled expression tokens : settled (parse_tokens expression tokens).
Proof.
  assert (answers (length tokens) (parse_precedence (expr_fuel tokens) 0 tokens)) as Hans
    by (apply expression_parser_answers; unfold expr_fuel; lia).
  unfold parse_tokens. destruct (parse_precedence _ _ _) as [[p rest]|e]; simpl in *; [by destruct rest|congruence].
Qed.

Lemma parse_tokens_exact expression tokens p : parse_tokens expression tokens = Ok p ↔ derives 0 tokens p.
Proof.
  split.
  - unfold parse_tokens. intros H. apply step_Ok in H as ([p' rest] & Hx & H). destruct rest; [|done]. injection H as ->.
    apply expression_parser_sound in Hx as (used & -> & Hd & _); [|lia]. by rewrite app_nil_r.
  - intros Hd. destruct (proj1 expression_parser_complete _ _ _ Hd) as [_ Hc].
    destruct (Hc [] (p, []) I) as [f E]; [done|by apply loop_stop|]. rewrite app_nil_r in E.
    assert (settled (parse_precedence (expr_fuel tokens) 0 tokens)) as Hs.
    { pose proof (parse_tokens_settled expression tokens) as Hs. unfold parse_tokens in Hs. intros Hf. by rewrite Hf in Hs. }
    apply (prec_more _ (max f (expr_fuel tokens))) in E; [|lia]. unfold parse_tokens.
    rewrite (proj1 (expression_parser_mono (expr_fuel tokens) (max f (expr_fuel tokens)) ltac:(lia)) _ _ Hs) in E. by rewrite E.
Qed.

(** C10 The parser of expressions is its grammar.  It always answers, and accepts exactly the
    lists of tokens the grammar derives, with the expression that is derived: the prefix
    operators bind most, the others by their precedence and to the left, a comparison, [&&]
    or [||] makes a condition, and a condition is an operand only of the operators that
    take one.  So no list of tokens has two expressions. *)
Theorem expression_grammar_exact expression tokens :
  parse_tokens expression tokens ≠ Err BodyFuel
  ∧ (∀ p, parse_tokens expression tokens = Ok p ↔ derives 0 tokens p)
  ∧ ∀ p p', derives 0 tokens p → derives 0 tokens p' → p = p'.
Proof.
  split_and!; [apply parse_tokens_settled|intros p; apply parse_tokens_exact|].
  intros p p' H H'. apply (parse_tokens_exact expression) in H, H'. congruence.
Qed.
