(* ===== verification/BodyTokensProps.v ===== *)
(** * The body parser: tokens and their places

    The tokenizer always answers; the span of every identifier is where the body has it,
    and every integer literal fits an [i64]. *)

From S2P Require Import Prelude Lexer Identity Text Functions Hir Types BodyScan BodyExpr BodyParser.
From S2P Require Import BodyScanProps BodyExprProps.
#[local] Open Scope Z_scope.

(** ** Places in a body *)

(** [text] is in the body at [offset]. *)
Definition occurs (body : str) (offset : Z) (text : str) : Prop :=
  ∃ pre post, body = pre ++ text ++ post ∧ offset = Z.of_nat (length pre).

(** The body has [name] between two offsets. *)
Definition names (body name : str) (first last : Z) : Prop :=
  0 ≤ first ≤ last ∧ last ≤ Z.of_nat (length body) ∧ text_slice body (Z.to_nat first) (Z.to_nat last) = name.

(** No text has more bytes than an [isize] counts. *)
Definition fits (body : str) : Prop := Z.of_nat (length body) < 2 ^ 63.

Lemma occurs_range body offset text : occurs body offset text → 0 ≤ offset ∧ offset + Z.of_nat (length text) ≤ Z.of_nat (length body).
Proof. intros (pre & post & -> & ->). rewrite !length_app. lia. Qed.

Lemma occurs_whole body : occurs body 0 body.
Proof. exists [], []. by rewrite app_nil_r. Qed.

Lemma occurs_take body offset text n : occurs body offset text → occurs body offset (take n text).
Proof. intros (pre & post & -> & ->). exists pre, (drop n text ++ post). by rewrite (app_assoc (take n text)), take_drop. Qed.

Lemma offset_add_exact body offset text n :
  fits body → occurs body offset text → (n ≤ length text)%nat → offset_add offset n = offset + Z.of_nat n.
Proof.
  intros Hf Ho Hn. apply occurs_range in Ho. unfold offset_add, saturating_u64_add, fits, u64_max in *. lia.
Qed.

Lemma offset_add_add offset i j : offset_add offset (i + j) = offset_add (offset_add offset i) j.
Proof. unfold offset_add, saturating_u64_add. lia. Qed.

Lemma occurs_drop body offset text n :
  fits body → occurs body offset text → (n ≤ length text)%nat → occurs body (offset_add offset n) (drop n text).
Proof.
  intros Hf Ho Hn. rewrite (offset_add_exact _ _ _ _ Hf Ho Hn). destruct Ho as (pre & post & -> & ->).
  exists (pre ++ take n text), post. rewrite length_app, length_take, <- app_assoc. split; [|lia].
  by rewrite (app_assoc (take n text)), take_drop.
Qed.

Lemma occurs_slice body offset text i j :
  fits body → occurs body offset text → (i ≤ length text)%nat → occurs body (offset_add offset i) (text_slice text i j).
Proof. intros Hf Ho Hi. unfold text_slice. by apply occurs_take, occurs_drop. Qed.

Lemma trim_offset_spec s : (trim_offset s ≤ length s)%nat ∧ drop (trim_offset s) s = trim_start (length s) s.
Proof.
  unfold trim_offset. destruct (trim_start_spec (length s) s) as (_ & p & Hp & _); [done|].
  generalize dependent (trim_start (length s) s). intros u ->. rewrite length_app. split; [lia|].
  replace (length p + length u - length u)%nat with (length p) by lia. apply drop_app_length.
Qed.

Lemma occurs_trim body offset text :
  fits body → occurs body offset text → occurs body (offset_add offset (trim_offset text)) (trim text).
Proof.
  intros Hf Ho. destruct (trim_offset_spec text) as [Hl Hd]. pose proof (occurs_drop _ _ _ _ Hf Ho Hl) as (pre & post & -> & ->).
  rewrite Hd. unfold trim. destruct (trim_end_prefix (trim_start (length text) text)) as (r & Hr & _).
  exists pre, (r ++ post). rewrite Hr at 1. by rewrite <- app_assoc.
Qed.

Lemma occurs_names body offset text i j :
  fits body → occurs body offset text → (i ≤ j ≤ length text)%nat →
  names body (text_slice text i j) (offset + Z.of_nat i) (offset + Z.of_nat j).
Proof.
  intros Hf Ho Hij. pose proof (occurs_range _ _ _ Ho). split_and!; [lia..|].
  destruct Ho as (pre & post & -> & ->). rewrite <- !Nat2Z.inj_add, !Nat2Z.id. unfold text_slice.
  rewrite drop_app_ge by lia. replace (length pre + i - length pre)%nat with i by lia.
  rewrite drop_app_le by lia. rewrite take_app_le; [f_equal; lia|]. rewrite length_drop. lia.
Qed.

(** ** Literals *)

Lemma string_loop_spec fuel expression : ∀ rest literal used,
  (length rest < fuel)%nat →
  match string_loop fuel expression rest literal used with
  | Ok (_, used') => (used < used' ≤ used + length rest)%nat
  | Err e => e ≠ BodyFuel
  end.
Proof.
  induction fuel as [|fuel IH]; intros rest literal used Hf; [lia|]. cbn [string_loop].
  destruct rest as [|b rest]; [done|]. cbn [length] in Hf. destruct (b =? BACKSLASH).
  { destruct rest as [|e rest]; [done|]. destruct (escaped_char e); [|done]. cbn [length] in *.
    specialize (IH rest (literal ++ [z]) (S (S used)) ltac:(lia)).
    destruct (string_loop _ _ _ _ _) as [[l u]|]; [lia|done]. }
  destruct (b =? QUOTE); [simpl; lia|].
  assert (0 < char_len b)%nat as Hc by (unfold char_len; repeat case_match; lia).
  assert (length (drop (char_len b) (b :: rest)) < fuel)%nat as Hlt by (rewrite length_drop; simpl; lia).
  specialize (IH _ (literal ++ take (char_len b) (b :: rest)) (used + char_len b)%nat Hlt).
  destruct (string_loop _ _ _ _ _) as [[l u]|] eqn:E; [|done]. rewrite length_drop in IH. simpl in *.
  destruct (decide (char_len b ≤ S (length rest))%nat); [lia|].
  rewrite drop_ge in E by (simpl; lia). by destruct fuel.
Qed.

Lemma digits_len_spec rest : (digits_len rest ≤ length rest)%nat.
Proof. induction rest as [|b rest IH]; [done|]. simpl. case_match; simpl; lia. Qed.

Lemma decimal_nonneg s : all_digits s = true → 0 ≤ decimal s.
Proof.
  induction s as [|b s IH] using rev_ind; [done|]. unfold all_digits in *. rewrite forallb_app, decimal_snoc.
  simpl. intros [Hs Hb]%andb_true_iff. specialize (IH Hs). unfold is_ascii_digit, digit_value in *. to_props. lia.
Qed.

Lemma digits_len_digits rest : all_digits (take (digits_len rest) rest) = true.
Proof.
  induction rest as [|b rest IH]; [done|]. cbn [digits_len]. destruct (is_ascii_digit b) eqn:E; [|done].
  cbn [take]. unfold all_digits in *. simpl. by rewrite E.
Qed.

(** The tokens of a body: an identifier is where its span says, an integer fits. *)
Definition token_ok (body : str) (t : ExprToken) : Prop :=
  match t with
  | TInt v => 0 ≤ v < 2 ^ 63
  | TIdentifier name (first, last) => names body name first last ∧ identifier name
  | _ => True
  end.

Lemma number_token_spec body rest b rest' :
  rest = b :: rest' → is_ascii_digit b = true →
  match number_token rest with
  | Ok (t, len) => (0 < len ≤ length rest)%nat ∧ token_ok body t
  | Err e => e ≠ BodyFuel
  end.
Proof.
  intros -> Hb. unfold number_token. set (rest := b :: rest').
  assert (0 < digits_len rest)%nat as Hd by (simpl; rewrite Hb; lia).
  pose proof (digits_len_spec rest) as Hl. pose proof (decimal_nonneg _ (digits_len_digits rest)) as Hn.
  assert (match let? value := ok_or (checked_i 64 (decimal (take (digits_len rest) rest)))
      (BodyErr "invalid integer literal" [take (digits_len rest) rest]) in Ok (TInt value, digits_len rest) with
    | Ok (t, len) => (0 < len ≤ length rest)%nat ∧ token_ok body t
    | Err e => e ≠ BodyFuel
    end) as Hint.
  { unfold checked_i. case_bool_decide as Hi; [|done]. cbn [ok_or result_bind]. split; [lia|]. unfold in_i in Hi. change (2 ^ (64 - 1)) with (2 ^ 63) in Hi. cbn [token_ok]. lia. }
  destruct (drop (digits_len rest) rest) as [|point [|digit fraction]] eqn:E; [done..|].
  destruct ((point =? POINT) && is_ascii_digit digit); [|done]. split; [|done].
  pose proof (digits_len_spec (digit :: fraction)) as Hf. apply (f_equal length) in E. rewrite length_drop in E. simpl in *. lia.
Qed.

Lemma block_len_spec rest len : block_len rest = Some len → (len ≤ length rest)%nat.
Proof.
  revert len. induction rest as [|b rest IH]; intros len; [done|]. cbn [block_len]. destruct rest as [|c rest]; [done|].
  destruct (_ && _); [intros [= <-]; simpl; lia|]. intros (n & Hn & ->)%fmap_Some. apply IH in Hn. simpl in *. lia.
Qed.

Lemma line_len_spec rest : (line_len rest ≤ length rest)%nat.
Proof. induction rest as [|b rest IH]; [done|]. simpl. case_match; simpl; lia. Qed.

Lemma operator_token_len b rest t len : operator_token b rest = Some (t, len) → (len = 1 ∨ len = 2 ∧ rest ≠ [])%nat.
Proof.
  unfold operator_token, next_is. intros H.
  repeat match type of H with
  | (if bool_decide (head ?r = _) then _ else _) = _ => destruct r; [simpl in H|case_bool_decide]
  | (if ?c then _ else _) = _ => destruct c
  end; simplify_eq; auto.
Qed.

Lemma operator_token_ok body b rest t len : operator_token b rest = Some (t, len) → token_ok body t.
Proof.
  unfold operator_token. intros H.
  repeat match type of H with (if ?c then _ else _) = _ => destruct c end; by simplify_eq.
Qed.

(** ** The tokens of an expression *)

Lemma source_u32_spec offset n message :
  match source_u32 offset n message with
  | Ok v => offset_add offset n = v
  | Err e => e ≠ BodyFuel
  end.
Proof. unfold source_u32, checked_u. by case_bool_decide. Qed.

Lemma token_step_spec body expression offset index byte rest :
  fits body → (occurs body offset expression ∨ body = []) → drop index expression = byte :: rest →
  match token_step expression offset index byte (byte :: rest) with
  | Ok (t, len) =>
      (0 < len ≤ S (length rest))%nat ∧ (occurs body offset expression → Forall (token_ok body) (option_list t))
  | Err e => e ≠ BodyFuel
  end.
Proof.
  intros Hf _ Hd. unfold token_step. cbn [tail].
  destruct (is_ascii_whitespace byte); [split; [lia|by intros; constructor]|].
  destruct ((byte =? SLASH) && next_is SLASH rest) eqn:E1.
  { apply andb_true_iff in E1 as [_ E1]. unfold next_is in E1. destruct rest as [|c rest]; [done|]. cbn [drop length].
    rewrite drop_0. pose proof (line_len_spec rest). split; [lia|by intros; constructor]. }
  destruct ((byte =? SLASH) && next_is STAR rest) eqn:E2.
  { apply andb_true_iff in E2 as [_ E2]. unfold next_is in E2. destruct rest as [|c rest]; [done|]. cbn [drop length].
    rewrite drop_0. destruct (block_len rest) as [len|] eqn:El; [|done]. apply block_len_spec in El. cbn [ok_or result_bind].
    split; [lia|by intros; constructor]. }
  destruct (byte =? QUOTE).
  { pose proof (string_loop_spec (S (length (byte :: rest))) expression rest [] 1) as Hs.
    destruct (string_loop _ _ _ _ _) as [[literal used]|e]; cbn [result_bind length] in *; [|apply Hs; lia].
    specialize (Hs ltac:(lia)). split; [lia|]. intros _. by repeat constructor. }
  destruct (is_ascii_digit byte) eqn:Edig.
  { pose proof (number_token_spec body (byte :: rest) byte rest eq_refl Edig) as Hn.
    destruct (number_token (byte :: rest)) as [[t len]|e]; cbn [result_bind]; [|done]. destruct Hn as [Hl Ht].
    split; [simpl in Hl; lia|]. intros _. by repeat constructor. }
  destruct (is_ascii_alphabetic byte || (byte =? 95)) eqn:Eid.
  { pose proof (source_u32_spec offset index "call source offset exceeds u32") as Ha.
    destruct (source_u32 offset index _) as [first|e]; cbn [result_bind]; [|done].
    pose proof (source_u32_spec offset (index + S (identifier_len rest)) "call source offset exceeds u32") as Hb.
    destruct (source_u32 offset (index + _) _) as [last|e]; cbn [result_bind]; [|done].
    pose proof (identifier_len_spec rest) as [Hl Hall]. split; [lia|]. intros Ho. constructor; [split|constructor].
    - assert (length (drop index expression) = S (length rest)) as Hlen by by rewrite Hd. rewrite length_drop in Hlen.
      assert (index + S (identifier_len rest) ≤ length expression)%nat as Hle by lia.
      rewrite (offset_add_exact _ _ _ _ Hf Ho) in Ha by lia. rewrite (offset_add_exact _ _ _ _ Hf Ho) in Hb by lia. subst first last.
      pose proof (occurs_names _ _ _ index (index + S (identifier_len rest)) Hf Ho ltac:(lia)) as Hname.
      unfold text_slice at 1 in Hname. rewrite Hd in Hname.
      by replace (index + S (identifier_len rest) - index)%nat with (S (identifier_len rest)) in Hname by lia.
    - exists byte, (take (identifier_len rest) rest). by split_and!. }
  destruct (operator_token byte rest) as [[t len]|] eqn:Eop; [|done].
  pose proof (operator_token_ok body _ _ _ _ Eop). apply operator_token_len in Eop. split; [|intros _; by repeat constructor].
  destruct Eop as [->|[-> Hr]]; [lia|]. destruct rest; [done|simpl; lia].
Qed.

Lemma token_loop_spec body fuel expression offset : fits body → (occurs body offset expression ∨ body = []) → ∀ index tokens,
  (length expression < fuel + index)%nat → (index ≤ length expression)%nat →
  match token_loop fuel expression offset index tokens with
  | Ok tokens' => occurs body offset expression → Forall (token_ok body) tokens → Forall (token_ok body) tokens'
  | Err e => e ≠ BodyFuel
  end.
Proof.
  intros Hf Ho. induction fuel as [|fuel IH]; intros index tokens Hlt Hle; [lia|]. cbn [token_loop].
  destruct (drop index expression) as [|byte rest] eqn:Hd; [done|].
  pose proof (token_step_spec body expression offset index byte rest Hf Ho Hd) as Hs.
  destruct (token_step _ _ _ _ _) as [[t len]|e]; cbn [result_bind]; [|done]. destruct Hs as [Hl Ht].
  assert (length (drop index expression) = S (length rest)) as Hlen by by rewrite Hd. rewrite length_drop in Hlen.
  specialize (IH (index + len)%nat (tokens ++ option_list t) ltac:(lia) ltac:(lia)).
  destruct (token_loop _ _ _ _ _); [|done]. intros Hoc Hts. apply IH; [done|]. apply Forall_app. split; [done|by apply Ht].
Qed.

Lemma tokenize_settled expression offset : settled (tokenize_simple_expression_at expression offset).
Proof.
  unfold tokenize_simple_expression_at.
  pose proof (token_loop_spec [] (S (length expression)) expression offset) as H.
  specialize (H ltac:(done) (or_intror eq_refl) 0%nat [] ltac:(lia) ltac:(lia)).
  destruct (token_loop _ _ _ _ _); [done|]. by intros [= ->].
Qed.

Lemma tokenize_Ok body expression offset tokens :
  fits body → occurs body offset expression → tokenize_simple_expression_at expression offset = Ok tokens →
  Forall (token_ok body) tokens.
Proof.
  unfold tokenize_simple_expression_at. intros Hf Ho H.
  pose proof (token_loop_spec body (S (length expression)) expression offset Hf (or_introl Ho) 0%nat [] ltac:(lia) ltac:(lia)) as Hs.
  rewrite H in Hs. by apply Hs.
Qed.

(** ** The trees of an expression *)

Section trees.
Context (body : str).

(** A tree that was parsed from [body]: its calls are where their spans say, its literals
    fit, an index is no negative constant, and nothing is resolved yet. *)
Fixpoint expr_ok (e : SimpleExpr) : Prop :=
  match e with
  | DefaultValue _ | ResolvedConstant _ _ _ => False
  | Int v => 0 ≤ v < 2 ^ 63
  | Float _ | Bool _ | StringLiteral _ | Identifier _ => True
  | Condition c => condition_ok c
  | IndexedPathExpr _ index _ nested =>
      (expr_ok index ∧ is_negative_constant index = false)
      ∧ match nested with Some n => expr_ok n ∧ is_negative_constant n = false | None => True end
  | Call target args span resolved =>
      (∃ first last, span = Some (first, last) ∧ names body target first last) ∧ identifier target
      ∧ resolved = None ∧ foldr (λ arg acc, expr_ok arg ∧ acc) True args
  | Unary _ operand => expr_ok operand
  | Binary lhs _ rhs => expr_ok lhs ∧ expr_ok rhs
  end
with condition_ok (c : SimpleCondition) : Prop :=
  match c with
  | Comparison lhs _ rhs => expr_ok lhs ∧ expr_ok rhs
  | CondExpr e => expr_ok e
  | CondAnd l r | CondOr l r => condition_ok l ∧ condition_ok r
  | CondNot c => condition_ok c
  end.

Definition index_ok (e : SimpleExpr) : Prop := expr_ok e ∧ is_negative_constant e = false.

Definition parsed_ok (p : ParsedExpression) : Prop :=
  match p with PValue e => expr_ok e | PCondition c => condition_ok c end.

Definition chain_ok (c : Chain) : Prop :=
  (∀ e, ch_index c = Some e → index_ok e) ∧ (∀ e, ch_nested c = Some e → index_ok e)
  ∧ (ch_index c = None → ch_nested c = None).

Lemma into_value_ok p e : parsed_ok p → into_value p = Ok e → expr_ok e.
Proof. destruct p; [by intros ? [= <-]|done]. Qed.
Lemma into_expression_ok p : parsed_ok p → expr_ok (into_expression p).
Proof. by destruct p. Qed.
Lemma into_condition_ok p : parsed_ok p → condition_ok (into_condition p).
Proof. by destruct p. Qed.

Lemma combine_ok operator p1 p2 p : combine operator p1 p2 = Ok p → parsed_ok p1 → parsed_ok p2 → parsed_ok p.
Proof.
  unfold combine. intros H H1 H2. destruct operator as [op|op| |].
  - destruct (requires_integer_operands op); [injection H as <-; by split; apply into_expression_ok|].
    inv_parse H. injection H as <-. split; [by apply (into_value_ok p1)|by apply (into_value_ok p2)].
  - injection H as <-. by split; apply into_expression_ok.
  - injection H as <-. by split; apply into_condition_ok.
  - injection H as <-. by split; apply into_condition_ok.
Qed.

Lemma chain_start_ok name : chain_ok (mkChain name None None []).
Proof. by split_and!. Qed.

Lemma chain_segment_ok c segment : chain_ok c → chain_ok (chain_segment c segment).
Proof.
  intros (Hi & Hn & Hb). unfold chain_segment. destruct (ch_index c) eqn:E; by split_and!.
Qed.

Lemma chain_index_ok c e c' : chain_ok c → index_ok e → chain_index c e = Ok c' → chain_ok c'.
Proof.
  intros (Hi & Hn & Hb) He. unfold chain_index. destruct (ch_index c) eqn:Ei.
  - destruct (ch_nested c) eqn:En; [done|]. case_bool_decide; [done|]. intros [= <-].
    split_and!; cbn; [by intros e0 [= <-]; apply Hi|by intros e0 [= <-]|done].
  - intros [= <-]. split_and!; cbn; [by intros e0 [= <-]|done|done].
Qed.

Lemma chain_expr_ok c : chain_ok c → expr_ok (chain_expr c).
Proof.
  intros (Hi & Hn & Hb). unfold chain_expr. destruct (ch_index c) as [index|]; [|done]. split; [by apply Hi|].
  destruct (ch_nested c) as [n|]; [|done]. by apply Hn.
Qed.

(** What the tokens of a body derive is a tree of that body. *)
Lemma derives_trees_ok :
  (∀ n ts p, derives n ts p → Forall (token_ok body) ts → parsed_ok p)
  ∧ (∀ ts args, arguments ts args → Forall (token_ok body) ts → foldr (λ arg acc, expr_ok arg ∧ acc) True args)
  ∧ (∀ ts args, argument_list ts args → Forall (token_ok body) ts → foldr (λ arg acc, expr_ok arg ∧ acc) True args)
  ∧ (∀ c ts c', path c ts c' → Forall (token_ok body) ts → chain_ok c → chain_ok c').
Proof.
  apply derives_mutind; try done.
  - intros v. rewrite Forall_singleton. done.
  - intros name [first last] ts args _ _ IH. rewrite !Forall_cons. intros ([Hn Hid] & _ & Hts). split_and!; [by eexists _, _|done..|by apply IH].
  - intros name span ts c _ _ IH. rewrite Forall_cons. intros [_ Hts]. apply chain_expr_ok, IH; [done|apply chain_start_ok].
  - intros name span ts c method [first last] tas args _ _ IH Hn _ IHa.
    rewrite Forall_cons, Forall_app, !Forall_cons. intros (_ & Hts & _ & [Hm Hid] & _ & Ha).
    split_and!; [by eexists _, _|done..|split; [apply chain_expr_ok, IH; [done|apply chain_start_ok]|by apply IHa]].
  - intros ts p e _ IH Hv. rewrite Forall_cons. intros [_ Hts]. change (expr_ok e). apply (into_value_ok p); [by apply IH|done].
  - intros ts p _ IH. rewrite Forall_cons. intros [_ Hts]. by apply IH.
  - intros ts p e _ IH Hv. rewrite Forall_cons. intros [_ Hts]. change (expr_ok e). apply (into_value_ok p); [by apply IH|done].
  - intros ts p _ IH. rewrite Forall_cons. intros [_ Hts]. change (condition_ok (into_condition p)). apply into_condition_ok. by apply IH.
  - intros ts p _ IH. rewrite Forall_cons, Forall_app. intros (_ & Hts & _). by apply IH.
  - intros l t r operator p1 p2 p _ _ IH1 _ IH2 Hc. rewrite Forall_app, Forall_cons. intros (Hl & _ & Hr).
    eapply combine_ok; [done|by apply IH1|by apply IH2].
  - intros ts p _ IH. rewrite Forall_app. intros [Hts _]. split; [|done]. apply into_expression_ok. by apply IH.
  - intros ts p ts' args _ IH _ IHl. rewrite Forall_app, Forall_cons. intros (Hts & _ & Hts').
    split; [apply into_expression_ok; by apply IH|by apply IHl].
  - intros c segment span ts c' Hn _ IH. rewrite !Forall_cons. intros (_ & _ & Hts) Hc. apply IH; [done|by apply chain_segment_ok].
  - intros c ts p e c1 ts' c' _ IH Hv Hneg Hi _ IHp. rewrite Forall_cons, Forall_app, Forall_cons. intros (_ & Hts & _ & Hts') Hc.
    apply IHp; [done|]. eapply chain_index_ok; [done| |done]. split; [|done]. eapply into_value_ok; [by apply IH|done].
Qed.
End trees.

(** ** Parsing at an offset *)

Lemma settled_bind {A B} (r : Result A BodyError) (k : A → Result B BodyError) :
  settled r → (∀ x, r = Ok x → settled (k x)) → settled (result_bind r k).
Proof. unfold settled. destruct r as [x|e]; simpl; [auto|]. intros H _ [= ->]. by apply H. Qed.

Lemma settled_ok_or {A} (o : option A) message quoted : settled (ok_or o (BodyErr message quoted)).
Proof. by destruct o. Qed.

Create HintDb settled.
#[export] Hint Resolve settled_ok_or tokenize_settled parse_tokens_settled : settled.
#[export] Hint Extern 1 (settled (Ok _)) => done : settled.
#[export] Hint Extern 1 (settled (Err (BodyErr _ _))) => done : settled.

(** Goes through the steps of a function that settles. *)
Ltac settle :=
  repeat (first
    [ progress auto with settled
    | apply settled_bind; [|intros ? ?]
    | match goal with |- settled (if ?b then _ else _) => destruct b end
    | match goal with |- settled (match ?o with _ => _ end) => destruct o end ]).

Lemma parse_expression_settled text offset : settled (parse_expression_at text offset).
Proof. unfold parse_expression_at. settle. Qed.
#[export] Hint Resolve parse_expression_settled : settled.

Lemma into_value_settled p : settled (into_value p).
Proof. by destruct p. Qed.
#[export] Hint Resolve into_value_settled : settled.

Lemma parse_simple_expression_settled text offset : settled (parse_simple_expression_at text offset).
Proof. unfold parse_simple_expression_at. settle. Qed.
Lemma parse_value_expression_settled text offset : settled (parse_value_expression_at text offset).
Proof. unfold parse_value_expression_at. settle. Qed.
Lemma parse_condition_settled text offset : settled (parse_simple_condition_at text offset).
Proof. unfold parse_simple_condition_at. settle. Qed.
#[export] Hint Resolve parse_simple_expression_settled parse_value_expression_settled parse_condition_settled : settled.

Section at_offset.
Context (body : str) (Hfits : fits body).

Lemma parse_expression_ok text offset p :
  occurs body offset text → parse_expression_at text offset = Ok p → parsed_ok body p.
Proof.
  unfold parse_expression_at. intros Ho H. inv_parse H. apply parse_tokens_exact in H.
  apply (proj1 (derives_trees_ok body)) in H; [done|]. by eapply tokenize_Ok.
Qed.

Lemma parse_simple_expression_ok text offset e :
  occurs body offset text → parse_simple_expression_at text offset = Ok e → expr_ok body e.
Proof.
  unfold parse_simple_expression_at. intros Ho H. inv_parse H. eapply into_value_ok; [|done]. by eapply parse_expression_ok.
Qed.

Lemma parse_value_expression_ok text offset e :
  occurs body offset text → parse_value_expression_at text offset = Ok e → expr_ok body e.
Proof.
  unfold parse_value_expression_at. intros Ho H. inv_parse H. injection H as <-. apply into_expression_ok.
  by eapply parse_expression_ok.
Qed.

Lemma parse_condition_ok text offset c :
  occurs body offset text → parse_simple_condition_at text offset = Ok c → condition_ok body c.
Proof.
  unfold parse_simple_condition_at. intros Ho H. inv_parse H. injection H as <-. apply into_condition_ok.
  eapply parse_expression_ok; [|done]. by apply occurs_trim.
Qed.
End at_offset.
