(* ===== verification/BodyStmts.v ===== *)
(** * The body parser: statements

    What a tree of statements of a body is, [stmt_ok], and what it is for debug statements
    to stand for statements, [mirrors]; then, that the parsers of the statements without
    blocks and of the headers give such trees, and answer. *)

From S2P Require Import Prelude Lexer Identity Text Functions Hir Types TypesProps TypesTable BodyScan BodyExpr.
From S2P Require Import BodyParser BodyScanProps BodyExprProps BodyTokensProps.
#[local] Open Scope Z_scope.
#[local] Set Warnings "-register-all,-clear-no-such-hyp".

(** ** Trees of statements *)

Section statements.
Context (body : str) (known : TypeId → Prop).

Definition target_ok (target : AssignTarget) : Prop :=
  match target with
  | LocalTarget _ | GlobalPath _ => True
  | IndexedPathTarget _ index _ nested =>
      index_ok body index ∧ match nested with Some n => index_ok body n | None => True end
  end.

Definition conversion_name (kind : ConversionKind) : str :=
  string_bytes (match kind with FromI32 => "from_i32" | FromF32 => "from_f32" | FromF64 => "from_f64" end).

(** The statements of the header of a [for]. *)
Definition is_control (s : SimpleStmt) : bool :=
  match s with LetStmt _ _ _ | Assign _ _ _ | Convert _ _ _ _ | ExprStmt _ => true | _ => false end.

(** A statement that was parsed from [body], whose types are [known]. *)
Fixpoint stmt_ok (s : SimpleStmt) : Prop :=
  match s with
  | Noop => False
  | LetStmt name type_id e =>
      identifier name
      ∧ match type_id with
        | Some id => known id ∧ (e = DefaultValue id ∨ expr_ok body e)
        | None => expr_ok body e
        end
  | Assign target _ e => target_ok target ∧ expr_ok body e
  | Convert target kind span source =>
      names body (conversion_name kind) span.1 span.2 ∧ target_ok target ∧ expr_ok body source
  | IfStmt condition then_statements else_statements =>
      condition_ok body condition ∧ foldr (λ s acc, stmt_ok s ∧ acc) True then_statements
      ∧ match else_statements with Some es => foldr (λ s acc, stmt_ok s ∧ acc) True es | None => True end
  | ForStmt init condition step body_statements =>
      (is_control init = true ∧ stmt_ok init) ∧ condition_ok body condition ∧ (is_control step = true ∧ stmt_ok step)
      ∧ foldr (λ s acc, stmt_ok s ∧ acc) True body_statements
  | Foreach item_name index_name _ body_statements =>
      identifier item_name ∧ (∀ name, index_name = Some name → identifier name)
      ∧ foldr (λ s acc, stmt_ok s ∧ acc) True body_statements
  | ExprStmt e => is_call e = true ∧ expr_ok body e
  | Continue | ReturnVoid => True
  | Return e => expr_ok body e
  end.

Definition stmts_ok (l : list SimpleStmt) : Prop := foldr (λ s acc, stmt_ok s ∧ acc) True l.

Lemma stmts_ok_app l1 l2 : stmts_ok l1 → stmts_ok l2 → stmts_ok (l1 ++ l2).
Proof. induction l1 as [|s l1 IH]; [done|]. intros [Hs H1] H2. split; [done|by apply IH]. Qed.
End statements.

(** ** Debug statements *)

(** The keyword a statement starts with. *)
Definition leading (s : SimpleStmt) : option string :=
  match s with
  | LetStmt _ _ _ => Some "let"
  | Return _ | ReturnVoid => Some "return"
  | Continue => Some "continue"
  | ForStmt _ _ _ _ => Some "for"
  | Foreach _ _ _ _ => Some "foreach"
  | IfStmt _ _ _ => Some "if"
  | _ => None
  end%string.

(** The body has a statement at [offset]: a byte that is no white space, and its keyword. *)
Definition starts (body : str) (offset : Z) (s : SimpleStmt) : Prop :=
  0 ≤ offset ∧ (∃ b, body !! Z.to_nat offset = Some b ∧ is_ascii_whitespace b = false)
  ∧ ∀ keyword, leading s = Some keyword →
      take (String.length keyword) (drop (Z.to_nat offset) body) = string_bytes keyword.

Definition is_simple (s : SimpleStmt) : bool :=
  match s with IfStmt _ _ _ | ForStmt _ _ _ _ | Foreach _ _ _ _ | Noop => false | _ => true end.

(** The debug statement of a statement: its place, and those of its blocks. *)
Inductive mirrors (body : str) : SimpleStmt → DebugStatement → Prop :=
| m_simple s offset : is_simple s = true → starts body offset s → mirrors body s (mkDebugStatement offset [])
| m_for init condition step b offset ds :
    starts body offset (ForStmt init condition step b) → Forall2 (mirrors body) b ds →
    mirrors body (ForStmt init condition step b) (mkDebugStatement offset ds)
| m_foreach item index collection b offset ds :
    starts body offset (Foreach item index collection b) → Forall2 (mirrors body) b ds →
    mirrors body (Foreach item index collection b) (mkDebugStatement offset ds)
| m_if condition ts es offset ds1 ds2 :
    starts body offset (IfStmt condition ts es) → Forall2 (mirrors body) ts ds1 →
    Forall2 (mirrors body) (default [] es) ds2 →
    mirrors body (IfStmt condition ts es) (mkDebugStatement offset (ds1 ++ ds2)).

(** ** Parsers that intern *)

Definition known_type (t : TypeTable) (id : TypeId) : Prop := 0 ≤ id ∧ is_Some (type_info t id).

(** The outcome of a parser that interns: [P] holds of the new table and the result. *)
Definition yields {A} (m : Tabled A) (t : TypeTable) (P : TypeTable → A → Prop) : Prop :=
  Table (m t).1 ∧ extends t (m t).1 ∧ match (m t).2 with Ok x => P (m t).1 x | Err e => e ≠ BodyFuel end.

Lemma yields_bind {A B} (m : Tabled A) (k : A → Tabled B) t P Q :
  yields m t P → (∀ t' x, Table t' → extends t t' → P t' x → yields (k x) t' Q) → yields (let! x := m in k x) t Q.
Proof.
  unfold yields, tabled_bind. intros (Ht & Hx & Hm) Hk. destruct (m t) as [t' [x|e]]; cbn [fst snd] in *; [|done].
  destruct (Hk t' x Ht Hx Hm) as (? & ? & ?). split_and!; [done|by etrans|done].
Qed.

Lemma yields_lift {A} (r : Result A BodyError) t P :
  Table t → settled r → (∀ x, r = Ok x → P t x) → yields (lift r) t P.
Proof. intros Ht Hs HP. split_and!; [done..|]. cbn. destruct r as [x|e]; [by apply HP|]. intros ->. by apply Hs. Qed.

Lemma yields_fail {A} message quoted t P : Table t → yields (@fail A message quoted) t P.
Proof. by intros. Qed.

Lemma yields_mono {A} (m : Tabled A) t (P Q : TypeTable → A → Prop) :
  yields m t P → (∀ t' x, Table t' → extends t t' → P t' x → Q t' x) → yields m t Q.
Proof. intros (Ht & Hx & Hm) H. split_and!; [done..|]. destruct (m t) as [t' [x|e]]; cbn in *; [by apply H|done]. Qed.

(** What holds for all the types of the tables that extend [t]. *)
Definition upto (t : TypeTable) (F : (TypeId → Prop) → Prop) : Prop := ∀ K, (∀ id, known_type t id → K id) → F K.

Lemma upto_mono t t' F : extends t t' → upto t F → upto t' F.
Proof. intros Hx H K HK. apply H. intros id Hid. apply HK. unfold known_type in *. destruct Hid as [Hp [info Hi]]. split; [done|]. exists info. by eapply type_info_mono. Qed.

(** ** Targets *)

Section target.
Context (body : str) (Hfits : fits body).

Lemma target_loop_spec fuel (source : str) offset : ∀ c next,
  (length source < fuel + next)%nat → (next ≤ length source)%nat →
  match target_loop fuel source offset c next with
  | Ok (c', next') => (next ≤ next' ≤ length source)%nat ∧ (occurs body offset source → chain_ok body c → chain_ok body c')
  | Err e => e ≠ BodyFuel
  end.
Proof.
  induction fuel as [|fuel IH]; intros c next Hlt Hle; [lia|]. cbn [target_loop].
  destruct (skip_whitespace_spec source next) as [Hs1 Hs2]. specialize (Hs2 Hle).
  set (n := skip_ascii_whitespace source next) in *. clearbody n.
  destruct (source !! n) as [byte|] eqn:Hb; [|by split]. apply lookup_lt_Some in Hb.
  destruct (byte =? DOT).
  { destruct (ch_nested c); [done|]. set (m := skip_ascii_whitespace source (S n)).
    destruct (parse_identifier source m) as [[segment after]|e] eqn:Hid; cbn [result_bind].
    2:{ intros ->. unfold parse_identifier in Hid. repeat case_match; simplify_eq. }
    apply parse_identifier_Ok in Hid as (Hr & _). destruct (skip_whitespace_spec source (S n)) as [Hm _]. fold m in Hm.
    specialize (IH (chain_segment c segment) after ltac:(lia) ltac:(lia)).
    destruct (target_loop _ _ _ _ _) as [[c' next']|e]; [|done]. destruct IH as [? Hc]. split; [lia|].
    intros Ho Hok. by apply Hc, chain_segment_ok. }
  destruct (byte =? LSQUARE); [|by split; [lia|]]. destruct (bool_decide _ && _); [done|].
  destruct (find_matching_delimiter source n LSQUARE RSQUARE) as [close|] eqn:Hm; [|done]. cbn [ok_or result_bind].
  apply find_matching_bounds in Hm as (Hr & _); [|done]. case_bool_decide; [done|].
  set (slice := text_slice source (S n) close). set (o := offset_add (offset_add offset (S n)) (trim_offset slice)).
  pose proof (parse_simple_expression_settled (trim slice) o) as Hset.
  destruct (parse_simple_expression_at (trim slice) o) as [e|e] eqn:He; cbn [result_bind]; [|by intros ->].
  destruct (is_negative_constant e) eqn:Hneg; [done|].
  set (c1 := match ch_index c with Some _ => _ | None => _ end).
  specialize (IH c1 (S close) ltac:(lia) ltac:(lia)).
  destruct (target_loop _ _ _ _ _) as [[c' next']|e']; [|done]. destruct IH as [? Hc]. split; [lia|].
  intros Ho Hok. apply Hc; [done|].
  assert (index_ok body e) as Hie.
  { split; [|done]. eapply parse_simple_expression_ok; [done| |exact He]. apply occurs_trim; [done|].
    apply occurs_slice; [done..|lia]. }
  destruct Hok as (Hi & Hn & Hb'). unfold c1. destruct (ch_index c) eqn:Ei; split_and!; cbn; naive_solver.
Qed.

Lemma parse_identifier_settled source cursor : settled (parse_identifier source cursor).
Proof. unfold parse_identifier. settle. Qed.

Lemma parse_target_spec source cursor offset :
  match parse_assignment_target_at source cursor offset with
  | Ok (target, next) => (next ≤ length source)%nat ∧ (occurs body offset source → target_ok body target)
  | Err e => e ≠ BodyFuel
  end.
Proof.
  unfold parse_assignment_target_at. pose proof (parse_identifier_settled source cursor) as Hs.
  destruct (parse_identifier source cursor) as [[first next]|e] eqn:Hid; cbn [result_bind]; [|by intros ->].
  apply parse_identifier_Ok in Hid as (Hr & _).
  pose proof (target_loop_spec (S (length source)) source offset (mkChain first None None []) next ltac:(lia) ltac:(lia)) as Ht.
  destruct (target_loop _ _ _ _ _) as [[c next']|e]; cbn [result_bind]; [|done]. destruct Ht as [? Hc]. split; [lia|].
  intros Ho. specialize (Hc Ho (chain_start_ok body first)). destruct Hc as (Hi & Hn & _). unfold chain_target.
  destruct (ch_index c) as [index|]; [|unfold assign_target_from_path; by case_match]. split; [by apply Hi|].
  destruct (ch_nested c); [by apply Hn|done].
Qed.

Lemma parse_target_settled source cursor offset : settled (parse_assignment_target_at source cursor offset).
Proof. pose proof (parse_target_spec source cursor offset) as H. unfold settled. destruct (parse_assignment_target_at _ _ _) as [?|e]; [done|]. congruence. Qed.
End target.

(** ** Simple statements *)

Section simple.
Context (body : str) (Hfits : fits body).

Lemma occurs_strip offset text prefix rest :
  occurs body offset text → strip_prefix prefix text = Some rest →
  occurs body (offset_add offset (length prefix)) rest ∧ (length prefix ≤ length text)%nat.
Proof.
  intros Ho ->%strip_prefix_spec. rewrite length_app. split; [|lia].
  pose proof (occurs_drop body offset (prefix ++ rest) (length prefix) Hfits Ho) as H. rewrite drop_app_length in H.
  apply H. rewrite length_app. lia.
Qed.

(** The text after [n] bytes, without the white space around it. *)
Lemma occurs_trim_drop offset text n :
  occurs body offset text → (n ≤ length text)%nat →
  occurs body (offset_add offset (n + trim_offset (drop n text))) (trim (drop n text)).
Proof. intros Ho Hn. rewrite offset_add_add. by apply occurs_trim, occurs_drop. Qed.

Lemma occurs_trim_slice offset text i j :
  occurs body offset text → (i ≤ length text)%nat →
  occurs body (offset_add offset (i + trim_offset (text_slice text i j))) (trim (text_slice text i j)).
Proof. intros Ho Hn. rewrite offset_add_add. by apply occurs_trim, occurs_slice. Qed.

Lemma yields_bind_lift {A B} (r : Result A BodyError) (k : A → Tabled B) t Q :
  Table t → settled r → (∀ x, r = Ok x → yields (k x) t Q) → yields (let! x := lift r in k x) t Q.
Proof.
  unfold yields, tabled_bind. intros Ht Hs Hk. cbn. destruct r as [x|e]; [by apply Hk|].
  split_and!; [done..|]. cbn. intros ->. by apply Hs.
Qed.

Lemma split_type_settled source start : settled (split_type_annotation_and_initializer source start).
Proof. unfold split_type_annotation_and_initializer. cbv zeta. settle. Qed.

Lemma split_type_Ok offset source start name expression at_ :
  occurs body offset source → split_type_annotation_and_initializer source start = Ok (name, Some (expression, at_)) →
  occurs body (offset_add offset at_) expression.
Proof.
  intros Ho. unfold split_type_annotation_and_initializer. cbv zeta. destruct (_ <=? _)%nat; [done|].
  destruct (find_byte EQUALS (drop start source)) as [distance|] eqn:Hf; [|by case_bool_decide].
  case_bool_decide; [done|]. case_bool_decide; [done|]. intros [= <- <- <-]. apply occurs_trim_drop; [done|].
  unfold find_byte in Hf. apply fmap_Some in Hf as ([i x] & Hf & ->). apply list_find_Some in Hf as (Hf & _ & _).
  apply lookup_lt_Some in Hf. rewrite length_drop in Hf. simpl. lia.
Qed.

(** A type that a statement names. *)
Lemma intern_type_yields name t quoted :
  Table t →
  yields (λ t, match resolve_or_intern name t with
               | (t, Ok id) => (t, Ok id)
               | (t, Err _) => (t, Err (BodyErr "unsupported let type" quoted))
               end) t known_type.
Proof.
  intros Ht. unfold yields, resolve_or_intern.
  destruct (intern_inner_spec (trim name) t Ht (trim_trim name)) as (Ht' & Hx & Hr).
  destruct (resolve_or_intern_inner _ _) as [t' [id|e]]; cbn [fst snd] in *; [|by split_and!].
  split_and!; [done..|]. destruct (denote_key _ _ _ Ht' Hr) as (key & _ & Hp & Hk).
  split; [done|]. destruct (table_info _ _ _ Ht' Hk) as [info Hi]. by exists info.
Qed.

Definition upto_stmt (t : TypeTable) (s : SimpleStmt) : Prop := upto t (λ K, stmt_ok body K s).

Lemma parse_let_yields text offset t :
  Table t → occurs body offset text →
  yields (parse_let_statement_at text offset) t
    (λ t' s, upto_stmt t' s ∧ ∃ name type_id e, s = LetStmt name type_id e).
Proof.
  intros Ht Ho. unfold parse_let_statement_at. cbv zeta.
  apply yields_bind_lift; [done|auto with settled|]. intros after Ha.
  destruct (strip_prefix _ text) as [after'|] eqn:Hs; [|done]. injection Ha as ->.
  destruct (occurs_strip _ _ _ _ Ho Hs) as [Hoa _]. change (length (string_bytes "let")) with 3%nat in Hoa.
  apply yields_bind_lift; [done|apply parse_identifier_settled|]. intros [name next] Hid.
  apply parse_identifier_Ok in Hid as (Hr & _ & Hname). destruct (skip_whitespace_spec after next) as [_ Hc].
  specialize (Hc ltac:(lia)). set (c := skip_ascii_whitespace after next) in *. clearbody c.
  destruct (after !! c) as [byte|] eqn:Hb; [|by apply yields_fail]. apply lookup_lt_Some in Hb.
  destruct (byte =? COLON).
  - apply yields_bind_lift; [done|apply split_type_settled|]. intros [type_name initializer] Hsp.
    eapply yields_bind; [by apply intern_type_yields|]. intros t1 id Ht1 _ Hid.
    assert (∀ e, e = DefaultValue id ∨ expr_ok body e → upto_stmt t1 (LetStmt name (Some id) e)) as Hok.
    { intros e He K HK. split; [done|]. split; [by apply HK|done]. }
    destruct initializer as [[expression_text at_]|].
    + apply yields_bind_lift; [done|auto with settled|]. intros e He. apply yields_lift; [done..|]. intros ? [= <-].
      split; [|by eexists _, _, _]. apply Hok. right. eapply parse_value_expression_ok; [done| |done].
      rewrite offset_add_add. by eapply split_type_Ok.
    + apply yields_bind_lift; [done..|]. intros e [= <-]. apply yields_lift; [done..|]. intros ? [= <-].
      split; [|by eexists _, _, _]. apply Hok. by left.
  - destruct (byte =? EQUALS); [|by apply yields_fail]. case_bool_decide; [by apply yields_fail|].
    apply yields_bind_lift; [done|auto with settled|]. intros e He. apply yields_lift; [done..|]. intros ? [= <-].
    split; [|by eexists _, _, _]. intros K _. split; [done|]. eapply parse_value_expression_ok; [done| |done].
    rewrite offset_add_add. by apply occurs_trim_drop.
Qed.

Lemma assignment_operator_len rest op width : assignment_operator rest = Some (op, width) → (width ≤ length rest)%nat.
Proof.
  unfold assignment_operator. cbv zeta. intros H.
  repeat match type of H with
  | (if ?c then _ else _) = _ => destruct c eqn:E; [apply starts_with_spec in E as [r ->]; injection H as <- <-; rewrite length_app; simpl; lia|clear E]
  end. done.
Qed.

(** The statements without types. *)
Definition pure_ok (r : Result SimpleStmt BodyError) (P : SimpleStmt → Prop) : Prop :=
  settled r ∧ ∀ s, r = Ok s → (∀ K, stmt_ok body K s) ∧ P s.

Lemma pure_ok_yields r P t : Table t → pure_ok r P → yields (lift r) t (λ t' s, upto_stmt t' s ∧ P s).
Proof. intros Ht [Hs Hok]. apply yields_lift; [done..|]. intros s [Hk HP]%Hok. split; [|done]. intros K _. apply Hk. Qed.

Lemma pure_ok_bind {A} (r : Result A BodyError) k P :
  settled r → (∀ x, r = Ok x → pure_ok (k x) P) → pure_ok (result_bind r k) P.
Proof.
  intros Hs Hk. destruct r as [x|e]; [by apply Hk|]. split; [|done]. intros [= ->]. by apply Hs.
Qed.

Lemma pure_ok_err message quoted P : pure_ok (Err (BodyErr message quoted)) P.
Proof. done. Qed.

Lemma pure_ok_ret s (P : SimpleStmt → Prop) : (∀ K, stmt_ok body K s) → P s → pure_ok (Ok s) P.
Proof. intros ??. split; [done|]. by intros ? [= <-]. Qed.

Lemma parse_assignment_ok text offset :
  occurs body offset text →
  pure_ok (parse_assignment_statement_at text offset) (λ s, ∃ target op e, s = Assign target op e).
Proof.
  intros Ho. unfold parse_assignment_statement_at. cbv zeta.
  apply pure_ok_bind; [by eapply parse_target_settled|]. intros [target next] Ht.
  pose proof (parse_target_spec body Hfits text (skip_ascii_whitespace text 0) offset) as Hsp. rewrite Ht in Hsp.
  destruct Hsp as [Hn Htok]. destruct (skip_whitespace_spec text next) as [_ Hc]. specialize (Hc Hn).
  set (c := skip_ascii_whitespace text next) in *. clearbody c.
  apply pure_ok_bind; [auto with settled|]. intros [op width] Hop.
  destruct (assignment_operator (drop c text)) as [[op' w']|] eqn:Ha; [|done]. injection Hop as -> ->.
  apply assignment_operator_len in Ha. rewrite length_drop in Ha.
  case_bool_decide; [apply pure_ok_err|]. apply pure_ok_bind; [auto with settled|]. intros e He.
  apply pure_ok_ret; [|by eexists _, _, _]. intros K. split; [by apply Htok|].
  eapply parse_value_expression_ok; [done| |done]. apply occurs_trim_drop; [done|lia].
Qed.

Lemma find_text_Some pattern text i :
  find_text pattern text = Some i → ∃ pre post, text = pre ++ pattern ++ post ∧ i = length pre.
Proof.
  revert i. induction text as [|b text IH]; intros i; cbn [find_text].
  - destruct (starts_with pattern []) eqn:E; [|done]. intros [= <-]. apply starts_with_spec in E as [r ->]. by exists [], r.
  - destruct (starts_with pattern (b :: text)) eqn:E.
    + intros [= <-]. apply starts_with_spec in E as [r Hr]. by exists [], r.
    + intros (j & Hj & ->)%fmap_Some. apply IH in Hj as (pre & post & -> & ->). by exists (b :: pre), post.
Qed.

Lemma conversion_marker_Some trimmed pos marker kind :
  conversion_marker trimmed = Some (pos, marker, kind) →
  ∃ pre post, trimmed = pre ++ string_bytes marker ++ post ∧ pos = length pre
    ∧ string_bytes marker = [DOT] ++ conversion_name kind ++ [LPAR].
Proof.
  unfold conversion_marker. cbv zeta. intros H.
  repeat match type of H with
  | match find_text ?p ?s with _ => _ end = _ =>
      destruct (find_text p s) eqn:E; [apply find_text_Some in E as (pre & post & -> & ->); injection H as <- <- <-; by exists pre, post|clear E]
  end. done.
Qed.

Lemma parse_conversion_ok text offset :
  occurs body offset text →
  pure_ok (parse_from_conversion_statement_at text offset) (λ s, ∃ target kind span e, s = Convert target kind span e).
Proof.
  intros Ho0. unfold parse_from_conversion_statement_at. cbv zeta. pose proof (occurs_trim _ _ _ Hfits Ho0) as Ho.
  set (trimmed := trim text) in *. clearbody trimmed. set (at_ := trim_offset text) in *. clearbody at_.
  apply pure_ok_bind; [auto with settled|]. intros [[pos marker] kind] Hm.
  destruct (conversion_marker trimmed) as [[[p m] k]|] eqn:E; [|done]. injection Hm as -> -> ->.
  apply conversion_marker_Some in E as (pre & post & Htr & Hpos & Hmk).
  assert (String.length marker = S (S (length (conversion_name kind)))) as Hlen.
  { rewrite <- length_string_bytes, Hmk, !length_app. simpl. lia. }
  case_bool_decide; [apply pure_ok_err|]. rewrite Hlen.
  set (open := (pos + _ - 1)%nat). apply pure_ok_bind; [auto with settled|]. intros close Hc.
  destruct (find_matching_delimiter trimmed open LPAR RPAR) as [c|] eqn:E; [|done]. injection Hc as ->.
  apply find_matching_bounds in E as (Hr & _); [|done].
  case_bool_decide; [apply pure_ok_err|]. apply pure_ok_bind; [auto with settled|]. intros source Hsource.
  apply pure_ok_bind; [auto with settled|]. intros first Hfirst. apply pure_ok_bind; [auto with settled|]. intros last Hlast.
  destruct (negb _); [apply pure_ok_err|]. apply pure_ok_bind; [by eapply parse_target_settled|]. intros [target next] Htarget.
  destruct (negb _); [apply pure_ok_err|]. apply pure_ok_ret; [|by eexists _, _, _, _].
  pose proof (parse_target_spec body Hfits (trim (take pos trimmed)) 0
    (offset_add offset (at_ + trim_offset (take pos trimmed)))) as Htok. rewrite Htarget in Htok. destruct Htok as [_ Htok].
  intros K. split_and!.
  - assert (S pos + length (conversion_name kind) ≤ length trimmed)%nat as Hle.
    { rewrite Htr, !length_app, Hmk, !length_app. simpl. lia. }
    rewrite (offset_add_exact _ _ _ _ Hfits Ho) in Hfirst, Hlast by lia. unfold checked_u in *.
    replace (S (S (length (conversion_name kind))) - 2)%nat with (length (conversion_name kind)) in Hlast by lia.
    assert (offset_add (offset_add offset at_ + Z.of_nat (S pos)) (length (conversion_name kind))
      = offset_add offset at_ + Z.of_nat (S pos + length (conversion_name kind))) as Hend.
    { rewrite Nat2Z.inj_add, Z.add_assoc. eapply offset_add_exact; [exact Hfits| |].
      - rewrite <- (offset_add_exact _ _ _ _ Hfits Ho) by lia. eapply occurs_drop; [done..|lia].
      - rewrite length_drop. lia. }
    rewrite Hend in Hlast. case_bool_decide; [|done]. case_bool_decide; [|done]. injection Hfirst as <-. injection Hlast as <-.
    pose proof (occurs_names _ _ _ (S pos) (S pos + length (conversion_name kind)) Hfits Ho ltac:(lia)) as Hn.
    replace (text_slice trimmed (S pos) (S pos + length (conversion_name kind))) with (conversion_name kind) in Hn; [done|].
    unfold text_slice. replace (S pos + length (conversion_name kind) - S pos)%nat with (length (conversion_name kind)) by lia.
    rewrite Htr, Hmk, Hpos. change ([DOT] ++ conversion_name kind ++ [LPAR]) with (DOT :: conversion_name kind ++ [LPAR]).
    cbn [app]. rewrite cons_middle, app_assoc. replace (S (length pre)) with (length (pre ++ [DOT])) by (rewrite length_app; simpl; lia).
    rewrite drop_app_length, <- app_assoc. by rewrite take_app_length.
  - apply Htok. rewrite offset_add_add. by apply occurs_trim, occurs_take.
  - eapply parse_simple_expression_ok; [done| |done]. rewrite offset_add_add. apply occurs_trim_slice; [done|lia].
Qed.

Lemma parse_call_ok text offset :
  occurs body offset text →
  pure_ok (parse_call_statement_at text offset) (λ s, ∃ e, s = ExprStmt e).
Proof.
  intros Ho. unfold parse_call_statement_at. apply pure_ok_bind; [auto with settled|]. intros e He.
  destruct (is_call e) eqn:Hc; [|apply pure_ok_err]. apply pure_ok_ret; [|by eexists].
  intros K. split; [done|]. by eapply parse_value_expression_ok.
Qed.

Lemma parse_return_ok text offset :
  occurs body offset text →
  pure_ok (parse_return_statement_at text offset) (λ s, s = ReturnVoid ∨ ∃ e, s = Return e).
Proof.
  intros Ho. unfold parse_return_statement_at. cbv zeta. apply pure_ok_bind; [auto with settled|]. intros after Ha.
  destruct (strip_prefix _ text) as [after'|] eqn:Hs; [|done]. injection Ha as ->.
  destruct (occurs_strip _ _ _ _ Ho Hs) as [Hoa _]. change (length (string_bytes "return")) with 6%nat in Hoa.
  case_bool_decide; [apply pure_ok_ret; [done|by left]|]. apply pure_ok_bind; [auto with settled|]. intros e He.
  apply pure_ok_ret; [|by eauto]. intros K. eapply parse_value_expression_ok; [done| |done].
  rewrite offset_add_add. by apply occurs_trim.
Qed.

Lemma parse_continue_ok text : pure_ok (parse_continue_statement text) (λ s, s = Continue).
Proof. unfold parse_continue_statement. destruct (negb _); [apply pure_ok_err|by apply pure_ok_ret]. Qed.

(** ** The header of a [for] *)

Lemma parse_control_yields text offset t :
  Table t → occurs body offset text → trim text ≠ [] →
  yields (parse_for_control_segment_at text offset) t (λ t' s, upto_stmt t' s ∧ is_control s = true).
Proof.
  intros Ht Ho0 Hne. unfold parse_for_control_segment_at. cbv zeta.
  pose proof (occurs_trim _ _ _ Hfits Ho0) as Ho. rewrite bool_decide_eq_false_2 by done.
  set (o := offset_add _ _) in *. clearbody o.
  assert (∀ m (P : SimpleStmt → Prop), (∀ s, P s → is_control s = true) → yields m t (λ t' s, upto_stmt t' s ∧ P s) →
    yields m t (λ t' s, upto_stmt t' s ∧ is_control s = true)) as Hweak.
  { intros m P HP Hm. eapply yields_mono; [exact Hm|]. intros t' s _ _ [? ?]. auto. }
  destruct (starts_with_keyword _ _ _).
  { eapply Hweak; [|by apply parse_let_yields]. by intros s (? & ? & ? & ->). }
  case_bool_decide.
  { eapply Hweak; [|by apply pure_ok_yields, parse_conversion_ok]. by intros s (? & ? & ? & ? & ->). }
  destruct (looks_like_assignment _ _).
  { eapply Hweak; [|by apply pure_ok_yields, parse_assignment_ok]. by intros s (? & ? & ? & ->). }
  pose proof (parse_call_ok (trim text) o Ho) as [_ Hok]. destruct (parse_call_statement_at _ _) as [s|e]; [|by apply yields_fail].
  apply yields_lift; [done..|]. intros s' [= ->]. destruct (Hok s' eq_refl) as [Hs [e ->]]. split; [|done]. intros K _. apply Hs.
Qed.

Lemma header_loop_parts rest : ∀ index mode depth start parts n,
  (index + length rest = n)%nat → (start ≤ index)%nat → Forall (λ p, (p.1 ≤ n)%nat) parts →
  Forall (λ p : nat * nat, (p.1 ≤ n)%nat) (header_loop rest index mode depth start parts).
Proof.
  induction rest as [|b rest IH]; intros index mode depth start parts n Hn Hs Hp; simpl in Hn.
  { cbn [header_loop]. apply Forall_app. split; [done|]. constructor; [simpl; lia|constructor]. }
  cbn [header_loop]. cbv zeta. destruct (skipped _ _ _); [apply IH; (done || lia)|].
  repeat case_match; apply IH; try (done || lia). apply Forall_app. split; [done|]. constructor; [simpl; lia|constructor].
Qed.

Lemma split_header_Ok header a b c :
  split_for_header_ranges header = Ok (a, b, c) →
  (a.1 ≤ length header)%nat ∧ (b.1 ≤ length header)%nat ∧ (c.1 ≤ length header)%nat.
Proof.
  unfold split_for_header_ranges. pose proof (header_loop_parts header 0 InCode 0 0 [] (length header) eq_refl (le_n 0) (List.Forall_nil _)) as Hp.
  destruct (header_loop _ _ _ _ _ _) as [|x [|y [|z [|]]]]; try done. intros [= <- <- <-]. rewrite !Forall_cons in Hp. tauto.
Qed.

Lemma split_header_settled header : settled (split_for_header_ranges header).
Proof. unfold split_for_header_ranges. settle. Qed.

Lemma parse_for_header_yields header offset t :
  Table t → occurs body offset header →
  yields (parse_for_header header offset) t (λ t' '(init, condition, step),
    upto_stmt t' init ∧ is_control init = true ∧ condition_ok body condition ∧ upto_stmt t' step ∧ is_control step = true).
Proof.
  intros Ht Ho. unfold parse_for_header. apply yields_bind_lift; [done|apply split_header_settled|].
  intros [[a b] c] (Ha & Hb & Hc)%split_header_Ok. cbv zeta. destruct (_ || _) eqn:Hne; [by apply yields_fail|].
  rewrite !orb_false_iff, !bool_decide_eq_false in Hne. destruct Hne as [[Hna Hnb] Hnc].
  assert (∀ r : nat * nat, (r.1 ≤ length header)%nat →
    occurs body (offset_add (offset_add offset r.1) (trim_offset (text_slice header r.1 r.2))) (trim (text_slice header r.1 r.2))) as Hr.
  { intros r Hle. rewrite <- offset_add_add. by apply occurs_trim_slice. }
  eapply yields_bind; [apply parse_control_yields; [done|by apply Hr|by rewrite trim_trim]|]. intros t1 init Ht1 _ [Hi Hci].
  apply yields_bind_lift; [done|auto with settled|]. intros condition Hcond. eapply parse_condition_ok in Hcond; [|done|by apply Hr].
  eapply yields_bind; [apply parse_control_yields; [done|by apply Hr|by rewrite trim_trim]|]. intros t2 step Ht2 Hx [Hs Hcs].
  apply yields_lift; [done..|]. intros ? [= <-]. split_and!; try done. by eapply upto_mono.
Qed.

Lemma path_loop_settled (source : str) fuel : ∀ path next,
  (length source < fuel + next)%nat → (next ≤ length source)%nat → settled (path_loop fuel source path next).
Proof.
  induction fuel as [|fuel IH]; intros path next Hlt Hle; [lia|]. cbn [path_loop].
  destruct (skip_whitespace_spec source next) as [Hs1 Hs2]. specialize (Hs2 Hle).
  set (n := skip_ascii_whitespace source next) in *. clearbody n. case_bool_decide as Hd; cbn [negb]; [|done].
  apply lookup_lt_Some in Hd. destruct (skip_whitespace_spec source (S n)) as [Hs _].
  set (m := skip_ascii_whitespace source (S n)) in *. clearbody m.
  apply settled_bind; [apply parse_identifier_settled|]. intros [segment after] (Hr & _)%parse_identifier_Ok. apply IH; lia.
Qed.

Lemma parse_path_settled source cursor : settled (parse_identifier_path source cursor).
Proof.
  unfold parse_identifier_path. apply settled_bind; [apply parse_identifier_settled|].
  intros [first next] (Hr & _)%parse_identifier_Ok. apply path_loop_settled; lia.
Qed.

Hint Resolve parse_identifier_settled parse_path_settled : settled.

Lemma parse_foreach_header_settled header : settled (parse_foreach_header header).
Proof. unfold parse_foreach_header. cbv zeta. settle. Qed.

Lemma parse_foreach_header_Ok header item index collection :
  parse_foreach_header header = Ok (item, index, collection) →
  identifier item ∧ ∀ name, index = Some name → identifier name.
Proof.
  unfold parse_foreach_header. cbv zeta. destruct (negb _); [done|]. intros H.
  apply step_Ok in H as (rest & _ & H). apply step_Ok in H as ([first next] & Hid & H).
  apply parse_identifier_Ok in Hid as (_ & _ & Hid). apply step_Ok in H as ([index_name c] & Hix & H).
  destruct (negb _); [done|]. apply step_Ok in H as ([path next'] & _ & H). destruct (negb _); [done|].
  injection H as <- <- <-. split; [done|]. intros name ->. case_bool_decide; [|done].
  apply step_Ok in Hix as ([second n] & Hs & Hix). apply parse_identifier_Ok in Hs as (_ & _ & Hs). by injection Hix as -> _.
Qed.
End simple.
