(* ===== verification/BodyProps.v ===== *)
(** * The body parser: blocks

    Parsing a body never lacks fuel; what it gives is a tree of that body, with every span
    where the body has the name, every type in the table, and a debug statement for each
    statement at its place. *)

From S2P Require Import Prelude Lexer Identity Text Functions Hir Types TypesProps TypesTable BodyScan BodyExpr.
From S2P Require Import BodyParser BodyScanProps BodyExprProps BodyTokensProps BodyStmts.
#[local] Open Scope Z_scope.
#[local] Set Warnings "-clear-no-such-hyp".

Section blocks.
Context (body : str) (Hfits : fits body).

(** ** A statement in a text *)

Lemma drop_lookup {A} (l : list A) n c rest : drop n l = c :: rest → l !! n = Some c.
Proof. intros H. rewrite <- (Nat.add_0_r n), <- lookup_drop. by rewrite H. Qed.

Lemma occurs_take_drop offset inner cursor n :
  occurs body offset inner → (cursor + n ≤ length inner)%nat →
  take n (drop (Z.to_nat (offset + Z.of_nat cursor)) body) = take n (drop cursor inner).
Proof.
  intros (pre & post & -> & ->) Hle. rewrite <- Nat2Z.inj_add, Nat2Z.id.
  rewrite drop_app_ge by lia. replace (length pre + cursor - length pre)%nat with cursor by lia.
  rewrite drop_app_le by lia. apply take_app_le. rewrite length_drop. lia.
Qed.

Lemma keyword_bounds source cursor keyword :
  starts_with_keyword source cursor keyword = true → (0 < String.length keyword)%nat →
  (cursor + String.length keyword ≤ length source)%nat.
Proof.
  intros H%keyword_spec Hk. apply (f_equal length) in H. rewrite length_string_bytes, length_take, length_drop in H. lia.
Qed.

(** A byte that is no white space. *)
Definition solid_at (source : str) (cursor : nat) : Prop :=
  ∃ b, source !! cursor = Some b ∧ is_ascii_whitespace b = false.

Lemma solid_after_comments source cursor :
  (skip_ascii_whitespace_and_comments source cursor < length source)%nat →
  solid_at source (skip_ascii_whitespace_and_comments source cursor).
Proof.
  intros Hlt. destruct (skip_comments_spec source cursor) as (_ & _ & Hb).
  destruct (lookup_lt_is_Some_2 source _ Hlt) as [b H]. exists b. split; [done|by apply Hb].
Qed.

Lemma starts_at offset inner cursor s :
  occurs body offset inner → solid_at inner cursor →
  (∀ keyword, leading s = Some keyword → starts_with_keyword inner cursor keyword = true) →
  starts body (offset_add offset cursor) s.
Proof.
  intros Ho (b & Hb & Hw) Hk. pose proof (lookup_lt_Some _ _ _ Hb) as Hlt.
  rewrite (offset_add_exact _ _ _ _ Hfits Ho) by lia. pose proof (occurs_range _ _ _ Ho) as Hr. split_and!; [lia| |].
  - exists b. split; [|done]. pose proof (occurs_take_drop offset inner cursor 1 Ho ltac:(lia)) as H.
    rewrite (drop_S inner b cursor Hb) in H. cbn [take] in H.
    destruct (drop _ body) as [|c rest] eqn:E; [done|]. injection H as ->. by eapply drop_lookup.
  - intros keyword Hl. assert (0 < String.length keyword)%nat as Hpos.
    { destruct s; cbn in Hl; simplify_eq; simpl; lia. }
    apply Hk in Hl. pose proof (keyword_bounds _ _ _ Hl Hpos) as Hbd. rewrite (occurs_take_drop _ _ _ _ Ho Hbd). by apply keyword_spec.
Qed.

(** ** A statement and the cursor after it *)

Definition stepped_ok (inner : str) (cursor : nat) (t : TypeTable) (x : Stepped) : Prop :=
  let '(s, d, next) := x in
  upto_stmt body t s ∧ mirrors body s d ∧ (cursor < next ≤ length inner)%nat.

Lemma debug_statement_settled base relative children : settled (debug_statement base relative children).
Proof. unfold debug_statement. settle. Qed.

Lemma debug_statement_Ok base relative children d :
  debug_statement base relative children = Ok d → d = mkDebugStatement (offset_add base relative) children.
Proof. unfold debug_statement, checked_u. case_bool_decide; [|done]. by intros [= <-]. Qed.

Lemma terminator_settled source start : settled (find_statement_terminator source start).
Proof. unfold find_statement_terminator. by destruct (terminator_loop _ _ _ _ _ _). Qed.

Lemma terminated_yields inner offset cursor parse t (P : SimpleStmt → Prop) :
  Table t → occurs body offset inner → solid_at inner cursor →
  (∀ text o, occurs body o text → yields (parse text o) t (λ t' s, upto_stmt body t' s ∧ P s)) →
  (∀ s, P s → is_simple s = true ∧ ∀ keyword, leading s = Some keyword → starts_with_keyword inner cursor keyword = true) →
  yields (terminated_statement inner offset cursor parse) t (stepped_ok inner cursor).
Proof.
  intros Ht Ho Hsolid Hparse HP. assert (cursor < length inner)%nat as Hlt by (destruct Hsolid as (b & Hb & _); by eapply lookup_lt_Some).
  unfold terminated_statement. cbv zeta. apply yields_bind_lift; [done|apply terminator_settled|].
  intros semicolon (Hr & _)%find_terminator_bounds.
  eapply yields_bind; [apply Hparse, occurs_trim_slice; [done..|lia]|]. intros t' s Ht' Hx [Hs [Hsimple Hk]%HP].
  apply yields_bind_lift; [done|apply debug_statement_settled|]. intros d ->%debug_statement_Ok.
  apply yields_lift; [done..|]. intros ? [= <-]. split_and!; [done| |lia..].
  apply m_simple; [done|]. by eapply starts_at.
Qed.

Lemma parse_simple_yields inner offset cursor t :
  Table t → occurs body offset inner → solid_at inner cursor →
  yields (parse_simple_statement inner offset cursor) t (stepped_ok inner cursor).
Proof.
  intros Ht Ho Hsolid. unfold parse_simple_statement.
  assert (∀ parse (P : SimpleStmt → Prop), (∀ text o, occurs body o text → pure_ok body (parse text o) P) →
    (∀ s, P s → is_simple s = true ∧ leading s = None) →
    yields (terminated_statement inner offset cursor (λ s o, lift (parse s o))) t (stepped_ok inner cursor)) as Hpure.
  { intros parse P Hparse HP. apply terminated_yields with P; [done..| |].
    - intros text o Hto. apply pure_ok_yields; [done|by apply Hparse].
    - intros s [H1 H2]%HP. split; [done|]. rewrite H2. done. }
  destruct (starts_with_keyword _ _ _); [by apply yields_fail|].
  destruct (looks_like_from_conversion_statement _ _).
  { eapply Hpure; [by intros; apply parse_conversion_ok|]. by intros s (? & ? & ? & ? & ->). }
  destruct (looks_like_assignment _ _).
  { eapply Hpure; [by intros; apply parse_assignment_ok|]. by intros s (? & ? & ? & ->). }
  destruct (looks_like_call_statement _ _).
  { eapply Hpure; [by intros; apply parse_call_ok|]. by intros s (? & ->). }
  by apply yields_fail.
Qed.

(** ** Blocks in a text *)

Lemma header_at_spec source cursor context message :
  settled (header_at source cursor context message)
  ∧ ∀ o c, header_at source cursor context message = Ok (o, c) → (cursor = o ∧ o < c < length source)%nat.
Proof.
  unfold header_at, expect_byte. cbv zeta. case_bool_decide; [|done]. cbn [result_bind]. rewrite Nat.sub_1_r. cbn [Nat.pred].
  destruct (find_matching_delimiter _ _ _ _) as [i|] eqn:E; [|done]. cbn [ok_or result_bind]. split; [done|].
  apply find_matching_bounds in E as (Hr & _); [|done]. intros o c [= <- <-]. lia.
Qed.

Lemma block_at_spec source cursor context message :
  settled (block_at source cursor context message)
  ∧ ∀ o c, block_at source cursor context message = Ok (o, c) → (cursor = o ∧ o < c < length source)%nat.
Proof.
  unfold block_at, expect_byte. cbv zeta. case_bool_decide; [|done]. cbn [result_bind]. rewrite Nat.sub_1_r. cbn [Nat.pred].
  destruct (find_matching_delimiter _ _ _ _) as [i|] eqn:E; [|done]. cbn [ok_or result_bind]. split; [done|].
  apply find_matching_bounds in E as (Hr & _); [|done]. intros o c [= <- <-]. lia.
Qed.

Definition upto_stmts (t : TypeTable) (l : list SimpleStmt) : Prop := upto t (λ K, stmts_ok body K l).

Definition block_ok (t : TypeTable) (p : ParsedSimpleStatements) : Prop :=
  upto_stmts t (parsed_statements p) ∧ Forall2 (mirrors body) (parsed_statements p) (parsed_debug p).

Definition else_ok (source : str) (cursor : nat) (children : list DebugStatement) (t : TypeTable)
    (x : option (list SimpleStmt) * list DebugStatement * nat) : Prop :=
  let '(es, children', next) := x in
  upto_stmts t (default [] es) ∧ (cursor ≤ next ≤ length source)%nat
  ∧ ∃ extra, children' = children ++ extra ∧ Forall2 (mirrors body) (default [] es) extra.

(** What the parsers that call each other give with some fuel. *)
Definition blocks_with (fuel : nat) : Prop := ∀ t text offset,
  Table t → occurs body offset text → (4 * length text + 1 ≤ fuel)%nat → yields (parse_block fuel text offset) t block_ok.

Definition statements_with (fuel : nat) : Prop := ∀ t inner offset cursor ss ds,
  Table t → occurs body offset inner → (cursor ≤ length inner)%nat → (4 * (length inner - cursor) + 4 ≤ fuel)%nat →
  upto_stmts t ss → Forall2 (mirrors body) ss ds →
  yields (statements_loop fuel inner offset cursor ss ds) t block_ok.

Definition statement_with (fuel : nat) : Prop := ∀ t inner offset cursor,
  Table t → occurs body offset inner → solid_at inner cursor → (4 * (length inner - cursor) + 3 ≤ fuel)%nat →
  yields (parse_statement fuel inner offset cursor) t (stepped_ok inner cursor).

(** A statement with blocks, that starts with [keyword]. *)
Definition nested_with (parse : nat → str → nat → Z → Tabled Stepped) (keyword : string) (fuel : nat) : Prop :=
  ∀ t source offset cursor,
  Table t → occurs body offset source → solid_at source cursor → starts_with_keyword source cursor keyword = true →
  (4 * (length source - cursor) + 2 ≤ fuel)%nat →
  yields (parse fuel source cursor offset) t (stepped_ok source cursor).

Definition else_with (fuel : nat) : Prop := ∀ t source offset cursor children,
  Table t → occurs body offset source → (cursor ≤ length source)%nat → (4 * (length source - cursor) + 1 ≤ fuel)%nat →
  yields (parse_else fuel source cursor offset children) t (else_ok source cursor children).

Lemma block_step fuel : statements_with fuel → blocks_with (S fuel).
Proof.
  intros Hloop t text offset Ht Ho Hf. cbn [parse_block]. cbv zeta. pose proof (occurs_trim _ _ _ Hfits Ho) as Htr.
  destruct (_ || _) eqn:E; [by apply yields_fail|]. rewrite orb_false_iff, !negb_false_iff, !bool_decide_eq_true in E.
  destruct E as [Hhead Hlast]. assert (2 ≤ length (trim text))%nat as Hlen.
  { destruct (trim text) as [|a [|b r]]; [done| |simpl; lia]. injection Hhead as ->. by injection Hlast. }
  pose proof (proj1 (trim_offset_spec text)) as Hto. pose proof (occurs_range _ _ _ Ho) as Hr. pose proof (occurs_range _ _ _ Htr) as Hr2.
  rewrite (offset_add_exact _ _ _ _ Hfits Ho Hto) in Hr2.
  apply yields_bind_lift; [done|auto with settled|]. intros inner_offset Hin. unfold checked_u in Hin.
  case_bool_decide; [|done]. injection Hin as <-.
  apply Hloop; [done| |lia| |by intros K _|constructor].
  - replace (offset + _ + 1) with (offset_add (offset_add offset (trim_offset text)) 1); [apply occurs_slice; (done || lia)|].
    rewrite (offset_add_exact _ _ _ _ Hfits Htr) by lia. rewrite (offset_add_exact _ _ _ _ Hfits Ho Hto). lia.
  - unfold text_slice. rewrite length_take, length_drop. rewrite (offset_add_exact _ _ _ _ Hfits Ho Hto) in Htr.
    pose proof (length_trim text). lia.
Qed.

Lemma loop_step fuel : statements_with fuel → statement_with fuel → statements_with (S fuel).
Proof.
  intros Hloop Hstmt t inner offset cursor ss ds Ht Ho Hc Hf Hss Hds. cbn [statements_loop]. cbv zeta.
  destruct (skip_comments_spec inner cursor) as (Hge & _ & _). pose proof (solid_after_comments inner cursor) as Hsolid.
  set (c := skip_ascii_whitespace_and_comments inner cursor) in *. clearbody c.
  destruct (Nat.leb_spec (length inner) c) as [Hle|Hlt].
  { apply yields_lift; [done..|]. by intros ? [= <-]. }
  eapply yields_bind; [apply Hstmt; [done..|by apply Hsolid|lia]|]. intros t' [[s d] next] Ht' Hx (Hs & Hm & Hn).
  apply Hloop; [done..|lia|lia| |].
  - intros K HK. apply stmts_ok_app; [by apply (upto_mono _ _ _ Hx Hss)|]. split; [by apply Hs|done].
  - apply Forall2_app; [done|]. by repeat constructor.
Qed.

Lemma statement_step fuel :
  nested_with parse_for_statement_at "for" fuel → nested_with parse_foreach_statement_at "foreach" fuel →
  nested_with parse_if_statement_at "if" fuel → statement_with (S fuel).
Proof.
  intros Hfor Hforeach Hif t inner offset cursor Ht Ho Hsolid Hf. cbn [parse_statement].
  destruct (starts_with_keyword inner cursor "let") eqn:E1.
  { eapply terminated_yields; [done..|by intros; apply parse_let_yields|]. intros s (? & ? & ? & ->). split; [done|]. by intros ? [= <-]. }
  destruct (starts_with_keyword inner cursor "return") eqn:E2.
  { eapply terminated_yields; [done..|by intros; apply pure_ok_yields, parse_return_ok|].
    intros s [->|[e ->]]; (split; [done|]); by intros ? [= <-]. }
  destruct (starts_with_keyword inner cursor "continue") eqn:E3.
  { eapply terminated_yields; [done..|by intros; apply pure_ok_yields, parse_continue_ok|]. intros s ->. split; [done|]. by intros ? [= <-]. }
  destruct (starts_with_keyword inner cursor "for") eqn:E4; [apply Hfor; (done || lia)|].
  destruct (starts_with_keyword inner cursor "foreach") eqn:E5; [apply Hforeach; (done || lia)|].
  destruct (starts_with_keyword inner cursor "if") eqn:E6; [apply Hif; (done || lia)|].
  by apply parse_simple_yields.
Qed.

(** The block of a statement, in what is left of its text after [cursor]. *)
Lemma block_slice fuel t source offset cursor open close :
  blocks_with fuel → Table t → occurs body offset source → (cursor < open < close)%nat → (close < length source)%nat →
  (4 * (length source - cursor) ≤ fuel)%nat →
  yields (parse_block fuel (text_slice source open (S close)) (offset_add offset open)) t block_ok.
Proof.
  intros Hb Ht Ho Hr Hc Hf. apply Hb; [done|apply occurs_slice; (done || lia)|].
  unfold text_slice. rewrite length_take, length_drop. lia.
Qed.

Lemma for_step fuel : blocks_with fuel → nested_with parse_for_statement_at "for" (S fuel).
Proof.
  intros Hb t source offset cursor Ht Ho Hsolid Hk Hf. cbn [parse_for_statement_at]. cbv zeta.
  destruct (skip_comments_spec source (cursor + 3)) as (Hge & _ & _).
  set (c := skip_ascii_whitespace_and_comments source (cursor + 3)) in *. clearbody c.
  destruct (header_at_spec source c "'(' after for" "missing ')' for for-header") as [Hs Hh].
  apply yields_bind_lift; [done..|]. intros [ho hc] [-> Hhr]%Hh.
  eapply yields_bind; [apply parse_for_header_yields, occurs_slice; (done || lia)|].
  intros t1 [[init condition] step] Ht1 Hx1 (Hi & Hci & Hcond & Hst & Hcst).
  destruct (skip_comments_spec source (S hc)) as (Hge2 & _ & _).
  set (c2 := skip_ascii_whitespace_and_comments source (S hc)) in *. clearbody c2.
  destruct (block_at_spec source c2 "'{' after for header" "missing '}' for for body") as [Hs2 Hh2].
  apply yields_bind_lift; [done..|]. intros [bo bc] [-> Hbr]%Hh2.
  eapply yields_bind; [apply (block_slice _ _ _ _ cursor); (done || lia)|]. intros t2 parsed Ht2 Hx2 [Hss Hds].
  apply yields_bind_lift; [done|apply debug_statement_settled|]. intros d ->%debug_statement_Ok.
  apply yields_lift; [done..|]. intros ? [= <-]. split_and!; [| |lia..].
  - intros K HK. split_and!; try done.
    + by apply (upto_mono _ _ _ Hx2 Hi).
    + by apply (upto_mono _ _ _ Hx2 Hst).
    + by apply Hss.
  - apply m_for; [|done]. eapply starts_at; [done..|]. by intros ? [= <-].
Qed.

Lemma foreach_step fuel : blocks_with fuel → nested_with parse_foreach_statement_at "foreach" (S fuel).
Proof.
  intros Hb t source offset cursor Ht Ho Hsolid Hk Hf. cbn [parse_foreach_statement_at]. cbv zeta.
  destruct (skip_comments_spec source (cursor + 7)) as (Hge & _ & _).
  set (c := skip_ascii_whitespace_and_comments source (cursor + 7)) in *. clearbody c.
  destruct (header_at_spec source c "'(' after foreach" "missing ')' for foreach-header") as [Hs Hh].
  apply yields_bind_lift; [done..|]. intros [ho hc] [-> Hhr]%Hh.
  apply yields_bind_lift; [done|apply parse_foreach_header_settled|].
  intros [[item index] collection] [Hitem Hindex]%parse_foreach_header_Ok.
  destruct (skip_comments_spec source (S hc)) as (Hge2 & _ & _).
  set (c2 := skip_ascii_whitespace_and_comments source (S hc)) in *. clearbody c2.
  destruct (block_at_spec source c2 "'{' after foreach header" "missing '}' for foreach body") as [Hs2 Hh2].
  apply yields_bind_lift; [done..|]. intros [bo bc] [-> Hbr]%Hh2.
  eapply yields_bind; [apply (block_slice _ _ _ _ cursor); (done || lia)|]. intros t2 parsed Ht2 Hx2 [Hss Hds].
  apply yields_bind_lift; [done|apply debug_statement_settled|]. intros d ->%debug_statement_Ok.
  apply yields_lift; [done..|]. intros ? [= <-]. split_and!; [| |lia..].
  - intros K HK. split_and!; [done..|]. by apply Hss.
  - apply m_foreach; [|done]. eapply starts_at; [done..|]. by intros ? [= <-].
Qed.

Lemma if_step fuel : blocks_with fuel → else_with fuel → nested_with parse_if_statement_at "if" (S fuel).
Proof.
  intros Hb He t source offset cursor Ht Ho Hsolid Hk Hf. cbn [parse_if_statement_at]. cbv zeta.
  destruct (skip_comments_spec source (cursor + 2)) as (Hge & _ & _).
  set (c := skip_ascii_whitespace_and_comments source (cursor + 2)) in *. clearbody c.
  destruct (header_at_spec source c "'(' after if" "missing ')' for if condition") as [Hs Hh].
  apply yields_bind_lift; [done..|]. intros [ho hc] [-> Hhr]%Hh. case_bool_decide; [by apply yields_fail|].
  apply yields_bind_lift; [done|auto with settled|]. intros condition Hcond. rewrite <- offset_add_add in Hcond.
  eapply parse_condition_ok in Hcond; [|done|apply occurs_trim_slice; (done || lia)].
  destruct (skip_comments_spec source (S hc)) as (Hge2 & _ & _).
  set (c2 := skip_ascii_whitespace_and_comments source (S hc)) in *. clearbody c2.
  destruct (block_at_spec source c2 "'{' after if condition" "missing '}' for if body") as [Hs2 Hh2].
  apply yields_bind_lift; [done..|]. intros [bo bc] [-> Hbr]%Hh2.
  eapply yields_bind; [apply (block_slice _ _ _ _ cursor); (done || lia)|]. intros t1 parsed Ht1 Hx1 [Hss Hds].
  eapply yields_bind; [apply He; [done..|lia|lia]|]. intros t2 [[es children] next] Ht2 Hx2 (Hes & Hn & extra & -> & Hextra).
  apply yields_bind_lift; [done|apply debug_statement_settled|]. intros d ->%debug_statement_Ok.
  apply yields_lift; [done..|]. intros ? [= <-]. split_and!; [| |lia..].
  - intros K HK. split_and!; [done|by apply (upto_mono _ _ _ Hx2 Hss)|]. specialize (Hes K HK). by destruct es.
  - apply m_if; [|done..]. eapply starts_at; [done..|]. by intros ? [= <-].
Qed.

Lemma else_step fuel : blocks_with fuel → nested_with parse_if_statement_at "if" fuel → else_with (S fuel).
Proof.
  intros Hb Hif t source offset cursor children Ht Ho Hc Hf. cbn [parse_else]. cbv zeta.
  destruct (skip_comments_spec source cursor) as (Hge & _ & _).
  set (c := skip_ascii_whitespace_and_comments source cursor) in *. clearbody c.
  destruct (starts_with_keyword source c "else") eqn:Helse; cbn [negb].
  2:{ apply yields_lift; [done..|]. intros ? [= <-]. split_and!; [done|lia..|]. exists []. by rewrite app_nil_r. }
  apply keyword_bounds in Helse; [|simpl; lia]. simpl in Helse.
  destruct (skip_comments_spec source (c + 4)) as (Hge2 & _ & _). pose proof (solid_after_comments source (c + 4)) as Hsolid.
  set (c2 := skip_ascii_whitespace_and_comments source (c + 4)) in *. clearbody c2.
  destruct (starts_with_keyword source c2 "if") eqn:Ek.
  - pose proof (keyword_bounds _ _ _ Ek) as Hkb. simpl in Hkb. specialize (Hkb ltac:(lia)).
    eapply yields_bind; [apply Hif; [done..|apply Hsolid; lia|done|lia]|]. intros t1 [[s d] next] Ht1 Hx1 (Hs & Hm & Hn).
    apply yields_lift; [done..|]. intros ? [= <-]. split_and!; [|lia..|].
    + intros K HK. split; [by apply Hs|done].
    + exists [d]. split; [done|]. by repeat constructor.
  - destruct (block_at_spec source c2 "'{' after else" "missing '}' for else body") as [Hs2 Hh2].
    apply yields_bind_lift; [done..|]. intros [bo bc] [-> Hbr]%Hh2.
    eapply yields_bind; [apply (block_slice _ _ _ _ cursor); (done || lia)|]. intros t1 parsed Ht1 Hx1 [Hss Hds].
    apply yields_lift; [done..|]. intros ? [= <-]. split_and!; [done|lia..|]. by eexists.
Qed.

Lemma blocks_enough fuel :
  blocks_with fuel ∧ statements_with fuel ∧ statement_with fuel ∧ nested_with parse_for_statement_at "for" fuel
  ∧ nested_with parse_foreach_statement_at "foreach" fuel ∧ nested_with parse_if_statement_at "if" fuel ∧ else_with fuel.
Proof.
  induction fuel as [|fuel (Hb & Hl & Hs & Hfor & Hforeach & Hif & He)].
  - split_and!; unfold blocks_with, statements_with, statement_with, nested_with, else_with; intros; lia.
  - split_and!; [by apply block_step|by apply loop_step|by apply statement_step|by apply for_step|by apply foreach_step
      |by apply if_step|by apply else_step].
Qed.
End blocks.

(** C9 Parsing a function body never lacks fuel, keeps the type table well formed and only
    adds types to it, also when it fails.  What it gives is a tree of that body: every call
    and conversion has the span at which the body names it, whatever the nesting; every
    declared type is in the new table; integer literals fit an [i64] and indexes are not
    negative constants; a [for] header has only control statements; and no name is resolved
    yet.  There is one debug statement for each statement, nested as the blocks are, and its
    offset is where the body has the statement: at its keyword, and never at white space. *)
Theorem body_parser_sound block t t' r :
  Table t → fits block → parse_simple_statements_with_debug block t = (t', r) →
  Table t' ∧ extends t t'
  ∧ match r with
    | Ok parsed =>
        stmts_ok block (known_type t') (parsed_statements parsed)
        ∧ Forall2 (mirrors block) (parsed_statements parsed) (parsed_debug parsed)
    | Err e => e ≠ BodyFuel
    end.
Proof.
  intros Ht Hf H. destruct (blocks_enough block Hf (body_fuel block)) as [Hb _].
  destruct (Hb t block 0 Ht (occurs_whole block)) as (Ht' & Hx & Hr); [unfold body_fuel; lia|].
  unfold parse_simple_statements_with_debug in H. rewrite H in *. cbn [fst snd] in *. split_and!; [done..|].
  destruct r as [parsed|e]; [|done]. destruct Hr as [Hs Hd]. split; [by apply Hs|done].
Qed.

(** ** Witness *)

Definition sample_body : str :=
  string_bytes "{ // i = 0; let x: i32[2]; if (f(x) < 2) { y.from_i32(g(1)); } else { return x[1]; } }".

(** The same body with the comment closed by a new line. *)
Definition sample_block : str := take 11 sample_body ++ [NEWLINE] ++ drop 11 sample_body.

Example sample_statements :
  match (parse_simple_statements_with_debug sample_block TypeTable_new).2 with
  | Ok p => (map leading (parsed_statements p), parsed_debug p)
  | Err _ => ([], [])
  end
  = ([Some "let"; Some "if"]%string,
     [mkDebugStatement 13 []; mkDebugStatement 28 [mkDebugStatement 44 []; mkDebugStatement 71 []]]).
Proof. by vm_compute. Qed.

Definition sample_outcome : TypeTable * Result ParsedSimpleStatements BodyError :=
  parse_simple_statements_with_debug sample_block TypeTable_new.

Lemma body_parser_sound_witness :
  Table sample_outcome.1 ∧ extends TypeTable_new sample_outcome.1
  ∧ match sample_outcome.2 with
    | Ok parsed =>
        stmts_ok sample_block (known_type sample_outcome.1) (parsed_statements parsed)
        ∧ Forall2 (mirrors sample_block) (parsed_statements parsed) (parsed_debug parsed)
    | Err e => e ≠ BodyFuel
    end.
Proof.
  apply (body_parser_sound sample_block TypeTable_new sample_outcome.1 sample_outcome.2).
  - apply new_table.
  - by vm_compute.
  - unfold sample_outcome. by destruct (parse_simple_statements_with_debug _ _).
Defined.

(** ** Statements that are taken for others *)

(** A call of [log] with the string [) = ] is a call, but [looks_like_assignment] knows no
    strings: the parenthesis of the string closes the call, and the equals sign follows. *)
Example call_with_equals_refused :
  let text := string_bytes "log(" ++ [QUOTE] ++ string_bytes ") = " ++ [QUOTE] ++ string_bytes ");" in
  looks_like_assignment text 0 = true
  ∧ looks_like_call_statement text 0 = true
  ∧ (parse_simple_statements_with_debug ([LCURLY] ++ text ++ [RCURLY]) TypeTable_new).2
    = Err (BodyErr "unsupported assignment operator in statement" [take (length text - 1) text]).
Proof. by vm_compute. Qed.

(** A call of [log] with the string [x.from_i32(1)] is taken for a conversion. *)
Example call_with_conversion_refused :
  let text := string_bytes "log(" ++ [QUOTE] ++ string_bytes "x.from_i32(1)" ++ [QUOTE] ++ string_bytes ");" in
  looks_like_from_conversion_statement text 0 = true
  ∧ looks_like_call_statement text 0 = true
  ∧ (parse_simple_statements_with_debug ([LCURLY] ++ text ++ [RCURLY]) TypeTable_new).2
    = Err (BodyErr "unexpected trailing tokens in conversion statement" [take (length text - 1) text]).
Proof. by vm_compute. Qed.

(** The receiver call [i = x.from_i32(1)] is an assignment in a body, but taken for a
    conversion of [i = x] as the step of a [for], and refused. *)
Example assignment_in_header_refused :
  let step := string_bytes "i = x.from_i32(1)" in
  is_ok (parse_simple_statements_with_debug ([LCURLY] ++ step ++ [SEMI; RCURLY]) TypeTable_new).2 = true
  ∧ (parse_for_control_segment_at step 0 TypeTable_new).2
    = Err (BodyErr "unsupported conversion target in statement" [string_bytes "i = x"; step]).
Proof. by vm_compute. Qed.
