(* ===== verification/RealtimeData.v ===== *)
(** * Realtime control data and its wire format

    Models the data half of [crates/stasis_network/src/realtime.rs]: the control
    state and transition types, [RealtimeConfig] and its validation, the bounded
    [ControlEnvelope] with [push], [encode] and [decode].  The theorems show that
    decoding inverts encoding on every envelope the API can build, that every
    accepted payload is the canonical encoding of the envelope it decodes to, and
    that [push] keeps the envelope well formed. *)

From S2P Require Import Prelude.
#[local] Open Scope Z_scope.

(** ** Limits *)

Definition REALTIME_MAX_SEATS : nat := 8.
Definition MAX_ENVELOPE_TRANSITIONS : nat := 16.
Definition MAX_PENDING_TRANSITIONS : nat := 128.
Definition DEFAULT_REPLAY_RECORDS : Z := 65536.
Definition MAX_REPLAY_RECORDS : Z := 1000000.
Definition MAX_DELAY_TICKS : Z := 240.
Definition MAX_FUTURE_TICKS : Z := 240.
Definition MAX_SNAPSHOT_TOKEN_BYTES : nat := 64.
Definition MAX_RATE_HZ : Z := 1000.
(** [*b"RTC1"] *)
Definition REALTIME_ENVELOPE_MAGIC : list Z := [82; 84; 67; 49].
Definition REALTIME_ENVELOPE_VERSION : Z := 1.
Definition ENVELOPE_HEADER_BYTES : nat := 8.
Definition TRANSITION_BYTES : nat := 21.
Definition MAX_ENVELOPE_BYTES : nat :=
  ENVELOPE_HEADER_BYTES + MAX_ENVELOPE_TRANSITIONS * TRANSITION_BYTES.

(** ** Control state *)

Record ControlState := mkControlState {
  buttons : Z;   (* u16 *)
  axis_x : Z;    (* i8 *)
  axis_y : Z;    (* i8 *)
}.

#[export] Instance ControlState_eq_dec : EqDecision ControlState.
Proof. solve_decision. Defined.

Definition neutral : ControlState := mkControlState 0 0 0.

Definition control_ok (c : ControlState) : Prop :=
  in_u 16 (buttons c) ∧ in_i 8 (axis_x c) ∧ in_i 8 (axis_y c).

#[export] Instance ControlState_inhabited : Inhabited ControlState := populate neutral.

(** ** Scheduled transitions *)

Record ScheduledTransition := mkTransition {
  seat : Z;         (* u8 *)
  epoch : Z;        (* u32 *)
  sequence : Z;     (* u32 *)
  apply_tick : Z;   (* u64 *)
  state : ControlState;
}.

#[export] Instance ScheduledTransition_eq_dec : EqDecision ScheduledTransition.
Proof. solve_decision. Defined.

Definition default_transition : ScheduledTransition := mkTransition 0 0 0 0 neutral.

#[export] Instance ScheduledTransition_inhabited : Inhabited ScheduledTransition :=
  populate default_transition.

(** The integer fields hold values of their machine types. *)
Definition transition_ok (t : ScheduledTransition) : Prop :=
  in_u 8 (seat t) ∧ in_u 32 (epoch t) ∧ in_u 32 (sequence t) ∧
  in_u 64 (apply_tick t) ∧ control_ok (state t).

Definition same_sequence (left right : ScheduledTransition) : bool :=
  (seat left =? seat right) && (epoch left =? epoch right) &&
  (sequence left =? sequence right).

Definition same_identity (left right : ScheduledTransition) : bool :=
  (seat left =? seat right) && (epoch left =? epoch right) &&
  (sequence left =? sequence right) && (apply_tick left =? apply_tick right).

(** ** Configuration *)

Record RealtimeConfig := mkRealtimeConfig {
  simulation_hz : Z;
  presentation_hz : Z;
  control_hz : Z;
  input_delay_ticks : Z;
}.

#[export] Instance RealtimeConfig_eq_dec : EqDecision RealtimeConfig.
Proof. solve_decision. Defined.

Inductive ConfigError := ZeroRate | RateTooHigh | DelayZero | DelayTooHigh.

Definition RealtimeConfig_new (sim pres ctl delay : Z) : Result RealtimeConfig ConfigError :=
  if (sim =? 0) || (pres =? 0) || (ctl =? 0) then Err ZeroRate
  else if (MAX_RATE_HZ <? sim) || (MAX_RATE_HZ <? pres) || (MAX_RATE_HZ <? ctl)
  then Err RateTooHigh
  else if delay =? 0 then Err DelayZero
  else if MAX_DELAY_TICKS <? delay then Err DelayTooHigh
  else Ok (mkRealtimeConfig sim pres ctl delay).

(** What [RealtimeConfig::new] guarantees; the fields are private, so every
    configuration a session holds satisfies it. *)
Definition config_ok (c : RealtimeConfig) : Prop :=
  1 ≤ simulation_hz c ≤ MAX_RATE_HZ ∧ 1 ≤ presentation_hz c ≤ MAX_RATE_HZ ∧
  1 ≤ control_hz c ≤ MAX_RATE_HZ ∧ 1 ≤ input_delay_ticks c ≤ MAX_DELAY_TICKS.

(** ** Envelopes *)

Inductive EnvelopeError := InvalidTransition | EnvFull | EnvDuplicate | EnvConflict | EnvMalformed.

#[export] Instance EnvelopeError_eq_dec : EqDecision EnvelopeError.
Proof. solve_decision. Defined.

Definition validate_transition (t : ScheduledTransition) : Result unit EnvelopeError :=
  if (Z.of_nat REALTIME_MAX_SEATS <=? seat t) || (epoch t =? 0) || (sequence t =? 0)
  then Err InvalidTransition
  else Ok tt.

Record ControlEnvelope := mkEnvelope {
  count : nat;
  slots : list ScheduledTransition;   (* [ScheduledTransition; 16] *)
}.

#[export] Instance ControlEnvelope_eq_dec : EqDecision ControlEnvelope.
Proof. solve_decision. Defined.

Definition Envelope_new : ControlEnvelope :=
  mkEnvelope 0 (replicate MAX_ENVELOPE_TRANSITIONS default_transition).

(** [transitions()]: the filled prefix of the array. *)
Definition transitions (e : ControlEnvelope) : list ScheduledTransition :=
  take (count e) (slots e).

Definition Envelope_push (e : ControlEnvelope) (t : ScheduledTransition)
    : Result ControlEnvelope EnvelopeError :=
  let? _ := validate_transition t in
  match list_find (λ existing, same_sequence existing t = true) (take (count e) (slots e)) with
  | Some (_, existing) =>
      if same_identity existing t && bool_decide (existing = t)
      then Err EnvDuplicate else Err EnvConflict
  | None =>
      if (count e =? MAX_ENVELOPE_TRANSITIONS)%nat then Err EnvFull
      else Ok (mkEnvelope (count e + 1) (<[count e := t]> (slots e)))
  end.

Definition from_transition (t : ScheduledTransition) : Result ControlEnvelope EnvelopeError :=
  Envelope_push Envelope_new t.

Definition Envelope_len (e : ControlEnvelope) : nat := count e.
Definition Envelope_is_empty (e : ControlEnvelope) : bool := (count e =? 0)%nat.

Definition encode_transition (t : ScheduledTransition) : list Z :=
  [seat t] ++ be_bytes 4 (epoch t) ++ be_bytes 4 (sequence t) ++
  be_bytes 8 (apply_tick t) ++ be_bytes 2 (buttons (state t)) ++
  [wrap 8 (axis_x (state t)); wrap 8 (axis_y (state t))].

Definition Envelope_encode (e : ControlEnvelope) : list Z :=
  REALTIME_ENVELOPE_MAGIC ++ be_bytes 2 REALTIME_ENVELOPE_VERSION ++
  [wrap 8 (Z.of_nat (count e)); 0] ++
  concat (encode_transition <$> transitions e).

(** [bytes[from..to]] *)
Definition slice (from to : nat) (bytes : list Z) : list Z := take (to - from) (drop from bytes).

Definition decode_transition (bytes : list Z) : Result ScheduledTransition EnvelopeError :=
  if negb (length bytes =? TRANSITION_BYTES)%nat then Err EnvMalformed
  else
    let transition := mkTransition
      (bytes !!! 0%nat)
      (from_be (slice 1 5 bytes))
      (from_be (slice 5 9 bytes))
      (from_be (slice 9 17 bytes))
      (mkControlState (from_be (slice 17 19 bytes))
         (swrap 8 (bytes !!! 19%nat)) (swrap 8 (bytes !!! 20%nat))) in
    let? _ := validate_transition transition in
    Ok transition.

(** The loop over [index in 0..count], pushing each decoded transition. *)
Fixpoint decode_loop (bytes : list Z) (indices : list nat) (e : ControlEnvelope)
    : Result ControlEnvelope EnvelopeError :=
  match indices with
  | [] => Ok e
  | index :: rest =>
      let start := (ENVELOPE_HEADER_BYTES + index * TRANSITION_BYTES)%nat in
      let? t := decode_transition (slice start (start + TRANSITION_BYTES) bytes) in
      let? e' := Envelope_push e t in
      decode_loop bytes rest e'
  end.

Definition Envelope_decode (bytes : list Z) : Result ControlEnvelope EnvelopeError :=
  if (length bytes <? ENVELOPE_HEADER_BYTES)%nat || (MAX_ENVELOPE_BYTES <? length bytes)%nat
  then Err EnvMalformed
  else if negb (bool_decide (take 4 bytes = REALTIME_ENVELOPE_MAGIC)) ||
          negb (from_be (slice 4 6 bytes) =? REALTIME_ENVELOPE_VERSION) ||
          negb (bytes !!! 7%nat =? 0)
  then Err EnvMalformed
  else
    let cnt := Z.to_nat (bytes !!! 6%nat) in
    if (MAX_ENVELOPE_TRANSITIONS <? cnt)%nat ||
       negb (length bytes =? ENVELOPE_HEADER_BYTES + cnt * TRANSITION_BYTES)%nat
    then Err EnvMalformed
    else decode_loop bytes (seq 0 cnt) Envelope_new.

(** ** The codec of one transition *)

Definition valid_transition (t : ScheduledTransition) : Prop :=
  transition_ok t ∧ validate_transition t = Ok tt.

Lemma validate_transition_ok t :
  validate_transition t = Ok tt ↔
  seat t < Z.of_nat REALTIME_MAX_SEATS ∧ epoch t ≠ 0 ∧ sequence t ≠ 0.
Proof.
  unfold validate_transition. destruct (_ || _) eqn:E; to_props.
  - apply orb_true_iff in E as [E|E]; [apply orb_true_iff in E as [E|E]|]; to_props;
      split; [discriminate|lia|discriminate|lia|discriminate|lia].
  - split; [lia|done].
Qed.

Lemma encode_transition_length t : length (encode_transition t) = TRANSITION_BYTES.
Proof. reflexivity. Qed.

Lemma encode_transition_bytes_ok t : transition_ok t → bytes_ok (encode_transition t).
Proof.
  intros (H1 & _). unfold encode_transition, bytes_ok.
  repeat (apply Forall_app; split); auto with stasis; repeat constructor;
    try (apply wrap_range; lia); apply H1.
Qed.

Lemma decode_encode_transition t :
  valid_transition t → decode_transition (encode_transition t) = Ok t.
Proof.
  intros [(Hs & He & Hq & Ht & Hb & Hx & Hy) Hv]. unfold decode_transition.
  rewrite encode_transition_length. cbv zeta.
  change (slice 1 5 (encode_transition t)) with (be_bytes 4 (epoch t)).
  change (slice 5 9 (encode_transition t)) with (be_bytes 4 (sequence t)).
  change (slice 9 17 (encode_transition t)) with (be_bytes 8 (apply_tick t)).
  change (slice 17 19 (encode_transition t)) with (be_bytes 2 (buttons (state t))).
  change (encode_transition t !!! 0%nat) with (seat t).
  change (encode_transition t !!! 19%nat) with (wrap 8 (axis_x (state t))).
  change (encode_transition t !!! 20%nat) with (wrap 8 (axis_y (state t))).
  rewrite !from_be_be_bytes, !swrap_wrap by (assumption || lia).
  destruct t as [? ? ? ? []]; simpl in *. by rewrite Hv.
Qed.

Lemma wrap_swrap_byte b : in_u 8 b → wrap 8 (swrap 8 b) = b.
Proof.
  intros H. unfold wrap, swrap, in_u in *.
  rewrite Zminus_mod_idemp_l. replace (b + _ - _) with b by lia. by apply Z.mod_small.
Qed.

Lemma encode_decode_transition bs t :
  bytes_ok bs → decode_transition bs = Ok t → encode_transition t = bs ∧ valid_transition t.
Proof.
  intros Hok. unfold decode_transition.
  destruct (length bs =? TRANSITION_BYTES)%nat eqn:Hl; [|discriminate]. to_props.
  do 21 (destruct bs as [|? bs]; [discriminate|]). destruct bs; [|discriminate].
  cbn [negb]. cbv zeta. intros H.
  match type of H with result_bind ?v _ = _ => destruct v as [[]|] eqn:Hv end; [|discriminate].
  cbn [result_bind] in H. injection H as <-.
  unfold bytes_ok in Hok. rewrite !Forall_cons in Hok. destruct_and!.
  assert (∀ l, bytes_ok l → in_u (8 * Z.of_nat (length l)) (from_be l)) as R
    by exact from_be_range.
  split.
  - unfold encode_transition. cbn [seat epoch sequence apply_tick state buttons axis_x axis_y].
    rewrite !be_bytes_from_be_len by (reflexivity || bytes_lit).
    rewrite !wrap_swrap_byte by assumption. reflexivity.
  - split; [|exact Hv]. unfold transition_ok, control_ok. cbn [seat epoch sequence apply_tick state buttons axis_x axis_y].
    split_and!; try assumption; try (apply swrap_range; lia);
      (eapply R; bytes_lit).
Qed.

(** ** Well-formed envelopes *)

Definition transition_key (t : ScheduledTransition) : Z * Z * Z :=
  (seat t, epoch t, sequence t).

Lemma same_sequence_key a b : same_sequence a b = true ↔ transition_key a = transition_key b.
Proof.
  unfold same_sequence, transition_key. rewrite !andb_true_iff, !Z.eqb_eq.
  split; [intros [[-> ->] ->]; done | intros [= -> -> ->]; done].
Qed.

Lemma same_identity_refl a : same_identity a a = true.
Proof. unfold same_identity. by rewrite !Z.eqb_refl. Qed.

(** The array of an envelope holding exactly [ts]. *)
Definition envelope_of (ts : list ScheduledTransition) : ControlEnvelope :=
  mkEnvelope (length ts)
    (ts ++ replicate (MAX_ENVELOPE_TRANSITIONS - length ts) default_transition).

Record wf_envelope (e : ControlEnvelope) : Prop := {
  wf_env_shape : e = envelope_of (transitions e);
  wf_env_count : (count e ≤ MAX_ENVELOPE_TRANSITIONS)%nat;
  wf_env_valid : Forall valid_transition (transitions e);
  wf_env_distinct : NoDup (transition_key <$> transitions e);
}.

Lemma transitions_of ts : transitions (envelope_of ts) = ts.
Proof. unfold transitions, envelope_of. simpl. by rewrite take_app_length. Qed.

Lemma transitions_length e : wf_envelope e → length (transitions e) = count e.
Proof. intros [-> _ _ _]. by rewrite transitions_of. Qed.

Lemma wf_envelope_of ts :
  (length ts ≤ MAX_ENVELOPE_TRANSITIONS)%nat → Forall valid_transition ts →
  NoDup (transition_key <$> ts) → wf_envelope (envelope_of ts).
Proof. intros. split; rewrite ?transitions_of; auto. Qed.

Lemma wf_envelope_new : wf_envelope Envelope_new.
Proof. apply (wf_envelope_of []); [simpl; lia|constructor..]. Qed.

(** Pushing a fresh valid transition below the limit appends it. *)
Lemma push_fresh ts t :
  (length ts < MAX_ENVELOPE_TRANSITIONS)%nat → validate_transition t = Ok tt →
  transition_key t ∉ transition_key <$> ts →
  Envelope_push (envelope_of ts) t = Ok (envelope_of (ts ++ [t])).
Proof.
  intros Hl Hv Hf. unfold Envelope_push. rewrite Hv. cbn [result_bind].
  fold (transitions (envelope_of ts)). rewrite transitions_of.
  destruct (list_find _ ts) as [[i x]|] eqn:E.
  - apply list_find_Some in E as (Hi & Hs & _). exfalso. apply Hf.
    apply same_sequence_key in Hs. rewrite <- Hs. apply list_elem_of_fmap_2.
    by eapply list_elem_of_lookup_2.
  - unfold envelope_of at 1. cbn [count].
    destruct (Nat.eqb_spec (length ts) MAX_ENVELOPE_TRANSITIONS); [lia|].
    f_equal. unfold envelope_of. cbn [slots count]. rewrite length_app. simpl length. f_equal.
    rewrite insert_app_r_alt, Nat.sub_diag by lia.
    replace (MAX_ENVELOPE_TRANSITIONS - length ts)%nat
      with (S (MAX_ENVELOPE_TRANSITIONS - (length ts + 1))) by lia.
    by rewrite <- app_assoc.
Qed.

(** [push] succeeds exactly by appending; it is the only constructor of
    envelopes, so every envelope a program holds is well formed. *)
Lemma push_Ok_inv ts t e :
  Envelope_push (envelope_of ts) t = Ok e →
  validate_transition t = Ok tt ∧ length ts ≠ MAX_ENVELOPE_TRANSITIONS ∧
  transition_key t ∉ transition_key <$> ts.
Proof.
  unfold Envelope_push. destruct (validate_transition t) as [[]|] eqn:Hv; [|done].
  cbn [result_bind]. fold (transitions (envelope_of ts)). rewrite transitions_of.
  destruct (list_find _ ts) as [[i x]|] eqn:E; [by case_match|].
  unfold envelope_of at 1. cbn [count].
  destruct (Nat.eqb_spec (length ts) MAX_ENVELOPE_TRANSITIONS); [done|].
  intros _. split_and!; [done..|]. intros (x & Hk & Hx)%list_elem_of_fmap.
  apply list_find_None in E. rewrite Forall_forall in E.
  apply (E x Hx). by apply same_sequence_key.
Qed.

Lemma wf_push e t e' :
  wf_envelope e → transition_ok t → Envelope_push e t = Ok e' →
  wf_envelope e' ∧ transitions e' = transitions e ++ [t].
Proof.
  intros [Hs Hc Hv Hd] Ht. rewrite Hs. intros H.
  destruct (push_Ok_inv _ _ _ H) as (Hvt & Hl & Hf).
  assert (length (transitions e) = count e) as Hlen by (rewrite Hs; by rewrite transitions_of).
  rewrite push_fresh in H by (done || lia). injection H as <-.
  rewrite !transitions_of. split; [|done]. apply wf_envelope_of.
  - rewrite length_app. simpl. lia.
  - apply Forall_app; split; [done|]. by apply Forall_singleton.
  - rewrite fmap_app. apply NoDup_app. split_and!; [done| |apply NoDup_singleton].
    intros k Hk ->%list_elem_of_singleton. done.
Qed.

(** Pushing a list of transitions one by one. *)
Fixpoint push_all (e : ControlEnvelope) (ts : list ScheduledTransition)
    : Result ControlEnvelope EnvelopeError :=
  match ts with
  | [] => Ok e
  | t :: rest => let? e' := Envelope_push e t in push_all e' rest
  end.

Lemma wf_push_all ts e e' :
  wf_envelope e → Forall transition_ok ts → push_all e ts = Ok e' →
  wf_envelope e' ∧ transitions e' = transitions e ++ ts.
Proof.
  revert e. induction ts as [|t ts IH]; intros e Hwf Hok; simpl.
  - intros [= <-]. by rewrite app_nil_r.
  - destruct (Envelope_push e t) as [e1|] eqn:Hp; [|done]. cbn [result_bind]. intros H.
    inversion_clear Hok as [|? ? Ht Hts].
    destruct (wf_push _ _ _ Hwf Ht Hp) as [Hwf1 Htr].
    destruct (IH _ Hwf1 Hts H) as [Hwf' Htr']. split; [done|].
    by rewrite Htr', Htr, <- app_assoc.
Qed.

(** ** The codec of a whole envelope *)

Lemma drop_chunks ts i :
  drop (i * TRANSITION_BYTES) (concat (encode_transition <$> ts)) =
  concat (encode_transition <$> drop i ts).
Proof.
  revert i. induction ts as [|t ts IH]; intros [|i].
  - done.
  - by rewrite drop_nil.
  - done.
  - cbn [fmap list_fmap concat drop Nat.mul].
    rewrite <- (encode_transition_length t) at 1. by rewrite drop_app_add.
Qed.

Lemma slice_chunk hdr ts i t :
  length hdr = ENVELOPE_HEADER_BYTES → ts !! i = Some t →
  slice (ENVELOPE_HEADER_BYTES + i * TRANSITION_BYTES)
        (ENVELOPE_HEADER_BYTES + i * TRANSITION_BYTES + TRANSITION_BYTES)
        (hdr ++ concat (encode_transition <$> ts)) = encode_transition t.
Proof.
  intros <- Ht. unfold slice. rewrite drop_app_add, drop_chunks.
  rewrite (drop_S _ _ _ Ht). cbn [fmap list_fmap concat].
  match goal with |- take ?n _ = _ =>
    replace n with (length (encode_transition t)) by (rewrite encode_transition_length; lia)
  end.
  by rewrite take_app_length.
Qed.

Lemma decode_loop_encoded hdr ts1 ts2 :
  length hdr = ENVELOPE_HEADER_BYTES → wf_envelope (envelope_of (ts1 ++ ts2)) →
  decode_loop (hdr ++ concat (encode_transition <$> (ts1 ++ ts2)))
    (seq (length ts1) (length ts2)) (envelope_of ts1) = Ok (envelope_of (ts1 ++ ts2)).
Proof.
  intros Hh. revert ts1. induction ts2 as [|t ts2 IH]; intros ts1 Hwf.
  { simpl. by rewrite app_nil_r. }
  assert (wf_envelope (envelope_of (ts1 ++ t :: ts2))) as [_ Hc Hv Hd] by done.
  rewrite transitions_of in Hv, Hd. cbn [envelope_of count] in Hc.
  rewrite length_app in Hc. simpl in Hc.
  apply Forall_app in Hv as [_ Hv]. inversion_clear Hv as [|? ? Hvt _].
  cbn [length seq decode_loop].
  rewrite (slice_chunk hdr _ _ t) by (done || by apply list_lookup_middle).
  rewrite decode_encode_transition by done. cbn [result_bind].
  rewrite push_fresh; [|lia|apply Hvt|].
  - cbn [result_bind]. rewrite cons_middle, app_assoc in Hwf |- *.
    specialize (IH _ Hwf). rewrite length_app in IH. simpl in IH.
    rewrite Nat.add_1_r in IH. by rewrite IH.
  - rewrite fmap_app in Hd. apply NoDup_app in Hd as (_ & Hd & _).
    intros Hin. apply (Hd _ Hin). cbn. apply list_elem_of_here.
Qed.

Lemma encode_length e :
  wf_envelope e →
  length (Envelope_encode e) = (ENVELOPE_HEADER_BYTES + count e * TRANSITION_BYTES)%nat.
Proof.
  intros Hwf. unfold Envelope_encode. rewrite !length_app, length_be_bytes.
  rewrite <- (transitions_length e Hwf). clear Hwf.
  cbn [length REALTIME_ENVELOPE_MAGIC]. unfold ENVELOPE_HEADER_BYTES.
  induction (transitions e) as [|t ts IH]; [done|].
  cbn [fmap list_fmap concat length]. rewrite length_app, encode_transition_length. simpl. lia.
Qed.

Lemma decode_encode_wf e : wf_envelope e → Envelope_decode (Envelope_encode e) = Ok e.
Proof.
  intros Hwf. pose proof (wf_env_count _ Hwf) as Hc.
  pose proof (encode_length e Hwf) as Hl. unfold Envelope_decode. rewrite Hl.
  unfold MAX_ENVELOPE_BYTES.
  rewrite (proj2 (Nat.ltb_ge _ _)) by lia.
  rewrite (proj2 (Nat.ltb_ge _ _)) by (unfold TRANSITION_BYTES; lia).
  unfold MAX_ENVELOPE_TRANSITIONS in *.
  change (Envelope_encode e !!! 6%nat) with (wrap 8 (Z.of_nat (count e))).
  rewrite wrap_small by (unfold in_u; lia). rewrite Nat2Z.id.
  change (Envelope_encode e !!! 7%nat) with 0.
  change (take 4 (Envelope_encode e)) with REALTIME_ENVELOPE_MAGIC.
  rewrite bool_decide_eq_true_2 by done.
  change (slice 4 6 (Envelope_encode e)) with (be_bytes 2 REALTIME_ENVELOPE_VERSION).
  rewrite from_be_be_bytes by done. cbn [negb orb Z.eqb Pos.eqb REALTIME_ENVELOPE_VERSION].
  rewrite (proj2 (Nat.ltb_ge _ _)) by lia. rewrite Nat.eqb_refl. cbn [negb orb].
  pose proof (decode_loop_encoded
    (REALTIME_ENVELOPE_MAGIC ++ be_bytes 2 REALTIME_ENVELOPE_VERSION ++
       [wrap 8 (Z.of_nat (count e)); 0]) [] (transitions e) eq_refl) as D.
  rewrite app_nil_l, <- (wf_env_shape e Hwf), (transitions_length e Hwf) in D.
  specialize (D Hwf). unfold Envelope_encode.
  by rewrite <- !app_assoc in D.
Qed.

Lemma slice_split a b c (bs : list Z) :
  (a ≤ b)%nat → (b ≤ c)%nat → slice a c bs = slice a b bs ++ slice b c bs.
Proof.
  intros. unfold slice. assert (drop b bs = drop (b - a) (drop a bs)) as ->.
  { rewrite drop_drop. f_equal. lia. }
  replace (c - a)%nat with ((b - a) + (c - b))%nat by lia.
  by rewrite <- take_take_drop.
Qed.

Lemma slice_bytes_ok a b bs : bytes_ok bs → bytes_ok (slice a b bs).
Proof. intros. by apply Forall_take, Forall_drop. Qed.

Lemma decode_loop_inv bs n ts e :
  bytes_ok bs → wf_envelope (envelope_of ts) →
  decode_loop bs (seq (length ts) n) (envelope_of ts) = Ok e →
  ∃ ts', length ts' = n ∧ e = envelope_of (ts ++ ts') ∧ wf_envelope e ∧
    concat (encode_transition <$> ts') =
    slice (ENVELOPE_HEADER_BYTES + length ts * TRANSITION_BYTES)
          (ENVELOPE_HEADER_BYTES + (length ts + n) * TRANSITION_BYTES) bs.
Proof.
  intros Hbs. revert ts. induction n as [|n IH]; intros ts Hwf; cbn [seq decode_loop].
  { intros [= <-]. exists []. rewrite app_nil_r. split_and!; [done..|].
    unfold slice. rewrite Nat.add_0_r, Nat.sub_diag. done. }
  destruct (decode_transition _) as [t|] eqn:Hd; [|done]. cbn [result_bind].
  apply encode_decode_transition in Hd as [He Hv]; [|by apply slice_bytes_ok].
  destruct (Envelope_push _ t) as [e1|] eqn:Hp; [|done]. cbn [result_bind]. intros H.
  destruct (wf_push _ _ _ Hwf (proj1 Hv) Hp) as [Hwf1 Ht1].
  rewrite transitions_of in Ht1. pose proof (wf_env_shape _ Hwf1) as E. rewrite Ht1 in E.
  subst e1. replace (S (length ts)) with (length (ts ++ [t])) in H
    by (rewrite length_app; simpl; lia).
  destruct (IH _ Hwf1 H) as (ts' & Hl & -> & Hwf' & Hc). exists (t :: ts').
  rewrite <- app_assoc in Hwf' |- *. split_and!; [simpl; lia|done|done|].
  cbn [fmap list_fmap concat]. rewrite He, Hc, length_app. cbn [length].
  rewrite (slice_split _ (ENVELOPE_HEADER_BYTES + length ts * TRANSITION_BYTES + TRANSITION_BYTES)
    (ENVELOPE_HEADER_BYTES + (length ts + S n) * TRANSITION_BYTES)) by lia.
  f_equal. f_equal; lia.
Qed.

Lemma decode_canonical_aux bs e :
  bytes_ok bs → Envelope_decode bs = Ok e → wf_envelope e ∧ Envelope_encode e = bs.
Proof.
  intros Hbs. unfold Envelope_decode.
  destruct (_ || (_ <? _)%nat) eqn:E1; [done|].
  destruct (_ || _ || _) eqn:E2; [done|]. to_props.
  match goal with |- (if ?b then _ else _) = _ → _ => destruct b eqn:E3; [done|] end.
  to_props. intros Hdec.
  destruct (decode_loop_inv bs _ [] e Hbs wf_envelope_new Hdec)
    as (ts & Hl & -> & Hwf & Hc).
  split; [done|]. rewrite app_nil_l in *. unfold Envelope_encode. rewrite transitions_of, Hc.
  cbn [envelope_of count length]. rewrite Hl.
  clear Hc Hdec Hl Hwf. set (n := Z.to_nat (bs !!! 6%nat)) in *.
  do 8 (destruct bs as [|? bs]; [simpl in *; unfold ENVELOPE_HEADER_BYTES in *; lia|]).
  cbn [take] in *. unfold REALTIME_ENVELOPE_MAGIC in *. simplify_eq.
  assert (in_u 8 z5) as Hz by (unfold bytes_ok in Hbs; rewrite !Forall_cons in Hbs; tauto).
  match goal with H : from_be (slice 4 6 _) = _ |- _ => rename H into Hver end.
  rewrite <- Hver, be_bytes_from_be_len
    by (reflexivity || (apply slice_bytes_ok; done)).
  match goal with H : _ !!! 7%nat = 0 |- _ => cbn in H; subst end.
  assert (Z.of_nat n = z5) as -> by (change n with (Z.to_nat z5); unfold in_u in Hz; lia).
  rewrite wrap_small by done.
  unfold slice. cbn [Nat.mul Nat.add ENVELOPE_HEADER_BYTES drop take Nat.sub app].
  do 8 f_equal. apply take_ge.
  simpl length in *. unfold ENVELOPE_HEADER_BYTES in *. lia.
Qed.

(** ** Results *)

(** C36 Any sequence of transitions that [ControlEnvelope::push] accepts survives
    the wire: the envelope lists exactly those transitions, in order, and
    decoding its encoding returns the same envelope. *)
Theorem envelope_roundtrip ts e :
  Forall transition_ok ts → push_all Envelope_new ts = Ok e →
  transitions e = ts ∧ Envelope_decode (Envelope_encode e) = Ok e.
Proof.
  intros Hok Hp. destruct (wf_push_all _ _ _ wf_envelope_new Hok Hp) as [Hwf Ht].
  split; [done|by apply decode_encode_wf].
Qed.

Definition sample_transition : ScheduledTransition :=
  mkTransition 1 2 3 70000 (mkControlState 513 (-128) 127).

Definition sample_envelope : ControlEnvelope :=
  envelope_of [sample_transition; mkTransition 7 1 4294967295 1 (mkControlState 65535 1 (-1))].

Lemma envelope_roundtrip_witness :
  transitions sample_envelope =
    [sample_transition; mkTransition 7 1 4294967295 1 (mkControlState 65535 1 (-1))] ∧
  Envelope_decode (Envelope_encode sample_envelope) = Ok sample_envelope.
Proof.
  apply envelope_roundtrip.
  - apply (bool_decide_unpack _). by vm_compute.
  - by vm_compute.
Defined.

(** The wire format is canonical: a payload that decodes at all is exactly the
    encoding of the envelope it decodes to, and that envelope is well formed
    (at most sixteen valid transitions with distinct identities).  Trailing
    bytes, other versions, a non-zero reserved byte, out-of-range seats and
    repeated identities are therefore all refused. *)
Theorem decode_canonical bs e :
  bytes_ok bs → Envelope_decode bs = Ok e → wf_envelope e ∧ Envelope_encode e = bs.
Proof. exact (decode_canonical_aux bs e). Qed.

Lemma decode_canonical_witness :
  wf_envelope sample_envelope ∧ Envelope_encode sample_envelope = Envelope_encode sample_envelope.
Proof.
  apply decode_canonical; [|by vm_compute].
  apply (bool_decide_unpack _). by vm_compute.
Defined.
