(* ===== verification/RealtimeSession.v ===== *)
(** * The realtime session state machine

    Models [RealtimeSession] of [crates/stasis_network/src/realtime.rs]: the
    replay log, admission of transitions, the authoritative tick, the
    lifecycle resets and the authoritative snapshot, field by field and branch
    by branch.  Functions that the code can panic in ([expect], slice or array
    index, [usize] underflow) return an [option] whose [None] is the panic;
    [RealtimeInv] shows it is unreachable. *)

From S2P Require Import Prelude RealtimeData.
#[local] Open Scope Z_scope.

(** ** Panicking primitives *)

(** [array[i] = v]: panics out of range. *)
Definition array_set {A} (i : nat) (v : A) (l : list A) : option (list A) :=
  if (i <? length l)%nat then Some (<[i := v]> l) else None.

(** [n -= 1] on a [usize]. *)
Definition checked_pred (n : nat) : option nat :=
  match n with O => None | S n' => Some n' end.

(** [array[..n].fill(v)] *)
Definition fill_prefix {A} (n : nat) (v : A) (l : list A) : list A :=
  replicate n v ++ drop n l.

(** The [Some] entries of an array, in slot order: [iter().flatten()]. *)
Definition flatten {A} (l : list (option A)) : list A := omap id l.

(** ** Outcomes, errors and records *)

Inductive AdmissionOutcome :=
| Accepted | AcceptedReordered | Inactive | Duplicate | Stale | Conflict
| Late | TooFar | ResyncRequired | Malformed | Full.

#[export] Instance AdmissionOutcome_eq_dec : EqDecision AdmissionOutcome.
Proof. solve_decision. Defined.

Record AdmissionReport := mkReport {
  report_outcomes : list AdmissionOutcome;   (* [AdmissionOutcome; 16] *)
  report_count : nat;
}.

Definition Report_one (outcome : AdmissionOutcome) : AdmissionReport :=
  mkReport (<[0%nat := outcome]> (replicate MAX_ENVELOPE_TRANSITIONS Malformed)) 1.

Definition outcomes (r : AdmissionReport) : list AdmissionOutcome :=
  take (report_count r) (report_outcomes r).

Inductive ResetReason :=
| Disconnect (seat : Z) | Reconnect (seat : Z) | Pause | FocusLost | Rematch.

#[export] Instance ResetReason_eq_dec : EqDecision ResetReason.
Proof. solve_decision. Defined.

Inductive LifecycleError := InvalidSeat | InvalidReplayLimit | EpochExhausted.

#[export] Instance LifecycleError_eq_dec : EqDecision LifecycleError.
Proof. solve_decision. Defined.

Record AuthoritativeSnapshot := mkSnapshot {
  sn_revision : Z;
  sn_tick : Z;
  sn_controls : list ControlState;   (* [_; 8] *)
  sn_sequences : list Z;
  sn_epochs : list Z;
  sn_active : list bool;
  sn_game_token : list Z;            (* [u8; 64] *)
  sn_game_token_len : Z;             (* u8 *)
}.

#[export] Instance AuthoritativeSnapshot_eq_dec : EqDecision AuthoritativeSnapshot.
Proof. solve_decision. Defined.

Inductive SnapshotError :=
| RevisionRegression | TickOutOfRange | TickRegression | EpochRegression
| SnapEpochExhausted | SequenceRegression | InactiveSeatState (seat : nat)
| TokenTooLarge.

#[export] Instance SnapshotError_eq_dec : EqDecision SnapshotError.
Proof. solve_decision. Defined.

Definition Snapshot_new (revision tick : Z) (cs : list ControlState)
    (sequences epochs : list Z) (active : list bool) : AuthoritativeSnapshot :=
  mkSnapshot revision tick cs sequences epochs active
    (replicate MAX_SNAPSHOT_TOKEN_BYTES 0) 0.

Definition with_game_token (sn : AuthoritativeSnapshot) (token : list Z)
    : Result AuthoritativeSnapshot SnapshotError :=
  if (MAX_SNAPSHOT_TOKEN_BYTES <? length token)%nat then Err TokenTooLarge
  else Ok (mkSnapshot (sn_revision sn) (sn_tick sn) (sn_controls sn) (sn_sequences sn)
             (sn_epochs sn) (sn_active sn)
             (token ++ drop (length token) (sn_game_token sn))
             (wrap 8 (Z.of_nat (length token)))).

Inductive ReplayRecord :=
| Scheduled (t : ScheduledTransition)
| Tick (tick : Z) (controls : list ControlState) (authoritative_hash : option Z)
| Reset_ (reason : ResetReason)
| Snapshot (sn : AuthoritativeSnapshot)
| Quarantine (seat epoch sequence : Z).

#[export] Instance ReplayRecord_eq_dec : EqDecision ReplayRecord.
Proof. solve_decision. Defined.

Inductive ReplayEvent :=
| EvReset (reason : ResetReason)
| EvSnapshot (sn : AuthoritativeSnapshot)
| EvQuarantine (seat epoch sequence : Z).

Inductive HashRecordError :=
| NoUnfinishedTick | WrongTick (expected received : Z) | AlreadyRecorded.

Inductive TickError := Exhausted.

Inductive ReplayError :=
| Incomplete
| InvalidSetup
| Admission (index : nat) (outcome : AdmissionOutcome)
| TickMismatch (index : nat) (tick : Z)
| TickExhausted (index : nat)
| MissingHash (index : nat) (tick : Z)
| HashMismatch (index : nat) (tick expected observed : Z).

(** ** The replay log *)

Record ReplayLog := mkLog {
  log_records : list ReplayRecord;
  log_limit : Z;
  log_complete : bool;
}.

#[export] Instance ReplayLog_eq_dec : EqDecision ReplayLog.
Proof. solve_decision. Defined.

Definition Log_with_limit (limit : Z) : Result ReplayLog LifecycleError :=
  if (limit =? 0) || (MAX_REPLAY_RECORDS <? limit) then Err InvalidReplayLimit
  else Ok (mkLog [] limit true).

Definition Log_push (log : ReplayLog) (record : ReplayRecord) : ReplayLog * bool :=
  if Z.of_nat (length (log_records log)) =? log_limit log
  then (mkLog (log_records log) (log_limit log) false, false)
  else (mkLog (log_records log ++ [record]) (log_limit log) (log_complete log), true).

(** [records.last_mut()] followed by the write of the hash. *)
Definition Log_record_hash (log : ReplayLog) (tick hash : Z) : ReplayLog * Result unit HashRecordError :=
  match last (log_records log) with
  | Some (Tick latest_tick controls authoritative_hash) =>
      if negb (latest_tick =? tick) then (log, Err (WrongTick latest_tick tick))
      else match authoritative_hash with
           | Some _ => (log, Err AlreadyRecorded)
           | None =>
               (mkLog (<[(length (log_records log) - 1)%nat := Tick latest_tick controls (Some hash)]>
                         (log_records log)) (log_limit log) (log_complete log), Ok tt)
           end
  | _ => (log, Err NoUnfinishedTick)
  end.

(** ** The session *)

Record RealtimeSession := mkSession {
  config : RealtimeConfig;
  seats : nat;
  current_tick : Z;
  snapshot_revision : Z;
  controls : list ControlState;
  epochs : list Z;
  active : list bool;
  highest_applied_sequence : list Z;
  highest_sequence : list Z;
  quarantined : list (Z * Z * Z);
  quarantined_count : nat;
  resync_required : bool;
  pending : list (option ScheduledTransition);
  pending_count : nat;
  recent : list (option ScheduledTransition);
  recent_next : nat;
  replay : ReplayLog;
}.

#[export] Instance RealtimeSession_eq_dec : EqDecision RealtimeSession.
Proof. solve_decision. Defined.

(** Field assignments [self.f = v]. *)
Definition set_current_tick (v : Z) (s : RealtimeSession) : RealtimeSession :=
  mkSession (config s) (seats s) v (snapshot_revision s) (controls s) (epochs s) (active
    s) (highest_applied_sequence s) (highest_sequence s) (quarantined s)
    (quarantined_count s) (resync_required s) (pending s) (pending_count s) (recent s)
    (recent_next s) (replay s).
Definition set_snapshot_revision (v : Z) (s : RealtimeSession) : RealtimeSession :=
  mkSession (config s) (seats s) (current_tick s) v (controls s) (epochs s) (active s)
    (highest_applied_sequence s) (highest_sequence s) (quarantined s) (quarantined_count
    s) (resync_required s) (pending s) (pending_count s) (recent s) (recent_next s)
    (replay s).
Definition set_controls (v : list ControlState) (s : RealtimeSession) : RealtimeSession :=
  mkSession (config s) (seats s) (current_tick s) (snapshot_revision s) v (epochs s)
    (active s) (highest_applied_sequence s) (highest_sequence s) (quarantined s)
    (quarantined_count s) (resync_required s) (pending s) (pending_count s) (recent s)
    (recent_next s) (replay s).
Definition set_epochs (v : list Z) (s : RealtimeSession) : RealtimeSession :=
  mkSession (config s) (seats s) (current_tick s) (snapshot_revision s) (controls s) v
    (active s) (highest_applied_sequence s) (highest_sequence s) (quarantined s)
    (quarantined_count s) (resync_required s) (pending s) (pending_count s) (recent s)
    (recent_next s) (replay s).
Definition set_active (v : list bool) (s : RealtimeSession) : RealtimeSession :=
  mkSession (config s) (seats s) (current_tick s) (snapshot_revision s) (controls s)
    (epochs s) v (highest_applied_sequence s) (highest_sequence s) (quarantined s)
    (quarantined_count s) (resync_required s) (pending s) (pending_count s) (recent s)
    (recent_next s) (replay s).
Definition set_highest_applied_sequence (v : list Z) (s : RealtimeSession) : RealtimeSession :=
  mkSession (config s) (seats s) (current_tick s) (snapshot_revision s) (controls s)
    (epochs s) (active s) v (highest_sequence s) (quarantined s) (quarantined_count s)
    (resync_required s) (pending s) (pending_count s) (recent s) (recent_next s) (replay
    s).
Definition set_highest_sequence (v : list Z) (s : RealtimeSession) : RealtimeSession :=
  mkSession (config s) (seats s) (current_tick s) (snapshot_revision s) (controls s)
    (epochs s) (active s) (highest_applied_sequence s) v (quarantined s)
    (quarantined_count s) (resync_required s) (pending s) (pending_count s) (recent s)
    (recent_next s) (replay s).
Definition set_quarantined (v : list (Z * Z * Z)) (s : RealtimeSession) : RealtimeSession :=
  mkSession (config s) (seats s) (current_tick s) (snapshot_revision s) (controls s)
    (epochs s) (active s) (highest_applied_sequence s) (highest_sequence s) v
    (quarantined_count s) (resync_required s) (pending s) (pending_count s) (recent s)
    (recent_next s) (replay s).
Definition set_quarantined_count (v : nat) (s : RealtimeSession) : RealtimeSession :=
  mkSession (config s) (seats s) (current_tick s) (snapshot_revision s) (controls s)
    (epochs s) (active s) (highest_applied_sequence s) (highest_sequence s) (quarantined
    s) v (resync_required s) (pending s) (pending_count s) (recent s) (recent_next s)
    (replay s).
Definition set_resync_required (v : bool) (s : RealtimeSession) : RealtimeSession :=
  mkSession (config s) (seats s) (current_tick s) (snapshot_revision s) (controls s)
    (epochs s) (active s) (highest_applied_sequence s) (highest_sequence s) (quarantined
    s) (quarantined_count s) v (pending s) (pending_count s) (recent s) (recent_next s)
    (replay s).
Definition set_pending (v : list (option ScheduledTransition)) (s : RealtimeSession) : RealtimeSession :=
  mkSession (config s) (seats s) (current_tick s) (snapshot_revision s) (controls s)
    (epochs s) (active s) (highest_applied_sequence s) (highest_sequence s) (quarantined
    s) (quarantined_count s) (resync_required s) v (pending_count s) (recent s)
    (recent_next s) (replay s).
Definition set_pending_count (v : nat) (s : RealtimeSession) : RealtimeSession :=
  mkSession (config s) (seats s) (current_tick s) (snapshot_revision s) (controls s)
    (epochs s) (active s) (highest_applied_sequence s) (highest_sequence s) (quarantined
    s) (quarantined_count s) (resync_required s) (pending s) v (recent s) (recent_next
    s) (replay s).
Definition set_recent (v : list (option ScheduledTransition)) (s : RealtimeSession) : RealtimeSession :=
  mkSession (config s) (seats s) (current_tick s) (snapshot_revision s) (controls s)
    (epochs s) (active s) (highest_applied_sequence s) (highest_sequence s) (quarantined
    s) (quarantined_count s) (resync_required s) (pending s) (pending_count s) v
    (recent_next s) (replay s).
Definition set_recent_next (v : nat) (s : RealtimeSession) : RealtimeSession :=
  mkSession (config s) (seats s) (current_tick s) (snapshot_revision s) (controls s)
    (epochs s) (active s) (highest_applied_sequence s) (highest_sequence s) (quarantined
    s) (quarantined_count s) (resync_required s) (pending s) (pending_count s) (recent
    s) v (replay s).
Definition set_replay (v : ReplayLog) (s : RealtimeSession) : RealtimeSession :=
  mkSession (config s) (seats s) (current_tick s) (snapshot_revision s) (controls s)
    (epochs s) (active s) (highest_applied_sequence s) (highest_sequence s) (quarantined
    s) (quarantined_count s) (resync_required s) (pending s) (pending_count s) (recent
    s) (recent_next s) v.

(** Reduce projections of updated sessions. *)
Ltac rt_simpl :=
  cbn [config seats current_tick snapshot_revision controls epochs active highest_applied_sequence highest_sequence quarantined quarantined_count resync_required pending pending_count recent recent_next replay
    set_current_tick set_snapshot_revision set_controls set_epochs set_active set_highest_applied_sequence set_highest_sequence set_quarantined set_quarantined_count set_resync_required set_pending set_pending_count set_recent set_recent_next set_replay] in *.

(** [self.replay.push(record)], whose result every caller drops. *)
Definition log_push (r : ReplayRecord) (s : RealtimeSession) : RealtimeSession :=
  set_replay (fst (Log_push (replay s) r)) s.

Definition no_pending : list (option ScheduledTransition) :=
  replicate MAX_PENDING_TRANSITIONS None.
Definition no_quarantine : list (Z * Z * Z) := replicate MAX_PENDING_TRANSITIONS (0, 0, 0).

Definition Session_new_with_replay_limit (cfg : RealtimeConfig) (n : nat) (replay_limit : Z)
    : Result RealtimeSession LifecycleError :=
  if (n =? 0)%nat || (REALTIME_MAX_SEATS <? n)%nat then Err InvalidSeat
  else
    let? log := Log_with_limit replay_limit in
    let session := mkSession cfg n 0 0
      (replicate REALTIME_MAX_SEATS neutral) (replicate REALTIME_MAX_SEATS 1)
      (replicate REALTIME_MAX_SEATS false) (replicate REALTIME_MAX_SEATS 0)
      (replicate REALTIME_MAX_SEATS 0) no_quarantine 0 false
      no_pending 0 no_pending 0 log in
    Ok (set_active (fill_prefix n true (active session)) session).

Definition Session_new (cfg : RealtimeConfig) (n : nat) : Result RealtimeSession LifecycleError :=
  Session_new_with_replay_limit cfg n DEFAULT_REPLAY_RECORDS.

(** [seat_epoch], [seat_active] and [seat_control] are the methods [epoch],
    [is_active] and [control]. *)
Definition seat_epoch (s : RealtimeSession) (i : nat) : option Z :=
  if (i <? seats s)%nat then Some (epochs s !!! i) else None.
Definition seat_active (s : RealtimeSession) (i : nat) : option bool :=
  if (i <? seats s)%nat then Some (active s !!! i) else None.
Definition seat_control (s : RealtimeSession) (i : nat) : option ControlState :=
  if (i <? seats s)%nat then Some (controls s !!! i) else None.

Definition earliest_apply_tick (s : RealtimeSession) : Z :=
  saturating_u64_add (current_tick s) (input_delay_ticks (config s)).
Definition latest_apply_tick (s : RealtimeSession) : Z :=
  saturating_u64_add (current_tick s) MAX_FUTURE_TICKS.

(** ** Quarantine of conflicting identities *)

(** [for pending in &mut self.pending { if p(pending) { *pending = None; count -= 1 } }] *)
Fixpoint clear_slots (p : ScheduledTransition → bool) (l : list (option ScheduledTransition))
    (n : nat) : option (list (option ScheduledTransition) * nat) :=
  match l with
  | [] => Some ([], n)
  | Some t :: l' =>
      if p t then
        n1 ← checked_pred n; '(l1, n2) ← clear_slots p l' n1; Some (None :: l1, n2)
      else '(l1, n2) ← clear_slots p l' n; Some (Some t :: l1, n2)
  | None :: l' => '(l1, n2) ← clear_slots p l' n; Some (None :: l1, n2)
  end.

Definition clear_pending (p : ScheduledTransition → bool) (s : RealtimeSession)
    : option RealtimeSession :=
  '(l, n) ← clear_slots p (pending s) (pending_count s);
  Some (set_pending_count n (set_pending l s)).

Definition remove_pending_sequence (st ep sq : Z) (s : RealtimeSession) : option RealtimeSession :=
  clear_pending (λ t, (seat t =? st) && (epoch t =? ep) && (sequence t =? sq)) s.

Definition remove_pending_seat (i : nat) (s : RealtimeSession) : option RealtimeSession :=
  clear_pending (λ t, (Z.to_nat (seat t) =? i)%nat) s.

(** The copy loop that keeps the identities satisfying [keep] and zeroes the rest. *)
Definition retain_quarantine (keep : Z * Z * Z → bool) (s : RealtimeSession) : RealtimeSession :=
  let retained := filter (λ q, keep q = true) (take (quarantined_count s) (quarantined s)) in
  set_quarantined_count (length retained)
    (set_quarantined
       (retained ++ replicate (MAX_PENDING_TRANSITIONS - length retained) (0, 0, 0)) s).

Definition quarantine_identity (st ep sq : Z) (s : RealtimeSession)
    : option (RealtimeSession * bool) :=
  s1 ← remove_pending_sequence st ep sq s;
  if bool_decide ((st, ep, sq) ∈ take (quarantined_count s1) (quarantined s1))
  then Some (s1, true)
  else if (quarantined_count s1 <? MAX_PENDING_TRANSITIONS)%nat then
    q ← array_set (quarantined_count s1) (st, ep, sq) (quarantined s1);
    Some (set_quarantined_count (quarantined_count s1 + 1) (set_quarantined q s1), true)
  else Some (s1, false).

Definition compact_quarantine (i : nat) (s : RealtimeSession) : RealtimeSession :=
  let floor := highest_applied_sequence s !!! i in
  let ep := epochs s !!! i in
  retain_quarantine
    (λ '(qs, qe, qq), negb ((Z.to_nat qs =? i)%nat && (qe =? ep) && (qq <=? floor))) s.

(** ** Admission *)

Definition admit_transition (t : ScheduledTransition) (s : RealtimeSession)
    : option (RealtimeSession * AdmissionOutcome) :=
  let i := Z.to_nat (seat t) in
  let reordered := sequence t <? highest_sequence s !!! i in
  '(slot, _) ← list_find (λ o, o = None) (pending s);
  p ← array_set slot (Some t) (pending s);
  let s1 := set_pending_count (pending_count s + 1) (set_pending p s) in
  let s2 := set_highest_sequence
    (<[i := Z.max (highest_sequence s !!! i) (sequence t)]> (highest_sequence s1)) s1 in
  Some (log_push (Scheduled t) s2, if reordered then AcceptedReordered else Accepted).

Definition submit_transition (t : ScheduledTransition) (s : RealtimeSession)
    : option (RealtimeSession * AdmissionOutcome) :=
  if is_err (validate_transition t) || (seats s <=? Z.to_nat (seat t))%nat
  then Some (s, Malformed)
  else if resync_required s then Some (s, ResyncRequired)
  else
    let i := Z.to_nat (seat t) in
    if negb (active s !!! i) then Some (s, Inactive)
    else if negb (epoch t =? epochs s !!! i) then Some (s, Stale)
    else if apply_tick t <? earliest_apply_tick s then Some (s, Late)
    else if latest_apply_tick s <? apply_tick t then Some (s, TooFar)
    else if bool_decide (transition_key t ∈ take (quarantined_count s) (quarantined s))
    then Some (s, Conflict)
    else match list_find (λ e, same_sequence e t = true) (flatten (pending s)) with
    | Some (_, existing) =>
        if same_identity existing t && bool_decide (existing = t) then Some (s, Duplicate)
        else
          '(s1, done) ← quarantine_identity (seat t) (epoch t) (sequence t) s;
          if negb done then Some (set_resync_required true s1, ResyncRequired)
          else Some (log_push (Quarantine (seat t) (epoch t) (sequence t)) s1, Conflict)
    | None =>
    match list_find (λ e, same_sequence e t = true) (flatten (recent s)) with
    | Some (_, existing) =>
        if same_identity existing t && bool_decide (existing = t) then Some (s, Duplicate)
        else Some (s, if apply_tick t <=? current_tick s then Late else Stale)
    | None =>
        if sequence t <=? highest_applied_sequence s !!! i then Some (s, Stale)
        else if (quarantined_count s =? MAX_PENDING_TRANSITIONS)%nat
        then Some (set_resync_required true s, ResyncRequired)
        else if (pending_count s =? MAX_PENDING_TRANSITIONS)%nat then Some (s, Full)
        else admit_transition t s
    end end.

(** The loop of [submit_envelope] over [transitions().iter().enumerate()]. *)
Fixpoint submit_loop (index : nat) (ts : list ScheduledTransition) (s : RealtimeSession)
    (report : list AdmissionOutcome) : option (RealtimeSession * list AdmissionOutcome) :=
  match ts with
  | [] => Some (s, report)
  | t :: rest =>
      '(s1, o) ← submit_transition t s;
      r1 ← array_set index o report;
      submit_loop (S index) rest s1 r1
  end.

Definition submit_envelope (e : ControlEnvelope) (s : RealtimeSession)
    : option (RealtimeSession * AdmissionReport) :=
  '(s1, r) ← submit_loop 0 (transitions e) s (replicate MAX_ENVELOPE_TRANSITIONS Malformed);
  Some (s1, mkReport r (count e)).

Definition submit_payload (payload : list Z) (s : RealtimeSession)
    : option (RealtimeSession * AdmissionReport) :=
  match Envelope_decode payload with
  | Ok e => submit_envelope e s
  | Err _ => Some (s, Report_one Malformed)
  end.

(** ** The authoritative tick *)

Record TickAdvance := mkAdvance {
  ta_tick : Z;
  ta_configured_seats : nat;
  ta_controls : list ControlState;
  ta_applied : list ScheduledTransition;   (* [ScheduledTransition; 128] *)
  ta_applied_count : nat;
}.

#[export] Instance TickAdvance_eq_dec : EqDecision TickAdvance.
Proof. solve_decision. Defined.

Definition advance_control (a : TickAdvance) (i : nat) : option ControlState :=
  if (i <? ta_configured_seats a)%nat then Some (ta_controls a !!! i) else None.

Definition applied_transitions (a : TickAdvance) : list ScheduledTransition :=
  take (ta_applied_count a) (ta_applied a).

(** [pending.is_some_and(|transition| transition.apply_tick == tick)] *)
Definition is_due (tick : Z) (o : option ScheduledTransition) : bool :=
  match o with Some t => apply_tick t =? tick | None => false end.

(** The slots whose transition is due at [tick], in slot order. *)
Definition due_slots (tick : Z) (slots : list (option ScheduledTransition)) : list nat :=
  filter (λ i, is_due tick (mjoin (slots !! i)) = true) (seq 0 (length slots)).

(** The comparison of the keys [(seat, sequence, apply_tick)]. *)
Definition due_key_le (a b : ScheduledTransition) : bool :=
  (seat a <? seat b) ||
  ((seat a =? seat b) &&
   ((sequence a <? sequence b) ||
    ((sequence a =? sequence b) && (apply_tick a <=? apply_tick b)))).

(** [due[..due_count].sort_by_key(..)]: every index is read back with [expect]. *)
Definition sorted_due (tick : Z) (slots : list (option ScheduledTransition)) : option (list nat) :=
  keyed ← mapM (λ i, t ← mjoin (slots !! i); Some (i, t)) (due_slots tick slots);
  Some ((sort_by (λ a b, due_key_le a.2 b.2) keyed).*1).

(** One iteration of the apply loop. *)
Definition apply_one (index : nat) (s : RealtimeSession)
    : option (RealtimeSession * ScheduledTransition) :=
  t ← mjoin (pending s !! index);
  n ← checked_pred (pending_count s);
  let i := Z.to_nat (seat t) in
  let s1 := set_pending_count n (set_pending (<[index := None]> (pending s)) s) in
  cs ← array_set i (state t) (controls s1);
  let s2 := set_controls cs s1 in
  h ← highest_applied_sequence s2 !! i;
  let s3 := set_highest_applied_sequence
    (<[i := Z.max h (sequence t)]> (highest_applied_sequence s2)) s2 in
  let s4 := compact_quarantine i s3 in
  r ← array_set (recent_next s4) (Some t) (recent s4);
  let s5 := set_recent r s4 in
  let s6 := set_recent_next ((recent_next s5 + 1) `mod` MAX_PENDING_TRANSITIONS)%nat s5 in
  Some (s6, t).

Fixpoint apply_loop (applied_index : nat) (due : list nat) (s : RealtimeSession)
    (applied : list ScheduledTransition)
    : option (RealtimeSession * list ScheduledTransition) :=
  match due with
  | [] => Some (s, applied)
  | index :: rest =>
      '(s1, t) ← apply_one index s;
      applied1 ← array_set applied_index t applied;
      apply_loop (S applied_index) rest s1 applied1
  end.

Definition advance_tick_inner (s : RealtimeSession)
    : option (RealtimeSession * Result TickAdvance TickError) :=
  match checked_u 64 (current_tick s + 1) with
  | None => Some (s, Err Exhausted)
  | Some tick =>
      let s1 := set_current_tick tick s in
      due ← sorted_due tick (pending s1);
      '(s2, applied) ← apply_loop 0 due s1
        (replicate MAX_PENDING_TRANSITIONS default_transition);
      let advance := mkAdvance tick (seats s2) (controls s2) applied (length due) in
      Some (log_push (Tick (ta_tick advance) (ta_controls advance) None) s2, Ok advance)
  end.

Definition advance_tick (s : RealtimeSession)
    : option (RealtimeSession * Result TickAdvance TickError) := advance_tick_inner s.

Definition record_authoritative_hash (tick hash : Z) (s : RealtimeSession)
    : RealtimeSession * Result unit HashRecordError :=
  let '(log, r) := Log_record_hash (replay s) tick hash in (set_replay log s, r).

(** ** Lifecycle *)

Definition next_epoch (i : nat) (s : RealtimeSession) : Result Z LifecycleError :=
  ok_or (checked_u 32 (epochs s !!! i + 1)) EpochExhausted.

Definition lifecycle_epoch (i : nat) (act : bool) (reason : ResetReason) (s : RealtimeSession)
    : option (RealtimeSession * Result unit LifecycleError) :=
  if (seats s <=? i)%nat then Some (s, Err InvalidSeat)
  else match next_epoch i s with
  | Err e => Some (s, Err e)
  | Ok ep =>
      let s1 := set_epochs (<[i := ep]> (epochs s)) s in
      let s2 := set_active (<[i := act]> (active s1)) s1 in
      let s3 := set_controls (<[i := neutral]> (controls s2)) s2 in
      s4 ← remove_pending_seat i s3;
      let s5 := set_highest_sequence (<[i := 0]> (highest_sequence s4)) s4 in
      let s6 := set_highest_applied_sequence (<[i := 0]> (highest_applied_sequence s5)) s5 in
      let s7 := set_recent
        ((λ entry, match entry with
                   | Some t => if (Z.to_nat (seat t) =? i)%nat then None else Some t
                   | None => None
                   end) <$> recent s6) s6 in
      let s8 := retain_quarantine (λ '(qs, _, _), negb (Z.to_nat qs =? i)%nat) s7 in
      Some (log_push (Reset_ reason) s8, Ok tt)
  end.

(** The preflight loop of [reset_all]: every epoch advances or none does. *)
Fixpoint next_epochs (indices : list nat) (s : RealtimeSession) (acc : list Z)
    : Result (list Z) LifecycleError :=
  match indices with
  | [] => Ok acc
  | i :: rest => let? ep := next_epoch i s in next_epochs rest s (<[i := ep]> acc)
  end.

(** [for seat in 0..self.seats { array[seat] = 0; }] *)
Definition zero_prefix (n : nat) (l : list Z) : list Z :=
  foldl (λ acc i, <[i := 0]> acc) l (seq 0 n).

Definition reset_all (reason : ResetReason) (s : RealtimeSession)
    : RealtimeSession * Result unit LifecycleError :=
  match next_epochs (seq 0 (Nat.min (seats s) (length (epochs s)))) s (epochs s) with
  | Err e => (s, Err e)
  | Ok eps =>
      let s1 := set_epochs eps s in
      let s2 := if bool_decide (reason = Rematch)
                then set_active (fill_prefix (seats s1) true (active s1)) (set_current_tick 0 s1)
                else s1 in
      let s3 := set_controls (replicate REALTIME_MAX_SEATS neutral) s2 in
      let s4 := set_pending_count 0 (set_pending no_pending s3) in
      let s5 := set_highest_sequence (zero_prefix (seats s4) (highest_sequence s4)) s4 in
      let s6 := set_highest_applied_sequence
        (zero_prefix (seats s5) (highest_applied_sequence s5)) s5 in
      let s7 := set_quarantined_count 0 (set_quarantined no_quarantine s6) in
      let s8 := set_resync_required false s7 in
      let s9 := set_recent_next 0 (set_recent no_pending s8) in
      (log_push (Reset_ reason) s9, Ok tt)
  end.

Definition disconnect (i : nat) (s : RealtimeSession) :=
  lifecycle_epoch i false (Disconnect (wrap 8 (Z.of_nat i))) s.
Definition reconnect (i : nat) (s : RealtimeSession) :=
  lifecycle_epoch i true (Reconnect (wrap 8 (Z.of_nat i))) s.
Definition pause (s : RealtimeSession) := reset_all Pause s.
Definition focus_lost (s : RealtimeSession) := reset_all FocusLost s.
Definition rematch (s : RealtimeSession) := reset_all Rematch s.

Definition apply_reset (reason : ResetReason) (s : RealtimeSession)
    : option (RealtimeSession * Result unit ReplayError) :=
  match reason with
  | Disconnect i | Reconnect i =>
      '(s1, r) ← lifecycle_epoch (Z.to_nat i)
        (match reason with Reconnect _ => true | _ => false end) reason s;
      Some (s1, map_err (λ _, InvalidSetup) r)
  | Pause | FocusLost | Rematch =>
      let '(s1, r) := reset_all reason s in Some (s1, map_err (λ _, InvalidSetup) r)
  end.

(** ** Authoritative snapshots *)

Definition apply_snapshot (sn : AuthoritativeSnapshot) (s : RealtimeSession) : RealtimeSession :=
  let s1 := set_snapshot_revision (sn_revision sn) s in
  let s2 := set_current_tick (sn_tick sn) s1 in
  let s3 := set_controls (sn_controls sn) s2 in
  let s4 := set_highest_applied_sequence (sn_sequences sn) s3 in
  let s5 := set_highest_sequence (sn_sequences sn) s4 in
  let s6 := set_epochs (sn_epochs sn) s5 in
  let s7 := set_active (sn_active sn) s6 in
  let s8 := set_pending_count 0 (set_pending no_pending s7) in
  let s9 := set_recent_next 0 (set_recent no_pending s8) in
  let s10 := set_quarantined_count 0 (set_quarantined no_quarantine s9) in
  set_resync_required false s10.

Fixpoint check_inactive (indices : list nat) (n : nat) (sn : AuthoritativeSnapshot)
    : Result unit SnapshotError :=
  match indices with
  | [] => Ok tt
  | i :: rest =>
      if ((n <=? i)%nat || negb (sn_active sn !!! i)) &&
         (negb (bool_decide (sn_controls sn !!! i = neutral)) ||
          negb (sn_sequences sn !!! i =? 0) || sn_active sn !!! i)
      then Err (InactiveSeatState i)
      else check_inactive rest n sn
  end.

Fixpoint check_epochs (indices : list nat) (sn : AuthoritativeSnapshot) (s : RealtimeSession)
    : Result unit SnapshotError :=
  match indices with
  | [] => Ok tt
  | i :: rest =>
      if sn_epochs sn !!! i =? u32_max then Err SnapEpochExhausted
      else if sn_epochs sn !!! i <? epochs s !!! i then Err EpochRegression
      else if (sn_epochs sn !!! i =? epochs s !!! i) && (sn_tick sn <? current_tick s)
      then Err TickRegression
      else if (sn_epochs sn !!! i =? epochs s !!! i) &&
              (sn_sequences sn !!! i <? highest_sequence s !!! i)
      then Err SequenceRegression
      else check_epochs rest sn s
  end.

Definition apply_authoritative_snapshot (sn : AuthoritativeSnapshot) (s : RealtimeSession)
    : RealtimeSession * Result unit SnapshotError :=
  if (sn_revision sn =? 0) || (sn_revision sn <=? snapshot_revision s)
  then (s, Err RevisionRegression)
  else if u64_max - MAX_FUTURE_TICKS <? sn_tick sn then (s, Err TickOutOfRange)
  else match check_inactive (seq 0 REALTIME_MAX_SEATS) (seats s) sn with
  | Err e => (s, Err e)
  | Ok _ =>
      if (MAX_SNAPSHOT_TOKEN_BYTES <? Z.to_nat (sn_game_token_len sn))%nat
      then (s, Err TokenTooLarge)
      else match check_epochs (seq 0 (seats s)) sn s with
      | Err e => (s, Err e)
      | Ok _ => (log_push (Snapshot sn) (apply_snapshot sn s), Ok tt)
      end
  end.

(** ** Replaying a log *)

Section replay.
(** The caller's callbacks, with the state they close over. *)
Context {St : Type} (event : ReplayEvent → St → St)
        (hash : Z → list ControlState → St → St * Z).

Definition replay_record (index : nat) (record : ReplayRecord) (s : RealtimeSession) (st : St)
    : option (RealtimeSession * St * Result unit ReplayError) :=
  match record with
  | Scheduled t =>
      '(s1, outcome) ← submit_transition t s;
      Some (s1, st, match outcome with
                    | Accepted | AcceptedReordered => Ok tt
                    | _ => Err (Admission index outcome)
                    end)
  | Tick tick cs authoritative_hash =>
      '(s1, r) ← advance_tick s;
      match r with
      | Err _ => Some (s1, st, Err (TickExhausted index))
      | Ok a =>
          if negb (ta_tick a =? tick) || negb (bool_decide (ta_controls a = cs))
          then Some (s1, st, Err (TickMismatch index tick))
          else match authoritative_hash with
          | None => Some (s1, st, Err (MissingHash index tick))
          | Some expected =>
              let '(st1, observed) := hash tick cs st in
              if negb (observed =? expected)
              then Some (s1, st1, Err (HashMismatch index tick expected observed))
              else Some (s1, st1, Ok tt)
          end
      end
  | Reset_ reason =>
      let st1 := event (EvReset reason) st in
      '(s1, r) ← apply_reset reason s; Some (s1, st1, r)
  | Snapshot sn => Some (apply_snapshot sn s, event (EvSnapshot sn) st, Ok tt)
  | Quarantine i ep sq =>
      let st1 := event (EvQuarantine i ep sq) st in
      '(s1, done) ← quarantine_identity i ep sq s;
      Some (s1, st1, if negb done then Err InvalidSetup else Ok tt)
  end.

Fixpoint replay_loop (index : nat) (records : list ReplayRecord) (s : RealtimeSession) (st : St)
    : option (RealtimeSession * St * Result unit ReplayError) :=
  match records with
  | [] => Some (s, st, Ok tt)
  | record :: rest =>
      '(s1, st1, r) ← replay_record index record s st;
      match r with
      | Err e => Some (s1, st1, Err e)
      | Ok _ => replay_loop (S index) rest s1 st1
      end
  end.

Definition replay_with_events (log : ReplayLog) (cfg : RealtimeConfig) (n : nat) (st : St)
    : option (St * Result unit ReplayError) :=
  if negb (log_complete log) then Some (st, Err Incomplete)
  else match Session_new cfg n with
  | Err _ => Some (st, Err InvalidSetup)
  | Ok s =>
      '(_, st1, r) ← replay_loop 0 (log_records log) s st;
      Some (st1, r)
  end.
End replay.

(** [replay]: no event callback. *)
Definition Log_replay {St} (hash : Z → list ControlState → St → St * Z) (log : ReplayLog)
    (cfg : RealtimeConfig) (n : nat) (st : St) : option (St * Result unit ReplayError) :=
  replay_with_events (λ _ st, st) hash log cfg n st.

(** ** Traces of calls

    The public mutating interface of a session as one step function; the
    return value of each call is dropped. *)

Inductive Op :=
| OpSubmit (t : ScheduledTransition)
| OpEnvelope (e : ControlEnvelope)
| OpPayload (payload : list Z)
| OpTick
| OpHash (tick hash : Z)
| OpDisconnect (i : nat)
| OpReconnect (i : nat)
| OpPause
| OpFocusLost
| OpRematch
| OpSnapshot (sn : AuthoritativeSnapshot).

Definition step (op : Op) (s : RealtimeSession) : option RealtimeSession :=
  match op with
  | OpSubmit t => fst <$> submit_transition t s
  | OpEnvelope e => fst <$> submit_envelope e s
  | OpPayload p => fst <$> submit_payload p s
  | OpTick => fst <$> advance_tick s
  | OpHash tick hash => Some (fst (record_authoritative_hash tick hash s))
  | OpDisconnect i => fst <$> disconnect i s
  | OpReconnect i => fst <$> reconnect i s
  | OpPause => Some (fst (pause s))
  | OpFocusLost => Some (fst (focus_lost s))
  | OpRematch => Some (fst (rematch s))
  | OpSnapshot sn => Some (fst (apply_authoritative_snapshot sn s))
  end.

Fixpoint run (ops : list Op) (s : RealtimeSession) : option RealtimeSession :=
  match ops with
  | [] => Some s
  | op :: rest => s1 ← step op s; run rest s1
  end.
