(* ===== verification/RealtimeInv.v ===== *)
(** * The session invariant

    Shows that every reachable [RealtimeSession] satisfies [Inv] (array widths,
    counters that agree with their arrays, pending transitions that are valid,
    current, distinct and within the scheduling window, no pending identity in
    quarantine) and that no call panics from such a state. *)

From S2P Require Import Prelude RealtimeData RealtimeSession.
#[local] Open Scope Z_scope.

(** ** Option arrays *)

Section flatten.
Context {A : Type}.
Implicit Types (l : list (option A)) (t : A).

Lemma flatten_cons o l : flatten (o :: l) = option_list o ++ flatten l.
Proof. by destruct o. Qed.

Lemma flatten_app l1 l2 : flatten (l1 ++ l2) = flatten l1 ++ flatten l2.
Proof. apply omap_app. Qed.

Lemma elem_of_flatten t l : t ∈ flatten l ↔ Some t ∈ l.
Proof.
  unfold flatten. rewrite list_elem_of_omap. split.
  - intros (o & Ho & E). simpl in E. by subst.
  - intros H. by exists (Some t).
Qed.

Lemma elem_of_flatten_lookup t l : t ∈ flatten l ↔ ∃ i, l !! i = Some (Some t).
Proof. by rewrite elem_of_flatten, list_elem_of_lookup. Qed.

Lemma flatten_replicate_None n : flatten (replicate n (None : option A)) = [].
Proof. by induction n. Qed.

Lemma flatten_insert_Some l i t :
  l !! i = Some None → flatten (<[i := Some t]> l) ≡ₚ t :: flatten l.
Proof.
  intros H. pose proof (lookup_lt_Some _ _ _ H).
  rewrite <- (take_drop_middle _ _ _ H) at 2.
  rewrite insert_take_drop, !flatten_app, !flatten_cons by done. simpl. solve_Permutation.
Qed.

Lemma flatten_insert_None l i t :
  l !! i = Some (Some t) → flatten l ≡ₚ t :: flatten (<[i := None]> l).
Proof.
  intros H. pose proof (lookup_lt_Some _ _ _ H).
  rewrite <- (take_drop_middle _ _ _ H) at 1.
  rewrite insert_take_drop, !flatten_app, !flatten_cons by done. simpl. solve_Permutation.
Qed.

Lemma flatten_length_le l : (length (flatten l) ≤ length l)%nat.
Proof. induction l as [|[]]; simpl; lia. Qed.

Lemma free_slot l :
  (length (flatten l) < length l)%nat →
  ∃ i, list_find (λ o, o = None) l = Some (i, None) ∧ l !! i = Some None ∧ (i < length l)%nat.
Proof.
  intros H. destruct (list_find (λ o, o = None) l) as [[i o]|] eqn:E.
  - pose proof E as E'. apply list_find_Some in E as (Hi & -> & _).
    exists i. split_and!; [done..|]. by eapply lookup_lt_Some.
  - exfalso. apply list_find_None in E. revert H. induction E as [|[t|] l Ht Hl IH]; simpl.
    + lia.
    + lia.
    + done.
Qed.
End flatten.

Lemma array_set_Some {A} i v (l : list A) :
  (i < length l)%nat → array_set i v l = Some (<[i := v]> l).
Proof. intros. unfold array_set. by rewrite (proj2 (Nat.ltb_lt _ _)). Qed.

(** [clear_slots] empties exactly the slots satisfying [p] and keeps the count. *)
Definition clear_entry (p : ScheduledTransition → bool) (o : option ScheduledTransition) :=
  match o with Some t => if p t then None else Some t | None => None end.

Lemma clear_slots_spec p l n :
  (length (flatten l) ≤ n)%nat →
  clear_slots p l n =
  Some (clear_entry p <$> l,
        (n - length (filter (λ t, p t = true) (flatten l)))%nat).
Proof.
  revert n. induction l as [|[t|] l IH]; intros n; simpl; intros Hn.
  - by rewrite Nat.sub_0_r.
  - rewrite filter_cons. destruct (p t) eqn:Hp.
    + destruct n as [|n]; [lia|]. simpl. rewrite IH by lia. simpl. done.
    + rewrite IH by lia. simpl. done.
  - rewrite IH by lia. done.
Qed.

Lemma flatten_clear p l :
  flatten (clear_entry p <$> l) = filter (λ t, p t ≠ true) (flatten l).
Proof.
  induction l as [|o l IH]; [done|]. rewrite fmap_cons, !flatten_cons, IH.
  destruct o as [t|]; [|done]. simpl. rewrite filter_cons. by destruct (p t).
Qed.

Lemma filter_length_split p (l : list ScheduledTransition) :
  length l = (length (filter (λ t, p t = true) l) + length (filter (λ t, p t ≠ true) l))%nat.
Proof.
  induction l as [|t l IH]; [done|]. rewrite !filter_cons. destruct (p t); simpl; lia.
Qed.

(** ** The invariant *)

(** What a session with these seats, flags, epochs and sequence ceilings
    requires of a pending transition, scheduled within [lo, hi]. *)
Record pending_okb (n : nat) (act : list bool) (eps : list Z) (lo hi : Z) (hs : list Z)
    (t : ScheduledTransition) : Prop := {
  po_valid : valid_transition t;
  po_seat : (Z.to_nat (seat t) < n)%nat;
  po_active : act !!! Z.to_nat (seat t) = true;
  po_epoch : epoch t = eps !!! Z.to_nat (seat t);
  po_tick : lo ≤ apply_tick t ≤ hi;
  po_seq : sequence t ≤ hs !!! Z.to_nat (seat t);
}.

Definition pending_ok (lo : Z) (s : RealtimeSession) : ScheduledTransition → Prop :=
  pending_okb (seats s) (active s) (epochs s) lo (current_tick s + MAX_FUTURE_TICKS)
    (highest_sequence s).

Definition widths (s : RealtimeSession) : Prop :=
  (1 ≤ seats s ≤ REALTIME_MAX_SEATS)%nat ∧
  length (controls s) = REALTIME_MAX_SEATS ∧
  length (epochs s) = REALTIME_MAX_SEATS ∧
  length (active s) = REALTIME_MAX_SEATS ∧
  length (highest_applied_sequence s) = REALTIME_MAX_SEATS ∧
  length (highest_sequence s) = REALTIME_MAX_SEATS ∧
  length (quarantined s) = MAX_PENDING_TRANSITIONS ∧
  length (pending s) = MAX_PENDING_TRANSITIONS ∧
  length (recent s) = MAX_PENDING_TRANSITIONS.

Definition quarantine (s : RealtimeSession) : list (Z * Z * Z) :=
  take (quarantined_count s) (quarantined s).

(** The invariant with a lower bound [lo] on the scheduled ticks, which the
    apply loop of a tick needs one lower than [Inv] does. *)
Record InvT (lo : Z) (s : RealtimeSession) : Prop := {
  inv_widths : widths s;
  inv_config : config_ok (config s);
  inv_tick : in_u 64 (current_tick s);
  inv_epochs : ∀ i, (i < seats s)%nat → 1 ≤ epochs s !!! i ≤ u32_max;
  inv_count : pending_count s = length (flatten (pending s));
  inv_qcount : (quarantined_count s ≤ MAX_PENDING_TRANSITIONS)%nat;
  inv_next : (recent_next s < MAX_PENDING_TRANSITIONS)%nat;
  inv_pending : Forall (pending_ok lo s) (flatten (pending s));
  inv_distinct : NoDup (transition_key <$> flatten (pending s));
  inv_quarantine : ∀ t, t ∈ flatten (pending s) → transition_key t ∉ quarantine s;
}.

Arguments inv_widths {lo} s _.
Arguments inv_config {lo} s _.
Arguments inv_tick {lo} s _.
Arguments inv_epochs {lo} s _.
Arguments inv_count {lo} s _.
Arguments inv_qcount {lo} s _.
Arguments inv_next {lo} s _.
Arguments inv_pending {lo} s _.
Arguments inv_distinct {lo} s _.
Arguments inv_quarantine {lo} s _.

(** Between calls every pending transition is due strictly later than the
    current tick (except at the end of the [u64] range, where no tick is left). *)
Definition Inv (s : RealtimeSession) : Prop := InvT (Z.min (current_tick s + 1) u64_max) s.

(** Arguments have the ranges of their Rust types. *)
Record snapshot_ok (sn : AuthoritativeSnapshot) : Prop := {
  so_revision : in_u 64 (sn_revision sn);
  so_tick : in_u 64 (sn_tick sn);
  so_controls : length (sn_controls sn) = REALTIME_MAX_SEATS;
  so_sequences : length (sn_sequences sn) = REALTIME_MAX_SEATS;
  so_epochs : length (sn_epochs sn) = REALTIME_MAX_SEATS;
  so_active : length (sn_active sn) = REALTIME_MAX_SEATS;
  so_epoch_range : Forall (in_u 32) (sn_epochs sn);
}.

Definition op_ok (op : Op) : Prop :=
  match op with
  | OpSubmit t => transition_ok t
  | OpEnvelope e => wf_envelope e
  | OpPayload p => bytes_ok p
  | OpSnapshot sn => snapshot_ok sn
  | _ => True
  end.

Lemma Inv_log_push r s : Inv s → Inv (log_push r s).
Proof. intros []. by constructor. Qed.

Lemma Inv_set_replay l s : Inv s → Inv (set_replay l s).
Proof. intros []. by constructor. Qed.

Lemma Inv_set_resync b s : Inv s → Inv (set_resync_required b s).
Proof. intros []. by constructor. Qed.

#[export] Hint Resolve Inv_log_push Inv_set_replay Inv_set_resync : stasis.

Lemma Inv_new cfg n limit s :
  config_ok cfg → Session_new_with_replay_limit cfg n limit = Ok s → Inv s.
Proof.
  intros Hcfg. unfold Session_new_with_replay_limit.
  destruct (_ || _) eqn:E; [done|]. to_props.
  destruct (Log_with_limit limit); [|done]. cbn [result_bind]. intros <-%Ok_inj.
  constructor; rt_simpl; unfold no_pending; rewrite ?flatten_replicate_None; try done.
  - unfold widths, fill_prefix, no_quarantine. rt_simpl.
    rewrite !length_app, !length_drop, !length_replicate.
    lia.
  - intros i Hi. rewrite lookup_total_replicate_2 by lia. unfold u32_max. lia.
  - lia.
  - unfold MAX_PENDING_TRANSITIONS. lia.
  - constructor.
  - intros t Ht. by apply not_elem_of_nil in Ht.
Qed.

(** ** Quarantine *)

Lemma clear_pending_spec p s :
  pending_count s = length (flatten (pending s)) →
  ∃ s', clear_pending p s = Some s' ∧
    s' = set_pending_count (length (flatten (clear_entry p <$> pending s)))
           (set_pending (clear_entry p <$> pending s) s).
Proof.
  intros Hc. unfold clear_pending. rewrite clear_slots_spec by lia. simpl.
  eexists. split; [done|]. do 2 f_equal.
  rewrite flatten_clear, Hc, (filter_length_split p) at 1. lia.
Qed.

(** Removing pending transitions keeps the invariant. *)
Lemma Inv_clear_pending p s :
  Inv s → Inv (set_pending_count (length (flatten (clear_entry p <$> pending s)))
                 (set_pending (clear_entry p <$> pending s) s)).
Proof.
  intros []. constructor; rt_simpl; try done.
  - unfold widths in *. rt_simpl. rewrite length_fmap. tauto.
  - rewrite flatten_clear. by apply Forall_filter_sub.
  - rewrite flatten_clear. by apply NoDup_fmap_filter.
  - intros t. rewrite flatten_clear, list_elem_of_filter. intros [_ Ht]. by apply inv_quarantine0.
Qed.

Definition same_key (k : Z * Z * Z) (t : ScheduledTransition) : bool :=
  (seat t =? k.1.1) && (epoch t =? k.1.2) && (sequence t =? k.2).

Lemma same_key_spec k t : same_key k t = true ↔ transition_key t = k.
Proof.
  destruct k as [[a b] c]. unfold same_key, transition_key. simpl.
  rewrite !andb_true_iff, !Z.eqb_eq. split; [intros [[-> ->] ->]; done|intros [= -> -> ->]; done].
Qed.

(** The state after the pending entries of identity [k] are dropped. *)
Definition drop_key (k : Z * Z * Z) (s : RealtimeSession) : RealtimeSession :=
  set_pending_count (length (flatten (clear_entry (same_key k) <$> pending s)))
    (set_pending (clear_entry (same_key k) <$> pending s) s).

(** The state after [k] is appended to the quarantine. *)
Definition add_quarantine (k : Z * Z * Z) (s : RealtimeSession) : RealtimeSession :=
  set_quarantined_count (quarantined_count s + 1)
    (set_quarantined (<[quarantined_count s := k]> (quarantined s)) s).

(** [quarantine_identity] on every branch. *)
Lemma quarantine_identity_spec a b c s :
  pending_count s = length (flatten (pending s)) →
  length (quarantined s) = MAX_PENDING_TRANSITIONS →
  quarantine_identity a b c s =
  Some (if bool_decide ((a, b, c) ∈ quarantine s) then (drop_key (a, b, c) s, true)
        else if (quarantined_count s <? MAX_PENDING_TRANSITIONS)%nat
             then (add_quarantine (a, b, c) (drop_key (a, b, c) s), true)
             else (drop_key (a, b, c) s, false)).
Proof.
  intros Hc Hq. unfold quarantine_identity, remove_pending_sequence.
  destruct (clear_pending_spec (same_key (a, b, c)) s Hc) as (s' & Hs & E).
  change (clear_pending _ s) with (clear_pending (same_key (a, b, c)) s). rewrite Hs. simpl. subst s'.
  unfold quarantine. rt_simpl. case_bool_decide; [done|].
  destruct (_ <? _)%nat eqn:Hl; [|done]. to_props.
  rewrite array_set_Some by lia. done.
Qed.

Lemma take_insert_extend {A} n (v : A) l :
  (n < length l)%nat → take (n + 1) (<[n := v]> l) = take n l ++ [v].
Proof.
  intros H. rewrite Nat.add_1_r, (take_S_r _ _ v) by (by apply list_lookup_insert_eq).
  by rewrite take_insert_ge.
Qed.

Lemma Inv_add_quarantine k s :
  Inv s → (quarantined_count s < MAX_PENDING_TRANSITIONS)%nat →
  k ∉ transition_key <$> flatten (pending s) → Inv (add_quarantine k s).
Proof.
  intros [] Hl Hk. constructor; unfold add_quarantine; rt_simpl; try done.
  - unfold widths in *. rt_simpl. rewrite length_insert. tauto.
  - lia.
  - intros t Ht. unfold quarantine. rt_simpl. unfold widths in *.
    rewrite take_insert_extend by lia. rewrite elem_of_app, list_elem_of_singleton.
    intros [Hin|Heq]; [by eapply inv_quarantine0|].
    apply Hk. rewrite <- Heq. by apply list_elem_of_fmap_2.
Qed.

Lemma drop_key_fresh k s : k ∉ transition_key <$> flatten (pending (drop_key k s)).
Proof.
  unfold drop_key. rt_simpl. rewrite flatten_clear. intros (t & -> & Ht)%list_elem_of_fmap.
  apply list_elem_of_filter in Ht as [Hn _]. by apply Hn, same_key_spec.
Qed.

Lemma Inv_quarantine_identity a b c s :
  Inv s → ∃ s' d, quarantine_identity a b c s = Some (s', d) ∧ Inv s'.
Proof.
  intros HI. pose proof (inv_widths s HI) as W. unfold widths in W.
  rewrite quarantine_identity_spec by (apply HI || tauto).
  pose proof (Inv_clear_pending (same_key (a, b, c)) s HI) as HD. fold (drop_key (a, b, c) s) in HD.
  case_bool_decide; [by do 2 eexists|]. destruct (_ <? _)%nat eqn:Hl; [|by do 2 eexists].
  to_props. do 2 eexists. split; [done|]. apply Inv_add_quarantine; [done|done|].
  apply drop_key_fresh.
Qed.

(** ** Admission *)

Definition is_accepted (o : AdmissionOutcome) : bool :=
  match o with Accepted | AcceptedReordered => true | _ => false end.

(** The conjunction of every guard of [submit_transition]. *)
Record admissible (t : ScheduledTransition) (s : RealtimeSession) : Prop := {
  ad_validate : validate_transition t = Ok tt;
  ad_seat : (Z.to_nat (seat t) < seats s)%nat;
  ad_resync : resync_required s = false;
  ad_active : active s !!! Z.to_nat (seat t) = true;
  ad_epoch : epoch t = epochs s !!! Z.to_nat (seat t);
  ad_tick : earliest_apply_tick s ≤ apply_tick t ≤ latest_apply_tick s;
  ad_quarantine : transition_key t ∉ quarantine s;
  ad_pending : transition_key t ∉ transition_key <$> flatten (pending s);
  ad_recent : transition_key t ∉ transition_key <$> flatten (recent s);
  ad_floor : highest_applied_sequence s !!! Z.to_nat (seat t) < sequence t;
  ad_qroom : quarantined_count s ≠ MAX_PENDING_TRANSITIONS;
  ad_room : pending_count s ≠ MAX_PENDING_TRANSITIONS;
}.

(** The state after [t] is stored in [slot]. *)
Definition admitted (slot : nat) (t : ScheduledTransition) (s : RealtimeSession) : RealtimeSession :=
  let i := Z.to_nat (seat t) in
  set_highest_sequence
    (<[i := Z.max (highest_sequence s !!! i) (sequence t)]> (highest_sequence s))
    (set_pending_count (pending_count s + 1) (set_pending (<[slot := Some t]> (pending s)) s)).

Definition admit_outcome (t : ScheduledTransition) (s : RealtimeSession) : AdmissionOutcome :=
  if sequence t <? highest_sequence s !!! Z.to_nat (seat t) then AcceptedReordered else Accepted.

Definition conflicted (t : ScheduledTransition) (s : RealtimeSession) : RealtimeSession :=
  log_push (Quarantine (seat t) (epoch t) (sequence t))
    (add_quarantine (transition_key t) (drop_key (transition_key t) s)).

(** What one submission does, case by case. *)
Inductive submit_view (t : ScheduledTransition) (s : RealtimeSession)
    : RealtimeSession → AdmissionOutcome → Prop :=
| sv_reject o :
    is_accepted o = false → (o = Conflict → transition_key t ∈ quarantine s) →
    submit_view t s s o
| sv_resync : resync_required s = false → submit_view t s (set_resync_required true s) ResyncRequired
| sv_overflow :
    resync_required s = false →
    transition_key t ∈ transition_key <$> flatten (pending s) →
    quarantined_count s = MAX_PENDING_TRANSITIONS →
    submit_view t s (set_resync_required true (drop_key (transition_key t) s)) ResyncRequired
| sv_conflict :
    resync_required s = false →
    transition_key t ∈ transition_key <$> flatten (pending s) →
    transition_key t ∉ quarantine s →
    (quarantined_count s < MAX_PENDING_TRANSITIONS)%nat →
    submit_view t s (conflicted t s) Conflict
| sv_accept slot :
    admissible t s → pending s !! slot = Some None → (slot < MAX_PENDING_TRANSITIONS)%nat →
    list_find (λ o, o = None) (pending s) = Some (slot, None) →
    submit_view t s (log_push (Scheduled t) (admitted slot t s)) (admit_outcome t s).

Lemma find_same_None t l :
  list_find (λ e, same_sequence e t = true) l = None → transition_key t ∉ transition_key <$> l.
Proof.
  rewrite list_find_None, Forall_forall. intros H (e & He & Hin)%list_elem_of_fmap.
  apply (H e Hin). by apply same_sequence_key.
Qed.

Lemma find_same_fresh t l :
  transition_key t ∉ transition_key <$> l → list_find (λ e, same_sequence e t = true) l = None.
Proof.
  intros H. apply list_find_None, Forall_forall. intros e Hin Hs%same_sequence_key.
  apply H. rewrite <- Hs. by apply list_elem_of_fmap_2.
Qed.

Lemma find_same_Some t l i e :
  list_find (λ e, same_sequence e t = true) l = Some (i, e) →
  e ∈ l ∧ transition_key e = transition_key t.
Proof.
  intros (Hi & Hs%same_sequence_key & _)%list_find_Some.
  split; [by eapply list_elem_of_lookup_2|done].
Qed.

Lemma find_slot s :
  Inv s → pending_count s ≠ MAX_PENDING_TRANSITIONS →
  ∃ slot, list_find (λ o, o = None) (pending s) = Some (slot, None) ∧
    pending s !! slot = Some None ∧ (slot < MAX_PENDING_TRANSITIONS)%nat.
Proof.
  intros HI Hc. pose proof (inv_widths s HI) as (_ & _ & _ & _ & _ & _ & _ & Hp & _).
  pose proof (inv_count s HI). pose proof (flatten_length_le (pending s)).
  rewrite <- Hp. apply free_slot. lia.
Qed.

Lemma admit_spec t s slot :
  Inv s → list_find (λ o, o = None) (pending s) = Some (slot, None) →
  (slot < MAX_PENDING_TRANSITIONS)%nat →
  admit_transition t s = Some (log_push (Scheduled t) (admitted slot t s), admit_outcome t s).
Proof.
  intros HI Hf Hs. pose proof (inv_widths s HI) as (_ & _ & _ & _ & _ & _ & _ & Hp & _).
  unfold admit_transition. rewrite Hf. simpl. rewrite array_set_Some by lia. done.
Qed.

(** An admissible transition is accepted into the first free slot. *)
Lemma submit_admissible t s :
  Inv s → admissible t s →
  ∃ slot, submit_transition t s =
            Some (log_push (Scheduled t) (admitted slot t s), admit_outcome t s) ∧
    list_find (λ o, o = None) (pending s) = Some (slot, None) ∧
    pending s !! slot = Some None ∧ (slot < MAX_PENDING_TRANSITIONS)%nat.
Proof.
  intros HI []. destruct (find_slot s HI ad_room0) as (slot & Hf & Hn & Hs).
  exists slot. split; [|done]. unfold submit_transition.
  rewrite ad_validate0. cbn [is_err is_ok negb orb].
  rewrite (proj2 (Nat.leb_gt _ _)) by lia. rewrite ad_resync0, ad_active0. cbn [negb].
  rewrite (proj2 (Z.eqb_eq _ _)) by done. cbn [negb].
  rewrite (proj2 (Z.ltb_ge _ _)), (proj2 (Z.ltb_ge _ _)) by lia.
  rewrite bool_decide_eq_false_2 by done.
  rewrite !find_same_fresh by done.
  rewrite (proj2 (Z.leb_gt _ _)) by lia.
  rewrite !(proj2 (Nat.eqb_neq _ _)) by lia. by apply admit_spec.
Qed.

Lemma submit_view_ok t s :
  Inv s → ∃ s' o, submit_transition t s = Some (s', o) ∧ submit_view t s s' o.
Proof.
  intros HI. unfold submit_transition.
  destruct (_ || _) eqn:E1; [do 2 eexists; split; [done|by apply sv_reject]|].
  destruct (resync_required s) eqn:Hr; [do 2 eexists; split; [done|by apply sv_reject]|].
  cbv zeta. do 4 (case_match; [do 2 eexists; split; [done|by apply sv_reject]|]).
  case_bool_decide as Hq; [do 2 eexists; split; [done|by apply sv_reject]|].
  apply orb_false_iff in E1 as [Ev Es]. unfold is_err in Ev. to_props.
  destruct (validate_transition t) as [[]|] eqn:Hv; [|done].
  destruct (list_find _ (flatten (pending s))) as [[i e]|] eqn:Fp.
  - destruct (_ && _); [do 2 eexists; split; [done|by apply sv_reject]|].
    apply find_same_Some in Fp as [He Hk].
    assert (transition_key t ∈ transition_key <$> flatten (pending s)) as Hin.
    { rewrite <- Hk. by apply list_elem_of_fmap_2. }
    pose proof (inv_widths s HI) as (_ & _ & _ & _ & _ & _ & Hlq & _).
    rewrite quarantine_identity_spec by (apply HI || done).
    change (seat t, epoch t, sequence t) with (transition_key t).
    rewrite bool_decide_eq_false_2 by done.
    pose proof (inv_qcount s HI).
    destruct (_ <? _)%nat eqn:Hl; simpl; do 2 eexists; (split; [done|]); to_props.
    + by apply sv_conflict.
    + apply sv_overflow; [done..|lia].
  - destruct (list_find _ (flatten (recent s))) as [[i e]|] eqn:Fr.
    { destruct (_ && _); [do 2 eexists; split; [done|by apply sv_reject]|].
      destruct (_ <=? _); do 2 eexists; (split; [done|by apply sv_reject]). }
    destruct (_ <=? _) eqn:Hfl; [do 2 eexists; split; [done|by apply sv_reject]|].
    destruct (_ =? _)%nat eqn:Hqc; [do 2 eexists; split; [done|by apply sv_resync]|].
    destruct (pending_count s =? _)%nat eqn:Hpc;
      [do 2 eexists; split; [done|by apply sv_reject]|]. to_props.
    destruct (find_slot s HI Hpc) as (slot & Hf & Hn & Hs).
    rewrite (admit_spec t s slot) by done. do 2 eexists. split; [done|].
    apply sv_accept; [|done..]. split; auto using find_same_None; lia.
Qed.

Lemma pending_admitted slot t s :
  pending s !! slot = Some None →
  flatten (pending (admitted slot t s)) ≡ₚ t :: flatten (pending s).
Proof. intros. unfold admitted. rt_simpl. by apply flatten_insert_Some. Qed.

Lemma lookup_total_insert_max (l : list Z) i j v :
  l !!! j ≤ <[i := Z.max (l !!! i) v]> l !!! j.
Proof.
  destruct (decide (i = j)) as [->|]; [|by rewrite list_lookup_total_insert_ne].
  destruct (decide (j < length l)%nat).
  - rewrite list_lookup_total_insert_eq by done. lia.
  - rewrite list_insert_ge by lia. done.
Qed.

Lemma pending_okb_weaken n act eps lo hi hs hs' t :
  (∀ j, hs !!! j ≤ hs' !!! j) → pending_okb n act eps lo hi hs t →
  pending_okb n act eps lo hi hs' t.
Proof. intros Hm []. split; [done..|]. etrans; [done|apply Hm]. Qed.

Lemma pending_ok_admitted slot t s :
  Inv s → transition_ok t → admissible t s → pending_ok (Z.min (current_tick s + 1) u64_max) (admitted slot t s) t.
Proof.
  intros HI Ht []. destruct HI as [W [Cf1 (Cf2 & Cf3 & Cf4)] Tk _ _ _ _ _ _ _].
  unfold widths in W. unfold admitted. split; rt_simpl; try done.
  - unfold earliest_apply_tick, latest_apply_tick, saturating_u64_add in *. lia.
  - rewrite list_lookup_total_insert_eq by lia. lia.
Qed.

Lemma Inv_admitted slot t s :
  Inv s → transition_ok t → admissible t s → pending s !! slot = Some None →
  Inv (admitted slot t s).
Proof.
  intros HI Ht Ha Hn. pose proof (pending_admitted slot t s Hn) as Hp.
  pose proof (pending_ok_admitted slot t s HI Ht Ha) as Hok.
  destruct HI. constructor; unfold admitted; rt_simpl; try done.
  - unfold widths in *. rt_simpl. rewrite !length_insert. tauto.
  - unfold admitted in Hp. rt_simpl. rewrite Hp. simpl. lia.
  - unfold admitted in Hp. rt_simpl. rewrite Hp. constructor; [done|].
    eapply Forall_impl; [exact inv_pending0|].
    intros u. apply pending_okb_weaken. intros. apply lookup_total_insert_max.
  - unfold admitted in Hp. rt_simpl. rewrite Hp, fmap_cons, NoDup_cons.
    split; [apply Ha|done].
  - intros u. unfold admitted in Hp. rt_simpl. rewrite Hp, elem_of_cons.
    intros [->|Hu]; [apply Ha|by apply inv_quarantine0].
Qed.

Lemma Inv_submit_view t s s' o : Inv s → transition_ok t → submit_view t s s' o → Inv s'.
Proof.
  intros HI Ht [o' _ _|_|_ _ _|_ _ Hq Hl|slot Ha Hn _ _]; try done.
  - auto with stasis.
  - apply Inv_set_resync, Inv_clear_pending, HI.
  - apply Inv_log_push, Inv_add_quarantine; [apply Inv_clear_pending, HI|done|apply drop_key_fresh].
  - apply Inv_log_push. by apply Inv_admitted.
Qed.

Lemma submit_transition_Inv t s :
  Inv s → transition_ok t → ∃ s' o, submit_transition t s = Some (s', o) ∧ Inv s'.
Proof.
  intros HI Ht. destruct (submit_view_ok t s HI) as (s' & o & E & V).
  exists s', o. split; [done|by eapply Inv_submit_view].
Qed.

Lemma submit_loop_Inv ts k s r :
  Inv s → Forall transition_ok ts → (k + length ts ≤ length r)%nat →
  ∃ s' r', submit_loop k ts s r = Some (s', r') ∧ Inv s'.
Proof.
  intros HI Hts. revert k s r HI. induction Hts as [|t ts Ht Hts IH]; intros k s r HI Hk; simpl.
  { by do 2 eexists. }
  destruct (submit_transition_Inv t s HI Ht) as (s1 & o & -> & HI1). simpl in *.
  rewrite array_set_Some by lia. simpl. apply IH; [done|]. rewrite length_insert. lia.
Qed.

Lemma submit_envelope_Inv e s :
  Inv s → wf_envelope e → ∃ s' r, submit_envelope e s = Some (s', r) ∧ Inv s'.
Proof.
  intros HI Hwf. unfold submit_envelope.
  destruct (submit_loop_Inv (transitions e) 0 s (replicate MAX_ENVELOPE_TRANSITIONS Malformed))
    as (s' & r & -> & HI'); [done| | |].
  - eapply Forall_impl; [apply (wf_env_valid e Hwf)|]. by intros t [? _].
  - rewrite length_replicate, (transitions_length e Hwf). apply (wf_env_count e Hwf).
  - simpl. by do 2 eexists.
Qed.

Lemma submit_payload_Inv p s :
  Inv s → bytes_ok p → ∃ s' r, submit_payload p s = Some (s', r) ∧ Inv s'.
Proof.
  intros HI Hp. unfold submit_payload. destruct (Envelope_decode p) as [e|] eqn:Hd.
  - apply submit_envelope_Inv; [done|]. by eapply decode_canonical_aux.
  - by do 2 eexists.
Qed.

(** ** Retaining part of the quarantine *)

Lemma quarantine_length s :
  length (quarantined s) = MAX_PENDING_TRANSITIONS →
  (quarantined_count s ≤ MAX_PENDING_TRANSITIONS)%nat →
  length (quarantine s) = quarantined_count s.
Proof. intros. unfold quarantine. rewrite length_take. lia. Qed.

Lemma quarantine_retain keep s :
  quarantine (retain_quarantine keep s) = filter (λ q, keep q = true) (quarantine s).
Proof. unfold quarantine, retain_quarantine. rt_simpl. by rewrite take_app_length. Qed.

Lemma retain_widths keep s :
  widths s → (quarantined_count s ≤ MAX_PENDING_TRANSITIONS)%nat →
  widths (retain_quarantine keep s) ∧
  (quarantined_count (retain_quarantine keep s) ≤ MAX_PENDING_TRANSITIONS)%nat.
Proof.
  intros W Hq. unfold widths, retain_quarantine in *. rt_simpl.
  pose proof (length_filter (λ q, keep q = true) (take (quarantined_count s) (quarantined s))) as L.
  rewrite length_take in L. rewrite length_app, length_replicate. lia.
Qed.

Lemma InvT_retain lo keep s : InvT lo s → InvT lo (retain_quarantine keep s).
Proof.
  intros [W ? ? ? ? Hq ? ? ? Hk]. destruct (retain_widths keep s W Hq) as [W' Hq'].
  constructor; try done. intros t Ht. rewrite quarantine_retain, list_elem_of_filter.
  intros [_ Hin]. by apply (Hk t).
Qed.

(** ** The tick *)

Lemma mjoin_lookup {A} (l : list (option A)) i t :
  mjoin (l !! i) = Some t ↔ l !! i = Some (Some t).
Proof. destruct (l !! i) as [[]|]; simpl; naive_solver. Qed.

(** The due transitions with their slots. *)
Definition keyed_due (tick : Z) (slots : list (option ScheduledTransition))
    : option (list (nat * ScheduledTransition)) :=
  mapM (λ i, t ← mjoin (slots !! i); Some (i, t)) (due_slots tick slots).

Definition due_at (tick : Z) (ts : list ScheduledTransition) : list ScheduledTransition :=
  filter (λ t, (apply_tick t =? tick) = true) ts.

Lemma keyed_due_suffix tick pre suf :
  ∃ K, mapM (λ i, t ← mjoin ((pre ++ suf) !! i); Some (i, t))
         (filter (λ i, is_due tick (mjoin ((pre ++ suf) !! i)) = true)
            (seq (length pre) (length suf))) = Some K ∧
    K.*2 = due_at tick (flatten suf) ∧
    Forall (λ it, (pre ++ suf) !! it.1 = Some (Some it.2) ∧ (length pre ≤ it.1)%nat) K ∧
    NoDup K.*1.
Proof.
  revert pre. induction suf as [|o suf IH]; intros pre.
  { exists []. split_and!; [done..|constructor|constructor]. }
  destruct (IH (pre ++ [o])) as (K & HK & H2 & HF & HN).
  rewrite <- app_assoc in HK, HF. cbn [app] in HK, HF.
  rewrite length_app in HK, HF. cbn [length] in HK, HF. rewrite Nat.add_1_r in HK, HF.
  cbn [length seq]. rewrite filter_cons.
  assert ((pre ++ o :: suf) !! length pre = Some o) as E by (by apply list_lookup_middle).
  rewrite E. rewrite flatten_cons. unfold due_at in *.
  destruct o as [t|]; simpl.
  - rewrite filter_cons. destruct (apply_tick t =? tick) eqn:Ht; simpl.
    + rewrite E. simpl. rewrite HK. simpl. exists ((length pre, t) :: K). split_and!.
      * done.
      * rewrite fmap_cons, H2. done.
      * constructor; [done|]. eapply Forall_impl; [exact HF|]. intros [i u] [? ?]; simpl in *; split; [done|lia].
      * rewrite fmap_cons. constructor; [|done]. intros (it & Hi & Hin)%list_elem_of_fmap.
        rewrite Forall_forall in HF. apply HF in Hin as [_ Hin]. simpl in Hi. lia.
    + exists K. split_and!; [done..| |done].
      eapply Forall_impl; [exact HF|]. intros [i u] [? ?]; simpl in *; split; [done|lia].
  - exists K. split_and!; [done..| |done].
    eapply Forall_impl; [exact HF|]. intros [i u] [? ?]; simpl in *; split; [done|lia].
Qed.

Lemma sort_by_fmap {A B} (f : A → B) le (l : list A) :
  f <$> sort_by (λ a b, le (f a) (f b)) l = sort_by le (f <$> l).
Proof.
  induction l as [|x l IH]; [done|]. rewrite fmap_cons. cbn [sort_by foldr].
  fold (sort_by le (f <$> l)). fold (sort_by (λ a b, le (f a) (f b)) l). rewrite <- IH.
  clear IH. induction (sort_by _ l) as [|y m IH]; [done|]. rewrite fmap_cons.
  cbn [insert_stable]. destruct (le (f x) (f y)); [done|]. rewrite fmap_cons. by rewrite IH.
Qed.

(** The transitions a tick applies, in application order. *)
Definition due_order (tick : Z) (s : RealtimeSession) : list ScheduledTransition :=
  sort_by due_key_le (due_at tick (flatten (pending s))).

Lemma sorted_due_spec tick slots :
  ∃ S, sorted_due tick slots = Some S.*1 ∧
    S.*2 = sort_by due_key_le (due_at tick (flatten slots)) ∧
    Forall (λ it, slots !! it.1 = Some (Some it.2)) S ∧ NoDup S.*1.
Proof.
  destruct (keyed_due_suffix tick [] slots) as (K & HK & H2 & HF & HN).
  cbn [app length] in *. exists (sort_by (λ a b, due_key_le a.2 b.2) K). split_and!.
  - unfold sorted_due, due_slots. cbn [app] in HK. rewrite HK. done.
  - by rewrite (sort_by_fmap snd), H2.
  - rewrite sort_by_Permutation. eapply Forall_impl; [exact HF|]. by intros it [? _].
  - by rewrite sort_by_Permutation.
Qed.

Definition take_slot (i : nat) (s : RealtimeSession) : RealtimeSession :=
  set_pending_count (pred (pending_count s)) (set_pending (<[i := None]> (pending s)) s).

(** The part of an apply-loop iteration that does not touch the pending array. *)
Definition apply_effect (t : ScheduledTransition) (s : RealtimeSession) : RealtimeSession :=
  let i := Z.to_nat (seat t) in
  let s1 := set_controls (<[i := state t]> (controls s)) s in
  let s2 := set_highest_applied_sequence
    (<[i := Z.max (highest_applied_sequence s1 !!! i) (sequence t)]>
       (highest_applied_sequence s1)) s1 in
  let s3 := compact_quarantine i s2 in
  let s4 := set_recent (<[recent_next s3 := Some t]> (recent s3)) s3 in
  set_recent_next ((recent_next s4 + 1) `mod` MAX_PENDING_TRANSITIONS)%nat s4.

Definition apply_slot (s : RealtimeSession) (it : nat * ScheduledTransition) : RealtimeSession :=
  apply_effect it.2 (take_slot it.1 s).

Lemma take_slot_pending i s t :
  pending s !! i = Some (Some t) →
  flatten (pending s) ≡ₚ t :: flatten (pending (take_slot i s)).
Proof. apply flatten_insert_None. Qed.

Lemma InvT_take_slot lo i s t :
  InvT lo s → pending s !! i = Some (Some t) → InvT lo (take_slot i s).
Proof.
  intros [W ? ? ? Hc ? ? Hp Hd Hq] Hi. pose proof (take_slot_pending i s t Hi) as P.
  constructor; try done.
  - unfold widths, take_slot in *. rt_simpl. rewrite length_insert. tauto.
  - unfold take_slot at 1. rt_simpl. rewrite Hc, P. done.
  - rewrite P in Hp. by inversion_clear Hp.
  - rewrite P, fmap_cons in Hd. by inversion_clear Hd.
  - intros u Hu. apply Hq. rewrite P. by apply list_elem_of_further.
Qed.

Lemma pending_InvT lo i s t :
  InvT lo s → pending s !! i = Some (Some t) → pending_ok lo s t.
Proof.
  intros HI Hi. pose proof (inv_pending s HI) as H. rewrite Forall_forall in H.
  apply H, elem_of_flatten_lookup. eauto.
Qed.

Lemma InvT_apply_effect lo t s : InvT lo s → InvT lo (apply_effect t s).
Proof.
  intros HI. unfold apply_effect. cbv zeta.
  set (s2 := set_highest_applied_sequence _ _).
  assert (InvT lo s2) as HI2.
  { destruct HI. constructor; try done. unfold widths, s2 in *. rt_simpl.
    rewrite !length_insert. tauto. }
  apply (InvT_retain lo (λ '(qs, qe, qq), negb ((Z.to_nat qs =? Z.to_nat (seat t))%nat &&
    (qe =? epochs s2 !!! Z.to_nat (seat t)) &&
    (qq <=? highest_applied_sequence s2 !!! Z.to_nat (seat t))))) in HI2.
  change (retain_quarantine _ s2) with (compact_quarantine (Z.to_nat (seat t)) s2) in HI2.
  destruct HI2. constructor; try done.
  - unfold widths in *. rt_simpl. rewrite length_insert. tauto.
  - rt_simpl. apply Nat.mod_upper_bound. unfold MAX_PENDING_TRANSITIONS. lia.
Qed.

Lemma apply_one_spec lo i s t :
  InvT lo s → pending s !! i = Some (Some t) → apply_one i s = Some (apply_slot s (i, t), t).
Proof.
  intros HI Hi. unfold apply_one. rewrite Hi. cbn [mjoin option_join mbind option_bind].
  pose proof (take_slot_pending i s t Hi) as P. pose proof (inv_count s HI) as Hc.
  rewrite P in Hc. destruct (pending_count s) as [|n] eqn:En; [done|].
  pose proof (po_seat _ _ _ _ _ _ _ (pending_InvT _ _ _ _ HI Hi)) as Hs.
  pose proof (inv_next s HI) as Hn. pose proof (inv_widths s HI) as W. unfold widths in W.
  cbn [checked_pred mbind option_bind].
  rewrite array_set_Some by (rt_simpl; lia). cbn [mbind option_bind]. rt_simpl.
  destruct (lookup_lt_is_Some_2 (highest_applied_sequence s) (Z.to_nat (seat t))) as [h Hh]; [lia|].
  rewrite Hh. cbn [mbind option_bind].
  rewrite array_set_Some by (unfold compact_quarantine, retain_quarantine; rt_simpl; lia).
  cbn [mbind option_bind]. do 2 f_equal. unfold apply_slot, apply_effect, take_slot.
  cbn [fst snd]. rewrite En. rt_simpl. by rewrite (list_lookup_total_correct _ _ _ Hh).
Qed.

(** Write [ts] into an array from index [k] on. *)
Definition write_from {A} (k : nat) (ts arr : list A) : list A :=
  take k arr ++ ts ++ drop (k + length ts) arr.

Lemma write_from_cons {A} k (t : A) ts arr :
  (k < length arr)%nat → write_from (S k) ts (<[k := t]> arr) = write_from k (t :: ts) arr.
Proof.
  intros H. unfold write_from. rewrite <- Nat.add_1_r, take_insert_extend by done.
  rewrite drop_insert_lt by lia. rewrite <- !app_assoc. cbn [app length].
  do 3 f_equal. f_equal. lia.
Qed.

Lemma apply_loop_spec lo k S s arr :
  InvT lo s → Forall (λ it, pending s !! it.1 = Some (Some it.2)) S → NoDup S.*1 →
  (k + length S ≤ length arr)%nat →
  apply_loop k S.*1 s arr = Some (foldl apply_slot s S, write_from k S.*2 arr) ∧
  InvT lo (foldl apply_slot s S).
Proof.
  revert k s arr. induction S as [|[i t] S IH]; intros k s arr HI HF HN Hk.
  { simpl. unfold write_from. cbn [app length]. by rewrite Nat.add_0_r, take_drop. }
  rewrite Forall_cons in HF. destruct HF as [Hi HF]. cbn [fst snd] in Hi.
  rewrite fmap_cons, NoDup_cons in HN. destruct HN as [Hnot HN].
  rewrite !fmap_cons. cbn [apply_loop fst snd foldl length] in *.
  rewrite (apply_one_spec lo) with (t := t) by done. cbn [mbind option_bind].
  rewrite array_set_Some by lia. cbn [mbind option_bind].
  rewrite <- write_from_cons by lia. apply IH.
  - by apply InvT_apply_effect, (InvT_take_slot lo i s t).
  - apply Forall_forall. intros [j u] Hju. rewrite Forall_forall in HF.
    specialize (HF _ Hju). cbn [fst snd] in *.
    change (<[i := None]> (pending s) !! j = Some (Some u)).
    rewrite list_lookup_insert_ne; [done|]. intros ->. apply Hnot.
    by apply (list_elem_of_fmap_2' fst S (j, u)).
  - done.
  - rewrite length_insert. lia.
Qed.

Lemma foldl_apply_pending S s :
  Forall (λ it, pending s !! it.1 = Some (Some it.2)) S → NoDup S.*1 →
  flatten (pending s) ≡ₚ S.*2 ++ flatten (pending (foldl apply_slot s S)).
Proof.
  revert s. induction S as [|[i t] S IH]; intros s HF HN; [done|].
  rewrite Forall_cons in HF. destruct HF as [Hi HF]. cbn [fst snd] in Hi.
  rewrite fmap_cons, NoDup_cons in HN. destruct HN as [Hnot HN].
  rewrite fmap_cons. cbn [foldl app fst snd]. rewrite (take_slot_pending i s t Hi).
  f_equiv. change (pending (take_slot i s)) with (pending (apply_slot s (i, t))).
  apply IH; [|done]. apply Forall_forall. intros [j u] Hju. rewrite Forall_forall in HF.
  specialize (HF _ Hju). cbn [fst snd] in *.
  change (<[i := None]> (pending s) !! j = Some (Some u)).
  rewrite list_lookup_insert_ne; [done|]. intros ->. apply Hnot.
  by apply (list_elem_of_fmap_2' fst S (j, u)).
Qed.

(** The controls a list of applied transitions leaves. *)
Definition apply_controls (cs : list ControlState) (ts : list ScheduledTransition) :=
  foldl (λ cs t, <[Z.to_nat (seat t) := state t]> cs) cs ts.

Lemma foldl_apply_controls S s :
  controls (foldl apply_slot s S) = apply_controls (controls s) S.*2.
Proof. revert s. induction S as [|[i t] S IH]; intros s; [done|]. cbn [foldl]. by rewrite IH. Qed.

Lemma foldl_apply_frame S s :
  let s' := foldl apply_slot s S in
  seats s' = seats s ∧ current_tick s' = current_tick s ∧ replay s' = replay s ∧
  config s' = config s ∧ resync_required s' = resync_required s ∧ epochs s' = epochs s.
Proof. revert s. induction S as [|it S IH]; intros s; [done|]. apply (IH (apply_slot s it)). Qed.

Lemma due_at_length tick s :
  widths s → (length (due_at tick (flatten (pending s))) ≤ MAX_PENDING_TRANSITIONS)%nat.
Proof.
  intros (_ & _ & _ & _ & _ & _ & _ & Hp & _). rewrite <- Hp.
  etrans; [apply length_filter|apply flatten_length_le].
Qed.

(** Everything one successful tick does. *)
Record tick_result (s s' : RealtimeSession) (a : TickAdvance) : Prop := {
  tr_tick : ta_tick a = current_tick s + 1;
  tr_current : current_tick s' = current_tick s + 1;
  tr_seats : ta_configured_seats a = seats s;
  tr_frame : seats s' = seats s;
  tr_advance : a = mkAdvance (current_tick s + 1) (seats s) (controls s')
    (write_from 0 (due_order (current_tick s + 1) s)
       (replicate MAX_PENDING_TRANSITIONS default_transition))
    (length (due_order (current_tick s + 1) s));
  tr_applied : applied_transitions a = due_order (current_tick s + 1) s;
  tr_controls : controls s' = apply_controls (controls s) (due_order (current_tick s + 1) s);
  tr_reported : ta_controls a = controls s';
  tr_pending : flatten (pending s') ≡ₚ
    filter (λ t, (apply_tick t =? current_tick s + 1) ≠ true) (flatten (pending s));
}.

Lemma InvT_set_tick s :
  Inv s → current_tick s < u64_max →
  InvT (current_tick s + 1) (set_current_tick (current_tick s + 1) s).
Proof.
  intros [] Hlt. constructor; try done.
  - rt_simpl. unfold in_u, u64_max in *. lia.
  - eapply Forall_impl; [exact inv_pending0|]. intros t []. split; rt_simpl; try done. lia.
Qed.

Lemma advance_tick_spec s :
  Inv s → current_tick s < u64_max →
  ∃ s' a, advance_tick s = Some (s', Ok a) ∧ Inv s' ∧ tick_result s s' a.
Proof.
  intros HI Hlt. pose proof (InvT_set_tick s HI Hlt) as HT.
  pose proof (inv_tick s HI) as Ht. unfold advance_tick, advance_tick_inner.
  destruct (checked_u 64 _) as [tick|] eqn:Ec; swap 1 2.
  { unfold checked_u in Ec. case_bool_decide as Hn; [done|]. exfalso. apply Hn.
    unfold in_u, u64_max in *. lia. }
  apply checked_u_Some in Ec as [_ ->]. set (s1 := set_current_tick _ _) in *.
  destruct (sorted_due_spec (current_tick s + 1) (pending s1)) as (S & HS & H2 & HF & HN).
  rewrite HS. cbn [mbind option_bind].
  change (pending s1) with (pending s) in H2. fold (due_order (current_tick s + 1) s) in H2.
  assert (length S = length (due_order (current_tick s + 1) s)) as Hlen
    by (by rewrite <- H2, length_fmap).
  assert (length S ≤ MAX_PENDING_TRANSITIONS)%nat as Hl.
  { rewrite Hlen. unfold due_order. rewrite length_sort_by. apply due_at_length, HI. }
  destruct (apply_loop_spec _ 0 S s1 (replicate MAX_PENDING_TRANSITIONS default_transition) HT HF HN)
    as [E HT']; [rewrite length_replicate; lia|].
  rewrite E. cbn [mbind option_bind].
  pose proof (foldl_apply_frame S s1) as (Fs & Ft & _).
  pose proof (foldl_apply_pending S s1 HF HN) as P. rewrite H2 in P.
  set (s2 := foldl apply_slot s1 S) in *. do 2 eexists. split; [done|].
  assert (flatten (pending s2) ≡ₚ
    filter (λ t, (apply_tick t =? current_tick s + 1) ≠ true) (flatten (pending s))) as P2.
  { apply (Permutation_app_inv_l (due_order (current_tick s + 1) s)). rewrite <- P.
    unfold due_order. rewrite sort_by_Permutation. symmetry. apply filter_app_complement. }
  split.
  - apply Inv_log_push. unfold Inv. rewrite Ft. destruct HT'. constructor; try done.
    rewrite Forall_forall in inv_pending0 |- *. intros t Hin.
    specialize (inv_pending0 t Hin). rewrite P2 in Hin. apply list_elem_of_filter in Hin as [Hn _].
    to_props. destruct inv_pending0 as [? ? ? ? [? ?] ?]. split; try done. split; [|done].
    unfold s1 in *. rt_simpl. apply not_true_is_false in Hn. to_props. lia.
  - split; rt_simpl; try done.
    + rewrite H2, length_fmap, Hlen, Fs. done.
    + unfold applied_transitions, write_from. cbn [ta_applied ta_applied_count].
      rewrite take_0, app_nil_l, H2, length_fmap, Hlen. apply take_app_length.
    + unfold log_push. rt_simpl. unfold s2. rewrite foldl_apply_controls, H2. done.
Qed.

Lemma advance_tick_exhausted s :
  current_tick s = u64_max → advance_tick s = Some (s, Err Exhausted).
Proof. intros E. unfold advance_tick, advance_tick_inner. rewrite E. done. Qed.

Lemma advance_tick_Inv s : Inv s → ∃ s' r, advance_tick s = Some (s', r) ∧ Inv s'.
Proof.
  intros HI. pose proof (inv_tick s HI) as Ht. unfold in_u in Ht.
  destruct (decide (current_tick s = u64_max)) as [E|E].
  - rewrite advance_tick_exhausted by done. by do 2 eexists.
  - destruct (advance_tick_spec s HI) as (s' & a & ? & ? & _); [unfold u64_max in *; lia|].
    by do 2 eexists.
Qed.

(** ** Lifecycle *)

Definition seat_is (i : nat) (t : ScheduledTransition) : bool := (Z.to_nat (seat t) =? i)%nat.

(** The state a successful [lifecycle_epoch] leaves, before it is logged. *)
Definition reseat (i : nat) (act : bool) (ep : Z) (s : RealtimeSession) : RealtimeSession :=
  let s1 := set_epochs (<[i := ep]> (epochs s)) s in
  let s2 := set_active (<[i := act]> (active s1)) s1 in
  let s3 := set_controls (<[i := neutral]> (controls s2)) s2 in
  let s4 := set_pending_count (length (flatten (clear_entry (seat_is i) <$> pending s3)))
              (set_pending (clear_entry (seat_is i) <$> pending s3) s3) in
  let s5 := set_highest_sequence (<[i := 0]> (highest_sequence s4)) s4 in
  let s6 := set_highest_applied_sequence (<[i := 0]> (highest_applied_sequence s5)) s5 in
  let s7 := set_recent (clear_entry (seat_is i) <$> recent s6) s6 in
  retain_quarantine (λ '(qs, _, _), negb (Z.to_nat qs =? i)%nat) s7.

Lemma next_epoch_Ok i s ep :
  next_epoch i s = Ok ep ↔ ep = epochs s !!! i + 1 ∧ in_u 32 (epochs s !!! i + 1).
Proof.
  unfold next_epoch. destruct (checked_u 32 _) as [v|] eqn:E; cbn [ok_or].
  - apply checked_u_Some in E as [? ->]. split; [by intros <-%Ok_inj|by intros [-> _]].
  - split; [done|]. intros [_ H]. unfold checked_u in E. by case_bool_decide.
Qed.

Lemma lifecycle_epoch_spec i act reason s :
  pending_count s = length (flatten (pending s)) →
  lifecycle_epoch i act reason s =
  Some (if (seats s <=? i)%nat then (s, Err InvalidSeat)
        else match next_epoch i s with
             | Err e => (s, Err e)
             | Ok ep => (log_push (Reset_ reason) (reseat i act ep s), Ok tt)
             end).
Proof.
  intros Hc. unfold lifecycle_epoch. destruct (_ <=? _)%nat; [done|].
  destruct (next_epoch i s) as [ep|]; [|done]. cbv zeta. unfold remove_pending_seat.
  match goal with |- context [clear_pending _ ?s3] =>
    destruct (clear_pending_spec (seat_is i) s3) as (s' & Hs & ->); [exact Hc|] end.
  unfold seat_is in Hs at 1. rewrite Hs. done.
Qed.

(** Dropping the pending entries that satisfy [p] leaves those that do not. *)
Lemma elem_of_clear p l t :
  t ∈ flatten (clear_entry p <$> l) ↔ p t = false ∧ t ∈ flatten l.
Proof.
  rewrite flatten_clear, list_elem_of_filter. by rewrite not_true_iff_false.
Qed.

Lemma InvT_reseat lo i act ep s :
  InvT lo s → (i < seats s)%nat → 1 ≤ ep ≤ u32_max → InvT lo (reseat i act ep s).
Proof.
  intros HI Hi Hep. apply InvT_retain.
  destruct HI. unfold widths in *. constructor; rt_simpl; try done.
  - unfold widths. rt_simpl. rewrite !length_insert, !length_fmap. tauto.
  - intros j Hj. destruct (decide (i = j)) as [->|].
    + rewrite list_lookup_total_insert_eq by lia. done.
    + rewrite list_lookup_total_insert_ne by done. by apply inv_epochs0.
  - apply Forall_forall. intros t [Hn Ht]%elem_of_clear. unfold seat_is in Hn. to_props.
    rewrite Forall_forall in inv_pending0. destruct (inv_pending0 t Ht).
    split; rt_simpl; try done; by rewrite list_lookup_total_insert_ne by done.
  - rewrite flatten_clear. by apply NoDup_fmap_filter.
  - intros t [_ Ht]%elem_of_clear. by apply inv_quarantine0.
Qed.

Lemma lifecycle_epoch_Inv i act reason s :
  Inv s → ∃ s' r, lifecycle_epoch i act reason s = Some (s', r) ∧ Inv s'.
Proof.
  intros HI. rewrite lifecycle_epoch_spec by apply HI.
  destruct (_ <=? _)%nat eqn:Hi; [by do 2 eexists|]. to_props.
  destruct (next_epoch i s) as [ep|] eqn:E; [|by do 2 eexists].
  apply next_epoch_Ok in E as [-> E]. do 2 eexists. split; [done|]. apply Inv_log_push.
  apply InvT_reseat; [done|done|]. pose proof (inv_epochs s HI i Hi).
  unfold in_u, u32_max in *. lia.
Qed.

Lemma next_epochs_spec l s acc eps :
  next_epochs l s acc = Ok eps → length eps = length acc ∧
  ∀ j, eps !!! j = acc !!! j ∨
       (j ∈ l ∧ eps !!! j = epochs s !!! j + 1 ∧ in_u 32 (epochs s !!! j + 1)).
Proof.
  revert acc. induction l as [|i l IH]; intros acc; cbn [next_epochs].
  { intros <-%Ok_inj. auto. }
  destruct (next_epoch i s) as [ep|] eqn:E; [|done]. cbn [result_bind]. intros H.
  apply next_epoch_Ok in E as [-> E]. destruct (IH _ H) as [Hl Hj].
  rewrite length_insert in Hl. split; [done|]. intros j.
  destruct (Hj j) as [Hs|(? & ? & ?)].
  - destruct (decide (i = j ∧ (i < length acc)%nat)) as [[-> Hlt]|Hne].
    + right. rewrite list_lookup_total_insert_eq in Hs by done.
      split_and!; [apply list_elem_of_here|done|done].
    + left. rewrite Hs. destruct (decide (i = j)) as [->|].
      * rewrite list_insert_ge; [done|lia].
      * by rewrite list_lookup_total_insert_ne.
  - right. split_and!; [by apply list_elem_of_further|done|done].
Qed.

(** The preflight advances every listed seat. *)
Lemma next_epochs_mem l s acc eps i :
  next_epochs l s acc = Ok eps → i ∈ l → (i < length acc)%nat → eps !!! i = epochs s !!! i + 1.
Proof.
  revert acc. induction l as [|j l IH]; intros acc; cbn [next_epochs].
  { intros _ Hi. by apply not_elem_of_nil in Hi. }
  destruct (next_epoch j s) as [ep|] eqn:E; [|done]. cbn [result_bind]. intros H Hi Hl.
  apply next_epoch_Ok in E as [-> E]. destruct (decide (i ∈ l)) as [Hin|Hin].
  - by apply (IH _ H); [|rewrite length_insert].
  - apply elem_of_cons in Hi as [->|Hi]; [|done].
    destruct (next_epochs_spec _ _ _ _ H) as [_ Hj].
    destruct (Hj j) as [->|(? & ? & ?)]; [|done]. by rewrite list_lookup_total_insert_eq.
Qed.

Lemma length_zero_prefix n l : length (zero_prefix n l) = length l.
Proof.
  unfold zero_prefix. generalize (seq 0 n). intros idx. revert l.
  induction idx as [|i idx IH]; intros l; [done|]. cbn [foldl]. by rewrite IH, length_insert.
Qed.

Lemma length_fill_prefix {A} n (v : A) l : (n ≤ length l)%nat → length (fill_prefix n v l) = length l.
Proof. intros. unfold fill_prefix. rewrite length_app, length_replicate, length_drop. lia. Qed.

Lemma flatten_no_pending : flatten no_pending = [].
Proof. apply flatten_replicate_None. Qed.

(** With nothing pending and nothing quarantined only widths, epochs and tick matter. *)
Lemma Inv_cleared s :
  widths s → config_ok (config s) → in_u 64 (current_tick s) →
  (∀ i, (i < seats s)%nat → 1 ≤ epochs s !!! i ≤ u32_max) →
  pending s = no_pending → pending_count s = 0%nat → quarantined_count s = 0%nat →
  recent_next s = 0%nat → Inv s.
Proof.
  intros ? ? ? ? Hp Hc Hq Hr. constructor; rewrite ?Hp, ?Hc, ?Hq, ?Hr, ?flatten_no_pending;
    try done; unfold MAX_PENDING_TRANSITIONS; try lia; [constructor|].
  intros t Ht. by apply not_elem_of_nil in Ht.
Qed.

Lemma reset_all_Inv reason s : Inv s → Inv (fst (reset_all reason s)).
Proof.
  intros HI. unfold reset_all. destruct (next_epochs _ s (epochs s)) as [eps|] eqn:E; [|done].
  apply next_epochs_spec in E as [Hl He]. cbv zeta. cbn [fst]. apply Inv_log_push.
  destruct HI as [W Hc Ht Hep _ _ _ _ _ _]. unfold widths in W.
  assert (∀ i, (i < seats s)%nat → 1 ≤ eps !!! i ≤ u32_max) as Heps.
  { intros i Hi. specialize (Hep i Hi). destruct (He i) as [->|(_ & -> & Hu)]; [done|].
    unfold in_u, u32_max in *. lia. }
  case_bool_decide; apply Inv_cleared; rt_simpl; try done; unfold widths; rt_simpl;
    unfold no_quarantine, no_pending;
    rewrite ?length_zero_prefix, ?length_replicate, ?length_fill_prefix by lia; lia.
Qed.

(** ** Snapshots *)

Lemma check_epochs_Ok l sn s :
  check_epochs l sn s = Ok tt →
  ∀ i, i ∈ l → sn_epochs sn !!! i ≠ u32_max ∧ epochs s !!! i ≤ sn_epochs sn !!! i ∧
    (sn_epochs sn !!! i = epochs s !!! i →
     current_tick s ≤ sn_tick sn ∧ highest_sequence s !!! i ≤ sn_sequences sn !!! i).
Proof.
  induction l as [|j l IH]; cbn [check_epochs]; intros H i Hi; [by apply not_elem_of_nil in Hi|].
  destruct (_ =? u32_max) eqn:E1; [done|]. destruct (_ <? epochs s !!! j) eqn:E2; [done|].
  destruct (_ && (sn_tick sn <? _)) eqn:E3; [done|].
  destruct (_ && (sn_sequences sn !!! j <? _)) eqn:E4; [done|]. to_props.
  apply elem_of_cons in Hi as [->|Hi]; [|by apply IH].
  split_and!; [done..|]. intros Heq. rewrite Heq, Z.eqb_refl in *. to_props.
  apply andb_false_iff in E3 as [|E3]; [done|]. apply andb_false_iff in E4 as [|E4]; [done|].
  to_props. lia.
Qed.

Lemma apply_authoritative_snapshot_Inv sn s :
  Inv s → snapshot_ok sn → Inv (fst (apply_authoritative_snapshot sn s)).
Proof.
  intros HI Hsn. unfold apply_authoritative_snapshot.
  destruct (_ || _); [done|]. destruct (_ <? _) eqn:Ht; [done|].
  destruct (check_inactive _ _ _); [|done]. destruct (_ <? _)%nat; [done|].
  destruct (check_epochs _ sn s) as [[]|] eqn:E; [|done]. cbn [fst]. apply Inv_log_push.
  pose proof (check_epochs_Ok _ _ _ E) as He. clear E. to_props.
  destruct HI as [W Hc _ Hep _ _ _ _ _ _]. destruct Hsn. unfold widths in W.
  unfold apply_snapshot. apply Inv_cleared; rt_simpl; try done.
  - unfold widths, no_quarantine, no_pending. rt_simpl. rewrite !length_replicate. tauto.
  - intros i Hi. specialize (Hep i Hi). destruct (He i) as (? & ? & _); [by apply elem_of_seq; lia|].
    rewrite Forall_lookup in so_epoch_range0.
    specialize (so_epoch_range0 i (sn_epochs sn !!! i)). unfold in_u, u32_max in *.
    assert (sn_epochs sn !! i = Some (sn_epochs sn !!! i)) as Hlk
      by (apply list_lookup_lookup_total_lt; lia).
    specialize (so_epoch_range0 Hlk). lia.
Qed.

(** ** Reachability *)

Lemma step_Inv op s : Inv s → op_ok op → ∃ s', step op s = Some s' ∧ Inv s'.
Proof.
  intros HI Hop. destruct op; cbn [step op_ok] in *.
  - destruct (submit_transition_Inv t s HI Hop) as (s' & ? & -> & ?). by exists s'.
  - destruct (submit_envelope_Inv e s HI Hop) as (s' & ? & -> & ?). by exists s'.
  - destruct (submit_payload_Inv payload s HI Hop) as (s' & ? & -> & ?). by exists s'.
  - destruct (advance_tick_Inv s HI) as (s' & ? & -> & ?). by exists s'.
  - eexists. split; [done|]. unfold record_authoritative_hash.
    destruct (Log_record_hash _ _ _). by apply Inv_set_replay.
  - destruct (lifecycle_epoch_Inv i false (Disconnect (wrap 8 (Z.of_nat i))) s HI)
      as (s' & ? & E & ?). unfold disconnect. rewrite E. by exists s'.
  - destruct (lifecycle_epoch_Inv i true (Reconnect (wrap 8 (Z.of_nat i))) s HI)
      as (s' & ? & E & ?). unfold reconnect. rewrite E. by exists s'.
  - eexists. split; [done|]. by apply reset_all_Inv.
  - eexists. split; [done|]. by apply reset_all_Inv.
  - eexists. split; [done|]. by apply reset_all_Inv.
  - eexists. split; [done|]. by apply apply_authoritative_snapshot_Inv.
Qed.

Lemma run_Inv ops s : Inv s → Forall op_ok ops → ∃ s', run ops s = Some s' ∧ Inv s'.
Proof.
  intros HI Hops. revert s HI. induction Hops as [|op ops Hop _ IH]; intros s HI; cbn [run].
  { by exists s. }
  destruct (step_Inv op s HI Hop) as (s1 & -> & HI1). by apply IH.
Qed.
