(* ===== verification/RealtimeProps.v ===== *)
(** * What the session guarantees to the simulation

    Panic freedom of every call sequence, the exact effect of a tick,
    independence of ticks from the order in which transitions arrived,
    idempotence of re-delivery, and the permanent exclusion of an identity for
    which two different transitions were received. *)

From S2P Require Import Prelude RealtimeData RealtimeSession RealtimeInv.
#[local] Open Scope Z_scope.

Lemma config_new_ok a b c d cfg :
  in_u 32 a → in_u 32 b → in_u 32 c → in_u 32 d →
  RealtimeConfig_new a b c d = Ok cfg → config_ok cfg.
Proof.
  unfold RealtimeConfig_new, in_u. intros ? ? ? ?.
  destruct (_ || _ || _) eqn:E1; [done|].
  destruct ((MAX_RATE_HZ <? a) || _ || _) eqn:E2; [done|].
  destruct (d =? 0) eqn:E3; [done|]. destruct (_ <? d) eqn:E4; [done|]. to_props.
  intros <-%Ok_inj. unfold config_ok. cbn. lia.
Qed.

(** ** The effect of a tick *)

Lemma due_key_le_total a b : due_key_le a b = true ∨ due_key_le b a = true.
Proof.
  unfold due_key_le. rewrite !orb_true_iff, !andb_true_iff, !orb_true_iff, !andb_true_iff,
    !Z.ltb_lt, !Z.eqb_eq, !Z.leb_le. lia.
Qed.

Lemma due_key_le_trans a b c :
  due_key_le a b = true → due_key_le b c = true → due_key_le a c = true.
Proof.
  unfold due_key_le. rewrite !orb_true_iff, !andb_true_iff, !orb_true_iff, !andb_true_iff,
    !Z.ltb_lt, !Z.eqb_eq, !Z.leb_le. lia.
Qed.

Lemma due_key_le_seq a b : due_key_le a b = true → seat a = seat b → sequence a ≤ sequence b.
Proof.
  unfold due_key_le. rewrite !orb_true_iff, !andb_true_iff, !orb_true_iff, !andb_true_iff,
    !Z.ltb_lt, !Z.eqb_eq, !Z.leb_le. lia.
Qed.

Lemma due_order_sorted tick s : StronglySorted (λ a b, due_key_le a b = true) (due_order tick s).
Proof. apply sort_by_sorted; [apply due_key_le_total|apply due_key_le_trans]. Qed.

Lemma elem_of_due_order (tick : Z) (s : RealtimeSession) (t : ScheduledTransition) :
  t ∈ due_order tick s ↔ apply_tick t = tick ∧ t ∈ flatten (pending s).
Proof.
  unfold due_order, due_at. by rewrite elem_of_sort_by, list_elem_of_filter, Z.eqb_eq.
Qed.

(** Two pending transitions with the same sort key have the same identity. *)
Lemma due_order_antisym s a b :
  Inv s → a ∈ flatten (pending s) → b ∈ flatten (pending s) →
  due_key_le a b = true → due_key_le b a = true → a = b.
Proof.
  intros HI Ha Hb Hab Hba. assert (seat a = seat b ∧ sequence a = sequence b) as [Es Eq].
  { revert Hab Hba. unfold due_key_le.
    rewrite !orb_true_iff, !andb_true_iff, !orb_true_iff, !andb_true_iff,
      !Z.ltb_lt, !Z.eqb_eq, !Z.leb_le. lia. }
  pose proof (inv_pending s HI) as Hp. rewrite Forall_forall in Hp.
  pose proof (po_epoch _ _ _ _ _ _ _ (Hp a Ha)) as Ea.
  pose proof (po_epoch _ _ _ _ _ _ _ (Hp b Hb)) as Eb.
  apply (NoDup_fmap_elem transition_key (flatten (pending s))); [apply HI|done..|].
  unfold transition_key. rewrite Ea, Eb. by rewrite Es, Eq.
Qed.

Lemma lookup_apply_controls_other cs ts i :
  Forall (λ t, Z.to_nat (seat t) ≠ i) ts → apply_controls cs ts !!! i = cs !!! i.
Proof.
  intros H. revert cs. induction H as [|t ts Ht _ IH]; intros cs; [done|].
  cbn [apply_controls foldl]. fold (apply_controls (<[Z.to_nat (seat t) := state t]> cs) ts).
  by rewrite IH, list_lookup_total_insert_ne.
Qed.

Lemma length_apply_controls cs ts : length (apply_controls cs ts) = length cs.
Proof.
  revert cs. induction ts as [|t ts IH]; intros cs; [done|].
  cbn [apply_controls foldl]. fold (apply_controls (<[Z.to_nat (seat t) := state t]> cs) ts).
  by rewrite IH, length_insert.
Qed.

(** In a sorted list the entry with the greatest sequence of its seat is applied last. *)
Lemma lookup_apply_controls_last cs ts t :
  StronglySorted (λ a b, due_key_le a b = true) ts → Forall (λ u, 0 ≤ seat u) ts →
  t ∈ ts → (Z.to_nat (seat t) < length cs)%nat →
  (∀ u, u ∈ ts → seat u = seat t → sequence t ≤ sequence u → u = t) →
  apply_controls cs ts !!! Z.to_nat (seat t) = state t.
Proof.
  intros Hs Hpos Hin Hlt Hlast. revert cs Hlt. induction Hs as [|u ts Hs IH Hu]; intros cs Hlt.
  { by apply not_elem_of_nil in Hin. }
  inversion_clear Hpos as [|? ? Hu0 Hpos']. cbn [apply_controls foldl].
  fold (apply_controls (<[Z.to_nat (seat u) := state u]> cs) ts).
  destruct (decide (t ∈ ts)) as [Ht|Ht].
  - apply IH; [done|done| |by rewrite length_insert].
    intros v Hv. apply Hlast. by apply list_elem_of_further.
  - apply elem_of_cons in Hin as [->|Hin]; [|done].
    rewrite lookup_apply_controls_other; [by rewrite list_lookup_total_insert_eq|].
    apply Forall_forall. intros v Hv Es. apply Ht. rewrite Forall_forall in Hpos', Hu.
    assert (seat v = seat u) as Esv by (specialize (Hpos' v Hv); simpl in Hpos'; lia).
    rewrite <- (Hlast v); [done|by apply list_elem_of_further|done|].
    apply due_key_le_seq; [by apply Hu|done].
Qed.

(** The control of a seat after applying a sorted batch. *)
Lemma tick_controls_spec s t :
  Inv s → t ∈ due_order (current_tick s + 1) s →
  (∀ u, u ∈ flatten (pending s) → apply_tick u = current_tick s + 1 → seat u = seat t →
     sequence u ≤ sequence t) →
  apply_controls (controls s) (due_order (current_tick s + 1) s) !!! Z.to_nat (seat t) = state t.
Proof.
  intros HI Hin Hmax. pose proof (inv_pending s HI) as Hp. rewrite Forall_forall in Hp.
  pose proof (proj1 (elem_of_due_order _ _ _) Hin) as [Ht Htp].
  pose proof (po_seat _ _ _ _ _ _ _ (Hp t Htp)) as Hs.
  pose proof (inv_widths s HI) as W. unfold widths in W.
  apply lookup_apply_controls_last; [apply due_order_sorted| |done|lia|].
  - apply Forall_forall. intros u [_ Hu]%elem_of_due_order.
    destruct (po_valid _ _ _ _ _ _ _ (Hp u Hu)) as [[[Hu0 _] _] _]. exact Hu0.
  - intros u [Hu Hup]%elem_of_due_order Es Eq. specialize (Hmax u Hup Hu Es).
    apply (NoDup_fmap_elem transition_key (flatten (pending s))); [apply HI|done..|].
    pose proof (po_epoch _ _ _ _ _ _ _ (Hp t Htp)) as Et.
    pose proof (po_epoch _ _ _ _ _ _ _ (Hp u Hup)) as Eu.
    unfold transition_key. rewrite Et, Eu, Es. assert (sequence u = sequence t) as -> by lia. done.
Qed.

(** ** Independence of arrival order *)

(** Sessions that agree on everything a tick reads, up to the slots in which
    the pending transitions happen to be stored. *)
Record tick_equiv (s1 s2 : RealtimeSession) : Prop := {
  te_tick : current_tick s1 = current_tick s2;
  te_seats : seats s1 = seats s2;
  te_controls : controls s1 = controls s2;
  te_pending : flatten (pending s1) ≡ₚ flatten (pending s2);
}.

#[export] Instance tick_equiv_equivalence : Equivalence tick_equiv.
Proof.
  split.
  - intros s. by split.
  - intros s1 s2 []. by split.
  - intros s1 s2 s3 [] []. split; by etrans.
Qed.

Lemma due_order_equiv tick s1 s2 :
  Inv s1 → tick_equiv s1 s2 → due_order tick s1 = due_order tick s2.
Proof.
  intros HI [_ _ _ Hp]. unfold due_order.
  apply sort_by_unique; [apply due_key_le_total|apply due_key_le_trans| |].
  - intros x y [_ Hx]%list_elem_of_filter [_ Hy]%list_elem_of_filter.
    by apply due_order_antisym with s1.
  - unfold due_at. by rewrite Hp.
Qed.

Lemma filter_Permutation_proper {A} (P : A → Prop) `{∀ x, Decision (P x)} l1 l2 :
  l1 ≡ₚ l2 → filter P l1 ≡ₚ filter P l2.
Proof. by intros ->. Qed.


Lemma tick_result_fun s1 s2 s1' s2' a1 a2 :
  Inv s1 → tick_equiv s1 s2 → tick_result s1 s1' a1 → tick_result s2 s2' a2 →
  a1 = a2 ∧ tick_equiv s1' s2'.
Proof.
  intros HI He R1 R2. pose proof (due_order_equiv (current_tick s1 + 1) s1 s2 HI He) as Ed.
  destruct He as [Et Es Ec Ep].
  assert (controls s1' = controls s2') as Ec'.
  { rewrite (tr_controls _ _ _ R1), (tr_controls _ _ _ R2), Ec, Ed. by rewrite Et. }
  split.
  - rewrite (tr_advance _ _ _ R1), (tr_advance _ _ _ R2), Ec', Ed, Es. by rewrite Et.
  - split; [|by rewrite (tr_frame _ _ _ R1), (tr_frame _ _ _ R2)|done|].
    + by rewrite (tr_current _ _ _ R1), (tr_current _ _ _ R2), Et.
    + rewrite (tr_pending _ _ _ R1), (tr_pending _ _ _ R2), Et. by rewrite Ep.
Qed.

(** The next [n] ticks and what each returns. *)
Fixpoint ticks (n : nat) (s : RealtimeSession)
    : option (RealtimeSession * list (Result TickAdvance TickError)) :=
  match n with
  | O => Some (s, [])
  | S n' =>
      '(s1, r) ← advance_tick s;
      '(s2, rs) ← ticks n' s1;
      Some (s2, r :: rs)
  end.

Lemma ticks_equiv n s1 s2 :
  Inv s1 → Inv s2 → tick_equiv s1 s2 →
  ∃ s1' s2' rs, ticks n s1 = Some (s1', rs) ∧ ticks n s2 = Some (s2', rs) ∧ tick_equiv s1' s2'.
Proof.
  revert s1 s2. induction n as [|n IH]; intros s1 s2 H1 H2 He; cbn [ticks].
  { by exists s1, s2, []. }
  pose proof (inv_tick s1 H1) as Ht. unfold in_u in Ht. pose proof (te_tick _ _ He) as Et.
  destruct (decide (current_tick s1 = u64_max)) as [E|E].
  - rewrite !advance_tick_exhausted by congruence. cbn [mbind option_bind].
    destruct (IH s1 s2 H1 H2 He) as (s1' & s2' & rs & -> & -> & ?).
    by exists s1', s2', (Err Exhausted :: rs).
  - destruct (advance_tick_spec s1 H1) as (s1' & a1 & -> & H1' & R1); [unfold u64_max in *; lia|].
    destruct (advance_tick_spec s2 H2) as (s2' & a2 & -> & H2' & R2); [unfold u64_max in *; lia|].
    destruct (tick_result_fun _ _ _ _ _ _ H1 He R1 R2) as [<- He'].
    cbn [mbind option_bind].
    destruct (IH s1' s2' H1' H2' He') as (t1 & t2 & rs & -> & -> & ?).
    by exists t1, t2, (Ok a1 :: rs).
Qed.

(** ** Submitting a batch *)

Fixpoint submit_all (ts : list ScheduledTransition) (s : RealtimeSession)
    : option (RealtimeSession * list AdmissionOutcome) :=
  match ts with
  | [] => Some (s, [])
  | t :: rest =>
      '(s1, o) ← submit_transition t s;
      '(s2, os) ← submit_all rest s1;
      Some (s2, o :: os)
  end.

(** Accepting one transition leaves every other one admissible while there is room. *)
Lemma admissible_after slot t u s :
  Inv s → pending s !! slot = Some None →
  admissible u s → transition_key u ≠ transition_key t →
  (pending_count s + 1 < MAX_PENDING_TRANSITIONS)%nat →
  admissible u (log_push (Scheduled t) (admitted slot t s)).
Proof.
  intros HI Hn [] Hk Hc. split; try done.
  - change (transition_key u ∉ transition_key <$> flatten (pending (admitted slot t s))).
    rewrite (pending_admitted slot t s Hn), fmap_cons, not_elem_of_cons. done.
  - change (pending_count s + 1 ≠ MAX_PENDING_TRANSITIONS)%nat. lia.
Qed.

Lemma submit_all_admissible ts s :
  Inv s → Forall transition_ok ts → Forall (λ t, admissible t s) ts →
  NoDup (transition_key <$> ts) → (pending_count s + length ts ≤ MAX_PENDING_TRANSITIONS)%nat →
  ∃ s' os, submit_all ts s = Some (s', os) ∧ Forall (λ o, is_accepted o = true) os ∧ Inv s' ∧
    current_tick s' = current_tick s ∧ seats s' = seats s ∧ controls s' = controls s ∧
    flatten (pending s') ≡ₚ ts ++ flatten (pending s).
Proof.
  revert s. induction ts as [|t ts IH]; intros s HI Hok Had Hnd Hc; cbn [submit_all].
  { exists s, []. split_and!; (done || constructor). }
  rewrite Forall_cons in Hok, Had. destruct Hok as [Ht Hok], Had as [Ha Had].
  rewrite fmap_cons, NoDup_cons in Hnd. destruct Hnd as [Hf Hnd].
  destruct (submit_admissible t s HI Ha) as (slot & -> & _ & Hn & _).
  cbn [mbind option_bind length] in *. set (s1 := log_push _ _).
  assert (Inv s1) as HI1 by (apply Inv_log_push; by apply Inv_admitted).
  destruct (IH s1 HI1) as (s' & os & -> & Hos & HI' & E1 & E2 & E3 & E4).
  - done.
  - apply Forall_forall. intros u Hu. rewrite Forall_forall in Had.
    apply admissible_after; [done|done|by apply Had| |].
    + intros E. apply Hf. rewrite <- E. by apply list_elem_of_fmap_2.
    + destruct ts; [by apply not_elem_of_nil in Hu|]. cbn [length] in Hc. lia.
  - done.
  - change (pending_count s + 1 + length ts ≤ MAX_PENDING_TRANSITIONS)%nat. lia.
  - cbn [mbind option_bind]. exists s', (admit_outcome t s :: os). split_and!; try done.
    + constructor; [|done]. unfold admit_outcome. by case_match.
    + rewrite E4. change (flatten (pending s1)) with (flatten (pending (admitted slot t s))).
      rewrite (pending_admitted slot t s Hn). cbn [app]. solve_Permutation.
Qed.

Lemma reorder_aux ts ts' s n :
  Inv s → Forall transition_ok ts → Forall (λ t, admissible t s) ts →
  NoDup (transition_key <$> ts) → (pending_count s + length ts ≤ MAX_PENDING_TRANSITIONS)%nat →
  ts ≡ₚ ts' →
  ∃ s1 os1 s2 os2 s1' s2' rs,
    submit_all ts s = Some (s1, os1) ∧ submit_all ts' s = Some (s2, os2) ∧
    Forall (λ o, is_accepted o = true) os1 ∧ Forall (λ o, is_accepted o = true) os2 ∧
    ticks n s1 = Some (s1', rs) ∧ ticks n s2 = Some (s2', rs).
Proof.
  intros HI Hok Had Hnd Hc Hp.
  destruct (submit_all_admissible ts s) as (s1 & os1 & E1 & O1 & I1 & ? & ? & ? & P1); [done..|].
  destruct (submit_all_admissible ts' s) as (s2 & os2 & E2 & O2 & I2 & ? & ? & ? & P2);
    [done|by rewrite <- Hp..|].
  destruct (ticks_equiv n s1 s2 I1 I2) as (s1' & s2' & rs & T1 & T2 & _).
  { split; [congruence..|]. by rewrite P1, P2, Hp. }
  by exists s1, os1, s2, os2, s1', s2', rs.
Qed.

(** ** Re-delivery *)

Lemma submit_duplicate t s :
  Inv s → validate_transition t = Ok tt → (Z.to_nat (seat t) < seats s)%nat →
  resync_required s = false → active s !!! Z.to_nat (seat t) = true →
  epoch t = epochs s !!! Z.to_nat (seat t) →
  earliest_apply_tick s ≤ apply_tick t ≤ latest_apply_tick s →
  t ∈ flatten (pending s) → submit_transition t s = Some (s, Duplicate).
Proof.
  intros HI Hv Hs Hr Ha He Ht Hin. unfold submit_transition. rewrite Hv.
  cbn [is_err is_ok negb orb]. rewrite (proj2 (Nat.leb_gt _ _)) by lia. rewrite Hr, Ha.
  cbn [negb]. rewrite (proj2 (Z.eqb_eq _ _)) by done. cbn [negb].
  rewrite (proj2 (Z.ltb_ge _ _)), (proj2 (Z.ltb_ge _ _)) by lia.
  rewrite bool_decide_eq_false_2 by (by apply (inv_quarantine s HI)).
  destruct (list_find _ _) as [[i e]|] eqn:F.
  - apply find_same_Some in F as [Hei Hk].
    assert (e = t) as ->
      by (apply (NoDup_fmap_elem transition_key (flatten (pending s))); [apply HI|done..]).
    by rewrite same_identity_refl, bool_decide_eq_true_2.
  - apply find_same_None in F. exfalso. apply F. by apply list_elem_of_fmap_2.
Qed.

Lemma redelivery_aux t s s' o :
  Inv s → transition_ok t → submit_transition t s = Some (s', o) → is_accepted o = true →
  submit_transition t s' = Some (s', Duplicate).
Proof.
  intros HI Ht E Ho. destruct (submit_view_ok t s HI) as (s1 & o1 & E1 & V).
  rewrite E in E1. injection E1 as <- <-.
  pose proof (Inv_submit_view _ _ _ _ HI Ht V) as HI'.
  inversion V as [? Hf|?|?|?|slot Ha Hn Hs Hl]; subst; try done; try congruence.
  destruct Ha. apply submit_duplicate; try done.
  change (t ∈ flatten (pending (admitted slot t s))).
  rewrite (pending_admitted slot t s Hn). apply list_elem_of_here.
Qed.

(** ** Equivocation *)

(** Identity [k] can no longer take effect: its epoch is over, or it is below
    the sequence ceiling, not pending, and quarantined or under the floor. *)
Definition banned (k : Z * Z * Z) (s : RealtimeSession) : Prop :=
  let i := Z.to_nat k.1.1 in
  (i < seats s)%nat ∧
  (k.1.2 < epochs s !!! i ∨
   (k.1.2 = epochs s !!! i ∧ k.2 ≤ highest_sequence s !!! i ∧
    (k ∉ transition_key <$> flatten (pending s)) ∧
    (k ∈ quarantine s ∨ k.2 ≤ highest_applied_sequence s !!! i))).

Lemma banned_not_pending k s :
  Inv s → banned k s → k ∉ transition_key <$> flatten (pending s).
Proof.
  intros HI [_ [He|(_ & _ & Hp & _)]]; [|done]. intros (t & -> & Ht)%list_elem_of_fmap.
  pose proof (inv_pending s HI) as Hp. rewrite Forall_forall in Hp.
  pose proof (po_epoch _ _ _ _ _ _ _ (Hp t Ht)) as E. cbn in He. lia.
Qed.

(** Steps that shrink the pending set, keep the rest of the ban's evidence and
    do not touch epochs preserve it. *)
Lemma banned_shrink k s s' :
  banned k s → seats s' = seats s → epochs s' = epochs s →
  (∀ i, highest_sequence s !!! i ≤ highest_sequence s' !!! i) →
  (k ∉ transition_key <$> flatten (pending s) → k ∉ transition_key <$> flatten (pending s')) →
  (k ∈ quarantine s → k.1.2 = epochs s !!! Z.to_nat k.1.1 →
     k ∈ quarantine s' ∨ k.2 ≤ highest_applied_sequence s' !!! Z.to_nat k.1.1) →
  (∀ i, highest_applied_sequence s !!! i ≤ highest_applied_sequence s' !!! i) →
  banned k s'.
Proof.
  intros [Hs Hb] Es Ee Hh Hp Hq Ha. unfold banned. rewrite Es, Ee. split; [done|].
  destruct Hb as [?|(He & Hc & Hn & Hd)]; [by left|]. right. split_and!; [done| |by apply Hp|].
  - etrans; [done|apply Hh].
  - destruct Hd as [Hd|Hd]; [by apply Hq|]. right. etrans; [done|apply Ha].
Qed.

Lemma quarantine_add k s :
  length (quarantined s) = MAX_PENDING_TRANSITIONS →
  (quarantined_count s < MAX_PENDING_TRANSITIONS)%nat →
  quarantine (add_quarantine k s) = quarantine s ++ [k].
Proof.
  intros. unfold quarantine, add_quarantine. rt_simpl. apply take_insert_extend. lia.
Qed.

Lemma pending_drop_key k k' s :
  k ∉ transition_key <$> flatten (pending s) →
  k ∉ transition_key <$> flatten (pending (drop_key k' s)).
Proof.
  unfold drop_key. rt_simpl. rewrite flatten_clear. intros Hn (t & -> & Ht)%list_elem_of_fmap.
  apply list_elem_of_filter in Ht as [_ Ht]. apply Hn. by apply list_elem_of_fmap_2.
Qed.

Lemma banned_submit k t s s' o : Inv s → submit_view t s s' o → banned k s → banned k s'.
Proof.
  intros HI V Hb. pose proof (inv_widths s HI) as W. unfold widths in W.
  destruct V as [o' _ _|_|_ _ _|_ _ Hq Hl|slot Ha Hn _ _].
  - done.
  - exact Hb.
  - apply (banned_shrink k s); try done; [apply pending_drop_key|by left].
  - apply (banned_shrink k s); try done; [apply pending_drop_key|].
    intros Hk _. left. change (quarantine (conflicted t s))
      with (quarantine (add_quarantine (transition_key t) (drop_key (transition_key t) s))).
    rewrite quarantine_add by (unfold drop_key; rt_simpl; (tauto || lia)).
    apply elem_of_app. by left.
  - destruct (decide (transition_key t = k)) as [<-|Hne].
    { exfalso. destruct Ha, Hb as [_ [?|(_ & _ & _ & [?|?])]]; cbn in *; (done || lia). }
    apply (banned_shrink k s); try done; [|  |by left].
    + intros i. apply lookup_total_insert_max.
    + change (flatten (pending (log_push (Scheduled t) (admitted slot t s))))
        with (flatten (pending (admitted slot t s))).
      rewrite (pending_admitted slot t s Hn), fmap_cons, not_elem_of_cons. done.
Qed.

Lemma banned_submit_loop k ts j s r s' r' :
  Inv s → Forall transition_ok ts → submit_loop j ts s r = Some (s', r') →
  banned k s → banned k s'.
Proof.
  intros HI Hts. revert j s r HI. induction Hts as [|t ts Ht _ IH]; intros j s r HI; cbn [submit_loop].
  { by intros [= <- <-]. }
  destruct (submit_view_ok t s HI) as (s1 & o & -> & V). cbn [mbind option_bind].
  destruct (array_set j o r) as [r1|]; [|done]. cbn [mbind option_bind]. intros H Hb.
  eapply (IH _ s1); [by eapply Inv_submit_view|done|]. by eapply banned_submit.
Qed.

Lemma banned_envelope k e s s' r :
  Inv s → wf_envelope e → submit_envelope e s = Some (s', r) → banned k s → banned k s'.
Proof.
  intros HI Hwf. unfold submit_envelope.
  destruct (submit_loop 0 _ s _) as [[s1 r1]|] eqn:E; [|done]. intros [= <- <-].
  eapply banned_submit_loop; [done| |done].
  eapply Forall_impl; [apply (wf_env_valid e Hwf)|]. by intros t [? _].
Qed.

(** Applying one due transition: an identity leaves quarantine only when the
    floor has passed it. *)
Lemma banned_apply_slot k s i t :
  pending s !! i = Some (Some t) → widths s → (Z.to_nat (seat t) < seats s)%nat →
  banned k s → banned k (apply_slot s (i, t)).
Proof.
  intros Hi W Hs Hb. unfold widths in W. apply (banned_shrink k s); try done.
  - intros Hn Hin. apply Hn. rewrite (take_slot_pending i s t Hi), fmap_cons.
    by apply list_elem_of_further.
  - intros Hq He. unfold apply_slot, apply_effect. cbn [fst snd].
    set (s2 := set_highest_applied_sequence _ _).
    change (k ∈ quarantine (compact_quarantine (Z.to_nat (seat t)) s2) ∨
            k.2 ≤ highest_applied_sequence s2 !!! Z.to_nat k.1.1).
    unfold compact_quarantine. rewrite quarantine_retain, list_elem_of_filter.
    destruct k as [[a b] c]. cbn [fst snd] in *.
    destruct (negb _) eqn:En; [by left|]. right. to_props.
    match goal with H : Z.to_nat a = _ |- _ => rewrite H end. done.
  - intros j. apply lookup_total_insert_max.
Qed.

Lemma banned_apply_slots k lo S s :
  InvT lo s → Forall (λ it, pending s !! it.1 = Some (Some it.2)) S → NoDup S.*1 →
  banned k s → banned k (foldl apply_slot s S).
Proof.
  revert s. induction S as [|[i t] S IH]; intros s HI HF HN Hb; [done|].
  rewrite Forall_cons in HF. destruct HF as [Hi HF]. cbn [fst snd] in Hi.
  rewrite fmap_cons, NoDup_cons in HN. destruct HN as [Hnot HN]. cbn [foldl].
  apply IH; [by apply InvT_apply_effect, (InvT_take_slot lo i s t)| |done|].
  - apply Forall_forall. intros [j u] Hju. rewrite Forall_forall in HF.
    specialize (HF _ Hju). cbn [fst snd] in *.
    change (<[i := None]> (pending s) !! j = Some (Some u)).
    rewrite list_lookup_insert_ne; [done|]. intros ->. apply Hnot.
    by apply (list_elem_of_fmap_2' fst S (j, u)).
  - apply banned_apply_slot; [done|apply HI| |done].
    by apply (po_seat _ _ _ _ _ _ _ (pending_InvT _ _ _ _ HI Hi)).
Qed.

Lemma banned_log_push k r s : banned k s → banned k (log_push r s).
Proof. exact id. Qed.

Lemma banned_tick k s s' r :
  Inv s → advance_tick s = Some (s', r) → banned k s → banned k s'.
Proof.
  intros HI. unfold advance_tick, advance_tick_inner.
  destruct (checked_u 64 _) as [tick|] eqn:Ec; [|by intros [= <- <-]].
  apply checked_u_Some in Ec as [Hu ->].
  assert (InvT (current_tick s + 1) (set_current_tick (current_tick s + 1) s)) as HT
    by (apply InvT_set_tick; [done|unfold in_u, u64_max in *; lia]).
  set (s1 := set_current_tick _ _) in *.
  destruct (sorted_due_spec (current_tick s + 1) (pending s1)) as (S & -> & H2 & HF & HN).
  cbn [mbind option_bind].
  assert (length S ≤ MAX_PENDING_TRANSITIONS)%nat as Hl.
  { rewrite <- (length_fmap snd S), H2, length_sort_by. apply due_at_length, HI. }
  destruct (apply_loop_spec _ 0 S s1 (replicate MAX_PENDING_TRANSITIONS default_transition) HT HF HN)
    as [-> _]; [rewrite length_replicate; lia|].
  intros [<- _]%Some_pair_inj Hb. apply banned_log_push.
  by apply (banned_apply_slots k (current_tick s + 1)).
Qed.

Lemma banned_lifecycle k i act reason s s' r :
  Inv s → lifecycle_epoch i act reason s = Some (s', r) → banned k s → banned k s'.
Proof.
  intros HI. rewrite lifecycle_epoch_spec by apply HI. destruct (_ <=? _)%nat eqn:Hi.
  { by intros [= <- <-]. }
  destruct (next_epoch i s) as [ep|] eqn:E; [|by intros [= <- <-]].
  apply next_epoch_Ok in E as [-> _]. to_props. intros [= <- _].
  pose proof (inv_widths s HI) as W. unfold widths in W.
  intros [Hs Hb]. apply banned_log_push.
  split; [done|]. change (epochs (reseat i act (epochs s !!! i + 1) s))
    with (<[i := epochs s !!! i + 1]> (epochs s)).
  destruct (decide (i = Z.to_nat k.1.1)) as [Heq|Hne].
  - left. rewrite <- Heq, list_lookup_total_insert_eq by lia.
    rewrite <- Heq in Hb. destruct Hb as [?|[? _]]; lia.
  - rewrite list_lookup_total_insert_ne by done.
    destruct Hb as [?|(He & Hc & Hn & Hd)]; [by left|]. right.
    split; [done|]. split; [|split].
    + change (k.2 ≤ <[i := 0]> (highest_sequence s) !!! Z.to_nat k.1.1).
      by rewrite list_lookup_total_insert_ne.
    + change (k ∉ transition_key <$> flatten (clear_entry (seat_is i) <$> pending s)).
      intros (t & Hk & [_ Ht]%elem_of_clear)%list_elem_of_fmap. apply Hn. rewrite Hk.
      by apply list_elem_of_fmap_2.
    + destruct Hd as [Hd|Hd]; [left|right].
      * unfold reseat. rewrite quarantine_retain, list_elem_of_filter.
        destruct k as [[a b] c]. cbn [fst snd] in *. split; [|exact Hd].
        apply negb_true_iff, Nat.eqb_neq. congruence.
      * change (k.2 ≤ <[i := 0]> (highest_applied_sequence s) !!! Z.to_nat k.1.1).
        by rewrite list_lookup_total_insert_ne.
Qed.

Lemma banned_reset_all k reason s :
  Inv s → banned k s → banned k (fst (reset_all reason s)).
Proof.
  intros HI [Hs Hb]. unfold reset_all.
  destruct (next_epochs _ s (epochs s)) as [eps|] eqn:E; [|by split].
  pose proof (inv_widths s HI) as W. unfold widths in W.
  apply (next_epochs_mem _ _ _ _ (Z.to_nat k.1.1)) in E; [|apply elem_of_seq; lia|lia].
  cbv zeta. cbn [fst].
  assert (k.1.2 < eps !!! Z.to_nat k.1.1) by (destruct Hb as [?|[? _]]; lia).
  case_bool_decide; (split; [done|by left]).
Qed.

Lemma banned_snapshot k sn s :
  Inv s → banned k s → banned k (fst (apply_authoritative_snapshot sn s)).
Proof.
  intros HI Hb. unfold apply_authoritative_snapshot.
  destruct (_ || _); [done|]. destruct (_ <? _); [done|].
  destruct (check_inactive _ _ _); [|done]. destruct (_ <? _)%nat; [done|].
  destruct (check_epochs _ sn s) as [[]|] eqn:E; [|done]. cbn [fst].
  destruct Hb as [Hs Hb].
  destruct (check_epochs_Ok _ _ _ E (Z.to_nat k.1.1)) as (_ & Hle & Heq);
    [apply elem_of_seq; lia|].
  split; [done|]. change (epochs (log_push (Snapshot sn) (apply_snapshot sn s))) with (sn_epochs sn).
  destruct (decide (k.1.2 < sn_epochs sn !!! Z.to_nat k.1.1)) as [|Hge]; [by left|]. right.
  destruct Hb as [?|(He & Hc & _ & _)]; [lia|].
  destruct Heq as [_ Hq]; [lia|].
  split_and!; [lia| | |right].
  - change (k.2 ≤ sn_sequences sn !!! Z.to_nat k.1.1). lia.
  - change (k ∉ transition_key <$> flatten no_pending). rewrite flatten_no_pending. apply not_elem_of_nil.
  - change (k.2 ≤ sn_sequences sn !!! Z.to_nat k.1.1). lia.
Qed.

Lemma banned_step k op s s' :
  Inv s → op_ok op → step op s = Some s' → banned k s → banned k s'.
Proof.
  intros HI Hop E. destruct op; cbn [step op_ok] in *.
  - destruct (submit_view_ok t s HI) as (s1 & o & Hs & V). rewrite Hs in E.
    injection E as <-. by eapply banned_submit.
  - destruct (submit_envelope e s) as [[s1 r]|] eqn:Hs; [|done]. injection E as <-.
    by eapply banned_envelope.
  - destruct (submit_payload payload s) as [[s1 r]|] eqn:Hs; [|done]. injection E as <-.
    unfold submit_payload in Hs. destruct (Envelope_decode payload) as [e|] eqn:Hd; [|by simplify_eq].
    eapply banned_envelope; [done| |done]. by eapply decode_canonical_aux.
  - destruct (advance_tick s) as [[s1 r]|] eqn:Hs; [|done]. injection E as <-. by eapply banned_tick.
  - injection E as <-. unfold record_authoritative_hash. by destruct (Log_record_hash _ _ _).
  - destruct (disconnect i s) as [[s1 r]|] eqn:Hs; [|done]. injection E as <-.
    by eapply banned_lifecycle.
  - destruct (reconnect i s) as [[s1 r]|] eqn:Hs; [|done]. injection E as <-.
    by eapply banned_lifecycle.
  - injection E as <-. by apply banned_reset_all.
  - injection E as <-. by apply banned_reset_all.
  - injection E as <-. by apply banned_reset_all.
  - injection E as <-. by apply banned_snapshot.
Qed.

Lemma banned_run k ops s s' :
  Inv s → Forall op_ok ops → run ops s = Some s' → banned k s → Inv s' ∧ banned k s'.
Proof.
  intros HI Hops. revert s HI. induction Hops as [|op ops Hop _ IH]; intros s HI; cbn [run].
  { by intros [= <-]. }
  destruct (step_Inv op s HI Hop) as (s1 & E & HI1). rewrite E. cbn [mbind option_bind].
  intros H Hb. apply (IH s1); [done|done|]. by apply (banned_step k op s).
Qed.

(** A conflict bans the identity. *)
Lemma conflict_bans t t' s s' :
  Inv s → t ∈ flatten (pending s) → transition_key t' = transition_key t →
  submit_transition t' s = Some (s', Conflict) → banned (transition_key t) s'.
Proof.
  intros HI Hin Hk E. destruct (submit_view_ok t' s HI) as (s1 & o & E1 & V).
  rewrite E in E1. injection E1 as <- <-. pose proof (inv_widths s HI) as W. unfold widths in W.
  inversion V as [? _ Hq|?|?|? Hp Hq Hl|slot Ha Hn Hs Hl Ho]; subst; try done.
  - exfalso. apply (inv_quarantine _ HI t Hin). rewrite <- Hk. by apply Hq.
  - pose proof (inv_pending s HI) as P. rewrite Forall_forall in P. destruct (P t Hin).
    rewrite <- Hk. split; [by rewrite Hk|]. right. rewrite Hk at 1 2 3 4. split; [done|].
    split; [done|]. split; [apply (drop_key_fresh (transition_key t'))|]. left.
    change (quarantine (conflicted t' s))
      with (quarantine (add_quarantine (transition_key t') (drop_key (transition_key t') s))).
    rewrite quarantine_add by (unfold drop_key; rt_simpl; (tauto || lia)).
    apply elem_of_app. right. apply list_elem_of_here.
  - match goal with H : admit_outcome _ _ = _ |- _ => unfold admit_outcome in H; by case_match end.
Qed.

Lemma banned_not_applied k s s' a :
  Inv s → banned k s → advance_tick s = Some (s', Ok a) →
  Forall (λ u, transition_key u ≠ k) (applied_transitions a).
Proof.
  intros HI Hb E. destruct (decide (current_tick s = u64_max)) as [Et|Et].
  { by rewrite advance_tick_exhausted in E. }
  pose proof (inv_tick s HI) as Hu. unfold in_u, u64_max in *.
  destruct (advance_tick_spec s HI) as (s1 & a1 & E1 & _ & R); [unfold u64_max; lia|].
  rewrite E in E1. injection E1 as <- <-. rewrite (tr_applied _ _ _ R).
  apply Forall_forall. intros u [_ Hu']%elem_of_due_order Hk.
  apply (banned_not_pending k s HI Hb). rewrite <- Hk. by apply list_elem_of_fmap_2.
Qed.

(** ** Results *)

(** A concrete session for the witnesses: four seats, default rates. *)
Definition sample_config : RealtimeConfig := mkRealtimeConfig 60 20 2 1.

Definition sample_state (ops : list Op) : option RealtimeSession :=
  match Session_new sample_config 4 with
  | Ok s => run ops s
  | Err _ => None
  end.

Definition at_ (i sq tick b : Z) : ScheduledTransition :=
  mkTransition i 1 sq tick (mkControlState b 0 0).

Lemma sample_state_Inv ops s : Forall op_ok ops → sample_state ops = Some s → Inv s.
Proof.
  unfold sample_state. intros Hops E.
  destruct (Session_new sample_config 4) as [s0|] eqn:E0; [|done].
  destruct (run_Inv ops s0) as (s1 & E1 & HI); [|done|congruence].
  apply (Inv_new sample_config 4 DEFAULT_REPLAY_RECORDS); [|done].
  apply (config_new_ok 60 20 2 1); by vm_compute.
Qed.

Lemma sample_exists ops :
  sample_state ops ≠ None → Forall op_ok ops → ∃ s, sample_state ops = Some s ∧ Inv s.
Proof.
  intros Hn Hops. destruct (sample_state ops) as [s|] eqn:E; [|done]. exists s. split; [done|]. by apply (sample_state_Inv ops). Qed.

(** Evaluate a component of a sample state. *)
Lemma sample_fact {A} (f : RealtimeSession → A) ops s v :
  sample_state ops = Some s → f <$> sample_state ops = Some v → f s = v.
Proof. intros -> [= ->]. done. Qed.

Definition admissibleb (t : ScheduledTransition) (s : RealtimeSession) : bool :=
  bool_decide (validate_transition t = Ok tt ∧ (Z.to_nat (seat t) < seats s)%nat ∧
    resync_required s = false ∧ active s !!! Z.to_nat (seat t) = true ∧
    epoch t = epochs s !!! Z.to_nat (seat t) ∧
    earliest_apply_tick s ≤ apply_tick t ≤ latest_apply_tick s ∧
    (transition_key t ∉ quarantine s) ∧
    (transition_key t ∉ transition_key <$> flatten (pending s)) ∧
    (transition_key t ∉ transition_key <$> flatten (recent s)) ∧
    highest_applied_sequence s !!! Z.to_nat (seat t) < sequence t ∧
    quarantined_count s ≠ MAX_PENDING_TRANSITIONS ∧ pending_count s ≠ MAX_PENDING_TRANSITIONS).

Lemma admissible_bool t s : admissibleb t s = true → admissible t s.
Proof. unfold admissibleb. rewrite bool_decide_eq_true. intros H. split; apply H. Qed.

Ltac sample_ops_ok :=
  repeat (apply Forall_cons_2; [try exact I; cbn [op_ok]|]); [..|by apply Forall_nil_2];
  apply (bool_decide_unpack _); by vm_compute.

(** C1 A session built by [RealtimeConfig::new] and [RealtimeSession::new] never
    panics: no sequence of submissions, payloads, ticks, hash records,
    disconnects, reconnects, resets and snapshots, whatever the peers send,
    reaches a failing index, [expect] or [usize] underflow, and the session
    invariant (pending transitions valid, current, distinct, not quarantined and
    counted) holds after every one. *)
Theorem session_never_panics r1 r2 r3 delay cfg n limit s ops :
  in_u 32 r1 → in_u 32 r2 → in_u 32 r3 → in_u 32 delay →
  RealtimeConfig_new r1 r2 r3 delay = Ok cfg →
  Session_new_with_replay_limit cfg n limit = Ok s →
  Forall op_ok ops → ∃ s', run ops s = Some s' ∧ Inv s'.
Proof.
  intros ? ? ? ? Hc Hs Hops. apply run_Inv; [|done].
  apply (Inv_new cfg n limit); [|done].
  by apply (config_new_ok r1 r2 r3 delay).
Qed.

Definition sample_ops : list Op :=
  [OpSubmit (at_ 0 5 2 7); OpSubmit (at_ 0 5 3 9); OpPayload [1; 2; 3]; OpTick; OpHash 1 42;
   OpSubmit (at_ 1 1 4 1); OpDisconnect 1; OpReconnect 1; OpPause; OpTick; OpRematch].

Lemma session_never_panics_witness :
  ∃ s s', Session_new sample_config 4 = Ok s ∧ run sample_ops s = Some s' ∧ Inv s'.
Proof.
  destruct (Session_new sample_config 4) as [s|] eqn:E; [|by vm_compute in E].
  exists s. destruct (session_never_panics 60 20 2 1 sample_config 4 DEFAULT_REPLAY_RECORDS s sample_ops)
    as (s' & ? & ?).
  1-4: by vm_compute.
  - by vm_compute.
  - exact E.
  - unfold sample_ops. sample_ops_ok.
  - by exists s'.
Defined.

(** C26 The effect of a tick.  Below the last tick it succeeds and: applies
    exactly the pending transitions due at the new tick, sorted by seat and then
    sequence whatever their arrival order; keeps exactly the others pending;
    leaves each seat with the control of its highest due sequence, and a seat
    with nothing due unchanged; and reports those controls.  At the last tick it
    returns [Exhausted] and changes nothing. *)
Theorem tick_effect s :
  Inv s →
  if current_tick s =? u64_max then advance_tick s = Some (s, Err Exhausted)
  else ∃ s' a, advance_tick s = Some (s', Ok a) ∧
    ta_tick a = current_tick s + 1 ∧ current_tick s' = current_tick s + 1 ∧
    applied_transitions a ≡ₚ due_at (current_tick s + 1) (flatten (pending s)) ∧
    StronglySorted (λ t u, due_key_le t u = true) (applied_transitions a) ∧
    flatten (pending s') ≡ₚ
      filter (λ t, (apply_tick t =? current_tick s + 1) ≠ true) (flatten (pending s)) ∧
    ta_controls a = controls s' ∧
    (∀ t, t ∈ applied_transitions a →
       (∀ u, u ∈ applied_transitions a → seat u = seat t → sequence u ≤ sequence t) →
       controls s' !!! Z.to_nat (seat t) = state t) ∧
    (∀ i, (∀ t, t ∈ applied_transitions a → Z.to_nat (seat t) ≠ i) →
       controls s' !!! i = controls s !!! i).
Proof.
  intros HI. destruct (_ =? _) eqn:E; to_props; [by apply advance_tick_exhausted|].
  pose proof (inv_tick s HI) as Ht. unfold in_u in Ht.
  destruct (advance_tick_spec s HI) as (s' & a & Ha & _ & R); [unfold u64_max in *; lia|].
  exists s', a. rewrite (tr_applied _ _ _ R). split_and!; try apply R; [done|..].
  - apply sort_by_Permutation.
  - apply due_order_sorted.
  - intros t Hin Hmax. rewrite (tr_controls _ _ _ R). apply tick_controls_spec; [done..|].
    intros u Hu Hut. apply Hmax. by apply elem_of_due_order.
  - intros i Hi. rewrite (tr_controls _ _ _ R). apply lookup_apply_controls_other.
    by apply Forall_forall.
Qed.

Definition two_pending : list Op := [OpSubmit (at_ 2 9 3 8); OpSubmit (at_ 2 4 3 6); OpTick].

Lemma tick_effect_witness :
  ∃ s s' a, sample_state two_pending = Some s ∧ advance_tick s = Some (s', Ok a) ∧
    applied_transitions a = [] ∧ controls s' !!! 2%nat = controls s !!! 2%nat.
Proof.
  destruct (sample_exists two_pending) as (s & E & HI); [by vm_compute|unfold two_pending; sample_ops_ok|].
  pose proof (tick_effect s HI) as H.
  rewrite (sample_fact current_tick two_pending s 1 E) in H by by vm_compute.
  destruct H as (s' & a & Ha & _ & _ & Hp & _ & _ & _ & _ & Hc).
  exists s, s', a. split_and!; [done|done| |].
  - apply Permutation_nil_r. rewrite Hp.
    rewrite (sample_fact (λ s, due_at (1 + 1) (flatten (pending s))) two_pending s [] E); [done|].
    by vm_compute.
  - apply Hc. intros t Ht. exfalso. revert Ht. rewrite Hp.
    rewrite (sample_fact (λ s, due_at (1 + 1) (flatten (pending s))) two_pending s [] E)
      by by vm_compute. apply not_elem_of_nil.
Defined.

(** C32 Arrival order does not matter.  Any set of distinct admissible
    transitions that fits in the pending array is accepted in full in every
    order, and the sessions reached from two orders return the same advances
    (applied transitions, their order and every control) at every later tick. *)
Theorem arrival_order_irrelevant ts ts' s n :
  Inv s → Forall transition_ok ts → Forall (λ t, admissible t s) ts →
  NoDup (transition_key <$> ts) → (pending_count s + length ts ≤ MAX_PENDING_TRANSITIONS)%nat →
  ts ≡ₚ ts' →
  ∃ s1 os1 s2 os2 s1' s2' rs,
    submit_all ts s = Some (s1, os1) ∧ submit_all ts' s = Some (s2, os2) ∧
    Forall (λ o, is_accepted o = true) os1 ∧ Forall (λ o, is_accepted o = true) os2 ∧
    ticks n s1 = Some (s1', rs) ∧ ticks n s2 = Some (s2', rs).
Proof. apply reorder_aux. Qed.

Definition sample_batch : list ScheduledTransition := [at_ 0 1 2 1; at_ 0 2 2 2; at_ 3 1 4 3].

Lemma arrival_order_irrelevant_witness :
  ∃ s s1 os1 s2 os2 s1' s2' rs, sample_state [] = Some s ∧
    submit_all sample_batch s = Some (s1, os1) ∧ submit_all (rev sample_batch) s = Some (s2, os2) ∧
    Forall (λ o, is_accepted o = true) os1 ∧ Forall (λ o, is_accepted o = true) os2 ∧
    ticks 5 s1 = Some (s1', rs) ∧ ticks 5 s2 = Some (s2', rs).
Proof.
  destruct (sample_exists []) as (s & E & HI); [by vm_compute|by apply Forall_nil_2|].
  exists s. destruct (arrival_order_irrelevant sample_batch (rev sample_batch) s 5 HI)
    as (s1 & os1 & s2 & os2 & s1' & s2' & rs & H).
  - apply (bool_decide_unpack _). by vm_compute.
  - unfold sample_batch. repeat apply Forall_cons_2; [..|by apply Forall_nil_2];
      (apply (admissible_bool _ s);
       rewrite (sample_fact (admissibleb _) [] s true E) by (vm_compute; reflexivity); done).
  - apply (bool_decide_unpack _). by vm_compute.
  - rewrite (sample_fact pending_count [] s 0%nat E) by by vm_compute. vm_compute. lia.
  - apply (bool_decide_unpack _). by vm_compute.
  - by exists s1, os1, s2, os2, s1', s2', rs.
Defined.

(** Re-delivery is idempotent: submitting an accepted transition again is
    reported as [Duplicate] and leaves the whole session, replay log included,
    as it was. *)
Theorem redelivery_idempotent t s s' o :
  Inv s → transition_ok t → submit_transition t s = Some (s', o) → is_accepted o = true →
  submit_transition t s' = Some (s', Duplicate).
Proof. apply redelivery_aux. Qed.

Lemma redelivery_idempotent_witness :
  ∃ s s' o, sample_state [] = Some s ∧ submit_transition (at_ 0 1 2 1) s = Some (s', o) ∧
    submit_transition (at_ 0 1 2 1) s' = Some (s', Duplicate).
Proof.
  destruct (sample_exists []) as (s & E & HI); [by vm_compute|by apply Forall_nil_2|].
  destruct (submit_transition (at_ 0 1 2 1) s) as [[s' o]|] eqn:Hs; swap 1 2.
  { exfalso. pose proof (sample_fact (λ s, is_ok (ok_or (submit_transition (at_ 0 1 2 1) s) tt))
      [] s true E) as F. cbv beta in F. rewrite Hs in F. discriminate F. by vm_compute. }
  exists s, s', o. split_and!; [done|done|].
  apply (redelivery_idempotent _ s s' o); [done| |done|].
  - apply (bool_decide_unpack _). by vm_compute.
  - pose proof (sample_fact (λ s, snd <$> submit_transition (at_ 0 1 2 1) s)
      [] s (Some Accepted) E) as F. cbv beta in F. rewrite Hs in F.
    assert (Some o = Some Accepted) as [= ->]; [|done]. apply F. by vm_compute.
Defined.

(** Equivocation is never applied.  Once a second, different transition with
    the identity of a pending one is reported as [Conflict], no later call
    sequence whatsoever makes a tick apply either of them: neither after it
    leaves the quarantine, nor across disconnects, resets or snapshots. *)
Theorem equivocation_never_applied t t' s s1 ops s2 s3 a :
  Inv s → t ∈ flatten (pending s) → transition_ok t' → transition_key t' = transition_key t →
  submit_transition t' s = Some (s1, Conflict) →
  Forall op_ok ops → run ops s1 = Some s2 → advance_tick s2 = Some (s3, Ok a) →
  Forall (λ u, transition_key u ≠ transition_key t) (applied_transitions a).
Proof.
  intros HI Hin Ht' Hk Hsub Hops Hrun Hadv.
  assert (Inv s1) as HI1.
  { destruct (submit_transition_Inv t' s HI Ht') as (? & ? & E & ?). congruence. }
  destruct (banned_run (transition_key t) ops s1 s2 HI1 Hops Hrun) as [HI2 Hb].
  - by apply (conflict_bans t t' s).
  - by apply (banned_not_applied _ s2 s3).
Qed.

(** A conflict at ticks 2 and 3, then a tick past both. *)
Lemma equivocation_never_applied_witness :
  ∃ s s1 s2 s3 a, sample_state [OpSubmit (at_ 0 5 2 7)] = Some s ∧
    submit_transition (at_ 0 5 3 9) s = Some (s1, Conflict) ∧
    run [OpTick; OpDisconnect 0; OpReconnect 0] s1 = Some s2 ∧
    advance_tick s2 = Some (s3, Ok a) ∧
    Forall (λ u, transition_key u ≠ transition_key (at_ 0 5 2 7)) (applied_transitions a).
Proof.
  set (ops := [OpSubmit (at_ 0 5 2 7)]).
  destruct (sample_exists ops) as (s & E & HI); [by vm_compute|unfold ops; sample_ops_ok|].
  set (f := λ s, '(s1, o) ← submit_transition (at_ 0 5 3 9) s;
                 s2 ← run [OpTick; OpDisconnect 0; OpReconnect 0] s1;
                 '(s3, r) ← advance_tick s2; Some (o, is_ok r)).
  pose proof (sample_fact f ops s (Some (Conflict, true)) E) as F.
  specialize (F ltac:(by vm_compute)). unfold f in F.
  destruct (submit_transition (at_ 0 5 3 9) s) as [[s1 o]|] eqn:E1; [|done].
  cbn [mbind option_bind] in F.
  destruct (run _ s1) as [s2|] eqn:E2; [|done]. cbn [mbind option_bind] in F.
  destruct (advance_tick s2) as [[s3 r]|] eqn:E3; [|done]. cbn [mbind option_bind] in F.
  destruct r as [a|]; [|done]. injection F as ->.
  exists s, s1, s2, s3, a. split_and!; try done.
  apply (equivocation_never_applied (at_ 0 5 2 7) (at_ 0 5 3 9) s s1
    [OpTick; OpDisconnect 0; OpReconnect 0] s2 s3 a HI); try done.
  - pose proof (sample_fact (λ s, bool_decide (at_ 0 5 2 7 ∈ flatten (pending s))) ops s true E) as G.
    apply (bool_decide_eq_true _). apply G. by vm_compute.
  - repeat (apply Forall_cons_2; [exact I|]). by apply Forall_nil_2.
Defined.
