(* ===== verification/RealtimeReplay.v ===== *)
(** * Replaying a recorded session

    What the replay log of [crates/stasis_network/src/realtime.rs] is worth: the
    log of a session, replayed into a new session, repeats its ticks, controls
    and hashes, as long as the session never asked for a resync; and a session
    that did may have a complete log that does not replay. *)

From S2P Require Import Prelude RealtimeData RealtimeSession RealtimeInv RealtimeProps.
#[local] Open Scope Z_scope.

(** ** Turns

    A driver submits, resets and takes snapshots as it likes, and records the
    game's hash [h] of every tick right after it. *)

Inductive Turn := TurnOp (op : Op) | TurnTick.

Section driver.
Context (h : Z → list ControlState → Z).

Definition turn (t : Turn) (s : RealtimeSession) : option RealtimeSession :=
  match t with
  | TurnOp op => step op s
  | TurnTick =>
      '(s1, r) ← advance_tick s;
      match r with
      | Ok a => Some (fst (record_authoritative_hash (ta_tick a) (h (ta_tick a) (ta_controls a)) s1))
      | Err _ => Some s1
      end
  end.

Fixpoint play (ts : list Turn) (s : RealtimeSession) : option RealtimeSession :=
  match ts with
  | [] => Some s
  | t :: rest => s1 ← turn t s; play rest s1
  end.

(** No turn left the session asking for a resync. *)
Fixpoint synced (ts : list Turn) (s : RealtimeSession) : bool :=
  match ts with
  | [] => negb (resync_required s)
  | t :: rest =>
      negb (resync_required s) &&
      match turn t s with Some s1 => synced rest s1 | None => false end
  end.
End driver.

Definition turn_ok (t : Turn) : Prop :=
  match t with
  | TurnOp OpTick | TurnOp (OpHash _ _) => False
  | TurnOp op => op_ok op
  | TurnTick => True
  end.

(** ** The log does not matter *)

(** The same session with another log. *)
Definition mirrors (s y : RealtimeSession) : Prop := ∃ l, y = set_replay l s.

Lemma mirrors_set_replay s l : mirrors s (set_replay l s).
Proof. by exists l. Qed.

Lemma log_push_frame r l s : log_push r (set_replay l s) = set_replay (fst (Log_push l r)) s.
Proof. by destruct s. Qed.

Lemma reseat_frame i act ep l s : reseat i act ep (set_replay l s) = set_replay l (reseat i act ep s).
Proof. by destruct s. Qed.

(** A reset of one seat, replayed. *)
Lemma apply_reset_seat (i : nat) (act : bool) s :
  (i < 256)%nat →
  let reason := if act then Reconnect (wrap 8 (Z.of_nat i)) else Disconnect (wrap 8 (Z.of_nat i)) in
  apply_reset reason s =
    '(s1, r) ← lifecycle_epoch i act reason s; Some (s1, map_err (λ _, InvalidSetup) r).
Proof.
  intros Hi reason. assert (Z.to_nat (wrap 8 (Z.of_nat i)) = i) as Hw.
  { rewrite wrap_small; [lia|]. unfold in_u. lia. }
  unfold apply_reset, reason. destruct act; by rewrite Hw.
Qed.

Lemma apply_reset_all reason s :
  reason = Pause ∨ reason = FocusLost ∨ reason = Rematch →
  apply_reset reason s =
    let '(s1, r) := reset_all reason s in Some (s1, map_err (λ _, InvalidSetup) r).
Proof. by intros [->|[->| ->]]. Qed.

Lemma apply_one_frame i l s :
  apply_one i (set_replay l s) = (λ r, (set_replay l r.1, r.2)) <$> apply_one i s.
Proof.
  destruct s. unfold apply_one. rt_simpl. destruct (mjoin (pending !! i)) as [t|]; [|done]. cbn.
  destruct (checked_pred pending_count) as [n|]; [|done]. cbn.
  destruct (array_set _ (state t) controls) as [cs|]; [|done]. cbn.
  destruct (highest_applied_sequence !! Z.to_nat (seat t)) as [hs|]; [|done]. cbn.
  by destruct (array_set recent_next (Some t) recent).
Qed.

Lemma apply_loop_frame k due l s arr :
  apply_loop k due (set_replay l s) arr = (λ r, (set_replay l r.1, r.2)) <$> apply_loop k due s arr.
Proof.
  revert k s arr. induction due as [|i due IH]; intros k s arr; cbn [apply_loop]; [done|].
  rewrite apply_one_frame. destruct (apply_one i s) as [[s1 t]|]; [|done]. cbn.
  destruct (array_set k t arr); [|done]. cbn. apply IH.
Qed.

(** A tick that logs [Tick] logs it in front of whatever log there is. *)
Lemma advance_tick_frame s s1 a :
  advance_tick s = Some (s1, Ok a) →
  ∃ s2, s1 = log_push (Tick (ta_tick a) (ta_controls a) None) s2 ∧ replay s2 = replay s ∧
    ∀ l, advance_tick (set_replay l s) =
      Some (log_push (Tick (ta_tick a) (ta_controls a) None) (set_replay l s2), Ok a).
Proof.
  unfold advance_tick, advance_tick_inner.
  destruct (checked_u 64 (current_tick s + 1)) as [tick|] eqn:Et; [|by intros [=]].
  destruct (sorted_due tick (pending (set_current_tick tick s))) as [due|] eqn:Ed; [|done].
  cbn [mbind option_bind].
  destruct (apply_loop 0 due (set_current_tick tick s)
    (replicate MAX_PENDING_TRANSITIONS default_transition)) as [[s2 ap]|] eqn:E; [|done].
  cbn [mbind option_bind]. intros [<- <-%Ok_inj]%Some_pair_inj. exists s2. split; [done|]. split.
  - pose proof (apply_loop_frame 0 due (replay s) (set_current_tick tick s)
      (replicate MAX_PENDING_TRANSITIONS default_transition)) as F.
    assert (set_replay (replay s) (set_current_tick tick s) = set_current_tick tick s) as Hs
      by by destruct s.
    rewrite Hs, E in F. apply (f_equal (λ o, replay <$> (fst <$> o))) in F. cbn in F. by injection F.
  - intros l. change (current_tick (set_replay l s)) with (current_tick s). rewrite Et.
    change (pending (set_current_tick tick (set_replay l s))) with (pending (set_current_tick tick s)).
    rewrite Ed. cbn [mbind option_bind].
    change (set_current_tick tick (set_replay l s)) with (set_replay l (set_current_tick tick s)).
    rewrite apply_loop_frame, E. done.
Qed.

Lemma next_epochs_frame indices l s acc :
  next_epochs indices (set_replay l s) acc = next_epochs indices s acc.
Proof.
  revert acc. induction indices as [|i indices IH]; intros acc; cbn [next_epochs]; [done|].
  change (next_epoch i (set_replay l s)) with (next_epoch i s).
  destruct (next_epoch i s); [|done]. apply IH.
Qed.

(** A successful reset changes the log and the rest of the session separately. *)
Lemma reset_all_frame reason s s1 :
  reset_all reason s = (s1, Ok tt) →
  ∃ s2, s1 = log_push (Reset_ reason) s2 ∧ replay s2 = replay s ∧
    ∀ l, reset_all reason (set_replay l s) = (log_push (Reset_ reason) (set_replay l s2), Ok tt).
Proof.
  unfold reset_all. destruct (next_epochs _ s (epochs s)) as [eps|] eqn:E; [|by intros [=]].
  intros Heq. apply (f_equal fst) in Heq. cbn [fst] in Heq. subst s1. eexists. split; [reflexivity|].
  split; [by destruct reason|]. intros l. rewrite next_epochs_frame.
  change (seats (set_replay l s)) with (seats s). change (epochs (set_replay l s)) with (epochs s).
  rewrite E. by destruct reason.
Qed.

(** ** Appending a record *)

Lemma log_push_complete r s :
  log_complete (replay (log_push r s)) = true →
  log_complete (replay s) = true ∧
  replay (log_push r s) = mkLog (log_records (replay s) ++ [r]) (log_limit (replay s)) true.
Proof.
  unfold log_push, Log_push. rt_simpl. destruct (_ =? _); cbn; [done|]. by intros ->.
Qed.

Section replaying.
Context {St : Type} (event : ReplayEvent → St → St) (h : Z → list ControlState → Z)
  (upd : Z → list ControlState → St → St) (s0 : RealtimeSession).

Definition hash_of (tick : Z) (cs : list ControlState) (st : St) : St * Z :=
  (upd tick cs st, h tick cs).

Lemma replay_loop_app i l1 l2 s st s1 st1 :
  replay_loop event hash_of i l1 s st = Some (s1, st1, Ok tt) →
  replay_loop event hash_of i (l1 ++ l2) s st =
    replay_loop event hash_of (i + length l1) l2 s1 st1.
Proof.
  revert i s st. induction l1 as [|r l1 IH]; intros i s st; cbn [replay_loop app length].
  { intros [= -> ->]. by rewrite Nat.add_0_r. }
  destruct (replay_record event hash_of i r s st) as [[[s' st'] []]|]; cbn; try done.
  intros Hr. rewrite <- Nat.add_succ_comm. by apply IH.
Qed.

(** A complete log leads from [s0] to the session itself, up to its log. *)
Definition replayable (s : RealtimeSession) : Prop :=
  log_complete (replay s) = true → ∀ st, ∃ y st1,
    replay_loop event hash_of 0 (log_records (replay s)) s0 st = Some (y, st1, Ok tt) ∧ mirrors s y.

(** Appending a record whose replay does to the mirror what was done to [s]. *)
Lemma replayable_snoc s s1 r limit :
  replayable s → log_complete (replay s) = true →
  (∀ l i st, ∃ y st1,
    replay_record event hash_of i r (set_replay l s) st = Some (y, st1, Ok tt) ∧ mirrors s1 y) →
  replayable (set_replay (mkLog (log_records (replay s) ++ [r]) limit true) s1).
Proof.
  intros Hs Hc Hr _ st. destruct (Hs Hc st) as (y & st1 & E & l & ->).
  destruct (Hr l (0 + length (log_records (replay s)))%nat st1) as (y' & st2 & E' & Hm).
  exists y', st2. split.
  - change (log_records (replay (set_replay (mkLog (log_records (replay s) ++ [r]) limit true) s1)))
      with (log_records (replay s) ++ [r]).
    rewrite (replay_loop_app _ _ _ _ _ _ _ E). cbn [replay_loop]. rewrite E'. done.
  - destruct Hm as [l' ->]. exists l'. done.
Qed.

Lemma replayable_push s s1 r :
  replayable s → replay s1 = replay s →
  (∀ l i st, ∃ y st1,
    replay_record event hash_of i r (set_replay l s) st = Some (y, st1, Ok tt) ∧ mirrors s1 y) →
  replayable (log_push r s1).
Proof.
  intros Hs Hl Hr Hc. pose proof (log_push_complete _ _ Hc) as [Hc1 E].
  rewrite Hl in Hc1, E. pose proof (replayable_snoc s s1 r (log_limit (replay s)) Hs Hc1 Hr) as H'.
  unfold log_push in E. unfold log_push. rt_simpl. rewrite E. apply H'. done.
Qed.

(** ** Submissions *)

Lemma replayable_submit t s s1 o :
  Inv s → replayable s → submit_view t s s1 o → resync_required s1 = false → replayable s1.
Proof.
  intros HI Hs V Hn. destruct V as [o _ _|_|_ _ _|_ Hin Hq Hlt|slot Ha Hl Hlt Hf]; [done|done|done| |].
  - apply (replayable_push s); [done|done|]. intros l i st. cbn [replay_record].
    pose proof (Inv_set_replay l s HI) as HIy. pose proof (inv_widths _ HIy) as W. unfold widths in W.
    rewrite quarantine_identity_spec by (apply HIy || tauto).
    change (seat t, epoch t, sequence t) with (transition_key t).
    change (quarantine (set_replay l s)) with (quarantine s).
    change (quarantined_count (set_replay l s)) with (quarantined_count s).
    rewrite bool_decide_eq_false_2 by done. rewrite (proj2 (Nat.ltb_lt _ _)) by done. cbn.
    do 2 eexists. split; [done|]. by exists l.
  - apply (replayable_push s); [done|done|]. intros l i st. cbn [replay_record].
    assert (admissible t (set_replay l s)) as Hay by (destruct Ha; by split).
    destruct (submit_admissible t _ (Inv_set_replay l s HI) Hay) as (slot' & -> & Hf' & _ & _).
    cbn [mbind option_bind]. change (pending (set_replay l s)) with (pending s) in Hf'.
    assert (slot' = slot) as -> by congruence.
    assert (∃ y, log_push (Scheduled t) (admitted slot t (set_replay l s)) = y ∧
      mirrors (admitted slot t s) y) as (y & -> & Hm) by (eexists; split; [done|]; by eexists).
    exists y, st. split; [|done]. unfold admit_outcome. by destruct (_ <? _).
Qed.

(** Once a resync is required, submitting does not clear it. *)
Lemma submit_keeps_resync t s s1 o :
  submit_view t s s1 o → resync_required s = true → resync_required s1 = true.
Proof. intros V Hr. destruct V; rt_simpl; try done; destruct H; congruence. Qed.

Lemma submit_loop_keeps_resync ts k s r s1 r1 :
  Inv s → Forall transition_ok ts → submit_loop k ts s r = Some (s1, r1) →
  resync_required s = true → resync_required s1 = true.
Proof.
  intros HI Hts. revert k s r HI. induction Hts as [|t ts Ht Hts IH]; intros k s r HI; cbn [submit_loop].
  { by intros [= -> _]. }
  destruct (submit_view_ok t s HI) as (s' & o & E & V). rewrite E. cbn.
  destruct (array_set k o r) as [r'|]; [|done]. cbn. intros Hl Hr.
  apply (IH (S k) s' r'); [by eapply Inv_submit_view|done|by eapply submit_keeps_resync].
Qed.

Lemma replayable_submit_loop ts k s r s1 r1 :
  Inv s → Forall transition_ok ts → replayable s → submit_loop k ts s r = Some (s1, r1) →
  resync_required s1 = false → replayable s1.
Proof.
  intros HI Hts. revert k s r HI. induction Hts as [|t ts Ht Hts IH]; intros k s r HI Hs; cbn [submit_loop].
  { by intros [= -> _]. }
  destruct (submit_view_ok t s HI) as (s' & o & E & V). rewrite E. cbn.
  destruct (array_set k o r) as [r'|]; [|done]. cbn. intros Hl Hn.
  assert (Inv s') as HI' by by eapply Inv_submit_view.
  apply (IH (S k) s' r'); [done| |done|done]. apply (replayable_submit t s s' o); [done..|].
  destruct (resync_required s') eqn:Hr; [|done].
  by rewrite (submit_loop_keeps_resync ts (S k) s' r' s1 r1) in Hn.
Qed.

Lemma replayable_envelope e s s1 r :
  Inv s → wf_envelope e → replayable s → submit_envelope e s = Some (s1, r) →
  resync_required s1 = false → replayable s1.
Proof.
  intros HI Hwf Hs. unfold submit_envelope.
  destruct (submit_loop 0 (transitions e) s _) as [[s' r']|] eqn:E; [|done]. cbn.
  intros [<- _]%Some_pair_inj Hn. eapply replayable_submit_loop; [done| |done|exact E|done].
  eapply Forall_impl; [apply (wf_env_valid e Hwf)|]. by intros t [? _].
Qed.

(** ** Lifecycle *)

Lemma replayable_lifecycle (i : nat) (act : bool) s s1 r :
  let reason := if act then Reconnect (wrap 8 (Z.of_nat i)) else Disconnect (wrap 8 (Z.of_nat i)) in
  Inv s → replayable s → lifecycle_epoch i act reason s = Some (s1, r) → replayable s1.
Proof.
  intros reason HI Hs. rewrite lifecycle_epoch_spec by apply HI.
  destruct (seats s <=? i)%nat eqn:Hi; [by intros [<- _]%Some_pair_inj|].
  destruct (next_epoch i s) as [ep|e] eqn:Ee; [|by intros [<- _]%Some_pair_inj].
  intros [<- _]%Some_pair_inj. apply (replayable_push s); [done|done|].
  intros l k st. cbn [replay_record]. unfold reason at 2. rewrite apply_reset_seat; fold reason.
  - rewrite lifecycle_epoch_spec by apply HI.
    change (seats (set_replay l s)) with (seats s). rewrite Hi.
    change (next_epoch i (set_replay l s)) with (next_epoch i s). rewrite Ee.
    rewrite reseat_frame, log_push_frame. cbn [mbind option_bind map_err].
    do 2 eexists. split; [reflexivity|]. apply mirrors_set_replay.
  - to_props. destruct (inv_widths _ HI) as [Hseats _]. unfold REALTIME_MAX_SEATS in *. lia.
Qed.

Lemma replayable_reset_all reason s :
  (reason = Pause ∨ reason = FocusLost ∨ reason = Rematch) →
  replayable s → replayable (fst (reset_all reason s)).
Proof.
  intros Hreason Hs. destruct (reset_all reason s) as [s1 [[]|e]] eqn:E; cbn [fst].
  - destruct (reset_all_frame reason s s1 E) as (s2 & -> & Hl & Hf).
    apply (replayable_push s); [done|done|]. intros l i st. cbn [replay_record].
    rewrite apply_reset_all by done. rewrite Hf, log_push_frame. do 2 eexists.
    split; [reflexivity|]. apply mirrors_set_replay.
  - unfold reset_all in E. destruct (next_epochs _ _ _); [by injection E|].
    by injection E as <- _.
Qed.

Lemma replayable_snapshot sn s :
  replayable s → replayable (fst (apply_authoritative_snapshot sn s)).
Proof.
  intros Hs. unfold apply_authoritative_snapshot. repeat (case_match; [done|]).
  case_match; [|done]. case_match; [done|]. case_match; [|done]. cbn [fst].
  apply (replayable_push s); [done|done|]. intros l i st. cbn [replay_record].
  do 2 eexists. split; [done|]. by exists l.
Qed.

(** ** Ticks *)

Lemma record_hash_snoc records limit complete tick cs hash :
  Log_record_hash (mkLog (records ++ [Tick tick cs None]) limit complete) tick hash =
  (mkLog (records ++ [Tick tick cs (Some hash)]) limit complete, Ok tt).
Proof.
  unfold Log_record_hash. cbn [log_records log_limit log_complete]. rewrite last_snoc, Z.eqb_refl. cbn [negb].
  rewrite length_app. cbn [length]. rewrite Nat.add_sub.
  rewrite insert_app_r_alt by lia. by rewrite Nat.sub_diag.
Qed.

Lemma record_hash_complete log tick hash :
  log_complete (fst (Log_record_hash log tick hash)) = log_complete log.
Proof. unfold Log_record_hash. repeat case_match; done. Qed.

Lemma replayable_tick s s1 a :
  replayable s → advance_tick s = Some (s1, Ok a) →
  replayable (fst (record_authoritative_hash (ta_tick a) (h (ta_tick a) (ta_controls a)) s1)).
Proof.
  intros Hs E. destruct (advance_tick_frame s s1 a E) as (s2 & -> & Hl & Hf).
  unfold record_authoritative_hash.
  destruct (Log_record_hash _ _ _) as [log r] eqn:Eh. cbn [fst].
  pose proof (record_hash_complete (replay (log_push (Tick (ta_tick a) (ta_controls a) None) s2))
    (ta_tick a) (h (ta_tick a) (ta_controls a))) as Hc'. rewrite Eh in Hc'. cbn [fst] in Hc'.
  destruct (log_complete log) eqn:Hc; [|intros Hn; cbn in Hn; congruence].
  destruct (log_push_complete _ _ (eq_sym Hc')) as [Hcs Er]. rewrite Er, record_hash_snoc in Eh.
  rewrite Hl in Eh, Hcs. injection Eh as <- _.
  change (set_replay ?l (log_push ?r s2)) with (set_replay l s2).
  apply replayable_snoc; [done|done|]. intros l i st. cbn [replay_record].
  rewrite Hf, log_push_frame. cbn [mbind option_bind]. rewrite Z.eqb_refl, bool_decide_eq_true_2 by done.
  cbn [negb orb]. unfold hash_of. rewrite Z.eqb_refl. cbn [negb].
  do 2 eexists. split; [reflexivity|]. apply mirrors_set_replay.
Qed.

(** ** Turns *)

Lemma replayable_turn t s s1 :
  Inv s → turn_ok t → replayable s → turn h t s = Some s1 → resync_required s1 = false →
  Inv s1 ∧ replayable s1.
Proof.
  intros HI Ht Hs E Hn. destruct t as [op|].
  - split.
    { destruct (step_Inv op s HI) as (s' & E' & HI'); [by destruct op|]. cbn in E. congruence. }
    destruct op; cbn [turn step turn_ok op_ok] in *; try done.
    + destruct (submit_view_ok t s HI) as (s' & o & E' & V). rewrite E' in E. injection E as <-.
      by apply (replayable_submit t s s' o).
    + destruct (submit_envelope e s) as [[s' r]|] eqn:E'; [|done]. injection E as <-.
      by eapply replayable_envelope.
    + unfold submit_payload in E. destruct (Envelope_decode payload) as [e|] eqn:Hd.
      * destruct (submit_envelope e s) as [[s' r]|] eqn:E'; [|done]. injection E as <-.
        eapply replayable_envelope; [done| |done|exact E'|done]. by eapply decode_canonical_aux.
      * by injection E as <-.
    + unfold disconnect in E. destruct (lifecycle_epoch i false _ s) as [[s' r]|] eqn:E'; [|done].
      injection E as <-. by eapply (replayable_lifecycle i false).
    + unfold reconnect in E. destruct (lifecycle_epoch i true _ s) as [[s' r]|] eqn:E'; [|done].
      injection E as <-. by eapply (replayable_lifecycle i true).
    + injection E as <-. apply replayable_reset_all; auto.
    + injection E as <-. apply replayable_reset_all; auto.
    + injection E as <-. apply replayable_reset_all; auto.
    + injection E as <-. by apply replayable_snapshot.
  - cbn [turn] in E. destruct (advance_tick_Inv s HI) as (s' & r & E' & HI').
    rewrite E' in E. cbn in E. destruct r as [a|e]; injection E as <-.
    + split; [|by eapply (replayable_tick s)]. unfold record_authoritative_hash.
      destruct (Log_record_hash _ _ _). by apply Inv_set_replay.
    + split; [done|]. unfold advance_tick, advance_tick_inner in E'.
      destruct (checked_u 64 (current_tick s + 1)); [|by apply Some_pair_inj in E' as [<- _]].
      destruct (sorted_due _ _); [|done]. cbn in E'. by destruct (apply_loop _ _ _ _) as [[]|].
Qed.

Lemma replayable_play ts s s1 :
  Inv s → Forall turn_ok ts → replayable s → synced h ts s = true → play h ts s = Some s1 →
  replayable s1.
Proof.
  intros HI Hts. revert s HI. induction Hts as [|t ts Ht _ IH]; intros s HI Hs; cbn [synced play].
  { by intros _ [= ->]. }
  intros [_ Hsync]%andb_true_iff. destruct (turn h t s) as [s'|] eqn:E; [|done].
  cbn [mbind option_bind]. assert (resync_required s' = false) as Hn.
  { destruct ts; cbn in Hsync; [|apply andb_true_iff in Hsync as [Hsync _]]; by apply negb_true_iff in Hsync. }
  destruct (replayable_turn t s s' HI Ht Hs E Hn) as [HI' Hs']. by apply IH.
Qed.
End replaying.

(** ** Properties *)

(** C39 A log reproduces its session.  When a driver records the game's hash after
    every tick, that hash depends on the number and the controls of the tick only, the
    session never asked for a resync and its log stayed complete,
    replaying the log from scratch succeeds: every recorded transition is admitted
    again, and every tick yields the recorded number, controls and hash, whatever
    mix of submissions, envelopes, conflicts, resets, reconnects and snapshots the
    session saw. *)
Theorem replay_reproduces {St : Type} (event : ReplayEvent → St → St)
    (h : Z → list ControlState → Z) (upd : Z → list ControlState → St → St)
    r1 r2 r3 delay cfg n limit s0 ts s st
    (Hr1 : in_u 32 r1) (Hr2 : in_u 32 r2) (Hr3 : in_u 32 r3) (Hd : in_u 32 delay)
    (Hcfg : RealtimeConfig_new r1 r2 r3 delay = Ok cfg)
    (Hnew : Session_new_with_replay_limit cfg n limit = Ok s0)
    (Hts : Forall turn_ok ts) (Hsync : synced h ts s0 = true) (Hplay : play h ts s0 = Some s)
    (Hc : log_complete (replay s) = true) :
  ∃ st1, replay_with_events event (λ tick cs st, (upd tick cs st, h tick cs)) (replay s) cfg n st =
    Some (st1, Ok tt).
Proof.
  assert (config_ok cfg) as Hok by by apply (config_new_ok r1 r2 r3 delay).
  pose proof (Inv_new cfg n limit s0 Hok Hnew) as HI.
  assert (∃ y l, Session_new cfg n = Ok y ∧ log_records (replay s0) = [] ∧ y = set_replay l s0)
    as (y & l & Hy & Hnil & ->).
  { revert Hnew. unfold Session_new, Session_new_with_replay_limit. destruct (_ || _); [done|].
    unfold Log_with_limit at 1. destruct (_ || _); [done|]. cbn [result_bind].
    intros <-%Ok_inj. do 2 eexists. split; [reflexivity|]. split; reflexivity. }
  assert (replayable event h upd (set_replay l s0) s0) as H0.
  { intros _ st'. rewrite Hnil. do 2 eexists. split; [reflexivity|]. apply mirrors_set_replay. }
  pose proof (replayable_play event h upd _ ts s0 s HI Hts H0 Hsync Hplay Hc st) as (y & st1 & E & _).
  exists st1. unfold replay_with_events. rewrite Hc, Hy. cbn [negb].
  change (λ tick cs st, (upd tick cs st, h tick cs)) with (hash_of h upd). by rewrite E.
Qed.

Definition sample_turns : list Turn :=
  [TurnOp (OpSubmit (at_ 0 5 2 7)); TurnTick; TurnOp (OpSubmit (at_ 1 3 4 1));
   TurnOp (OpSubmit (at_ 1 3 5 2)); TurnTick; TurnOp (OpDisconnect 1); TurnTick;
   TurnOp OpRematch; TurnTick].

Definition sample_hash (tick : Z) (cs : list ControlState) : Z :=
  tick + foldr Z.add 0 (buttons <$> cs).

Definition sample_start : RealtimeSession :=
  match Session_new_with_replay_limit sample_config 4 100 with
  | Ok s => s
  | Err _ => mkSession sample_config 0 0 0 [] [] [] [] [] [] 0 false [] 0 [] 0 (mkLog [] 0 false)
  end.

Definition sample_end : RealtimeSession := default sample_start (play sample_hash sample_turns sample_start).

Lemma sample_turns_ok : Forall turn_ok sample_turns.
Proof.
  repeat (apply Forall_cons; split;
    [first [exact I|cbn [turn_ok op_ok]; repeat split; by apply (bool_decide_unpack _); vm_compute]|]).
  by apply Forall_nil.
Qed.

Lemma replay_reproduces_witness :
  log_records (replay sample_end) ≠ [] ∧
  ∃ st1, replay_with_events (λ _ st, st) (λ tick cs st, (S st, sample_hash tick cs))
    (replay sample_end) sample_config 4 0%nat = Some (st1, Ok tt).
Proof.
  split; [by vm_compute|].
  apply (replay_reproduces (λ _ st, st) sample_hash (λ _ _ st, S st) 60 20 2 1 sample_config 4 100
    sample_start sample_turns sample_end 0%nat);
    try exact sample_turns_ok; by vm_compute.
Defined.

(** ** A full quarantine *)

Definition tr (sq at_tick b : Z) : ScheduledTransition :=
  mkTransition 0 1 sq at_tick (mkControlState b 0 0).

(** Fill the quarantine with 128 conflicting sequences while sequence 1000 waits,
    then let 1000 conflict as well. *)
Definition overflow_ops : list Op :=
  [OpSubmit (tr 1000 1 7)] ++
  mjoin ((λ k, [OpSubmit (tr (Z.of_nat k) 5 1); OpSubmit (tr (Z.of_nat k) 6 2)]) <$> seq 1 128) ++
  [OpSubmit (tr 1000 2 9); OpTick; OpHash 1 0].

#[local] Instance transition_ok_dec t : Decision (transition_ok t).
Proof. unfold transition_ok, control_ok. apply _. Defined.

(** A submission, a tick or a hash with arguments of their types. *)
Definition simple_op (op : Op) : Prop :=
  match op with OpSubmit t => transition_ok t | OpTick | OpHash _ _ => True | _ => False end.

#[local] Instance simple_op_dec op : Decision (simple_op op).
Proof. destruct op; cbn [simple_op]; apply _. Defined.

(** A complete log need not replay.  With the quarantine full, a conflict drops
    the waiting transition, asks for a resync and logs nothing: the session ticks
    on without the transition, its log stays complete, and replaying the log
    applies the transition and fails at that tick. *)
Theorem full_quarantine_breaks_replay :
  ∃ cfg s0 s, RealtimeConfig_new 60 60 60 1 = Ok cfg ∧ Session_new cfg 1 = Ok s0 ∧
    run overflow_ops s0 = Some s ∧ Forall op_ok overflow_ops ∧
    log_complete (replay s) = true ∧
    Log_replay (λ _ _ st, (st, 0)) (replay s) cfg 1 tt = Some (tt, Err (TickMismatch 257 1)).
Proof.
  destruct (RealtimeConfig_new 60 60 60 1) as [cfg|] eqn:Hc; [|done]. exists cfg.
  injection Hc as <-. do 2 eexists. split; [done|]. split; [reflexivity|].
  split; [vm_compute; reflexivity|]. split; [|split; by vm_compute].
  apply (Forall_impl simple_op); [|by intros []]. apply (bool_decide_unpack _). by vm_compute.
Qed.
