(* ===== verification/StateLayout.v ===== *)
(** * State layouts

    Models the layout types of [crates/stasis_compiler/src/backend/state_layout.rs],
    the number of elements of a collection lane, the native symbol of a state path
    and the version of a layout.  The serializer and SHA-256 are third-party code:
    the class [LayoutCodec] holds them. *)

From stdpp Require Import pretty.
From S2P Require Import Prelude Identity.

(** ** The layout *)

Record StateScalarLayout := mkScalarLayout {
  sl_path : str;
  sl_type_name : str;
  sl_storage_type_name : str;
}.

Record StateCollectionFieldLayout := mkFieldLayout {
  fl_field : str;
  fl_type_name : str;
  fl_storage_type_name : str;
  fl_element_count : option Z;      (* u64 *)
}.

Record StateCollectionLayout := mkCollectionLayout {
  cl_path : str;
  cl_capacity : Z;                  (* i32 *)
  cl_element_shape : str;
  cl_fully_migratable : bool;
  cl_fields : list StateCollectionFieldLayout;
}.

Record StateStructFieldLayout := mkStructField {
  stf_field : str;
  stf_type_name : str;
}.

Record StateStructLayout := mkStructLayout {
  st_path : str;
  st_type_name : str;
  st_fields : list StateStructFieldLayout;
}.

Record StateOpaqueLayout := mkOpaqueLayout {
  op_path : str;
  op_type_name : str;
}.

Record StateLayout := mkLayout {
  scalars : list StateScalarLayout;
  collections : list StateCollectionLayout;
  structs : list StateStructLayout;
  opaque : list StateOpaqueLayout;
}.

(** The storage type defaults to the declared type. *)
Definition scalar_storage_type_name (s : StateScalarLayout) : str :=
  if bool_decide (sl_storage_type_name s = []) then sl_type_name s else sl_storage_type_name s.

Definition field_storage_type_name (f : StateCollectionFieldLayout) : str :=
  if bool_decide (fl_storage_type_name f = []) then fl_type_name f else fl_storage_type_name f.

(** ** Lane sizes *)

Definition SEMICOLON : Z := 59.

Definition is_bitset_collection (c : StateCollectionLayout) : bool :=
  existsb (λ part, bool_decide (part = string_bytes "kind=bitset"))
    (split_on SEMICOLON (cl_element_shape c)).

(** [div_ceil] *)
Definition div_ceil (a b : Z) : Z := ((a + b - 1) `div` b)%Z.

Definition collection_field_element_count (c : StateCollectionLayout)
    (f : StateCollectionFieldLayout) (logical_capacity : Z) : Z :=
  let current_capacity := (if 0 <=? cl_capacity c then cl_capacity c else 0)%Z in
  match fl_element_count f with
  | None => logical_capacity
  | Some count =>
      if (logical_capacity =? current_capacity)%Z then count
      else if is_bitset_collection c && bool_decide (fl_field f = string_bytes "words")
      then div_ceil logical_capacity 32
      else if (count =? current_capacity)%Z then logical_capacity
      else if (0 <? current_capacity)%Z && (count `mod` current_capacity =? 0)%Z
      then default u64_max (checked_u 64 (logical_capacity * (count `div` current_capacity)))
      else count
  end.

(** ** Native symbols *)

Inductive AotStorageSymbolKind := SymScalar | SymArray.

Definition symbol_namespace (kind : AotStorageSymbolKind) : str :=
  match kind with
  | SymScalar => string_bytes "stasis_state_scalar__"
  | SymArray => string_bytes "stasis_state_array__"
  end.

Definition aot_storage_symbol (kind : AotStorageSymbolKind) (path field : str) : str :=
  symbol_namespace kind ++ replace_byte DOT (string_bytes "__") path
  ++ (if bool_decide (field = []) then []
      else string_bytes "__" ++ replace_byte DOT (string_bytes "__") field).

(** ** Versions *)

(** [serde_json::to_vec] of a layout and [Sha256::digest]; an error is the text of
    the serializer. *)
Class LayoutCodec := {
  to_vec : StateLayout → Result str str;
  sha256 : str → str;
}.

Definition hex_digit (n : Z) : Z := (if n <? 10 then 48 + n else 87 + n)%Z.

(** [format!("{byte:02x}")] *)
Definition hex_byte (b : Z) : str := [hex_digit (b `div` 16); hex_digit (b `mod` 16)].

Definition state_layout_digest `{LayoutCodec} (layout : StateLayout) : Result str str :=
  let? serialized :=
    map_err (λ error, string_bytes "failed versioning compiler state layout: " ++ error)
      (to_vec layout) in
  Ok (sha256 serialized).

Definition state_layout_version `{LayoutCodec} (layout : StateLayout) : Result str str :=
  let? digest := state_layout_digest layout in
  Ok (concat (hex_byte <$> digest)).

(** ** Lemmas *)

(** At its own capacity a lane has its own element count. *)
Lemma own_element_count c f :
  (0 ≤ cl_capacity c)%Z →
  collection_field_element_count c f (cl_capacity c) = default (cl_capacity c) (fl_element_count f).
Proof.
  intros Hc. unfold collection_field_element_count. rewrite (proj2 (Z.leb_le _ _) Hc).
  destruct (fl_element_count f); [|done]. by rewrite Z.eqb_refl.
Qed.

(** The symbols of scalars and of arrays never meet: they differ at a fixed byte. *)
Lemma storage_symbols_disjoint p f p' f' :
  aot_storage_symbol SymScalar p f ≠ aot_storage_symbol SymArray p' f'.
Proof. unfold aot_storage_symbol. by intros [= ]%(f_equal (take 14)). Qed.
