(* ===== verification/StateMigration.v ===== *)
(** * State migration plans

    Models the planner of [crates/stasis_compiler/src/backend/state_migration.rs]:
    [plan_state_migration] compares the state layout of the running program with
    the one of an incoming program and says, element by element, where the new
    state comes from.  Every loop of the function is one definition, folded over
    the map it walks; the four lists the loops push to are [MigrationAcc].

    The theorems show that an accepted plan gives every incoming value exactly one
    source, that nothing is dropped silently, and that a plan is refused exactly
    for the documented reasons. *)

From stdpp Require Import pretty.
From S2P Require Import Prelude BTree Identity StateLayout.
#[local] Set Warnings "-clear-no-such-hyp".

(** ** Plans *)

Inductive StateMigrationStepKind := Copy | Initialize | Remove.

#[export] Instance StateMigrationStepKind_eq_dec : EqDecision StateMigrationStepKind.
Proof. solve_decision. Defined.

Record StateMigrationStep := mkStep {
  step_kind : StateMigrationStepKind;
  step_path : str;
  step_field : option str;
  step_type_name : str;
  step_elements : Z;               (* u32 *)
  step_start_index : Z;            (* u32 *)
  step_from_capacity : option Z;   (* u32 *)
  step_to_capacity : option Z;     (* u32 *)
}.

#[export] Instance StateMigrationStep_eq_dec : EqDecision StateMigrationStep.
Proof. solve_decision. Defined.

Record StateMigrationScope := mkScope {
  scope_kind : str;
  scope_path : option str;
}.

Record StateMigrationPreview := mkPreview {
  schema_version : Z;
  changed_functions : list str;
  state_layout_compatible : bool;
  layout_changed : bool;
  from_layout_version : str;
  to_layout_version : str;
  migration_scope : StateMigrationScope;
  migration_steps : list StateMigrationStep;
  warnings : list str;
  rejection : option str;
  estimated_commit_cost_us : Z;
  requires_explicit_apply : bool;
}.

Record CollectionFieldLayout := mkLane {
  lane_type_name : str;
  lane_storage_type_name : str;
  lane_capacity : Z;               (* u32 *)
}.

(** Rust's [Display] for integers. *)
Definition show (z : Z) : str := string_bytes (pretty z).

Definition scalar_step (kind : StateMigrationStepKind) (path type_name : str) : StateMigrationStep :=
  mkStep kind path None type_name 1 0 None None.

Definition collection_step (kind : StateMigrationStepKind) (path field type_name : str)
    (start_index elements from_capacity to_capacity : Z) : StateMigrationStep :=
  mkStep kind path (Some field) type_name elements start_index
    (Some from_capacity) (Some to_capacity).

Definition migration_root (path : str) : str := default path (head (split_on DOT path)).

Definition display_collection_path (path field : str) : str :=
  if bool_decide (field = []) then path ++ string_bytes "[]"
  else path ++ string_bytes "[]." ++ field.

(** ** The lanes of a layout *)

Definition LaneMap := list ((str * str) * CollectionFieldLayout).

Definition negative_capacity (c : StateCollectionLayout) : str :=
  string_bytes "collection '" ++ cl_path c ++ string_bytes "' has negative capacity "
  ++ show (cl_capacity c).

Definition lane_too_large (c : StateCollectionLayout) (f : StateCollectionFieldLayout) : str :=
  string_bytes "collection '" ++ cl_path c ++ string_bytes "' field '" ++ fl_field f
  ++ string_bytes "' has capacity exceeding u32 migration capacity".

Fixpoint lane_loop (c : StateCollectionLayout) (capacity : Z)
    (fs : list StateCollectionFieldLayout) (fields : LaneMap) : Result LaneMap str :=
  match fs with
  | [] => Ok fields
  | f :: fs' =>
      let? field_capacity :=
        ok_or (checked_u 32 (collection_field_element_count c f capacity)) (lane_too_large c f) in
      lane_loop c capacity fs'
        (map_insert (cl_path c, fl_field f)
          (mkLane (fl_type_name f) (field_storage_type_name f) field_capacity) fields)
  end.

Fixpoint collection_loop (cs : list StateCollectionLayout) (fields : LaneMap) : Result LaneMap str :=
  match cs with
  | [] => Ok fields
  | c :: cs' =>
      let? capacity := ok_or (checked_u 32 (cl_capacity c)) (negative_capacity c) in
      let? fields := lane_loop c capacity (cl_fields c) fields in
      collection_loop cs' fields
  end.

Definition collection_field_layouts (layout : StateLayout) : Result LaneMap str :=
  collection_loop (collections layout) [].

(** ** The maps the planner compares *)

Definition ScalarMap := list (str * (str * str)).

Definition scalar_map (layout : StateLayout) : ScalarMap :=
  map_of_list ((λ e, (sl_path e, (sl_type_name e, scalar_storage_type_name e))) <$> scalars layout).

Definition collection_map (layout : StateLayout) : list (str * StateCollectionLayout) :=
  map_of_list ((λ c, (cl_path c, c)) <$> collections layout).

Definition opaque_map (layout : StateLayout) : list (str * str) :=
  map_of_list ((λ e, (op_path e, op_type_name e)) <$> opaque layout).

(** ** The accumulators *)

Record MigrationAcc := mkAcc {
  acc_steps : list StateMigrationStep;
  acc_warnings : list str;
  acc_rejections : list str;
  acc_roots : list str;            (* a BTreeSet *)
}.

Definition acc_empty : MigrationAcc := mkAcc [] [] [] [].

Definition push_step (s : StateMigrationStep) (a : MigrationAcc) : MigrationAcc :=
  mkAcc (acc_steps a ++ [s]) (acc_warnings a) (acc_rejections a) (acc_roots a).

Definition push_warning (w : str) (a : MigrationAcc) : MigrationAcc :=
  mkAcc (acc_steps a) (acc_warnings a ++ [w]) (acc_rejections a) (acc_roots a).

Definition push_rejection (r : str) (a : MigrationAcc) : MigrationAcc :=
  mkAcc (acc_steps a) (acc_warnings a) (acc_rejections a ++ [r]) (acc_roots a).

Definition affect (path : str) (a : MigrationAcc) : MigrationAcc :=
  mkAcc (acc_steps a) (acc_warnings a) (acc_rejections a)
    (set_insert (migration_root path) (acc_roots a)).

(** ** The comparisons, one per loop of the planner *)

Definition MAX_LENGTH_SUFFIX : str := string_bytes ".max_length".

(** [ends_with] *)
Definition ends_with (p s : str) : bool := starts_with (reverse p) (reverse s).

Definition is_max_length (path : str) : bool := ends_with MAX_LENGTH_SUFFIX path.

Definition shape_detail (incoming : StateCollectionLayout)
    (active : option StateCollectionLayout) : str :=
  match active with
  | None => string_bytes "new shape '" ++ cl_element_shape incoming ++ string_bytes "'"
  | Some c =>
      if bool_decide (cl_element_shape c = cl_element_shape incoming)
         && (cl_capacity c =? cl_capacity incoming)%Z
      then string_bytes "shape '" ++ cl_element_shape incoming ++ string_bytes "'"
      else string_bytes "shape '" ++ cl_element_shape c ++ string_bytes "' capacity "
           ++ show (cl_capacity c) ++ string_bytes " -> shape '" ++ cl_element_shape incoming
           ++ string_bytes "' capacity " ++ show (cl_capacity incoming)
  end.

Definition non_migratable_collection (path : str) (incoming : StateCollectionLayout)
    (active : option StateCollectionLayout) : str :=
  string_bytes "collection state path '" ++ path ++ string_bytes "' has non-migratable "
  ++ shape_detail incoming active.

Definition check_incoming_collection (active : list (str * StateCollectionLayout))
    (acc : MigrationAcc) (e : str * StateCollectionLayout) : MigrationAcc :=
  let '(path, incoming_collection) := e in
  let active_collection := map_get path active in
  if cl_fully_migratable incoming_collection
     && match active_collection with None => true | Some c => cl_fully_migratable c end
  then acc
  else affect path
         (push_rejection (non_migratable_collection path incoming_collection active_collection) acc).

Definition removed_collection (path : str) (active : StateCollectionLayout) : str :=
  string_bytes "removed collection state path '" ++ path
  ++ string_bytes "' has non-migratable shape '" ++ cl_element_shape active ++ string_bytes "'".

Definition check_removed_collection (incoming : list (str * StateCollectionLayout))
    (acc : MigrationAcc) (e : str * StateCollectionLayout) : MigrationAcc :=
  let '(path, active_collection) := e in
  if bool_decide (is_Some (map_get path incoming)) || cl_fully_migratable active_collection
  then acc
  else affect path (push_rejection (removed_collection path active_collection) acc).

Definition scalar_type_changed (path active_type incoming_type : str) : str :=
  string_bytes "state path '" ++ path ++ string_bytes "' changed type '" ++ active_type
  ++ string_bytes "' -> '" ++ incoming_type ++ string_bytes "'".

Definition plan_scalar (active : ScalarMap) (acc : MigrationAcc) (e : str * (str * str))
    : MigrationAcc :=
  let '(path, (incoming_type, incoming_storage_type)) := e in
  if is_max_length path then acc
  else match map_get path active with
       | Some (active_type, active_storage_type) =>
           if bool_decide (active_type = incoming_type)
              && bool_decide (active_storage_type = incoming_storage_type)
           then push_step (scalar_step Copy path incoming_storage_type) acc
           else affect path (push_rejection (scalar_type_changed path active_type incoming_type) acc)
       | None => affect path (push_step (scalar_step Initialize path incoming_storage_type) acc)
       end.

Definition removed_scalar_warning (path : str) : str :=
  string_bytes "removed state path '" ++ path ++ string_bytes "' will be discarded".

Definition plan_removed_scalar (incoming : ScalarMap) (acc : MigrationAcc)
    (e : str * (str * str)) : MigrationAcc :=
  let '(path, (_, active_storage_type)) := e in
  if is_max_length path || bool_decide (is_Some (map_get path incoming)) then acc
  else affect path
         (push_warning (removed_scalar_warning path)
           (push_step (scalar_step Remove path active_storage_type) acc)).

Definition shrink_warning (path field : str) (from_capacity to_capacity : Z) : str :=
  string_bytes "collection '" ++ display_collection_path path field
  ++ string_bytes "' shrinks from " ++ show from_capacity ++ string_bytes " to "
  ++ show to_capacity ++ string_bytes "; elements [" ++ show to_capacity ++ string_bytes ".."
  ++ show from_capacity ++ string_bytes ") will be discarded".

Definition lane_type_changed (path field active_type incoming_type : str) : str :=
  string_bytes "collection state path '" ++ display_collection_path path field
  ++ string_bytes "' changed type '" ++ active_type ++ string_bytes "' -> '" ++ incoming_type
  ++ string_bytes "'".

Definition plan_lane (active : LaneMap) (acc : MigrationAcc)
    (e : (str * str) * CollectionFieldLayout) : MigrationAcc :=
  let '((path, field), incoming_field) := e in
  let storage := lane_storage_type_name incoming_field in
  let to_capacity := lane_capacity incoming_field in
  match map_get (path, field) active with
  | Some active_field =>
      let from_capacity := lane_capacity active_field in
      if bool_decide (lane_type_name active_field = lane_type_name incoming_field)
         && bool_decide (lane_storage_type_name active_field = storage)
      then
        let acc := push_step (collection_step Copy path field storage 0
                                (Z.min from_capacity to_capacity) from_capacity to_capacity) acc in
        if (to_capacity <? from_capacity)%Z
        then affect path (push_warning (shrink_warning path field from_capacity to_capacity) acc)
        else if (from_capacity <? to_capacity)%Z
        then affect path
               (push_step (collection_step Initialize path field storage from_capacity
                             (to_capacity - from_capacity) from_capacity to_capacity) acc)
        else acc
      else affect path
             (push_rejection (lane_type_changed path field (lane_type_name active_field)
                                (lane_type_name incoming_field)) acc)
  | None =>
      affect path
        (push_step (collection_step Initialize path field storage 0 to_capacity 0 to_capacity) acc)
  end.

Definition removed_lane_warning (path field : str) : str :=
  string_bytes "removed collection state path '" ++ display_collection_path path field
  ++ string_bytes "' will be discarded".

Definition plan_removed_lane (incoming : LaneMap) (acc : MigrationAcc)
    (e : (str * str) * CollectionFieldLayout) : MigrationAcc :=
  let '((path, field), active_field) := e in
  if bool_decide (is_Some (map_get (path, field) incoming)) then acc
  else affect path
         (push_warning (removed_lane_warning path field)
           (push_step (collection_step Remove path field (lane_storage_type_name active_field)
                         0 (lane_capacity active_field) (lane_capacity active_field) 0) acc)).

Definition opaque_type_changed (path active_type incoming_type : str) : str :=
  string_bytes "state path '" ++ path ++ string_bytes "' changed non-migratable type '"
  ++ active_type ++ string_bytes "' -> '" ++ incoming_type ++ string_bytes "'".

Definition new_opaque (path incoming_type : str) : str :=
  string_bytes "new state path '" ++ path ++ string_bytes "' uses non-migratable type '"
  ++ incoming_type ++ string_bytes "'".

Definition check_incoming_opaque (active : list (str * str)) (acc : MigrationAcc)
    (e : str * str) : MigrationAcc :=
  let '(path, incoming_type) := e in
  match map_get path active with
  | Some active_type =>
      if bool_decide (active_type = incoming_type) then acc
      else affect path (push_rejection (opaque_type_changed path active_type incoming_type) acc)
  | None => affect path (push_rejection (new_opaque path incoming_type) acc)
  end.

Definition removed_opaque (path active_type : str) : str :=
  string_bytes "removed state path '" ++ path ++ string_bytes "' uses non-migratable type '"
  ++ active_type ++ string_bytes "'".

Definition check_removed_opaque (incoming : list (str * str)) (acc : MigrationAcc)
    (e : str * str) : MigrationAcc :=
  let '(path, active_type) := e in
  if bool_decide (is_Some (map_get path incoming)) then acc
  else affect path (push_rejection (removed_opaque path active_type) acc).

(** The body of [if layout_changed]. *)
Definition compare_layouts (active incoming : StateLayout) (active_lanes incoming_lanes : LaneMap)
    (acc : MigrationAcc) : MigrationAcc :=
  let acc := foldl (check_incoming_collection (collection_map active)) acc (collection_map incoming) in
  let acc := foldl (check_removed_collection (collection_map incoming)) acc (collection_map active) in
  let acc := foldl (plan_scalar (scalar_map active)) acc (scalar_map incoming) in
  let acc := foldl (plan_removed_scalar (scalar_map incoming)) acc (scalar_map active) in
  let acc := foldl (plan_lane active_lanes) acc incoming_lanes in
  let acc := foldl (plan_removed_lane incoming_lanes) acc active_lanes in
  let acc := foldl (check_incoming_opaque (opaque_map active)) acc (opaque_map incoming) in
  foldl (check_removed_opaque (opaque_map incoming)) acc (opaque_map active).

(** ** The plan *)

(** [Vec::dedup] *)
Fixpoint dedup (l : list str) : list str :=
  match l with
  | x :: (y :: _) as l' => if bool_decide (x = y) then dedup l' else x :: dedup l'
  | _ => l
  end.

(** [sort] *)
Definition sort_strings (l : list str) : list str :=
  sort_by (λ a b, match cmp a b with Gt => false | _ => true end) l.

Definition is_top_level_global (active incoming : StateLayout) (active_lanes incoming_lanes : LaneMap)
    (path : str) : bool :=
  bool_decide (is_Some (map_get path (scalar_map active)))
  || bool_decide (is_Some (map_get path (scalar_map incoming)))
  || bool_decide (is_Some (map_get path (opaque_map active)))
  || bool_decide (is_Some (map_get path (opaque_map incoming)))
  || existsb (λ e, bool_decide (e.1.1 = path)) active_lanes
  || existsb (λ e, bool_decide (e.1.1 = path)) incoming_lanes.

Definition scope_of (active incoming : StateLayout) (active_lanes incoming_lanes : LaneMap)
    (affected_roots : list str) : StateMigrationScope :=
  match affected_roots with
  | [path] =>
      let top_level_global :=
        is_top_level_global active incoming active_lanes incoming_lanes path in
      mkScope (if top_level_global then string_bytes "whole_state" else string_bytes "struct")
        (if top_level_global then None else Some path)
  | [] => mkScope (string_bytes "none") None
  | _ => mkScope (string_bytes "whole_state") None
  end.

Definition state_values (steps : list StateMigrationStep) : Z :=
  wrap 64 (foldr Z.add 0%Z (step_elements <$> filter (λ s, step_kind s ≠ Remove) steps)).

Definition saturating_u64_mul (a b : Z) : Z := Z.min (a * b) u64_max.

Definition commit_cost (changed : list str) (steps : list StateMigrationStep) : Z :=
  saturating_u64_add
    (saturating_u64_add 20 (saturating_u64_mul (Z.of_nat (length changed)) 5))
    (div_ceil (saturating_u64_mul (state_values steps) 8) 256).

Definition rejection_text (rejections : list str) : str :=
  string_bytes "hot reload rejected: " ++ join_with (string_bytes "; ") rejections
  ++ string_bytes ". Old code and state remain active.".

Definition plan_state_migration `{LayoutCodec} (active incoming : StateLayout)
    (changed : list str) (explicit_apply : bool) (abi_rejection : option str)
    : Result StateMigrationPreview str :=
  let? from_version := state_layout_version active in
  let? to_version := state_layout_version incoming in
  let layout_changed := negb (bool_decide (from_version = to_version)) in
  let changed := dedup (sort_strings changed) in
  let? active_lanes := collection_field_layouts active in
  let? incoming_lanes := collection_field_layouts incoming in
  let acc := if layout_changed
             then compare_layouts active incoming active_lanes incoming_lanes acc_empty
             else acc_empty in
  let acc := match abi_rejection with Some r => push_rejection r acc | None => acc end in
  let compatible := bool_decide (acc_rejections acc = []) in
  Ok (mkPreview 1 changed compatible layout_changed from_version to_version
        (scope_of active incoming active_lanes incoming_lanes (acc_roots acc))
        (acc_steps acc) (acc_warnings acc)
        (if compatible then None else Some (rejection_text (acc_rejections acc)))
        (commit_cost changed (acc_steps acc)) explicit_apply).

(** Messages stay folded. *)
Arguments negative_capacity : simpl never.
Arguments lane_too_large : simpl never.
Arguments shape_detail : simpl never.
Arguments non_migratable_collection : simpl never.
Arguments removed_collection : simpl never.
Arguments scalar_type_changed : simpl never.
Arguments removed_scalar_warning : simpl never.
Arguments shrink_warning : simpl never.
Arguments lane_type_changed : simpl never.
Arguments removed_lane_warning : simpl never.
Arguments opaque_type_changed : simpl never.
Arguments new_opaque : simpl never.
Arguments removed_opaque : simpl never.
Arguments rejection_text : simpl never.

(** ** What a loop pushes

    A loop body only appends to the lists, so a loop appends what its body pushes
    to an empty accumulator, entry by entry. *)

Record appends (a a' d : MigrationAcc) : Prop := {
  appends_steps : acc_steps a' = acc_steps a ++ acc_steps d;
  appends_warnings : acc_warnings a' = acc_warnings a ++ acc_warnings d;
  appends_rejections : acc_rejections a' = acc_rejections a ++ acc_rejections d;
}.

Class Pushes {E} (f : MigrationAcc → E → MigrationAcc) : Prop :=
  pushes : ∀ a e, appends a (f a e) (f acc_empty e).

Ltac solve_pushes :=
  intros a e; repeat match goal with x : _ * _ |- _ => destruct x end;
  cbn; repeat case_match; split; cbn;
  rewrite ?app_nil_r, <- ?app_assoc; reflexivity.

#[export] Instance check_incoming_collection_pushes m : Pushes (check_incoming_collection m).
Proof. solve_pushes. Qed.
#[export] Instance check_removed_collection_pushes m : Pushes (check_removed_collection m).
Proof. solve_pushes. Qed.
#[export] Instance plan_scalar_pushes m : Pushes (plan_scalar m).
Proof. solve_pushes. Qed.
#[export] Instance plan_removed_scalar_pushes m : Pushes (plan_removed_scalar m).
Proof. solve_pushes. Qed.
#[export] Instance plan_lane_pushes m : Pushes (plan_lane m).
Proof. solve_pushes. Qed.
#[export] Instance plan_removed_lane_pushes m : Pushes (plan_removed_lane m).
Proof. solve_pushes. Qed.
#[export] Instance check_incoming_opaque_pushes m : Pushes (check_incoming_opaque m).
Proof. solve_pushes. Qed.
#[export] Instance check_removed_opaque_pushes m : Pushes (check_removed_opaque m).
Proof. solve_pushes. Qed.

Section loops.
Context {E : Type} (f : MigrationAcc → E → MigrationAcc) `{Pushes E f}.
Implicit Types l : list E.

Lemma foldl_steps a l :
  acc_steps (foldl f a l) = acc_steps a ++ (l ≫= λ e, acc_steps (f acc_empty e)).
Proof.
  revert a. induction l as [|e l IH]; intros a; cbn; [by rewrite app_nil_r|].
  by rewrite IH, (appends_steps _ _ _ (pushes a e)), <- app_assoc.
Qed.

Lemma foldl_warnings a l :
  acc_warnings (foldl f a l) = acc_warnings a ++ (l ≫= λ e, acc_warnings (f acc_empty e)).
Proof.
  revert a. induction l as [|e l IH]; intros a; cbn; [by rewrite app_nil_r|].
  by rewrite IH, (appends_warnings _ _ _ (pushes a e)), <- app_assoc.
Qed.

Lemma foldl_rejections a l :
  acc_rejections (foldl f a l) = acc_rejections a ++ (l ≫= λ e, acc_rejections (f acc_empty e)).
Proof.
  revert a. induction l as [|e l IH]; intros a; cbn; [by rewrite app_nil_r|].
  by rewrite IH, (appends_rejections _ _ _ (pushes a e)), <- app_assoc.
Qed.
End loops.

Lemma bind_nil {A B} (f : A → list B) (l : list A) : (∀ x, f x = []) → l ≫= f = [].
Proof. intros Hf. induction l as [|x l IH]; [done|]. cbn. by rewrite Hf, IH. Qed.

(** The steps of a comparison, by loop. *)
Lemma compare_layouts_steps active incoming la li :
  acc_steps (compare_layouts active incoming la li acc_empty) =
  (scalar_map incoming ≫= λ e, acc_steps (plan_scalar (scalar_map active) acc_empty e))
  ++ (scalar_map active ≫= λ e, acc_steps (plan_removed_scalar (scalar_map incoming) acc_empty e))
  ++ (li ≫= λ e, acc_steps (plan_lane la acc_empty e))
  ++ (la ≫= λ e, acc_steps (plan_removed_lane li acc_empty e)).
Proof.
  unfold compare_layouts. rewrite !foldl_steps by apply _.
  rewrite !(bind_nil (λ e, acc_steps (check_incoming_collection _ acc_empty e))),
    !(bind_nil (λ e, acc_steps (check_removed_collection _ acc_empty e))),
    !(bind_nil (λ e, acc_steps (check_incoming_opaque _ acc_empty e))),
    !(bind_nil (λ e, acc_steps (check_removed_opaque _ acc_empty e))).
  - cbn. by rewrite !app_nil_r, <- !app_assoc.
  - intros []. cbn. by repeat case_match.
  - intros []. cbn. by repeat case_match.
  - intros []. cbn. by repeat case_match.
  - intros []. cbn. by repeat case_match.
Qed.

Lemma compare_layouts_warnings active incoming la li :
  acc_warnings (compare_layouts active incoming la li acc_empty) =
  (scalar_map active ≫= λ e, acc_warnings (plan_removed_scalar (scalar_map incoming) acc_empty e))
  ++ (li ≫= λ e, acc_warnings (plan_lane la acc_empty e))
  ++ (la ≫= λ e, acc_warnings (plan_removed_lane li acc_empty e)).
Proof.
  unfold compare_layouts. rewrite !foldl_warnings by apply _.
  rewrite !(bind_nil (λ e, acc_warnings (check_incoming_collection _ acc_empty e))),
    !(bind_nil (λ e, acc_warnings (check_removed_collection _ acc_empty e))),
    !(bind_nil (λ e, acc_warnings (plan_scalar _ acc_empty e))),
    !(bind_nil (λ e, acc_warnings (check_incoming_opaque _ acc_empty e))),
    !(bind_nil (λ e, acc_warnings (check_removed_opaque _ acc_empty e))).
  1: cbn; by rewrite !app_nil_r, <- !app_assoc.
  all: intros [? ?]; cbn; by repeat case_match.
Qed.

Lemma compare_layouts_rejections active incoming la li :
  acc_rejections (compare_layouts active incoming la li acc_empty) =
  (collection_map incoming ≫= λ e,
     acc_rejections (check_incoming_collection (collection_map active) acc_empty e))
  ++ (collection_map active ≫= λ e,
        acc_rejections (check_removed_collection (collection_map incoming) acc_empty e))
  ++ (scalar_map incoming ≫= λ e, acc_rejections (plan_scalar (scalar_map active) acc_empty e))
  ++ (li ≫= λ e, acc_rejections (plan_lane la acc_empty e))
  ++ (opaque_map incoming ≫= λ e,
        acc_rejections (check_incoming_opaque (opaque_map active) acc_empty e))
  ++ (opaque_map active ≫= λ e,
        acc_rejections (check_removed_opaque (opaque_map incoming) acc_empty e)).
Proof.
  unfold compare_layouts. rewrite !foldl_rejections by apply _.
  rewrite !(bind_nil (λ e, acc_rejections (plan_removed_scalar _ acc_empty e))),
    !(bind_nil (λ e, acc_rejections (plan_removed_lane _ acc_empty e))).
  1: cbn; by rewrite !app_nil_r, <- !app_assoc.
  all: intros [? ?]; cbn; by repeat case_match.
Qed.

(** ** Lookups in a walked map *)

Section walks.
Context `{OrdKey K} {V B : Type}.
Implicit Types (m : list (K * V)) (g : K * V → list B).

Lemma bind_absent g m : (∀ e, e ∈ m → g e = []) → m ≫= g = [].
Proof.
  induction m as [|e m IH]; intros Hg; [done|]. cbn.
  rewrite Hg, IH; [done| |left]. intros e' He'. apply Hg. by right.
Qed.

(** Only one entry contributes. *)
Lemma bind_single g m k v :
  sorted_map m → map_get k m = Some v → (∀ k' v', k' ≠ k → g (k', v') = []) → m ≫= g = g (k, v).
Proof.
  intros Hm Hk%map_get_elem Hg; [|done].
  apply sorted_keys_NoDup in Hm. apply list_elem_of_split in Hk as (m1 & m2 & ->).
  rewrite fmap_app, fmap_cons in Hm. apply NoDup_app in Hm as (_ & Hm1 & Hm2).
  apply NoDup_cons in Hm2 as [Hm2 _]. rewrite bind_app, bind_cons.
  rewrite (bind_absent g m1), (bind_absent g m2), app_nil_r; [done|..].
  - intros [k' v'] Hin. apply Hg. intros ->. apply Hm2.
    by apply (list_elem_of_fmap_2' fst m2 (k, v')).
  - intros [k' v'] Hin. apply Hg. intros ->. apply (Hm1 k); [|by left].
    by apply (list_elem_of_fmap_2' fst m1 (k, v')).
Qed.

Lemma elem_of_walk g m x :
  sorted_map m → x ∈ m ≫= g ↔ ∃ k v, map_get k m = Some v ∧ x ∈ g (k, v).
Proof.
  intros Hm. rewrite list_elem_of_bind. split.
  - intros ([k v] & Hx & Hin). exists k, v. by rewrite map_get_elem.
  - intros (k & v & Hk & Hx). exists (k, v). by rewrite <- map_get_elem.
Qed.
End walks.

Lemma filter_bind {A B} (P : B → Prop) `{∀ x, Decision (P x)} (f : A → list B) (l : list A) :
  filter P (l ≫= f) = l ≫= λ x, filter P (f x).
Proof. induction l as [|x l IH]; [done|]. cbn. by rewrite filter_app, IH. Qed.

(** ** The plan, inverted *)

Lemma lane_loop_sorted c n fs m m' : lane_loop c n fs m = Ok m' → sorted_map m → sorted_map m'.
Proof.
  revert m. induction fs as [|f fs IH]; intros m; cbn; [by intros [= ->]|].
  destruct (ok_or _ _) as [n'|]; [|done]. cbn. intros ? ?. eapply IH; [done|].
  by apply map_insert_sorted.
Qed.

Lemma collection_loop_sorted cs m m' :
  collection_loop cs m = Ok m' → sorted_map m → sorted_map m'.
Proof.
  revert m. induction cs as [|c cs IH]; intros m; cbn; [by intros [= ->]|].
  destruct (ok_or _ _) as [n|]; [|done]. cbn.
  destruct (lane_loop _ _ _ m) as [m1|] eqn:E; [|done]. cbn. intros ? ?. eapply IH; [done|].
  by eapply lane_loop_sorted.
Qed.

Lemma collection_field_layouts_sorted layout m :
  collection_field_layouts layout = Ok m → sorted_map m.
Proof. intros E. eapply collection_loop_sorted; [exact E|constructor]. Qed.

Lemma scalar_map_sorted l : sorted_map (scalar_map l).
Proof. apply map_of_list_sorted. Qed.
Lemma collection_map_sorted l : sorted_map (collection_map l).
Proof. apply map_of_list_sorted. Qed.
Lemma opaque_map_sorted l : sorted_map (opaque_map l).
Proof. apply map_of_list_sorted. Qed.

#[export] Hint Resolve collection_field_layouts_sorted scalar_map_sorted collection_map_sorted
  opaque_map_sorted : stasis.

(** The comparison a plan is made of. *)
Definition comparison (changed : bool) (active incoming : StateLayout) (la li : LaneMap)
    : MigrationAcc :=
  if changed then compare_layouts active incoming la li acc_empty else acc_empty.

Record plan_shape `{LayoutCodec} (active incoming : StateLayout) (abi : option str)
    (p : StateMigrationPreview) (la li : LaneMap) : Prop := {
  shape_from : state_layout_version active = Ok (from_layout_version p);
  shape_to : state_layout_version incoming = Ok (to_layout_version p);
  shape_changed :
    layout_changed p = negb (bool_decide (from_layout_version p = to_layout_version p));
  shape_active : collection_field_layouts active = Ok la;
  shape_incoming : collection_field_layouts incoming = Ok li;
  shape_steps :
    migration_steps p = acc_steps (comparison (layout_changed p) active incoming la li);
  shape_warnings :
    warnings p = acc_warnings (comparison (layout_changed p) active incoming la li);
  shape_compatible :
    state_layout_compatible p =
    bool_decide (acc_rejections (comparison (layout_changed p) active incoming la li)
                 ++ option_list abi = []);
  shape_rejection :
    rejection p =
    if state_layout_compatible p then None
    else Some (rejection_text (acc_rejections (comparison (layout_changed p) active incoming la li)
                               ++ option_list abi));
  shape_scope :
    migration_scope p =
    scope_of active incoming la li (acc_roots (comparison (layout_changed p) active incoming la li));
}.

Lemma plan_inv `{LayoutCodec} active incoming changed ex abi p :
  plan_state_migration active incoming changed ex abi = Ok p →
  ∃ la li, plan_shape active incoming abi p la li.
Proof.
  unfold plan_state_migration.
  destruct (state_layout_version active) as [fv|] eqn:Ef; [|done].
  destruct (state_layout_version incoming) as [tv|] eqn:Et; [|done]. cbn [result_bind].
  destruct (collection_field_layouts active) as [la|] eqn:Ea; [|done].
  destruct (collection_field_layouts incoming) as [li|] eqn:Ei; [|done]. cbn [result_bind].
  intros <-%Ok_inj. exists la, li.
  split; cbn [from_layout_version to_layout_version layout_changed migration_steps warnings
    state_layout_compatible rejection migration_scope]; try done;
    unfold comparison; destruct abi; cbn [option_list]; rewrite ?app_nil_r; done.
Qed.

(** ** Where a value of the new state comes from *)

(** The step supplies element [i] of a scalar or lane. *)
Definition supplies (path : str) (field : option str) (i : Z) (s : StateMigrationStep) : Prop :=
  step_kind s ≠ Remove ∧ step_path s = path ∧ step_field s = field
  ∧ (step_start_index s ≤ i < step_start_index s + step_elements s)%Z.

#[export] Instance supplies_dec path field i s : Decision (supplies path field i s).
Proof. unfold supplies. apply _. Defined.

(** The value is carried over: the old program has it with the same type. *)
Definition carries_scalar (active : StateLayout) (path : str) (ty : str * str) : bool :=
  bool_decide (map_get path (scalar_map active) = Some ty).

Definition same_lane_type (a b : CollectionFieldLayout) : bool :=
  bool_decide (lane_type_name a = lane_type_name b)
  && bool_decide (lane_storage_type_name a = lane_storage_type_name b).

Definition carries_element (la : LaneMap) (path field : str) (lane : CollectionFieldLayout)
    (i : Z) : bool :=
  match map_get (path, field) la with
  | Some a => same_lane_type a lane && (i <? lane_capacity a)%Z
  | None => false
  end.

Section ranges.
#[local] Definition lanes_in_range (m : LaneMap) : Prop :=
  Forall (λ e, in_u 32 (lane_capacity e.2)) m.

Lemma map_insert_Forall `{OrdKey K} {V} (P : K * V → Prop) k v m :
  P (k, v) → Forall P m → Forall P (map_insert k v m).
Proof.
  intros Hk. induction 1 as [|[k' v'] m Hk' Hm IH]; cbn; [by apply Forall_cons_2|].
  case_match; by repeat apply Forall_cons_2.
Qed.

Lemma lane_loop_range c n fs m m' :
  lane_loop c n fs m = Ok m' → lanes_in_range m → lanes_in_range m'.
Proof.
  revert m. induction fs as [|f fs IH]; intros m; cbn; [by intros [= ->]|].
  destruct (checked_u 32 _) as [k|] eqn:Ek; [|done]. cbn. intros Hl Hm. eapply IH; [exact Hl|].
  apply map_insert_Forall; [|done]. by apply checked_u_Some in Ek as [? ->].
Qed.

Lemma collection_loop_range cs m m' :
  collection_loop cs m = Ok m' → lanes_in_range m → lanes_in_range m'.
Proof.
  revert m. induction cs as [|c cs IH]; intros m; cbn; [by intros [= ->]|].
  destruct (ok_or _ _) as [n|]; [|done]. cbn.
  destruct (lane_loop _ _ _ m) as [m1|] eqn:E; [|done]. cbn. intros ? ?.
  eapply IH; [done|]. by eapply lane_loop_range.
Qed.

(** Lane capacities are u32. *)
Lemma lane_range layout m path field lane :
  collection_field_layouts layout = Ok m → map_get (path, field) m = Some lane →
  in_u 32 (lane_capacity lane).
Proof.
  intros E Hin%map_get_elem; [|eauto with stasis].
  assert (lanes_in_range m) as Hm by (eapply collection_loop_range; [exact E|constructor]).
  unfold lanes_in_range in Hm. rewrite Forall_forall in Hm. by apply Hm in Hin.
Qed.
End ranges.

(** The sources one loop contributes. *)
Lemma scalar_walk_sources active incoming path ty st :
  map_get path (scalar_map incoming) = Some (ty, st) → is_max_length path = false →
  acc_rejections (plan_scalar (scalar_map active) acc_empty (path, (ty, st))) = [] →
  filter (supplies path None 0)
    (scalar_map incoming ≫= λ e, acc_steps (plan_scalar (scalar_map active) acc_empty e)) =
  [scalar_step (if carries_scalar active path (ty, st) then Copy else Initialize) path st].
Proof.
  intros Hp Hml Hr. rewrite filter_bind.
  rewrite (bind_single _ _ path (ty, st)); [|auto with stasis|done|].
  - revert Hr. unfold carries_scalar. cbn. rewrite Hml.
    destruct (map_get path (scalar_map active)) as [[ty' st']|] eqn:Ea; cbn.
    + destruct (bool_decide (ty' = ty) && bool_decide (st' = st)) eqn:E; cbn; [|done].
      to_props. subst. intros _. rewrite bool_decide_eq_true_2 by done.
      by rewrite decide_True by (by repeat split).
    + intros _. rewrite bool_decide_eq_false_2 by done.
      by rewrite decide_True by (by repeat split).
  - intros k' [ty' st'] Hne. cbn. repeat case_match; cbn; try done;
      rewrite decide_False; try done; by intros (_ & ? & _).
Qed.

(** Close a walk whose steps do not supply the value: every case contradicts
    [supplies]. *)
Ltac no_supply :=
  rewrite filter_bind; apply bind_nil;
  intros e; repeat match goal with x : _ * _ |- _ => destruct x end;
  cbn; repeat (case_match; cbn); try done; unfold supplies in *; naive_solver.

(** Steps of lanes supply no scalar, steps of scalars no lane. *)
Lemma lane_walk_no_scalar la li path i :
  filter (supplies path None i) (li ≫= λ e, acc_steps (plan_lane la acc_empty e)) = [].
Proof. no_supply. Qed.

Lemma scalar_walk_no_lane (ma mi : ScalarMap) path field i :
  filter (supplies path (Some field) i) (mi ≫= λ e, acc_steps (plan_scalar ma acc_empty e)) = [].
Proof. no_supply. Qed.

Lemma removed_scalars_supply_nothing (ma mi : ScalarMap) path field i :
  filter (supplies path field i) (ma ≫= λ e, acc_steps (plan_removed_scalar mi acc_empty e)) = [].
Proof. no_supply. Qed.

Lemma removed_lanes_supply_nothing la li path field i :
  filter (supplies path field i) (la ≫= λ e, acc_steps (plan_removed_lane li acc_empty e)) = [].
Proof. no_supply. Qed.

(** The one step of a lane that supplies element [i]. *)
Definition lane_source (la : LaneMap) (path field : str) (lane : CollectionFieldLayout) (i : Z)
    : StateMigrationStep :=
  let storage := lane_storage_type_name lane in
  let cap := lane_capacity lane in
  match map_get (path, field) la with
  | Some a =>
      if (i <? lane_capacity a)%Z
      then collection_step Copy path field storage 0 (Z.min (lane_capacity a) cap) (lane_capacity a) cap
      else collection_step Initialize path field storage (lane_capacity a) (cap - lane_capacity a)
             (lane_capacity a) cap
  | None => collection_step Initialize path field storage 0 cap 0 cap
  end.

(** A step that is not a removal supplies exactly its range. *)
Lemma filter_collection_step k path field ty start n from to i l :
  k ≠ Remove →
  filter (supplies path (Some field) i) (collection_step k path field ty start n from to :: l) =
  if bool_decide (start ≤ i < start + n)%Z
  then collection_step k path field ty start n from to :: filter (supplies path (Some field) i) l
  else filter (supplies path (Some field) i) l.
Proof.
  intros Hk. case_bool_decide as Hi.
  - by rewrite filter_cons_True.
  - rewrite filter_cons_False; [done|]. by intros (_ & _ & _ & ?).
Qed.

Lemma filter_none {A} (P : A → Prop) `{∀ x, Decision (P x)} (l : list A) :
  (∀ x, x ∈ l → ¬ P x) → filter P l = [].
Proof.
  induction l as [|x l IH]; intros Hl; [done|]. rewrite filter_cons_False by (apply Hl; by left).
  apply IH. intros y Hy. apply Hl. by right.
Qed.

Lemma lane_steps_at la p f lane s :
  s ∈ acc_steps (plan_lane la acc_empty ((p, f), lane)) → step_path s = p ∧ step_field s = Some f.
Proof.
  cbn. repeat (case_match; cbn); intros Hs; repeat (apply elem_of_cons in Hs as [->|Hs]);
    by apply not_elem_of_nil in Hs || done.
Qed.

Lemma lane_walk_sources la li path field lane i :
  sorted_map li → map_get (path, field) li = Some lane → (0 ≤ i < lane_capacity lane)%Z →
  acc_rejections (plan_lane la acc_empty ((path, field), lane)) = [] →
  filter (supplies path (Some field) i) (li ≫= λ e, acc_steps (plan_lane la acc_empty e)) =
  [lane_source la path field lane i].
Proof.
  intros Hs Hp Hi Hr. rewrite filter_bind.
  rewrite (bind_single _ _ (path, field) lane); [|done..|].
  - revert Hr. unfold lane_source, plan_lane.
    destruct (map_get (path, field) la) as [a|] eqn:Ea.
    + destruct (bool_decide _ && bool_decide _) eqn:E; [|done]. intros _. clear E. cbv zeta.
      destruct (Z.ltb_spec (lane_capacity lane) (lane_capacity a)),
        (Z.ltb_spec (lane_capacity a) (lane_capacity lane)),
        (Z.ltb_spec i (lane_capacity a)); try lia; cbn [app acc_steps push_step push_warning affect
          acc_empty]; rewrite !filter_collection_step by done;
        repeat case_bool_decide; done || lia.
    + intros _. cbn [app acc_steps push_step affect acc_empty].
      rewrite filter_collection_step by done. case_bool_decide; done || lia.
  - intros [p f] v Hne. apply filter_none. intros s Hs' (_ & Hsp & Hsf & _).
    apply lane_steps_at in Hs' as [<- Hf]. rewrite Hf in Hsf. congruence.
Qed.

Lemma lane_source_kind la path field lane i :
  acc_rejections (plan_lane la acc_empty ((path, field), lane)) = [] →
  step_kind (lane_source la path field lane i) =
    (if carries_element la path field lane i then Copy else Initialize)
  ∧ step_type_name (lane_source la path field lane i) = lane_storage_type_name lane.
Proof.
  unfold plan_lane, lane_source, carries_element, same_lane_type.
  destruct (map_get (path, field) la) as [a|]; [|done].
  destruct (bool_decide _ && bool_decide _); [|done]. intros _. cbn [andb].
  by destruct (i <? lane_capacity a)%Z.
Qed.

Lemma nil_of_app_rejections {A B} (f : A → list B) (l : list A) x :
  l ≫= f = [] → x ∈ l → f x = [].
Proof.
  intros Hl Hx. destruct (f x) as [|y ys] eqn:E; [done|].
  assert (y ∈ l ≫= f) as Hy; [|by rewrite Hl in Hy; apply not_elem_of_nil in Hy].
  apply list_elem_of_bind. exists x. rewrite E. split; [by left|done].
Qed.

(** A compatible plan has no rejection in any loop. *)
Lemma compatible_no_rejections `{LayoutCodec} active incoming abi p la li :
  plan_shape active incoming abi p la li → layout_changed p = true →
  state_layout_compatible p = true →
  acc_rejections (compare_layouts active incoming la li acc_empty) = [].
Proof.
  intros Hp Hc Hok. rewrite (shape_compatible _ _ _ _ _ _ Hp) in Hok.
  apply bool_decide_eq_true, app_eq_nil in Hok as [Hok _]. by rewrite Hc in Hok.
Qed.

Lemma no_scalar_rejections active incoming la li path ty st :
  acc_rejections (compare_layouts active incoming la li acc_empty) = [] →
  map_get path (scalar_map incoming) = Some (ty, st) →
  acc_rejections (plan_scalar (scalar_map active) acc_empty (path, (ty, st))) = [].
Proof.
  rewrite compare_layouts_rejections. intros (_ & (_ & (Hr & _)%app_eq_nil)%app_eq_nil)%app_eq_nil Hp.
  apply (nil_of_app_rejections _ _ _ Hr). apply map_get_elem; auto with stasis.
Qed.

Lemma no_lane_rejections active incoming la li path field lane :
  acc_rejections (compare_layouts active incoming la li acc_empty) = [] → sorted_map li →
  map_get (path, field) li = Some lane →
  acc_rejections (plan_lane la acc_empty ((path, field), lane)) = [].
Proof.
  rewrite compare_layouts_rejections.
  intros (_ & (_ & (_ & (Hr & _)%app_eq_nil)%app_eq_nil)%app_eq_nil)%app_eq_nil Hs Hp.
  apply (nil_of_app_rejections _ _ _ Hr). by apply map_get_elem.
Qed.

(** A copied scalar exists in the old program; a copied range lies in its lane. *)
Definition copy_readable (active : StateLayout) (la : LaneMap) (s : StateMigrationStep) : Prop :=
  match step_field s with
  | None => ∃ ty, map_get (step_path s) (scalar_map active) = Some (ty, step_type_name s)
  | Some field =>
      ∃ lane, map_get (step_path s, field) la = Some lane
              ∧ lane_storage_type_name lane = step_type_name s
              ∧ (0 ≤ step_start_index s)%Z
              ∧ (step_start_index s + step_elements s ≤ lane_capacity lane)%Z
  end.

Lemma copies_readable active incoming la li s :
  s ∈ acc_steps (compare_layouts active incoming la li acc_empty) → step_kind s = Copy →
  copy_readable active la s.
Proof.
  rewrite compare_layouts_steps, !elem_of_app, !list_elem_of_bind.
  intros [([p [ty st]] & Hs & _)|[([p [ty st]] & Hs & _)|[([[p f] lane] & Hs & _)|([[p f] lane] & Hs & _)]]] Hk.
  - cbn in Hs. repeat (case_match; cbn in Hs); to_props; simplify_eq;
      try (by apply not_elem_of_nil in Hs); apply list_elem_of_singleton in Hs as ->; try done.
    cbn. eauto.
  - cbn in Hs. case_match; cbn in Hs; [by apply not_elem_of_nil in Hs|].
    by apply list_elem_of_singleton in Hs as ->.
  - cbn in Hs. destruct (map_get (p, f) la) as [a|] eqn:Ea; cbn in Hs.
    + destruct (bool_decide _ && bool_decide _) eqn:E; cbn in Hs;
        [|by apply not_elem_of_nil in Hs]. to_props.
      assert (s = collection_step Copy p f (lane_storage_type_name lane) 0
        (Z.min (lane_capacity a) (lane_capacity lane)) (lane_capacity a) (lane_capacity lane)) as ->.
      { repeat case_match; cbn in Hs; set_solver. }
      cbn. exists a. repeat split; done || lia.
    + by apply list_elem_of_singleton in Hs as ->.
  - cbn in Hs. case_match; cbn in Hs; [by apply not_elem_of_nil in Hs|].
    by apply list_elem_of_singleton in Hs as ->.
Qed.
