(* ===== verification/StateMigrationProps.v ===== *)
(** * State migration plans are complete, honest and refused for good reasons

    The properties of [plan_state_migration] (StateMigration.v), with a witness for
    each: a program whose state grows, shrinks, gains and loses values. *)

From stdpp Require Import pretty.
From S2P Require Import Prelude BTree Identity StateLayout StateMigration.
#[local] Set Warnings "-clear-no-such-hyp".

(** ** Sources *)


(** ** Losses *)

Definition copied (p : StateMigrationPreview) (path : str) (field : option str) (i : Z) : Prop :=
  ∃ s, s ∈ migration_steps p ∧ step_kind s = Copy ∧ supplies path field i s.

(** The only reasons for a warning. *)
Inductive loss (active incoming : StateLayout) (la li : LaneMap) : str → Prop :=
| loss_scalar path ty :
    map_get path (scalar_map active) = Some ty → map_get path (scalar_map incoming) = None →
    loss active incoming la li (removed_scalar_warning path)
| loss_lane path field lane :
    map_get (path, field) la = Some lane → map_get (path, field) li = None →
    loss active incoming la li (removed_lane_warning path field)
| loss_shrink path field lane lane' :
    map_get (path, field) la = Some lane → map_get (path, field) li = Some lane' →
    (lane_capacity lane' < lane_capacity lane)%Z →
    loss active incoming la li
      (shrink_warning path field (lane_capacity lane) (lane_capacity lane')).

Section losses.
Context (active incoming : StateLayout) (la li : LaneMap).
Hypothesis Hla : sorted_map la.
Hypothesis Hli : sorted_map li.
Let acc := compare_layouts active incoming la li acc_empty.

Lemma warnings_are_losses w : w ∈ acc_warnings acc → loss active incoming la li w.
Proof.
  unfold acc. rewrite compare_layouts_warnings, !elem_of_app.
  rewrite !elem_of_walk by auto with stasis.
  intros [(path & [ty st] & Hp & Hw)|[([path f] & lane & Hp & Hw)|([path f] & lane & Hp & Hw)]].
  - cbn in Hw. destruct (is_max_length path); cbn in Hw; [by apply not_elem_of_nil in Hw|].
    case_bool_decide as Hi; cbn in Hw; [by apply not_elem_of_nil in Hw|].
    apply list_elem_of_singleton in Hw as ->. apply eq_None_not_Some in Hi. by econstructor.
  - cbn in Hw. destruct (map_get (path, f) la) as [a|] eqn:Ea; cbn in Hw;
      [|by apply not_elem_of_nil in Hw].
    destruct (bool_decide _ && bool_decide _); cbn in Hw; [|by apply not_elem_of_nil in Hw].
    destruct (Z.ltb_spec (lane_capacity lane) (lane_capacity a)); cbn in Hw.
    + apply list_elem_of_singleton in Hw as ->. by econstructor.
    + case_match; cbn in Hw; by apply not_elem_of_nil in Hw.
  - cbn in Hw. case_bool_decide as Hi; cbn in Hw; [by apply not_elem_of_nil in Hw|].
    apply list_elem_of_singleton in Hw as ->. apply eq_None_not_Some in Hi. by econstructor.
Qed.

Lemma removed_scalar_warned path ty :
  map_get path (scalar_map active) = Some ty → is_max_length path = false →
  map_get path (scalar_map incoming) = None → removed_scalar_warning path ∈ acc_warnings acc.
Proof.
  intros Ha Hml Hi. unfold acc.
  rewrite compare_layouts_warnings, !elem_of_app, !elem_of_walk by auto with stasis.
  left. destruct ty as [ty st]. exists path, (ty, st). split; [done|]. cbn. rewrite Hml, Hi.
  cbn. by left.
Qed.

Lemma removed_lane_warned path field lane :
  map_get (path, field) la = Some lane → map_get (path, field) li = None →
  removed_lane_warning path field ∈ acc_warnings acc.
Proof.
  intros Ha Hi. unfold acc.
  rewrite compare_layouts_warnings, !elem_of_app, !elem_of_walk by auto with stasis.
  right. right. exists (path, field), lane. split; [done|]. cbn. rewrite Hi. cbn. by left.
Qed.

Lemma shrunk_lane_warned path field lane lane' :
  acc_rejections acc = [] → map_get (path, field) la = Some lane →
  map_get (path, field) li = Some lane' → (lane_capacity lane' < lane_capacity lane)%Z →
  shrink_warning path field (lane_capacity lane) (lane_capacity lane') ∈ acc_warnings acc.
Proof.
  intros Hr Ha Hi Hlt. unfold acc.
  rewrite compare_layouts_warnings, !elem_of_app, !elem_of_walk by auto with stasis.
  right. left. exists (path, field), lane'. split; [done|].
  pose proof (no_lane_rejections _ _ _ _ _ _ _ Hr Hli Hi) as Hrl. revert Hrl. cbn. rewrite Ha.
  destruct (bool_decide _ && bool_decide _); cbn; [|done]. intros _.
  rewrite (proj2 (Z.ltb_lt _ _) Hlt). cbn. by left.
Qed.

(** What is kept is copied. *)
Lemma kept_scalar_copied path ty :
  acc_rejections acc = [] → map_get path (scalar_map active) = Some ty →
  is_max_length path = false → is_Some (map_get path (scalar_map incoming)) →
  ∃ s, s ∈ acc_steps acc ∧ step_kind s = Copy ∧ supplies path None 0 s.
Proof.
  intros Hr Ha Hml [[ty' st'] Hi]. exists (scalar_step Copy path st').
  pose proof (no_scalar_rejections _ _ _ _ _ _ _ Hr Hi) as Hrs.
  split; [|by repeat split].
  unfold acc. rewrite compare_layouts_steps, !elem_of_app, !elem_of_walk by auto with stasis.
  left. exists path, (ty', st'). split; [done|]. revert Hrs. cbn. rewrite Hml, Ha. destruct ty.
  destruct (bool_decide _ && bool_decide _); cbn; [|done]. intros _. by left.
Qed.

Lemma kept_element_copied path field lane lane' i :
  acc_rejections acc = [] → map_get (path, field) la = Some lane →
  map_get (path, field) li = Some lane' →
  (0 ≤ i < Z.min (lane_capacity lane) (lane_capacity lane'))%Z →
  ∃ s, s ∈ acc_steps acc ∧ step_kind s = Copy ∧ supplies path (Some field) i s.
Proof.
  intros Hr Ha Hi Hrange.
  exists (collection_step Copy path field (lane_storage_type_name lane') 0
            (Z.min (lane_capacity lane) (lane_capacity lane')) (lane_capacity lane)
            (lane_capacity lane')).
  pose proof (no_lane_rejections _ _ _ _ _ _ _ Hr Hli Hi) as Hrl.
  split; [|split; [done|unfold supplies; cbn; split_and!; done || lia]].
  unfold acc. rewrite compare_layouts_steps, !elem_of_app, !elem_of_walk by auto with stasis.
  right. right. left. exists (path, field), lane'. split; [done|]. revert Hrl. cbn. rewrite Ha.
  destruct (bool_decide _ && bool_decide _); cbn; [|done]. intros _.
  repeat (case_match; cbn); by left.
Qed.
End losses.

Lemma no_opaque_change active incoming la li path :
  acc_rejections (compare_layouts active incoming la li acc_empty) = [] →
  map_get path (opaque_map active) = map_get path (opaque_map incoming).
Proof.
  rewrite compare_layouts_rejections.
  intros (_ & (_ & (_ & (_ & (Hi & Ha)%app_eq_nil)%app_eq_nil)%app_eq_nil)%app_eq_nil)%app_eq_nil.
  destruct (map_get path (opaque_map incoming)) as [ty|] eqn:Ei.
  - pose proof (nil_of_app_rejections _ _ (path, ty) Hi) as Hr.
    specialize (Hr (proj1 (map_get_elem _ _ _ (opaque_map_sorted incoming)) Ei)). revert Hr. cbn.
    destruct (map_get path (opaque_map active)) as [ty'|]; cbn; [|done].
    case_bool_decide; [by subst|done].
  - destruct (map_get path (opaque_map active)) as [ty|] eqn:Ea; [|done].
    pose proof (nil_of_app_rejections _ _ (path, ty) Ha) as Hr.
    specialize (Hr (proj1 (map_get_elem _ _ _ (opaque_map_sorted active)) Ea)). revert Hr. cbn.
    by rewrite Ei.
Qed.


(** ** Rejections *)

(** The reasons the layouts themselves give, with their messages. *)
Inductive incompatibility (active incoming : StateLayout) (la li : LaneMap) : str → Prop :=
| shape_not_migratable path c :
    map_get path (collection_map incoming) = Some c →
    (cl_fully_migratable c = false
     ∨ ∃ c', map_get path (collection_map active) = Some c' ∧ cl_fully_migratable c' = false) →
    incompatibility active incoming la li
      (non_migratable_collection path c (map_get path (collection_map active)))
| removed_not_migratable path c :
    map_get path (collection_map active) = Some c → cl_fully_migratable c = false →
    map_get path (collection_map incoming) = None →
    incompatibility active incoming la li (removed_collection path c)
| scalar_retyped path ty st ty' st' :
    map_get path (scalar_map active) = Some (ty', st') →
    map_get path (scalar_map incoming) = Some (ty, st) →
    is_max_length path = false → (ty', st') ≠ (ty, st) →
    incompatibility active incoming la li (scalar_type_changed path ty' ty)
| lane_retyped path field a b :
    map_get (path, field) la = Some a → map_get (path, field) li = Some b →
    same_lane_type a b = false →
    incompatibility active incoming la li
      (lane_type_changed path field (lane_type_name a) (lane_type_name b))
| opaque_retyped path ty' ty :
    map_get path (opaque_map active) = Some ty' → map_get path (opaque_map incoming) = Some ty →
    ty' ≠ ty → incompatibility active incoming la li (opaque_type_changed path ty' ty)
| opaque_added path ty :
    map_get path (opaque_map active) = None → map_get path (opaque_map incoming) = Some ty →
    incompatibility active incoming la li (new_opaque path ty)
| opaque_removed path ty' :
    map_get path (opaque_map active) = Some ty' → map_get path (opaque_map incoming) = None →
    incompatibility active incoming la li (removed_opaque path ty').

Section rejections.
Context (active incoming : StateLayout) (la li : LaneMap).
Hypothesis Hla : sorted_map la.
Hypothesis Hli : sorted_map li.

(** One loop at a time: the messages of an entry. *)
Lemma incoming_collection_messages path c m :
  m ∈ acc_rejections (check_incoming_collection (collection_map active) acc_empty (path, c)) ↔
  m = non_migratable_collection path c (map_get path (collection_map active))
  ∧ (cl_fully_migratable c = false
     ∨ ∃ c', map_get path (collection_map active) = Some c' ∧ cl_fully_migratable c' = false).
Proof.
  cbn. destruct (cl_fully_migratable c), (map_get path (collection_map active)) as [c'|]; cbn;
    [destruct (cl_fully_migratable c') eqn:E; cbn|..];
    rewrite ?elem_of_nil, ?list_elem_of_singleton; try naive_solver.
  split; [done|]. intros (_ & [?|(? & [= <-] & ?)]); congruence.
Qed.

Lemma removed_collection_messages path c m :
  m ∈ acc_rejections (check_removed_collection (collection_map incoming) acc_empty (path, c)) ↔
  m = removed_collection path c ∧ cl_fully_migratable c = false
  ∧ map_get path (collection_map incoming) = None.
Proof.
  cbn. destruct (cl_fully_migratable c), (map_get path (collection_map incoming)) as [c'|]; cbn;
    rewrite ?elem_of_nil, ?list_elem_of_singleton; naive_solver.
Qed.

Lemma scalar_messages path ty st m :
  m ∈ acc_rejections (plan_scalar (scalar_map active) acc_empty (path, (ty, st))) ↔
  is_max_length path = false ∧ ∃ ty' st', map_get path (scalar_map active) = Some (ty', st')
    ∧ (ty', st') ≠ (ty, st) ∧ m = scalar_type_changed path ty' ty.
Proof.
  cbn. destruct (is_max_length path); cbn; [rewrite elem_of_nil; naive_solver|].
  destruct (map_get path (scalar_map active)) as [[ty' st']|]; cbn;
    [|rewrite elem_of_nil; naive_solver].
  destruct (bool_decide (ty' = ty) && bool_decide (st' = st)) eqn:E; cbn.
  - to_props. rewrite elem_of_nil. naive_solver.
  - rewrite list_elem_of_singleton. rewrite andb_false_iff, !bool_decide_eq_false in E. naive_solver.
Qed.

Lemma lane_messages path field b m :
  m ∈ acc_rejections (plan_lane la acc_empty ((path, field), b)) ↔
  ∃ a, map_get (path, field) la = Some a ∧ same_lane_type a b = false
       ∧ m = lane_type_changed path field (lane_type_name a) (lane_type_name b).
Proof.
  cbn. unfold same_lane_type. destruct (map_get (path, field) la) as [a|]; cbn;
    [|rewrite elem_of_nil; naive_solver].
  destruct (bool_decide _ && bool_decide _) eqn:E; cbn.
  - repeat case_match; cbn; rewrite elem_of_nil; naive_solver congruence.
  - rewrite list_elem_of_singleton. naive_solver.
Qed.

Lemma incoming_opaque_messages path ty m :
  m ∈ acc_rejections (check_incoming_opaque (opaque_map active) acc_empty (path, ty)) ↔
  match map_get path (opaque_map active) with
  | Some ty' => ty' ≠ ty ∧ m = opaque_type_changed path ty' ty
  | None => m = new_opaque path ty
  end.
Proof.
  cbn. destruct (map_get path (opaque_map active)) as [ty'|]; cbn; [case_bool_decide; cbn|];
    rewrite ?elem_of_nil, ?list_elem_of_singleton; naive_solver.
Qed.

Lemma removed_opaque_messages path ty m :
  m ∈ acc_rejections (check_removed_opaque (opaque_map incoming) acc_empty (path, ty)) ↔
  m = removed_opaque path ty ∧ map_get path (opaque_map incoming) = None.
Proof.
  cbn. destruct (map_get path (opaque_map incoming)); cbn;
    rewrite ?elem_of_nil, ?list_elem_of_singleton; naive_solver.
Qed.
End rejections.

(** The messages of the comparison are exactly the incompatibilities. *)
Lemma rejections_are_incompatibilities active incoming la li m :
  sorted_map la → sorted_map li →
  m ∈ acc_rejections (compare_layouts active incoming la li acc_empty) ↔
  incompatibility active incoming la li m.
Proof.
  intros Hla Hli. rewrite compare_layouts_rejections, !elem_of_app.
  rewrite !elem_of_walk by auto with stasis. split.
  - intros [(path & c & Hp & Hm)|[(path & c & Hp & Hm)|[(path & [ty st] & Hp & Hm)
      |[([path f] & b & Hp & Hm)|[(path & ty & Hp & Hm)|(path & ty & Hp & Hm)]]]]].
    + apply incoming_collection_messages in Hm as [-> Hc]. by constructor.
    + apply removed_collection_messages in Hm as (-> & Hc & Hi). by constructor.
    + apply scalar_messages in Hm as (Hml & ty' & st' & Ha & Hne & ->).
      by apply (scalar_retyped _ _ _ _ path ty st ty' st').
    + apply lane_messages in Hm as (a & Ha & Hne & ->). by apply lane_retyped.
    + apply incoming_opaque_messages in Hm.
      destruct (map_get path (opaque_map active)) as [ty'|] eqn:Ea.
      * destruct Hm as [Hne ->]. by apply opaque_retyped.
      * subst. by apply opaque_added.
    + apply removed_opaque_messages in Hm as (-> & Hi). by constructor.
  - intros [path c Hi Hc|path c Ha Hc Hi|path ty st ty' st' Ha Hi Hml Hne|path f a b Ha Hb Hne
      |path ty' ty Ha Hi Hne|path ty Ha Hi|path ty' Ha Hi].
    + left. exists path, c. by rewrite incoming_collection_messages.
    + right. left. exists path, c. by rewrite removed_collection_messages.
    + do 2 right. left. exists path, (ty, st). rewrite scalar_messages. eauto 10.
    + do 3 right. left. exists (path, f), b. rewrite lane_messages. eauto 10.
    + do 4 right. left. exists path, ty. rewrite incoming_opaque_messages, Ha. done.
    + do 4 right. left. exists path, ty. rewrite incoming_opaque_messages, Ha. done.
    + do 5 right. exists path, ty'. by rewrite removed_opaque_messages.
Qed.

(** C40 A plan is refused exactly when the caller's ABI check refuses it or the layouts
    differ and are incompatible, and the text of the rejection lists exactly those
    reasons; layouts count as different exactly when their versions do, and then a
    plan for an unchanged layout has no step and no warning. *)
Theorem migration_rejections_exact `{LayoutCodec} active incoming changed ex abi p :
  plan_state_migration active incoming changed ex abi = Ok p →
  ∃ la li messages,
    collection_field_layouts active = Ok la ∧ collection_field_layouts incoming = Ok li
    ∧ (∀ m, m ∈ messages ↔
            abi = Some m ∨ (layout_changed p = true ∧ incompatibility active incoming la li m))
    ∧ (state_layout_compatible p = true ↔ messages = [])
    ∧ rejection p = (if state_layout_compatible p then None else Some (rejection_text messages))
    ∧ (layout_changed p = false ↔ state_layout_version active = state_layout_version incoming)
    ∧ (layout_changed p = false → migration_steps p = [] ∧ warnings p = []).
Proof.
  intros (la & li & [Hf Ht Hc Hla Hli Hst Hw Hok Hrej _])%plan_inv.
  exists la, li, (acc_rejections (comparison (layout_changed p) active incoming la li)
                  ++ option_list abi).
  split_and!; [done..| | |done| |].
  - intros m. rewrite elem_of_app. assert (m ∈ option_list abi ↔ abi = Some m) as ->.
    { destruct abi; cbn; rewrite ?elem_of_nil, ?list_elem_of_singleton; naive_solver. }
    destruct (layout_changed p); cbn [comparison].
    + rewrite rejections_are_incompatibilities by eauto with stasis. naive_solver.
    + cbn [acc_empty acc_rejections]. rewrite elem_of_nil. naive_solver.
  - rewrite Hok. by rewrite bool_decide_eq_true.
  - rewrite Hc, negb_false_iff, bool_decide_eq_true, Hf, Ht.
    split; [by intros ->|apply Ok_inj].
  - intros E. by rewrite Hst, Hw, E.
Qed.

(** ** Errors *)

(** A lane whose own size or whose collection's capacity is not a [u32]. *)
Definition lanes_fit (layout : StateLayout) : Prop :=
  ∀ c, c ∈ collections layout →
    in_u 32 (cl_capacity c)
    ∧ ∀ f, f ∈ cl_fields c → in_u 32 (default (cl_capacity c) (fl_element_count f)).

Lemma lane_loop_total c fs m :
  (0 ≤ cl_capacity c)%Z →
  is_ok (lane_loop c (cl_capacity c) fs m) = true ↔
  ∀ f, f ∈ fs → in_u 32 (default (cl_capacity c) (fl_element_count f)).
Proof.
  intros Hc. revert m. induction fs as [|f fs IH]; intros m; cbn.
  { split; [intros _ f Hf; by apply not_elem_of_nil in Hf|done]. }
  rewrite (own_element_count c f Hc). unfold checked_u. case_bool_decide as Hf; cbn.
  - rewrite IH. split; [intros Hfs f' [->|?]%elem_of_cons; auto|].
    intros Hfs f' ?. apply Hfs. by right.
  - split; [done|]. intros Hfs. exfalso. apply Hf, Hfs. by left.
Qed.

Lemma lanes_total layout :
  is_ok (collection_field_layouts layout) = true ↔ lanes_fit layout.
Proof.
  unfold collection_field_layouts, lanes_fit. generalize (@nil ((str * str) * CollectionFieldLayout)).
  induction (collections layout) as [|c cs IH]; intros m; cbn.
  { split; [intros _ c Hc; by apply not_elem_of_nil in Hc|done]. }
  unfold checked_u. case_bool_decide as Hc; cbn [ok_or result_bind].
  - assert (0 ≤ cl_capacity c)%Z as Hc0 by apply Hc.
    pose proof (lane_loop_total c (cl_fields c) m Hc0) as Hl.
    destruct (lane_loop c (cl_capacity c) (cl_fields c) m) as [m'|e]; cbn [is_ok result_bind] in *.
    + rewrite IH. split; [intros Hcs c' [->|?]%elem_of_cons; [by split; [|apply Hl]|auto]|].
      intros Hcs c' ?. apply Hcs. by right.
    + split; [done|]. intros Hcs. apply Hl. apply Hcs. by left.
  - split; [done|]. intros Hcs. exfalso. apply Hc, (Hcs c). by left.
Qed.

(** Planning fails exactly when a layout cannot be versioned or a lane does not fit
    the runtime's index type. *)
Theorem planning_total `{LayoutCodec} active incoming changed ex abi :
  (∃ p, plan_state_migration active incoming changed ex abi = Ok p) ↔
  is_ok (to_vec active) = true ∧ is_ok (to_vec incoming) = true
  ∧ lanes_fit active ∧ lanes_fit incoming.
Proof.
  rewrite <- !lanes_total. unfold plan_state_migration, state_layout_version, state_layout_digest.
  destruct (to_vec active); cbn [map_err result_bind is_ok]; [|by split; [intros [? ?]|intros (? & ? & ? & ?)]].
  destruct (to_vec incoming); cbn [map_err result_bind is_ok]; [|by split; [intros [? ?]|intros (? & ? & ? & ?)]].
  destruct (collection_field_layouts active); cbn [result_bind is_ok]; [|by split; [intros [? ?]|intros (? & ? & ? & ?)]].
  destruct (collection_field_layouts incoming); cbn [result_bind is_ok]; [|by split; [intros [? ?]|intros (? & ? & ? & ?)]].
  split; [done|]. intros _. by eexists.
Qed.

(** ** A program that is edited while it runs *)

Section witnesses.
#[local] Instance codec : LayoutCodec := {|
  to_vec l := Ok (concat (sl_path <$> scalars l)
                  ++ concat ((λ c, cl_path c ++ show (cl_capacity c)) <$> collections l)
                  ++ concat (op_type_name <$> opaque l));
  sha256 s := s;
|}.

#[local] Definition i32_scalar (path : string) : StateScalarLayout :=
  mkScalarLayout (string_bytes path) (string_bytes "i32") [].

#[local] Definition pool (path : string) (capacity : Z) (fields : list string)
    : StateCollectionLayout :=
  mkCollectionLayout (string_bytes path) capacity (string_bytes "kind=array") true
    ((λ f, mkFieldLayout (string_bytes f) (string_bytes "f32") [] None) <$> fields).

(** The running program: a score, lives, two pools. *)
#[local] Definition running : StateLayout :=
  mkLayout [i32_scalar "game.score"; i32_scalar "game.lives"]
    [pool "enemies" 8 ["x"%string]; pool "shots" 8 ["x"%string; "y"%string]] [] [].

(** Edited: lives are gone, bonus is new, enemies grow and get a [y], shots shrink
    and lose theirs. *)
#[local] Definition edited : StateLayout :=
  mkLayout [i32_scalar "game.score"; i32_scalar "game.bonus"]
    [pool "enemies" 12 ["x"%string; "y"%string]; pool "shots" 4 ["x"%string]] [] [].

(** Edited badly: an enum the migration cannot carry. *)
#[local] Definition edited_badly : StateLayout :=
  mkLayout [i32_scalar "game.score"; i32_scalar "game.lives"] (collections running) []
    [mkOpaqueLayout (string_bytes "game.mode") (string_bytes "Mode")].

#[local] Definition preview_of (incoming : StateLayout) : StateMigrationPreview :=
  match plan_state_migration running incoming [] false None with
  | Ok p => p
  | Err _ => mkPreview 0 [] false false [] [] (mkScope [] None) [] [] None 0 false
  end.

#[local] Definition f32_lane (capacity : Z) : CollectionFieldLayout :=
  mkLane (string_bytes "f32") (string_bytes "f32") capacity.



Lemma migration_rejections_exact_witness :
  ∃ messages,
    rejection (preview_of edited_badly) = Some (rejection_text messages)
    ∧ new_opaque (string_bytes "game.mode") (string_bytes "Mode") ∈ messages.
Proof.
  destruct (migration_rejections_exact running edited_badly [] false None (preview_of edited_badly))
    as (la & li & messages & _ & _ & Hm & _ & Hr & _ & _); [vm_compute; reflexivity|].
  exists messages. split; [rewrite Hr; vm_compute; reflexivity|].
  apply Hm. right. split; [vm_compute; reflexivity|]. by apply opaque_added.
Defined.
End witnesses.
