(* ===== verification/AtlasPacking.v ===== *)
(** * Atlas pages: shelf packing

    Models the data of [crates/stasis_dynload/src/atlas_placement.rs] and
    [PagePackingState::try_place], which puts a padded sprite on a shelf of a page.
    A [u32] or [u64] is a [Z]; the subtractions of the code follow the comparison
    that keeps them in range.

    [packing] is the invariant of a page: its shelves are stacked without overlap
    inside the usable area and the rectangles given out so far lie on them, left of
    the next free place, without overlapping.  [try_place_packing] says that
    [try_place] keeps it. *)

From S2P Require Import Prelude BTree.
#[local] Set Warnings "-clear-no-such-hyp".
#[local] Open Scope Z_scope.

(** ** Data *)

Definition MAX_ATLAS_PLANNER_SPRITES : nat := 512.
Definition MAX_ATLAS_PLANNER_PAGES : nat := 256.
Definition MAX_ATLAS_PLANNER_PAIR_WEIGHTS : nat := Z.to_nat 32768.
Definition MAX_ATLAS_PAIR_WEIGHT : Z := 1000000000.
Definition MAX_ATLAS_CLUSTER_PACK_PROBES : Z := 1000000.
Definition ATLAS_RGBA32_BYTES_PER_PIXEL : Z := 4.

Record AtlasCompatibilityKey := mkKey {
  group_id : option Z;       (* u64 *)
  format : option Z;         (* u32 *)
  sampler : option Z;        (* u32 *)
  color_space : option Z;    (* u32 *)
  backend : option Z;        (* u32 *)
}.

#[export] Instance AtlasCompatibilityKey_eq_dec : EqDecision AtlasCompatibilityKey.
Proof. solve_decision. Defined.

Definition is_known (k : AtlasCompatibilityKey) : bool :=
  match group_id k with Some g => negb (g =? 0) | None => false end
  && bool_decide (is_Some (format k)) && bool_decide (is_Some (sampler k))
  && bool_decide (is_Some (color_space k)) && bool_decide (is_Some (backend k)).

Record AtlasSpriteDescriptor := mkSprite {
  sp_id : Z;                 (* u64 *)
  sp_width : Z;              (* u32 *)
  sp_height : Z;             (* u32 *)
  sp_padding : Z;            (* u32 *)
  sp_compatibility : AtlasCompatibilityKey;
}.

Record AtlasPageExtent := mkPage {
  pg_id : Z;                 (* u32 *)
  pg_compatibility : AtlasCompatibilityKey;
  pg_width : Z;              (* u32 *)
  pg_height : Z;             (* u32 *)
  usable_origin_x : Z;       (* u32 *)
  usable_origin_y : Z;       (* u32 *)
  allocation_bytes : Z;      (* u64 *)
}.

Record AtlasPlacement := mkPlacement {
  pl_sprite_id : Z;
  pl_page_id : Z;
  pl_x : Z;
  pl_y : Z;
  pl_width : Z;
  pl_height : Z;
  pl_allocation_x : Z;
  pl_allocation_y : Z;
  pl_allocation_width : Z;
  pl_allocation_height : Z;
}.

Record Shelf := mkShelf {
  sh_y : Z;
  sh_height : Z;
  sh_next_x : Z;
}.

Record PagePackingState := mkPacking {
  pk_page : AtlasPageExtent;
  pk_shelves : list Shelf;
}.

Record PlacementChoice := mkChoice {
  ch_shelves : list Shelf;
  ch_x : Z;
  ch_y : Z;
  ch_width : Z;
  ch_height : Z;
  vertical_slack : Z;
  horizontal_slack : Z;
}.

(** ** The packer *)

(** The order of the code's four-tuples is that of nested pairs. *)
Definition Rank : Type := Z * Z * Z * Z.

Definition rank_lt (a b : Rank) : bool := match cmp a b with Lt => true | _ => false end.

(** Rank, position and, for an existing shelf, its index. *)
Record Candidate := mkCandidate {
  cd_rank : Rank;
  cd_x : Z;
  cd_y : Z;
  cd_shelf : option nat;
}.

Definition consider (best : option Candidate) (c : Candidate) : option Candidate :=
  match best with
  | None => Some c
  | Some b => if rank_lt (cd_rank c) (cd_rank b) then Some c else best
  end.

Definition PagePackingState_new (page : AtlasPageExtent) : PagePackingState := mkPacking page [].

Definition shelf_fits (page : AtlasPageExtent) (width height : Z) (shelf : Shelf) : bool :=
  negb ((pg_width page <? sh_next_x shelf)
        || (pg_width page - sh_next_x shelf <? width)
        || (pg_height page <? sh_y shelf)
        || (pg_height page - sh_y shelf <? sh_height shelf)
        || (sh_height shelf <? height)).

Definition consider_shelf (page : AtlasPageExtent) (width height : Z)
    (best : option Candidate) (e : nat * Shelf) : option Candidate :=
  let '(index, shelf) := e in
  if shelf_fits page width height shelf then
    let right := sh_next_x shelf + width in
    consider best
      (mkCandidate (sh_height shelf - height, pg_width page - right, sh_y shelf, sh_next_x shelf)
         (sh_next_x shelf) (sh_y shelf) (Some index))
  else best.

(** [iter().enumerate()] *)
Definition enumerate {A} (l : list A) : list (nat * A) := imap (λ i x, (i, x)) l.

(** The first row below every shelf, unless one ends beyond [u32]. *)
Fixpoint next_row (next_y : Z) (shelves : list Shelf) : option Z :=
  match shelves with
  | [] => Some next_y
  | shelf :: shelves' =>
      match checked_u 32 (sh_y shelf + sh_height shelf) with
      | Some bottom => next_row (Z.max next_y bottom) shelves'
      | None => None
      end
  end.

Definition consider_new_shelf (page : AtlasPageExtent) (width height next_y : Z)
    (best : option Candidate) : option Candidate :=
  let horizontal_fits :=
    (usable_origin_x page <=? pg_width page) && (width <=? pg_width page - usable_origin_x page) in
  let vertical_fits := (next_y <=? pg_height page) && (height <=? pg_height page - next_y) in
  if horizontal_fits && vertical_fits then
    let right := usable_origin_x page + width in
    consider best
      (mkCandidate (0, pg_width page - right, next_y, usable_origin_x page)
         (usable_origin_x page) next_y None)
  else best.

Definition place_on (shelves : list Shelf) (index : option nat) (y height right : Z) : list Shelf :=
  match index with
  | Some i => alter (λ s, mkShelf (sh_y s) (sh_height s) right) i shelves
  | None => shelves ++ [mkShelf y height right]
  end.

Definition try_place (st : PagePackingState) (width height : Z) : option PlacementChoice :=
  let page := pk_page st in
  let shelves := pk_shelves st in
  let best := foldl (consider_shelf page width height) None (enumerate shelves) in
  next_y ← next_row (usable_origin_y page) shelves;
  best ← consider_new_shelf page width height next_y best;
  right ← checked_u 32 (cd_x best + width);
  let rank := cd_rank best in
  Some (mkChoice (place_on shelves (cd_shelf best) (cd_y best) height right)
          (cd_x best) (cd_y best) width height rank.1.1.1 rank.1.1.2).

(** [padded_rect] *)
Definition padded_rect (x y width height padding : Z) : option (Z * Z * Z * Z) :=
  twice_padding ← checked_u 32 (padding * 2);
  allocation_x ← checked_u 32 (x - padding);
  allocation_y ← checked_u 32 (y - padding);
  allocation_width ← checked_u 32 (width + twice_padding);
  allocation_height ← checked_u 32 (height + twice_padding);
  Some (allocation_x, allocation_y, allocation_width, allocation_height).

(** A rectangle is its left, top, right and bottom. *)
Definition Rect : Type := Z * Z * Z * Z.

Definition rectangles_overlap (left right : Rect) : bool :=
  let '(l0, l1, l2, l3) := left in
  let '(r0, r1, r2, r3) := right in
  (l0 <? r2) && (r0 <? l2) && (l1 <? r3) && (r1 <? l3).

(** ** The best candidate *)

Definition shelf_candidate (page : AtlasPageExtent) (width height : Z) (e : nat * Shelf) : Candidate :=
  mkCandidate (sh_height e.2 - height, pg_width page - (sh_next_x e.2 + width), sh_y e.2,
               sh_next_x e.2) (sh_next_x e.2) (sh_y e.2) (Some e.1).

Definition new_row_candidate (page : AtlasPageExtent) (width next_y : Z) : Candidate :=
  mkCandidate (0, pg_width page - (usable_origin_x page + width), next_y, usable_origin_x page)
    (usable_origin_x page) next_y None.

Definition new_row_fits (page : AtlasPageExtent) (width height next_y : Z) : bool :=
  (usable_origin_x page <=? pg_width page) && (width <=? pg_width page - usable_origin_x page)
  && ((next_y <=? pg_height page) && (height <=? pg_height page - next_y)).

(** Every place the sprite fits, in the order they are tried. *)
Definition candidates (page : AtlasPageExtent) (shelves : list Shelf) (width height next_y : Z)
    : list Candidate :=
  (shelf_candidate page width height <$> filter (λ e, shelf_fits page width height e.2 = true)
                                           (enumerate shelves))
  ++ (if new_row_fits page width height next_y then [new_row_candidate page width next_y] else []).

Lemma foldl_consider_shelf page width height best l :
  foldl (consider_shelf page width height) best l =
  foldl consider best
    (shelf_candidate page width height <$> filter (λ e, shelf_fits page width height e.2 = true) l).
Proof.
  revert best. induction l as [|[i s] l IH]; intros best; [done|].
  rewrite filter_cons. cbn. destruct (shelf_fits page width height s) eqn:E;
    (case_decide as Hd; cbn in Hd; [|done || congruence]); cbn; by rewrite IH.
Qed.

Lemma best_of_candidates page shelves width height next_y :
  consider_new_shelf page width height next_y
    (foldl (consider_shelf page width height) None (enumerate shelves)) =
  foldl consider None (candidates page shelves width height next_y).
Proof.
  unfold candidates, consider_new_shelf, new_row_fits.
  rewrite foldl_consider_shelf, foldl_app. by destruct (_ && _ && _).
Qed.

Lemma rank_lt_irrefl r : rank_lt r r = false.
Proof. unfold rank_lt. by rewrite cmp_refl. Qed.

Lemma rank_not_lt_trans a b c : rank_lt b a = false → rank_lt c b = false → rank_lt c a = false.
Proof.
  unfold rank_lt. intros Hba Hcb. destruct (cmp c a) eqn:E; [done| |done].
  destruct (cmp b a) eqn:E1; [| done |].
  - apply cmp_eq in E1 as ->. by rewrite E in Hcb.
  - apply cmp_gt_lt in E1. by rewrite (cmp_trans _ _ _ E E1) in Hcb.
Qed.

(** [consider] keeps the least rank. *)
Lemma foldl_consider_spec best l :
  match foldl consider best l with
  | None => best = None ∧ l = []
  | Some c =>
      (Some c = best ∨ c ∈ l)
      ∧ (∀ c', Some c' = best ∨ c' ∈ l → rank_lt (cd_rank c') (cd_rank c) = false)
  end.
Proof.
  revert best. induction l as [|c l IH]; intros best; cbn.
  { destruct best as [b|]; [|done]. split; [by left|].
    intros c' [[= ->]|?%not_elem_of_nil]; [apply rank_lt_irrefl|done]. }
  specialize (IH (consider best c)). destruct (foldl consider (consider best c) l) as [r|].
  - destruct IH as [Hin Hmin].
    assert (∃ b, consider best c = Some b ∧ (Some b = best ∨ b = c)
      ∧ (∀ c', Some c' = best ∨ c' = c → rank_lt (cd_rank c') (cd_rank b) = false))
      as (b & Eb & Hb & Hbmin).
    { unfold consider. destruct best as [b|].
      - destruct (rank_lt (cd_rank c) (cd_rank b)) eqn:E.
        + exists c. split_and!; [done|by right|]. intros c' [[= ->]| ->]; [|apply rank_lt_irrefl].
          unfold rank_lt in *. destruct (cmp (cd_rank c) (cd_rank b)) eqn:E2; [done| |done].
          by rewrite cmp_antisym, E2.
        + exists b. split_and!; [done|by left|]. intros c' [[= ->]| ->]; [apply rank_lt_irrefl|done].
      - exists c. split_and!; [done|by right|]. intros c' [?| ->]; [done|apply rank_lt_irrefl]. }
    rewrite Eb in Hin, Hmin. rewrite elem_of_cons. split.
    + destruct Hin as [[= ->]|Hin]; [|tauto]. destruct Hb as [Hb| ->]; [by left|by right; left].
    + intros c' Hc'. rewrite elem_of_cons in Hc'.
      destruct Hc' as [Hc'|[->|Hc']]; [| |by apply Hmin; right];
        (eapply rank_not_lt_trans; [by apply Hmin; left|]); apply Hbmin; (by left) || (by right).
  - destruct IH as [Hc _]. unfold consider in Hc. destruct best; [by case_match|done].
Qed.

Lemma elem_of_candidates page shelves width height next_y c :
  c ∈ candidates page shelves width height next_y ↔
  (∃ i s, shelves !! i = Some s ∧ shelf_fits page width height s = true
          ∧ c = shelf_candidate page width height (i, s))
  ∨ (new_row_fits page width height next_y = true ∧ c = new_row_candidate page width next_y).
Proof.
  unfold candidates. rewrite elem_of_app, list_elem_of_fmap.
  assert (∀ e, e ∈ enumerate shelves ↔ shelves !! e.1 = Some e.2) as He.
  { intros [i s]. unfold enumerate. rewrite elem_of_lookup_imap. cbn. split.
    - by intros (j & s' & [= -> ->] & ?).
    - intros ?. by exists i, s. }
  split.
  - intros [(e & -> & [Hf Hin]%list_elem_of_filter)|Hn].
    + left. apply He in Hin. destruct e as [i s]. by exists i, s.
    + right. destruct (new_row_fits _ _ _ _); [|by apply not_elem_of_nil in Hn].
      by apply list_elem_of_singleton in Hn as ->.
  - intros [(i & s & Hi & Hf & ->)|[-> ->]]; [left|right; by left].
    exists (i, s). split; [done|]. apply list_elem_of_filter. split; [done|]. by apply He.
Qed.

(** ** The invariant of a page *)

Definition rect_of (x y width height : Z) : Rect := (x, y, x + width, y + height).

Definition choice_rect (c : PlacementChoice) : Rect :=
  rect_of (ch_x c) (ch_y c) (ch_width c) (ch_height c).

Definition placement_rect (p : AtlasPlacement) : Rect :=
  rect_of (pl_allocation_x p) (pl_allocation_y p) (pl_allocation_width p) (pl_allocation_height p).

(** The rectangle lies in the usable area. *)
Definition in_page (page : AtlasPageExtent) (r : Rect) : Prop :=
  let '(l, t, rt, b) := r in
  usable_origin_x page ≤ l ∧ usable_origin_y page ≤ t ∧ rt ≤ pg_width page
  ∧ b ≤ pg_height page.

Definition page_wf (page : AtlasPageExtent) : Prop :=
  in_u 32 (usable_origin_x page) ∧ in_u 32 (usable_origin_y page)
  ∧ in_u 32 (pg_width page) ∧ in_u 32 (pg_height page)
  ∧ usable_origin_x page < pg_width page ∧ usable_origin_y page < pg_height page.

Definition shelf_in (page : AtlasPageExtent) (s : Shelf) : Prop :=
  usable_origin_y page ≤ sh_y s ∧ 0 ≤ sh_height s ∧ sh_y s + sh_height s ≤ pg_height page
  ∧ usable_origin_x page ≤ sh_next_x s ≤ pg_width page.

Definition on_shelf (page : AtlasPageExtent) (s : Shelf) (r : Rect) : Prop :=
  let '(l, t, rt, b) := r in
  usable_origin_x page ≤ l ∧ rt ≤ sh_next_x s ∧ sh_y s ≤ t ∧ b ≤ sh_y s + sh_height s.

Record packing (page : AtlasPageExtent) (shelves : list Shelf) (rects : list Rect) : Prop := {
  packing_shelves : Forall (shelf_in page) shelves;
  packing_stacked : ∀ i j s t, shelves !! i = Some s → shelves !! j = Some t → i ≠ j →
    sh_y s + sh_height s ≤ sh_y t ∨ sh_y t + sh_height t ≤ sh_y s;
  packing_on : ∀ r, r ∈ rects → ∃ i s, shelves !! i = Some s ∧ on_shelf page s r;
  packing_apart : ∀ i j r q, rects !! i = Some r → rects !! j = Some q → i ≠ j →
    rectangles_overlap r q = false;
}.

Lemma packing_nil page : packing page [] [].
Proof. split; [constructor|done| |done]. by intros r ?%not_elem_of_nil. Qed.

Lemma packing_in_page page shelves rects r :
  packing page shelves rects → r ∈ rects → in_page page r.
Proof.
  intros Hp Hr. destruct (packing_on _ _ _ Hp r Hr) as (i & s & Hi & Hs).
  pose proof (proj1 (Forall_lookup _ _) (packing_shelves _ _ _ Hp) i s Hi) as Hin.
  destruct r as [[[l t] rt] b]. unfold on_shelf, shelf_in, in_page in *. lia.
Qed.

Lemma next_row_spec y shelves y' :
  next_row y shelves = Some y' →
  y ≤ y' ∧ ∀ s, s ∈ shelves → sh_y s + sh_height s ≤ y'.
Proof.
  revert y. induction shelves as [|s l IH]; intros y; cbn.
  { intros [= ->]. split; [lia|]. by intros s ?%not_elem_of_nil. }
  destruct (checked_u 32 _) as [b|] eqn:E; [|done]. apply checked_u_Some in E as [_ ->].
  intros [Hy Hl]%IH. split; [lia|]. intros s' [->|?]%elem_of_cons; [lia|auto].
Qed.

Lemma next_row_total page y shelves :
  page_wf page → Forall (shelf_in page) shelves → in_u 32 (usable_origin_y page) →
  is_Some (next_row y shelves).
Proof.
  intros Hw Hs Ho. revert y. induction Hs as [|s l Hs Hl IH]; intros y; cbn; [done|].
  unfold checked_u. rewrite bool_decide_eq_true_2; [apply IH|].
  unfold shelf_in, page_wf, in_u in *. lia.
Qed.

Lemma shelf_fits_spec page w h s :
  shelf_fits page w h s = true ↔
  sh_next_x s ≤ pg_width page ∧ w ≤ pg_width page - sh_next_x s
  ∧ sh_y s ≤ pg_height page ∧ sh_height s ≤ pg_height page - sh_y s ∧ h ≤ sh_height s.
Proof. unfold shelf_fits. rewrite negb_true_iff, !orb_false_iff, !Z.ltb_ge. tauto. Qed.

Lemma new_row_fits_spec page w h y :
  new_row_fits page w h y = true ↔
  usable_origin_x page ≤ pg_width page ∧ w ≤ pg_width page - usable_origin_x page
  ∧ y ≤ pg_height page ∧ h ≤ pg_height page - y.
Proof. unfold new_row_fits. rewrite !andb_true_iff, !Z.leb_le. tauto. Qed.

(** What [try_place] returns: the best candidate, placed. *)
Lemma try_place_inv st w h ch :
  try_place st w h = Some ch →
  ∃ y c, next_row (usable_origin_y (pk_page st)) (pk_shelves st) = Some y
    ∧ c ∈ candidates (pk_page st) (pk_shelves st) w h y
    ∧ (∀ c', c' ∈ candidates (pk_page st) (pk_shelves st) w h y →
             rank_lt (cd_rank c') (cd_rank c) = false)
    ∧ ch = mkChoice (place_on (pk_shelves st) (cd_shelf c) (cd_y c) h (cd_x c + w))
             (cd_x c) (cd_y c) w h (cd_rank c).1.1.1 (cd_rank c).1.1.2.
Proof.
  unfold try_place. destruct (next_row _ _) as [y|]; [|done]. cbn [mbind option_bind].
  rewrite best_of_candidates.
  pose proof (foldl_consider_spec None (candidates (pk_page st) (pk_shelves st) w h y)) as Hs.
  destruct (foldl consider None _) as [c|]; [|done]. destruct Hs as [[?|Hc] Hmin]; [done|].
  cbn [mbind option_bind]. destruct (checked_u 32 _) as [r|] eqn:Er; [|done].
  apply checked_u_Some in Er as [_ ->]. cbn [mbind option_bind]. intros [= <-].
  exists y, c. split_and!; [done..| |done]. intros c' ?. apply Hmin. by right.
Qed.

(** ** [try_place] keeps the invariant *)

Definition apart (rects : list Rect) : Prop :=
  ∀ i j r q, rects !! i = Some r → rects !! j = Some q → i ≠ j → rectangles_overlap r q = false.

Lemma overlap_false r q :
  rectangles_overlap r q = false ↔
  q.1.1.2 >= r.2 ∨ r.1.1.2 >= q.2 ∨ r.1.2 <= q.1.1.1 ∨ q.1.2 <= r.1.1.1.
Proof.
  destruct r as [[[l t] rt] b], q as [[[l' t'] rt'] b']. cbn.
  rewrite !andb_false_iff, !Z.ltb_ge. lia.
Qed.

Lemma overlap_comm r q : rectangles_overlap r q = rectangles_overlap q r.
Proof.
  apply eq_true_iff_eq. destruct r as [[[l t] rt] b], q as [[[l' t'] rt'] b']. cbn.
  rewrite !andb_true_iff. tauto.
Qed.

Lemma apart_snoc rects r :
  apart rects → (∀ q, q ∈ rects → rectangles_overlap q r = false) → apart (rects ++ [r]).
Proof.
  intros Ha Hr i j q q' Hi Hj Hne. rewrite lookup_app in Hi, Hj.
  destruct (rects !! i) as [p|] eqn:Ei, (rects !! j) as [p'|] eqn:Ej; simplify_eq.
  - by eapply Ha.
  - apply list_lookup_singleton_Some in Hj as [_ ->]. apply Hr. by eapply list_elem_of_lookup_2.
  - apply list_lookup_singleton_Some in Hi as [_ ->]. rewrite overlap_comm. apply Hr.
    by eapply list_elem_of_lookup_2.
  - apply list_lookup_singleton_Some in Hi as [Hi _], Hj as [Hj _].
    apply lookup_ge_None in Ei, Ej. lia.
Qed.

Lemma packing_existing page shelves rects i s w h :
  packing page shelves rects → shelves !! i = Some s → shelf_fits page w h s = true →
  0 ≤ w → 0 ≤ h →
  packing page (alter (λ s, mkShelf (sh_y s) (sh_height s) (sh_next_x s + w)) i shelves)
    (rects ++ [rect_of (sh_next_x s) (sh_y s) w h]).
Proof.
  intros [Hin Hst Hon Hap] Hi (Hf1 & Hf2 & Hf3 & Hf4 & Hf5)%shelf_fits_spec Hw Hh.
  pose proof (proj1 (Forall_lookup _ _) Hin i s Hi) as Hs. unfold shelf_in in Hs.
  set (f := λ s, mkShelf (sh_y s) (sh_height s) (sh_next_x s + w)).
  assert (∀ j t, alter f i shelves !! j = Some t →
    ∃ t', shelves !! j = Some t' ∧ t = if decide (i = j) then f t' else t') as Halter.
  { intros j t. rewrite list_lookup_alter. destruct (decide (i = j)) as [<-|Hne]; [|by eauto].
    intros (t' & -> & ->)%fmap_Some. eauto. }
  split.
  - apply Forall_lookup. intros j t (t' & Hj & ->)%Halter.
    pose proof (proj1 (Forall_lookup _ _) Hin j t' Hj) as Ht. unfold shelf_in in *.
    case_decide; subst; unfold f; cbn; simplify_eq; lia.
  - intros j k t u (t' & Hj & ->)%Halter (u' & Hk & ->)%Halter Hne.
    specialize (Hst _ _ _ _ Hj Hk Hne). repeat case_decide; subst; unfold f; cbn; done || lia.
  - intros r [Hr|Hr]%elem_of_app.
    + destruct (Hon r Hr) as (j & t & Hj & Ht).
      exists j, (if decide (i = j) then f t else t). split.
      * rewrite list_lookup_alter. case_decide; subst; by rewrite Hj.
      * destruct r as [[[l tp] rt] b]. unfold on_shelf, f in *. case_decide; cbn; lia.
    + apply list_elem_of_singleton in Hr as ->. exists i, (f s).
      rewrite list_lookup_alter, decide_True, Hi by done. split; [done|]. unfold on_shelf, rect_of, f. cbn. lia.
  - apply apart_snoc; [done|]. intros r Hr. destruct (Hon r Hr) as (j & t & Hj & Ht).
    apply overlap_false. destruct r as [[[l tp] rt] b]. unfold on_shelf in Ht. cbn.
    destruct (decide (i = j)) as [->|Hne]; [simplify_eq; lia|].
    specialize (Hst _ _ _ _ Hi Hj Hne). lia.
Qed.

Lemma packing_new_row page shelves rects w h y :
  packing page shelves rects → next_row (usable_origin_y page) shelves = Some y →
  new_row_fits page w h y = true → 0 ≤ w → 0 ≤ h →
  packing page (shelves ++ [mkShelf y h (usable_origin_x page + w)])
    (rects ++ [rect_of (usable_origin_x page) y w h]).
Proof.
  intros [Hin Hst Hon Hap] [Hy Hrow]%next_row_spec (Hf1 & Hf2 & Hf3 & Hf4)%new_row_fits_spec Hw Hh.
  assert (∀ j t, shelves !! j = Some t → sh_y t + sh_height t ≤ y) as Hbelow.
  { intros j t Hj. apply Hrow. by eapply list_elem_of_lookup_2. }
  split.
  - apply Forall_app. split; [done|]. apply Forall_singleton. unfold shelf_in. cbn. lia.
  - intros i j s t Hi Hj Hne. rewrite lookup_app in Hi, Hj.
    destruct (shelves !! i) as [s'|] eqn:Ei, (shelves !! j) as [t'|] eqn:Ej; simplify_eq.
    + by eapply Hst.
    + apply list_lookup_singleton_Some in Hj as [_ <-]. cbn. apply Hbelow in Ei. lia.
    + apply list_lookup_singleton_Some in Hi as [_ <-]. cbn. apply Hbelow in Ej. lia.
    + apply list_lookup_singleton_Some in Hi as [Hi _], Hj as [Hj _].
      apply lookup_ge_None in Ei, Ej. lia.
  - intros r [Hr|Hr]%elem_of_app.
    + destruct (Hon r Hr) as (j & t & Hj & Ht). exists j, t.
      by rewrite lookup_app_l by (by eapply lookup_lt_Some).
    + apply list_elem_of_singleton in Hr as ->. exists (length shelves).
      eexists. rewrite list_lookup_middle by done. split; [done|].
      unfold on_shelf, rect_of. cbn. lia.
  - apply apart_snoc; [done|]. intros r Hr. destruct (Hon r Hr) as (j & t & Hj & Ht).
    apply Hbelow in Hj. apply overlap_false. destruct r as [[[l tp] rt] b].
    unfold on_shelf in Ht. cbn. lia.
Qed.

(** The rectangle of a choice extends the packing of its page. *)
Lemma try_place_packing st rects w h ch :
  packing (pk_page st) (pk_shelves st) rects → 0 ≤ w → 0 ≤ h → try_place st w h = Some ch →
  packing (pk_page st) (ch_shelves ch) (rects ++ [choice_rect ch])
  ∧ ch_width ch = w ∧ ch_height ch = h ∧ 0 ≤ vertical_slack ch ∧ 0 ≤ horizontal_slack ch.
Proof.
  intros Hp Hw Hh (y & c & Hy & Hc & _ & ->)%try_place_inv. unfold choice_rect. cbn.
  apply elem_of_candidates in Hc as [(i & s & Hi & Hf & ->)|[Hf ->]]; cbn.
  - pose proof (packing_existing _ _ _ _ _ _ _ Hp Hi Hf Hw Hh) as Hp'.
    assert (alter (λ s0, mkShelf (sh_y s0) (sh_height s0) (sh_next_x s + w)) i (pk_shelves st) =
            alter (λ s0, mkShelf (sh_y s0) (sh_height s0) (sh_next_x s0 + w)) i (pk_shelves st))
      as ->. { apply list_alter_ext; [|done]. intros x Hx. by simplify_eq. }
    apply shelf_fits_spec in Hf. split_and!; try done; lia.
  - pose proof (packing_new_row _ _ _ _ _ _ Hp Hy Hf Hw Hh).
    apply new_row_fits_spec in Hf. split_and!; try done; lia.
Qed.
