(* ===== verification/AtlasPlanner.v ===== *)
(** * Atlas affinity planner

    Models [plan_atlas_affinity] and its helpers
    ([crates/stasis_dynload/src/atlas_placement.rs]): the validation of the input,
    the merging of sprites into clusters, heaviest pair first, the placement of the
    clusters on the pages and the acceptance of the result.  Each loop is a
    definition over the maps the code keeps; [option] around a result is a panic, of
    an index or an [expect].  The neighbours of a sprite are sorted with a stable
    sort where the code uses an unstable one: only their sum is used. *)

From S2P Require Import Prelude BTree AtlasPacking.
#[local] Set Warnings "-clear-no-such-hyp".
#[local] Open Scope Z_scope.

(** ** Input and output *)

Record AtlasBaselinePlacement := mkBaseline {
  bl_sprite_id : Z;
  bl_page_id : Z;
  bl_x : Z;
  bl_y : Z;
  bl_width : Z;
  bl_height : Z;
  bl_padding : Z;
}.

Record AtlasPairWeight := mkPair {
  from_sprite_id : Z;
  to_sprite_id : Z;
  pw_weight : Z;
}.

Record AtlasMemoryBudget := mkBudget {
  current_device_bytes : Z;
  max_final_bytes : Z;
  max_peak_bytes : Z;
}.

Record AtlasPlanningInput := mkInput {
  current_generation : Z;
  baseline_generation : Z;
  in_sprites : list AtlasSpriteDescriptor;
  in_pages : list AtlasPageExtent;
  in_baseline_placements : list AtlasBaselinePlacement;
  in_pair_weights : list AtlasPairWeight;
  in_budget : AtlasMemoryBudget;
}.

Record AtlasPlannedPage := mkPlannedPage {
  pp_id : Z;
  pp_compatibility : AtlasCompatibilityKey;
  pp_width : Z;
  pp_height : Z;
  pp_origin_x : Z;
  pp_origin_y : Z;
  pp_allocation_bytes : Z;
  pp_sprite_count : nat;
}.

Record AtlasMetrics := mkMetrics {
  baseline_page_count : nat;
  candidate_page_count : nat;
  moved_sprite_count : nat;
  baseline_cut_weight : Z;
  candidate_cut_weight : Z;
  cut_weight_saved : Z;
  candidate_texture_bytes : Z;
  final_device_bytes : Z;
  peak_device_bytes : Z;
}.

Record AtlasPlan := mkPlan {
  plan_placements : list AtlasPlacement;
  plan_pages : list AtlasPlannedPage;
  plan_metrics : AtlasMetrics;
}.

Inductive AtlasFallbackReason :=
| StaleGeneration | EmptyInput | TooManySprites | TooManyPages | TooManyPairWeights | NoPages
| DuplicateSpriteId | DuplicatePageId | DuplicateBaselinePlacement | MissingBaselinePlacement
| UnknownCompatibility | InvalidSpriteExtent | InvalidPageExtent | InvalidPageAllocation
| InvalidBaselinePlacement | OverlappingBaselinePlacements | IncompatibleBaselinePage
| UnknownPairSprite | InvalidPairWeight | DuplicatePairWeight | Overflow | NoFeasiblePlacement
| InvalidMemoryAccounting | MemoryBudgetExceeded | NonImproving | ClusterSearchLimitExceeded.

Record AtlasPlanningResult := mkResult {
  plan : option AtlasPlan;
  baseline_metrics : option AtlasMetrics;
  candidate_metrics : option AtlasMetrics;
  fallback_reason : option AtlasFallbackReason;
}.

Definition declined (reason : AtlasFallbackReason) (baseline candidate : option AtlasMetrics)
    : AtlasPlanningResult :=
  mkResult None baseline candidate (Some reason).

(** ** Panics and early returns *)

Definition Declining (A : Type) : Type := Result A AtlasFallbackReason.

(** [None] is a panic. *)
Definition panic_bind {T U E} (r : option (Result T E)) (k : T → option (Result U E))
    : option (Result U E) :=
  match r with Some (Ok v) => k v | Some (Err e) => Some (Err e) | None => None end.

Notation "'let!' x ':=' r 'in' k" := (panic_bind r (λ x, k))
  (at level 10, x pattern, r at level 100, k at level 200) : stasis_scope.

(** [entry(k).or_default()], updated. *)
Definition entry_update `{OrdKey K} {V} (k : K) (d : V) (f : V → V) (m : list (K * V)) : list (K * V) :=
  map_insert k (f (default d (map_get k m))) m.

Definition contains_key `{OrdKey K} {V} (k : K) (m : list (K * V)) : bool :=
  match map_get k m with Some _ => true | None => false end.

(** ** Validation *)

Definition check_counts (input : AtlasPlanningInput) : option AtlasFallbackReason :=
  if negb (current_generation input =? baseline_generation input) then Some StaleGeneration
  else if bool_decide (in_sprites input = []) then Some EmptyInput
  else if (MAX_ATLAS_PLANNER_SPRITES <? length (in_sprites input))%nat then Some TooManySprites
  else if bool_decide (in_pages input = []) then Some NoPages
  else if (MAX_ATLAS_PLANNER_PAGES <? length (in_pages input))%nat then Some TooManyPages
  else if (MAX_ATLAS_PLANNER_PAIR_WEIGHTS <? length (in_pair_weights input))%nat
  then Some TooManyPairWeights
  else if negb (length (in_baseline_placements input) =? length (in_sprites input))%nat
  then Some MissingBaselinePlacement
  else None.

Definition SpriteMap := list (Z * AtlasSpriteDescriptor).
Definition SizeMap := list (Z * (Z * Z)).
Definition PageMap := list (Z * AtlasPageExtent).

Definition padded_size (sprite : AtlasSpriteDescriptor) : Declining (Z * Z) :=
  let? twice_padding := ok_or (checked_u 32 (sp_padding sprite * 2)) Overflow in
  let? padded_width := ok_or (checked_u 32 (sp_width sprite + twice_padding)) Overflow in
  let? padded_height := ok_or (checked_u 32 (sp_height sprite + twice_padding)) Overflow in
  Ok (padded_width, padded_height).

Fixpoint sprite_loop (l : list AtlasSpriteDescriptor) (sprites : SpriteMap) (packed_sizes : SizeMap)
    : Declining (SpriteMap * SizeMap) :=
  match l with
  | [] => Ok (sprites, packed_sizes)
  | sprite :: l' =>
      if contains_key (sp_id sprite) sprites then Err DuplicateSpriteId
      else if negb (is_known (sp_compatibility sprite)) then Err UnknownCompatibility
      else if (sp_width sprite =? 0) || (sp_height sprite =? 0) then Err InvalidSpriteExtent
      else
        let? size := padded_size sprite in
        sprite_loop l' (map_insert (sp_id sprite) sprite sprites)
          (map_insert (sp_id sprite) size packed_sizes)
  end.

Definition expected_bytes (page : AtlasPageExtent) : option Z :=
  pixels ← checked_u 64 (pg_width page * pg_height page);
  checked_u 64 (pixels * ATLAS_RGBA32_BYTES_PER_PIXEL).

Fixpoint page_loop (l : list AtlasPageExtent) (pages : PageMap) (existing_page_bytes : Z)
    : Declining (PageMap * Z) :=
  match l with
  | [] => Ok (pages, existing_page_bytes)
  | page :: l' =>
      if contains_key (pg_id page) pages then Err DuplicatePageId
      else if negb (is_known (pg_compatibility page)) then Err UnknownCompatibility
      else if (pg_width page =? 0) || (pg_height page =? 0)
              || (pg_width page <=? usable_origin_x page)
              || (pg_height page <=? usable_origin_y page) then Err InvalidPageExtent
      else
        let? bytes := ok_or (expected_bytes page) Overflow in
        if negb (allocation_bytes page =? bytes) then Err InvalidPageAllocation
        else
          let? total := ok_or (checked_u 64 (existing_page_bytes + allocation_bytes page)) Overflow in
          page_loop l' (map_insert (pg_id page) page pages) total
  end.

Definition BaselineMap := list (Z * AtlasBaselinePlacement).
Definition CountMap := list (Z * nat).

(** The rectangle of a baseline placement, checked against its page. *)
Definition baseline_rect (page : AtlasPageExtent) (placement : AtlasBaselinePlacement)
    : Declining Rect :=
  if (bl_width placement =? 0) || (bl_height placement =? 0) then Err InvalidBaselinePlacement
  else if (bl_x placement <? bl_padding placement) || (bl_y placement <? bl_padding placement)
  then Err InvalidBaselinePlacement
  else
    let? (allocation_x, allocation_y, allocation_width, allocation_height) :=
      ok_or (padded_rect (bl_x placement) (bl_y placement) (bl_width placement)
               (bl_height placement) (bl_padding placement)) Overflow in
    let? right_edge := ok_or (checked_u 32 (allocation_x + allocation_width)) Overflow in
    let? bottom := ok_or (checked_u 32 (allocation_y + allocation_height)) Overflow in
    if (allocation_x <? usable_origin_x page) || (allocation_y <? usable_origin_y page)
       || (pg_width page <? right_edge) || (pg_height page <? bottom)
    then Err InvalidBaselinePlacement
    else Ok (allocation_x, allocation_y, right_edge, bottom).

Fixpoint baseline_loop (sprites : SpriteMap) (pages : PageMap) (l : list AtlasBaselinePlacement)
    (baseline : BaselineMap) (counts : CountMap) (rectangles : list (Z * list Rect))
    : Declining (BaselineMap * CountMap) :=
  match l with
  | [] => Ok (baseline, counts)
  | placement :: l' =>
      if contains_key (bl_sprite_id placement) baseline then Err DuplicateBaselinePlacement
      else
        let? sprite := ok_or (map_get (bl_sprite_id placement) sprites) UnknownPairSprite in
        let? page := ok_or (map_get (bl_page_id placement) pages) InvalidBaselinePlacement in
        if negb (bool_decide (pg_compatibility page = sp_compatibility sprite))
        then Err IncompatibleBaselinePage
        else
          let? rect := baseline_rect page placement in
          let rects := default [] (map_get (bl_page_id placement) rectangles) in
          if existsb (rectangles_overlap rect) rects then Err OverlappingBaselinePlacements
          else baseline_loop sprites pages l'
                 (map_insert (bl_sprite_id placement) placement baseline)
                 (entry_update (bl_page_id placement) 0%nat S counts)
                 (map_insert (bl_page_id placement) (rects ++ [rect]) rectangles)
  end.

Definition Pair : Type := Z * Z * Z.
Definition Adjacency := list (Z * list (Z * Z)).

Record PairState := mkPairState {
  ps_pairs : list Pair;
  ps_seen : list (Z * Z);          (* a BTreeSet *)
  ps_total : Z;
  ps_adjacency : Adjacency;
}.

Fixpoint pair_loop (sprites : SpriteMap) (l : list AtlasPairWeight) (st : PairState)
    : Declining PairState :=
  match l with
  | [] => Ok st
  | entry :: l' =>
      let from := from_sprite_id entry in
      let to := to_sprite_id entry in
      if (from =? to) || (pw_weight entry =? 0) then Err InvalidPairWeight
      else if MAX_ATLAS_PAIR_WEIGHT <? pw_weight entry then Err InvalidPairWeight
      else if negb (contains_key from sprites) || negb (contains_key to sprites)
      then Err UnknownPairSprite
      else if bool_decide ((from, to) ∈ ps_seen st) then Err DuplicatePairWeight
      else
        let? total := ok_or (checked_u 64 (ps_total st + pw_weight entry)) Overflow in
        let adjacency := entry_update from [] (λ n, n ++ [(to, pw_weight entry)]) (ps_adjacency st) in
        let adjacency := entry_update to [] (λ n, n ++ [(from, pw_weight entry)]) adjacency in
        pair_loop sprites l'
          (mkPairState (ps_pairs st ++ [(from, to, pw_weight entry)])
             (set_insert (from, to) (ps_seen st)) total adjacency)
  end.

Definition sort_neighbors (adjacency : Adjacency) : Adjacency :=
  (λ e, (e.1, sort_by (λ a b, a.1 <=? b.1) e.2)) <$> adjacency.

(** The weight of the pairs whose sprites are on different pages; [None] within is
    the panic of an index. *)
Fixpoint cut_weight (page_of : Z → option Z) (sum : Z) (pairs : list Pair) : option (Declining Z) :=
  match pairs with
  | [] => Some (Ok sum)
  | (from, to, weight) :: pairs' =>
      p ← page_of from;
      q ← page_of to;
      if p =? q then cut_weight page_of sum pairs'
      else match checked_u 64 (sum + weight) with
           | Some sum' => cut_weight page_of sum' pairs'
           | None => Some (Err Overflow)
           end
  end.

(** The validated input. *)
Record Validated := mkValidated {
  v_sprites : SpriteMap;
  v_packed_sizes : SizeMap;
  v_pages : PageMap;
  v_existing_page_bytes : Z;
  v_baseline : BaselineMap;
  v_baseline_page_counts : CountMap;
  v_pairs : list Pair;
  v_adjacency : Adjacency;
  v_baseline_cut : Z;
}.

Definition baseline_page_of (baseline : BaselineMap) (id : Z) : option Z :=
  bl_page_id <$> map_get id baseline.

Definition validate (input : AtlasPlanningInput) : option (Declining Validated) :=
  match check_counts input with
  | Some reason => Some (Err reason)
  | None =>
      let! (sprites, packed_sizes) := Some (sprite_loop (in_sprites input) [] []) in
      let! (pages, existing_page_bytes) := Some (page_loop (in_pages input) [] 0) in
      if current_device_bytes (in_budget input) <? existing_page_bytes
      then Some (Err InvalidMemoryAccounting)
      else
        let! (baseline, counts) :=
          Some (baseline_loop sprites pages (in_baseline_placements input) [] [] []) in
        if negb (length baseline =? length sprites)%nat then Some (Err MissingBaselinePlacement)
        else
          let! st := Some (pair_loop sprites (in_pair_weights input) (mkPairState [] [] 0 [])) in
          let! cut := cut_weight (baseline_page_of baseline) 0 (ps_pairs st) in
          Some (Ok (mkValidated sprites packed_sizes pages existing_page_bytes baseline counts
                      (ps_pairs st) (sort_neighbors (ps_adjacency st)) cut))
  end.

Definition baseline_metrics_of (input : AtlasPlanningInput) (v : Validated) : AtlasMetrics :=
  mkMetrics (length (v_baseline_page_counts v)) (length (v_baseline_page_counts v)) 0
    (v_baseline_cut v) (v_baseline_cut v) 0
    (wrap 64 (foldr Z.add 0 (allocation_bytes <$>
       omap (λ e, map_get e.1 (v_pages v)) (v_baseline_page_counts v))))
    (current_device_bytes (in_budget input)) (current_device_bytes (in_budget input)).

(** ** Clusters *)

Definition area (size : Z * Z) : Z := size.1 * size.2.

(** [sort_by] of [ordered_cluster_members]: area, height and width descending, then id. *)
Definition member_le (packed_sizes : SizeMap) (a b : AtlasSpriteDescriptor) : bool :=
  let sa := default (0, 0) (map_get (sp_id a) packed_sizes) in
  let sb := default (0, 0) (map_get (sp_id b) packed_sizes) in
  match cmp (area sb, sb.2, sb.1, sp_id a) (area sa, sa.2, sa.1, sp_id b) with
  | Gt => false
  | _ => true
  end.

Definition ordered_cluster_members (member_ids : list Z) (sprites : SpriteMap)
    (packed_sizes : SizeMap) : option (list AtlasSpriteDescriptor) :=
  members ← mapM (λ id, map_get id sprites) member_ids;
  _ ← mapM (λ s, map_get (sp_id s) packed_sizes) members;
  Some (sort_by (member_le packed_sizes) members).

Definition counted_try_place (st : PagePackingState) (size : Z * Z) (pack_probes : Z)
    : Declining (option PlacementChoice * Z) :=
  if MAX_ATLAS_CLUSTER_PACK_PROBES <=? pack_probes then Err ClusterSearchLimitExceeded
  else Ok (try_place st size.1 size.2, pack_probes + 1).

(** Place the members one after the other on an empty page. *)
Fixpoint fits_page (packed_sizes : SizeMap) (members : list AtlasSpriteDescriptor)
    (st : PagePackingState) (pack_probes : Z) : option (Declining (bool * Z)) :=
  match members with
  | [] => Some (Ok (true, pack_probes))
  | sprite :: members' =>
      size ← map_get (sp_id sprite) packed_sizes;
      let! (choice, pack_probes) := Some (counted_try_place st size pack_probes) in
      match choice with
      | None => Some (Ok (false, pack_probes))
      | Some ch => fits_page packed_sizes members' (mkPacking (pk_page st) (ch_shelves ch)) pack_probes
      end
  end.

Fixpoint fits_any (packed_sizes : SizeMap) (members : list AtlasSpriteDescriptor)
    (pages : list AtlasPageExtent) (pack_probes : Z) : option (Declining (bool * Z)) :=
  match pages with
  | [] => Some (Ok (false, pack_probes))
  | page :: pages' =>
      let! (fits, pack_probes) :=
        fits_page packed_sizes members (PagePackingState_new page) pack_probes in
      if fits then Some (Ok (true, pack_probes))
      else fits_any packed_sizes members pages' pack_probes
  end.

Definition cluster_fits_any_page (member_ids : list Z) (compatibility : AtlasCompatibilityKey)
    (sprites : SpriteMap) (packed_sizes : SizeMap) (pages : list AtlasPageExtent) (pack_probes : Z)
    : option (Declining (bool * Z)) :=
  members ← ordered_cluster_members member_ids sprites packed_sizes;
  fits_any packed_sizes members (filter (λ p, pg_compatibility p = compatibility) pages) pack_probes.

Record MergeState := mkMergeState {
  component_for_sprite : list (Z * nat);
  component_members : list (nat * list Z);     (* sets of sprite ids *)
  next_component_id : nat;
  rejected_component_merges : list (nat * nat);
  ms_pack_probes : Z;
}.

(** Every sprite its own component. *)
Definition initial_components (sprite_ids : list Z) : MergeState :=
  mkMergeState
    (foldl (λ m e, map_insert e.2 e.1 m) [] (enumerate sprite_ids))
    (foldl (λ m e, map_insert e.1 [e.2] m) [] (enumerate sprite_ids))
    (length sprite_ids) [] 0.

(** Heaviest pair first. *)
Definition edge_le (a b : Pair) : bool :=
  match cmp (b.2, a.1.1, a.1.2) (a.2, b.1.1, b.1.2) with Gt => false | _ => true end.

(** The two components become a new one. *)
Definition merge_components (a b : nat) (members : list Z) (pack_probes : Z) (st : MergeState)
    : MergeState :=
  let merged := next_component_id st in
  mkMergeState
    (foldl (λ m id, map_insert id merged m) (component_for_sprite st) members)
    (map_insert merged members (map_remove b (map_remove a (component_members st))))
    (S merged) (rejected_component_merges st) pack_probes.

Definition compatibility_of (sprites : SpriteMap) (members : list Z) : option AtlasCompatibilityKey :=
  first ← head members;
  sp_compatibility <$> map_get first sprites.

Definition merge_edge (v : Validated) (pages : list AtlasPageExtent) (edge : Pair) (st : MergeState)
    : option (Declining MergeState) :=
  let '(from, to, _) := edge in
  from_component ← map_get from (component_for_sprite st);
  to_component ← map_get to (component_for_sprite st);
  if bool_decide (from_component = to_component) then Some (Ok st)
  else
    let component_pair := if (from_component <? to_component)%nat
                          then (from_component, to_component)
                          else (to_component, from_component) in
    if bool_decide (component_pair ∈ rejected_component_merges st) then Some (Ok st)
    else
      from_members ← map_get from_component (component_members st);
      to_members ← map_get to_component (component_members st);
      from_key ← compatibility_of (v_sprites v) from_members;
      to_key ← compatibility_of (v_sprites v) to_members;
      if negb (bool_decide (from_key = to_key)) then Some (Ok st)
      else
        let combined_members := foldl (λ acc id, set_insert id acc) from_members to_members in
        let! (can_pack, pack_probes) :=
          cluster_fits_any_page combined_members from_key (v_sprites v) (v_packed_sizes v) pages
            (ms_pack_probes st) in
        if can_pack
        then Some (Ok (merge_components from_component to_component combined_members pack_probes st))
        else Some (Ok (mkMergeState (component_for_sprite st) (component_members st)
                         (next_component_id st)
                         (set_insert component_pair (rejected_component_merges st)) pack_probes)).

Fixpoint merge_loop (v : Validated) (pages : list AtlasPageExtent) (edges : list Pair)
    (st : MergeState) : option (Declining MergeState) :=
  match edges with
  | [] => Some (Ok st)
  | edge :: edges' => let! st := merge_edge v pages edge st in merge_loop v pages edges' st
  end.

Record AffinityCluster := mkCluster {
  members : list Z;
  cluster_compatibility : AtlasCompatibilityKey;
  strongest_edge_weight : Z;
  internal_edge_weight : Z;
  padded_area : Z;
  first_sprite_id : Z;
}.

Fixpoint sum_area (packed_sizes : SizeMap) (ids : list Z) (sum : Z) : option (Declining Z) :=
  match ids with
  | [] => Some (Ok sum)
  | id :: ids' =>
      size ← map_get id packed_sizes;
      let! sum := Some (ok_or (checked_u 64 (sum + area size)) Overflow) in
      sum_area packed_sizes ids' sum
  end.

Fixpoint cluster_loop (v : Validated) (components : list (nat * list Z))
    (clusters : list (nat * AffinityCluster)) : option (Declining (list (nat * AffinityCluster))) :=
  match components with
  | [] => Some (Ok clusters)
  | (component_id, ids) :: components' =>
      match ids with
      | [] => cluster_loop v components' clusters
      | first :: _ =>
          sprite ← map_get first (v_sprites v);
          let! total := sum_area (v_packed_sizes v) ids 0 in
          cluster_loop v components'
            (map_insert component_id (mkCluster ids (sp_compatibility sprite) 0 0 total first) clusters)
      end
  end.

Fixpoint weigh_loop (component_of : list (Z * nat)) (pairs : list Pair)
    (clusters : list (nat * AffinityCluster)) : option (Declining (list (nat * AffinityCluster))) :=
  match pairs with
  | [] => Some (Ok clusters)
  | (from, to, weight) :: pairs' =>
      from_component ← map_get from component_of;
      to_component ← map_get to component_of;
      if negb (from_component =? to_component)%nat then weigh_loop component_of pairs' clusters
      else
        c ← map_get from_component clusters;
        let! total := Some (ok_or (checked_u 64 (internal_edge_weight c + weight)) Overflow) in
        weigh_loop component_of pairs'
          (map_insert from_component
             (mkCluster (members c) (cluster_compatibility c)
                (Z.max (strongest_edge_weight c) weight) total (padded_area c) (first_sprite_id c))
             clusters)
  end.

Definition cluster_le (a b : AffinityCluster) : bool :=
  match cmp (strongest_edge_weight b, internal_edge_weight b, padded_area b, first_sprite_id a)
            (strongest_edge_weight a, internal_edge_weight a, padded_area a, first_sprite_id b) with
  | Gt => false
  | _ => true
  end.

(** The clusters in the order they are placed, and the probes used. *)
Definition build_clusters (v : Validated) (pages : list AtlasPageExtent)
    : option (Declining (list AffinityCluster * Z)) :=
  let! st := merge_loop v pages (sort_by edge_le (v_pairs v))
               (initial_components (v_sprites v).*1) in
  let! clusters := cluster_loop v (component_members st) [] in
  let! clusters := weigh_loop (component_for_sprite st) (v_pairs v) clusters in
  Some (Ok (sort_by cluster_le clusters.*2, ms_pack_probes st)).

(** ** Placement *)

Record PackedCluster := mkPacked {
  pc_state : PagePackingState;
  pc_placements : list AtlasPlacement;
  external_affinity : Z;
  baseline_page_matches : nat;
  fit_slack : Z;
}.

Definition PlacementMap := list (Z * AtlasPlacement).

Fixpoint pack_members (packed_sizes : SizeMap) (l : list AtlasSpriteDescriptor)
    (st : PagePackingState) (placements : list AtlasPlacement) (slack : Z) (pack_probes : Z)
    : option (Declining (option (PagePackingState * list AtlasPlacement * Z) * Z)) :=
  match l with
  | [] => Some (Ok (Some (st, placements, slack), pack_probes))
  | sprite :: l' =>
      size ← map_get (sp_id sprite) packed_sizes;
      let! (choice, pack_probes) := Some (counted_try_place st size pack_probes) in
      match choice with
      | None => Some (Ok (None, pack_probes))
      | Some ch =>
          let! x := Some (ok_or (checked_u 32 (ch_x ch + sp_padding sprite)) Overflow) in
          let! y := Some (ok_or (checked_u 32 (ch_y ch + sp_padding sprite)) Overflow) in
          let! slack := Some (ok_or (checked_u 64 (slack + vertical_slack ch)) Overflow) in
          let! slack := Some (ok_or (checked_u 64 (slack + horizontal_slack ch)) Overflow) in
          pack_members packed_sizes l' (mkPacking (pk_page st) (ch_shelves ch))
            (placements ++ [mkPlacement (sp_id sprite) (pg_id (pk_page st)) x y (sp_width sprite)
                              (sp_height sprite) (ch_x ch) (ch_y ch) (ch_width ch) (ch_height ch)])
            slack pack_probes
      end
  end.

Fixpoint neighbor_affinity (assigned : PlacementMap) (page_id : Z) (neighbors : list (Z * Z)) (sum : Z)
    : Declining Z :=
  match neighbors with
  | [] => Ok sum
  | (id, weight) :: neighbors' =>
      if match map_get id assigned with Some p => pl_page_id p =? page_id | None => false end
      then let? sum := ok_or (checked_u 64 (sum + weight)) Overflow in
           neighbor_affinity assigned page_id neighbors' sum
      else neighbor_affinity assigned page_id neighbors' sum
  end.

Fixpoint member_affinity (assigned : PlacementMap) (adjacency : Adjacency) (page_id : Z)
    (l : list AtlasSpriteDescriptor) (sum : Z) : Declining Z :=
  match l with
  | [] => Ok sum
  | sprite :: l' =>
      let? sum := neighbor_affinity assigned page_id
                    (default [] (map_get (sp_id sprite) adjacency)) sum in
      member_affinity assigned adjacency page_id l' sum
  end.

Definition pack_cluster_on_page (v : Validated) (l : list AtlasSpriteDescriptor)
    (st : PagePackingState) (assigned : PlacementMap) (pack_probes : Z)
    : option (Declining (option PackedCluster * Z)) :=
  let page_id := pg_id (pk_page st) in
  let! (packed, pack_probes) := pack_members (v_packed_sizes v) l st [] 0 pack_probes in
  match packed with
  | None => Some (Ok (None, pack_probes))
  | Some (st', placements, slack) =>
      let! affinity := Some (member_affinity assigned (v_adjacency v) page_id l 0) in
      baseline ← mapM (λ s, map_get (sp_id s) (v_baseline v)) l;
      Some (Ok (Some (mkPacked st' placements affinity
                        (length (filter (λ b, bl_page_id b = page_id) baseline)) slack),
                pack_probes))
  end.

(** [should_replace] *)
Definition better (candidate current : PackedCluster) : bool :=
  (external_affinity current <? external_affinity candidate)
  || ((external_affinity candidate =? external_affinity current)
      && ((baseline_page_matches current <? baseline_page_matches candidate)%nat
          || ((baseline_page_matches candidate =? baseline_page_matches current)%nat
              && ((fit_slack candidate <? fit_slack current)
                  || ((fit_slack candidate =? fit_slack current)
                      && (pg_id (pk_page (pc_state candidate))
                          <? pg_id (pk_page (pc_state current)))))))).

Definition PageStates := list (Z * PagePackingState).

Fixpoint choose_page (v : Validated) (cluster : AffinityCluster) (l : list AtlasSpriteDescriptor)
    (states : PageStates) (assigned : PlacementMap) (pages : list AtlasPageExtent)
    (best : option PackedCluster) (pack_probes : Z)
    : option (Declining (option PackedCluster * Z)) :=
  match pages with
  | [] => Some (Ok (best, pack_probes))
  | page :: pages' =>
      if negb (bool_decide (pg_compatibility page = cluster_compatibility cluster))
      then choose_page v cluster l states assigned pages' best pack_probes
      else
        st ← map_get (pg_id page) states;
        let! (candidate, pack_probes) := pack_cluster_on_page v l st assigned pack_probes in
        let best := match candidate, best with
                    | Some c, Some b => if better c b then Some c else best
                    | Some c, None => Some c
                    | None, _ => best
                    end in
        choose_page v cluster l states assigned pages' best pack_probes
  end.

Definition place_cluster (v : Validated) (pages : list AtlasPageExtent) (cluster : AffinityCluster)
    (states : PageStates) (assigned : PlacementMap) (pack_probes : Z)
    : option (Declining (PageStates * PlacementMap * Z)) :=
  l ← ordered_cluster_members (members cluster) (v_sprites v) (v_packed_sizes v);
  let! (best, pack_probes) := choose_page v cluster l states assigned pages None pack_probes in
  match best with
  | None => Some (Err NoFeasiblePlacement)
  | Some b =>
      Some (Ok (map_insert (pg_id (pk_page (pc_state b))) (pc_state b) states,
                foldl (λ m p, map_insert (pl_sprite_id p) p m) assigned (pc_placements b),
                pack_probes))
  end.

Fixpoint place_loop (v : Validated) (pages : list AtlasPageExtent) (clusters : list AffinityCluster)
    (states : PageStates) (assigned : PlacementMap) (pack_probes : Z)
    : option (Declining PlacementMap) :=
  match clusters with
  | [] => Some (Ok assigned)
  | cluster :: clusters' =>
      let! (states, assigned, pack_probes) :=
        place_cluster v pages cluster states assigned pack_probes in
      place_loop v pages clusters' states assigned pack_probes
  end.

Definition initial_states (pages : list AtlasPageExtent) : PageStates :=
  map_of_list ((λ p, (pg_id p, PagePackingState_new p)) <$> pages).

(** ** The result *)

Definition moved (baseline : AtlasBaselinePlacement) (p : AtlasPlacement) : bool :=
  negb ((bl_page_id baseline =? pl_page_id p) && (bl_x baseline =? pl_x p)
        && (bl_y baseline =? pl_y p) && (bl_width baseline =? pl_width p)
        && (bl_height baseline =? pl_height p)).

(** Pages used, sprites per page and moved sprites. *)
Fixpoint usage_loop (baseline : BaselineMap) (placements : PlacementMap) (used : list Z)
    (counts : CountMap) (moved_count : nat) : option (list Z * CountMap * nat) :=
  match placements with
  | [] => Some (used, counts, moved_count)
  | (id, p) :: placements' =>
      previous ← map_get id baseline;
      usage_loop baseline placements' (set_insert (pl_page_id p) used)
        (entry_update (pl_page_id p) 0%nat S counts)
        (if moved previous p then S moved_count else moved_count)
  end.

Fixpoint planned_pages_loop (pages : PageMap) (counts : CountMap) (used : list Z)
    (planned : list AtlasPlannedPage) (bytes : Z) : option (Declining (list AtlasPlannedPage * Z)) :=
  match used with
  | [] => Some (Ok (planned, bytes))
  | page_id :: used' =>
      page ← map_get page_id pages;
      let! bytes := Some (ok_or (checked_u 64 (bytes + allocation_bytes page)) Overflow) in
      count ← map_get page_id counts;
      planned_pages_loop pages counts used'
        (planned ++ [mkPlannedPage (pg_id page) (pg_compatibility page) (pg_width page)
                       (pg_height page) (usable_origin_x page) (usable_origin_y page)
                       (allocation_bytes page) count]) bytes
  end.

Definition placement_page_of (placements : PlacementMap) (id : Z) : option Z :=
  pl_page_id <$> map_get id placements.

Definition saturating_sub (a b : Z) : Z := Z.max 0 (a - b).

(** The candidate's pages and metrics. *)
Definition measure (input : AtlasPlanningInput) (v : Validated) (placements : PlacementMap)
    : option (Declining (list AtlasPlannedPage * AtlasMetrics)) :=
  let current := current_device_bytes (in_budget input) in
  let! cut := cut_weight (placement_page_of placements) 0 (v_pairs v) in
  usage ← usage_loop (v_baseline v) placements [] [] 0%nat;
  let '(used, counts, moved_count) := usage in
  let! (planned, bytes) := planned_pages_loop (v_pages v) counts used [] 0 in
  let! final :=
    Some (ok_or (unaffected ← checked_u 64 (current - v_existing_page_bytes v);
                 checked_u 64 (unaffected + bytes)) Overflow) in
  let! peak := Some (ok_or (checked_u 64 (current + bytes)) Overflow) in
  Some (Ok (planned,
            mkMetrics (length (v_baseline_page_counts v)) (length planned) moved_count
              (v_baseline_cut v) cut (saturating_sub (v_baseline_cut v) cut) bytes final peak)).

Definition accept (input : AtlasPlanningInput) (baseline : AtlasMetrics) (placements : PlacementMap)
    (planned : list AtlasPlannedPage) (m : AtlasMetrics) : AtlasPlanningResult :=
  if (max_final_bytes (in_budget input) <? final_device_bytes m)
     || (max_peak_bytes (in_budget input) <? peak_device_bytes m)
  then declined MemoryBudgetExceeded (Some baseline) (Some m)
  else if baseline_cut_weight m <=? candidate_cut_weight m
  then declined NonImproving (Some baseline) (Some m)
  else mkResult (Some (mkPlan placements.*2 planned m)) (Some baseline) (Some m) None.

(** The candidate placements: clusters, heaviest first, each on its best page. *)
Definition plan_candidate (v : Validated) : option (Declining PlacementMap) :=
  let sorted_pages := (v_pages v).*2 in
  let! (clusters, pack_probes) := build_clusters v sorted_pages in
  place_loop v sorted_pages clusters (initial_states sorted_pages) [] pack_probes.

Definition plan_atlas_affinity (input : AtlasPlanningInput) : option AtlasPlanningResult :=
  match validate input with
  | None => None
  | Some (Err reason) => Some (declined reason None None)
  | Some (Ok v) =>
      let baseline := baseline_metrics_of input v in
      match plan_candidate v with
      | None => None
      | Some (Err reason) => Some (declined reason (Some baseline) None)
      | Some (Ok placements) =>
          match measure input v placements with
          | None => None
          | Some (Err reason) => Some (declined reason (Some baseline) None)
          | Some (Ok (planned, m)) => Some (accept input baseline placements planned m)
          end
      end
  end.
