(* ===== verification/AtlasInv.v ===== *)
(** * The atlas planner: validation and clusters

    A Hoare-style predicate for computations that may panic or decline
    ([outcome]), what the validation establishes ([valid]) and the invariant of the
    merging loop: components partition the sprites and share one compatibility key. *)

From S2P Require Import Prelude BTree AtlasPacking AtlasPlanner.
#[local] Set Warnings "-clear-no-such-hyp".
#[local] Open Scope Z_scope.

(** ** Outcomes *)

(** The computation does not panic, and a result satisfies [P]. *)
Definition outcome {T E} (P : T → Prop) (r : option (Result T E)) : Prop :=
  match r with Some (Ok v) => P v | Some (Err _) => True | None => False end.

Lemma outcome_bind {T U E} (Q : T → Prop) (P : U → Prop) (r : option (Result T E)) k :
  outcome Q r → (∀ v, Q v → outcome P (k v)) → outcome P (panic_bind r k).
Proof. destruct r as [[v|e]|]; cbn; auto. Qed.

Lemma outcome_mono {T E} (P Q : T → Prop) (r : option (Result T E)) :
  outcome P r → (∀ v, P v → Q v) → outcome Q r.
Proof. destruct r as [[v|e]|]; cbn; auto. Qed.

(** A pure step: its equation is kept. *)
Lemma outcome_pure {T U E} (P : U → Prop) (r : Result T E) k :
  (∀ v, r = Ok v → outcome P (k v)) → outcome P (panic_bind (Some r) k).
Proof. destruct r as [v|e]; cbn; auto. Qed.

Lemma ok_or_inv {T E} (o : option T) (e : E) v : ok_or o e = Ok v → o = Some v.
Proof. destruct o; cbn; congruence. Qed.

(** ** Maps *)

Section map_lemmas.
Context `{OrdKey K} {V : Type}.
Implicit Types (m : list (K * V)) (k : K) (v : V).

Lemma sorted_map_ext m m' :
  sorted_map m → sorted_map m' → (∀ k, map_get k m = map_get k m') → m = m'.
Proof.
  intros Hm Hm' Hext.
  assert (∀ e, e ∈ m ↔ e ∈ m') as Hin.
  { intros [k v]. by rewrite <- !map_get_elem, Hext by done. }
  assert (m.*1 = m'.*1) as Hk.
  { apply sorted_keys_unique; [done..|]. intros k. rewrite !list_elem_of_fmap. set_solver. }
  clear Hm' Hin. revert m' Hext Hk Hm. induction m as [|[k v] m IH]; intros [|[k' v'] m'] Hext Hk Hm;
    try done. rewrite !fmap_cons in Hk. cbn [fst] in Hk. injection Hk as <- Hk.
  pose proof (Hext k) as Hv. cbn [map_get] in Hv. rewrite cmp_refl in Hv. injection Hv as <-.
  f_equal. unfold sorted_map in Hm. rewrite fmap_cons in Hm. cbn [fst] in Hm.
  inversion_clear Hm as [|? ? Hm0 Hall].
  apply IH; [|done|done]. intros j. specialize (Hext j). cbn [map_get] in Hext.
  assert (sorted_map m') as Hm0' by (unfold sorted_map; by rewrite <- Hk).
  rewrite Forall_forall in Hall.
  assert (cmp j k ≠ Gt → map_get j m = map_get j m') as Hlow.
  { intros Hle. assert (j ∉ m.*1) as Hj.
    { intros Hlt%Hall. destruct (cmp j k) eqn:E; [| |done].
      - apply cmp_eq in E as ->. by apply (key_lt_irrefl k).
      - apply (key_lt_irrefl j). by etrans. }
    rewrite (proj2 (map_get_keys_None j m Hm0) Hj).
    rewrite Hk in Hj. by rewrite (proj2 (map_get_keys_None j m' Hm0') Hj). }
  destruct (cmp j k); [by apply Hlow|by apply Hlow|done].
Qed.

Lemma map_insert_new_length k v m :
  sorted_map m → map_get k m = None → length (map_insert k v m) = S (length m).
Proof.
  intros Hm Hk. induction m as [|[k' v'] m IH]; [done|].
  cbn [map_insert map_get] in *. destruct (cmp k k') eqn:E; [done|done|].
  cbn. f_equal. apply IH; [|done]. unfold sorted_map in *. rewrite fmap_cons in Hm.
  by inversion_clear Hm.
Qed.

(** Inserting one value under many keys. *)
Lemma fold_insert_const_sorted (l : list K) v m :
  sorted_map m → sorted_map (foldl (λ m k, map_insert k v m) m l).
Proof. revert m. induction l as [|k l IH]; intros m Hm; [done|]. by apply IH, map_insert_sorted. Qed.

Lemma map_get_fold_const (l : list K) v m j :
  sorted_map m →
  map_get j (foldl (λ m k, map_insert k v m) m l) = if decide (j ∈ l) then Some v else map_get j m.
Proof.
  revert m. induction l as [|k l IH]; intros m Hm; cbn [foldl].
  { rewrite decide_False; [done|]. apply not_elem_of_nil. }
  rewrite IH by by apply map_insert_sorted. rewrite map_get_insert_case by done.
  destruct (decide (j ∈ l)) as [Hj|Hj].
  - rewrite decide_True; [done|]. by right.
  - destruct (decide (j = k)) as [->|]; [rewrite decide_True; [done|by left]|].
    rewrite decide_False; [done|]. by intros [?|?]%elem_of_cons.
Qed.

Lemma map_get_cons k v m j :
  sorted_map ((k, v) :: m) →
  map_get j ((k, v) :: m) = if decide (j = k) then Some v else map_get j m.
Proof.
  intros Hm. assert (sorted_map m) as Hm'.
  { unfold sorted_map in *. rewrite fmap_cons in Hm. by inversion_clear Hm. }
  apply option_eq. intros w. rewrite map_get_elem by done. rewrite elem_of_cons.
  case_decide as Hj; [subst j|].
  - split; [|intros [= <-]; by left]. intros [[= <-]|Hin]; [done|].
    unfold sorted_map in Hm. rewrite fmap_cons in Hm. inversion_clear Hm as [|? ? _ Hall].
    rewrite Forall_forall in Hall. exfalso. apply (key_lt_irrefl k), Hall.
    by apply (list_elem_of_fmap_2' fst m (k, w)).
  - rewrite map_get_elem by done. split; [|by right]. intros [[= ? ?]|?]; [congruence|done].
Qed.

Lemma sorted_map_NoDup m : sorted_map m → NoDup m.*1.
Proof. apply sorted_keys_NoDup. Qed.

Lemma contains_key_true k m : contains_key k m = true ↔ is_Some (map_get k m).
Proof. unfold contains_key. destruct (map_get k m); split; try done; by intros []. Qed.

Lemma contains_key_false k m : contains_key k m = false ↔ map_get k m = None.
Proof. unfold contains_key. by destruct (map_get k m). Qed.
End map_lemmas.

(** ** Well-typed input *)

Definition sprite_typed (s : AtlasSpriteDescriptor) : Prop :=
  in_u 32 (sp_width s) ∧ in_u 32 (sp_height s) ∧ in_u 32 (sp_padding s).

Definition page_typed (g : AtlasPageExtent) : Prop :=
  in_u 32 (usable_origin_x g) ∧ in_u 32 (usable_origin_y g)
  ∧ in_u 32 (pg_width g) ∧ in_u 32 (pg_height g) ∧ in_u 64 (allocation_bytes g).

Record input_typed (input : AtlasPlanningInput) : Prop := {
  typed_sprites : ∀ s, s ∈ in_sprites input → sprite_typed s;
  typed_pages : ∀ g, g ∈ in_pages input → page_typed g;
  typed_pairs : ∀ w, w ∈ in_pair_weights input → in_u 64 (pw_weight w);
  typed_current : in_u 64 (current_device_bytes (in_budget input));
}.

(** ** What the validation establishes *)

Definition padded (s : AtlasSpriteDescriptor) : Z * Z :=
  (sp_width s + sp_padding s * 2, sp_height s + sp_padding s * 2).

Lemma padded_size_inv s size :
  padded_size s = Ok size → size = padded s ∧ in_u 32 (padded s).1 ∧ in_u 32 (padded s).2.
Proof.
  unfold padded_size, padded.
  destruct (checked_u 32 (sp_padding s * 2)) as [t|] eqn:Et; cbn; [|done].
  apply checked_u_Some in Et as [_ ->].
  destruct (checked_u 32 (sp_width s + _)) as [w|] eqn:Ew; cbn; [|done].
  apply checked_u_Some in Ew as [Hw ->].
  destruct (checked_u 32 (sp_height s + _)) as [h|] eqn:Eh; cbn; [|done].
  apply checked_u_Some in Eh as [Hh ->]. by intros <-%Ok_inj.
Qed.

Lemma sprite_loop_inv l sp pk sp' pk' seen :
  sprite_loop l sp pk = Ok (sp', pk') → sorted_map sp → sorted_map pk →
  (∀ id s, map_get id sp = Some s ↔ s ∈ seen ∧ sp_id s = id) →
  (∀ id, map_get id pk = padded <$> map_get id sp) →
  (∀ s, s ∈ seen → in_u 32 (padded s).1 ∧ in_u 32 (padded s).2 ∧ sp_width s ≠ 0 ∧ sp_height s ≠ 0) →
  length sp = length seen →
  sorted_map sp' ∧ sorted_map pk'
  ∧ (∀ id s, map_get id sp' = Some s ↔ s ∈ seen ++ l ∧ sp_id s = id)
  ∧ (∀ id, map_get id pk' = padded <$> map_get id sp')
  ∧ (∀ s, s ∈ seen ++ l → in_u 32 (padded s).1 ∧ in_u 32 (padded s).2
          ∧ sp_width s ≠ 0 ∧ sp_height s ≠ 0)
  ∧ length sp' = length (seen ++ l).
Proof.
  revert sp pk seen. induction l as [|s l IH]; intros sp pk seen; cbn [sprite_loop].
  { intros [= <- <-]. rewrite app_nil_r. tauto. }
  destruct (contains_key (sp_id s) sp) eqn:Ek; [done|]. apply contains_key_false in Ek.
  destruct (negb (is_known _)); [done|].
  destruct (_ || _) eqn:Ez; [done|]. apply orb_false_iff in Ez as [Ew%Z.eqb_neq Eh%Z.eqb_neq].
  destruct (padded_size s) as [size|] eqn:Es; [|done]. cbn [result_bind].
  apply padded_size_inv in Es as (-> & Hw & Hh). intros Hl Hsp Hpk Hget Hsz Hseen Hlen.
  rewrite cons_middle, app_assoc. eapply IH; [exact Hl|by apply map_insert_sorted..| | | |].
  - intros id t. rewrite map_get_insert_case by done. rewrite elem_of_app, list_elem_of_singleton.
    case_decide as Hid; [subst id|].
    + split; [intros [= <-]; tauto|]. intros [[Ht| ->] Hid]; [|done].
      assert (map_get (sp_id s) sp = Some t) as E by by apply Hget. by rewrite Ek in E.
    + rewrite Hget. split; [tauto|]. intros [[?| ->] ?]; [done|congruence].
  - intros id. rewrite !map_get_insert_case by done. by case_decide.
  - intros t [?| ->%list_elem_of_singleton]%elem_of_app; auto.
  - rewrite map_insert_new_length, length_app by done. cbn. lia.
Qed.

Lemma page_loop_inv l pages n pages' n' seen :
  page_loop l pages n = Ok (pages', n') → sorted_map pages → (∀ g, g ∈ l → page_typed g) →
  (∀ id g, map_get id pages = Some g ↔ g ∈ seen ∧ pg_id g = id) →
  (∀ g, g ∈ seen → page_wf g ∧ 0 ≤ allocation_bytes g) →
  sorted_map pages'
  ∧ (∀ id g, map_get id pages' = Some g ↔ g ∈ seen ++ l ∧ pg_id g = id)
  ∧ (∀ g, g ∈ seen ++ l → page_wf g ∧ 0 ≤ allocation_bytes g)
  ∧ n' = n + foldr Z.add 0 (allocation_bytes <$> l).
Proof.
  revert pages n seen. induction l as [|g l IH]; intros pages n seen; cbn [page_loop].
  { intros [= <- <-] ? ? ? ?. rewrite app_nil_r. cbn. split_and!; try done; lia. }
  destruct (contains_key (pg_id g) pages) eqn:Ek; [done|]. apply contains_key_false in Ek.
  destruct (negb (is_known _)); [done|].
  destruct (_ || _ || _ || _) eqn:Ez; [done|].
  rewrite !orb_false_iff, !Z.eqb_neq, !Z.leb_gt in Ez. destruct Ez as [[[? ?] ?] ?].
  destruct (ok_or _ _) as [b|] eqn:Eb; [|done]. cbn [result_bind].
  destruct (negb _) eqn:Ebytes; [done|].
  destruct (ok_or (checked_u 64 (n + _)) _) as [n1|] eqn:En; [|done]. cbn [result_bind].
  apply ok_or_inv, checked_u_Some in En as [Hn1 ->]. intros Hl Hs Htyped Hget Hseen.
  assert (page_typed g) as Hg by (apply Htyped; by left).
  cut (sorted_map pages'
    ∧ (∀ id g', map_get id pages' = Some g' ↔ g' ∈ (seen ++ [g]) ++ l ∧ pg_id g' = id)
    ∧ (∀ g', g' ∈ (seen ++ [g]) ++ l → page_wf g' ∧ 0 ≤ allocation_bytes g')
    ∧ n' = (n + allocation_bytes g) + foldr Z.add 0 (allocation_bytes <$> l)).
  { rewrite <- app_assoc. cbn. intros (? & ? & ? & ?). split_and!; try done; lia. }
  eapply IH; [exact Hl|by apply map_insert_sorted|..].
  - intros g' Hg'. apply Htyped. by right.
  - intros id t. rewrite map_get_insert_case by done. rewrite elem_of_app, list_elem_of_singleton.
    case_decide as Hid; [subst id|].
    + split; [intros [= <-]; tauto|]. intros [[Ht| ->] Hid]; [|done].
      assert (map_get (pg_id g) pages = Some t) as E by by apply Hget. by rewrite Ek in E.
    + rewrite Hget. split; [tauto|]. intros [[?| ->] ?]; [done|congruence].
  - intros t [?| ->%list_elem_of_singleton]%elem_of_app; [auto|].
    unfold page_typed, page_wf, in_u in *. lia.
Qed.

Lemma baseline_loop_inv sprites pages l bl c rs bl' c' seen :
  baseline_loop sprites pages l bl c rs = Ok (bl', c') → sorted_map bl →
  (∀ id b, map_get id bl = Some b ↔ b ∈ seen ∧ bl_sprite_id b = id) →
  (∀ id, is_Some (map_get id bl) → is_Some (map_get id sprites)) →
  sorted_map bl' ∧ (∀ id b, map_get id bl' = Some b ↔ b ∈ seen ++ l ∧ bl_sprite_id b = id)
  ∧ (∀ id, is_Some (map_get id bl') → is_Some (map_get id sprites)).
Proof.
  revert bl c rs seen. induction l as [|p l IH]; intros bl c rs seen; cbn [baseline_loop].
  { intros [= <- <-]. rewrite app_nil_r. tauto. }
  destruct (contains_key (bl_sprite_id p) bl) eqn:Ek; [done|]. apply contains_key_false in Ek.
  destruct (map_get (bl_sprite_id p) sprites) as [s|] eqn:Es; [|done]. cbn [ok_or result_bind].
  destruct (map_get (bl_page_id p) pages) as [g|]; [|done]. cbn [ok_or result_bind].
  destruct (negb _); [done|]. destruct (baseline_rect g p) as [r|]; [|done]. cbn [result_bind].
  destruct (existsb _ _); [done|]. intros Hl Hs Hget Hdom.
  rewrite cons_middle, app_assoc. eapply IH; [exact Hl|by apply map_insert_sorted|..].
  - intros id t. rewrite map_get_insert_case by done. rewrite elem_of_app, list_elem_of_singleton.
    case_decide as Hid; [subst id|].
    + split; [intros [= <-]; tauto|]. intros [[Ht| ->] Hid]; [|done].
      assert (map_get (bl_sprite_id p) bl = Some t) as E by by apply Hget. by rewrite Ek in E.
    + rewrite Hget. split; [tauto|]. intros [[?| ->] ?]; [done|congruence].
  - intros id. rewrite map_get_insert_case by done. case_decide; subst; [by rewrite Es|auto].
Qed.

Lemma pair_loop_inv sprites l st st' :
  pair_loop sprites l st = Ok st' → (∀ w, w ∈ l → in_u 64 (pw_weight w)) →
  ps_pairs st' = ps_pairs st ++ ((λ w, (from_sprite_id w, to_sprite_id w, pw_weight w)) <$> l)
  ∧ (∀ w, w ∈ l → is_Some (map_get (from_sprite_id w) sprites)
                 ∧ is_Some (map_get (to_sprite_id w) sprites) ∧ 0 < pw_weight w).
Proof.
  revert st. induction l as [|p l IH]; intros st; cbn [pair_loop].
  { intros [= <-] _. split; [by rewrite app_nil_r|]. by intros w ?%not_elem_of_nil. }
  destruct (_ || _) eqn:E1; [done|]. apply orb_false_iff in E1 as [_ E1%Z.eqb_neq].
  destruct (_ <? _); [done|].
  destruct (negb (contains_key (from_sprite_id p) sprites) || _) eqn:E2; [done|].
  apply orb_false_iff in E2 as [E2%negb_false_iff%contains_key_true E3%negb_false_iff%contains_key_true].
  case_bool_decide; [done|]. destruct (ok_or _ _) as [total|]; [|done]. cbn [result_bind].
  intros Hl Ht. apply IH in Hl as [Hp Hw]; [|intros w Hw; apply Ht; by right].
  split.
  - rewrite Hp. cbn. by rewrite <- app_assoc.
  - intros w [->|?]%elem_of_cons; [|auto]. split_and!; try done.
    assert (in_u 64 (pw_weight p)) as Hu by (apply Ht; by left). unfold in_u in Hu. lia.
Qed.

(** The validated input. *)
Record valid (input : AtlasPlanningInput) (v : Validated) : Prop := {
  valid_sprites_sorted : sorted_map (v_sprites v);
  valid_sizes_sorted : sorted_map (v_packed_sizes v);
  valid_pages_sorted : sorted_map (v_pages v);
  valid_baseline_sorted : sorted_map (v_baseline v);
  valid_sprite : ∀ id s, map_get id (v_sprites v) = Some s ↔ s ∈ in_sprites input ∧ sp_id s = id;
  valid_sprite_count : length (v_sprites v) = length (in_sprites input);
  valid_size : ∀ id, map_get id (v_packed_sizes v) = padded <$> map_get id (v_sprites v);
  valid_extent : ∀ s, s ∈ in_sprites input → in_u 32 (padded s).1 ∧ in_u 32 (padded s).2
    ∧ sp_width s ≠ 0 ∧ sp_height s ≠ 0;
  valid_page : ∀ id g, map_get id (v_pages v) = Some g ↔ g ∈ in_pages input ∧ pg_id g = id;
  valid_page_wf : ∀ g, g ∈ in_pages input → page_wf g ∧ 0 ≤ allocation_bytes g;
  valid_baseline : ∀ id, is_Some (map_get id (v_baseline v)) ↔ is_Some (map_get id (v_sprites v));
  valid_baseline_get : ∀ id b, map_get id (v_baseline v) = Some b ↔
    b ∈ in_baseline_placements input ∧ bl_sprite_id b = id;
  valid_pairs : v_pairs v =
    (λ w, (from_sprite_id w, to_sprite_id w, pw_weight w)) <$> in_pair_weights input;
  valid_pair : ∀ w, w ∈ in_pair_weights input →
    is_Some (map_get (from_sprite_id w) (v_sprites v))
    ∧ is_Some (map_get (to_sprite_id w) (v_sprites v)) ∧ 0 < pw_weight w;
  valid_cut : cut_weight (baseline_page_of (v_baseline v)) 0 (v_pairs v) = Some (Ok (v_baseline_cut v));
  valid_existing :
    v_existing_page_bytes v = foldr Z.add 0 (allocation_bytes <$> in_pages input);
}.

(** A map whose keys lie in a map of the same size has the same keys. *)
Lemma same_keys {K V W} `{OrdKey K} (m : list (K * V)) (m' : list (K * W)) k :
  sorted_map m → sorted_map m' → length m = length m' →
  (∀ k, is_Some (map_get k m) → is_Some (map_get k m')) →
  is_Some (map_get k m') → is_Some (map_get k m).
Proof.
  intros Hm Hm' Hlen Hsub. rewrite !map_get_keys by done.
  assert (m.*1 ⊆+ m'.*1) as Hs.
  { apply NoDup_submseteq; [by apply sorted_map_NoDup|]. intros j.
    rewrite <- !map_get_keys by done. apply Hsub. }
  apply submseteq_length_Permutation in Hs; [by rewrite Hs|]. rewrite !length_fmap. lia.
Qed.

(** Cutting never panics when every pair has its pages. *)
Lemma cut_weight_outcome page_of sum pairs :
  (∀ e, e ∈ pairs → is_Some (page_of e.1.1) ∧ is_Some (page_of e.1.2)) →
  outcome (λ _, True) (cut_weight page_of sum pairs).
Proof.
  revert sum. induction pairs as [|[[f t] w] pairs IH]; intros sum He; cbn; [done|].
  destruct (He ((f, t), w)) as [[p Ep] [q Eq]]; [by left|]. cbn in Ep, Eq. rewrite Ep, Eq. cbn.
  assert (∀ e, e ∈ pairs → is_Some (page_of e.1.1) ∧ is_Some (page_of e.1.2)) as He'.
  { intros e ?. apply He. by right. }
  destruct (p =? q); [by apply IH|]. destruct (checked_u 64 _); [by apply IH|done].
Qed.

Lemma outcome_keep {T E} (P : T → Prop) (r : option (Result T E)) :
  outcome P r → outcome (λ v, P v ∧ r = Some (Ok v)) r.
Proof. destruct r as [[v|e]|]; cbn; auto. Qed.

Lemma validate_valid input : input_typed input → outcome (valid input) (validate input).
Proof.
  intros Ht. unfold validate. destruct (check_counts input); [done|].
  apply outcome_pure. intros [sprites sizes] Hs.
  eapply (sprite_loop_inv _ _ _ _ _ []) in Hs as (Hs1 & Hs2 & Hs3 & Hs4 & Hs5 & Hs6);
    [|constructor|constructor|by intros ? ?; split; [done|intros [?%not_elem_of_nil _]]|done
     |by intros ? ?%not_elem_of_nil|done].
  apply outcome_pure. intros [pages bytes] Hp.
  eapply (page_loop_inv _ _ _ _ _ []) in Hp as (Hp1 & Hp2 & Hp3 & Hp4);
    [|constructor|by apply typed_pages|by intros ? ?; split; [done|intros [?%not_elem_of_nil _]]
     |by intros ? ?%not_elem_of_nil].
  destruct (Z.ltb_spec (current_device_bytes (in_budget input)) bytes); [done|].
  apply outcome_pure. intros [bl counts] Hb.
  eapply (baseline_loop_inv _ _ _ _ _ _ _ _ []) in Hb as (Hb1 & Hb3 & Hb2);
    [|constructor|by intros ? ?; split; [done|intros [?%not_elem_of_nil _]]|by intros id [? ?]].
  destruct (length bl =? length sprites)%nat eqn:Hlen; [|done]. apply Nat.eqb_eq in Hlen. cbn [negb].
  apply outcome_pure. intros st Hst.
  apply pair_loop_inv in Hst as [Hq1 Hq2]; [|by apply typed_pairs]. cbn [ps_pairs app] in Hq1.
  assert (∀ id, is_Some (map_get id bl) ↔ is_Some (map_get id sprites)) as Hb.
  { intros id. split; [apply Hb2|]. by apply same_keys. }
  eapply outcome_bind.
  { apply outcome_keep, cut_weight_outcome. rewrite Hq1.
    intros e (w & -> & Hw)%list_elem_of_fmap. apply Hq2 in Hw as (Hf & Hto & _).
    unfold baseline_page_of. rewrite !fmap_is_Some. cbn. by rewrite !Hb. }
  intros cut [_ Hcut]. cbn [outcome]. split; cbn; try done.
Qed.
