(* ===== verification/AtlasClusters.v ===== *)
(** * The atlas planner: clusters

    Merging never panics and keeps a partition of the sprites into components of one
    compatibility key; the clusters that are placed are those components. *)

From S2P Require Import Prelude BTree AtlasPacking AtlasPlanner AtlasInv.
#[local] Set Warnings "-clear-no-such-hyp".
#[local] Open Scope Z_scope.

Section clusters.
Context (input : AtlasPlanningInput) (v : Validated).
Hypothesis Hv : valid input v.

(** ** Members *)

Definition known_sprite (id : Z) : Prop := is_Some (map_get id (v_sprites v)).

Lemma sprite_at id s : map_get id (v_sprites v) = Some s → sp_id s = id.
Proof. intros Hs. by apply (valid_sprite _ _ Hv) in Hs as [_ ?]. Qed.

Lemma size_at s :
  map_get (sp_id s) (v_sprites v) = Some s → map_get (sp_id s) (v_packed_sizes v) = Some (padded s).
Proof. intros Hs. by rewrite (valid_size _ _ Hv), Hs. Qed.

Lemma mapM_sprites ids :
  Forall known_sprite ids →
  ∃ l, mapM (λ id, map_get id (v_sprites v)) ids = Some l ∧ sp_id <$> l = ids
       ∧ Forall (λ s, map_get (sp_id s) (v_sprites v) = Some s) l.
Proof.
  induction 1 as [|id ids [s Hs] Hids (l & El & Hl & Hall)]; [by exists []|].
  exists (s :: l). cbn. rewrite Hs. cbn. rewrite El. pose proof (sprite_at _ _ Hs) as Hid.
  cbn. rewrite Hid, Hl. split_and!; [done..|]. constructor; [by rewrite Hid|done].
Qed.

Lemma mapM_sizes l :
  Forall (λ s, map_get (sp_id s) (v_sprites v) = Some s) l →
  is_Some (mapM (λ s, map_get (sp_id s) (v_packed_sizes v)) l).
Proof.
  intros Hl. apply mapM_is_Some. eapply Forall_impl; [exact Hl|].
  intros s Hs. exists (padded s). by apply size_at.
Qed.

(** The members of a cluster, in the order they are placed. *)
Lemma ordered_members ids :
  Forall known_sprite ids →
  ∃ l, ordered_cluster_members ids (v_sprites v) (v_packed_sizes v) = Some l
       ∧ (sp_id <$> l) ≡ₚ ids ∧ Forall (λ s, map_get (sp_id s) (v_sprites v) = Some s) l.
Proof.
  intros (l & El & Hl & Hall)%mapM_sprites. unfold ordered_cluster_members. rewrite El. cbn.
  destruct (mapM_sizes l Hall) as [sizes ->]. cbn. eexists. split; [done|].
  pose proof (sort_by_Permutation (member_le (v_packed_sizes v)) l) as Hp. split.
  - rewrite Hp. by rewrite Hl.
  - by rewrite Hp.
Qed.

(** ** Probing *)

Lemma fits_page_outcome l st n :
  Forall (λ s, map_get (sp_id s) (v_sprites v) = Some s) l →
  outcome (λ _, True) (fits_page (v_packed_sizes v) l st n).
Proof.
  intros Hl. revert st n. induction Hl as [|s l Hs Hl IH]; intros st n; cbn [fits_page]; [done|].
  rewrite (size_at s Hs). cbn [mbind option_bind]. apply outcome_pure. intros [[ch|] n'] _; [|done].
  apply IH.
Qed.

Lemma cluster_fits_outcome ids key pages n :
  Forall known_sprite ids →
  outcome (λ _, True) (cluster_fits_any_page ids key (v_sprites v) (v_packed_sizes v) pages n).
Proof.
  intros (l & El & _ & Hl)%ordered_members. unfold cluster_fits_any_page. rewrite El.
  cbn [mbind option_bind]. revert n.
  induction (filter (λ p, pg_compatibility p = key) pages) as [|p ps IH]; intros n; cbn [fits_any];
    [done|].
  eapply outcome_bind; [by apply fits_page_outcome|]. intros [[] n'] _; [done|apply IH].
Qed.

(** ** Components *)

Record components_ok (st : MergeState) : Prop := {
  co_of_sorted : sorted_map (component_for_sprite st);
  co_members_sorted : sorted_map (component_members st);
  co_agree : ∀ id c, map_get id (component_for_sprite st) = Some c ↔
    ∃ ms, map_get c (component_members st) = Some ms ∧ id ∈ ms;
  co_known : ∀ id, is_Some (map_get id (component_for_sprite st)) ↔ known_sprite id;
  co_members : ∀ c ms, map_get c (component_members st) = Some ms →
    ms ≠ [] ∧ sorted_keys ms ∧ (c < next_component_id st)%nat;
  co_key : ∀ c ms id s, map_get c (component_members st) = Some ms → id ∈ ms →
    map_get id (v_sprites v) = Some s →
    compatibility_of (v_sprites v) ms = Some (sp_compatibility s);
}.

Lemma component_members_known st c ms :
  components_ok st → map_get c (component_members st) = Some ms → Forall known_sprite ms.
Proof.
  intros Hst Hc. apply Forall_forall. intros id Hid. apply (co_known _ Hst).
  exists c. apply (co_agree _ Hst). by exists ms.
Qed.

Lemma combined_elem (a b : list Z) id :
  id ∈ foldl (λ acc id, set_insert id acc) a b ↔ id ∈ a ∨ id ∈ b.
Proof.
  revert a. induction b as [|x b IH]; intros a; cbn [foldl].
  - split; [by left|]. by intros [?|?%not_elem_of_nil].
  - rewrite IH, elem_of_set_insert, elem_of_cons. tauto.
Qed.

Lemma combined_sorted (a b : list Z) :
  sorted_keys a → sorted_keys (foldl (λ acc id, set_insert id acc) a b).
Proof. revert a. induction b as [|x b IH]; intros a Ha; [done|]. by apply IH, set_insert_sorted. Qed.

(** All members of a component have the key of its first. *)
Lemma component_key st c ms key id s :
  components_ok st → map_get c (component_members st) = Some ms →
  compatibility_of (v_sprites v) ms = Some key → id ∈ ms → map_get id (v_sprites v) = Some s →
  sp_compatibility s = key.
Proof. intros Hst Hc Hk Hid Hs. pose proof (co_key _ Hst _ _ _ _ Hc Hid Hs). congruence. Qed.

Lemma combined_key st a b ma mb key id s :
  components_ok st →
  map_get a (component_members st) = Some ma → map_get b (component_members st) = Some mb →
  compatibility_of (v_sprites v) ma = Some key → compatibility_of (v_sprites v) mb = Some key →
  id ∈ foldl (λ acc id, set_insert id acc) ma mb → map_get id (v_sprites v) = Some s →
  compatibility_of (v_sprites v) (foldl (λ acc id, set_insert id acc) ma mb) =
  Some (sp_compatibility s).
Proof.
  intros Hst Ha Hb Hka Hkb Hid Hs.
  assert (∀ id s, id ∈ foldl (λ acc id, set_insert id acc) ma mb →
    map_get id (v_sprites v) = Some s → sp_compatibility s = key) as Hall.
  { intros id' s' [Hi|Hi]%combined_elem Hs';
    [by apply (component_key st a ma key id')|by apply (component_key st b mb key id')]. }
  pose proof (component_members_known _ _ _ Hst Ha) as Hna.
  pose proof (component_members_known _ _ _ Hst Hb) as Hnb. rewrite Forall_forall in Hna, Hnb.
  destruct (foldl (λ acc id, set_insert id acc) ma mb) as [|x l] eqn:E;
    [by apply not_elem_of_nil in Hid|].
  assert (x ∈ foldl (λ acc id, set_insert id acc) ma mb) as Hx by (rewrite E; by left).
  assert (known_sprite x) as [sx Hsx] by (apply combined_elem in Hx as [?|?]; auto).
  unfold compatibility_of. cbn. rewrite Hsx. cbn.
  rewrite (Hall x sx), (Hall id s); [done|(by left) || done..].
Qed.

(** Two components of one key merge into a new one. *)
Lemma merge_components_ok st a b ma mb key n :
  components_ok st → a ≠ b →
  map_get a (component_members st) = Some ma → map_get b (component_members st) = Some mb →
  compatibility_of (v_sprites v) ma = Some key → compatibility_of (v_sprites v) mb = Some key →
  components_ok (merge_components a b (foldl (λ acc id, set_insert id acc) ma mb) n st).
Proof.
  intros Hst Hab Ha Hb Hka Hkb. destruct (Hst) as [Hos Hms Hag Hkn Hmem Hkey].
  set (combined := foldl _ ma mb).
  assert (∀ id, id ∈ combined ↔ id ∈ ma ∨ id ∈ mb) as Hin by apply combined_elem.
  assert (sorted_map (map_remove b (map_remove a (component_members st)))) as Hrs
    by (by do 2 apply map_remove_sorted).
  set (next := next_component_id st).
  assert (∀ c, map_get c (component_members (merge_components a b combined n st)) =
    if decide (c = next) then Some combined
    else if decide (c = a ∨ c = b) then None else map_get c (component_members st)) as Hget.
  { intros c. cbn [merge_components component_members]. change (next_component_id st) with next.
    rewrite map_get_insert_case by done. rewrite map_get_remove by by apply map_remove_sorted.
    rewrite map_get_remove by done. clear. repeat case_decide; try done; tauto. }
  assert (∀ id, map_get id (component_for_sprite (merge_components a b combined n st)) =
    if decide (id ∈ combined) then Some next else map_get id (component_for_sprite st)) as Hof.
  { intros id. cbn [merge_components component_for_sprite]. change (next_component_id st) with next.
    rewrite map_get_fold_const by done. by repeat case_decide. }
  assert (∀ c ms, map_get c (component_members st) = Some ms → c ≠ next) as Hfresh.
  { intros c ms Hc. destruct (Hmem c ms Hc) as (_ & _ & ?). unfold next. lia. }
  split.
  - cbn. by apply fold_insert_const_sorted.
  - cbn. by apply map_insert_sorted.
  - intros id c. rewrite Hof. destruct (decide (id ∈ combined)) as [Hid|Hid].
    + split.
      * intros [= <-]. exists combined. by rewrite Hget, decide_True.
      * intros (ms & Hc & Hm). rewrite Hget in Hc. case_decide; [by subst|].
        case_decide as Hc2; [done|]. exfalso. apply Hc2.
        assert (map_get id (component_for_sprite st) = Some c) as E1 by (apply Hag; eauto).
        apply Hin in Hid as [Hid|Hid].
        -- assert (map_get id (component_for_sprite st) = Some a) by (apply Hag; eauto). left. congruence.
        -- assert (map_get id (component_for_sprite st) = Some b) by (apply Hag; eauto). right. congruence.
    + rewrite Hag. split.
      * intros (ms & Hc & Hm). exists ms. split; [|done]. rewrite Hget.
        rewrite decide_False by by eapply Hfresh. rewrite decide_False; [done|].
        intros [-> | ->]; simplify_eq; apply Hid, Hin; tauto.
      * intros (ms & Hc & Hm). rewrite Hget in Hc. case_decide; [by simplify_eq|].
        case_decide; [done|]. by exists ms.
  - intros id. rewrite Hof. case_decide as Hid; [|apply Hkn]. split; [intros _|done].
    apply Hkn. apply Hin in Hid as [Hid|Hid]; [exists a|exists b]; apply Hag; eauto.
  - intros c ms. rewrite Hget. cbn [merge_components next_component_id]. fold next.
    case_decide as Hc; [intros [= <-]; subst c|].
    + destruct (Hmem a ma Ha) as (Hne & Hs & _). split_and!; [|by apply combined_sorted|lia].
      intros E. destruct ma as [|x ma']; [done|].
      assert (x ∈ combined) as Hx by (apply Hin; left; by left). rewrite E in Hx.
      by apply not_elem_of_nil in Hx.
    + case_decide; [done|]. intros (? & ? & ?)%Hmem. split_and!; [done..|]. unfold next. lia.
  - intros c ms id s. rewrite Hget. case_decide as Hc.
    + intros [= <-] Hid Hs. by apply (combined_key st a b ma mb key id).
    + case_decide; [done|]. apply Hkey.
Qed.

Definition pair_known (e : Pair) : Prop := known_sprite e.1.1 ∧ known_sprite e.1.2.

Lemma compatibility_known ms :
  ms ≠ [] → Forall known_sprite ms → is_Some (compatibility_of (v_sprites v) ms).
Proof.
  intros Hne Hms. destruct Hms as [|x ms [s Hs] _]; [done|]. unfold compatibility_of. cbn.
  rewrite Hs. by eexists.
Qed.

Lemma merge_edge_outcome pages e st :
  components_ok st → pair_known e → outcome components_ok (merge_edge v pages e st).
Proof.
  intros Hst [Hf Ht]. destruct e as [[f t] w]. cbn in Hf, Ht. unfold merge_edge.
  apply (co_known _ Hst) in Hf as [cf Hcf], Ht as [ct Hct]. rewrite Hcf, Hct.
  cbn [mbind option_bind]. case_bool_decide as Hne; [done|].
  case_bool_decide; [done|].
  apply (co_agree _ Hst) in Hcf as (mf & Hmf & _), Hct as (mt & Hmt & _). rewrite Hmf, Hmt.
  cbn [mbind option_bind].
  pose proof (component_members_known _ _ _ Hst Hmf) as Hkf.
  pose proof (component_members_known _ _ _ Hst Hmt) as Hkt.
  destruct (compatibility_known mf) as [kf Ekf]; [by apply (co_members _ Hst _ _ Hmf)|done|].
  destruct (compatibility_known mt) as [kt Ekt]; [by apply (co_members _ Hst _ _ Hmt)|done|].
  rewrite Ekf, Ekt. cbn [mbind option_bind]. case_bool_decide as Hk; [subst kt|done]. cbn [negb].
  eapply outcome_bind.
  { apply cluster_fits_outcome, Forall_forall. rewrite Forall_forall in Hkf, Hkt.
    intros id [?|?]%combined_elem; auto. }
  intros [[] n] _; cbn [outcome].
  - by eapply merge_components_ok.
  - destruct Hst. by split.
Qed.

Lemma merge_loop_outcome pages edges st :
  components_ok st → Forall pair_known edges → outcome components_ok (merge_loop v pages edges st).
Proof.
  intros Hst He. revert st Hst. induction He as [|e edges He Hes IH]; intros st Hst; cbn [merge_loop];
    [done|]. eapply outcome_bind; [by apply merge_edge_outcome|]. intros st' Hst'. by apply IH.
Qed.

(** ** One component per sprite *)

Lemma fold_of_spec (ids : list Z) (start : nat) m :
  sorted_map m → NoDup ids →
  let m' := foldl (λ m e, map_insert e.2 e.1 m) m (imap (λ i x, ((start + i)%nat, x)) ids) in
  sorted_map m' ∧ ∀ id c, map_get id m' = Some c ↔
    (∃ i, ids !! i = Some id ∧ c = (start + i)%nat) ∨ ((id ∉ ids) ∧ map_get id m = Some c).
Proof.
  revert start m. induction ids as [|x ids IH]; intros start m Hm Hnd m'.
  { split; [done|]. intros id c. split; [right; split; [apply not_elem_of_nil|done]|].
    by intros [(i & Hi & _)|[_ ?]]. }
  apply NoDup_cons in Hnd as [Hx Hnd]. subst m'. cbn [imap foldl fst snd].
  assert (∀ {B} (g : nat → Z → B), imap (g ∘ S) ids = imap (λ i, g (S i)) ids) as Hc by done.
  rewrite Hc. rewrite (imap_ext _ (λ i y, ((S start + i)%nat, y))) by (intros; f_equal; lia).
  destruct (IH (S start) (map_insert x (start + 0)%nat m)) as [Hs Hget];
    [by apply map_insert_sorted|done|]. split; [exact Hs|].
  intros id c. rewrite Hget. rewrite map_get_insert_case by done. split.
  - intros [(i & Hi & ->)|[Hid Hget']].
    + left. exists (S i). split; [done|lia].
    + case_decide; simplify_eq.
      * left. exists 0%nat. split; [done|lia].
      * right. split; [by intros [?|?]%elem_of_cons|done].
  - intros [([|i] & Hi & ->)|[Hid Hget']].
    + cbn in Hi. simplify_eq. right. rewrite decide_True by done. by split.
    + left. exists i. split; [done|lia].
    + right. apply not_elem_of_cons in Hid as [? ?]. rewrite decide_False by done. by split.
Qed.

Lemma fold_members_spec (ids : list Z) (start : nat) m :
  sorted_map m →
  let m' := foldl (λ m e, map_insert e.1 [e.2] m) m (imap (λ i x, ((start + i)%nat, x)) ids) in
  sorted_map m' ∧ ∀ c ms, map_get c m' = Some ms ↔
    (∃ i id, ids !! i = Some id ∧ c = (start + i)%nat ∧ ms = [id])
    ∨ (¬ (start ≤ c < start + length ids)%nat ∧ map_get c m = Some ms).
Proof.
  revert start m. induction ids as [|x ids IH]; intros start m Hm m'.
  { split; [done|]. intros c ms. cbn. split; [right; split; [lia|done]|].
    by intros [(i & id & Hi & _)|[_ ?]]. }
  subst m'. cbn [imap foldl fst snd].
  assert (∀ {B} (g : nat → Z → B), imap (g ∘ S) ids = imap (λ i, g (S i)) ids) as Hc by done.
  rewrite Hc. rewrite (imap_ext _ (λ i y, ((S start + i)%nat, y))) by (intros; f_equal; lia).
  destruct (IH (S start) (map_insert (start + 0)%nat [x] m)) as [Hs Hget];
    [by apply map_insert_sorted|]. split; [exact Hs|].
  intros c ms. rewrite Hget. rewrite map_get_insert_case by done. cbn [length]. split.
  - intros [(i & id & Hi & -> & ->)|[Hid Hget']].
    + left. exists (S i), id. split_and!; [done|lia|done].
    + case_decide; simplify_eq.
      * left. exists 0%nat, x. split_and!; [done|lia|done].
      * right. split; [lia|done].
  - intros [([|i] & id & Hi & -> & ->)|[Hid Hget']].
    + cbn in Hi. simplify_eq. right. rewrite decide_True by done. split; [lia|done].
    + left. exists i, id. split_and!; [done|lia|done].
    + right. rewrite decide_False by lia. split; [lia|done].
Qed.

Lemma initial_components_ok : components_ok (initial_components (v_sprites v).*1).
Proof.
  set (ids := (v_sprites v).*1).
  assert (NoDup ids) as Hnd by (apply sorted_map_NoDup, (valid_sprites_sorted _ _ Hv)).
  destruct (fold_of_spec ids 0 []) as [Hs1 Hg1]; [constructor|done|].
  destruct (fold_members_spec ids 0 []) as [Hs2 Hg2]; [constructor|].
  cbv zeta in *. cbn [Nat.add] in *.
  assert (∀ id c, map_get id (component_for_sprite (initial_components ids)) = Some c ↔
    ids !! c = Some id) as H1.
  { intros id c. etrans; [apply Hg1|]. split; [|by left; exists c].
    by intros [(i & Hi & ->)|[_ ?]]. }
  assert (∀ c ms, map_get c (component_members (initial_components ids)) = Some ms ↔
    ∃ id, ids !! c = Some id ∧ ms = [id]) as H2.
  { intros c ms. etrans; [apply Hg2|]. split.
    - intros [(i & id & Hi & -> & ->)|[_ ?]]; [by exists id|done].
    - intros (id & Hi & ->). left. by exists c, id. }
  split; [exact Hs1|exact Hs2|..].
  - intros id c. rewrite H1. split.
    + intros Hc. exists [id]. rewrite H2. split; [by exists id|by left].
    + intros (ms & (id' & Hc & ->)%H2 & ->%list_elem_of_singleton). done.
  - intros id. unfold known_sprite. rewrite (map_get_keys id (v_sprites v))
      by apply (valid_sprites_sorted _ _ Hv). fold ids. rewrite list_elem_of_lookup.
    split; intros [c Hc]; exists c; by apply H1.
  - intros c ms (id & Hc & ->)%H2. split_and!; [done| |].
    + repeat constructor.
    + cbn. by eapply lookup_lt_Some.
  - intros c ms id s (id' & Hc & ->)%H2 ->%list_elem_of_singleton Hs.
    unfold compatibility_of. cbn. by rewrite Hs.
Qed.

(** ** The clusters *)

(** What the placement uses of a cluster. *)
Definition cluster_shape (k : AffinityCluster) : list Z * option AtlasCompatibilityKey :=
  (members k, Some (cluster_compatibility k)).

Definition component_shape (ms : list Z) : list Z * option AtlasCompatibilityKey :=
  (ms, compatibility_of (v_sprites v) ms).

Lemma sum_area_outcome ids sum :
  Forall known_sprite ids → outcome (λ _, True) (sum_area (v_packed_sizes v) ids sum).
Proof.
  intros Hids. revert sum. induction Hids as [|id ids [s Hs] Hids IH]; intros sum; cbn; [done|].
  rewrite (valid_size _ _ Hv), Hs. cbn [mbind option_bind fmap option_fmap option_map].
  apply outcome_pure. intros sum' _. apply IH.
Qed.

Lemma cluster_loop_outcome cs cl :
  sorted_map cs → sorted_map cl →
  (∀ c ms, (c, ms) ∈ cs → ms ≠ [] ∧ Forall known_sprite ms) →
  outcome (λ cl', sorted_map cl' ∧
    ∀ c, cluster_shape <$> map_get c cl' =
         match map_get c cs with
         | Some ms => Some (component_shape ms)
         | None => cluster_shape <$> map_get c cl
         end) (cluster_loop v cs cl).
Proof.
  revert cl. induction cs as [|[c ids] cs IH]; intros cl Hcs Hcl Hms; cbn [cluster_loop]; [done|].
  destruct (Hms c ids) as [Hne Hk]; [by left|]. destruct ids as [|first ids]; [done|].
  pose proof Hk as Hk'. apply Forall_cons in Hk' as [[s Hs] _]. rewrite Hs.
  cbn [mbind option_bind]. eapply outcome_bind; [by apply sum_area_outcome|]. intros total _.
  assert (sorted_map cs) as Hcs'.
  { unfold sorted_map in *. rewrite fmap_cons in Hcs. by inversion_clear Hcs. }
  eapply outcome_mono; [apply IH; [done|by apply map_insert_sorted|]|].
  { intros c' ms ?. apply (Hms c'). by right. }
  intros cl' [Hs' Hget]. split; [done|]. intros j. rewrite Hget, map_get_cons by done.
  rewrite map_get_insert_case by done.
  assert (map_get c cs = None) as Hc.
  { apply map_get_keys_None; [done|]. unfold sorted_map in Hcs. rewrite fmap_cons in Hcs.
    cbn [fst] in Hcs. inversion_clear Hcs as [|? ? _ Hall]. rewrite Forall_forall in Hall.
    intros Hin. by apply (key_lt_irrefl c), Hall. }
  repeat case_decide; subst; try done. rewrite Hc. cbn. unfold cluster_shape, component_shape.
  cbn. unfold compatibility_of. cbn. by rewrite Hs.
Qed.

Lemma weigh_loop_outcome st pairs cl :
  components_ok st → Forall pair_known pairs → sorted_map cl →
  (∀ c, cluster_shape <$> map_get c cl = component_shape <$> map_get c (component_members st)) →
  outcome (λ cl', sorted_map cl' ∧
    ∀ c, cluster_shape <$> map_get c cl' = component_shape <$> map_get c (component_members st))
    (weigh_loop (component_for_sprite st) pairs cl).
Proof.
  intros Hst Hp. revert cl. induction Hp as [|[[f t] w] pairs [Hf Ht] Hps IH]; intros cl Hs Hcl;
    cbn [weigh_loop]; [done|]. cbn in Hf, Ht.
  apply (co_known _ Hst) in Hf as [cf Hcf], Ht as [ct Hct]. rewrite Hcf, Hct.
  cbn [mbind option_bind]. destruct (cf =? ct)%nat; cbn [negb]; [|by apply IH].
  apply (co_agree _ Hst) in Hcf as (mf & Hmf & _). pose proof (Hcl cf) as Hc. rewrite Hmf in Hc.
  destruct (map_get cf cl) as [k|] eqn:Ek; [|done]. cbn [mbind option_bind].
  apply outcome_pure. intros total _. apply IH; [by apply map_insert_sorted|].
  intros c. rewrite map_get_insert_case by done. case_decide; subst; [|apply Hcl].
  rewrite Hmf. exact Hc.
Qed.

(** The clusters partition the sprites; a cluster's members share its key. *)
Record clusters_ok (cs : list AffinityCluster) : Prop := {
  clusters_partition : concat (members <$> cs) ≡ₚ (v_sprites v).*1;
  clusters_key : ∀ k id s, k ∈ cs → id ∈ members k → map_get id (v_sprites v) = Some s →
    sp_compatibility s = cluster_compatibility k;
}.

Lemma NoDup_concat_values {K} (m : list (K * list Z)) :
  NoDup m.*1 → (∀ c ms, (c, ms) ∈ m → NoDup ms) →
  (∀ c c' ms ms' id, (c, ms) ∈ m → (c', ms') ∈ m → id ∈ ms → id ∈ ms' → c = c') →
  NoDup (concat m.*2).
Proof.
  induction m as [|[c ms] m IH]; intros Hk Hd Hdisj; cbn; [constructor|].
  rewrite fmap_cons in Hk. apply NoDup_cons in Hk as [Hc Hk]. apply NoDup_app. split_and!.
  - apply (Hd c). by left.
  - intros id Hid (ms' & Hin & Hms')%list_elem_of_In%in_concat. cbn in Hc.
    apply list_elem_of_In, list_elem_of_fmap in Hin as ([c' ms''] & -> & Hin).
    apply list_elem_of_In in Hms'. assert (c = c') as <-.
    { eapply (Hdisj c c' ms ms'' id); [by left|by right|done|done]. }
    apply Hc. by apply (list_elem_of_fmap_2' fst m (c, ms'')).
  - apply IH; [done|..].
    + intros c' ms' ?. apply (Hd c'). by right.
    + intros c1 c2 ms1 ms2 id ? ?. apply Hdisj; by right.
Qed.

Lemma components_partition st :
  components_ok st → concat (component_members st).*2 ≡ₚ (v_sprites v).*1.
Proof.
  intros Hst. pose proof (co_members_sorted _ Hst) as Hms.
  assert (∀ c ms, (c, ms) ∈ component_members st ↔ map_get c (component_members st) = Some ms) as Hin.
  { intros c ms. by rewrite map_get_elem. }
  apply NoDup_Permutation.
  - apply NoDup_concat_values; [by apply sorted_map_NoDup|..].
    + intros c ms Hc%Hin. apply sorted_keys_NoDup. by apply (co_members _ Hst _ _ Hc).
    + intros c c' ms ms' id Hc%Hin Hc'%Hin Hid Hid'.
      assert (map_get id (component_for_sprite st) = Some c) by (apply (co_agree _ Hst); eauto).
      assert (map_get id (component_for_sprite st) = Some c') by (apply (co_agree _ Hst); eauto).
      congruence.
  - apply sorted_map_NoDup, (valid_sprites_sorted _ _ Hv).
  - intros id. rewrite <- map_get_keys by apply (valid_sprites_sorted _ _ Hv).
    change (is_Some (map_get id (v_sprites v))) with (known_sprite id). rewrite <- (co_known _ Hst).
    rewrite list_elem_of_In, in_concat. split.
    + intros (ms & ([c ms'] & -> & Hc%Hin)%list_elem_of_In%list_elem_of_fmap & Hid%list_elem_of_In).
      exists c. apply (co_agree _ Hst). eauto.
    + intros [c (ms & Hc & Hid)%(co_agree _ Hst)]. exists ms. rewrite <- !list_elem_of_In.
      split; [|done]. apply Hin in Hc. by apply (list_elem_of_fmap_2' snd _ (c, ms)).
Qed.

Lemma build_clusters_outcome pages :
  Forall pair_known (v_pairs v) → outcome (λ r, clusters_ok r.1) (build_clusters v pages).
Proof.
  intros Hp. unfold build_clusters. eapply outcome_bind.
  { apply merge_loop_outcome; [apply initial_components_ok|].
    by rewrite (sort_by_Permutation edge_le). }
  intros st Hst. pose proof (co_members_sorted _ Hst) as Hms. eapply outcome_bind.
  { apply (cluster_loop_outcome (component_members st) []); [done|constructor|].
    intros c ms Hc. apply map_get_elem in Hc; [|done]. split; [by apply (co_members _ Hst _ _ Hc)|].
    by eapply component_members_known. }
  intros cl [Hs Hcl]. eapply outcome_bind.
  { apply (weigh_loop_outcome st); [done..|]. intros c. rewrite Hcl.
    by destruct (map_get c (component_members st)). }
  clear cl Hs Hcl. intros cl [Hs Hcl]. cbn [outcome fst].
  assert (prod_map id cluster_shape <$> cl = prod_map id component_shape <$> component_members st)
    as Heq.
  { apply sorted_map_ext; [by apply sorted_map_fmap..|]. intros c. rewrite !map_get_fmap. apply Hcl. }
  assert (members <$> cl.*2 = (component_members st).*2) as Hmem.
  { apply (f_equal (fmap (λ e, e.2.1))) in Heq. rewrite <- !list_fmap_compose in Heq.
    rewrite <- list_fmap_compose. exact Heq. }
  split.
  - etrans; [|apply (components_partition st Hst)]. rewrite <- Hmem.
    by rewrite (sort_by_Permutation cluster_le).
  - intros k id s. rewrite (sort_by_Permutation cluster_le).
    intros ([c k'] & -> & Hk)%list_elem_of_fmap Hid Hsp. cbn in *.
    apply map_get_elem in Hk; [|done]. specialize (Hcl c). rewrite Hk in Hcl. cbn in Hcl.
    destruct (map_get c (component_members st)) as [ms|] eqn:Ec; [|done]. cbn in Hcl.
    unfold cluster_shape, component_shape in Hcl. injection Hcl as Hm Hkey. subst ms.
    pose proof (co_key _ Hst _ _ _ _ Ec Hid Hsp) as E. congruence.
Qed.
End clusters.
