(* ===== verification/AtlasProps.v ===== *)
(** * The atlas planner is sound and total

    The placement of the clusters keeps the packing of every page; a plan that is
    accepted places every sprite once, on a page of its kind, inside the usable area
    and without overlap, within the memory budget and with a smaller cut. *)

From S2P Require Import Prelude BTree AtlasPacking AtlasPlanner AtlasInv AtlasClusters.
#[local] Set Warnings "-clear-no-such-hyp".
#[local] Open Scope Z_scope.

(** ** Placed sprites *)

Section placement.
Context (input : AtlasPlanningInput) (v : Validated).
Hypothesis Hv : valid input v.

(** The placement of sprite [s] on page [g]. *)
Definition places (s : AtlasSpriteDescriptor) (g : AtlasPageExtent) (p : AtlasPlacement) : Prop :=
  pl_sprite_id p = sp_id s ∧ pl_page_id p = pg_id g
  ∧ pg_compatibility g = sp_compatibility s
  ∧ pl_width p = sp_width s ∧ pl_height p = sp_height s
  ∧ pl_allocation_width p = sp_width s + sp_padding s * 2
  ∧ pl_allocation_height p = sp_height s + sp_padding s * 2
  ∧ pl_x p = pl_allocation_x p + sp_padding s ∧ pl_y p = pl_allocation_y p + sp_padding s.

Definition placement_ok (p : AtlasPlacement) : Prop :=
  ∃ s g, map_get (sp_id s) (v_sprites v) = Some s ∧ map_get (pg_id g) (v_pages v) = Some g
         ∧ places s g p.

Definition is_member (key : AtlasCompatibilityKey) (s : AtlasSpriteDescriptor) : Prop :=
  map_get (sp_id s) (v_sprites v) = Some s ∧ sp_compatibility s = key.

Lemma member_size s key :
  is_member key s → 0 ≤ (padded s).1 ∧ 0 ≤ (padded s).2.
Proof.
  intros [Hs _]. apply (valid_sprite _ _ Hv) in Hs as [Hs _].
  apply (valid_extent _ _ Hv) in Hs as (Hw & Hh & _). unfold in_u in *. lia.
Qed.

Definition packs (g : AtlasPageExtent) (l : list AtlasSpriteDescriptor) (rects : list Rect)
    (st : PagePackingState) (new : list AtlasPlacement) : Prop :=
  pk_page st = g ∧ pl_sprite_id <$> new = sp_id <$> l
  ∧ Forall placement_ok new ∧ Forall (λ p, pl_page_id p = pg_id g) new
  ∧ packing g (pk_shelves st) (rects ++ (placement_rect <$> new)).

Lemma pack_members_outcome g l st ps slack n rects :
  map_get (pg_id g) (v_pages v) = Some g →
  Forall (is_member (pg_compatibility g)) l →
  pk_page st = g → packing g (pk_shelves st) rects →
  outcome (λ r, match r.1 with
                | None => True
                | Some (st', ps', _) => ∃ new, ps' = ps ++ new ∧ packs g l rects st' new
                end) (pack_members (v_packed_sizes v) l st ps slack n).
Proof.
  intros Hg Hl. revert st ps slack n rects.
  induction Hl as [|s l Hs Hl IH]; intros st ps slack n rects Hst Hp; cbn [pack_members].
  { cbn. exists []. rewrite app_nil_r. split; [done|]. unfold packs. rewrite fmap_nil, app_nil_r.
    split_and!; try done; constructor. }
  pose proof (member_size _ _ Hs) as [Hw Hh]. destruct Hs as [Hsp Hkey].
  rewrite (size_at _ _ Hv s Hsp). cbn [mbind option_bind]. apply outcome_pure. intros [ch n'] Hch.
  unfold counted_try_place in Hch. destruct (_ <=? _); [done|]. apply Ok_inj in Hch.
  injection Hch as Hch _. destruct ch as [ch|]; [|done].
  rewrite <- Hst in Hp. pose proof (try_place_packing _ _ _ _ _ Hp Hw Hh Hch) as (Hp' & Ew & Eh & _).
  apply outcome_pure. intros x Hx%ok_or_inv%checked_u_Some. destruct Hx as [_ ->].
  apply outcome_pure. intros y Hy%ok_or_inv%checked_u_Some. destruct Hy as [_ ->].
  apply outcome_pure. intros s1 _. apply outcome_pure. intros s2 _.
  set (p := mkPlacement _ _ _ _ _ _ _ _ _ _).
  eapply outcome_mono.
  { apply (IH _ (ps ++ [p]) s2 n' (rects ++ [choice_rect ch])); [done|]. cbn. by rewrite <- Hst. }
  intros [[[[st' ps'] slack']|] n''] Hr; cbn in *; [|done].
  destruct Hr as (new & -> & (Hpg & Hids & Hok & Hpid & Hpk)). exists (p :: new).
  split; [by rewrite <- app_assoc|].
  assert (placement_rect p = choice_rect ch) as Hrect by done.
  unfold packs. rewrite !fmap_cons, Hrect, Hids. split_and!; try done.
  - constructor; [|done]. exists s, g. split_and!; [done..|]. unfold places, p. cbn.
    rewrite Hst, Ew, Eh, Hkey. by split_and!.
  - constructor; [|done]. unfold p. cbn. by rewrite Hst.
  - by rewrite <- app_assoc in Hpk.
Qed.

Lemma neighbor_affinity_total assigned pid ns sum :
  outcome (λ _, True) (Some (neighbor_affinity assigned pid ns sum)).
Proof. by destruct (neighbor_affinity _ _ _ _). Qed.

Lemma pack_cluster_outcome g l st assigned n :
  map_get (pg_id g) (v_pages v) = Some g →
  Forall (is_member (pg_compatibility g)) l → pk_page st = g →
  (∃ rects, packing g (pk_shelves st) rects) →
  outcome (λ r, match r.1 with
                | None => True
                | Some b => ∀ rects, packing g (pk_shelves st) rects →
                              packs g l rects (pc_state b) (pc_placements b)
                end) (pack_cluster_on_page v l st assigned n).
Proof.
  intros Hg Hl Hst [rects0 Hp0]. unfold pack_cluster_on_page.
  eapply outcome_bind with (Q := λ r, match r.1 with
    | None => True
    | Some (st', ps', _) => ∀ rects, packing g (pk_shelves st) rects → packs g l rects st' ps'
    end).
  { destruct (pack_members (v_packed_sizes v) l st [] 0 n) as [[[[[[st' ps'] sl]|] n']|e]|] eqn:E;
      cbn; try done.
    - intros rects Hp. pose proof (pack_members_outcome g l st [] 0 n rects Hg Hl Hst Hp) as Ho.
      rewrite E in Ho. cbn in Ho. by destruct Ho as (new & -> & ?).
    - pose proof (pack_members_outcome g l st [] 0 n rects0 Hg Hl Hst Hp0) as Ho.
      by rewrite E in Ho. }
  intros [[[[st' ps'] slack]|] n'] Hr; cbn in Hr; [|done].
  apply outcome_pure. intros aff _.
  assert (is_Some (mapM (λ s, map_get (sp_id s) (v_baseline v)) l)) as [bl ->].
  { apply mapM_is_Some. eapply Forall_impl; [exact Hl|]. intros s [Hs _].
    apply (valid_baseline _ _ Hv). by exists s. }
  cbn. exact Hr.
Qed.

(** ** The pages while clusters are placed *)

(** The page's rectangles, tagged with their sprites. *)
Definition page_holds (g : AtlasPageExtent) (st : PagePackingState) (assigned : PlacementMap)
    (tags : list (Z * Rect)) : Prop :=
  pk_page st = g ∧ packing g (pk_shelves st) tags.*2 ∧ NoDup tags.*1
  ∧ ∀ id r, (id, r) ∈ tags ↔
            ∃ p, map_get id assigned = Some p ∧ pl_page_id p = pg_id g ∧ r = placement_rect p.

Record placed_ok (states : PageStates) (assigned : PlacementMap) (ids : list Z) : Prop := {
  po_states_sorted : sorted_map states;
  po_assigned_sorted : sorted_map assigned;
  po_ids : ∀ id, is_Some (map_get id assigned) ↔ id ∈ ids;
  po_placement : ∀ id p, map_get id assigned = Some p → pl_sprite_id p = id ∧ placement_ok p;
  po_page : ∀ pid g, map_get pid (v_pages v) = Some g →
    ∃ st tags, map_get pid states = Some st ∧ page_holds g st assigned tags;
}.

Lemma page_at pid g : map_get pid (v_pages v) = Some g → pg_id g = pid.
Proof. intros Hg. by apply (valid_page _ _ Hv) in Hg as [_ ?]. Qed.

(** The best page for a cluster extends that page. *)
Definition extends (key : AtlasCompatibilityKey) (l : list AtlasSpriteDescriptor)
    (states : PageStates) (b : PackedCluster) : Prop :=
  ∃ g st, map_get (pg_id g) (v_pages v) = Some g ∧ map_get (pg_id g) states = Some st
    ∧ pg_compatibility g = key ∧ pk_page (pc_state b) = g
    ∧ ∀ rects, packing g (pk_shelves st) rects → packs g l rects (pc_state b) (pc_placements b).

Lemma choose_page_outcome k l states assigned ids pages best n :
  placed_ok states assigned ids → Forall (is_member (cluster_compatibility k)) l →
  (∀ g, g ∈ pages → map_get (pg_id g) (v_pages v) = Some g) →
  (∀ b, best = Some b → extends (cluster_compatibility k) l states b) →
  outcome (λ r, ∀ b, r.1 = Some b → extends (cluster_compatibility k) l states b)
    (choose_page v k l states assigned pages best n).
Proof.
  intros Hpo Hl. revert best n. induction pages as [|g pages IH]; intros best n Hpages Hbest;
    cbn [choose_page]; [done|].
  assert (∀ g, g ∈ pages → map_get (pg_id g) (v_pages v) = Some g) as Hpages'.
  { intros g' ?. apply Hpages. by right. }
  case_bool_decide as Hkey; cbn [negb]; [|by apply IH].
  assert (map_get (pg_id g) (v_pages v) = Some g) as Hg by (apply Hpages; by left).
  destruct (po_page _ _ _ Hpo _ _ Hg) as (st & tags & Hst & Hpg & Hpk & _).
  rewrite Hst. cbn [mbind option_bind]. rewrite <- Hkey in *. eapply outcome_bind.
  { apply (pack_cluster_outcome g); [done..|by eexists]. }
  intros [cand n'] Hcand. cbn in Hcand. apply IH; [done|].
  assert (∀ c, cand = Some c → extends (pg_compatibility g) l states c) as Hext.
  { intros c ->. exists g, st. split_and!; try done. specialize (Hcand _ Hpk). apply Hcand. }
  intros b. destruct cand as [c|]; [|by apply Hbest].
  destruct best as [b'|]; [case_match|]; naive_solver.
Qed.

Lemma fold_placements_sorted (ps : list AtlasPlacement) m :
  sorted_map m → sorted_map (foldl (λ m p, map_insert (pl_sprite_id p) p m) m ps).
Proof. revert m. induction ps as [|p ps IH]; intros m Hm; [done|]. by apply IH, map_insert_sorted. Qed.

Lemma map_get_fold_placements (ps : list AtlasPlacement) m id p :
  sorted_map m → NoDup (pl_sprite_id <$> ps) →
  map_get id (foldl (λ m p, map_insert (pl_sprite_id p) p m) m ps) = Some p ↔
  (p ∈ ps ∧ pl_sprite_id p = id) ∨ (id ∉ pl_sprite_id <$> ps) ∧ map_get id m = Some p.
Proof.
  revert m. induction ps as [|q ps IH]; intros m Hm Hnd; cbn [foldl].
  { rewrite elem_of_nil. split; [|tauto]. intros ?. right. split; [apply not_elem_of_nil|done]. }
  rewrite fmap_cons in Hnd |- *. apply NoDup_cons in Hnd as [Hq Hnd].
  rewrite IH by (done || by apply map_insert_sorted). rewrite map_get_insert_case by done.
  rewrite elem_of_cons, not_elem_of_cons. case_decide as Hid; [subst id|].
  - split.
    + intros [[Hp Hid]|[_ [= ->]]]; [left; tauto|left; tauto].
    + intros [[[->|Hp] Hid]|[[? _] _]]; [by right|by left|done].
  - split; [tauto|]. intros [[[->|Hp] Hid']|?]; [congruence|by left|tauto].
Qed.

(** Adding the packed members of one cluster. *)
Section extend.
Context (states : PageStates) (assigned : PlacementMap) (ids : list Z).
Context (g : AtlasPageExtent) (st : PagePackingState) (l : list AtlasSpriteDescriptor).
Context (b : PagePackingState) (ps : list AtlasPlacement).
Hypothesis Hpo : placed_ok states assigned ids.
Hypothesis Hg : map_get (pg_id g) (v_pages v) = Some g.
Hypothesis Hst : map_get (pg_id g) states = Some st.
Hypothesis Hpacks : ∀ rects, packing g (pk_shelves st) rects → packs g l rects b ps.
Hypothesis Hnd : NoDup (sp_id <$> l).
Hypothesis Hdisj : ∀ id, id ∈ ids → id ∉ sp_id <$> l.

Let states' := map_insert (pg_id g) b states.
Let assigned' := foldl (λ m p, map_insert (pl_sprite_id p) p m) assigned ps.

Lemma packed_basics :
  pk_page b = g ∧ pl_sprite_id <$> ps = sp_id <$> l
  ∧ Forall placement_ok ps ∧ Forall (λ p, pl_page_id p = pg_id g) ps.
Proof.
  destruct (po_page _ _ _ Hpo _ _ Hg) as (st0 & tags & Hst0 & _ & Hpk & _). simplify_eq.
  by destruct (Hpacks _ Hpk) as (? & ? & ? & ? & _).
Qed.

Lemma get_assigned' id p :
  map_get id assigned' = Some p ↔
  (p ∈ ps ∧ pl_sprite_id p = id) ∨ (id ∉ sp_id <$> l) ∧ map_get id assigned = Some p.
Proof.
  destruct packed_basics as (_ & Hids & _). unfold assigned'.
  rewrite map_get_fold_placements by (by rewrite ?Hids || by apply (po_assigned_sorted _ _ _ Hpo)).
  by rewrite Hids.
Qed.

Lemma tags_extended tags :
  page_holds g st assigned tags →
  page_holds g b assigned' (tags ++ ((λ p, (pl_sprite_id p, placement_rect p)) <$> ps)).
Proof.
  intros (Hpg & Hpk & Htnd & Htags). destruct packed_basics as (Hb & Hids & Hok & Hpid).
  rewrite Forall_forall in Hpid.
  destruct (Hpacks _ Hpk) as (_ & _ & _ & _ & Hpk').
  assert (∀ id, id ∈ tags.*1 → id ∉ sp_id <$> l) as Hfresh.
  { intros id ([id' r] & -> & Hin)%list_elem_of_fmap. apply Htags in Hin as (p & Hp & _).
    apply Hdisj. apply (po_ids _ _ _ Hpo). by exists p. }
  unfold page_holds. split_and!; [done| | |].
  - rewrite fmap_app, <- list_fmap_compose. exact Hpk'.
  - rewrite fmap_app, <- list_fmap_compose. change (NoDup (tags.*1 ++ (pl_sprite_id <$> ps))).
    rewrite Hids. by apply NoDup_app.
  - intros id r. rewrite elem_of_app, Htags, list_elem_of_fmap. split.
    + intros [(p & Hp & Hpage & ->)|(p & [= -> ->] & Hp)].
      * exists p. split_and!; [|done..]. apply get_assigned'. right. split; [|done].
        apply Hdisj, (po_ids _ _ _ Hpo). by exists p.
      * exists p. split_and!; [|by apply Hpid|done]. apply get_assigned'. by left.
    + intros (p & [[Hp <-]|[_ Hp]]%get_assigned' & Hpage & ->); [right; by exists p|left; by exists p].
Qed.

Lemma placed_extended : placed_ok states' assigned' (ids ++ (sp_id <$> l)).
Proof.
  destruct packed_basics as (Hb & Hids & Hok & Hpid). rewrite Forall_forall in Hok, Hpid. split.
  - apply map_insert_sorted, (po_states_sorted _ _ _ Hpo).
  - apply fold_placements_sorted, (po_assigned_sorted _ _ _ Hpo).
  - intros id. rewrite elem_of_app. split.
    + intros [p [[Hp <-]|[_ Hp]]%get_assigned'].
      * right. rewrite <- Hids. by apply list_elem_of_fmap_2.
      * left. apply (po_ids _ _ _ Hpo). by exists p.
    + destruct (decide (id ∈ sp_id <$> l)) as [Hin|Hin].
      * intros _. rewrite <- Hids in Hin. apply list_elem_of_fmap in Hin as (p & -> & Hp).
        exists p. apply get_assigned'. by left.
      * intros [Hid|?]; [|done]. apply (po_ids _ _ _ Hpo) in Hid as [p Hp]. exists p.
        apply get_assigned'. by right.
  - intros id p [[Hp <-]|[_ Hp]]%get_assigned'; [auto|]. by apply (po_placement _ _ _ Hpo).
  - intros pid g' Hg'. unfold states'. rewrite map_get_insert_case by apply (po_states_sorted _ _ _ Hpo).
    case_decide as Hpg.
    + subst pid. rewrite Hg in Hg'. injection Hg' as <-.
      destruct (po_page _ _ _ Hpo _ _ Hg) as (st0 & tags & Hst0 & Hh).
      rewrite Hst in Hst0. injection Hst0 as <-.
      exists b. eexists. split; [done|]. by apply tags_extended.
    + destruct (po_page _ _ _ Hpo _ _ Hg') as (st0 & tags & Hst0 & Hpg0 & Hpk & Htnd & Htags).
      exists st0, tags. split; [done|]. unfold page_holds. split_and!; [done..|].
      intros id r. rewrite Htags. pose proof (page_at _ _ Hg') as Hid'. split.
      * intros (p & Hp & Hpage & ->). exists p. split_and!; [|done..]. apply get_assigned'. right.
        split; [|done]. apply Hdisj, (po_ids _ _ _ Hpo). by exists p.
      * intros (p & [[Hp <-]|[_ Hp]]%get_assigned' & Hpage & ->); [|by exists p].
        exfalso. apply Hpg. rewrite <- Hid', <- Hpage. by apply Hpid.
Qed.
End extend.

Lemma place_cluster_outcome pages k states assigned ids n :
  placed_ok states assigned ids →
  (∀ g, g ∈ pages → map_get (pg_id g) (v_pages v) = Some g) →
  Forall (known_sprite v) (members k) →
  (∀ id s, id ∈ members k → map_get id (v_sprites v) = Some s →
           sp_compatibility s = cluster_compatibility k) →
  NoDup (members k) → (∀ id, id ∈ ids → id ∉ members k) →
  outcome (λ r, ∃ ids', placed_ok r.1.1 r.1.2 ids' ∧ ids' ≡ₚ ids ++ members k)
    (place_cluster v pages k states assigned n).
Proof.
  intros Hpo Hpages Hkn Hkey Hnd Hdisj. unfold place_cluster.
  destruct (ordered_members _ _ Hv _ Hkn) as (l & -> & Hids & Hl). cbn [mbind option_bind].
  assert (Forall (is_member (cluster_compatibility k)) l) as Hl'.
  { rewrite Forall_forall in *. intros s Hs. pose proof (Hl s Hs) as Hsp. split; [done|].
    apply (Hkey (sp_id s)); [|done]. rewrite <- Hids. by apply list_elem_of_fmap_2. }
  eapply outcome_bind; [by eapply choose_page_outcome|].
  intros [[b|] n'] Hb; cbn in Hb; [|done].
  destruct (Hb b) as (g & st & Hg & Hst & _ & Hpg & Hpacks); [done|]. cbn [outcome fst snd].
  exists (ids ++ (sp_id <$> l)). split; [|by rewrite Hids]. rewrite Hpg.
  eapply placed_extended; try done.
  - by rewrite Hids.
  - intros id Hid. rewrite Hids. by apply Hdisj.
Qed.

Lemma place_loop_outcome pages cs states assigned ids n :
  placed_ok states assigned ids →
  (∀ g, g ∈ pages → map_get (pg_id g) (v_pages v) = Some g) →
  (∀ k, k ∈ cs → Forall (known_sprite v) (members k)) →
  (∀ k id s, k ∈ cs → id ∈ members k → map_get id (v_sprites v) = Some s →
             sp_compatibility s = cluster_compatibility k) →
  NoDup (ids ++ concat (members <$> cs)) →
  outcome (λ assigned', ∃ states' ids', placed_ok states' assigned' ids'
                                        ∧ ids' ≡ₚ ids ++ concat (members <$> cs))
    (place_loop v pages cs states assigned n).
Proof.
  revert states assigned ids n.
  induction cs as [|k cs IH]; intros states assigned ids n Hpo Hpages Hkn Hkey Hnd; cbn [place_loop].
  { cbn. exists states, ids. by rewrite app_nil_r. }
  rewrite fmap_cons in Hnd. cbn [concat] in Hnd. pose proof Hnd as Hnd0.
  rewrite (assoc_L (++)) in Hnd. apply NoDup_app in Hnd as (Hnd & Hrest & Hcs).
  apply NoDup_app in Hnd as (_ & Hdisj & Hm).
  eapply outcome_bind.
  { apply place_cluster_outcome; [done..| | |done|done].
    - apply Hkn. by left.
    - intros id s. apply Hkey. by left. }
  intros [[states' assigned'] n'] (ids' & Hpo' & Hp). cbn in Hpo'.
  eapply outcome_mono.
  { apply (IH _ _ ids'); [done..| | |].
    - intros k' ?. apply Hkn. by right.
    - intros k' id s ?. apply Hkey. by right.
    - rewrite Hp. by rewrite <- (assoc_L (++)). }
  intros assigned'' (states'' & ids'' & Hpo'' & Hp''). exists states'', ids''. split; [done|].
  rewrite Hp'', Hp. by rewrite fmap_cons, <- (assoc_L (++)).
Qed.

(** ** The candidate *)

Lemma pages_listed g : g ∈ (v_pages v).*2 → map_get (pg_id g) (v_pages v) = Some g.
Proof.
  intros ([pid g'] & -> & Hin)%list_elem_of_fmap.
  apply map_get_elem in Hin; [|by apply (valid_pages_sorted _ _ Hv)]. cbn.
  by rewrite (page_at _ _ Hin).
Qed.

Lemma initial_states_get pid g :
  map_get pid (v_pages v) = Some g →
  map_get pid (initial_states (v_pages v).*2) = Some (PagePackingState_new g).
Proof.
  intros Hg. pose proof (valid_pages_sorted _ _ Hv) as Hs. unfold initial_states.
  assert (map_of_list ((λ p, (pg_id p, PagePackingState_new p)) <$> (v_pages v).*2) =
          prod_map id PagePackingState_new <$> v_pages v) as ->.
  { apply sorted_map_ext; [apply map_of_list_sorted|by apply sorted_map_fmap|]. intros j.
    rewrite map_get_fmap, map_get_of_list.
    assert (∀ x, x ∈ reverse ((λ p, (pg_id p, PagePackingState_new p)) <$> (v_pages v).*2) ↔
      ∃ q, map_get (pg_id q) (v_pages v) = Some q ∧ x = (pg_id q, PagePackingState_new q)) as Hin.
    { intros x. rewrite elem_of_reverse, list_elem_of_fmap. split.
      - intros (q & -> & Hq%pages_listed). by exists q.
      - intros (q & Hq & ->). exists q. split; [done|]. apply map_get_elem in Hq; [|done].
        by apply (list_elem_of_fmap_2' snd _ (pg_id q, q)). }
    destruct (list_find _ _) as [[i [j' st]]|] eqn:E; cbn.
    - apply list_find_Some in E as (Hi & Hj & _). cbn in Hj. subst j'.
      apply list_elem_of_lookup_2, Hin in Hi as (q & Hq & [= -> ->]). by rewrite Hq.
    - apply list_find_None in E. rewrite Forall_forall in E.
      destruct (map_get j (v_pages v)) as [q|] eqn:Eq; [|done]. exfalso.
      pose proof (page_at _ _ Eq) as Hid. rewrite <- Hid in Eq.
      apply (E (pg_id q, PagePackingState_new q)); [apply Hin; by exists q|done]. }
  rewrite map_get_fmap. by rewrite Hg.
Qed.

Lemma initial_placed : placed_ok (initial_states (v_pages v).*2) [] [].
Proof.
  split.
  - apply map_of_list_sorted.
  - constructor.
  - intros id. rewrite elem_of_nil. split; [by intros [? ?]|done].
  - done.
  - intros pid g Hg. exists (PagePackingState_new g), []. rewrite (initial_states_get pid g Hg).
    split; [done|]. unfold page_holds. split_and!; [done|apply packing_nil|constructor|].
    intros id r. split; [by intros ?%not_elem_of_nil|by intros (? & ? & _)].
Qed.

Lemma pairs_known : Forall (pair_known v) (v_pairs v).
Proof.
  rewrite (valid_pairs _ _ Hv). apply Forall_fmap, Forall_forall. intros w Hw.
  by destruct (valid_pair _ _ Hv w Hw) as (? & ? & _).
Qed.

(** Every sprite is placed. *)
Definition all_placed (placements : PlacementMap) : Prop :=
  ∃ states ids, placed_ok states placements ids ∧ ids ≡ₚ (v_sprites v).*1.

Lemma plan_candidate_outcome : outcome all_placed (plan_candidate v).
Proof.
  unfold plan_candidate.
  eapply outcome_bind; [by apply (build_clusters_outcome _ _ Hv), pairs_known|].
  intros [cs n] [Hpart Hkey]. cbn [fst] in *.
  assert (NoDup (concat (members <$> cs))) as Hnd.
  { rewrite Hpart. apply sorted_map_NoDup, (valid_sprites_sorted _ _ Hv). }
  eapply outcome_mono.
  { apply (place_loop_outcome _ cs _ _ []); [apply initial_placed|apply pages_listed| |exact Hkey|done].
    intros k Hk. apply Forall_forall. intros id Hid. unfold known_sprite.
    apply map_get_keys; [by apply (valid_sprites_sorted _ _ Hv)|]. rewrite <- Hpart.
    apply list_elem_of_In, in_concat. exists (members k).
    split; apply list_elem_of_In; [by apply list_elem_of_fmap_2|done]. }
  intros placements (states & ids & Hpo & Hids). exists states, ids. split; [done|].
  by rewrite Hids, Hpart.
Qed.

(** ** Measuring *)

(** The weight of the pairs on different pages. *)
Fixpoint cut_of (page_of : Z → option Z) (pairs : list Pair) : Z :=
  match pairs with
  | [] => 0
  | (f, t, w) :: pairs' =>
      (if bool_decide (page_of f = page_of t) then 0 else w) + cut_of page_of pairs'
  end.

Lemma cut_weight_is_cut page_of sum pairs r :
  cut_weight page_of sum pairs = Some (Ok r) → r = sum + cut_of page_of pairs.
Proof.
  revert sum. induction pairs as [|[[f t] w] pairs IH]; intros sum; cbn.
  { intros [= ->]. lia. }
  destruct (page_of f) as [p|] eqn:Ef; [|done]. destruct (page_of t) as [q|] eqn:Et; [|done]. cbn.
  destruct (Z.eqb_spec p q) as [->|Hne].
  - intros ->%IH. rewrite bool_decide_eq_true_2 by congruence. lia.
  - destruct (checked_u 64 _) as [s|] eqn:Es; [|done]. apply checked_u_Some in Es as [_ ->].
    intros ->%IH. rewrite bool_decide_eq_false_2 by congruence. lia.
Qed.

(** The pages in use and how many sprites each has. *)
Definition on_page (pid : Z) (ps : list (Z * AtlasPlacement)) : nat :=
  length (filter (λ e, pl_page_id e.2 = pid) ps).

Lemma usage_loop_spec ps used counts n :
  (∀ id p, (id, p) ∈ ps → is_Some (map_get id (v_baseline v))) → sorted_keys used → sorted_map counts →
  ∃ used' counts' n', usage_loop (v_baseline v) ps used counts n = Some (used', counts', n')
    ∧ sorted_keys used' ∧ sorted_map counts'
    ∧ (∀ pid, pid ∈ used' ↔ pid ∈ used ∨ ∃ e, e ∈ ps ∧ pl_page_id e.2 = pid)
    ∧ (∀ pid, default 0%nat (map_get pid counts') = (default 0%nat (map_get pid counts) + on_page pid ps)%nat)
    ∧ (∀ pid, pid ∈ used' → pid ∈ used ∨ is_Some (map_get pid counts')) ∧
      (∀ pid, is_Some (map_get pid counts) → is_Some (map_get pid counts')).
Proof.
  revert used counts n. induction ps as [|[id p] ps IH]; intros used counts n Hb Hu Hc; cbn [usage_loop].
  { exists used, counts, n. split_and!; try done.
    - intros pid. split; [by left|]. by intros [?|(e & ?%not_elem_of_nil & _)].
    - by left. }
  destruct (Hb id p) as [b ->]; [by left|]. cbn [mbind option_bind].
  destruct (IH (set_insert (pl_page_id p) used) (entry_update (pl_page_id p) 0%nat S counts)
    (if moved b p then S n else n)) as (u & c & m & -> & Hu' & Hc' & Hin & Hcnt & Hboth & Hkeep).
  { intros id' p' ?. apply (Hb id' p'). by right. }
  { by apply set_insert_sorted. }
  { by apply map_insert_sorted. }
  assert (∀ pid, map_get pid (entry_update (pl_page_id p) 0%nat S counts) =
    if decide (pid = pl_page_id p) then Some (S (default 0%nat (map_get (pl_page_id p) counts)))
    else map_get pid counts) as Hent.
  { intros pid. unfold entry_update. rewrite map_get_insert_case by done. by repeat case_decide. }
  exists u, c, m. split_and!; try done.
  - intros pid. rewrite Hin, elem_of_set_insert. split.
    + intros [[->|?]|(e & He & <-)]; [right; exists (id, p); split; [by left|done]|by left|].
      right. exists e. split; [by right|done].
    + intros [?|(e & [->|He]%elem_of_cons & <-)]; [tauto|by left; left|right; by exists e].
  - intros pid. rewrite Hcnt, Hent. unfold on_page. rewrite filter_cons. cbn [snd].
    destruct (decide (pid = pl_page_id p)) as [->|Hne];
      (destruct (decide (pl_page_id p = _)); [|try congruence]); try congruence; cbn; lia.
  - intros pid Hpid. destruct (Hboth pid Hpid) as [Hi|?]; [|by right].
    apply elem_of_set_insert in Hi as [->|?]; [|by left]. right. apply Hkeep. rewrite Hent.
    by rewrite decide_True.
  - intros pid Hpid. apply Hkeep. rewrite Hent. by case_decide.
Qed.

(** A planned page repeats the extent of a page of the input. *)
Definition describes (g : AtlasPageExtent) (pp : AtlasPlannedPage) : Prop :=
  pp_id pp = pg_id g ∧ pp_compatibility pp = pg_compatibility g ∧ pp_width pp = pg_width g
  ∧ pp_height pp = pg_height g ∧ pp_origin_x pp = usable_origin_x g
  ∧ pp_origin_y pp = usable_origin_y g ∧ pp_allocation_bytes pp = allocation_bytes g.

Lemma planned_pages_outcome counts used planned bytes :
  (∀ pid, pid ∈ used → is_Some (map_get pid (v_pages v)) ∧ is_Some (map_get pid counts)) →
  outcome (λ r, ∃ new, r.1 = planned ++ new ∧ pp_id <$> new = used
      ∧ r.2 = bytes + foldr Z.add 0 (pp_allocation_bytes <$> new)
      ∧ ∀ pp, pp ∈ new → ∃ g, g ∈ in_pages input ∧ describes g pp
                              ∧ map_get (pp_id pp) counts = Some (pp_sprite_count pp))
    (planned_pages_loop (v_pages v) counts used planned bytes).
Proof.
  revert planned bytes. induction used as [|pid used IH]; intros planned bytes Hused;
    cbn [planned_pages_loop].
  { cbn. exists []. rewrite app_nil_r. cbn. split_and!; [done|done|lia|].
    by intros pp ?%not_elem_of_nil. }
  destruct (Hused pid) as [[g Hg] [c Hc]]; [by left|]. rewrite Hg, Hc. cbn [mbind option_bind].
  apply outcome_pure. intros b Hb%ok_or_inv%checked_u_Some. destruct Hb as [_ ->].
  eapply outcome_mono; [apply IH; intros pid' ?; apply Hused; by right|].
  intros [ps b] (new & -> & Hids & -> & Hnew).
  pose proof Hg as Hg'. apply (valid_page _ _ Hv) in Hg' as [Hin Hid].
  eexists (_ :: new). rewrite <- app_assoc. cbn [app fst snd].
  split_and!; [done| |cbn; lia|].
  - rewrite fmap_cons, Hids. cbn. by rewrite Hid.
  - intros pp [->|?]%elem_of_cons; [|by apply Hnew]. exists g. cbn. rewrite Hid.
    split_and!; [done| |done]. unfold describes. cbn. by rewrite Hid.
Qed.

(** The pages and metrics of a complete placement. *)
Definition measured (placements : PlacementMap) (r : list AtlasPlannedPage * AtlasMetrics) : Prop :=
  let planned := r.1 in
  let m := r.2 in
  let bytes := foldr Z.add 0 (pp_allocation_bytes <$> planned) in
  let current := current_device_bytes (in_budget input) in
  NoDup (pp_id <$> planned)
  ∧ (∀ pid, pid ∈ pp_id <$> planned ↔ ∃ e, e ∈ placements ∧ pl_page_id e.2 = pid)
  ∧ (∀ pp, pp ∈ planned → ∃ g, g ∈ in_pages input ∧ describes g pp
                               ∧ pp_sprite_count pp = on_page (pp_id pp) placements)
  ∧ baseline_cut_weight m = v_baseline_cut v
  ∧ candidate_cut_weight m = cut_of (placement_page_of placements) (v_pairs v)
  ∧ candidate_texture_bytes m = bytes
  ∧ final_device_bytes m = current - foldr Z.add 0 (allocation_bytes <$> in_pages input) + bytes
  ∧ peak_device_bytes m = current + bytes
  ∧ candidate_page_count m = length planned.

Lemma measure_outcome placements :
  all_placed placements → outcome (measured placements) (measure input v placements).
Proof.
  intros (states & ids & Hpo & Hids). unfold measure.
  pose proof (po_assigned_sorted _ _ _ Hpo) as Hsorted.
  assert (∀ id, known_sprite v id → is_Some (placement_page_of placements id)) as Hall.
  { intros id Hid. unfold placement_page_of. apply fmap_is_Some, (po_ids _ _ _ Hpo).
    rewrite Hids. apply map_get_keys; [apply (valid_sprites_sorted _ _ Hv)|done]. }
  eapply outcome_bind.
  { apply outcome_keep, cut_weight_outcome. intros [[f t] w] He.
    pose proof pairs_known as Hp. rewrite Forall_forall in Hp. apply Hp in He as [? ?]. auto. }
  intros cut [_ Hcut]. apply cut_weight_is_cut in Hcut.
  destruct (usage_loop_spec placements [] [] 0%nat) as
    (used & counts & n & -> & Hu & Hc & Hin & Hcnt & Hboth & _); [|constructor|constructor|].
  { intros id p Hp. apply (valid_baseline _ _ Hv). apply map_get_elem in Hp; [|done].
    assert (id ∈ ids) as Hid by (apply (po_ids _ _ _ Hpo); by exists p). rewrite Hids in Hid.
    apply map_get_keys in Hid; [done|apply (valid_sprites_sorted _ _ Hv)]. }
  cbn [mbind option_bind]. eapply outcome_bind.
  { apply (planned_pages_outcome counts used [] 0). intros pid Hpid. split.
    - apply Hin in Hpid as [?%not_elem_of_nil|([id p] & He & <-)]; [done|].
      apply map_get_elem in He; [|done].
      apply (po_placement _ _ _ Hpo) in He as [_ (s & g & _ & Hg & (_ & Hpg & _))]. cbn.
      rewrite Hpg. by exists g.
    - by destruct (Hboth pid Hpid) as [?%not_elem_of_nil|?]. }
  intros [planned bytes] (new & Hnew & Hnids & Hbytes & Hdesc). cbn in Hnew, Hbytes. subst planned bytes.
  apply outcome_pure. intros final Hf%ok_or_inv.
  apply outcome_pure. intros peak Hp%ok_or_inv%checked_u_Some. destruct Hp as [_ ->].
  destruct (checked_u 64 (_ - _)) as [u|] eqn:Eu; [|done]. cbn [mbind option_bind] in Hf.
  apply checked_u_Some in Eu as [_ ->], Hf as [_ ->].
  cbn [outcome]. unfold measured. cbn. rewrite (valid_existing _ _ Hv).
  split_and!; try done; try lia.
  - rewrite Hnids. by apply sorted_keys_NoDup.
  - intros pid. rewrite Hnids, Hin. split; [|by right]. by intros [?%not_elem_of_nil|?].
  - intros pp Hpp. destruct (Hdesc pp Hpp) as (g & Hg & Hd & Hcount). exists g. split_and!; [done..|].
    pose proof (Hcnt (pp_id pp)) as Hc'. rewrite Hcount in Hc'. cbn in Hc'. exact Hc'.
Qed.
End placement.

(** ** Valid plans *)

(** The page of a sprite in a list of placements. *)
Definition placed_page (ps : list AtlasPlacement) (id : Z) : option Z :=
  pl_page_id <$> head (filter (λ p, pl_sprite_id p = id) ps).

Definition baseline_page (input : AtlasPlanningInput) (id : Z) : option Z :=
  bl_page_id <$> head (filter (λ b, bl_sprite_id b = id) (in_baseline_placements input)).

Definition input_pairs (input : AtlasPlanningInput) : list Pair :=
  (λ w, (from_sprite_id w, to_sprite_id w, pw_weight w)) <$> in_pair_weights input.

Definition total_bytes (pages : list AtlasPageExtent) : Z := foldr Z.add 0 (allocation_bytes <$> pages).

Record plan_valid (input : AtlasPlanningInput) (pl : AtlasPlan) : Prop := {
  plan_complete : (pl_sprite_id <$> plan_placements pl) ≡ₚ (sp_id <$> in_sprites input);
  plan_placed : ∀ p, p ∈ plan_placements pl →
    ∃ s g, s ∈ in_sprites input ∧ g ∈ in_pages input ∧ places s g p ∧ in_page g (placement_rect p);
  plan_apart : ∀ p q, p ∈ plan_placements pl → q ∈ plan_placements pl → p ≠ q →
    pl_page_id p = pl_page_id q → rectangles_overlap (placement_rect p) (placement_rect q) = false;
  plan_pages_nodup : NoDup (pp_id <$> plan_pages pl);
  plan_pages_used : ∀ pid, pid ∈ pp_id <$> plan_pages pl ↔ pid ∈ pl_page_id <$> plan_placements pl;
  plan_pages_known : ∀ pp, pp ∈ plan_pages pl → ∃ g, g ∈ in_pages input ∧ describes g pp
    ∧ pp_sprite_count pp = length (filter (λ p, pl_page_id p = pp_id pp) (plan_placements pl));
  plan_final : final_device_bytes (plan_metrics pl) =
    current_device_bytes (in_budget input) - total_bytes (in_pages input)
    + foldr Z.add 0 (pp_allocation_bytes <$> plan_pages pl);
  plan_peak : peak_device_bytes (plan_metrics pl) =
    current_device_bytes (in_budget input) + foldr Z.add 0 (pp_allocation_bytes <$> plan_pages pl);
  plan_budget : final_device_bytes (plan_metrics pl) ≤ max_final_bytes (in_budget input)
    ∧ peak_device_bytes (plan_metrics pl) ≤ max_peak_bytes (in_budget input);
  plan_cut : candidate_cut_weight (plan_metrics pl) =
    cut_of (placed_page (plan_placements pl)) (input_pairs input);
  plan_improves : cut_of (placed_page (plan_placements pl)) (input_pairs input)
    < cut_of (baseline_page input) (input_pairs input);
}.

Lemma get_is_head {A} (key : A → Z) (l : list A) (m : list (Z * A)) id :
  (∀ x, map_get id m = Some x ↔ x ∈ l ∧ key x = id) →
  map_get id m = head (filter (λ x, key x = id) l).
Proof.
  intros Hm. destruct (filter (λ x, key x = id) l) as [|x f] eqn:E; cbn.
  - destruct (map_get id m) as [x|]; [|done]. destruct (proj1 (Hm x) eq_refl) as [Hx Hk].
    assert (x ∈ filter (λ x, key x = id) l) as Hf by by apply list_elem_of_filter.
    rewrite E in Hf. by apply not_elem_of_nil in Hf.
  - apply Hm. assert (x ∈ filter (λ x, key x = id) l) as Hf by (rewrite E; by left).
    apply list_elem_of_filter in Hf as [? ?]. done.
Qed.

Lemma on_page_values pid (m : list (Z * AtlasPlacement)) :
  on_page pid m = length (filter (λ p, pl_page_id p = pid) m.*2).
Proof.
  unfold on_page. induction m as [|[id p] m IH]; [done|].
  rewrite fmap_cons, !filter_cons. cbn [snd]. case_decide; cbn; by rewrite IH.
Qed.

Lemma cut_of_ext f g pairs : (∀ id, f id = g id) → cut_of f pairs = cut_of g pairs.
Proof.
  intros Hfg. induction pairs as [|[[a b] w] pairs IH]; [done|]. cbn. by rewrite !Hfg, IH.
Qed.

Section sound.
Context (input : AtlasPlanningInput) (v : Validated).
Hypothesis Hv : valid input v.

Lemma value_get placements states ids p :
  placed_ok v states placements ids →
  p ∈ placements.*2 ↔ map_get (pl_sprite_id p) placements = Some p.
Proof.
  intros Hpo. pose proof (po_assigned_sorted _ _ _ _ Hpo) as Hs. split.
  - intros ([id q] & -> & Hin)%list_elem_of_fmap. cbn. apply map_get_elem in Hin; [|done].
    by destruct (po_placement _ _ _ _ Hpo _ _ Hin) as [-> _].
  - intros Hp. apply map_get_elem in Hp; [|done]. by apply (list_elem_of_fmap_2' snd placements (pl_sprite_id p, p)).
Qed.

Lemma placement_ids placements :
  all_placed v placements → (pl_sprite_id <$> placements.*2) ≡ₚ (sp_id <$> in_sprites input).
Proof.
  intros (states & ids & Hpo & Hids).
  pose proof (po_assigned_sorted _ _ _ _ Hpo) as Hs. pose proof (valid_sprites_sorted _ _ Hv) as Hvs.
  assert (pl_sprite_id <$> placements.*2 = placements.*1) as ->.
  { rewrite <- list_fmap_compose. apply list_fmap_ext. intros i [id q] Hi%list_elem_of_lookup_2. cbn.
    apply map_get_elem in Hi; [|done]. by destruct (po_placement _ _ _ _ Hpo _ _ Hi) as [-> _]. }
  assert (placements.*1 ≡ₚ (v_sprites v).*1) as ->.
  { apply NoDup_Permutation; [by apply sorted_map_NoDup..|]. intros id.
    rewrite <- map_get_keys by done. by rewrite (po_ids _ _ _ _ Hpo), Hids. }
  apply submseteq_length_Permutation.
  - apply NoDup_submseteq; [by apply sorted_map_NoDup|]. intros id Hid.
    apply map_get_keys in Hid as [s Hsp]; [|done]. apply (valid_sprite _ _ Hv) in Hsp as [Hin <-].
    by apply list_elem_of_fmap_2.
  - rewrite !length_fmap. by rewrite (valid_sprite_count _ _ Hv).
Qed.

Lemma placement_in_page placements p :
  all_placed v placements → p ∈ placements.*2 →
  ∃ s g, s ∈ in_sprites input ∧ g ∈ in_pages input ∧ places s g p ∧ in_page g (placement_rect p).
Proof.
  intros (states & ids & Hpo & _) Hp. apply (value_get _ _ _ _ Hpo) in Hp.
  destruct (po_placement _ _ _ _ Hpo _ _ Hp) as [_ (s & g & Hs & Hg & Hpl)].
  exists s, g. split_and!; [by apply (valid_sprite _ _ Hv) in Hs as [? _]
    |by apply (valid_page _ _ Hv) in Hg as [? _]|done|].
  destruct (po_page _ _ _ _ Hpo _ _ Hg) as (st & tags & _ & _ & Hpk & _ & Htags).
  eapply packing_in_page; [exact Hpk|]. destruct Hpl as (_ & Hpg & _).
  apply (list_elem_of_fmap_2' snd tags (pl_sprite_id p, placement_rect p)); [|done].
  apply Htags. by exists p.
Qed.

Lemma placements_apart placements p q :
  all_placed v placements → p ∈ placements.*2 → q ∈ placements.*2 → p ≠ q →
  pl_page_id p = pl_page_id q → rectangles_overlap (placement_rect p) (placement_rect q) = false.
Proof.
  intros (states & ids & Hpo & _) Hp%(value_get _ _ _ _ Hpo) Hq%(value_get _ _ _ _ Hpo) Hne Hpage.
  destruct (po_placement _ _ _ _ Hpo _ _ Hp) as [_ (s & g & _ & Hg & (_ & Hpg & _))].
  destruct (po_page _ _ _ _ Hpo _ _ Hg) as (st & tags & _ & _ & Hpk & _ & Htags).
  assert ((pl_sprite_id p, placement_rect p) ∈ tags) as [i Hi]%list_elem_of_lookup
    by (apply Htags; by exists p).
  assert ((pl_sprite_id q, placement_rect q) ∈ tags) as [j Hj]%list_elem_of_lookup
    by (apply Htags; exists q; split_and!; [done|congruence|done]).
  apply (packing_apart _ _ _ Hpk i j); [by rewrite list_lookup_fmap, Hi|by rewrite list_lookup_fmap, Hj|].
  intros <-. rewrite Hi in Hj. injection Hj as Hid _. congruence.
Qed.

Lemma accepted_plan_valid placements planned m r pl :
  all_placed v placements → measured input v placements (planned, m) →
  r = accept input (baseline_metrics_of input v) placements planned m → plan r = Some pl →
  plan_valid input pl.
Proof.
  intros Hall (Hnd & Hused & Hdesc & Hbase & Hcut & _ & Hfinal & Hpeak & _) -> Hpl.
  unfold accept in Hpl. destruct (_ || _) eqn:Hbudget; [done|].
  destruct (_ <=? _) eqn:Himp; [done|]. cbn in Hpl. injection Hpl as <-.
  apply orb_false_iff in Hbudget as [Hb1%Z.ltb_ge Hb2%Z.ltb_ge]. apply Z.leb_gt in Himp.
  cbn in *. destruct Hall as (states & ids & Hpo & Hids).
  assert (all_placed v placements) as Hall by (by exists states, ids).
  assert (∀ id, placement_page_of placements id = placed_page placements.*2 id) as Hpage.
  { intros id. unfold placement_page_of, placed_page. f_equal. apply get_is_head. intros p.
    rewrite (value_get _ _ _ _ Hpo). split; [|by intros [? <-]].
    intros Hp. by destruct (po_placement _ _ _ _ Hpo _ _ Hp) as [-> _]. }
  rewrite (cut_of_ext _ _ _ Hpage), (valid_pairs _ _ Hv) in Hcut.
  change (_ <$> in_pair_weights input) with (input_pairs input) in Hcut.
  split; cbn; try done.
  - by apply placement_ids.
  - intros p. by apply placement_in_page.
  - intros p q. by apply placements_apart.
  - intros pid. rewrite Hused, !list_elem_of_fmap. split.
    + intros (e & He & <-). exists e.2. split; [done|]. by apply list_elem_of_fmap_2.
    + intros (p & -> & (e & -> & He)%list_elem_of_fmap). by exists e.
  - intros pp Hpp. destruct (Hdesc pp Hpp) as (g & Hg & Hd & Hc). exists g.
    by rewrite <- on_page_values.
  - rewrite <- Hcut. rewrite Hbase in Himp.
    pose proof (valid_cut _ _ Hv) as Hb. apply cut_weight_is_cut in Hb.
    rewrite (valid_pairs _ _ Hv) in Hb. change (_ <$> in_pair_weights input) with (input_pairs input) in Hb.
    rewrite (cut_of_ext _ (baseline_page input)) in Hb; [lia|].
    intros id. unfold baseline_page_of, baseline_page. f_equal. apply get_is_head.
    intros b. apply (valid_baseline_get _ _ Hv).
Qed.
End sound.

(** The planner does not panic: its outcome by phase. *)
Lemma plan_outcome input :
  input_typed input →
  ∃ r, plan_atlas_affinity input = Some r
       ∧ (∀ pl, plan r = Some pl → plan_valid input pl ∧ fallback_reason r = None
                ∧ candidate_metrics r = Some (plan_metrics pl))
       ∧ (plan r = None → is_Some (fallback_reason r)).
Proof.
  intros Ht. unfold plan_atlas_affinity.
  pose proof (validate_valid input Ht) as Hval. destruct (validate input) as [[v|e]|]; [|by eexists|done].
  cbn in Hval. pose proof (plan_candidate_outcome _ _ Hval) as Hcand.
  destruct (plan_candidate v) as [[placements|e]|]; [|by eexists|done]. cbn in Hcand.
  pose proof (measure_outcome _ _ Hval placements Hcand) as Hm.
  destruct (measure input v placements) as [[[planned m]|e]|]; [|by eexists|done]. cbn [outcome] in Hm.
  eexists. split; [done|]. split.
  - intros pl Hpl. split; [by eapply accepted_plan_valid|]. unfold accept in *.
    destruct (_ || _); [done|]. destruct (_ <=? _); [done|]. cbn in *. by injection Hpl as <-.
  - unfold accept. destruct (_ || _); [by eexists|]. destruct (_ <=? _); [by eexists|done].
Qed.

(** C28 Whatever plan the planner returns is valid: every sprite is placed exactly once,
    with its own size and padding, on a page of its kind, inside the page's usable
    area, and no two sprites of a page overlap; the pages listed are exactly those
    in use, with their sprite counts; the textures fit the final and the peak
    budget; and the weight cut is the sum over the pairs split between pages and
    strictly smaller than that of the baseline. *)
Theorem atlas_plan_sound input r pl :
  input_typed input → plan_atlas_affinity input = Some r → plan r = Some pl → plan_valid input pl.
Proof.
  intros (r' & Hr & Hpl & _)%plan_outcome. rewrite Hr. intros [= <-]. by intros [? _]%Hpl.
Qed.

(** The planner terminates without a panic on every input, and it either returns a
    plan or gives the reason it declines. *)
Theorem atlas_planner_total input :
  input_typed input →
  ∃ r, plan_atlas_affinity input = Some r
       ∧ ((∃ pl, plan r = Some pl ∧ fallback_reason r = None
                 ∧ candidate_metrics r = Some (plan_metrics pl))
          ∨ (plan r = None ∧ is_Some (fallback_reason r))).
Proof.
  intros (r & Hr & Hpl & Hno)%plan_outcome. exists r. split; [done|].
  destruct (plan r) as [pl|]; [left|right; auto]. exists pl. split; [done|]. by apply Hpl.
Qed.

(** ** Two sprites that belong together *)

Section witnesses.
#[local] Definition key_ : AtlasCompatibilityKey := mkKey (Some 1) (Some 2) (Some 3) (Some 4) (Some 5).

#[local] Definition split_input : AtlasPlanningInput :=
  mkInput 7 7
    [mkSprite 10 8 8 1 key_; mkSprite 11 6 4 1 key_]
    [mkPage 0 key_ 32 16 0 2 2048; mkPage 1 key_ 32 16 0 2 2048]
    [mkBaseline 10 0 1 3 8 8 1; mkBaseline 11 1 1 3 6 4 1]
    [mkPair 10 11 5]
    (mkBudget 10000 10000 20000).

#[local] Definition split_result : AtlasPlanningResult :=
  default (declined Overflow None None) (plan_atlas_affinity split_input).

#[local] Definition split_plan : AtlasPlan :=
  default (mkPlan [] [] (mkMetrics 0 0 0 0 0 0 0 0 0)) (plan split_result).

Lemma split_input_typed : input_typed split_input.
Proof.
  split.
  - intros s Hs. repeat (apply elem_of_cons in Hs as [->|Hs]); [..|by apply not_elem_of_nil in Hs];
      unfold sprite_typed, in_u; cbn; lia.
  - intros g Hg. repeat (apply elem_of_cons in Hg as [->|Hg]); [..|by apply not_elem_of_nil in Hg];
      unfold page_typed, in_u; cbn; lia.
  - intros w Hw. repeat (apply elem_of_cons in Hw as [->|Hw]); [..|by apply not_elem_of_nil in Hw];
      unfold in_u; cbn; lia.
  - unfold in_u. cbn. lia.
Qed.

Lemma atlas_plan_sound_witness :
  (pl_page_id <$> plan_placements split_plan) = [0; 0] ∧ plan_valid split_input split_plan.
Proof.
  split; [vm_compute; reflexivity|].
  apply (atlas_plan_sound split_input split_result split_plan).
  - exact split_input_typed.
  - vm_compute. reflexivity.
  - vm_compute. reflexivity.
Defined.

Lemma atlas_planner_total_witness :
  ∃ r, plan_atlas_affinity split_input = Some r ∧ is_Some (plan r).
Proof.
  destruct (atlas_planner_total split_input split_input_typed) as (r & Hr & _).
  exists r. split; [exact Hr|]. revert Hr. vm_compute. intros [= <-]. by eexists.
Defined.
End witnesses.
