(* ===== verification/Documents.v ===== *)
(** * Documents of the language service

    Models [crates/stasis_language_service/src/documents.rs]: texts with their line
    starts, the conversion between byte offsets and the UTF-16 positions of the
    editor protocol, and the workspace of disk documents and editor overlays.

    A Rust [str] is the UTF-8 encoding of its [char]s; here the text is the list of
    its scalar values and [encode] gives the bytes.  [None] is a panic: of a slice
    at an offset inside a character, or of a revision beyond [u64]. *)

From S2P Require Import Prelude BTree Identity.
#[local] Set Warnings "-clear-no-such-hyp".
#[local] Open Scope Z_scope.

(** ** UTF-8 and UTF-16 *)

(** Unicode scalar values. *)
Definition char_ok (c : Z) : Prop := 0 ≤ c < 55296 ∨ 57344 ≤ c < 1114112.

Definition encode_char (c : Z) : list Z :=
  if c <? 128 then [c]
  else if c <? 2048 then [192 + c `div` 64; 128 + c `mod` 64]
  else if c <? 65536 then [224 + c `div` 4096; 128 + (c `div` 64) `mod` 64; 128 + c `mod` 64]
  else [240 + c `div` 262144; 128 + (c `div` 4096) `mod` 64; 128 + (c `div` 64) `mod` 64;
        128 + c `mod` 64].

Definition encode (text : list Z) : list Z := concat (encode_char <$> text).

Definition len_utf8 (c : Z) : nat := length (encode_char c).
Definition len_utf16 (c : Z) : nat := if c <? 65536 then 1 else 2.

(** [str::len] *)
Definition str_len (text : list Z) : nat := length (encode text).

(** [encode_utf16().count()] *)
Definition utf16_len (text : list Z) : nat := sum_list_with len_utf16 text.

(** The text cut at a byte offset; [None] inside a character or beyond the end. *)
Fixpoint split_at (text : list Z) (offset : nat) : option (list Z * list Z) :=
  match offset, text with
  | O, _ => Some ([], text)
  | S _, [] => None
  | S _, c :: text' =>
      if (len_utf8 c <=? offset)%nat
      then '(before, after) ← split_at text' (offset - len_utf8 c);
           Some (c :: before, after)
      else None
  end.

(** [is_char_boundary] *)
Definition is_char_boundary (text : list Z) (offset : nat) : bool :=
  bool_decide (is_Some (split_at text offset)).

(** [&text[start..end]] *)
Definition slice_text (text : list Z) (start end_ : nat) : option (list Z) :=
  if (start <=? end_)%nat then
    '(before, _) ← split_at text end_;
    '(_, part) ← split_at before start;
    Some part
  else None.

(** ** Documents *)

Record Position := mkPosition {
  pos_line : Z;              (* u32 *)
  utf16_character : Z;       (* u32 *)
}.

Record TextChange := mkChange {
  change_range : option (nat * nat);
  change_text : list Z;
}.

Definition TextChange_replace (start end_ : nat) (text : list Z) : TextChange :=
  mkChange (Some (start, end_)) text.
Definition TextChange_replace_all (text : list Z) : TextChange := mkChange None text.

Record Document := mkDocument {
  doc_version : option Z;    (* i64 *)
  doc_text : list Z;
  line_starts : list nat;
}.

Inductive PositionError :=
| LineOutOfBounds (line : Z)
| InsideUtf16Character (line utf16_character : Z)
| CharacterOutOfBounds (line utf16_character : Z)
| InvalidByteOffset (offset : nat).

Definition NEWLINE : Z := 10.

Definition newline_starts (bytes : list Z) : list nat :=
  omap (λ e, if e.2 =? NEWLINE then Some (S e.1) else None) (imap (λ i b, (i, b)) bytes).

Definition Document_new (version : option Z) (text : list Z) : Document :=
  mkDocument version text (0%nat :: newline_starts (encode text)).

Definition Document_disk (text : list Z) : Document := Document_new None text.
Definition Document_overlay (version : Z) (text : list Z) : Document := Document_new (Some version) text.

(** The loop over [line.char_indices()]. *)
Fixpoint offset_loop (position : Position) (line : list Z) (line_start relative : nat) (utf16 : Z)
    : Result (nat + Z) PositionError :=
  match line with
  | [] => Ok (inr utf16)
  | c :: line' =>
      if utf16 =? utf16_character position then Ok (inl (line_start + relative)%nat)
      else
        let utf16 := Z.min (utf16 + Z.of_nat (len_utf16 c)) u32_max in
        if utf16_character position <? utf16
        then Err (InsideUtf16Character (pos_line position) (utf16_character position))
        else offset_loop position line' line_start (relative + len_utf8 c) utf16
  end.

Definition byte_offset (d : Document) (position : Position) : option (Result nat PositionError) :=
  let line_index := Z.to_nat (pos_line position) in
  match line_starts d !! line_index with
  | None => Some (Err (LineOutOfBounds (pos_line position)))
  | Some line_start =>
      let line_end := match line_starts d !! S line_index with
                      | Some next_start => (next_start - 1)%nat
                      | None => str_len (doc_text d)
                      end in
      line ← slice_text (doc_text d) line_start line_end;
      Some (match offset_loop position line line_start 0 0 with
            | Err e => Err e
            | Ok (inl offset) => Ok offset
            | Ok (inr utf16) =>
                if utf16 =? utf16_character position then Ok line_end
                else Err (CharacterOutOfBounds (pos_line position) (utf16_character position))
            end)
  end.

(** [partition_point] of a sorted list. *)
Fixpoint partition_point (p : nat → bool) (l : list nat) : nat :=
  match l with
  | [] => O
  | x :: l' => if p x then S (partition_point p l') else O
  end.

Definition position (d : Document) (offset : nat) : option (Result Position PositionError) :=
  if (str_len (doc_text d) <? offset)%nat || negb (is_char_boundary (doc_text d) offset)
  then Some (Err (InvalidByteOffset offset))
  else
    let line := (partition_point (λ start, start <=? offset)%nat (line_starts d) - 1)%nat in
    line_start ← line_starts d !! line;
    part ← slice_text (doc_text d) line_start offset;
    Some (Ok (mkPosition (wrap 32 (Z.of_nat line)) (wrap 32 (Z.of_nat (utf16_len part))))).

(** ** The workspace *)

(** Paths are their bytes: [BTreeMap<String, _>] iterates in the order of [list_ord]. *)
Definition Path := list Z.

Record WorkspaceSnapshot := mkSnapshot {
  snapshot_revision : Z;     (* WorkspaceRevision(u64) *)
  snapshot_documents : list (Path * Document);
}.

Definition document (s : WorkspaceSnapshot) (path : Path) : option Document :=
  map_get path (snapshot_documents s).

Record WorkspaceDocuments := mkWorkspace {
  revision : Z;              (* WorkspaceRevision(u64) *)
  disk : list (Path * list Z);
  overlays : list (Path * Document);
  snapshot : WorkspaceSnapshot;
}.

Definition default_workspace : WorkspaceDocuments := mkWorkspace 0 [] [] (mkSnapshot 0 []).

(** The documents of a new snapshot: the overlays extend the disk documents. *)
Definition merged (disk : list (Path * list Z)) (overlays : list (Path * Document)) :
    list (Path * Document) :=
  foldl (λ acc e, map_insert e.1 e.2 acc)
    (map_of_list (prod_map id Document_disk <$> disk)) overlays.

Definition publish (w : WorkspaceDocuments) : option WorkspaceDocuments :=
  r ← checked_u 64 (revision w + 1);
  Some (mkWorkspace r (disk w) (overlays w) (mkSnapshot r (merged (disk w) (overlays w)))).

Definition set_disk_document (path : Path) (text : list Z) (w : WorkspaceDocuments) :
    option WorkspaceDocuments :=
  if bool_decide (map_get path (disk w) = Some text) then Some w
  else publish (mkWorkspace (revision w) (map_insert path text (disk w)) (overlays w) (snapshot w)).

Definition remove_disk_document (path : Path) (w : WorkspaceDocuments) : option WorkspaceDocuments :=
  match map_get path (disk w) with
  | Some _ => publish (mkWorkspace (revision w) (map_remove path (disk w)) (overlays w) (snapshot w))
  | None => Some w
  end.

Definition open_document (path : Path) (version : Z) (text : list Z) (w : WorkspaceDocuments) :
    option WorkspaceDocuments :=
  publish (mkWorkspace (revision w) (disk w)
             (map_insert path (Document_overlay version text) (overlays w)) (snapshot w)).

Definition close_document (path : Path) (w : WorkspaceDocuments) : option WorkspaceDocuments :=
  match map_get path (overlays w) with
  | Some _ => publish (mkWorkspace (revision w) (disk w) (map_remove path (overlays w)) (snapshot w))
  | None => Some w
  end.

Inductive DocumentChangeError :=
| NotOpen (path : Path)
| StaleVersion (path : Path) (current requested : Z)
| InvalidRange (path : Path) (start end_ length : nat).

(** [String::replace_range] of a range whose ends are checked before. *)
Definition replace_range (text : list Z) (start end_ : nat) (by_ : list Z) : option (list Z) :=
  '(before, after) ← split_at text end_;
  '(kept, _) ← split_at before start;
  Some (kept ++ by_ ++ after).

Fixpoint change_loop (path : Path) (next : list Z) (changes : list TextChange)
    : option (Result (list Z) DocumentChangeError) :=
  match changes with
  | [] => Some (Ok next)
  | change :: changes' =>
      match change_range change with
      | Some (start, end_) =>
          if ((start <=? end_) && (end_ <=? str_len next))%nat &&
             is_char_boundary next start && is_char_boundary next end_
          then next ← replace_range next start end_ (change_text change);
               change_loop path next changes'
          else Some (Err (InvalidRange path start end_ (str_len next)))
      | None => change_loop path (change_text change) changes'
      end
  end.

Definition change_document (path : Path) (version : Z) (changes : list TextChange)
    (w : WorkspaceDocuments) : option (Result unit DocumentChangeError * WorkspaceDocuments) :=
  match map_get path (overlays w) with
  | None => Some (Err (NotOpen path), w)
  | Some document =>
      current_version ← doc_version document;
      if version <=? current_version
      then Some (Err (StaleVersion path current_version version), w)
      else
        next ← change_loop path (doc_text document) changes;
        match next with
        | Err e => Some (Err e, w)
        | Ok next =>
            w' ← publish (mkWorkspace (revision w) (disk w)
                            (map_insert path (Document_overlay version next) (overlays w))
                            (snapshot w));
            Some (Ok tt, w')
        end
  end.
