(* ===== verification/DocumentsProps.v ===== *)
(** * Positions and the workspace of the language service

    Properties of [Documents]: byte offsets and UTF-16 positions are inverse to each
    other, no conversion panics, and the workspace publishes a snapshot of its
    documents with every change. *)

From S2P Require Import Prelude BTree Identity Documents.
#[local] Set Warnings "-clear-no-such-hyp".
#[local] Open Scope Z_scope.

(** ** Texts and their bytes *)

Lemma len_utf8_pos c : (0 < len_utf8 c)%nat.
Proof. unfold len_utf8, encode_char. repeat case_match; simpl; lia. Qed.

Lemma encode_app a b : encode (a ++ b) = encode a ++ encode b.
Proof. unfold encode. by rewrite fmap_app, concat_app. Qed.

Lemma str_len_app a b : str_len (a ++ b) = (str_len a + str_len b)%nat.
Proof. unfold str_len. by rewrite encode_app, length_app. Qed.

Lemma str_len_cons c a : str_len (c :: a) = (len_utf8 c + str_len a)%nat.
Proof. unfold str_len, len_utf8. by rewrite <- length_app. Qed.

Lemma str_len_0 a : str_len a = 0%nat → a = [].
Proof. destruct a as [|c a]; [done|]. rewrite str_len_cons. pose proof (len_utf8_pos c). lia. Qed.

Lemma utf16_len_app a b : utf16_len (a ++ b) = (utf16_len a + utf16_len b)%nat.
Proof. apply sum_list_with_app. Qed.

Lemma utf16_len_le a : (utf16_len a ≤ str_len a)%nat.
Proof.
  induction a as [|c a IH]; [done|]. rewrite str_len_cons. simpl.
  enough (len_utf16 c ≤ len_utf8 c)%nat by (unfold utf16_len in *; lia).
  unfold len_utf16, len_utf8, encode_char. repeat case_match; to_props; simpl; lia.
Qed.

(** The cut of a text at an offset is its unique prefix of that length. *)
Lemma split_at_Some text offset before after :
  split_at text offset = Some (before, after) ↔ text = before ++ after ∧ str_len before = offset.
Proof.
  revert offset before. induction text as [|c text IH]; intros offset before.
  - destruct offset; simpl; split.
    + by intros [= <- <-].
    + intros [E ?]. symmetry in E. by apply app_nil in E as [-> ->].
    + done.
    + intros [E ?]. symmetry in E. apply app_nil in E as [-> ->]. done.
  - pose proof (len_utf8_pos c) as Hc. destruct offset as [|offset].
    { simpl. split; [by intros [= <- <-]|]. intros [E ->%str_len_0]. by simplify_eq/=. }
    unfold split_at; fold split_at. split.
    + case_match eqn:El; [|done]. apply Nat.leb_le in El.
      destruct (split_at text _) as [[b a]|] eqn:E; [|done]. intros [= <- <-].
      apply IH in E as [-> Hb]. rewrite str_len_cons. split; [done|lia].
    + intros [E Hb]. destruct before as [|c' before]; [done|].
      simplify_eq/=. rewrite str_len_cons in Hb.
      rewrite (proj2 (Nat.leb_le _ _)) by lia.
      by rewrite (proj2 (IH _ before)) by (split; [done|lia]).
Qed.

Lemma split_at_app a b : split_at (a ++ b) (str_len a) = Some (a, b).
Proof. by apply split_at_Some. Qed.

Lemma slice_text_app a b c :
  slice_text (a ++ b ++ c) (str_len a) (str_len a + str_len b) = Some b.
Proof.
  unfold slice_text. rewrite (proj2 (Nat.leb_le _ _)) by lia.
  rewrite app_assoc, <- str_len_app, split_at_app. simpl. by rewrite split_at_app.
Qed.

Lemma boundary_iff text offset :
  is_char_boundary text offset = true ↔
  ∃ before after, text = before ++ after ∧ str_len before = offset.
Proof.
  unfold is_char_boundary. rewrite bool_decide_eq_true. split.
  - intros [[a b] E]. exists a, b. by apply split_at_Some.
  - intros (a & b & H). exists (a, b). by apply split_at_Some.
Qed.

(** ** Line starts *)

Definition newlines (text : list Z) : nat := length (filter (λ c, c = NEWLINE) text).

(** The starts of the lines after the first, of a text at an offset. *)
Fixpoint later_starts (n : nat) (text : list Z) : list nat :=
  match text with
  | [] => []
  | c :: text' =>
      let n' := (n + len_utf8 c)%nat in
      (if c =? NEWLINE then [n'] else []) ++ later_starts n' text'
  end.

Definition newline_starts_at (n : nat) (bytes : list Z) : list nat :=
  omap (λ e, if e.2 =? NEWLINE then Some (S e.1) else None) (imap (λ i b, ((n + i)%nat, b)) bytes).

Lemma newline_starts_at_cons n b bytes :
  newline_starts_at n (b :: bytes) =
  (if b =? NEWLINE then [S n] else []) ++ newline_starts_at (S n) bytes.
Proof.
  unfold newline_starts_at. rewrite imap_cons. simpl. rewrite Nat.add_0_r.
  rewrite (imap_ext _ (λ i x, ((S n + i)%nat, x))) by (intros; simpl; f_equal; lia).
  by destruct (b =? NEWLINE).
Qed.

Lemma newline_starts_at_app n a b :
  newline_starts_at n (a ++ b) = newline_starts_at n a ++ newline_starts_at (n + length a) b.
Proof.
  revert n. induction a as [|x a IH]; intros n; simpl.
  - by rewrite Nat.add_0_r.
  - rewrite !newline_starts_at_cons, IH, app_assoc. do 2 f_equal. lia.
Qed.

Lemma newline_starts_at_char n c :
  char_ok c → newline_starts_at n (encode_char c) = if c =? NEWLINE then [(n + len_utf8 c)%nat] else [].
Proof.
  intros Hc. unfold len_utf8, encode_char.
  pose proof (Z.mod_pos_bound c 64). pose proof (Z.mod_pos_bound (c `div` 64) 64).
  pose proof (Z.mod_pos_bound (c `div` 4096) 64).
  pose proof (Z.div_pos c 64). pose proof (Z.div_pos c 4096). pose proof (Z.div_pos c 262144).
  destruct Hc; repeat case_match; to_props; rewrite ?newline_starts_at_cons; unfold NEWLINE in *;
    repeat case_match; to_props; try lia; try done; simpl; by rewrite Nat.add_1_r.
Qed.

Lemma newline_starts_encode text :
  Forall char_ok text → ∀ n, newline_starts_at n (encode text) = later_starts n text.
Proof.
  induction 1 as [|c text Hc _ IH]; intros n; [done|].
  change (encode (c :: text)) with (encode_char c ++ encode text).
  by rewrite newline_starts_at_app, newline_starts_at_char, IH.
Qed.

Lemma line_starts_new v text :
  Forall char_ok text → line_starts (Document_new v text) = 0%nat :: later_starts 0 text.
Proof. intros. simpl. by rewrite <- newline_starts_encode. Qed.

Lemma later_starts_app n a b :
  later_starts n (a ++ b) = later_starts n a ++ later_starts (n + str_len a) b.
Proof.
  revert n. induction a as [|c a IH]; intros n; simpl.
  - by rewrite Nat.add_0_r.
  - rewrite IH, str_len_cons, app_assoc. do 2 f_equal. lia.
Qed.

Lemma length_later_starts n text : length (later_starts n text) = newlines text.
Proof.
  revert n. induction text as [|c text IH]; intros n; [done|]. simpl. unfold newlines.
  rewrite filter_cons, length_app, IH. case_match; case_decide; to_props; done.
Qed.

Lemma later_starts_range n text x :
  x ∈ later_starts n text → (n < x ≤ n + str_len text)%nat.
Proof.
  revert n. induction text as [|c text IH]; intros n; simpl; [by intros ?%not_elem_of_nil|].
  pose proof (len_utf8_pos c). rewrite str_len_cons.
  intros [Hx|?%IH]%elem_of_app; [|lia]. case_match; [|by apply not_elem_of_nil in Hx].
  apply list_elem_of_singleton in Hx as ->. lia.
Qed.

Lemma newlines_app a b : newlines (a ++ b) = (newlines a + newlines b)%nat.
Proof. unfold newlines. by rewrite filter_app, length_app. Qed.

Lemma newlines_0 line : NEWLINE ∉ line → newlines line = 0%nat.
Proof.
  intros Hl. unfold newlines. apply length_zero_iff_nil.
  induction line as [|c line IH]; [done|]. rewrite filter_cons.
  apply not_elem_of_cons in Hl as [? ?]. case_decide; [by subst|]. by apply IH.
Qed.

Lemma newlines_le_len text : (newlines text ≤ str_len text)%nat.
Proof.
  induction text as [|c text IH]; [done|]. rewrite str_len_cons.
  change (c :: text) with ([c] ++ text). rewrite newlines_app. pose proof (len_utf8_pos c).
  unfold newlines at 1. rewrite filter_cons. case_decide; simpl; lia.
Qed.

(** The text before a line: empty, or ending with a newline. *)
Definition starts_line (head : list Z) : Prop := head = [] ∨ ∃ h, head = h ++ [NEWLINE].

(** The text after a line: empty, or starting with a newline. *)
Definition ends_line (post : list Z) : Prop := post = [] ∨ ∃ p, post = NEWLINE :: p.

(** Every prefix ends in a line, ... *)
Lemma split_last_line pre : ∃ head tail, pre = head ++ tail ∧ starts_line head ∧ (NEWLINE ∉ tail).
Proof.
  induction pre as [|c pre (head & tail & -> & Hh & Ht)] using rev_ind.
  { exists [], []. split; [done|]. split; [by left|]. apply not_elem_of_nil. }
  destruct (decide (c = NEWLINE)) as [->|Hc].
  - exists ((head ++ tail) ++ [NEWLINE]), []. rewrite app_nil_r. split; [done|].
    split; [right; eauto|apply not_elem_of_nil].
  - exists head, (tail ++ [c]). rewrite app_assoc. split; [done|]. split; [done|]. set_solver.
Qed.

Lemma split_first_line post : ∃ line rest, post = line ++ rest ∧ (NEWLINE ∉ line) ∧ ends_line rest.
Proof.
  induction post as [|c post (line & rest & -> & Hl & Hr)].
  { exists [], []. split; [done|]. split; [apply not_elem_of_nil|by left]. }
  destruct (decide (c = NEWLINE)) as [->|Hc].
  - exists [], (NEWLINE :: line ++ rest). split; [done|]. split; [apply not_elem_of_nil|].
    right; eauto.
  - exists (c :: line), rest. split; [done|]. split; [set_solver|done].
Qed.

(** ... and the line of a given index is found by cutting the text there. *)
Lemma split_nth_line text k :
  (k ≤ newlines text)%nat →
  ∃ head line rest, text = head ++ line ++ rest ∧ starts_line head ∧ newlines head = k ∧
                    (NEWLINE ∉ line) ∧ ends_line rest.
Proof.
  intros Hk. enough ((∃ head rest, text = head ++ rest ∧ starts_line head ∧ newlines head = k))
    as (head & post & -> & Hh & Hn).
  { destruct (split_first_line post) as (line & rest & -> & ? & ?). eauto 10. }
  revert k Hk. induction text as [|c text IH] using rev_ind; intros k Hk.
  { exists [], []. split; [done|]. split; [by left|]. by apply Nat.le_0_r in Hk. }
  rewrite newlines_app in Hk. destruct (decide (k ≤ newlines text)%nat) as [Hle|Hgt].
  - destruct (IH k Hle) as (head & rest & -> & ? & ?). exists head, (rest ++ [c]).
    by rewrite app_assoc.
  - unfold newlines at 2 in Hk. rewrite filter_cons in Hk. case_decide; simpl in Hk; [|lia].
    subst c. exists (text ++ [NEWLINE]), []. rewrite app_nil_r. split; [done|].
    split; [right; eauto|]. rewrite newlines_app. change (newlines [NEWLINE]) with 1%nat. lia.
Qed.

Lemma later_starts_line n line : NEWLINE ∉ line → later_starts n line = [].
Proof. intros Hl. apply length_zero_iff_nil. rewrite length_later_starts. by apply newlines_0. Qed.

Lemma head_start head rest :
  starts_line head → (0%nat :: later_starts 0 (head ++ rest)) !! newlines head = Some (str_len head).
Proof.
  intros [->|[h ->]]; [done|]. rewrite newlines_app, str_len_app.
  change (newlines [NEWLINE]) with 1%nat. change (str_len [NEWLINE]) with 1%nat.
  rewrite Nat.add_1_r. simpl. rewrite later_starts_app. apply lookup_app_l_Some.
  rewrite later_starts_app. apply list_lookup_middle. by rewrite length_later_starts.
Qed.

Lemma next_start head line rest :
  starts_line head → NEWLINE ∉ line → ends_line rest →
  (0%nat :: later_starts 0 (head ++ line ++ rest)) !! S (newlines head) =
  match rest with [] => None | _ => Some (str_len head + str_len line + 1)%nat end.
Proof.
  intros Hh Hl Hr. simpl. rewrite !later_starts_app, (later_starts_line _ line) by done. simpl.
  rewrite <- (length_later_starts 0), lookup_app_r, Nat.sub_diag by done.
  destruct Hr as [->|[p ->]]; [done|]. done.
Qed.

Lemma partition_point_app p l1 l2 :
  Forall (λ x, p x = true) l1 → Forall (λ x, p x = false) l2 →
  partition_point p (l1 ++ l2) = length l1.
Proof.
  induction 1 as [|x l1 Hx _ IH]; intros H2; simpl.
  - destruct H2 as [|x l2 Hx ?]; simpl; [done|]. by rewrite Hx.
  - rewrite Hx. f_equal. by apply IH.
Qed.

(** ** Positions *)

#[local] Arguments utf16_len : simpl never.
#[local] Arguments str_len : simpl never.

Definition position_ok (p : Position) : Prop := in_u 32 (pos_line p) ∧ in_u 32 (utf16_character p).

(** What a position means in a text, or why it means nothing. *)
Inductive locates (text : list Z) : Position → Result nat PositionError → Prop :=
| locates_char head a b rest :
    text = head ++ a ++ b ++ rest → starts_line head → NEWLINE ∉ a ++ b → ends_line rest →
    locates text (mkPosition (Z.of_nat (newlines head)) (Z.of_nat (utf16_len a)))
      (Ok (str_len head + str_len a)%nat)
| locates_inside head a c b rest u :
    text = head ++ (a ++ c :: b) ++ rest → starts_line head → NEWLINE ∉ a ++ c :: b →
    ends_line rest → Z.of_nat (utf16_len a) < u < Z.of_nat (utf16_len (a ++ [c])) →
    locates text (mkPosition (Z.of_nat (newlines head)) u)
      (Err (InsideUtf16Character (Z.of_nat (newlines head)) u))
| locates_beyond head line rest u :
    text = head ++ line ++ rest → starts_line head → NEWLINE ∉ line → ends_line rest →
    Z.of_nat (utf16_len line) < u →
    locates text (mkPosition (Z.of_nat (newlines head)) u)
      (Err (CharacterOutOfBounds (Z.of_nat (newlines head)) u))
| locates_no_line l u :
    Z.of_nat (newlines text) < l → locates text (mkPosition l u) (Err (LineOutOfBounds l)).

Lemma len_utf16_range c : 1 ≤ Z.of_nat (len_utf16 c) ≤ 2.
Proof. unfold len_utf16. case_match; lia. Qed.

Lemma utf16_len_nil : utf16_len [] = 0%nat.
Proof. done. Qed.

Lemma str_len_nil : str_len [] = 0%nat.
Proof. done. Qed.

Lemma utf16_len_cons c a : utf16_len (c :: a) = (len_utf16 c + utf16_len a)%nat.
Proof. done. Qed.

(** A column of a line is one of its cuts, inside one of its characters, or beyond it. *)
Lemma cut_line line u :
  0 ≤ u →
  (∃ a b, line = a ++ b ∧ u = Z.of_nat (utf16_len a)) ∨
  (∃ a c b, line = a ++ c :: b ∧ Z.of_nat (utf16_len a) < u < Z.of_nat (utf16_len (a ++ [c]))) ∨
  Z.of_nat (utf16_len line) < u.
Proof.
  revert u. induction line as [|c line IH]; intros u Hu.
  { destruct (decide (u = 0)) as [->|]; [left; by exists [], []|]. do 2 right. rewrite utf16_len_nil. lia. }
  destruct (decide (u = 0)) as [->|Hu0]; [left; by exists [], (c :: line)|].
  pose proof (len_utf16_range c) as Hc.
  destruct (decide (u < Z.of_nat (len_utf16 c))) as [Hin|Hout].
  { right; left. exists [], c, line. split; [done|]. simpl. rewrite utf16_len_cons, utf16_len_nil. lia. }
  destruct (IH (u - Z.of_nat (len_utf16 c))) as [(a & b & -> & E)|[(a & c' & b & -> & E)|E]]; [lia| | |].
  - left. exists (c :: a), b. split; [done|]. rewrite utf16_len_cons. lia.
  - right; left. exists (c :: a), c', b. split; [done|]. simpl. rewrite !utf16_len_cons. lia.
  - do 2 right. rewrite utf16_len_cons. lia.
Qed.

(** Every position has a meaning. *)
Lemma locates_total text p : position_ok p → ∃ r, locates text p r.
Proof.
  destruct p as [l u]. intros [[Hl _] [Hu _]]. simpl in *.
  destruct (decide (Z.of_nat (newlines text) < l)) as [|Hle]; [eexists; by apply locates_no_line|].
  destruct (split_nth_line text (Z.to_nat l)) as (head & line & rest & E & Hh & Hn & Hline & Hr); [lia|].
  assert (l = Z.of_nat (newlines head)) as -> by lia.
  destruct (cut_line line u Hu) as [(a & b & -> & ->)|[(a & c & b & -> & ?)|?]].
  - eexists. rewrite <- (assoc_L _ a) in E. by eapply locates_char.
  - eexists. by eapply locates_inside.
  - eexists. by eapply locates_beyond.
Qed.

Section offset_loop.
Context (p : Position) (base : nat).

Lemma offset_loop_cut a b rel u :
  u + Z.of_nat (utf16_len a) = utf16_character p → utf16_character p ≤ u32_max →
  offset_loop p (a ++ b) base rel u =
  match b with
  | [] => Ok (inr (utf16_character p))
  | _ => Ok (inl (base + (rel + str_len a))%nat)
  end.
Proof.
  revert rel u. induction a as [|c a IH]; intros rel u Hu Hmax; simpl.
  - rewrite utf16_len_nil, Z.add_0_r in Hu. destruct b as [|c b]; simpl; [by rewrite Hu|].
    rewrite (proj2 (Z.eqb_eq _ _)) by done. by rewrite str_len_nil, Nat.add_0_r.
  - rewrite utf16_len_cons in Hu. pose proof (len_utf16_range c).
    rewrite (proj2 (Z.eqb_neq _ _)), Z.min_l, (proj2 (Z.ltb_ge _ _)) by lia.
    rewrite IH, str_len_cons by lia. destruct b; [done|]. do 3 f_equal. lia.
Qed.

Lemma offset_loop_inside a c b rel u :
  u + Z.of_nat (utf16_len a) < utf16_character p < u + Z.of_nat (utf16_len (a ++ [c])) →
  u + Z.of_nat (utf16_len (a ++ [c])) ≤ u32_max →
  offset_loop p (a ++ c :: b) base rel u =
  Err (InsideUtf16Character (pos_line p) (utf16_character p)).
Proof.
  revert rel u. induction a as [|d a IH]; intros rel u Hu Hmax; simpl in *;
    rewrite ?utf16_len_cons, ?utf16_len_nil in *; simpl in *.
  - rewrite (proj2 (Z.eqb_neq _ _)), Z.min_l, (proj2 (Z.ltb_lt _ _)) by lia. done.
  - pose proof (len_utf16_range d).
    rewrite (proj2 (Z.eqb_neq _ _)), Z.min_l, (proj2 (Z.ltb_ge _ _)) by lia. apply IH; lia.
Qed.

Lemma offset_loop_beyond line rel u :
  u + Z.of_nat (utf16_len line) < utf16_character p → utf16_character p ≤ u32_max →
  offset_loop p line base rel u = Ok (inr (u + Z.of_nat (utf16_len line))).
Proof.
  revert rel u. induction line as [|c line IH]; intros rel u Hu Hmax; simpl.
  - by rewrite utf16_len_nil, Z.add_0_r.
  - rewrite utf16_len_cons in *. pose proof (len_utf16_range c).
    rewrite (proj2 (Z.eqb_neq _ _)), Z.min_l, (proj2 (Z.ltb_ge _ _)) by lia.
    rewrite IH by lia. do 2 f_equal. lia.
Qed.
End offset_loop.

Section one_document.
Context (v : option Z) (text : list Z) (Hok : Forall char_ok text).
Context (Hlen : Z.of_nat (str_len text) < 2 ^ 32).
Abbreviation d := (Document_new v text).

(** The slice of a line that [byte_offset] scans. *)
Lemma byte_offset_line head line rest u :
  text = head ++ line ++ rest → starts_line head → NEWLINE ∉ line → ends_line rest →
  byte_offset d (mkPosition (Z.of_nat (newlines head)) u) =
  let p := mkPosition (Z.of_nat (newlines head)) u in
  Some (match offset_loop p line (str_len head) 0 0 with
        | Err e => Err e
        | Ok (inl offset) => Ok offset
        | Ok (inr utf16) =>
            if utf16 =? u then Ok (str_len head + str_len line)%nat
            else Err (CharacterOutOfBounds (pos_line p) u)
        end).
Proof using Hok.
  intros E Hh Hl Hr. unfold byte_offset. rewrite line_starts_new by done. simpl pos_line.
  rewrite Nat2Z.id. simpl doc_text. rewrite E, head_start, next_start by done.
  replace (match _ with Some _ => _ | None => _ end) with (str_len head + str_len line)%nat.
  - rewrite slice_text_app. done.
  - destruct Hr as [->|[p ->]]; [by rewrite app_nil_r, str_len_app|lia].
Qed.

Lemma byte_offset_locates p r : position_ok p → locates text p r → byte_offset d p = Some r.
Proof using Hok Hlen.
  intros [Hpl Hpu] Hr. assert (Z.of_nat (utf16_len text) < 2 ^ 32) as Hu.
  { pose proof (utf16_len_le text). lia. }
  unfold in_u in *. destruct Hr as [head a b rest E ?? Hr|head a c b rest u E ?? Hr ?|
    head line rest u E ?? Hr ?|l u ?]; simpl in *.
  - rewrite (byte_offset_line head (a ++ b) rest) by (by rewrite <- ?(assoc_L _ a)). simpl.
    rewrite offset_loop_cut by (simpl; unfold u32_max; lia). destruct b; [|done].
    simpl. by rewrite Z.eqb_refl, app_nil_r.
  - erewrite byte_offset_line by done. simpl. rewrite E in Hu.
    rewrite offset_loop_inside; [done|simpl; lia|]. simpl.
    rewrite !utf16_len_app, !utf16_len_cons, ?utf16_len_nil in *. unfold u32_max. lia.
  - erewrite byte_offset_line by done. simpl.
    rewrite offset_loop_beyond by (simpl; unfold u32_max; lia).
    by rewrite (proj2 (Z.eqb_neq _ _)) by lia.
  - unfold byte_offset. rewrite line_starts_new by done. simpl pos_line.
    rewrite lookup_ge_None_2; [done|]. simpl. rewrite length_later_starts. lia.
Qed.

Lemma position_at head tail post :
  text = head ++ tail ++ post → starts_line head → NEWLINE ∉ tail →
  position d (str_len head + str_len tail) =
  Some (Ok (mkPosition (Z.of_nat (newlines head)) (Z.of_nat (utf16_len tail)))).
Proof using Hok Hlen.
  intros E Hh Ht. unfold position. rewrite line_starts_new by done. simpl doc_text.
  rewrite (proj2 (boundary_iff _ _)), orb_false_r, (proj2 (Nat.ltb_ge _ _)).
  2: { rewrite E, !str_len_app. lia. }
  2: { exists (head ++ tail), post. by rewrite <- (assoc_L _ head), str_len_app. }
  assert (partition_point (λ start, start <=? str_len head + str_len tail)%nat
            (0%nat :: later_starts 0 text) = S (newlines head)) as ->.
  { rewrite E, !later_starts_app, (later_starts_line _ tail) by done. simpl "++".
    rewrite app_comm_cons, partition_point_app; simpl; [by rewrite length_later_starts| |].
    - constructor; [done|]. apply Forall_forall. intros x Hx%later_starts_range.
      apply Nat.leb_le. lia.
    - apply Forall_forall. intros x Hx%later_starts_range. apply Nat.leb_gt. lia. }
  simpl. rewrite Nat.sub_0_r, E, head_start by done. simpl. rewrite slice_text_app. simpl.
  pose proof (utf16_len_le tail). pose proof (newlines_le_len head).
  rewrite E, !str_len_app in Hlen. rewrite !wrap_small by (unfold in_u; lia). done.
Qed.
End one_document.

Lemma locates_inj (text : list Z) p r1 r2 :
  Forall char_ok text → Z.of_nat (str_len text) < 2 ^ 32 → position_ok p →
  locates text p r1 → locates text p r2 → r1 = r2.
Proof.
  intros Hok Hlen Hp H1 H2. apply (inj Some).
  by rewrite <- (byte_offset_locates None _ Hok Hlen p r1), <- (byte_offset_locates None _ Hok Hlen p r2).
Qed.

(** [byte_offset] never panics and returns exactly what the position means: the
    offset of that column of that line, or an error that says whether the line does
    not exist, the column is beyond it or lies inside a surrogate pair. *)
Theorem byte_offset_exact v text p r :
  Forall char_ok text → Z.of_nat (str_len text) < 2 ^ 32 → position_ok p →
  byte_offset (Document_new v text) p = Some r ↔ locates text p r.
Proof.
  intros Hok Hlen Hp. split; [|by apply byte_offset_locates].
  intros E. destruct (locates_total text p Hp) as [r' Hr']. pose proof Hr' as E'.
  apply (byte_offset_locates v) in E'; [|done..]. congruence.
Qed.

Lemma byte_offset_exact_witness :
  byte_offset (Document_new None [97; 10; 128512; 98]) (mkPosition 1 1) =
  Some (Err (InsideUtf16Character 1 1)).
Proof.
  apply (byte_offset_exact None [97; 10; 128512; 98] (mkPosition 1 1)).
  - repeat constructor; unfold char_ok; lia.
  - done.
  - done.
  - apply (locates_inside _ [97; 10] [] 128512 [98] []); [done|by right; exists [97]| |by left|done].
    set_solver.
Defined.

Lemma byte_offset_answers v text p :
  Forall char_ok text → Z.of_nat (str_len text) < 2 ^ 32 → position_ok p →
  ∃ r, byte_offset (Document_new v text) p = Some r ∧ ∀ r', locates text p r' ↔ r' = r.
Proof.
  intros Hok Hlen Hp. destruct (locates_total text p Hp) as [r Hr]. exists r.
  split; [by apply byte_offset_locates|]. intros r'. split; [by intros Hr'; eapply locates_inj|by intros ->].
Qed.

(** The position of an offset between two characters. *)
Lemma boundary_position v text o :
  Forall char_ok text → Z.of_nat (str_len text) < 2 ^ 32 → is_char_boundary text o = true →
  ∃ head tail post, text = head ++ tail ++ post ∧ starts_line head ∧ (NEWLINE ∉ tail) ∧
    o = (str_len head + str_len tail)%nat ∧
    position (Document_new v text) o =
    Some (Ok (mkPosition (Z.of_nat (newlines head)) (Z.of_nat (utf16_len tail)))).
Proof.
  intros Hok Hlen Hb. apply boundary_iff in Hb as (before & post & Et & <-).
  destruct (split_last_line before) as (head & tail & -> & Hh & Ht). rewrite <- (assoc_L _ head) in Et.
  exists head, tail, post. rewrite str_len_app. do 4 (split; [done|]).
  by apply position_at with (post := post).
Qed.

(** C34 Offsets and positions are inverse, and no conversion panics: an offset has a position
    exactly when it is the start or end of a character, and the position converts back to
    that offset; conversely a position of the document that has an offset is the position of
    that offset.  Any offset and any position of [u32]s is answered: a position with exactly
    what it means in the text, the offset of that column of that line, or an error that says
    whether the line does not exist, the column is beyond it or lies inside a surrogate
    pair. *)
Theorem positions_inverse v text :
  Forall char_ok text → Z.of_nat (str_len text) < 2 ^ 32 →
  (∀ offset p, position (Document_new v text) offset = Some (Ok p) ↔
     position_ok p ∧ byte_offset (Document_new v text) p = Some (Ok offset)) ∧
  (∀ offset, position (Document_new v text) offset = Some (Err (InvalidByteOffset offset)) ↔
     ¬ ∃ before after, text = before ++ after ∧ str_len before = offset) ∧
  (∀ offset, is_Some (position (Document_new v text) offset)) ∧
  (∀ p, position_ok p → ∃ r, byte_offset (Document_new v text) p = Some r ∧ ∀ r', locates text p r' ↔ r' = r).
Proof.
  intros Hok Hlen. split_and!; [| | |by intros p; apply byte_offset_answers].
  - intros o p. split.
    + intros E. destruct (is_char_boundary text o) eqn:Eb.
      2: { unfold position in E. simpl doc_text in E. by rewrite Eb, orb_true_r in E. }
      destruct (boundary_position v text o Hok Hlen Eb) as (head & tail & post & Et & Hh & Ht & -> & Ep).
      rewrite Ep in E. apply (inj Some), Ok_inj in E as <-.
      pose proof (utf16_len_le tail). pose proof (newlines_le_len head).
      rewrite Et, !str_len_app in Hlen.
      assert (position_ok (mkPosition (Z.of_nat (newlines head)) (Z.of_nat (utf16_len tail)))) as Hp.
      { unfold position_ok, in_u. simpl. lia. }
      split; [done|]. destruct (split_first_line post) as (b & rest & -> & Hb & Hr).
      apply byte_offset_locates; [done|rewrite !str_len_app in Hlen; rewrite Et, !str_len_app; lia|done|].
      apply (locates_char _ head tail b rest); [done|done|set_solver|done].
    + intros [Hp E]. apply byte_offset_exact in E; [|done..].
      inversion E as [head a b rest Et Hh Hl Hr| | |]; subst p.
      apply (position_at v _ Hok Hlen head a (b ++ rest)); [done|done|set_solver].
  - intros o. rewrite <- boundary_iff. split.
    + intros E Eb. destruct (boundary_position v text o Hok Hlen Eb) as (? & ? & ? & ? & ? & ? & -> & Ep).
      by rewrite Ep in E.
    + intros Eb%not_true_is_false. unfold position. simpl doc_text. by rewrite Eb, orb_true_r.
  - intros o. destruct (is_char_boundary text o) eqn:Eb.
    + destruct (boundary_position v text o Hok Hlen Eb) as (? & ? & ? & ? & ? & ? & -> & Ep). eauto.
    + unfold position. simpl doc_text. rewrite Eb, orb_true_r. eauto.
Qed.

Lemma positions_inverse_witness :
  position (Document_new None [97; 10; 128512; 98]) 6 = Some (Ok (mkPosition 1 2))
  ∧ locates [97; 10; 128512; 98] (mkPosition 1 1) (Err (InsideUtf16Character 1 1)).
Proof.
  assert (Forall char_ok [97; 10; 128512; 98]) as Hok by (repeat constructor; unfold char_ok; lia).
  destruct (positions_inverse None [97; 10; 128512; 98] Hok) as (Hinv & _ & _ & Hall); [done|]. split.
  - apply Hinv. split; [done|]. by vm_compute.
  - destruct (Hall (mkPosition 1 1)) as (r & Hr & Hl); [done|]. apply Hl. vm_compute in Hr. by injection Hr as <-.
Defined.

(** ** The workspace *)

Lemma map_of_list_fmap {A B} (f : A → B) (m : list (Path * A)) k :
  sorted_map m → map_get k (map_of_list (prod_map id f <$> m)) = f <$> map_get k m.
Proof.
  intros Hm. unfold map_of_list. rewrite map_get_extend; [|..|by constructor].
  - rewrite map_get_fmap. by destruct (map_get k m).
  - unfold sorted_map. by rewrite <- list_fmap_compose.
Qed.

Lemma map_get_merged dk ov path :
  sorted_map dk → sorted_map ov →
  map_get path (merged dk ov) =
  match map_get path ov with Some d => Some d | None => Document_disk <$> map_get path dk end.
Proof.
  intros Hd Ho. unfold merged. rewrite map_get_extend by (done || apply map_of_list_sorted).
  by rewrite map_of_list_fmap.
Qed.

(** What the workspace promises its readers. *)
Record workspace_ok (w : WorkspaceDocuments) : Prop := {
  ok_disk : sorted_map (disk w);
  ok_overlays : sorted_map (overlays w);
  ok_open : ∀ path d, map_get path (overlays w) = Some d → ∃ v t, d = Document_overlay v t;
  ok_revision : in_u 64 (revision w);
  ok_snapshot : snapshot_revision (snapshot w) = revision w;
  ok_documents : ∀ path, document (snapshot w) path =
    match map_get path (overlays w) with
    | Some d => Some d
    | None => Document_disk <$> map_get path (disk w)
    end;
}.

Lemma default_ok : workspace_ok default_workspace.
Proof. split; try done; constructor. Qed.

(** Publishing new contents. *)
Lemma publish_ok w dk ov :
  workspace_ok w → sorted_map dk → sorted_map ov →
  (∀ path d, map_get path ov = Some d → ∃ v t, d = Document_overlay v t) →
  revision w + 1 < 2 ^ 64 →
  ∃ w', publish (mkWorkspace (revision w) dk ov (snapshot w)) = Some w' ∧ workspace_ok w' ∧
        revision w' = revision w + 1 ∧ disk w' = dk ∧ overlays w' = ov.
Proof.
  intros [_ _ _ Hr _ _] Hd Ho Hopen Hmax. unfold publish. simpl. unfold in_u in Hr.
  rewrite (proj2 (checked_u_Some 64 _ (revision w + 1))) by (unfold in_u; split; [lia|done]).
  eexists. split; [done|]. split; [|done]. split; simpl; try done; [unfold in_u; lia|].
  intros path. by apply map_get_merged.
Qed.

(** Publishing an overlay, new or changed. *)
Lemma publish_overlay w path v text :
  workspace_ok w → revision w + 1 < 2 ^ 64 →
  let ov := map_insert path (Document_overlay v text) (overlays w) in
  ∃ w', publish (mkWorkspace (revision w) (disk w) ov (snapshot w)) = Some w' ∧ workspace_ok w' ∧
        revision w' = revision w + 1 ∧ disk w' = disk w ∧ overlays w' = ov.
Proof.
  intros Hw Hmax ov. pose proof (ok_overlays w Hw) as Ho. apply publish_ok; try done; [apply Hw| |].
  - by apply map_insert_sorted.
  - intros path' d'. unfold ov. rewrite map_get_insert_case by done. case_decide.
    + intros [= <-]. eauto.
    + by apply ok_open.
Qed.

(** *** Changes of a text *)

(** One change splices its text between two characters, or replaces everything. *)
Inductive edit1 : list Z → TextChange → list Z → Prop :=
| edit_replace a b c t :
    edit1 (a ++ b ++ c) (TextChange_replace (str_len a) (str_len a + str_len b) t) (a ++ t ++ c)
| edit_all text t : edit1 text (TextChange_replace_all t) t.

Inductive edits : list Z → list TextChange → list Z → Prop :=
| edits_nil text : edits text [] text
| edits_cons text change text' changes text'' :
    edit1 text change text' → edits text' changes text'' → edits text (change :: changes) text''.

(** A range that does not lie between two characters of the text. *)
Definition bad_range (text : list Z) (start end_ : nat) : Prop :=
  ¬ ∃ a b c, text = a ++ b ++ c ∧ start = str_len a ∧ end_ = (str_len a + str_len b)%nat.

Lemma replace_range_app a b c t :
  replace_range (a ++ b ++ c) (str_len a) (str_len a + str_len b) t = Some (a ++ t ++ c).
Proof.
  unfold replace_range. rewrite app_assoc, <- str_len_app, split_at_app. simpl.
  by rewrite split_at_app.
Qed.

(** The guard of a range accepts exactly the ranges between two characters. *)
Lemma range_guard text start end_ :
  ((start <=? end_) && (end_ <=? str_len text))%nat && is_char_boundary text start &&
    is_char_boundary text end_ = true ↔
  ∃ a b c, text = a ++ b ++ c ∧ start = str_len a ∧ end_ = (str_len a + str_len b)%nat.
Proof.
  rewrite !andb_true_iff, !Nat.leb_le, !boundary_iff. split.
  - intros [[[Hse He] (a & r & -> & <-)] (x & c & E & <-)].
    apply app_eq_inv in E as [(b & -> & ->)|(b & -> & ->)].
    + rewrite str_len_app in *. assert (b = []) as -> by (apply str_len_0; lia).
      exists x, [], r. rewrite app_nil_r, str_len_nil. split; [done|]. lia.
    + exists a, b, c. by rewrite str_len_app.
  - intros (a & b & c & -> & -> & ->). rewrite !str_len_app. split; [split; [lia|]|].
    + by exists a, (b ++ c).
    + exists (a ++ b), c. by rewrite <- (assoc_L _ a), str_len_app.
Qed.

(** Every change is applied in turn, up to the first whose range is bad. *)
Lemma change_loop_exact path text changes :
  (∃ text', change_loop path text changes = Some (Ok text') ∧ edits text changes text') ∨
  (∃ earlier t rest text' start end_,
     change_loop path text changes = Some (Err (InvalidRange path start end_ (str_len text'))) ∧
     changes = earlier ++ TextChange_replace start end_ t :: rest ∧ edits text earlier text' ∧
     bad_range text' start end_).
Proof.
  revert text. induction changes as [|[[[st en]|] t] changes IH]; intros text; simpl.
  - left. eexists. split; [done|constructor].
  - destruct (_ && _ && _) eqn:E.
    + apply range_guard in E as (a & b & c & -> & -> & ->). rewrite replace_range_app. simpl.
      destruct (IH (a ++ t ++ c)) as [(t' & -> & He)|(dn & t1 & rest & t' & s1 & e1 & -> & -> & He & Hb)].
      * left. exists t'. split; [done|]. econstructor; [apply edit_replace|done].
      * right. eexists (_ :: dn), t1, rest, t', s1, e1. split; [done|]. split; [done|].
        split; [|done]. econstructor; [apply edit_replace|done].
    + right. exists [], t, changes, text, st, en. split; [done|]. split; [done|].
      split; [constructor|]. intros H%range_guard. congruence.
  - destruct (IH t) as [(t' & -> & He)|(dn & t1 & rest & t' & s1 & e1 & -> & -> & He & Hb)].
    + left. exists t'. split; [done|]. econstructor; [apply edit_all|done].
    + right. eexists (_ :: dn), t1, rest, t', s1, e1. split; [done|]. split; [done|].
      split; [|done]. econstructor; [apply edit_all|done].
Qed.

(** A change of an open document is all or nothing.  It succeeds when the document
    is open at an older version and each change names a range between two characters
    of the text the changes before it left; the overlay then is the spliced text at
    the new version and nothing else changes but the published snapshot.  Otherwise
    the error says why and the workspace is the same as before. *)
Theorem change_document_exact path version changes w :
  workspace_ok w → revision w + 1 < 2 ^ 64 →
  ∃ r w', change_document path version changes w = Some (r, w') ∧ workspace_ok w' ∧
  match r with
  | Ok _ => ∃ current text text',
      map_get path (overlays w) = Some (Document_overlay current text) ∧ current < version ∧
      edits text changes text' ∧ revision w' = revision w + 1 ∧ disk w' = disk w ∧
      overlays w' = map_insert path (Document_overlay version text') (overlays w)
  | Err e => w' = w ∧
      (e = NotOpen path ∧ map_get path (overlays w) = None ∨
       ∃ current text, map_get path (overlays w) = Some (Document_overlay current text) ∧
         (e = StaleVersion path current version ∧ version ≤ current ∨
          ∃ earlier t rest text' start end_,
            e = InvalidRange path start end_ (str_len text') ∧ current < version ∧
            changes = earlier ++ TextChange_replace start end_ t :: rest ∧
            edits text earlier text' ∧ bad_range text' start end_))
  end.
Proof.
  intros Hw Hmax. unfold change_document.
  destruct (map_get path (overlays w)) as [d|] eqn:Ed.
  2: { exists (Err (NotOpen path)), w. do 3 (split; [done|]). by left. }
  destruct (ok_open w Hw path d Ed) as (cur & text & ->). simpl.
  destruct (version <=? cur) eqn:Ev; to_props.
  { exists (Err (StaleVersion path cur version)), w. do 3 (split; [done|]). right. exists cur, text.
    split; [done|]. by left. }
  destruct (change_loop_exact path text changes)
    as [(text' & E & He)|(dn & t & rest & text' & st & en & E & -> & He & Hb)];
    rewrite E; simpl.
  - destruct (publish_overlay w path version text' Hw Hmax) as (w' & -> & Hw' & ? & ? & ?).
    exists (Ok tt), w'. do 2 (split; [done|]). by exists cur, text, text'.
  - exists (Err (InvalidRange path st en (str_len text'))), w. do 3 (split; [done|]). right.
    exists cur, text. split; [done|]. right. by exists dn, t, rest, text', st, en.
Qed.

(** A workspace with one open document. *)
Definition open_example : WorkspaceDocuments :=
  mkWorkspace 1 [] [([97], Document_overlay 1 [104; 233; 10])]
    (mkSnapshot 1 [([97], Document_overlay 1 [104; 233; 10])]).

Lemma open_example_ok : workspace_ok open_example.
Proof.
  destruct (publish_ok default_workspace [] [([97], Document_overlay 1 [104; 233; 10])])
    as (w' & E & Hw' & _).
  - apply default_ok.
  - constructor.
  - repeat constructor.
  - intros path d. simpl. case_match; [|done..]. intros [= <-]. eauto.
  - done.
  - vm_compute in E. apply (inj Some) in E. by rewrite <- E in Hw'.
Qed.

Lemma change_document_exact_witness :
  ∃ r w', change_document [97] 2 [TextChange_replace 1 3 [105]; TextChange_replace 1 9 []] open_example
          = Some (r, w') ∧ workspace_ok w' ∧ r = Err (InvalidRange [97] 1 9 3) ∧ w' = open_example.
Proof.
  destruct (change_document_exact [97] 2 [TextChange_replace 1 3 [105]; TextChange_replace 1 9 []]
              open_example open_example_ok) as (r & w' & E & Hw & Hr); [done|].
  vm_compute in E. injection E as <- <-. eexists _, _. split; [by vm_compute|]. split; [done|].
  split; [done|]. apply Hr.
Defined.

(** *** Sequences of edits *)

Inductive workspace_edit :=
| SetDisk (path : Path) (text : list Z)
| RemoveDisk (path : Path)
| Open_ (path : Path) (version : Z) (text : list Z)
| Change (path : Path) (version : Z) (changes : list TextChange)
| Close_ (path : Path).

Definition apply_edit (e : workspace_edit) (w : WorkspaceDocuments) : option WorkspaceDocuments :=
  match e with
  | SetDisk path text => set_disk_document path text w
  | RemoveDisk path => remove_disk_document path w
  | Open_ path version text => open_document path version text w
  | Change path version changes => snd <$> change_document path version changes w
  | Close_ path => close_document path w
  end.

Fixpoint run_edits (es : list workspace_edit) (w : WorkspaceDocuments) : option WorkspaceDocuments :=
  match es with
  | [] => Some w
  | e :: es' => w' ← apply_edit e w; run_edits es' w'
  end.

Lemma apply_edit_ok e w :
  workspace_ok w → revision w + 1 < 2 ^ 64 →
  ∃ w', apply_edit e w = Some w' ∧ workspace_ok w' ∧ (w' = w ∨ revision w' = revision w + 1).
Proof.
  intros Hw Hmax. pose proof (ok_disk w Hw) as Hd. pose proof (ok_overlays w Hw) as Ho.
  pose proof (ok_open w Hw) as Hop.
  destruct e as [path text|path|path v text|path v cs|path]; simpl.
  - unfold set_disk_document. case_bool_decide; [by eauto|].
    destruct (publish_ok w (map_insert path text (disk w)) (overlays w)) as (w' & -> & ? & ? & _); eauto.
    by apply map_insert_sorted.
  - unfold remove_disk_document. case_match; [|by eauto].
    destruct (publish_ok w (map_remove path (disk w)) (overlays w)) as (w' & -> & ? & ? & _); eauto.
    by apply map_remove_sorted.
  - destruct (publish_overlay w path v text Hw Hmax) as (w' & ? & ? & ? & _). eauto.
  - unfold change_document. destruct (map_get path (overlays w)) as [d|] eqn:Ed; simpl; [|by eauto].
    destruct (Hop path d Ed) as (cur & text & ->). simpl. case_match; simpl; [by eauto|].
    destruct (change_loop_exact path text cs)
      as [(text' & -> & _)|(? & ? & ? & ? & ? & ? & -> & _)]; simpl; [|by eauto].
    destruct (publish_overlay w path v text' Hw Hmax) as (w' & -> & ? & ? & _). simpl. eauto.
  - unfold close_document. case_match; [|by eauto].
    destruct (publish_ok w (disk w) (map_remove path (overlays w))) as (w' & -> & ? & ? & _); eauto.
    + by apply map_remove_sorted.
    + intros path' d'. rewrite map_get_remove by done. case_decide; [done|apply Hop].
Qed.

Lemma run_edits_ok es w :
  workspace_ok w → revision w + Z.of_nat (length es) < 2 ^ 64 →
  ∃ w', run_edits es w = Some w' ∧ workspace_ok w' ∧
        revision w ≤ revision w' ≤ revision w + Z.of_nat (length es) ∧
        (revision w' = revision w → w' = w).
Proof.
  revert w. induction es as [|e es IH]; intros w Hw Hmax; simpl in *.
  { exists w. split; [done|]. split; [done|]. split; [lia|done]. }
  destruct (apply_edit_ok e w Hw) as (w1 & -> & Hw1 & Hr); [lia|]. simpl.
  destruct (IH w1 Hw1) as (w' & -> & Hw' & Hle & Heq); [destruct Hr; subst; lia|].
  exists w'. split; [done|]. split; [done|]. destruct Hr as [->|Hr]; [split; [lia|done]|].
  split; lia.
Qed.

(** The workspace serves its readers consistently: below 2^64 edits none panics;
    every snapshot carries the current revision and shows, for each path, the overlay
    of an open document and otherwise the text on disk; and revisions never go back,
    so that a revision seen again means an unchanged workspace. *)
Theorem snapshots_are_consistent es1 es2 :
  Z.of_nat (length (es1 ++ es2)) < 2 ^ 64 →
  ∃ w1 w2, run_edits es1 default_workspace = Some w1 ∧ run_edits es2 w1 = Some w2 ∧
    workspace_ok w1 ∧ workspace_ok w2 ∧
    revision w1 ≤ revision w2 ∧ (revision w1 = revision w2 → w1 = w2).
Proof.
  rewrite length_app. intros Hlen.
  destruct (run_edits_ok es1 default_workspace default_ok) as (w1 & E1 & Hw1 & Hr1 & _); [simpl; lia|].
  simpl in Hr1. destruct (run_edits_ok es2 w1 Hw1) as (w2 & E2 & Hw2 & Hr2 & Heq); [lia|].
  exists w1, w2. do 4 (split; [done|]). split; [lia|]. intros. symmetry. by apply Heq.
Qed.

Lemma snapshots_are_consistent_witness :
  ∃ w1 w2, run_edits [SetDisk [97] [10]; Open_ [97] 1 [98]] default_workspace = Some w1 ∧
    run_edits [Change [97] 1 []; Close_ [98]] w1 = Some w2 ∧ workspace_ok w1 ∧ workspace_ok w2 ∧
    revision w1 ≤ revision w2 ∧ (revision w1 = revision w2 → w1 = w2).
Proof. apply snapshots_are_consistent. done. Defined.
