(* ===== verification/Imports.v ===== *)
(** * Imports of a module

    Models the text side of [crates/stasis_compiler/src/frontend/module_graph.rs]:
    finding the imports of a source, resolving their paths and naming their modules;
    with the two functions of [frontend/parser.rs] it calls and the diagnostics of
    [src/lib.rs].

    Texts are bytes.  [None] is a panic (of a slice that does not end at character
    boundaries) or a lack of fuel; [parse_imports_total] excludes both.  The slices
    taken around identifiers adjoin ASCII bytes and are written without the check. *)

From S2P Require Import Prelude BTree Lexer Identity Text.
#[local] Open Scope Z_scope.

(** ** Diagnostics *)

Inductive SourceDiagnosticCode :=
| Generic | ExplicitGenericCall | Parse | UnresolvedExtern | MissingModule
| DuplicateImportAlias | UnsupportedStructReturn | StoredViewField.

Record SourceDiagnosticEdit := mkEdit {
  edit_path : str;
  edit_start : nat;
  edit_end : nat;
  edit_new_text : str;
}.

Record SourceDiagnosticFix := mkFix {
  fix_title : str;
  fix_edits : list SourceDiagnosticEdit;
}.

Record SourceDiagnosticRelated := mkRelated {
  related_path : str;
  related_start : nat;
  related_end : nat;
  related_symbol : str;
  related_message : str;
}.

Record SourceDiagnostic := mkDiagnostic {
  diag_path : str;
  diag_start : nat;
  diag_end : nat;
  diag_symbol : str;
  diag_message : str;
  diag_code : SourceDiagnosticCode;
  diag_fixes : list SourceDiagnosticFix;
  diag_related : list SourceDiagnosticRelated;
}.

Definition SourceDiagnostic_new (path : str) (start end_ : nat) (symbol message : str) :
    SourceDiagnostic :=
  mkDiagnostic path start end_ symbol message Generic [] [].

Definition with_code (code : SourceDiagnosticCode) (d : SourceDiagnostic) : SourceDiagnostic :=
  mkDiagnostic (diag_path d) (diag_start d) (diag_end d) (diag_symbol d) (diag_message d) code
    (diag_fixes d) (diag_related d).

Definition with_fix (fix_ : SourceDiagnosticFix) (d : SourceDiagnostic) : SourceDiagnostic :=
  mkDiagnostic (diag_path d) (diag_start d) (diag_end d) (diag_symbol d) (diag_message d)
    (diag_code d) (diag_fixes d ++ [fix_]) (diag_related d).

Definition diagnostic (path : str) (span : nat * nat) (symbol message : str) : SourceDiagnostic :=
  SourceDiagnostic_new path span.1 span.2 symbol message.

(** A fix that removes one range of a file. *)
Definition removal_fix (title path : str) (span : nat * nat) : SourceDiagnosticFix :=
  mkFix title [mkEdit path span.1 span.2 []].

(** ** Where the lexer failed

    [lexer_error_context] names the function declaration before the error.  It only
    looks at the bytes before [limit], here the list [bs]. *)

Record ParserDiagnostic := mkParserDiagnostic {
  pd_message : str;
  pd_start : nat;
  pd_end : nat;
  pd_symbol : str;
}.

Definition AT : Z := 64.
Definition LPAREN : Z := 40.
Definition RPAREN : Z := 41.

Definition is_identifier_char (b : Z) : bool := is_ascii_alphabetic b || is_ascii_digit b || (b =? 95).

(** The loop over a string. *)
Fixpoint context_string (fuel : nat) (bs : list Z) (i : nat) : option nat :=
  match fuel with
  | O => None
  | S fuel' =>
      match bs !! i with
      | None => Some i
      | Some b =>
          if b =? BACKSLASH then context_string fuel' bs (Nat.min (i + 2) (length bs))
          else if b =? QUOTE then Some (i + 1)%nat
          else context_string fuel' bs (i + 1)
      end
  end.

(** The loop over a block comment. *)
Fixpoint context_block (fuel : nat) (bs : list Z) (i : nat) : option nat :=
  match fuel with
  | O => None
  | S fuel' =>
      match bs !! i with
      | None => Some i
      | Some b =>
          if (b =? STAR) && bool_decide (bs !! (i + 1)%nat = Some SLASH) then Some (i + 2)%nat
          else context_block fuel' bs (i + 1)
      end
  end.

(** The loop over the arguments of an annotation: the index and the depth. *)
Fixpoint paren_loop (fuel : nat) (bs : list Z) (i depth : nat) : option (nat * nat) :=
  match fuel with
  | O => None
  | S fuel' =>
      match bs !! i with
      | None => Some (i, depth)
      | Some b =>
          if b =? QUOTE then
            j ← context_string (S (length bs)) bs (i + 1); paren_loop fuel' bs j depth
          else if b =? LPAREN then paren_loop fuel' bs (i + 1) (depth + 1)
          else if (b =? RPAREN) && (0 <? depth)%nat then
            if (depth - 1 =? 0)%nat then Some ((i + 1)%nat, 0%nat)
            else paren_loop fuel' bs (i + 1) (depth - 1)
          else paren_loop fuel' bs (i + 1) depth
      end
  end.

Definition skip_space (bs : list Z) (i : nat) : option nat :=
  skip_while (S (length bs)) is_ascii_whitespace bs i.
Definition skip_word (bs : list Z) (i : nat) : option nat :=
  skip_while (S (length bs)) is_identifier_char bs i.

(** The byte at [i] starts a word. *)
Definition word_at (bs : list Z) (i : nat) : bool :=
  match bs !! i with
  | Some b => is_identifier_char b && negb (is_ascii_digit b)
  | None => false
  end.

(** The loop over annotations: [annotations_complete] and the index. *)
Fixpoint annotation_loop (fuel : nat) (bs : list Z) (i : nat) : option (bool * nat) :=
  match fuel with
  | O => None
  | S fuel' =>
      if bool_decide (bs !! i = Some AT) then
        i ← skip_space bs (i + 1);
        if negb (word_at bs i) then Some (false, i)
        else
          i ← skip_word bs i;
          i ← skip_space bs i;
          '(i, depth) ← (if bool_decide (bs !! i = Some LPAREN)
                         then paren_loop (S (length bs)) bs i 0 else Some (i, 0%nat));
          if negb (depth =? 0)%nat then Some (false, i)
          else i ← skip_space bs i; annotation_loop fuel' bs i
      else Some (true, i)
  end.

(** The name after the word [function], if it is there. *)
Definition declared_name (bs : list Z) (i : nat) : option str :=
  i ← skip_space bs i;
  '(complete, i) ← annotation_loop (S (length bs)) bs i;
  if complete && word_at bs i then
    j ← skip_word bs (i + 1); Some (take (j - i) (drop i bs))
  else Some [].

Fixpoint context_loop (fuel : nat) (bs : list Z) (i : nat) (symbol : str) : option str :=
  match fuel with
  | O => None
  | S fuel' =>
      match bs !! i with
      | None => Some symbol
      | Some b =>
          if (b =? SLASH) && bool_decide (bs !! (i + 1)%nat = Some SLASH) then
            j ← skip_while (S (length bs)) (λ c, negb (c =? NEWLINE)) bs (i + 2);
            context_loop fuel' bs j symbol
          else if (b =? SLASH) && bool_decide (bs !! (i + 1)%nat = Some STAR) then
            j ← context_block (S (length bs)) bs (i + 2); context_loop fuel' bs j symbol
          else if b =? QUOTE then
            j ← context_string (S (length bs)) bs (i + 1); context_loop fuel' bs j symbol
          else if is_identifier_char b && negb (is_ascii_digit b) then
            j ← skip_word bs (i + 1);
            if bool_decide (take (j - i) (drop i bs) = string_bytes "function") then
              symbol ← declared_name bs j; context_loop fuel' bs j symbol
            else context_loop fuel' bs j symbol
          else context_loop fuel' bs (i + 1) symbol
      end
  end.

Definition lexer_error_context (source : str) (message : str) (offset : nat) : option ParserDiagnostic :=
  let limit := Nat.min offset (length source) in
  symbol ← context_loop (S limit) (take limit source) 0 [];
  let start := Nat.min offset (length source) in
  Some (mkParserDiagnostic message start (Nat.max (length source) (start + 1)) symbol).

(** ** Slices of a source *)

(** [&source[start..end]]: [None] is the panic. *)
Definition str_slice (source : list Z) (start end_ : nat) : option str :=
  if (start <=? end_)%nat && (end_ <=? length source)%nat &&
     is_char_boundary source start && is_char_boundary source end_
  then Some (take (end_ - start) (drop start source)) else None.

Definition token_text (source : str) (token : Token) : option str :=
  str_slice source (start token) (end_ token).

(** ** String literals *)

Definition decode_escape (escaped : Z) : option Z :=
  if escaped =? BACKSLASH then Some BACKSLASH
  else if escaped =? QUOTE then Some QUOTE
  else if escaped =? 110 then Some 10
  else if escaped =? 114 then Some 13
  else if escaped =? 116 then Some 9
  else if escaped =? 48 then Some 0
  else None.

Fixpoint literal_loop (fuel : nat) (bytes : list Z) (index : nat) (out : str) :
    option (Result str str) :=
  match fuel with
  | O => None
  | S fuel' =>
      if (index + 1 <? length bytes)%nat then
        byte ← bytes !! index;
        if byte =? BACKSLASH then
          match bytes !! (index + 1)%nat with
          | None => Some (Err (string_bytes "unterminated escape sequence in string literal"))
          | Some escaped =>
              match decode_escape escaped with
              | Some decoded => literal_loop fuel' bytes (index + 2) (out ++ [decoded])
              | None =>
                  Some (Err (string_bytes "unsupported escape sequence '\" ++ byte_as_char escaped ++
                             string_bytes "' in string literal"))
              end
          end
        else
          rest ← str_slice bytes index (length bytes);
          literal_loop fuel' bytes (index + char_len byte) (out ++ take (char_len byte) rest)
      else Some (Ok out)
  end.

Definition parse_string_literal_text (bytes : list Z) : option (Result str str) :=
  if (length bytes <? 2)%nat || negb (bool_decide (bytes !! 0%nat = Some QUOTE)) ||
     negb (default 0 (last bytes) =? QUOTE)
  then Some (Err (string_bytes "invalid string literal token '" ++ bytes ++ string_bytes "'"))
  else literal_loop (length bytes) bytes 1 [].

(** ** Paths and aliases *)

Definition STASIS : str := string_bytes ".stasis".

Definition ends_with (suffix s : str) : bool :=
  bool_decide (drop (length s - length suffix) s = suffix).

(** The component cannot be part of a project-root import. *)
Definition leaves_project (component : str) : bool :=
  bool_decide (component = []) || bool_decide (component = [DOT]) ||
  bool_decide (component = [DOT; DOT]).

Definition resolve_import_path (importer import : str) : Result str str :=
  let normalized := replace_byte BACKSLASH [SEP] import in
  if negb (ends_with STASIS normalized) then
    Err (string_bytes "import target must end in .stasis: '" ++ import ++ string_bytes "'")
  else if starts_with [SEP; SEP] normalized || bool_decide (import !! 1%nat = Some COLON) then
    Err (string_bytes "import target must be project-relative: '" ++ import ++ string_bytes "'")
  else
    match strip_prefix [SEP] normalized with
    | Some project_path =>
        if bool_decide (project_path = []) || existsb leaves_project (split_on SEP project_path)
        then Err (string_bytes "project-root import must stay within the project: '" ++ import ++
                  string_bytes "'")
        else canonical_source_path None project_path
    | None =>
        let parent := default [] (fst <$> rsplit_once SEP importer) in
        let joined := if bool_decide (parent = []) then normalized
                      else parent ++ [SEP] ++ normalized in
        canonical_source_path None joined
    end.

Definition strip_suffix (suffix s : str) : option str :=
  if ends_with suffix s then Some (take (length s - length suffix) s) else None.

(** The first token of an alias is an identifier. *)
Definition lexes_as_identifier (alias : str) : bool :=
  match lex alias with
  | Some (Ok (token :: _)) => bool_decide (kind token = Identifier)
  | _ => false
  end.

Definition root_module_alias (path : str) : str :=
  let name := default path (last (split_on SEP path)) in
  let raw := default name (strip_suffix STASIS name) in
  let alias := (λ b, if is_identifier_char b then b else 95) <$> raw in
  let alias := if bool_decide (alias = []) || default false (is_ascii_digit <$> head alias)
               then 95 :: alias else alias in
  if lexes_as_identifier alias then alias else 95 :: alias.

Definition module_alias (path : str) : str := root_module_alias path.

(** ** Parsing the imports *)

Record ModuleImport := mkImport {
  import_path : str;
  import_target : str;
  import_alias : str;
  import_span : nat * nat;
  declaration_span : nat * nat;
}.

(** The declaration with its line, when nothing else is on it. *)
Definition import_removal_span (source : list Z) (start end_ : nat) : option (nat * nat) :=
  before ← str_slice source 0 start;
  after ← str_slice source end_ (length source);
  let line_start := match rfind_byte NEWLINE before with Some i => S i | None => 0%nat end in
  let line_end := match find_byte NEWLINE after with
                  | Some i => (end_ + i + 1)%nat
                  | None => length source
                  end in
  let suffix_end :=
    (line_end - (if (0 <? line_end)%nat && bool_decide (source !! (line_end - 1)%nat = Some NEWLINE)
                 then 1 else 0))%nat in
  prefix ← str_slice source line_start start;
  if is_blank prefix then
    suffix ← str_slice source end_ suffix_end;
    if is_blank suffix then Some (line_start, line_end) else Some (start, end_)
  else Some (start, end_).

Definition import_error (path : str) (span : nat * nat) (symbol message : str) : SourceDiagnostic :=
  with_code Parse (diagnostic path span symbol message).

Definition import_expected : str := string_bytes "import must be followed by a string literal path".

(** One import, from its keyword, its literal and the token after it. *)
Definition parse_import (path source : str) (keyword literal : Token) (next : option Token) :
    option (Result ModuleImport SourceDiagnostic) :=
  let span := (start literal, end_ literal) in
  text ← token_text source literal;
  parsed ← parse_string_literal_text text;
  match parsed with
  | Err message => Some (Err (import_error path span (string_bytes "import") message))
  | Ok literal_path =>
      match resolve_import_path path literal_path with
      | Err message => Some (Err (import_error path span literal_path message))
      | Ok target =>
          let declaration_end :=
            match next with
            | Some t => if bool_decide (kind t = Semicolon) then end_ t else end_ literal
            | None => end_ literal
            end in
          removal ← import_removal_span source (start keyword) declaration_end;
          Some (Ok (mkImport literal_path target (module_alias target) span removal))
      end
  end.

(** The loop over the tokens; the list is [tokens[cursor..]]. *)
Fixpoint import_loop (path source : str) (tokens : list Token) (imports : list ModuleImport) :
    option (Result (list ModuleImport) SourceDiagnostic) :=
  match tokens with
  | [] => Some (Ok imports)
  | token :: tokens' =>
      if negb (bool_decide (kind token = Identifier)) then import_loop path source tokens' imports
      else
        text ← token_text source token;
        if negb (bool_decide (text = string_bytes "import")) then import_loop path source tokens' imports
        else
          match tokens' with
          | [] => Some (Err (import_error path (start token, end_ token) (string_bytes "import")
                               import_expected))
          | literal :: tokens'' =>
              if negb (bool_decide (kind literal = StringLiteral)) then
                Some (Err (import_error path (start token, end_ literal) (string_bytes "import")
                             import_expected))
              else
                import ← parse_import path source token literal (head tokens'');
                match import with
                | Err e => Some (Err e)
                | Ok import => import_loop path source tokens'' (imports ++ [import])
                end
          end
  end.

Definition import_le (left_ right_ : ModuleImport) : bool :=
  match cmp (import_target left_) (import_target right_) with
  | Lt => true
  | Gt => false
  | Eq => ((import_span left_).1 <=? (import_span right_).1)%nat
  end.

(** The second of the first two neighbours with one alias. *)
Fixpoint duplicate_alias (imports : list ModuleImport) : option ModuleImport :=
  match imports with
  | a :: (b :: _) as imports' =>
      if bool_decide (import_alias a = import_alias b) then Some b else duplicate_alias imports'
  | _ => None
  end.

Definition duplicate_alias_error (path : str) (duplicate : ModuleImport) : SourceDiagnostic :=
  with_fix (removal_fix (string_bytes "Remove duplicate import '" ++ import_path duplicate ++
                         string_bytes "'") path (declaration_span duplicate))
    (with_code DuplicateImportAlias
       (diagnostic path (import_span duplicate) (import_alias duplicate)
          (string_bytes "duplicate imported module alias '" ++ import_alias duplicate ++
           string_bytes "'"))).

Definition parse_imports (path source : str) :
    option (Result (list ModuleImport) SourceDiagnostic) :=
  tokens ← lex_with_diagnostic source;
  match tokens with
  | Err error =>
      context ← lexer_error_context source (string_bytes (message error)) (offset error);
      Some (Err (import_error path (pd_start context, pd_end context) (pd_symbol context)
                   (pd_message context)))
  | Ok tokens =>
      imports ← import_loop path source tokens [];
      match imports with
      | Err e => Some (Err e)
      | Ok imports =>
          let imports := sort_by import_le imports in
          match duplicate_alias imports with
          | Some duplicate => Some (Err (duplicate_alias_error path duplicate))
          | None => Some (Ok imports)
          end
      end
  end.
