(* ===== verification/ImportsProps.v ===== *)
(** * Properties of the imports of a module

    [Imports.parse_imports] never panics on a Rust string and returns exactly the
    imports of the source; aliases are identifiers. *)

From S2P Require Import Prelude BTree Documents DocumentsProps Lexer Identity Text Imports.
#[local] Set Warnings "-clear-no-such-hyp".
#[local] Open Scope Z_scope.

#[local] Abbreviation boundary := Lexer.is_char_boundary.
Implicit Types (source bytes s : list Z).

(** ** Rust strings *)

(** The bytes of a [str]: the encoding of its characters. *)
Definition is_str (bytes : list Z) : Prop := ∃ text, Forall char_ok text ∧ bytes = encode text.

(** The first byte of a character tells its length; the others continue it. *)
Lemma encode_char_shape c :
  char_ok c →
  ∃ b bs, encode_char c = b :: bs ∧ Lexer.is_continuation b = false ∧ (128 ≤ c → 128 ≤ b) ∧
    (c < 128 → b = c ∧ bs = []) ∧ char_len b = S (length bs) ∧
    Forall (λ e, Lexer.is_continuation e = true) bs.
Proof.
  intros Hc. unfold encode_char, Lexer.is_continuation, char_len.
  pose proof (Z.mod_pos_bound c 64). pose proof (Z.mod_pos_bound (c `div` 64) 64).
  pose proof (Z.mod_pos_bound (c `div` 4096) 64).
  assert (0 ≤ c < 1114112) as Hr by (destruct Hc; lia).
  destruct (Z.ltb_spec c 128).
  { exists c, []. rewrite (proj2 (Z.leb_gt _ _)), (proj2 (Z.ltb_lt c 128)) by lia. split_and!; auto; lia. }
  pose proof (Z.div_mod c 64). pose proof (Z.div_mod c 4096). pose proof (Z.div_mod c 262144).
  pose proof (Z.mod_pos_bound c 4096). pose proof (Z.mod_pos_bound c 262144).
  destruct (Z.ltb_spec c 2048); [|destruct (Z.ltb_spec c 65536)]; do 2 eexists; (split; [done|]);
    repeat (match goal with
            | |- context [?a <=? ?b] => destruct (Z.leb_spec a b); try lia
            | |- context [?a <? ?b] => destruct (Z.ltb_spec a b); try lia
            end);
    split_and!; auto; try lia; repeat constructor; simpl;
    repeat (match goal with |- context [?a <=? ?b] => destruct (Z.leb_spec a b); try lia end).
Qed.

(** Character boundaries of an encoding are the cuts between its characters. *)
Lemma boundary_encode text i :
  Forall char_ok text →
  boundary (encode text) i = true ↔ ∃ before after, text = before ++ after ∧ i = str_len before.
Proof.
  intros Ht. revert i. induction Ht as [|c text Hc Ht IH]; intros i.
  { unfold Lexer.is_char_boundary. simpl. rewrite Nat.eqb_eq. split.
    - intros ->. by exists [], [].
    - by intros (b & a & [-> ->]%eq_sym%app_nil & ->). }
  destruct (encode_char_shape c Hc) as (b & bs & Eb & Hb & _ & _ & Hl & Hbs).
  assert (len_utf8 c = S (length bs)) as El by (unfold len_utf8; by rewrite Eb).
  assert (encode (c :: text) = b :: bs ++ encode text) as E.
  { change (encode (c :: text)) with (encode_char c ++ encode text). by rewrite Eb. }
  rewrite E. destruct i as [|i].
  { split; [|by unfold Lexer.is_char_boundary; simpl; rewrite Hb]. intros _. by exists [], (c :: text). }
  assert (boundary (b :: bs ++ encode text) (S i) =
          if (i <? length bs)%nat then false else boundary (encode text) (i - length bs)) as ->.
  { unfold Lexer.is_char_boundary. simpl. destruct (Nat.ltb_spec i (length bs)) as [Hi|Hi].
    - apply lookup_lt_is_Some in Hi as [e He]. rewrite (lookup_app_l_Some _ _ _ _ He).
      rewrite Forall_lookup in Hbs. by rewrite (Hbs _ _ He).
    - rewrite lookup_app_r by lia. case_match; [done|]. rewrite length_app.
      apply eq_bool_prop_intro. rewrite !Is_true_true, !Nat.eqb_eq. lia. }
  destruct (Nat.ltb_spec i (length bs)) as [Hi|Hi].
  - split; [done|]. intros (bf & af & Et & Hbf). destruct bf as [|d bf]; [done|].
    simplify_eq/=. rewrite str_len_cons in Hbf. lia.
  - rewrite IH. split.
    + intros (bf & af & -> & Ei). exists (c :: bf), af. rewrite str_len_cons. split; [done|lia].
    + intros (bf & af & Et & Hbf). destruct bf as [|d bf]; [done|].
      simplify_eq/=. rewrite str_len_cons in Hbf. exists bf, af. split; [done|lia].
Qed.

Lemma is_str_slice source a b s :
  is_str source → str_slice source a b = Some s → is_str s.
Proof.
  intros (text & Ht & ->). unfold str_slice. destruct (_ && _) eqn:E; [|done]. intros [= <-].
  rewrite !andb_true_iff, Nat.leb_le in E. destruct E as [[[Hab _] Ha] Hb].
  apply boundary_encode in Ha as (t1 & r & -> & ->); [|done].
  apply boundary_encode in Hb as (x & t3 & E & ->); [|done].
  apply app_eq_inv in E as [(k & -> & ->)|(t2 & -> & ->)].
  - rewrite str_len_app in *. assert (k = []) as -> by (apply str_len_0; lia).
    exists []. split; [constructor|]. by rewrite str_len_nil, Nat.add_0_r, Nat.sub_diag.
  - exists t2. split; [by apply Forall_app in Ht as [_ [? _]%Forall_app]|]. rewrite str_len_app, !encode_app.
    rewrite drop_app_length' by done. rewrite take_app_length' by (unfold str_len; lia). done.
Qed.

Lemma is_str_utf8_like source : is_str source → utf8_like source.
Proof.
  intros (text & Ht & ->). induction Ht as [|c text Hc Ht IH]; [by intros i c Hi|].
  destruct (encode_char_shape c Hc) as (b & bs & Eb & Hb & Hge & Hlt & _ & Hbs).
  change (encode (c :: text)) with (encode_char c ++ encode text). rewrite Eb. simpl.
  intros [|j] d Hi Hd; simpl in Hi; [simplify_eq; congruence|]. exists j.
  rewrite Forall_lookup in Hbs. destruct (decide (j < length bs)%nat) as [Hj|Hj].
  - destruct j as [|j]; simpl.
    + exists b. do 2 (split; [done|]). apply Hge. destruct (Z_lt_le_dec c 128) as [Hc1|]; [|done].
      destruct (Hlt Hc1) as [_ ->]. simpl in Hj. lia.
    + destruct (lookup_lt_is_Some_2 bs j) as [e He]; [lia|]. exists e.
      rewrite (lookup_app_l_Some _ _ _ _ He). do 2 (split; [done|]).
      specialize (Hbs _ _ He). unfold Lexer.is_continuation in Hbs. to_props. lia.
  - rewrite lookup_app_r in Hi by lia. destruct (IH _ _ Hi Hd) as (m & e & Em & He & ?).
    exists e. split; [done|]. split; [|done].
    replace j with (S (length bs + m)) by lia. simpl. rewrite lookup_app_r by lia.
    rewrite <- He. f_equal. lia.
Qed.

(** The character at a boundary, from its first byte. *)
Lemma char_at source i b :
  is_str source → boundary source i = true → source !! i = Some b →
  Lexer.is_continuation b = false ∧ boundary source (i + char_len b) = true ∧
  (b < 128 → char_len b = 1%nat).
Proof.
  intros (text & Ht & ->) Hi Hb. apply boundary_encode in Hi as (bf & [|c af] & -> & ->); [| |done].
  { rewrite app_nil_r, lookup_ge_None_2 in Hb; done. }
  pose proof Ht as Ht'. apply Forall_app in Ht' as [_ Hc%Forall_inv].
  destruct (encode_char_shape c Hc) as (b' & bs & Eb & Hcont & Hge & Hlt & Hl & _).
  assert (b' = b) as ->.
  { rewrite encode_app in Hb. unfold str_len in Hb. rewrite lookup_app_r, Nat.sub_diag in Hb by done.
    change (encode (c :: af)) with (encode_char c ++ encode af) in Hb. rewrite Eb in Hb.
    by injection Hb as ->. }
  split; [done|]. split.
  - apply boundary_encode; [done|]. exists (bf ++ [c]), af. rewrite <- (assoc_L _ bf), str_len_app.
    split; [done|]. rewrite str_len_cons, str_len_nil. unfold len_utf8. rewrite Eb, Hl. simpl. lia.
  - unfold char_len. by intros ->%Z.ltb_lt.
Qed.

Lemma boundary_end source : boundary source (length source) = true.
Proof. unfold Lexer.is_char_boundary. rewrite lookup_ge_None_2 by done. by apply Nat.eqb_refl. Qed.

Lemma str_slice_Some source a b :
  (a ≤ b)%nat → (b ≤ length source)%nat → boundary source a = true → boundary source b = true →
  str_slice source a b = Some (take (b - a) (drop a source)).
Proof.
  intros. unfold str_slice. by rewrite (proj2 (Nat.leb_le a b)), (proj2 (Nat.leb_le b _)), H1, H2.
Qed.

(** ** String literals *)

Lemma char_len_pos b : (0 < char_len b)%nat.
Proof. unfold char_len. repeat case_match; lia. Qed.

Lemma decode_escape_ascii b d : decode_escape b = Some d → b < 128.
Proof.
  unfold decode_escape, BACKSLASH, QUOTE.
  repeat (match goal with |- context [b =? ?n] => destruct (Z.eqb_spec b n); [lia|] end). done.
Qed.

Lemma literal_loop_total fuel bytes index out :
  is_str bytes → boundary bytes index = true → (length bytes - index < fuel)%nat →
  is_Some (literal_loop fuel bytes index out).
Proof.
  intros Hs. revert index out. induction fuel as [|fuel IH]; intros index out Hb Hf; [lia|].
  simpl. destruct (Nat.ltb_spec (index + 1) (length bytes)) as [Hi|]; [|by eexists].
  destruct (lookup_lt_is_Some_2 bytes index) as [b Eb]; [lia|]. rewrite Eb. simpl.
  destruct (char_at _ _ _ Hs Hb Eb) as (_ & Hnext & Hone). pose proof (char_len_pos b).
  destruct (Z.eqb_spec b BACKSLASH) as [->|].
  - rewrite Hone in Hnext by done.
    destruct (lookup_lt_is_Some_2 bytes (index + 1)) as [e Ee]; [lia|]. rewrite Ee.
    destruct (decode_escape e) as [d|] eqn:Ed; [|by eexists].
    apply IH; [|lia]. destruct (char_at _ _ _ Hs Hnext Ee) as (_ & Hnext2 & Hone2).
    rewrite Hone2 in Hnext2 by (by eapply decode_escape_ascii).
    by replace (index + 2)%nat with (index + 1 + 1)%nat by lia.
  - rewrite str_slice_Some by (done || lia || apply boundary_end). simpl. apply IH; [done|lia].
Qed.

Lemma parse_string_literal_total bytes : is_str bytes → is_Some (parse_string_literal_text bytes).
Proof.
  intros Hs. unfold parse_string_literal_text. destruct (_ || _ || _) eqn:E; [by eexists|].
  apply orb_false_iff in E as [[E1 E2]%orb_false_iff _]. apply Nat.ltb_ge in E1.
  apply negb_false_iff, bool_decide_eq_true in E2.
  apply literal_loop_total; [done| |lia].
  assert (boundary bytes 0 = true) as H0 by (unfold Lexer.is_char_boundary; by rewrite E2).
  by destruct (char_at _ _ _ Hs H0 E2) as (_ & ? & _).
Qed.

(** ** Tokens *)

(** No token ends with a newline, except the empty one at the end. *)
Lemma token_of_last w rest k : token_of w rest k → last w ≠ Some NEWLINE.
Proof.
  assert (∀ b w, is_identifier_continue b = true →
    Forall (λ c, is_identifier_continue c = true) w → last (b :: w) ≠ Some NEWLINE) as Hw.
  { intros b w' Hb Hw El. apply last_Some_elem_of, elem_of_cons in El as [<-|El]; [done|].
    rewrite Forall_forall in Hw. by specialize (Hw _ El). }
  destruct 1 as [body rest _|body rest _|b w rest Hb Hf _|b w rest Hb Hf _|b rest Hs _ _ _ _ _].
  - by rewrite app_comm_cons, last_snoc.
  - by rewrite app_comm_cons, last_snoc.
  - apply Hw; [by apply ascii_digit_continue|]. eapply Forall_impl; [exact Hf|].
    intros. by apply ascii_digit_continue.
  - apply Hw; [|done]. unfold is_identifier_continue. by rewrite Hb.
  - intros [= ->]. done.
Qed.

Lemma lexed_last bytes i l ts :
  lexed i l ts → drop i bytes = l →
  Forall (λ t, kind t ≠ Eof → bytes !! (end_ t - 1)%nat ≠ Some NEWLINE) ts.
Proof.
  induction 1 as [i|i w rest ts Ht _ IH|i w rest k ts Ht _ IH]; intros Hd.
  - by repeat constructor.
  - apply IH. by rewrite <- drop_drop, Hd, drop_app_length.
  - constructor; [|apply IH; by rewrite <- drop_drop, Hd, drop_app_length].
    intros _. cbn [end_]. pose proof (token_of_last _ _ _ Ht) as Hl.
    destruct (token_of_nonempty _ _ _ Ht) as [Hn _]. assert (length w ≠ 0)%nat by (by destruct w).
    replace (i + length w - 1)%nat with (i + pred (length w))%nat by lia.
    rewrite <- lookup_drop, Hd, lookup_app_l by lia. by rewrite <- last_lookup.
Qed.

(** What the import parser needs of a token and of the tokens after it. *)
Record token_ok (source : str) (t : Token) : Prop := {
  tok_boundary : kind t ≠ Other → boundary source (start t) = true ∧ boundary source (end_ t) = true;
  tok_range : kind t ≠ Eof → (start t < end_ t)%nat;
  tok_end : (start t ≤ end_ t ≤ length source)%nat;
  tok_last : kind t ≠ Eof → source !! (end_ t - 1)%nat ≠ Some NEWLINE;
}.

Definition tokens_ok (source : str) (ts : list Token) : Prop :=
  Forall (token_ok source) ts ∧ StronglySorted (λ t u, (end_ t ≤ start u)%nat) ts.

Lemma lex_tokens_ok source ts :
  is_str source → lex_with_diagnostic source = Some (Ok ts) → tokens_ok source ts.
Proof.
  intros Hs E%lex_Ok_lexed. destruct (lexed_layout _ _ _ E) as (ts' & -> & Hf & Hsort).
  split; [|done]. pose proof (lexed_boundaries source _ _ _ (is_str_utf8_like _ Hs) E) as Hb.
  rewrite drop_0 in Hb. specialize (Hb eq_refl ltac:(lia)).
  pose proof (lexed_last source _ _ _ E (drop_0 _)) as Hl.
  rewrite Forall_forall in *. intros t Ht. specialize (Hb t Ht). specialize (Hl t Ht).
  apply elem_of_app in Ht as [Ht|Ht]; [|apply list_elem_of_singleton in Ht as ->].
  - destruct (Hf t Ht) as (? & ? & ?). simpl in *. split; auto; lia.
  - split; auto; simpl in *; try done; lia.
Qed.

(** ** Removing a declaration *)

Lemma find_byte_Some b s i : find_byte b s = Some i → s !! i = Some b.
Proof.
  unfold find_byte. destruct (list_find _ s) as [[j c]|] eqn:E; [|done]. intros [= <-].
  by apply list_find_Some in E as (? & -> & _).
Qed.

Lemma find_byte_None b s : find_byte b s = None → b ∉ s.
Proof.
  unfold find_byte. destruct (list_find _ s) as [|] eqn:E; [done|]. intros _ Hin.
  apply list_find_None in E. rewrite Forall_forall in E. by apply (E b).
Qed.

Lemma rfind_byte_Some b s i : rfind_byte b s = Some i → s !! i = Some b ∧ (i < length s)%nat.
Proof.
  unfold rfind_byte. destruct (list_find _ _) as [[j c]|] eqn:E; [|done]. intros [= <-].
  apply list_find_Some in E as (Hj & -> & _). simpl.
  pose proof (lookup_lt_Some _ _ _ Hj) as Hlt. rewrite length_reverse in Hlt.
  rewrite reverse_lookup in Hj by done. split; [|lia]. rewrite <- Hj. f_equal. lia.
Qed.

(** An ASCII byte and the place after it are boundaries. *)
Lemma boundary_ascii source i b :
  is_str source → source !! i = Some b → b < 128 →
  boundary source i = true ∧ boundary source (S i) = true.
Proof.
  intros Hs Hi Hb. assert (boundary source i = true) as H.
  { unfold Lexer.is_char_boundary. rewrite Hi. unfold Lexer.is_continuation.
    by rewrite (proj2 (Z.leb_gt 128 b)). }
  split; [done|]. destruct (char_at _ _ _ Hs H Hi) as (_ & Hn & Hone).
  by rewrite Hone, Nat.add_1_r in Hn.
Qed.

Lemma import_removal_span_total source start end_ :
  is_str source → boundary source start = true → boundary source end_ = true →
  (start < end_ ≤ length source)%nat → source !! (end_ - 1)%nat ≠ Some NEWLINE →
  ∃ a b, import_removal_span source start end_ = Some (a, b) ∧ (a ≤ start ∧ end_ ≤ b ≤ length source)%nat.
Proof.
  intros Hs Hbs Hbe Hr Hn. unfold import_removal_span.
  assert (boundary source 0 = true) as H0.
  { destruct Hs as (t & Ht & ->). apply boundary_encode; [done|]. by exists [], t. }
  rewrite (str_slice_Some source 0 start) by (done || lia). simpl. rewrite Nat.sub_0_r, drop_0.
  rewrite (str_slice_Some source end_ (length source)) by (done || lia || apply boundary_end). simpl.
  rewrite (take_ge (drop end_ source)) by (rewrite length_drop; lia).
  set (ls := match rfind_byte NEWLINE (take start source) with Some i => S i | None => 0%nat end).
  set (le := match find_byte NEWLINE (drop end_ source) with
             | Some i => (end_ + i + 1)%nat
             | None => length source
             end).
  set (se := (le - (if (0 <? le)%nat && bool_decide (source !! (le - 1)%nat = Some NEWLINE)
                    then 1 else 0))%nat).
  assert (ls ≤ start ∧ boundary source ls = true)%nat as [Hls Hlsb].
  { unfold ls. destruct (rfind_byte _ _) as [i|] eqn:E; [|by split; [lia|]].
    apply rfind_byte_Some in E as [Hi Hlt]. rewrite length_take in Hlt. split; [lia|].
    rewrite lookup_take_lt in Hi by lia. by apply (boundary_ascii source i NEWLINE). }
  assert (end_ ≤ se ∧ boundary source se = true ∧ se ≤ le ∧ le ≤ length source)%nat
    as (Hse & Hseb & Hsele & Hle).
  { unfold se, le. destruct (find_byte _ (drop _ _)) as [i|] eqn:E.
    - apply find_byte_Some in E. rewrite lookup_drop in E.
      pose proof (lookup_lt_Some _ _ _ E). replace (end_ + i + 1 - 1)%nat with (end_ + i)%nat by lia.
      rewrite bool_decide_eq_true_2, andb_true_r, (proj2 (Nat.ltb_lt _ _)) by (done || lia).
      replace (end_ + i + 1 - 1)%nat with (end_ + i)%nat by lia.
      destruct (boundary_ascii _ _ _ Hs E) as [? _]; [done|]. split; [lia|]. split; [done|lia].
    - apply find_byte_None in E. rewrite (bool_decide_eq_false_2 (_ = _)).
      + rewrite andb_false_r, Nat.sub_0_r. split; [lia|]. split; [apply boundary_end|lia].
      + intros Hl. destruct (decide (end_ = length source)) as [->|]; [done|]. apply E.
        apply (list_elem_of_lookup_2 _ (length source - 1 - end_)%nat). rewrite lookup_drop, <- Hl.
        f_equal. lia. }
  rewrite (str_slice_Some source ls start) by (done || lia). simpl. case_match.
  - rewrite (str_slice_Some source end_ se) by (done || lia). simpl.
    case_match; do 2 eexists; (split; [done|]); lia.
  - do 2 eexists. split; [done|]. lia.
Qed.

(** ** The imports of a token list *)

Definition is_import (source : str) (t : Token) : Prop :=
  kind t = Identifier ∧ token_text source t = Some (string_bytes "import").

(** The import sites of a token list: each keyword with its literal and the token after. *)
Inductive import_sites (source : str) : list Token → list (Token * Token * option Token) → Prop :=
| sites_nil : import_sites source [] []
| sites_skip t ts sites :
    ¬ is_import source t → import_sites source ts sites → import_sites source (t :: ts) sites
| sites_import k l ts sites :
    is_import source k → kind l = StringLiteral → import_sites source ts sites →
    import_sites source (k :: l :: ts) ((k, l, head ts) :: sites).

(** What one site imports. *)
Record imports_from (path source : str) (site : Token * Token * option Token) (i : ModuleImport) : Prop := {
  from_text : ∃ text, token_text source site.1.2 = Some text ∧
              parse_string_literal_text text = Some (Ok (import_path i));
  from_target : resolve_import_path path (import_path i) = Ok (import_target i);
  from_alias : import_alias i = module_alias (import_target i);
  from_span : import_span i = (start site.1.2, end_ site.1.2);
  from_declaration : ((declaration_span i).1 ≤ start site.1.1 ∧
    end_ site.1.2 ≤ (declaration_span i).2 ≤ length source)%nat;
}.

Lemma token_text_total source t : token_ok source t → kind t ≠ Other → is_Some (token_text source t).
Proof.
  intros [Hb _ He _] Hk. destruct (Hb Hk). unfold token_text.
  rewrite str_slice_Some by (done || lia). eauto.
Qed.

Lemma parse_import_total path source keyword literal next :
  is_str source → token_ok source keyword → token_ok source literal →
  kind keyword = Identifier → kind literal = StringLiteral → (end_ keyword ≤ start literal)%nat →
  (∀ t, next = Some t → token_ok source t ∧ (end_ literal ≤ start t)%nat) →
  ∃ r, parse_import path source keyword literal next = Some r ∧
    match r with
    | Ok i => imports_from path source (keyword, literal, next) i
    | Err e => diag_path e = path ∧ diag_code e = Parse
    end.
Proof.
  intros Hs Hk Hl Ek El Hkl Hnext. unfold parse_import.
  destruct (token_text_total source literal Hl) as [text Etext]; [by rewrite El|]. rewrite Etext. simpl.
  destruct (parse_string_literal_total text) as [[lp|m] Ep]; [by eapply is_str_slice|..];
    rewrite Ep; simpl; [|by eexists].
  destruct (resolve_import_path path lp) as [target|m] eqn:Er; [|by eexists].
  destruct Hk as [Hkb Hkr Hke _]. destruct Hl as [Hlb Hlr Hle Hll].
  destruct (Hkb ltac:(by rewrite Ek)) as [Hkb1 _]. destruct (Hlb ltac:(by rewrite El)) as [_ Hlb2].
  specialize (Hkr ltac:(by rewrite Ek)). specialize (Hll ltac:(by rewrite El)).
  set (de := match next with Some _ => _ | None => _ end).
  assert (∃ a b, import_removal_span source (start keyword) de = Some (a, b) ∧
    (a ≤ start keyword ∧ end_ literal ≤ b ≤ length source)%nat) as (a & b & -> & Hab).
  { enough (boundary source de = true ∧ (end_ literal ≤ de ≤ length source)%nat ∧
            source !! (de - 1)%nat ≠ Some NEWLINE) as (Hb & Hr & Hn).
    { destruct (import_removal_span_total source (start keyword) de) as (a & b & -> & ?); try done; [lia|].
      exists a, b. split; [done|lia]. }
    unfold de. destruct next as [t|]; [|by split; [|split; [lia|]]].
    case_bool_decide as Et; [|by split; [|split; [lia|]]].
    destruct (Hnext t eq_refl) as [[Htb _ Hte Htl] Hlt].
    destruct (Htb ltac:(by rewrite Et)). specialize (Htl ltac:(by rewrite Et)).
    split; [done|]. split; [lia|done]. }
  simpl. eexists. split; [done|]. split; simpl; eauto.
Qed.

(** The loop collects one import per site, or reports why one is wrong. *)
Lemma import_loop_spec path source ts acc :
  is_str source → tokens_ok source ts →
  ∃ r, import_loop path source ts acc = Some r ∧
    match r with
    | Ok imports => ∃ sites found, import_sites source ts sites ∧
        Forall2 (imports_from path source) sites found ∧ imports = acc ++ found
    | Err e => diag_path e = path ∧ diag_code e = Parse
    end.
Proof.
  intros Hs. remember (length ts) as n eqn:En. revert ts En acc.
  induction (lt_wf n) as [n _ IH]. intros [|t ts] -> acc [Hts Hsort].
  { eexists. split; [done|]. exists [], []. rewrite app_nil_r. repeat constructor. }
  inversion Hts as [|? ? Ht Hts']; subst. inversion Hsort as [|? ? Hsort' Hle]; subst.
  assert (¬ is_import source t →
    ∃ r, import_loop path source ts acc = Some r ∧
    match r with
    | Ok imports => ∃ sites found, import_sites source (t :: ts) sites ∧
        Forall2 (imports_from path source) sites found ∧ imports = acc ++ found
    | Err e => diag_path e = path ∧ diag_code e = Parse
    end) as Hskip.
  { intros Hn. destruct (IH (length ts) ltac:(simpl; lia) ts eq_refl acc ltac:(by split)) as (r & E & Hr).
    exists r. split; [done|]. destruct r; [|done]. destruct Hr as (sites & found & ? & ? & ->).
    exists sites, found. split; [by constructor|done]. }
  simpl. case_bool_decide as Ek; simpl.
  2: { apply Hskip. by intros [? _]. }
  destruct (token_text_total source t Ht) as [text Etext]; [by rewrite Ek|]. rewrite Etext. simpl.
  case_bool_decide as Ei; simpl.
  2: { apply Hskip. intros [_ ?]. congruence. }
  destruct ts as [|l ts]; [by eexists|].
  case_bool_decide as El; simpl; [|by eexists].
  inversion Hts' as [|? ? Hl Hts'']; subst. inversion Hsort' as [|? ? Hsort'' Hle']; subst.
  destruct (parse_import_total path source t l (head ts)) as (r & -> & Hr); try done.
  { by apply Forall_inv in Hle. }
  { intros t' Et'. destruct ts as [|t2 ts]; [done|]. injection Et' as ->.
    split; [by apply Forall_inv in Hts''|by apply Forall_inv in Hle']. }
  simpl. destruct r as [i|e]; [|by eexists].
  destruct (IH (length ts) ltac:(simpl; lia) ts eq_refl (acc ++ [i]) ltac:(by split)) as (r & E & Hr2).
  exists r. split; [done|]. destruct r; [|done]. destruct Hr2 as (sites & found & ? & ? & ->).
  exists ((t, l, head ts) :: sites), (i :: found). split; [by constructor|].
  split; [by constructor|]. by rewrite <- (assoc_L _ acc).
Qed.

(** ** The context of a lexer error *)

Section context.
Context (bs : list Z).

Lemma skip_while_ge fuel p i :
  (length bs - i < fuel)%nat → ∃ j, skip_while fuel p bs i = Some j ∧ (i ≤ j)%nat.
Proof.
  revert i. induction fuel as [|fuel IH]; intros i Hf; [lia|]. simpl.
  destruct (bs !! i) as [b|] eqn:Eb; [|by eexists]. apply lookup_lt_Some in Eb.
  destruct (p b); [|by eexists]. destruct (IH (i + 1)%nat) as (j & -> & ?); [lia|].
  exists j. split; [done|lia].
Qed.

Lemma skip_all p i : ∃ j, skip_while (S (length bs)) p bs i = Some j ∧ (i ≤ j)%nat.
Proof. apply skip_while_ge. lia. Qed.

Lemma context_string_total fuel i :
  (length bs - i < fuel)%nat → ∃ j, context_string fuel bs i = Some j ∧ (i ≤ j)%nat.
Proof.
  revert i. induction fuel as [|fuel IH]; intros i Hf; [lia|]. simpl.
  destruct (bs !! i) as [b|] eqn:Eb; [|by eexists]. apply lookup_lt_Some in Eb.
  destruct (b =? BACKSLASH); [|destruct (b =? QUOTE); [eexists; split; [done|lia]|]].
  - destruct (IH (Nat.min (i + 2) (length bs))) as (j & -> & ?); [lia|]. exists j. split; [done|lia].
  - destruct (IH (i + 1)%nat) as (j & -> & ?); [lia|]. exists j. split; [done|lia].
Qed.

Lemma context_block_total fuel i :
  (length bs - i < fuel)%nat → ∃ j, context_block fuel bs i = Some j ∧ (i ≤ j)%nat.
Proof.
  revert i. induction fuel as [|fuel IH]; intros i Hf; [lia|]. simpl.
  destruct (bs !! i) as [b|] eqn:Eb; [|by eexists]. apply lookup_lt_Some in Eb.
  case_match; [eexists; split; [done|lia]|].
  destruct (IH (i + 1)%nat) as (j & -> & ?); [lia|]. exists j. split; [done|lia].
Qed.

Lemma paren_loop_total fuel i depth :
  (length bs - i < fuel)%nat → ∃ j d, paren_loop fuel bs i depth = Some (j, d) ∧ (i ≤ j)%nat.
Proof.
  revert i depth. induction fuel as [|fuel IH]; intros i depth Hf; [lia|]. cbn [paren_loop].
  destruct (bs !! i) as [b|] eqn:Eb; [|by do 2 eexists]. apply lookup_lt_Some in Eb.
  destruct (b =? QUOTE).
  { destruct (context_string_total (S (length bs)) (i + 1)) as (k & -> & ?); [lia|]. simpl.
    destruct (IH k depth) as (j & d & -> & ?); [lia|]. do 2 eexists. split; [done|lia]. }
  assert (∀ d, ∃ j d', paren_loop fuel bs (i + 1) d = Some (j, d') ∧ (i ≤ j)%nat) as Hnext.
  { intros d. destruct (IH (i + 1)%nat d) as (j & d' & -> & ?); [lia|]. do 2 eexists. split; [done|lia]. }
  repeat case_match; try apply Hnext. do 2 eexists. split; [done|lia].
Qed.

#[local] Arguments skip_while : simpl never.
#[local] Arguments paren_loop : simpl never.
#[local] Arguments context_string : simpl never.
#[local] Arguments context_block : simpl never.
#[local] Arguments annotation_loop : simpl never.

Lemma annotation_loop_total fuel i :
  (length bs - i < fuel)%nat → is_Some (annotation_loop fuel bs i).
Proof.
  revert i. induction fuel as [|fuel IH]; intros i Hf; [lia|].
  unfold annotation_loop; fold annotation_loop. unfold skip_space, skip_word.
  case_bool_decide as Ei; [|by eexists]. apply lookup_lt_Some in Ei.
  destruct (skip_all is_ascii_whitespace (i + 1)) as (i1 & -> & ?). simpl.
  case_match; [by eexists|].
  destruct (skip_all is_identifier_char i1) as (i2 & -> & ?). simpl.
  destruct (skip_all is_ascii_whitespace i2) as (i3 & -> & ?). simpl.
  assert (∃ i4 d, (if bool_decide (bs !! i3 = Some LPAREN)
    then paren_loop (S (length bs)) bs i3 0 else Some (i3, 0%nat)) = Some (i4, d) ∧ (i3 ≤ i4)%nat)
    as (i4 & d & -> & ?).
  { case_bool_decide; [apply paren_loop_total; lia|by do 2 eexists]. }
  simpl. case_match; [by eexists|].
  destruct (skip_all is_ascii_whitespace i4) as (i5 & -> & ?). simpl. apply IH. lia.
Qed.

Lemma declared_name_total i : is_Some (declared_name bs i).
Proof.
  unfold declared_name, skip_space, skip_word.
  destruct (skip_all is_ascii_whitespace i) as (i1 & -> & ?). simpl.
  destruct (annotation_loop_total (S (length bs)) i1) as [[complete i2] ->]; [lia|]. simpl.
  case_match; [|by eexists]. destruct (skip_all is_identifier_char (i2 + 1)) as (i3 & -> & ?).
  by eexists.
Qed.

Lemma context_loop_total fuel i symbol :
  (length bs - i < fuel)%nat → is_Some (context_loop fuel bs i symbol).
Proof.
  revert i symbol. induction fuel as [|fuel IH]; intros i symbol Hf; [lia|].
  cbn [context_loop]. unfold skip_word.
  destruct (bs !! i) as [b|] eqn:Eb; [|by eexists]. apply lookup_lt_Some in Eb.
  case_match.
  { destruct (skip_all (λ c, negb (c =? NEWLINE)) (i + 2)) as (j & -> & ?). simpl. apply IH. lia. }
  case_match.
  { destruct (context_block_total (S (length bs)) (i + 2)) as (j & -> & ?); [lia|]. simpl. apply IH. lia. }
  case_match.
  { destruct (context_string_total (S (length bs)) (i + 1)) as (j & -> & ?); [lia|]. simpl. apply IH. lia. }
  case_match; [|apply IH; lia].
  destruct (skip_all is_identifier_char (i + 1)) as (j & -> & ?). simpl. case_match; [|apply IH; lia].
  destruct (declared_name_total j) as [name ->]. simpl. apply IH. lia.
Qed.
End context.

Lemma lexer_error_context_total source message offset :
  is_Some (lexer_error_context source message offset).
Proof.
  unfold lexer_error_context. destruct (context_loop_total
    (take (Nat.min offset (length source)) source) (S (Nat.min offset (length source))) 0 [])
    as [symbol ->]; [rewrite length_take; lia|]. by eexists.
Qed.

(** ** The parsed imports *)

Lemma import_le_total a b : import_le a b = true ∨ import_le b a = true.
Proof.
  unfold import_le. destruct (cmp (import_target a) (import_target b)) eqn:E; [|by left|].
  - apply cmp_eq in E as ->. rewrite cmp_refl. rewrite !Nat.leb_le. lia.
  - apply cmp_gt_lt in E as ->. by right.
Qed.

Lemma import_le_target a b :
  import_le a b = true →
  key_lt (import_target a) (import_target b) ∨
  import_target a = import_target b ∧ ((import_span a).1 ≤ (import_span b).1)%nat.
Proof.
  unfold import_le, key_lt. destruct (cmp _ _) eqn:E; [|by left|done].
  apply cmp_eq in E. rewrite Nat.leb_le. by right.
Qed.

Lemma import_le_trans a b c : import_le a b = true → import_le b c = true → import_le a c = true.
Proof.
  intros [Hab|[Eab Sab]]%import_le_target [Hbc|[Ebc Sbc]]%import_le_target; unfold import_le.
  - by rewrite (key_lt_trans _ _ _ Hab Hbc : cmp _ _ = Lt).
  - rewrite <- Ebc. unfold key_lt in Hab. by rewrite Hab.
  - rewrite Eab. unfold key_lt in Hbc. by rewrite Hbc.
  - rewrite Eab, Ebc, cmp_refl. apply Nat.leb_le. lia.
Qed.

(** With no two neighbours of one alias, no target is imported twice. *)
Lemma distinct_targets imports :
  StronglySorted (λ a b, import_le a b = true) imports →
  Forall (λ i, import_alias i = module_alias (import_target i)) imports →
  duplicate_alias imports = None → NoDup (import_target <$> imports).
Proof.
  induction 1 as [|a imports Hs IH Hle]; intros Ha Hd; [constructor|].
  inversion_clear Ha as [|? ? Ea Ha']. rewrite fmap_cons. constructor.
  - intros (x & Ex & Hx)%list_elem_of_fmap. destruct imports as [|b imports]; [by apply not_elem_of_nil in Hx|].
    simpl in Hd. case_bool_decide as Hab; [done|]. apply Hab.
    rewrite Ea, (Forall_inv Ha'). f_equal. apply elem_of_cons in Hx as [->|Hx]; [done|].
    apply Forall_inv in Hle as Hab'. inversion_clear Hs as [|? ? _ Hb].
    rewrite Forall_forall in Hb. specialize (Hb x Hx).
    apply import_le_target in Hab' as [Hlt1|[? _]]; [|done]. exfalso.
    apply import_le_target in Hb as [Hlt2|[Eb _]]; apply (key_lt_irrefl (import_target a)).
    + rewrite Ex at 2. by etrans.
    + rewrite Ex at 2. by rewrite <- Eb.
  - apply IH; [done|]. destruct imports as [|b imports]; [done|]. simpl in Hd. by case_bool_decide.
Qed.

Lemma resolve_canonical importer import target :
  resolve_import_path importer import = Ok target → canonical_path target.
Proof.
  unfold resolve_import_path. repeat case_match; try done; apply canonical_result.
Qed.

Lemma parse_imports_total path source : is_str source → is_Some (parse_imports path source).
Proof.
  intros Hs. unfold parse_imports. destruct (lex_spec source) as ([ts|e] & E & _); rewrite E; simpl.
  - destruct (import_loop_spec path source ts [] Hs (lex_tokens_ok _ _ Hs E)) as ([imports|e] & -> & _);
      simpl; [case_match|]; by eexists.
  - destruct (lexer_error_context_total source (string_bytes (message e)) (offset e)) as [c ->].
    by eexists.
Qed.

(** On every Rust string [parse_imports] returns without a panic.  What it accepts
    is exact: one import for each [import] keyword, with the decoded text of its
    literal, the canonical path this resolves to and the alias of that module, sorted,
    with no module twice.  Its errors are about the file itself. *)
Theorem parse_imports_exact path source :
  is_str source →
  ∃ r, parse_imports path source = Some r ∧
  match r with
  | Ok imports => ∃ ts sites found,
      lex_with_diagnostic source = Some (Ok ts) ∧ import_sites source ts sites ∧
      Forall2 (imports_from path source) sites found ∧ imports ≡ₚ found ∧
      StronglySorted (λ a b, import_le a b = true) imports ∧
      NoDup (import_target <$> imports) ∧
      Forall (λ i, canonical_path (import_target i)) imports
  | Err e => diag_path e = path
  end.
Proof.
  intros Hs. unfold parse_imports. destruct (lex_spec source) as ([ts|e] & E & _); rewrite E; simpl.
  2: { destruct (lexer_error_context_total source (string_bytes (message e)) (offset e)) as [c ->].
       by eexists. }
  destruct (import_loop_spec path source ts [] Hs (lex_tokens_ok _ _ Hs E)) as (r & -> & Hr). simpl.
  destruct r as [imports|e]; [|eexists; split; [done|apply Hr]].
  destruct Hr as (sites & found & Hsites & Hfound & ->). simpl.
  destruct (duplicate_alias _) eqn:Ed; [by eexists|]. eexists. split; [done|].
  exists ts, sites, found. pose proof (sort_by_Permutation import_le found) as Hp.
  pose proof (sort_by_sorted import_le import_le_total import_le_trans found) as Hsort.
  assert (∀ i, i ∈ sort_by import_le found → ∃ site, imports_from path source site i) as Hf.
  { intros i Hi. rewrite elem_of_sort_by in Hi. apply list_elem_of_lookup in Hi as [n Hn].
    destruct (Forall2_lookup_r _ _ _ _ _ Hfound Hn) as (site & _ & ?). by exists site. }
  split_and!; try done.
  - apply distinct_targets; [done| |done]. apply Forall_forall. intros i (site & [])%Hf. done.
  - apply Forall_forall. intros i (site & Hi)%Hf. eapply resolve_canonical. apply Hi.
Qed.

(** The source [import "lib/a.stasis"; // x] on one line. *)
Definition import_source : list Z :=
  string_bytes "import " ++ [34] ++ string_bytes "lib/a.stasis" ++ [34] ++ string_bytes "; // x".

Lemma parse_imports_exact_witness :
  is_str import_source ∧
  ∃ i, parse_imports (string_bytes "src/main.stasis") import_source = Some (Ok [i]) ∧
       canonical_path (import_target i).
Proof.
  assert (is_str import_source) as Hs.
  { exists import_source. split; [|done].
    repeat constructor; unfold char_ok; lia. }
  split; [done|].
  destruct (parse_imports_exact (string_bytes "src/main.stasis") import_source Hs) as (r & E & Hr).
  vm_compute in E. injection E as <-. eexists. split; [by vm_compute|].
  destruct Hr as (_ & _ & _ & _ & _ & _ & _ & _ & _ & Hc). by apply Forall_inv in Hc.
Defined.

(** ** Aliases *)

Lemma skip_while_all bytes p fuel i :
  Forall (λ c, p c = true) (drop i bytes) → (i ≤ length bytes)%nat → (length bytes - i < fuel)%nat →
  skip_while fuel p bytes i = Some (length bytes).
Proof.
  revert i. induction fuel as [|fuel IH]; intros i Hp Hi Hf; [lia|].
  unfold skip_while; fold skip_while. destruct (bytes !! i) as [b|] eqn:Eb.
  - rewrite (drop_S _ _ _ Eb) in Hp. inversion_clear Hp as [|? ? Hb Hp']. rewrite Hb.
    apply lookup_lt_Some in Eb. rewrite Nat.add_1_r. apply IH; [done|lia|lia].
  - apply lookup_ge_None in Eb. f_equal. lia.
Qed.

Lemma identifier_start_range b :
  is_identifier_start b = true → 65 ≤ b ≤ 90 ∨ 97 ≤ b ≤ 122 ∨ b = 95.
Proof.
  unfold is_identifier_start, Lexer.is_ascii_alphabetic.
  rewrite !orb_true_iff, !andb_true_iff, !Z.leb_le, Z.eqb_eq. lia.
Qed.

(** A word is one token. *)
Lemma lex_word b w :
  is_identifier_start b = true → Forall (λ c, is_identifier_continue c = true) w →
  let n := length (b :: w) in
  lex (b :: w) =
  Some (Ok [mkToken (if bool_decide (b :: w = string_bytes "function") then FunctionKw else Identifier) 0 n;
            mkToken Eof n n]).
Proof.
  intros Hb Hw n. unfold lex, lex_with_diagnostic. set (bytes := b :: w).
  change (lex_loop (S (length bytes)) bytes 0 []) with
    (r ← lex_one bytes 0 b;
     match r with
     | Err e => Some (Err e)
     | Ok (ts, j) => lex_loop (S (length w)) bytes j ([] ++ ts)
     end).
  assert (lex_one bytes 0 b = Some (Ok ([mkToken (if bool_decide (bytes = string_bytes "function")
            then FunctionKw else Identifier) 0 n], n))) as ->.
  { pose proof (identifier_start_range b Hb) as Hr. unfold lex_one.
    assert (is_ascii_whitespace b = false ∧ (b =? SLASH) = false ∧ (b =? QUOTE) = false ∧
            (b =? BACKTICK) = false ∧ is_ascii_digit b = false) as (-> & -> & -> & -> & ->).
    { unfold is_ascii_whitespace, is_ascii_digit, SLASH, QUOTE, BACKTICK.
      rewrite ?orb_false_iff, ?andb_false_iff, ?Z.eqb_neq, ?Z.leb_gt. lia. }
    simpl andb. cbv iota. simpl orb. rewrite Hb.
    rewrite skip_while_all; [|done|simpl; lia|simpl; lia]. simpl mbind.
    by rewrite take_ge by done. }
  assert (w !! length w = None) as En by (by apply lookup_ge_None). simpl. by rewrite En.
Qed.

(** Every module alias is one identifier token, whatever the path of the module,
    so generated code can name the module by it. *)
Theorem module_alias_is_identifier path :
  let alias := module_alias path in
  lex alias = Some (Ok [mkToken Identifier 0 (length alias);
                        mkToken Eof (length alias) (length alias)]).
Proof.
  unfold module_alias, root_module_alias.
  set (raw := default _ (strip_suffix _ _)).
  set (chars := (λ b, if is_identifier_char b then b else 95) <$> raw).
  assert (Forall (λ c, is_identifier_continue c = true) chars) as Hchars.
  { unfold chars. apply Forall_fmap, Forall_true. intros b. unfold compose. simpl.
    destruct (is_identifier_char b) eqn:E; [|done]. rewrite <- E.
    unfold is_identifier_char, is_identifier_continue, is_identifier_start.
    change (Lexer.is_ascii_alphabetic b) with (Identity.is_ascii_alphabetic b).
    destruct (Identity.is_ascii_alphabetic b), (is_ascii_digit b), (b =? 95); done. }
  clearbody chars. cbv zeta.
  set (alias := if bool_decide (chars = []) || _ then 95 :: chars else chars).
  assert (∃ b w, alias = b :: w ∧ is_identifier_start b = true ∧
                 Forall (λ c, is_identifier_continue c = true) w) as (b & w & -> & Hb & Hw).
  { unfold alias. destruct chars as [|b w]; [by exists 95, []|].
    rewrite (bool_decide_eq_false_2 (_ = [])) by done. simpl.
    destruct (is_ascii_digit b) eqn:Ed; [by exists 95, (b :: w)|].
    inversion_clear Hchars as [|? ? Hb Hw]. exists b, w. split; [done|]. split; [|done].
    unfold is_identifier_continue in Hb. by rewrite Ed, orb_false_r in Hb. }
  unfold lexes_as_identifier. rewrite (lex_word b w) by done. cbv zeta. simpl kind.
  destruct (decide (b :: w = string_bytes "function")) as [Hf|Hf].
  - rewrite (bool_decide_eq_true_2 (b :: w = _)) by done. simpl.
    rewrite lex_word; [|done|constructor; [|done]; unfold is_identifier_continue; by rewrite Hb].
    cbv zeta. rewrite (bool_decide_eq_false_2 (95 :: b :: w = _)); [done|]. rewrite Hf. by vm_compute.
  - rewrite (bool_decide_eq_false_2 (b :: w = _)) by done. simpl. rewrite lex_word by done.
    by rewrite (bool_decide_eq_false_2 (b :: w = _)).
Qed.
