(* ===== verification/ParserTokens.v ===== *)
(** * The declaration parser: tokens

    Models the helpers of [crates/stasis_compiler/src/frontend/parser.rs] that all its
    passes use: expecting a token, the names of types, generic parameters and annotations.

    A cursor into the tokens is the list of the tokens from it on, so that the token at
    the cursor is the head.  [None] is a panic, of a slice of the source that does not end
    at character boundaries, or a lack of fuel; an error is its text. *)

From S2P Require Import Prelude Lexer Identity Text Imports.
#[local] Open Scope Z_scope.

(** ** Parsers that may panic *)

Abbreviation Parse A E := (option (Result A E)).

Definition parse_bind {A B E} (m : Parse A E) (k : A → Parse B E) : Parse B E :=
  r ← m; match r with Ok x => k x | Err e => Some (Err e) end.

Notation "'parse!' x ':=' m 'in' k" := (parse_bind m (λ x, k))
  (at level 10, x pattern, m at level 100, k at level 200) : stasis_scope.

(** A step that always succeeds or panics. *)
Definition succeed {A E} (m : option A) : Parse A E := Ok <$> m.

Definition refuse {A E} (e : E) : Parse A E := Some (Err e).

(** ** Tokens *)

Definition LESS : Z := 60.
Definition GREATER : Z := 62.
Definition BRACKET_OPEN : Z := 91.
Definition BRACKET_CLOSE : Z := 93.
Definition MINUS : Z := 45.
Definition ASSIGN : Z := 61.
Definition PERIOD : Z := 46.

(** The [Debug] of a kind. *)
Definition kind_name (k : TokenKind) : str :=
  string_bytes (match k with
  | FunctionKw => "FunctionKw" | Identifier => "Identifier" | Integer => "Integer"
  | StringLiteral => "StringLiteral" | BacktickLiteral => "BacktickLiteral" | LParen => "LParen"
  | RParen => "RParen" | LBrace => "LBrace" | RBrace => "RBrace" | Colon => "Colon" | Comma => "Comma"
  | Semicolon => "Semicolon" | Other => "Other" | Eof => "Eof" end).

Definition is_kind (k : TokenKind) (t : Token) : bool := bool_decide (kind t = k).

(** The token at the cursor is of a kind. *)
Definition next_kind (k : TokenKind) (tokens : list Token) : bool :=
  match tokens with t :: _ => is_kind k t | [] => false end.

Definition token_is_other_char (source : str) (token : Token) (byte : Z) : bool :=
  is_kind Other token && (end_ token =? start token + 1)%nat && bool_decide (source !! start token = Some byte).

Definition next_char (source : str) (byte : Z) (tokens : list Token) : bool :=
  match tokens with t :: _ => token_is_other_char source t byte | [] => false end.

Definition expect_error (tokens : list Token) (k : TokenKind) : str :=
  match tokens with
  | [] => string_bytes "unexpected end of token stream, expected " ++ kind_name k
  | t :: _ => string_bytes "expected token " ++ kind_name k ++ string_bytes " but found " ++ kind_name (kind t)
  end.

(** The token and the tokens after it. *)
Definition expect (tokens : list Token) (k : TokenKind) : Result (Token * list Token) str :=
  match tokens with
  | t :: rest => if is_kind k t then Ok (t, rest) else Err (expect_error tokens k)
  | [] => Err (expect_error tokens k)
  end.

(** The text of an identifier that is expected at the cursor. *)
Definition expect_name (source : str) (tokens : list Token) : Parse (str * list Token) str :=
  parse! (t, rest) := Some (expect tokens Identifier) in
  parse! name := succeed (token_text source t) in
  Some (Ok (name, rest)).

(** The token is an identifier with this text. *)
Definition is_word (source : str) (word : string) (t : Token) : option bool :=
  if is_kind Identifier t then text ← token_text source t; Some (bool_decide (text = string_bytes word))
  else Some false.

Fixpoint find_matching_rbrace (tokens : list Token) (depth : nat) : Result (Token * list Token) str :=
  let missing := Err (string_bytes "missing closing '}' for function body") in
  match tokens with
  | [] => missing
  | t :: rest =>
      match kind t with
      | LBrace => find_matching_rbrace rest (S depth)
      | RBrace => if (depth - 1 =? 0)%nat then Ok (t, rest) else find_matching_rbrace rest (depth - 1)
      | Eof => missing
      | _ => find_matching_rbrace rest depth
      end
  end.

(** ** The names of types *)

(** The segments after the base of a name; [end_] is the end of the last one. *)
Fixpoint segment_loop (source : str) (last : nat) (tokens : list Token) : Result (nat * list Token) str :=
  match tokens with
  | t :: rest =>
      if token_is_other_char source t PERIOD then
        match rest with
        | segment :: rest' =>
            if is_kind Identifier segment then segment_loop source (end_ segment) rest' else Err (expect_error rest Identifier)
        | [] => Err (expect_error rest Identifier)
        end
      else Ok (last, tokens)
  | [] => Ok (last, tokens)
  end.

(** The arguments of a type after their opening angle. *)
Fixpoint angle_loop (source : str) (depth paren : nat) (tokens : list Token) : Result (nat * list Token) str :=
  let missing := Err (string_bytes "missing closing '>' in type application") in
  match tokens with
  | [] => missing
  | t :: rest =>
      match kind t with
      | LParen => angle_loop source depth (S paren) rest
      | RParen => angle_loop source depth (paren - 1) rest
      | Eof => missing
      | _ =>
          if (paren =? 0)%nat then
            if token_is_other_char source t LESS then angle_loop source (S depth) paren rest
            else if token_is_other_char source t GREATER then
              if (depth - 1 =? 0)%nat then Ok (end_ t, rest) else angle_loop source (depth - 1) paren rest
            else angle_loop source depth paren rest
          else angle_loop source depth paren rest
      end
  end.

(** The brackets after a type: outside them when [depth] is 0. *)
Fixpoint bracket_loop (source : str) (depth last : nat) (tokens : list Token) : Result (nat * list Token) str :=
  let missing := Err (string_bytes "missing closing ']' in type annotation") in
  match tokens with
  | [] => if (depth =? 0)%nat then Ok (last, []) else missing
  | t :: rest =>
      if (depth =? 0)%nat then
        if token_is_other_char source t BRACKET_OPEN then bracket_loop source 1 last rest else Ok (last, tokens)
      else if token_is_other_char source t BRACKET_OPEN then bracket_loop source (S depth) last rest
      else if token_is_other_char source t BRACKET_CLOSE then
        if (depth =? 1)%nat then bracket_loop source 0 (end_ t) rest else bracket_loop source (depth - 1) last rest
      else if is_kind Eof t then missing
      else bracket_loop source depth last rest
  end.

Definition parse_type_name (source : str) (tokens : list Token) : Parse (str * list Token) str :=
  parse! (base, rest) := Some (expect tokens Identifier) in
  parse! (last, rest) := Some (segment_loop source (end_ base) rest) in
  parse! (last, rest) :=
    Some (match rest with
          | t :: rest' => if token_is_other_char source t LESS then angle_loop source 1 0 rest' else Ok (last, rest)
          | [] => Ok (last, rest)
          end) in
  parse! (last, rest) := Some (bracket_loop source 0 last rest) in
  parse! name := succeed (str_slice source (start base) last) in
  Some (Ok (name, rest)).

(** ** Generic parameters *)

Inductive ParsedGenericParameterKind := GenericType | GenericI32.

Record ParsedGenericParameter := mkGenericParameter {
  gp_name : str;
  gp_kind : ParsedGenericParameterKind;
}.

(** The loop of [parse_generic_parameter_list]. *)
Fixpoint generic_parameter_loop (fuel : nat) (source : str) (tokens : list Token) (parameters : list ParsedGenericParameter) :
    Parse (list ParsedGenericParameter * list Token) str :=
  match fuel with
  | O => None
  | S fuel' =>
      parse! (name, rest) := expect_name source tokens in
      parse! (_, rest) := Some (expect rest Colon) in
      parse! (text, rest) := expect_name source rest in
      parse! k :=
        Some (if bool_decide (text = string_bytes "type") then Ok GenericType
              else if bool_decide (text = string_bytes "i32") then Ok GenericI32
              else Err (string_bytes "generic parameter '" ++ name ++ string_bytes "' has unsupported kind '" ++ text ++
                        string_bytes "'; expected 'type' or 'i32'")) in
      if existsb (λ p, bool_decide (gp_name p = name)) parameters
      then refuse (string_bytes "duplicate generic parameter '" ++ name ++ string_bytes "'")
      else
        let parameters := parameters ++ [mkGenericParameter name k] in
        match rest with
        | [] => refuse (string_bytes "missing closing '>' in generic parameter list")
        | t :: rest' =>
            if is_kind Comma t then generic_parameter_loop fuel' source rest' parameters
            else if token_is_other_char source t GREATER then Some (Ok (parameters, rest'))
            else refuse (string_bytes "expected ',' or '>' in generic parameter list")
        end
  end.

Definition parse_generic_parameter_list (source : str) (tokens : list Token) :
    Parse (list ParsedGenericParameter * list Token) str :=
  match tokens with
  | open :: rest =>
      if token_is_other_char source open LESS then generic_parameter_loop (S (length tokens)) source rest []
      else Some (Ok ([], tokens))
  | [] => Some (Ok ([], tokens))
  end.

(** ** Annotations *)

Inductive ParsedFunctionAnnotationArgumentKind := ArgInteger | ArgString | ArgIdentifier | ArgOther.

#[export] Instance ArgumentKind_eq_dec : EqDecision ParsedFunctionAnnotationArgumentKind.
Proof. solve_decision. Defined.

Record ParsedFunctionAnnotationArgument := mkAnnotationArgument {
  arg_kind : ParsedFunctionAnnotationArgumentKind;
  arg_text : str;
}.

Record ParsedFunctionAnnotation := mkAnnotation {
  ann_name : str;
  ann_has_parentheses : bool;
  ann_arguments : list ParsedFunctionAnnotationArgument;
}.

(** [skip_parenthesized_tokens] after the opening parenthesis: the tokens inside and the
    tokens after. *)
Fixpoint paren_tokens (depth : nat) (inner tokens : list Token) : Result (list Token * list Token) str :=
  let missing := Err (string_bytes "missing closing ')' in function annotation") in
  match tokens with
  | [] => missing
  | t :: rest =>
      match kind t with
      | LParen => paren_tokens (S depth) (inner ++ [t]) rest
      | RParen => if (depth =? 1)%nat then Ok (inner, rest) else paren_tokens (depth - 1) (inner ++ [t]) rest
      | Eof => missing
      | _ => paren_tokens depth (inner ++ [t]) rest
      end
  end.

Definition skip_parenthesized_tokens (tokens : list Token) : Result (list Token * list Token) str :=
  match tokens with
  | t :: rest =>
      if is_kind LParen t then paren_tokens 1 [] rest
      else Err (string_bytes "internal parser error: expected '(' for annotation")
  | [] => Err (string_bytes "internal parser error: expected '(' for annotation")
  end.

(** The symbol in the parentheses whose tokens follow. *)
Definition parse_extern_symbol_annotation (source : str) (after_open : list Token) : Parse (option str) str :=
  match after_open with
  | [] => Some (Ok None)
  | first :: _ =>
      if is_kind RParen first then Some (Ok None)
      else if negb (is_kind StringLiteral first) then refuse (string_bytes "extern annotation expects string symbol literal")
      else
        literal ← token_text source first;
        parse! symbol := parse_string_literal_text literal in
        Some (Ok (Some symbol))
  end.

(** The argument that some tokens between two commas are. *)
Definition segment_argument (source : str) (annotation : string) (segment : list Token) :
    Parse ParsedFunctionAnnotationArgument str :=
  match segment with
  | [] => refuse (string_bytes "annotation '@" ++ string_bytes annotation ++ string_bytes "' has an empty argument")
  | first :: rest =>
      let last_ := default first (last rest) in
      parse! text := succeed (str_slice source (start first) (end_ last_)) in
      Some (Ok (mkAnnotationArgument
        (if bool_decide (rest = []) && is_kind Identifier first then ArgIdentifier else ArgOther) text))
  end.

(** The loops of [parse_requires_annotation_argument], where parentheses nest, and of
    [parse_effect_annotation_arguments]. *)
Fixpoint argument_segments (source : str) (annotation : string) (nested : bool) (depth : nat)
    (segment tokens : list Token) (arguments : list ParsedFunctionAnnotationArgument) :
    Parse (list ParsedFunctionAnnotationArgument) str :=
  match tokens with
  | [] =>
      parse! argument := segment_argument source annotation segment in
      Some (Ok (arguments ++ [argument]))
  | t :: rest =>
      if is_kind Comma t && (negb nested || (depth =? 0)%nat) then
        parse! argument := segment_argument source annotation segment in
        argument_segments source annotation nested depth [] rest (arguments ++ [argument])
      else
        let depth := if is_kind LParen t then S depth else if is_kind RParen t then (depth - 1)%nat else depth in
        argument_segments source annotation nested depth (segment ++ [t]) rest arguments
  end.

Definition parse_requires_annotation_argument (source : str) (tokens : list Token) :
    Parse (list ParsedFunctionAnnotationArgument) str :=
  if bool_decide (tokens = []) then Some (Ok []) else argument_segments source "requires" true 0 [] tokens [].

Definition parse_effect_annotation_arguments (source : str) (tokens : list Token) :
    Parse (list ParsedFunctionAnnotationArgument) str :=
  if bool_decide (tokens = []) then Some (Ok []) else argument_segments source "effects" false 0 [] tokens [].

Definition annotation_error (name : str) (message : string) : str :=
  string_bytes "annotation '@" ++ name ++ string_bytes "' " ++ string_bytes message.

Definition argument_kind (k : TokenKind) : ParsedFunctionAnnotationArgumentKind :=
  match k with Integer => ArgInteger | StringLiteral => ArgString | Identifier => ArgIdentifier | _ => ArgOther end.

(** The arguments of any other annotation, one token each. *)
Fixpoint argument_tokens (source name : str) (expects_argument : bool) (tokens : list Token)
    (arguments : list ParsedFunctionAnnotationArgument) : Parse (list ParsedFunctionAnnotationArgument) str :=
  match tokens with
  | [] =>
      if expects_argument && negb (bool_decide (arguments = [])) then refuse (annotation_error name "has a trailing comma")
      else Some (Ok arguments)
  | t :: rest =>
      if is_kind Comma t then
        if expects_argument then refuse (annotation_error name "has an empty argument")
        else argument_tokens source name true rest arguments
      else if negb expects_argument then refuse (annotation_error name "expects ',' between arguments")
      else
        parse! text := succeed (token_text source t) in
        argument_tokens source name false rest (arguments ++ [mkAnnotationArgument (argument_kind (kind t)) text])
  end.

(** The parentheses of an annotation: the symbol of an extern, the arguments, and the
    tokens after. *)
Definition annotation_parentheses (source name : str) (tokens : list Token) :
    Parse (option str * list ParsedFunctionAnnotationArgument * list Token) str :=
  parse! symbol :=
    if bool_decide (name = string_bytes "extern") then parse_extern_symbol_annotation source (tail tokens)
    else Some (Ok None) in
  parse! (inner, rest) := Some (skip_parenthesized_tokens tokens) in
  parse! arguments :=
    if bool_decide (name = string_bytes "requires") then parse_requires_annotation_argument source inner
    else if bool_decide (name = string_bytes "effects") then parse_effect_annotation_arguments source inner
    else argument_tokens source name true inner [] in
  Some (Ok (symbol, arguments, rest)).

(** The loop of [parse_function_annotations]: the symbol of an extern and the
    annotations, with the tokens after them. *)
Fixpoint annotations_loop (fuel : nat) (source : str) (tokens : list Token) (extern_symbol : option str)
    (annotations : list ParsedFunctionAnnotation) : Parse (list Token * option str * list ParsedFunctionAnnotation) str :=
  match fuel with
  | O => None
  | S fuel' =>
      if negb (next_char source AT tokens) then Some (Ok (tokens, extern_symbol, annotations))
      else
        parse! (name, rest) := expect_name source (tail tokens) in
        if next_kind LParen rest then
          parse! (symbol, arguments, rest) := annotation_parentheses source name rest in
          let extern_symbol := match symbol with Some _ => symbol | None => extern_symbol end in
          annotations_loop fuel' source rest extern_symbol (annotations ++ [mkAnnotation name true arguments])
        else annotations_loop fuel' source rest extern_symbol (annotations ++ [mkAnnotation name false []])
  end.

Definition parse_function_annotations (source : str) (tokens : list Token) :
    Parse (list Token * option str * list ParsedFunctionAnnotation) str :=
  annotations_loop (S (length tokens)) source tokens None [].

(** ** Steps *)

Lemma parse_bind_Ok {A B E} (m : Parse A E) (k : A → Parse B E) y :
  parse_bind m k = Some (Ok y) → ∃ x, m = Some (Ok x) ∧ k x = Some (Ok y).
Proof. unfold parse_bind. destruct m as [[x|e]|]; simpl; [by eauto|done..]. Qed.

Lemma succeed_Ok {A E} (m : option A) x : @succeed A E m = Some (Ok x) → m = Some x.
Proof. unfold succeed. destruct m; simpl; [by intros [= ->]|done]. Qed.

(** Takes the first step of a computation that succeeds. *)
Ltac bind_step H x Hx :=
  match type of H with
  | parse_bind _ _ = Some (Ok _) => apply parse_bind_Ok in H as (x & Hx & H)
  | mbind _ _ = Some _ => apply bind_Some in H as (x & Hx & H)
  end.
