(* ===== verification/ParserFunctions.v ===== *)
(** * The declaration parser: functions

    Models [parse_top_level_functions_impl] and [parse_top_level_extern_functions] of
    [crates/stasis_compiler/src/frontend/parser.rs].

    Both passes read a signature in the same steps; [parse_signature] is those steps, and
    [SignatureError] says where it stopped, from which each pass makes its own error. *)

From S2P Require Import Prelude Lexer Identity Text Imports ParserTokens.
#[local] Open Scope Z_scope.

Record ParsedParam := mkParam {
  param_name : str;
  param_type_name : str;
}.

Record ParsedFunctionSignature := mkSignature {
  fn_name : str;
  fn_generic_parameters : list ParsedGenericParameter;
  fn_annotations : list ParsedFunctionAnnotation;
  fn_params : list ParsedParam;
  fn_return_type_name : str;
  fn_signature_range : nat * nat;
  fn_body_range : nat * nat;
}.

Record ParsedExternFunctionDeclaration := mkExternFunction {
  ext_name : str;
  ext_name_range : nat * nat;
  ext_generic_parameters : list ParsedGenericParameter;
  ext_symbol_name : str;
  ext_explicit_symbol : bool;
  ext_annotations : list ParsedFunctionAnnotation;
  ext_params : list ParsedParam;
  ext_return_type_name : str;
}.

(** ** Errors *)

(** The loop of [function_name_hint] after the function token. *)
Fixpoint hint_loop (source : str) (after_at : bool) (tokens : list Token) : option str :=
  match tokens with
  | [] => Some []
  | t :: rest =>
      if is_kind FunctionKw t || is_kind LBrace t then Some []
      else if token_is_other_char source t AT then hint_loop source true rest
      else if is_kind Identifier t then
        if after_at then hint_loop source false rest
        else if next_kind LParen rest then token_text source t
        else hint_loop source after_at rest
      else hint_loop source after_at rest
  end.

Definition function_name_hint (source : str) (function_tokens : list Token) : option str :=
  hint_loop source false (tail function_tokens).

(** The error at the first of [tokens], in the function whose token is the first of
    [function_tokens]. *)
Definition contextual_parser_error (source : str) (function_tokens tokens : list Token) (symbol : option str)
    (message : str) : option ParserDiagnostic :=
  let token := match tokens, function_tokens with
               | t :: _, _ | [], t :: _ => t
               | [], [] => mkToken Eof (length source) (length source)
               end in
  symbol ← match symbol with Some symbol => Some symbol | None => function_name_hint source function_tokens end;
  Some (mkParserDiagnostic message (start token)
          (Nat.min (Nat.max (end_ token) (start token + 1)) (length source)) symbol).

(** ** Signatures *)

Inductive SignatureError :=
| AtToken (tokens : list Token) (name : option str) (message : str)
| ParameterConflict (parameter name : str) (tokens : list Token).

(** A step that starts at [tokens] and fails there. *)
Definition located {A} (tokens : list Token) (name : option str) (m : Parse A str) : Parse A SignatureError :=
  map_err (AtToken tokens name) <$> m.

(** The loop over the parameters. *)
Fixpoint parameter_loop (fuel : nat) (source name : str) (tokens : list Token) (params : list ParsedParam) :
    Parse (list ParsedParam * list Token) SignatureError :=
  match fuel with
  | O => None
  | S fuel' =>
      match tokens with
      | [] => Some (Ok (params, tokens))
      | t :: _ =>
          if is_kind RParen t then Some (Ok (params, tokens))
          else
            parse! (param, rest) := located tokens (Some name) (expect_name source tokens) in
            parse! (_, rest) := located rest (Some name) (Some (expect rest Colon)) in
            parse! (type_name, rest) := located rest (Some name) (parse_type_name source rest) in
            let rest := if next_kind Comma rest then tail rest else rest in
            parameter_loop fuel' source name rest (params ++ [mkParam param type_name])
      end
  end.

Record Signature := mkSignatureParts {
  sig_name : str;
  sig_name_range : nat * nat;
  sig_symbol : option str;
  sig_generics : list ParsedGenericParameter;
  sig_annotations : list ParsedFunctionAnnotation;
  sig_params : list ParsedParam;
  sig_return : str;
}.

Definition parameter_conflict (generics : list ParsedGenericParameter) (params : list ParsedParam) : option str :=
  gp_name <$> List.find (λ g, existsb (λ p, bool_decide (param_name p = gp_name g)) params) generics.

(** What both passes read after the function token: annotations, name, generic
    parameters, parameters and result. *)
Definition parse_signature (source : str) (tokens : list Token) : Parse (Signature * list Token) SignatureError :=
  parse! (rest, symbol, annotations) := located tokens None (parse_function_annotations source tokens) in
  parse! (name_token, after_name) := located rest None (Some (expect rest Identifier)) in
  parse! name := succeed (token_text source name_token) in
  parse! (generics, rest) := located after_name (Some name) (parse_generic_parameter_list source after_name) in
  parse! (_, rest) := located rest (Some name) (Some (expect rest LParen)) in
  parse! (params, rest) := parameter_loop (S (length rest)) source name rest [] in
  parse! (_, rest) := located rest (Some name) (Some (expect rest RParen)) in
  match parameter_conflict generics params with
  | Some parameter => refuse (ParameterConflict parameter name rest)
  | None =>
      parse! (return_type, rest) :=
        if next_kind Colon rest then located (tail rest) (Some name) (parse_type_name source (tail rest))
        else Some (Ok (string_bytes "void", rest)) in
      Some (Ok (mkSignatureParts name (start name_token, end_ name_token) symbol generics annotations params return_type, rest))
  end.

Definition conflict_message (parameter : str) : str :=
  string_bytes "generic parameter '" ++ parameter ++ string_bytes "' conflicts with an ordinary function parameter".

(** ** Functions *)

Section functions.
Context (source : str) (include_declarations : bool).

(** The error of [parse_top_level_functions_impl]: a conflict ends at the cursor, which
    counts tokens, [total] in all. *)
Definition signature_diagnostic (total signature_start : nat) (function_tokens : list Token) (e : SignatureError) :
    option ParserDiagnostic :=
  match e with
  | AtToken tokens name message => contextual_parser_error source function_tokens tokens name message
  | ParameterConflict parameter name tokens =>
      Some (mkParserDiagnostic (conflict_message parameter) signature_start (total - length tokens) name)
  end.

(** Maps an error with a function that may panic. *)
Definition map_error {A E F} (f : E → option F) (m : Parse A E) : Parse A F :=
  r ← m; match r with Ok x => Some (Ok x) | Err e => Err <$> f e end.

(** The annotations before a function: where its signature starts, and the tokens from
    the function token on. *)
Definition leading_annotations (tokens : list Token) :
    Parse (option nat * list ParsedFunctionAnnotation * list Token) ParserDiagnostic :=
  match tokens with
  | t :: _ =>
      if token_is_other_char source t AT then
        parse! (after, _, parsed) :=
          map_error (contextual_parser_error source tokens tokens None) (parse_function_annotations source tokens) in
        parse! is_extern :=
          succeed (if existsb (λ a, bool_decide (ann_name a = string_bytes "requires")) parsed
                   then match after with e :: _ => is_word source "extern" e | [] => Some false end
                   else Some false) in
        if is_extern && next_kind FunctionKw (tail after) then
          e ← contextual_parser_error source tokens after None
                (string_bytes "@requires functions must be internal and cannot be extern");
          refuse e
        else if next_kind FunctionKw after then Some (Ok (Some (start t), parsed, after))
        else Some (Ok (None, [], tokens))
      else Some (Ok (None, [], tokens))
  | [] => Some (Ok (None, [], tokens))
  end.

(** The function at [tokens], whose first token is the function token: the function, when
    it is kept, and the tokens after it. *)
Definition parse_function (total signature_start : nat) (leading : list ParsedFunctionAnnotation) (tokens : list Token) :
    Parse (option ParsedFunctionSignature * list Token) ParserDiagnostic :=
  parse! (sig, rest) :=
    map_error (signature_diagnostic total signature_start tokens) (parse_signature source (tail tokens)) in
  let function signature_end body :=
    mkSignature (sig_name sig) (sig_generics sig) (leading ++ sig_annotations sig) (sig_params sig) (sig_return sig)
      (signature_start, signature_end) body in
  match rest with
  | semicolon :: rest' =>
      if is_kind Semicolon semicolon then
        Some (Ok (if include_declarations
                  then Some (function (start semicolon) (end_ semicolon, end_ semicolon)) else None, rest'))
      else
        parse! (open, rest') :=
          map_error (contextual_parser_error source tokens rest (Some (sig_name sig))) (Some (expect rest LBrace)) in
        parse! (close, after) :=
          map_error (λ message, Some (mkParserDiagnostic message signature_start (length source) (sig_name sig)))
            (Some (find_matching_rbrace rest' 1)) in
        Some (Ok (Some (function (Nat.min (start semicolon) (length source)) (start open, end_ close)), after))
  | [] =>
      e ← contextual_parser_error source tokens rest (Some (sig_name sig)) (expect_error rest LBrace);
      refuse e
  end.

(** The loop of [parse_top_level_functions_impl]. *)
Fixpoint functions_loop (fuel total : nat) (tokens : list Token) (out : list ParsedFunctionSignature) :
    Parse (list ParsedFunctionSignature) ParserDiagnostic :=
  match fuel with
  | O => None
  | S fuel' =>
      match tokens with
      | [] => Some (Ok out)
      | _ =>
          parse! (signature_start, leading, tokens) := leading_annotations tokens in
          match tokens with
          | [] => None
          | t :: rest =>
              if negb (is_kind FunctionKw t) then functions_loop fuel' total rest out
              else
                parse! (function, after) := parse_function total (default (start t) signature_start) leading tokens in
                functions_loop fuel' total after (out ++ option_list function)
          end
      end
  end.

Definition parse_top_level_functions_impl : Parse (list ParsedFunctionSignature) ParserDiagnostic :=
  parse! tokens :=
    map_error (λ e, lexer_error_context source (string_bytes (message e)) (offset e)) (lex_with_diagnostic source) in
  functions_loop (S (length tokens)) (length tokens) tokens [].
End functions.

Definition parse_top_level_functions_with_diagnostic (source : str) := parse_top_level_functions_impl source false.

Definition parse_top_level_function_signatures_with_diagnostic (source : str) := parse_top_level_functions_impl source true.

Definition parse_top_level_functions (source : str) : Parse (list ParsedFunctionSignature) str :=
  map_err pd_message <$> parse_top_level_functions_with_diagnostic source.

(** ** Extern functions *)

Definition signature_message (e : SignatureError) : str :=
  match e with AtToken _ _ message => message | ParameterConflict parameter _ _ => conflict_message parameter end.

Definition lex_text (source : str) : Parse (list Token) str := map_err string_bytes <$> lex source.

Section externs.
Context (source : str).

(** The prefix [extern] of a function, and the tokens after it. *)
Definition extern_prefix (tokens : list Token) : option (bool * list Token) :=
  match tokens with
  | t :: rest =>
      is_extern ← is_word source "extern" t;
      Some (if is_extern && next_kind FunctionKw rest then (true, rest) else (false, tokens))
  | [] => Some (false, tokens)
  end.

(** The loop of [parse_top_level_extern_functions]. *)
Fixpoint externs_loop (fuel : nat) (tokens : list Token) (out : list ParsedExternFunctionDeclaration) :
    Parse (list ParsedExternFunctionDeclaration) str :=
  match fuel with
  | O => None
  | S fuel' =>
      match tokens with
      | [] => Some (Ok out)
      | _ =>
          '(has_extern_prefix, tokens) ← extern_prefix tokens;
          if negb (next_kind FunctionKw tokens) then externs_loop fuel' (tail tokens) out
          else
            parse! (sig, rest) := map_error (λ e, Some (signature_message e)) (parse_signature source (tail tokens)) in
            if next_kind Semicolon rest then
              let declaration :=
                if has_extern_prefix || bool_decide (is_Some (sig_symbol sig)) then
                  [mkExternFunction (sig_name sig) (sig_name_range sig) (sig_generics sig)
                     (default (sig_name sig) (sig_symbol sig)) (bool_decide (is_Some (sig_symbol sig)))
                     (sig_annotations sig) (sig_params sig) (sig_return sig)]
                else [] in
              externs_loop fuel' (tail rest) (out ++ declaration)
            else if next_kind LBrace rest then
              parse! (_, after) := Some (find_matching_rbrace (tail rest) 1) in
              externs_loop fuel' after out
            else externs_loop fuel' (tail rest) out
      end
  end.

Definition parse_top_level_extern_functions : Parse (list ParsedExternFunctionDeclaration) str :=
  parse! tokens := lex_text source in
  externs_loop (S (length tokens)) tokens [].
End externs.
