(* ===== verification/ParserLayout.v ===== *)
(** * The declaration parser: types, globals and constants

    Models [parse_top_level_type_layout], [parse_top_level_struct_definitions] and the
    definitions they read, of [crates/stasis_compiler/src/frontend/parser.rs]. *)

From S2P Require Import Prelude Lexer Identity Text Imports ParserTokens ParserFunctions.
#[local] Open Scope Z_scope.

Record ParsedFieldInitializer := mkInitializer {
  init_expression : str;
  init_range : nat * nat;
}.

Record ParsedField := mkField {
  field_name : str;
  field_type_name : str;
  field_initializer : option ParsedFieldInitializer;
}.

Record ParsedStructDefinition := mkStruct {
  struct_name : str;
  struct_generic_parameters : list ParsedGenericParameter;
  struct_fields : list ParsedField;
}.

Record ParsedStructDefinitionRange := mkStructRange {
  range_name : str;
  range_generic_parameters : list ParsedGenericParameter;
  range_definition : nat * nat;
}.

Record ParsedEnumVariant := mkVariant {
  variant_name : str;
  variant_value : option Z;
}.

Record ParsedEnumDefinition := mkEnum {
  enum_name : str;
  enum_variants : list ParsedEnumVariant;
}.

Record ParsedGlobalDefinition := mkGlobal {
  global_name : str;
  global_type_name : str;
}.

Record ParsedGlobalBlockDefinition := mkGlobalBlock {
  block_name : str;
  block_fields : list ParsedField;
}.

Inductive ParsedGlobalTopLevel :=
| TypedGlobal (global : ParsedGlobalDefinition)
| GlobalBlock (block : ParsedGlobalBlockDefinition).

Record ParsedConstDefinition := mkConst {
  const_name : str;
  const_type_name : str;
  const_value_text : str;
  const_value_range : nat * nat;
}.

Record ParsedConstGroupMemberDefinition := mkMember {
  member_name : str;
  member_name_range : nat * nat;
  member_type_name : str;
  member_value_text : str;
  member_value_range : nat * nat;
}.

Record ParsedConstGroupDefinition := mkGroup {
  group_name : str;
  group_name_range : nat * nat;
  group_definition_range : nat * nat;
  group_members : list ParsedConstGroupMemberDefinition;
}.

Record ParsedTypeLayout := mkLayout {
  pl_enums : list ParsedEnumDefinition;
  pl_structs : list ParsedStructDefinition;
  pl_globals : list ParsedGlobalDefinition;
  pl_global_blocks : list ParsedGlobalBlockDefinition;
  pl_constants : list ParsedConstDefinition;
  pl_const_groups : list ParsedConstGroupDefinition;
}.

(** A semicolon that may follow. *)
Definition skip_semicolon (tokens : list Token) : list Token :=
  if next_kind Semicolon tokens then tail tokens else tokens.

(** [source.get(start..end).unwrap_or_default().trim()] *)
Definition trimmed_slice (source : str) (first last : nat) : str := trim (default [] (str_slice source first last)).

(** ** Fields *)

(** The loop to the semicolon of an initializer. *)
Fixpoint initializer_end (field : str) (tokens : list Token) : Result (Token * list Token) str :=
  match tokens with
  | [] => Err (expect_error tokens Semicolon)
  | t :: rest =>
      if is_kind Semicolon t then Ok (t, tokens)
      else if is_kind RBrace t || is_kind Eof t
      then Err (string_bytes "field '" ++ field ++ string_bytes "' initializer is missing ';'")
      else initializer_end field rest
  end.

(** The initializer of a field, and the tokens from its semicolon on. *)
Definition parse_initializer (source field : str) (tokens : list Token) :
    Parse (option ParsedFieldInitializer * list Token) str :=
  match tokens with
  | equals :: rest =>
      if token_is_other_char source equals ASSIGN then
        let first := match rest with t :: _ => start t | [] => end_ equals end in
        parse! (semicolon, rest) := Some (initializer_end field rest) in
        Some (Ok (Some (mkInitializer (trimmed_slice source first (start semicolon)) (first, start semicolon)), rest))
      else Some (Ok (None, tokens))
  | [] => Some (Ok (None, tokens))
  end.

(** The loop of [parse_braced_fields] after the brace: the fields, the closing brace and
    the tokens after it. *)
Fixpoint field_loop (fuel : nat) (source : str) (tokens : list Token) (fields : list ParsedField) :
    Parse (list ParsedField * Token * list Token) str :=
  match fuel with
  | O => None
  | S fuel' =>
      if match tokens with t :: _ => negb (is_kind RBrace t) | [] => false end then
        parse! (name, rest) := expect_name source tokens in
        parse! (_, rest) := Some (expect rest Colon) in
        parse! (type_name, rest) := parse_type_name source rest in
        parse! (initializer, rest) := parse_initializer source name rest in
        parse! (_, rest) := Some (expect rest Semicolon) in
        field_loop fuel' source rest (fields ++ [mkField name type_name initializer])
      else
        parse! (close, rest) := Some (expect tokens RBrace) in
        Some (Ok (fields, close, rest))
  end.

Definition parse_braced_fields (source : str) (tokens : list Token) : Parse (list ParsedField * Token * list Token) str :=
  field_loop (S (length tokens)) source tokens [].

(** ** Structs

    The tokens of a definition start with its keyword. *)

(** A struct with the end of its last token. *)
Definition parse_struct (source : str) (tokens : list Token) : Parse (ParsedStructDefinition * nat * list Token) str :=
  parse! (name_token, rest) := Some (expect (tail tokens) Identifier) in
  parse! (generics, rest) := parse_generic_parameter_list source rest in
  parse! (_, rest) := Some (expect rest LBrace) in
  parse! (fields, close, rest) := parse_braced_fields source rest in
  let last := if next_kind Semicolon rest then match rest with t :: _ => end_ t | [] => end_ close end else end_ close in
  parse! name := succeed (token_text source name_token) in
  Some (Ok (mkStruct name generics fields, last, skip_semicolon rest)).

Definition parse_struct_definition (source : str) (tokens : list Token) : Parse (ParsedStructDefinition * list Token) str :=
  parse! (parsed, _, rest) := parse_struct source tokens in
  Some (Ok (parsed, rest)).

Definition parse_struct_definition_range (source : str) (keyword : Token) (tokens : list Token) :
    Parse (ParsedStructDefinitionRange * list Token) str :=
  parse! (parsed, last, rest) := parse_struct source tokens in
  Some (Ok (mkStructRange (struct_name parsed) (struct_generic_parameters parsed)
              (start keyword, Nat.min last (length source)), rest)).

Definition starts_struct (source : str) (depth : nat) (t : Token) : option bool :=
  if (depth =? 0)%nat then is_word source "struct" t else Some false.

(** The loop of [parse_top_level_struct_definitions]. *)
Fixpoint structs_loop (fuel : nat) (source : str) (depth : nat) (tokens : list Token)
    (out : list ParsedStructDefinitionRange) : Parse (list ParsedStructDefinitionRange) str :=
  match fuel with
  | O => None
  | S fuel' =>
      match tokens with
      | [] => Some (Ok out)
      | t :: rest =>
          if is_kind LBrace t then structs_loop fuel' source (S depth) rest out
          else if is_kind RBrace t then structs_loop fuel' source (depth - 1) rest out
          else
            is_struct ← starts_struct source depth t;
            if is_struct : bool then
              parse! (parsed, after) := parse_struct_definition_range source t tokens in
              structs_loop fuel' source depth after (out ++ [parsed])
            else structs_loop fuel' source depth rest out
      end
  end.

Definition parse_top_level_struct_definitions (source : str) : Parse (list ParsedStructDefinitionRange) str :=
  parse! tokens := lex_text source in
  structs_loop (S (length tokens)) source 0 tokens [].

(** ** Enums *)

(** The value after an equals sign, which may be negative. *)
Definition parse_discriminant (source : str) (tokens : list Token) : Parse (Z * list Token) str :=
  let negative := next_char source MINUS tokens in
  let tokens := if negative then tail tokens else tokens in
  parse! (token, rest) := Some (expect tokens Integer) in
  parse! text := succeed (token_text source token) in
  parse! value :=
    Some (ok_or (checked_i 32 (decimal text))
            (string_bytes "invalid enum discriminant '" ++ text ++ string_bytes "': number too large to fit in target type")) in
  Some (Ok (if negative then - value else value, rest)).

(** The loop of [parse_enum_definition] over the variants. *)
Fixpoint variant_loop (fuel : nat) (source : str) (tokens : list Token) (variants : list ParsedEnumVariant) :
    Parse (list ParsedEnumVariant * list Token) str :=
  match fuel with
  | O => None
  | S fuel' =>
      if match tokens with t :: _ => negb (is_kind RBrace t) | [] => false end then
        parse! (name, rest) := expect_name source tokens in
        parse! (value, rest) :=
          if next_char source ASSIGN rest then
            parse! (value, rest) := parse_discriminant source (tail rest) in Some (Ok (Some value, rest))
          else Some (Ok (None, rest)) in
        parse! rest :=
          if next_kind Comma rest then Some (Ok (tail rest))
          else if next_kind RBrace rest then Some (Ok rest)
          else refuse (string_bytes "enum variant '" ++ name ++ string_bytes "' must be followed by a comma") in
        variant_loop fuel' source rest (variants ++ [mkVariant name value])
      else Some (Ok (variants, tokens))
  end.

Definition parse_enum_definition (source : str) (tokens : list Token) : Parse (ParsedEnumDefinition * list Token) str :=
  parse! (name, rest) := expect_name source (tail tokens) in
  parse! (_, rest) := Some (expect rest LBrace) in
  parse! (variants, rest) := variant_loop (S (length rest)) source rest [] in
  parse! (_, rest) := Some (expect rest RBrace) in
  Some (Ok (mkEnum name variants, skip_semicolon rest)).

(** ** Globals *)

Definition parse_global_definition (source : str) (tokens : list Token) : Parse (ParsedGlobalTopLevel * list Token) str :=
  parse! (name, rest) := expect_name source (tail tokens) in
  match rest with
  | [] => refuse (string_bytes "incomplete global declaration near '" ++ name ++ string_bytes "'")
  | next :: after =>
      if is_kind Colon next then
        parse! (type_name, rest) := parse_type_name source after in
        parse! (_, rest) := Some (expect rest Semicolon) in
        Some (Ok (TypedGlobal (mkGlobal name type_name), rest))
      else if is_kind LBrace next then
        parse! (fields, _, rest) := parse_braced_fields source after in
        Some (Ok (GlobalBlock (mkGlobalBlock name fields), skip_semicolon rest))
      else
        refuse (string_bytes "unsupported global declaration near '" ++ name ++ string_bytes "': expected ':' or '{'")
  end.

(** ** Constants *)

(** The loop to the semicolon of a constant. *)
Fixpoint const_end (name : str) (tokens : list Token) : Result (Token * list Token) str :=
  match tokens with
  | [] => Err (expect_error tokens Semicolon)
  | t :: rest =>
      if is_kind Semicolon t then Ok (t, rest)
      else if is_kind Eof t then Err (string_bytes "const declaration for '" ++ name ++ string_bytes "' is missing ';'")
      else const_end name rest
  end.

Definition parse_const_definition (source : str) (tokens : list Token) : Parse (ParsedConstDefinition * list Token) str :=
  parse! (name, rest) := expect_name source (tail tokens) in
  parse! (_, rest) := Some (expect rest Colon) in
  parse! (type_name, rest) := parse_type_name source rest in
  match rest with
  | [] => refuse (string_bytes "incomplete const declaration near '" ++ name ++ string_bytes "'")
  | equals :: rest =>
      if negb (token_is_other_char source equals ASSIGN)
      then refuse (string_bytes "const declaration for '" ++ name ++ string_bytes "' must include '=' initializer")
      else
        let first := match rest with t :: _ => start t | [] => end_ equals end in
        parse! (semicolon, rest) := Some (const_end name rest) in
        Some (Ok (mkConst name type_name (trimmed_slice source first (start semicolon)) (first, start semicolon), rest))
  end.

Definition qualified (group member : str) : str := group ++ [PERIOD] ++ member.

(** The loop to the semicolon of a member. *)
Fixpoint member_end (path : str) (tokens : list Token) : Result (Token * list Token) str :=
  let missing :=
    Err (string_bytes "constant group member '" ++ path ++ string_bytes "' initializer is missing ';'") in
  match tokens with
  | [] => Err (expect_error tokens Semicolon)
  | t :: rest =>
      if is_kind Semicolon t then Ok (t, rest)
      else if is_kind Identifier t && next_kind Colon rest then missing
      else if is_kind RBrace t || is_kind Eof t then missing
      else member_end path rest
  end.

(** A member of a group at [tokens]. *)
Definition parse_member (source group : str) (tokens : list Token) :
    Parse (ParsedConstGroupMemberDefinition * list Token) str :=
  parse! (name_token, rest) := Some (expect tokens Identifier) in
  parse! name := succeed (token_text source name_token) in
  parse! (_, rest) := Some (expect rest Colon) in
  parse! (type_name, rest) := parse_type_name source rest in
  match rest with
  | [] => refuse (string_bytes "incomplete member '" ++ name ++ string_bytes "' in constant group '" ++ group ++ string_bytes "'")
  | equals :: rest =>
      if negb (token_is_other_char source equals ASSIGN)
      then refuse (string_bytes "constant group member '" ++ qualified group name ++ string_bytes "' must include an '=' initializer")
      else
        let first := match rest with t :: _ => start t | [] => end_ equals end in
        parse! (semicolon, rest) := Some (member_end (qualified group name) rest) in
        let value := trimmed_slice source first (start semicolon) in
        if bool_decide (value = [])
        then refuse (string_bytes "constant group member '" ++ qualified group name ++ string_bytes "' initializer cannot be empty")
        else
          Some (Ok (mkMember name (start name_token, end_ name_token) type_name value (first, start semicolon), rest))
  end.

(** The loop of [parse_const_group_definition]. *)
Fixpoint member_loop (fuel : nat) (source group : str) (tokens : list Token) (members : list ParsedConstGroupMemberDefinition) :
    Parse (list ParsedConstGroupMemberDefinition * list Token) str :=
  match fuel with
  | O => None
  | S fuel' =>
      match tokens with
      | [] => Some (Ok (members, tokens))
      | t :: _ =>
          if is_kind RBrace t then Some (Ok (members, tokens))
          else if is_kind Eof t then refuse (string_bytes "constant group '" ++ group ++ string_bytes "' is missing '}'")
          else
            parse! (member, rest) := parse_member source group tokens in
            member_loop fuel' source group rest (members ++ [member])
      end
  end.

Definition parse_const_group_definition (source : str) (tokens : list Token) :
    Parse (ParsedConstGroupDefinition * list Token) str :=
  parse! (keyword, rest) := Some (expect tokens Identifier) in
  parse! (name_token, rest) := Some (expect rest Identifier) in
  parse! name := succeed (token_text source name_token) in
  parse! (_, rest) := Some (expect rest LBrace) in
  parse! (members, rest) := member_loop (S (length rest)) source name rest [] in
  parse! (close, rest) := Some (expect rest RBrace) in
  Some (Ok (mkGroup name (start name_token, end_ name_token) (start keyword, end_ close) members, skip_semicolon rest)).

(** ** The layout of a source *)

Definition add_enum (x : ParsedEnumDefinition) (l : ParsedTypeLayout) : ParsedTypeLayout :=
  mkLayout (pl_enums l ++ [x]) (pl_structs l) (pl_globals l) (pl_global_blocks l) (pl_constants l) (pl_const_groups l).
Definition add_struct (x : ParsedStructDefinition) (l : ParsedTypeLayout) : ParsedTypeLayout :=
  mkLayout (pl_enums l) (pl_structs l ++ [x]) (pl_globals l) (pl_global_blocks l) (pl_constants l) (pl_const_groups l).
Definition add_global (x : ParsedGlobalTopLevel) (l : ParsedTypeLayout) : ParsedTypeLayout :=
  match x with
  | TypedGlobal g => mkLayout (pl_enums l) (pl_structs l) (pl_globals l ++ [g]) (pl_global_blocks l) (pl_constants l) (pl_const_groups l)
  | GlobalBlock b => mkLayout (pl_enums l) (pl_structs l) (pl_globals l) (pl_global_blocks l ++ [b]) (pl_constants l) (pl_const_groups l)
  end.
Definition add_const (x : ParsedConstDefinition) (l : ParsedTypeLayout) : ParsedTypeLayout :=
  mkLayout (pl_enums l) (pl_structs l) (pl_globals l) (pl_global_blocks l) (pl_constants l ++ [x]) (pl_const_groups l).
Definition add_group (x : ParsedConstGroupDefinition) (l : ParsedTypeLayout) : ParsedTypeLayout :=
  mkLayout (pl_enums l) (pl_structs l) (pl_globals l) (pl_global_blocks l) (pl_constants l) (pl_const_groups l ++ [x]).

(** The definition that starts at [tokens], when [keyword] starts one: the layout with it,
    and the tokens after it. *)
Definition parse_definition (source keyword : str) (tokens : list Token) (layout : ParsedTypeLayout) :
    Parse (option (ParsedTypeLayout * list Token)) str :=
  let added {A} (add : A → ParsedTypeLayout → ParsedTypeLayout) (m : Parse (A * list Token) str) :=
    parse! (parsed, after) := m in Some (Ok (Some (add parsed layout, after))) in
  if bool_decide (keyword = string_bytes "struct") then added add_struct (parse_struct_definition source tokens)
  else if bool_decide (keyword = string_bytes "enum") then added add_enum (parse_enum_definition source tokens)
  else if bool_decide (keyword = string_bytes "global") then added add_global (parse_global_definition source tokens)
  else if bool_decide (keyword = string_bytes "const") then
    if next_kind Identifier (tail tokens) && next_kind LBrace (tail (tail tokens))
    then added add_group (parse_const_group_definition source tokens)
    else added add_const (parse_const_definition source tokens)
  else Some (Ok None).

(** The loop of [parse_top_level_type_layout]. *)
Fixpoint layout_loop (fuel : nat) (source : str) (depth : nat) (tokens : list Token) (out : ParsedTypeLayout) :
    Parse ParsedTypeLayout str :=
  match fuel with
  | O => None
  | S fuel' =>
      match tokens with
      | [] => Some (Ok out)
      | t :: rest =>
          if is_kind LBrace t then layout_loop fuel' source (S depth) rest out
          else if is_kind RBrace t then layout_loop fuel' source (depth - 1) rest out
          else if is_kind Identifier t && (depth =? 0)%nat then
            keyword ← token_text source t;
            parse! parsed := parse_definition source keyword tokens out in
            match parsed with
            | Some (out, after) => layout_loop fuel' source depth after out
            | None => layout_loop fuel' source depth rest out
            end
          else layout_loop fuel' source depth rest out
      end
  end.

Definition parse_top_level_type_layout (source : str) : Parse ParsedTypeLayout str :=
  parse! tokens := lex_text source in
  layout_loop (S (length tokens)) source 0 tokens (mkLayout [] [] [] [] [] []).
