(* ===== verification/ParserLocals.v ===== *)
(** * The declaration parser: local variables and angle brackets

    Models the passes of [crates/stasis_compiler/src/frontend/parser.rs] that the editor
    asks: the local variables of functions and where they are visible, the type expected
    at a cursor, and the angle brackets that belong to types.

    [partition_point] is a binary search; on tokens in order it is where the prefix of
    tokens before an offset ends. *)

From S2P Require Import Prelude BTree Lexer Identity Text Imports ParserTokens ParserFunctions.
#[local] Open Scope Z_scope.

Record ParsedLocalDeclaration := mkLocal {
  local_function_name : str;
  local_name : str;
  local_name_range : nat * nat;
  local_visibility_range : nat * nat;
}.

Record ParsedLocalBinding := mkBinding {
  binding_function_name : str;
  binding_name : str;
  binding_name_range : nat * nat;
  binding_type_name : str;
  binding_visibility_range : nat * nat;
}.

#[export] Instance ParsedLocalBinding_eq_dec : EqDecision ParsedLocalBinding.
Proof. solve_decision. Defined.

(** The tokens from an offset on. *)
Fixpoint tokens_from (offset : nat) (tokens : list Token) : list Token :=
  match tokens with
  | t :: rest => if (start t <? offset)%nat then tokens_from offset rest else tokens
  | [] => []
  end.

(** The token is outside the body or the last. *)
Definition past_body (body : nat * nat) (t : Token) : bool := (body.2 <=? start t)%nat || is_kind Eof t.

(** [matching_token_index] from the opening token on: the tokens inside, the closing token
    and the tokens after it. *)
Fixpoint matching_token (open close : TokenKind) (depth : nat) (inner tokens : list Token) :
    option (list Token * Token * list Token) :=
  match tokens with
  | [] => None
  | t :: rest =>
      if is_kind open t then matching_token open close (S depth) (inner ++ [t]) rest
      else if is_kind close t then
        match depth with
        | O => None
        | S O => Some (tail inner, t, rest)
        | S depth => matching_token open close depth (inner ++ [t]) rest
        end
      else matching_token open close depth (inner ++ [t]) rest
  end.

Definition matching_token_index (tokens : list Token) (open close : TokenKind) : option (list Token * Token * list Token) :=
  matching_token open close 0 [] tokens.

(** ** Scopes *)

(** The loop of [lexical_scope_ranges]. *)
Fixpoint scope_loop (tokens : list Token) (starts : list nat) (ranges : list (nat * nat)) : list (nat * nat) :=
  match tokens with
  | [] => ranges
  | t :: rest =>
      if is_kind LBrace t then scope_loop rest (start t :: starts) ranges
      else if is_kind RBrace t then
        match starts with
        | first :: starts => scope_loop rest starts (ranges ++ [(first, end_ t)])
        | [] => scope_loop rest starts ranges
        end
      else scope_loop rest starts ranges
  end.

Definition lexical_scope_ranges (tokens : list Token) (body : nat * nat) : list (nat * nat) :=
  scope_loop (filter (λ t, (body.1 ≤ start t)%nat ∧ (end_ t ≤ body.2)%nat) tokens) [] [].

(** The header in parentheses and the block of braces at [tokens]. *)
Definition header_and_block (tokens : list Token) : option (list Token * (Token * Token) * (Token * Token) * list Token) :=
  match tokens with
  | header_open :: _ =>
      if is_kind LParen header_open then
        '(header, header_close, rest) ← matching_token_index tokens LParen RParen;
        match rest with
        | body_open :: _ =>
            if is_kind LBrace body_open then
              '(_, body_close, after) ← matching_token_index rest LBrace RBrace;
              Some (header, (header_open, header_close), (body_open, body_close), after)
            else None
        | [] => None
        end
      else None
  | [] => None
  end.

Section passes.
Context (source : str).

(** The loop of [for_scope_ranges]. *)
Fixpoint for_loop (body : nat * nat) (tokens : list Token) (ranges : list (nat * nat)) : option (list (nat * nat)) :=
  match tokens with
  | [] => Some ranges
  | t :: rest =>
      if past_body body t then Some ranges
      else
        is_for ← is_word source "for" t;
        for_loop body rest
          (if is_for : bool then
             match header_and_block rest with
             | Some (_, (header_open, _), (_, body_close), _) => ranges ++ [(start header_open, end_ body_close)]
             | None => ranges
             end
           else ranges)
  end.

Definition for_scope_ranges (tokens : list Token) (body : nat * nat) : option (list (nat * nat)) :=
  for_loop body (tokens_from body.1 tokens) [].

(** ** Local variables *)

(** The identifiers before [in]. *)
Fixpoint foreach_names (header : list Token) : option (list Token) :=
  match header with
  | [] => Some []
  | t :: rest =>
      is_in ← is_word source "in" t;
      if is_in : bool then Some []
      else names ← foreach_names rest; Some (if is_kind Identifier t then t :: names else names)
  end.

(** The variables of the header of a [foreach], when it starts with [let]. *)
Definition foreach_bindings (header : list Token) : option (option (list Token)) :=
  match header with
  | [] => Some None
  | t :: rest =>
      is_let ← is_word source "let" t;
      if is_let : bool then names ← foreach_names rest; Some (Some (take 2 names)) else Some None
  end.

Definition declare (function_name : str) (visibility : nat * nat) (t : Token) : option ParsedLocalDeclaration :=
  name ← token_text source t;
  Some (mkLocal function_name name (start t, end_ t) visibility).

(** The loop of [foreach_local_declarations]. *)
Fixpoint foreach_loop (fuel : nat) (function_name : str) (body : nat * nat) (tokens : list Token)
    (declarations : list ParsedLocalDeclaration) : option (list ParsedLocalDeclaration) :=
  match fuel with
  | O => None
  | S fuel' =>
      match tokens with
      | [] => Some declarations
      | t :: rest =>
          if past_body body t then Some declarations
          else
            is_foreach ← is_word source "foreach" t;
            let next := foreach_loop fuel' function_name body rest declarations in
            if is_foreach : bool then
              match header_and_block rest with
              | Some (header, _, (body_open, body_close), after) =>
                  bindings ← foreach_bindings header;
                  match bindings with
                  | Some names =>
                      found ← mapM (declare function_name (start body_open, end_ body_close)) names;
                      foreach_loop fuel' function_name body after (declarations ++ found)
                  | None => next
                  end
              | None => next
              end
            else next
      end
  end.

Definition foreach_local_declarations (tokens : list Token) (function : ParsedFunctionSignature) :
    option (list ParsedLocalDeclaration) :=
  foreach_loop (S (length tokens)) (fn_name function) (fn_body_range function)
    (tokens_from (fn_body_range function).1 tokens) [].

(** [min_by_key] of the length: the first of the shortest ranges. *)
Definition shortest (ranges : list (nat * nat)) : option (nat * nat) :=
  foldl (λ best r, match best with
                   | Some b => if (r.2 - r.1 <? b.2 - b.1)%nat then Some r else best
                   | None => Some r
                   end) None ranges.

Definition scope_end (ranges : list (nat * nat)) (body : nat * nat) (t : Token) : nat :=
  default body.2 (snd <$> shortest (filter (λ r, (r.1 ≤ start t)%nat ∧ (end_ t ≤ r.2)%nat) ranges)).

(** The end of the first semicolon before [limit]. *)
Fixpoint semicolon_before (limit : nat) (tokens : list Token) : option nat :=
  match tokens with
  | [] => None
  | t :: rest =>
      if (start t <? limit)%nat then if is_kind Semicolon t then Some (end_ t) else semicolon_before limit rest
      else None
  end.

(** The loop of [parse_local_declarations] over the tokens of a body. *)
Fixpoint local_loop (fuel : nat) (function : ParsedFunctionSignature) (ranges : list (nat * nat)) (tokens : list Token)
    (declarations : list ParsedLocalDeclaration) : option (list ParsedLocalDeclaration) :=
  match fuel with
  | O => None
  | S fuel' =>
      match tokens with
      | [] => Some declarations
      | t :: rest =>
          if past_body (fn_body_range function) t then Some declarations
          else
            is_let ← is_word source "let" t;
            if negb is_let then local_loop fuel' function ranges rest declarations
            else
              match rest with
              | [] => Some declarations
              | name :: after =>
                  if negb (is_kind Identifier name) then local_loop fuel' function ranges rest declarations
                  else if existsb (λ d, bool_decide (local_name_range d = (start name, end_ name))) declarations
                  then local_loop fuel' function ranges after declarations
                  else
                    let limit := scope_end ranges (fn_body_range function) t in
                    match semicolon_before limit after with
                    | None => local_loop fuel' function ranges after declarations
                    | Some visible_from =>
                        declaration ← declare (fn_name function) (visible_from, limit) name;
                        local_loop fuel' function ranges after (declarations ++ [declaration])
                    end
              end
      end
  end.

(** The local variables of a function, after those of the functions before. *)
Definition function_locals (tokens : list Token) (declarations : list ParsedLocalDeclaration)
    (function : ParsedFunctionSignature) : option (list ParsedLocalDeclaration) :=
  let body := fn_body_range function in
  loop_ranges ← for_scope_ranges tokens body;
  found ← foreach_local_declarations tokens function;
  local_loop (S (length tokens)) function (lexical_scope_ranges tokens body ++ loop_ranges)
    (tokens_from body.1 tokens) (declarations ++ found).

(** [dedup_by_key]: of equal neighbours, the first. *)
Fixpoint dedup_by {A K} `{EqDecision K} (key : A → K) (previous : option K) (l : list A) : list A :=
  match l with
  | [] => []
  | x :: rest =>
      if bool_decide (previous = Some (key x)) then dedup_by key previous rest
      else x :: dedup_by key (Some (key x)) rest
  end.

Definition name_start_le (a b : ParsedLocalDeclaration) : bool := ((local_name_range a).1 <=? (local_name_range b).1)%nat.

Definition parse_local_declarations : Parse (list ParsedLocalDeclaration) str :=
  parse! tokens := lex_text source in
  parse! functions := parse_top_level_functions source in
  declarations ← foldl (λ acc f, declarations ← acc; function_locals tokens declarations f) (Some []) functions;
  Some (Ok (dedup_by local_name_range None (sort_by name_start_le declarations))).

(** The declared type of a local variable, when there is one. *)
Definition local_binding (tokens : list Token) (d : ParsedLocalDeclaration) : Parse (option ParsedLocalBinding) str :=
  match list_find (λ t, start t = (local_name_range d).1) tokens with
  | None => Some (Ok None)
  | Some (name_index, _) =>
      match drop (S name_index) tokens with
      | colon :: rest =>
          if is_kind Colon colon then
            parse! (type_name, _) := parse_type_name source rest in
            Some (Ok (Some (mkBinding (local_function_name d) (local_name d) (local_name_range d) type_name
                              (local_visibility_range d))))
          else Some (Ok None)
      | [] => Some (Ok None)
      end
  end.

(** The loop of [parse_typed_local_bindings]. *)
Fixpoint binding_loop (tokens : list Token) (declarations : list ParsedLocalDeclaration) (bindings : list ParsedLocalBinding) :
    Parse (list ParsedLocalBinding) str :=
  match declarations with
  | [] => Some (Ok bindings)
  | d :: rest =>
      parse! binding := local_binding tokens d in
      binding_loop tokens rest (bindings ++ option_list binding)
  end.

Definition binding_key (b : ParsedLocalBinding) : str * (str * (str * (nat * nat))) :=
  (binding_function_name b, (binding_name b, (binding_type_name b, binding_visibility_range b))).

Definition binding_le (a b : ParsedLocalBinding) : bool :=
  match cmp (binding_key a) (binding_key b) with Gt => false | _ => true end.

Definition parse_typed_local_bindings : Parse (list ParsedLocalBinding) str :=
  parse! tokens := lex_text source in
  parse! declarations := parse_local_declarations in
  parse! bindings := binding_loop tokens declarations [] in
  Some (Ok (dedup_by id None (sort_by binding_le bindings))).

(** ** The type expected at a cursor *)

(** The tokens after the last colon before [cursor]. *)
Fixpoint after_last_colon (cursor : nat) (tokens : list Token) (found : option (list Token)) : option (list Token) :=
  match tokens with
  | [] => found
  | t :: rest =>
      if (start t <? cursor)%nat then after_last_colon cursor rest (if is_kind Colon t then Some rest else found)
      else found
  end.

(** Some token before [cursor] is an equals sign. *)
Fixpoint assigned_before (cursor : nat) (tokens : list Token) : option bool :=
  match tokens with
  | [] => Some false
  | t :: rest =>
      if (start t <? cursor)%nat then
        if is_kind Other t then
          text ← token_text source t;
          if bool_decide (text = [ASSIGN]) then Some true else assigned_before cursor rest
        else assigned_before cursor rest
      else Some false
  end.

Definition completion_expected_type (cursor : nat) : Parse (option str) str :=
  let cursor := Nat.min cursor (length source) in
  parse! tokens := lex_text source in
  match after_last_colon cursor tokens None with
  | None => Some (Ok None)
  | Some after =>
      parse! (type_name, rest) := parse_type_name source after in
      has_assignment ← assigned_before cursor rest;
      Some (Ok (if has_assignment : bool then Some type_name else None))
  end.

(** ** Angle brackets *)

(** The text of the token is one of these characters. *)
Definition text_in (characters : list Z) (t : Token) : option bool :=
  text ← token_text source t; Some (bool_decide (text ∈ (λ c, [c]) <$> characters)).

(** [matching_angle_token]: the tokens inside and the tokens after. *)
Fixpoint matching_angle (depth : nat) (inner tokens : list Token) : option (option (list Token * Token * list Token)) :=
  match tokens with
  | [] => Some None
  | t :: rest =>
      if token_is_other_char source t LESS then matching_angle (S depth) (inner ++ [t]) rest
      else if token_is_other_char source t GREATER then
        match depth with
        | O => Some None
        | S O => Some (Some (tail inner, t, rest))
        | S depth => matching_angle depth (inner ++ [t]) rest
        end
      else
        stops ← if (0 <? depth)%nat then text_in [123; 125; 40; 41; 59] t else Some false;
        if stops : bool then Some None else matching_angle depth (inner ++ [t]) rest
  end.

Definition matching_angle_token (tokens : list Token) : option (option (list Token * Token * list Token)) :=
  matching_angle 0 [] tokens.

(** The loop of [generic_parameter_group] over the tokens inside. *)
Fixpoint parameter_group (depth : nat) (has_parameter : bool) (inner : list Token) : option bool :=
  match inner with
  | [] => Some has_parameter
  | t :: rest =>
      if token_is_other_char source t LESS then parameter_group (S depth) has_parameter rest
      else if token_is_other_char source t GREATER then parameter_group (depth - 1) has_parameter rest
      else
        colon ← if (depth =? 0)%nat then text_in [COLON] t else Some false;
        parameter_group depth (has_parameter || colon) rest
  end.

(** The tokens before, the nearest first, say that a type starts. *)
Fixpoint generic_type_context (before : list Token) : option bool :=
  match before with
  | [] => Some false
  | t :: rest =>
      colon ← text_in [COLON] t;
      if colon : bool then Some true
      else
        stops ← text_in [59; 123; 125; 40; 41; 61] t;
        if stops : bool then Some false
        else if is_kind FunctionKw t then Some false
        else generic_type_context rest
  end.

(** The two tokens before are colons. *)
Definition after_colons (before : list Token) : option bool :=
  match before with
  | previous :: second :: _ =>
      colon ← text_in [COLON] previous;
      if colon : bool then text_in [COLON] second else Some false
  | _ => Some false
  end.

Definition looks_like_generic_open (before tokens : list Token) : option bool :=
  explicit ← after_colons before;
  if explicit : bool then Some true
  else
    found ← matching_angle_token tokens;
    match found with
    | None => Some false
    | Some (inner, _, after) =>
        group ← parameter_group 0 false inner;
        if group : bool then Some true
        else
          match before with
          | [] => Some false
          | previous :: _ =>
              let is_ c := token_is_other_char source previous c in
              if is_ LESS || is_ 44 || is_ GREATER then Some true
              else if negb (is_kind Identifier previous) && negb (is_ GREATER) then Some false
              else
                terminated ← match after with
                             | [] => Some true
                             | t :: _ => text_in [91; 46; 44; 59; 41; 125; 61; 62] t
                             end;
                if terminated : bool then generic_type_context before else Some false
          end
    end.

(** The loop of [generic_angle_ranges]. *)
Fixpoint angle_ranges (before tokens : list Token) (generic : list (nat * nat)) : option (list (nat * nat)) :=
  match tokens with
  | [] => Some generic
  | t :: rest =>
      opens ← if token_is_other_char source t LESS then looks_like_generic_open before tokens else Some false;
      found ← if opens : bool then matching_angle_token tokens else Some None;
      angle_ranges (t :: before) rest
        (match found with
         | Some (_, close, _) => generic ++ [(start t, end_ t); (start close, end_ close)]
         | None => generic
         end)
  end.

Definition generic_angle_ranges : Parse (list (nat * nat)) str :=
  parse! tokens := lex_text source in
  succeed (angle_ranges [] tokens []).
End passes.
