(* ===== verification/ParserProps.v ===== *)
(** * The declaration parser: functions in a source

    What the passes over functions accept: the tokens of a signature, and how the tokens of
    a source divide into functions. *)

From S2P Require Import Prelude Lexer Identity Text Imports ImportsProps ParserTokens ParserFunctions.
#[local] Open Scope Z_scope.
#[local] Set Warnings "-clear-no-such-hyp".

Lemma is_kind_spec k t : is_kind k t = true ↔ kind t = k.
Proof. unfold is_kind. apply bool_decide_eq_true. Qed.

Lemma expect_Ok ts k t rest : expect ts k = Ok (t, rest) → ts = t :: rest ∧ kind t = k.
Proof. unfold expect. destruct ts as [|u ts]; [done|]. destruct (is_kind k u) eqn:E; [|done]. apply is_kind_spec in E. by intros [= -> ->]. Qed.

Lemma next_kind_spec k ts : next_kind k ts = true → ∃ t, ts = t :: tail ts ∧ kind t = k.
Proof. destruct ts as [|t ts]; [done|]. intros H%is_kind_spec. by exists t. Qed.

Lemma other_char_kind source t b : token_is_other_char source t b = true → kind t = Other.
Proof. unfold token_is_other_char. by intros [[H%is_kind_spec _]%andb_true_iff _]%andb_true_iff. Qed.

(** ** The grammar of signatures *)

Section grammar.
Context (source : str).

(** An identifier with this text. *)
Definition word (t : Token) (text : str) : Prop := kind t = Identifier ∧ token_text source t = Some text.

(** The tokens of a type, whose name is the source from the first to the last. *)
Definition type_tokens (used : list Token) (text : str) : Prop :=
  ∃ base rest, used = base :: rest ∧ kind base = Identifier
    ∧ str_slice source (start base) (end_ (default base (last rest))) = Some text.

Definition generic_kind (text : str) (k : ParsedGenericParameterKind) : Prop :=
  text = string_bytes (match k with GenericType => "type" | GenericI32 => "i32" end).

(** The generic parameters after their opening angle. *)
Inductive generic_list : list Token → list ParsedGenericParameter → Prop :=
| generic_last name colon k close text p :
    word name (gp_name p) → kind colon = Colon → word k text → generic_kind text (gp_kind p) →
    token_is_other_char source close GREATER = true → generic_list [name; colon; k; close] [p]
| generic_more name colon k comma text p used ps :
    word name (gp_name p) → kind colon = Colon → word k text → generic_kind text (gp_kind p) → kind comma = Comma →
    generic_list used ps → generic_list (name :: colon :: k :: comma :: used) (p :: ps).

Definition generic_tokens (used : list Token) (ps : list ParsedGenericParameter) : Prop :=
  used = [] ∧ ps = []
  ∨ ∃ open used', used = open :: used' ∧ token_is_other_char source open LESS = true ∧ generic_list used' ps
      ∧ NoDup (gp_name <$> ps).

(** The parameters; a comma may follow each. *)
Inductive parameter_tokens : list Token → list ParsedParam → Prop :=
| parameters_nil : parameter_tokens [] []
| parameters_cons name colon type_used comma used p ps :
    word name (param_name p) → kind colon = Colon → type_tokens type_used (param_type_name p) →
    comma = [] ∨ (∃ t, comma = [t] ∧ kind t = Comma) → parameter_tokens used ps →
    parameter_tokens (name :: colon :: type_used ++ comma ++ used) (p :: ps).

(** Annotations: a name each, and parentheses that close where they should. *)
Inductive annotation_tokens : list Token → list ParsedFunctionAnnotation → Prop :=
| annotations_nil : annotation_tokens [] []
| annotation_bare at_ name used a anns :
    token_is_other_char source at_ AT = true → word name (ann_name a) → ann_has_parentheses a = false →
    ann_arguments a = [] → annotation_tokens used anns → annotation_tokens (at_ :: name :: used) (a :: anns)
| annotation_parens at_ name open inner close used a anns :
    token_is_other_char source at_ AT = true → word name (ann_name a) → ann_has_parentheses a = true →
    kind open = LParen → kind close = RParen → paren_tokens 1 [] (inner ++ [close]) = Ok (inner, []) →
    annotation_tokens used anns →
    annotation_tokens (at_ :: name :: open :: inner ++ close :: used) (a :: anns).

Definition return_tokens (used : list Token) (text : str) : Prop :=
  used = [] ∧ text = string_bytes "void"
  ∨ ∃ colon used', used = colon :: used' ∧ kind colon = Colon ∧ type_tokens used' text.

(** The tokens of a signature after the function token. *)
Definition signature_tokens (used : list Token) (s : Signature) : Prop :=
  ∃ anns name generics lparen params rparen ret,
    used = anns ++ name :: generics ++ lparen :: params ++ rparen :: ret
    ∧ annotation_tokens anns (sig_annotations s)
    ∧ word name (sig_name s) ∧ sig_name_range s = (start name, end_ name)
    ∧ generic_tokens generics (sig_generics s)
    ∧ kind lparen = LParen ∧ parameter_tokens params (sig_params s) ∧ kind rparen = RParen
    ∧ return_tokens ret (sig_return s)
    ∧ ∀ g p, g ∈ sig_generics s → p ∈ sig_params s → gp_name g ≠ param_name p.

(** ** What the parsers accept *)

Lemma expect_name_Ok ts name rest :
  expect_name source ts = Some (Ok (name, rest)) → ∃ t, ts = t :: rest ∧ word t name.
Proof.
  unfold expect_name. intros H. bind_step H x Hx. destruct x as [t r]. injection Hx as [-> Hk]%expect_Ok.
  bind_step H text Ht. injection H as <- <-. exists t. split; [done|]. split; [done|].
  by eapply succeed_Ok.
Qed.

Lemma segment_loop_Ok : ∀ ts last_ e rest,
  segment_loop source last_ ts = Ok (e, rest) → ∃ used, ts = used ++ rest ∧ e = default last_ (end_ <$> last used).
Proof.
  intros ts. induction ts as [ts IH] using (induction_ltof1 _ length). intros last_ e rest. destruct ts as [|t ts]; cbn [segment_loop].
  { intros [= <- <-]. by exists []. }
  destruct (token_is_other_char source t PERIOD); [|intros [= <- <-]; by exists []].
  destruct ts as [|s ts]; [done|]. destruct (is_kind Identifier s); [|done].
  intros (used & -> & ->)%IH; [|unfold ltof; simpl; lia]. exists (t :: s :: used). split; [done|]. rewrite !last_cons. by destruct (last used).
Qed.

Lemma angle_loop_Ok ts : ∀ depth paren e rest,
  angle_loop source depth paren ts = Ok (e, rest) → ∃ used t, ts = used ++ t :: rest ∧ e = end_ t.
Proof.
  induction ts as [|t ts IH]; intros depth paren e rest; [done|]. cbn [angle_loop].
  assert (∀ d p, angle_loop source d p ts = Ok (e, rest) → ∃ used u, t :: ts = used ++ u :: rest ∧ e = end_ u) as Hnext.
  { intros d p (used & u & -> & ->)%IH. by exists (t :: used), u. }
  destruct (kind t); try done; try apply Hnext.
  all: destruct (paren =? 0)%nat; [|apply Hnext]; destruct (token_is_other_char source t LESS); [apply Hnext|].
  all: destruct (token_is_other_char source t GREATER); [|apply Hnext]; destruct (depth - 1 =? 0)%nat; [|apply Hnext].
  all: intros [= <- <-]; by exists [], t.
Qed.

Lemma bracket_loop_Ok ts : ∀ depth last_ e rest,
  bracket_loop source depth last_ ts = Ok (e, rest) →
  ∃ used, ts = used ++ rest ∧ e = default last_ (end_ <$> last used) ∧ (depth ≠ 0%nat → used ≠ []).
Proof.
  induction ts as [|t ts IH]; intros depth last_ e rest; cbn [bracket_loop].
  { destruct (depth =? 0)%nat eqn:E; [|done]. apply Nat.eqb_eq in E as ->. intros [= <- <-]. by exists []. }
  assert (∀ d, d ≠ 0%nat → bracket_loop source d last_ ts = Ok (e, rest) →
    ∃ used, t :: ts = used ++ rest ∧ e = default last_ (end_ <$> last used) ∧ (depth ≠ 0%nat → used ≠ [])) as Hnext.
  { intros d Hd (used & -> & -> & Hu)%IH. exists (t :: used). split; [done|]. split; [|done]. rewrite last_cons. destruct used; [by destruct Hu|]. rewrite last_cons. by destruct (last used). }
  destruct (Nat.eqb_spec depth 0) as [->|Hd].
  { destruct (token_is_other_char source t BRACKET_OPEN); [by apply Hnext|]. intros [= <- <-]. by exists []. }
  destruct (token_is_other_char source t BRACKET_OPEN); [by apply Hnext|].
  destruct (token_is_other_char source t BRACKET_CLOSE).
  - destruct (Nat.eqb_spec depth 1) as [->|]; [|apply Hnext; lia].
    intros (used & -> & -> & _)%IH. exists (t :: used). split; [done|]. split; [|done]. rewrite last_cons. by destruct (last used).
  - destruct (is_kind Eof t); [done|]. by apply Hnext.
Qed.

(** The arguments of a type, when it has some. *)
Lemma angle_part_Ok base u1 r1 e2 r2 :
  match r1 with
  | t :: rest' =>
      if token_is_other_char source t LESS then angle_loop source 1 0 rest' else Ok (default (end_ base) (end_ <$> last u1), r1)
  | [] => Ok (default (end_ base) (end_ <$> last u1), r1)
  end = Ok (e2, r2) → ∃ u2, r1 = u2 ++ r2 ∧ e2 = default (end_ base) (end_ <$> last (u1 ++ u2)).
Proof.
  destruct r1 as [|t r1]; [intros [= <- <-]; exists []; by rewrite (app_nil_r u1)|].
  destruct (token_is_other_char source t LESS); [|intros [= <- <-]; exists []; by rewrite (app_nil_r u1)].
  intros (u & c & -> & ->)%angle_loop_Ok. exists (t :: u ++ [c]). split; [by cbn; rewrite <- app_assoc|].
  by rewrite (app_comm_cons u [c] t), app_assoc, last_snoc.
Qed.

Lemma parse_type_name_Ok ts text rest :
  parse_type_name source ts = Some (Ok (text, rest)) → ∃ used, ts = used ++ rest ∧ type_tokens used text.
Proof.
  unfold parse_type_name. intros H. bind_step H x Hx. destruct x as [base r0]. injection Hx as [-> Hk]%expect_Ok.
  bind_step H x Hx. destruct x as [e1 r1]. injection Hx as (u1 & -> & ->)%segment_loop_Ok.
  bind_step H x Hx. destruct x as [e2 r2]. injection Hx as Hx.
  apply angle_part_Ok in Hx as (u2 & -> & ->).
  bind_step H x Hx. destruct x as [e3 r3]. injection Hx as (u3 & -> & -> & _)%bracket_loop_Ok.
  bind_step H name Hn. injection H as <- <-. exists (base :: (u1 ++ u2) ++ u3).
  split; [by cbn; rewrite <- !app_assoc|]. exists base, ((u1 ++ u2) ++ u3). split; [done|]. split; [done|].
  apply succeed_Ok in Hn. rewrite <- Hn. f_equal.
  rewrite !last_app. by destruct (last u3), (last u2), (last u1).
Qed.

Lemma generic_parameter_loop_Ok fuel : ∀ ts params ps rest,
  generic_parameter_loop fuel source ts params = Some (Ok (ps, rest)) →
  ∃ used new, ts = used ++ rest ∧ ps = params ++ new ∧ generic_list used new
    ∧ (NoDup (gp_name <$> params) → NoDup (gp_name <$> ps)).
Proof.
  induction fuel as [|fuel IH]; intros ts params ps rest H; [done|]. cbn [generic_parameter_loop] in H.
  bind_step H x Hx. destruct x as [name r0]. apply expect_name_Ok in Hx as (tn & -> & Hn).
  bind_step H x Hx. destruct x as [colon r1]. injection Hx as [-> Hc]%expect_Ok.
  bind_step H x Hx. destruct x as [text r2]. apply expect_name_Ok in Hx as (tk & -> & Hk).
  bind_step H k Hx. injection Hx as Hx. assert (generic_kind text k) as Hkind.
  { case_bool_decide as E1; [by injection Hx as <-|]. case_bool_decide as E2; [by injection Hx as <-|done]. }
  destruct (existsb _ params) eqn:Hdup; [done|].
  assert (NoDup (gp_name <$> params) → NoDup (gp_name <$> (params ++ [mkGenericParameter name k]))) as Hnd.
  { intros Hnd. rewrite fmap_app. apply NoDup_app. split; [done|]. split; [|apply NoDup_singleton].
    intros n (p & -> & Hp)%list_elem_of_fmap Hin%list_elem_of_singleton. simpl in Hin.
    assert (existsb (λ p, bool_decide (gp_name p = name)) params = true); [|congruence].
    apply existsb_exists. exists p. split; [by apply list_elem_of_In|by apply bool_decide_eq_true]. }
  destruct r2 as [|t r2]; [done|]. destruct (is_kind Comma t) eqn:Ecomma.
  - apply is_kind_spec in Ecomma. apply IH in H as (used & new & -> & -> & Hl & Hn').
    exists (tn :: colon :: tk :: t :: used), (mkGenericParameter name k :: new). rewrite <- app_assoc. split_and!; [done..| |].
    + by apply (generic_more tn colon tk t text (mkGenericParameter name k)).
    + intros Hp. rewrite <- app_assoc in Hn'. by apply Hn', Hnd.
  - destruct (token_is_other_char source t GREATER) eqn:Eg; [|done]. injection H as <- <-.
    exists [tn; colon; tk; t], [mkGenericParameter name k]. split_and!; [done..| |done].
    by apply (generic_last tn colon tk t text (mkGenericParameter name k)).
Qed.

Lemma parse_generics_Ok ts ps rest :
  parse_generic_parameter_list source ts = Some (Ok (ps, rest)) → ∃ used, ts = used ++ rest ∧ generic_tokens used ps.
Proof.
  unfold parse_generic_parameter_list. destruct ts as [|open ts]; [intros [= <- <-]; exists []; split; [done|by left]|].
  destruct (token_is_other_char source open LESS) eqn:E; [|intros [= <- <-]; exists []; split; [done|by left]].
  intros (used & new & -> & -> & Hl & Hn)%generic_parameter_loop_Ok. exists (open :: used). split; [done|]. right.
  exists open, used. split_and!; [done..|]. apply Hn. constructor.
Qed.

Lemma paren_tokens_Ok ts : ∀ depth inner i rest,
  paren_tokens depth inner ts = Ok (i, rest) →
  ∃ used close, ts = used ++ close :: rest ∧ i = inner ++ used ∧ kind close = RParen
    ∧ ∀ inner', paren_tokens depth inner' (used ++ [close]) = Ok (inner' ++ used, []).
Proof.
  induction ts as [|t ts IH]; intros depth inner i rest; [done|]. cbn [paren_tokens].
  assert (∀ d, (∀ r inner', paren_tokens depth inner' (t :: r) = paren_tokens d (inner' ++ [t]) r) →
    paren_tokens d (inner ++ [t]) ts = Ok (i, rest) →
    ∃ used close, t :: ts = used ++ close :: rest ∧ i = inner ++ used ∧ kind close = RParen
      ∧ ∀ inner', paren_tokens depth inner' (used ++ [close]) = Ok (inner' ++ used, [])) as Hnext.
  { intros d Hd (used & close & -> & -> & Hk & Hu)%IH. exists (t :: used), close. rewrite <- app_assoc. split_and!; [done..|].
    intros inner'. cbn [app]. by rewrite Hd, Hu, <- app_assoc. }
  destruct (kind t) eqn:Ek; try done.
  all: try (apply Hnext; intros r inner'; cbn [paren_tokens]; by rewrite Ek).
  destruct (depth =? 1)%nat eqn:Ed; [|apply Hnext; intros r inner'; cbn [paren_tokens]; by rewrite Ek, Ed].
  intros [= <- <-]. exists [], t. rewrite !app_nil_r. split_and!; [done..|]. intros inner'. cbn. by rewrite Ek, Ed, app_nil_r.
Qed.

Lemma annotation_parentheses_Ok name ts symbol arguments rest :
  annotation_parentheses source name ts = Some (Ok (symbol, arguments, rest)) →
  ∃ open inner close, ts = open :: inner ++ close :: rest ∧ kind open = LParen ∧ kind close = RParen
    ∧ paren_tokens 1 [] (inner ++ [close]) = Ok (inner, []).
Proof.
  unfold annotation_parentheses. intros H. bind_step H s Hs. bind_step H x Hx. destruct x as [inner r]. injection Hx as Hx.
  unfold skip_parenthesized_tokens in Hx. destruct ts as [|open ts]; [done|]. destruct (is_kind LParen open) eqn:Eo; [|done].
  apply paren_tokens_Ok in Hx as (used & close & -> & -> & Hk & Hu). bind_step H args Hargs. injection H as <- <- <-.
  exists open, used, close. split_and!; [done|by apply is_kind_spec|done|by apply Hu].
Qed.

Lemma annotation_tokens_app u1 a1 u2 a2 :
  annotation_tokens u1 a1 → annotation_tokens u2 a2 → annotation_tokens (u1 ++ u2) (a1 ++ a2).
Proof.
  intros H1 H2. induction H1; [done|by apply annotation_bare|].
  change ((at_ :: name :: open :: inner ++ close :: used) ++ u2) with (at_ :: name :: open :: (inner ++ close :: used) ++ u2).
  rewrite <- app_assoc. cbn [app]. by apply annotation_parens.
Qed.

Lemma annotations_loop_Ok fuel : ∀ ts symbol anns rest symbol' anns',
  annotations_loop fuel source ts symbol anns = Some (Ok (rest, symbol', anns')) →
  ∃ used new, ts = used ++ rest ∧ anns' = anns ++ new ∧ annotation_tokens used new.
Proof.
  induction fuel as [|fuel IH]; intros ts symbol anns rest symbol' anns' H; [done|]. cbn [annotations_loop] in H.
  destruct (next_char source AT ts) eqn:Eat; cbn [negb] in H.
  2:{ injection H as <- <- <-. exists [], []. rewrite app_nil_r. split_and!; [done..|constructor]. }
  destruct ts as [|at_ ts]; [done|]. cbn [next_char tail] in *. bind_step H x Hx. destruct x as [name r0].
  apply expect_name_Ok in Hx as (tn & -> & Hn). destruct (next_kind LParen r0).
  - bind_step H x Hx. destruct x as [[s args] r1]. apply annotation_parentheses_Ok in Hx as (open & inner & close & -> & Ho & Hc & Hp).
    apply IH in H as (used & new & -> & -> & Ha). exists (at_ :: tn :: open :: inner ++ close :: used), (mkAnnotation name true args :: new).
    rewrite <- app_assoc. split_and!; [by cbn; rewrite <- app_assoc|done|]. by apply annotation_parens.
  - apply IH in H as (used & new & -> & -> & Ha). exists (at_ :: tn :: used), (mkAnnotation name false [] :: new).
    rewrite <- app_assoc. split_and!; [done..|]. by apply annotation_bare.
Qed.

Lemma parse_annotations_Ok ts rest symbol anns :
  parse_function_annotations source ts = Some (Ok (rest, symbol, anns)) → ∃ used, ts = used ++ rest ∧ annotation_tokens used anns.
Proof. intros (used & new & -> & -> & Ha)%annotations_loop_Ok. by exists used. Qed.

Lemma located_Ok {A} ts name (m : Parse A str) x : located ts name m = Some (Ok x) → m = Some (Ok x).
Proof. unfold located. destruct m as [[y|e]|]; simpl; [by intros [= ->]|done..]. Qed.

Lemma parameter_loop_Ok fuel name : ∀ ts params ps rest,
  parameter_loop fuel source name ts params = Some (Ok (ps, rest)) →
  ∃ used new, ts = used ++ rest ∧ ps = params ++ new ∧ parameter_tokens used new.
Proof.
  induction fuel as [|fuel IH]; intros ts params ps rest H; [done|]. cbn [parameter_loop] in H.
  destruct ts as [|t ts]; [injection H as <- <-; exists [], []; rewrite (app_nil_r params); split_and!; [done..|constructor]|].
  destruct (is_kind RParen t); [injection H as <- <-; exists [], []; rewrite (app_nil_r params); split_and!; [done..|constructor]|].
  bind_step H x Hx. destruct x as [param r0]. apply located_Ok, expect_name_Ok in Hx as (tn & Hts & Hn). injection Hts as -> ->.
  bind_step H x Hx. destruct x as [colon r1]. apply located_Ok in Hx. injection Hx as [-> Hc]%expect_Ok.
  bind_step H x Hx. destruct x as [ty r2]. apply located_Ok, parse_type_name_Ok in Hx as (used_ty & -> & Hty). cbv zeta in H.
  apply IH in H as (used & new & Hr & -> & Hp).
  assert (∃ comma, r2 = comma ++ used ++ rest ∧ (comma = [] ∨ ∃ t, comma = [t] ∧ kind t = Comma)) as (comma & -> & Hcomma).
  { destruct (next_kind Comma r2) eqn:Ec; [|exists []; split; [done|by left]].
    apply next_kind_spec in Ec as (c & -> & Hk). cbn [tail] in Hr. exists [c]. rewrite Hr. split; [done|]. right. by exists c. }
  exists (tn :: colon :: used_ty ++ comma ++ used), (mkParam param ty :: new). rewrite <- app_assoc.
  split_and!; [by cbn; rewrite <- !app_assoc|done|]. by apply (parameters_cons tn colon used_ty comma used (mkParam param ty)).
Qed.

Lemma parse_signature_Ok ts s rest :
  parse_signature source ts = Some (Ok (s, rest)) → ∃ used, ts = used ++ rest ∧ signature_tokens used s.
Proof.
  unfold parse_signature. intros H.
  bind_step H x Hx. destruct x as [[r0 symbol] anns]. apply located_Ok, parse_annotations_Ok in Hx as (u_anns & -> & Ha).
  bind_step H x Hx. destruct x as [tn r1]. apply located_Ok in Hx. injection Hx as [-> Hk]%expect_Ok.
  bind_step H name Hn. apply succeed_Ok in Hn.
  bind_step H x Hx. destruct x as [generics r2]. apply located_Ok, parse_generics_Ok in Hx as (u_gen & -> & Hg).
  bind_step H x Hx. destruct x as [lp r3]. apply located_Ok in Hx. injection Hx as [-> Hlp]%expect_Ok.
  bind_step H x Hx. destruct x as [params r4]. apply parameter_loop_Ok in Hx as (u_par & new & -> & -> & Hp).
  bind_step H x Hx. destruct x as [rp r5]. apply located_Ok in Hx. injection Hx as [-> Hrp]%expect_Ok.
  destruct (parameter_conflict generics ([] ++ new)) as [conflict|] eqn:Hcf; [done|].
  bind_step H x Hx. destruct x as [ty r6]. injection H as <- <-.
  assert (∃ u_ret, r5 = u_ret ++ r6 ∧ return_tokens u_ret ty) as (u_ret & -> & Hret).
  { destruct (next_kind Colon r5) eqn:Ec; [|injection Hx as <- <-; exists []; split; [done|by left]].
    apply next_kind_spec in Ec as (c & Er & Hc). apply located_Ok, parse_type_name_Ok in Hx as (u & Hu & Hty). rewrite Er, Hu.
    exists (c :: u). split; [done|]. right. by exists c, u. }
  exists (u_anns ++ tn :: u_gen ++ lp :: u_par ++ rp :: u_ret).
  split; [by rewrite <- !app_assoc; cbn; rewrite <- !app_assoc; cbn; rewrite <- !app_assoc|].
  exists u_anns, tn, u_gen, lp, u_par, rp, u_ret. split_and!; try done. cbn [sig_generics sig_params].
  intros g p Hgin Hpin Heq. unfold parameter_conflict in Hcf. apply fmap_None in Hcf.
  apply list_elem_of_In in Hgin, Hpin. pose proof (List.find_none _ _ Hcf _ Hgin) as Hnone. cbn in Hnone.
  assert (existsb (λ p, bool_decide (param_name p = gp_name g)) new = true) as Hex; [|rewrite Hex in Hnone; done].
  apply existsb_exists. exists p. split; [done|by apply bool_decide_eq_true].
Qed.
End grammar.

(** ** How a source divides *)

(** Tokens whose braces match. *)
Inductive balanced : list Token → Prop :=
| balanced_nil : balanced []
| balanced_token t ts : kind t ≠ LBrace → kind t ≠ RBrace → kind t ≠ Eof → balanced ts → balanced (t :: ts)
| balanced_block open inner close ts :
    kind open = LBrace → balanced inner → kind close = RBrace → balanced ts → balanced (open :: inner ++ close :: ts).

Lemma balanced_app ts us : balanced ts → balanced us → balanced (ts ++ us).
Proof.
  intros Ht Hu. induction Ht; [done|by apply balanced_token|]. cbn [app]. rewrite <- app_assoc. by apply balanced_block.
Qed.

(** A brace matches at the first end of a block, whatever is around it. *)
Lemma find_matching_balanced n : ∀ ts depth close rest,
  (length ts ≤ n)%nat → find_matching_rbrace ts (S depth) = Ok (close, rest) →
  ∃ inner c after, ts = inner ++ c :: after ∧ balanced inner ∧ kind c = RBrace
    ∧ match depth with O => c = close ∧ after = rest | S _ => find_matching_rbrace after depth = Ok (close, rest) end.
Proof.
  induction n as [|n IH]; intros [|t ts] depth close rest Hn; try done; simpl in Hn; [lia|].
  cbn [find_matching_rbrace].
  assert (kind t ≠ LBrace → kind t ≠ RBrace → kind t ≠ Eof → find_matching_rbrace ts (S depth) = Ok (close, rest) →
    ∃ inner c after, t :: ts = inner ++ c :: after ∧ balanced inner ∧ kind c = RBrace
      ∧ match depth with O => c = close ∧ after = rest | S _ => find_matching_rbrace after depth = Ok (close, rest) end) as Hplain.
  { intros ??? (inner & c & after & -> & ? & ? & ?)%IH; [|lia]. exists (t :: inner), c, after. split_and!; [done|by apply balanced_token|done..]. }
  destruct (kind t) eqn:Hk; try done; try (by apply Hplain).
  - intros (i1 & c1 & a1 & -> & Hb1 & Hc1 & H1)%IH; [|lia].
    rewrite length_app in Hn. simpl in Hn. apply IH in H1 as (i2 & c2 & a2 & -> & Hb2 & Hc2 & H2); [|lia].
    exists (t :: i1 ++ c1 :: i2), c2, a2. split_and!; [by cbn; rewrite <- app_assoc|by apply balanced_block|done..].
  - simpl. destruct depth as [|depth]; simpl; intros H; [injection H as <- <-|];
      exists [], t, ts; (split; [done|split; [constructor|done]]).
Qed.

Lemma find_matching_block ts close rest :
  find_matching_rbrace ts 1 = Ok (close, rest) → ∃ body, ts = body ++ close :: rest ∧ balanced body ∧ kind close = RBrace.
Proof. intros (b & c & a & -> & Hb & Hc & -> & ->)%(find_matching_balanced (length ts)); [|lia]. by exists b. Qed.

Section division.
Context (source : str) (include_declarations : bool).

(** Annotations and the function token after them. *)
Definition starts_function (lead : list Token) (anns : list ParsedFunctionAnnotation) (kw : Token) : Prop :=
  annotation_tokens source lead anns ∧ kind kw = FunctionKw.

Definition function_of (lead : list Token) (anns : list ParsedFunctionAnnotation) (kw : Token) (s : Signature) (until : nat)
    (body : nat * nat) : ParsedFunctionSignature :=
  mkSignature (sig_name s) (sig_generics s) (anns ++ sig_annotations s) (sig_params s) (sig_return s)
    (start (default kw (head lead)), until) body.

(** Functions with a body, functions without one, and any other token. *)
Inductive divides : list Token → list ParsedFunctionSignature → Prop :=
| divides_end : divides [] []
| divides_token t ts fs :
    kind t ≠ FunctionKw → (∀ lead anns kw rest, starts_function lead anns kw → t :: ts ≠ lead ++ kw :: rest) →
    divides ts fs → divides (t :: ts) fs
| divides_function lead anns kw used s open body close ts fs :
    starts_function lead anns kw → signature_tokens source used s →
    kind open = LBrace → balanced body → kind close = RBrace → divides ts fs →
    divides (lead ++ kw :: used ++ open :: body ++ close :: ts)
      (function_of lead anns kw s (start open) (start open, end_ close) :: fs)
| divides_declaration lead anns kw used s semicolon ts fs :
    starts_function lead anns kw → signature_tokens source used s → kind semicolon = Semicolon → divides ts fs →
    divides (lead ++ kw :: used ++ semicolon :: ts)
      ((if include_declarations
        then [function_of lead anns kw s (start semicolon) (end_ semicolon, end_ semicolon)] else []) ++ fs).

Lemma map_error_Ok {A E F} (f : E → option F) (m : Parse A E) x : map_error f m = Some (Ok x) → m = Some (Ok x).
Proof. unfold map_error. destruct m as [[y|e]|]; simpl; [by intros [= ->]|by destruct (f e)|done]. Qed.

(** The parenthesis that closes is the first that can. *)
Lemma paren_tokens_end i : ∀ d acc c r i' acc' c' r' z z',
  paren_tokens d acc (i ++ [c]) = Ok (z, []) → paren_tokens d acc' (i' ++ [c']) = Ok (z', []) →
  i ++ c :: r = i' ++ c' :: r' → r' = r.
Proof.
  induction i as [|t i IH]; intros d acc c r i' acc' c' r' z z' H1 H2 Heq; destruct i' as [|t' i'].
  - by injection Heq.
  - simplify_eq/=. repeat case_match; try done; by destruct i'.
  - simplify_eq/=. repeat case_match; try done; by destruct i.
  - injection Heq as -> Heq. cbn [app paren_tokens] in H1, H2.
    destruct (kind t'); try done; try (by eapply IH). destruct (d =? 1)%nat; [by destruct i|by eapply IH].
Qed.

(** Annotations are read to the function token after them. *)
Lemma annotations_loop_function lead anns kw rest fuel : ∀ symbol acc r symbol' acc',
  annotation_tokens source lead anns → kind kw = FunctionKw →
  annotations_loop fuel source (lead ++ kw :: rest) symbol acc = Some (Ok (r, symbol', acc')) → r = kw :: rest.
Proof.
  intros symbol acc r symbol' acc' Ha Hkw. revert fuel symbol acc.
  assert (∀ b, token_is_other_char source kw b = false) as Hno.
  { intros b. apply not_true_iff_false. intros ?%other_char_kind. congruence. }
  induction Ha as [|at_ name used a anns Hat Hname _ _ Hused IH|at_ name open inner close used a anns Hat Hname _ Hopen Hclose Hparen Hused IH];
    intros [|fuel] symbol acc H; try done; cbn [annotations_loop app next_char] in H.
  - rewrite Hno in H. by injection H.
  - rewrite Hat in H. cbn [negb tail] in H. bind_step H x Hx. destruct x as [n r0].
    apply expect_name_Ok in Hx as (tn & [= <- <-] & _).
    assert (next_kind LParen (used ++ kw :: rest) = false) as Hp.
    { apply not_true_iff_false. intros (u & Hu & Hk)%next_kind_spec.
      destruct Hused as [|? ? ? ? ? Hat2|? ? ? ? ? ? ? ? Hat2]; injection Hu as ->; [congruence|..];
        apply other_char_kind in Hat2; congruence. }
    rewrite Hp in H. by eapply IH.
  - rewrite Hat in H. cbn [negb tail] in H. bind_step H x Hx. destruct x as [n r0].
    apply expect_name_Ok in Hx as (tn & [= <- <-] & _). cbn [next_kind] in H.
    rewrite (proj2 (is_kind_spec LParen open)) in H by done. bind_step H x Hx. destruct x as [[s args] r1].
    apply annotation_parentheses_Ok in Hx as (open' & inner' & close' & Heq & _ & _ & Hparen').
    assert (r1 = used ++ kw :: rest) as ->; [|by eapply IH].
    injection Heq as _ Heq. rewrite <- app_assoc in Heq. cbn [app] in Heq.
    exact (paren_tokens_end _ _ _ _ _ _ _ _ _ _ _ Hparen Hparen' Heq).
Qed.

Lemma leading_annotations_Ok ts signature_start leading rest :
  leading_annotations source ts = Some (Ok (signature_start, leading, rest)) →
  ∃ lead, ts = lead ++ rest ∧ annotation_tokens source lead leading ∧ signature_start = start <$> head lead
    ∧ (lead = [] ∧ (∀ lead' anns kw r, lead' ≠ [] → starts_function lead' anns kw → ts ≠ lead' ++ kw :: r)
       ∨ next_kind FunctionKw rest = true).
Proof.
  unfold leading_annotations. destruct ts as [|t ts].
  { intros [= <- <- <-]. exists []. split_and!; [done|constructor|done|]. left. split; [done|]. by intros [|? ?]. }
  destruct (token_is_other_char source t AT) eqn:Hat.
  2:{ intros [= <- <- <-]. exists []. split_and!; [done|constructor|done|]. left. split; [done|].
      intros lead anns kw r Hl [Ha Hk] Heq. destruct Ha; [done|..]; injection Heq as <- _; congruence. }
  intros H. bind_step H x Hx. destruct x as [[after symbol] parsed]. apply map_error_Ok in Hx as Hann.
  bind_step H is_extern Hext. apply succeed_Ok in Hext.
  destruct (is_extern && next_kind FunctionKw (tail after)); [destruct (contextual_parser_error _ _ _ _ _); simpl in H; done|].
  destruct (next_kind FunctionKw after) eqn:Hkw; injection H as <- <- <-.
  - pose proof Hann as (used & Heq & Ha)%parse_annotations_Ok. exists used. split_and!; [done..| |by right].
    destruct used as [|u used]; [|by injection Heq as <- _].
    cbn [app] in Heq. rewrite <- Heq in Hkw. cbn in Hkw. apply is_kind_spec in Hkw. apply other_char_kind in Hat. congruence.
  - exists []. split_and!; [done|constructor|done|]. left. split; [done|].
    intros lead anns kw r Hl [Ha Hk] Heq. rewrite Heq in Hann.
    apply annotations_loop_function with (anns := anns) in Hann; [|done..]. subst after. cbn in Hkw.
    by rewrite (proj2 (is_kind_spec FunctionKw kw)) in Hkw.
Qed.
Lemma parse_function_Ok total signature_start leading kw ts f rest :
  Forall (λ t, (start t ≤ length source)%nat) ts →
  parse_function source include_declarations total signature_start leading (kw :: ts) = Some (Ok (f, rest)) →
  ∃ used s t, signature_tokens source used s ∧
    let function := mkSignature (sig_name s) (sig_generics s) (leading ++ sig_annotations s) (sig_params s) (sig_return s)
                      (signature_start, start t) in
    (ts = used ++ t :: rest ∧ kind t = Semicolon
      ∧ f = if include_declarations then Some (function (end_ t, end_ t)) else None)
    ∨ ∃ body close, ts = used ++ t :: body ++ close :: rest ∧ kind t = LBrace ∧ balanced body ∧ kind close = RBrace
      ∧ f = Some (function (start t, end_ close)).
Proof.
  intros Hall. unfold parse_function. intros H. bind_step H x Hx. destruct x as [s r].
  apply map_error_Ok, parse_signature_Ok in Hx as (used & Heq & Hs). cbn [tail] in Heq. subst ts.
  apply Forall_app in Hall as [_ Hall].
  destruct r as [|t r]; [destruct (contextual_parser_error _ _ _ _ _); simpl in H; done|].
  exists used, s, t. split; [done|]. cbv zeta. destruct (is_kind Semicolon t) eqn:Hsemi.
  - left. injection H as <- <-. split_and!; [done|by apply is_kind_spec|done].
  - right. bind_step H x Hx. destruct x as [open r1]. apply map_error_Ok in Hx. apply (inj Some), expect_Ok in Hx as [[= -> ->] Hk].
    bind_step H x Hx. destruct x as [close r2]. apply map_error_Ok in Hx. apply (inj Some), find_matching_block in Hx as (body & -> & Hb & Hc).
    injection H as <- <-. exists body, close. apply Forall_cons in Hall as [Hle _]. split_and!; [done..|]. by rewrite Nat.min_l.
Qed.

Lemma functions_loop_Ok total fuel : ∀ ts out fs,
  Forall (λ t, (start t ≤ length source)%nat) ts →
  functions_loop source include_declarations fuel total ts out = Some (Ok fs) → ∃ new, fs = out ++ new ∧ divides ts new.
Proof.
  induction fuel as [|fuel IH]; intros ts out fs Hall H; [done|]. cbn [functions_loop] in H.
  destruct ts as [|t0 ts0]; [injection H as <-; exists []; rewrite app_nil_r; split; [done|constructor]|].
  bind_step H x Hx. destruct x as [[signature_start leading] r].
  apply leading_annotations_Ok in Hx as (lead & Heq & Ha & -> & Hrest). rewrite Heq in Hall.
  destruct r as [|t r]; [done|]. destruct (is_kind FunctionKw t) eqn:Hkw; cbn [negb] in H.
  - apply is_kind_spec in Hkw. bind_step H x Hx. destruct x as [f after]. apply Forall_app in Hall as [_ [_ Hall]%Forall_cons].
    apply parse_function_Ok in Hx as (used & s & u & Hs & Hf); [|done].
    assert (Forall (λ t, (start t ≤ length source)%nat) after) as Hafter.
    { destruct Hf as [(-> & _)|(body & close & -> & _)]; rewrite ?Forall_app, ?Forall_cons, ?Forall_app, ?Forall_cons in Hall; tauto. }
    apply IH in H as (new & -> & Hd); [|done]. rewrite Heq.
    replace (default (start t) (start <$> head lead)) with (start (default t (head lead))) in Hf by (by destruct lead).
    exists (option_list f ++ new). split; [by rewrite app_assoc|].
    destruct Hf as [(-> & Hk & ->)|(body & close & -> & Hk & Hb & Hc & ->)].
    + destruct include_declarations eqn:Hinc; [|]; pose proof (divides_declaration lead leading t used s u after new (conj Ha Hkw) Hs Hk Hd) as Hd';
        rewrite Hinc in Hd'; exact Hd'.
    + by apply divides_function.
  - assert (kind t ≠ FunctionKw) as Hne by (intros Hk%is_kind_spec; congruence).
    destruct Hrest as [[-> Hno]|Hn]; [|by cbn in Hn; rewrite Hkw in Hn]. cbn in Heq. subst ts0 || injection Heq as -> ->.
    apply Forall_cons in Hall as [_ Hall]. apply IH in H as (new & -> & Hd); [|done]. exists new. split; [done|].
    apply divides_token; [done| |done]. intros [|l lead'] anns kw r' Hst Heq'; [|by eapply (Hno (l :: lead'))].
    injection Heq' as -> _. by destruct Hst.
Qed.
End division.

(** Where a function lies. *)
Record range_ok (source : str) (f : ParsedFunctionSignature) : Prop := {
  range_signature : (fst (fn_signature_range f) < snd (fn_signature_range f))%nat;
  range_between : (snd (fn_signature_range f) ≤ fst (fn_body_range f))%nat;
  range_body : (fst (fn_body_range f) ≤ snd (fn_body_range f) ≤ length source)%nat;
}.

(** The tokens of a source are in order and inside it. *)
Record laid_out (source : str) (ts : list Token) : Prop := {
  laid_inside : Forall (λ t, (start t ≤ end_ t ≤ length source)%nat ∧ (kind t ≠ Eof → (start t < end_ t)%nat)) ts;
  laid_sorted : StronglySorted (λ t u, (end_ t ≤ start u)%nat) ts;
}.

Lemma lex_laid_out source ts : lex_with_diagnostic source = Some (Ok ts) → laid_out source ts.
Proof.
  intros (ts' & -> & Hf & Hs)%token_layout. split; [|done]. apply Forall_app. split; [|repeat constructor; simpl; [lia..|done]].
  eapply Forall_impl; [exact Hf|]. intros t [_ ?]. split; [lia|by intros _; lia].
Qed.

Lemma laid_out_app source ts us : laid_out source (ts ++ us) → laid_out source ts ∧ laid_out source us.
Proof.
  intros [Hi Hs]. apply Forall_app in Hi as [? ?]. apply StronglySorted_app in Hs as (_ & ? & ?). by repeat split.
Qed.

Definition apart (f g : ParsedFunctionSignature) : Prop := (snd (fn_body_range f) ≤ fst (fn_signature_range g))%nat.

(** Functions lie where their tokens do, one after the other. *)
Record placed (source : str) (ts : list Token) (fs : list ParsedFunctionSignature) : Prop := {
  placed_ok : Forall (range_ok source) fs;
  placed_after lo : Forall (λ t, (lo ≤ start t)%nat) ts → Forall (λ f, (lo ≤ fst (fn_signature_range f))%nat) fs;
  placed_apart : StronglySorted apart fs;
}.

Lemma placed_cons source pre c ts f fs h :
  laid_out source (pre ++ c :: ts) → h ∈ pre → fst (fn_signature_range f) = start h → range_ok source f →
  snd (fn_body_range f) = end_ c → placed source ts fs → placed source (pre ++ c :: ts) (f :: fs).
Proof.
  intros Hl Hh Hf Hok Hc [Hfs Hlo Hs]. split; [by constructor| |].
  - intros lo Hall. apply Forall_app in Hall as [Hpre [_ Hts]%Forall_cons]. constructor; [|by apply Hlo].
    rewrite Hf. rewrite Forall_forall in Hpre. by apply Hpre.
  - constructor; [done|]. unfold apart. rewrite Hc. apply Hlo.
    destruct Hl as [_ Hl]. apply StronglySorted_app in Hl as (_ & _ & Hl). by apply StronglySorted_inv in Hl as [_ ?].
Qed.

Lemma placed_skip source pre ts fs : placed source ts fs → placed source (pre ++ ts) fs.
Proof. intros [? Hlo ?]. split; [done| |done]. intros lo [_ ?]%Forall_app. by apply Hlo. Qed.

(** Tokens before [u] start before it. *)
Lemma laid_before source pre u post h :
  laid_out source (pre ++ u :: post) → h ∈ pre →
  (start h ≤ start u)%nat ∧ (kind h ≠ Eof → (start h < start u)%nat) ∧ (start u ≤ end_ u ≤ length source)%nat.
Proof.
  intros [Hi Hs] Hh. apply Forall_app in Hi as [Hi [[Hu _] _]%Forall_cons]. rewrite Forall_forall in Hi.
  destruct (Hi h Hh) as [? Hlt]. apply StronglySorted_app in Hs as [Hs _]. specialize (Hs h u Hh (list_elem_of_here _ _)). simpl in Hs.
  split_and!; [lia| |lia..]. intros Hne%Hlt. lia.
Qed.

Lemma starts_function_head source lead anns kw :
  starts_function source lead anns kw → ∃ post, lead ++ [kw] = default kw (head lead) :: post ∧ kind (default kw (head lead)) ≠ Eof.
Proof.
  intros [Ha Hk]. destruct Ha as [|at_ name used a anns Hat|at_ name open inner close used a anns Hat];
    eexists; (split; [reflexivity|]); simpl; [congruence|apply other_char_kind in Hat; congruence..].
Qed.

Lemma divides_placed source include ts fs : laid_out source ts → divides source include ts fs → placed source ts fs.
Proof.
  intros Hl Hd. induction Hd as [|t ts fs _ _ Hd IH
    |lead anns kw used s open body close ts fs Hst Hs Ho Hb Hc Hd IH|lead anns kw used s semi ts fs Hst Hs Hk Hd IH].
  { split; constructor. }
  { apply (laid_out_app _ [t]) in Hl as [_ Hl]. apply (placed_skip _ [t]). by apply IH. }
  all: destruct (starts_function_head _ _ _ _ Hst) as (post & Hpost & Hh).
  all: assert (default kw (head lead) ∈ (lead ++ [kw]) ++ used) as Hin by (rewrite Hpost; set_solver).
  - assert (lead ++ kw :: used ++ open :: body ++ close :: ts = ((lead ++ [kw]) ++ used) ++ open :: body ++ close :: ts) as Heq
      by (by rewrite <- !app_assoc).
    rewrite Heq in *. destruct (laid_before _ _ _ _ _ Hl Hin) as (_ & Hlt & Hou). specialize (Hlt Hh). clear Heq.
    assert (((lead ++ [kw]) ++ used) ++ open :: body ++ close :: ts = (((lead ++ [kw]) ++ used) ++ open :: body) ++ close :: ts) as Heq
      by (by rewrite <- !app_assoc).
    rewrite Heq in *. destruct (laid_before _ _ _ _ open Hl ltac:(set_solver)) as (Hle & _ & Hcl).
    apply (placed_cons _ _ _ _ _ _ (default kw (head lead))); [done|set_solver|done| |done|].
    + split; simpl; lia.
    + apply IH. apply laid_out_app in Hl as [_ Hl]. by apply (laid_out_app _ [close]) in Hl as [_ ?].
  - assert (lead ++ kw :: used ++ semi :: ts = ((lead ++ [kw]) ++ used) ++ semi :: ts) as Heq by (by rewrite <- !app_assoc).
    rewrite Heq in *. destruct (laid_before _ _ _ _ _ Hl Hin) as (_ & Hlt & Hu). specialize (Hlt Hh).
    assert (placed source ts fs) as Hp.
    { apply IH. apply laid_out_app in Hl as [_ Hl]. by apply (laid_out_app _ [semi]) in Hl as [_ ?]. }
    destruct include; [|by rewrite cons_middle, app_assoc; apply placed_skip].
    apply (placed_cons _ _ _ _ _ _ (default kw (head lead))); [done..| |done|done].
    split; simpl; lia.
Qed.

(** C11 What the pass over functions accepts, and where it puts each function: the tokens
    of the source divide into functions with a body, functions without one (returned only
    for their signatures) and other tokens. The annotations of a function are all of those
    before it and after its keyword; a body is the first block whose braces match; no
    generic parameter is repeated or shares a name with a parameter. Each signature ends
    where its body starts or before, each function ends before the next starts, and all lie
    in the source. *)
Theorem functions_partition source include fs :
  parse_top_level_functions_impl source include = Some (Ok fs) →
  ∃ ts, lex_with_diagnostic source = Some (Ok ts) ∧ divides source include ts fs
    ∧ Forall (range_ok source) fs ∧ StronglySorted apart fs.
Proof.
  unfold parse_top_level_functions_impl. intros H. bind_step H ts Hts. apply map_error_Ok in Hts as Hlex.
  apply lex_laid_out in Hlex as Hl. exists ts. split; [done|].
  apply functions_loop_Ok in H as (new & -> & Hd); [|eapply Forall_impl; [apply Hl|]; simpl; intros; lia].
  destruct (divides_placed _ _ _ _ Hl Hd). by split_and!.
Qed.

Definition two_functions : str :=
  string_bytes "@effects(pure) function id<T: type>(x: T): T { if x { } return x; } enum E { A } function main(); ".

Lemma functions_partition_witness :
  ∃ f g ts, parse_top_level_functions_impl two_functions true = Some (Ok [f; g])
    ∧ fn_body_range f = (45, 67)%nat ∧ divides two_functions true ts [f; g] ∧ apart f g.
Proof.
  destruct (parse_top_level_functions_impl two_functions true) as [[fs|]|] eqn:E; [|vm_compute in E; discriminate E..].
  destruct (functions_partition two_functions true fs E) as (ts & _ & Hd & _ & Hs). vm_compute in E. injection E as <-.
  do 2 eexists. exists ts. split; [reflexivity|]. split; [reflexivity|]. split; [exact Hd|].
  apply StronglySorted_inv in Hs as [_ Hs]. by apply Forall_cons in Hs as [? _].
Defined.
