(* ===== verification/ParserTotal.v ===== *)
(** * The declaration parser: the passes always answer

    A weakest precondition for parsers, [answers m Q]: the parser [m] neither panics nor
    runs out of fuel, and what it accepts satisfies [Q].  With it, every pass over the
    tokens of a source answers, when the source can be sliced at its tokens. *)

From S2P Require Import Prelude Documents DocumentsProps Lexer Identity Text Imports ImportsProps ParserTokens ParserFunctions.
From S2P Require Import ParserLayout ParserLocals ParserProps.
#[local] Open Scope Z_scope.
#[local] Set Warnings "-clear-no-such-hyp".

(** ** Answers *)

Definition answers {A E} (m : Parse A E) (Q : A → Prop) : Prop := ∃ r, m = Some r ∧ ∀ x, r = Ok x → Q x.

Lemma answers_ret {A E} (r : Result A E) (Q : A → Prop) : (∀ x, r = Ok x → Q x) → answers (Some r) Q.
Proof. intros H. by exists r. Qed.

Lemma answers_ok {A E} (x : A) (Q : A → Prop) : Q x → answers (Some (Ok x : Result A E)) Q.
Proof. intros H. apply answers_ret. by intros y [= <-]. Qed.

Lemma answers_refuse {A E} (e : E) (Q : A → Prop) : answers (refuse e) Q.
Proof. by apply answers_ret. Qed.

Lemma answers_then {A B E} (m : Parse A E) (k : A → Parse B E) (Q : A → Prop) (R : B → Prop) :
  answers m Q → (∀ x, Q x → answers (k x) R) → answers (parse_bind m k) R.
Proof. intros (r & -> & HQ) Hk. destruct r as [x|e]; simpl; [by apply Hk, HQ|by apply answers_refuse]. Qed.

Lemma answers_let {A B E} (r : Result A E) (k : A → Parse B E) (R : B → Prop) :
  (∀ x, r = Ok x → answers (k x) R) → answers (parse_bind (Some r) k) R.
Proof. intros H. apply (answers_then _ _ (λ x, r = Ok x)); [by apply answers_ret|done]. Qed.

Lemma answers_mono {A E} (m : Parse A E) (Q R : A → Prop) : answers m Q → (∀ x, Q x → R x) → answers m R.
Proof. intros (r & -> & HQ) Hk. exists r. eauto. Qed.

Lemma answers_intro {A E} (m : Parse A E) (Q : A → Prop) :
  is_Some m → (∀ x, m = Some (Ok x) → Q x) → answers m Q.
Proof. intros [r ->] H. exists r. split; [done|]. by intros x ->; apply H. Qed.

Lemma answers_succeed {A E} (m : option A) (Q : A → Prop) : is_Some m → (∀ x, m = Some x → Q x) → answers (@succeed A E m) Q.
Proof. intros [x ->] H. apply answers_ok. by apply H. Qed.

Lemma answers_some {A E} (m : Parse A E) Q : answers m Q → is_Some m.
Proof. by intros (r & -> & _). Qed.

Lemma answers_map_error {A E F} (f : E → option F) (m : Parse A E) (Q : A → Prop) :
  (∀ e, is_Some (f e)) → answers m Q → answers (map_error f m) Q.
Proof.
  intros Hf (r & -> & HQ). unfold map_error. destruct r as [x|e]; simpl; [apply answers_ok; by apply HQ|].
  destruct (Hf e) as [y ->]. by apply answers_refuse.
Qed.

Lemma answers_located {A} ts name (m : Parse A str) (Q : A → Prop) : answers m Q → answers (located ts name m) Q.
Proof. intros (r & -> & HQ). unfold located. simpl. apply answers_ret. destruct r; simpl; [intros y [= <-]; by apply HQ|done]. Qed.

(** ** Sources that can be sliced at their tokens *)

Section total.
Context (source : str) (Hsource : is_str source).

(** Both ends of the token are character boundaries of the source. *)
Definition aligned (t : Token) : Prop :=
  Lexer.is_char_boundary source (start t) = true ∧ Lexer.is_char_boundary source (end_ t) = true
  ∧ (start t ≤ end_ t ≤ length source)%nat.

Record readable (ts : list Token) : Prop := {
  readable_aligned : Forall aligned ts;
  readable_sorted : StronglySorted (λ t u, (end_ t ≤ start u)%nat) ts;
}.

Lemma readable_app ts us : readable (ts ++ us) → readable us.
Proof. intros [Ha Hs]. split; [by apply Forall_app in Ha as [_ ?]|by apply StronglySorted_app in Hs as (_ & _ & ?)]. Qed.

Lemma readable_cons t ts : readable (t :: ts) → aligned t ∧ readable ts.
Proof. intros H. split; [by destruct H as [Ha%Forall_inv _]|]. by apply (readable_app [t]). Qed.

(** What is left of some tokens: readable, and no longer than they are. *)
Definition after (ts rest : list Token) : Prop := readable rest ∧ (length rest ≤ length ts)%nat.

(** At least one token was read. *)
Definition past (ts rest : list Token) : Prop := readable rest ∧ (length rest < length ts)%nat.

Lemma text_total t : aligned t → is_Some (token_text source t).
Proof. intros (? & ? & ?). unfold token_text. by rewrite str_slice_Some by (done || lia). Qed.

(** The source from a token to the last of those after it. *)
Lemma slice_total t ts : readable (t :: ts) → is_Some (str_slice source (start t) (end_ (default t (last ts)))).
Proof.
  intros [Ha Hs]. apply Forall_cons in Ha as [(? & ? & ?) Ha]. apply StronglySorted_inv in Hs as [_ Hs].
  assert (Lexer.is_char_boundary source (end_ (default t (last ts))) = true
    ∧ (start t ≤ end_ (default t (last ts)) ≤ length source)%nat) as (? & ?).
  { destruct (last ts) as [u|] eqn:Hu; [|done]. simpl. apply last_Some_elem_of in Hu. rewrite Forall_forall in Ha, Hs.
    destruct (Ha u Hu) as (? & ? & ?). specialize (Hs u Hu). split; [done|lia]. }
  by rewrite str_slice_Some by (done || lia).
Qed.

Lemma expect_answers {E} ts k (f : str → E) :
  readable ts → answers (Some (map_err f (expect ts k))) (λ p, ts = p.1 :: p.2 ∧ aligned p.1 ∧ past ts p.2).
Proof.
  intros Hr. apply answers_ret. intros [t rest] H. destruct (expect ts k) as [[u r]|e] eqn:He; [|done].
  injection H as -> ->. apply expect_Ok in He as [-> _]. apply readable_cons in Hr as [? ?]. do 2 (split; [done|]). split; [done|simpl; lia].
Qed.

Lemma expect_total ts k : readable ts → answers (Some (expect ts k)) (λ p, ts = p.1 :: p.2 ∧ aligned p.1 ∧ past ts p.2).
Proof. intros Hr. eapply (expect_answers ts k id) in Hr. by destruct (expect ts k). Qed.

Lemma expect_name_total ts : readable ts → answers (expect_name source ts) (λ p, past ts p.2).
Proof.
  intros Hr. unfold expect_name. eapply answers_then; [by apply expect_total|]. intros [t rest] (-> & Ht & Hp).
  eapply (answers_then _ _ (λ _, True)); [by apply answers_succeed; [apply text_total|]|]. intros name _. by apply answers_ok.
Qed.

Lemma is_word_total word t : aligned t → is_Some (is_word source word t).
Proof. intros Ht. unfold is_word. destruct (is_kind Identifier t); [|done]. by destruct (text_total t Ht) as [x ->]. Qed.

(** ** Types, generic parameters and annotations *)

Lemma parse_type_name_total ts : readable ts → answers (parse_type_name source ts) (λ p, past ts p.2).
Proof.
  intros Hr. apply answers_intro.
  2:{ intros [text rest] (used & -> & base & u & -> & _)%parse_type_name_Ok. split; [by eapply readable_app|].
      rewrite length_app. simpl. lia. }
  apply (answers_some _ (λ _, True)). unfold parse_type_name.
  apply answers_let. intros [base r0] [-> _]%expect_Ok. apply answers_let. intros [e1 r1] (u1 & -> & ->)%segment_loop_Ok.
  apply answers_let. intros [e2 r2] (u2 & -> & ->)%angle_part_Ok. apply answers_let. intros [e3 r3] (u3 & -> & -> & _)%bracket_loop_Ok.
  assert (default (default (end_ base) (end_ <$> last (u1 ++ u2))) (end_ <$> last u3) = end_ (default base (last (u1 ++ u2 ++ u3)))) as ->.
  { rewrite !last_app. by destruct (last u3), (last u2), (last u1). }
  destruct (slice_total base (u1 ++ u2 ++ u3)) as [x ->]; [|by apply answers_ok].
  rewrite !(app_assoc _ _ r3), app_comm_cons in Hr. destruct Hr as [Ha Hs].
  apply Forall_app in Ha as [Ha _]. apply StronglySorted_app in Hs as (_ & Hs & _). by split.
Qed.
Lemma past_trans ts us vs : past ts us → past us vs → past ts vs.
Proof. intros [_ ?] [? ?]. split; [done|lia]. Qed.

Lemma past_cons t ts : readable (t :: ts) → past (t :: ts) ts.
Proof. intros [_ ?]%readable_cons. split; [done|simpl; lia]. Qed.

Lemma readable_prefix ts us : readable (ts ++ us) → readable ts.
Proof. intros [Ha Hs]. split; [by apply Forall_app in Ha as [? _]|by apply StronglySorted_app in Hs as (_ & ? & _)]. Qed.

Lemma generic_loop_total fuel : ∀ ts params,
  readable ts → (length ts < fuel)%nat → answers (generic_parameter_loop fuel source ts params) (λ p, past ts p.2).
Proof.
  induction fuel as [|fuel IH]; intros ts params Hr Hf; [lia|]. cbn [generic_parameter_loop].
  cbv beta iota. eapply answers_then; [by apply expect_name_total|]. intros [name r0] Hp0. simpl in Hp0.
  cbv beta iota. eapply answers_then; [apply expect_total, Hp0|]. intros [c r1] (_ & _ & Hp1). simpl in Hp1.
  cbv beta iota. eapply answers_then; [apply expect_name_total, Hp1|]. intros [text r2] Hp2. simpl in Hp2.
  apply answers_let. intros k _. destruct (existsb _ params); [by apply answers_refuse|].
  pose proof (past_trans _ _ _ (past_trans _ _ _ Hp0 Hp1) Hp2) as Hp.
  destruct r2 as [|t r3]; [by apply answers_refuse|].
  pose proof (past_trans _ _ _ Hp (past_cons t r3 (proj1 Hp))) as Hp3.
  destruct (is_kind Comma t).
  - eapply answers_mono; [apply IH; [apply Hp3|destruct Hp3; lia]|]. intros x. by apply past_trans.
  - destruct (token_is_other_char source t GREATER); [by apply answers_ok|by apply answers_refuse].
Qed.

Lemma parse_generics_total ts : readable ts → answers (parse_generic_parameter_list source ts) (λ p, after ts p.2).
Proof.
  intros Hr. unfold parse_generic_parameter_list.
  assert (∀ ts, readable ts → answers (Some (Ok ([] : list ParsedGenericParameter, ts)) : Parse _ str) (λ p, after ts p.2)) as Hnone
    by (intros us Hus; by apply answers_ok).
  destruct ts as [|open ts]; [by apply Hnone|]. destruct (token_is_other_char source open LESS); [|by apply Hnone].
  eapply answers_mono; [apply generic_loop_total; [by apply readable_cons in Hr as [_ ?]|simpl; lia]|].
  intros x [? ?]. split; [done|simpl; lia].
Qed.

Lemma segment_argument_total annotation segment :
  readable segment → answers (segment_argument source annotation segment) (λ _, True).
Proof.
  intros Hr. unfold segment_argument. destruct segment as [|first rest]; [by apply answers_refuse|].
  apply (answers_then _ _ (λ _, True)); [by apply answers_succeed; [apply slice_total|]|]. intros text _. by apply answers_ok.
Qed.

Lemma argument_segments_total annotation nested ts : ∀ depth segment arguments,
  readable (segment ++ ts) → answers (argument_segments source annotation nested depth segment ts arguments) (λ _, True).
Proof.
  induction ts as [|t ts IH]; intros depth segment arguments Hr; cbn [argument_segments].
  - rewrite app_nil_r in Hr. apply (answers_then _ _ (λ _, True)); [by apply segment_argument_total|]. intros x _. by apply answers_ok.
  - destruct (is_kind Comma t && _).
    + apply (answers_then _ _ (λ _, True)); [by eapply segment_argument_total, readable_prefix|].
      intros x _. apply IH. by apply readable_app, readable_cons in Hr as [_ ?].
    + cbv zeta. apply IH. by rewrite <- app_assoc.
Qed.

Lemma argument_tokens_total name ts : ∀ expects arguments,
  readable ts → answers (argument_tokens source name expects ts arguments) (λ _, True).
Proof.
  induction ts as [|t ts IH]; intros expects arguments Hr; cbn [argument_tokens].
  { destruct (expects && _); [by apply answers_refuse|by apply answers_ok]. }
  apply readable_cons in Hr as [Ht Hr]. destruct (is_kind Comma t), expects; simpl; try (by apply answers_refuse); try (by apply IH).
  apply (answers_then _ _ (λ _, True)); [by apply answers_succeed; [apply text_total|]|]. intros x _. by apply IH.
Qed.

Lemma extern_symbol_total ts : readable ts → answers (parse_extern_symbol_annotation source ts) (λ _, True).
Proof.
  intros Hr. destruct ts as [|t ts]; [by apply answers_ok|]. cbn. destruct (is_kind RParen t); [by apply answers_ok|].
  destruct (negb _); [by apply answers_refuse|]. apply readable_cons in Hr as [Ht _]. destruct (text_total t Ht) as [text Htext].
  rewrite Htext. cbn. destruct (parse_string_literal_total text) as [r ->]; [by eapply is_str_slice|].
  apply answers_let. intros x _. by apply answers_ok.
Qed.

Lemma annotation_parentheses_total name ts :
  readable ts → answers (annotation_parentheses source name ts) (λ p, past ts p.2).
Proof.
  intros Hr. apply answers_intro.
  2:{ intros [[symbol arguments] rest] (o & i & c & -> & _)%annotation_parentheses_Ok. split; [by apply (readable_app (o :: i ++ [c])); simpl; rewrite <- app_assoc|].
      simpl. rewrite length_app. simpl. lia. }
  apply (answers_some _ (λ _, True)). unfold annotation_parentheses. apply (answers_then _ _ (λ _, True)).
  { case_bool_decide; [|by apply answers_ok]. apply extern_symbol_total. destruct ts; [done|]. by apply readable_cons in Hr as [_ ?]. }
  intros symbol _. apply answers_let. intros [inner rest] Hi. unfold skip_parenthesized_tokens in Hi.
  destruct ts as [|open ts]; [done|]. destruct (is_kind LParen open); [|done]. apply paren_tokens_Ok in Hi as (u & c & -> & -> & _).
  apply readable_cons in Hr as [_ Hr%readable_prefix]. cbn [app].
  apply (answers_then _ _ (λ _, True)); [|intros x _; by apply answers_ok].
  unfold parse_requires_annotation_argument, parse_effect_annotation_arguments.
  repeat case_bool_decide; try (by apply answers_ok); [by apply argument_segments_total..|by apply argument_tokens_total].
Qed.

Lemma next_kind_past k ts : readable ts → next_kind k ts = true → past ts (tail ts).
Proof. destruct ts; [done|]. intros Hr _. by apply past_cons. Qed.

Lemma annotations_loop_total fuel : ∀ ts symbol anns,
  readable ts → (length ts < fuel)%nat → answers (annotations_loop fuel source ts symbol anns) (λ p, after ts p.1.1).
Proof.
  induction fuel as [|fuel IH]; intros ts symbol anns Hr Hf; [lia|]. cbn [annotations_loop].
  destruct (next_char source AT ts) eqn:Hat; simpl; [|by apply answers_ok].
  destruct ts as [|at_ ts]; [done|]. cbn [tail]. apply past_cons in Hr as Hp0.
  cbv beta iota. eapply answers_then; [apply expect_name_total, Hp0|]. intros [name r1] Hp1. simpl in Hp1.
  pose proof (past_trans _ _ _ Hp0 Hp1) as Hp.
  assert (∀ us symbol anns, past (at_ :: ts) us → answers (annotations_loop fuel source us symbol anns) (λ p, after (at_ :: ts) p.1.1)) as Hnext.
  { intros us symbol' anns' [Hus Hl]. eapply answers_mono; [apply IH; [done|lia]|]. intros x [? ?]. split; [done|lia]. }
  destruct (next_kind LParen r1); [|by apply Hnext].
  cbv beta iota. eapply answers_then; [apply annotation_parentheses_total, Hp|]. intros [[s args] r2] Hp2. apply Hnext. by eapply past_trans.
Qed.

Lemma parse_annotations_total ts : readable ts → answers (parse_function_annotations source ts) (λ p, after ts p.1.1).
Proof. intros Hr. apply annotations_loop_total; [done|lia]. Qed.

(** ** Signatures and functions *)

Lemma tail_after ts : readable ts → after ts (tail ts).
Proof. intros Hr. destruct ts; [done|]. destruct (past_cons _ _ Hr). split; [done|simpl in *; lia]. Qed.

Lemma parameter_loop_total fuel name : ∀ ts params,
  readable ts → (length ts < fuel)%nat → answers (parameter_loop fuel source name ts params) (λ p, after ts p.2).
Proof.
  induction fuel as [|fuel IH]; intros ts params Hr Hf; [lia|]. cbn [parameter_loop].
  destruct ts as [|t ts]; [by apply answers_ok|]. destruct (is_kind RParen t); [by apply answers_ok|].
  cbv beta iota. eapply answers_then; [by apply answers_located, expect_name_total|]. intros [param r1] Hp1. simpl in Hp1.
  cbv beta iota. eapply answers_then; [by apply answers_located, expect_total, Hp1|]. intros [c r2] (_ & _ & Hp2). simpl in Hp2.
  cbv beta iota. eapply answers_then; [by apply answers_located, parse_type_name_total, Hp2|]. intros [ty r3] Hp3. simpl in Hp3. cbv zeta.
  pose proof (past_trans _ _ _ (past_trans _ _ _ Hp1 Hp2) Hp3) as [Hr3 Hl3].
  set (r4 := if next_kind Comma r3 then tail r3 else r3).
  assert (after r3 r4) as [Hr4 Hl4] by (subst r4; destruct (next_kind Comma r3); [by apply tail_after|by split]).
  eapply answers_mono; [apply IH; [done|lia]|]. intros x [? ?]. split; [done|lia].
Qed.

Lemma after_trans ts us vs : after ts us → after us vs → after ts vs.
Proof. intros [_ ?] [? ?]. split; [done|lia]. Qed.

Lemma past_after ts us vs : after ts us → past us vs → past ts vs.
Proof. intros [_ ?] [? ?]. split; [done|lia]. Qed.

Lemma after_past ts us vs : past ts us → after us vs → past ts vs.
Proof. intros [_ ?] [? ?]. split; [done|lia]. Qed.

Lemma parse_signature_total ts : readable ts → answers (parse_signature source ts) (λ p, past ts p.2).
Proof.
  intros Hr. apply answers_intro.
  2:{ intros [s rest] (used & -> & (a & n & g & l & p & r & t & -> & _))%parse_signature_Ok. split; [by eapply readable_app|].
      simpl. rewrite !length_app. simpl. lia. }
  apply (answers_some _ (λ _, True)). unfold parse_signature.
  cbv beta iota. eapply answers_then; [by apply answers_located, parse_annotations_total|]. intros [[r0 symbol] anns] [Hr0 _]. simpl in Hr0.
  cbv beta iota. eapply answers_then; [by apply answers_located, expect_total|]. intros [nt r1] (_ & Hnt & [Hr1 _]). cbn [fst snd] in Hnt, Hr1.
  apply (answers_then _ _ (λ _, True)); [by apply answers_succeed; [apply text_total|]|]. intros name _.
  cbv beta iota. eapply answers_then; [by apply answers_located, parse_generics_total|]. intros [gs r2] [Hr2 _]. simpl in Hr2.
  cbv beta iota. eapply answers_then; [by apply answers_located, expect_total|]. intros [lp r3] (_ & _ & [Hr3 _]). simpl in Hr3.
  cbv beta iota. eapply answers_then; [by apply parameter_loop_total; [|lia]|]. intros [ps r4] [Hr4 _]. simpl in Hr4.
  cbv beta iota. eapply answers_then; [by apply answers_located, expect_total|]. intros [rp r5] (_ & _ & [Hr5 _]). simpl in Hr5.
  destruct (parameter_conflict gs ps); [by apply answers_refuse|].
  apply (answers_then _ _ (λ _, True)); [|intros [ty r6] _; by apply answers_ok].
  destruct (next_kind Colon r5); [|by apply answers_ok].
  eapply answers_mono; [apply answers_located, parse_type_name_total, tail_after, Hr5|done].
Qed.

Lemma hint_loop_total ts : ∀ after_at, readable ts → is_Some (hint_loop source after_at ts).
Proof.
  induction ts as [|t ts IH]; intros after_at Hr; cbn [hint_loop]; [done|]. apply readable_cons in Hr as [Ht Hr].
  repeat case_match; try (by apply IH); try done; by apply text_total.
Qed.

Lemma contextual_error_total fts ts symbol message :
  readable fts → is_Some (contextual_parser_error source fts ts symbol message).
Proof.
  intros Hr. unfold contextual_parser_error. destruct symbol; simpl; [done|].
  destruct (hint_loop_total (tail fts) false) as [x Hx]; [by apply tail_after|]. unfold function_name_hint. by rewrite Hx.
Qed.

Lemma leading_annotations_total ts :
  readable ts → answers (leading_annotations source ts)
    (λ p, after ts p.2 ∧ (ts ≠ [] → p.2 ≠ [])).
Proof.
  intros Hr. unfold leading_annotations. destruct ts as [|t ts]; [by apply answers_ok|].
  assert (answers (Some (Ok (None, [], t :: ts)) : Parse (option nat * list ParsedFunctionAnnotation * list Token) ParserDiagnostic)
    (λ p, after (t :: ts) p.2 ∧ (t :: ts ≠ [] → p.2 ≠ []))) as Hnone by (by apply answers_ok).
  destruct (token_is_other_char source t AT); [|done].
  eapply answers_then; [apply answers_map_error; [intros e; by apply contextual_error_total|by apply parse_annotations_total]|].
  intros [[rest symbol] parsed] Hrest. cbn [fst] in Hrest.
  apply (answers_then _ _ (λ _, True)).
  { apply answers_succeed; [|done]. destruct (existsb _ parsed), rest; try done. destruct Hrest as [[Ha _]%readable_cons _]. by apply is_word_total. }
  intros is_extern _. destruct (is_extern && _).
  { destruct (contextual_error_total (t :: ts) rest None (string_bytes "@requires functions must be internal and cannot be extern") Hr) as [e ->].
    by apply answers_refuse. }
  destruct (next_kind FunctionKw rest) eqn:Hkw; [|done]. apply answers_ok. split; [done|]. intros _. by destruct rest.
Qed.

Lemma find_matching_total ts : readable ts → answers (Some (find_matching_rbrace ts 1)) (λ p, past ts p.2).
Proof.
  intros Hr. apply answers_ret. intros [close rest] (body & -> & _)%find_matching_block. split.
  - by apply readable_app, readable_cons in Hr as [_ ?].
  - rewrite length_app. simpl. lia.
Qed.

Lemma answers_map_err {A E F} (f : E → F) (r : Result A E) (Q : A → Prop) :
  answers (Some r) Q → answers (Some (map_err f r)) Q.
Proof. intros (? & [= <-] & HQ). apply answers_ret. destruct r; [intros x [= <-]; by apply HQ|done]. Qed.

Lemma parse_function_total include total signature_start leading kw ts :
  readable (kw :: ts) → answers (parse_function source include total signature_start leading (kw :: ts)) (λ p, past (kw :: ts) p.2).
Proof.
  intros Hr. unfold parse_function. cbn [tail]. apply past_cons in Hr as Hp0.
  eapply answers_then.
  { apply answers_map_error; [|apply parse_signature_total, Hp0]. intros [? ? ?|? ? ?]; [by apply contextual_error_total|done]. }
  intros [s rest] Hp1. cbn [snd] in Hp1. pose proof (past_trans _ _ _ Hp0 Hp1) as Hp.
  destruct rest as [|t rest].
  { match goal with |- context [contextual_parser_error ?a ?b ?c ?d ?e] => destruct (contextual_error_total b c d e Hr) as [x Hx]; rewrite Hx end.
    by apply answers_refuse. }
  pose proof (past_trans _ _ _ Hp (past_cons t rest (proj1 Hp))) as Hp2.
  destruct (is_kind Semicolon t); [by apply answers_ok|].
  eapply answers_then; [apply answers_map_error; [intros e; by apply contextual_error_total|apply expect_total, Hp]|].
  intros [open r1] (_ & _ & Hp3). cbn [snd] in Hp3.
  eapply answers_then; [apply answers_map_error; [done|apply find_matching_total, Hp3]|].
  intros [close r2] Hp4. apply answers_ok. exact (past_trans _ _ _ (past_trans _ _ _ Hp Hp3) Hp4).
Qed.

Lemma functions_loop_total include total fuel : ∀ ts out,
  readable ts → (length ts < fuel)%nat → is_Some (functions_loop source include fuel total ts out).
Proof.
  intros ts out Hr Hf. apply (answers_some _ (λ _, True)). revert ts out Hr Hf.
  induction fuel as [|fuel IH]; intros ts out Hr Hf; [lia|]. cbn [functions_loop].
  destruct ts as [|t0 ts0]; [by apply answers_ok|].
  eapply answers_then; [by apply leading_annotations_total|]. intros [[ss leading] r] [[Hr' Hl] Hne]. cbn [snd] in *.
  destruct r as [|t r]; [by destruct Hne|]. destruct (negb _).
  - apply IH; [by apply readable_cons in Hr' as [_ ?]|simpl in *; lia].
  - eapply answers_then; [by apply parse_function_total|]. intros [f rest] [Hrest Hlen]. apply IH; [done|simpl in *; lia].
Qed.

(** ** Extern functions *)

Lemma externs_loop_total fuel : ∀ ts out, readable ts → (length ts < fuel)%nat → is_Some (externs_loop source fuel ts out).
Proof.
  intros ts out Hr Hf. apply (answers_some _ (λ _, True)). revert ts out Hr Hf.
  induction fuel as [|fuel IH]; intros ts out Hr Hf; [lia|]. cbn [externs_loop].
  destruct ts as [|t0 ts0]; [by apply answers_ok|].
  assert (∃ b us, extern_prefix source (t0 :: ts0) = Some (b, us) ∧ after (t0 :: ts0) us ∧ us ≠ []) as (b & us & -> & [Hus Hl] & Hne).
  { unfold extern_prefix. destruct (is_word_total "extern" t0) as [w ->]; [by apply readable_cons in Hr as [? _]|]. simpl.
    destruct (w && next_kind FunctionKw ts0) eqn:Hw.
    - exists true, ts0. split; [done|]. split; [by apply tail_after in Hr|]. intros ->. by destruct w.
    - by exists false, (t0 :: ts0). }
  cbn [mbind option_bind]. destruct us as [|u us]; [done|]. apply past_cons in Hus as Hp0. cbn [tail].
  destruct (negb _); [apply IH; [apply Hp0|simpl in *; lia]|].
  eapply answers_then; [apply answers_map_error; [done|apply parse_signature_total, Hp0]|]. intros [s rest] Hp1. cbn [snd] in Hp1.
  pose proof (past_trans _ _ _ Hp0 Hp1) as [Hr1 Hl1]. destruct (tail_after _ Hr1) as [Hr2 Hl2].
  destruct (next_kind Semicolon rest); [apply IH; [done|lia]|].
  destruct (next_kind LBrace rest); [|apply IH; [done|lia]].
  eapply answers_then; [by apply find_matching_total|]. intros [close r3] [Hr3 Hl3]. cbn [snd] in *. apply IH; [done|lia].
Qed.

End total.
