(* ===== verification/ParserPasses.v ===== *)
(** * The declaration parser: every pass answers

    The passes over types, constants and local variables, and the theorem that no pass over
    a source that can be sliced at its tokens panics or runs forever. *)

From S2P Require Import Prelude BTree Documents DocumentsProps Lexer Identity Text Imports ImportsProps ParserTokens ParserFunctions.
From S2P Require Import ParserLayout ParserLocals ParserProps ParserTotal.
#[local] Open Scope Z_scope.
#[local] Set Warnings "-clear-no-such-hyp".

Section passes.
Context (source : str) (Hsource : is_str source).

#[local] Abbreviation readable := (readable source).
#[local] Abbreviation past := (past source).
#[local] Abbreviation after := (after source).

Lemma after_refl ts : readable ts → after ts ts.
Proof. by split. Qed.

Lemma expect_rest {E} ts k (f : Token * list Token → Parse E str) (R : E → Prop) :
  readable ts → (∀ t rest, aligned source t → past ts rest → answers (f (t, rest)) R) →
  answers (parse_bind (Some (expect ts k)) f) R.
Proof. intros Hr Hf. eapply answers_then; [by apply (expect_total source)|]. intros [t rest] (_ & ? & ?). by apply Hf. Qed.

Lemma name_rest {E} ts (f : str * list Token → Parse E str) (R : E → Prop) :
  readable ts → (∀ name rest, past ts rest → answers (f (name, rest)) R) → answers (parse_bind (expect_name source ts) f) R.
Proof. intros Hr Hf. eapply answers_then; [by apply expect_name_total|]. intros [name rest] ?. by apply Hf. Qed.

Lemma type_rest {E} ts (f : str * list Token → Parse E str) (R : E → Prop) :
  readable ts → (∀ name rest, past ts rest → answers (f (name, rest)) R) → answers (parse_bind (parse_type_name source ts) f) R.
Proof. intros Hr Hf. eapply answers_then; [by apply parse_type_name_total|]. intros [name rest] ?. by apply Hf. Qed.

Lemma text_rest {E} t (f : str → Parse E str) (R : E → Prop) :
  aligned source t → (∀ name, answers (f name) R) → answers (parse_bind (succeed (token_text source t)) f) R.
Proof. intros Ht Hf. eapply (answers_then _ _ (λ _, True)); [apply answers_succeed; [by apply text_total|done]|]. intros x _. apply Hf. Qed.

(** Solves what is left of the tokens after some steps. *)
Ltac left_over :=
  cbn [fst snd] in *;
  repeat match goal with
  | H : ParserTotal.past _ _ _ |- _ => destruct H
  | H : ParserTotal.after _ _ _ |- _ => destruct H
  end;
  first [done | split; [done|simpl in *; lia] | simpl in *; lia].

Ltac skip_one ts := destruct (tail_after source ts) as [? ?]; [left_over|].

Lemma skip_semicolon_after ts : readable ts → after ts (skip_semicolon ts).
Proof. intros Hr. unfold skip_semicolon. destruct (next_kind Semicolon ts); [by apply tail_after|by apply after_refl]. Qed.

(** ** Fields *)

Lemma initializer_end_after field ts t rest :
  readable ts → initializer_end field ts = Ok (t, rest) → after ts rest.
Proof.
  revert rest. induction ts as [|u ts IH]; intros rest Hr; cbn [initializer_end]; [done|].
  destruct (is_kind Semicolon u); [intros [= <- <-]; by apply after_refl|]. destruct (_ || _); [done|].
  intros H. apply readable_cons in Hr as [_ Hr]. apply IH in H; [|done]. left_over.
Qed.

Lemma parse_initializer_total field ts : readable ts → answers (parse_initializer source field ts) (λ p, after ts p.2).
Proof.
  intros Hr. unfold parse_initializer. destruct ts as [|t ts]; [by apply answers_ok|].
  destruct (token_is_other_char source t ASSIGN); [|by apply answers_ok]. apply readable_cons in Hr as [_ Hr].
  apply answers_let. intros [semi rest] H%initializer_end_after; [|done]. apply answers_ok. left_over.
Qed.

Lemma field_loop_total fuel : ∀ ts fields,
  readable ts → (length ts < fuel)%nat → answers (field_loop fuel source ts fields) (λ p, past ts p.2).
Proof.
  induction fuel as [|fuel IH]; intros ts fields Hr Hf; [lia|]. cbn [field_loop].
  destruct (match ts with [] => _ | _ => _ end).
  - apply name_rest; [done|]. intros name r1 Hp1. apply expect_rest; [apply Hp1|]. intros c r2 _ Hp2.
    apply type_rest; [apply Hp2|]. intros ty r3 Hp3. eapply answers_then; [apply parse_initializer_total, Hp3|].
    intros [init r4] Hp4. cbn [snd] in Hp4. apply expect_rest; [apply Hp4|]. intros s r5 _ Hp5.
    eapply answers_mono; [apply IH; left_over|]. intros x Hx. left_over.
  - apply expect_rest; [done|]. intros c r _ Hp. by apply answers_ok.
Qed.

Lemma braced_fields_total ts : readable ts → answers (parse_braced_fields source ts) (λ p, past ts p.2).
Proof. intros Hr. apply field_loop_total; [done|lia]. Qed.

(** ** Structs *)

Lemma parse_struct_total ts : readable ts → ts ≠ [] → answers (parse_struct source ts) (λ p, past ts p.2).
Proof.
  intros Hr Hne. unfold parse_struct. skip_one ts. apply expect_rest; [done|]. intros nt r1 Hnt Hp1.
  eapply answers_then; [by apply parse_generics_total, Hp1|]. intros [gs r2] Hp2. cbn [snd] in Hp2.
  apply expect_rest; [apply Hp2|]. intros b r3 _ Hp3. eapply answers_then; [apply braced_fields_total, Hp3|].
  intros [[fs close] r4] Hp4. cbn [snd] in Hp4. cbv zeta. apply text_rest; [done|]. intros name. apply answers_ok. cbn [snd].
  pose proof (skip_semicolon_after r4 (proj1 Hp4)). left_over.
Qed.

Lemma parse_struct_definition_total ts : readable ts → ts ≠ [] → answers (parse_struct_definition source ts) (λ p, past ts p.2).
Proof.
  intros Hr Hne. unfold parse_struct_definition. eapply answers_then; [by apply parse_struct_total|].
  intros [[parsed last] rest] Hp. by apply answers_ok.
Qed.

Lemma structs_loop_total fuel : ∀ depth ts out,
  readable ts → (length ts < fuel)%nat → answers (structs_loop fuel source depth ts out) (λ _, True).
Proof.
  induction fuel as [|fuel IH]; intros depth ts out Hr Hf; [lia|]. cbn [structs_loop].
  destruct ts as [|t ts]; [by apply answers_ok|]. pose proof Hr as [Ht Hr']%readable_cons.
  assert (∀ d, answers (structs_loop fuel source d ts out) (λ _, True)) as Hnext by (intros d; apply IH; left_over).
  destruct (is_kind LBrace t); [done|]. destruct (is_kind RBrace t); [done|].
  assert (is_Some (starts_struct source depth t)) as [b ->].
  { unfold starts_struct. destruct (depth =? 0)%nat; [by apply is_word_total|done]. }
  cbn [mbind option_bind]. destruct b; [|done]. unfold parse_struct_definition_range.
  eapply answers_then.
  { eapply answers_then; [by apply parse_struct_total|]. intros [[parsed last] rest] Hp. cbn [snd] in Hp.
    apply (answers_ok _ (λ p, past (t :: ts) p.2)), Hp. }
  intros [parsed rest] Hp. cbn [snd] in Hp. apply IH; left_over.
Qed.

(** ** Enums, globals and constants *)

Lemma parse_discriminant_total ts : readable ts → answers (parse_discriminant source ts) (λ p, after ts p.2).
Proof.
  intros Hr. unfold parse_discriminant. cbv zeta. set (us := if next_char source MINUS ts then tail ts else ts).
  assert (after ts us) as Hus by (subst us; destruct (next_char source MINUS ts); [by apply tail_after|by apply after_refl]).
  apply expect_rest; [apply Hus|]. intros t rest Ht Hp. apply text_rest; [done|]. intros text.
  apply answers_let. intros v _. apply answers_ok. left_over.
Qed.

Lemma variant_loop_total fuel : ∀ ts variants,
  readable ts → (length ts < fuel)%nat → answers (variant_loop fuel source ts variants) (λ p, after ts p.2).
Proof.
  induction fuel as [|fuel IH]; intros ts variants Hr Hf; [lia|]. cbn [variant_loop].
  destruct (match ts with [] => _ | _ => _ end); [|by apply answers_ok, after_refl].
  apply name_rest; [done|]. intros name r1 Hp1. apply (answers_then _ _ (λ p, after r1 p.2)).
  { skip_one r1. destruct (next_char source ASSIGN r1); [|apply answers_ok, after_refl, Hp1].
    eapply answers_then; [by apply parse_discriminant_total|]. intros [v r2] Hp2. apply answers_ok. left_over. }
  intros [v r2] Hp2. cbn [snd] in Hp2. apply (answers_then _ _ (λ r, after r2 r)).
  { skip_one r2. destruct (next_kind Comma r2); [by apply answers_ok|]. destruct (next_kind RBrace r2); [apply answers_ok, after_refl, Hp2|by apply answers_refuse]. }
  intros r3 Hp3. eapply answers_mono; [apply IH; left_over|]. intros x Hx. left_over.
Qed.

Lemma parse_enum_total ts : readable ts → ts ≠ [] → answers (parse_enum_definition source ts) (λ p, past ts p.2).
Proof.
  intros Hr Hne. unfold parse_enum_definition. skip_one ts. apply name_rest; [done|]. intros name r1 Hp1.
  apply expect_rest; [apply Hp1|]. intros b r2 _ Hp2. eapply answers_then; [apply variant_loop_total; [apply Hp2|lia]|].
  intros [vs r3] Hp3. cbn [snd] in Hp3. apply expect_rest; [apply Hp3|]. intros c r4 _ Hp4. apply answers_ok. cbn [snd].
  pose proof (skip_semicolon_after r4 (proj1 Hp4)). left_over.
Qed.

Lemma parse_global_total ts : readable ts → ts ≠ [] → answers (parse_global_definition source ts) (λ p, past ts p.2).
Proof.
  intros Hr Hne. unfold parse_global_definition. skip_one ts. apply name_rest; [done|]. intros name r1 Hp1.
  destruct r1 as [|next r1]; [by apply answers_refuse|]. destruct (past_cons source next r1 (proj1 Hp1)) as [Hr1 _].
  destruct (is_kind Colon next).
  { apply type_rest; [done|]. intros ty r2 Hp2. apply expect_rest; [apply Hp2|]. intros s r3 _ Hp3. apply answers_ok. left_over. }
  destruct (is_kind LBrace next); [|by apply answers_refuse].
  eapply answers_then; [by apply braced_fields_total|]. intros [[fs c] r2] Hp2. cbn [snd] in Hp2. apply answers_ok. cbn [snd].
  pose proof (skip_semicolon_after r2 (proj1 Hp2)). left_over.
Qed.

Lemma const_end_after name ts t rest : readable ts → const_end name ts = Ok (t, rest) → past ts rest.
Proof.
  revert rest. induction ts as [|u ts IH]; intros rest Hr; cbn [const_end]; [done|]. pose proof Hr as [_ Hr']%readable_cons.
  destruct (is_kind Semicolon u); [intros [= <- <-]; by apply past_cons|]. destruct (is_kind Eof u); [done|].
  intros H%IH; [|done]. left_over.
Qed.

Lemma member_end_after path ts t rest : readable ts → member_end path ts = Ok (t, rest) → past ts rest.
Proof.
  revert rest. induction ts as [|u ts IH]; intros rest Hr; cbn [member_end]; [done|]. pose proof Hr as [_ Hr']%readable_cons.
  destruct (is_kind Semicolon u); [intros [= <- <-]; by apply past_cons|]. destruct (_ && _); [done|]. destruct (_ || _); [done|].
  intros H%IH; [|done]. left_over.
Qed.

Lemma parse_const_total ts : readable ts → ts ≠ [] → answers (parse_const_definition source ts) (λ p, past ts p.2).
Proof.
  intros Hr Hne. unfold parse_const_definition. skip_one ts. apply name_rest; [done|]. intros name r1 Hp1.
  apply expect_rest; [apply Hp1|]. intros b r2 _ Hp2. apply type_rest; [apply Hp2|]. intros ty r3 Hp3.
  destruct r3 as [|eq r3]; [by apply answers_refuse|]. destruct (past_cons source eq r3 (proj1 Hp3)) as [Hr3 _].
  destruct (negb _); [by apply answers_refuse|]. cbv zeta. apply answers_let.
  intros [semi r4] Hp4%const_end_after; [|done]. apply answers_ok. left_over.
Qed.

Lemma parse_member_total group ts : readable ts → answers (parse_member source group ts) (λ p, past ts p.2).
Proof.
  intros Hr. unfold parse_member. apply expect_rest; [done|]. intros t r1 Ht Hp1. apply text_rest; [done|]. intros name.
  apply expect_rest; [apply Hp1|]. intros b r2 _ Hp2. apply type_rest; [apply Hp2|]. intros ty r3 Hp3.
  destruct r3 as [|eq r3]; [by apply answers_refuse|]. destruct (past_cons source eq r3 (proj1 Hp3)) as [Hr3 _].
  destruct (negb _); [by apply answers_refuse|]. cbv zeta. apply answers_let.
  intros [semi r4] Hp4%member_end_after; [|done]. case_bool_decide; [by apply answers_refuse|]. apply answers_ok. left_over.
Qed.

Lemma member_loop_total fuel group : ∀ ts members,
  readable ts → (length ts < fuel)%nat → answers (member_loop fuel source group ts members) (λ p, after ts p.2).
Proof.
  induction fuel as [|fuel IH]; intros ts members Hr Hf; [lia|]. cbn [member_loop].
  destruct ts as [|t ts]; [by apply answers_ok, after_refl|]. destruct (is_kind RBrace t); [by apply answers_ok, after_refl|].
  destruct (is_kind Eof t); [by apply answers_refuse|]. eapply answers_then; [by apply parse_member_total|].
  intros [m rest] Hp. cbn [snd] in Hp. eapply answers_mono; [apply IH; left_over|]. intros x Hx. left_over.
Qed.

Lemma parse_group_total ts : readable ts → answers (parse_const_group_definition source ts) (λ p, past ts p.2).
Proof.
  intros Hr. unfold parse_const_group_definition. apply expect_rest; [done|]. intros kw r0 _ Hp0.
  apply expect_rest; [apply Hp0|]. intros t r1 Ht Hp1. apply text_rest; [done|]. intros name.
  apply expect_rest; [apply Hp1|]. intros b r2 _ Hp2. eapply answers_then; [apply member_loop_total; [apply Hp2|lia]|].
  intros [ms r3] Hp3. cbn [snd] in Hp3. apply expect_rest; [apply Hp3|]. intros c r4 _ Hp4. apply answers_ok. cbn [snd].
  pose proof (skip_semicolon_after r4 (proj1 Hp4)). left_over.
Qed.

(** ** The layout *)

Lemma parse_definition_total keyword ts out :
  readable ts → ts ≠ [] → answers (parse_definition source keyword ts out) (λ r, ∀ p, r = Some p → past ts p.2).
Proof.
  intros Hr Hne. unfold parse_definition. cbv zeta beta.
  assert (∀ A (add : A → ParsedTypeLayout → ParsedTypeLayout) (m : Parse (A * list Token) str),
    answers m (λ p, past ts p.2) →
    answers (parse! (parsed, after) := m in Some (Ok (Some (add parsed out, after)))) (λ r, ∀ p, r = Some p → past ts p.2)) as Hadd.
  { intros A add m Hm. eapply answers_then; [exact Hm|]. intros [x rest] Hp. apply answers_ok. by intros p [= <-]. }
  repeat case_bool_decide; [by apply Hadd, parse_struct_definition_total|by apply Hadd, parse_enum_total|by apply Hadd, parse_global_total| |by apply answers_ok].
  destruct (_ && _); apply Hadd; [by apply parse_group_total|by apply parse_const_total].
Qed.

Lemma layout_loop_total fuel : ∀ depth ts out,
  readable ts → (length ts < fuel)%nat → answers (layout_loop fuel source depth ts out) (λ _, True).
Proof.
  induction fuel as [|fuel IH]; intros depth ts out Hr Hf; [lia|]. cbn [layout_loop].
  destruct ts as [|t ts]; [by apply answers_ok|]. pose proof Hr as [Ht Hr']%readable_cons.
  assert (∀ d, answers (layout_loop fuel source d ts out) (λ _, True)) as Hnext by (intros d; apply IH; left_over).
  destruct (is_kind LBrace t); [done|]. destruct (is_kind RBrace t); [done|]. destruct (_ && _); [|done].
  destruct (text_total source t Ht) as [keyword ->]. cbn [mbind option_bind].
  eapply answers_then; [by apply parse_definition_total|]. intros [[out' rest]|] Hp; [|done].
  specialize (Hp _ eq_refl). cbn [snd] in Hp. apply IH; left_over.
Qed.
(** ** Local variables *)

Lemma tokens_from_readable offset ts : readable ts → readable (tokens_from offset ts).
Proof.
  induction ts as [|t ts IH]; intros Hr; cbn [tokens_from]; [done|]. destruct (start t <? offset)%nat; [|done].
  apply IH. by apply readable_cons in Hr as [_ ?].
Qed.

Lemma tokens_from_length offset ts : (length (tokens_from offset ts) ≤ length ts)%nat.
Proof. induction ts as [|t ts IH]; cbn [tokens_from]; [done|]. destruct (start t <? offset)%nat; simpl; lia. Qed.

Lemma matching_token_spec open close ts : ∀ depth inner i t rest,
  matching_token open close depth inner ts = Some (i, t, rest) → ∃ used, ts = used ++ t :: rest ∧ i = tail (inner ++ used).
Proof.
  induction ts as [|u ts IH]; intros depth inner i t rest; cbn [matching_token]; [done|].
  assert (∀ d, matching_token open close d (inner ++ [u]) ts = Some (i, t, rest) →
    ∃ used, u :: ts = used ++ t :: rest ∧ i = tail (inner ++ used)) as Hnext.
  { intros d (used & -> & ->)%IH. exists (u :: used). by rewrite <- app_assoc. }
  destruct (is_kind open u); [apply Hnext|]. destruct (is_kind close u); [|apply Hnext].
  destruct depth as [|[|depth]]; [done| |apply Hnext]. intros [= <- <- <-]. exists []. by rewrite app_nil_r.
Qed.

(** The header and what is after the block are tokens that were there. *)
Lemma header_and_block_after ts header parens braces rest :
  readable ts → header_and_block ts = Some (header, parens, braces, rest) → readable header ∧ after ts rest.
Proof.
  intros Hr. unfold header_and_block. destruct ts as [|open ts]; [done|]. destruct (is_kind LParen open); [|done].
  unfold matching_token_index. intros H. apply bind_Some in H as ([[inner t] r1] & Hm & H).
  apply matching_token_spec in Hm as (used & Heq & ->). rewrite Heq in Hr |- *. destruct r1 as [|body r1]; [done|].
  destruct (is_kind LBrace body); [|done]. apply bind_Some in H as ([[i2 t2] r2] & Hm & H). injection H as <- <- <- <-.
  apply matching_token_spec in Hm as (used2 & Heq2 & _). rewrite Heq2 in Hr |- *. split.
  - apply readable_prefix in Hr. cbn. destruct used; [done|]. by apply readable_cons in Hr as [_ ?].
  - split; [by do 2 apply readable_app, readable_cons in Hr as [_ Hr]|].
    rewrite length_app. simpl. rewrite length_app. simpl. lia.
Qed.

Lemma for_loop_total body ts : ∀ ranges, readable ts → is_Some (for_loop source body ts ranges).
Proof.
  induction ts as [|t ts IH]; intros ranges Hr; cbn [for_loop]; [done|]. apply readable_cons in Hr as [Ht Hr].
  destruct (past_body body t); [done|]. destruct (is_word_total source "for" t Ht) as [w ->]. by apply IH.
Qed.

Lemma foreach_names_total header : readable header → is_Some (foreach_names source header).
Proof.
  induction header as [|t ts IH]; intros Hr; cbn [foreach_names]; [done|]. apply readable_cons in Hr as [Ht Hr].
  destruct (is_word_total source "in" t Ht) as [[|] ->]; simpl; [done|]. by destruct (IH Hr) as [names ->].
Qed.

Lemma foreach_names_from header names : foreach_names source header = Some names → names ⊆ header.
Proof.
  revert names. induction header as [|t ts IH]; intros names; cbn [foreach_names]; [by intros [= <-]|].
  intros (w & _ & H)%bind_Some. destruct w; [injection H as <-; set_solver|].
  apply bind_Some in H as (ns & Hns%IH & [= <-]). destruct (is_kind Identifier t); set_solver.
Qed.

Lemma foreach_bindings_total header :
  readable header → ∃ b, foreach_bindings source header = Some b ∧ ∀ names, b = Some names → Forall (aligned source) names.
Proof.
  intros Hr. unfold foreach_bindings. destruct header as [|t ts]; [by eexists|]. apply readable_cons in Hr as [Ht Hr].
  destruct (is_word_total source "let" t Ht) as [[|] ->]; simpl; [|by eexists].
  destruct (foreach_names_total ts Hr) as [names Hn]. rewrite Hn. eexists. split; [done|]. intros ns [= <-].
  apply foreach_names_from in Hn. apply Forall_forall. intros u Hu. destruct Hr as [Ha _]. rewrite Forall_forall in Ha.
  apply Ha, Hn. by eapply elem_of_take in Hu as (i & Hi & _); apply list_elem_of_lookup_2 in Hi.
Qed.

Lemma declare_total name visibility t : aligned source t → is_Some (declare source name visibility t).
Proof. intros Ht. unfold declare. by destruct (text_total source t Ht) as [x ->]. Qed.

Lemma foreach_loop_total fuel name body : ∀ ts out,
  readable ts → (length ts < fuel)%nat → is_Some (foreach_loop source fuel name body ts out).
Proof.
  induction fuel as [|fuel IH]; intros ts out Hr Hf; [lia|]. cbn [foreach_loop]. destruct ts as [|t ts]; [done|].
  apply readable_cons in Hr as [Ht Hr]. simpl in Hf. destruct (past_body body t); [done|].
  destruct (is_word_total source "foreach" t Ht) as [w ->]. cbn [mbind option_bind].
  assert (is_Some (foreach_loop source fuel name body ts out)) as Hnext by (apply IH; [done|lia]).
  destruct w; [|done]. destruct (header_and_block ts) as [[[[header parens] [bo bc]] rest]|] eqn:Hb; [|done].
  apply header_and_block_after in Hb as [Hh [Hrest Hl]]; [|done].
  destruct (foreach_bindings_total header Hh) as ([names|] & -> & Hn); cbn [mbind option_bind]; [|done].
  assert (is_Some (mapM (declare source name (start bo, end_ bc)) names)) as [found ->].
  { apply mapM_is_Some_2. eapply Forall_impl; [by apply Hn|]. intros u. apply declare_total. }
  cbn [mbind option_bind]. apply IH; [done|lia].
Qed.

Lemma local_loop_total fuel function ranges : ∀ ts out,
  readable ts → (length ts < fuel)%nat → is_Some (local_loop source fuel function ranges ts out).
Proof.
  induction fuel as [|fuel IH]; intros ts out Hr Hf; [lia|]. cbn [local_loop]. destruct ts as [|t ts]; [done|].
  apply readable_cons in Hr as [Ht Hr]. simpl in Hf. destruct (past_body _ t); [done|].
  destruct (is_word_total source "let" t Ht) as [w ->]. cbn [mbind option_bind].
  destruct w; simpl; [|apply IH; [done|lia]]. destruct ts as [|name ts]; [done|]. pose proof Hr as [Hn Hr']%readable_cons. simpl in Hf.
  destruct (negb _); [apply IH; [done|simpl; lia]|]. destruct (existsb _ out); [apply IH; [done|lia]|].
  destruct (semicolon_before _ ts) as [from|]; [|apply IH; [done|lia]].
  edestruct declare_total as [d Hd]; [exact Hn|]. rewrite Hd. cbn [mbind option_bind]. apply IH; [done|lia].
Qed.

Lemma function_locals_total ts out f : readable ts → is_Some (function_locals source ts out f).
Proof.
  intros Hr. unfold function_locals, for_scope_ranges, foreach_local_declarations. cbv zeta.
  pose proof (tokens_from_readable (fn_body_range f).1 ts Hr) as Hfrom. pose proof (tokens_from_length (fn_body_range f).1 ts).
  destruct (for_loop_total (fn_body_range f) _ [] Hfrom) as [ranges ->]. cbn [mbind option_bind].
  edestruct foreach_loop_total as [found Hfound]; [exact Hfrom| |rewrite Hfound]; [lia|]. cbn [mbind option_bind].
  apply local_loop_total; [done|lia].
Qed.

Lemma local_binding_total ts d : readable ts → is_Some (local_binding source ts d).
Proof.
  intros Hr. apply (answers_some _ (λ _, True)). unfold local_binding. destruct (list_find _ ts) as [[i t]|]; [|by apply answers_ok].
  assert (readable (drop (S i) ts)) as Hd by (rewrite <- (take_drop (S i) ts) in Hr; by apply readable_app in Hr).
  destruct (drop (S i) ts) as [|colon rest]; [by apply answers_ok|]. destruct (is_kind Colon colon); [|by apply answers_ok].
  apply type_rest; [by apply readable_cons in Hd as [_ ?]|]. intros name r _. by apply answers_ok.
Qed.

Lemma binding_loop_total ts ds : ∀ out, readable ts → is_Some (binding_loop source ts ds out).
Proof.
  induction ds as [|d ds IH]; intros out Hr; cbn [binding_loop]; [done|].
  destruct (local_binding_total ts d Hr) as [[b|e] ->]; cbn; [by apply IH|done].
Qed.

Lemma assigned_before_total cursor ts : readable ts → is_Some (assigned_before source cursor ts).
Proof.
  induction ts as [|t ts IH]; intros Hr; cbn [assigned_before]; [done|]. apply readable_cons in Hr as [Ht Hr].
  destruct (start t <? cursor)%nat; [|done]. destruct (is_kind Other t); [|by apply IH].
  destruct (text_total source t Ht) as [x ->]. simpl. case_bool_decide; [done|by apply IH].
Qed.

Lemma after_last_colon_readable cursor ts : ∀ found,
  readable ts → (∀ us, found = Some us → readable us) → ∀ us, after_last_colon cursor ts found = Some us → readable us.
Proof.
  induction ts as [|t ts IH]; intros found Hr Hf us; cbn [after_last_colon]; [by apply Hf|].
  destruct (start t <? cursor)%nat; [|by apply Hf]. apply readable_cons in Hr as [_ Hr]. apply IH; [done|].
  destruct (is_kind Colon t); [|done]. by intros vs [= <-].
Qed.

(** ** Angle brackets *)

Lemma text_in_total chars t : aligned source t → is_Some (text_in source chars t).
Proof. intros Ht. unfold text_in. by destruct (text_total source t Ht) as [x ->]. Qed.

Lemma if_total (b : bool) (m : option bool) : is_Some m → is_Some (if b then m else Some false).
Proof. by destruct b. Qed.

Lemma matching_angle_total ts : ∀ depth inner,
  readable inner → readable (inner ++ ts) →
  ∃ r, matching_angle source depth inner ts = Some r ∧ ∀ i t rest, r = Some (i, t, rest) → readable i ∧ readable rest.
Proof.
  induction ts as [|t ts IH]; intros depth inner Hi Hr; cbn [matching_angle]; [by eexists|].
  assert (∀ d, ∃ r, matching_angle source d (inner ++ [t]) ts = Some r ∧ ∀ i t rest, r = Some (i, t, rest) → readable i ∧ readable rest) as Hnext.
  { intros d. assert (readable ((inner ++ [t]) ++ ts)) as Hr' by (by rewrite <- app_assoc). apply IH; [by apply readable_prefix in Hr'|done]. }
  pose proof Hr as [Ht Hts]%readable_app%readable_cons.
  destruct (token_is_other_char source t LESS); [apply Hnext|]. destruct (token_is_other_char source t GREATER).
  - destruct depth as [|[|depth]]; [by eexists| |apply Hnext]. eexists. split; [done|]. intros i u rest [= <- <- <-]. split; [|done].
    by apply tail_after.
  - destruct (if_total (0 <? depth)%nat _ (text_in_total [123; 125; 40; 41; 59] t Ht)) as [b ->]. cbn [mbind option_bind].
    destruct b; [by eexists|apply Hnext].
Qed.

Lemma parameter_group_total inner : ∀ depth has, readable inner → is_Some (parameter_group source depth has inner).
Proof.
  induction inner as [|t ts IH]; intros depth has Hr; cbn [parameter_group]; [done|]. apply readable_cons in Hr as [Ht Hr].
  destruct (token_is_other_char source t LESS); [by apply IH|]. destruct (token_is_other_char source t GREATER); [by apply IH|].
  destruct (if_total (depth =? 0)%nat _ (text_in_total [COLON] t Ht)) as [b ->]. by apply IH.
Qed.

Lemma generic_type_context_total before : Forall (aligned source) before → is_Some (generic_type_context source before).
Proof.
  induction 1 as [|t ts Ht _ IH]; cbn [generic_type_context]; [done|].
  destruct (text_in_total [COLON] t Ht) as [[|] ->]; cbn [mbind option_bind]; [done|].
  destruct (text_in_total [59; 123; 125; 40; 41; 61] t Ht) as [[|] ->]; cbn [mbind option_bind]; [done|].
  by destruct (is_kind FunctionKw t).
Qed.

Lemma after_colons_total before : Forall (aligned source) before → is_Some (after_colons source before).
Proof.
  intros Hb. unfold after_colons. destruct before as [|a [|b before]]; try done. apply Forall_cons in Hb as [Ha [Hbb _]%Forall_cons].
  destruct (text_in_total [COLON] a Ha) as [[|] ->]; simpl; [by apply text_in_total|done].
Qed.

Lemma looks_like_generic_open_total before ts :
  Forall (aligned source) before → readable ts → is_Some (looks_like_generic_open source before ts).
Proof.
  intros Hb Hr. unfold looks_like_generic_open. destruct (after_colons_total before Hb) as [[|] ->]; cbn [mbind option_bind]; [done|].
  unfold matching_angle_token. destruct (matching_angle_total ts 0 []) as ([[[inner c] rest]|] & -> & Hfound); [split; constructor|done| |done].
  cbn [mbind option_bind]. destruct (Hfound _ _ _ eq_refl) as [Hi Hrest].
  destruct (parameter_group_total inner 0 false Hi) as [[|] ->]; cbn [mbind option_bind]; [done|].
  destruct before as [|previous before]; [done|]. cbv zeta. destruct (_ || _); [done|]. destruct (_ && _); [done|].
  assert (is_Some (match rest with [] => Some true | t :: _ => text_in source [91; 46; 44; 59; 41; 125; 61; 62] t end)) as [b ->].
  { destruct rest as [|t rest]; [done|]. apply readable_cons in Hrest as [Ht _]. by apply text_in_total. }
  cbn [mbind option_bind]. destruct b; [by apply generic_type_context_total|done].
Qed.

Lemma angle_ranges_total ts : ∀ before generic,
  Forall (aligned source) before → readable ts → is_Some (angle_ranges source before ts generic).
Proof.
  induction ts as [|t ts IH]; intros before generic Hb Hr; cbn [angle_ranges]; [done|]. pose proof Hr as [Ht Hr']%readable_cons.
  destruct (if_total (token_is_other_char source t LESS) _ (looks_like_generic_open_total before (t :: ts) Hb Hr)) as [b ->].
  cbn [mbind option_bind].
  assert (is_Some (if b then matching_angle_token source (t :: ts) else Some None)) as [found ->].
  { destruct b; [|done]. unfold matching_angle_token. destruct (matching_angle_total (t :: ts) 0 []) as (r & -> & _); [split; constructor|done..]. }
  cbn [mbind option_bind]. apply IH; [by constructor|done].
Qed.
End passes.

(** ** All passes *)

(** A Rust string, whose tokens outside the grammar of the language end between
    characters too. *)
Definition sliceable (source : str) : Prop :=
  is_str source ∧ ∀ ts t, lex_with_diagnostic source = Some (Ok ts) → t ∈ ts → kind t = Other →
    Lexer.is_char_boundary source (start t) = true ∧ Lexer.is_char_boundary source (end_ t) = true.

Lemma sliceable_readable source ts : sliceable source → lex_with_diagnostic source = Some (Ok ts) → readable source ts.
Proof.
  intros [Hs Hother] Hlex. destruct (lex_tokens_ok _ _ Hs Hlex) as [Hok Hsort]. split; [|done].
  rewrite Forall_forall in *. intros t Ht. destruct (Hok t Ht) as [Hb _ He _].
  destruct (decide (kind t = Other)) as [Hk|Hk]; [destruct (Hother ts t)|destruct Hb]; done.
Qed.

Lemma lex_text_answers source : sliceable source → answers (lex_text source) (readable source).
Proof.
  intros Hs. unfold lex_text, lex. destruct (lex_spec source) as ([ts|e] & Hlex & _); rewrite Hlex; simpl.
  - by apply answers_ok, sliceable_readable.
  - by apply answers_refuse.
Qed.

Lemma functions_impl_total source include : sliceable source → is_Some (parse_top_level_functions_impl source include).
Proof.
  intros Hs. unfold parse_top_level_functions_impl. destruct (lex_spec source) as ([ts|e] & Hlex & _); rewrite Hlex;
    unfold map_error, parse_bind; cbn [mbind option_bind].
  - apply functions_loop_total; [by destruct Hs|by apply sliceable_readable|lia].
  - destruct (lexer_error_context_total source (string_bytes (message e)) (offset e)) as [c ->]. done.
Qed.

(** A pass over the tokens of a source. *)
Lemma pass_total {A} source (k : list Token → Parse A str) :
  sliceable source → (∀ ts, readable source ts → is_Some (k ts)) → is_Some (parse_bind (lex_text source) k).
Proof.
  intros Hs Hk. apply (answers_some _ (λ _, True)). eapply answers_then; [by apply lex_text_answers|].
  intros ts Hts. by apply answers_intro; [apply Hk|].
Qed.

Lemma functions_total source : sliceable source → is_Some (parse_top_level_functions source).
Proof. intros Hs. unfold parse_top_level_functions. apply fmap_is_Some. by apply functions_impl_total. Qed.

Lemma local_declarations_total source : sliceable source → is_Some (parse_local_declarations source).
Proof.
  intros Hs. pose proof Hs as [Hstr _]. apply pass_total; [done|]. intros ts Hts. destruct (functions_total source Hs) as [[fs|e] ->]; [|done]. simpl.
  assert (is_Some (foldl (λ acc f, declarations ← acc; function_locals source ts declarations f) (Some []) fs)) as [ds ->]; [|done].
  assert (is_Some (Some ([] : list ParsedLocalDeclaration))) as Hacc by done. revert Hacc. generalize (Some ([] : list ParsedLocalDeclaration)).
  induction fs as [|f fs IH]; intros acc [ds ->]; simpl; [done|]. apply IH. by apply function_locals_total.
Qed.

Lemma layout_total source : sliceable source → is_Some (parse_top_level_type_layout source).
Proof.
  intros Hs. pose proof Hs as [Hstr _]. apply pass_total; [done|]. intros ts Hts.
  eapply answers_some, layout_loop_total; [done|lia].
Qed.


Lemma ascii_source (source : str) : forallb (λ c, (0 <=? c) && (c <? 128)) source = true → is_str source.
Proof.
  intros H. exists source. split.
  - apply Forall_forall. intros c Hc%list_elem_of_In. rewrite forallb_forall in H. specialize (H c Hc). to_props. left. lia.
  - induction source as [|c source IH]; [done|]. simpl in H. apply andb_true_iff in H as [Hc H].
    change (encode (c :: source)) with (encode_char c ++ encode source). rewrite <- IH by done. unfold encode_char.
    to_props. by rewrite (proj2 (Z.ltb_lt c 128)) by lia.
Qed.

(** A check that an ASCII source is sliceable. *)
Lemma sliceable_check (source : str) :
  forallb (λ c, (0 <=? c) && (c <? 128)) source = true →
  match lex_with_diagnostic source with
  | Some (Ok ts) => forallb (λ t, Lexer.is_char_boundary source (start t) && Lexer.is_char_boundary source (end_ t)) ts
  | _ => true
  end = true → sliceable source.
Proof.
  intros Ha Hb. split; [by apply ascii_source|]. intros ts t Hlex Ht _. rewrite Hlex in Hb.
  rewrite forallb_forall in Hb. specialize (Hb t (proj1 (list_elem_of_In _ _) Ht)). by apply andb_true_iff in Hb.
Qed.

Definition small_program : str :=
  string_bytes "struct P { x: i32; } function @extern(" ++ [QUOTE] ++ string_bytes "s" ++ [QUOTE] ++
  string_bytes ") f(a: list<i32>): i32; function main() { let y: i32 = 1; }".


(** A character that is not ASCII and stands outside quotes is several tokens that end inside
    it: an annotation with it, and an angle bracket after it, are slices inside a
    character, which panic. *)
Example annotation_inside_character :
  parse_top_level_functions (string_bytes "function @note(" ++ [195; 169] ++ string_bytes ") f() {}") = None.
Proof. vm_compute. reflexivity. Qed.

Example angle_inside_character : generic_angle_ranges ([195; 169] ++ string_bytes "a<b>;") = None.
Proof. vm_compute. reflexivity. Qed.

(** The error of a generic parameter that is named as a parameter ends at a count of tokens,
    here before it starts. *)
Example conflict_ends_before_it_starts :
  ∃ m, parse_top_level_functions_with_diagnostic (string_bytes "                    function f<T: type>(T: i32) {}")
  = Some (Err (mkParserDiagnostic m 20 12 (string_bytes "f"))).
Proof. eexists. vm_compute. reflexivity. Qed.
