(* ===== verification/ParserTests.v ===== *)
(** * The declaration parser: tests

    Models [parse_top_level_test_declarations], [rewrite_top_level_test_declarations] and
    [map_rewritten_test_range_to_original] of
    [crates/stasis_compiler/src/frontend/parser.rs], with the byte scanners of that file.

    A declaration of a test is rewritten to a function; its header is generated from parts
    of the source.  The slices are next to ASCII bytes and cannot panic; [None] is a panic
    of [parse_top_level_functions] on the rewritten declaration, or a lack of fuel. *)

From S2P Require Import Prelude Lexer Identity Text Imports BodyScan ParserTokens ParserFunctions.
#[local] Open Scope Z_scope.

Record ParsedTestDeclaration := mkTest {
  display_name : str;
  generated_function_name : str;
  return_type_name : str;
  generated_header : str;
  header_source_ranges : list ((nat * nat) * (nat * nat));
  declaration_range : nat * nat;
  body_range : nat * nat;
}.

(** ** Scanning *)

(** The bytes of a string after its opening quote. *)
Fixpoint quoted_len (fuel : nat) (rest : str) : nat :=
  match fuel with
  | O => 0
  | S fuel' =>
      match rest with
      | [] => 0
      | b :: rest' =>
          if b =? BACKSLASH then 2 + quoted_len fuel' (tail rest')
          else if b =? QUOTE then 1
          else S (quoted_len fuel' rest')
      end
  end.

(** The end of the comment or string that starts at [cursor]. *)
Definition skip_comment_or_string (source : str) (cursor : nat) : option nat :=
  match drop cursor source with
  | b :: rest =>
      if (b =? SLASH) && next_is SLASH rest then Some (cursor + 2 + line_len (tail rest))%nat
      else if (b =? SLASH) && next_is STAR rest then
        Some (match block_len (tail rest) with Some len => cursor + 2 + len | None => length source end)%nat
      else if b =? QUOTE then Some (Nat.min (cursor + 1 + quoted_len (S (length rest)) rest) (length source))
      else None
  | [] => None
  end.

(** The loop of [find_matching_delimiter]. *)
Fixpoint delimiter_loop (fuel : nat) (source : str) (open close : Z) (cursor depth : nat) : option (option nat) :=
  match fuel with
  | O => None
  | S fuel' =>
      match source !! cursor with
      | None => Some None
      | Some byte =>
          match skip_comment_or_string source cursor with
          | Some next => delimiter_loop fuel' source open close next depth
          | None =>
              if byte =? open then delimiter_loop fuel' source open close (S cursor) (S depth)
              else if byte =? close then
                if (depth - 1 =? 0)%nat then Some (Some cursor)
                else delimiter_loop fuel' source open close (S cursor) (depth - 1)
              else delimiter_loop fuel' source open close (S cursor) depth
          end
      end
  end.

Definition find_matching_delimiter (source : str) (first : nat) (open close : Z) : option (option nat) :=
  if negb (bool_decide (source !! first = Some open)) then Some None
  else delimiter_loop (S (length source)) source open close first 0.

(** The loop of [skip_ascii_whitespace_and_comments]: a comment that is not closed leaves
    its last byte. *)
Fixpoint space_loop (fuel : nat) (source : str) (cursor : nat) : option nat :=
  match fuel with
  | O => None
  | S fuel' =>
      let cursor := (cursor + blanks (drop cursor source))%nat in
      match drop cursor source with
      | b :: rest =>
          if (b =? SLASH) && next_is SLASH rest then space_loop fuel' source (cursor + 2 + line_len (tail rest))
          else if (b =? SLASH) && next_is STAR rest then
            space_loop fuel' source
              (match block_len (tail rest) with Some len => cursor + 2 + len | None => Nat.max (cursor + 2) (length source - 1) end)
          else Some cursor
      | [] => Some cursor
      end
  end.

Definition skip_ascii_whitespace_and_comments (source : str) (cursor : nat) : option nat :=
  space_loop (S (length source)) source cursor.

Definition snippet_from (source : str) (first : nat) : str :=
  if char_starts source first then take_chars 64 (drop first source) else [].

Definition parse_identifier (source : str) (first : nat) : Result (str * nat) str :=
  match source !! first with
  | None => Err (string_bytes "expected identifier but reached end of source")
  | Some b =>
      if is_ascii_alphabetic b || (b =? 95) then
        let last := (S first + identifier_len (drop (S first) source))%nat in
        Ok (text_slice source first last, last)
      else Err (string_bytes "expected identifier near '" ++ snippet_from source first ++ string_bytes "'")
  end.

Definition starts_with_keyword (source : str) (cursor : nat) (keyword : string) : bool :=
  let is_identifier_at i := match source !! i with Some b => is_identifier_char b | None => false end in
  starts_with (string_bytes keyword) (drop cursor source)
  && ((cursor =? 0)%nat || negb (is_identifier_at (cursor - 1)%nat))
  && negb (is_identifier_at (cursor + String.length keyword)%nat).

(** ** A declaration *)

Definition named_error (name : str) (after : string) : str := string_bytes "test '" ++ name ++ string_bytes after.

(** The loop over the attributes: the cursor after them. *)
Fixpoint attribute_loop (fuel : nat) (source : str) (cursor : nat) : Parse nat str :=
  match fuel with
  | O => None
  | S fuel' =>
      if bool_decide (source !! cursor = Some AT) then
        parse! (_, next) := Some (parse_identifier source (S cursor)) in
        cursor ← skip_ascii_whitespace_and_comments source next;
        if bool_decide (source !! cursor = Some LPAREN) then
          close ← find_matching_delimiter source cursor LPAREN RPAREN;
          parse! close := Some (ok_or close (string_bytes "unterminated test attribute")) in
          cursor ← skip_ascii_whitespace_and_comments source (S close);
          attribute_loop fuel' source cursor
        else attribute_loop fuel' source cursor
      else Some (Ok cursor)
  end.

(** The index of the backtick that closes the name at [cursor]. *)
Definition name_end (source : str) (cursor : nat) : option nat :=
  (λ distance, cursor + distance)%nat <$> find_byte BACKTICK (drop cursor source).

Definition candidate (symbol_index : nat) : str := string_bytes "__stasis_test_" ++ show (Z.of_nat symbol_index).

(** The loop that generates the name of the function. *)
Fixpoint generate_name (fuel : nat) (source : str) (out : list ParsedTestDeclaration) (symbol_index : nat) : option str :=
  match fuel with
  | O => None
  | S fuel' =>
      let name := candidate symbol_index in
      if bool_decide (is_Some (find_text name source)) || existsb (λ t, bool_decide (generated_function_name t = name)) out
      then generate_name fuel' source out (S symbol_index)
      else Some name
  end.

(** Enough for all names that the source or a test before has. *)
Definition name_fuel (source : str) (out : list ParsedTestDeclaration) : nat :=
  S (S (length source) * S (length source) + length out).

Definition escape_label (name : str) : str :=
  replace_byte 0 (string_bytes "\0") (replace_byte 9 (string_bytes "\t") (replace_byte 13 (string_bytes "\r")
    (replace_byte NEWLINE (string_bytes "\n") (replace_byte QUOTE [BACKSLASH; QUOTE]
      (replace_byte BACKSLASH [BACKSLASH; BACKSLASH] name))))).

Definition header_prefix (name : str) : str :=
  string_bytes "function @test(" ++ [QUOTE] ++ escape_label name ++ [QUOTE] ++ string_bytes ") ".

(** The places that a declaration is cut at, each an index into the source. *)
Record TestCuts := mkCuts {
  cut_declaration : nat;
  cut_attributes : nat;
  cut_attributes_end : nat;
  cut_signature : nat;
  cut_body : nat;
  cut_end : nat;
}.

(** The name, the type of the result and the cuts of the test at [declaration_start]. *)
Definition parse_test_cuts (source : str) (declaration_start : nat) : Parse (str * str * TestCuts) str :=
  let attributes_start := (declaration_start + 4)%nat in
  cursor ← skip_ascii_whitespace_and_comments source attributes_start;
  parse! cursor := attribute_loop (S (length source)) source cursor in
  let attributes_end := cursor in
  if negb (bool_decide (source !! cursor = Some BACKTICK))
  then refuse (string_bytes "test declaration missing backtick name near '" ++ snippet_from source declaration_start ++ string_bytes "'")
  else
    let name_start := S cursor in
    parse! name_end := Some (ok_or (name_end source name_start)
                               (string_bytes "unterminated test name (missing closing backtick)")) in
    let name := text_slice source name_start name_end in
    let signature_start := S name_end in
    cursor ← skip_ascii_whitespace_and_comments source signature_start;
    if negb (bool_decide (source !! cursor = Some LPAREN))
    then refuse (named_error name "' must not declare generic parameters and requires '()'")
    else
      close ← find_matching_delimiter source cursor LPAREN RPAREN;
      parse! params_close := Some (ok_or close (named_error name "' missing ')'")) in
      cursor ← skip_ascii_whitespace_and_comments source (S params_close);
      if negb (bool_decide (source !! cursor = Some COLON))
      then refuse (named_error name "' missing ': bool' or ': string' return type")
      else
        cursor ← skip_ascii_whitespace_and_comments source (S cursor);
        parse! (return_type, next) := Some (parse_identifier source cursor) in
        cursor ← skip_ascii_whitespace_and_comments source next;
        if negb (bool_decide (source !! cursor = Some LCURLY))
        then refuse (named_error name "' missing body block")
        else
          close ← find_matching_delimiter source cursor LCURLY RCURLY;
          parse! body_close := Some (ok_or close (named_error name "' missing closing '}'")) in
          Some (Ok (name, return_type,
                    mkCuts declaration_start attributes_start attributes_end signature_start cursor (S body_close))).

(** The header of the generated function, with the ranges that it takes from the source. *)
Definition test_header (source name function_name : str) (c : TestCuts) : str * list ((nat * nat) * (nat * nat)) :=
  let attributes := text_slice source (cut_attributes c) (cut_attributes_end c) in
  let signature := text_slice source (cut_signature c) (cut_body c) in
  let header := header_prefix name ++ attributes ++ function_name ++ signature in
  let prefix_len := length (header_prefix name) in
  let attributes_len := (cut_attributes_end c - cut_attributes c)%nat in
  (header,
   [((prefix_len, prefix_len + attributes_len)%nat, (cut_attributes c, cut_attributes_end c));
    ((prefix_len + attributes_len + length function_name, length header)%nat, (cut_signature c, cut_body c))]).

(** The checks of the generated function. *)
Definition check_test (name return_type : str) (function : ParsedFunctionSignature) : Result unit str :=
  if negb (bool_decide (fn_params function = [])) then Err (named_error name "' must not declare parameters")
  else if negb (bool_decide (return_type = string_bytes "bool")) && negb (bool_decide (return_type = string_bytes "string"))
  then Err (named_error name "' return type must be bool or string, found '" ++ return_type ++ string_bytes "'")
  else if existsb (λ a, bool_decide (ann_name a = string_bytes "extern")) (fn_annotations function)
  then Err (named_error name "' cannot be extern")
  else Ok tt.

(** The test at [declaration_start]. *)
Definition parse_test (source : str) (declaration_start : nat) (out : list ParsedTestDeclaration) :
    Parse ParsedTestDeclaration str :=
  parse! (name, return_type, c) := parse_test_cuts source declaration_start in
  function_name ← generate_name (name_fuel source out) source out (length out);
  let (header, ranges) := test_header source name function_name c in
  let lowered := header ++ text_slice source (cut_body c) (cut_end c) in
  parse! functions := parse_top_level_functions lowered in
  parse! function := Some (ok_or (head functions) (string_bytes "invalid test '" ++ name ++ string_bytes "'")) in
  parse! _ := Some (check_test name return_type function) in
  Some (Ok (mkTest name function_name (fn_return_type_name function) header ranges
              (declaration_start, cut_end c) (cut_body c, cut_end c))).

(** The loop of [parse_top_level_test_declarations]. *)
Fixpoint tests_loop (fuel : nat) (source : str) (cursor depth : nat) (out : list ParsedTestDeclaration) :
    Parse (list ParsedTestDeclaration) str :=
  match fuel with
  | O => None
  | S fuel' =>
      match source !! cursor with
      | None => Some (Ok out)
      | Some byte =>
          match skip_comment_or_string source cursor with
          | Some next => tests_loop fuel' source next depth out
          | None =>
              if byte =? LCURLY then tests_loop fuel' source (S cursor) (S depth) out
              else if byte =? RCURLY then tests_loop fuel' source (S cursor) (depth - 1) out
              else if (depth =? 0)%nat && starts_with_keyword source cursor "test" then
                parse! test := parse_test source cursor out in
                tests_loop fuel' source (declaration_range test).2 depth (out ++ [test])
              else tests_loop fuel' source (S cursor) depth out
          end
      end
  end.

Definition parse_top_level_test_declarations (source : str) : Parse (list ParsedTestDeclaration) str :=
  tests_loop (S (length source)) source 0 0 [].

(** ** Rewriting *)

(** The loop of [rewrite_top_level_test_declarations]. *)
Fixpoint rewrite_loop (source rewritten : str) (cursor : nat) (declarations : list ParsedTestDeclaration) : Result str str :=
  match declarations with
  | [] => Ok (rewritten ++ drop cursor source)
  | d :: rest =>
      if ((declaration_range d).1 <? cursor)%nat || (length source <? (declaration_range d).2)%nat
      then Err (string_bytes "invalid test declaration bounds during rewrite")
      else
        rewrite_loop source
          (rewritten ++ text_slice source cursor (declaration_range d).1 ++ generated_header d ++
           text_slice source (body_range d).1 (body_range d).2)
          (declaration_range d).2 rest
  end.

Definition rewrite_top_level_test_declarations (source : str) : Parse (str * list ParsedTestDeclaration) str :=
  parse! declarations := parse_top_level_test_declarations source in
  if bool_decide (declarations = []) then Some (Ok (source, []))
  else parse! rewritten := Some (rewrite_loop source [] 0 declarations) in Some (Ok (rewritten, declarations)).

(** The range of a header that has the offset, mapped to the source. *)
Fixpoint map_header (relative : nat) (ranges : list ((nat * nat) * (nat * nat))) : option nat :=
  match ranges with
  | [] => None
  | (generated, original) :: rest =>
      if (generated.1 <=? relative)%nat && (relative <? generated.2)%nat then Some (original.1 + relative - generated.1)%nat
      else map_header relative rest
  end.

(** [map_offset]: the additions saturate in [usize] far above the length of a source. *)
Fixpoint map_offset (source_len original_cursor rewritten_cursor : nat) (declarations : list ParsedTestDeclaration)
    (offset : nat) : nat :=
  match declarations with
  | [] => Nat.min (original_cursor + (offset - rewritten_cursor)) source_len
  | d :: rest =>
      let unchanged_len := ((declaration_range d).1 - original_cursor)%nat in
      if (offset <=? rewritten_cursor + unchanged_len)%nat
      then (original_cursor + Nat.min (offset - rewritten_cursor) unchanged_len)%nat
      else
        let rewritten_cursor := (rewritten_cursor + unchanged_len)%nat in
        if (offset <? rewritten_cursor + length (generated_header d))%nat
        then default (declaration_range d).1 (map_header (offset - rewritten_cursor) (header_source_ranges d))
        else
          let rewritten_cursor := (rewritten_cursor + length (generated_header d))%nat in
          let body_len := ((body_range d).2 - (body_range d).1)%nat in
          if (offset <=? rewritten_cursor + body_len)%nat
          then ((body_range d).1 + Nat.min (offset - rewritten_cursor) body_len)%nat
          else map_offset source_len (declaration_range d).2 (rewritten_cursor + body_len) rest offset
  end.

Definition map_rewritten_test_range_to_original (source : str) (declarations : list ParsedTestDeclaration)
    (range : nat * nat) : nat * nat :=
  let first := map_offset (length source) 0 0 declarations range.1 in
  let last := Nat.max (map_offset (length source) 0 0 declarations range.2) first in
  (first, last).
