(* ===== verification/ParserTestsProps.v ===== *)
(** * The declaration parser: rewriting tests

    The declarations of tests that are found are in order and in the source; in the text
    that they are rewritten to, every offset is mapped back to the byte it was copied
    from. *)

From S2P Require Import Prelude Lexer Identity Text Imports ImportsProps BodyScan BodyScanProps BodyTokensProps.
From S2P Require Import ParserTokens ParserFunctions ParserTests.
#[local] Open Scope Z_scope.

(** ** Scanning *)

Lemma skip_comment_spec source cursor next :
  skip_comment_or_string source cursor = Some next → (cursor < next ≤ length source)%nat.
Proof.
  unfold skip_comment_or_string. destruct (drop cursor source) as [|b rest] eqn:E; [done|].
  apply (f_equal length) in E. rewrite length_drop in E. simpl in E.
  assert (∀ c, next_is c rest = true → length (tail rest) = (length rest - 1)%nat ∧ (0 < length rest)%nat) as Hn.
  { unfold next_is. intros c Hc%bool_decide_eq_true. destruct rest; [done|]. simpl. lia. }
  destruct ((b =? SLASH) && next_is SLASH rest) eqn:E1.
  { apply andb_true_iff in E1 as [_ [? ?]%Hn]. intros [= <-]. pose proof (line_len_spec (tail rest)). lia. }
  destruct ((b =? SLASH) && next_is STAR rest) eqn:E2.
  { apply andb_true_iff in E2 as [_ [? ?]%Hn]. intros [= <-]. destruct (block_len (tail rest)) eqn:El; [|lia].
    apply block_len_spec in El. lia. }
  destruct (b =? QUOTE); [|done]. intros [= <-]. lia.
Qed.

Lemma delimiter_loop_spec fuel source open close : ∀ cursor depth i,
  delimiter_loop fuel source open close cursor depth = Some (Some i) → (cursor ≤ i < length source)%nat ∧ source !! i = Some close.
Proof.
  induction fuel as [|fuel IH]; intros cursor depth i; [done|]. cbn [delimiter_loop].
  destruct (source !! cursor) as [byte|] eqn:Hb; [|done].
  destruct (skip_comment_or_string source cursor) as [next|] eqn:Hs.
  { apply skip_comment_spec in Hs. intros [? ?]%IH. split; [lia|done]. }
  destruct (byte =? open); [intros [? ?]%IH; split; [lia|done]|]. destruct (Z.eqb_spec byte close) as [->|]; [|intros [? ?]%IH; split; [lia|done]].
  destruct (_ =? 0)%nat; [|intros [? ?]%IH; split; [lia|done]]. intros [= <-]. apply lookup_lt_Some in Hb as ?. split; [lia|done].
Qed.

Lemma tests_find_matching_spec source first open close i :
  open ≠ close → find_matching_delimiter source first open close = Some (Some i) → (first < i < length source)%nat.
Proof.
  unfold find_matching_delimiter. intros Hne. case_bool_decide as Ho; [|done]. cbn [negb].
  intros [? Hi]%delimiter_loop_spec. assert (first ≠ i) by (intros ->; congruence). lia.
Qed.

Lemma space_loop_spec fuel source : ∀ cursor next, space_loop fuel source cursor = Some next → (cursor ≤ next)%nat.
Proof.
  induction fuel as [|fuel IH]; intros cursor next; [done|]. cbn [space_loop].
  destruct (drop _ source) as [|b rest]; [intros [= <-]; lia|].
  destruct (_ && _); [intros H%IH; lia|]. destruct (_ && _); [|intros [= <-]; lia].
  intros H%IH. destruct (block_len _); lia.
Qed.

Lemma skip_space_spec source cursor next :
  skip_ascii_whitespace_and_comments source cursor = Some next → (cursor ≤ next)%nat.
Proof. apply space_loop_spec. Qed.

Lemma parse_identifier_spec source first name next :
  parse_identifier source first = Ok (name, next) → (first < next ≤ length source)%nat.
Proof.
  unfold parse_identifier. destruct (source !! first) as [b|] eqn:Hb; [|done]. destruct (_ || _); [|done].
  intros [= <- <-]. apply lookup_lt_Some in Hb. pose proof (identifier_len_spec (drop (S first) source)) as [H _].
  rewrite length_drop in H. lia.
Qed.

(** ** The cuts of a test *)

Lemma attribute_loop_spec fuel source : ∀ cursor next,
  attribute_loop fuel source cursor = Some (Ok next) → (cursor ≤ next)%nat.
Proof.
  induction fuel as [|fuel IH]; intros cursor next; [done|]. cbn [attribute_loop]. case_bool_decide as Hat; [|intros [= <-]; lia].
  intros H. bind_step H r Hid. destruct r as [name n]. injection Hid as Hid. apply parse_identifier_spec in Hid.
  bind_step H c Hc. apply skip_space_spec in Hc. case_bool_decide as Hp; [|apply IH in H; lia].
  bind_step H close Hm. bind_step H cl Hcl. destruct close as [close|]; [|done]. injection Hcl as ->.
  apply tests_find_matching_spec in Hm; [|done]. bind_step H c' Hc'. apply skip_space_spec in Hc'. apply IH in H. lia.
Qed.

(** The cuts are in order and in the source. *)
Definition cuts_ok (source : str) (c : TestCuts) : Prop :=
  (cut_declaration c < cut_attributes c)%nat ∧ (cut_attributes c ≤ cut_attributes_end c)%nat
  ∧ (cut_attributes_end c < cut_signature c)%nat ∧ (cut_signature c < cut_body c)%nat
  ∧ (cut_body c < cut_end c ≤ length source)%nat.

Lemma parse_test_cuts_spec source declaration_start name return_type c :
  parse_test_cuts source declaration_start = Some (Ok (name, return_type, c)) →
  cut_declaration c = declaration_start ∧ cuts_ok source c.
Proof.
  unfold parse_test_cuts. cbv zeta. intros H.
  bind_step H c0 H0. apply skip_space_spec in H0. bind_step H c1 H1. apply attribute_loop_spec in H1.
  destruct (negb _); [done|]. bind_step H ne Hne. unfold name_end in Hne.
  destruct (find_byte BACKTICK (drop (S c1) source)) as [distance|] eqn:Hf; [|done]. injection Hne as <-.
  apply find_byte_Some, lookup_lt_Some in Hf. rewrite length_drop in Hf.
  bind_step H c2 H2. apply skip_space_spec in H2. destruct (negb _); [done|].
  bind_step H close Hm. bind_step H pc Hpc. destruct close as [close|]; [|done]. injection Hpc as ->.
  apply tests_find_matching_spec in Hm; [|done]. bind_step H c3 H3. apply skip_space_spec in H3. destruct (negb _); [done|].
  bind_step H c4 H4. apply skip_space_spec in H4. bind_step H r Hr. destruct r as [rt n]. injection Hr as Hr.
  apply parse_identifier_spec in Hr. bind_step H c5 H5. apply skip_space_spec in H5. destruct (negb _); [done|].
  bind_step H close' Hm'. bind_step H bc Hbc. destruct close' as [close'|]; [|done]. injection Hbc as ->.
  apply tests_find_matching_spec in Hm'; [|done]. injection H as <- <- <-. cbn. unfold cuts_ok. cbn. lia.
Qed.

(** ** The declarations of a source *)

(** A test that was cut from the source. *)
Definition test_ok (source : str) (d : ParsedTestDeclaration) : Prop :=
  ∃ name c, cuts_ok source c
    ∧ (generated_header d, header_source_ranges d) = test_header source name (generated_function_name d) c
    ∧ declaration_range d = (cut_declaration c, cut_end c) ∧ body_range d = (cut_body c, cut_end c).

(** The tests are cut from the source from [cursor] on, in order. *)
Fixpoint tests_ok (source : str) (cursor : nat) (decls : list ParsedTestDeclaration) : Prop :=
  match decls with
  | [] => (cursor ≤ length source)%nat
  | d :: rest => (cursor ≤ (declaration_range d).1)%nat ∧ test_ok source d ∧ tests_ok source (declaration_range d).2 rest
  end.

Lemma parse_test_spec source start out d :
  parse_test source start out = Some (Ok d) → test_ok source d ∧ (declaration_range d).1 = start.
Proof.
  unfold parse_test. intros H. bind_step H x Hx. destruct x as [[name return_type] c].
  apply parse_test_cuts_spec in Hx as [Hstart Hc]. bind_step H fname Hf.
  destruct (test_header source name fname c) as [header ranges] eqn:Hh. cbv zeta in H.
  bind_step H fs Hfs. bind_step H f Hf'. bind_step H u Hu. injection H as <-. cbn. split; [|done].
  exists name, c. split; [done|]. cbn. split; [by symmetry|]. by rewrite Hstart.
Qed.

(** Where the last of the tests ends. *)
Fixpoint tests_end (cursor : nat) (decls : list ParsedTestDeclaration) : nat :=
  match decls with [] => cursor | d :: rest => tests_end (declaration_range d).2 rest end.

Lemma tests_ok_snoc source d : ∀ l cursor,
  tests_ok source cursor l → (tests_end cursor l ≤ (declaration_range d).1)%nat → test_ok source d →
  tests_ok source cursor (l ++ [d]) ∧ tests_end cursor (l ++ [d]) = (declaration_range d).2.
Proof.
  induction l as [|e l IH]; intros cursor Hl Hle Hd; cbn [app tests_ok tests_end] in *.
  - split_and!; [done|done| |done]. destruct Hd as (name & c & Hc & _ & -> & _). unfold cuts_ok in Hc. simpl. lia.
  - destruct Hl as (H1 & H2 & H3). destruct (IH _ H3 Hle Hd) as [H4 H5]. by split_and!.
Qed.

Lemma test_end_bounds source d :
  test_ok source d → ((declaration_range d).1 < (body_range d).1 < (declaration_range d).2)%nat
  ∧ ((declaration_range d).2 ≤ length source)%nat ∧ (body_range d).2 = (declaration_range d).2.
Proof. intros (name & c & Hc & _ & -> & ->). unfold cuts_ok in Hc. cbn. lia. Qed.

Lemma tests_loop_spec fuel (source : str) : ∀ cursor depth out decls,
  (cursor ≤ length source)%nat → tests_ok source 0 out → (tests_end 0 out ≤ cursor)%nat →
  tests_loop fuel source cursor depth out = Some (Ok decls) → tests_ok source 0 decls.
Proof.
  induction fuel as [|fuel IH]; intros cursor depth out decls Hc Hout Hend; [done|]. cbn [tests_loop].
  destruct (source !! cursor) as [byte|] eqn:Hb; [|by intros [= <-]]. apply lookup_lt_Some in Hb.
  destruct (skip_comment_or_string source cursor) as [next|] eqn:Hs.
  { apply skip_comment_spec in Hs. apply IH; [lia|done|lia]. }
  destruct (byte =? LCURLY); [apply IH; [lia|done|lia]|]. destruct (byte =? RCURLY); [apply IH; [lia|done|lia]|].
  destruct (_ && _); [|apply IH; [lia|done|lia]]. intros H. bind_step H d Hd.
  apply parse_test_spec in Hd as [Hd Hstart]. destruct (test_end_bounds _ _ Hd) as (? & ? & _).
  destruct (tests_ok_snoc source d out 0 Hout) as [Hok He]; [lia|done|].
  eapply IH; [| | |exact H]; [lia|done|lia].
Qed.

(** ** Where the rewritten text comes from *)

(** The bytes of the source from [first] on, each copied. *)
Definition copied (first len : nat) : list (nat * bool) := (λ x, (x, true)) <$> seq first len.

(** Bytes that were generated for the test at [first]. *)
Definition generated (first len : nat) : list (nat * bool) := replicate len (first, false).

(** The bytes of a header: what is outside the ranges it takes from the source is
    generated. *)
Fixpoint header_origins (first position len : nat) (ranges : list ((nat * nat) * (nat * nat))) : list (nat * bool) :=
  match ranges with
  | [] => generated first (len - position)
  | (g, o) :: rest => generated first (g.1 - position) ++ copied o.1 (o.2 - o.1) ++ header_origins first g.2 len rest
  end.

(** The origin of every byte of the rewritten text: an offset of the source, and whether
    the byte is copied from there or generated for the test there. *)
Fixpoint origins (source : str) (cursor : nat) (decls : list ParsedTestDeclaration) : list (nat * bool) :=
  match decls with
  | [] => copied cursor (length source - cursor)
  | d :: rest =>
      copied cursor ((declaration_range d).1 - cursor)
      ++ header_origins (declaration_range d).1 0 (length (generated_header d)) (header_source_ranges d)
      ++ copied (body_range d).1 ((body_range d).2 - (body_range d).1)
      ++ origins source (declaration_range d).2 rest
  end.

(** A byte agrees with its origin. *)
Definition agrees (source : str) (origin : nat * bool) (byte : Z) : Prop :=
  origin.2 = true → source !! origin.1 = Some byte.

Lemma agrees_slice source i j :
  (i ≤ j ≤ length source)%nat → Forall2 (agrees source) (copied i (j - i)) (text_slice source i j).
Proof.
  intros Hij. unfold copied, text_slice. apply Forall2_fmap_l, Forall2_same_length_lookup_2.
  - rewrite length_seq, length_take, length_drop. lia.
  - intros n x byte [-> Hn]%lookup_seq Hb _. cbn. unfold str in *. rewrite lookup_take_lt in Hb by done.
    by rewrite lookup_drop in Hb.
Qed.

Lemma agrees_generated source first (text : str) : Forall2 (agrees source) (generated first (length text)) text.
Proof.
  unfold generated. apply Forall2_same_length_lookup_2; [by rewrite length_replicate|].
  by intros n x byte [-> _]%lookup_replicate _.
Qed.

(** The parts of the header of a test. *)
Lemma header_parts source d :
  test_ok source d → ∃ prefix attributes attributes_end signature,
    (0 < length prefix)%nat
    ∧ ((declaration_range d).1 < attributes ≤ attributes_end)%nat ∧ (attributes_end < signature < (body_range d).1)%nat
    ∧ generated_header d = prefix ++ text_slice source attributes attributes_end ++ generated_function_name d
        ++ text_slice source signature (body_range d).1
    ∧ header_source_ranges d =
        [((length prefix, length prefix + (attributes_end - attributes))%nat, (attributes, attributes_end));
         ((length prefix + (attributes_end - attributes) + length (generated_function_name d),
           length (generated_header d))%nat, (signature, (body_range d).1))].
Proof.
  intros (name & c & Hc & Hh & -> & ->). unfold cuts_ok in Hc. unfold test_header in Hh. injection Hh as Hh Hr.
  exists (header_prefix name), (cut_attributes c), (cut_attributes_end c), (cut_signature c). cbn [fst snd].
  rewrite Hr, Hh. split_and!; try lia; [|done..]. unfold header_prefix. rewrite length_app. simpl. lia.
Qed.

Lemma length_slice (source : str) i j : (i ≤ j ≤ length source)%nat → length (text_slice source i j) = (j - i)%nat.
Proof. intros H. unfold text_slice. rewrite length_take, length_drop. lia. Qed.

(** The text that the rest of the source is rewritten to. *)
Fixpoint rewritten_text (source : str) (cursor : nat) (decls : list ParsedTestDeclaration) : str :=
  match decls with
  | [] => drop cursor source
  | d :: rest =>
      text_slice source cursor (declaration_range d).1 ++ generated_header d
      ++ text_slice source (body_range d).1 (body_range d).2 ++ rewritten_text source (declaration_range d).2 rest
  end.

Lemma rewrite_loop_spec source : ∀ decls rewritten cursor,
  tests_ok source cursor decls → rewrite_loop source rewritten cursor decls = Ok (rewritten ++ rewritten_text source cursor decls).
Proof.
  induction decls as [|d rest IH]; intros rewritten cursor H; [done|]. destruct H as (H1 & H2 & H3). cbn [rewrite_loop rewritten_text].
  destruct (test_end_bounds _ _ H2) as (? & ? & _).
  rewrite (proj2 (Nat.ltb_ge _ _)), (proj2 (Nat.ltb_ge (length source) _)) by lia. cbn [orb]. rewrite IH by done.
  by rewrite <- !app_assoc.
Qed.

Lemma header_agrees source d :
  test_ok source d →
  Forall2 (agrees source)
    (header_origins (declaration_range d).1 0 (length (generated_header d)) (header_source_ranges d)) (generated_header d).
Proof.
  intros Hd. destruct (test_end_bounds _ _ Hd) as (? & ? & _).
  destruct (header_parts _ _ Hd) as (prefix & a & ae & sg & Hp & Ha & Hs & Hh & Hr). rewrite Hr. cbn [header_origins fst snd].
  assert (length (generated_header d) - length (generated_header d) = 0)%nat as -> by lia. rewrite Nat.sub_0_r.
  match goal with |- Forall2 _ ?l _ => cut (Forall2 (agrees source) l (prefix ++ text_slice source a ae ++
    generated_function_name d ++ text_slice source sg (body_range d).1)); [by rewrite <- Hh|] end.
  apply Forall2_app; [apply agrees_generated|]. apply Forall2_app.
  { apply agrees_slice. lia. }
  replace (length prefix + (ae - a) + length (generated_function_name d) - (length prefix + (ae - a)))%nat
    with (length (generated_function_name d)) by lia.
  apply Forall2_app; [apply agrees_generated|]. cbn [generated replicate]. rewrite app_nil_r. apply agrees_slice. lia.
Qed.

Lemma rewritten_agrees source : ∀ decls cursor,
  tests_ok source cursor decls → Forall2 (agrees source) (origins source cursor decls) (rewritten_text source cursor decls).
Proof.
  induction decls as [|d rest IH]; intros cursor H; cbn [origins rewritten_text].
  - cbn in H. rewrite <- (take_ge (drop cursor source) (length source - cursor)) by (rewrite length_drop; lia).
    apply agrees_slice. lia.
  - destruct H as (H1 & H2 & H3). destruct (test_end_bounds _ _ H2) as (? & ? & ?).
    apply Forall2_app; [apply agrees_slice; lia|]. apply Forall2_app; [by apply header_agrees|].
    apply Forall2_app; [apply agrees_slice; lia|by apply IH].
Qed.

(** ** Mapping back *)

Lemma copied_lookup first len o x b : copied first len !! o = Some (x, b) → x = (first + o)%nat ∧ b = true ∧ (o < len)%nat.
Proof. unfold copied. rewrite list_lookup_fmap. intros (y & Hy & [= -> ->])%fmap_Some. apply lookup_seq in Hy as [-> ?]. done. Qed.

Lemma generated_lookup first len o x b : generated first len !! o = Some (x, b) → x = first ∧ b = false ∧ (o < len)%nat.
Proof. unfold generated. by intros [[= -> ->] Ho]%lookup_replicate. Qed.

Lemma length_copied first len : length (copied first len) = len.
Proof. unfold copied. by rewrite length_fmap, length_seq. Qed.

Lemma length_generated first len : length (generated first len) = len.
Proof. apply length_replicate. Qed.

Lemma header_maps source d o x b :
  test_ok source d →
  header_origins (declaration_range d).1 0 (length (generated_header d)) (header_source_ranges d) !! o = Some (x, b) →
  default (declaration_range d).1 (map_header o (header_source_ranges d)) = x ∧ (o < length (generated_header d))%nat
  ∧ (b = false → x = (declaration_range d).1) ∧ (o = 0%nat → x = (declaration_range d).1).
Proof.
  intros Hd Ho. pose proof (Forall2_length _ _ _ (header_agrees _ _ Hd)) as Hlen.
  pose proof (lookup_lt_Some _ _ _ Ho) as Hlt. rewrite Hlen in Hlt. destruct (test_end_bounds _ _ Hd) as (? & ? & _).
  destruct (header_parts _ _ Hd) as (prefix & a & ae & sg & Hp & Ha & Hs & Hh & Hr).
  assert (length (generated_header d) = length prefix + (ae - a) + length (generated_function_name d) + ((body_range d).1 - sg))%nat as Hl.
  { rewrite Hh, !length_app, !length_slice by lia. lia. }
  rewrite Hr in *. cbn [header_origins fst snd map_header] in *. clear Hlen Hh. rewrite Nat.sub_0_r in Ho.
  rewrite !lookup_app_Some, !length_generated, !length_copied in Ho.
  destruct Ho as [(-> & -> & ?)%generated_lookup|[? [(-> & -> & ?)%copied_lookup|[? [(-> & -> & ?)%generated_lookup
    |[? [(-> & -> & ?)%copied_lookup|[? (-> & -> & ?)%generated_lookup]]]]]]]].
  all: repeat match goal with |- context [(?i <=? ?j)%nat] => destruct (Nat.leb_spec i j) end; try lia.
  all: repeat match goal with |- context [(?i <? ?j)%nat] => destruct (Nat.ltb_spec i j) end; try lia.
  all: cbn [andb]; unfold default, id; split_and!; try done; lia.
Qed.

Lemma origins_first source : ∀ decls cursor x b,
  tests_ok source cursor decls → origins source cursor decls !! 0%nat = Some (x, b) → x = cursor.
Proof.
  intros [|d rest] cursor x b H; cbn [origins].
  - intros (-> & _ & _)%copied_lookup. lia.
  - destruct H as (H1 & H2 & _). rewrite lookup_app_Some, length_copied.
    intros [(-> & _ & _)%copied_lookup|[Hz H]]; [lia|]. pose proof (header_parts _ _ H2) as (prefix & a & ae & sg & Hp & _ & _ & Hh & _).
    rewrite lookup_app_l in H.
    + apply (header_maps _ _ _ _ _ H2) in H as (_ & _ & _ & H). specialize (H ltac:(lia)). lia.
    + rewrite (Forall2_length _ _ _ (header_agrees _ _ H2)), Hh, length_app. lia.
Qed.

Lemma map_offset_spec source : ∀ decls cursor rewritten_cursor o x b,
  tests_ok source cursor decls → origins source cursor decls !! o = Some (x, b) →
  map_offset (length source) cursor rewritten_cursor decls (rewritten_cursor + o) = x
  ∧ (b = false → ∃ d, d ∈ decls ∧ x = (declaration_range d).1).
Proof.
  induction decls as [|d rest IH]; intros cursor rc o x b Hok Ho; cbn [origins map_offset] in *.
  { apply copied_lookup in Ho as (-> & -> & ?). split; [lia|done]. }
  destruct Hok as (H1 & H2 & H3). destruct (test_end_bounds _ _ H2) as (? & ? & Hend).
  pose proof (header_parts _ _ H2) as (prefix & a & ae & sg & Hp & _ & _ & Hh & _).
  assert (0 < length (generated_header d))%nat as Hpos by (rewrite Hh, length_app; lia).
  pose proof (Forall2_length _ _ _ (header_agrees _ _ H2)) as Hlen.
  rewrite !lookup_app_Some, !length_copied, Hlen in Ho. set (unchanged := ((declaration_range d).1 - cursor)%nat) in *.
  assert (cursor + unchanged = (declaration_range d).1)%nat as Hu by (unfold unchanged; lia). clearbody unchanged.
  destruct Ho as [(-> & -> & ?)%copied_lookup|[? Ho]].
  { rewrite (proj2 (Nat.leb_le _ _)) by lia. split; [lia|done]. }
  destruct Ho as [Ho|[? Ho]].
  { apply (header_maps _ _ _ _ _ H2) in Ho as (Hm & Hlt & Hb & Hz). split; [|intros Hf; exists d; split; [apply list_elem_of_here|by apply Hb]].
    destruct (Nat.leb_spec (rc + o) (rc + unchanged)); [specialize (Hz ltac:(lia)); lia|].
    rewrite (proj2 (Nat.ltb_lt _ _)) by lia. by replace (rc + o - (rc + unchanged))%nat with (o - unchanged)%nat by lia. }
  rewrite (proj2 (Nat.leb_gt _ _)), (proj2 (Nat.ltb_ge _ _)) by lia.
  destruct Ho as [(-> & -> & ?)%copied_lookup|[? Ho]].
  { rewrite (proj2 (Nat.leb_le _ _)) by lia. split; [lia|done]. }
  destruct (Nat.leb_spec (rc + o) (rc + unchanged + length (generated_header d) + ((body_range d).2 - (body_range d).1))) as [Hle|Hgt].
  - assert (o - unchanged - length (generated_header d) - ((body_range d).2 - (body_range d).1) = 0)%nat as Hz by lia.
    rewrite Hz in Ho. destruct (IH _ (rc + o)%nat _ _ _ H3 Ho) as [_ Hb]. apply origins_first in Ho; [|done]. split; [lia|].
    intros Hf. destruct (Hb Hf) as (e & He & ->). exists e. split; [by apply list_elem_of_further|done].
  - destruct (IH _ (rc + unchanged + length (generated_header d) + ((body_range d).2 - (body_range d).1))%nat _ _ _ H3 Ho) as [Hm Hb].
    split; [rewrite <- Hm; f_equal; lia|].
    intros Hf. destruct (Hb Hf) as (e & He & ->). exists e. split; [by apply list_elem_of_further|done].
Qed.

(** What is not in the header of a test is copied. *)
Lemma origins_complete source : ∀ decls cursor x,
  tests_ok source cursor decls → (cursor ≤ x < length source)%nat →
  (∀ d, d ∈ decls → ¬ ((declaration_range d).1 ≤ x < (body_range d).1)%nat) → (x, true) ∈ origins source cursor decls.
Proof.
  assert (∀ first len x, (first ≤ x < first + len)%nat → (x, true) ∈ copied first len) as Hcopied.
  { intros first len x H. unfold copied. apply list_elem_of_fmap. exists x. split; [done|]. by apply elem_of_seq. }
  induction decls as [|d rest IH]; intros cursor x Hok Hx Hn; cbn [origins].
  { apply Hcopied. lia. }
  destruct Hok as (H1 & H2 & H3). destruct (test_end_bounds _ _ H2) as (? & ? & Hend). specialize (Hn d (list_elem_of_here _ _)) as Hd.
  rewrite !elem_of_app. destruct (decide (x < (declaration_range d).1)%nat); [left; apply Hcopied; lia|].
  destruct (decide (x < (declaration_range d).2)%nat); [right; right; left; apply Hcopied; lia|].
  right. right. right. apply IH; [done|lia|]. intros e He. by apply Hn, list_elem_of_further.
Qed.

(** C22 The text that the tests of a source are rewritten to maps back to the source.  The
    tests are found in order, one after the other, and within the source.  Every byte of
    the rewritten text has an origin: it is copied from an offset of the source, which
    then has the same byte, or generated for the test at that offset; and
    [map_rewritten_test_range_to_original] maps the offset of the byte to its origin.
    Everything outside the headers of tests is copied. *)
Theorem rewritten_tests_map_back source rewritten decls :
  rewrite_top_level_test_declarations source = Some (Ok (rewritten, decls)) →
  tests_ok source 0 decls
  ∧ length (origins source 0 decls) = length rewritten
  ∧ (∀ o x b, origins source 0 decls !! o = Some (x, b) →
       (map_rewritten_test_range_to_original source decls (o, o)).1 = x
       ∧ (b = true → source !! x = rewritten !! o)
       ∧ (b = false → ∃ d, d ∈ decls ∧ x = (declaration_range d).1))
  ∧ ∀ x, (x < length source)%nat → (∀ d, d ∈ decls → ¬ ((declaration_range d).1 ≤ x < (body_range d).1)%nat) →
      (x, true) ∈ origins source 0 decls.
Proof.
  unfold rewrite_top_level_test_declarations, parse_top_level_test_declarations. intros H. bind_step H ds Hds.
  apply tests_loop_spec in Hds; [|lia|cbn; lia|cbn; lia].
  assert (ds = decls ∧ rewritten = rewritten_text source 0 decls) as [-> ->].
  { case_bool_decide as Hne; [by injection H as <- <-; rewrite Hne|]. rewrite rewrite_loop_spec in H by done. by injection H as <- <-. }
  pose proof (rewritten_agrees source decls 0 Hds) as Hag. split; [done|]. split; [by eapply Forall2_length|]. split.
  - intros o x b Ho. destruct (map_offset_spec source decls 0 0 o x b Hds Ho) as [Hm Hb]. split; [done|]. split; [|done].
    intros ->. destruct (Forall2_lookup_l _ _ _ _ _ Hag Ho) as (byte & Hby & Hag'). etrans; [by apply Hag'|by symmetry].
  - intros x Hx Hn. apply origins_complete; [done|lia|done].
Qed.

(** ** Witness *)

Definition sample_tests : str :=
  string_bytes "const a: i32 = 1; test @slow `adds` ( ): bool { return a + 1 == 2; } global b: i32;".

Lemma rewritten_tests_map_back_witness :
  match rewrite_top_level_test_declarations sample_tests with
  | Some (Ok (rewritten, decls)) =>
      length decls = 1%nat ∧ (map_rewritten_test_range_to_original sample_tests decls (80, 80)%nat).1 = 52%nat
      ∧ length (origins sample_tests 0 decls) = length rewritten
  | _ => False
  end.
Proof.
  destruct (rewrite_top_level_test_declarations sample_tests) as [[[rewritten decls]|]|] eqn:E; [|by vm_compute in E..].
  destruct (rewritten_tests_map_back sample_tests rewritten decls E) as (_ & Hlen & _).
  vm_compute in E. injection E as <- <-. split; [done|]. split; [by vm_compute|done].
Defined.
