(* ===== verification/Effects.v ===== *)
(** * Effects of functions

    Models the effect sets of [crates/stasis_compiler/src/data_flow.rs]: what a function
    reads, writes and calls, the paths through its parameters, written [$0.field], and how
    the effects of a callee become those of its caller.

    A [BTreeSet] is its sorted list and a [BTreeMap] its sorted list of entries.  A
    [u64] count is [None] when it is not known or overflows. *)

From S2P Require Import Prelude BTree Lexer Identity Text Imports.
#[local] Open Scope Z_scope.
#[local] Set Warnings "-register-all".

#[export] Instance option_ord {A} `{OrdKey A} : OrdKey (option A).
Proof.
  refine (ord_via (λ o, match o with None => (0%nat, []) | Some x => (1%nat, [x]) end) _).
  by intros [x|] [y|]; intros [=]; subst.
Defined.

(** ** The sets *)

Record FunctionHostEffect := mkHostEffect {
  hf_function : str;
  hf_capability : str;
}.

#[export] Instance FunctionHostEffect_ord : OrdKey FunctionHostEffect.
Proof. refine (ord_via (λ e, (hf_function e, hf_capability e)) _). by intros [] []; intros [=]; subst. Defined.

Record FunctionHostCallCost := mkHostCallCost {
  hcc_function : str;
  hcc_max_invocations : option Z;
  hcc_scope : str;
}.

Record FunctionBoundedIteration := mkIteration {
  bi_function : str;
  bi_kind : str;
  bi_bound : str;
  bi_max_iterations : option Z;
  bi_nesting_depth : Z;
  bi_max_iteration_product : option Z;
  bi_source_order : Z;
  bi_reads : list str;
  bi_scanned_paths : list str;
}.

#[export] Instance FunctionBoundedIteration_ord : OrdKey FunctionBoundedIteration.
Proof.
  refine (ord_via (λ i, (bi_function i, (bi_kind i, (bi_bound i, (bi_max_iterations i, (bi_nesting_depth i,
    (bi_max_iteration_product i, (bi_source_order i, (bi_reads i, bi_scanned_paths i))))))))) _).
  by intros [] []; intros [=]; subst.
Defined.

Record CallSite := mkSite {
  target_id : nat;
  arguments : list (option str);
  max_invocations : option Z;
  outer_nesting_depth : Z;
}.

#[export] Instance CallSite_eq_dec : EqDecision CallSite.
Proof. solve_decision. Defined.

Record EffectSets := mkEffects {
  reads : list str;
  writes : list str;
  parameter_reads : list str;
  parameter_writes : list str;
  calls : list str;
  host_calls : list str;
  host_effects : list FunctionHostEffect;
  host_call_costs : list (str * option Z);
  bounded_iterations : list FunctionBoundedIteration;
  site_list : list CallSite;
  iteration_scans : list (Z * list str);
  iteration_products : list (Z * option Z);
  active_iterations : list Z;
  next_iteration_id : Z;
  local_types : list (str * Z * bool);
}.

#[export] Instance EffectSets_eq_dec : EqDecision EffectSets.
Proof. solve_decision. Defined.

Definition no_effects : EffectSets := mkEffects [] [] [] [] [] [] [] [] [] [] [] [] [] 0 [].

(** The sets are updated one field at a time. *)
Definition with_reads f e := mkEffects (f (reads e)) (writes e) (parameter_reads e) (parameter_writes e) (calls e)
  (host_calls e) (host_effects e) (host_call_costs e) (bounded_iterations e) (site_list e) (iteration_scans e)
  (iteration_products e) (active_iterations e) (next_iteration_id e) (local_types e).
Definition with_writes f e := mkEffects (reads e) (f (writes e)) (parameter_reads e) (parameter_writes e) (calls e)
  (host_calls e) (host_effects e) (host_call_costs e) (bounded_iterations e) (site_list e) (iteration_scans e)
  (iteration_products e) (active_iterations e) (next_iteration_id e) (local_types e).
Definition with_parameter_reads f e := mkEffects (reads e) (writes e) (f (parameter_reads e)) (parameter_writes e) (calls e)
  (host_calls e) (host_effects e) (host_call_costs e) (bounded_iterations e) (site_list e) (iteration_scans e)
  (iteration_products e) (active_iterations e) (next_iteration_id e) (local_types e).
Definition with_parameter_writes f e := mkEffects (reads e) (writes e) (parameter_reads e) (f (parameter_writes e)) (calls e)
  (host_calls e) (host_effects e) (host_call_costs e) (bounded_iterations e) (site_list e) (iteration_scans e)
  (iteration_products e) (active_iterations e) (next_iteration_id e) (local_types e).
Definition with_calls f e := mkEffects (reads e) (writes e) (parameter_reads e) (parameter_writes e) (f (calls e))
  (host_calls e) (host_effects e) (host_call_costs e) (bounded_iterations e) (site_list e) (iteration_scans e)
  (iteration_products e) (active_iterations e) (next_iteration_id e) (local_types e).
Definition with_host_calls f e := mkEffects (reads e) (writes e) (parameter_reads e) (parameter_writes e) (calls e)
  (f (host_calls e)) (host_effects e) (host_call_costs e) (bounded_iterations e) (site_list e) (iteration_scans e)
  (iteration_products e) (active_iterations e) (next_iteration_id e) (local_types e).
Definition with_host_effects f e := mkEffects (reads e) (writes e) (parameter_reads e) (parameter_writes e) (calls e)
  (host_calls e) (f (host_effects e)) (host_call_costs e) (bounded_iterations e) (site_list e) (iteration_scans e)
  (iteration_products e) (active_iterations e) (next_iteration_id e) (local_types e).
Definition with_host_call_costs f e := mkEffects (reads e) (writes e) (parameter_reads e) (parameter_writes e) (calls e)
  (host_calls e) (host_effects e) (f (host_call_costs e)) (bounded_iterations e) (site_list e) (iteration_scans e)
  (iteration_products e) (active_iterations e) (next_iteration_id e) (local_types e).
Definition with_bounded_iterations f e := mkEffects (reads e) (writes e) (parameter_reads e) (parameter_writes e) (calls e)
  (host_calls e) (host_effects e) (host_call_costs e) (f (bounded_iterations e)) (site_list e) (iteration_scans e)
  (iteration_products e) (active_iterations e) (next_iteration_id e) (local_types e).
Definition with_site_list f e := mkEffects (reads e) (writes e) (parameter_reads e) (parameter_writes e) (calls e)
  (host_calls e) (host_effects e) (host_call_costs e) (bounded_iterations e) (f (site_list e)) (iteration_scans e)
  (iteration_products e) (active_iterations e) (next_iteration_id e) (local_types e).
Definition with_iteration_scans f e := mkEffects (reads e) (writes e) (parameter_reads e) (parameter_writes e) (calls e)
  (host_calls e) (host_effects e) (host_call_costs e) (bounded_iterations e) (site_list e) (f (iteration_scans e))
  (iteration_products e) (active_iterations e) (next_iteration_id e) (local_types e).

(** [BTreeSet::extend] *)
Definition extend `{OrdKey K} (xs l : list K) : list K := foldl (λ acc x, set_insert x acc) l xs.

(** ** Recording *)

Definition DOLLAR : Z := 36.

(** [path.starts_with('$')] *)
Definition is_symbolic (path : str) : bool := match path with b :: _ => b =? DOLLAR | [] => false end.

Definition contains_star (path : str) : bool := bool_decide (is_Some (find_text (string_bytes "[*]") path)).

(** The scan of a collection in the innermost loop. *)
Definition record_scanned_path (path : str) (e : EffectSets) : EffectSets :=
  if negb (contains_star path) || ends_with (string_bytes ".length") path || ends_with (string_bytes ".max_length") path then e
  else
    match last (active_iterations e) with
    | Some i => with_iteration_scans (λ m, map_insert i (default [] (map_get i m) ++ [path]) m) e
    | None => e
    end.

Definition insert_read (path : str) (e : EffectSets) : EffectSets :=
  let e := record_scanned_path path e in
  if is_symbolic path then with_parameter_reads (set_insert path) e else with_reads (set_insert path) e.

Definition insert_write (path : str) (e : EffectSets) : EffectSets :=
  let e := record_scanned_path path e in
  if is_symbolic path then with_parameter_writes (set_insert path) e else with_writes (set_insert path) e.

(** [target.zip(value).and_then(checked_add)] *)
Definition merge_host_call_cost (target value : option Z) : option Z :=
  a ← target; b ← value; checked_u 64 (a + b).

(** [multiplier.zip(count).and_then(checked_mul)] *)
Definition scale (multiplier count : option Z) : option Z :=
  a ← multiplier; b ← count; checked_u 64 (a * b).

(** [merge_host_call_cost(target.entry(function).or_insert(Some(0)), value)] *)
Definition add_cost (function : str) (value : option Z) (m : list (str * option Z)) : list (str * option Z) :=
  map_insert function (merge_host_call_cost (default (Some 0) (map_get function m)) value) m.

Definition merge_host_call_costs (multiplier : option Z) (source target : list (str * option Z)) : list (str * option Z) :=
  foldl (λ m entry, add_cost entry.1 (scale multiplier entry.2) m) target source.

(** How often the innermost loop runs. *)
Definition current_multiplier (e : EffectSets) : option Z :=
  default (Some 1) (i ← last (active_iterations e); map_get i (iteration_products e)).

Definition record_host_call (function : str) (e : EffectSets) : EffectSets :=
  with_host_call_costs (add_cost function (current_multiplier e)) e.

(** The call sites are equal up to the number of invocations. *)
Definition same_site (target : nat) (args : list (option str)) (depth : Z) (s : CallSite) : bool :=
  (target_id s =? target)%nat && bool_decide (arguments s = args) && (outer_nesting_depth s =? depth).

Definition record_call_site (target : nat) (args : list (option str)) (e : EffectSets) : EffectSets :=
  let invocations := current_multiplier e in
  let depth := Z.min (Z.of_nat (length (active_iterations e))) u32_max in
  match list_find (λ s, same_site target args depth s = true) (site_list e) with
  | Some (i, s) =>
      with_site_list (λ l, <[i := mkSite (target_id s) (arguments s) (merge_host_call_cost (max_invocations s) invocations)
                                    (outer_nesting_depth s)]> l) e
  | None => with_site_list (λ l, l ++ [mkSite target args invocations depth]) e
  end.

(** ** Paths through parameters *)

Fixpoint leading_digits (s : str) : str :=
  match s with
  | c :: s' => if is_ascii_digit c then c :: leading_digits s' else []
  | [] => []
  end.

(** The index and the rest of a path that starts with a dollar sign. *)
Definition symbolic_parts (path : str) : option (option Z * str) :=
  match path with
  | b :: symbolic =>
      if b =? DOLLAR then
        let digits := leading_digits symbolic in
        Some (parse_unsigned 64 digits, drop (length digits) symbolic)
      else None
  | [] => None
  end.

(** A path of a callee, in the caller: through the argument, when it is known. *)
Definition substitute_path (path : str) (substitutions : list (Z * str)) (retain_unmapped : bool) : option str :=
  match symbolic_parts path with
  | None => Some path
  | Some (index, suffix) =>
      index ← index;
      match map_get index substitutions with
      | Some base => Some (base ++ suffix)
      | None => if retain_unmapped then Some path else None
      end
  end.

Definition symbolic_parameter_index (path : str) : option Z := p ← symbolic_parts path; p.1.

(** [enumerate().filter_map(..).collect()]: the known arguments by index. *)
Definition substitutions_of (args : list (option str)) : list (Z * str) :=
  omap (λ p, (λ path, (Z.of_nat p.1, path)) <$> p.2) (imap pair args).

Definition public_parameter_path (path : str) (parameter_names : list str) : option str :=
  p ← symbolic_parts path;
  index ← p.1;
  name ← if index <? Z.of_nat (length parameter_names) then parameter_names !! Z.to_nat index else None;
  Some (name ++ p.2).

Definition public_parameter_paths (paths parameter_names : list str) : list str :=
  omap (λ path, public_parameter_path path parameter_names) paths.

Definition public_or_self (parameter_names : list str) (path : str) : str :=
  default path (public_parameter_path path parameter_names).

Definition public_iteration (i : FunctionBoundedIteration) (parameter_names : list str) : FunctionBoundedIteration :=
  mkIteration (bi_function i) (bi_kind i) (public_or_self parameter_names (bi_bound i)) (bi_max_iterations i)
    (bi_nesting_depth i) (bi_max_iteration_product i) (bi_source_order i)
    (public_or_self parameter_names <$> bi_reads i) (public_or_self parameter_names <$> bi_scanned_paths i).

(** ** The effects of a callee in its caller *)

Definition saturating_u32_add (a b : Z) : Z := Z.min (a + b) u32_max.

Definition substituted_iteration (substitutions : list (Z * str)) (retain : bool) (multiplier : option Z) (depth : Z)
    (i : FunctionBoundedIteration) : FunctionBoundedIteration :=
  let substitute path := substitute_path path substitutions retain in
  mkIteration (bi_function i) (bi_kind i) (default (bi_bound i) (substitute (bi_bound i))) (bi_max_iterations i)
    (saturating_u32_add (bi_nesting_depth i) depth) (scale multiplier (bi_max_iteration_product i)) (bi_source_order i)
    (omap substitute (bi_reads i)) (omap substitute (bi_scanned_paths i)).

(** Inserts the substituted paths that are known. *)
Definition insert_paths (insert : str → EffectSets → EffectSets) (substitutions : list (Z * str)) (retain : bool)
    (paths : list str) (e : EffectSets) : EffectSets :=
  foldl (λ e path, match substitute_path path substitutions retain with Some p => insert p e | None => e end) e paths.

Definition merge_substituted_effects (direct : EffectSets) (substitutions : list (Z * str)) (retain : bool)
    (multiplier : option Z) (depth : Z) (aggregate : EffectSets) : EffectSets :=
  let aggregate := with_reads (extend (reads direct)) aggregate in
  let aggregate := with_writes (extend (writes direct)) aggregate in
  let aggregate := with_calls (extend (calls direct)) aggregate in
  let aggregate := with_host_calls (extend (host_calls direct)) aggregate in
  let aggregate := with_host_effects (extend (host_effects direct)) aggregate in
  let aggregate := with_host_call_costs (merge_host_call_costs multiplier (host_call_costs direct)) aggregate in
  let aggregate := insert_paths insert_read substitutions retain (parameter_reads direct) aggregate in
  let aggregate := insert_paths insert_write substitutions retain (parameter_writes direct) aggregate in
  with_bounded_iterations
    (extend (substituted_iteration substitutions retain multiplier depth <$> bounded_iterations direct)) aggregate.

(** ** Published effects *)

Record FunctionDataFlowEffects := mkPublished {
  pe_reads : list str;
  pe_writes : list str;
  pe_parameter_reads : list str;
  pe_parameter_writes : list str;
  pe_calls : list str;
  pe_host_calls : list str;
  pe_host_effects : list FunctionHostEffect;
  pe_host_call_costs : list FunctionHostCallCost;
  pe_bounded_iterations : list FunctionBoundedIteration;
}.

Definition to_effects (e : EffectSets) (parameter_names : list str) : FunctionDataFlowEffects :=
  mkPublished (reads e) (writes e) (public_parameter_paths (parameter_reads e) parameter_names)
    (public_parameter_paths (parameter_writes e) parameter_names) (calls e) (host_calls e) (host_effects e)
    ((λ entry, mkHostCallCost entry.1 entry.2 (string_bytes "direct")) <$> host_call_costs e)
    ((λ i, public_iteration i parameter_names) <$> bounded_iterations e).

(** ** The effects of functions with those they call

    Models [build_aggregate_effects] and [strongly_connected_components] of
    [crates/stasis_compiler/src/data_flow.rs].

    A function is its index in [direct_by_id].  An array of booleans is the list of the
    indices that are true; every index the code uses is below the number of functions or
    of components, by construction or by the test beside it.  [None] is a lack of fuel. *)
#[local] Open Scope nat_scope.

Section graph.
Context (direct_by_id : list EffectSets).

Definition sites_of (f : nat) : list CallSite := default [] (site_list <$> direct_by_id !! f).

(** All call sites with their function. *)
Definition all_sites : list (nat * CallSite) :=
  concat (imap (λ f e, (λ s, (f, s)) <$> site_list e) direct_by_id).

(** *** Strongly connected components *)

(** The first search: a stack entry is a function and the index of its next call site. *)
Fixpoint finish_search (fuel : nat) (stack : list (nat * nat)) (visited finish : list nat) : option (list nat * list nat) :=
  match fuel with
  | O => None
  | S fuel' =>
      match stack with
      | [] => Some (visited, finish)
      | (f, edge_index) :: stack' =>
          match sites_of f !! edge_index with
          | Some call_site =>
              let stack := (f, S edge_index) :: stack' in
              let child := target_id call_site in
              if (child <? length direct_by_id) && bool_decide (child ∉ visited)
              then finish_search fuel' ((child, 0) :: stack) (child :: visited) finish
              else finish_search fuel' stack visited finish
          | None => finish_search fuel' stack' visited (finish ++ [f])
          end
      end
  end.

Definition search_fuel : nat := S (sum_list_with (λ e, S (length (site_list e))) direct_by_id).

(** [for root in 0..direct_by_id.len()] *)
Fixpoint finish_roots (roots visited finish : list nat) : option (list nat * list nat) :=
  match roots with
  | [] => Some (visited, finish)
  | root :: roots =>
      if bool_decide (root ∈ visited) then finish_roots roots visited finish
      else
        '(visited, finish) ← finish_search search_fuel [(root, 0)] (root :: visited) finish;
        finish_roots roots visited finish
  end.

(** [reverse]: the callers of each function, once for each call site. *)
Definition reverse_calls : list (list nat) :=
  foldl (λ reverse p,
    if target_id p.2 <? length direct_by_id then alter (λ callers, callers ++ [p.1]) (target_id p.2) reverse else reverse)
    (replicate (length direct_by_id) []) all_sites.

(** Visits the parents of a function: the stack and the visited functions. *)
Definition visit_parent (st : list nat * list nat) (parent : nat) : list nat * list nat :=
  if bool_decide (parent ∈ st.2) then st else (parent :: st.1, parent :: st.2).

Fixpoint component_search (fuel : nat) (stack visited component : list nat) : option (list nat * list nat) :=
  match fuel with
  | O => None
  | S fuel' =>
      match stack with
      | [] => Some (visited, component)
      | f :: stack =>
          let '(stack, visited) := foldl visit_parent (stack, visited) (default [] (reverse_calls !! f)) in
          component_search fuel' stack visited (component ++ [f])
      end
  end.

(** [for root in finish.into_iter().rev()] *)
Fixpoint component_roots (roots visited : list nat) (components : list (list nat)) : option (list (list nat)) :=
  match roots with
  | [] => Some components
  | root :: roots =>
      if bool_decide (root ∈ visited) then component_roots roots visited components
      else
        '(visited, component) ← component_search (S (S (length direct_by_id))) [root] (root :: visited) [];
        component_roots roots visited (components ++ [sort_by Nat.leb component])
  end.

Definition strongly_connected_components : option (list (list nat)) :=
  '(_, finish) ← finish_roots (seq 0 (length direct_by_id)) [] [];
  component_roots (reverse finish) [] [].

(** *** The order of the components *)

Definition component_by_function (components : list (list nat)) : list nat :=
  foldl (λ m p, foldl (λ m f, <[f := p.1]> m) m p.2) (replicate (length direct_by_id) 0) (imap pair components).

Definition component_edges (components : list (list nat)) : list (list nat) :=
  let component_of f := default 0 (component_by_function components !! f) in
  foldl (λ edges p,
    if target_id p.2 <? length direct_by_id then
      let source := component_of p.1 in
      let target := component_of (target_id p.2) in
      if source =? target then edges else alter (set_insert target) source edges
    else edges)
    (replicate (length components) []) all_sites.

(** A component is expanded when everything it calls was pushed above it. *)
Fixpoint order_search (fuel : nat) (edges : list (list nat)) (stack : list (nat * bool)) (state order : list nat) :
    option (list nat * list nat) :=
  match fuel with
  | O => None
  | S fuel' =>
      match stack with
      | [] => Some (state, order)
      | (component, true) :: stack => order_search fuel' edges stack state (order ++ [component])
      | (component, false) :: stack =>
          if bool_decide (component ∈ state) then order_search fuel' edges stack state order
          else
            let state := component :: state in
            let pushed := filter (λ target, target ∉ state) (default [] (edges !! component)) in
            order_search fuel' edges (((λ target, (target, false)) <$> pushed) ++ (component, true) :: stack) state order
      end
  end.

Definition order_fuel (edges : list (list nat)) : nat := S (S (sum_list_with (λ targets, S (length targets)) edges)).

Fixpoint order_roots (edges : list (list nat)) (roots state order : list nat) : option (list nat) :=
  match roots with
  | [] => Some order
  | root :: roots =>
      if bool_decide (root ∈ state) then order_roots edges roots state order
      else
        '(state, order) ← order_search (order_fuel edges) edges [(root, false)] state order;
        order_roots edges roots state order
  end.

(** *** Aggregates *)

(** The effects of a call at a site, in the caller. *)
Definition add_call (aggregate_by_id : list EffectSets) (component : list nat) (cyclic : bool) (aggregate : EffectSets)
    (s : CallSite) : EffectSets :=
  match aggregate_by_id !! target_id s with
  | None => aggregate
  | Some child =>
      let recursive_edge := cyclic && bool_decide (target_id s ∈ component) in
      merge_substituted_effects child (substitutions_of (arguments s)) false
        (if recursive_edge then None else max_invocations s)
        (if recursive_edge then 0%Z else outer_nesting_depth s) aggregate
  end.

Definition aggregate_function (aggregate_by_id : list EffectSets) (component : list nat) (cyclic : bool) (f : nat) : EffectSets :=
  let direct := default no_effects (direct_by_id !! f) in
  foldl (add_call aggregate_by_id component cyclic) (merge_substituted_effects direct [] true (Some 1%Z) 0%Z no_effects)
    (site_list direct).

Definition is_cyclic (component : list nat) : bool :=
  (1 <? length component)
  || match component with f :: _ => existsb (λ s, target_id s =? f) (sites_of f) | [] => false end.

(** [for (function_id, aggregate) in component.iter().zip(next)] *)
Definition update_component (component : list nat) (next aggregate_by_id : list EffectSets) : list EffectSets :=
  foldl (λ m p, <[p.1 := p.2]> m) aggregate_by_id (zip component next).

(** The rounds that are left for a component; [None] when it does not converge. *)
Fixpoint converge (rounds : nat) (component : list nat) (cyclic : bool) (aggregate_by_id : list EffectSets) :
    option (list EffectSets) :=
  match rounds with
  | O => None
  | S rounds' =>
      let next := aggregate_function aggregate_by_id component cyclic <$> component in
      if forallb (λ p, bool_decide (aggregate_by_id !! p.1 = Some p.2)) (zip component next) then Some aggregate_by_id
      else
        let aggregate_by_id := update_component component next aggregate_by_id in
        if cyclic then converge rounds' component cyclic aggregate_by_id else Some aggregate_by_id
  end.

(** [{:?}] of a list of indices. *)
Fixpoint show_indices (l : list nat) : str :=
  match l with
  | [] => []
  | [i] => show (Z.of_nat i)
  | i :: l => show (Z.of_nat i) ++ string_bytes ", " ++ show_indices l
  end.

Definition not_converged (component : list nat) : str :=
  string_bytes "function data-flow cycle did not converge for function ids [" ++ show_indices component ++ string_bytes "]".

Definition aggregate_component (component : list nat) (aggregate_by_id : list EffectSets) : Result (list EffectSets) str :=
  ok_or (converge (length component + 2) component (is_cyclic component) aggregate_by_id) (not_converged component).

(** [for component_id in component_order] *)
Fixpoint aggregate_components (components : list (list nat)) (order : list nat) (aggregate_by_id : list EffectSets) :
    Result (list EffectSets) str :=
  match order with
  | [] => Ok aggregate_by_id
  | component_id :: order =>
      match aggregate_component (default [] (components !! component_id)) aggregate_by_id with
      | Ok aggregate_by_id => aggregate_components components order aggregate_by_id
      | Err e => Err e
      end
  end.

Definition build_aggregate_effects : option (Result (list EffectSets) str) :=
  components ← strongly_connected_components;
  order ← order_roots (component_edges components) (seq 0 (length components)) [] [];
  Some (aggregate_components components order (replicate (length direct_by_id) no_effects)).
End graph.
