(* ===== verification/EffectComponents.v ===== *)
(** * The components of the call graph of the effects

    [strongly_connected_components] and the order of the components (Effects.v) always
    answer: the components divide the functions, and a component comes after everything it
    calls outside it. *)

From stdpp Require Import relations.
From S2P Require Import Prelude BTree Worklist Identity Effects.
#[local] Open Scope nat_scope.
#[local] Set Warnings "-clear-no-such-hyp".

Section components.
Context (direct : list EffectSets).
#[local] Abbreviation n := (length direct).
#[local] Abbreviation sites := (sites_of direct).

(** [a] calls [b], which is a function. *)
Definition site_calls (a b : nat) : Prop := b < n ∧ ∃ s, s ∈ sites a ∧ target_id s = b.

Definition leads : nat → nat → Prop := rtc site_calls.

#[export] Instance leads_preorder : PreOrder leads.
Proof. unfold leads. apply _. Qed.

Lemma sites_of_lt a s : s ∈ sites a → a < n.
Proof.
  unfold sites_of. destruct (direct !! a) as [e|] eqn:E; [|by intros ?%not_elem_of_nil].
  intros _. by eapply lookup_lt_Some.
Qed.

Lemma elem_of_all_sites a s : (a, s) ∈ all_sites direct ↔ s ∈ sites a.
Proof.
  unfold all_sites, sites_of. rewrite list_elem_of_In, in_concat. setoid_rewrite <- list_elem_of_In.
  setoid_rewrite elem_of_lookup_imap. split.
  - intros (l & (i & e & -> & He) & (s' & [= -> ->] & Hs)%list_elem_of_fmap). by rewrite He.
  - destruct (direct !! a) as [e|] eqn:E; [|by intros ?%not_elem_of_nil]. simpl. intros Hs.
    eexists. split; [by exists a, e|]. apply list_elem_of_fmap. by exists s.
Qed.

(** ** The first search *)

Definition site_weight (f : nat) : nat := S (length (sites f)).
Definition unvisited (visited : list nat) : nat := weight_left (λ f, f) site_weight (seq 0 n) visited.
Definition stack_left (stack : list (nat * nat)) : nat := sum_list_with (λ e, S (length (sites e.1) - e.2)) stack.

Lemma unvisited_visit f visited : f < n → f ∉ visited → unvisited (f :: visited) + site_weight f ≤ unvisited visited.
Proof. intros Hf Hv. apply weight_left_visit; [apply elem_of_seq; lia|done|by right|by left]. Qed.

Lemma sum_seq {A} (l : list A) (g : A → nat) (h : nat → nat) k :
  (∀ i x, l !! i = Some x → h (k + i) = g x) → sum_list_with h (seq k (length l)) = sum_list_with g l.
Proof.
  revert k. induction l as [|x l IH]; intros k Hh; simpl; [done|]. rewrite (IH (S k)).
  - specialize (Hh 0 x eq_refl). rewrite Nat.add_0_r in Hh. by rewrite Hh.
  - intros i y Hy. replace (S k + i) with (k + S i) by lia. by apply (Hh (S i)).
Qed.

Lemma sum_ones {A} (l : list A) : sum_list_with (λ _, 1) l = length l.
Proof. induction l; simpl; lia. Qed.

Lemma unvisited_total visited : unvisited visited < search_fuel direct.
Proof.
  unfold unvisited, search_fuel. pose proof (weight_left_total (λ f : nat, f) site_weight (seq 0 n) visited) as H.
  rewrite (sum_seq direct (λ e, S (length (site_list e)))) in H; [lia|].
  intros i e He. unfold site_weight, sites_of. simpl. by rewrite He.
Qed.

(** When a function is finished, what the finished functions call is finished or leads to it. *)
Definition finish_ordered (finish : list nat) : Prop :=
  ∀ p i a b u, finish !! p = Some a → finish !! i = Some u → p ≤ i → site_calls a b →
    (∃ q, q ≤ i ∧ finish !! q = Some b) ∨ leads b u.

(** The invariant of the search: the stack is a path, and the sites before the index of an
    entry are done. *)
Record dfs_inv (stack : list (nat * nat)) (visited finish : list nat) : Prop := {
  df_range : ∀ f, f ∈ visited → f < n;
  df_visited : ∀ f, f ∈ visited ↔ f ∈ finish ∨ f ∈ stack.*1;
  df_nodup : NoDup (finish ++ stack.*1);
  df_path : StronglySorted (λ e e' : nat * nat, leads e'.1 e.1) stack;
  df_sites : ∀ f i j s, (f, i) ∈ stack → j < i → sites f !! j = Some s → target_id s < n → target_id s ∈ visited;
  df_calls : ∀ a b, a ∈ finish → site_calls a b → b ∈ visited;
  df_ordered : finish_ordered finish;
}.

Lemma finish_snoc_ordered stack visited finish f i :
  dfs_inv ((f, i) :: stack) visited finish → sites f !! i = None → finish_ordered (finish ++ [f]).
Proof.
  intros [_ Hv _ Hp Hs Hc Ho] Hi p k a b u Ha Hu Hle Hab.
  apply lookup_snoc_Some in Hu as [[Hk Hu]|[-> <-]].
  - rewrite lookup_app_l in Ha by lia. destruct (Ho p k a b u Ha Hu Hle Hab) as [(q & Hq & Hb)|?]; [|by right].
    left. exists q. split; [done|]. by apply lookup_app_l_Some.
  - assert (b ∈ visited) as Hb.
    { apply lookup_snoc_Some in Ha as [[_ Ha]|[_ <-]]; [by eapply Hc; [eapply list_elem_of_lookup_2|]|].
      destruct Hab as (Hbn & s & (j & Hj)%list_elem_of_lookup & <-). apply (Hs f i j s); [by left| |done|done].
      apply lookup_ge_None in Hi. apply lookup_lt_Some in Hj. lia. }
    apply Hv in Hb as [(q & Hq)%list_elem_of_lookup|Hb].
    + left. exists q. pose proof (lookup_lt_Some _ _ _ Hq). split; [lia|]. by apply lookup_app_l_Some.
    + right. apply StronglySorted_inv in Hp as [_ Hall]. rewrite Forall_forall in Hall. rewrite fmap_cons, elem_of_cons in Hb.
      destruct Hb as [->|(e & -> & He)%list_elem_of_fmap]; [apply rtc_refl|by apply Hall].
Qed.

Lemma dfs_inv_emit stack visited finish f i :
  dfs_inv ((f, i) :: stack) visited finish → sites f !! i = None → dfs_inv stack visited (finish ++ [f]).
Proof.
  intros HI Hi. pose proof (finish_snoc_ordered _ _ _ _ _ HI Hi) as Hord. destruct HI as [Hn Hv Hnd Hp Hs Hc Ho]. split; [done| | | | | |done].
  - intros g. rewrite Hv, fmap_cons, elem_of_cons, elem_of_app, list_elem_of_singleton. simpl. tauto.
  - rewrite <- app_assoc. exact Hnd.
  - by apply StronglySorted_inv in Hp as [? _].
  - intros g k j s Hg. apply (Hs g k). by right.
  - intros a b [Ha| ->%list_elem_of_singleton]%elem_of_app Hab; [by eapply Hc|].
    destruct Hab as (Hbn & s & (j & Hj)%list_elem_of_lookup & <-). apply (Hs f i j s); [by left| |done|done].
    apply lookup_ge_None in Hi. apply lookup_lt_Some in Hj. lia.
Qed.

Lemma dfs_inv_next stack visited finish f i s :
  dfs_inv ((f, i) :: stack) visited finish → sites f !! i = Some s → (target_id s < n → target_id s ∈ visited) →
  dfs_inv ((f, S i) :: stack) visited finish.
Proof.
  intros [Hn Hv Hnd Hp Hs Hc Ho] Hi Ht. split; [done|done|done| | |done|done].
  - apply StronglySorted_inv in Hp as [? ?]. by constructor.
  - intros g k j s' [[= -> ->]|Hg]%elem_of_cons Hj Hs' Hlt; [|by apply (Hs g k j); [right|..]].
    destruct (decide (j = i)) as [->|Hne]; [simplify_eq; auto|]. apply (Hs f i j); [by left|lia|done|done].
Qed.

Lemma dfs_inv_push stack visited finish f i s :
  dfs_inv ((f, i) :: stack) visited finish → sites f !! i = Some s → target_id s < n → target_id s ∉ visited →
  dfs_inv ((target_id s, 0) :: (f, S i) :: stack) (target_id s :: visited) finish.
Proof.
  intros [Hn Hv Hnd Hp Hs Hc Ho] Hi Ht Hnew. split; [| | | | | |done].
  - intros g [->|Hg]%elem_of_cons; [done|by apply Hn].
  - intros g. rewrite elem_of_cons, Hv, !fmap_cons, !elem_of_cons. simpl. tauto.
  - rewrite fmap_cons, <- Permutation_middle. apply NoDup_cons. split; [|exact Hnd]. by rewrite elem_of_app, <- Hv.
  - apply StronglySorted_inv in Hp as [Hp Hall].
    assert (leads f (target_id s)) as Hft by (apply rtc_once; split; [done|]; exists s; split; [by eapply list_elem_of_lookup_2|done]).
    constructor; [by constructor|]. constructor; [exact Hft|]. simpl. eapply Forall_impl; [done|]. intros e He. etrans; [exact He|exact Hft].
  - intros g k j s' [[= -> ->]|[[= -> ->]|Hg]%elem_of_cons]%elem_of_cons Hj Hs' Hlt; [lia|..].
    + destruct (decide (j = i)) as [->|Hne]; [simplify_eq; by left|]. right. apply (Hs f i j); [by left|lia|done|done].
    + right. apply (Hs g k j); [by right|done|done|done].
  - intros a b Ha Hab. right. by eapply Hc.
Qed.

Lemma finish_search_spec fuel : ∀ stack visited finish,
  stack_left stack + unvisited visited < fuel → dfs_inv stack visited finish →
  ∃ visited' finish', finish_search direct fuel stack visited finish = Some (visited', finish')
    ∧ (∀ f, f ∈ visited → f ∈ visited') ∧ dfs_inv [] visited' finish'.
Proof.
  induction fuel as [|fuel IH]; intros stack visited finish Hf HI; [lia|]. cbn [finish_search].
  destruct stack as [|[f i] stack]; [by exists visited, finish|].
  unfold stack_left in *. simpl in Hf.
  destruct (sites f !! i) as [s|] eqn:Es.
  - pose proof (lookup_lt_Some _ _ _ Es) as Hi.
    destruct ((target_id s <? n) && bool_decide (target_id s ∉ visited)) eqn:Ec.
    + apply andb_true_iff in Ec as [Ht%Nat.ltb_lt Hnew%bool_decide_eq_true].
      pose proof (unvisited_visit _ _ Ht Hnew) as Hw. unfold site_weight in Hw.
      destruct (IH ((target_id s, 0) :: (f, S i) :: stack) (target_id s :: visited) finish) as (v' & f' & -> & Hm & HI').
      * simpl. rewrite Nat.sub_0_r. lia.
      * by apply dfs_inv_push.
      * exists v', f'. split; [done|]. split; [|done]. intros g Hg. apply Hm. by right.
    + apply IH; [simpl; lia|]. eapply dfs_inv_next; [done|done|]. intros Hlt.
      apply andb_false_iff in Ec as [Ec%Nat.ltb_ge|Ec%bool_decide_eq_false]; [lia|]. by destruct (decide (target_id s ∈ visited)).
  - apply IH; [simpl; lia|]. by eapply dfs_inv_emit.
Qed.

Lemma finish_roots_spec roots : ∀ visited finish,
  (∀ f, f ∈ roots → f < n) → dfs_inv [] visited finish →
  ∃ visited' finish', finish_roots direct roots visited finish = Some (visited', finish')
    ∧ (∀ f, f ∈ visited ∨ f ∈ roots → f ∈ visited') ∧ dfs_inv [] visited' finish'.
Proof.
  induction roots as [|r roots IH]; intros visited finish Hr HI; cbn [finish_roots].
  { exists visited, finish. split; [done|]. split; [|done]. by intros f [Hf|Hf%elem_of_nil]. }
  case_bool_decide as Hd.
  - destruct (IH visited finish) as (v' & f' & -> & Hc & Hn'); [intros; apply Hr; by right|done..|].
    exists v', f'. split; [done|]. split; [|done]. intros f. rewrite elem_of_cons. intros [?|[->|?]]; apply Hc; auto.
  - assert (r < n) as Hrn by (apply Hr; by left).
    destruct (finish_search_spec (search_fuel direct) [(r, 0)] (r :: visited) finish) as (v1 & f1 & -> & Hm & HI1).
    + pose proof (unvisited_visit _ _ Hrn Hd). pose proof (unvisited_total visited). unfold site_weight, stack_left in *.
      simpl. rewrite Nat.sub_0_r. lia.
    + destruct HI as [Hn Hv Hnd _ _ Hc Ho]. simpl in Hv, Hnd. rewrite app_nil_r in Hnd. split; [| | | | | |done].
      * intros f [->|?]%elem_of_cons; [done|by apply Hn].
      * intros f. rewrite elem_of_cons, Hv, elem_of_nil. simpl. rewrite list_elem_of_singleton. tauto.
      * apply NoDup_app. split; [done|]. split; [|apply NoDup_singleton]. intros f Hf ->%list_elem_of_singleton. apply Hd, Hv. by left.
      * repeat constructor.
      * intros g k j s [= -> ->]%list_elem_of_singleton. lia.
      * intros a b Ha Hab. right. by eapply Hc.
    + cbn [mbind option_bind]. destruct (IH v1 f1) as (v' & f' & -> & Hc & Hn'); [intros; apply Hr; by right|done..|].
      exists v', f'. split; [done|]. split; [|done]. intros f. rewrite elem_of_cons.
      intros [?|[->|?]]; apply Hc; [left; apply Hm; by right|left; apply Hm; by left|by right].
Qed.

(** The last finished function of a path leads to what is finished since the path began. *)
Lemma leads_latest finish k r : NoDup finish → finish_ordered finish → finish !! k = Some r → ∀ f, leads f r →
  (∀ x, leads f x → leads x r → ∃ p, p ≤ k ∧ finish !! p = Some x) →
  ∀ p q x, finish !! p = Some f → p ≤ q → q ≤ k → finish !! q = Some x → leads r x.
Proof.
  intros Hnd Ho Hk f Hf. induction Hf as [r|f w r Hfw Hwr IH]; intros Hall p q x Hp Hpq Hqk Hx.
  - pose proof (NoDup_lookup _ _ _ _ Hnd Hp Hk) as ->. assert (q = k) as -> by lia. simplify_eq. apply rtc_refl.
  - destruct (Hall w) as (pw & Hpw & Hw); [by apply rtc_once|done|].
    assert (∀ y, leads w y → leads y r → ∃ p, p ≤ k ∧ finish !! p = Some y) as Hall'.
    { intros y Hwy. apply Hall. by eapply rtc_l. }
    specialize (IH Hk Hall'). destruct (decide (pw ≤ q)) as [Hle|Hgt]; [by apply (IH pw q)|].
    destruct (Ho p q f w x Hp Hx Hpq Hfw) as [(q' & Hq' & Hw')|Hwx].
    + pose proof (NoDup_lookup _ _ _ _ Hnd Hw Hw'). lia.
    + trans w; [|done]. by apply (IH pw pw w).
Qed.

(** ** The callers *)

Lemma reverse_calls_spec f c : f < n → c ∈ default [] (reverse_calls direct !! f) ↔ site_calls c f.
Proof.
  intros Hf. unfold site_calls. setoid_rewrite <- elem_of_all_sites. unfold reverse_calls.
  assert (∀ l m, length m = n →
    (c ∈ default [] (foldl (λ reverse p, if target_id p.2 <? n then alter (λ callers, callers ++ [p.1]) (target_id p.2) reverse else reverse)
       m l !! f) ↔ c ∈ default [] (m !! f) ∨ ∃ s, (c, s) ∈ l ∧ target_id s = f)) as Hgo.
  { induction l as [|[a s] l IH]; intros m Hm; cbn [foldl fst snd].
    - split; [by left|]. intros [?|(s & ?%not_elem_of_nil & _)]; done.
    - rewrite IH by (destruct (_ <? _); [by rewrite length_alter|done]). setoid_rewrite elem_of_cons.
      destruct (Nat.ltb_spec (target_id s) n) as [Ht|Ht].
      + destruct (decide (target_id s = f)) as [<-|Hne].
        * rewrite list_lookup_alter, decide_True by done. destruct (m !! target_id s) as [l0|] eqn:El; [|apply lookup_ge_None in El; lia].
          simpl. rewrite elem_of_app, list_elem_of_singleton. naive_solver.
        * rewrite list_lookup_alter_ne by done. naive_solver.
      + split; [naive_solver|]. intros [?|(s' & [[= -> ->]|?] & Hs')]; [by left|lia|right; eauto]. }
  rewrite Hgo by apply length_replicate. rewrite lookup_replicate_2 by done. simpl. rewrite elem_of_nil. naive_solver.
Qed.

(** ** The second search *)

Record search_inv (root : nat) (before stack visited component : list nat) : Prop := {
  ci_visited : ∀ f, f ∈ visited ↔ f ∈ before ∨ f ∈ component ∨ f ∈ stack;
  ci_fresh : ∀ f, f ∈ component ∨ f ∈ stack → (f ∉ before) ∧ f < n;
  ci_nodup : NoDup (component ++ stack);
  ci_closed : ∀ f c, f ∈ component → site_calls c f → c ∈ visited;
  ci_leads : ∀ f, f ∈ component ∨ f ∈ stack → leads f root;
}.

Lemma visit_parents_spec l : ∀ stack visited,
  ∃ fresh, foldl visit_parent (stack, visited) l = (fresh ++ stack, fresh ++ visited) ∧ NoDup fresh
    ∧ (∀ f, f ∈ fresh ↔ f ∈ l ∧ f ∉ visited).
Proof.
  induction l as [|p l IH]; intros stack visited; cbn [foldl].
  { exists []. split_and!; [done|constructor|]. intros f. rewrite !elem_of_nil. tauto. }
  unfold visit_parent at 2. cbn [fst snd]. case_bool_decide as Hp.
  - destruct (IH stack visited) as (fr & -> & Hnd & Hfr). exists fr. split_and!; [done..|]. intros f. rewrite Hfr, elem_of_cons. naive_solver.
  - destruct (IH (p :: stack) (p :: visited)) as (fr & -> & Hnd & Hfr). exists (fr ++ [p]). rewrite <- !app_assoc. split_and!; [done| |].
    + apply NoDup_app. split_and!; [done| |apply NoDup_singleton]. intros f Hf ->%list_elem_of_singleton.
      apply Hfr in Hf as [_ Hf]. apply Hf. by left.
    + intros f. rewrite elem_of_app, Hfr, list_elem_of_singleton, !elem_of_cons. destruct (decide (f = p)); naive_solver.
Qed.

Definition unseen (visited : list nat) : nat := weight_left (λ f, f) (λ _, 1) (seq 0 n) visited.

Lemma NoDup_unseen fresh : ∀ visited,
  NoDup fresh → (∀ f, f ∈ fresh → f < n ∧ f ∉ visited) → length fresh + unseen (fresh ++ visited) ≤ unseen visited.
Proof.
  induction fresh as [|f fresh IH]; intros visited Hnd Hfr; simpl; [done|].
  apply NoDup_cons in Hnd as [Hf Hnd]. specialize (IH visited Hnd ltac:(intros; apply Hfr; by right)).
  destruct (Hfr f ltac:(by left)) as [Hn Hv].
  pose proof (weight_left_visit (λ f : nat, f) (λ _, 1) (seq 0 n) (fresh ++ visited) (f :: fresh ++ visited) f) as Hw.
  unfold unseen in *. assert (f ∉ fresh ++ visited) by set_solver.
  specialize (Hw ltac:(apply elem_of_seq; lia) H ltac:(by right) ltac:(by left)). lia.
Qed.

Lemma component_search_spec root before fuel : ∀ stack visited component,
  search_inv root before stack visited component → length stack + unseen visited < fuel →
  ∃ visited' component', component_search direct fuel stack visited component = Some (visited', component')
    ∧ search_inv root before [] visited' component' ∧ ∀ f, f ∈ component ∨ f ∈ stack → f ∈ component'.
Proof.
  induction fuel as [|fuel IH]; intros stack visited component HI Hf; [lia|]. cbn [component_search].
  destruct stack as [|f stack].
  { exists visited, component. split; [done|]. split; [done|]. intros f [?|?%not_elem_of_nil]; done. }
  destruct HI as [Hv Hfr Hnd Hcl Hld].
  assert (f < n) as Hfn by (apply Hfr; right; by left).
  destruct (visit_parents_spec (default [] (reverse_calls direct !! f)) stack visited) as (fr & -> & Hndf & Hin).
  assert (∀ c, c ∈ fr ↔ site_calls c f ∧ c ∉ visited) as Hin' by (intros c; by rewrite Hin, reverse_calls_spec).
  assert (∀ c, c ∈ fr → c < n) as Hfrn.
  { intros c [(_ & s & Hs & _) _]%Hin'. by apply sites_of_lt in Hs. }
  destruct (IH (fr ++ stack) (fr ++ visited) (component ++ [f])) as (v' & c' & -> & HI' & Hm).
  - split.
    + intros g. rewrite !elem_of_app, Hv, !elem_of_cons, elem_of_nil. tauto.
    + intros g. rewrite !elem_of_app, list_elem_of_singleton. intros [[Hg|Hg]|[Hg|Hg]].
      * apply Hfr. by left.
      * subst g. apply Hfr. right. by left.
      * split; [|by apply Hfrn]. intros Hb. apply Hin' in Hg as [_ Hg]. apply Hg, Hv. by left.
      * apply Hfr. right. by right.
    + rewrite <- app_assoc. simpl. rewrite (Permutation_app_comm fr stack), (app_comm_cons stack fr f), app_assoc.
      apply NoDup_app. split_and!; [done| |done]. intros g Hg1 Hg2. apply Hin' in Hg2 as [_ Hg2]. apply Hg2, Hv.
      apply elem_of_app in Hg1. tauto.
    + intros g c Hg Hc. apply elem_of_app. apply elem_of_app in Hg as [Hg|Hg%list_elem_of_singleton].
      * right. by eapply Hcl.
      * subst g. destruct (decide (c ∈ visited)); [by right|left; by apply Hin'].
    + intros g. rewrite !elem_of_app, list_elem_of_singleton. intros [[Hg|Hg]|[Hg|Hg]].
      * apply Hld. by left.
      * subst g. apply Hld. right. by left.
      * apply Hin' in Hg as [Hg _]. eapply rtc_l; [done|]. apply Hld. right. by left.
      * apply Hld. right. by right.
  - pose proof (NoDup_unseen fr visited Hndf) as Hu. rewrite length_app. simpl in Hf.
    assert (length fr + unseen (fr ++ visited) ≤ unseen visited); [|lia].
    apply Hu. intros g Hg. split; [by apply Hfrn|]. by apply Hin' in Hg as [_ ?].
  - exists v', c'. split; [done|]. split; [done|]. intros g. rewrite elem_of_cons. intros Hg. apply Hm.
    rewrite !elem_of_app, list_elem_of_singleton. tauto.
Qed.

(** ** The components *)

(** The components divide the functions; what calls into one is in it or before it. *)
Record divided (components : list (list nat)) : Prop := {
  dv_nodup : NoDup (concat components);
  dv_range : ∀ f, f ∈ concat components → f < n;
  dv_nonempty : Forall (λ c, c ≠ []) components;
  dv_callers : ∀ j D b a, components !! j = Some D → b ∈ D → site_calls a b → ∃ i C, i ≤ j ∧ components !! i = Some C ∧ a ∈ C;
  dv_mutual : ∀ i C a b, components !! i = Some C → a ∈ C → b ∈ C → leads a b;
}.

Lemma divided_leads components f g : divided components → leads f g → g ∈ concat components → f ∈ concat components.
Proof.
  intros HD. induction 1 as [g|f w g Hfw _ IH]; [done|]. intros Hg%IH. rewrite list_elem_of_In, in_concat in Hg.
  destruct Hg as (C & (i & Hi)%list_elem_of_In%list_elem_of_lookup & HC%list_elem_of_In).
  destruct (dv_callers _ HD i C w f Hi HC Hfw) as (j & D & _ & Hj & HfD). rewrite list_elem_of_In, in_concat. exists D.
  split; apply list_elem_of_In; [by eapply list_elem_of_lookup_2|done].
Qed.

Lemma divided_snoc root before visited component components :
  divided components → (∀ f, f ∈ before ↔ f ∈ concat components) → search_inv root before [] visited component →
  root ∈ component → (∀ f, f ∈ component → leads root f) →
  divided (components ++ [sort_by Nat.leb component]) ∧ ∀ f, f ∈ visited ↔ f ∈ concat (components ++ [sort_by Nat.leb component]).
Proof.
  intros HD Hv [Hv1 Hfr Hnd Hcl Hld] Hroot Hback.
  assert (∀ f, f ∈ sort_by Nat.leb component ↔ f ∈ component) as Hsort by (intros f; apply elem_of_sort_by).
  assert (∀ f, f ∈ concat (components ++ [sort_by Nat.leb component]) ↔ f ∈ concat components ∨ f ∈ component) as Hcat.
  { intros f. rewrite concat_app, elem_of_app. simpl. by rewrite app_nil_r, Hsort. }
  split; [|intros f; rewrite Hv1, Hcat, Hv, elem_of_nil; tauto]. split.
  - rewrite concat_app. simpl. rewrite app_nil_r. apply NoDup_app. split_and!; [apply HD| |].
    + intros f Hf Hf'%Hsort. by apply (Hfr f (or_introl Hf')), Hv.
    + rewrite sort_by_Permutation. by rewrite app_nil_r in Hnd.
  - intros f [Hf|Hf]%Hcat; [by apply (dv_range _ HD)|by apply Hfr; left].
  - apply Forall_app. split; [apply HD|]. constructor; [|constructor]. intros Hnil.
    apply Hsort in Hroot. rewrite Hnil in Hroot. by apply not_elem_of_nil in Hroot.
  - intros j D b a [Hj|[Hle Hj]]%lookup_app_Some Hb Ha.
    + destruct (dv_callers _ HD j D b a Hj Hb Ha) as (i & C & Hij & Hi & HaC). exists i, C. split_and!; [done| |done].
      by apply lookup_app_l_Some.
    + apply list_lookup_singleton_Some in Hj as [Hj0 <-]. apply Hsort in Hb. specialize (Hcl b a Hb Ha).
      apply Hv1 in Hcl as [Hold|[Hin|?%not_elem_of_nil]]; [| |done].
      * apply Hv, list_elem_of_In, in_concat in Hold as (C & HC%list_elem_of_In & HaC%list_elem_of_In).
        apply list_elem_of_lookup in HC as [i Hi]. exists i, C. split_and!; [|by apply lookup_app_l_Some|done].
        apply lookup_lt_Some in Hi. lia.
      * exists j, (sort_by Nat.leb component). split_and!; [done| |by apply Hsort].
        rewrite lookup_app_r by done. by rewrite Hj0.
  - intros j D a b [Hj|[_ Hj]]%lookup_app_Some Ha Hb; [by eapply (dv_mutual _ HD)|].
    apply list_lookup_singleton_Some in Hj as [_ <-]. rewrite Hsort in Ha, Hb. trans root; [apply Hld; by left|by apply Hback].
Qed.

(** The functions that lead to the last unvisited function, unvisited themselves, are led to by it. *)
Lemma component_back finish root l processed visited component components before :
  NoDup finish → (∀ f, f ∈ finish ↔ f < n) → finish_ordered finish → finish = l ++ root :: processed →
  divided components → (∀ f, f ∈ before ↔ f ∈ concat components) → (∀ f, f ∈ processed → f ∈ before) →
  search_inv root before [] visited component → ∀ f, f ∈ component → leads root f.
Proof.
  intros Hnd Hfin Hord Heq HD Hv Hproc [Hv1 Hfr _ _ Hld] f Hf.
  assert (∀ x, x < n → x ∉ before → ∃ p, p ≤ length l ∧ finish !! p = Some x) as Hpos.
  { intros x Hx Hxb. apply Hfin, list_elem_of_lookup in Hx as [p Hp]. exists p. split; [|done].
    destruct (decide (p ≤ length l)) as [|Hgt]; [done|]. exfalso. apply Hxb, Hproc. rewrite Heq in Hp.
    rewrite lookup_app_r in Hp by lia. destruct (p - length l) as [|q] eqn:Eq; [lia|]. by eapply list_elem_of_lookup_2. }
  destruct (Hfr f (or_introl Hf)) as [Hfb Hfn]. destruct (Hpos f Hfn Hfb) as (p & Hp & Hpf).
  assert (root < n) as Hrn by (apply Hfin; rewrite Heq; apply elem_of_app; right; by left).
  apply (leads_latest finish (length l) root Hnd Hord) with f p p; [|apply Hld; by left| |done..].
  - rewrite Heq. by apply list_lookup_middle.
  - intros x Hfx Hxr. apply Hpos.
    + destruct Hxr as [|x w r (_ & s & Hs & _) _]; [done|by apply sites_of_lt in Hs].
    + intros Hxb%Hv. by apply Hfb, Hv, (divided_leads components f x HD).
Qed.

Lemma component_roots_spec finish roots : NoDup finish → (∀ f, f ∈ finish ↔ f < n) → finish_ordered finish →
  ∀ processed visited components,
  finish = reverse roots ++ processed → (∀ f, f ∈ processed → f ∈ visited) →
  divided components → (∀ f, f ∈ visited ↔ f ∈ concat components) →
  ∃ components', component_roots direct roots visited components = Some components' ∧ divided components'
    ∧ ∀ f, f ∈ visited ∨ f ∈ roots → f ∈ concat components'.
Proof.
  intros Hnd Hfin Hord. induction roots as [|r roots IH]; intros processed visited components Heq Hproc HD Hv; cbn [component_roots].
  { exists components. split; [done|]. split; [done|]. intros f [?|?%not_elem_of_nil]; [by apply Hv|done]. }
  rewrite reverse_cons, <- app_assoc in Heq. case_bool_decide as Hd.
  { destruct (IH (r :: processed) visited components) as (c' & -> & HD' & Hc); [done| |done..|].
    - by intros f [->|?]%elem_of_cons; [|apply Hproc].
    - exists c'. split; [done|]. split; [done|]. intros f. rewrite elem_of_cons. intros [?|[->|?]]; apply Hc; auto. }
  assert (r < n) as Hrn by (apply Hfin; rewrite Heq; apply elem_of_app; right; by left).
  destruct (component_search_spec r visited (S (S n)) [r] (r :: visited) []) as (v1 & c1 & -> & HI & Hm).
  { split.
    - intros f. rewrite !elem_of_cons, elem_of_nil. tauto.
    - intros f. rewrite elem_of_nil, list_elem_of_singleton. by intros [[]| ->].
    - apply NoDup_singleton.
    - by intros f c ?%not_elem_of_nil.
    - intros f. rewrite elem_of_nil, list_elem_of_singleton. intros [[]| ->]. apply rtc_refl. }
  { unfold unseen. pose proof (weight_left_total (λ f : nat, f) (λ _, 1) (seq 0 n) (r :: visited)) as H. simpl.
    rewrite sum_ones, length_seq in H. lia. }
  cbn [mbind option_bind].
  pose proof (component_back finish r (reverse roots) processed v1 c1 components visited Hnd Hfin Hord Heq HD Hv Hproc HI) as Hback.
  destruct (divided_snoc r visited v1 c1 components HD Hv HI) as [HD1 Hv1']; [apply Hm; right; by left|done|].
  pose proof (ci_visited _ _ _ _ _ HI) as Hv1.
  destruct (IH (r :: processed) v1 (components ++ [sort_by Nat.leb c1])) as (c' & -> & HD' & Hc); [done| |done|done|].
  - intros f [->|Hf]%elem_of_cons; apply Hv1; [right; left; apply Hm; right; by left|left; by apply Hproc].
  - exists c'. split; [done|]. split; [done|]. intros f. rewrite elem_of_cons. intros Hf. apply Hc. rewrite Hv1.
    destruct Hf as [?|[->|?]]; [tauto| |tauto]. left. right. left. apply Hm. right. by left.
Qed.

Lemma components_spec :
  ∃ components, strongly_connected_components direct = Some components ∧ divided components
    ∧ ∀ f, f ∈ concat components ↔ f < n.
Proof.
  unfold strongly_connected_components.
  destruct (finish_roots_spec (seq 0 n) [] []) as (v & finish & -> & Hc & [Hn Hv Hnd _ _ _ Hord]).
  { intros f ?%elem_of_seq; lia. }
  { split; [by intros f ?%not_elem_of_nil|intros f; rewrite elem_of_nil; simpl; rewrite elem_of_nil; tauto|constructor|constructor|by intros f i j s ?%not_elem_of_nil|
            by intros a b ?%not_elem_of_nil|by intros p i a b u ?]. }
  cbn [mbind option_bind]. simpl in Hnd. rewrite app_nil_r in Hnd.
  assert (∀ f, f ∈ finish ↔ f < n) as Hfin.
  { intros f. split; [intros Hf; apply Hn, Hv; by left|]. intros Hf.
    assert (f ∈ v) as Hfv by (apply Hc; right; apply elem_of_seq; lia). apply Hv in Hfv as [?|?%not_elem_of_nil]; done. }
  destruct (component_roots_spec finish (reverse finish) Hnd Hfin Hord [] [] []) as (cs & -> & HD & Hcs).
  - by rewrite reverse_involutive, app_nil_r.
  - done.
  - split; [constructor|by intros g ?%not_elem_of_nil|constructor|by intros [|j] D b a|by intros [|j] D b a].
  - done.
  - exists cs. split; [done|]. split; [done|]. intros g. split; [apply HD|]. intros Hg. apply Hcs. right.
    by apply elem_of_reverse, Hfin.
Qed.
End components.

(** * The order of the components

    [component_by_function], [component_edges] and [order_roots]: every component is in the
    order once, after the components that it calls. *)

(** ** Expanding a graph whose edges go up *)

Section order.
Context (edges : list (list nat)).
#[local] Abbreviation targets c := (default [] (edges !! c)).
Context (edges_up : ∀ c t, t ∈ targets c → c < t < length edges).

Definition expanded (stack : list (nat * bool)) : list nat := omap (λ e : nat * bool, if e.2 then Some e.1 else None) stack.

(** Every target is before its source. *)
Definition targets_first (order : list nat) : Prop :=
  ∀ l c l', order = l ++ c :: l' → ∀ t, t ∈ targets c → t ∈ l.

Record order_inv (stack : list (nat * bool)) (state order : list nat) : Prop := {
  oi_nodup : NoDup (order ++ expanded stack);
  oi_state : ∀ c, c ∈ state ↔ c ∈ order ∨ c ∈ expanded stack;
  oi_above : ∀ above c below, stack = above ++ (c, true) :: below → ∀ e, e ∈ above → c < e.1;
  oi_targets : ∀ above c below, stack = above ++ (c, true) :: below → ∀ t, t ∈ targets c → t ∈ order ∨ t ∈ above.*1;
  oi_order : targets_first order;
  oi_range : ∀ e, e ∈ stack → e.1 < length edges;
  oi_order_range : ∀ c, c ∈ order → c < length edges;
}.

Lemma targets_first_snoc order c : targets_first order → (∀ t, t ∈ targets c → t ∈ order) → targets_first (order ++ [c]).
Proof.
  intros Ho Hc l d l' Heq t Ht. destruct (decide (l' = [])) as [->|Hl'].
  - apply app_inj_tail in Heq as [-> ->]. by apply Hc.
  - destruct (exists_last Hl') as (l1 & x & ->). rewrite app_comm_cons, app_assoc in Heq. apply app_inj_tail in Heq as [-> _].
    by eapply Ho.
Qed.

Lemma elem_of_order_stack stack c : c ∈ expanded stack ↔ (c, true) ∈ stack.
Proof.
  unfold expanded. rewrite list_elem_of_omap. split.
  - intros ([d []] & Hd & [=]). by subst.
  - intros Hc. by exists (c, true).
Qed.

(** The three steps of the search keep the invariant. *)
Lemma order_inv_emit c stack state order :
  order_inv ((c, true) :: stack) state order → order_inv stack state (order ++ [c]).
Proof.
  intros [Hnd Hst Hab Htg Hor Hrg Hrg']. split.
  - rewrite <- app_assoc. exact Hnd.
  - intros d. rewrite Hst. change (expanded ((c, true) :: stack)) with (c :: expanded stack). rewrite elem_of_cons, elem_of_app, list_elem_of_singleton. tauto.
  - intros above d below -> e He. apply (Hab ((c, true) :: above) d below); [done|by right].
  - intros above d below -> t Ht. destruct (Htg ((c, true) :: above) d below eq_refl t Ht) as [Hin|Hin].
    + left. apply elem_of_app. by left.
    + rewrite fmap_cons, elem_of_cons in Hin. destruct Hin as [->|Hin]; [left; apply elem_of_app; right; by left|by right].
  - apply targets_first_snoc; [done|]. intros t Ht. destruct (Htg [] c stack eq_refl t Ht) as [?|?%not_elem_of_nil]; done.
  - intros e He. apply Hrg. by right.
  - intros d [Hd| ->%list_elem_of_singleton]%elem_of_app; [by apply Hrg'|]. apply (Hrg (c, true)). by left.
Qed.

Lemma order_inv_skip c stack state order :
  order_inv ((c, false) :: stack) state order → c ∈ state → order_inv stack state order.
Proof.
  intros [Hnd Hst Hab Htg Hor Hrg Hrg'] Hc. split; [done|done| | |done| |done].
  - intros above d below -> e He. apply (Hab ((c, false) :: above) d below); [done|by right].
  - intros above d below -> t Ht. destruct (Htg ((c, false) :: above) d below eq_refl t Ht) as [Hin|Hin]; [by left|].
    rewrite fmap_cons, elem_of_cons in Hin. destruct Hin as [->|Hin]; [|by right]. simpl in *.
    apply Hst in Hc as [Hc|Hc]; [by left|]. change (c ∈ expanded (above ++ (d, true) :: below)) in Hc.
    rewrite elem_of_order_stack, elem_of_app, elem_of_cons in Hc. destruct Hc as [Hc|[[= ->]|Hc]].
    + right. apply list_elem_of_fmap. by exists (c, true).
    + apply edges_up in Ht. lia.
    + (* an expanded entry further down is below [d], which is below [c] *)
      apply list_elem_of_split in Hc as (a1 & b1 & ->).
      pose proof (Hab ((c, false) :: above ++ (d, true) :: a1) c b1) as Hlt. rewrite <- app_comm_cons, <- app_assoc in Hlt.
      specialize (Hlt eq_refl (c, false) ltac:(by left)). simpl in Hlt. lia.
  - intros e He. apply Hrg. by right.
Qed.

Lemma order_inv_expand c stack state order :
  order_inv ((c, false) :: stack) state order → c ∉ state →
  order_inv (((λ t, (t, false)) <$> filter (λ t, t ∉ c :: state) (targets c)) ++ (c, true) :: stack) (c :: state) order.
Proof.
  intros [Hnd Hst Hab Htg Hor Hrg Hrg'] Hc. set (pushed := filter _ _).
  assert (expanded (((λ t, (t, false)) <$> pushed) ++ (c, true) :: stack) = c :: expanded stack) as Hex.
  { unfold expanded. rewrite omap_app. replace (omap _ ((λ t, (t, false)) <$> pushed)) with (@nil nat); [done|]. by induction pushed. }
  assert (∀ above d below, ((λ t, (t, false)) <$> pushed) ++ (c, true) :: stack = above ++ (d, true) :: below →
    (above = ((λ t, (t, false)) <$> pushed) ∧ d = c ∧ below = stack)
    ∨ ∃ above', above = ((λ t, (t, false)) <$> pushed) ++ (c, true) :: above' ∧ stack = above' ++ (d, true) :: below) as Hsplit.
  { clear. induction pushed as [|p pushed IH]; intros [|x above] d below; simpl.
    - intros [= -> ->]. by left.
    - intros [= <- ->]. right. by exists above.
    - by intros [=].
    - intros [= <- Heq]. destruct (IH _ _ _ Heq) as [(-> & -> & ->)|(a & -> & ->)]; [by left|right; by exists a]. }
  assert (∀ t, t ∈ pushed ↔ (t ∉ c :: state) ∧ t ∈ targets c) as Hpu by (intros t; unfold pushed; by rewrite list_elem_of_filter).
  split.
  - rewrite Hex. apply NoDup_app in Hnd as (Hn1 & Hn2 & Hn3). change (expanded ((c, false) :: stack)) with (expanded stack) in *.
    apply NoDup_app. split_and!; [done| |].
    + intros d Hd [->|Hin]%elem_of_cons; [apply Hc, Hst; by left|by apply (Hn2 d)].
    + apply NoDup_cons. split; [|done]. intros Hin. apply Hc, Hst. by right.
  - intros d. rewrite Hex, !elem_of_cons, Hst. change (expanded ((c, false) :: stack)) with (expanded stack). tauto.
  - intros above d below [(-> & -> & ->)|(a & -> & ->)]%Hsplit e He.
    + apply list_elem_of_fmap in He as (t & -> & [_ Ht]%Hpu). apply edges_up in Ht. simpl. lia.
    + apply elem_of_app in He as [He|[->|He]%elem_of_cons].
      * apply list_elem_of_fmap in He as (t & -> & [_ Ht]%Hpu). apply edges_up in Ht.
        pose proof (Hab ((c, false) :: a) d below eq_refl (c, false) ltac:(by left)). simpl in *. lia.
      * exact (Hab ((c, false) :: a) d below eq_refl (c, false) ltac:(by left)).
      * apply (Hab ((c, false) :: a) d below eq_refl). by right.
  - intros above d below [(-> & -> & ->)|(a & -> & ->)]%Hsplit t Ht.
    + destruct (decide (t ∈ c :: state)) as [Hin|Hin].
      * left. apply elem_of_cons in Hin as [->|Hin]; [apply edges_up in Ht; lia|]. apply Hst in Hin as [Hin|Hin]; [done|].
        apply elem_of_order_stack, list_elem_of_split in Hin as (a & b & Heq).
        pose proof (λ H, Hab a t b Heq (c, false) H) as Hlt. destruct a as [|x a]; [by simplify_eq/=|].
        injection Heq as Hx _. specialize (Hlt ltac:(rewrite Hx; by left)). apply edges_up in Ht. simpl in *. lia.
      * right. rewrite <- list_fmap_compose. apply list_elem_of_fmap. exists t. split; [done|]. by apply Hpu.
    + destruct (Htg ((c, false) :: a) d below eq_refl t Ht) as [?|Hin]; [by left|right].
      rewrite fmap_app, elem_of_app, !fmap_cons in *. by right.
  - done.
  - intros e [He|[->|He]%elem_of_cons]%elem_of_app.
    + apply list_elem_of_fmap in He as (t & -> & [_ Ht]%Hpu). apply edges_up in Ht. simpl. lia.
    + apply (Hrg (c, false)). by left.
    + apply Hrg. by right.
  - done.
Qed.

(** ** The search ends *)

Definition id_weight (c : nat) : nat := S (length (targets c)).
Definition ids_left (state : list nat) : nat := weight_left (λ c, c) id_weight (seq 0 (length edges)) state.

Lemma ids_left_total state : S (ids_left state) < order_fuel edges.
Proof.
  unfold ids_left, order_fuel. pose proof (weight_left_total (λ c : nat, c) id_weight (seq 0 (length edges)) state) as H.
  rewrite (sum_seq edges (λ targets, S (length targets))) in H; [lia|]. intros i l Hl. unfold id_weight. simpl. by rewrite Hl.
Qed.

Lemma order_search_spec fuel : ∀ stack state order,
  order_inv stack state order → length stack + ids_left state < fuel →
  ∃ state' order', order_search fuel edges stack state order = Some (state', order') ∧ order_inv [] state' order'
    ∧ ∀ c, c ∈ state ∨ c ∈ stack.*1 → c ∈ state'.
Proof.
  induction fuel as [|fuel IH]; intros stack state order HI Hf; [lia|]. cbn [order_search].
  destruct stack as [|[c []] stack].
  - exists state, order. split; [done|]. split; [done|]. intros c [?|?%not_elem_of_nil]; done.
  - destruct (IH stack state (order ++ [c])) as (s' & o' & -> & HI' & Hm); [by apply order_inv_emit|simpl in *; lia|].
    exists s', o'. split; [done|]. split; [done|]. intros d. rewrite fmap_cons, elem_of_cons. intros [?|[->|?]]; apply Hm; auto.
    left. apply (oi_state _ _ _ HI). right. by left.
  - case_bool_decide as Hc.
    + destruct (IH stack state order) as (s' & o' & -> & HI' & Hm); [by eapply order_inv_skip|simpl in *; lia|].
      exists s', o'. split; [done|]. split; [done|]. intros d. rewrite fmap_cons, elem_of_cons. intros [?|[->|?]]; apply Hm; auto.
    + pose proof (order_inv_expand _ _ _ _ HI Hc) as HI'.
      destruct (IH _ _ _ HI') as (s' & o' & -> & HI2 & Hm).
      * pose proof (weight_left_visit (λ d : nat, d) id_weight (seq 0 (length edges)) state (c :: state) c) as Hw.
        specialize (Hw ltac:(apply elem_of_seq; pose proof (oi_range _ _ _ HI (c, false) ltac:(by left)); simpl in *; lia)
          Hc ltac:(by right) ltac:(by left)).
        pose proof (length_filter (λ t, t ∉ c :: state) (targets c)). unfold ids_left, id_weight in *.
        rewrite length_app, length_fmap. simpl in *. lia.
      * exists s', o'. split; [done|]. split; [done|]. intros d. rewrite fmap_cons, elem_of_cons. intros [?|[->|?]]; apply Hm.
        -- left. by right.
        -- left. by left.
        -- right. rewrite fmap_app, elem_of_app, fmap_cons, elem_of_cons. auto.
Qed.

Lemma order_roots_spec roots : ∀ state order,
  (∀ c, c ∈ roots → c < length edges) → order_inv [] state order →
  ∃ order', order_roots edges roots state order = Some order' ∧ NoDup order' ∧ targets_first order'
    ∧ (∀ c, c ∈ state ∨ c ∈ roots → c ∈ order') ∧ ∀ c, c ∈ order' → c < length edges.
Proof.
  induction roots as [|r roots IH]; intros state order Hr HI; cbn [order_roots].
  { exists order. split; [done|]. destruct HI as [Hnd Hst _ _ Hor _ Hrg']. simpl in Hnd. rewrite app_nil_r in Hnd.
    split; [done|]. split; [done|]. split; [|done]. intros c [Hc%Hst|?%not_elem_of_nil]; [|done]. by destruct Hc as [?|?%not_elem_of_nil]. }
  case_bool_decide as Hd.
  - destruct (IH state order) as (o & -> & Hnd & Ht & Hc & Hrg); [intros; apply Hr; by right|done|].
    exists o. split; [done|]. split; [done|]. split; [done|]. split; [|done]. intros c. rewrite elem_of_cons. intros [?|[->|?]]; apply Hc; auto.
  - assert (r < length edges) as Hrn by (apply Hr; by left).
    assert (order_inv [(r, false)] state order) as HI1.
    { destruct HI as [Hnd Hst _ _ Hor _ Hrg']. split; [done|done| | |done| |done].
      - intros [|x [|y a]] c b; by intros [=].
      - intros [|x [|y a]] c b; by intros [=].
      - intros e ->%list_elem_of_singleton. done. }
    destruct (order_search_spec (order_fuel edges) [(r, false)] state order HI1) as (s' & o' & -> & HI' & Hm).
    { pose proof (ids_left_total state). simpl. lia. }
    cbn [mbind option_bind]. destruct (IH s' o') as (o & -> & Hnd & Ht & Hc & Hrg); [intros; apply Hr; by right|done|].
    exists o. split; [done|]. split; [done|]. split; [done|]. split; [|done]. intros c. rewrite elem_of_cons. intros [?|[->|?]]; apply Hc.
    + left. apply Hm. by left.
    + left. apply Hm. right. by left.
    + by right.
Qed.
End order.

(** ** The edges between components *)

Section edges.
Context (direct : list EffectSets) (components : list (list nat)).
Context (HD : divided direct components) (cover : ∀ f, f < length direct → f ∈ concat components).

#[local] Abbreviation component_of f := (default 0 (component_by_function direct components !! f)).

Lemma set_component_lookup (i : nat) (C : list nat) : ∀ (m : list nat) (f : nat),
  (f ∈ C → f < length m) → foldl (λ m f, <[f := i]> m) m C !! f = if decide (f ∈ C) then Some i else m !! f.
Proof.
  induction C as [|c C IH]; intros m f Hf; cbn [foldl].
  { by rewrite decide_False by apply not_elem_of_nil. }
  rewrite IH by (rewrite length_insert; intros ?; apply Hf; by right).
  destruct (decide (f ∈ C)) as [Hc|Hc]; [by rewrite decide_True by (by right)|].
  destruct (decide (f = c)) as [->|Hne].
  - rewrite decide_True by (by left). apply list_lookup_insert_eq, Hf. by left.
  - rewrite decide_False by (by intros [?|?]%elem_of_cons). by apply list_lookup_insert_ne.
Qed.

Lemma length_set_components (C : list nat) (i : nat) (m : list nat) : length (foldl (λ m f, <[f := i]> m) m C) = length m.
Proof. revert m. induction C as [|c C IH]; intros m; simpl; [done|]. by rewrite IH, length_insert. Qed.

Lemma set_components_lookup (i f : nat) (l : list (nat * list nat)) : ∀ m : list nat,
  f < length m → (∀ j (D : list nat), (j, D) ∈ l → f ∈ D → j = i) → m !! f = Some i ∨ (∃ D : list nat, (i, D) ∈ l ∧ f ∈ D) →
  foldl (λ m p, foldl (λ m f, <[f := p.1]> m) m p.2) m l !! f = Some i.
Proof.
  induction l as [|[j D] l IH]; intros m Hm Hu Hin; cbn [foldl fst snd].
  { destruct Hin as [?|(D & ?%not_elem_of_nil & _)]; done. }
  apply IH; [by rewrite length_set_components|intros; eapply Hu; [by right|done]|].
  rewrite set_component_lookup by done. destruct (decide (f ∈ D)) as [Hf|Hf].
  - left. f_equal. by apply (Hu j D); [left|].
  - destruct Hin as [?|(E & [[= -> ->]|HE]%elem_of_cons & HfE)]; [by left|done|right; by exists E].
Qed.

Lemma component_unique (f : nat) : ∀ (cs : list (list nat)) i j C D,
  NoDup (concat cs) → cs !! i = Some C → cs !! j = Some D → f ∈ C → f ∈ D → i = j.
Proof.
  assert (∀ cs k (E : list nat), cs !! k = Some E → f ∈ E → f ∈ concat cs) as Hcat.
  { intros cs k E HE Hf. rewrite list_elem_of_In, in_concat. exists E. split; [|by apply list_elem_of_In].
    apply list_elem_of_In. by eapply list_elem_of_lookup_2. }
  induction cs as [|E cs IH]; intros [|i] [|j] C D Hnd Hi Hj HC HD'; simplify_eq/=; [done|..];
    apply NoDup_app in Hnd as (_ & Hd & Hnd).
  - exfalso. by apply (Hd f), (Hcat cs j D).
  - exfalso. by apply (Hd f), (Hcat cs i C).
  - f_equal. by apply (IH i j C D).
Qed.

Lemma in_components f : f < length direct → ∃ i C, components !! i = Some C ∧ f ∈ C.
Proof.
  intros Hf%cover. rewrite list_elem_of_In, in_concat in Hf. destruct Hf as (C & HC%list_elem_of_In & Hf%list_elem_of_In).
  apply list_elem_of_lookup in HC as [i Hi]. by exists i, C.
Qed.

Lemma component_lt i C f : components !! i = Some C → f ∈ C → f < length direct.
Proof.
  intros Hi Hf. apply (dv_range _ _ HD). rewrite list_elem_of_In, in_concat. exists C.
  split; apply list_elem_of_In; [by eapply list_elem_of_lookup_2|done].
Qed.

Lemma component_of_spec i C f : components !! i = Some C → f ∈ C → component_of f = i.
Proof.
  intros Hi Hf. unfold component_by_function. pose proof (component_lt i C f Hi Hf) as Hlt.
  rewrite (set_components_lookup i); [done|by rewrite length_replicate|..].
  - intros j D (j' & D' & [= -> ->] & Hj)%elem_of_lookup_imap HfD.
    exact (component_unique f components _ _ _ _ (dv_nodup _ _ HD) Hj Hi HfD Hf).
  - right. exists C. split; [|done]. apply elem_of_lookup_imap. by exists i, C.
Qed.

#[local] Abbreviation edges := (component_edges direct components).

Lemma component_edges_fold l : ∀ m i t,
  (∀ p, p ∈ l → component_of p.1 < length m) →
  t ∈ default [] (foldl (λ edges p,
    if target_id p.2 <? length direct then
      let source := component_of p.1 in
      let target := component_of (target_id p.2) in
      if source =? target then edges else alter (set_insert target) source edges
    else edges) m l !! i)
  ↔ t ∈ default [] (m !! i) ∨ ∃ p, p ∈ l ∧ target_id p.2 < length direct ∧ component_of p.1 = i ∧ component_of (target_id p.2) = t ∧ i ≠ t.
Proof.
  induction l as [|p l IH]; intros m i t Hm; cbn [foldl].
  { split; [by left|]. intros [?|(p & ?%not_elem_of_nil & _)]; done. }
  rewrite IH; cycle 1.
  { intros q Hq. cbn [foldl]. destruct (_ <? _); [|apply Hm; by right]. cbv zeta. destruct (_ =? _); [apply Hm; by right|].
    rewrite length_alter. apply Hm. by right. }
  setoid_rewrite elem_of_cons. destruct (Nat.ltb_spec (target_id p.2) (length direct)) as [Ht|Ht]; cbv zeta.
  - destruct (Nat.eqb_spec (component_of p.1) (component_of (target_id p.2))) as [He|He].
    + split; [naive_solver|]. intros [?|(q & [->|?] & ?)]; [by left| |right; eauto]. destruct H as (_ & <- & <- & []). done.
    + destruct (decide (component_of p.1 = i)) as [<-|Hne].
      * rewrite list_lookup_alter, decide_True by done.
        destruct (lookup_lt_is_Some_2 m (component_of p.1)) as [x Hx]; [apply Hm; by left|]. rewrite Hx. cbn [fmap option_fmap option_map default from_option id].
        rewrite elem_of_set_insert. naive_solver.
      * rewrite list_lookup_alter_ne by done. naive_solver.
  - split; [naive_solver|]. intros [?|(q & [->|?] & ?)]; [by left|lia|right; eauto].
Qed.

Lemma component_of_lt f : f < length direct → component_of f < length components.
Proof. intros (i & C & Hi & Hf)%in_components. rewrite (component_of_spec i C f Hi Hf). by eapply lookup_lt_Some. Qed.

Lemma component_edges_spec i t :
  t ∈ default [] (edges !! i) ↔ ∃ a b, site_calls direct a b ∧ component_of a = i ∧ component_of b = t ∧ i ≠ t.
Proof.
  unfold component_edges. cbv zeta. rewrite component_edges_fold.
  - destruct (decide (i < length components)) as [Hi|Hi].
    + rewrite lookup_replicate_2 by done. simpl. rewrite elem_of_nil. split.
      * intros [[]|([a s] & Hp%elem_of_all_sites & Ht & H1 & H2 & H3)]. exists a, (target_id s). split_and!; [|done..]. split; [done|]. by exists s.
      * intros (a & b & (Hb & s & Hs & <-) & Ha & Hb' & Hne). right. exists (a, s). rewrite elem_of_all_sites. done.
    + rewrite lookup_ge_None_2 by (rewrite length_replicate; lia). simpl. rewrite elem_of_nil. split.
      * intros [[]|([a s] & Hp%elem_of_all_sites & Ht & H1 & H2 & H3)]. exists a, (target_id s). split_and!; [|done..]. split; [done|]. by exists s.
      * intros (a & b & (Hb & s & Hs & <-) & Ha & Hb' & Hne). right. exists (a, s). rewrite elem_of_all_sites. done.
  - intros [a s] Hp%elem_of_all_sites. rewrite length_replicate. apply component_of_lt. by apply sites_of_lt in Hp.
Qed.

Lemma length_component_edges : length edges = length components.
Proof.
  unfold component_edges. cbv zeta. rewrite <- (length_replicate (length components) (@nil nat)) at 2.
  generalize (replicate (length components) (@nil nat)). induction (all_sites direct) as [|p l IH]; intros m; [done|]. cbn [foldl].
  rewrite IH. destruct (_ <? _); [|done]. destruct (_ =? _); [done|]. by rewrite length_alter.
Qed.

Lemma component_edges_up i t : t ∈ default [] (edges !! i) → i < t < length edges.
Proof.
  rewrite component_edges_spec, length_component_edges. intros (a & b & Hab & <- & <- & Hne).
  split; [|apply component_of_lt, Hab]. destruct (in_components b) as (j & D & Hj & Hb); [apply Hab|].
  destruct (dv_callers _ _ HD j D b a Hj Hb Hab) as (i & C & Hij & Hi & Ha).
  rewrite (component_of_spec i C a Hi Ha), (component_of_spec j D b Hj Hb) in *. lia.
Qed.

(** Every component is in the order once, after the components that it calls. *)
Lemma component_order_spec :
  ∃ order, order_roots edges (seq 0 (length components)) [] [] = Some order ∧ NoDup order ∧ targets_first edges order
    ∧ (∀ i, i < length components → i ∈ order) ∧ ∀ i, i ∈ order → i < length components.
Proof.
  destruct (order_roots_spec edges component_edges_up (seq 0 (length components)) [] []) as (o & Ho & Hnd & Ht & Hc & Hrg).
  - intros c. rewrite elem_of_seq, length_component_edges. lia.
  - split; try by intros [|x a].
    + constructor.
    + intros c. rewrite !elem_of_nil. tauto.
    + by intros e ?%not_elem_of_nil.
    + by intros e ?%not_elem_of_nil.
  - exists o. split; [done|]. split; [done|]. split; [done|]. rewrite length_component_edges in Hrg. split; [|done].
    intros i Hi. apply Hc. right. apply elem_of_seq. lia.
Qed.
End edges.
