(* ===== verification/EffectProps.v ===== *)
(** * The aggregate effects of a function

    A fact is a region that is read or written, a function or host function that is
    called, or a host effect.  [reaches] says which facts a function has by itself and by
    the functions it calls, with the paths through parameters taken to the arguments. *)

From stdpp Require Import relations.
From S2P Require Import Prelude BTree Identity Text Effects EffectComponents.
#[local] Open Scope nat_scope.
#[local] Set Warnings "-clear-no-such-hyp".

(** ** Facts *)

Inductive Fact :=
| FRead (path : str)
| FWrite (path : str)
| FCall (function : str)
| FHostCall (function : str)
| FHostEffect (effect : FunctionHostEffect).

(** A path through a parameter is in the sets of the parameters. *)
Definition holds (e : EffectSets) (fact : Fact) : Prop :=
  match fact with
  | FRead p => if is_symbolic p then p ∈ parameter_reads e else p ∈ reads e
  | FWrite p => if is_symbolic p then p ∈ parameter_writes e else p ∈ writes e
  | FCall f => f ∈ calls e
  | FHostCall f => f ∈ host_calls e
  | FHostEffect h => h ∈ host_effects e
  end.

#[export] Instance holds_dec e fact : Decision (holds e fact).
Proof. destruct fact; simpl; [destruct (is_symbolic _)..| | |]; apply _. Defined.

(** The fact of a callee in its caller. *)
Definition transfer (substitutions : list (Z * str)) (retain : bool) (fact : Fact) : option Fact :=
  match fact with
  | FRead p => FRead <$> substitute_path p substitutions retain
  | FWrite p => FWrite <$> substitute_path p substitutions retain
  | _ => Some fact
  end.

(** The sets keep the paths through parameters apart from the regions. *)
Record effects_ok (e : EffectSets) : Prop := {
  ok_reads : ∀ p, p ∈ reads e → is_symbolic p = false;
  ok_writes : ∀ p, p ∈ writes e → is_symbolic p = false;
  ok_parameter_reads : ∀ p, p ∈ parameter_reads e → is_symbolic p = true;
  ok_parameter_writes : ∀ p, p ∈ parameter_writes e → is_symbolic p = true;
}.

Definition effects_okb (e : EffectSets) : bool :=
  forallb (λ p, negb (is_symbolic p)) (reads e) && forallb (λ p, negb (is_symbolic p)) (writes e)
  && forallb is_symbolic (parameter_reads e) && forallb is_symbolic (parameter_writes e).

Lemma effects_okb_spec e : effects_okb e = true → effects_ok e.
Proof.
  unfold effects_okb. rewrite !andb_true_iff, !forallb_forall. setoid_rewrite <- list_elem_of_In. setoid_rewrite negb_true_iff.
  intros [[[] ?] ?]. by split.
Qed.

(** What a function does itself, and what it does by a call.  As in [substitute_path], a path
    through a parameter is no fact of a caller that hands on no known path for it. *)
Inductive reaches (direct : list EffectSets) : nat → Fact → Prop :=
| reach_own f e fact fact' :
    direct !! f = Some e → holds e fact → transfer [] true fact = Some fact' → reaches direct f fact'
| reach_call f s fact fact' :
    s ∈ sites_of direct f → target_id s < length direct → reaches direct (target_id s) fact →
    transfer (substitutions_of (arguments s)) false fact = Some fact' → reaches direct f fact'.

(** ** Merging *)

Lemma elem_of_extend `{OrdKey K} (xs l : list K) x : x ∈ extend xs l ↔ x ∈ l ∨ x ∈ xs.
Proof.
  unfold extend. revert l. induction xs as [|y xs IH]; intros l; simpl; [rewrite elem_of_nil; tauto|].
  rewrite IH, elem_of_set_insert, elem_of_cons. tauto.
Qed.

Lemma substitute_plain p subs retain : is_symbolic p = false → substitute_path p subs retain = Some p.
Proof. unfold substitute_path, symbolic_parts. destruct p as [|b p]; [done|]. simpl. by intros ->. Qed.

Lemma scanned_path_holds p e fact : holds (record_scanned_path p e) fact ↔ holds e fact.
Proof. unfold record_scanned_path. destruct (_ || _); [done|]. destruct (last _); [|done]. by destruct fact. Qed.

Lemma scanned_path_ok p e : effects_ok (record_scanned_path p e) ↔ effects_ok e.
Proof.
  unfold record_scanned_path. destruct (_ || _); [done|]. destruct (last _); [|done]. split; intros []; by split.
Qed.

Lemma insert_read_holds p e fact : holds (insert_read p e) fact ↔ fact = FRead p ∨ holds e fact.
Proof.
  unfold insert_read. cbv zeta. rewrite <- (scanned_path_holds p e fact). generalize (record_scanned_path p e). clear e. intros e.
  destruct (is_symbolic p) eqn:Ep; destruct fact as [q|q|q|q|q]; simpl; try destruct (is_symbolic q) eqn:Eq;
    rewrite ?elem_of_set_insert; naive_solver congruence.
Qed.

Lemma insert_write_holds p e fact : holds (insert_write p e) fact ↔ fact = FWrite p ∨ holds e fact.
Proof.
  unfold insert_write. cbv zeta. rewrite <- (scanned_path_holds p e fact). generalize (record_scanned_path p e). clear e. intros e.
  destruct (is_symbolic p) eqn:Ep; destruct fact as [q|q|q|q|q]; simpl; try destruct (is_symbolic q) eqn:Eq;
    rewrite ?elem_of_set_insert; naive_solver congruence.
Qed.

Lemma insert_read_ok p e : effects_ok e → effects_ok (insert_read p e).
Proof.
  intros He. unfold insert_read. cbv zeta. apply (scanned_path_ok p) in He as []. 
  destruct (is_symbolic p) eqn:Ep; split; simpl; try done; intros q [->|?]%elem_of_set_insert; auto.
Qed.

Lemma insert_write_ok p e : effects_ok e → effects_ok (insert_write p e).
Proof.
  intros He. unfold insert_write. cbv zeta. apply (scanned_path_ok p) in He as []. 
  destruct (is_symbolic p) eqn:Ep; split; simpl; try done; intros q [->|?]%elem_of_set_insert; auto.
Qed.

Lemma insert_paths_spec insert mk subs retain paths :
  (∀ p e fact, holds (insert p e) fact ↔ fact = mk p ∨ holds e fact) → (∀ p e, effects_ok e → effects_ok (insert p e)) →
  ∀ e, (∀ fact, holds (insert_paths insert subs retain paths e) fact
          ↔ holds e fact ∨ ∃ q p, q ∈ paths ∧ substitute_path q subs retain = Some p ∧ fact = mk p)
    ∧ (effects_ok e → effects_ok (insert_paths insert subs retain paths e)).
Proof.
  intros Hi Hok. unfold insert_paths. induction paths as [|q paths IH]; intros e; cbn [foldl].
  { split; [|done]. intros fact. setoid_rewrite elem_of_nil. naive_solver. }
  setoid_rewrite elem_of_cons. destruct (substitute_path q subs retain) as [p|] eqn:Ep.
  - destruct (IH (insert p e)) as [IH1 IH2]. split; [|by eauto]. intros fact. rewrite IH1, Hi. naive_solver.
  - destruct (IH e) as [IH1 IH2]. split; [|by eauto]. intros fact. rewrite IH1. naive_solver.
Qed.

Lemma merge_effects_spec child subs retain multiplier depth e :
  effects_ok child → effects_ok e →
  effects_ok (merge_substituted_effects child subs retain multiplier depth e)
  ∧ ∀ fact', holds (merge_substituted_effects child subs retain multiplier depth e) fact'
      ↔ holds e fact' ∨ ∃ fact, holds child fact ∧ transfer subs retain fact = Some fact'.
Proof.
  intros Hc He. unfold merge_substituted_effects. cbv zeta.
  set (e1 := with_host_call_costs _ _).
  assert (effects_ok e1) as Ho1.
  { destruct Hc, He. subst e1. split; simpl; intros p; rewrite ?elem_of_extend; naive_solver. }
  assert (∀ fact', holds e1 fact' ↔ holds e fact' ∨ (holds child fact' ∧ match fact' with FRead p | FWrite p => is_symbolic p = false | _ => True end)) as Hh1.
  { destruct Hc, He. subst e1. intros [q|q|q|q|q]; simpl; try destruct (is_symbolic q) eqn:Eq; rewrite ?elem_of_extend; naive_solver. }
  clearbody e1.
  destruct (insert_paths_spec insert_read FRead subs retain (parameter_reads child) insert_read_holds insert_read_ok e1) as [Hh2 Ho2].
  specialize (Ho2 Ho1). set (e2 := insert_paths insert_read _ _ _ _) in *. clearbody e2.
  destruct (insert_paths_spec insert_write FWrite subs retain (parameter_writes child) insert_write_holds insert_write_ok e2) as [Hh3 Ho3].
  specialize (Ho3 Ho2). set (e3 := insert_paths insert_write _ _ _ _) in *. clearbody e3.
  split; [destruct Ho3; by split|]. intros fact'.
  transitivity (holds e3 fact'); [by destruct fact'|]. rewrite Hh3, Hh2, Hh1. clear Hh1 Hh2 Hh3 Ho1 Ho2 Ho3 e1 e2 e3.
  split.
  - intros [[[?|[Hf Hp]]|(q & p & Hq & Hs & ->)]|(q & p & Hq & Hs & ->)]; [by left|..]; right.
    + exists fact'. split; [done|]. destruct fact' as [p|p|?|?|?]; simpl; [by rewrite (substitute_plain _ _ _ Hp)..|done|done|done].
    + exists (FRead q). simpl. rewrite (ok_parameter_reads _ Hc q Hq), Hs. done.
    + exists (FWrite q). simpl. rewrite (ok_parameter_writes _ Hc q Hq), Hs. done.
  - intros [?|(fact & Hf & Ht)]; [by do 3 left|].
    destruct fact as [q|q|q|q|q]; simpl in Ht;
      try (injection Ht as <-; left; left; right; by split).
    + destruct (substitute_path q subs retain) as [p|] eqn:Es; [|done]. injection Ht as <-. destruct (is_symbolic q) eqn:Eq.
      * left. right. exists q, p. simpl in Hf. rewrite Eq in Hf. done.
      * rewrite (substitute_plain _ _ _ Eq) in Es. injection Es as <-. left. left. right. by split.
    + destruct (substitute_path q subs retain) as [p|] eqn:Es; [|done]. injection Ht as <-. destruct (is_symbolic q) eqn:Eq.
      * right. exists q, p. simpl in Hf. rewrite Eq in Hf. done.
      * rewrite (substitute_plain _ _ _ Eq) in Es. injection Es as <-. left. left. right. by split.
Qed.

(** ** One component *)

Section aggregates.
Context (direct : list EffectSets) (direct_ok : Forall effects_ok direct).
#[local] Abbreviation n := (length direct).
Implicit Types (aggs : list EffectSets) (C : list nat).

(** What a function has by itself, and by the aggregates of the functions it calls. *)
Definition step_fact aggs (f : nat) (fact' : Fact) : Prop :=
  ∃ e, direct !! f = Some e ∧
  ((∃ fact, holds e fact ∧ transfer [] true fact = Some fact')
   ∨ ∃ s child fact, s ∈ site_list e ∧ aggs !! target_id s = Some child ∧ holds child fact
       ∧ transfer (substitutions_of (arguments s)) false fact = Some fact').

Definition solved aggs (f : nat) : Prop := ∃ e, aggs !! f = Some e ∧ ∀ fact, holds e fact ↔ step_fact aggs f fact.

Record sound aggs : Prop := {
  so_length : length aggs = n;
  so_ok : Forall effects_ok aggs;
  so_reaches : ∀ f e fact, aggs !! f = Some e → holds e fact → reaches direct f fact;
}.

Lemma no_effects_ok : effects_ok no_effects.
Proof. split; intros p ?%not_elem_of_nil; done. Qed.

Lemma no_effects_holds fact : ¬ holds no_effects fact.
Proof. destruct fact; simpl; try destruct (is_symbolic _); apply not_elem_of_nil. Qed.

Lemma add_calls_spec aggs C cyclic sites : Forall effects_ok aggs → ∀ e,
  effects_ok e →
  effects_ok (foldl (add_call aggs C cyclic) e sites)
  ∧ ∀ fact', holds (foldl (add_call aggs C cyclic) e sites) fact' ↔ holds e fact' ∨
      ∃ s child fact, s ∈ sites ∧ aggs !! target_id s = Some child ∧ holds child fact
        ∧ transfer (substitutions_of (arguments s)) false fact = Some fact'.
Proof.
  intros Hok. induction sites as [|s sites IH]; intros e He; cbn [foldl].
  { split; [done|]. intros fact'. setoid_rewrite elem_of_nil. naive_solver. }
  unfold add_call at 2 4. setoid_rewrite elem_of_cons. destruct (aggs !! target_id s) as [child|] eqn:Ec.
  - cbv zeta. assert (effects_ok child) as Hoc by (by eapply Forall_lookup_1).
    destruct (merge_effects_spec child (substitutions_of (arguments s)) false
      (if cyclic && bool_decide (target_id s ∈ C) then None else max_invocations s)
      (if cyclic && bool_decide (target_id s ∈ C) then 0%Z else outer_nesting_depth s) e Hoc He) as [Hm1 Hm2].
    destruct (IH _ Hm1) as [IH1 IH2]. split; [done|]. intros fact'. rewrite IH2, Hm2. naive_solver.
  - destruct (IH _ He) as [IH1 IH2]. split; [done|]. intros fact'. rewrite IH2. naive_solver.
Qed.

Lemma aggregate_function_spec aggs C cyclic f : Forall effects_ok aggs → f < n →
  effects_ok (aggregate_function direct aggs C cyclic f)
  ∧ ∀ fact, holds (aggregate_function direct aggs C cyclic f) fact ↔ step_fact aggs f fact.
Proof.
  intros Hok [e He]%lookup_lt_is_Some_2. unfold aggregate_function, step_fact. rewrite He. cbn [default from_option id]. cbv zeta.
  pose proof (Forall_lookup_1 _ _ _ _ direct_ok He) as Hoe.
  destruct (merge_effects_spec e [] true (Some 1%Z) 0%Z no_effects Hoe no_effects_ok) as [Hm1 Hm2].
  destruct (add_calls_spec aggs C cyclic (site_list e) Hok _ Hm1) as [Ha1 Ha2]. split; [done|]. intros fact.
  rewrite Ha2, Hm2. pose proof (no_effects_holds fact). naive_solver.
Qed.

Lemma step_fact_sound aggs f fact : sound aggs → step_fact aggs f fact → reaches direct f fact.
Proof.
  intros [Hlen _ Hr] (e & He & [(fact0 & Hh & Ht)|(s & child & fact0 & Hs & Hc & Hh & Ht)]).
  - by eapply reach_own.
  - eapply reach_call; [| |by eapply Hr|done].
    + unfold sites_of. by rewrite He.
    + rewrite <- Hlen. by eapply lookup_lt_Some.
Qed.

(** The sets after a component is updated. *)
Lemma update_component_lookup (h : nat → EffectSets) C (g : nat) : ∀ aggs,
  (∀ f, f ∈ C → f < length aggs) →
  update_component C (h <$> C) aggs !! g = if decide (g ∈ C) then Some (h g) else aggs !! g.
Proof.
  unfold update_component. induction C as [|c C IH]; intros aggs Hr; cbn [fmap list_fmap zip zip_with foldl fst snd].
  { by rewrite decide_False by apply not_elem_of_nil. }
  rewrite IH by (intros f Hf; rewrite length_insert; apply Hr; by right).
  destruct (decide (g ∈ C)) as [Hg|Hg]; [by rewrite decide_True by (by right)|].
  destruct (decide (g = c)) as [->|Hne].
  - rewrite decide_True by (by left). apply list_lookup_insert_eq, Hr. by left.
  - rewrite decide_False by (by intros [?|?]%elem_of_cons). by apply list_lookup_insert_ne.
Qed.

Lemma length_update_component (next : list EffectSets) C aggs : length (update_component C next aggs) = length aggs.
Proof.
  unfold update_component. revert aggs. induction (zip C next) as [|p l IH]; intros aggs; [done|]. simpl. by rewrite IH, length_insert.
Qed.

Lemma update_sound aggs C cyclic : sound aggs → (∀ f, f ∈ C → f < n) →
  sound (update_component C (aggregate_function direct aggs C cyclic <$> C) aggs).
Proof.
  intros HS HC. pose proof HS as [Hlen Hok Hr]. split.
  - by rewrite length_update_component.
  - apply Forall_lookup_2. intros g e. rewrite update_component_lookup by (by rewrite Hlen). destruct (decide (g ∈ C)) as [Hg|Hg].
    + intros [= <-]. by apply aggregate_function_spec; [|apply HC].
    + by apply Forall_lookup_1.
  - intros g e fact. rewrite update_component_lookup by (by rewrite Hlen). destruct (decide (g ∈ C)) as [Hg|Hg]; [|by apply Hr].
    intros [= <-] Hh. apply (step_fact_sound aggs); [done|]. revert Hh. apply aggregate_function_spec; [done|by apply HC].
Qed.

Lemma is_cyclic_false C f s : is_cyclic direct C = false → f ∈ C → s ∈ sites_of direct f → C = [f] ∧ target_id s ≠ f.
Proof.
  unfold is_cyclic. intros [Hl He]%orb_false_iff Hf Hs. apply Nat.ltb_ge in Hl. destruct C as [|c [|d C]]; simpl in Hl; [by apply not_elem_of_nil in Hf| |lia].
  apply list_elem_of_singleton in Hf as ->. split; [done|]. intros Ht. assert (existsb (λ s, target_id s =? c) (sites_of direct c) = true); [|congruence].
  apply existsb_exists. exists s. split; [by apply list_elem_of_In|]. by apply Nat.eqb_eq.
Qed.

(** Facts of [f] depend on the aggregates of the functions it calls. *)
Lemma step_fact_agree aggs aggs' f fact :
  (∀ s, s ∈ sites_of direct f → aggs !! target_id s = aggs' !! target_id s) → step_fact aggs f fact ↔ step_fact aggs' f fact.
Proof.
  unfold step_fact, sites_of. intros Ha.
  split; intros (e & He & Hc); exists e; (split; [done|]); rewrite He in Ha; destruct Hc as [?|(s & child & fact0 & Hs & Hc & ?)];
    [by left|right; exists s, child, fact0; by rewrite <- Ha|by left|right; exists s, child, fact0; by rewrite Ha].
Qed.

Lemma converge_spec C rounds : (∀ f, f ∈ C → f < n) → ∀ aggs aggs',
  sound aggs → converge direct rounds C (is_cyclic direct C) aggs = Some aggs' →
  sound aggs' ∧ (∀ g, g ∉ C → aggs' !! g = aggs !! g) ∧ ∀ f, f ∈ C → solved aggs' f.
Proof.
  intros HC. induction rounds as [|rounds IH]; intros aggs aggs' HS Hc; [done|]. cbn [converge] in Hc.
  pose proof HS as [Hlen Hok Hr].
  set (h := aggregate_function direct aggs C (is_cyclic direct C)) in *.
  assert (∀ f, f ∈ C → effects_ok (h f) ∧ ∀ fact, holds (h f) fact ↔ step_fact aggs f fact) as Hh.
  { intros f Hf. by apply aggregate_function_spec; [|apply HC]. }
  destruct (forallb _ _) eqn:Ef.
  - injection Hc as <-. split; [done|]. split; [done|]. intros f Hf. exists (h f). split; [|by apply Hh].
    rewrite forallb_forall in Ef. specialize (Ef (f, h f)). rewrite <- list_elem_of_In in Ef. apply (bool_decide_eq_true_1 (aggs !! f = Some (h f))), Ef.
    clear -Hf. clearbody h. revert h. induction C as [|c C IHC]; intros h; [by apply not_elem_of_nil in Hf|]. simpl.
    apply elem_of_cons in Hf as [->|Hf]; [by left|right; by apply IHC].
  - cbv zeta in Hc. set (aggs1 := update_component C (h <$> C) aggs) in *.
    assert (sound aggs1) as HS1 by (by apply update_sound).
    assert (∀ g, aggs1 !! g = if decide (g ∈ C) then Some (h g) else aggs !! g) as Hl1.
    { intros g. apply update_component_lookup. by rewrite Hlen. }
    destruct (is_cyclic direct C) eqn:Ecy.
    + destruct (IH _ _ HS1 Hc) as (HS' & Ho & Hs). split; [done|]. split; [|done]. intros g Hg. rewrite Ho, Hl1 by done. by rewrite decide_False.
    + injection Hc as <-. split; [done|]. split; [intros g Hg; by rewrite Hl1, decide_False|]. intros f Hf. exists (h f).
      split; [by rewrite Hl1, decide_True|]. intros fact. destruct (Hh f Hf) as [_ ->]. apply step_fact_agree. intros s Hs.
      destruct (is_cyclic_false C f s Ecy Hf Hs) as [-> Hne]. by rewrite Hl1, decide_False by (by rewrite list_elem_of_singleton).
Qed.

Lemma converge_acyclic C rounds aggs : is_cyclic direct C = false → ∃ aggs', converge direct (S rounds) C (is_cyclic direct C) aggs = Some aggs'.
Proof. intros ->. cbn [converge]. destruct (forallb _ _); eauto. Qed.

(** ** All components *)

Section components.
Context (components : list (list nat)) (HD : divided direct components) (cover : ∀ f, f < n → f ∈ concat components).
#[local] Abbreviation edges := (component_edges direct components).

(** The functions of the components that are done. *)
Definition in_done (done : list nat) (f : nat) : Prop := ∃ i C, i ∈ done ∧ components !! i = Some C ∧ f ∈ C.

Lemma callee_done done i C f b :
  (∀ t, t ∈ default [] (edges !! i) → t ∈ done) → components !! i = Some C → f ∈ C → site_calls direct f b → b ∈ C ∨ in_done done b.
Proof.
  intros Ht Hi Hf Hb. destruct (in_components direct components cover b (proj1 Hb)) as (j & D & Hj & HbD).
  destruct (decide (i = j)) as [<-|Hne]; [left; by simplify_eq|]. right. exists j, D. split; [|done]. apply Ht.
  apply component_edges_spec; [done|done|]. exists f, b. split; [done|].
  rewrite (component_of_spec _ _ HD i C f Hi Hf), (component_of_spec _ _ HD j D b Hj HbD). done.
Qed.

Lemma aggregate_components_spec order : ∀ done aggs aggs',
  NoDup (done ++ order) → targets_first edges (done ++ order) → (∀ i, i ∈ order → i < length components) → sound aggs →
  (∀ f, in_done done f → solved aggs f) →
  aggregate_components direct components order aggs = Ok aggs' →
  sound aggs' ∧ ∀ f, in_done (done ++ order) f → solved aggs' f.
Proof.
  induction order as [|i order IH]; intros done aggs aggs' Hnd Ht Hr HS Hdone Ha; cbn [aggregate_components] in Ha.
  { injection Ha as <-. by rewrite app_nil_r. }
  destruct (aggregate_component direct _ aggs) as [aggs1|] eqn:Ec; [|done].
  destruct (lookup_lt_is_Some_2 components i) as [C HC]; [apply Hr; by left|]. rewrite HC in Ec. cbn [default from_option id] in Ec.
  unfold aggregate_component, ok_or in Ec. destruct (converge _ _ _ _ _) as [aggs2|] eqn:Ecv; [|done]. injection Ec as ->.
  apply converge_spec in Ecv as (HS1 & Hout & Hin); [|intros f Hf; by eapply component_lt|done].
  replace (done ++ i :: order) with ((done ++ [i]) ++ order) in * by (by rewrite <- app_assoc).
  apply (IH (done ++ [i]) aggs1); [done|done|intros j Hj; apply Hr; by right|done| |done].
  intros f (j & D & [Hj| ->%list_elem_of_singleton]%elem_of_app & HjD & Hf); [|by apply Hin; simplify_eq].
  (* the callees of a component that is done are not in this one *)
  assert (∀ g, in_done done g → g ∉ C) as Hnew.
  { intros g (k & E & Hk & HkE & HgE) HgC. rewrite <- app_assoc in Hnd. apply NoDup_app in Hnd as (_ & Hd & _). apply (Hd k Hk).
    rewrite (component_unique g components k i E C (dv_nodup _ _ HD) HkE HC HgE HgC). by left. }
  assert (in_done done f) as Hfd by (by exists j, D).
  destruct (Hdone f Hfd) as (e & He & Hs). exists e. split; [by rewrite Hout by (by apply Hnew)|]. intros fact. rewrite Hs.
  apply step_fact_agree. intros s Hsf. destruct (decide (target_id s < n)) as [Hlt|Hge].
  - symmetry. apply Hout, Hnew. destruct (callee_done done j D f (target_id s)) as [HbD|?]; [|done|done|split; [done|by exists s]| |done].
    + intros t Htj. apply list_elem_of_split in Hj as (l1 & l2 & ->). rewrite <- !app_assoc in Ht.
      apply elem_of_app. left. by eapply Ht.
    + by exists j, D.
  - rewrite !lookup_ge_None_2; [done|rewrite (so_length _ HS1); lia|rewrite (so_length _ HS); lia].
Qed.
End components.

Lemma solved_complete aggs f fact : length aggs = n → (∀ f, f < n → solved aggs f) → reaches direct f fact →
  ∃ e, aggs !! f = Some e ∧ holds e fact.
Proof.
  intros Hlen Hs. induction 1 as [f e fact fact' He Hh Ht|f s fact fact' Hsf Hlt _ (child & Hc & Hh) Ht].
  - destruct (Hs f) as (a & Ha & Hiff); [by eapply lookup_lt_Some|]. exists a. split; [done|]. apply Hiff. exists e. split; [done|]. left. eauto.
  - destruct (Hs f) as (a & Ha & Hiff); [by eapply sites_of_lt|]. exists a. split; [done|]. apply Hiff.
    unfold sites_of in Hsf. destruct (direct !! f) as [e|] eqn:He; [|by apply not_elem_of_nil in Hsf]. exists e. split; [done|].
    right. exists s, child, fact. done.
Qed.

Lemma aggregate_components_acyclic components order : (∀ i C, components !! i = Some C → is_cyclic direct C = false) → ∀ aggs,
  ∃ aggs', aggregate_components direct components order aggs = Ok aggs'.
Proof.
  intros Hac. induction order as [|i order IH]; intros aggs; cbn [aggregate_components]; [by eexists|].
  unfold aggregate_component, ok_or. set (C := default [] (components !! i)). replace (length C + 2) with (S (S (length C))) by lia.
  destruct (converge_acyclic C (S (length C)) aggs) as [aggs' ->]; [|apply IH].
  unfold C. destruct (components !! i) eqn:E; [by eapply Hac|done].
Qed.

(** A cyclic component has a function that calls itself, directly or not. *)
Lemma cyclic_recursive components i C : divided direct components → components !! i = Some C → is_cyclic direct C = true →
  ∃ f, tc (site_calls direct) f f.
Proof.
  intros HD Hi Hcy. unfold is_cyclic in Hcy. apply orb_true_iff in Hcy as [Hl%Nat.ltb_lt|Hself].
  - destruct C as [|a [|b C]]; simpl in Hl; [lia..|].
    assert (a ≠ b) as Hne.
    { assert (NoDup (a :: b :: C)) as Hnd; [|apply NoDup_cons in Hnd as [Hnd _]; by intros ->; apply Hnd; left].
      pose proof (dv_nodup _ _ HD) as Hnd. apply list_elem_of_split_length in Hi as (l1 & l2 & -> & _).
      rewrite concat_app in Hnd. by apply NoDup_app in Hnd as (_ & _ & [Hnd _]%NoDup_app). }
    pose proof (dv_mutual _ _ HD i _ a b Hi ltac:(by left) ltac:(right; by left)) as [Hab|Hab]%rtc_tc; [done|].
    exists a. eapply tc_rtc_r; [done|]. apply (dv_mutual _ _ HD i _ b a Hi); [right; by left|by left].
  - destruct C as [|f C]; [done|]. apply existsb_exists in Hself as (s & Hs%list_elem_of_In & Ht%Nat.eqb_eq). exists f. apply tc_once.
    split; [|by exists s]. apply (component_lt direct components HD i (f :: C)); [done|by left].
Qed.
End aggregates.

Lemma aggregates_spec direct :
  Forall effects_ok direct →
  ∃ r, build_aggregate_effects direct = Some r
  ∧ (∀ aggs, r = Ok aggs → length aggs = length direct
       ∧ ∀ f e fact, aggs !! f = Some e → holds e fact ↔ reaches direct f fact)
  ∧ (∀ message, r = Err message → ∃ f, tc (site_calls direct) f f).
Proof.
  intros Hok. unfold build_aggregate_effects. destruct (components_spec direct) as (components & -> & HD & Hcov). cbn [mbind option_bind].
  assert (∀ f, f < length direct → f ∈ concat components) as cover by (intros f; by rewrite Hcov).
  destruct (component_order_spec direct components HD cover) as (order & -> & Hnd & Ht & Hall & Hlt). cbn [mbind option_bind].
  eexists. split; [done|]. split.
  - intros aggs Ha. apply (aggregate_components_spec direct Hok components HD cover order []) in Ha as [[Hlen Hoks Hr] Hs].
    + split; [done|]. intros f e fact He. split; [by apply Hr|]. intros Hf.
      destruct (solved_complete direct aggs f fact Hlen) as (e' & He' & Hh); [|done|by simplify_eq].
      intros g Hg. apply Hs. destruct (in_components direct components cover g Hg) as (i & C & Hi & HC). exists i, C.
      split; [|done]. apply Hall. by eapply lookup_lt_Some.
    + done.
    + done.
    + exact Hlt.
    + split; [apply length_replicate| |].
      * apply Forall_replicate, no_effects_ok.
      * intros f e fact [-> _]%lookup_replicate Hh. by apply no_effects_holds in Hh.
    + intros f (i & C & Hi & _). by apply not_elem_of_nil in Hi.
  - intros m Hm. destruct (existsb (is_cyclic direct) components) eqn:Ecy.
    + apply existsb_exists in Ecy as (C & [i Hi]%list_elem_of_In%list_elem_of_lookup & Hcy). by eapply cyclic_recursive.
    + destruct (aggregate_components_acyclic direct components order) with (aggs := replicate (length direct) no_effects) as [aggs Ha]; [|congruence].
      intros i C Hi. destruct (is_cyclic direct C) eqn:E; [|done]. assert (existsb (is_cyclic direct) components = true); [|congruence].
      apply existsb_exists. exists C. split; [|done]. apply list_elem_of_In. by eapply list_elem_of_lookup_2.
Qed.

(** C20 The effects of a function with those it calls are exact.  The analysis always
    answers; when it accepts, every aggregate holds exactly the reads, writes, calls and host
    effects that the function has itself or that reach it through calls, with the paths
    through parameters taken to the arguments; it refuses only programs with a function that
    calls itself, directly or not. *)
Theorem aggregate_exact direct :
  Forall effects_ok direct →
  ∃ r, build_aggregate_effects direct = Some r
  ∧ (∀ aggs, r = Ok aggs → length aggs = length direct
       ∧ ∀ f e fact, aggs !! f = Some e → holds e fact ↔ reaches direct f fact)
  ∧ (∀ message, r = Err message → ∃ f, tc (site_calls direct) f f).
Proof. apply aggregates_spec. Qed.

(** ** A program *)

(** [main] calls [step] with a region; [step] writes through its parameter and calls itself
    and [log], which prints. *)
Definition sample_site (target : nat) (args : list (option str)) : CallSite := mkSite target args (Some 1%Z) 0%Z.

Definition sample_effects : list EffectSets :=
  [ with_reads (λ _, [string_bytes "state.tick"])
      (with_calls (λ _, [string_bytes "step"]) (with_site_list (λ _, [sample_site 1 [Some (string_bytes "world.p")]]) no_effects));
    with_parameter_writes (λ _, [string_bytes "$0.x"])
      (with_calls (λ _, [string_bytes "log"; string_bytes "step"])
        (with_site_list (λ _, [sample_site 1 [Some (string_bytes "$0")]; sample_site 2 []]) no_effects));
    with_host_calls (λ _, [string_bytes "print_i32"])
      (with_host_effects (λ _, [mkHostEffect (string_bytes "print_i32") (string_bytes "platform")]) no_effects) ].

Definition sample_aggregates : list EffectSets :=
  match build_aggregate_effects sample_effects with Some (Ok aggs) => aggs | _ => [] end.

Definition sample_facts : list Fact :=
  [FRead (string_bytes "state.tick"); FWrite (string_bytes "world.p.x"); FCall (string_bytes "log");
   FHostEffect (mkHostEffect (string_bytes "print_i32") (string_bytes "platform"))].

Lemma aggregate_exact_witness :
  Forall (reaches sample_effects 0) sample_facts ∧ ¬ reaches sample_effects 1 (FWrite (string_bytes "world.p.x")).
Proof.
  destruct (aggregate_exact sample_effects) as (r & Hr & Hok & _).
  { repeat constructor; apply effects_okb_spec; vm_compute; reflexivity. }
  assert (build_aggregate_effects sample_effects = Some (Ok sample_aggregates)) as Hs by (vm_compute; reflexivity).
  assert (r = Ok sample_aggregates) as Hrs by congruence.
  destruct (Hok sample_aggregates Hrs) as [_ Hex].
  assert (∀ f fact b, bool_decide (holds (default no_effects (sample_aggregates !! f)) fact) = b → f < 3 →
    if b : bool then reaches sample_effects f fact else ¬ reaches sample_effects f fact) as Hdec.
  { intros f fact b Hb Hf. destruct (sample_aggregates !! f) as [e|] eqn:He.
    - simpl in Hb. destruct b; [apply bool_decide_eq_true in Hb|apply bool_decide_eq_false in Hb]; by rewrite <- (Hex f e fact He).
    - assert (length sample_aggregates = 3) as Hl by (vm_compute; reflexivity). apply lookup_ge_None in He. lia. }
  split.
  - repeat constructor; (apply (Hdec 0 _ true); [vm_compute; reflexivity|lia]).
  - apply (Hdec 1 _ false); [vm_compute; reflexivity|lia].
Defined.

(** A function that calls itself with its three parameters rotated and reads through the
    first.  The aggregate is the reads through each of the three. *)
Definition rotate_effects : list EffectSets :=
  [ with_parameter_reads (λ _, [string_bytes "$0"])
      (with_calls (λ _, [string_bytes "rotate"])
        (with_site_list (λ _, [sample_site 0 [Some (string_bytes "$1"); Some (string_bytes "$2"); Some (string_bytes "$0")]]) no_effects)) ].

(** The rounds of a component do not suffice for it: a program with a finite aggregate is
    refused. *)
Lemma rotation_refused :
  build_aggregate_effects rotate_effects
    = Some (Err (string_bytes "function data-flow cycle did not converge for function ids [0]"))
  ∧ ∃ aggs, converge rotate_effects 5 [0] true [no_effects] = Some aggs ∧ parameter_reads <$> aggs !! 0
    = Some [string_bytes "$0"; string_bytes "$1"; string_bytes "$2"].
Proof. split; [by vm_compute|]. eexists. split; [vm_compute; reflexivity|]. by vm_compute. Qed.
