(* ===== verification/StateQuery.v ===== *)
(** * State queries

    Models [crates/stasis_compiler/src/backend/state_query.rs]: the queries a running
    program answers about its state, their lexer and their precedence-climbing parser.

    A text is its bytes; the lexer keeps the rest of the text where the code keeps a
    cursor into it.  The texts of errors are left out, their data kept
    ([QueryError]).  [None] is a lack of fuel, which [parse_state_query_total] excludes.
    Slices start at ASCII bytes or after whole characters and cannot panic. *)

From Stdlib Require Import SpecFloat.
From S2P Require Import Prelude BTree Lexer Identity Text Imports.
#[local] Open Scope Z_scope.

(** ** Numbers *)

Inductive ParseIntError := IntEmpty | InvalidDigit | PosOverflow | NegOverflow.

Fixpoint parse_digits (negative : bool) (s : str) (acc : Z) : Result Z ParseIntError :=
  match s with
  | [] => Ok acc
  | b :: s' =>
      if negb (is_ascii_digit b) then Err InvalidDigit
      else
        let acc' := if negative then acc * 10 - digit_value b else acc * 10 + digit_value b in
        if bool_decide (in_i 32 acc') then parse_digits negative s' acc'
        else Err (if negative then NegOverflow else PosOverflow)
  end.

(** [str::parse::<i32>] *)
Definition parse_i32 (s : str) : Result Z ParseIntError :=
  match s with
  | [] => Err IntEmpty
  | [b] => if (b =? 43) || (b =? 45) then Err InvalidDigit else parse_digits false [b] 0
  | b :: s' =>
      if b =? 43 then parse_digits false s' 0
      else if b =? 45 then parse_digits true s' 0
      else parse_digits false s 0
  end.

(** ** Syntax *)

Inductive BinaryOperator :=
| Add | Subtract | Multiply | Divide | Remainder
| Equal | NotEqual | Less | LessEqual | Greater | GreaterEqual.

#[export] Instance BinaryOperator_eq_dec : EqDecision BinaryOperator.
Proof. solve_decision. Defined.

Definition operator_text (op : BinaryOperator) : str :=
  string_bytes (match op with
                | Add => "+" | Subtract => "-" | Multiply => "*" | Divide => "/" | Remainder => "%"
                | Equal => "==" | NotEqual => "!=" | Less => "<" | LessEqual => "<="
                | Greater => ">" | GreaterEqual => ">="
                end).

Definition precedence (op : BinaryOperator) : nat :=
  match op with
  | Equal | NotEqual | Less | LessEqual | Greater | GreaterEqual => 1
  | Add | Subtract => 2
  | Multiply | Divide | Remainder => 3
  end.

Inductive StateValueReference :=
| PathRef (path : str)
| CollectionItem (path : str) (index : Z) (field : str)
| I32Ref (value : Z)
| F64Ref (value : spec_float)
| BoolRef (value : bool).

Inductive ScalarExpression :=
| Value (reference : StateValueReference)
| Negate (operand : ScalarExpression)
| Binary (left_ : ScalarExpression) (operator : BinaryOperator) (right_ : ScalarExpression).

Record PredicateQuery := mkPredicate {
  query_path : str;
  query_field : str;
  query_operator : BinaryOperator;
  query_right : ScalarExpression;
}.

Inductive StateQuery :=
| Scalar (expression : ScalarExpression)
| Predicate (query : PredicateQuery).

Inductive QueryToken :=
| Reference (text : str)
| I32 (value : Z)
| F64 (value : spec_float)
| Bool (value : bool)
| Operator (op : BinaryOperator)
| Minus
| LeftParen
| RightParen.

(** What a path names, for the error about it. *)
Inductive PathLabel := StatePath | CollectionPath | CollectionField | PredicatePath | PredicateField.

Inductive QueryError :=
| EmptyQuery
| MissingBracket
| MissingOperator
| MissingRight
| UnexpectedToken (token : QueryToken)
| EndedBeforeValue
| MissingParen
| ExpectedValue
| InvalidI32 (number : str) (error : ParseIntError)
| UnsupportedCharacter (character : str) (cursor : nat)
| EmptyExpression
| MissingIndexBracket (reference : str)
| InvalidIndex (index : str) (error : ParseIntError)
| NegativeIndex (index : Z)
| MissingField (reference : str)
| InvalidPath (label : PathLabel) (path : str).

(** ** Paths *)

(** The bytes a segment may have. *)
Definition segment_byte (first : bool) (b : Z) : bool :=
  (b =? 95) || is_ascii_alphabetic b || (negb first && is_ascii_digit b).

Definition valid_segment (segment : str) : bool :=
  match segment with
  | [] => false
  | b :: rest => segment_byte true b && forallb (segment_byte false) rest
  end.

Definition validate_path (path : str) (label : PathLabel) : Result unit QueryError :=
  let path := trim path in
  if bool_decide (path = []) || negb (forallb valid_segment (split_on DOT path))
  then Err (InvalidPath label path) else Ok tt.

Definition LBRACKET : Z := 91.
Definition RBRACKET : Z := 93.

Definition parse_value_reference (reference : str) : Result StateValueReference QueryError :=
  match find_byte LBRACKET reference with
  | None =>
      let? _ := validate_path reference StatePath in
      Ok (PathRef reference)
  | Some open =>
      let after := drop (S open) reference in
      match find_byte RBRACKET after with
      | None => Err (MissingIndexBracket reference)
      | Some offset =>
          let path := take open reference in
          let? _ := validate_path path CollectionPath in
          let index_text := take offset after in
          let? index := map_err (InvalidIndex index_text) (parse_i32 index_text) in
          if index <? 0 then Err (NegativeIndex index)
          else
            let rest := drop (S offset) after in
            let field := default rest (strip_prefix [DOT] rest) in
            if negb (bool_decide (rest = [])) && bool_decide (field = [])
            then Err (MissingField reference)
            else
              let? _ := if bool_decide (field = []) then Ok tt else validate_path field CollectionField in
              Ok (CollectionItem path index field)
      end
  end.

(** ** Tokens *)

(** The operators in the order they are tried; [-] is a token of its own. *)
Definition LEXED_OPERATORS : list BinaryOperator :=
  [Equal; NotEqual; LessEqual; GreaterEqual; Add; Multiply; Divide; Remainder; Less; Greater].

Definition match_operator (operators : list BinaryOperator) (remaining : str) : option BinaryOperator :=
  List.find (λ op, starts_with (operator_text op) remaining) operators.

(** The digits of a number, and whether one of them is the point. *)
Fixpoint scan_number (s : str) (is_decimal : bool) : str * bool :=
  match s with
  | b :: s' =>
      if is_ascii_digit b || (negb is_decimal && (b =? POINT)) then
        let '(number, d) := scan_number s' (is_decimal || (b =? POINT)) in (b :: number, d)
      else ([], is_decimal)
  | [] => ([], is_decimal)
  end.

(** The text of a reference; [depth] is a saturating [u8]. *)
Fixpoint scan_reference (s : str) (depth : Z) : str :=
  match s with
  | b :: s' =>
      if b =? LBRACKET then b :: scan_reference s' (Z.min (depth + 1) 255)
      else if b =? RBRACKET then b :: scan_reference s' (Z.max (depth - 1) 0)
      else if (depth =? 0) && negb ((b =? 95) || (b =? POINT) || is_ascii_alphabetic b || is_ascii_digit b)
      then []
      else b :: scan_reference s' depth
  | [] => []
  end.

Definition word_token (reference : str) : QueryToken :=
  if bool_decide (reference = string_bytes "true") then Bool true
  else if bool_decide (reference = string_bytes "false") then Bool false
  else Reference reference.

(** One token at the start of a text that no white space starts, and its length. *)
Definition lex_token (s : str) (cursor : nat) : Result (QueryToken * nat) QueryError :=
  match match_operator LEXED_OPERATORS s with
  | Some op => Ok (Operator op, length (operator_text op))
  | None =>
      match s with
      | [] => Err EmptyExpression
      | b :: s' =>
          if b =? 45 then Ok (Minus, 1%nat)
          else if b =? 40 then Ok (LeftParen, 1%nat)
          else if b =? 41 then Ok (RightParen, 1%nat)
          else if is_ascii_digit b then
            let '(rest, is_decimal) := scan_number s' false in
            let number := b :: rest in
            if is_decimal then Ok (F64 (parse_f64 number), length number)
            else
              let? value := map_err (InvalidI32 number) (parse_i32 number) in
              Ok (I32 value, length number)
          else if (b =? 95) || is_ascii_alphabetic b then
            let reference := b :: scan_reference s' 0 in
            Ok (word_token reference, length reference)
          else Err (UnsupportedCharacter (take (char_len b) s) cursor)
      end
  end.

Fixpoint tokenize_loop (fuel : nat) (s : str) (cursor : nat) (tokens : list QueryToken) :
    option (Result (list QueryToken) QueryError) :=
  match fuel with
  | O => None
  | S fuel' =>
      match s with
      | [] => Some (Ok tokens)
      | b :: s' =>
          if is_ascii_whitespace b then tokenize_loop fuel' s' (cursor + 1) tokens
          else
            match lex_token s cursor with
            | Err e => Some (Err e)
            | Ok (token, n) => tokenize_loop fuel' (drop n s) (cursor + n) (tokens ++ [token])
            end
      end
  end.

Definition tokenize_expression (s : str) : option (Result (list QueryToken) QueryError) :=
  r ← tokenize_loop (S (length s)) s 0 [];
  Some (let? tokens := r in if bool_decide (tokens = []) then Err EmptyExpression else Ok tokens).

(** ** Expressions

    The parser takes the tokens from its cursor on and returns those it leaves. *)

Definition Parsed : Type := Result (ScalarExpression * list QueryToken) QueryError.

Definition peek_operator (tokens : list QueryToken) : option BinaryOperator :=
  match tokens with
  | Operator op :: _ => Some op
  | Minus :: _ => Some Subtract
  | _ => None
  end.

(** [parse_precedence], [parse_prefix] and the loop of the former. *)
Fixpoint parse_precedence (fuel : nat) (minimum : nat) (tokens : list QueryToken) : option Parsed :=
  match fuel with
  | O => None
  | S fuel' =>
      r ← parse_prefix fuel' tokens;
      match r with
      | Err e => Some (Err e)
      | Ok (left_, tokens) => precedence_loop fuel' minimum left_ tokens
      end
  end
with parse_prefix (fuel : nat) (tokens : list QueryToken) : option Parsed :=
  match fuel with
  | O => None
  | S fuel' =>
      match tokens with
      | [] => Some (Err EndedBeforeValue)
      | Minus :: tokens =>
          r ← parse_prefix fuel' tokens;
          Some (let? (e, tokens) := r in Ok (Negate e, tokens))
      | LeftParen :: tokens =>
          r ← parse_precedence fuel' 1 tokens;
          Some (let? (e, tokens) := r in
                match tokens with
                | RightParen :: tokens => Ok (e, tokens)
                | _ => Err MissingParen
                end)
      | Reference reference :: tokens =>
          Some (let? v := parse_value_reference reference in Ok (Value v, tokens))
      | I32 value :: tokens => Some (Ok (Value (I32Ref value), tokens))
      | F64 value :: tokens => Some (Ok (Value (F64Ref value), tokens))
      | Bool value :: tokens => Some (Ok (Value (BoolRef value), tokens))
      | Operator _ :: _ | RightParen :: _ => Some (Err ExpectedValue)
      end
  end
with precedence_loop (fuel : nat) (minimum : nat) (left_ : ScalarExpression) (tokens : list QueryToken) :
    option Parsed :=
  match fuel with
  | O => None
  | S fuel' =>
      match peek_operator tokens with
      | None => Some (Ok (left_, tokens))
      | Some op =>
          if (precedence op <? minimum)%nat then Some (Ok (left_, tokens))
          else
            r ← parse_precedence fuel' (S (precedence op)) (tail tokens);
            match r with
            | Err e => Some (Err e)
            | Ok (right_, tokens) => precedence_loop fuel' minimum (Binary left_ op right_) tokens
            end
      end
  end.

Definition parse_tokens (tokens : list QueryToken) : option (Result ScalarExpression QueryError) :=
  r ← parse_precedence (S (3 * length tokens + 2)) 1 tokens;
  Some (let? (e, rest) := r in
        match rest with [] => Ok e | token :: _ => Err (UnexpectedToken token) end).

Definition parse_expression (source : str) : option (Result ScalarExpression QueryError) :=
  tokens ← tokenize_expression source;
  match tokens with
  | Err e => Some (Err e)
  | Ok tokens => parse_tokens tokens
  end.

(** ** Queries *)

Definition PREDICATE_OPERATORS : list BinaryOperator :=
  [Equal; NotEqual; LessEqual; GreaterEqual; Less; Greater].

(** The first operator of a predicate, from offset [offset] on, one character at a time. *)
Fixpoint find_predicate_operator (fuel : nat) (s : str) (offset : nat) : option (nat * BinaryOperator) :=
  match fuel, s with
  | S fuel', b :: _ =>
      match match_operator PREDICATE_OPERATORS s with
      | Some op => Some (offset, op)
      | None => find_predicate_operator fuel' (drop (char_len b) s) (offset + char_len b)
      end
  | _, _ => None
  end.

(** [split_once("[?")] *)
Fixpoint split_predicate (s : str) : option (str * str) :=
  match s with
  | [] => None
  | b :: s' =>
      match strip_prefix [LBRACKET; 63] s with
      | Some rest => Some ([], rest)
      | None => '(before, after) ← split_predicate s'; Some (b :: before, after)
      end
  end.

Definition parse_predicate (path predicate : str) : option (Result StateQuery QueryError) :=
  match validate_path path PredicatePath with
  | Err e => Some (Err e)
  | Ok _ =>
      let predicate := take (length predicate - 1) predicate in
      match find_predicate_operator (length predicate) predicate 0 with
      | None => Some (Err MissingOperator)
      | Some (operator_offset, operator) =>
          let field := trim (take operator_offset predicate) in
          match validate_path field PredicateField with
          | Err e => Some (Err e)
          | Ok _ =>
              let right_source :=
                trim (drop (operator_offset + length (operator_text operator)) predicate) in
              if bool_decide (right_source = []) then Some (Err MissingRight)
              else
                right_ ← parse_expression right_source;
                Some (let? right_ := right_ in
                      Ok (Predicate (mkPredicate (trim path) field operator right_)))
          end
      end
  end.

Definition parse_state_query (source : str) : option (Result StateQuery QueryError) :=
  let source := trim source in
  if bool_decide (source = []) then Some (Err EmptyQuery)
  else
    match split_predicate source with
    | Some (path, predicate) =>
        if negb (ends_with [RBRACKET] source) then Some (Err MissingBracket)
        else parse_predicate path predicate
    | None =>
        e ← parse_expression source;
        Some (let? e := e in Ok (Scalar e))
    end.
