(* ===== verification/StateQueryProps.v ===== *)
(** * The parser of state queries is its grammar

    [StateQuery.parse_tokens] always answers, and accepts exactly the token lists the
    grammar [derives], with the expression it gives: the comparison operators bind
    least, then the additive and the multiplicative ones, all to the left; negation
    and parentheses bind most.  So the grammar is unambiguous. *)

From S2P Require Import Prelude BTree Lexer Identity Text Imports StateQuery.

(** ** The grammar *)

(** A token that is a value. *)
Inductive value_token : QueryToken → StateValueReference → Prop :=
| vt_reference text v : parse_value_reference text = Ok v → value_token (Reference text) v
| vt_i32 n : value_token (I32 n) (I32Ref n)
| vt_f64 x : value_token (F64 x) (F64Ref x)
| vt_bool b : value_token (Bool b) (BoolRef b).

(** A token that is a binary operator. *)
Definition operator_token (t : QueryToken) (op : BinaryOperator) : Prop := peek_operator [t] = Some op.

(** [derives n ts e]: [ts] is the expression [e], whose operators outside parentheses
    have precedence [n] at least; at level 4 there are none. *)
Inductive derives : nat → list QueryToken → ScalarExpression → Prop :=
| d_value t v : value_token t v → derives 4 [t] (Value v)
| d_negate ts e : derives 4 ts e → derives 4 (Minus :: ts) (Negate e)
| d_paren ts e : derives 1 ts e → derives 4 (LeftParen :: ts ++ [RightParen]) e
| d_higher n ts e : derives (S n) ts e → 1 ≤ n → derives n ts e
| d_binary l t r op e1 e2 :
    operator_token t op → derives (precedence op) l e1 → derives (S (precedence op)) r e2 →
    derives (precedence op) (l ++ t :: r) (Binary e1 op e2).

Lemma precedence_range op : 1 ≤ precedence op ≤ 3.
Proof. destruct op; simpl; lia. Qed.

Lemma derives_level n ts e : derives n ts e → n ≤ 4.
Proof. induction 1 as [| | |n ts e _ IH Hn|l t r op e1 e2 _ _ _ _ _]; try lia.
  pose proof (precedence_range op). lia.
Qed.

Lemma derives_lower n m ts e : derives n ts e → 1 ≤ m ≤ n → derives m ts e.
Proof.
  intros Hd [Hm Hle]. induction Hle as [|k Hle IH]; [done|]. apply IH. apply d_higher; [done|lia].
Qed.

(** The next token, if it is an operator, has precedence below or up to [n]. *)
Definition next_below (n : nat) (ts : list QueryToken) : Prop :=
  ∀ op, peek_operator ts = Some op → precedence op < n.

Lemma peek_cons ts op :
  peek_operator ts = Some op → ∃ t, ts = t :: tail ts ∧ operator_token t op.
Proof. destruct ts as [|t ts]; [done|]. intros E. exists t. split; [done|]. by destruct t. Qed.

(** ** Fuel *)

(** With enough fuel the parser answers, and an expression takes a token at least. *)
Definition answers (n : nat) (r : option Parsed) : Prop :=
  ∃ p, r = Some p ∧ ∀ e rest, p = Ok (e, rest) → length rest < n.

Lemma parser_answers fuel :
  (∀ m ts, 3 * length ts + 2 ≤ fuel → answers (length ts) (parse_precedence fuel m ts)) ∧
  (∀ ts, 3 * length ts + 1 ≤ fuel → answers (length ts) (parse_prefix fuel ts)) ∧
  (∀ m e ts, 3 * length ts + 1 ≤ fuel → answers (S (length ts)) (precedence_loop fuel m e ts)).
Proof.
  induction fuel as [|fuel (IHprec & IHpre & IHloop)].
  { split; [|split]; intros; lia. }
  split; [|split].
  - intros m ts Hf. simpl. destruct (IHpre ts) as (p & -> & Hp); [lia|]. simpl.
    destruct p as [[e rest]|e]; [|by eexists]. specialize (Hp e rest eq_refl).
    destruct (IHloop m e rest) as (q & -> & Hq); [lia|]. eexists. split; [done|].
    intros e' rest' ->. specialize (Hq e' rest' eq_refl). lia.
  - intros ts Hf. simpl. destruct ts as [|t ts]; [by eexists|]. simpl in Hf.
    assert (∀ v, answers (S (length ts)) (Some (Ok (Value v, ts)))) as Hval.
    { intros v. eexists. split; [done|]. intros e rest [= <- <-]. lia. }
    destruct t; try (apply Hval); try (by eexists).
    + destruct (parse_value_reference text) as [v|]; simpl; [apply Hval|by eexists].
    + destruct (IHpre ts) as (p & -> & Hp); [lia|]. eexists. split; [done|].
      destruct p as [[e1 rest1]|e1]; [|done]. intros e rest [= <- <-]. simpl.
      specialize (Hp _ _ eq_refl). lia.
    + destruct (IHprec 1 ts) as (p & -> & Hp); [lia|]. eexists. split; [done|].
      destruct p as [[e1 rest1]|e1]; [|done]. specialize (Hp _ _ eq_refl). simpl.
      destruct rest1 as [|[] rest1]; try done. intros e rest [= <- <-]. simpl in *. lia.
  - intros m e ts Hf. simpl. destruct (peek_operator ts) as [op|] eqn:Eop.
    2: { eexists. split; [done|]. intros e' rest [= <- <-]. lia. }
    case_match; [eexists; split; [done|]; intros e' rest [= <- <-]; lia|].
    apply peek_cons in Eop as (t & Ets & _). assert (length ts = S (length (tail ts))) as El.
    { rewrite Ets at 1. done. }
    destruct (IHprec (S (precedence op)) (tail ts)) as (p & -> & Hp); [lia|]. simpl.
    destruct p as [[e1 rest1]|e1]; [|by eexists]. specialize (Hp _ _ eq_refl).
    destruct (IHloop m (Binary e op e1) rest1) as (q & -> & Hq); [lia|]. eexists. split; [done|].
    intros e' rest' ->. specialize (Hq _ _ eq_refl). lia.
Qed.

(** More fuel does not change an answer. *)
Lemma parser_mono fuel :
  (∀ m ts p fuel', parse_precedence fuel m ts = Some p → fuel ≤ fuel' → parse_precedence fuel' m ts = Some p) ∧
  (∀ ts p fuel', parse_prefix fuel ts = Some p → fuel ≤ fuel' → parse_prefix fuel' ts = Some p) ∧
  (∀ m e ts p fuel', precedence_loop fuel m e ts = Some p → fuel ≤ fuel' →
     precedence_loop fuel' m e ts = Some p).
Proof.
  induction fuel as [|fuel (IHprec & IHpre & IHloop)]; [by split; [|split]|].
  split; [|split].
  - intros m ts p [|fuel'] E Hf; [lia|]. simpl in *.
    destruct (parse_prefix fuel ts) as [r|] eqn:Er; [|done]. simpl in E.
    rewrite (IHpre _ _ fuel' Er) by lia. simpl. destruct r as [[e rest]|e]; [|done].
    by apply IHloop; [|lia].
  - intros ts p [|fuel'] E Hf; [lia|]. simpl in *. destruct ts as [|[] ts]; try done.
    + destruct (parse_prefix fuel ts) as [r|] eqn:Er; [|done].
      by rewrite (IHpre _ _ fuel' Er) by lia.
    + destruct (parse_precedence fuel 1 ts) as [r|] eqn:Er; [|done].
      by rewrite (IHprec _ _ _ fuel' Er) by lia.
  - intros m e ts p [|fuel'] E Hf; [lia|]. simpl in *. destruct (peek_operator ts) as [op|]; [|done].
    case_match; [done|]. destruct (parse_precedence fuel _ (tail ts)) as [r|] eqn:Er; [|done].
    simpl in E. rewrite (IHprec _ _ _ fuel' Er) by lia. simpl. destruct r as [[e1 rest]|e1]; [|done].
    by apply IHloop; [|lia].
Qed.

(** ** Soundness *)

Lemma parser_sound fuel :
  (∀ m ts e rest, 1 ≤ m ≤ 4 → parse_precedence fuel m ts = Some (Ok (e, rest)) →
     ∃ used, ts = used ++ rest ∧ derives m used e ∧ next_below m rest) ∧
  (∀ ts e rest, parse_prefix fuel ts = Some (Ok (e, rest)) →
     ∃ used, ts = used ++ rest ∧ derives 4 used e) ∧
  (∀ m k before e1 ts e rest, 1 ≤ m ≤ k → derives k before e1 → next_below (S k) ts →
     precedence_loop fuel m e1 ts = Some (Ok (e, rest)) →
     ∃ used, ts = used ++ rest ∧ derives m (before ++ used) e ∧ next_below m rest).
Proof.
  induction fuel as [|fuel (IHprec & IHpre & IHloop)]; [by split; [|split]|].
  split; [|split].
  - intros m ts e rest Hm E. simpl in E. destruct (parse_prefix fuel ts) as [[[e1 ts1]|]|] eqn:Er; try done.
    simpl in E. destruct (IHpre _ _ _ Er) as (used1 & -> & Hd1).
    destruct (IHloop m 4 used1 e1 ts1 e rest) as (used & -> & Hd & Hn); [lia|done| |done|].
    { intros op _. pose proof (precedence_range op). lia. }
    exists (used1 ++ used). by rewrite app_assoc.
  - intros ts e rest E. simpl in E. destruct ts as [|t ts]; [done|].
    assert (∀ v, value_token t v → (Some (Ok (Value v, ts)) : option Parsed) = Some (Ok (e, rest)) →
      ∃ used, t :: ts = used ++ rest ∧ derives 4 used e) as Hval.
    { intros v Hv [= <- <-]. exists [t]. split; [done|]. by apply d_value. }
    destruct t; try done; try (eapply Hval; [constructor|exact E]).
    + destruct (parse_value_reference text) as [v|] eqn:Ev; [|done].
      eapply Hval; [by apply vt_reference|exact E].
    + destruct (parse_prefix fuel ts) as [[[e1 ts1]|]|] eqn:Er; try done. injection E as <- <-.
      destruct (IHpre _ _ _ Er) as (used & -> & Hd). exists (Minus :: used). split; [done|].
      by apply d_negate.
    + destruct (parse_precedence fuel 1 ts) as [[[e1 ts1]|]|] eqn:Er; try done. simpl in E.
      destruct ts1 as [|[] ts1]; try done. injection E as <- <-.
      destruct (IHprec 1 _ _ _ ltac:(lia) Er) as (used & -> & Hd & _).
      exists (LeftParen :: used ++ [RightParen]). split; [|by apply d_paren].
      simpl. by rewrite <- app_assoc.
  - intros m k before e1 ts e rest Hm Hd Hk E. simpl in E.
    destruct (peek_operator ts) as [op|] eqn:Eop.
    2: { injection E as <- <-. exists []. rewrite app_nil_r. split; [done|].
         split; [by eapply derives_lower|]. intros op Hop. congruence. }
    destruct (Nat.ltb_spec (precedence op) m) as [Hlt|Hge].
    { injection E as <- <-. exists []. rewrite app_nil_r. split; [done|].
      split; [by eapply derives_lower|]. intros op' Hop. congruence. }
    pose proof (precedence_range op). pose proof (derives_level _ _ _ Hd). specialize (Hk op Eop).
    destruct (parse_precedence fuel _ (tail ts)) as [[[e2 ts2]|]|] eqn:Er; try done. simpl in E.
    destruct (IHprec (S (precedence op)) _ _ _ ltac:(lia) Er) as (used2 & Et & Hd2 & Hn2).
    apply peek_cons in Eop as (t & Ets & Ht).
    destruct (IHloop m (precedence op) (before ++ t :: used2) (Binary e1 op e2) ts2 e rest)
      as (used & -> & Hd' & Hn'); [lia| |done|done|].
    { apply d_binary; [done| |done]. eapply derives_lower; [done|lia]. }
    exists (t :: used2 ++ used). rewrite Ets, Et. split; [simpl; by rewrite <- app_assoc|].
    split; [|done]. by rewrite <- app_assoc in Hd'.
Qed.

(** ** Completeness *)

(** Some fuel gives the answer. *)
Definition precedence_gives m ts p : Prop := ∃ fuel, parse_precedence fuel m ts = Some p.
Definition prefix_gives ts p : Prop := ∃ fuel, parse_prefix fuel ts = Some p.
Definition loop_gives m e ts p : Prop := ∃ fuel, precedence_loop fuel m e ts = Some p.

Lemma precedence_gives_intro m ts e ts1 p :
  prefix_gives ts (Ok (e, ts1)) → loop_gives m e ts1 p → precedence_gives m ts p.
Proof.
  intros [f1 E1] [f2 E2]. exists (S (max f1 f2)). simpl.
  rewrite (proj1 (proj2 (parser_mono f1)) _ _ (max f1 f2) E1) by lia. simpl.
  apply (proj2 (proj2 (parser_mono f2)) _ _ _ _ _ E2). lia.
Qed.

Lemma loop_gives_stop m e ts : next_below m ts → loop_gives m e ts (Ok (e, ts)).
Proof.
  intros Hn. exists 1. simpl. destruct (peek_operator ts) as [op|] eqn:E; [|done].
  by rewrite (proj2 (Nat.ltb_lt _ _) (Hn op E)).
Qed.

Lemma loop_gives_step m e1 op t ts e2 ts2 p :
  operator_token t op → m ≤ precedence op →
  precedence_gives (S (precedence op)) ts (Ok (e2, ts2)) → loop_gives m (Binary e1 op e2) ts2 p →
  loop_gives m e1 (t :: ts) p.
Proof.
  intros Ht Hm [f1 E1] [f2 E2]. exists (S (max f1 f2)).
  assert (peek_operator (t :: ts) = Some op) as Hop by (revert Ht; by destruct t).
  cbn [precedence_loop tail]. rewrite Hop. rewrite (proj2 (Nat.ltb_ge _ _) Hm).
  rewrite (proj1 (parser_mono f1) _ _ _ (max f1 f2) E1) by lia. simpl.
  apply (proj2 (proj2 (parser_mono f2)) _ _ _ _ _ E2). lia.
Qed.

(** What the loop takes at a level it takes at the level below. *)
Lemma loop_gives_lower fuel m e1 ts e ts1 p :
  precedence_loop fuel (S m) e1 ts = Some (Ok (e, ts1)) → loop_gives m e ts1 p → loop_gives m e1 ts p.
Proof.
  revert e1 ts. induction fuel as [|fuel IH]; intros e1 ts E Hp; [done|]. simpl in E.
  destruct (peek_operator ts) as [op|] eqn:Eop; [|by injection E as -> ->].
  destruct (Nat.ltb_spec (precedence op) (S m)); [by injection E as -> ->|].
  apply peek_cons in Eop as (t & Ets & Ht).
  destruct (parse_precedence fuel _ (tail ts)) as [[[e2 ts2]|]|] eqn:Er; try done. simpl in E.
  rewrite Ets. eapply loop_gives_step; [done|lia|by eexists|]. by apply IH.
Qed.

Lemma precedence_gives_lower m ts e ts1 p :
  precedence_gives (S m) ts (Ok (e, ts1)) → loop_gives m e ts1 p → precedence_gives m ts p.
Proof.
  intros [[|fuel] E] Hp; [done|]. simpl in E.
  destruct (parse_prefix fuel ts) as [[[e1 ts2]|]|] eqn:Er; try done. simpl in E.
  eapply precedence_gives_intro; [by eexists|]. by eapply loop_gives_lower.
Qed.

Lemma parser_complete n ts e :
  derives n ts e →
  (n = 4 → ∀ rest, prefix_gives (ts ++ rest) (Ok (e, rest))) ∧
  (∀ rest p, next_below (S n) rest → loop_gives n e rest p → precedence_gives n (ts ++ rest) p).
Proof.
  assert (∀ ts e, (∀ rest, prefix_gives (ts ++ rest) (Ok (e, rest))) →
    (4 = 4 → ∀ rest, prefix_gives (ts ++ rest) (Ok (e, rest))) ∧
    (∀ rest p, next_below 5 rest → loop_gives 4 e rest p → precedence_gives 4 (ts ++ rest) p)) as Hatom.
  { intros ts' e' Hpre. split; [done|]. intros rest p _ Hp. by eapply precedence_gives_intro. }
  induction 1 as [t v Hv|ts e _ IH|ts e _ IH|n ts e Hd IH Hn|l t r op e1 e2 Ht Hd1 IH1 Hd2 IH2].
  - apply Hatom. intros rest. exists 1. destruct Hv as [text v Hv| | |]; simpl; by rewrite ?Hv.
  - apply Hatom. intros rest. destruct IH as [Hpre _]. destruct (Hpre eq_refl rest) as [f E].
    exists (S f). simpl. by rewrite E.
  - apply Hatom. intros rest. destruct IH as [_ Hprec].
    destruct (Hprec (RightParen :: rest) (Ok (e, RightParen :: rest))) as [f E].
    { by intros op. } { by apply loop_gives_stop. }
    exists (S f). simpl. rewrite <- app_assoc. simpl. by rewrite E.
  - destruct IH as [_ Hprec]. split.
    { intros ->. apply derives_level in Hd. lia. }
    intros rest p Hr Hp. eapply precedence_gives_lower; [|exact Hp].
    apply Hprec; [intros op Hop; specialize (Hr op Hop); lia|]. by apply loop_gives_stop.
  - pose proof (precedence_range op). split; [lia|]. intros rest p Hr Hp.
    rewrite <- app_assoc. simpl. apply IH1.
    { intros op' Hop. revert Hop Ht. unfold operator_token. destruct t; simpl; intros; try done; simplify_eq; simpl; lia. }
    eapply loop_gives_step; [done|lia| |exact Hp].
    apply IH2; [intros op' Hop; specialize (Hr op' Hop); lia|]. by apply loop_gives_stop.
Qed.

Lemma parse_tokens_total tokens : is_Some (parse_tokens tokens).
Proof.
  unfold parse_tokens. destruct (parser_answers (S (3 * length tokens + 2))) as [Hans _].
  destruct (Hans 1 tokens) as (p & -> & _); [lia|]. by eexists.
Qed.

(** ** Texts *)

Lemma lex_token_progress s cursor t n : lex_token s cursor = Ok (t, n) → 1 ≤ n.
Proof.
  unfold lex_token. destruct (match_operator _ s) as [op|].
  { intros [= <- <-]. destruct op; simpl; lia. }
  destruct s as [|b s]; [done|]. repeat case_match; intros E; simplify_eq/=; try lia.
  all: destruct (map_err _ _); simplify_eq/=; lia.
Qed.

Lemma tokenize_loop_total fuel s cursor tokens :
  length s < fuel → is_Some (tokenize_loop fuel s cursor tokens).
Proof.
  revert s cursor tokens. induction fuel as [|fuel IH]; intros s cursor tokens Hf; [lia|]. simpl.
  destruct s as [|b s]; [by eexists|]. simpl in Hf. case_match; [apply IH; lia|].
  destruct (lex_token (b :: s) cursor) as [[t n]|e] eqn:E; [|by eexists].
  apply lex_token_progress in E. apply IH. rewrite length_drop. simpl. lia.
Qed.

Lemma parse_expression_total source : is_Some (parse_expression source).
Proof.
  unfold parse_expression, tokenize_expression.
  destruct (tokenize_loop_total (S (length source)) source 0 []) as [r ->]; [lia|]. simpl.
  destruct r as [tokens|e]; simpl; [|by eexists]. case_bool_decide; [by eexists|].
  apply parse_tokens_total.
Qed.

(** The parser of queries answers every text. *)
Lemma parse_state_query_total source : is_Some (parse_state_query source).
Proof.
  unfold parse_state_query. case_bool_decide; [by eexists|].
  destruct (split_predicate _) as [[path predicate]|].
  - case_match; [by eexists|]. unfold parse_predicate.
    repeat (case_match; [|by eexists]) || case_match; try by eexists.
    all: match goal with |- is_Some (parse_expression ?t ≫= _) =>
           destruct (parse_expression_total t) as [e ->]; by eexists end.
  - destruct (parse_expression_total (trim source)) as [e ->]. by eexists.
Qed.

(** C4 The expression parser is its grammar: it always answers, and it accepts a list
    of tokens exactly when the grammar derives an expression from it, which is the one
    it returns.  So no list of tokens has two readings. *)
Theorem expression_parser_exact tokens :
  is_Some (parse_tokens tokens) ∧
  ∀ e, parse_tokens tokens = Some (Ok e) ↔ derives 1 tokens e.
Proof.
  unfold parse_tokens. destruct (parser_answers (S (3 * length tokens + 2))) as [Hans _].
  destruct (Hans 1 tokens) as (p & E & _); [lia|]. rewrite E. simpl. split; [by eexists|].
  intros e. split.
  - destruct p as [[e' [|t rest]]|e']; simpl; try done. intros [= ->].
    destruct (proj1 (parser_sound _) 1 _ _ _ ltac:(lia) E) as (used & -> & Hd & _).
    by rewrite app_nil_r.
  - intros Hd. destruct (parser_complete _ _ _ Hd) as [_ Hc].
    destruct (Hc [] (Ok (e, []))) as [f E']; [by intros op|by apply loop_gives_stop|].
    rewrite app_nil_r in E'.
    apply (proj1 (parser_mono f) _ _ _ (max f (S (3 * length tokens + 2)))) in E'; [|lia].
    apply (proj1 (parser_mono _) _ _ _ (max f (S (3 * length tokens + 2)))) in E; [|lia].
    rewrite E in E'. by injection E' as ->.
Qed.
