(* ===== verification/RecordData.v ===== *)
(** * Recordings of host input: their data

    Models the types of [apps/stasis/src/record_replay.rs] that a recording of a run
    is made of (lines 16–170, 397–660), the differences between two inputs (1989–2018,
    2883–2929) and their application.

    An [f32] is its bits, a text its bytes, a tick a [u64] in [Z] and a slot or index a
    [usize] in [nat].  A message is the constructor of [ReplayError] with the data the
    message shows.  [None] is a panic. *)

From S2P Require Import Prelude BTree Identity.

(** ** Bounds *)

Definition REPLAY_SCHEMA_VERSION : Z := 1.
Definition COMPACT_REPLAY_SCHEMA_VERSION : Z := 2.
Definition COMPACT_REPLAY_SCHEMA_VERSION_V3 : Z := 3.
Definition MAX_REPLAY_FRAMES : Z := 1000000.
Definition MAX_REPLAY_FILE_BYTES : Z := 268435456.
Definition MAX_HOST_FRAME_VALUES : Z := 4096.
Definition MAX_COMPACT_CHECKPOINTS : Z := 4096.
Definition MAX_COMPACT_FIELD_TEXT_BYTES : Z := 4096.
Definition MAX_COMPACT_CHANGES_PER_SEGMENT : Z := 8192.
Definition COMPACT_CHECKPOINT_INTERVAL : Z := 256.

(** [len() as u64] *)
Definition len {A} (l : list A) : Z := Z.of_nat (length l).

(** ** Initial states *)

Inductive StateLocation :=
| ScalarLocation (path : str)
| CollectionLocation (path field : str) (index : Z).

Record EncodedScalar := mkEncoded {
  es_type_name : str;
  es_bits : str;
}.

Record StateEntry := mkEntry {
  en_location : StateLocation;
  en_value : EncodedScalar;
}.

Record InitialState := mkInitialState {
  is_values : list StateEntry;
  is_state_sha256 : str;
}.

(** ** Inputs *)

(** [I32Change] and [F32Change]: one value of the host frame. *)
Record HostChange := mkHostChange {
  hc_index : nat;
  hc_value : Z;
}.

(** [CompactI32Change] and [CompactF32Change]: one observed value. *)
Record CompactChange := mkChange {
  ch_slot : nat;
  ch_value : Z;
}.

(** [CompactI32Field] and [CompactF32Field]: an observed value of the host frame. *)
Record CompactField := mkField {
  fd_slot : nat;
  fd_index : nat;
  fd_path : str;
  fd_family : str;
}.

(** [CompactInputSnapshot], and [CompactInputBaseline], which has the same fields. *)
Record CompactInputSnapshot := mkSnapshot {
  i32_values : list Z;
  f32_bits : list Z;
}.

Record CompactInputSegment := mkSegment {
  tick_gap : Z;
  run_ticks : Z;
  i32_changes : list CompactChange;
  f32_changes : list CompactChange;
}.

(** [CompactReplayCheckpoint], and [CompactReplayFinal], which has the same fields. *)
Record CompactReplayCheckpoint := mkCheckpoint {
  cp_tick : Z;
  cp_state_sha256 : str;
}.

(** ** Identities *)

Inductive CompactHashScope := SimulationAfterTick.

Record CompactReplayMetadata := mkMetadata {
  md_runtime_sha256 : str;
  md_asset_manifest_sha256 : option str;
  md_host_schema_version : Z;
  md_tick_rate_hz : Z;
  md_determinism_profile : str;
  md_controller_schema_version : option Z;
}.

Record CompactReplayCompatibility := mkCompatibility {
  co_stasis_version : str;
  co_release_id : str;
  co_source_sha256 : str;
  co_state_layout_sha256 : str;
  co_compiler_layout_sha256 : str;
  co_asset_manifest_sha256 : option str;
  co_host_schema_version : Z;
  co_host_i32_count : Z;
  co_host_f32_count : Z;
  co_input_usage_sha256 : str;
  co_tick_rate_hz : Z;
  co_hash_scope : CompactHashScope;
  co_determinism_profile : str;
  co_controller_schema_version : option Z;
  co_observed_i32 : list CompactField;
  co_observed_f32 : list CompactField;
}.

Record CompactReplayProducer := mkProducer {
  pr_target : str;
  pr_runtime_sha256 : str;
}.

Record CompactReplayIdentity := mkIdentity {
  id_stasis_version : str;
  id_release_id : str;
  id_target : str;
  id_source_sha256 : str;
  id_state_layout_sha256 : str;
  id_compiler_layout_sha256 : str;
  id_runtime_sha256 : str;
  id_asset_manifest_sha256 : option str;
  id_host_schema_version : Z;
  id_host_i32_count : Z;
  id_host_f32_count : Z;
  id_input_usage_sha256 : str;
  id_tick_rate_hz : Z;
  id_hash_scope : CompactHashScope;
  id_determinism_profile : str;
  id_controller_schema_version : option Z;
  id_observed_i32 : list CompactField;
  id_observed_f32 : list CompactField;
}.

Record CompactReplayIdentityV3 := mkIdentityV3 {
  compatibility : CompactReplayCompatibility;
  producer : CompactReplayProducer;
}.

(** What the compiler tells a recording: [ProgramReplayCompatibility] of
    [backend/program_snapshot.rs], with the hash of the sources. *)
Record ProgramReplayCompatibility := mkProgram {
  pc_source_sha256 : str;
  pc_state_layout_sha256 : str;
  pc_compiler_layout_sha256 : str;
  pc_input_usage_sha256 : str;
  pc_observed_i32 : list CompactField;
  pc_observed_f32 : list CompactField;
}.

Record ReplayIdentity := mkLegacyIdentity {
  ri_stasis_version : str;
  ri_release_id : str;
  ri_target : str;
  ri_source_sha256 : str;
  ri_state_layout_sha256 : str;
  ri_host_i32_count : Z;
  ri_host_f32_count : Z;
}.

(** ** Documents *)

(** [CompactReplayDocument] and [CompactReplayDocumentV3] differ in their identity. *)
Record CompactDocument (I : Type) := mkDocument {
  schema_version : Z;
  identity : I;
  initial_state : InitialState;
  initial_input : CompactInputSnapshot;
  segments : list CompactInputSegment;
  checkpoints : list CompactReplayCheckpoint;
  total_ticks : Z;
  final_state : CompactReplayCheckpoint;
}.
Arguments mkDocument {I} _ _ _ _ _ _ _ _.
Arguments schema_version {I} _.
Arguments identity {I} _.
Arguments initial_state {I} _.
Arguments initial_input {I} _.
Arguments segments {I} _.
Arguments checkpoints {I} _.
Arguments total_ticks {I} _.
Arguments final_state {I} _.

Definition CompactReplayDocument : Type := CompactDocument CompactReplayIdentity.
Definition CompactReplayDocumentV3 : Type := CompactDocument CompactReplayIdentityV3.

Record ReplayFrame := mkFrame {
  fr_tick : Z;
  fr_i32_changes : list HostChange;
  fr_f32_changes : list HostChange;
  fr_state_sha256 : str;
}.

(** The recordings of schema 1, which are only played back. *)
Record ReplayDocument := mkLegacy {
  rd_schema_version : Z;
  rd_identity : ReplayIdentity;
  rd_initial_state : InitialState;
  rd_frames : list ReplayFrame;
}.

Inductive VersionedReplayDocument :=
| LegacyV1 (document : ReplayDocument)
| CompactV2 (document : CompactReplayDocument)
| CompactV3 (document : CompactReplayDocument) (compatibility : CompactReplayCompatibility).

#[export] Instance StateLocation_eq_dec : EqDecision StateLocation.
Proof. solve_decision. Defined.
#[export] Instance EncodedScalar_eq_dec : EqDecision EncodedScalar.
Proof. solve_decision. Defined.
#[export] Instance StateEntry_eq_dec : EqDecision StateEntry.
Proof. solve_decision. Defined.
#[export] Instance InitialState_eq_dec : EqDecision InitialState.
Proof. solve_decision. Defined.
#[export] Instance CompactChange_eq_dec : EqDecision CompactChange.
Proof. solve_decision. Defined.
#[export] Instance CompactField_eq_dec : EqDecision CompactField.
Proof. solve_decision. Defined.
#[export] Instance CompactInputSnapshot_eq_dec : EqDecision CompactInputSnapshot.
Proof. solve_decision. Defined.
#[export] Instance CompactInputSegment_eq_dec : EqDecision CompactInputSegment.
Proof. solve_decision. Defined.
#[export] Instance CompactReplayCheckpoint_eq_dec : EqDecision CompactReplayCheckpoint.
Proof. solve_decision. Defined.
#[export] Instance CompactHashScope_eq_dec : EqDecision CompactHashScope.
Proof. solve_decision. Defined.
#[export] Instance CompactReplayCompatibility_eq_dec : EqDecision CompactReplayCompatibility.
Proof. solve_decision. Defined.
#[export] Instance CompactReplayProducer_eq_dec : EqDecision CompactReplayProducer.
Proof. solve_decision. Defined.
#[export] Instance CompactReplayIdentityV3_eq_dec : EqDecision CompactReplayIdentityV3.
Proof. solve_decision. Defined.
#[export] Instance CompactDocument_eq_dec {I} `{EqDecision I} : EqDecision (CompactDocument I).
Proof. solve_decision. Defined.

(** ** Errors *)

(** The two lanes of the host frame, for the error about one of them. *)
Inductive Lane := LaneI32 | LaneF32.

Inductive ReplayError :=
| UnsupportedSchema (schema : Z)
| TextEmpty (label : string)
| TextTooLong (label : string)
| NotLowerHex64 (label : string)
| ZeroHostSchema
| HostFrameDimensions
| ZeroTickRate
| ZeroControllerSchema
| DescriptorSlot (lane : Lane) (found position : nat)
| DescriptorIndex (lane : Lane) (slot index : nat)
| DescriptorOrder (lane : Lane)
| InputUsageMismatch (expected found : str)
| TooManyEntries
| EntryOrder (entry : nat)
| EntryFieldTooLong
| EntryNegativeIndex (entry : nat)
| EntryDefault (entry : nat)
| UnsupportedScalarType (entry : nat) (type_name : str)
| BitsEmpty (entry : nat)
| BitsTooLong (entry : nat)
| BitsNotLowerHex (entry : nat)
| BitsWidth (entry : nat) (width : nat)
| BitsInvalid (entry : nat)
| BitsBoolRange (entry : nat)
| BitsU8Range (entry : nat)
| BitsU16Range (entry : nat)
| InputLengths
| TotalTicksRange
| NoSegments
| TooManySegments
| FirstGap
| EmptyRun (segment : nat)
| ChangeCountOverflow (segment : nat)
| TooManyChanges (segment : nat)
| GapOverflow (segment : nat)
| RunOverflow (segment : nat)
| SegmentExceeds (segment : nat)
| ChangeRange (lane : Lane) (segment slot : nat)
| ChangeOrder (lane : Lane) (segment : nat)
| ChangeRedundant (lane : Lane) (segment slot : nat)
| Coverage (cursor total : Z)
| TooManyCheckpoints
| CheckpointCount (expected total : Z)
| CheckpointTick (index : nat) (expected found : Z)
| FinalTick (found total : Z)
| FinalCheckpoint
| TooManyFrames
| NoFrames
| FrameTick (found position : Z)
| FrameHash (tick : Z)
| FrameRange (lane : Lane) (tick : Z)
| Encoding (error : str)
| TooLarge (bytes : Z)
| SizeOverflow
| OverFileLimit (label : string)
| HeaderTooLarge
| ObservedMismatch
| TickLimit
| TickPending (tick : Z)
| TickOverflow
| TickSequence (expected found : Z)
| FrameSizeChanged
| HostIndex (lane : Lane) (index : nat)
| NoRecordingMode
| NoActiveTick
| NoActiveTickAt (tick : Z)
| IncompletePublish
| AlreadyCompleted (tick : Z)
| NoActiveSegment
| RunLengthOverflow
| NotActiveTick (tick : Z)
| NoCompletedTick
| HostSizeMismatch
| NoFrame (tick : Z)
| NoSegment (tick : Z)
| NoBaseline
| PlaybackGapOverflow
| PlaybackRunOverflow
| VerifySequence (expected found : Z)
| DivergedAt (tick : Z) (expected found : str)
| DivergedWithin (from to : Z) (expected found : str)
| IdentityMismatch (reason : string)
| InitialStateMismatch (expected found : str)
| NoProgramSnapshot
| OpaqueState (paths : list str)
| NegativeCapacity (path : str) (capacity : Z)
| LaneTooLong (path field : str)
| UnknownScalar (path : str)
| UnknownCollection (path : str)
| UnknownLane (path field : str)
| IndexOutside (path field : str) (index count : Z)
| ScalarTypeMismatch (recorded active : str)
| InvalidScalarBits (bits : str)
| ScalarOutOfRange (type_name : str)
| Host (error : str).

(** [if !condition { return Err(error) }] *)
Definition ensure (condition : bool) (error : ReplayError) : Result unit ReplayError :=
  if condition then Ok tt else Err error.

(** The sequence of operations that may fail or panic. *)
Definition fallible_bind {A B} (r : option (Result A ReplayError))
    (k : A → option (Result B ReplayError)) : option (Result B ReplayError) :=
  match r with
  | Some (Ok x) => k x
  | Some (Err e) => Some (Err e)
  | None => None
  end.

Notation "'let!' x ':=' r 'in' k" := (fallible_bind r (λ x, k))
  (at level 10, x pattern, r at level 100, k at level 200) : stasis_scope.

(** ** Differences *)

(** [diff_i32], [diff_f32] and the two halves of [compact_diff]: the positions, from
    [i] on, at which two inputs differ. *)
Fixpoint diff_from (i : nat) (previous current : list Z) : list (nat * Z) :=
  match previous, current with
  | p :: previous', c :: current' =>
      (if bool_decide (p = c) then [] else [(i, c)]) ++ diff_from (S i) previous' current'
  | _, _ => []
  end.

Definition diff_host (previous current : list Z) : list HostChange :=
  (λ e, mkHostChange e.1 e.2) <$> diff_from 0 previous current.

Definition diff_slots (previous current : list Z) : list CompactChange :=
  (λ e, mkChange e.1 e.2) <$> diff_from 0 previous current.

Definition compact_diff (previous current : CompactInputSnapshot) :
    list CompactChange * list CompactChange :=
  (diff_slots (i32_values previous) (i32_values current),
   diff_slots (f32_bits previous) (f32_bits current)).

(** [values[change.slot] = change.value] for each change; out of range it panics. *)
Fixpoint apply_slots (changes : list CompactChange) (values : list Z) : option (list Z) :=
  match changes with
  | [] => Some values
  | c :: changes' =>
      if (ch_slot c <? length values)%nat
      then apply_slots changes' (<[ch_slot c := ch_value c]> values) else None
  end.

Definition apply_segment (segment : CompactInputSegment) (snapshot : CompactInputSnapshot) :
    option CompactInputSnapshot :=
  values ← apply_slots (i32_changes segment) (i32_values snapshot);
  bits ← apply_slots (f32_changes segment) (f32_bits snapshot);
  Some (mkSnapshot values bits).

(** ** Lemmas *)

Lemma diff_from_lookup i previous current j v :
  length previous = length current →
  (j, v) ∈ diff_from i previous current ↔
  i ≤ j ∧ current !! (j - i)%nat = Some v ∧ previous !! (j - i)%nat ≠ Some v.
Proof.
  revert i current. induction previous as [|p previous IH]; intros i [|c current] Hl; simplify_eq/=.
  { split; [by intros ?%elem_of_nil|]. by intros (_ & ? & _). }
  rewrite elem_of_app, IH by done. destruct (decide (j = i)) as [->|Hj].
  - rewrite Nat.sub_diag. simpl. case_bool_decide; subst; split.
    + intros [?%elem_of_nil|?]; [done|lia].
    + intros (_ & [= ->] & []). done.
    + intros [[= ->]%list_elem_of_singleton|?]; [|lia]. by split_and!; [lia| |intros [=]].
    + intros (_ & [= ->] & _). left. by apply list_elem_of_singleton.
  - replace (j - i) with (if decide (i ≤ j) then S (j - S i) else 0)
      by (case_decide; lia).
    split.
    + intros [Hin|(? & ? & ?)].
      * case_bool_decide; [by apply elem_of_nil in Hin|]. apply list_elem_of_singleton in Hin.
        congruence.
      * rewrite decide_True by lia. by split_and!; [lia| |].
    + intros (Hle & H1 & H2). right. rewrite decide_True in H1, H2 by done. by split_and!; [lia| |].
Qed.
