(* ===== verification/RecordDocument.v ===== *)
(** * Recordings of host input: the documents that are accepted

    Models the validation of recordings in [apps/stasis/src/record_replay.rs]
    (lines 671–735, 898–1367, 1903–1953, 2561–2608): identities, initial states, input
    segments, checkpoints and the legacy frames, check by check in the order of the
    code.

    The JSON reader and writer (serde) and SHA-256 are third-party code: the class
    [ReplayCodec] holds them.  [probe_replay_schema], a visitor of that reader, is
    part of the class, and so are the constants of the build. *)

From S2P Require Import Prelude BTree Identity StateLayout RecordData.
#[local] Open Scope Z_scope.

Class ReplayCodec := {
  digest : list Z → list Z;
  CARGO_PKG_VERSION : str;
  STASIS_RELEASE_ID : option str;
  to_vec_document : CompactReplayDocumentV3 → Result (list Z) str;
  to_vec_segment : CompactInputSegment → Result (list Z) str;
  to_vec_baseline : CompactInputSnapshot → Result (list Z) str;
  to_vec_checkpoint : CompactReplayCheckpoint → Result (list Z) str;
  to_vec_legacy : ReplayDocument → Result (list Z) str;
  probe_replay_schema : list Z → Result Z str;
  from_slice_v1 : list Z → Result ReplayDocument str;
  from_slice_v2 : list Z → Result CompactReplayDocument str;
  from_slice_v3 : list Z → Result CompactReplayDocumentV3 str;
}.

(** ** Texts *)

Definition is_lower_hex (b : Z) : bool := ((48 <=? b) && (b <=? 57)) || ((97 <=? b) && (b <=? 102)).

Definition validate_compact_field_text (label : string) (value : str) : Result unit ReplayError :=
  let? _ := ensure (negb (bool_decide (value = []))) (TextEmpty label) in
  ensure (len value <=? MAX_COMPACT_FIELD_TEXT_BYTES) (TextTooLong label).

Definition validate_compact_hash (label : string) (value : str) : Result unit ReplayError :=
  ensure ((len value =? 64) && forallb is_lower_hex value) (NotLowerHex64 label).

(** ** Descriptors of the observed fields *)

(** [validate_compact_i32_fields] and [validate_compact_f32_fields], which differ in
    their messages. *)
Fixpoint validate_fields_from (lane : Lane) (host_count : Z) (slot : nat) (previous_index : option nat)
    (fields : list CompactField) : Result unit ReplayError :=
  match fields with
  | [] => Ok tt
  | field :: fields' =>
      let? _ := ensure (fd_slot field =? slot)%nat (DescriptorSlot lane (fd_slot field) slot) in
      let? _ := ensure (Z.of_nat (fd_index field) <? host_count) (DescriptorIndex lane slot (fd_index field)) in
      let? _ :=
        ensure (match previous_index with Some p => (p <? fd_index field)%nat | None => true end)
          (DescriptorOrder lane) in
      let? _ := validate_compact_field_text "descriptor path" (fd_path field) in
      let? _ := validate_compact_field_text "descriptor family" (fd_family field) in
      validate_fields_from lane host_count (S slot) (Some (fd_index field)) fields'
  end.

Definition validate_compact_fields (lane : Lane) (fields : list CompactField) (host_count : Z) :
    Result unit ReplayError :=
  validate_fields_from lane host_count 0 None fields.

Definition le_bytes (n : nat) (z : Z) : list Z := reverse (be_bytes n z).

Definition field_bytes (field : CompactField) : list Z :=
  le_bytes 8 (Z.of_nat (fd_slot field)) ++ le_bytes 8 (Z.of_nat (fd_index field))
  ++ le_bytes 8 (len (fd_path field)) ++ fd_path field
  ++ le_bytes 8 (len (fd_family field)) ++ fd_family field.

(** [format!("{:x}", hasher.finalize())] *)
Definition hex_digest `{ReplayCodec} (bytes : list Z) : str := concat (hex_byte <$> digest bytes).

Definition compact_input_usage_hash `{ReplayCodec} (observed_i32 observed_f32 : list CompactField) : str :=
  hex_digest (string_bytes "stasis.replay.input-usage.v1" ++ [0]
    ++ [105] ++ le_bytes 8 (len observed_i32) ++ concat (field_bytes <$> observed_i32)
    ++ [102] ++ le_bytes 8 (len observed_f32) ++ concat (field_bytes <$> observed_f32)).

Definition host_dimensions_ok (i32_count f32_count : Z) : bool :=
  negb ((i32_count =? 0) || (f32_count =? 0)
        || (MAX_HOST_FRAME_VALUES <? i32_count) || (MAX_HOST_FRAME_VALUES <? f32_count)).

(** ** Initial states *)

(** The key initial states are sorted by. *)
Definition location_key (l : StateLocation) : nat * (list Z * (list Z * Z)) :=
  match l with
  | ScalarLocation path => (0%nat, (path, ([], 0)))
  | CollectionLocation path field index => (1%nat, (path, (field, index)))
  end.

Definition scalar_width (type_name : str) : option nat :=
  if bool_decide (type_name = string_bytes "i32") || bool_decide (type_name = string_bytes "f32")
     || bool_decide (type_name = string_bytes "u32") then Some 8%nat
  else if bool_decide (type_name = string_bytes "f64") then Some 16%nat
  else if bool_decide (type_name = string_bytes "bool") || bool_decide (type_name = string_bytes "u8")
  then Some 2%nat
  else if bool_decide (type_name = string_bytes "u16") then Some 4%nat
  else None.

Definition validate_compact_bit_text (entry : nat) (value : str) : Result unit ReplayError :=
  let? _ := ensure (negb (bool_decide (value = []))) (BitsEmpty entry) in
  let? _ := ensure (len value <=? MAX_COMPACT_FIELD_TEXT_BYTES) (BitsTooLong entry) in
  ensure (forallb is_lower_hex value) (BitsNotLowerHex entry).

(** The value of a hexadecimal digit, [char::to_digit(16)]. *)
Definition hex_digit_value (b : Z) : option Z :=
  if (48 <=? b) && (b <=? 57) then Some (b - 48)
  else if (97 <=? b) && (b <=? 102) then Some (b - 87)
  else if (65 <=? b) && (b <=? 70) then Some (b - 55)
  else None.

Fixpoint parse_hex_digits (s : str) (acc : Z) : option Z :=
  match s with
  | [] => Some acc
  | b :: s' =>
      d ← hex_digit_value b;
      acc' ← checked_u 64 (acc * 16 + d);
      parse_hex_digits s' acc'
  end.

(** [u64::from_str_radix(text, 16)] *)
Definition from_str_radix_16 (s : str) : option Z :=
  match s with
  | [] => None
  | b :: s' =>
      if b =? 43 then match s' with [] => None | _ => parse_hex_digits s' 0 end
      else parse_hex_digits s 0
  end.

Definition validate_compact_scalar_encoding (entry : nat) (value : EncodedScalar) :
    Result unit ReplayError :=
  match scalar_width (es_type_name value) with
  | None => Err (UnsupportedScalarType entry (es_type_name value))
  | Some width =>
      let? _ := validate_compact_bit_text entry (es_bits value) in
      let? _ := ensure (length (es_bits value) =? width)%nat (BitsWidth entry width) in
      let? bits := ok_or (from_str_radix_16 (es_bits value)) (BitsInvalid entry) in
      let? _ :=
        ensure (negb (bool_decide (es_type_name value = string_bytes "bool") && (1 <? bits)))
          (BitsBoolRange entry) in
      let? _ :=
        ensure (negb (bool_decide (es_type_name value = string_bytes "u8") && (255 <? bits)))
          (BitsU8Range entry) in
      ensure (negb (bool_decide (es_type_name value = string_bytes "u16") && (65535 <? bits)))
        (BitsU16Range entry)
  end.

Definition validate_location (entry : nat) (location : StateLocation) : Result unit ReplayError :=
  match location with
  | ScalarLocation path => validate_compact_field_text "initial state scalar path" path
  | CollectionLocation path field index =>
      let? _ := validate_compact_field_text "initial state collection path" path in
      let? _ := ensure (len field <=? MAX_COMPACT_FIELD_TEXT_BYTES) EntryFieldTooLong in
      ensure (0 <=? index) (EntryNegativeIndex entry)
  end.

Fixpoint validate_entries (entry : nat) (previous : option StateLocation) (values : list StateEntry) :
    Result unit ReplayError :=
  match values with
  | [] => Ok tt
  | e :: values' =>
      let? _ :=
        ensure (match previous with
                | Some p => bool_decide (cmp (location_key p) (location_key (en_location e)) = Lt)
                | None => true
                end) (EntryOrder entry) in
      let? _ := validate_location entry (en_location e) in
      let? _ := validate_compact_field_text "initial state type" (es_type_name (en_value e)) in
      let? _ := validate_compact_scalar_encoding entry (en_value e) in
      let? _ := ensure (negb (forallb (Z.eqb 48) (es_bits (en_value e)))) (EntryDefault entry) in
      validate_entries (S entry) (Some (en_location e)) values'
  end.

Definition validate_compact_initial_state (state : InitialState) : Result unit ReplayError :=
  let? _ := validate_compact_hash "initial state_sha256" (is_state_sha256 state) in
  let? _ := ensure (len (is_values state) <=? MAX_REPLAY_FRAMES) TooManyEntries in
  validate_entries 0 None (is_values state).

(** ** Segments *)

Fixpoint validate_changes (lane : Lane) (segment : nat) (previous_slot : option nat) (values : list Z)
    (changes : list CompactChange) : Result unit ReplayError :=
  match changes with
  | [] => Ok tt
  | c :: changes' =>
      let? _ := ensure (ch_slot c <? length values)%nat (ChangeRange lane segment (ch_slot c)) in
      let? _ :=
        ensure (match previous_slot with Some p => (p <? ch_slot c)%nat | None => true end)
          (ChangeOrder lane segment) in
      let? _ :=
        ensure (negb (bool_decide (values !! ch_slot c = Some (ch_value c))))
          (ChangeRedundant lane segment (ch_slot c)) in
      validate_changes lane segment (Some (ch_slot c)) values changes'
  end.

Definition validate_and_apply_compact_changes (snapshot : CompactInputSnapshot)
    (segment : CompactInputSegment) (index : nat) : option (Result CompactInputSnapshot ReplayError) :=
  let! _ := Some (validate_changes LaneI32 index None (i32_values snapshot) (i32_changes segment)) in
  let! _ := Some (validate_changes LaneF32 index None (f32_bits snapshot) (f32_changes segment)) in
  snapshot' ← apply_segment segment snapshot;
  Some (Ok snapshot').

(** The tick up to which the segments reach. *)
Fixpoint validate_segments (total : Z) (index : nat) (segments : list CompactInputSegment)
    (snapshot : CompactInputSnapshot) (cursor : Z) : option (Result Z ReplayError) :=
  match segments with
  | [] => Some (Ok cursor)
  | segment :: segments' =>
      let! _ := Some (ensure (negb ((index =? 0)%nat && negb (tick_gap segment =? 0))) FirstGap) in
      let! _ := Some (ensure (negb (run_ticks segment =? 0)) (EmptyRun index)) in
      let! change_count :=
        Some (ok_or (checked_u 64 (len (i32_changes segment) + len (f32_changes segment)))
                (ChangeCountOverflow index)) in
      let! _ := Some (ensure (change_count <=? MAX_COMPACT_CHANGES_PER_SEGMENT) (TooManyChanges index)) in
      let! gap_end := Some (ok_or (checked_u 64 (cursor + tick_gap segment)) (GapOverflow index)) in
      let! run_end := Some (ok_or (checked_u 64 (gap_end + run_ticks segment)) (RunOverflow index)) in
      let! _ := Some (ensure (run_end <=? total) (SegmentExceeds index)) in
      let! snapshot' := validate_and_apply_compact_changes snapshot segment index in
      validate_segments total (S index) segments' snapshot' run_end
  end.

(** ** Documents *)

Fixpoint validate_checkpoints (index : nat) (checkpoints : list CompactReplayCheckpoint) :
    Result unit ReplayError :=
  match checkpoints with
  | [] => Ok tt
  | c :: checkpoints' =>
      let expected_tick := (Z.of_nat index + 1) * COMPACT_CHECKPOINT_INTERVAL in
      let? _ := ensure (cp_tick c =? expected_tick) (CheckpointTick index expected_tick (cp_tick c)) in
      let? _ := validate_compact_hash "checkpoint state_sha256" (cp_state_sha256 c) in
      validate_checkpoints (S index) checkpoints'
  end.

Definition validate_identity `{ReplayCodec} (i : CompactReplayIdentity) : Result unit ReplayError :=
  let? _ := validate_compact_field_text "identity stasis_version" (id_stasis_version i) in
  let? _ := validate_compact_field_text "identity release_id" (id_release_id i) in
  let? _ := validate_compact_field_text "identity target" (id_target i) in
  let? _ := validate_compact_field_text "identity determinism_profile" (id_determinism_profile i) in
  let? _ := validate_compact_hash "source_sha256" (id_source_sha256 i) in
  let? _ := validate_compact_hash "state_layout_sha256" (id_state_layout_sha256 i) in
  let? _ := validate_compact_hash "compiler_layout_sha256" (id_compiler_layout_sha256 i) in
  let? _ := validate_compact_hash "runtime_sha256" (id_runtime_sha256 i) in
  let? _ := validate_compact_hash "input_usage_sha256" (id_input_usage_sha256 i) in
  let? _ :=
    match id_asset_manifest_sha256 i with
    | Some hash => validate_compact_hash "asset_manifest_sha256" hash
    | None => Ok tt
    end in
  let? _ := ensure (negb (id_host_schema_version i =? 0)) ZeroHostSchema in
  let? _ := ensure (host_dimensions_ok (id_host_i32_count i) (id_host_f32_count i)) HostFrameDimensions in
  let? _ := ensure (negb (id_tick_rate_hz i =? 0)) ZeroTickRate in
  let? _ :=
    ensure (match id_controller_schema_version i with Some v => negb (v =? 0) | None => true end)
      ZeroControllerSchema in
  let? _ := validate_compact_fields LaneI32 (id_observed_i32 i) (id_host_i32_count i) in
  let? _ := validate_compact_fields LaneF32 (id_observed_f32 i) (id_host_f32_count i) in
  let actual := compact_input_usage_hash (id_observed_i32 i) (id_observed_f32 i) in
  ensure (bool_decide (id_input_usage_sha256 i = actual)) (InputUsageMismatch (id_input_usage_sha256 i) actual).

Definition last_checkpoint_agrees (checkpoints : list CompactReplayCheckpoint)
    (total : Z) (final : CompactReplayCheckpoint) : bool :=
  match last checkpoints with
  | Some c => negb ((cp_tick c =? total) && negb (bool_decide (cp_state_sha256 c = cp_state_sha256 final)))
  | None => true
  end.

Definition validate_compact_document `{ReplayCodec} (d : CompactReplayDocument) :
    option (Result unit ReplayError) :=
  let! _ :=
    Some (ensure (schema_version d =? COMPACT_REPLAY_SCHEMA_VERSION) (UnsupportedSchema (schema_version d))) in
  let! _ := Some (validate_identity (identity d)) in
  let! _ := Some (validate_compact_initial_state (initial_state d)) in
  let! _ :=
    Some (ensure ((length (i32_values (initial_input d)) =? length (id_observed_i32 (identity d)))%nat
                  && (length (f32_bits (initial_input d)) =? length (id_observed_f32 (identity d)))%nat)
            InputLengths) in
  let! _ :=
    Some (ensure (negb (total_ticks d =? 0) && (total_ticks d <=? MAX_REPLAY_FRAMES)) TotalTicksRange) in
  let! _ := Some (ensure (negb (bool_decide (segments d = []))) NoSegments) in
  let! _ := Some (ensure (len (segments d) <=? MAX_REPLAY_FRAMES) TooManySegments) in
  let! cursor := validate_segments (total_ticks d) 0 (segments d) (initial_input d) 0 in
  let! _ := Some (ensure (cursor =? total_ticks d) (Coverage cursor (total_ticks d))) in
  let! _ := Some (ensure (len (checkpoints d) <=? MAX_COMPACT_CHECKPOINTS) TooManyCheckpoints) in
  let expected := total_ticks d `div` COMPACT_CHECKPOINT_INTERVAL in
  let! _ :=
    Some (ensure (len (checkpoints d) =? expected) (CheckpointCount expected (total_ticks d))) in
  let! _ := Some (validate_checkpoints 0 (checkpoints d)) in
  let! _ :=
    Some (ensure (cp_tick (final_state d) =? total_ticks d)
            (FinalTick (cp_tick (final_state d)) (total_ticks d))) in
  let! _ := Some (validate_compact_hash "final state_sha256" (cp_state_sha256 (final_state d))) in
  Some (ensure (last_checkpoint_agrees (checkpoints d) (total_ticks d) (final_state d)) FinalCheckpoint).

Definition compact_v2_identity_from_v3 (i : CompactReplayIdentityV3) : CompactReplayIdentity :=
  let c := compatibility i in
  {| id_stasis_version := co_stasis_version c;
     id_release_id := co_release_id c;
     id_target := pr_target (producer i);
     id_source_sha256 := co_source_sha256 c;
     id_state_layout_sha256 := co_state_layout_sha256 c;
     id_compiler_layout_sha256 := co_compiler_layout_sha256 c;
     id_runtime_sha256 := pr_runtime_sha256 (producer i);
     id_asset_manifest_sha256 := co_asset_manifest_sha256 c;
     id_host_schema_version := co_host_schema_version c;
     id_host_i32_count := co_host_i32_count c;
     id_host_f32_count := co_host_f32_count c;
     id_input_usage_sha256 := co_input_usage_sha256 c;
     id_tick_rate_hz := co_tick_rate_hz c;
     id_hash_scope := co_hash_scope c;
     id_determinism_profile := co_determinism_profile c;
     id_controller_schema_version := co_controller_schema_version c;
     id_observed_i32 := co_observed_i32 c;
     id_observed_f32 := co_observed_f32 c |}.

(** The document of schema 2 a document of schema 3 is read as. *)
Definition normalized (d : CompactReplayDocumentV3) : CompactReplayDocument :=
  {| schema_version := COMPACT_REPLAY_SCHEMA_VERSION;
     identity := compact_v2_identity_from_v3 (identity d);
     initial_state := initial_state d;
     initial_input := initial_input d;
     segments := segments d;
     checkpoints := checkpoints d;
     total_ticks := total_ticks d;
     final_state := final_state d |}.

Definition validate_compact_document_v3 `{ReplayCodec} (d : CompactReplayDocumentV3) :
    option (Result unit ReplayError) :=
  let! _ :=
    Some (ensure (schema_version d =? COMPACT_REPLAY_SCHEMA_VERSION_V3)
            (UnsupportedSchema (schema_version d))) in
  let! _ := Some (validate_compact_field_text "producer target" (pr_target (producer (identity d)))) in
  let! _ :=
    Some (validate_compact_hash "producer runtime_sha256" (pr_runtime_sha256 (producer (identity d)))) in
  validate_compact_document (normalized d).

Definition canonical_bytes `{ReplayCodec} (d : CompactReplayDocumentV3) :
    option (Result (list Z) ReplayError) :=
  let! _ := validate_compact_document_v3 d in
  let! bytes := Some (map_err Encoding (to_vec_document d)) in
  let! _ := Some (ensure (len bytes <=? MAX_REPLAY_FILE_BYTES) (TooLarge (len bytes))) in
  Some (Ok bytes).

(** ** Recordings of schema 1 *)

Fixpoint validate_frames (i32_count f32_count : Z) (tick : Z) (frames : list ReplayFrame) :
    Result unit ReplayError :=
  match frames with
  | [] => Ok tt
  | f :: frames' =>
      let? _ := ensure (fr_tick f =? tick) (FrameTick (fr_tick f) tick) in
      let? _ := ensure (len (fr_state_sha256 f) =? 64) (FrameHash tick) in
      let? _ :=
        ensure (forallb (λ c, Z.of_nat (hc_index c) <? i32_count) (fr_i32_changes f))
          (FrameRange LaneI32 tick) in
      let? _ :=
        ensure (forallb (λ c, Z.of_nat (hc_index c) <? f32_count) (fr_f32_changes f))
          (FrameRange LaneF32 tick) in
      validate_frames i32_count f32_count (tick + 1) frames'
  end.

Definition validate_document (d : ReplayDocument) : Result unit ReplayError :=
  let? _ :=
    ensure (rd_schema_version d =? REPLAY_SCHEMA_VERSION) (UnsupportedSchema (rd_schema_version d)) in
  let? _ := ensure (len (rd_frames d) <=? MAX_REPLAY_FRAMES) TooManyFrames in
  let? _ := ensure (negb (bool_decide (rd_frames d = []))) NoFrames in
  let i := rd_identity d in
  let? _ := ensure (host_dimensions_ok (ri_host_i32_count i) (ri_host_f32_count i)) HostFrameDimensions in
  validate_frames (ri_host_i32_count i) (ri_host_f32_count i) 1 (rd_frames d).

(** ** Reading a document *)

Definition decode_versioned_replay `{ReplayCodec} (source : list Z) :
    option (Result VersionedReplayDocument ReplayError) :=
  let! _ := Some (ensure (len source <=? MAX_REPLAY_FILE_BYTES) (TooLarge (len source))) in
  let! schema := Some (map_err Encoding (probe_replay_schema source)) in
  if schema =? REPLAY_SCHEMA_VERSION then
    let! document := Some (map_err Encoding (from_slice_v1 source)) in
    let! _ := Some (validate_document document) in
    Some (Ok (LegacyV1 document))
  else if schema =? COMPACT_REPLAY_SCHEMA_VERSION then
    let! document := Some (map_err Encoding (from_slice_v2 source)) in
    let! _ := validate_compact_document document in
    Some (Ok (CompactV2 document))
  else if schema =? COMPACT_REPLAY_SCHEMA_VERSION_V3 then
    let! document := Some (map_err Encoding (from_slice_v3 source)) in
    let! _ := validate_compact_document_v3 document in
    Some (Ok (CompactV3 (normalized document) (compatibility (identity document))))
  else Some (Err (UnsupportedSchema schema)).
