(* ===== verification/Recorder.v ===== *)
(** * The recorder of host input

    Models [ReplayRecorder] of [apps/stasis/src/record_replay.rs] (lines 1478–1836 and
    1955–2089): a tick is begun with the host frame it runs on, and finished with the
    hash of the state after it; ticks with equal observed input share a segment.

    What the recorder asks of the running program (the replay contract, its identity
    and compatibility, its initial state, the hash of its state) is an argument, the
    [Result] of the call.  Creating and renaming the file of [publish_replay_bytes] is
    not modelled: [publish] returns the bytes it writes. *)

From S2P Require Import Prelude BTree Identity StateLayout RecordData RecordDocument.
#[local] Open Scope Z_scope.

(** ** The state *)

Record LegacyReplayRecorder := mkLegacyRecorder {
  lr_document : ReplayDocument;
  previous_i32 : list Z;
  previous_f32 : list Z;
}.

Record CompactPendingTick := mkPending {
  pt_tick : Z;
  pt_input : CompactInputSnapshot;
}.

Record CompactReplayRecorder := mkCompactRecorder {
  document : CompactReplayDocumentV3;
  encoded_bytes : Z;
  previous_input : option CompactInputSnapshot;
  active_snapshot : option CompactInputSnapshot;
  active_segment : option CompactInputSegment;
  pending : option CompactPendingTick;
}.

Record ReplayRecorder := mkRecorder {
  legacy : option LegacyReplayRecorder;
  compact : option CompactReplayRecorder;
}.

(** Assignments to fields. *)
Definition set_document (d : CompactReplayDocumentV3) (r : CompactReplayRecorder) : CompactReplayRecorder :=
  mkCompactRecorder d (encoded_bytes r) (previous_input r) (active_snapshot r) (active_segment r) (pending r).

Definition set_pending (p : option CompactPendingTick) (r : CompactReplayRecorder) : CompactReplayRecorder :=
  mkCompactRecorder (document r) (encoded_bytes r) (previous_input r) (active_snapshot r) (active_segment r) p.

Definition set_active (snapshot : option CompactInputSnapshot) (segment : option CompactInputSegment)
    (r : CompactReplayRecorder) : CompactReplayRecorder :=
  mkCompactRecorder (document r) (encoded_bytes r) (previous_input r) snapshot segment (pending r).

Definition set_previous (input : option CompactInputSnapshot) (r : CompactReplayRecorder) :
    CompactReplayRecorder :=
  mkCompactRecorder (document r) (encoded_bytes r) input (active_snapshot r) (active_segment r) (pending r).

Definition with_initial_input {I} (input : CompactInputSnapshot) (d : CompactDocument I) : CompactDocument I :=
  mkDocument (schema_version d) (identity d) (initial_state d) input (segments d) (checkpoints d)
    (total_ticks d) (final_state d).

Definition with_segments {I} (s : list CompactInputSegment) (d : CompactDocument I) : CompactDocument I :=
  mkDocument (schema_version d) (identity d) (initial_state d) (initial_input d) s (checkpoints d)
    (total_ticks d) (final_state d).

Definition with_checkpoints {I} (c : list CompactReplayCheckpoint) (d : CompactDocument I) : CompactDocument I :=
  mkDocument (schema_version d) (identity d) (initial_state d) (initial_input d) (segments d) c
    (total_ticks d) (final_state d).

Definition with_final {I} (f : CompactReplayCheckpoint) (d : CompactDocument I) : CompactDocument I :=
  mkDocument (schema_version d) (identity d) (initial_state d) (initial_input d) (segments d)
    (checkpoints d) (cp_tick f) f.

(** ** Operations on the compact recorder

    They return the recorder also when they fail: what was assigned stays assigned. *)

Definition reserve_compact_bytes (additional : Z) (label : string) (r : CompactReplayRecorder) :
    CompactReplayRecorder * Result unit ReplayError :=
  match checked_u 64 (encoded_bytes r + additional) with
  | None => (r, Err SizeOverflow)
  | Some next =>
      if MAX_REPLAY_FILE_BYTES <? next then (r, Err (OverFileLimit label))
      else (mkCompactRecorder (document r) next (previous_input r) (active_snapshot r) (active_segment r)
              (pending r), Ok tt)
  end.

Definition flush_compact_segment `{ReplayCodec} (r : CompactReplayRecorder) :
    CompactReplayRecorder * Result unit ReplayError :=
  match active_segment r with
  | None => (r, Ok tt)
  | Some segment =>
      let r := set_active None None r in
      if MAX_REPLAY_FRAMES <=? len (segments (document r)) then (r, Err TooManySegments)
      else
        match to_vec_segment segment with
        | Err e => (r, Err (Encoding e))
        | Ok bytes =>
            match reserve_compact_bytes (len bytes + 1) "input segment" r with
            | (r, Err e) => (r, Err e)
            | (r, Ok _) =>
                (set_document (with_segments (segments (document r) ++ [segment]) (document r)) r, Ok tt)
            end
        end
  end.

(** The new segment of an input that differs from the active one. *)
Definition new_segment (previous : option CompactInputSnapshot) (input : CompactInputSnapshot) :
    CompactInputSegment :=
  let changes := match previous with Some p => compact_diff p input | None => ([], []) end in
  mkSegment 0 1 changes.1 changes.2.

Definition start_segment `{ReplayCodec} (input : CompactInputSnapshot) (r : CompactReplayRecorder) :
    CompactReplayRecorder * Result unit ReplayError :=
  match flush_compact_segment r with
  | (r, Err e) => (r, Err e)
  | (r, Ok _) =>
      (set_previous (Some input)
         (set_active (Some input) (Some (new_segment (previous_input r) input)) r), Ok tt)
  end.

Definition append_compact_input `{ReplayCodec} (input : CompactInputSnapshot) (r : CompactReplayRecorder) :
    CompactReplayRecorder * Result unit ReplayError :=
  if bool_decide (active_snapshot r = Some input) then
    match active_segment r with
    | None => (r, Err NoActiveSegment)
    | Some segment =>
        match checked_u 64 (run_ticks segment + 1) with
        | None => (r, Err RunLengthOverflow)
        | Some run =>
            let segment := mkSegment (tick_gap segment) run (i32_changes segment) (f32_changes segment) in
            let r := set_active (active_snapshot r) (Some segment) r in
            (set_previous (Some (default input (previous_input r))) r, Ok tt)
        end
    end
  else start_segment input r.

Definition observe (lane : Lane) (fields : list CompactField) (host : list Z) : Result (list Z) ReplayError :=
  foldr (λ field rest,
    let? value := ok_or (host !! fd_index field) (HostIndex lane (fd_index field)) in
    let? values := rest in
    Ok (value :: values)) (Ok []) fields.

Definition compact_snapshot_from_host (identity : CompactReplayCompatibility) (host_i32 host_f32 : list Z) :
    Result CompactInputSnapshot ReplayError :=
  let? _ :=
    ensure ((len host_i32 =? co_host_i32_count identity) && (len host_f32 =? co_host_f32_count identity))
      FrameSizeChanged in
  let? values := observe LaneI32 (co_observed_i32 identity) host_i32 in
  let? bits := observe LaneF32 (co_observed_f32 identity) host_f32 in
  Ok (mkSnapshot values bits).

Definition begin_compact_tick (tick : Z) (host_i32 host_f32 : list Z) (r : CompactReplayRecorder) :
    CompactReplayRecorder * Result unit ReplayError :=
  if MAX_REPLAY_FRAMES <=? total_ticks (document r) then (r, Err TickLimit)
  else if bool_decide (is_Some (pending r)) then (r, Err (TickPending tick))
  else
    match checked_u 64 (total_ticks (document r) + 1) with
    | None => (r, Err TickOverflow)
    | Some expected =>
        if negb (tick =? expected) then (r, Err (TickSequence expected tick))
        else
          match compact_snapshot_from_host (compatibility (identity (document r))) host_i32 host_f32 with
          | Err e => (r, Err e)
          | Ok input => (set_pending (Some (mkPending tick input)) r, Ok tt)
          end
    end.

(** The baseline of the first tick. *)
Definition record_baseline `{ReplayCodec} (input : CompactInputSnapshot) (r : CompactReplayRecorder) :
    CompactReplayRecorder * Result unit ReplayError :=
  match previous_input r with
  | Some _ => (r, Ok tt)
  | None =>
      let r := set_document (with_initial_input input (document r)) r in
      match to_vec_baseline (initial_input (document r)) with
      | Err e => (r, Err (Encoding e))
      | Ok bytes => reserve_compact_bytes (len bytes) "input baseline" r
      end
  end.

Definition record_checkpoint `{ReplayCodec} (checkpoint : CompactReplayCheckpoint) (r : CompactReplayRecorder) :
    CompactReplayRecorder * Result unit ReplayError :=
  if negb (cp_tick checkpoint `mod` COMPACT_CHECKPOINT_INTERVAL =? 0) then (r, Ok tt)
  else if MAX_COMPACT_CHECKPOINTS <=? len (checkpoints (document r)) then (r, Err TooManyCheckpoints)
  else
    match to_vec_checkpoint checkpoint with
    | Err e => (r, Err (Encoding e))
    | Ok bytes =>
        match reserve_compact_bytes (len bytes + 1) "checkpoint" r with
        | (r, Err e) => (r, Err e)
        | (r, Ok _) =>
            (set_document (with_checkpoints (checkpoints (document r) ++ [checkpoint]) (document r)) r, Ok tt)
        end
    end.

Definition finish_compact_tick `{ReplayCodec} (state_hash : Result str str) (r : CompactReplayRecorder) :
    CompactReplayRecorder * Result unit ReplayError :=
  match pending r with
  | None => (r, Err NoActiveTick)
  | Some p =>
      let r := set_pending None r in
      match state_hash with
      | Err e => (r, Err (Host e))
      | Ok state_sha256 =>
          match record_baseline (pt_input p) r with
          | (r, Err e) => (r, Err e)
          | (r, Ok _) =>
              match append_compact_input (pt_input p) r with
              | (r, Err e) => (r, Err e)
              | (r, Ok _) =>
                  let final := mkCheckpoint (pt_tick p) state_sha256 in
                  record_checkpoint final (set_document (with_final final (document r)) r)
              end
          end
      end
  end.

Definition discard_compact_tick (tick : Z) (r : CompactReplayRecorder) :
    CompactReplayRecorder * Result unit ReplayError :=
  match pending r with
  | Some p => if pt_tick p =? tick then (set_pending None r, Ok tt) else (r, Err (NotActiveTick tick))
  | None => (r, Err (NotActiveTick tick))
  end.

(** ** Operations on the recorder of schema 1 *)

Definition set_frames (frames : list ReplayFrame) (r : LegacyReplayRecorder) : LegacyReplayRecorder :=
  let d := lr_document r in
  mkLegacyRecorder (mkLegacy (rd_schema_version d) (rd_identity d) (rd_initial_state d) frames)
    (previous_i32 r) (previous_f32 r).

(** The last frame, if its tick was not completed. *)
Definition incomplete (frames : list ReplayFrame) : bool :=
  match last frames with Some f => bool_decide (fr_state_sha256 f = []) | None => false end.

Definition begin_legacy_tick (tick : Z) (host_i32 host_f32 : list Z) (r : LegacyReplayRecorder) :
    LegacyReplayRecorder * Result unit ReplayError :=
  let frames := rd_frames (lr_document r) in
  if MAX_REPLAY_FRAMES <=? len frames then (r, Err TickLimit)
  else if incomplete frames then (r, Err (TickPending tick))
  else if negb (tick =? len frames + 1) then (r, Err (TickSequence (len frames + 1) tick))
  else if negb ((length host_i32 =? length (previous_i32 r))%nat
                && (length host_f32 =? length (previous_f32 r))%nat)
  then (r, Err FrameSizeChanged)
  else
    let frame := mkFrame tick (diff_host (previous_i32 r) host_i32) (diff_host (previous_f32 r) host_f32) [] in
    let r := set_frames (frames ++ [frame]) r in
    (mkLegacyRecorder (lr_document r) host_i32 host_f32, Ok tt).

Definition finish_legacy_tick (state_hash : Result str str) (r : LegacyReplayRecorder) :
    LegacyReplayRecorder * Result unit ReplayError :=
  let frames := rd_frames (lr_document r) in
  match last frames with
  | None => (r, Err NoActiveTick)
  | Some f =>
      if negb (bool_decide (fr_state_sha256 f = [])) then (r, Err (AlreadyCompleted (fr_tick f)))
      else
        match state_hash with
        | Err e => (r, Err (Host e))
        | Ok hash =>
            (set_frames (take (length frames - 1) frames
                         ++ [mkFrame (fr_tick f) (fr_i32_changes f) (fr_f32_changes f) hash]) r, Ok tt)
        end
  end.

Definition discard_legacy_tick (tick : Z) (r : LegacyReplayRecorder) :
    LegacyReplayRecorder * Result unit ReplayError :=
  let frames := rd_frames (lr_document r) in
  match last frames with
  | None => (r, Err (NoActiveTickAt tick))
  | Some f =>
      if negb (fr_tick f =? tick) || negb (bool_decide (fr_state_sha256 f = []))
      then (r, Err (NotActiveTick tick))
      else (set_frames (take (length frames - 1) frames) r, Ok tt)
  end.

(** ** The recorder *)

Definition on_legacy (r : LegacyReplayRecorder * Result unit ReplayError) (c : option CompactReplayRecorder) :
    ReplayRecorder * Result unit ReplayError :=
  (mkRecorder (Some r.1) c, r.2).

Definition on_compact (r : CompactReplayRecorder * Result unit ReplayError) :
    ReplayRecorder * Result unit ReplayError :=
  (mkRecorder None (Some r.1), r.2).

Definition begin_tick (tick : Z) (host_i32 host_f32 : list Z) (r : ReplayRecorder) :
    ReplayRecorder * Result unit ReplayError :=
  match legacy r, compact r with
  | Some l, c => on_legacy (begin_legacy_tick tick host_i32 host_f32 l) c
  | None, Some c => on_compact (begin_compact_tick tick host_i32 host_f32 c)
  | None, None => (r, Err NoRecordingMode)
  end.

Definition finish_tick `{ReplayCodec} (state_hash : Result str str) (r : ReplayRecorder) :
    ReplayRecorder * Result unit ReplayError :=
  match legacy r, compact r with
  | Some l, c => on_legacy (finish_legacy_tick state_hash l) c
  | None, Some c => on_compact (finish_compact_tick state_hash c)
  | None, None => (r, Err NoRecordingMode)
  end.

Definition discard_tick (tick : Z) (r : ReplayRecorder) : ReplayRecorder * Result unit ReplayError :=
  match legacy r, compact r with
  | Some l, c => on_legacy (discard_legacy_tick tick l) c
  | None, Some c => on_compact (discard_compact_tick tick c)
  | None, None => (r, Err NoRecordingMode)
  end.

(** The check of [publish_replay_bytes] before it writes. *)
Definition publish_replay_bytes (bytes : list Z) : Result (list Z) ReplayError :=
  let? _ := ensure (len bytes <=? MAX_REPLAY_FILE_BYTES) (TooLarge (len bytes)) in
  Ok bytes.

Definition publish_compact `{ReplayCodec} (r : CompactReplayRecorder) : option (Result (list Z) ReplayError) :=
  if bool_decide (is_Some (pending r)) then Some (Err IncompletePublish)
  else
    match flush_compact_segment r with
    | (_, Err e) => Some (Err e)
    | (r, Ok _) =>
        if total_ticks (document r) =? 0 then Some (Err NoCompletedTick)
        else
          let! bytes := canonical_bytes (document r) in
          Some (publish_replay_bytes bytes)
    end.

Definition publish_legacy `{ReplayCodec} (l : LegacyReplayRecorder) : Result (list Z) ReplayError :=
  let frames := rd_frames (lr_document l) in
  let? _ := ensure (negb (bool_decide (frames = []))) NoCompletedTick in
  let? _ := ensure (negb (incomplete frames)) IncompletePublish in
  let? bytes := map_err Encoding (to_vec_legacy (lr_document l)) in
  publish_replay_bytes bytes.

Definition publish `{ReplayCodec} (r : ReplayRecorder) : option (Result (list Z) ReplayError) :=
  match legacy r, compact r with
  | Some l, _ => Some (publish_legacy l)
  | None, Some c => publish_compact c
  | None, None => Some (Err NoRecordingMode)
  end.

(** ** Starting *)

Definition validate_compact_metadata (m : CompactReplayMetadata) : Result unit ReplayError :=
  let? _ := validate_compact_hash "runtime_sha256" (md_runtime_sha256 m) in
  let? _ :=
    match md_asset_manifest_sha256 m with
    | Some hash => validate_compact_hash "asset_manifest_sha256" hash
    | None => Ok tt
    end in
  let? _ := ensure (negb (md_host_schema_version m =? 0)) ZeroHostSchema in
  let? _ := ensure (negb (md_tick_rate_hz m =? 0)) ZeroTickRate in
  let? _ := validate_compact_field_text "determinism_profile" (md_determinism_profile m) in
  ensure (match md_controller_schema_version m with Some v => negb (v =? 0) | None => true end)
    ZeroControllerSchema.

Definition release_id `{ReplayCodec} : str := default (string_bytes "development") STASIS_RELEASE_ID.

Definition compact_replay_compatibility_from_snapshot `{ReplayCodec} (program : ProgramReplayCompatibility)
    (host_i32_count host_f32_count : Z) (metadata : CompactReplayMetadata) : CompactReplayCompatibility :=
  {| co_stasis_version := CARGO_PKG_VERSION;
     co_release_id := release_id;
     co_source_sha256 := pc_source_sha256 program;
     co_state_layout_sha256 := pc_state_layout_sha256 program;
     co_compiler_layout_sha256 := pc_compiler_layout_sha256 program;
     co_asset_manifest_sha256 := md_asset_manifest_sha256 metadata;
     co_host_schema_version := md_host_schema_version metadata;
     co_host_i32_count := host_i32_count;
     co_host_f32_count := host_f32_count;
     co_input_usage_sha256 := pc_input_usage_sha256 program;
     co_tick_rate_hz := md_tick_rate_hz metadata;
     co_hash_scope := SimulationAfterTick;
     co_determinism_profile := md_determinism_profile metadata;
     co_controller_schema_version := md_controller_schema_version metadata;
     co_observed_i32 := pc_observed_i32 program;
     co_observed_f32 := pc_observed_f32 program |}.

(** The document of a recorder that has recorded nothing. *)
Definition empty_document (i : CompactReplayIdentityV3) (state : InitialState) : CompactReplayDocumentV3 :=
  {| schema_version := COMPACT_REPLAY_SCHEMA_VERSION_V3;
     identity := i;
     initial_state := state;
     initial_input := mkSnapshot [] [];
     segments := [];
     checkpoints := [];
     total_ticks := 0;
     final_state := mkCheckpoint 0 [] |}.

Definition start_compact `{ReplayCodec} (contract : Result unit str) (output : Result unit str)
    (host_i32_count host_f32_count : Z) (observed_i32 observed_f32 : list CompactField)
    (metadata : CompactReplayMetadata) (base : Result ReplayIdentity str)
    (program : Result ProgramReplayCompatibility str) (state : Result InitialState str) :
    Result ReplayRecorder ReplayError :=
  let? _ := map_err Host contract in
  let? _ := map_err Host output in
  let? _ := ensure (host_dimensions_ok host_i32_count host_f32_count) HostFrameDimensions in
  let? _ := validate_compact_fields LaneI32 observed_i32 host_i32_count in
  let? _ := validate_compact_fields LaneF32 observed_f32 host_f32_count in
  let? _ := validate_compact_metadata metadata in
  let? base := map_err Host base in
  let? program := map_err Host program in
  let compatibility :=
    compact_replay_compatibility_from_snapshot program host_i32_count host_f32_count metadata in
  let? _ :=
    ensure (bool_decide (co_observed_i32 compatibility = observed_i32)
            && bool_decide (co_observed_f32 compatibility = observed_f32)) ObservedMismatch in
  let? state := map_err Host state in
  let document :=
    empty_document
      (mkIdentityV3 compatibility (mkProducer (ri_target base) (md_runtime_sha256 metadata))) state in
  let? bytes := map_err Encoding (to_vec_document document) in
  let? encoded := ok_or (checked_u 64 (len bytes + 4096)) SizeOverflow in
  let? _ := ensure (encoded <=? MAX_REPLAY_FILE_BYTES) HeaderTooLarge in
  Ok (mkRecorder None (Some (mkCompactRecorder document encoded None None None None))).
