(* ===== verification/ReplayPlayer.v ===== *)
(** * The player of recordings

    Models [ReplayPlayer] of [apps/stasis/src/record_replay.rs] (lines 2091–2560,
    2911–2929): a recording is read, checked against the running program, and gives
    tick after tick the host frame to run on; the hash of the state is compared at the
    checkpoints and after the last tick.

    What the player asks of the running program is an argument, the [Result] of the
    call.  The text of a divergence is shorter than the limit it is truncated to, so it
    is kept as its data. *)

From S2P Require Import Prelude BTree Identity RecordData RecordDocument Recorder.
#[local] Open Scope Z_scope.

(** ** The state *)

(** [compact_segment_index], [compact_segment_cursor], [compact_segment_applied] and
    [compact_snapshot] of the player. *)
Record CompactCursor := mkCursor {
  segment_index : nat;
  segment_cursor : Z;
  segment_applied : bool;
  cursor_snapshot : CompactInputSnapshot;
}.

Inductive ReplayPlaybackDocument :=
| Legacy (document : ReplayDocument)
| Compact (document : CompactReplayDocument) (cursor : CompactCursor).

Record ReplayPlayer := mkPlayer {
  playback : ReplayPlaybackDocument;
  next_frame : nat;
  next_tick : Z;
  player_i32 : list Z;
  player_f32 : list Z;
  next_checkpoint : nat;
  last_verified_tick : Z;
  first_divergence : option ReplayError;
  compact_v3_compatibility : option CompactReplayCompatibility;
}.

Definition set_playback (d : ReplayPlaybackDocument) (p : ReplayPlayer) : ReplayPlayer :=
  mkPlayer d (next_frame p) (next_tick p) (player_i32 p) (player_f32 p) (next_checkpoint p)
    (last_verified_tick p) (first_divergence p) (compact_v3_compatibility p).

Definition set_frame (frame : nat) (tick : Z) (host_i32 host_f32 : list Z) (p : ReplayPlayer) : ReplayPlayer :=
  mkPlayer (playback p) frame tick host_i32 host_f32 (next_checkpoint p) (last_verified_tick p)
    (first_divergence p) (compact_v3_compatibility p).

Definition set_checks (checkpoint : nat) (verified : Z) (divergence : option ReplayError) (p : ReplayPlayer) :
    ReplayPlayer :=
  mkPlayer (playback p) (next_frame p) (next_tick p) (player_i32 p) (player_f32 p) checkpoint verified
    divergence (compact_v3_compatibility p).

(** ** Loading *)

Definition fresh_player (document : ReplayPlaybackDocument) (i32_count f32_count : Z)
    (compatibility : option CompactReplayCompatibility) : ReplayPlayer :=
  mkPlayer document 0 1 (replicate (Z.to_nat i32_count) 0) (replicate (Z.to_nat f32_count) 0) 0 0 None
    compatibility.

Definition compact_player (document : CompactReplayDocument)
    (compatibility : option CompactReplayCompatibility) : ReplayPlayer :=
  fresh_player (Compact document (mkCursor 0 0 false (initial_input document)))
    (id_host_i32_count (identity document)) (id_host_f32_count (identity document)) compatibility.

(** [load] after the file was read. *)
Definition load `{ReplayCodec} (source : list Z) : option (Result ReplayPlayer ReplayError) :=
  let! _ := Some (ensure (len source <=? MAX_REPLAY_FILE_BYTES) (TooLarge (len source))) in
  let! document := decode_versioned_replay source in
  Some (Ok (match document with
            | LegacyV1 d =>
                fresh_player (Legacy d) (ri_host_i32_count (rd_identity d)) (ri_host_f32_count (rd_identity d))
                  None
            | CompactV2 d => compact_player d None
            | CompactV3 d compatibility => compact_player d (Some compatibility)
            end)).

Definition frame_count (p : ReplayPlayer) : Z :=
  match playback p with
  | Legacy d => len (rd_frames d)
  | Compact d _ => total_ticks d
  end.

Definition is_compact (p : ReplayPlayer) : bool :=
  match playback p with Compact _ _ => true | Legacy _ => false end.

(** ** Identity *)

(** The first of the conditions that holds. *)
Fixpoint first_reason (reasons : list (bool * string)) : option string :=
  match reasons with
  | [] => None
  | (b, reason) :: reasons' => if b then Some reason else first_reason reasons'
  end.

Definition differ {A} `{EqDecision A} (a b : A) : bool := negb (bool_decide (a = b)).

Definition legacy_mismatch (i actual : ReplayIdentity) : option string :=
  if differ (ri_stasis_version i) (ri_stasis_version actual)
     || differ (ri_release_id i) (ri_release_id actual)
     || differ (ri_target i) (ri_target actual)
     || differ (ri_source_sha256 i) (ri_source_sha256 actual)
     || differ (ri_state_layout_sha256 i) (ri_state_layout_sha256 actual)
     || differ (ri_host_i32_count i) (ri_host_i32_count actual)
     || differ (ri_host_f32_count i) (ri_host_f32_count actual)
  then Some "legacy source, build, target, or state layout differs"%string else None.

Definition compact_mismatch `{ReplayCodec} (i : CompactReplayIdentity) (actual : ReplayIdentity)
    (program : ProgramReplayCompatibility) (m : CompactReplayMetadata) : option string :=
  first_reason
    [(differ (id_stasis_version i) (ri_stasis_version actual), "Stasis version differs"%string);
     (differ (id_release_id i) (ri_release_id actual), "release identity differs"%string);
     (differ (id_target i) (ri_target actual), "target differs"%string);
     (differ (id_source_sha256 i) (ri_source_sha256 actual), "source hash differs"%string);
     (differ (id_state_layout_sha256 i) (ri_state_layout_sha256 actual), "state layout hash differs"%string);
     (differ (id_compiler_layout_sha256 i) (pc_compiler_layout_sha256 program),
        "compiler layout identity differs"%string);
     (differ (id_host_i32_count i) (ri_host_i32_count actual)
      || differ (id_host_f32_count i) (ri_host_f32_count actual), "HostFrame dimensions differ"%string);
     (differ (id_runtime_sha256 i) (md_runtime_sha256 m), "runtime identity differs"%string);
     (differ (id_asset_manifest_sha256 i) (md_asset_manifest_sha256 m),
        "asset manifest identity differs"%string);
     (differ (id_host_schema_version i) (md_host_schema_version m), "HostFrame schema differs"%string);
     (differ (id_tick_rate_hz i) (md_tick_rate_hz m), "tick rate differs"%string);
     (differ (id_hash_scope i) SimulationAfterTick, "verification hash scope differs"%string);
     (differ (id_determinism_profile i) (md_determinism_profile m), "determinism profile differs"%string);
     (differ (id_controller_schema_version i) (md_controller_schema_version m),
        "controller schema differs"%string);
     (differ (id_input_usage_sha256 i)
        (compact_input_usage_hash (pc_observed_i32 program) (pc_observed_f32 program))
      || differ (id_observed_i32 i) (pc_observed_i32 program)
      || differ (id_observed_f32 i) (pc_observed_f32 program),
        "compiler-observed input usage differs"%string)].

Definition compact_v3_mismatch (i c : CompactReplayCompatibility) : option string :=
  first_reason
    [(differ (co_stasis_version i) (co_stasis_version c), "Stasis version differs"%string);
     (differ (co_release_id i) (co_release_id c), "release identity differs"%string);
     (differ (co_source_sha256 i) (co_source_sha256 c), "source hash differs"%string);
     (differ (co_state_layout_sha256 i) (co_state_layout_sha256 c), "state layout hash differs"%string);
     (differ (co_compiler_layout_sha256 i) (co_compiler_layout_sha256 c),
        "compiler layout identity differs"%string);
     (differ (co_asset_manifest_sha256 i) (co_asset_manifest_sha256 c),
        "asset manifest identity differs"%string);
     (differ (co_host_schema_version i) (co_host_schema_version c), "HostFrame schema differs"%string);
     (differ (co_host_i32_count i) (co_host_i32_count c)
      || differ (co_host_f32_count i) (co_host_f32_count c), "HostFrame dimensions differ"%string);
     (differ (co_tick_rate_hz i) (co_tick_rate_hz c), "tick rate differs"%string);
     (differ (co_hash_scope i) (co_hash_scope c), "verification hash scope differs"%string);
     (differ (co_determinism_profile i) (co_determinism_profile c), "determinism profile differs"%string);
     (differ (co_controller_schema_version i) (co_controller_schema_version c),
        "controller schema differs"%string);
     (differ (co_input_usage_sha256 i) (co_input_usage_sha256 c)
      || differ (co_observed_i32 i) (co_observed_i32 c)
      || differ (co_observed_f32 i) (co_observed_f32 c), "compiler-observed input usage differs"%string)].

(** [ReplayIdentityView::mismatch] for the view [initialize_with_metadata] chooses. *)
Definition mismatch `{ReplayCodec} (p : ReplayPlayer) (actual : ReplayIdentity)
    (program : ProgramReplayCompatibility) (m : CompactReplayMetadata) : option string :=
  match playback p, compact_v3_compatibility p with
  | Legacy d, _ => legacy_mismatch (rd_identity d) actual
  | Compact _ _, Some c =>
      compact_v3_mismatch c
        (compact_replay_compatibility_from_snapshot program (ri_host_i32_count actual)
           (ri_host_f32_count actual) m)
  | Compact d _, None => compact_mismatch (identity d) actual program m
  end.

(** ** Playing *)

Fixpoint apply_host_changes (lane : Lane) (changes : list HostChange) (host : list Z) :
    list Z * Result unit ReplayError :=
  match changes with
  | [] => (host, Ok tt)
  | c :: changes' =>
      if (hc_index c <? length host)%nat
      then apply_host_changes lane changes' (<[hc_index c := hc_value c]> host)
      else (host, Err (HostIndex lane (hc_index c)))
  end.

(** [apply_changes]: what was assigned before an error stays. *)
Definition apply_changes (host_i32 host_f32 : list Z) (frame : ReplayFrame) :
    list Z * list Z * Result unit ReplayError :=
  match apply_host_changes LaneI32 (fr_i32_changes frame) host_i32 with
  | (host_i32, Err e) => (host_i32, host_f32, Err e)
  | (host_i32, Ok _) =>
      let '(host_f32, r) := apply_host_changes LaneF32 (fr_f32_changes frame) host_f32 in
      (host_i32, host_f32, r)
  end.

(** The loop of [advance_compact_snapshot] over the segments that are left. *)
Fixpoint advance_compact_snapshot (segments : list CompactInputSegment) (tick : Z) (c : CompactCursor) :
    option (CompactCursor * Result unit ReplayError) :=
  match segments with
  | [] => Some (c, Err (NoSegment tick))
  | segment :: segments' =>
      match checked_u 64 (segment_cursor c + tick_gap segment) with
      | None => Some (c, Err PlaybackGapOverflow)
      | Some gap_end =>
          if tick <=? gap_end then Some (c, Ok tt)
          else
            match checked_u 64 (gap_end + run_ticks segment) with
            | None => Some (c, Err PlaybackRunOverflow)
            | Some run_end =>
                if tick <=? run_end then
                  if segment_applied c then Some (c, Ok tt)
                  else
                    snapshot ← apply_segment segment (cursor_snapshot c);
                    Some (mkCursor (segment_index c) (segment_cursor c) true snapshot, Ok tt)
                else
                  advance_compact_snapshot segments' tick
                    (mkCursor (S (segment_index c)) run_end false (cursor_snapshot c))
            end
      end
  end.

(** The value is read before the place it goes to is looked up. *)
Fixpoint place (lane : Lane) (fields : list CompactField) (values host : list Z) :
    option (list Z * Result unit ReplayError) :=
  match fields with
  | [] => Some (host, Ok tt)
  | field :: fields' =>
      value ← values !! fd_slot field;
      if (fd_index field <? length host)%nat
      then place lane fields' values (<[fd_index field := value]> host)
      else Some (host, Err (HostIndex lane (fd_index field)))
  end.

Definition apply_compact_snapshot (identity : CompactReplayIdentity) (snapshot : CompactInputSnapshot)
    (host_i32 host_f32 : list Z) : option (list Z * list Z * Result unit ReplayError) :=
  r ← place LaneI32 (id_observed_i32 identity) (i32_values snapshot) host_i32;
  match r with
  | (host_i32, Err e) => Some (host_i32, host_f32, Err e)
  | (host_i32, Ok _) =>
      '(host_f32, r) ← place LaneF32 (id_observed_f32 identity) (f32_bits snapshot) host_f32;
      Some (host_i32, host_f32, r)
  end.

(** The new player and the host frame for the tick. *)
Definition Played : Type := ReplayPlayer * Result (list Z * list Z) ReplayError.

Definition apply_legacy (d : ReplayDocument) (tick : Z) (p : ReplayPlayer) : Played :=
  match rd_frames d !! next_frame p with
  | None => (p, Err (NoFrame tick))
  | Some frame =>
      if negb (fr_tick frame =? tick) then (p, Err (TickSequence tick (fr_tick frame)))
      else
        match apply_changes (player_i32 p) (player_f32 p) frame with
        | (host_i32, host_f32, Err e) => (set_frame (next_frame p) (next_tick p) host_i32 host_f32 p, Err e)
        | (host_i32, host_f32, Ok _) =>
            (set_frame (S (next_frame p)) (next_tick p) host_i32 host_f32 p, Ok (host_i32, host_f32))
        end
  end.

Definition apply_compact (d : CompactReplayDocument) (c : CompactCursor) (tick : Z) (p : ReplayPlayer) :
    option Played :=
  if negb (tick =? next_tick p) then Some (p, Err (TickSequence (next_tick p) tick))
  else if total_ticks d <? tick then Some (p, Err (NoFrame tick))
  else
    r ← advance_compact_snapshot (drop (segment_index c) (segments d)) tick c;
    let p := set_playback (Compact d r.1) p in
    match r.2 with
    | Err e => Some (p, Err e)
    | Ok _ =>
        h ← apply_compact_snapshot (identity d) (cursor_snapshot r.1)
              (replicate (length (player_i32 p)) 0) (replicate (length (player_f32 p)) 0);
        match h with
        | (host_i32, host_f32, Err e) => Some (set_frame (next_frame p) (next_tick p) host_i32 host_f32 p, Err e)
        | (host_i32, host_f32, Ok _) =>
            match checked_u 64 (next_tick p + 1) with
            | None => Some (set_frame (next_frame p) (next_tick p) host_i32 host_f32 p, Err TickOverflow)
            | Some next => Some (set_frame (next_frame p) next host_i32 host_f32 p, Ok (host_i32, host_f32))
            end
        end
    end.

(** [apply_next]: the lengths are those of the arrays to fill. *)
Definition apply_next (tick : Z) (i32_len f32_len : nat) (p : ReplayPlayer) : option Played :=
  if negb ((i32_len =? length (player_i32 p))%nat && (f32_len =? length (player_f32 p))%nat)
  then Some (p, Err HostSizeMismatch)
  else
    match playback p with
    | Legacy d => Some (apply_legacy d tick p)
    | Compact d c => apply_compact d c tick p
    end.

(** ** Verification *)

(** The first checkpoint, from [next] on, for which [stop] holds. *)
Fixpoint skip_checkpoints (stop : CompactReplayCheckpoint → bool) (checkpoints : list CompactReplayCheckpoint)
    (next : nat) : nat :=
  match checkpoints with
  | c :: checkpoints' => if stop c then next else skip_checkpoints stop checkpoints' (S next)
  | [] => next
  end.

Definition compact_expected_checkpoint (d : CompactReplayDocument) (tick : Z) (next : nat) :
    option str * nat :=
  let next := skip_checkpoints (λ c, negb (cp_tick c <? tick)) (drop next (checkpoints d)) next in
  if tick =? cp_tick (final_state d) then
    (Some (cp_state_sha256 (final_state d)),
     skip_checkpoints (λ c, negb (cp_tick c <=? tick)) (drop next (checkpoints d)) next)
  else
    match checkpoints d !! next with
    | Some c => if cp_tick c =? tick then (Some (cp_state_sha256 c), S next) else (None, next)
    | None => (None, next)
    end.

Definition verify_compact (d : CompactReplayDocument) (tick : Z) (state_hash : Result str str)
    (p : ReplayPlayer) : ReplayPlayer * Result unit ReplayError :=
  let completed_tick := Z.max (next_tick p - 1) 0 in
  if negb (tick =? completed_tick) || (tick =? 0) then (p, Err (VerifySequence completed_tick tick))
  else
    let '(expected, next) := compact_expected_checkpoint d tick (next_checkpoint p) in
    let p := set_checks next (last_verified_tick p) (first_divergence p) p in
    match expected with
    | None => (p, Ok tt)
    | Some expected =>
        match state_hash with
        | Err e => (p, Err (Host e))
        | Ok actual =>
            if bool_decide (actual = expected) then
              (set_checks (next_checkpoint p) tick (first_divergence p) p, Ok tt)
            else
              let e := DivergedWithin (saturating_u64_add (last_verified_tick p) 1) tick expected actual in
              (set_checks (next_checkpoint p) (last_verified_tick p) (Some e) p, Err e)
        end
    end.

Definition verify_tick (tick : Z) (state_hash : Result str str) (p : ReplayPlayer) :
    ReplayPlayer * Result unit ReplayError :=
  match first_divergence p with
  | Some e => (p, Err e)
  | None =>
      match playback p with
      | Legacy d =>
          match rd_frames d !! (next_frame p - 1)%nat with
          | None => (p, Err (NoFrame tick))
          | Some frame =>
              match state_hash with
              | Err e => (p, Err (Host e))
              | Ok actual =>
                  if bool_decide (actual = fr_state_sha256 frame) then (p, Ok tt)
                  else (p, Err (DivergedAt tick (fr_state_sha256 frame) actual))
              end
          end
      | Compact d _ => verify_compact d tick state_hash p
      end
  end.

(** ** The reference of the tests

    [compact_input_at_tick], which the code keeps for its tests. *)

Fixpoint input_at (segments : list CompactInputSegment) (tick cursor : Z) (snapshot : CompactInputSnapshot) :
    option (Result CompactInputSnapshot ReplayError) :=
  match segments with
  | [] => Some (Err (NoSegment tick))
  | segment :: segments' =>
      let gap_end := cursor + tick_gap segment in
      if tick <=? gap_end then Some (Ok snapshot)
      else
        snapshot' ← apply_segment segment snapshot;
        let run_end := gap_end + run_ticks segment in
        if tick <=? run_end then Some (Ok snapshot') else input_at segments' tick run_end snapshot'
  end.

Definition compact_input_at_tick `{ReplayCodec} (d : CompactReplayDocument) (tick : Z) :
    option (Result CompactInputSnapshot ReplayError) :=
  let! _ := validate_compact_document d in
  let! _ := Some (ensure (negb ((tick =? 0) || (total_ticks d <? tick))) (NoFrame tick)) in
  input_at (segments d) tick 0 (initial_input d).
