(* ===== verification/RecordSegments.v ===== *)
(** * Input segments and the inputs they stand for

    [inputs] expands segments into the input of each tick.  A validated document has
    segments that apply without a panic and cover its ticks exactly; [diff_slots] gives
    changes that pass the validation and lead from one input to the other. *)

From S2P Require Import Prelude BTree Identity RecordData RecordDocument.
#[local] Open Scope Z_scope.

(** ** Fallible sequences *)

Lemma ensure_Ok b e v : ensure b e = Ok v ↔ b = true.
Proof. destruct b, v; simpl; by split. Qed.

Lemma fallible_Ok {A B} (r : option (Result A ReplayError)) (k : A → option (Result B ReplayError)) y :
  fallible_bind r k = Some (Ok y) ↔ ∃ x, r = Some (Ok x) ∧ k x = Some (Ok y).
Proof. destruct r as [[x|e]|]; simpl; split; [by eauto|by intros (? & [= <-] & ?)|done|by intros (? & ? & ?)|done|by intros (? & ? & ?)]. Qed.

Lemma result_Ok {A B E} (r : Result A E) (k : A → Result B E) y :
  result_bind r k = Ok y ↔ ∃ x, r = Ok x ∧ k x = Ok y.
Proof. destruct r as [x|e]; simpl; split; [by eauto|by intros (? & [= <-] & ?)|done|by intros (? & ? & ?)]. Qed.

Lemma ok_or_Ok {A E} (o : option A) (e : E) x : ok_or o e = Ok x ↔ o = Some x.
Proof. destruct o; simpl; split; congruence. Qed.

(** Inverts a chain of checks that succeeded. *)
Ltac inv_checks :=
  repeat match goal with
  | H : fallible_bind _ _ = Some (Ok _) |- _ => apply fallible_Ok in H as (? & ? & H)
  | H : result_bind _ _ = Ok _ |- _ => apply result_Ok in H as (? & ? & H)
  | H : Some (ensure _ _) = Some (Ok _) |- _ => apply (inj Some) in H
  | H : Some (ok_or _ _) = Some (Ok _) |- _ => apply (inj Some) in H
  | H : ensure _ _ = Ok _ |- _ => apply ensure_Ok in H
  | H : ok_or _ _ = Ok _ |- _ => apply ok_or_Ok in H
  end.

(** ** Changes *)

(** Changes that pass the validation against [values], after slot [previous]. *)
Inductive changes_ok (values : list Z) : option nat → list CompactChange → Prop :=
| changes_nil previous : changes_ok values previous []
| changes_cons previous c changes :
    (ch_slot c < length values)%nat → (∀ p, previous = Some p → (p < ch_slot c)%nat) →
    values !! ch_slot c ≠ Some (ch_value c) → changes_ok values (Some (ch_slot c)) changes →
    changes_ok values previous (c :: changes).

Lemma validate_changes_Ok lane i previous values changes v :
  validate_changes lane i previous values changes = Ok v ↔ changes_ok values previous changes.
Proof.
  revert previous. induction changes as [|c changes IH]; intros previous; cbn [validate_changes].
  { destruct v. split; [constructor|done]. }
  split.
  - intros H. inv_checks. constructor.
    + by apply Nat.ltb_lt.
    + intros p ->. by apply Nat.ltb_lt.
    + to_props. done.
    + by apply IH.
  - intros H. inversion H as [|? ? ? H1 H2 H3 H4]; subst. rewrite (proj2 (Nat.ltb_lt _ _) H1).
    replace (match previous with Some p => (p <? ch_slot c)%nat | None => true end) with true.
    2: { destruct previous as [p|]; [|done]. symmetry. apply Nat.ltb_lt. by apply H2. }
    rewrite bool_decide_false by done. simpl. by apply IH.
Qed.

Lemma apply_slots_total values values' previous changes :
  changes_ok values previous changes → length values' = length values →
  ∃ result, apply_slots changes values' = Some result ∧ length result = length values.
Proof.
  intros H. revert values'. induction H as [previous|previous c changes Hr _ _ _ IH]; intros values' Hl.
  { by exists values'. }
  simpl. rewrite Hl, (proj2 (Nat.ltb_lt _ _) Hr). apply IH. by rewrite length_insert.
Qed.

Lemma apply_slots_app c1 c2 values :
  apply_slots (c1 ++ c2) values = apply_slots c1 values ≫= apply_slots c2.
Proof.
  revert values. induction c1 as [|c c1 IH]; intros values; simpl; [done|]. by case_match.
Qed.

(** The difference of two inputs leads from one to the other. *)
Lemma apply_diff i prefix previous current :
  length prefix = i → length previous = length current →
  apply_slots ((λ e, mkChange e.1 e.2) <$> diff_from i previous current) (prefix ++ previous)
  = Some (prefix ++ current).
Proof.
  revert i prefix current. induction previous as [|p previous IH]; intros i prefix [|c current] Hi Hl;
    simplify_eq/=; [done|].
  assert (∀ x, prefix ++ x :: current = (prefix ++ [x]) ++ current) as Hsnoc by (intros; by rewrite <- app_assoc).
  case_bool_decide as Hpc; simpl.
  - subst. rewrite !Hsnoc. replace (prefix ++ c :: previous) with ((prefix ++ [c]) ++ previous)
      by (by rewrite <- app_assoc).
    apply IH; [|done]. rewrite length_app. simpl. lia.
  - rewrite (proj2 (Nat.ltb_lt _ _)) by (rewrite length_app; simpl; lia).
    rewrite insert_app_r_alt, Nat.sub_diag by lia. simpl.
    replace (prefix ++ c :: previous) with ((prefix ++ [c]) ++ previous) by (by rewrite <- app_assoc).
    rewrite Hsnoc. apply IH; [|done]. rewrite length_app. simpl. lia.
Qed.

Lemma diff_changes_ok values i previous current p :
  length previous = length current → (i + length previous ≤ length values)%nat →
  (∀ j, (j < length previous)%nat → values !! (i + j)%nat = previous !! j) →
  (∀ q, p = Some q → (q < i)%nat) →
  changes_ok values p ((λ e, mkChange e.1 e.2) <$> diff_from i previous current).
Proof.
  revert i current p. induction previous as [|x previous IH]; intros i [|c current] p Hl Hr Hv Hp;
    simplify_eq/=; [constructor|].
  assert (∀ j, (j < length previous)%nat → values !! (S i + j)%nat = previous !! j) as Hv'.
  { intros j Hj. specialize (Hv (S j) ltac:(lia)). by rewrite Nat.add_succ_r in Hv. }
  case_bool_decide as Hxc; simpl.
  - apply IH; [done|lia|done|]. intros q Hq. specialize (Hp q Hq). lia.
  - constructor; simpl; [lia|done| |].
    + specialize (Hv 0%nat ltac:(lia)). rewrite Nat.add_0_r in Hv. rewrite Hv. simpl. congruence.
    + apply IH; [done|lia|done|]. intros q [= <-]. lia.
Qed.

Lemma diff_slots_ok previous current :
  length previous = length current →
  changes_ok previous None (diff_slots previous current)
  ∧ apply_slots (diff_slots previous current) previous = Some current.
Proof.
  intros Hl. split; [|by apply (apply_diff 0 [])].
  apply diff_changes_ok; [done|lia|done|done].
Qed.

(** ** Snapshots and segments *)

Definition same_shape (a b : CompactInputSnapshot) : Prop :=
  length (i32_values a) = length (i32_values b) ∧ length (f32_bits a) = length (f32_bits b).

#[export] Instance same_shape_equiv : Equivalence same_shape.
Proof. split; unfold same_shape; repeat intro; intuition congruence. Qed.

Record segment_ok (s : CompactInputSnapshot) (g : CompactInputSegment) : Prop := {
  so_gap : 0 ≤ tick_gap g;
  so_run : 1 ≤ run_ticks g;
  so_i32 : changes_ok (i32_values s) None (i32_changes g);
  so_f32 : changes_ok (f32_bits s) None (f32_changes g);
  so_count : len (i32_changes g) + len (f32_changes g) ≤ MAX_COMPACT_CHANGES_PER_SEGMENT;
}.

(** The input after a segment began to run. *)
Definition after (g : CompactInputSegment) (s : CompactInputSnapshot) : CompactInputSnapshot :=
  default s (apply_segment g s).

Lemma apply_segment_after g s s' : apply_segment g s = Some s' → after g s = s'.
Proof. unfold after. by intros ->. Qed.

Lemma apply_segment_ok s g :
  segment_ok s g → apply_segment g s = Some (after g s) ∧ same_shape (after g s) s.
Proof.
  intros H. unfold after, apply_segment.
  destruct (apply_slots_total _ (i32_values s) _ _ (so_i32 _ _ H) eq_refl) as (v & -> & Hv).
  destruct (apply_slots_total _ (f32_bits s) _ _ (so_f32 _ _ H) eq_refl) as (b & -> & Hb). done.
Qed.

Inductive segments_ok : CompactInputSnapshot → list CompactInputSegment → Prop :=
| segments_nil s : segments_ok s []
| segments_cons s g segments :
    segment_ok s g → segments_ok (after g s) segments → segments_ok s (g :: segments).

(** The ticks segments cover, the input after them and the input of each tick. *)
Definition covered (segments : list CompactInputSegment) : Z :=
  foldr (λ g n, tick_gap g + run_ticks g + n) 0 segments.

Definition input_after (segments : list CompactInputSegment) (s : CompactInputSnapshot) :
    CompactInputSnapshot :=
  foldl (λ s g, after g s) s segments.

Fixpoint inputs (segments : list CompactInputSegment) (s : CompactInputSnapshot) :
    list CompactInputSnapshot :=
  match segments with
  | [] => []
  | g :: segments' =>
      replicate (Z.to_nat (tick_gap g)) s ++ replicate (Z.to_nat (run_ticks g)) (after g s)
      ++ inputs segments' (after g s)
  end.

Lemma covered_app a b : covered (a ++ b) = covered a + covered b.
Proof. induction a as [|g a IH]; simpl; [done|]. rewrite IH. lia. Qed.

Lemma input_after_app a b s : input_after (a ++ b) s = input_after b (input_after a s).
Proof. unfold input_after. by rewrite foldl_app. Qed.

Lemma inputs_app a b s : inputs (a ++ b) s = inputs a s ++ inputs b (input_after a s).
Proof.
  revert s. induction a as [|g a IH]; intros s; simpl; [done|]. by rewrite IH, !app_assoc.
Qed.

Lemma segments_ok_app a b s : segments_ok s (a ++ b) ↔ segments_ok s a ∧ segments_ok (input_after a s) b.
Proof.
  revert s. induction a as [|g a IH]; intros s; simpl.
  { split; [split; [constructor|done]|by intros []]. }
  split.
  - intros H. inversion H; subst. split; [constructor; [done|]|]; by apply IH.
  - intros [H Hb]. inversion H; subst. constructor; [done|]. by apply IH.
Qed.

Lemma covered_range s segments : segments_ok s segments → len segments ≤ covered segments.
Proof.
  induction 1 as [|s g segments Hg _ IH]; simpl; [done|]. unfold len in *. simpl.
  pose proof (so_gap _ _ Hg). pose proof (so_run _ _ Hg). lia.
Qed.

Lemma length_inputs s segments : segments_ok s segments → len (inputs segments s) = covered segments.
Proof.
  unfold len. induction 1 as [|s g segments Hg _ IH]; simpl; [done|].
  pose proof (so_gap _ _ Hg). pose proof (so_run _ _ Hg).
  rewrite !length_app, !length_replicate. lia.
Qed.

Lemma inputs_shape s segments x : segments_ok s segments → x ∈ inputs segments s → same_shape x s.
Proof.
  induction 1 as [|s g segments Hg _ IH]; simpl; [by intros ?%elem_of_nil|].
  destruct (apply_segment_ok s g Hg) as [_ Hsh]. rewrite !elem_of_app.
  intros [Hx|[Hx|Hx]].
  - apply elem_of_replicate_inv in Hx as ->. done.
  - by apply elem_of_replicate_inv in Hx as ->.
  - etrans; [by apply IH|done].
Qed.

(** ** Validation of segments *)

Definition typed_segment (g : CompactInputSegment) : Prop := in_u 64 (tick_gap g) ∧ in_u 64 (run_ticks g).

Lemma validate_apply_Ok s g i s' :
  validate_and_apply_compact_changes s g i = Some (Ok s') →
  changes_ok (i32_values s) None (i32_changes g) ∧ changes_ok (f32_bits s) None (f32_changes g)
  ∧ apply_segment g s = Some s'.
Proof.
  unfold validate_and_apply_compact_changes. intros H. inv_checks.
  destruct (apply_segment g s) as [t|] eqn:E; [|done]. simplify_eq/=.
  by split_and!; [eapply validate_changes_Ok..|].
Qed.

Lemma validate_segments_Ok total i segments s cursor e :
  Forall typed_segment segments → 0 ≤ cursor →
  validate_segments total i segments s cursor = Some (Ok e) →
  segments_ok s segments ∧ e = cursor + covered segments
  ∧ (segments ≠ [] → e ≤ total)
  ∧ (∀ g rest, segments = g :: rest → i = 0%nat → tick_gap g = 0).
Proof.
  intros Ht. revert i s cursor. induction Ht as [|g segments [Hgap Hrun] _ IH]; intros i s cursor Hc H;
    cbn [validate_segments] in H.
  { simplify_eq. split_and!; [constructor|simpl; lia|done|done]. }
  inv_checks. rename select (validate_and_apply_compact_changes _ _ _ = _) into Happly.
  apply validate_apply_Ok in Happly as (H1' & H2' & H3').
  repeat match goal with H : checked_u _ _ = Some _ |- _ => apply checked_u_Some in H as [? ->] end.
  to_props. assert (segment_ok s g) as Hg.
  { unfold in_u in *. split; try done; lia. }
  rewrite <- (apply_segment_after _ _ _ H3') in H.
  apply IH in H as (Hok & He & Htot & _); [|unfold in_u in *; lia]. simpl.
  split_and!.
  - by constructor.
  - lia.
  - intros _. destruct segments; [simpl in He; lia|]. by apply Htot.
  - intros g' rest [= <- <-] ->. simpl in *. lia.
Qed.

(** Segments that fit the ticks of a document are accepted. *)
Lemma validate_segments_complete total i segments s cursor :
  segments_ok s segments → 0 ≤ cursor → cursor + covered segments ≤ total → total ≤ u64_max →
  (∀ g rest, segments = g :: rest → i = 0%nat → tick_gap g = 0) →
  validate_segments total i segments s cursor = Some (Ok (cursor + covered segments)).
Proof.
  intros H. revert i cursor. induction H as [s|s g segments Hg Hok IH]; intros i cursor Hc Htot Hmax H0;
    cbn [validate_segments covered foldr].
  { simpl. by rewrite Z.add_0_r. }
  destruct (apply_segment_ok s g Hg) as [Happ _]. pose proof (covered_range _ _ Hok) as Hcov.
  unfold len in Hcov. destruct Hg as [Hgap Hrun H1 H2 Hcount]. fold (covered segments) in *.
  cbn [covered foldr] in Htot. fold (covered segments) in Htot.
  assert ((i =? 0)%nat && negb (tick_gap g =? 0) = false) as ->.
  { destruct (Nat.eqb_spec i 0); [|done]. simpl. by rewrite (H0 _ _ eq_refl). }
  assert (checked_u 64 (len (i32_changes g) + len (f32_changes g))
          = Some (len (i32_changes g) + len (f32_changes g))) as ->.
  { apply checked_u_Some. split; [|done]. unfold in_u, len, MAX_COMPACT_CHANGES_PER_SEGMENT in *. lia. }
  assert (checked_u 64 (cursor + tick_gap g) = Some (cursor + tick_gap g)) as ->.
  { apply checked_u_Some. split; [|done]. unfold in_u, u64_max in *. lia. }
  simpl. rewrite (proj2 (Z.eqb_neq _ _)) by lia. rewrite (proj2 (Z.leb_le _ _) Hcount). simpl.
  assert (checked_u 64 (cursor + tick_gap g + run_ticks g) = Some (cursor + tick_gap g + run_ticks g)) as ->.
  { apply checked_u_Some. split; [|done]. unfold in_u, u64_max in *. lia. }
  simpl. rewrite (proj2 (Z.leb_le _ _)) by lia. simpl.
  unfold validate_and_apply_compact_changes.
  rewrite (proj2 (validate_changes_Ok LaneI32 i None _ _ tt) H1).
  rewrite (proj2 (validate_changes_Ok LaneF32 i None _ _ tt) H2). simpl. rewrite Happ. simpl.
  rewrite IH by (lia || done). do 2 f_equal. lia.
Qed.
