(* ===== verification/RecordReplay.v ===== *)
(** * Replays of accepted recordings

    [replay] plays a recording tick after tick and verifies the hash of the state
    after each.  For every document the validation accepts it never panics, shows the
    observed fields of the host frame exactly as recorded, and stops at the first
    checkpoint whose hash differs. *)

From S2P Require Import Prelude BTree Identity RecordData RecordDocument Recorder ReplayPlayer.
From S2P Require Import RecordSegments.
#[local] Open Scope Z_scope.

(** * Playback gives the inputs of a document

    The player moves through the segments with a cursor; tick after tick its snapshot
    is the input [inputs] gives, and the reference [compact_input_at_tick] agrees. *)

(** ** The cursor *)

(** The cursor after tick [t]: it stands at a segment that tick is in, or at the
    first one, and has applied its changes once its run began. *)
Record cursor_ok (segments : list CompactInputSegment) (s : CompactInputSnapshot) (t : Z)
    (c : CompactCursor) : Prop := {
  ck_cursor : segment_cursor c = covered (take (segment_index c) segments);
  ck_state : ∃ g rest, drop (segment_index c) segments = g :: rest
    ∧ segment_cursor c ≤ t ≤ segment_cursor c + tick_gap g + run_ticks g
    ∧ segment_applied c = (segment_cursor c + tick_gap g <? t)
    ∧ cursor_snapshot c =
        (if segment_applied c then after g (input_after (take (segment_index c) segments) s)
         else input_after (take (segment_index c) segments) s);
}.

Lemma take_drop_step {A} (l : list A) n x rest :
  drop n l = x :: rest → take (S n) l = take n l ++ [x] ∧ drop (S n) l = rest.
Proof.
  intros H. assert (l !! n = Some x) as Hx by (rewrite <- (Nat.add_0_r n), <- lookup_drop, H; done).
  split; [by apply take_S_r|]. replace (S n) with (n + 1)%nat by lia.
  rewrite <- drop_drop, H. done.
Qed.

Lemma lookup_segment g segments s j :
  0 ≤ tick_gap g → 0 ≤ run_ticks g → 0 ≤ j →
  inputs (g :: segments) s !! Z.to_nat j =
    if j <? tick_gap g then Some s
    else if j <? tick_gap g + run_ticks g then Some (after g s)
    else inputs segments (after g s) !! Z.to_nat (j - tick_gap g - run_ticks g).
Proof.
  intros Hg Hr Hj. cbn [inputs]. destruct (Z.ltb_spec j (tick_gap g)).
  { rewrite lookup_app_l by (rewrite length_replicate; lia). apply lookup_replicate. split; [done|lia]. }
  rewrite lookup_app_r by (rewrite length_replicate; lia). rewrite length_replicate.
  destruct (Z.ltb_spec j (tick_gap g + run_ticks g)).
  { rewrite lookup_app_l by (rewrite length_replicate; lia). apply lookup_replicate. split; [done|lia]. }
  rewrite lookup_app_r by (rewrite length_replicate; lia). rewrite length_replicate. f_equal. lia.
Qed.

Lemma advance_spec segments s t c rest :
  segments_ok s segments → covered segments ≤ u64_max → t + 1 ≤ covered segments →
  cursor_ok segments s t c → rest = drop (segment_index c) segments →
  ∃ c', advance_compact_snapshot rest (t + 1) c = Some (c', Ok tt)
    ∧ cursor_ok segments s (t + 1) c'
    ∧ inputs (drop (segment_index c) segments) (input_after (take (segment_index c) segments) s)
        !! Z.to_nat (t - segment_cursor c) = Some (cursor_snapshot c').
Proof.
  intros Hok Hmax Ht. revert c. induction rest as [|g rest IH]; intros c [Hcur (g' & rest' & Hd & Hr & Ha & Hs)] Hrest;
    [congruence|].
  assert (g' = g ∧ rest' = rest) as [-> ->] by (split; congruence). clear Hrest.
  set (before := take (segment_index c) segments) in *.
  assert (segments = before ++ g :: rest) as Hseg by (subst before; rewrite <- Hd; by rewrite take_drop).
  assert (segments_ok (input_after before s) (g :: rest)) as Hok'.
  { rewrite Hseg in Hok. by apply segments_ok_app in Hok as [_ ?]. }
  inversion_clear Hok' as [|? ? ? Hg Hrest]. destruct (apply_segment_ok _ _ Hg) as [Happ _].
  pose proof (so_gap _ _ Hg). pose proof (so_run _ _ Hg). pose proof (covered_range _ _ Hrest) as Hcov.
  assert (covered segments = segment_cursor c + tick_gap g + run_ticks g + covered rest) as Htot.
  { rewrite Hseg, covered_app, Hcur. simpl. lia. }
  assert (0 ≤ segment_cursor c) as Hc0.
  { rewrite Hcur. rewrite Hseg in Hok. apply segments_ok_app in Hok as [Hb _].
    apply covered_range in Hb. unfold len in *. lia. }
  unfold len in *. cbn [advance_compact_snapshot]. rewrite Hd, lookup_segment by lia.
  rewrite (proj2 (checked_u_Some 64 _ _)) by (split; [unfold in_u, u64_max in *; lia|done]).
  destruct (Z.leb_spec (t + 1) (segment_cursor c + tick_gap g)) as [Hgap|Hgap].
  { exists c. assert (segment_applied c = false) as Hf by (rewrite Ha; apply Z.ltb_ge; lia).
    rewrite Hf in Hs. split; [done|]. split.
    - split; [done|]. exists g, rest. rewrite Hf. split_and!; [done|lia|lia| |done].
      symmetry. apply Z.ltb_ge. lia.
    - rewrite (proj2 (Z.ltb_lt _ _)) by lia. by rewrite Hs. }
  rewrite (proj2 (checked_u_Some 64 _ _)) by (split; [unfold in_u, u64_max in *; lia|done]).
  rewrite (proj2 (Z.ltb_ge (t - _) _)) by lia.
  destruct (Z.leb_spec (t + 1) (segment_cursor c + tick_gap g + run_ticks g)) as [Hrun|Hrun].
  - rewrite (proj2 (Z.ltb_lt (t - _) _)) by lia.
    set (c' := mkCursor (segment_index c) (segment_cursor c) true (after g (input_after before s))).
    assert (cursor_ok segments s (t + 1) c') as Hc'.
    { split; [done|]. exists g, rest. simpl. split_and!; [done|lia|lia| |done]. symmetry. apply Z.ltb_lt. lia. }
    destruct (segment_applied c) eqn:E.
    + exists c. rewrite <- Hs. split; [done|]. split; [|done].
      replace c with c'; [done|]. subst c'. rewrite <- Hs. destruct c. simpl in *. by rewrite E.
    + rewrite Hs, Happ. simpl. by exists c'.
  - rewrite (proj2 (Z.ltb_ge (t - _) _)) by lia.
    assert (segment_applied c = true) as E by (rewrite Ha; apply Z.ltb_lt; lia). rewrite E in Hs.
    destruct (take_drop_step _ _ _ _ Hd) as [Htk Hdr].
    destruct rest as [|g2 rest]; [simpl in Htot; lia|].
    inversion_clear Hrest as [|? ? ? Hg2 _]. pose proof (so_gap _ _ Hg2). pose proof (so_run _ _ Hg2).
    set (c2 := mkCursor (S (segment_index c)) (segment_cursor c + tick_gap g + run_ticks g) false
                 (cursor_snapshot c)).
    assert (cursor_ok segments s t c2) as Hc2.
    { split; simpl.
      - rewrite Htk, covered_app, Hcur. simpl. subst before. lia.
      - exists g2, rest. rewrite Hdr, Htk, input_after_app. split_and!; [done|lia|lia| |by rewrite Hs].
        symmetry. apply Z.ltb_ge. lia. }
    destruct (IH c2 Hc2 (eq_sym Hdr)) as (c' & -> & Hc' & Hl). exists c'. split; [done|]. split; [done|].
    simpl in Hl. rewrite Hdr, Htk, input_after_app in Hl. simpl in Hl. rewrite <- Hl. f_equal. lia.
Qed.

(** The input of a tick, and the cursor after it. *)
Lemma advance_exact segments s t c :
  segments_ok s segments → covered segments ≤ u64_max → t + 1 ≤ covered segments →
  cursor_ok segments s t c →
  ∃ c', advance_compact_snapshot (drop (segment_index c) segments) (t + 1) c = Some (c', Ok tt)
    ∧ cursor_ok segments s (t + 1) c' ∧ inputs segments s !! Z.to_nat t = Some (cursor_snapshot c').
Proof.
  intros Hok Hmax Ht Hc. destruct (advance_spec _ _ _ _ _ Hok Hmax Ht Hc eq_refl) as (c' & E & Hc' & Hl).
  exists c'. split_and!; [done..|]. rewrite <- Hl.
  destruct Hc as [Hcur (g & rest & _ & Hr & _)]. set (n := segment_index c) in *.
  rewrite <- (take_drop n segments) at 1. rewrite inputs_app.
  assert (segments_ok s (take n segments)) as Hb.
  { rewrite <- (take_drop n segments) in Hok. by apply segments_ok_app in Hok as [? _]. }
  pose proof (length_inputs _ _ Hb) as Hlen. rewrite <- Hcur in Hlen. unfold len in Hlen.
  rewrite lookup_app_r by lia. f_equal. lia.
Qed.

Lemma cursor_start segments s :
  segments_ok s segments → segments ≠ [] → cursor_ok segments s 0 (mkCursor 0 0 false s).
Proof.
  intros Hok Hne. split; [done|]. destruct Hok as [|s g rest Hg Hrest]; [done|].
  pose proof (so_gap _ _ Hg). pose proof (so_run _ _ Hg). exists g, rest. simpl.
  split_and!; [done|lia|lia| |done]. symmetry. apply Z.ltb_ge. lia.
Qed.

(** The reference of the tests. *)
Lemma input_at_exact segments s tick cursor :
  segments_ok s segments → cursor < tick ≤ cursor + covered segments →
  ∃ x, input_at segments tick cursor s = Some (Ok x)
    ∧ inputs segments s !! Z.to_nat (tick - cursor - 1) = Some x.
Proof.
  intros H. revert cursor. induction H as [s|s g segments Hg Hok IH]; intros cursor Ht; cbn [input_at].
  { simpl in Ht. lia. }
  destruct (apply_segment_ok _ _ Hg) as [Happ _]. pose proof (so_gap _ _ Hg). pose proof (so_run _ _ Hg).
  rewrite lookup_segment by lia.
  destruct (Z.leb_spec tick (cursor + tick_gap g)).
  { rewrite (proj2 (Z.ltb_lt _ _)) by lia. by eexists. }
  rewrite (proj2 (Z.ltb_ge _ (tick_gap g))) by lia. rewrite Happ. simpl.
  destruct (Z.leb_spec tick (cursor + tick_gap g + run_ticks g)).
  { rewrite (proj2 (Z.ltb_lt _ _)) by lia. by eexists. }
  rewrite (proj2 (Z.ltb_ge _ _)) by lia. cbn [covered foldr] in Ht. fold (covered segments) in Ht.
  destruct (IH (cursor + tick_gap g + run_ticks g)) as (x & -> & Hx); [lia|]. exists x. split; [done|].
  rewrite <- Hx. f_equal. lia.
Qed.

(** * Replays *)

(** ** What the validation establishes *)

Definition fields_ok (fields : list CompactField) (host_count : Z) : Prop :=
  (∀ i f, fields !! i = Some f → fd_slot f = i ∧ Z.of_nat (fd_index f) < host_count)
  ∧ NoDup (fd_index <$> fields).

Record document_ok (d : CompactReplayDocument) : Prop := {
  dk_fields_i32 : fields_ok (id_observed_i32 (identity d)) (id_host_i32_count (identity d));
  dk_fields_f32 : fields_ok (id_observed_f32 (identity d)) (id_host_f32_count (identity d));
  dk_host_i32 : 0 < id_host_i32_count (identity d);
  dk_host_f32 : 0 < id_host_f32_count (identity d);
  dk_input_i32 : length (i32_values (initial_input d)) = length (id_observed_i32 (identity d));
  dk_input_f32 : length (f32_bits (initial_input d)) = length (id_observed_f32 (identity d));
  dk_total : 0 < total_ticks d ≤ MAX_REPLAY_FRAMES;
  dk_nonempty : segments d ≠ [];
  dk_segments : segments_ok (initial_input d) (segments d);
  dk_covered : covered (segments d) = total_ticks d;
  dk_count : len (checkpoints d) = total_ticks d `div` COMPACT_CHECKPOINT_INTERVAL;
  dk_checkpoints : ∀ i c, checkpoints d !! i = Some c → cp_tick c = (Z.of_nat i + 1) * COMPACT_CHECKPOINT_INTERVAL;
  dk_final : cp_tick (final_state d) = total_ticks d;
  dk_last : ∀ c, last (checkpoints d) = Some c → cp_tick c = total_ticks d →
    cp_state_sha256 c = cp_state_sha256 (final_state d);
}.

Lemma fields_from_ok lane count i previous fields v :
  validate_fields_from lane count i previous fields = Ok v →
  (∀ j f, fields !! j = Some f → fd_slot f = (i + j)%nat ∧ Z.of_nat (fd_index f) < count
     ∧ (∀ p, previous = Some p → (p < fd_index f)%nat))
  ∧ NoDup (fd_index <$> fields).
Proof.
  revert i previous. induction fields as [|f fields IH]; intros i previous H; cbn [validate_fields_from] in H.
  { split; [done|]. apply NoDup_nil_2. }
  inv_checks. apply IH in H as [Hf Hnd]. to_props.
  assert (∀ p, previous = Some p → (p < fd_index f)%nat) as Hp.
  { intros p ->. by apply Nat.ltb_lt. }
  split.
  - intros [|j] f' Hj; simplify_eq/=.
    + rewrite Nat.add_0_r. by split_and!.
    + destruct (Hf j f' Hj) as (Hf1 & Hf2 & Hf3). rewrite Nat.add_succ_r. split_and!; [done..|].
      intros p Hpp. specialize (Hp p Hpp). specialize (Hf3 _ eq_refl). lia.
  - cbn. apply NoDup_cons. split; [|done].
    intros (f' & Ef & (j & Hj)%list_elem_of_lookup)%list_elem_of_fmap.
    destruct (Hf j f' Hj) as (_ & _ & Hf3). specialize (Hf3 _ eq_refl). lia.
Qed.

Lemma fields_validated lane fields count v : validate_compact_fields lane fields count = Ok v → fields_ok fields count.
Proof.
  intros [Hf Hnd]%fields_from_ok. split; [|done]. intros i f Hi. by destruct (Hf i f Hi) as (? & ? & _).
Qed.

Lemma checkpoints_validated i checkpoints v :
  validate_checkpoints i checkpoints = Ok v →
  ∀ j c, checkpoints !! j = Some c → cp_tick c = (Z.of_nat (i + j) + 1) * COMPACT_CHECKPOINT_INTERVAL.
Proof.
  revert i. induction checkpoints as [|c cs IH]; intros i H [|j] c' Hj; simplify_eq/=; inv_checks; to_props.
  - by rewrite Nat.add_0_r.
  - rewrite Nat.add_succ_r. by apply (IH (S i)).
Qed.

Lemma last_agrees cs total final :
  last_checkpoint_agrees cs total final = true →
  ∀ c, last cs = Some c → cp_tick c = total → cp_state_sha256 c = cp_state_sha256 final.
Proof.
  unfold last_checkpoint_agrees. intros H c E Hc. rewrite E, Hc, Z.eqb_refl in H. simpl in H. by to_props.
Qed.

Lemma document_validated `{ReplayCodec} d :
  Forall typed_segment (segments d) → 0 ≤ id_host_i32_count (identity d) → 0 ≤ id_host_f32_count (identity d) →
  validate_compact_document d = Some (Ok tt) → document_ok d.
Proof.
  intros Ht Hi Hf Hv. unfold validate_compact_document, validate_identity in Hv. inv_checks.
  repeat match goal with H : Some (result_bind _ _) = Some (Ok _) |- _ => apply (inj Some) in H end.
  inv_checks. rename select (validate_segments _ _ _ _ _ = _) into Hs. to_props.
  apply validate_segments_Ok in Hs as (Hok & He & _ & _); [|done|lia].
  pose proof (covered_range _ _ Hok) as Hcov. unfold len in Hcov. unfold host_dimensions_ok in *. to_props.
  split; try (by eapply fields_validated); try done; try lia; try congruence.
  - intros i c Hc. by eapply (checkpoints_validated 0); [apply (inj Some); eassumption|].
  - by apply last_agrees.
Qed.

(** ** The host frame of an input *)

(** [host] shows the observed [values] where their fields stand and 0 elsewhere. *)
Definition shows (fields : list CompactField) (host_count : Z) (values host : list Z) : Prop :=
  len host = host_count
  ∧ (∀ f, f ∈ fields → is_Some (host !! fd_index f) ∧ host !! fd_index f = values !! fd_slot f)
  ∧ ∀ j, (j < length host)%nat → (j ∉ (fd_index <$> fields)) → host !! j = Some 0.

Lemma place_spec lane fields values host count :
  len host = count → NoDup (fd_index <$> fields) →
  (∀ f, f ∈ fields → (fd_slot f < length values)%nat ∧ Z.of_nat (fd_index f) < count) →
  ∃ host', place lane fields values host = Some (host', Ok tt) ∧ len host' = count
    ∧ (∀ f, f ∈ fields → is_Some (host' !! fd_index f) ∧ host' !! fd_index f = values !! fd_slot f)
    ∧ ∀ j, (j ∉ (fd_index <$> fields)) → host' !! j = host !! j.
Proof.
  revert host. induction fields as [|f fields IH]; intros host Hl Hnd Hf; cbn [place].
  { exists host. split_and!; [done..| |done]. intros f Hf'. by apply elem_of_nil in Hf'. }
  cbn in Hnd. apply NoDup_cons in Hnd as [Hnew Hnd].
  destruct (Hf f ltac:(left)) as [Hs Hi]. destruct (lookup_lt_is_Some_2 _ _ Hs) as [v Hv]. rewrite Hv. simpl.
  assert ((fd_index f < length host)%nat) as Hr by (unfold len in *; lia).
  rewrite (proj2 (Nat.ltb_lt _ _) Hr).
  destruct (IH (<[fd_index f:=v]> host)) as (host' & E & Hl' & Hin & Hout).
  { unfold len in *. by rewrite length_insert. } { done. }
  { intros f' Hf'. apply Hf. by right. }
  exists host'. split_and!; [done|done| |].
  - intros f' [->|Hf']%elem_of_cons; [|by apply Hin].
    rewrite Hout by done. rewrite list_lookup_insert_eq by done. by rewrite Hv.
  - intros j Hj. cbn in Hj. apply not_elem_of_cons in Hj as [Hj1 Hj2].
    rewrite Hout by done. by rewrite list_lookup_insert_ne by done.
Qed.

Lemma place_shows lane fields values count :
  fields_ok fields count → 0 < count → length values = length fields →
  ∃ host, place lane fields values (replicate (Z.to_nat count) 0) = Some (host, Ok tt)
    ∧ shows fields count values host.
Proof.
  intros [Hf Hnd] Hc Hl.
  assert (len (replicate (Z.to_nat count) 0) = count) as Hrep.
  { unfold len. rewrite length_replicate. lia. }
  destruct (place_spec lane fields values (replicate (Z.to_nat count) 0) count) as (host & E & Hlen & Hin & Hout);
    [done|done| |].
  { intros f (i & Hi)%list_elem_of_lookup. destruct (Hf i f Hi) as [-> ?]. split; [|done].
    rewrite Hl. by eapply lookup_lt_Some. }
  exists host. split; [done|]. split; [done|]. split; [done|]. intros j Hj Hnot.
  rewrite Hout by done. apply lookup_replicate. split; [done|]. unfold len in *.
  rewrite length_replicate in Hrep. lia.
Qed.

(** ** The player between ticks *)

(** The last tick up to [t] whose hash is compared. *)
Definition last_check (total t : Z) : Z :=
  if t =? total then total else t `div` COMPACT_CHECKPOINT_INTERVAL * COMPACT_CHECKPOINT_INTERVAL.

(** The hash a document gives for tick [t], if it gives one. *)
Definition expected_hash (d : CompactReplayDocument) (t : Z) : option str :=
  if t =? total_ticks d then Some (cp_state_sha256 (final_state d))
  else if t `mod` COMPACT_CHECKPOINT_INTERVAL =? 0
  then cp_state_sha256 <$> checkpoints d !! Z.to_nat (t `div` COMPACT_CHECKPOINT_INTERVAL - 1)
  else None.

Record player_ok (d : CompactReplayDocument) (t : Z) (p : ReplayPlayer) : Prop := {
  py_cursor : ∃ c, playback p = Compact d c ∧ cursor_ok (segments d) (initial_input d) t c;
  py_next : next_tick p = t + 1;
  py_i32 : len (player_i32 p) = id_host_i32_count (identity d);
  py_f32 : len (player_f32 p) = id_host_f32_count (identity d);
}.

Record checks_ok (d : CompactReplayDocument) (t : Z) (p : ReplayPlayer) : Prop := {
  pc_checkpoint : Z.of_nat (next_checkpoint p) = t `div` COMPACT_CHECKPOINT_INTERVAL;
  pc_verified : last_verified_tick p = last_check (total_ticks d) t;
  pc_divergence : first_divergence p = None;
}.

Lemma compact_player_ok d c : document_ok d → player_ok d 0 (compact_player d c) ∧ checks_ok d 0 (compact_player d c).
Proof.
  intros H. pose proof (dk_host_i32 _ H). pose proof (dk_host_f32 _ H). pose proof (dk_total _ H).
  split; split; simpl; try done.
  - eexists. split; [done|]. apply cursor_start; [by apply dk_segments|by apply dk_nonempty].
  - unfold len. rewrite length_replicate. lia.
  - unfold len. rewrite length_replicate. lia.
  - unfold last_check. rewrite (proj2 (Z.eqb_neq _ _)) by lia. done.
Qed.

(** What the host frame of a tick shows. *)
Definition frame_shows (d : CompactReplayDocument) (s : CompactInputSnapshot) (frame : list Z * list Z) : Prop :=
  shows (id_observed_i32 (identity d)) (id_host_i32_count (identity d)) (i32_values s) frame.1
  ∧ shows (id_observed_f32 (identity d)) (id_host_f32_count (identity d)) (f32_bits s) frame.2.

(** The player plays its next tick. *)
Definition play_next (p : ReplayPlayer) : option Played :=
  apply_next (next_tick p) (length (player_i32 p)) (length (player_f32 p)) p.

Lemma play_next_ok d t p :
  document_ok d → player_ok d t p → 0 ≤ t < total_ticks d →
  ∃ p' frame s, play_next p = Some (p', Ok frame) ∧ player_ok d (t + 1) p'
    ∧ inputs (segments d) (initial_input d) !! Z.to_nat t = Some s ∧ frame_shows d s frame
    ∧ next_checkpoint p' = next_checkpoint p ∧ last_verified_tick p' = last_verified_tick p
    ∧ first_divergence p' = first_divergence p.
Proof.
  intros Hd [(c & Hp & Hc) Hn Hi Hf] Ht. pose proof (dk_total _ Hd). pose proof (dk_covered _ Hd) as Hcov.
  unfold play_next, apply_next. rewrite !Nat.eqb_refl, Hp. simpl. unfold apply_compact.
  rewrite Z.eqb_refl, Hn. simpl. rewrite (proj2 (Z.ltb_ge _ _)) by lia.
  unfold MAX_REPLAY_FRAMES in *.
  destruct (advance_exact (segments d) (initial_input d) t c) as (c' & -> & Hc' & Hs);
    [by apply dk_segments|unfold u64_max; lia|lia|done|]. simpl.
  assert (same_shape (cursor_snapshot c') (initial_input d)) as [Hsi Hsf].
  { eapply inputs_shape; [by apply dk_segments|]. by eapply list_elem_of_lookup_2. }
  unfold apply_compact_snapshot, len in *.
  replace (length (player_i32 p)) with (Z.to_nat (id_host_i32_count (identity d))) by lia.
  replace (length (player_f32 p)) with (Z.to_nat (id_host_f32_count (identity d))) by lia.
  destruct (place_shows LaneI32 (id_observed_i32 (identity d)) (i32_values (cursor_snapshot c'))
              (id_host_i32_count (identity d))) as (hi & -> & Hhi);
    [by apply dk_fields_i32|by apply dk_host_i32|rewrite Hsi; by apply dk_input_i32|]. simpl.
  destruct (place_shows LaneF32 (id_observed_f32 (identity d)) (f32_bits (cursor_snapshot c'))
              (id_host_f32_count (identity d))) as (hf & -> & Hhf);
    [by apply dk_fields_f32|by apply dk_host_f32|rewrite Hsf; by apply dk_input_f32|]. simpl.
  rewrite (proj2 (checked_u_Some 64 _ _)) by (split; [unfold in_u; lia|done]).
  do 3 eexists. split; [done|]. split; [|by split_and!; [done|split|..]].
  split; simpl; [by exists c'|lia|by destruct Hhi as [? _]|by destruct Hhf as [? _]].
Qed.

(** ** Checkpoints *)

(** [lia] with quotients and remainders. *)
#[local] Ltac div_lia := Z.to_euclidean_division_equations; lia.

Lemma skip_stop stop cs next c :
  cs !! next = Some c → stop c = true → skip_checkpoints stop (drop next cs) next = next.
Proof. intros Hc Hs. rewrite (drop_S _ _ _ Hc). simpl. by rewrite Hs. Qed.

Lemma skip_end stop (cs : list CompactReplayCheckpoint) next :
  cs !! next = None → skip_checkpoints stop (drop next cs) next = next.
Proof. intros Hc. rewrite drop_ge; [done|]. by apply lookup_ge_None. Qed.

Lemma skip_one stop cs next c :
  cs !! next = Some c → stop c = false →
  skip_checkpoints stop (drop next cs) next = skip_checkpoints stop (drop (S next) cs) (S next).
Proof. intros Hc Hs. rewrite (drop_S _ _ _ Hc). simpl. by rewrite Hs. Qed.

(** Scanning stops at the checkpoint whose tick is past the bound, or at the end. *)
Lemma skip_past d stop next :
  document_ok d →
  (∀ c, checkpoints d !! next = Some c → stop c = true) →
  skip_checkpoints stop (drop next (checkpoints d)) next = next.
Proof.
  intros Hd Hs. destruct (checkpoints d !! next) as [c|] eqn:E; [|by apply skip_end].
  by eapply skip_stop; [|apply Hs].
Qed.

Lemma expected_checkpoint d t next :
  document_ok d → 1 ≤ t ≤ total_ticks d → Z.of_nat next = (t - 1) `div` COMPACT_CHECKPOINT_INTERVAL →
  ∃ next', compact_expected_checkpoint d t next = (expected_hash d t, next')
    ∧ Z.of_nat next' = t `div` COMPACT_CHECKPOINT_INTERVAL.
Proof.
  intros Hd Ht Hn. pose proof (dk_checkpoints _ Hd) as Htick. pose proof (dk_count _ Hd) as Hcount.
  unfold len, COMPACT_CHECKPOINT_INTERVAL in *. unfold compact_expected_checkpoint.
  rewrite (skip_past d _ next Hd).
  2: { intros c Hc. rewrite (Htick _ _ Hc). apply negb_true_iff, Z.ltb_ge. div_lia. }
  rewrite (dk_final _ Hd). unfold expected_hash, COMPACT_CHECKPOINT_INTERVAL.
  destruct (Z.eqb_spec t (total_ticks d)) as [Hfin|Hfin].
  - eexists. split; [done|]. destruct (Z.eq_dec (t `mod` 256) 0) as [Hm|Hm].
    + assert (is_Some (checkpoints d !! next)) as [c Hc] by (apply lookup_lt_is_Some; div_lia).
      rewrite (skip_one _ _ _ _ Hc).
      2: { rewrite (Htick _ _ Hc). apply negb_false_iff, Z.leb_le. div_lia. }
      rewrite (skip_past d _ (S next) Hd); [div_lia|].
      intros c' Hc'. apply lookup_lt_Some in Hc'. div_lia.
    + rewrite (skip_past d _ next Hd); [div_lia|].
      intros c Hc. rewrite (Htick _ _ Hc). apply negb_true_iff, Z.leb_gt. div_lia.
  - destruct (Z.eqb_spec (t `mod` 256) 0) as [Hm|Hm].
    + assert (is_Some (checkpoints d !! next)) as [c Hc] by (apply lookup_lt_is_Some; div_lia).
      replace (Z.to_nat (t / 256 - 1)) with next by div_lia. rewrite Hc.
      rewrite (Htick _ _ Hc), (proj2 (Z.eqb_eq _ _)) by div_lia. eexists. split; [done|]. div_lia.
    + exists next. split; [|div_lia]. destruct (checkpoints d !! next) as [c|] eqn:Hc; [|done].
      by rewrite (Htick _ _ Hc), (proj2 (Z.eqb_neq _ _)) by div_lia.
Qed.

Lemma last_check_step d t :
  1 ≤ t ≤ total_ticks d →
  last_check (total_ticks d) t =
    match expected_hash d t with Some _ => t | None => last_check (total_ticks d) (t - 1) end
  ∨ expected_hash d t = None ∧ t `mod` COMPACT_CHECKPOINT_INTERVAL = 0.
Proof.
  intros Ht. unfold expected_hash, last_check, COMPACT_CHECKPOINT_INTERVAL.
  destruct (Z.eqb_spec t (total_ticks d)) as [E|E].
  { left. done. }
  rewrite (proj2 (Z.eqb_neq (t - 1) _)) by div_lia.
  destruct (Z.eqb_spec (t `mod` 256) 0).
  - destruct (checkpoints d !! _); simpl; [left; div_lia|by right].
  - left. div_lia.
Qed.

(** The error of a divergence at a checked tick. *)
Definition divergence (d : CompactReplayDocument) (t : Z) (expected found : str) : ReplayError :=
  DivergedWithin (last_check (total_ticks d) (t - 1) + 1) t expected found.

Lemma verify_ok d t p h :
  document_ok d → 1 ≤ t ≤ total_ticks d → player_ok d t p → checks_ok d (t - 1) p →
  ∃ p' r, verify_tick t (Ok h) p = (p', r) ∧ player_ok d t p'
    ∧ match expected_hash d t with
      | Some e =>
          if decide (h = e) then r = Ok tt ∧ checks_ok d t p'
          else r = Err (divergence d t e h) ∧ first_divergence p' = Some (divergence d t e h)
      | None => r = Ok tt ∧ checks_ok d t p'
      end.
Proof.
  intros Hd Ht [(c & Hp & Hc) Hn Hi Hf] [Hcp Hver Hdiv]. unfold verify_tick. rewrite Hdiv, Hp.
  pose proof (dk_total _ Hd). unfold MAX_REPLAY_FRAMES in *.
  unfold verify_compact. replace (Z.max (next_tick p - 1) 0) with t by lia. rewrite Z.eqb_refl.
  rewrite (proj2 (Z.eqb_neq t 0)) by lia. simpl.
  destruct (expected_checkpoint d t (next_checkpoint p) Hd Ht Hcp) as (next' & -> & Hnext').
  assert (∀ cp v dv, player_ok d t (set_checks cp v dv p)) as Hset by (intros; split; [by exists c|done..]).
  destruct (last_check_step d t Ht) as [Hlast|[Hnone Hmod]].
  2: { exfalso. unfold expected_hash in Hnone. case_match; [done|]. rewrite Hmod, Z.eqb_refl in Hnone.
       apply fmap_None, lookup_ge_None in Hnone. pose proof (dk_count _ Hd) as Hcount. unfold len in Hcount.
       unfold COMPACT_CHECKPOINT_INTERVAL in *. to_props. div_lia. }
  destruct (expected_hash d t) as [e|].
  - case_decide; case_bool_decide; try done; simpl.
    + do 2 eexists. split; [done|]. split; [apply Hset|]. split; [done|].
      by split.
    + do 2 eexists. split; [done|]. split; [apply Hset|].
      assert (saturating_u64_add (last_verified_tick p) 1 = last_check (total_ticks d) (t - 1) + 1) as ->.
      { rewrite Hver. unfold saturating_u64_add, last_check, u64_max, COMPACT_CHECKPOINT_INTERVAL.
        case_match; to_props; div_lia. }
      done.
  - do 2 eexists. split; [done|]. split; [apply Hset|]. split; [done|]. split; simpl; congruence.
Qed.

(** ** Replays *)

(** The loop of the game: each tick runs on the host frame the player gives, and the
    hash of the state after it, here an argument, is verified.  The result is the
    frames shown and the first failure of the verification with its tick. *)
Fixpoint replay (hashes : list str) (p : ReplayPlayer) :
    option (ReplayPlayer * list (list Z * list Z) * option (Z * ReplayError)) :=
  match hashes with
  | [] => Some (p, [], None)
  | h :: hashes' =>
      match play_next p with
      | Some (p', Ok frame) =>
          match verify_tick (next_tick p) (Ok h) p' with
          | (p', Ok _) =>
              '(p', frames, failure) ← replay hashes' p';
              Some (p', frame :: frames, failure)
          | (p', Err e) => Some (p', [frame], Some (next_tick p, e))
          end
      | _ => None
      end
  end.

(** The first tick, from [t] on, whose hash is compared and differs. *)
Fixpoint first_divergent (d : CompactReplayDocument) (t : Z) (hashes : list str) : option (Z * ReplayError) :=
  match hashes with
  | [] => None
  | h :: hashes' =>
      match expected_hash d t with
      | Some e => if decide (h = e) then first_divergent d (t + 1) hashes' else Some (t, divergence d t e h)
      | None => first_divergent d (t + 1) hashes'
      end
  end.

(** The number of ticks that are played. *)
Definition played_ticks (t : Z) (hashes : list str) (failure : option (Z * ReplayError)) : Z :=
  match failure with Some (stop, _) => stop - t + 1 | None => len hashes end.

Lemma replay_from d t p hashes :
  document_ok d → player_ok d t p → checks_ok d t p → 0 ≤ t → t + len hashes ≤ total_ticks d →
  ∃ p' frames, replay hashes p = Some (p', frames, first_divergent d (t + 1) hashes)
    ∧ len frames = played_ticks (t + 1) hashes (first_divergent d (t + 1) hashes)
    ∧ ∀ k frame, frames !! k = Some frame →
        ∃ s, inputs (segments d) (initial_input d) !! (Z.to_nat t + k)%nat = Some s ∧ frame_shows d s frame.
Proof.
  intros Hd. revert t p. induction hashes as [|h hashes IH]; intros t p Hp Hc Ht Hl; cbn [replay first_divergent].
  { by exists p, []. }
  unfold len in Hl. cbn [length] in Hl.
  destruct (play_next_ok d t p Hd Hp) as (p1 & frame & s & -> & Hp1 & Hs & Hshow & Hk1 & Hk2 & Hk3); [lia|].
  assert (checks_ok d (t + 1 - 1) p1) as Hc1.
  { replace (t + 1 - 1) with t by lia. destruct Hc. split; congruence. }
  rewrite (py_next _ _ _ Hp).
  destruct (verify_ok d (t + 1) p1 h Hd) as (p2 & r & -> & Hp2 & Hr); [lia|done|done|].
  assert (∀ tl k f, (frame :: tl) !! k = Some f →
    (∀ k f, tl !! k = Some f → ∃ s, inputs (segments d) (initial_input d) !! (Z.to_nat (t + 1) + k)%nat = Some s
       ∧ frame_shows d s f) →
    ∃ s, inputs (segments d) (initial_input d) !! (Z.to_nat t + k)%nat = Some s ∧ frame_shows d s f) as Hcons.
  { intros tl [|k] f Hk Htl; simplify_eq/=.
    - exists s. by rewrite Nat.add_0_r.
    - destruct (Htl k f Hk) as (s' & Hs' & ?). exists s'. split; [|done]. rewrite <- Hs'. f_equal. lia. }
  assert (r = Ok tt ∧ checks_ok d (t + 1) p2 →
    ∃ p' frames,
      match r with
      | Ok _ => '(p', frames, failure) ← replay hashes p2; Some (p', frame :: frames, failure)
      | Err e => Some (p2, [frame], Some (t + 1, e))
      end = Some (p', frames, first_divergent d (t + 1 + 1) hashes)
      ∧ len frames = played_ticks (t + 1) (h :: hashes) (first_divergent d (t + 1 + 1) hashes)
      ∧ ∀ k f, frames !! k = Some f →
          ∃ s, inputs (segments d) (initial_input d) !! (Z.to_nat t + k)%nat = Some s ∧ frame_shows d s f) as Hgo.
  { intros [-> Hc2]. destruct (IH (t + 1) p2 Hp2 Hc2) as (p3 & frames & -> & Hlen & Hframes); [lia|unfold len; lia|].
    simpl. do 2 eexists. split; [done|]. split; [|intros k f Hk; by eapply Hcons].
    unfold played_ticks, len in *. simpl. destruct (first_divergent d (t + 1 + 1) hashes) as [[stop e]|]; lia. }
  destruct (expected_hash d (t + 1)) as [e|]; [|by apply Hgo].
  destruct (decide (h = e)); [by apply Hgo|]. destruct Hr as [-> _]. do 2 eexists. split; [done|].
  split; [unfold len, played_ticks; simpl; lia|]. intros k f Hk. apply (Hcons [] k f Hk). intros k' f' Hk'. done.
Qed.

(** C31 Playing an accepted recording is exact: no tick panics or fails, every host frame
    shows the observed fields as the reference [compact_input_at_tick] gives them and 0
    elsewhere, and the verification fails exactly at the first checkpoint, or the end,
    whose hash differs, naming the ticks since the last agreement. *)
Theorem playback_exact `{ReplayCodec} d c hashes :
  Forall typed_segment (segments d) → 0 ≤ id_host_i32_count (identity d) → 0 ≤ id_host_f32_count (identity d) →
  validate_compact_document d = Some (Ok tt) → len hashes ≤ total_ticks d →
  ∃ p frames, replay hashes (compact_player d c) = Some (p, frames, first_divergent d 1 hashes)
    ∧ len frames = played_ticks 1 hashes (first_divergent d 1 hashes)
    ∧ ∀ k frame, frames !! k = Some frame →
        ∃ s, compact_input_at_tick d (Z.of_nat k + 1) = Some (Ok s) ∧ frame_shows d s frame.
Proof.
  intros Ht Hi Hf Hv Hl. pose proof (document_validated d Ht Hi Hf Hv) as Hd.
  destruct (compact_player_ok d c Hd) as [Hp Hc].
  destruct (replay_from d 0 _ hashes Hd Hp Hc) as (p & frames & E & Hlen & Hframes); [lia|lia|].
  exists p, frames. split; [done|]. split; [done|]. intros k frame Hk.
  destruct (Hframes k frame Hk) as (s & Hs & Hshow). exists s. split; [|done].
  pose proof (dk_segments _ Hd) as Hok. pose proof (dk_covered _ Hd) as Hcov.
  assert (Z.of_nat k < total_ticks d) as Hkt.
  { apply lookup_lt_Some in Hs. pose proof (length_inputs _ _ Hok) as Hli. unfold len in Hli. simpl in Hs. lia. }
  unfold compact_input_at_tick. rewrite Hv. simpl.
  rewrite (proj2 (Z.eqb_neq (Z.of_nat k + 1) 0)), (proj2 (Z.ltb_ge _ _)) by lia. simpl.
  destruct (input_at_exact (segments d) (initial_input d) (Z.of_nat k + 1) 0 Hok) as (x & -> & Hx); [lia|].
  replace (Z.to_nat (Z.of_nat k + 1 - 0 - 1)) with k in Hx by lia. simpl in Hs. congruence.
Qed.
