(* ===== verification/RecorderInv.v ===== *)
(** * What the recorder has recorded

    The invariant of the recorder over any sequence of its operations, failed ones
    included: either its document and open segment stand for exactly the ticks that
    were completed ([clean]), or an operation failed half-way and the document lacks
    ticks or checkpoints it must have ([broken]), so that it is refused. *)

From S2P Require Import Prelude BTree Identity RecordData RecordDocument Recorder RecordSegments RecordReplay.
#[local] Open Scope Z_scope.

(** ** The operations and what they complete *)

Inductive RecorderOp :=
| OpBegin (tick : Z) (host_i32 host_f32 : list Z)
| OpFinish (state_hash : Result str str)
| OpDiscard (tick : Z).

Definition run_op `{ReplayCodec} (op : RecorderOp) (r : ReplayRecorder) : ReplayRecorder * Result unit ReplayError :=
  match op with
  | OpBegin tick host_i32 host_f32 => begin_tick tick host_i32 host_f32 r
  | OpFinish state_hash => finish_tick state_hash r
  | OpDiscard tick => discard_tick tick r
  end.

(** A completed tick: its host frame and the hash of the state after it. *)
Abbreviation Recorded := (list Z * list Z * str)%type.

(** The completed ticks and the host frame of the tick in progress. *)
Abbreviation Completed := (list Recorded * option (list Z * list Z))%type.

Definition note_op (op : RecorderOp) (result : Result unit ReplayError) (c : Completed) : Completed :=
  match op, result with
  | OpBegin _ host_i32 host_f32, Ok _ => (c.1, Some (host_i32, host_f32))
  | OpBegin _ _ _, Err _ => c
  | OpFinish (Ok hash), Ok _ =>
      (match c.2 with Some (host_i32, host_f32) => c.1 ++ [(host_i32, host_f32, hash)] | None => c.1 end, None)
  | OpFinish _, _ => (c.1, None)
  | OpDiscard _, Ok _ => (c.1, None)
  | OpDiscard _, Err _ => c
  end.

Fixpoint run_ops `{ReplayCodec} (ops : list RecorderOp) (r : ReplayRecorder) (c : Completed) :
    ReplayRecorder * Completed :=
  match ops with
  | [] => (r, c)
  | op :: ops' => let '(r', result) := run_op op r in run_ops ops' r' (note_op op result c)
  end.

(** ** The segments with the open one *)

Definition all_segments (r : CompactReplayRecorder) : list CompactInputSegment :=
  segments (document r) ++ option_list (active_segment r).

Definition plain_segment (g : CompactInputSegment) : Prop :=
  tick_gap g = 0 ∧ 1 ≤ run_ticks g ≤ MAX_REPLAY_FRAMES.

Lemma plain_typed g : plain_segment g → typed_segment g.
Proof. intros [H1 H2]. unfold typed_segment, in_u, MAX_REPLAY_FRAMES in *. rewrite H1. lia. Qed.

Lemma reserve_spec additional label r r' res :
  reserve_compact_bytes additional label r = (r', res) →
  document r' = document r ∧ previous_input r' = previous_input r ∧ active_snapshot r' = active_snapshot r
  ∧ active_segment r' = active_segment r ∧ pending r' = pending r.
Proof. unfold reserve_compact_bytes. intros H. repeat case_match; simplify_eq/=; done. Qed.

Section operations.
Context `{ReplayCodec}.

Lemma flush_spec r r' res :
  flush_compact_segment r = (r', res) →
  previous_input r' = previous_input r ∧ pending r' = pending r ∧ active_segment r' = None
  ∧ (is_Some (active_segment r) → active_snapshot r' = None)
  ∧ match res with
    | Ok _ => document r' = with_segments (all_segments r) (document r)
    | Err _ => document r' = document r ∧ is_Some (active_segment r)
    end.
Proof.
  unfold flush_compact_segment, all_segments. destruct (active_segment r) as [g|] eqn:Eg.
  - case_match; [intros [= <- <-]; simpl; by split_and!|].
    destruct (to_vec_segment g) as [bytes|e]; [|intros [= <- <-]; simpl; by split_and!].
    destruct (reserve_compact_bytes _ _ _) as [r1 [u|e]] eqn:Er; intros [= <- <-];
      apply reserve_spec in Er as (Hd & Hp & Hs & Ha & Hn); simpl in *.
    + rewrite Hd. by split_and!.
    + by split_and!.
  - intros [= <- <-]. simpl. split_and!; [done..|by intros []|].
    rewrite app_nil_r. by destruct (document r).
Qed.

Lemma record_baseline_spec input r r' res :
  record_baseline input r = (r', res) →
  previous_input r' = previous_input r ∧ pending r' = pending r ∧ active_segment r' = active_segment r
  ∧ active_snapshot r' = active_snapshot r
  ∧ document r' = match previous_input r with
                     | Some _ => document r
                     | None => with_initial_input input (document r)
                     end.
Proof.
  unfold record_baseline. destruct (previous_input r) eqn:Ep; [by intros [= <- <-]|]. simpl.
  destruct (to_vec_baseline input) as [bytes|e]; [|intros [= <- <-]; by split_and!].
  intros Er. apply reserve_spec in Er as (-> & -> & -> & -> & ->). by split_and!.
Qed.

Lemma record_checkpoint_spec c r r' res :
  record_checkpoint c r = (r', res) →
  previous_input r' = previous_input r ∧ pending r' = pending r ∧ active_segment r' = active_segment r
  ∧ active_snapshot r' = active_snapshot r
  ∧ match res with
    | Ok _ =>
        document r' = with_checkpoints
          (checkpoints (document r)
           ++ (if cp_tick c `mod` COMPACT_CHECKPOINT_INTERVAL =? 0 then [c] else [])) (document r)
    | Err _ => document r' = document r ∧ cp_tick c `mod` COMPACT_CHECKPOINT_INTERVAL = 0
    end.
Proof.
  unfold record_checkpoint. destruct (Z.eqb_spec (cp_tick c `mod` COMPACT_CHECKPOINT_INTERVAL) 0); simpl.
  2: { intros [= <- <-]. split_and!; [done..|]. rewrite app_nil_r. by destruct (document r). }
  case_match; [intros [= <- <-]; by split_and!|].
  destruct (to_vec_checkpoint c) as [bytes|e']; [|intros [= <- <-]; by split_and!].
  destruct (reserve_compact_bytes _ _ _) as [r1 [u|e']] eqn:Er; intros [= <- <-];
    apply reserve_spec in Er as (Hd & Hp & Hs & Ha & Hn); simpl; rewrite ?Hd; by split_and!.
Qed.

(** A new segment on the input before it. *)
Lemma append_spec input r r' res :
  (active_segment r = None → active_snapshot r = None) →
  (∀ g, active_segment r = Some g → active_snapshot r = previous_input r
     ∧ is_Some (previous_input r) ∧ 0 ≤ run_ticks g < MAX_REPLAY_FRAMES) →
  append_compact_input input r = (r', res) →
  pending r' = pending r
  ∧ match res with
    | Ok _ =>
        previous_input r' = Some input ∧ active_snapshot r' = Some input
        ∧ ((∃ g, active_segment r = Some g ∧ previous_input r = Some input ∧ document r' = document r
              ∧ active_segment r'
                = Some (mkSegment (tick_gap g) (run_ticks g + 1) (i32_changes g) (f32_changes g)))
           ∨ document r' = with_segments (all_segments r) (document r)
             ∧ active_segment r' = Some (new_segment (previous_input r) input))
    | Err _ =>
        previous_input r' = previous_input r ∧ document r' = document r ∧ is_Some (active_segment r)
        ∧ active_segment r' = None ∧ active_snapshot r' = None
    end.
Proof.
  intros Hnone Hsome. unfold append_compact_input. case_bool_decide as Hactive.
  - destruct (active_segment r) as [g|] eqn:Eg; [|by rewrite Hnone in Hactive].
    destruct (Hsome g eq_refl) as (Hsnap & [prev Hprev] & Hrun). unfold MAX_REPLAY_FRAMES in *.
    rewrite (proj2 (checked_u_Some 64 _ _)) by (split; [unfold in_u; lia|done]).
    intros [= <- <-]. simpl. rewrite Hactive in Hsnap. rewrite <- Hsnap. simpl.
    split_and!; [done..|]. left. by exists g.
  - unfold start_segment. destruct (flush_compact_segment r) as [r1 [u|e]] eqn:Ef; intros [= <- <-];
      apply flush_spec in Ef as (Hp & Hn & Ha & Hs & Hd); simpl.
    + rewrite Hp. split_and!; [done..|]. by right.
    + destruct Hd as [Hd Hg]. by split_and!; [..|apply Hs].
Qed.

End operations.

(** ** Observations *)

Lemma observe_spec lane fields host values :
  observe lane fields host = Ok values →
  length values = length fields
  ∧ ∀ i f, fields !! i = Some f → is_Some (host !! fd_index f) ∧ values !! i = host !! fd_index f.
Proof.
  revert values. induction fields as [|f fields IH]; intros values Ho; simpl in Ho.
  { by injection Ho as <-. }
  inv_checks. injection Ho as <-. rename select (observe _ _ _ = _) into Hrest.
  destruct (IH _ Hrest) as [Hl Hv]. split; [simpl; lia|]. intros [|i] f' Hi; simplify_eq/=; [|by apply Hv].
  by split; [eexists|].
Qed.

(** The recording of a tick holds what was observed of its host frame. *)
Definition observed_as (compat : CompactReplayCompatibility) (e : Recorded) (s : CompactInputSnapshot) : Prop :=
  compact_snapshot_from_host compat e.1.1 e.1.2 = Ok s.

Lemma observed_length compat e s :
  observed_as compat e s →
  length (i32_values s) = length (co_observed_i32 compat) ∧ length (f32_bits s) = length (co_observed_f32 compat).
Proof.
  unfold observed_as, compact_snapshot_from_host. intros Ho. inv_checks. injection Ho as <-. simpl.
  rename select (observe LaneI32 _ _ = _) into Hoi. rename select (observe LaneF32 _ _ = _) into Hof.
  apply observe_spec in Hoi as [? _]. by apply observe_spec in Hof as [? _].
Qed.

Lemma length_diff_slots previous current :
  (length (diff_slots previous current) ≤ length current)%nat.
Proof.
  unfold diff_slots. rewrite length_fmap. generalize 0%nat. revert current.
  induction previous as [|p previous IH]; intros [|c current] i; simpl; try lia.
  rewrite length_app. specialize (IH current (S i)). case_bool_decide; simpl; lia.
Qed.

(** ** The invariant *)

Section invariant.
Context `{ReplayCodec} (compat : CompactReplayCompatibility).
Context (fields_i32 : len (co_observed_i32 compat) ≤ MAX_HOST_FRAME_VALUES).
Context (fields_f32 : len (co_observed_f32 compat) ≤ MAX_HOST_FRAME_VALUES).

(** What holds of every recorder. *)
Record base (r : CompactReplayRecorder) (c : Completed) : Prop := {
  ba_identity : compatibility (identity (document r)) = compat;
  ba_gaps : Forall (λ g, tick_gap g = 0 ∧ 1 ≤ run_ticks g) (all_segments r);
  ba_total : 0 ≤ total_ticks (document r) ≤ MAX_REPLAY_FRAMES;
  ba_covered : covered (all_segments r) ≤ total_ticks (document r);
  ba_checkpoints : len (checkpoints (document r)) ≤ total_ticks (document r) `div` COMPACT_CHECKPOINT_INTERVAL;
  ba_pending : ∀ p, pending r = Some p → pt_tick p = total_ticks (document r) + 1
    ∧ total_ticks (document r) < MAX_REPLAY_FRAMES
    ∧ ∃ hi hf, c.2 = Some (hi, hf) ∧ compact_snapshot_from_host compat hi hf = Ok (pt_input p);
  ba_closed : active_segment r = None → active_snapshot r = None;
  ba_open : ∀ g, active_segment r = Some g → active_snapshot r = previous_input r ∧ is_Some (previous_input r);
  ba_fresh : previous_input r = None → segments (document r) = [] ∧ total_ticks (document r) = 0;
}.

(** The document lacks ticks or checkpoints. *)
Definition lacks (r : CompactReplayRecorder) : Prop :=
  covered (all_segments r) < total_ticks (document r)
  ∨ len (checkpoints (document r)) < total_ticks (document r) `div` COMPACT_CHECKPOINT_INTERVAL.

(** The document stands for the completed ticks. *)
Record exact (r : CompactReplayRecorder) (log : list Recorded) : Prop := {
  ex_inputs : Forall2 (observed_as compat) log (inputs (all_segments r) (initial_input (document r)));
  ex_total : total_ticks (document r) = len log;
  ex_segments : segments_ok (initial_input (document r)) (all_segments r);
  ex_first : ∀ s, head (inputs (all_segments r) (initial_input (document r))) = Some s →
    initial_input (document r) = s;
  ex_last : previous_input r = last (inputs (all_segments r) (initial_input (document r)));
  ex_after : ∀ s, previous_input r = Some s →
    input_after (all_segments r) (initial_input (document r)) = s ∧ is_Some (active_segment r);
  ex_count : len (checkpoints (document r)) = total_ticks (document r) `div` COMPACT_CHECKPOINT_INTERVAL;
  ex_checkpoints : ∀ i c, checkpoints (document r) !! i = Some c →
    cp_tick c = (Z.of_nat i + 1) * COMPACT_CHECKPOINT_INTERVAL
    ∧ snd <$> log !! Z.to_nat (cp_tick c - 1) = Some (cp_state_sha256 c);
  ex_final : log ≠ [] → cp_tick (final_state (document r)) = len log
    ∧ snd <$> last log = Some (cp_state_sha256 (final_state (document r)));
}.

(** [failed] tells whether an operation failed. *)
Definition recorder_inv (failed : bool) (r : CompactReplayRecorder) (c : Completed) : Prop :=
  base r c ∧ (failed = true ∧ lacks r ∨ exact r c.1).

(** Setting what the invariant of the document does not read. *)
Lemma pending_segments p r : all_segments (set_pending p r) = all_segments r.
Proof. done. Qed.

Lemma lacks_pending p r : lacks (set_pending p r) ↔ lacks r.
Proof. done. Qed.

Lemma exact_pending p r log : exact r log → exact (set_pending p r) log.
Proof. by intros []. Qed.

Lemma base_pending r c c' p :
  base r c →
  (∀ q, p = Some q → pt_tick q = total_ticks (document r) + 1
     ∧ total_ticks (document r) < MAX_REPLAY_FRAMES
     ∧ ∃ hi hf, c'.2 = Some (hi, hf) ∧ compact_snapshot_from_host compat hi hf = Ok (pt_input q)) →
  base (set_pending p r) c'.
Proof. by intros [] Hp. Qed.

Lemma forget_pending r c c' : base r c → base (set_pending None r) c'.
Proof. intros Hb. by eapply base_pending. Qed.

Lemma inv_weaken f f' r c :
  recorder_inv f r c → (f = true → f' = true) → recorder_inv f' r c.
Proof. intros [Hb [[Hf Hl]|He]] Hff; split; [done|left; by split; [apply Hff|]|done|by right]. Qed.

(** [begin_tick] and [discard_tick]. *)
Lemma begin_inv failed tick hi hf r c r' res :
  recorder_inv failed r c → begin_compact_tick tick hi hf r = (r', res) →
  recorder_inv (failed || is_err res) r' (note_op (OpBegin tick hi hf) res c).
Proof.
  intros Hi. pose proof (inv_weaken _ (failed || is_err res) _ _ Hi ltac:(by destruct failed)) as Hi'.
  destruct Hi as [Hb He]. unfold begin_compact_tick.
  destruct (Z.leb_spec MAX_REPLAY_FRAMES (total_ticks (document r))) as [|Hroom]; [by intros [= <- <-]|].
  case_bool_decide as Hpend; [by intros [= <- <-]|].
  destruct (checked_u 64 _) as [expected|] eqn:Ee; [|by intros [= <- <-]]. apply checked_u_Some in Ee as [_ ->].
  destruct (Z.eqb_spec tick (total_ticks (document r) + 1)) as [->|]; simpl; [|by intros [= <- <-]].
  rewrite (ba_identity _ _ Hb).
  destruct (compact_snapshot_from_host compat hi hf) as [input|e] eqn:Ei; intros [= <- <-]; [|done].
  split.
  - eapply base_pending; [done|]. intros q [= <-]. simpl. split_and!; [done..|]. by exists hi, hf.
  - destruct He as [[-> He]|He]; [by left|right]. by apply exact_pending.
Qed.

Lemma discard_inv failed tick r c r' res :
  recorder_inv failed r c → discard_compact_tick tick r = (r', res) →
  recorder_inv (failed || is_err res) r' (note_op (OpDiscard tick) res c).
Proof.
  intros Hi. pose proof (inv_weaken _ (failed || is_err res) _ _ Hi ltac:(by destruct failed)) as Hi'.
  destruct Hi as [Hb He]. unfold discard_compact_tick. destruct (pending r) as [p|]; [|by intros [= <- <-]].
  destruct (pt_tick p =? tick); intros [= <- <-]; [|done]. split; [by eapply forget_pending|].
  destruct He as [[-> He]|He]; [by left|right]. by apply exact_pending.
Qed.

(** ** Finishing a tick *)

Lemma covered_snoc segs g : covered (segs ++ [g]) = covered segs + tick_gap g + run_ticks g.
Proof. rewrite covered_app. simpl. lia. Qed.

Lemma inputs_extend segs g s :
  tick_gap g = 0 → 0 ≤ run_ticks g →
  inputs (segs ++ [mkSegment (tick_gap g) (run_ticks g + 1) (i32_changes g) (f32_changes g)]) s
  = inputs (segs ++ [g]) s ++ [after g (input_after segs s)].
Proof.
  intros Hg Hr. rewrite !inputs_app, <- app_assoc. simpl. rewrite Hg, !app_nil_r. simpl.
  replace (Z.to_nat (run_ticks g + 1)) with (S (Z.to_nat (run_ticks g))) by lia.
  by rewrite replicate_S_end.
Qed.

(** The new segment leads from the input before to the new one. *)
Lemma new_segment_ok previous input base_input :
  same_shape base_input input → len (i32_values input) ≤ MAX_HOST_FRAME_VALUES →
  len (f32_bits input) ≤ MAX_HOST_FRAME_VALUES →
  (∀ p, previous = Some p → base_input = p) → (previous = None → base_input = input) →
  segment_ok base_input (new_segment previous input) ∧ after (new_segment previous input) base_input = input.
Proof.
  intros [Hi Hf] Hli Hlf Hsome Hnone. unfold new_segment. destruct previous as [p|].
  - rewrite (Hsome p eq_refl) in *.
    destruct (diff_slots_ok _ _ Hi) as [Hoki Happi]. destruct (diff_slots_ok _ _ Hf) as [Hokf Happf]. simpl.
    split.
    + split; simpl; [lia|lia|done|done|]. unfold len, MAX_HOST_FRAME_VALUES, MAX_COMPACT_CHANGES_PER_SEGMENT in *.
      pose proof (length_diff_slots (i32_values p) (i32_values input)).
      pose proof (length_diff_slots (f32_bits p) (f32_bits input)). lia.
    + apply apply_segment_after. unfold apply_segment. simpl. rewrite Happi. simpl. rewrite Happf. simpl.
      by destruct input.
  - rewrite (Hnone eq_refl). simpl. split.
    + split; simpl; [lia|lia|constructor|constructor|]. unfold MAX_COMPACT_CHANGES_PER_SEGMENT, len. simpl. lia.
    + unfold after, apply_segment. simpl. by destruct input.
Qed.

Lemma open_bound r c g :
  base r c → active_segment r = Some g → total_ticks (document r) < MAX_REPLAY_FRAMES →
  tick_gap g = 0 ∧ 1 ≤ run_ticks g < MAX_REPLAY_FRAMES
  ∧ covered (all_segments r) = covered (segments (document r)) + run_ticks g
  ∧ 0 ≤ covered (segments (document r)).
Proof.
  intros Hb Hg Ht. pose proof (ba_gaps _ _ Hb) as Hgaps. pose proof (ba_covered _ _ Hb) as Hcov.
  unfold all_segments in *. rewrite Hg in *. simpl in *. rewrite covered_snoc in *.
  apply Forall_app in Hgaps as [Hdoc [[H1 H2] _]%Forall_cons].
  assert (0 ≤ covered (segments (document r))).
  { clear -Hdoc. induction Hdoc as [|g' segs [Hgap Hrun] _ IH]; simpl in *; lia. }
  split_and!; lia.
Qed.

(** The recorder after the input of a tick was appended. *)
Record appended (input : CompactInputSnapshot) (r r' : CompactReplayRecorder) : Prop := {
  ap_document : document r' = with_segments (segments (document r')) (document r);
  ap_previous : previous_input r' = Some input;
  ap_active : active_snapshot r' = Some input ∧ is_Some (active_segment r');
  ap_covered : covered (all_segments r') = covered (all_segments r) + 1;
  ap_gaps : Forall (λ g, tick_gap g = 0 ∧ 1 ≤ run_ticks g) (all_segments r');
}.

Lemma with_segments_segments {I} s (d : CompactDocument I) :
  with_segments s d = with_segments (segments (with_segments s d)) d.
Proof. done. Qed.

Lemma append_inv input r r' res c :
  base r c → total_ticks (document r) < MAX_REPLAY_FRAMES → pending r = None →
  append_compact_input input r = (r', res) →
  pending r' = None ∧
  match res with
  | Ok _ => appended input r r'
  | Err _ => base r' c ∧ lacks r'
  end.
Proof.
  intros Hb Ht Hp Happ.
  apply append_spec in Happ; [|by apply Hb|].
  2: { intros g Hg. destruct (ba_open _ _ Hb g Hg) as [? ?]. destruct (open_bound _ _ _ Hb Hg Ht) as (? & ? & _).
       split_and!; [done..|lia|lia]. }
  destruct Happ as [Hpend Hres]. rewrite Hp in Hpend. split; [done|]. destruct res as [u|e].
  - destruct Hres as (Hprev & Hsnap & [(g & Hg & Hpg & Hd & Hg')|[Hd Hg']]).
    + destruct (open_bound _ _ _ Hb Hg Ht) as (Hgap & Hrun & Hcov & _).
      pose proof (ba_gaps _ _ Hb) as Hgaps. unfold all_segments in *. rewrite Hg in *.
      split; [|done|by rewrite Hg'| |]; unfold all_segments; rewrite ?Hd, ?Hg', ?Hg; simpl.
      * by destruct (document r).
      * rewrite !covered_snoc. simpl. lia.
      * apply Forall_app in Hgaps as [? _]. apply Forall_app. split; [done|]. apply Forall_singleton. simpl. lia.
    + split; [|done|by rewrite Hg'| |]; unfold all_segments; rewrite ?Hd, ?Hg'; simpl; [done| |].
      * rewrite covered_snoc. simpl. unfold all_segments. lia.
      * apply Forall_app. split; [by apply Hb|]. apply Forall_singleton. simpl. lia.
  - destruct Hres as (Hprev & Hd & [g Hg] & Hn & Hs).
    destruct (open_bound _ _ _ Hb Hg Ht) as (_ & Hrun & Hcov & Hpos).
    assert (all_segments r' = segments (document r)) as Hall.
    { unfold all_segments. rewrite Hd, Hn. apply app_nil_r. }
    split.
    + destruct Hb as [H1 H2 H3 H4 H5 H6 H7 H8 H9]. split; rewrite ?Hd, ?Hall, ?Hprev; try done.
      * unfold all_segments in H2. by apply Forall_app in H2 as [? _].
      * lia.
      * intros q Hq. congruence.
      * by rewrite Hn.
    + left. rewrite Hall, Hd. pose proof (ba_covered _ _ Hb). lia.
Qed.

Lemma append_exact input r r' c log e :
  base r c → total_ticks (document r) < MAX_REPLAY_FRAMES → pending r = None →
  append_compact_input input r = (r', Ok tt) →
  exact r log → observed_as compat e input → (previous_input r = None → initial_input (document r) = input) →
  inputs (all_segments r') (initial_input (document r)) =
    inputs (all_segments r) (initial_input (document r)) ++ [input]
  ∧ segments_ok (initial_input (document r)) (all_segments r')
  ∧ input_after (all_segments r') (initial_input (document r)) = input.
Proof.
  intros Hb Ht Hp Happ Hex Hobs Hfresh. set (init := initial_input (document r)) in *.
  apply append_spec in Happ; [|by apply Hb|].
  2: { intros g Hg. destruct (ba_open _ _ Hb g Hg) as [? ?]. destruct (open_bound _ _ _ Hb Hg Ht) as (? & ? & _).
       split_and!; [done..|lia|lia]. }
  destruct Happ as [_ (Hprev & Hsnap & [(g & Hg & Hpg & Hd & Hg')|[Hd Hg']])].
  - destruct (open_bound _ _ _ Hb Hg Ht) as (Hgap & Hrun & _ & _).
    pose proof (ex_segments _ _ Hex) as Hok. destruct (ex_after _ _ Hex _ Hpg) as [Hafter _].
    fold init in Hok, Hafter. unfold all_segments in *. rewrite Hd, Hg', Hg in *. simpl option_list in *.
    apply segments_ok_app in Hok as [Hok Hlast]. inversion_clear Hlast as [|? ? ? Hseg _].
    assert (after g (input_after (segments (document r)) init) = input) as Hin.
    { rewrite input_after_app in Hafter. done. }
    split_and!.
    + rewrite inputs_extend by lia. by rewrite Hin.
    + apply segments_ok_app. split; [done|]. constructor; [|constructor].
      destruct Hseg. split; simpl; (done || lia).
    + by rewrite input_after_app.
  - assert (all_segments r' = all_segments r ++ [new_segment (previous_input r) input]) as Hall.
    { unfold all_segments at 1. by rewrite Hd, Hg'. }
    destruct (observed_length _ _ _ Hobs) as [Hli Hlf].
    destruct (new_segment_ok (previous_input r) input (input_after (all_segments r) init)) as [Hseg Haft].
    + destruct (previous_input r) as [prev|] eqn:Eprev.
      * destruct (ex_after _ _ Hex _ Eprev) as [Hpa _]. fold init in Hpa. rewrite Hpa.
        pose proof (ex_last _ _ Hex) as Hlast. rewrite Eprev in Hlast. fold init in Hlast. symmetry in Hlast.
        rewrite last_lookup in Hlast.
        destruct (Forall2_lookup_r _ _ _ _ _ (ex_inputs _ _ Hex) Hlast) as (e' & _ & He').
        apply observed_length in He' as [? ?]. unfold same_shape. lia.
      * assert (all_segments r = []) as ->; [|simpl; by rewrite Hfresh].
        unfold all_segments. destruct (ba_fresh _ _ Hb Eprev) as [-> _].
        destruct (active_segment r) as [g|] eqn:Eg; [|done]. destruct (ba_open _ _ Hb g Eg) as [_ []]; congruence.
    + unfold len in *. lia.
    + unfold len in *. lia.
    + intros prev Eprev. by destruct (ex_after _ _ Hex _ Eprev).
    + intros Enone. rewrite <- (Hfresh Enone). fold init.
      assert (all_segments r = []) as ->; [|done].
      unfold all_segments. destruct (ba_fresh _ _ Hb Enone) as [-> _].
      destruct (active_segment r) as [g|] eqn:Eg; [|done]. destruct (ba_open _ _ Hb g Eg) as [_ []]; congruence.
    + rewrite Hall. split_and!.
      * rewrite inputs_app. f_equal. simpl. rewrite Haft. unfold new_segment. simpl.
        by destruct (previous_input r).
      * apply segments_ok_app. split; [by apply Hex|]. constructor; [done|constructor].
      * by rewrite input_after_app.
Qed.

(** The baseline of the first input changes nothing but the initial input. *)
Lemma baseline_inv input r r' res c log :
  base r c → record_baseline input r = (r', res) →
  base r' c ∧ all_segments r' = all_segments r ∧ total_ticks (document r') = total_ticks (document r)
  ∧ checkpoints (document r') = checkpoints (document r) ∧ pending r' = pending r
  ∧ previous_input r' = previous_input r
  ∧ (previous_input r' = None → initial_input (document r') = input)
  ∧ (exact r log → exact r' log).
Proof.
  intros Hb Hr. apply record_baseline_spec in Hr as (Hp & Hn & Ha & Hs & Hd).
  assert (segments (document r') = segments (document r) ∧ total_ticks (document r') = total_ticks (document r)
          ∧ checkpoints (document r') = checkpoints (document r) ∧ final_state (document r') = final_state (document r)
          ∧ identity (document r') = identity (document r)) as (Hseg & Htot & Hcp & Hfin & Hid).
  { rewrite Hd. by destruct (previous_input r). }
  assert (all_segments r' = all_segments r) as Hall by (unfold all_segments; by rewrite Hseg, Ha).
  split_and!; try done.
  - destruct Hb as [H1 H2 H3 H4 H5 H6 H7 H8 H9]. split; rewrite ?Hall, ?Htot, ?Hcp, ?Hid, ?Hp, ?Hn, ?Ha, ?Hs, ?Hseg; done.
  - rewrite Hp, Hd. by intros ->.
  - intros Hex. destruct (previous_input r) as [prev|] eqn:Eprev.
    + destruct Hex as [H1 H2 H3 H4 H5 H6 H7 H8 H9].
      split; rewrite ?Hall, ?Htot, ?Hcp, ?Hp, ?Ha, ?Hd; try done; by rewrite <- Eprev.
    + assert (all_segments r = []) as Hnil.
      { unfold all_segments. destruct (ba_fresh _ _ Hb Eprev) as [-> _].
        destruct (active_segment r) as [g|] eqn:Eg; [|done]. destruct (ba_open _ _ Hb g Eg) as [_ []]; congruence. }
      destruct Hex as [H1 H2 H3 H4 H5 H6 H7 H8 H9]. rewrite Hnil in *.
      split; rewrite ?Hall, ?Hnil, ?Htot, ?Hcp, ?Hp, ?Hfin; try done. constructor.
Qed.

Lemma count_step total n :
  0 ≤ total → Z.of_nat n ≤ total `div` COMPACT_CHECKPOINT_INTERVAL →
  Z.of_nat (n + (if (total + 1) `mod` COMPACT_CHECKPOINT_INTERVAL =? 0 then 1 else 0))
    ≤ (total + 1) `div` COMPACT_CHECKPOINT_INTERVAL
  ∧ (total + 1) `div` COMPACT_CHECKPOINT_INTERVAL
    = total `div` COMPACT_CHECKPOINT_INTERVAL
      + (if (total + 1) `mod` COMPACT_CHECKPOINT_INTERVAL =? 0 then 1 else 0).
Proof.
  intros Ht Hn. unfold COMPACT_CHECKPOINT_INTERVAL in *.
  destruct (Z.eqb_spec ((total + 1) `mod` 256) 0); Z.to_euclidean_division_equations; lia.
Qed.

Definition completed_checkpoints (t : Z) (hash : str) : list CompactReplayCheckpoint :=
  if t `mod` COMPACT_CHECKPOINT_INTERVAL =? 0 then [mkCheckpoint t hash] else [].

Lemma length_completed t hash :
  length (completed_checkpoints t hash) = if t `mod` COMPACT_CHECKPOINT_INTERVAL =? 0 then 1%nat else 0%nat.
Proof. unfold completed_checkpoints. by case_match. Qed.

(** The document once the tick after [r]'s last was appended, in [r1], and recorded. *)
Lemma exact_finish r r1 r' log e hash input :
  exact r log → base r (log, None) → appended input r r1 → observed_as compat e input →
  inputs (all_segments r1) (initial_input (document r)) =
    inputs (all_segments r) (initial_input (document r)) ++ [input] →
  segments_ok (initial_input (document r)) (all_segments r1) →
  input_after (all_segments r1) (initial_input (document r)) = input →
  (previous_input r = None → initial_input (document r) = input) →
  all_segments r' = all_segments r1 → initial_input (document r') = initial_input (document r) →
  total_ticks (document r') = total_ticks (document r) + 1 →
  previous_input r' = previous_input r1 → active_segment r' = active_segment r1 →
  checkpoints (document r') = checkpoints (document r) ++ completed_checkpoints (total_ticks (document r) + 1) hash →
  final_state (document r') = mkCheckpoint (total_ticks (document r) + 1) hash →
  e.2 = hash → exact r' (log ++ [e]).
Proof.
  intros Hex Hb Hap Hobs Hin Hok Haft Hfresh Hall Hinit Htot Hprev Hact Hcps Hfin <-.
  pose proof (ex_total _ _ Hex) as Hlen. pose proof (ba_total _ _ Hb) as Hrange.
  destruct (count_step (total_ticks (document r)) (length (checkpoints (document r)))) as [_ Hdiv];
    [lia|pose proof (ex_count _ _ Hex); unfold len in *; lia|].
  split; rewrite ?Hall, ?Hinit, ?Htot, ?Hprev, ?Hact, ?Hcps, ?Hfin.
  - rewrite Hin. apply Forall2_app; [by apply Hex|]. by constructor.
  - unfold len in *. rewrite length_app. simpl. lia.
  - done.
  - rewrite Hin. intros s Hs. destruct (inputs (all_segments r) (initial_input (document r))) as [|s' l] eqn:El.
    + simpl in Hs. injection Hs as <-. apply Hfresh. rewrite (ex_last _ _ Hex), El. done.
    + simpl in Hs. injection Hs as <-. apply (ex_first _ _ Hex). by rewrite El.
  - rewrite Hin, last_snoc. apply Hap.
  - rewrite (ap_previous _ _ _ Hap). intros s [= <-]. split; [done|]. apply Hap.
  - unfold len. rewrite length_app, length_completed, Nat2Z.inj_add, Hdiv.
    pose proof (ex_count _ _ Hex). unfold len in *. case_match; lia.
  - intros i c Hi. apply lookup_app_Some in Hi as [Hi|[Hge Hi]].
    + destruct (ex_checkpoints _ _ Hex i c Hi) as [Hc1 Hc2]. split; [done|].
      apply fmap_Some in Hc2 as (x & Hx & Hc2). rewrite lookup_app_l by (by eapply lookup_lt_Some). apply fmap_Some. by exists x.
    + unfold completed_checkpoints in Hi. case_match eqn:Em; [|done]. apply list_lookup_singleton_Some in Hi as [Hi <-].
      simpl. apply Z.eqb_eq in Em. pose proof (ex_count _ _ Hex) as Hc. unfold len, COMPACT_CHECKPOINT_INTERVAL in *.
      split; [pose proof (Z.div_mod (total_ticks (document r) + 1) 256); lia|].
      replace (Z.to_nat (total_ticks (document r) + 1 - 1)) with (length log) by lia.
      by rewrite list_lookup_middle by done.
  - intros _. simpl. unfold len in *. rewrite length_app, last_snoc. simpl. split; [lia|done].
Qed.

Lemma appended_fields input r r' :
  appended input r r' →
  identity (document r') = identity (document r) ∧ initial_input (document r') = initial_input (document r)
  ∧ checkpoints (document r') = checkpoints (document r) ∧ total_ticks (document r') = total_ticks (document r).
Proof. intros [-> _ _ _ _]. done. Qed.

Lemma finish_inv failed state_hash r c r' res :
  recorder_inv failed r c → finish_compact_tick state_hash r = (r', res) →
  recorder_inv (failed || is_err res) r' (note_op (OpFinish state_hash) res c).
Proof.
  intros [Hb Hinv] Hrun. destruct c as [log progress]. unfold finish_compact_tick in Hrun.
  destruct (pending r) as [p|] eqn:Ep.
  2: { injection Hrun as <- <-. assert (recorder_inv failed r (log, None)) as Hr.
       { split; [|done]. destruct Hb as [H1 H2 H3 H4 H5 H6 H7 H8 H9]. split; try done. congruence. }
       apply (inv_weaken failed); [by destruct state_hash|by destruct failed]. }
  destruct (ba_pending _ _ Hb p Ep) as (Htick & Hroom & hi & hf & Hprog & Hobs). simpl in Hprog. subst progress.
  assert (base (set_pending None r) (log, None)) as Hb0 by (by eapply forget_pending).
  assert (failed = true ∧ lacks (set_pending None r) ∨ exact (set_pending None r) log) as Hinv0.
  { destruct Hinv as [?|?]; [by left|right; by apply exact_pending]. }
  destruct state_hash as [hash|err].
  2: { injection Hrun as <- <-. apply (inv_weaken failed); [by split|by destruct failed]. }
  set (r0 := set_pending None r) in *. change (total_ticks (document r)) with (total_ticks (document r0)) in *.
  destruct (record_baseline (pt_input p) r0) as [r1 res1] eqn:Ebase.
  destruct (baseline_inv _ _ _ _ _ log Hb0 Ebase) as (Hb1 & Hall1 & Htot1 & Hcp1 & Hpend1 & Hprev1 & Hfresh1 & Hex1).
  assert (failed = true ∧ lacks r1 ∨ exact r1 log) as Hinv1.
  { destruct Hinv0 as [[Hf Hl]|?]; [left|right; by apply Hex1]. split; [done|]. unfold lacks in *.
    by rewrite Hall1, Htot1, Hcp1. }
  destruct res1 as [u1|e1].
  2: { injection Hrun as <- <-. apply (inv_weaken failed); [by split|by destruct failed]. }
  rewrite <- Htot1 in *.
  destruct (append_compact_input (pt_input p) r1) as [r2 res2] eqn:Eapp.
  destruct (append_inv _ _ _ _ _ Hb1 Hroom Hpend1 Eapp) as [Hpend2 Hres2].
  destruct res2 as [[]|e2].
  2: { injection Hrun as <- <-. destruct Hres2. split; [done|]. left. split; [by apply orb_true_r|done]. }
  destruct (appended_fields _ _ _ Hres2) as (Hid2 & Hini2 & Hcp2 & Htot2).
  set (final := mkCheckpoint (pt_tick p) hash) in *. set (r3 := set_document (with_final final (document r2)) r2) in *.
  destruct (record_checkpoint_spec _ _ _ _ Hrun) as (Hprev4 & Hpend4 & Hact4 & Hsnap4 & Hres4).
  pose proof (ba_total _ _ Hb1) as Hrange. pose proof (ba_covered _ _ Hb1) as Hcov. pose proof (ba_checkpoints _ _ Hb1) as Hcps.
  destruct (count_step (total_ticks (document r1)) (length (checkpoints (document r1)))) as [Hcount Hdiv];
    [lia|unfold len in *; lia|].
  assert (identity (document r') = identity (document r1) ∧ total_ticks (document r') = total_ticks (document r1) + 1
          ∧ segments (document r') = segments (document r2) ∧ initial_input (document r') = initial_input (document r1)
          ∧ final_state (document r') = final)
    as (Hid' & Htot' & Hseg' & Hini' & Hfin').
  { destruct res; [|destruct Hres4 as [Hres4 _]]; rewrite Hres4; simpl; split_and!; try done; congruence. }
  assert (all_segments r' = all_segments r2) as Hall' by (unfold all_segments; by rewrite Hseg', Hact4).
  assert (len (checkpoints (document r')) =
    len (checkpoints (document r1)) +
      (match res with Ok _ => if (total_ticks (document r1) + 1) `mod` COMPACT_CHECKPOINT_INTERVAL =? 0 then 1 else 0
       | Err _ => 0 end)) as Hlen'.
  { destruct res; [|destruct Hres4 as [Hres4 _]]; rewrite Hres4; simpl; rewrite Hcp2; [|lia].
    rewrite <- Htick. unfold len. rewrite length_app, Nat2Z.inj_add. by destruct (_ =? 0). }
  assert (base r' (log, None)) as Hb'.
  { split; rewrite ?Hid', ?Htot', ?Hall', ?Hlen', ?Hpend4, ?Hprev4, ?Hact4, ?Hsnap4.
    - apply Hb1.
    - apply Hres2.
    - lia.
    - rewrite (ap_covered _ _ _ Hres2). lia.
    - unfold len in *. rewrite Hdiv. destruct res; case_match; lia.
    - unfold r3. simpl. intros q Hq. congruence.
    - unfold r3. simpl. intros Hn. destruct (ap_active _ _ _ Hres2) as [_ [g Hg]]. congruence.
    - unfold r3. simpl. intros g _. rewrite (ap_previous _ _ _ Hres2). destruct (ap_active _ _ _ Hres2) as [-> _].
      split; [done|by eexists].
    - unfold r3. simpl. rewrite (ap_previous _ _ _ Hres2). done. }
  destruct res as [u|e].
  - split.
    { destruct Hb' as [H1 H2 H3 H4 H5 H6 H7 H8 H9]. by split. }
    destruct Hinv1 as [[-> Hl]|Hex].
    + left. split; [done|]. unfold lacks in *. rewrite Hall', Htot', Hlen', (ap_covered _ _ _ Hres2). rewrite Hdiv.
      destruct Hl as [Hl|Hl]; [left|right]; lia.
    + right. simpl. assert (observed_as compat (hi, hf, hash) (pt_input p)) as Hobs' by done.
      assert (append_compact_input (pt_input p) r1 = (r2, Ok tt)) as Eapp' by done.
      destruct (append_exact _ _ _ _ _ _ Hb1 Hroom Hpend1 Eapp' Hex Hobs' Hfresh1) as (Hin & Hok & Haft).
      eapply (exact_finish r1 r2 r' log (hi, hf, hash) hash (pt_input p)); try done.
      * rewrite Hres4. simpl. rewrite Hcp2. unfold completed_checkpoints. by rewrite <- Htick.
      * by rewrite Hfin', <- Htick.
  - split; [done|]. left. split; [by apply orb_true_r|]. right. destruct Hres4 as [_ Hmod]. simpl in Hmod. rewrite Htick in Hmod.
    rewrite Hlen', Htot', Hdiv, Hmod. simpl. lia.
Qed.

End invariant.
