(* ===== verification/RecordProps.v ===== *)
(** * Recording and replaying

    A recording that is published plays back the host frames and the hashes it was
    made from, whatever failed on the way; and a recording whose ticks all succeeded
    is refused only by the serializer or for its size. *)

From S2P Require Import Prelude BTree Identity RecordData RecordDocument Recorder ReplayPlayer.
From S2P Require Import RecordSegments RecordReplay RecorderInv.
#[local] Open Scope Z_scope.

(** ** Starting *)

Lemma fields_bound fields count : fields_ok fields count → 0 ≤ count → len fields ≤ count.
Proof.
  intros [Hf Hnd] Hc. unfold len. rewrite <- (length_fmap fd_index).
  assert (length (fd_index <$> fields) ≤ length (seq 0 (Z.to_nat count)))%nat as Hle.
  { apply submseteq_length, NoDup_submseteq; [done|].
    intros j (f & -> & (i & Hi)%list_elem_of_lookup)%list_elem_of_fmap.
    apply elem_of_seq. destruct (Hf i f Hi). lia. }
  rewrite length_seq in Hle. lia.
Qed.

(** A recorder that was started and has recorded nothing. *)
Record started (compat : CompactReplayCompatibility) (r : ReplayRecorder) : Prop := {
  st_recorder : ∃ i state n, r = mkRecorder None (Some (mkCompactRecorder (empty_document i state) n None None None None))
    ∧ compatibility i = compat;
  st_i32 : len (co_observed_i32 compat) ≤ MAX_HOST_FRAME_VALUES;
  st_f32 : len (co_observed_f32 compat) ≤ MAX_HOST_FRAME_VALUES;
}.

Lemma start_started `{ReplayCodec} contract output ni nf oi32 of32 metadata base program state r :
  0 ≤ ni → 0 ≤ nf →
  start_compact contract output ni nf oi32 of32 metadata base program state = Ok r →
  ∃ p, program = Ok p ∧ started (compact_replay_compatibility_from_snapshot p ni nf metadata) r.
Proof.
  intros Hi Hf Hs. unfold start_compact in Hs. destruct program as [p|e]; simpl in Hs; inv_checks; [|done].
  exists p. split; [done|]. injection Hs as <-.
  unfold host_dimensions_ok in *. to_props.
  repeat match goal with H : validate_compact_fields _ _ _ = Ok _ |- _ =>
    apply fields_validated in H; apply fields_bound in H; [|done] end.
  subst. split; simpl; [by do 3 eexists|lia..].
Qed.

Section recording.
Context `{ReplayCodec} (compat : CompactReplayCompatibility).

Lemma started_inv r :
  started compat r → ∃ c, r = mkRecorder None (Some c) ∧ recorder_inv compat false c ([], None).
Proof.
  intros [(i & state & n & -> & Hc) _ _]. eexists. split; [done|]. split.
  - by split.
  - right. split; simpl; try done; constructor.
Qed.

(** Whether all of the operations succeed. *)
Fixpoint all_succeed (ops : list RecorderOp) (r : ReplayRecorder) : bool :=
  match ops with
  | [] => true
  | op :: ops' => let '(r', result) := run_op op r in is_ok result && all_succeed ops' r'
  end.

Context (fields_i32 : len (co_observed_i32 compat) ≤ MAX_HOST_FRAME_VALUES).
Context (fields_f32 : len (co_observed_f32 compat) ≤ MAX_HOST_FRAME_VALUES).

Lemma run_op_inv failed op c done_ r' res :
  recorder_inv compat failed c done_ → run_op op (mkRecorder None (Some c)) = (r', res) →
  ∃ c', r' = mkRecorder None (Some c') ∧ recorder_inv compat (failed || is_err res) c' (note_op op res done_).
Proof.
  intros Hi. destruct op as [tick hi hf|h|tick]; simpl; unfold begin_tick, finish_tick, discard_tick, on_compact; simpl.
  - destruct (begin_compact_tick tick hi hf c) as [c' res'] eqn:E. intros [= <- <-]. exists c'. split; [done|].
    by eapply begin_inv.
  - destruct (finish_compact_tick h c) as [c' res'] eqn:E. intros [= <- <-]. exists c'. split; [done|].
    by eapply finish_inv.
  - destruct (discard_compact_tick tick c) as [c' res'] eqn:E. intros [= <- <-]. exists c'. split; [done|].
    by eapply discard_inv.
Qed.

Lemma run_ops_inv failed ops c done_ r' done' :
  recorder_inv compat failed c done_ → run_ops ops (mkRecorder None (Some c)) done_ = (r', done') →
  ∃ c', r' = mkRecorder None (Some c')
    ∧ recorder_inv compat (failed || negb (all_succeed ops (mkRecorder None (Some c)))) c' done'.
Proof.
  revert failed c done_. induction ops as [|op ops IH]; intros failed c done_ Hi; cbn [run_ops all_succeed].
  { intros [= <- <-]. exists c. split; [done|]. by rewrite orb_false_r. }
  destruct (run_op op (mkRecorder None (Some c))) as [r1 res] eqn:E.
  destruct (run_op_inv _ _ _ _ _ _ Hi E) as (c1 & -> & Hi1). intros Hrun.
  destruct (IH _ _ _ Hi1 Hrun) as (c' & -> & Hi'). exists c'. split; [done|].
  eapply inv_weaken; [done|]. unfold is_err. by destruct failed, (is_ok res).
Qed.

(** ** Publishing *)

(** The document of a recorder with its open segment. *)
Definition whole_document (c : CompactReplayRecorder) : CompactReplayDocumentV3 :=
  with_segments (all_segments c) (document c).

Lemma publish_inv c bytes :
  publish_compact c = Some (Ok bytes) →
  validate_compact_document_v3 (whole_document c) = Some (Ok tt)
  ∧ to_vec_document (whole_document c) = Ok bytes ∧ len bytes ≤ MAX_REPLAY_FILE_BYTES.
Proof.
  unfold publish_compact. case_bool_decide; [done|].
  destruct (flush_compact_segment c) as [c' [u|e]] eqn:Ef; [|done].
  apply flush_spec in Ef as (_ & _ & _ & _ & Hd). rewrite Hd. fold (whole_document c). case_match; [done|].
  intros Hp. unfold canonical_bytes in Hp. inv_checks. destruct_all unit.
  unfold publish_replay_bytes in Hp. apply (inj Some) in Hp. inv_checks. to_props.
  destruct (to_vec_document (whole_document c)); simplify_eq/=. done.
Qed.

Lemma validated_normalized d :
  validate_compact_document_v3 d = Some (Ok tt) →
  validate_compact_document (normalized d) = Some (Ok tt) ∧ schema_version d = COMPACT_REPLAY_SCHEMA_VERSION_V3.
Proof. unfold validate_compact_document_v3. intros Hv. inv_checks. by to_props. Qed.

Lemma gaps_plain segs total :
  Forall (λ g, tick_gap g = 0 ∧ 1 ≤ run_ticks g) segs → covered segs ≤ total → total ≤ MAX_REPLAY_FRAMES →
  Forall typed_segment segs ∧ len segs ≤ covered segs.
Proof.
  intros Hg. unfold len. induction Hg as [|g segs [Hgap Hrun] Hg IH]; simpl; intros Hc Ht; [split; [done|lia]|].
  assert (0 ≤ covered segs) by (clear -Hg; induction Hg as [|? ? [? ?]]; simpl; lia).
  destruct IH as [IH1 IH2]; [lia|done|]. split; [|lia]. constructor; [|done].
  unfold typed_segment, in_u, MAX_REPLAY_FRAMES in *. lia.
Qed.

(** A document that is published lacks nothing. *)
Lemma published_exact failed c done_ :
  0 ≤ co_host_i32_count compat → 0 ≤ co_host_f32_count compat →
  recorder_inv compat failed c done_ → validate_compact_document_v3 (whole_document c) = Some (Ok tt) →
  exact compat c done_.1 ∧ document_ok (normalized (whole_document c))
  ∧ Forall typed_segment (all_segments c).
Proof.
  intros Hi Hf [Hb He] [Hv _]%validated_normalized.
  destruct (gaps_plain _ _ (ba_gaps _ _ _ Hb) (ba_covered _ _ _ Hb)) as [Ht _]; [apply Hb|].
  assert (document_ok (normalized (whole_document c))) as Hd.
  { apply document_validated; [done|..|done]; simpl; by rewrite (ba_identity _ _ _ Hb). }
  split; [|done]. destruct He as [[_ [Hl|Hl]]|He]; [exfalso|exfalso|done].
  - pose proof (dk_covered _ Hd). simpl in *. lia.
  - pose proof (dk_count _ Hd). simpl in *. lia.
Qed.

End recording.

(** ** Faithfulness *)

(** A host frame shows what was recorded at the observed indices and 0 elsewhere. *)
Definition reproduces_lane (fields : list CompactField) (count : Z) (recorded shown : list Z) : Prop :=
  len shown = count
  ∧ ∀ j, (j < length shown)%nat →
      shown !! j = if decide (j ∈ (fd_index <$> fields)) then recorded !! j else Some 0.

Definition reproduces (compat : CompactReplayCompatibility) (e : Recorded) (frame : list Z * list Z) : Prop :=
  reproduces_lane (co_observed_i32 compat) (co_host_i32_count compat) e.1.1 frame.1
  ∧ reproduces_lane (co_observed_f32 compat) (co_host_f32_count compat) e.1.2 frame.2.

Lemma shows_reproduces lane fields count values recorded shown :
  fields_ok fields count → observe lane fields recorded = Ok values → shows fields count values shown →
  reproduces_lane fields count recorded shown.
Proof.
  intros [Hf _] [_ Ho]%observe_spec (Hl & Hin & Hout). split; [done|]. intros j Hj. case_decide as Hd.
  - apply list_elem_of_fmap in Hd as (f & -> & Hfin). destruct (Hin f Hfin) as [_ ->].
    apply list_elem_of_lookup in Hfin as [i Hi]. destruct (Hf i f Hi) as [-> _]. by destruct (Ho i f Hi).
  - by apply Hout.
Qed.

Lemma no_divergence d t hashes :
  (∀ k h e, hashes !! k = Some h → expected_hash d (t + Z.of_nat k) = Some e → h = e) →
  first_divergent d t hashes = None.
Proof.
  revert t. induction hashes as [|h hashes IH]; intros t He; cbn [first_divergent]; [done|].
  assert (first_divergent d (t + 1) hashes = None) as ->.
  { apply IH. intros k h' e Hk. replace (t + 1 + Z.of_nat k) with (t + Z.of_nat (S k)) by lia. by apply (He (S k)). }
  destruct (expected_hash d t) as [e|] eqn:Ee; [|done]. rewrite decide_True; [done|].
  apply (He 0%nat); [done|]. by rewrite Z.add_0_r.
Qed.

Lemma exact_hashes compat c log :
  exact compat c log → ∀ k h e, (snd <$> log) !! k = Some h →
  expected_hash (normalized (whole_document c)) (1 + Z.of_nat k) = Some e → h = e.
Proof.
  intros Hex k h e Hk. unfold expected_hash. simpl. pose proof (ex_total _ _ _ Hex) as Ht.
  rewrite list_lookup_fmap in Hk. destruct (Z.eqb_spec (1 + Z.of_nat k) (total_ticks (document c))) as [E|E].
  - intros [= <-]. destruct (ex_final _ _ _ Hex) as [_ Hl]; [by intros ->|]. rewrite last_lookup in Hl.
    replace (pred (length log)) with k in Hl by (unfold len in *; lia).
    exact (inj Some _ _ (eq_trans (eq_sym Hk) Hl)).
  - destruct (Z.eqb_spec ((1 + Z.of_nat k) `mod` COMPACT_CHECKPOINT_INTERVAL) 0) as [Hm|]; [|done].
    intros (cp & Hcp & ->)%fmap_Some. destruct (ex_checkpoints _ _ _ Hex _ _ Hcp) as [Htick Hh].
    unfold COMPACT_CHECKPOINT_INTERVAL in *.
    replace (Z.to_nat (cp_tick cp - 1)) with k in Hh by (Z.to_euclidean_division_equations; lia).
    exact (inj Some _ _ (eq_trans (eq_sym Hk) Hh)).
Qed.

(** The reader of JSON reads what the writer wrote. *)
Class ReplayCodecLaws `{ReplayCodec} : Prop := {
  v3_roundtrip : ∀ d bytes, to_vec_document d = Ok bytes →
    probe_replay_schema bytes = Ok (schema_version d) ∧ from_slice_v3 bytes = Ok d;
}.

Lemma load_published `{ReplayCodec, !ReplayCodecLaws} d bytes :
  to_vec_document d = Ok bytes → len bytes ≤ MAX_REPLAY_FILE_BYTES →
  validate_compact_document_v3 d = Some (Ok tt) →
  load bytes = Some (Ok (compact_player (normalized d) (Some (compatibility (identity d))))).
Proof.
  intros Hb Hl Hv. destruct (v3_roundtrip _ _ Hb) as [Hp Hf].
  destruct (validated_normalized _ Hv) as [_ Hs].
  unfold load, decode_versioned_replay. rewrite (proj2 (Z.leb_le _ _) Hl). simpl. rewrite Hp, Hs. simpl.
  rewrite Hf. simpl. by rewrite Hv.
Qed.

(** C2 What is recorded is what is replayed.  Whatever operations a recorder went
    through, failed ones included, if it publishes a recording then the recording loads,
    has as many ticks as were completed, and plays back tick for tick the host frame
    that was recorded at the observed indices (0 elsewhere), every recorded hash passing
    the verification. *)
Theorem published_recordings_replay `{ReplayCodec, !ReplayCodecLaws} contract output ni nf oi32 of32 metadata
    base program state ops r0 r log progress bytes :
  0 ≤ ni → 0 ≤ nf →
  start_compact contract output ni nf oi32 of32 metadata base program state = Ok r0 →
  run_ops ops r0 ([], None) = (r, (log, progress)) →
  publish r = Some (Ok bytes) →
  ∃ p compat player player' frames,
    program = Ok p ∧ compat = compact_replay_compatibility_from_snapshot p ni nf metadata
    ∧ load bytes = Some (Ok player) ∧ frame_count player = len log
    ∧ replay (snd <$> log) player = Some (player', frames, None)
    ∧ Forall2 (reproduces compat) log frames.
Proof.
  intros Hni Hnf Hstart Hrun Hpub.
  destruct (start_started _ _ _ _ _ _ _ _ _ _ _ Hni Hnf Hstart) as (p & Hp & Hst).
  set (compat := compact_replay_compatibility_from_snapshot p ni nf metadata) in *.
  destruct (started_inv _ _ Hst) as (c0 & -> & Hi0).
  destruct (run_ops_inv compat (st_i32 _ _ Hst) (st_f32 _ _ Hst) _ _ _ _ _ _ Hi0 Hrun) as (c & -> & Hi).
  apply publish_inv in Hpub as (Hv & Hbytes & Hlen).
  destruct (published_exact compat _ _ _ Hni Hnf Hi Hv) as (Hex & Hd & Ht). destruct Hi as [Hb _]. simpl in Hex.
  set (d := normalized (whole_document c)) in *.
  destruct (compact_player_ok d (Some (compatibility (identity (whole_document c)))) Hd) as [Hpl Hck].
  pose proof (ex_total _ _ _ Hex) as Htot.
  destruct (replay_from d 0 _ (snd <$> log) Hd Hpl Hck) as (player' & frames & Hr & Hlf & Hframes);
    [lia|change (total_ticks d) with (total_ticks (document c)); unfold len in *; rewrite length_fmap; lia|].
  rewrite (no_divergence d (0 + 1) _ (exact_hashes _ _ _ Hex)) in Hr, Hlf.
  exists p, compat. do 3 eexists. split_and!; [done|done|by apply load_published|done|exact Hr|].
  apply Forall2_same_length_lookup. split.
  { simpl in Hlf. unfold len in Hlf. rewrite length_fmap in Hlf. lia. }
  intros k e frame He Hfr. destruct (Hframes k frame Hfr) as (s & Hs & Hsi & Hsf).
  pose proof (ex_inputs _ _ _ Hex) as Hin. simpl in Hs.
  pose proof (Forall2_lookup_lr _ _ _ _ _ _ Hin He Hs) as Hobs.
  unfold observed_as, compact_snapshot_from_host in Hobs. inv_checks. injection Hobs as <-.
  pose proof (dk_fields_i32 _ Hd) as Hfi. pose proof (dk_fields_f32 _ Hd) as Hff. simpl in *.
  rewrite (ba_identity _ _ _ Hb) in *. by split; eapply shows_reproduces.
Qed.

(** ** Acceptance *)

(** The part of a document the recorder never changes. *)
Definition header (c : CompactReplayRecorder) : Z * CompactReplayIdentityV3 * InitialState :=
  (schema_version (document c), identity (document c), initial_state (document c)).

Section header.
Context `{ReplayCodec}.

Lemma append_header input r r' res : append_compact_input input r = (r', res) → header r' = header r.
Proof.
  unfold append_compact_input, start_segment. case_bool_decide.
  { repeat case_match; by intros [= <- <-]. }
  destruct (flush_compact_segment r) as [r1 [u|e]] eqn:Ef; intros [= <- <-];
    apply flush_spec in Ef as (_ & _ & _ & _ & Hd); unfold header; simpl.
  - by rewrite Hd.
  - by destruct Hd as [-> _].
Qed.

Lemma finish_header h r r' res : finish_compact_tick h r = (r', res) → header r' = header r.
Proof.
  unfold finish_compact_tick. destruct (pending r) as [p|]; [|by intros [= <- <-]].
  destruct h as [hash|e]; [|by intros [= <- <-]].
  destruct (record_baseline _ _) as [r1 res1] eqn:Eb. apply record_baseline_spec in Eb as (_ & _ & _ & _ & Hd).
  assert (header r1 = header r) as H1.
  { unfold header. rewrite Hd. simpl. by destruct (previous_input r). }
  destruct res1; [|by intros [= <- <-]].
  destruct (append_compact_input _ r1) as [r2 res2] eqn:Ea. apply append_header in Ea. rewrite H1 in Ea.
  destruct res2; [|by intros [= <- <-]]. intros Hc. apply record_checkpoint_spec in Hc as (_ & _ & _ & _ & Hd').
  destruct res as [u|e]; [|destruct Hd' as [Hd' _]]; rewrite <- Ea; unfold header; by rewrite Hd'.
Qed.

Lemma run_ops_header ops c done_ r' done' :
  run_ops ops (mkRecorder None (Some c)) done_ = (r', done') →
  ∃ c', r' = mkRecorder None (Some c') ∧ header c' = header c.
Proof.
  revert c done_. induction ops as [|op ops IH]; intros c done_; cbn [run_ops]; [intros [= <- <-]; by exists c|].
  destruct (run_op op (mkRecorder None (Some c))) as [r1 res] eqn:E. intros Hrun.
  assert (∃ c1, r1 = mkRecorder None (Some c1) ∧ header c1 = header c) as (c1 & -> & H1).
  { destruct op as [tick hi hf|h|tick]; simpl in E; unfold begin_tick, finish_tick, discard_tick, on_compact in E;
      simpl in E; injection E as <- _; eexists; (split; [done|]).
    - unfold begin_compact_tick. by repeat case_match.
    - destruct (finish_compact_tick h c) as [c' res'] eqn:Ef. by apply finish_header in Ef.
    - unfold discard_compact_tick. by repeat case_match. }
  destruct (IH _ _ Hrun) as (c' & -> & Hc'). exists c'. split; [done|]. congruence.
Qed.

End header.

(** The errors of the serializer and of the size of a recording. *)
Definition resource_error (e : ReplayError) : bool :=
  match e with Encoding _ | TooLarge _ | SizeOverflow | OverFileLimit _ => true | _ => false end.

Lemma flush_error `{ReplayCodec} r r' e :
  flush_compact_segment r = (r', Err e) → len (segments (document r)) < MAX_REPLAY_FRAMES → resource_error e = true.
Proof.
  unfold flush_compact_segment, reserve_compact_bytes. intros Hf Hl. destruct (active_segment r); [|done].
  simpl in Hf. rewrite (proj2 (Z.leb_gt _ _) Hl) in Hf. repeat case_match; simplify_eq/=; done.
Qed.

Lemma checkpoints_accepted i cs :
  (∀ j c, cs !! j = Some c → cp_tick c = (Z.of_nat (i + j) + 1) * COMPACT_CHECKPOINT_INTERVAL
     ∧ validate_compact_hash "checkpoint state_sha256" (cp_state_sha256 c) = Ok tt) →
  validate_checkpoints i cs = Ok tt.
Proof.
  revert i. induction cs as [|c cs IH]; intros i Hc; cbn [validate_checkpoints]; [done|].
  destruct (Hc 0%nat c eq_refl) as [Ht Hh]. rewrite Nat.add_0_r in Ht. rewrite Ht, Z.eqb_refl. simpl. rewrite Hh. simpl.
  apply IH. intros j c' Hj. rewrite Nat.add_succ_comm. by apply (Hc (S j)).
Qed.

Definition valid_hash (s : str) : Prop := len s = 64 ∧ forallb is_lower_hex s = true.

Lemma valid_hash_accepted label s : valid_hash s → validate_compact_hash label s = Ok tt.
Proof. intros [Hl Hh]. unfold validate_compact_hash. by rewrite Hl, Hh. Qed.

Lemma ok_step {A B} (v : A) r (k : A → option (Result B ReplayError)) y :
  r = Some (Ok v) → k v = y → fallible_bind r k = y.
Proof. by intros -> <-. Qed.

Lemma check_step {B} b e (k : unit → option (Result B ReplayError)) y :
  b = true → k tt = y → fallible_bind (Some (ensure b e)) k = y.
Proof. by intros -> <-. Qed.

(** What a recorder recorded without a failure passes the validation. *)
Lemma exact_validates `{ReplayCodec} compat c log :
  let d := whole_document c in
  exact compat c log → log ≠ [] → compatibility (identity d) = compat → Forall (λ e, valid_hash e.2) log →
  total_ticks d ≤ MAX_REPLAY_FRAMES → Forall (λ g, tick_gap g = 0 ∧ 1 ≤ run_ticks g) (all_segments c) →
  schema_version d = COMPACT_REPLAY_SCHEMA_VERSION_V3 →
  validate_compact_field_text "producer target" (pr_target (producer (identity d))) = Ok tt →
  validate_identity (compact_v2_identity_from_v3 (identity d)) = Ok tt →
  validate_compact_initial_state (initial_state d) = Ok tt →
  validate_compact_document_v3 d = Some (Ok tt).
Proof.
  intros d Hex Hne Hcompat Hhashes Hmax Hgaps Hs Ht Hi Hst.
  assert (∀ k h, snd <$> log !! k = Some h → valid_hash h) as Hhash.
  { intros k h Hk. apply fmap_Some in Hk as (e & He & ->). by apply (Forall_lookup_1 _ _ _ _ Hhashes He). }
  pose proof (ex_total _ _ _ Hex) as Htot. destruct (ex_final _ _ _ Hex Hne) as [Hft Hfh].
  assert (0 < len log) as Hpos by (destruct log; [done|unfold len; simpl; lia]).
  pose proof (length_inputs _ _ (ex_segments _ _ _ Hex)) as Hcov. unfold len in Hcov.
  pose proof (Forall2_length _ _ _ (ex_inputs _ _ _ Hex)) as Hlen.
  pose proof (covered_range _ _ (ex_segments _ _ _ Hex)) as Hsegs.
  change (total_ticks d) with (total_ticks (document c)) in *.
  assert (covered (all_segments c) = total_ticks (document c)) as Hcover by (unfold len in *; lia).
  unfold validate_compact_document_v3.
  apply check_step; [by rewrite Hs|]. apply (ok_step tt); [by rewrite Ht|].
  apply (ok_step tt).
  { revert Hi. unfold validate_identity. intros Hi. inv_checks.
    repeat match goal with H : validate_compact_hash _ _ = Ok ?x |- _ => is_var x; destruct x end.
    rename select (validate_compact_hash "runtime_sha256" _ = _) into Hr. f_equal.
    apply ensure_Ok in Hr. by apply ensure_Ok. }
  unfold validate_compact_document. change (identity (normalized d)) with (compact_v2_identity_from_v3 (identity d)).
  apply check_step; [done|]. apply (ok_step tt); [by rewrite Hi|]. apply (ok_step tt); [by rewrite <- Hst|].
  apply check_step.
  { destruct log as [|e log]; [done|].
    destruct (Forall2_cons_inv_l _ _ _ _ (ex_inputs _ _ _ Hex)) as (s & ss & Hobs & _ & Hins).
    pose proof (ex_first _ _ _ Hex s) as Hfirst. rewrite Hins in Hfirst. simpl. rewrite (Hfirst eq_refl).
    destruct (observed_length _ _ _ Hobs) as [Hli Hlf]. rewrite <- Hcompat in Hli, Hlf. simpl in Hli, Hlf.
    by rewrite Hli, Hlf, !Nat.eqb_refl. }
  apply check_step.
  { apply andb_true_iff. split; [apply negb_true_iff, Z.eqb_neq|apply Z.leb_le]; simpl; lia. }
  apply check_step.
  { apply negb_true_iff, bool_decide_eq_false. simpl. intros Hnil. rewrite Hnil in Hcover. simpl in Hcover. lia. }
  apply check_step; [apply Z.leb_le; simpl; lia|].
  eapply ok_step.
  { apply (validate_segments_complete (total_ticks (document c)) 0 (all_segments c) (initial_input (document c)) 0);
      [by apply Hex|lia|lia|unfold MAX_REPLAY_FRAMES, u64_max in *; lia|].
    intros g rest Hg _. rewrite Hg in Hgaps. by apply Forall_cons in Hgaps as [[? _] _]. }
  apply check_step; [apply Z.eqb_eq; simpl; lia|].
  pose proof (ex_count _ _ _ Hex) as Hcount.
  apply check_step.
  { apply Z.leb_le. simpl. rewrite Hcount.
    unfold MAX_COMPACT_CHECKPOINTS, MAX_REPLAY_FRAMES, COMPACT_CHECKPOINT_INTERVAL in *.
    Z.to_euclidean_division_equations; lia. }
  apply check_step; [by apply Z.eqb_eq|].
  apply (ok_step tt).
  { rewrite checkpoints_accepted; [done|]. intros j cp Hj. destruct (ex_checkpoints _ _ _ Hex j cp Hj) as [Hjt Hjh].
    split; [done|]. apply valid_hash_accepted. by eapply Hhash. }
  apply check_step; [apply Z.eqb_eq; simpl; lia|].
  rewrite last_lookup in Hfh.
  apply (ok_step tt); [rewrite valid_hash_accepted; [done|]; by eapply Hhash|].
  f_equal. apply ensure_Ok. simpl. unfold last_checkpoint_agrees.
  destruct (last (checkpoints (document c))) as [cp|] eqn:El; [|done]. apply negb_true_iff, andb_false_iff.
  destruct (Z.eqb_spec (cp_tick cp) (total_ticks (document c))) as [E|E]; [right|by left].
  apply negb_false_iff, bool_decide_eq_true. rewrite last_lookup in El.
  destruct (ex_checkpoints _ _ _ Hex _ _ El) as [_ Hh].
  replace (Z.to_nat (cp_tick cp - 1)) with (pred (length log)) in Hh by (unfold len in *; lia). congruence.
Qed.

(** A recorder never makes a recording it would refuse.  If its operations all
    succeeded, a tick was completed, none is in progress, the header of the recording
    passes the validation and the hashes are hashes, then publishing gives the bytes,
    or an error of the serializer or of the size limits. *)
Theorem recordings_are_accepted `{ReplayCodec} contract output ni nf oi32 of32 metadata
    base program state ops r0 c0 r log :
  0 ≤ ni → 0 ≤ nf →
  start_compact contract output ni nf oi32 of32 metadata base program state = Ok r0 → compact r0 = Some c0 →
  validate_compact_field_text "producer target" (pr_target (producer (identity (document c0)))) = Ok tt →
  validate_identity (compact_v2_identity_from_v3 (identity (document c0))) = Ok tt →
  validate_compact_initial_state (initial_state (document c0)) = Ok tt →
  run_ops ops r0 ([], None) = (r, (log, None)) → all_succeed ops r0 = true →
  log ≠ [] → Forall (λ e, valid_hash e.2) log →
  ∃ result, publish r = Some result ∧
    match result with Ok _ => True | Err e => resource_error e = true end.
Proof.
  intros Hni Hnf Hstart Hc0 Htarget Hid Hstate Hrun Hsucc Hne Hhashes.
  destruct (start_started _ _ _ _ _ _ _ _ _ _ _ Hni Hnf Hstart) as (p & Hp & Hst).
  set (compat := compact_replay_compatibility_from_snapshot p ni nf metadata) in *.
  destruct (started_inv _ _ Hst) as (c0' & -> & Hi0). simpl in Hc0. injection Hc0 as ->.
  destruct (run_ops_inv compat (st_i32 _ _ Hst) (st_f32 _ _ Hst) _ _ _ _ _ _ Hi0 Hrun) as (c & -> & Hi).
  destruct (run_ops_header _ _ _ _ _ Hrun) as (c' & Ec & Hh). injection Ec as <-.
  rewrite Hsucc in Hi. destruct Hi as [Hb [[? _]|Hex]]; [done|]. simpl in Hex.
  assert (schema_version (document c0) = COMPACT_REPLAY_SCHEMA_VERSION_V3) as Hs0.
  { destruct Hst as [(i & st & n & E & _) _ _]. by injection E as ->. }
  unfold header in Hh. injection Hh as Hh1 Hh2 Hh3.
  assert (validate_compact_document_v3 (whole_document c) = Some (Ok tt)) as Hv.
  { apply (exact_validates compat c log); try done; simpl; rewrite ?Hh1, ?Hh2, ?Hh3; try done; try apply Hb.
    rewrite <- Hh2. apply Hb. }
  change (publish (mkRecorder None (Some c))) with (publish_compact c). unfold publish_compact.
  rewrite bool_decide_false.
  2: { intros [q Hq]. destruct (ba_pending _ _ _ Hb q Hq) as (_ & _ & hi & hf & Hcf & _). done. }
  destruct (flush_compact_segment c) as [c1 [u|e]] eqn:Ef.
  2: { eexists. split; [done|]. simpl. eapply flush_error; [done|]. apply flush_spec in Ef as (_ & _ & _ & _ & _ & [g Hg]).
       pose proof (covered_range _ _ (ex_segments _ _ _ Hex)) as Hr. pose proof (ba_covered _ _ _ Hb) as Hcv.
       pose proof (ba_total _ _ _ Hb). unfold all_segments in Hr at 1. rewrite Hg in Hr. unfold len in *.
       rewrite length_app in Hr. simpl in Hr. lia. }
  apply flush_spec in Ef as (_ & _ & _ & _ & Hd). rewrite Hd. fold (whole_document c).
  assert ((total_ticks (whole_document c) =? 0) = false) as ->.
  { apply Z.eqb_neq. simpl. rewrite (ex_total _ _ _ Hex). destruct log; [done|unfold len; simpl; lia]. }
  unfold canonical_bytes. rewrite Hv. simpl. destruct (to_vec_document (whole_document c)) as [bytes|e]; simpl; [|by eexists].
  destruct (Z.leb_spec (len bytes) MAX_REPLAY_FILE_BYTES) as [Hl|Hl]; simpl; [|by eexists].
  unfold publish_replay_bytes. rewrite (proj2 (Z.leb_le _ _) Hl). by eexists.
Qed.

(** ** A sample recording

    A codec that writes two documents, the recorder's empty one and a recording of three
    ticks, and the instances of the theorems about recordings at it. *)
#[local] Open Scope Z_scope.

Definition sample_hash (k : Z) : str := replicate 64 (48 + k).

Definition sample_program : ProgramReplayCompatibility :=
  {| pc_source_sha256 := sample_hash 1;
     pc_state_layout_sha256 := sample_hash 2;
     pc_compiler_layout_sha256 := sample_hash 3;
     pc_input_usage_sha256 := sample_hash 0;
     pc_observed_i32 := [mkField 0 2 (string_bytes "frame.key") (string_bytes "input")];
     pc_observed_f32 := [mkField 0 1 (string_bytes "frame.axis") (string_bytes "input")] |}.

Definition sample_metadata : CompactReplayMetadata :=
  mkMetadata (sample_hash 4) None 4 60 (string_bytes "input_only_no_external_observations") None.

Definition sample_state : InitialState :=
  mkInitialState
    [mkEntry (ScalarLocation (string_bytes "game.score")) (mkEncoded (string_bytes "i32") (string_bytes "0000002a"))]
    (sample_hash 5).

Definition sample_target : ReplayIdentity :=
  mkLegacyIdentity (string_bytes "0.1") (string_bytes "development") (string_bytes "x86_64-linux") [] [] 4 2.

(** The codec before it knows its documents, for the constants of the build. *)
Definition codec_writing (documents : list CompactReplayDocumentV3) : ReplayCodec :=
  {| digest := λ _, replicate 32 0;
     CARGO_PKG_VERSION := string_bytes "0.1";
     STASIS_RELEASE_ID := None;
     to_vec_document := λ d,
       match list_find (d =.) documents with Some (i, _) => Ok [Z.of_nat i] | None => Err [] end;
     to_vec_segment := λ _, Ok [0];
     to_vec_baseline := λ _, Ok [0];
     to_vec_checkpoint := λ _, Ok [0];
     to_vec_legacy := λ _, Err [];
     probe_replay_schema := λ _, Ok COMPACT_REPLAY_SCHEMA_VERSION_V3;
     from_slice_v1 := λ _, Err [];
     from_slice_v2 := λ _, Err [];
     from_slice_v3 := λ bytes,
       match bytes with [i] => ok_or (documents !! Z.to_nat i) [] | _ => Err [] end |}.

Lemma codec_writing_laws documents :
  Forall (λ d, schema_version d = COMPACT_REPLAY_SCHEMA_VERSION_V3) documents →
  @ReplayCodecLaws (codec_writing documents).
Proof.
  intros Hs. split. intros d bytes. simpl. destruct (list_find (d =.) documents) as [[i d']|] eqn:E; [|done].
  intros [= <-]. apply list_find_Some in E as (Hi & -> & _). rewrite Nat2Z.id, Hi.
  rewrite (Forall_lookup_1 _ _ _ _ Hs Hi). done.
Qed.

Definition sample_identity : CompactReplayIdentityV3 :=
  mkIdentityV3 (@compact_replay_compatibility_from_snapshot (codec_writing []) sample_program 4 2 sample_metadata)
    (mkProducer (string_bytes "x86_64-linux") (sample_hash 4)).

(** Two ticks with the same input and one with another. *)
Definition sample_document : CompactReplayDocumentV3 :=
  {| schema_version := COMPACT_REPLAY_SCHEMA_VERSION_V3;
     identity := sample_identity;
     initial_state := sample_state;
     initial_input := mkSnapshot [5] [7];
     segments := [mkSegment 0 2 [] []; mkSegment 0 1 [mkChange 0 9] []];
     checkpoints := [];
     total_ticks := 3;
     final_state := mkCheckpoint 3 (sample_hash 8) |}.

#[local] Instance sample_codec : ReplayCodec :=
  codec_writing [empty_document sample_identity sample_state; sample_document].

#[local] Instance sample_laws : ReplayCodecLaws.
Proof. apply codec_writing_laws. by repeat constructor. Defined.

Definition sample_start : Result ReplayRecorder ReplayError :=
  start_compact (Ok tt) (Ok tt) 4 2 (pc_observed_i32 sample_program) (pc_observed_f32 sample_program)
    sample_metadata (Ok sample_target) (Ok sample_program) (Ok sample_state).

Definition sample_recorder : ReplayRecorder :=
  match sample_start with Ok r => r | Err _ => mkRecorder None None end.

Definition first_ticks : list RecorderOp :=
  [OpBegin 1 [0; 1; 5; 0] [0; 7]; OpFinish (Ok (sample_hash 6));
   OpBegin 2 [3; 0; 5; 0] [2; 7]; OpFinish (Ok (sample_hash 7))].

Definition last_tick : list RecorderOp := [OpBegin 3 [0; 0; 9; 0] [0; 7]; OpFinish (Ok (sample_hash 8))].

(** The third tick fails at first, is discarded, and then succeeds. *)
Definition sample_ops : list RecorderOp :=
  first_ticks ++ [OpBegin 3 [0; 0; 1; 0] [0; 7]; OpFinish (Err []); OpBegin 3 [0; 0; 2; 0] [0; 7]; OpDiscard 3]
  ++ last_tick.

Definition sample_log : list Recorded :=
  [([0; 1; 5; 0], [0; 7], sample_hash 6); ([3; 0; 5; 0], [2; 7], sample_hash 7);
   ([0; 0; 9; 0], [0; 7], sample_hash 8)].

Example sample_published :
  publish (run_ops sample_ops sample_recorder ([], None)).1 = Some (Ok [1]).
Proof. vm_compute. reflexivity. Qed.

Lemma published_recordings_replay_witness :
  ∃ p compat player player' frames,
    Ok p = (Ok sample_program : Result _ str)
    ∧ compat = compact_replay_compatibility_from_snapshot p 4 2 sample_metadata
    ∧ load [1] = Some (Ok player) ∧ frame_count player = 3
    ∧ replay (snd <$> sample_log) player = Some (player', frames, None)
    ∧ Forall2 (reproduces compat) sample_log frames.
Proof.
  destruct (published_recordings_replay (Ok tt) (Ok tt) 4 2 (pc_observed_i32 sample_program)
              (pc_observed_f32 sample_program) sample_metadata (Ok sample_target) (Ok sample_program)
              (Ok sample_state) sample_ops sample_recorder
              (run_ops sample_ops sample_recorder ([], None)).1 sample_log None [1])
    as (p & compat & player & player' & frames & Hp & H).
  - lia.
  - lia.
  - vm_compute. reflexivity.
  - vm_compute. reflexivity.
  - vm_compute. reflexivity.
  - exists p, compat, player, player', frames. split; [exact (eq_sym Hp)|exact H].
Defined.

Lemma playback_exact_witness :
  ∃ p frames,
    replay [sample_hash 6; sample_hash 7; sample_hash 9] (compact_player (normalized sample_document) None)
    = Some (p, frames, Some (3, DivergedWithin 1 3 (sample_hash 8) (sample_hash 9)))
    ∧ len frames = 3
    ∧ ∀ k frame, frames !! k = Some frame →
        ∃ s, compact_input_at_tick (normalized sample_document) (Z.of_nat k + 1) = Some (Ok s)
          ∧ frame_shows (normalized sample_document) s frame.
Proof.
  apply (playback_exact (normalized sample_document) None [sample_hash 6; sample_hash 7; sample_hash 9]).
  - repeat constructor; done.
  - done.
  - done.
  - vm_compute. reflexivity.
  - done.
Defined.

Lemma recordings_are_accepted_witness :
  ∃ result, publish (run_ops (first_ticks ++ last_tick) sample_recorder ([], None)).1 = Some result ∧
    match result with Ok _ => True | Err e => resource_error e = true end.
Proof.
  apply (recordings_are_accepted (Ok tt) (Ok tt) 4 2 (pc_observed_i32 sample_program)
           (pc_observed_f32 sample_program) sample_metadata (Ok sample_target) (Ok sample_program)
           (Ok sample_state) (first_ticks ++ last_tick) sample_recorder
           (mkCompactRecorder (empty_document sample_identity sample_state) 4097 None None None None)
           _ sample_log).
  - lia.
  - lia.
  - vm_compute. reflexivity.
  - vm_compute. reflexivity.
  - vm_compute. reflexivity.
  - vm_compute. reflexivity.
  - vm_compute. reflexivity.
  - vm_compute. reflexivity.
  - vm_compute. reflexivity.
  - done.
  - repeat constructor; done.
Defined.
