(* ===== verification/ModuleGraph.v ===== *)
(** * The module graph

    Models the graph side of [crates/stasis_compiler/src/frontend/module_graph.rs]:
    loading the modules the roots import, the policy for graphics internals, the check
    of the aliases, the traversal and the closures.

    [load_source] is the reader of the caller; it is asked for a module at most once,
    so a function stands for the [FnMut].  The declaration parsers of
    [frontend/parser.rs] and the embedded standard library are the class
    [GraphicsFrontEnd].  [None] is a panic of [parse_imports] or a lack of fuel. *)

From S2P Require Import Prelude BTree Worklist Lexer Identity Text Imports.
#[local] Open Scope Z_scope.

(** ** Exposure *)

Inductive WorkshopExposure := Public | Internal.

#[export] Instance WorkshopExposure_eq_dec : EqDecision WorkshopExposure.
Proof. solve_decision. Defined.

Definition is_public (e : WorkshopExposure) : bool := bool_decide (e = Public).

(** [str::contains] of a pattern. *)
Fixpoint contains_str (pattern s : str) : bool :=
  starts_with pattern s || match s with [] => false | _ :: s' => contains_str pattern s' end.

Definition workshop_file_exposure (path : str) : WorkshopExposure :=
  let normalized := [SEP] ++ trim_start_matches SEP (replace_byte BACKSLASH [SEP] path) in
  if contains_str (string_bytes "/stdlib/internal/") normalized ||
     contains_str (string_bytes "/stdlib/testing/") normalized
  then Internal else Public.

(** ** Graphics internals *)

Record ExternDeclaration := mkExtern {
  extern_name : str;
  extern_symbol : str;
  extern_name_range : nat * nat;
}.

(** What the policy takes from the declaration parsers and the embedded sources. *)
Class GraphicsFrontEnd := {
  (** the enum and struct names of [parse_top_level_type_layout] *)
  type_layout_names : str → Result (list str * list str) str;
  (** [parse_top_level_extern_functions] *)
  extern_functions : str → Result (list ExternDeclaration) str;
  gfx_cmd_source : str;
  asset_tasks_source : str;
  graphics_source : str;
}.

Section policy.
Context `{GraphicsFrontEnd}.

Definition is_graphics_file (root path : str) : bool :=
  bool_decide (path = root ++ string_bytes "/graphics.stasis") ||
  bool_decide (path = root ++ string_bytes "/asset_tasks.stasis") ||
  bool_decide (path = root ++ string_bytes "/internal/gfx_cmd.stasis").

(** [trim_start_matches("./")] *)
Fixpoint trim_dot_slash (fuel : nat) (path : str) : str :=
  match fuel with
  | O => path
  | S fuel' =>
      match strip_prefix [DOT; SEP] path with
      | Some rest => trim_dot_slash fuel' rest
      | None => path
      end
  end.

Definition is_vendored_graphics (path root : str) : bool :=
  is_graphics_file root path ||
  match
    (match strip_suffix (string_bytes "/graphics.stasis") path with
     | Some prefix => Some prefix
     | None =>
         match strip_suffix (string_bytes "/asset_tasks.stasis") path with
         | Some prefix => Some prefix
         | None => strip_suffix (string_bytes "/internal/gfx_cmd.stasis") path
         end
     end)
  with
  | Some prefix => bool_decide (prefix = root) || ends_with ([SEP] ++ root) prefix
  | None => false
  end.

Definition is_recognized_graphics_implementation_path (path : str) : bool :=
  let path := trim_dot_slash (length path) path in
  if is_graphics_file (string_bytes "src/stdlib") path ||
     is_graphics_file (string_bytes ".stasis_cache/toolchain/src/stdlib") path then true
  else existsb (is_vendored_graphics path)
         [string_bytes "vendor/stasis/stdlib"; string_bytes "vendor/stasis/src/stdlib"].

(** [replace] of a two-byte line ending by a newline. *)
Fixpoint unix_lines (s : str) : str :=
  match s with
  | 13 :: ((10 :: _) as s') => unix_lines s'
  | c :: s' => c :: unix_lines s'
  | [] => []
  end.

Definition is_recognized_graphics_implementation_source (path source : str) : bool :=
  if negb (is_recognized_graphics_implementation_path path) then false
  else
    let normalized := replace_byte BACKSLASH [SEP] path in
    let expected :=
      if ends_with (string_bytes "/internal/gfx_cmd.stasis") normalized ||
         bool_decide (normalized = string_bytes "src/stdlib/internal/gfx_cmd.stasis")
      then gfx_cmd_source
      else if ends_with (string_bytes "/asset_tasks.stasis") normalized ||
              bool_decide (normalized = string_bytes "src/stdlib/asset_tasks.stasis")
      then asset_tasks_source
      else graphics_source in
    bool_decide (source = expected) || bool_decide (unix_lines source = unix_lines expected).

Definition is_explicit_graphics_test_seam_path (path : str) : bool :=
  starts_with (string_bytes "tests/stasis/") (replace_byte BACKSLASH [SEP] path).

Definition is_privileged_graphics_extern (name symbol : str) : bool :=
  starts_with (string_bytes "stasis_gfx_") symbol ||
  starts_with (string_bytes "stasis_jit_gfx_") symbol ||
  starts_with (string_bytes "gfx_") name ||
  bool_decide (name ∈ string_bytes <$> ["load_font"; "measure_text"; "font_status"]%string) ||
  bool_decide (symbol ∈ string_bytes <$>
    ["stasis_jit_sprite_load_from"; "stasis_jit_text_run_load_from";
     "stasis_jit_text_run_replace_from"; "stasis_jit_asset_request_sprite";
     "stasis_font_status"; "stasis_jit_font_status"]%string).

Definition is_graphics_identifier (identifier : str) : bool :=
  starts_with (string_bytes "gfx_cmd_") identifier ||
  starts_with (string_bytes "gfx_sprite_writer_") identifier ||
  starts_with (string_bytes "GFX_") identifier ||
  starts_with (string_bytes "graphics_line_batch_") identifier.

(** The loop over the identifiers of a source. *)
Fixpoint identifier_policy (path source : str) (tokens : list Token) :
    option (Result unit SourceDiagnostic) :=
  match tokens with
  | [] => Some (Ok tt)
  | token :: tokens' =>
      if negb (bool_decide (kind token = Identifier)) then identifier_policy path source tokens'
      else
        identifier ← token_text source token;
        if is_graphics_identifier identifier then
          Some (Err (diagnostic path (start token, end_ token) identifier
            (string_bytes "graphics internal identifier '" ++ identifier ++
             string_bytes "' is unavailable here; use stdlib/graphics.stasis")))
        else identifier_policy path source tokens'
  end.

Definition SPRITE_REF : str := string_bytes "SpriteRef".

(** The declarations of a source must not be privileged. *)
Definition declaration_policy (path source : str) : Result unit SourceDiagnostic :=
  let? _ := match type_layout_names source with
            | Ok (enums, structs) =>
                if bool_decide (SPRITE_REF ∈ enums) || bool_decide (SPRITE_REF ∈ structs)
                then Err (diagnostic path (0%nat, 0%nat) SPRITE_REF (string_bytes
                  "SpriteRef is a sealed compiler-owned graphics type and cannot be redefined"))
                else Ok tt
            | Err _ => Ok tt
            end in
  match extern_functions source with
  | Ok externals =>
      match List.find (λ e, is_privileged_graphics_extern (extern_name e) (extern_symbol e)) externals with
      | Some external =>
          Err (diagnostic path (extern_name_range external) (extern_name external)
            (string_bytes "privileged graphics extern '" ++ extern_symbol external ++
             string_bytes "' may only be declared by the compiler-owned graphics library"))
      | None => Ok tt
      end
  | Err _ => Ok tt
  end.

Definition validate_graphics_internal_source_policy (path source : str)
    (imports : list ModuleImport) (allow_graphics_test_seams : bool) :
    option (Result unit SourceDiagnostic) :=
  let normalized := replace_byte BACKSLASH [SEP] path in
  if is_recognized_graphics_implementation_source normalized source ||
     (allow_graphics_test_seams && is_explicit_graphics_test_seam_path normalized)
  then Some (Ok tt)
  else
    match List.find (λ i, ends_with (string_bytes "stdlib/internal/gfx_cmd.stasis") (import_target i))
            imports with
    | Some import =>
        Some (Err (diagnostic path (import_span import) (import_path import) (string_bytes
          "graphics command storage is internal; import stdlib/graphics.stasis and use its public API")))
    | None =>
        match declaration_policy path source with
        | Err e => Some (Err e)
        | Ok _ =>
            tokens ← lex_with_diagnostic source;
            match tokens with
            | Err error =>
                Some (Err (diagnostic path (offset error, offset error)
                  (string_bytes "graphics internal") (string_bytes (message error))))
            | Ok tokens => identifier_policy path source tokens
            end
        end
    end.
End policy.

(** ** The graph *)

Record ModuleRecord := mkModule {
  module_path : str;
  record_alias : str;
  module_imports : list ModuleImport;
}.

Record ModuleGraph := mkGraph {
  roots : list str;                           (* BTreeSet *)
  modules : list (str * ModuleRecord);        (* BTreeMap *)
  reverse_edges : list (str * list str);      (* BTreeMap of BTreeSets *)
  traversal : list str;
}.

(** An import that a module is loaded for: importer, span, declaration and alias. *)
Definition ImportedFrom : Type := str * (nat * nat) * (nat * nat) * str.

Section load.
Context `{GraphicsFrontEnd}.
Context (load_source : str → Result str str).
Context (allow_graphics_test_seams : bool) (synthetic_import : option str).

Definition load_error (path : str) (imported_from : option ImportedFrom) (message : str) :
    SourceDiagnostic :=
  match imported_from with
  | None => SourceDiagnostic_new path 0 0 (module_alias path) message
  | Some (importer, span, declaration, alias) =>
      with_fix (removal_fix (string_bytes "Remove unresolved import '" ++ alias ++ string_bytes "'")
                  importer declaration)
        (with_code MissingModule (SourceDiagnostic_new importer span.1 span.2 alias message))
  end.

(** The synthetic import, added to every other module that lacks it. *)
Definition add_synthetic (path source : str) (imports : list ModuleImport) : list ModuleImport :=
  match synthetic_import with
  | Some target =>
      if bool_decide (target = path) || existsb (λ i, bool_decide (import_target i = target)) imports
      then imports
      else imports ++ [mkImport target target (module_alias target)
                         (length source, length source) (length source, length source)]
  | None => imports
  end.

(** One module: its source and its imports. *)
Definition read_module (path : str) (imported_from : option ImportedFrom) :
    option (Result (str * list ModuleImport) SourceDiagnostic) :=
  match load_source path with
  | Err message => Some (Err (load_error path imported_from message))
  | Ok source =>
      imports ← parse_imports path source;
      match imports with
      | Err e => Some (Err e)
      | Ok imports =>
          let imports := add_synthetic path source imports in
          policy ← validate_graphics_internal_source_policy path source imports
                     allow_graphics_test_seams;
          match policy with
          | Err e => Some (Err e)
          | Ok _ => Some (Ok (source, imports))
          end
      end
  end.

Definition imported_entry (path : str) (i : ModuleImport) : str * option ImportedFrom :=
  (import_target i, Some (path, import_span i, declaration_span i, import_alias i)).

(** What a module pushes: its imports that are not loaded, the first on top. *)
Definition new_pending (path : str) (imports : list ModuleImport)
    (modules : list (str * ModuleRecord)) : list (str * option ImportedFrom) :=
  imported_entry path <$>
    filter (λ i, map_get (import_target i) modules = None) imports.

(** [while let Some((path, imported_from)) = pending.pop()]; the head is the top. *)
Fixpoint load_loop (fuel : nat) (pending : list (str * option ImportedFrom))
    (sources : list (str * str)) (modules : list (str * ModuleRecord)) :
    option (Result (list (str * str) * list (str * ModuleRecord)) SourceDiagnostic) :=
  match fuel with
  | O => None
  | S fuel' =>
      match pending with
      | [] => Some (Ok (sources, modules))
      | (path, imported_from) :: pending' =>
          match map_get path modules with
          | Some _ => load_loop fuel' pending' sources modules
          | None =>
              loaded ← read_module path imported_from;
              match loaded with
              | Err e => Some (Err e)
              | Ok (source, imports) =>
                  load_loop fuel' (new_pending path imports modules ++ pending')
                    (map_insert path source sources)
                    (map_insert path (mkModule path (module_alias path) imports) modules)
              end
          end
      end
  end.
End load.

(** ** Aliases *)

(** The first import of [path], with its importer. *)
Definition import_site (modules : list (str * ModuleRecord)) (path : str) :
    option (str * ModuleImport) :=
  head (omap (λ e, (λ i, (module_path e.2, i)) <$>
              List.find (λ i, bool_decide (import_target i = path)) (module_imports e.2)) modules).

Definition span_is_empty (span : nat * nat) : bool := negb (span.1 <? span.2)%nat.

Definition duplicate_module_error (modules : list (str * ModuleRecord)) (previous : str)
    (m : ModuleRecord) : SourceDiagnostic :=
  let '(path, span, declaration, import_path) :=
    match import_site modules (module_path m) with
    | Some (importer, i) => (importer, import_span i, declaration_span i, import_path i)
    | None => (module_path m, (0%nat, length (module_path m)), (0%nat, 0%nat), module_path m)
    end in
  let result := with_code DuplicateImportAlias
    (diagnostic path span (record_alias m)
       (string_bytes "duplicate module alias '" ++ record_alias m ++ string_bytes "' for '" ++
        previous ++ string_bytes "' and '" ++ module_path m ++ string_bytes "'")) in
  if span_is_empty declaration then result
  else with_fix (removal_fix (string_bytes "Remove conflicting import '" ++ import_path ++
                              string_bytes "'") path declaration) result.

(** The loop over the modules; [aliases] maps an alias to the path it was seen with. *)
Fixpoint alias_loop (modules rest : list (str * ModuleRecord)) (aliases : list (str * str)) :
    Result unit SourceDiagnostic :=
  match rest with
  | [] => Ok tt
  | (_, m) :: rest' =>
      let aliases' := map_insert (record_alias m) (module_path m) aliases in
      match map_get (record_alias m) aliases with
      | Some previous =>
          if bool_decide (previous = module_path m) then alias_loop modules rest' aliases'
          else Err (duplicate_module_error modules previous m)
      | None => alias_loop modules rest' aliases'
      end
  end.

Definition validate_unique_aliases (modules : list (str * ModuleRecord)) : Result unit SourceDiagnostic :=
  alias_loop modules modules [].

(** ** The traversal *)

Definition ARROW : str := string_bytes " -> ".

(** [cycle.join(" -> ")] *)
Fixpoint join_arrow (ws : list str) : str :=
  match ws with
  | [] => []
  | [w] => w
  | w :: ws' => w ++ ARROW ++ join_arrow ws'
  end.

Definition cycle_error (modules : list (str * ModuleRecord)) (visiting : list str) (index : nat)
    (path : str) : SourceDiagnostic :=
  let cycle := drop index visiting ++ [path] in
  let importer := default path (last visiting) in
  let import := m ← map_get importer modules;
                List.find (λ i, bool_decide (import_target i = path)) (module_imports m) in
  diagnostic importer (default (0%nat, 0%nat) (import_span <$> import))
    (default [] (import_alias <$> import))
    (string_bytes "import cycle: " ++ join_arrow cycle).

(** [for import in &module.imports { visit(...)?; }] *)
Fixpoint visit_imports {T} (visit : str → T → option (Result T SourceDiagnostic))
    (imports : list ModuleImport) (state : T) : option (Result T SourceDiagnostic) :=
  match imports with
  | [] => Some (Ok state)
  | i :: imports' =>
      r ← visit (import_target i) state;
      match r with
      | Err e => Some (Err e)
      | Ok state' => visit_imports visit imports' state'
      end
  end.

(** [visit]: the state is [visited] and [out]; [visiting] is restored on return. *)
Fixpoint visit (fuel : nat) (modules : list (str * ModuleRecord)) (visiting : list str) (path : str)
    (state : list str * list str) : option (Result (list str * list str) SourceDiagnostic) :=
  match fuel with
  | O => None
  | S fuel' =>
      if bool_decide (path ∈ state.1) then Some (Ok state)
      else
        match list_find (λ item, item = path) visiting with
        | Some (index, _) => Some (Err (cycle_error modules visiting index path))
        | None =>
            let imports := match map_get path modules with
                           | Some m => module_imports m
                           | None => []
                           end in
            r ← visit_imports (visit fuel' modules (visiting ++ [path])) imports state;
            match r with
            | Err e => Some (Err e)
            | Ok (visited, out) => Some (Ok (set_insert path visited, out ++ [path]))
            end
        end
  end.

(** [for root in roots]. *)
Fixpoint visit_roots (fuel : nat) (modules : list (str * ModuleRecord)) (roots : list str)
    (state : list str * list str) : option (Result (list str * list str) SourceDiagnostic) :=
  match roots with
  | [] => Some (Ok state)
  | root :: roots' =>
      r ← visit fuel modules [] root state;
      match r with
      | Err e => Some (Err e)
      | Ok state' => visit_roots fuel modules roots' state'
      end
  end.

(** The recursion is at most as deep as there are modules. *)
Definition deterministic_traversal (roots : list str) (modules : list (str * ModuleRecord)) :
    option (Result (list str) SourceDiagnostic) :=
  r ← visit_roots (S (length modules)) modules roots ([], []);
  Some (match r with Err e => Err e | Ok (_, out) => Ok out end).

(** ** Reverse edges *)

Definition add_reverse_edge (target path : str) (edges : list (str * list str)) :
    list (str * list str) :=
  map_insert target (set_insert path (default [] (map_get target edges))) edges.

(** [entry(path).or_default()] *)
Definition ensure_entry (path : str) (edges : list (str * list str)) : list (str * list str) :=
  match map_get path edges with Some _ => edges | None => map_insert path [] edges end.

Definition build_reverse_edges (modules : list (str * ModuleRecord)) : list (str * list str) :=
  foldl (λ edges e,
    foldl (λ edges i, add_reverse_edge (import_target i) e.1 edges) (ensure_entry e.1 edges)
      (module_imports e.2)) [] modules.

(** ** Loading *)

Definition load_with_graphics_test_seams `{GraphicsFrontEnd} (fuel : nat) (roots : list str)
    (load_source : str → Result str str) (allow_graphics_test_seams : bool)
    (synthetic_import : option str) :
    option (Result (ModuleGraph * list (str * str)) SourceDiagnostic) :=
  let roots := set_of_list roots in
  r ← load_loop load_source allow_graphics_test_seams synthetic_import fuel
        ((λ root, (root, None)) <$> roots) [] [];
  match r with
  | Err e => Some (Err e)
  | Ok (sources, modules) =>
      match validate_unique_aliases modules with
      | Err e => Some (Err e)
      | Ok _ =>
          t ← deterministic_traversal roots modules;
          match t with
          | Err e => Some (Err e)
          | Ok traversal =>
              Some (Ok (mkGraph roots modules (build_reverse_edges modules) traversal, sources))
          end
      end
  end.

(** [load], outside the tests of the compiler. *)
Definition load `{GraphicsFrontEnd} (fuel : nat) (roots : list str)
    (load_source : str → Result str str) :
    option (Result (ModuleGraph * list (str * str)) SourceDiagnostic) :=
  load_with_graphics_test_seams fuel roots load_source false None.

Definition set_roots (roots : list str) (g : ModuleGraph) : ModuleGraph :=
  mkGraph roots (modules g) (reverse_edges g) (traversal g).

(** ** Queries *)

Definition direct_dependencies (g : ModuleGraph) (path : str) : list str :=
  match map_get path (modules g) with
  | Some m => import_target <$> module_imports m
  | None => []
  end.

Definition reverse_dependencies (g : ModuleGraph) (path : str) : list str :=
  default [] (map_get path (reverse_edges g)).

(** Every edge is pushed at most once. *)
Definition closure_from (edges : nat) (path : str) (adjacent : str → list str) : option (list str) :=
  closure_loop adjacent (S (S edges)) [path] [].

Definition dependency_closure (g : ModuleGraph) (path : str) : option (list str) :=
  closure_from (sum_list_with (λ e, length (module_imports e.2)) (modules g)) path
    (direct_dependencies g).

Definition invalidation_closure (g : ModuleGraph) (path : str) : option (list str) :=
  closure_from (sum_list_with (λ e, length e.2) (reverse_edges g)) path (reverse_dependencies g).

Definition imported_alias_target (g : ModuleGraph) (path alias : str) : option str :=
  m ← map_get path (modules g);
  import_target <$> List.find (λ i, bool_decide (import_alias i = alias)) (module_imports m).
