(* ===== verification/RecordState.v ===== *)
(** * The state a recording starts from

    Models the capture, the hash and the restoration of the simulation state in
    [apps/stasis/src/record_replay.rs] (lines 2631–2880, 2931–3040), the paths that are
    not part of it ([backend/state_layout.rs], 231–281 and 580–591) and the scalar
    values of [backend/jit.rs] (428–450).

    The memory of the compiled program is reached through [JitProcess]; the class
    [ProgramMemory] holds its reads and writes.  A location is a [StateLocation]. *)

From stdpp Require Import pretty.
From S2P Require Import Prelude BTree Identity Hir Text Imports StateLayout RecordData RecordDocument ModuleGraph.
#[local] Open Scope Z_scope.

(** ** Scalar values *)

(** Floats are their bits. *)
Inductive JitScalarValue :=
| VI32 (value : Z)
| VF32 (bits : Z)
| VF64 (bits : Z)
| VBool (value : bool)
| VU8 (value : Z)
| VU16 (value : Z)
| VU32 (value : Z).

#[export] Instance JitScalarValue_eq_dec : EqDecision JitScalarValue.
Proof. solve_decision. Defined.

Definition type_name (v : JitScalarValue) : str :=
  string_bytes (match v with
                | VI32 _ => "i32" | VF32 _ => "f32" | VF64 _ => "f64" | VBool _ => "bool"
                | VU8 _ => "u8" | VU16 _ => "u16" | VU32 _ => "u32"
                end).

Definition is_default (v : JitScalarValue) : bool :=
  match v with
  | VI32 z | VF32 z | VF64 z | VU8 z | VU16 z | VU32 z => z =? 0
  | VBool b => negb b
  end.

Definition default_value (v : JitScalarValue) : JitScalarValue :=
  match v with
  | VI32 _ => VI32 0 | VF32 _ => VF32 0 | VF64 _ => VF64 0 | VBool _ => VBool false
  | VU8 _ => VU8 0 | VU16 _ => VU16 0 | VU32 _ => VU32 0
  end.

(** [format!("{:0w$x}")] of a value of [w / 2] bytes. *)
Definition hex_fixed (bytes : nat) (z : Z) : str := concat (hex_byte <$> be_bytes bytes z).

Definition bool_bit (b : bool) : Z := if b then 1 else 0.

Definition scalar_bits (v : JitScalarValue) : str :=
  match v with
  | VI32 z => hex_fixed 4 (wrap 32 z)
  | VF32 z | VU32 z => hex_fixed 4 z
  | VF64 z => hex_fixed 8 z
  | VBool b => hex_fixed 1 (bool_bit b)
  | VU8 z => hex_fixed 1 z
  | VU16 z => hex_fixed 2 z
  end.

Definition encode_scalar (v : JitScalarValue) : EncodedScalar := mkEncoded (type_name v) (scalar_bits v).

Definition decode_scalar (value : EncodedScalar) (target : JitScalarValue) :
    Result JitScalarValue ReplayError :=
  let? _ :=
    ensure (bool_decide (es_type_name value = type_name target))
      (ScalarTypeMismatch (es_type_name value) (type_name target)) in
  let? bits := ok_or (from_str_radix_16 (es_bits value)) (InvalidScalarBits (es_bits value)) in
  let narrow (w : Z) (f : Z → JitScalarValue) :=
    let? bits := ok_or (checked_u w bits) (ScalarOutOfRange (type_name target)) in Ok (f bits) in
  match target with
  | VI32 _ => narrow 32 (λ z, VI32 (swrap 32 z))
  | VF32 _ => narrow 32 VF32
  | VF64 _ => Ok (VF64 bits)
  | VBool _ => if bits <=? 1 then Ok (VBool (bits =? 1)) else Err (ScalarOutOfRange (type_name target))
  | VU8 _ => narrow 8 VU8
  | VU16 _ => narrow 16 VU16
  | VU32 _ => narrow 32 VU32
  end.

(** What [hash_value] feeds to the digest. *)
Definition value_bytes (v : JitScalarValue) : list Z :=
  match v with
  | VI32 z => 1 :: le_bytes 4 (wrap 32 z)
  | VF32 z => 2 :: le_bytes 4 z
  | VF64 z => 3 :: le_bytes 8 z
  | VBool b => [4; bool_bit b]
  | VU8 z => [5; z]
  | VU16 z => 6 :: le_bytes 2 z
  | VU32 z => 7 :: le_bytes 4 z
  end.

Definition hash_value (path : str) (v : JitScalarValue) : list Z :=
  le_bytes 8 (len path) ++ path ++ value_bytes v.

(** ** The program *)

(** What the program snapshot tells about the types of global paths. *)
Record ProgramTypes := mkTypes {
  global_type_ids : list (str * Z);
  source_type_origin : Z → option SourceTypeOrigin;
}.

Class ProgramMemory (J : Type) := {
  state_layout : J → StateLayout;
  program_snapshot : J → option ProgramTypes;
  read_global : J → StateLocation → Result JitScalarValue str;
  write_global : J → StateLocation → JitScalarValue → Result J str;
}.

(** ** Paths outside the simulation *)

(** [str::contains] of a text. *)
Fixpoint contains_text (pattern s : str) : bool :=
  starts_with pattern s || match s with [] => false | _ :: s' => contains_text pattern s' end.

Definition is_command_buffer_path (path : str) : bool :=
  existsb (λ p, starts_with (string_bytes p) path)
    ["gfx_frame_construction_"; "gfx_sprite_writer_"; "gfx_cmd_"; "render_cmd_"; "audio_cmd_"; "cmd_"]%string
  || existsb (λ p, contains_text (string_bytes p) path)
       [".gfx_cmd_"; ".render_cmd_"; ".audio_cmd_"; ".cmd_"]%string.

(** [strip_suffix] *)
Definition strip_suffix (suffix s : str) : option str :=
  if ends_with suffix s then Some (take (length s - length suffix) s) else None.

Definition is_canonical_host_or_presentation_origin (origin : SourceTypeOrigin) : bool :=
  if bool_decide (sto_name origin = string_bytes "HostFrame") then
    match strip_suffix (string_bytes "host_frame.stasis") (replace_byte BACKSLASH [SEP] (sto_path origin)) with
    | None => false
    | Some parent => is_recognized_graphics_implementation_path (parent ++ string_bytes "graphics.stasis")
    end
  else if bool_decide (sto_name origin = string_bytes "SpriteRunWriter") then
    is_recognized_graphics_implementation_path (sto_path origin)
  else false.

(** Whether a prefix of a path, up to one of its segments, has such a type. *)
Fixpoint prefix_loop (types : ProgramTypes) (prefix : str) (segments : list str) : bool :=
  match segments with
  | [] => false
  | segment :: segments' =>
      let prefix := (if bool_decide (prefix = []) then [] else prefix ++ [DOT]) ++ segment in
      match map_get (prefix : list Z) (global_type_ids types) ≫= source_type_origin types with
      | Some origin => is_canonical_host_or_presentation_origin origin || prefix_loop types prefix segments'
      | None => prefix_loop types prefix segments'
      end
  end.

Definition is_replay_host_or_presentation_path (types : ProgramTypes) (path : str) : bool :=
  bool_decide (path = string_bytes "host_i32") || bool_decide (path = string_bytes "host_f32")
  || existsb (λ p, starts_with (string_bytes p) path) ["host_i32."; "host_f32."; "host_req_"]%string
  || is_command_buffer_path path
  || prefix_loop types [] (split_on DOT path).

Section memory.
Context {J : Type} `{ProgramMemory J}.

Definition replay_excluded_paths (j : J) (layout : StateLayout) : Result (list str) ReplayError :=
  let? types := ok_or (program_snapshot j) NoProgramSnapshot in
  Ok (filter (λ path, is_replay_host_or_presentation_path types path = true)
        ((sl_path <$> scalars layout) ++ (cl_path <$> collections layout) ++ (op_path <$> opaque layout))).

Definition excludes (excluded : list str) (path : str) : bool := bool_decide (path ∈ excluded).

Definition validate_supported_state (j : J) : Result unit ReplayError :=
  let layout := state_layout j in
  let? excluded := replay_excluded_paths j layout in
  let unsupported := op_path <$> filter (λ o, excludes excluded (op_path o) = false) (opaque layout) in
  ensure (bool_decide (unsupported = [])) (OpaqueState unsupported).

Definition replay_field_element_count (path : str) (capacity : Z) (field : StateCollectionFieldLayout) :
    Result Z ReplayError :=
  let? logical := ok_or (checked_u 64 capacity) (NegativeCapacity path capacity) in
  let count := default logical (fl_element_count field) in
  if bool_decide (in_i 32 count) then Ok count else Err (LaneTooLong path (fl_field field)).

(** ** Walking through the state

    The loops of [capture_initial_state] and of [simulation_state_hash]: [visit] is
    called at each value, in the order of the paths. *)

Definition lane_locations (path field : str) (count : Z) : list StateLocation :=
  (λ i, CollectionLocation path field (Z.of_nat i)) <$> seq 0 (Z.to_nat count).

Section walk.
Context {A : Type} (visit : StateLocation → Result (list A) ReplayError).

Fixpoint visit_all (locations : list StateLocation) : Result (list A) ReplayError :=
  match locations with
  | [] => Ok []
  | l :: locations' =>
      let? a := visit l in
      let? rest := visit_all locations' in
      Ok (a ++ rest)
  end.

Fixpoint walk_fields (path : str) (capacity : Z) (fields : list StateCollectionFieldLayout) :
    Result (list A) ReplayError :=
  match fields with
  | [] => Ok []
  | f :: fields' =>
      let? count := replay_field_element_count path capacity f in
      let? a := visit_all (lane_locations path (fl_field f) count) in
      let? rest := walk_fields path capacity fields' in
      Ok (a ++ rest)
  end.

Definition field_le (a b : StateCollectionFieldLayout) : bool :=
  negb (bool_decide (cmp (fl_field a : list Z) (fl_field b) = Gt)).

Fixpoint walk_collections (excluded : list str) (collections : list StateCollectionLayout) :
    Result (list A) ReplayError :=
  match collections with
  | [] => Ok []
  | c :: collections' =>
      if excludes excluded (cl_path c) then walk_collections excluded collections'
      else
        let? a := walk_fields (cl_path c) (cl_capacity c) (sort_by field_le (cl_fields c)) in
        let? rest := walk_collections excluded collections' in
        Ok (a ++ rest)
  end.

Definition scalar_le (a b : StateScalarLayout) : bool :=
  negb (bool_decide (cmp (sl_path a : list Z) (sl_path b) = Gt)).
Definition collection_le (a b : StateCollectionLayout) : bool :=
  negb (bool_decide (cmp (cl_path a : list Z) (cl_path b) = Gt)).

Definition scalar_locations (excluded : list str) (scalars : list StateScalarLayout) : list StateLocation :=
  (λ s, ScalarLocation (sl_path s)) <$> filter (λ s, excludes excluded (sl_path s) = false) scalars.

Definition walk (layout : StateLayout) (excluded : list str) : Result (list A) ReplayError :=
  let? a := visit_all (scalar_locations excluded (sort_by scalar_le (scalars layout))) in
  let? b := walk_collections excluded (sort_by collection_le (collections layout)) in
  Ok (a ++ b).

End walk.

Definition read_value (j : J) (l : StateLocation) : Result JitScalarValue ReplayError :=
  map_err Host (read_global j l).

(** [format!("{}[{index}].{}")] *)
Definition location_label (l : StateLocation) : str :=
  match l with
  | ScalarLocation path => path
  | CollectionLocation path field index =>
      path ++ string_bytes "[" ++ string_bytes (pretty index) ++ string_bytes "]." ++ field
  end.

Definition simulation_state_hash `{ReplayCodec} (j : J) : Result str ReplayError :=
  let? _ := validate_supported_state j in
  let layout := state_layout j in
  let? excluded := replay_excluded_paths j layout in
  let? bytes :=
    walk (λ l, let? v := read_value j l in Ok (hash_value (location_label l) v)) layout excluded in
  Ok (hex_digest (string_bytes "stasis.simulation-state.v1" ++ [0] ++ bytes)).

Definition capture_entry (j : J) (l : StateLocation) : Result (list StateEntry) ReplayError :=
  let? v := read_value j l in
  Ok (if is_default v then [] else [mkEntry l (encode_scalar v)]).

Definition capture_initial_state `{ReplayCodec} (j : J) : Result InitialState ReplayError :=
  let? _ := validate_supported_state j in
  let layout := state_layout j in
  let? excluded := replay_excluded_paths j layout in
  let? values := walk (capture_entry j) layout excluded in
  let? hash := simulation_state_hash j in
  Ok (mkInitialState values hash).

(** ** Restoring *)

(** The check of a location against the layout. *)
Definition locate (layout : StateLayout) (excluded : list str) (l : StateLocation) : Result unit ReplayError :=
  match l with
  | ScalarLocation path =>
      ensure (existsb (λ s, bool_decide (sl_path s = path) && negb (excludes excluded path)) (scalars layout))
        (UnknownScalar path)
  | CollectionLocation path field index =>
      let? c :=
        ok_or (List.find (λ c, bool_decide (cl_path c = path) && negb (excludes excluded path)) (collections layout))
          (UnknownCollection path) in
      let? lane :=
        ok_or (List.find (λ f, bool_decide (fl_field f = field)) (cl_fields c)) (UnknownLane path field) in
      let? count := replay_field_element_count (cl_path c) (cl_capacity c) lane in
      ensure (negb ((index <? 0) || (count <=? index))) (IndexOutside path field index count)
  end.

Definition decode_entry (j : J) (layout : StateLayout) (excluded : list str) (e : StateEntry) :
    Result (StateLocation * JitScalarValue) ReplayError :=
  let? _ := locate layout excluded (en_location e) in
  let? target := read_value j (en_location e) in
  let? v := decode_scalar (en_value e) target in
  Ok (en_location e, v).

Fixpoint decode_entries (j : J) (layout : StateLayout) (excluded : list str) (entries : list StateEntry) :
    Result (list (StateLocation * JitScalarValue)) ReplayError :=
  match entries with
  | [] => Ok []
  | e :: entries' =>
      let? v := decode_entry j layout excluded e in
      let? rest := decode_entries j layout excluded entries' in
      Ok (v :: rest)
  end.

(** The memory after, also when a step fails. *)
Definition Restored : Type := J * Result unit ReplayError.

Definition write_value (l : StateLocation) (v : JitScalarValue) (j : J) : Restored :=
  match write_global j l v with
  | Ok j' => (j', Ok tt)
  | Err e => (j, Err (Host e))
  end.

Definition and_then (r : Restored) (k : J → Restored) : Restored :=
  match r with (j, Ok _) => k j | (j, Err e) => (j, Err e) end.

Definition clear_value (l : StateLocation) (j : J) : Restored :=
  match read_value j l with
  | Ok current => write_value l (default_value current) j
  | Err e => (j, Err e)
  end.

Fixpoint clear_values (locations : list StateLocation) (j : J) : Restored :=
  match locations with
  | [] => (j, Ok tt)
  | l :: locations' => and_then (clear_value l j) (clear_values locations')
  end.

Fixpoint clear_fields (path : str) (capacity : Z) (fields : list StateCollectionFieldLayout) (j : J) : Restored :=
  match fields with
  | [] => (j, Ok tt)
  | f :: fields' =>
      match replay_field_element_count path capacity f with
      | Err e => (j, Err e)
      | Ok count =>
          and_then (clear_values (lane_locations path (fl_field f) count) j)
            (clear_fields path capacity fields')
      end
  end.

Fixpoint clear_collections (excluded : list str) (collections : list StateCollectionLayout) (j : J) : Restored :=
  match collections with
  | [] => (j, Ok tt)
  | c :: collections' =>
      if excludes excluded (cl_path c) then clear_collections excluded collections' j
      else
        and_then (clear_fields (cl_path c) (cl_capacity c) (cl_fields c) j)
          (clear_collections excluded collections')
  end.

Fixpoint write_values (values : list (StateLocation * JitScalarValue)) (j : J) : Restored :=
  match values with
  | [] => (j, Ok tt)
  | (l, v) :: values' => and_then (write_value l v j) (write_values values')
  end.

Definition restore_initial_state (j : J) (state : InitialState) : Restored :=
  let layout := state_layout j in
  let prepared :=
    let? _ := validate_supported_state j in
    let? excluded := replay_excluded_paths j layout in
    let? values := decode_entries j layout excluded (is_values state) in
    Ok (excluded, values) in
  match prepared with
  | Err e => (j, Err e)
  | Ok (excluded, values) =>
      and_then (clear_values (scalar_locations excluded (scalars layout)) j) (λ j,
      and_then (clear_collections excluded (collections layout) j) (write_values values))
  end.

(** The end of [initialize_with_metadata]: the state is restored and its hash checked. *)
Definition initialize_state `{ReplayCodec} (j : J) (state : InitialState) : Restored :=
  and_then (restore_initial_state j state) (λ j,
    match simulation_state_hash j with
    | Err e => (j, Err e)
    | Ok actual =>
        (j, ensure (bool_decide (actual = is_state_sha256 state))
              (InitialStateMismatch (is_state_sha256 state) actual))
    end).

End memory.
