(* ===== verification/RecordStateProps.v ===== *)
(** * The state a recording starts from: what is restored is what was captured

    The hexadecimal encoding of scalars is exact, a state captured from one run of a
    program can be restored in another, with the same hash, and a state that is rejected
    leaves the memory untouched. *)

From S2P Require Import Prelude BTree Identity StateLayout RecordData RecordDocument RecordSegments RecordState.
#[local] Open Scope Z_scope.

(** ** The encoding of scalars *)

Definition value_ok (v : JitScalarValue) : Prop :=
  match v with
  | VI32 z => in_i 32 z
  | VF32 z | VU32 z => in_u 32 z
  | VF64 z => in_u 64 z
  | VBool _ => True
  | VU8 z => in_u 8 z
  | VU16 z => in_u 16 z
  end.

Lemma hex_digit_inverse d : 0 ≤ d < 16 → hex_digit_value (hex_digit d) = Some d.
Proof.
  intros Hd. unfold hex_digit, hex_digit_value. destruct (Z.ltb_spec d 10).
  - rewrite (proj2 (Z.leb_le _ _)), (proj2 (Z.leb_le _ _)) by lia. simpl. f_equal. lia.
  - rewrite (proj2 (Z.leb_gt (87 + d) 57)), andb_false_r by lia.
    rewrite (proj2 (Z.leb_le _ _)), (proj2 (Z.leb_le _ _)) by lia. simpl. f_equal. lia.
Qed.

Lemma checked_u_in w z : in_u w z → checked_u w z = Some z.
Proof. intros. by apply checked_u_Some. Qed.

(** The digits of some bytes, after a number [acc]. *)
Lemma parse_hex_bytes bs acc :
  bytes_ok bs → 0 ≤ acc → in_u 64 (acc * 256 ^ Z.of_nat (length bs) + from_be bs) →
  parse_hex_digits (concat (hex_byte <$> bs)) acc = Some (acc * 256 ^ Z.of_nat (length bs) + from_be bs).
Proof.
  intros Hbs. revert acc. induction Hbs as [|b bs Hb Hbs IH]; intros acc Hacc Hr.
  { simpl. f_equal. unfold from_be. simpl. lia. }
  rewrite from_be_cons in Hr |- *. cbn [length] in *. rewrite Nat2Z.inj_succ, Z.pow_succ_r in Hr |- * by lia.
  pose proof (from_be_range bs Hbs) as [Hf _].
  assert (0 < 256 ^ Z.of_nat (length bs)) as Hp by (apply Z.pow_pos_nonneg; lia).
  unfold in_u in Hb, Hr. change (2 ^ 8) with 256 in Hb.
  assert (acc * 256 + b < 2 ^ 64) by nia.
  cbn [fmap list_fmap concat hex_byte app parse_hex_digits].
  rewrite !hex_digit_inverse by (Z.to_euclidean_division_equations; lia). simpl.
  rewrite !checked_u_in by (unfold in_u; Z.to_euclidean_division_equations; lia). simpl.
  rewrite checked_u_in by (unfold in_u; Z.to_euclidean_division_equations; lia). simpl.
  replace ((acc * 16 + b `div` 16) * 16 + b `mod` 16) with (acc * 256 + b)
    by (Z.to_euclidean_division_equations; lia).
  rewrite IH by (unfold in_u; lia). f_equal. lia.
Qed.

Lemma hex_fixed_parses n z :
  (0 < n ≤ 8)%nat → in_u (8 * Z.of_nat n) z → from_str_radix_16 (hex_fixed n z) = Some z.
Proof.
  intros Hn Hz. pose proof (from_be_be_bytes n z Hz) as E. unfold hex_fixed.
  assert (parse_hex_digits (concat (hex_byte <$> be_bytes n z)) 0 = Some z) as Hp.
  { assert (2 ^ (8 * Z.of_nat n) ≤ 2 ^ 64) by (apply Z.pow_le_mono_r; lia). unfold in_u in Hz.
    rewrite parse_hex_bytes by (apply be_bytes_ok || unfold in_u; lia). f_equal. lia. }
  destruct n as [|n]; [lia|]. rewrite <- Hp. clear Hp E.
  unfold from_str_radix_16. cbn [be_bytes fmap list_fmap concat hex_byte app].
  set (b := wrap 8 _). assert (in_u 8 b) as [? ?] by (apply wrap_range; lia).
  assert (hex_digit (b `div` 16) ≠ 43) as Hne.
  { unfold hex_digit. assert (0 ≤ b `div` 16) by (apply Z.div_pos; lia). destruct (_ <? _); lia. }
  by rewrite (proj2 (Z.eqb_neq _ _) Hne).
Qed.

Lemma from_str_radix_range s z : from_str_radix_16 s = Some z → in_u 64 z.
Proof.
  assert (∀ s acc z, in_u 64 acc → parse_hex_digits s acc = Some z → in_u 64 z) as Hp.
  { clear s z. intros s. induction s as [|b s IH]; intros acc z Ha; cbn [parse_hex_digits]; [by intros [= <-]|].
    destruct (hex_digit_value b) as [d|]; [|done]. simpl. destruct (checked_u 64 _) as [a|] eqn:E; [|done].
    apply checked_u_Some in E as [? ->]. by apply IH. }
  unfold from_str_radix_16. destruct s as [|b s]; [done|]. destruct (b =? 43); [destruct s; [done|]|]; by apply Hp.
Qed.

Definition same_type (v w : JitScalarValue) : Prop := default_value v = default_value w.

Lemma same_type_name v w : same_type v w → type_name v = type_name w.
Proof. by destruct v, w. Qed.

Definition raw_bits (v : JitScalarValue) : Z :=
  match v with
  | VI32 z => wrap 32 z
  | VF32 z | VF64 z | VU8 z | VU16 z | VU32 z => z
  | VBool b => bool_bit b
  end.

Lemma scalar_bits_parse v : value_ok v → from_str_radix_16 (scalar_bits v) = Some (raw_bits v).
Proof.
  destruct v as [z|z|z|b|z|z|z]; cbn [value_ok scalar_bits raw_bits]; intros Hv;
    (apply hex_fixed_parses; [lia|]); try exact Hv.
  - apply wrap_range. lia.
  - by destruct b.
Qed.

(** Every scalar is read back from its encoding. *)
Lemma decode_encode v target :
  value_ok v → same_type v target → decode_scalar (encode_scalar v) target = Ok v.
Proof.
  intros Hv Ht. unfold decode_scalar. cbn [encode_scalar es_type_name es_bits].
  rewrite bool_decide_eq_true_2 by by apply same_type_name. cbn [ensure result_bind].
  rewrite scalar_bits_parse by done. cbn [ok_or result_bind].
  destruct v as [z|z|z|b|z|z|z], target; try discriminate Ht; cbn [value_ok raw_bits] in *;
    try (by rewrite checked_u_in by done); [|done|by destruct b].
  rewrite checked_u_in by (apply wrap_range; lia). cbn [ok_or result_bind]. by rewrite swrap_wrap by (lia || done).
Qed.

Lemma is_default_default v : is_default v = true → default_value v = v.
Proof. destruct v as [z|z|z|[]|z|z|z]; simpl; intros; to_props; by subst. Qed.

Lemma value_ok_default v : value_ok (default_value v).
Proof. by destruct v. Qed.

Lemma same_type_default v : same_type v (default_value v).
Proof. by destruct v. Qed.

(** ** The walk *)

(** The locations that are part of the simulation state. *)
Definition located (layout : StateLayout) (excluded : list str) (l : StateLocation) : Prop :=
  match l with
  | ScalarLocation path => path ∈ (sl_path <$> scalars layout) ∧ excludes excluded path = false
  | CollectionLocation path field index =>
      excludes excluded path = false ∧
      ∃ c f n, c ∈ collections layout ∧ cl_path c = path ∧ f ∈ cl_fields c ∧ fl_field f = field
        ∧ replay_field_element_count path (cl_capacity c) f = Ok n ∧ 0 ≤ index < n
  end.

Definition single (l : StateLocation) : Result (list StateLocation) ReplayError := Ok [l].

Section walking.
Context {A : Type} (visit : StateLocation → Result (list A) ReplayError).

Lemma visit_all_app ls1 ls2 r :
  visit_all visit (ls1 ++ ls2) = Ok r ↔
  ∃ r1 r2, visit_all visit ls1 = Ok r1 ∧ visit_all visit ls2 = Ok r2 ∧ r = r1 ++ r2.
Proof.
  revert r. induction ls1 as [|l ls1 IH]; intros r; cbn [app visit_all].
  { split; [intros Hr; by exists [], r|]. by intros (? & ? & [= <-] & Hr & ->). }
  split.
  - intros Hr. inv_checks. rename select (visit_all _ (_ ++ _) = _) into Hall.
    apply IH in Hall as (r1 & r2 & E1 & E2 & ->). rename select (visit l = _) into El. simplify_eq.
    rewrite El, E1. cbn [result_bind]. do 2 eexists. split_and!; [done|done|]. by rewrite app_assoc.
  - intros (r1 & r2 & E1 & E2 & ->). inv_checks. rename select (visit l = _) into El.
    rename select (visit_all _ ls1 = _) into E3. simplify_eq.
    rewrite El. cbn [result_bind]. erewrite (proj2 (IH _)); [|do 2 eexists; split_and!; [exact E3|exact E2|done]].
    cbn [result_bind]. by rewrite app_assoc.
Qed.

Lemma visit_all_single ls : visit_all single ls = Ok ls.
Proof. induction ls as [|l ls IH]; simpl; [done|]. by rewrite IH. Qed.

(** The walk visits the locations of the layout in an order of its own. *)
Lemma walk_fields_Ok path capacity fields r :
  walk_fields visit path capacity fields = Ok r ↔
  ∃ ls, walk_fields single path capacity fields = Ok ls ∧ visit_all visit ls = Ok r.
Proof.
  revert r. induction fields as [|f fields IH]; intros r; cbn [walk_fields].
  { split; [intros [= <-]; by exists []|]. by intros (? & [= <-] & [= <-]). }
  destruct (replay_field_element_count path capacity f) as [n|e]; cbn [result_bind];
    [|by split; [|intros (? & ? & _)]].
  rewrite visit_all_single. cbn [result_bind]. split.
  - intros Hr. inv_checks. simplify_eq. rename select (walk_fields visit _ _ _ = _) into Hw.
    apply IH in Hw as (ls & -> & Hls). eexists. split; [done|]. apply visit_all_app. by do 2 eexists.
  - intros (ls & Hls & Hr). inv_checks. simplify_eq. apply visit_all_app in Hr as (r1 & r2 & -> & E2 & ->).
    cbn [result_bind]. rewrite (proj2 (IH r2)); [done|]. by eexists.
Qed.

Lemma walk_collections_Ok excluded collections r :
  walk_collections visit excluded collections = Ok r ↔
  ∃ ls, walk_collections single excluded collections = Ok ls ∧ visit_all visit ls = Ok r.
Proof.
  revert r. induction collections as [|c collections IH]; intros r; cbn [walk_collections].
  { split; [intros [= <-]; by exists []|]. by intros (? & [= <-] & [= <-]). }
  destruct (excludes excluded (cl_path c)); [done|]. split.
  - intros Hr. inv_checks. simplify_eq. rename select (walk_fields visit _ _ _ = _) into Hf.
    apply walk_fields_Ok in Hf as (ls1 & -> & Hls1). rename select (walk_collections visit _ _ = _) into Hw.
    apply IH in Hw as (ls2 & -> & Hls2). eexists. split; [done|]. apply visit_all_app. by do 2 eexists.
  - intros (ls & Hls & Hr). inv_checks. simplify_eq. apply visit_all_app in Hr as (r1 & r2 & E1 & E2 & ->).
    rewrite (proj2 (walk_fields_Ok _ _ _ r1)) by by eexists. cbn [result_bind].
    rewrite (proj2 (IH r2)) by by eexists. done.
Qed.

Lemma walk_Ok layout excluded r :
  walk visit layout excluded = Ok r ↔
  ∃ ls, walk single layout excluded = Ok ls ∧ visit_all visit ls = Ok r.
Proof.
  unfold walk. rewrite visit_all_single. cbn [result_bind]. split.
  - intros Hr. inv_checks. simplify_eq. rename select (walk_collections visit _ _ = _) into Hw.
    apply walk_collections_Ok in Hw as (ls & -> & Hls). eexists. split; [done|].
    apply visit_all_app. by do 2 eexists.
  - intros (ls & Hls & Hr). inv_checks. simplify_eq. apply visit_all_app in Hr as (r1 & r2 & -> & E2 & ->).
    cbn [result_bind]. by rewrite (proj2 (walk_collections_Ok _ _ r2)) by by eexists.
Qed.

Lemma visit_all_elem ls r l :
  visit_all visit ls = Ok r → l ∈ ls → ∃ a, visit l = Ok a ∧ ∀ x, x ∈ a → x ∈ r.
Proof.
  intros Hr Hl. apply list_elem_of_split in Hl as (ls1 & ls2 & ->).
  apply visit_all_app in Hr as (r1 & r2 & _ & Hr & ->). cbn [visit_all] in Hr. inv_checks. simplify_eq.
  eexists. split; [done|]. set_solver.
Qed.

Lemma visit_all_from ls r x :
  visit_all visit ls = Ok r → x ∈ r → ∃ l a, l ∈ ls ∧ visit l = Ok a ∧ x ∈ a.
Proof.
  revert r. induction ls as [|l ls IH]; intros r; cbn [visit_all]; [intros [= <-]; set_solver|].
  intros Hr Hx. inv_checks. simplify_eq. apply elem_of_app in Hx as [Hx|Hx].
  - do 2 eexists. split_and!; [apply list_elem_of_here|done|done].
  - rename select (visit_all _ _ = _) into Hall. destruct (IH _ Hall Hx) as (l' & a & ? & ? & ?).
    exists l', a. split_and!; [by apply list_elem_of_further|done|done].
Qed.

End walking.

Lemma visit_all_ext {A} (visit visit' : StateLocation → Result (list A) ReplayError) ls :
  (∀ l, l ∈ ls → visit l = visit' l) → visit_all visit ls = visit_all visit' ls.
Proof.
  induction ls as [|l ls IH]; intros Hl; [done|]. cbn [visit_all].
  rewrite (Hl l), IH; [done|intros; apply Hl; by apply list_elem_of_further|apply list_elem_of_here].
Qed.

Lemma elem_of_lane path field n l :
  l ∈ lane_locations path field n ↔ ∃ i, l = CollectionLocation path field i ∧ 0 ≤ i < n.
Proof.
  unfold lane_locations. rewrite list_elem_of_fmap. split.
  - intros (k & -> & Hk%elem_of_seq). eexists. split; [done|lia].
  - intros (i & -> & Hi). exists (Z.to_nat i). split; [f_equal; lia|]. apply elem_of_seq. lia.
Qed.

Lemma elem_of_fields path capacity fields ls l :
  walk_fields single path capacity fields = Ok ls →
  l ∈ ls ↔ ∃ f n i, f ∈ fields ∧ replay_field_element_count path capacity f = Ok n
             ∧ l = CollectionLocation path (fl_field f) i ∧ 0 ≤ i < n.
Proof.
  revert ls. induction fields as [|f fields IH]; intros ls; cbn [walk_fields].
  { intros [= <-]. split; [by intros ?%elem_of_nil|by intros (? & ? & ? & ?%elem_of_nil & _)]. }
  intros Hls. inv_checks. rewrite visit_all_single in *. simplify_eq.
  rename select (walk_fields _ _ _ _ = _) into Hw. rename select (replay_field_element_count _ _ _ = _) into Hn.
  rewrite elem_of_app, elem_of_lane, (IH _ Hw). split.
  - intros [(i & -> & Hi)|(f' & n & i & Hf & Hrest)].
    + do 3 eexists. split_and!; [apply list_elem_of_here|done|done|lia|lia].
    + exists f', n, i. split; [by apply list_elem_of_further|done].
  - intros (f' & n & i & [->|Hf]%elem_of_cons & Hn' & -> & Hi); [left; eexists; split; [done|congruence]|].
    right. by exists f', n, i.
Qed.

Lemma elem_of_collections excluded collections ls l :
  walk_collections single excluded collections = Ok ls →
  l ∈ ls ↔ ∃ c f n i, c ∈ collections ∧ excludes excluded (cl_path c) = false ∧ f ∈ cl_fields c
             ∧ replay_field_element_count (cl_path c) (cl_capacity c) f = Ok n
             ∧ l = CollectionLocation (cl_path c) (fl_field f) i ∧ 0 ≤ i < n.
Proof.
  revert ls. induction collections as [|c collections IH]; intros ls; cbn [walk_collections].
  { intros [= <-]. split; [by intros ?%elem_of_nil|by intros (? & ? & ? & ? & ?%elem_of_nil & _)]. }
  destruct (excludes excluded (cl_path c)) eqn:He; intros Hls.
  - rewrite (IH _ Hls). split.
    + intros (c' & f & n & i & Hc & Hrest). exists c', f, n, i. split; [by apply list_elem_of_further|done].
    + intros (c' & f & n & i & [->|Hc]%elem_of_cons & Hx & Hrest); [congruence|]. by exists c', f, n, i.
  - inv_checks. simplify_eq. rename select (walk_fields _ _ _ _ = _) into Hf. rename select (walk_collections _ _ _ = _) into Hw.
    rewrite elem_of_app, (elem_of_fields _ _ _ _ _ Hf), (IH _ Hw). split.
    + intros [(f & n & i & Hin & Hrest)|(c' & f & n & i & Hc & Hrest)].
      * exists c, f, n, i. split_and!; [apply list_elem_of_here|done| |apply Hrest..].
        by apply (elem_of_sort_by field_le).
      * exists c', f, n, i. split; [by apply list_elem_of_further|done].
    + intros (c' & f & n & i & [->|Hc]%elem_of_cons & Hx & Hin & Hrest); [left|right; by exists c', f, n, i].
      exists f, n, i. split; [|done]. by apply (elem_of_sort_by field_le).
Qed.

Lemma elem_of_scalars excluded l layout :
  l ∈ scalar_locations excluded layout ↔
  ∃ s, s ∈ layout ∧ l = ScalarLocation (sl_path s) ∧ excludes excluded (sl_path s) = false.
Proof.
  unfold scalar_locations. rewrite list_elem_of_fmap. split.
  - intros (s & -> & [Hx Hs]%list_elem_of_filter). by exists s.
  - intros (s & Hs & -> & Hx). exists s. split; [done|]. by apply list_elem_of_filter.
Qed.

Lemma walk_split layout excluded ls :
  walk single layout excluded = Ok ls →
  ∃ lsc, walk_collections single excluded (sort_by collection_le (collections layout)) = Ok lsc
    ∧ ls = scalar_locations excluded (sort_by scalar_le (scalars layout)) ++ lsc.
Proof.
  unfold walk. rewrite visit_all_single. cbn [result_bind]. intros Hls. inv_checks. simplify_eq. by eexists.
Qed.

(** The walk visits exactly the located values. *)
Lemma elem_of_walk_located layout excluded ls l :
  walk single layout excluded = Ok ls → l ∈ ls ↔ located layout excluded l.
Proof.
  intros Hls. destruct (walk_split _ _ _ Hls) as (lsc & Hw & ->).
  rewrite elem_of_app, elem_of_scalars, (elem_of_collections _ _ _ _ Hw). split.
  - intros [(s & Hs & -> & Hx)|(c & f & n & i & Hc & Hx & Hf & Hn & -> & Hi)].
    + split; [|done]. apply list_elem_of_fmap_2. by apply (elem_of_sort_by scalar_le).
    + split; [done|]. exists c, f, n. split_and!; try done; [|lia..]. by apply (elem_of_sort_by collection_le).
  - destruct l as [path|path field i].
    + intros [(s & -> & Hs)%list_elem_of_fmap Hx]. left. exists s. split_and!; try done.
      by apply (elem_of_sort_by scalar_le).
    + intros (Hx & c & f & n & Hc & <- & Hf & <- & Hn & Hi). right. exists c, f, n, i.
      split_and!; try done; [|lia..]. by apply (elem_of_sort_by collection_le).
Qed.

(** The order of the fields does not matter to the set of locations. *)
Lemma walk_fields_total path capacity fields :
  (∃ ls, walk_fields single path capacity fields = Ok ls) ↔
  Forall (λ f, is_ok (replay_field_element_count path capacity f) = true) fields.
Proof.
  induction fields as [|f fields IH]; cbn [walk_fields]; [split; [done|by eexists]|].
  rewrite Forall_cons, <- IH. split.
  - intros [ls Hls]. inv_checks. rename select (replay_field_element_count _ _ _ = _) into Hn. rewrite Hn.
    split; [done|by eexists].
  - intros [Hn [ls Hls]]. destruct (replay_field_element_count path capacity f); [|done]. cbn [result_bind].
    rewrite visit_all_single, Hls. by eexists.
Qed.

Lemma walk_fields_perm path capacity fields fields' ls :
  walk_fields single path capacity fields = Ok ls → fields ≡ₚ fields' →
  ∃ ls', walk_fields single path capacity fields' = Ok ls' ∧ ∀ l, l ∈ ls' ↔ l ∈ ls.
Proof.
  intros Hls Hp. assert (∃ ls', walk_fields single path capacity fields' = Ok ls') as [ls' Hls'].
  { rewrite walk_fields_total, <- Hp, <- walk_fields_total. by eexists. }
  exists ls'. split; [done|]. intros l. rewrite (elem_of_fields _ _ _ _ _ Hls), (elem_of_fields _ _ _ _ _ Hls').
  by setoid_rewrite Hp.
Qed.

Lemma walk_collections_total excluded collections :
  (∃ ls, walk_collections single excluded collections = Ok ls) ↔
  Forall (λ c, excludes excluded (cl_path c) = false →
    Forall (λ f, is_ok (replay_field_element_count (cl_path c) (cl_capacity c) f) = true) (cl_fields c)) collections.
Proof.
  induction collections as [|c collections IH]; cbn [walk_collections]; [split; [done|by eexists]|].
  rewrite Forall_cons, <- IH, <- walk_fields_total. destruct (excludes excluded (cl_path c)); [intuition done|]. split.
  - intros [ls Hls]. inv_checks. rename select (walk_fields _ _ _ _ = _) into Hf. split; [intros _|by eexists].
    destruct (walk_fields_perm _ _ _ (cl_fields c) _ Hf) as (ls' & Hf' & _); [apply sort_by_Permutation|]. by eexists.
  - intros [Hf [ls Hls]]. destruct (Hf eq_refl) as [ls1 Hls1].
    destruct (walk_fields_perm _ _ _ (sort_by field_le (cl_fields c)) _ Hls1) as (ls' & Hf' & _);
      [by rewrite sort_by_Permutation|]. rewrite Hf', Hls. by eexists.
Qed.

Lemma walk_collections_perm excluded collections collections' ls :
  walk_collections single excluded collections = Ok ls → collections ≡ₚ collections' →
  ∃ ls', walk_collections single excluded collections' = Ok ls' ∧ ∀ l, l ∈ ls' ↔ l ∈ ls.
Proof.
  intros Hls Hp. assert (∃ ls', walk_collections single excluded collections' = Ok ls') as [ls' Hls'].
  { rewrite walk_collections_total, <- Hp, <- walk_collections_total. by eexists. }
  exists ls'. split; [done|]. intros l. rewrite (elem_of_collections _ _ _ _ Hls), (elem_of_collections _ _ _ _ Hls').
  by setoid_rewrite Hp.
Qed.

(** ** The memory *)

(** What the memory of a compiled program promises: a value stays in the type of its
    location, a value of that type is stored, and nothing else changes. *)
Class ProgramMemoryLaws (J : Type) `{ProgramMemory J} := {
  read_ok j l v : read_global j l = Ok v → value_ok v;
  write_ok j l v w : read_global j l = Ok v → same_type v w → value_ok w → is_ok (write_global j l w) = true;
  write_read j l w j' : write_global j l w = Ok j' → read_global j' l = Ok w;
  write_other j l w j' l' : write_global j l w = Ok j' → l' ≠ l → read_global j' l' = read_global j l';
  write_layout j l w j' : write_global j l w = Ok j' → state_layout j' = state_layout j;
  write_snapshot j l w j' : write_global j l w = Ok j' → program_snapshot j' = program_snapshot j;
}.

Section memory.
Context {J : Type} `{ProgramMemoryLaws J}.
Implicit Types (j : J) (l : StateLocation) (v : JitScalarValue).

(** The type of a location, as the default of what it holds. *)
Definition shape j l : Result JitScalarValue str :=
  match read_global j l with Ok v => Ok (default_value v) | Err e => Err e end.

(** Two states of the same program. *)
Record same_program j j' : Prop := {
  sp_layout : state_layout j' = state_layout j;
  sp_snapshot : program_snapshot j' = program_snapshot j;
  sp_shape l : shape j' l = shape j l;
}.

#[export] Instance same_program_preorder : PreOrder same_program.
Proof.
  split; [by split|]. intros j1 j2 j3 [E1 E2 E3] [F1 F2 F3]. split; [congruence..|].
  intros l. by rewrite F3, E3.
Qed.

Lemma shape_Ok j l v : read_global j l = Ok v → shape j l = Ok (default_value v).
Proof. unfold shape. by intros ->. Qed.

Lemma same_program_read j j' l v :
  same_program j j' → read_global j l = Ok v → ∃ w, read_global j' l = Ok w ∧ same_type v w.
Proof.
  intros [_ _ Hs] Hr. specialize (Hs l). rewrite (shape_Ok _ _ _ Hr) in Hs. unfold shape in Hs.
  destruct (read_global j' l) as [w|e]; [|done]. simplify_eq. by eexists.
Qed.

Lemma write_value_ok j l v w :
  read_global j l = Ok v → same_type v w → value_ok w →
  ∃ j', write_value l w j = (j', Ok tt) ∧ same_program j j' ∧ read_global j' l = Ok w
    ∧ ∀ l', l' ≠ l → read_global j' l' = read_global j l'.
Proof.
  intros Hr Ht Hw. pose proof (write_ok j l v w Hr Ht Hw) as Hok. unfold write_value.
  destruct (write_global j l w) as [j'|e] eqn:E; [|done]. exists j'.
  assert (∀ l', l' ≠ l → read_global j' l' = read_global j l') as Ho by (intros; by eapply write_other).
  split_and!; [done| |by eapply write_read|done]. split; [by eapply write_layout|by eapply write_snapshot|].
  intros l'. destruct (decide (l' = l)) as [->|Hne].
  - erewrite !shape_Ok; [|done|by eapply write_read]. by rewrite Ht.
  - unfold shape. by rewrite Ho.
Qed.

(** The memory [j'] is [j] with what [values] gives at the locations of [ls]. *)
Definition updated (ls : list StateLocation) (values : StateLocation → Result JitScalarValue str) j j' : Prop :=
  same_program j j' ∧ ∀ l, read_global j' l = if bool_decide (l ∈ ls) then values l else read_global j l.

Lemma updated_nil values j : updated [] values j j.
Proof. by split. Qed.

Lemma updated_app ls1 ls2 values j1 j2 j3 :
  updated ls1 values j1 j2 → updated ls2 values j2 j3 → updated (ls1 ++ ls2) values j1 j3.
Proof.
  intros [Hp1 E1] [Hp2 E2]. split; [by etrans|]. intros l. rewrite E2.
  destruct (decide (l ∈ ls2)) as [Hin2|Hin2].
  - rewrite !bool_decide_eq_true_2; [done|apply elem_of_app; by right|done].
  - rewrite (bool_decide_eq_false_2 (l ∈ ls2)), E1 by done.
    apply (f_equal (λ b : bool, if b then _ else _)), bool_decide_ext. rewrite elem_of_app. tauto.
Qed.

Lemma updated_ext ls1 ls2 values j j' :
  (∀ l, l ∈ ls1 ↔ l ∈ ls2) → updated ls1 values j j' → updated ls2 values j j'.
Proof.
  intros Hls [Hp E]. split; [done|]. intros l. rewrite E. by rewrite (bool_decide_ext _ _ (Hls l)).
Qed.

Definition readable j (ls : list StateLocation) : Prop := ∀ l, l ∈ ls → ∃ v, read_global j l = Ok v.

Lemma readable_program j j' ls : same_program j j' → readable j ls → readable j' ls.
Proof.
  intros Hp Hr l Hl. destruct (Hr l Hl) as [v Hv].
  destruct (same_program_read _ _ _ _ Hp Hv) as (w & Hw & _). by eexists.
Qed.

Lemma clear_values_ok j0 ls j :
  same_program j0 j → readable j ls →
  ∃ j', clear_values ls j = (j', Ok tt) ∧ updated ls (shape j0) j j'.
Proof.
  revert j. induction ls as [|l ls IH]; intros j Hp Hr.
  { exists j. split; [done|apply updated_nil]. }
  destruct (Hr l (list_elem_of_here _ _)) as [v Hv]. cbn [clear_values]. unfold clear_value, read_value.
  rewrite Hv. simpl. destruct (write_value_ok j l v (default_value v)) as (j1 & -> & Hp1 & Hr1 & Ho);
    [done|apply same_type_default|apply value_ok_default|]. simpl.
  destruct (IH j1) as (j' & -> & Hu); [by etrans| |].
  { eapply readable_program; [done|]. intros l' Hl'. apply Hr. by apply list_elem_of_further. }
  exists j'. split; [done|]. apply (updated_app [l] ls _ _ j1); [|done]. split; [done|]. intros l'.
  destruct (decide (l' = l)) as [->|Hne].
  - rewrite bool_decide_eq_true_2, Hr1 by apply list_elem_of_here.
    symmetry. rewrite <- (sp_shape _ _ Hp). by apply shape_Ok.
  - rewrite bool_decide_eq_false_2 by by rewrite list_elem_of_singleton. by apply Ho.
Qed.

Lemma and_then_ok r j (k : J → Restored) : r = (j, Ok tt) → and_then r k = k j.
Proof. by intros ->. Qed.

Lemma clear_fields_ok j0 path capacity fields ls j :
  walk_fields single path capacity fields = Ok ls → same_program j0 j → readable j ls →
  ∃ j', clear_fields path capacity fields j = (j', Ok tt) ∧ updated ls (shape j0) j j'.
Proof.
  revert ls j. induction fields as [|f fields IH]; intros ls j; cbn [walk_fields clear_fields].
  { intros [= <-] _ _. exists j. split; [done|apply updated_nil]. }
  intros Hls Hp Hr. inv_checks. rewrite visit_all_single in *. simplify_eq.
  rename select (walk_fields _ _ _ _ = _) into Hw. rename select (replay_field_element_count _ _ _ = _) into Hn.
  rewrite Hn. edestruct (clear_values_ok j0) as (j1 & -> & Hu1);
    [exact Hp|intros l Hl; apply Hr, elem_of_app; by left|]. cbn [and_then].
  destruct (IH _ j1 Hw) as (j2 & -> & Hu2); [etrans; [exact Hp|apply Hu1]| |].
  { apply (readable_program j); [apply Hu1|]. intros l Hl. apply Hr, elem_of_app. by right. }
  exists j2. split; [done|]. by eapply updated_app.
Qed.

(** The memory is cleared in the order of the layout, which visits the same locations. *)
Lemma clear_collections_ok j0 excluded collections ls j :
  walk_collections single excluded collections = Ok ls → same_program j0 j → readable j ls →
  ∃ j', clear_collections excluded collections j = (j', Ok tt) ∧ updated ls (shape j0) j j'.
Proof.
  revert ls j. induction collections as [|c collections IH]; intros ls j; cbn [walk_collections clear_collections].
  { intros [= <-] _ _. exists j. split; [done|apply updated_nil]. }
  destruct (excludes excluded (cl_path c)); [by apply IH|].
  intros Hls Hp Hr. inv_checks. simplify_eq. rename select (walk_collections _ _ _ = _) into Hw.
  rename select (walk_fields _ _ _ _ = _) into Hf.
  destruct (walk_fields_perm _ _ _ (cl_fields c) _ Hf) as (ls' & Hf' & Hin); [apply sort_by_Permutation|].
  edestruct (clear_fields_ok j0) as (j1 & -> & Hu1); [exact Hf'|exact Hp| |].
  { intros l Hl. apply Hr, elem_of_app. left. by apply Hin. }
  cbn [and_then]. destruct (IH _ j1 Hw) as (j2 & -> & Hu2); [etrans; [exact Hp|apply Hu1]| |].
  { apply (readable_program j); [apply Hu1|]. intros l Hl. apply Hr, elem_of_app. by right. }
  exists j2. split; [done|]. eapply updated_app; [|done]. by eapply updated_ext.
Qed.

(** The last value stored at a location. *)
Fixpoint last_value {V} (vs : list (StateLocation * V)) l : option V :=
  match vs with
  | [] => None
  | (l', v) :: vs' =>
      match last_value vs' l with
      | Some w => Some w
      | None => if decide (l' = l) then Some v else None
      end
  end.

Lemma write_values_ok vs j :
  (∀ l v, (l, v) ∈ vs → value_ok v ∧ ∃ w, read_global j l = Ok w ∧ same_type w v) →
  ∃ j', write_values vs j = (j', Ok tt) ∧ same_program j j'
    ∧ ∀ l, read_global j' l = match last_value vs l with Some v => Ok v | None => read_global j l end.
Proof.
  revert j. induction vs as [|[l v] vs IH]; intros j Hv.
  { by exists j. }
  destruct (Hv l v (list_elem_of_here _ _)) as (Hok & w & Hr & Ht). cbn [write_values].
  destruct (write_value_ok j l w v) as (j1 & -> & Hp1 & Hr1 & Ho); [done..|]. cbn [and_then].
  destruct (IH j1) as (j' & -> & Hp & Hu).
  { intros l' v' Hin. destruct (Hv l' v') as (? & w' & Hr' & Ht'); [by apply list_elem_of_further|].
    destruct (same_program_read _ _ _ _ Hp1 Hr') as (w1 & Hw1 & Ht1). split; [done|].
    exists w1. split; [done|]. unfold same_type in *. congruence. }
  exists j'. split_and!; [done|by etrans|]. intros l'. rewrite Hu. cbn [last_value].
  destruct (last_value vs l'); [done|]. case_decide as Hl; [by subst|]. by apply Ho.
Qed.

(** ** Restoring *)

Lemma decode_typed value target v :
  decode_scalar value target = Ok v → value_ok v ∧ same_type target v.
Proof.
  unfold decode_scalar. intros Hd. inv_checks. simplify_eq.
  destruct target as [z|z|z|b|z|z|z]; inv_checks;
    repeat match goal with H : checked_u _ _ = Some _ |- _ => apply checked_u_Some in H as [? ->] end;
    simplify_eq; try (split; [done|reflexivity]).
  - split; [apply swrap_range; lia|done].
  - split; [|done]. by eapply from_str_radix_range.
  - case_match; by simplify_eq.
Qed.

Lemma located_locate layout excluded l u : locate layout excluded l = Ok u → located layout excluded l.
Proof.
  destruct l as [path|path field i]; cbn [locate]; intros Hl; inv_checks.
  - apply existsb_exists in Hl as (s & Hs & Hb). to_props. split; [|done]. subst path.
    by apply list_elem_of_fmap_2, list_elem_of_In.
  - rename select (List.find _ (collections layout) = _) into Hc.
    rename select (List.find _ (cl_fields _) = _) into Hf.
    apply find_some in Hc as [Hc Hcb]. apply find_some in Hf as [Hf Hfb]. to_props. subst path. split; [done|].
    do 3 eexists. split_and!; try done; by apply list_elem_of_In.
Qed.

Lemma decode_entries_Ok j layout excluded entries vs :
  decode_entries j layout excluded entries = Ok vs ↔
  Forall2 (λ e p, decode_entry j layout excluded e = Ok p) entries vs.
Proof.
  revert vs. induction entries as [|e entries IH]; intros vs; cbn [decode_entries].
  { split; [by intros [= <-]|by inversion 1]. }
  split.
  - intros Hd. inv_checks. simplify_eq. constructor; [done|]. by apply IH.
  - inversion 1 as [|? p ? vs' Hp Hvs]; subst. rewrite Hp, (proj2 (IH vs') Hvs). done.
Qed.

Lemma decode_entry_Ok j layout excluded e l v :
  decode_entry j layout excluded e = Ok (l, v) ↔
  l = en_location e ∧ locate layout excluded l = Ok tt ∧
  ∃ t, read_global j l = Ok t ∧ decode_scalar (en_value e) t = Ok v.
Proof.
  unfold decode_entry, read_value. destruct (locate layout excluded (en_location e)) as [[]|] eqn:E; cbn [result_bind].
  - destruct (read_global j (en_location e)) as [t|] eqn:Er; simpl.
    + destruct (decode_scalar (en_value e) t) eqn:Ed; simpl; split.
      * intros [= <- <-]. rewrite E, Er. eauto.
      * intros (-> & _ & t' & Ht & Hv). simplify_eq. congruence.
      * done.
      * intros (-> & _ & t' & Ht & Hv). congruence.
    + split; [done|]. intros (-> & _ & t' & Ht & Hv). congruence.
  - split; [done|]. intros (-> & Hl & _). congruence.
Qed.

Definition entry_pairs (state : InitialState) : list (StateLocation * EncodedScalar) :=
  (λ e, (en_location e, en_value e)) <$> is_values state.

(** What the located value [l] of [j] is after the restoration of [state]. *)
Definition restored_value (state : InitialState) j l : Result JitScalarValue ReplayError :=
  let? t := read_value j l in
  match last_value (entry_pairs state) l with
  | Some e => decode_scalar e t
  | None => Ok (default_value t)
  end.

Lemma last_value_decoded j layout excluded state vs l :
  decode_entries j layout excluded (is_values state) = Ok vs →
  match last_value vs l with
  | Some v => ∃ e t, last_value (entry_pairs state) l = Some e ∧ read_global j l = Ok t ∧ decode_scalar e t = Ok v
  | None => last_value (entry_pairs state) l = None
  end.
Proof.
  unfold entry_pairs. rewrite decode_entries_Ok. induction 1 as [|e [l' v] entries vs He _ IH]; [done|].
  apply decode_entry_Ok in He as (-> & _ & t & Ht & Hv). cbn [last_value fmap list_fmap].
  destruct (last_value vs l).
  - destruct IH as (e' & t' & -> & ? & ?). eauto.
  - rewrite IH. case_decide; [|done]. subst l. eauto.
Qed.

Lemma last_value_elem {V} (vs : list (StateLocation * V)) l (v : V) : last_value vs l = Some v → (l, v) ∈ vs.
Proof.
  induction vs as [|[l' v'] vs IH]; cbn [last_value]; [done|]. destruct (last_value vs l) as [w|].
  - intros [= <-]. apply list_elem_of_further. by apply IH.
  - case_decide; [|done]. intros [= <-]. subst. apply list_elem_of_here.
Qed.

Lemma decode_entries_located j layout excluded entries vs l v :
  decode_entries j layout excluded entries = Ok vs → last_value vs l = Some v → located layout excluded l.
Proof.
  rewrite decode_entries_Ok. intros Hd [k Hk]%last_value_elem%list_elem_of_lookup.
  destruct (Forall2_lookup_r _ _ _ _ _ Hd Hk) as (e & _ & He).
  apply decode_entry_Ok in He as (_ & Hl & _). by eapply located_locate.
Qed.

Lemma restore_spec j layout excluded ls state vs :
  validate_supported_state j = Ok tt → state_layout j = layout →
  replay_excluded_paths j layout = Ok excluded → walk single layout excluded = Ok ls → readable j ls →
  decode_entries j layout excluded (is_values state) = Ok vs →
  ∃ j', restore_initial_state j state = (j', Ok tt) ∧ same_program j j'
    ∧ ∀ l, map_err Host (read_global j' l)
           = if bool_decide (l ∈ ls) then restored_value state j l else map_err Host (read_global j l).
Proof.
  intros Hs Hl Hx Hls Hr Hd. unfold restore_initial_state. rewrite Hl, Hs, Hx. cbn [result_bind].
  rewrite Hd. cbn [result_bind]. assert (∀ l, l ∈ ls ↔ located layout excluded l) as Hin by (intros; by apply elem_of_walk_located).
  subst layout. destruct (walk_split _ _ _ Hls) as (lsc & Hw & ->).
  destruct (clear_values_ok j (scalar_locations excluded (scalars (state_layout j))) j) as (j1 & -> & Hu1); [done| |].
  { intros l Hl. apply Hr, Hin. apply elem_of_scalars in Hl as (s & Hsin & -> & Hsx). split; [|done].
    by apply list_elem_of_fmap_2. }
  cbn [and_then]. destruct (walk_collections_perm _ _ (collections (state_layout j)) _ Hw) as (ls2 & Hw2 & Hls2);
    [apply sort_by_Permutation|].
  destruct (clear_collections_ok j _ _ _ j1 Hw2) as (j2 & -> & Hu2); [apply Hu1| |].
  { apply (readable_program j); [apply Hu1|]. intros l Hl. apply Hr, elem_of_app. right. by apply Hls2. }
  cbn [and_then]. pose proof (updated_app _ _ _ _ _ _ Hu1 Hu2) as Hu.
  apply (updated_ext _ (scalar_locations excluded (sort_by scalar_le (scalars (state_layout j))) ++ lsc)) in Hu
    as [Hp2 Hu]; [|intros l; rewrite !elem_of_app, Hls2, !elem_of_scalars;
                   by setoid_rewrite (elem_of_sort_by scalar_le)].
  destruct (write_values_ok vs j2) as (j' & -> & Hp & Hread).
  { intros l v Hv. apply decode_entries_Ok in Hd. apply list_elem_of_lookup in Hv as [k Hk].
    destruct (Forall2_lookup_r _ _ _ _ _ Hd Hk) as (e & _ & He).
    apply decode_entry_Ok in He as (_ & _ & t & Ht & Hv). destruct (decode_typed _ _ _ Hv) as [Hok Hty].
    destruct (same_program_read _ _ _ _ Hp2 Ht) as (w & Hw' & Hty'). split; [done|]. exists w. split; [done|].
    unfold same_type in *. congruence. }
  exists j'. split_and!; [done|by etrans|]. intros l. rewrite Hread, Hu. clear Hread Hu.
  pose proof (last_value_decoded _ _ _ _ _ l Hd) as Hlast. unfold restored_value, read_value.
  destruct (last_value vs l) as [v|] eqn:Ev.
  - destruct Hlast as (e & t & -> & Ht & Hv). rewrite Ht. simpl. rewrite Hv.
    rewrite bool_decide_eq_true_2; [done|]. apply Hin. apply (decode_entries_located _ _ _ _ _ _ _ Hd Ev).
  - rewrite Hlast. case_bool_decide; [|done]. destruct (Hr l) as [t Ht]; [done|].
    rewrite (shape_Ok _ _ _ Ht), Ht. done.
Qed.

(** What a state that can be hashed has: every location can be read. *)
Lemma hash_walk `{ReplayCodec} j h :
  simulation_state_hash j = Ok h →
  validate_supported_state j = Ok tt ∧ ∃ excluded ls bytes,
    replay_excluded_paths j (state_layout j) = Ok excluded ∧ walk single (state_layout j) excluded = Ok ls
    ∧ visit_all (λ l, let? v := read_value j l in Ok (hash_value (location_label l) v)) ls = Ok bytes
    ∧ readable j ls ∧ h = hex_digest (string_bytes "stasis.simulation-state.v1" ++ [0] ++ bytes).
Proof.
  unfold simulation_state_hash. intros Hh. inv_checks. apply Ok_inj in Hh as <-.
  rename select (walk _ _ _ = _) into Hw. apply walk_Ok in Hw as (ls & Hls & Hv).
  match goal with H : validate_supported_state j = Ok ?u |- _ => destruct u end. split; [done|].
  do 3 eexists. split_and!; [done|done|done| |done]. intros l Hl.
  destruct (visit_all_elem _ _ _ _ Hv Hl) as (a & Ha & _). unfold read_value in Ha.
  destruct (read_global j l) as [v|]; [by eexists|done].
Qed.

(** A restoration happens entirely or not at all.  When the live state can be hashed
    (every location of its layout can be read), a recorded state that is rejected leaves
    the memory as it was, and one that is accepted sets every location of the simulation
    state to the value decoded from its last entry, or to the default of its type when it
    has none, and leaves every other location and the types of all as they were. *)
Theorem restored_or_untouched `{ReplayCodec} j h state j' r :
  simulation_state_hash j = Ok h → restore_initial_state j state = (j', r) →
  match r with
  | Err _ => j' = j
  | Ok _ =>
      same_program j j' ∧
      ∃ excluded, replay_excluded_paths j (state_layout j) = Ok excluded ∧
        ∀ l, (located (state_layout j) excluded l → read_value j' l = restored_value state j l)
          ∧ (¬ located (state_layout j) excluded l → read_value j' l = read_value j l)
  end.
Proof.
  intros Hh Hres. destruct (hash_walk _ _ Hh) as (Hs & excluded & ls & bytes & Hx & Hls & _ & Hr & _).
  destruct (decode_entries j (state_layout j) excluded (is_values state)) as [vs|e] eqn:Hd.
  - destruct (restore_spec j _ excluded ls state vs Hs eq_refl Hx Hls Hr Hd) as (j1 & E & Hp & Hread).
    rewrite E in Hres. simplify_eq. split; [done|]. exists excluded. split; [done|]. intros l.
    pose proof (elem_of_walk_located _ _ _ l Hls) as Hin. specialize (Hread l). unfold read_value.
    split; intros Hl; rewrite Hread; [rewrite bool_decide_eq_true_2|rewrite bool_decide_eq_false_2]; tauto.
  - unfold restore_initial_state in Hres. rewrite Hs, Hx in Hres. cbn [result_bind] in Hres.
    rewrite Hd in Hres. simpl in Hres. by simplify_eq.
Qed.

(** ** Restoring what was captured *)

(** The paths and fields of a layout have one meaning. *)
Definition layout_wf (layout : StateLayout) : Prop :=
  NoDup (cl_path <$> collections layout) ∧ Forall (λ c, NoDup (fl_field <$> cl_fields c)) (collections layout).

Lemma find_unique {A B} `{EqDecision B} (f : A → B) (g : A → bool) (l : list A) x :
  NoDup (f <$> l) → x ∈ l → (∀ y, g y = bool_decide (f y = f x)) → List.find g l = Some x.
Proof.
  intros Hn Hx Hg. destruct (List.find g l) as [y|] eqn:E.
  - apply find_some in E as [Hy Hgy]. rewrite Hg in Hgy. apply bool_decide_eq_true in Hgy. f_equal.
    apply (NoDup_fmap_elem f l); [done|by apply list_elem_of_In|done|done].
  - apply list_elem_of_In in Hx. pose proof (find_none _ _ E x Hx) as Hf.
    by rewrite Hg, bool_decide_eq_true_2 in Hf.
Qed.

Lemma locate_located layout excluded l :
  layout_wf layout → located layout excluded l → locate layout excluded l = Ok tt.
Proof.
  intros [Hc Hf]. destruct l as [path|path field i]; cbn [locate].
  - intros [(s & -> & Hs)%list_elem_of_fmap Hx]. apply ensure_Ok, existsb_exists. exists s.
    split; [by apply list_elem_of_In|]. by rewrite bool_decide_eq_true_2, Hx.
  - intros (Hx & c & f & n & Hin & <- & Hfin & <- & Hn & Hi).
    rewrite (find_unique cl_path _ _ c); [|done|done|intros; by rewrite Hx, andb_true_r].
    cbn [ok_or result_bind]. rewrite Forall_forall in Hf.
    rewrite (find_unique fl_field _ _ f) by (done || by apply Hf). cbn [ok_or result_bind].
    rewrite Hn. cbn [result_bind]. apply ensure_Ok, negb_true_iff, orb_false_iff. lia.
Qed.

Lemma last_value_In {V} (vs : list (StateLocation * V)) l (v : V) :
  (l, v) ∈ vs → ∃ w, last_value vs l = Some w.
Proof.
  induction vs as [|[l' v'] vs IH]; cbn [last_value]; [by intros ?%elem_of_nil|].
  intros [[= <- <-]|Hin]%elem_of_cons.
  - destruct (last_value vs l); [by eexists|]. rewrite decide_True by done. by eexists.
  - destruct (IH Hin) as [w ->]. by eexists.
Qed.

(** The entries of a captured state are its values that are not the default. *)
Lemma captured_pairs j ls values l :
  visit_all (capture_entry j) ls = Ok values →
  (∀ e, e ∈ values → en_location e ∈ ls ∧ ∃ v, read_global j (en_location e) = Ok v
                      ∧ is_default v = false ∧ en_value e = encode_scalar v)
  ∧ (∀ v, l ∈ ls → read_global j l = Ok v → is_default v = false → mkEntry l (encode_scalar v) ∈ values).
Proof.
  intros Hv. split.
  - intros e He. destruct (visit_all_from _ _ _ _ Hv He) as (l' & a & Hl & Ha & Hin).
    unfold capture_entry, read_value in Ha. destruct (read_global j l') as [v|] eqn:Er; [|done]. simpl in Ha.
    destruct (is_default v) eqn:Ed; simplify_eq; [by apply elem_of_nil in Hin|].
    apply list_elem_of_singleton in Hin as ->. split; [done|]. by exists v.
  - intros v Hl Hr Hd. destruct (visit_all_elem _ _ _ _ Hv Hl) as (a & Ha & Hin). apply Hin.
    unfold capture_entry, read_value in Ha. rewrite Hr in Ha. simpl in Ha. rewrite Hd in Ha. simplify_eq.
    apply list_elem_of_here.
Qed.

Lemma restored_captured j1 j2 state ls l v :
  same_program j1 j2 → visit_all (capture_entry j1) ls = Ok (is_values state) →
  l ∈ ls → read_global j1 l = Ok v → restored_value state j2 l = Ok v.
Proof.
  intros Hp Hv Hl Hr. destruct (same_program_read _ _ _ _ Hp Hr) as (t & Ht & Hty).
  destruct (captured_pairs _ _ _ l Hv) as [Hfrom Hto].
  unfold restored_value, read_value. rewrite Ht. simpl. destruct (last_value (entry_pairs state) l) as [e|] eqn:E.
  - apply last_value_elem, list_elem_of_fmap in E as (en & [= -> ->] & Hen).
    destruct (Hfrom _ Hen) as (_ & w & Hw & _ & ->). rewrite Hr in Hw. apply Ok_inj in Hw as <-. apply decode_encode; [by eapply read_ok|done].
  - destruct (is_default v) eqn:Hd; [by rewrite <- Hty, is_default_default|].
    destruct (last_value_In (entry_pairs state) l (encode_scalar v)) as [w Hw]; [|congruence].
    apply list_elem_of_fmap. exists (mkEntry l (encode_scalar v)). split; [done|]. by apply Hto.
Qed.

Lemma captured_decodes j1 j2 layout excluded ls values :
  layout_wf layout → walk single layout excluded = Ok ls → same_program j1 j2 →
  visit_all (capture_entry j1) ls = Ok values →
  ∃ vs, decode_entries j2 layout excluded values = Ok vs.
Proof.
  intros Hwf Hls Hp Hv. destruct (captured_pairs _ _ _ (ScalarLocation []) Hv) as [Hfrom _]. clear Hv.
  induction values as [|e values IH]; [by eexists|].
  destruct (Hfrom e (list_elem_of_here _ _)) as (Hl & v & Hr & _ & He).
  destruct (same_program_read _ _ _ _ Hp Hr) as (t & Ht & Hty).
  destruct IH as [vs Hvs]; [intros e' He'; apply Hfrom; by apply list_elem_of_further|].
  exists ((en_location e, v) :: vs). cbn [decode_entries].
  rewrite (proj2 (decode_entry_Ok j2 layout excluded e (en_location e) v)); [cbn [result_bind]; by rewrite Hvs|].
  split_and!; [done|by apply locate_located, (elem_of_walk_located _ _ _ _ Hls)|]. exists t. split; [done|]. rewrite He.
  apply decode_encode; [by eapply read_ok|done].
Qed.

(** The hash depends on the values of the located locations only. *)
Lemma hash_same `{ReplayCodec} j1 j2 h excluded ls :
  simulation_state_hash j1 = Ok h → same_program j1 j2 →
  replay_excluded_paths j1 (state_layout j1) = Ok excluded → walk single (state_layout j1) excluded = Ok ls →
  (∀ l, l ∈ ls → read_value j2 l = read_value j1 l) → simulation_state_hash j2 = Ok h.
Proof.
  intros Hh [El Es _] Hx' Hls' Hread. destruct (hash_walk _ _ Hh) as (Hs & ex & ls' & bytes & Hx & Hls & Hv & _ & ->).
  rewrite Hx in Hx'. apply Ok_inj in Hx' as <-. rewrite Hls in Hls'. apply Ok_inj in Hls' as <-.
  unfold simulation_state_hash, validate_supported_state, replay_excluded_paths in *. rewrite El, Es, Hs. cbn [result_bind].
  rewrite Hx. cbn [result_bind]. rewrite (proj2 (walk_Ok _ _ _ bytes)); [done|]. exists ls'. split; [done|].
  rewrite <- Hv. apply visit_all_ext. intros l Hl. by rewrite Hread.
Qed.

(** C5 A recording starts where it started.  A state captured from one run of a program
    is restored in any other state of the same program (same layout, same types): every
    location of the simulation state has the value it had when it was captured, its hash
    is the recorded one, and nothing outside the simulation state has changed. *)
Theorem captured_state_restores `{ReplayCodec} j1 j2 state :
  layout_wf (state_layout j1) → same_program j1 j2 → capture_initial_state j1 = Ok state →
  ∃ j' excluded, initialize_state j2 state = (j', Ok tt)
    ∧ replay_excluded_paths j1 (state_layout j1) = Ok excluded
    ∧ ∀ l, (located (state_layout j1) excluded l → read_value j' l = read_value j1 l)
        ∧ (¬ located (state_layout j1) excluded l → read_value j' l = read_value j2 l).
Proof.
  intros Hwf Hp Hc. unfold capture_initial_state in Hc. inv_checks. simplify_eq.
  rename select (simulation_state_hash j1 = _) into Hh. rename select (walk _ _ _ = _) into Hw.
  rename select (replay_excluded_paths _ _ = _) into Hx'.
  destruct (hash_walk _ _ Hh) as (Hs & excluded & ls & bytes & Hx & Hls & _ & Hr & _).
  rewrite Hx in Hx'. apply Ok_inj in Hx' as <-.
  apply walk_Ok in Hw as (ls' & Hls' & Hv). rewrite Hls in Hls'. apply Ok_inj in Hls' as <-.
  match goal with |- context [initialize_state _ ?s] => set (state := s) end.
  destruct (captured_decodes _ j2 _ _ _ _ Hwf Hls Hp Hv) as [vs Hvs].
  destruct (restore_spec j2 (state_layout j1) excluded ls state vs) as (j' & E & Hp' & Hread);
    [|by apply sp_layout| |done|by eapply readable_program|done|].
  { unfold validate_supported_state, replay_excluded_paths in *. by rewrite (sp_layout _ _ Hp), (sp_snapshot _ _ Hp). }
  { unfold replay_excluded_paths in *. by rewrite (sp_snapshot _ _ Hp). }
  assert (∀ l, l ∈ ls → read_value j' l = read_value j1 l) as Hsame.
  { intros l Hl. unfold read_value at 1. rewrite Hread, bool_decide_eq_true_2 by done.
    destruct (Hr l Hl) as [v Hv']. unfold read_value. rewrite Hv'. by eapply restored_captured. }
  exists j', excluded. split_and!; [|done|].
  - unfold initialize_state. rewrite E. cbn [and_then].
    rewrite (hash_same j1 j' _ _ _ Hh (transitivity Hp Hp') Hx Hls Hsame). f_equal. apply ensure_Ok.
    by apply bool_decide_eq_true.
  - intros l. rewrite <- (elem_of_walk_located _ _ _ l Hls). split; [apply Hsame|]. intros Hl.
    unfold read_value at 1. by rewrite Hread, bool_decide_eq_false_2.
Qed.
End memory.

(** * A sample memory

    A program with one counter, a table of two units and the host's lanes, and the
    instances of the theorems about initial states at it. *)

#[local] Instance value_ok_dec v : Decision (value_ok v).
Proof. destruct v; simpl; apply _. Defined.

(** A memory is the list of what was written, the last first. *)
Record SampleMemory := mkMemory { cells : list (StateLocation * JitScalarValue) }.

Definition read_cells (m : SampleMemory) (l : StateLocation) : Result JitScalarValue str :=
  match List.find (λ c, bool_decide (c.1 = l)) (cells m) with
  | Some (_, v) => if bool_decide (value_ok v) then Ok v else Err []
  | None => Err []
  end.

Definition write_cells (m : SampleMemory) (l : StateLocation) (v : JitScalarValue) : Result SampleMemory str :=
  let? current := read_cells m l in
  if bool_decide (default_value current = default_value v) && bool_decide (value_ok v)
  then Ok (mkMemory ((l, v) :: cells m)) else Err [].

Definition score : StateLocation := ScalarLocation (string_bytes "game.score").
Definition host : StateLocation := ScalarLocation (string_bytes "host_i32.clock").
Definition hp (i : Z) : StateLocation := CollectionLocation (string_bytes "game.units") (string_bytes "hp") i.

Definition sample_layout : StateLayout :=
  {| scalars := [mkScalarLayout (string_bytes "host_i32.clock") (string_bytes "i32") [];
                 mkScalarLayout (string_bytes "game.score") (string_bytes "i32") []];
     collections := [mkCollectionLayout (string_bytes "game.units") 2 [] true
                       [mkFieldLayout (string_bytes "hp") (string_bytes "u8") [] None]];
     structs := [];
     opaque := [] |}.

#[local] Instance sample_memory : ProgramMemory SampleMemory :=
  {| state_layout := λ _, sample_layout;
     program_snapshot := λ _, Some (mkTypes [] (λ _, None));
     read_global := read_cells;
     write_global := write_cells |}.

#[local] Instance sample_memory_laws : ProgramMemoryLaws SampleMemory.
Proof.
  assert (∀ m l v m', write_cells m l v = Ok m' → value_ok v ∧ m' = mkMemory ((l, v) :: cells m)) as Hw.
  { unfold write_cells. intros m l v m' Hm. inv_checks. case_match; simplify_eq. to_props. done. }
  split; simpl.
  - unfold read_cells. intros m l v. destruct (List.find _ _) as [[l' w]|]; [|done].
    case_bool_decide; [|done]. congruence.
  - intros m l v w Hr Ht Hok. unfold write_cells. rewrite Hr. cbn [result_bind].
    rewrite !bool_decide_eq_true_2; done.
  - intros m l v m' [Hok ->]%Hw. unfold read_cells. simpl. by rewrite !bool_decide_eq_true_2.
  - intros m l v m' l' [Hok ->]%Hw Hne. unfold read_cells. simpl. by rewrite bool_decide_eq_false_2.
  - done.
  - done.
Defined.

#[local] Instance sample_codec : ReplayCodec :=
  {| digest := λ bytes, [len bytes `mod` 256];
     CARGO_PKG_VERSION := [];
     STASIS_RELEASE_ID := None;
     to_vec_document := λ _, Err [];
     to_vec_segment := λ _, Err [];
     to_vec_baseline := λ _, Err [];
     to_vec_checkpoint := λ _, Err [];
     to_vec_legacy := λ _, Err [];
     probe_replay_schema := λ _, Err [];
     from_slice_v1 := λ _, Err [];
     from_slice_v2 := λ _, Err [];
     from_slice_v3 := λ _, Err [] |}.

Definition captured_memory : SampleMemory :=
  mkMemory [(score, VI32 (-7)); (host, VI32 3); (hp 0, VU8 0); (hp 1, VU8 200)].

Definition later_memory : SampleMemory :=
  mkMemory [(hp 0, VU8 9); (score, VI32 (-7)); (host, VI32 3); (hp 0, VU8 0); (hp 1, VU8 200)].

Definition captured : InitialState :=
  match capture_initial_state captured_memory with Ok s => s | Err _ => mkInitialState [] [] end.

Example captured_entries :
  is_values captured
  = [mkEntry score (mkEncoded (string_bytes "i32") (string_bytes "fffffff9"));
     mkEntry (hp 1) (mkEncoded (string_bytes "u8") (string_bytes "c8"))].
Proof. vm_compute. reflexivity. Qed.

Lemma sample_program : same_program captured_memory later_memory.
Proof.
  destruct (write_value_ok captured_memory (hp 0) (VU8 0) (VU8 9)) as (m & E & Hp & _); [done..|].
  vm_compute in E. simplify_eq. exact Hp.
Qed.

Lemma sample_layout_wf : layout_wf sample_layout.
Proof. unfold layout_wf. simpl. split; repeat constructor; apply not_elem_of_nil. Qed.

Lemma captured_state_restores_witness :
  capture_initial_state captured_memory = Ok captured ∧
  ∃ m' excluded, initialize_state later_memory captured = (m', Ok tt)
    ∧ replay_excluded_paths captured_memory (state_layout captured_memory) = Ok excluded
    ∧ ∀ l, (located (state_layout captured_memory) excluded l → read_value m' l = read_value captured_memory l)
        ∧ (¬ located (state_layout captured_memory) excluded l → read_value m' l = read_value later_memory l).
Proof.
  split; [vm_compute; reflexivity|].
  apply (captured_state_restores captured_memory later_memory captured).
  - exact sample_layout_wf.
  - exact sample_program.
  - vm_compute. reflexivity.
Defined.

Definition unknown_state : InitialState :=
  mkInitialState [mkEntry score (mkEncoded (string_bytes "i32") (string_bytes "00000001"));
                  mkEntry (hp 2) (mkEncoded (string_bytes "u8") (string_bytes "01"))] [].

Lemma restored_or_untouched_witness :
  restore_initial_state later_memory unknown_state
  = (later_memory, Err (IndexOutside (string_bytes "game.units") (string_bytes "hp") 2 2))
  ∧ later_memory = later_memory.
Proof.
  split; [vm_compute; reflexivity|].
  destruct (simulation_state_hash later_memory) as [h|e] eqn:Eh; [|vm_compute in Eh; discriminate].
  refine (restored_or_untouched later_memory h unknown_state later_memory (Err _) Eh _).
  vm_compute. reflexivity.
Defined.
