(* ===== verification/ModuleGraphProps.v ===== *)
(** * Properties of the module graph

    Loading terminates and succeeds exactly when every imported module can be read,
    no two modules share an alias and no imports form a cycle; a loaded graph holds
    exactly the modules the roots import, in an order that respects the imports, and
    its closures are exact. *)

From stdpp Require Import relations.
From S2P Require Import Prelude BTree Worklist Lexer Identity Text Imports ImportsProps.
From S2P Require Import ModuleGraph.
#[local] Set Warnings "-clear-no-such-hyp".

(** ** The traversal of the module graph

    [ModuleGraph.deterministic_traversal] is a depth-first search: it orders the
    modules so that imports come first, or reports a cycle of imports. *)


(** *** Chains of imports *)

Definition targets (mods : list (str * ModuleRecord)) (path : str) : list str :=
  match map_get path mods with
  | Some m => import_target <$> module_imports m
  | None => []
  end.

(** Each element of the list is related to the next. *)
Fixpoint is_chain {A} (R : A → A → Prop) (l : list A) : Prop :=
  match l with
  | a :: (b :: _) as l' => R a b ∧ is_chain R l'
  | _ => True
  end.

Section chains.
Context {A : Type} (R : A → A → Prop).

Lemma is_chain_snoc l a b : is_chain R (l ++ [a]) → R a b → is_chain R ((l ++ [a]) ++ [b]).
Proof.
  intros Hl Hab. induction l as [|x l IH]; [done|]. destruct l as [|y l]; simpl in *.
  - destruct Hl. by split.
  - destruct Hl as [? Hl]. split; [done|]. by apply IH.
Qed.

Lemma is_chain_drop n l : is_chain R l → is_chain R (drop n l).
Proof.
  revert l. induction n as [|n IH]; intros [|a l] Hl; try done. simpl. apply IH.
  destruct l; [done|]. by destruct Hl.
Qed.

Lemma is_chain_tc a l b : is_chain R (a :: l ++ [b]) → tc R a b.
Proof.
  revert a. induction l as [|c l IH]; intros a [Hac Hl].
  - by apply tc_once.
  - eapply tc_l; [exact Hac|]. by apply IH.
Qed.


(** The elements of a chain that a set closed under [R] contains are related by any
    relation that agrees with [R] there. *)
Lemma is_chain_change (R' : A → A → Prop) (P : A → Prop) a l :
  (∀ x y, P x → R x y → R' x y ∧ P y) → P a → is_chain R (a :: l) → is_chain R' (a :: l).
Proof.
  intros HP. revert a. induction l as [|b l IH]; intros a Ha Hl; [done|]. destruct Hl as [Hab Hl].
  destruct (HP a b Ha Hab). split; [done|]. by apply IH.
Qed.
End chains.

Section traversal.
Context (mods : list (str * ModuleRecord)) (mods_sorted : sorted_map mods).
Implicit Types (path a b p : str) (visiting visited out : list str).

Definition imports_of a b : Prop := b ∈ targets mods a.

(** A cycle, written with its first module again at the end. *)
Definition import_cycle (cycle : list str) : Prop :=
  ∃ path l, cycle = path :: l ++ [path] ∧ is_chain imports_of cycle.

(** *** What is finished *)

(** The imports of a module come before it. *)
Definition imports_first (out : list str) : Prop :=
  ∀ l1 path l2, out = l1 ++ path :: l2 → ∀ t, imports_of path t → t ∈ l1.

Record finished (state : list str * list str) : Prop := {
  fin_visited : ∀ x, x ∈ state.1 ↔ x ∈ state.2;
  fin_nodup : NoDup state.2;
  fin_order : imports_first state.2;
}.

Lemma imports_first_snoc out path :
  imports_first out → (∀ t, imports_of path t → t ∈ out) → imports_first (out ++ [path]).
Proof.
  intros Ho Hp l1 q l2 E t Ht. destruct l2 as [|z l2 _] using rev_ind.
  - apply app_inj_tail in E as [-> ->]. by apply Hp.
  - rewrite app_comm_cons, app_assoc in E. apply app_inj_tail in E as [-> ->].
    by apply (Ho l1 q l2).
Qed.

Lemma finished_snoc visited out path :
  finished (visited, out) → path ∉ out → (∀ t, imports_of path t → t ∈ out) →
  finished (set_insert path visited, out ++ [path]).
Proof.
  intros [Hv Hn Ho] Hp Ht. split; simpl in *.
  - intros x. rewrite elem_of_set_insert, elem_of_app, list_elem_of_singleton, Hv. tauto.
  - apply NoDup_app. split; [done|]. split; [|apply NoDup_singleton].
    intros x Hx ->%list_elem_of_singleton. done.
  - by apply imports_first_snoc.
Qed.

(** Everything finished leads only to what is finished before. *)
Lemma imports_first_tc out a b l1 l2 :
  imports_first out → tc imports_of a b → out = l1 ++ a :: l2 → b ∈ l1.
Proof.
  intros Ho Hab. revert l1 l2. induction Hab as [a b Hab|a c b Hac _ IH]; intros l1 l2 E.
  - by apply (Ho _ _ _ E).
  - pose proof (Ho _ _ _ E _ Hac) as Hc. apply list_elem_of_split in Hc as (m1 & m2 & ->).
    apply elem_of_app. left. apply (IH m1 (m2 ++ a :: l2)). by rewrite E, <- app_assoc.
Qed.

Lemma imports_first_acyclic out a :
  imports_first out → NoDup out → a ∈ out → ¬ tc imports_of a a.
Proof.
  intros Ho Hn Ha Hc. apply list_elem_of_split in Ha as (l1 & l2 & ->).
  pose proof (imports_first_tc _ _ _ l1 l2 Ho Hc eq_refl) as Hin.
  apply NoDup_app in Hn as (_ & Hd & _). apply (Hd _ Hin). apply list_elem_of_here.
Qed.

(** *** The search *)

Definition cycle_found (d : SourceDiagnostic) : Prop :=
  ∃ cycle, import_cycle cycle ∧
           diag_message d = string_bytes "import cycle: " ++ join_arrow cycle.

(** What a call started below [visiting] returns. *)
Definition search_result (visiting : list str) (from : list str) (state : list str * list str)
    (r : Result (list str * list str) SourceDiagnostic) : Prop :=
  match r with
  | Ok state' => finished state' ∧ (∀ x, x ∈ from → x ∈ state'.2) ∧
      ∃ new, state'.2 = state.2 ++ new ∧
             ∀ x, x ∈ new → (x ∉ visiting) ∧ ∃ p, p ∈ from ∧ rtc imports_of p x
  | Err d => cycle_found d
  end.

(** A search with nothing to do, and two searches in a row. *)
Lemma search_nil visiting state : finished state → search_result visiting [] state (Ok state).
Proof.
  intros Hf. split; [done|]. split; [by intros x ?%not_elem_of_nil|].
  exists []. rewrite app_nil_r. split; [done|]. by intros x ?%not_elem_of_nil.
Qed.

Lemma search_seq visiting a l state state1 r :
  search_result visiting [a] state (Ok state1) → search_result visiting l state1 r →
  search_result visiting (a :: l) state r.
Proof.
  intros (_ & Hin1 & new1 & E1 & Hnew1). destruct r as [state2|d]; [|done].
  intros (Hf2 & Hin2 & new2 & E2 & Hnew2). split; [done|]. split.
  - intros x [->|Hx]%elem_of_cons; [|by apply Hin2]. rewrite E2. apply elem_of_app. left.
    apply Hin1, list_elem_of_here.
  - exists (new1 ++ new2). rewrite E2, E1, app_assoc. split; [done|].
    intros x [Hx|Hx]%elem_of_app.
    + destruct (Hnew1 x Hx) as (? & p & Hp & ?). apply list_elem_of_singleton in Hp as ->.
      split; [done|]. exists a. split; [apply list_elem_of_here|done].
    + destruct (Hnew2 x Hx) as (? & p & ? & ?). split; [done|]. exists p.
      split; [by apply list_elem_of_further|done].
Qed.

Lemma visit_imports_spec visiting (f : str → list str * list str → option (Result _ SourceDiagnostic))
    imports state :
  finished state → (∀ v, v ∈ visiting → v ∉ state.2) →
  (∀ i state, i ∈ imports → finished state → (∀ v, v ∈ visiting → v ∉ state.2) →
     ∃ r, f (import_target i) state = Some r ∧ search_result visiting [import_target i] state r) →
  ∃ r, visit_imports f imports state = Some r ∧
       search_result visiting (import_target <$> imports) state r.
Proof.
  revert state. induction imports as [|i imports IH]; intros state Hf Hv Hcall; simpl.
  { eexists. split; [done|]. by apply search_nil. }
  destruct (Hcall i state) as (r & -> & Hr); [apply list_elem_of_here|done..|]. simpl.
  destruct r as [state1|d]; [|by eexists]. pose proof Hr as (Hf1 & _ & new1 & E1 & Hnew1).
  destruct (IH state1) as (r & -> & Hr2); [done| | |].
  { intros v Hv1. rewrite E1. intros [?|Hx]%elem_of_app; [by apply (Hv v)|].
    by apply (Hnew1 v Hx). }
  { intros j st Hj. apply Hcall. by apply list_elem_of_further. }
  eexists. split; [done|]. by eapply search_seq.
Qed.

Lemma visit_spec fuel visiting path state :
  (S (length mods) ≤ fuel + length visiting)%nat → NoDup visiting →
  (∀ v, v ∈ visiting → v ∈ mods.*1) → is_chain imports_of (visiting ++ [path]) →
  finished state → (∀ v, v ∈ visiting → v ∉ state.2) →
  ∃ r, visit fuel mods visiting path state = Some r ∧ search_result visiting [path] state r.
Proof using mods_sorted.
  revert visiting path state. induction fuel as [|fuel IH]; intros visiting path state Hfuel Hnd Hsub Hch Hf Hv.
  { assert (length visiting ≤ length mods.*1)%nat as Hl by (by apply submseteq_length, NoDup_submseteq).
    rewrite length_fmap in Hl. lia. }
  simpl. case_bool_decide as Hvis.
  { eexists. split; [done|]. split; [done|].
    split; [intros x ->%list_elem_of_singleton; by apply Hf|].
    exists []. rewrite app_nil_r. split; [done|]. by intros x ?%not_elem_of_nil. }
  destruct (list_find (λ item, item = path) visiting) as [[index q]|] eqn:Efind.
  { eexists. split; [done|]. apply list_find_Some in Efind as (Hi & -> & _).
    exists (drop index visiting ++ [path]). split; [|done].
    rewrite (drop_S _ _ _ Hi). exists path, (drop (S index) visiting). split; [done|].
    apply (is_chain_drop _ index) in Hch. apply lookup_lt_Some in Hi as Hlt.
    rewrite drop_app_le in Hch by lia. by rewrite (drop_S _ _ _ Hi) in Hch. }
  apply list_find_None in Efind. rewrite Forall_forall in Efind.
  assert (path ∉ visiting) as Hpv by (intros Hp; by apply (Efind path Hp)).
  set (imports := match map_get path mods with Some m => module_imports m | None => [] end).
  assert (import_target <$> imports = targets mods path) as Et.
  { unfold imports, targets. by destruct (map_get path mods). }
  destruct (visit_imports_spec (visiting ++ [path]) (visit fuel mods (visiting ++ [path])) imports state)
    as (r & -> & Hr).
  { done. }
  { intros v [?| ->%list_elem_of_singleton]%elem_of_app; [by apply Hv|].
    intros Hp. by apply Hvis, Hf. }
  { intros i st Hi Hfst Hvst.
    assert (imports_of path (import_target i)) as Hedge.
    { unfold imports_of. rewrite <- Et. by apply list_elem_of_fmap_2. }
    apply IH; try done.
    - rewrite length_app. simpl. lia.
    - apply NoDup_app. split; [done|]. split; [|apply NoDup_singleton].
      by intros x Hx ->%list_elem_of_singleton.
    - intros v [?| ->%list_elem_of_singleton]%elem_of_app; [by apply Hsub|].
      apply map_get_keys; [done|]. unfold imports in Hi.
      destruct (map_get path mods); [by eexists|by apply not_elem_of_nil in Hi].
    - by apply is_chain_snoc. }
  simpl. destruct r as [[visited out]|d]; [|by eexists].
  destruct Hr as (Hf' & Hin & new & E & Hnew). simpl in *. eexists. split; [done|]. rewrite Et in *.
  assert (path ∉ out) as Hpo.
  { rewrite E. intros [Hp|Hp]%elem_of_app; [by apply Hvis, Hf|].
    apply (Hnew path Hp). apply elem_of_app. right. apply list_elem_of_here. }
  split; [by apply finished_snoc|]. split.
  - intros x ->%list_elem_of_singleton. apply elem_of_app. right. apply list_elem_of_here.
  - exists (new ++ [path]). simpl. rewrite E, app_assoc. split; [done|].
    intros x [Hx| ->%list_elem_of_singleton]%elem_of_app.
    + destruct (Hnew x Hx) as (Hn & p & Hp & Hpx). split; [set_solver|].
      exists path. split; [apply list_elem_of_here|]. by eapply rtc_l.
    + split; [done|]. exists path. split; [apply list_elem_of_here|apply rtc_refl].
Qed.

Lemma visit_roots_spec roots state :
  finished state →
  ∃ r, visit_roots (S (length mods)) mods roots state = Some r ∧ search_result [] roots state r.
Proof using mods_sorted.
  revert state. induction roots as [|root roots IH]; intros state Hf; cbn [visit_roots].
  { eexists. split; [done|]. by apply search_nil. }
  destruct (visit_spec (S (length mods)) [] root state) as (r & -> & Hr); try done.
  { simpl. lia. } { constructor. } { by intros v ?%not_elem_of_nil. } { by intros v ?%not_elem_of_nil. }
  simpl. destruct r as [state1|d]; [|by eexists].
  destruct (IH state1) as (r & -> & Hr2); [apply Hr|]. eexists. split; [done|]. by eapply search_seq.
Qed.
End traversal.


(** ** Aliases *)

Definition aliases_distinct (mods : list (str * ModuleRecord)) : Prop :=
  ∀ p q m n, (p, m) ∈ mods → (q, n) ∈ mods → record_alias m = record_alias n → p = q.

Section aliases.
Context (mods : list (str * ModuleRecord)).
Context (mods_paths : ∀ p m, (p, m) ∈ mods → module_path m = p).

Lemma alias_loop_spec before rest aliases :
  mods = before ++ rest → NoDup mods.*1 → sorted_map aliases →
  (∀ alias p, map_get alias aliases = Some p ↔ ∃ m, (p, m) ∈ before ∧ record_alias m = alias) →
  (∀ p q m n, (p, m) ∈ before → (q, n) ∈ before → record_alias m = record_alias n → p = q) →
  (alias_loop mods rest aliases = Ok tt ∧ aliases_distinct mods) ∨
  ((∃ d, alias_loop mods rest aliases = Err d) ∧ ¬ aliases_distinct mods).
Proof using mods_paths.
  revert before aliases. induction rest as [|[p m] rest IH]; intros before aliases E Hnd Hs Hal Hdist; simpl.
  { left. split; [done|]. rewrite app_nil_r in E. by subst before. }
  assert ((p, m) ∈ mods) as Hin by (rewrite E; set_solver).
  rewrite (mods_paths p m Hin).
  assert (∀ q n, (q, n) ∈ before → q ≠ p) as Hfresh.
  { intros q n Hq ->. rewrite E, fmap_app, fmap_cons in Hnd. apply NoDup_app in Hnd as (_ & Hd & _).
    apply (Hd p); [|apply list_elem_of_here]. by apply (list_elem_of_fmap_2' fst before (p, n)). }
  destruct (map_get (record_alias m) aliases) as [q|] eqn:Eq.
  - apply Hal in Eq as (n & Hq & Ha). rewrite bool_decide_eq_false_2 by (by eapply Hfresh).
    right. split; [by eexists|]. intros Hd. apply (Hfresh q n Hq).
    apply (Hd q p n m); [rewrite E; set_solver|done|done].
  - assert (∀ q n, (q, n) ∈ before → record_alias n ≠ record_alias m) as Hnone.
    { intros q n Hq Ha. assert (map_get (record_alias m) aliases = Some q) by (apply Hal; by exists n).
      congruence. }
    apply (IH (before ++ [(p, m)])); [by rewrite <- app_assoc|done|by apply map_insert_sorted| |].
    + intros alias q. destruct (decide (alias = record_alias m)) as [->|Hne].
      * rewrite map_get_insert. split; [intros [= <-]; exists m; set_solver|].
        intros (n & [Hq|Hq]%elem_of_app & Ha); [by apply Hnone in Hq|].
        by apply list_elem_of_singleton in Hq as [= <- <-].
      * rewrite map_get_insert_ne, Hal by done. split; intros (n & Hq & Ha); exists n; [set_solver|].
        split; [|done]. apply elem_of_app in Hq as [?|Hq]; [done|].
        apply list_elem_of_singleton in Hq as [= -> ->]. by rewrite Ha in Hne.
    + intros q1 q2 n1 n2 [H1|H1]%elem_of_app [H2|H2]%elem_of_app Ha.
      * by eapply Hdist.
      * apply list_elem_of_singleton in H2 as [= -> ->]. by apply Hnone in H1.
      * apply list_elem_of_singleton in H1 as [= -> ->]. by apply Hnone in H2.
      * apply list_elem_of_singleton in H1 as [= -> ->]. by apply list_elem_of_singleton in H2 as [= -> ->].
Qed.

Lemma unique_aliases_spec :
  sorted_map mods →
  (validate_unique_aliases mods = Ok tt ∧ aliases_distinct mods) ∨
  ((∃ d, validate_unique_aliases mods = Err d) ∧ ¬ aliases_distinct mods).
Proof using mods_paths.
  intros Hs. apply (alias_loop_spec []); [done|by apply sorted_keys_NoDup|constructor| |].
  - intros alias p. simpl. split; [done|]. by intros (m & ?%not_elem_of_nil & _).
  - by intros p q m n ?%not_elem_of_nil.
Qed.
End aliases.

(** ** Reverse edges *)

Definition edge_in (edges : list (str * list str)) (target path : str) : Prop :=
  ∃ l, map_get target edges = Some l ∧ path ∈ l.

Lemma edge_in_default edges target path :
  edge_in edges target path ↔ path ∈ default [] (map_get target edges).
Proof.
  unfold edge_in. destruct (map_get target edges) as [l|]; simpl.
  - split; [by intros (? & [= <-] & ?)|eauto].
  - split; [by intros (? & ? & _)|by intros ?%not_elem_of_nil].
Qed.

Lemma add_reverse_edge_sorted t p edges : sorted_map edges → sorted_map (add_reverse_edge t p edges).
Proof. apply map_insert_sorted. Qed.

Lemma add_reverse_edge_in t p edges target path :
  sorted_map edges →
  edge_in (add_reverse_edge t p edges) target path ↔
  (target = t ∧ path = p) ∨ edge_in edges target path.
Proof.
  intros Hs. rewrite !edge_in_default. unfold add_reverse_edge.
  destruct (decide (target = t)) as [->|Hne].
  - rewrite map_get_insert. simpl. rewrite elem_of_set_insert. naive_solver.
  - rewrite map_get_insert_ne by done. naive_solver.
Qed.

Lemma ensure_entry_sorted p edges : sorted_map edges → sorted_map (ensure_entry p edges).
Proof. unfold ensure_entry. case_match; [done|]. apply map_insert_sorted. Qed.

Lemma ensure_entry_in p edges target path :
  sorted_map edges → edge_in (ensure_entry p edges) target path ↔ edge_in edges target path.
Proof.
  intros Hs. unfold ensure_entry. destruct (map_get p edges) eqn:E; [done|]. rewrite !edge_in_default.
  destruct (decide (target = p)) as [->|Hne].
  - by rewrite map_get_insert, E.
  - by rewrite map_get_insert_ne.
Qed.

Lemma add_edges_spec p imports edges :
  sorted_map edges →
  let edges' := foldl (λ edges i, add_reverse_edge (import_target i) p edges) edges imports in
  sorted_map edges' ∧
  ∀ target path, edge_in edges' target path ↔
    (path = p ∧ target ∈ import_target <$> imports) ∨ edge_in edges target path.
Proof.
  revert edges. induction imports as [|i imports IH]; intros edges Hs; simpl.
  { split; [done|]. intros target path. split; [by right|]. by intros [[_ ?%not_elem_of_nil]|?]. }
  destruct (IH (add_reverse_edge (import_target i) p edges)) as [Hs' Hin];
    [by apply add_reverse_edge_sorted|].
  split; [done|]. intros target path. rewrite Hin, add_reverse_edge_in, elem_of_cons by done. tauto.
Qed.

Lemma reverse_edges_spec mods edges :
  sorted_map edges →
  let edges' := foldl (λ edges e, foldl (λ edges i, add_reverse_edge (import_target i) e.1 edges)
                 (ensure_entry e.1 edges) (module_imports e.2)) edges mods in
  sorted_map edges' ∧
  ∀ target path, edge_in edges' target path ↔
    (∃ m, (path, m) ∈ mods ∧ target ∈ import_target <$> module_imports m) ∨ edge_in edges target path.
Proof.
  revert edges. induction mods as [|[p m] mods IH]; intros edges Hs; simpl.
  { split; [done|]. intros target path. split; [by right|]. by intros [(m & ?%not_elem_of_nil & _)|?]. }
  destruct (add_edges_spec p (module_imports m) (ensure_entry p edges)) as [Hs1 Hin1];
    [by apply ensure_entry_sorted|].
  destruct (IH _ Hs1) as [Hs2 Hin2]. split; [done|]. intros target path.
  rewrite Hin2, Hin1, ensure_entry_in by done. setoid_rewrite elem_of_cons. split.
  - intros [(n & ? & ?)|[[-> ?]|?]]; [left; eauto|left; eauto|by right].
  - intros [(n & [[= -> ->]|?] & ?)|?]; [by right; left|left; eauto|by right; right].
Qed.

(** [y] is a reverse edge of [x] exactly when [y] imports [x]. *)
Lemma build_reverse_edges_spec mods :
  sorted_map mods →
  ∀ x y, y ∈ default [] (map_get x (build_reverse_edges mods)) ↔ imports_of mods y x.
Proof.
  intros Hs x y. rewrite <- edge_in_default.
  destruct (reverse_edges_spec mods []) as [_ Hin]; [constructor|].
  unfold build_reverse_edges. rewrite Hin. unfold imports_of, targets. split.
  - intros [(m & Hm & ?)|(l & ? & _)]; [|done]. apply map_get_elem in Hm; [|done]. by rewrite Hm.
  - destruct (map_get y mods) as [m|] eqn:E; [|by intros ?%not_elem_of_nil].
    apply map_get_elem in E; [|done]. left. eauto.
Qed.

(** ** Loading *)

Section loading.
Context `{GraphicsFrontEnd}.
Context (load_source : str → Result str str) (seams : bool) (synthetic : option str).

Definition readable (path : str) (source : str) (imports : list ModuleImport) : Prop :=
  read_module load_source seams synthetic path None = Some (Ok (source, imports)).

(** The imports of a module, as the reader gives it. *)
Definition source_imports (path : str) : list str :=
  match read_module load_source seams synthetic path None with
  | Some (Ok (_, imports)) => import_target <$> imports
  | _ => []
  end.

(** Who asks for a module only matters to the error. *)
Lemma read_module_from path from source imports :
  read_module load_source seams synthetic path from = Some (Ok (source, imports)) ↔
  readable path source imports.
Proof. unfold readable, read_module. by destruct (load_source path). Qed.

Lemma read_module_fails path from e :
  read_module load_source seams synthetic path from = Some (Err e) →
  ∃ e', read_module load_source seams synthetic path None = Some (Err e').
Proof. unfold read_module. destruct (load_source path); eauto. Qed.

Lemma readable_imports path source imports :
  readable path source imports → source_imports path = import_target <$> imports.
Proof. unfold readable, source_imports. by intros ->. Qed.

Lemma identifier_policy_total path source ts :
  tokens_ok source ts → is_Some (identifier_policy path source ts).
Proof.
  intros [Ht _]. induction Ht as [|t ts Ht _ IH]; [by eexists|]. simpl.
  case_bool_decide as Ek; simpl; [|done].
  destruct (token_text_total source t Ht) as [text ->]; [by rewrite Ek|]. simpl.
  case_match; [by eexists|done].
Qed.

(** Reading never panics. *)
Lemma read_module_total path from :
  (∀ source, load_source path = Ok source → is_str source) →
  is_Some (read_module load_source seams synthetic path from).
Proof.
  intros Hs. unfold read_module. destruct (load_source path) as [source|m] eqn:E; [|by eexists].
  specialize (Hs source eq_refl).
  destruct (parse_imports_total path source Hs) as [r ->]. simpl.
  destruct r as [imports|e]; [|by eexists].
  unfold validate_graphics_internal_source_policy. case_match; [by eexists|].
  case_match; [by eexists|]. case_match; [|by eexists].
  destruct (lex_spec source) as ([ts|e] & Elex & _); rewrite Elex; simpl; [|by eexists].
  destruct (identifier_policy_total path source ts) as [r ->]; [by apply lex_tokens_ok|]. simpl.
  destruct r; by eexists.
Qed.

(** The invariant of the worklist. *)
Record load_inv (roots : list str) (pending : list (str * option ImportedFrom))
    (sources : list (str * str)) (mods : list (str * ModuleRecord)) : Prop := {
  li_sorted : sorted_map mods;
  li_sources_sorted : sorted_map sources;
  li_modules : ∀ p m, map_get p mods = Some m →
    ∃ source imports, readable p source imports ∧ m = mkModule p (module_alias p) imports ∧
      map_get p sources = Some source;
  li_sources : ∀ p s, map_get p sources = Some s → is_Some (map_get p mods);
  li_sound : ∀ p, p ∈ pending.*1 ∨ is_Some (map_get p mods) → closed_from source_imports roots p;
  li_roots : ∀ p, p ∈ roots → p ∈ pending.*1 ∨ is_Some (map_get p mods);
  li_closed : ∀ a b, is_Some (map_get a mods) → b ∈ source_imports a →
    b ∈ pending.*1 ∨ is_Some (map_get b mods);
}.

Lemma load_inv_start roots : load_inv roots ((λ root, (root, None)) <$> roots) [] [].
Proof.
  assert ((((λ root, (root, None)) <$> roots) : list (str * option ImportedFrom)).*1 = roots) as E.
  { rewrite <- list_fmap_compose. apply list_fmap_id. }
  split; try (by constructor); rewrite ?E; try done.
  - intros p [Hp|[m Hm]]; [|done]. exists p. split; [done|apply rtc_refl].
  - intros p Hp. by left.
Qed.

Lemma load_inv_skip roots p from pending sources mods :
  load_inv roots ((p, from) :: pending) sources mods → is_Some (map_get p mods) →
  load_inv roots pending sources mods.
Proof.
  intros [? ? ? ? Hsound Hr Hc] Hp. split; try done.
  - intros q [Hq|Hq]; apply Hsound; [left; by apply list_elem_of_further|by right].
  - intros q Hq. destruct (Hr q Hq) as [[->|?]%elem_of_cons|?]; auto.
  - intros a b Ha Hb. destruct (Hc a b Ha Hb) as [[->|?]%elem_of_cons|?]; auto.
Qed.

Lemma new_pending_elem p imports mods q :
  q ∈ (new_pending p imports mods).*1 ↔ q ∈ import_target <$> imports ∧ map_get q mods = None.
Proof.
  unfold new_pending. rewrite <- list_fmap_compose, !list_elem_of_fmap.
  setoid_rewrite list_elem_of_filter. split.
  - intros (i & -> & Hn & Hi). split; [by exists i|done].
  - intros [(i & -> & Hi) Hn]. by exists i.
Qed.

Lemma is_Some_insert {V} (p q : str) (v : V) m :
  sorted_map m → is_Some (map_get p (map_insert q v m)) ↔ p = q ∨ is_Some (map_get p m).
Proof.
  intros Hm. rewrite !map_get_keys by (done || by apply map_insert_sorted).
  apply elem_of_map_insert_keys.
Qed.

Lemma load_inv_visit roots p from pending sources mods source imports :
  load_inv roots ((p, from) :: pending) sources mods → map_get p mods = None →
  readable p source imports →
  load_inv roots (new_pending p imports mods ++ pending) (map_insert p source sources)
    (map_insert p (mkModule p (module_alias p) imports) mods).
Proof.
  intros [Hs Hss Hm Hsrc Hsound Hr Hc] Hp Hread.
  pose proof (readable_imports _ _ _ Hread) as Himp.
  assert (∀ q, q ∈ ((p, from) :: pending).*1 ∨ is_Some (map_get q mods) →
    q ∈ (new_pending p imports mods ++ pending).*1 ∨
    is_Some (map_get q (map_insert p (mkModule p (module_alias p) imports) mods))) as Hkeep.
  { intros q. rewrite is_Some_insert, fmap_app, elem_of_app by done. simpl. rewrite elem_of_cons. tauto. }
  split; try by apply map_insert_sorted.
  - intros q m. destruct (decide (q = p)) as [->|Hne].
    + rewrite !map_get_insert. intros [= <-]. by exists source, imports.
    + rewrite !map_get_insert_ne by done. apply Hm.
  - intros q s. destruct (decide (q = p)) as [->|Hne]; rewrite is_Some_insert by done; [by left|].
    rewrite map_get_insert_ne by done. right. by eapply Hsrc.
  - intros q. rewrite is_Some_insert, fmap_app, elem_of_app, new_pending_elem by done.
    assert (closed_from source_imports roots p) as Hp' by (apply Hsound; left; apply list_elem_of_here).
    intros [[[Hq _]|Hq]|[->|Hq]]; [|by apply Hsound; left; apply list_elem_of_further|done|
      by apply Hsound; right].
    eapply closed_from_step; [done|]. by rewrite Himp.
  - intros q Hq. by apply Hkeep, Hr.
  - intros a b. rewrite is_Some_insert by done. intros [->|Ha] Hb; [|by apply Hkeep, (Hc a)].
    rewrite Himp in Hb. rewrite is_Some_insert, fmap_app, elem_of_app, new_pending_elem by done.
    destruct (map_get b mods) as [m|] eqn:E; [right; right; by eexists|]. left. by left.
Qed.

(** Whatever the fuel, an answer of the loop is exact. *)
Lemma load_loop_spec roots fuel pending sources mods r :
  load_inv roots pending sources mods →
  load_loop load_source seams synthetic fuel pending sources mods = Some r →
  match r with
  | Ok (sources', mods') => load_inv roots [] sources' mods'
  | Err _ => ∃ p e, closed_from source_imports roots p ∧
               read_module load_source seams synthetic p None = Some (Err e)
  end.
Proof.
  revert pending sources mods. induction fuel as [|fuel IH]; intros pending sources mods HI; [done|].
  cbn [load_loop]. destruct pending as [|[p from] pending]; [by intros [= <-]|].
  destruct (map_get p mods) as [m|] eqn:E.
  - apply IH. eapply load_inv_skip; [done|by eexists].
  - destruct (read_module _ _ _ p from) as [[[source imports]|e]|] eqn:Er; [| |done]; simpl.
    + apply IH. apply read_module_from in Er. by eapply load_inv_visit.
    + intros [= <-]. apply read_module_fails in Er as [e' Er]. exists p, e'. split; [|done].
      apply (li_sound _ _ _ _ HI). left. apply list_elem_of_here.
Qed.

(** With finitely many readable modules the loop answers. *)
Lemma load_loop_total univ fuel pending sources mods :
  (∀ p source, load_source p = Ok source → p ∈ univ ∧ is_str source) →
  sorted_map mods →
  (length pending + weight_left (λ p : str, p) (λ p, length (source_imports p)) univ mods.*1 < fuel)%nat →
  is_Some (load_loop load_source seams synthetic fuel pending sources mods).
Proof.
  intros Hu. revert pending sources mods. induction fuel as [|fuel IH]; intros pending sources mods Hm Hf; [lia|].
  cbn [load_loop]. destruct pending as [|[p from] pending]; [by eexists|]. cbn [length] in Hf.
  destruct (map_get p mods) as [m|] eqn:E; [apply IH; [done|lia]|].
  destruct (read_module_total p from) as [r Er]; [intros s Hs; by apply (Hu p)|]. rewrite Er. simpl.
  destruct r as [[source imports]|e]; [|by eexists]. apply IH; [by apply map_insert_sorted|].
  apply read_module_from in Er as Hread. pose proof (readable_imports _ _ _ Hread) as Himp.
  assert (p ∈ univ) as Hp.
  { unfold readable, read_module in Hread. destruct (load_source p) as [s|] eqn:El; [|done]. by apply (Hu p s). }
  rewrite map_insert_keys, length_app. unfold new_pending. rewrite length_fmap.
  pose proof (length_filter (λ i, map_get (import_target i) mods = None) imports).
  pose proof (weight_left_visit (λ p : str, p) (λ p, length (source_imports p)) univ mods.*1
    (set_insert p mods.*1) p Hp) as Hw.
  rewrite elem_of_set_insert, Himp, length_fmap in Hw. apply map_get_keys_None in E; [|done].
  specialize (Hw E ltac:(intros; apply elem_of_set_insert; auto) ltac:(auto)). lia.
Qed.

(** Enough fuel for the roots and a list of all readable modules. *)
Definition load_fuel (univ roots : list str) : nat :=
  S (length roots + sum_list_with (λ p, length (source_imports p)) univ).
End loading.

(** A path backwards. *)
Lemma rtc_reversed {A} (R : A → A → Prop) x y : rtc R x y ↔ rtc (λ a b, R b a) y x.
Proof.
  split; induction 1 as [a|a b c Hab _ IH]; [apply rtc_refl|by eapply rtc_r|apply rtc_refl|by eapply rtc_r].
Qed.

(** ** The loaded graph *)

(** The graph of the modules that [reached] holds, if they load. *)
Section graph.
Context `{GraphicsFrontEnd}.
Context (load_source : str → Result str str) (seams : bool) (synthetic : option str).
Context (rs : list str).

Abbreviation edges := (source_imports load_source seams synthetic).

(** A module the roots import, directly or not. *)
Definition reached (p : str) : Prop := closed_from edges rs p.

Definition all_readable : Prop :=
  ∀ p, reached p → ∃ source imports, readable load_source seams synthetic p source imports.

Definition no_alias_twice : Prop :=
  ∀ p q, reached p → reached q → module_alias p = module_alias q → p = q.

Definition no_import_cycle : Prop :=
  ∀ p, reached p → ¬ tc (λ a b, b ∈ edges a) p p.

(** What a loaded graph is. *)
Record graph_exact (g : ModuleGraph) (sources : list (str * str)) : Prop := {
  ge_sorted : sorted_map (modules g);
  ge_modules : ∀ p, is_Some (map_get p (modules g)) ↔ reached p;
  ge_record : ∀ p m, map_get p (modules g) = Some m →
    ∃ source imports, readable load_source seams synthetic p source imports ∧
      m = mkModule p (module_alias p) imports ∧ map_get p sources = Some source;
  ge_sources : ∀ p s, map_get p sources = Some s → reached p;
  ge_roots : roots g = set_of_list rs;
  ge_reverse : reverse_edges g = build_reverse_edges (modules g);
  ge_order : NoDup (traversal g) ∧ (∀ p, p ∈ traversal g ↔ reached p) ∧
    imports_first (modules g) (traversal g);
}.

Lemma reached_set p : closed_from edges (set_of_list rs) p ↔ reached p.
Proof. unfold reached, closed_from. by setoid_rewrite elem_of_set_of_list. Qed.

(** Inside the loaded modules both notions of an import agree. *)
Lemma targets_edges mods p :
  (∀ q m, map_get q mods = Some m → ∃ source imports, readable load_source seams synthetic q source imports ∧
    m = mkModule q (module_alias q) imports) →
  is_Some (map_get p mods) → targets mods p = edges p.
Proof.
  intros Hm [m Ep]. destruct (Hm p m Ep) as (source & imports & Hr & ->). unfold targets.
  rewrite Ep. by rewrite (readable_imports _ _ _ _ _ _ Hr).
Qed.

Section loaded.
Context (sources : list (str * str)) (mods : list (str * ModuleRecord)).
Context (HI : load_inv load_source seams synthetic (set_of_list rs) [] sources mods).

Lemma loaded_modules p : is_Some (map_get p mods) ↔ reached p.
Proof using HI.
  destruct HI as [_ _ _ _ Hsound Hr Hc]. rewrite <- reached_set. split; [intros Hp; apply Hsound; by right|].
  intros (r & Hroot & Hp). destruct (Hr r Hroot) as [Hn|Hin]; [by apply not_elem_of_nil in Hn|].
  clear Hroot. revert Hin. induction Hp as [a|a b c Hab _ IH]; [done|]. intros Ha. apply IH.
  destruct (Hc a b Ha Hab) as [Hn|]; [by apply not_elem_of_nil in Hn|done].
Qed.

Lemma loaded_targets p : reached p → targets mods p = edges p.
Proof using HI.
  intros Hp%loaded_modules. apply targets_edges; [|done]. intros q m Hq.
  destruct (li_modules _ _ _ _ _ _ _ HI q m Hq) as (s & is_ & ? & ? & _). eauto.
Qed.

Lemma loaded_readable : all_readable.
Proof using HI.
  intros p [m Hp]%loaded_modules. destruct (li_modules _ _ _ _ _ _ _ HI p m Hp) as (s & is_ & ? & _). eauto.
Qed.

Lemma loaded_paths p m : (p, m) ∈ mods → module_path m = p ∧ record_alias m = module_alias p.
Proof using HI.
  intros Hp. apply map_get_elem in Hp; [|apply HI].
  by destruct (li_modules _ _ _ _ _ _ _ HI p m Hp) as (s & is_ & _ & -> & _).
Qed.

Lemma loaded_aliases : aliases_distinct mods ↔ no_alias_twice.
Proof using HI.
  pose proof (li_sorted _ _ _ _ _ _ _ HI) as Hs. split.
  - intros Hd p q [m Hp]%loaded_modules [n Hq]%loaded_modules Ha.
    apply map_get_elem in Hp, Hq; [|done..]. apply (Hd p q m n Hp Hq).
    by rewrite (proj2 (loaded_paths _ _ Hp)), (proj2 (loaded_paths _ _ Hq)).
  - intros Hd p q m n Hp Hq Ha.
    rewrite (proj2 (loaded_paths _ _ Hp)), (proj2 (loaded_paths _ _ Hq)) in Ha.
    apply map_get_elem in Hp, Hq; [|done..]. apply Hd; [by apply loaded_modules; eexists..|done].
Qed.

Lemma loaded_closed p q : reached p → q ∈ edges p → reached q.
Proof using. apply closed_from_step. Qed.

Lemma loaded_tc p q : reached p → tc (imports_of mods) p q ↔ tc (λ a b, b ∈ edges a) p q.
Proof using HI.
  intros Hp. split; intros Hpq; revert Hp.
  - induction Hpq as [a b Hab|a c b Hac _ IH]; intros Ha; unfold imports_of in *;
      rewrite loaded_targets in * by done; [by apply tc_once|].
    eapply tc_l; [done|]. apply IH. by eapply loaded_closed.
  - induction Hpq as [a b Hab|a c b Hac _ IH]; intros Ha.
    + apply tc_once. unfold imports_of. by rewrite loaded_targets.
    + eapply tc_l; [unfold imports_of; by rewrite loaded_targets|]. apply IH. by eapply loaded_closed.
Qed.

(** The traversal succeeds exactly without cycles, and is complete and ordered. *)
Lemma loaded_traversal :
  ∃ r, deterministic_traversal (set_of_list rs) mods = Some r ∧
  match r with
  | Ok out => no_import_cycle ∧ NoDup out ∧ (∀ p, p ∈ out ↔ reached p) ∧ imports_first mods out
  | Err d => ¬ no_import_cycle ∧ cycle_found mods d
  end.
Proof using HI.
  unfold deterministic_traversal.
  destruct (visit_roots_spec mods (li_sorted _ _ _ _ _ _ _ HI) (set_of_list rs) ([], []))
    as (r & -> & Hr).
  { split; simpl; [done|constructor|]. intros l1 p l2 E. by destruct l1. }
  simpl. eexists. split; [done|]. destruct r as [[visited out]|d].
  - destruct Hr as ([_ Hn Ho] & Hin & new & E & Hnew). simpl in *. subst new.
    assert (∀ p, p ∈ out ↔ reached p) as Hout.
    { intros p. split.
      - intros (_ & q & Hq & Hqp)%Hnew. apply reached_set. exists q. split; [done|].
        assert (reached q) as Hq' by (apply reached_set; exists q; split; [done|apply rtc_refl]).
        clear Hq. revert Hq'. induction Hqp as [a|a b c Hab _ IH]; intros Ha; [apply rtc_refl|].
        unfold imports_of in Hab. rewrite loaded_targets in Hab by done.
        eapply rtc_l; [done|]. apply IH. by eapply loaded_closed.
      - intros (q & Hq & Hqp)%reached_set. apply Hin in Hq as Hq'.
        assert (reached q) as Hr by (apply reached_set; exists q; split; [done|apply rtc_refl]).
        clear Hq. revert Hq' Hr. induction Hqp as [a|a b c Hab _ IH]; intros Ha Hr; [done|].
        assert (reached b) as Hb by (by eapply loaded_closed). apply IH; [|done].
        apply list_elem_of_split in Ha as (l1 & l2 & Eout). rewrite Eout. apply elem_of_app. left.
        apply (Ho _ _ _ Eout). unfold imports_of. by rewrite loaded_targets. }
    split; [|done]. intros p Hp Hc. apply loaded_tc in Hc; [|done].
    eapply imports_first_acyclic; [exact Ho|exact Hn| |exact Hc]. by apply Hout.
  - split; [|exact Hr]. destruct Hr as (cycle & (p & l & -> & Hch) & _). intros Hno.
    apply is_chain_tc in Hch as Hc. assert (reached p) as Hp.
    { apply loaded_modules. apply tc_rtc in Hc as Hrtc. apply is_chain_tc in Hch.
      clear -Hc. inversion Hc as [? ? Hpq|? ? ? Hpq]; subst; unfold imports_of, targets in Hpq;
        (destruct (map_get p mods); [by eexists|by apply not_elem_of_nil in Hpq]). }
    apply (Hno p Hp). by apply loaded_tc.
Qed.
End loaded.
End graph.

(** Whatever the fuel, an answer of [load] is exact. *)
Lemma load_spec `{GraphicsFrontEnd} fuel rs load_source seams synthetic r :
  load_with_graphics_test_seams fuel rs load_source seams synthetic = Some r →
  match r with
  | Ok (g, sources) => graph_exact load_source seams synthetic rs g sources ∧
      all_readable load_source seams synthetic rs ∧ no_alias_twice load_source seams synthetic rs ∧
      no_import_cycle load_source seams synthetic rs
  | Err d => ¬ all_readable load_source seams synthetic rs ∨
      ¬ no_alias_twice load_source seams synthetic rs ∨
      ¬ no_import_cycle load_source seams synthetic rs ∧
      ∃ mods, (∀ p, reached load_source seams synthetic rs p →
                 targets mods p = source_imports load_source seams synthetic p) ∧
              (∀ p, is_Some (map_get p mods) → reached load_source seams synthetic rs p) ∧
              cycle_found mods d
  end.
Proof.
  unfold load_with_graphics_test_seams.
  destruct (load_loop _ _ _ fuel _ _ _) as [[[sources mods]|e]|] eqn:El; [| |done]; simpl;
    apply (load_loop_spec _ _ _ (set_of_list rs)) in El; try apply load_inv_start.
  2: { intros [= <-]. left. destruct El as (p & e' & Hp & Ep). intros Hall.
       rewrite reached_set in Hp. destruct (Hall p Hp) as (s & i & Hr). unfold readable in Hr. congruence. }
  pose proof (unique_aliases_spec mods) as Hal.
  destruct Hal as [[-> Hd]|[[d ->] Hd]]; [by intros p m Hp; eapply loaded_paths|by apply El| |].
  2: { intros [= <-]. right. left. intros Hno. apply Hd. by eapply loaded_aliases. }
  destruct (loaded_traversal _ _ _ _ _ _ El) as (r' & -> & Hr). simpl.
  destruct r' as [out|d]; intros [= <-].
  - destruct Hr as (Hc & Hn & Hin & Ho). split; [|split; [by eapply loaded_readable|split; [by eapply loaded_aliases|done]]].
    split; try done; simpl.
    + apply El.
    + intros p. by eapply loaded_modules.
    + intros p m Hp. eapply li_modules; [exact El|done].
    + intros p s Hp. eapply loaded_modules; [exact El|]. by eapply li_sources.
  - right. right. destruct Hr as [Hc Hf]. split; [done|]. exists mods. split_and!; [|by intros p; eapply loaded_modules|done].
    intros p. by eapply loaded_targets.
Qed.

(** Enough fuel gives an answer. *)
Lemma load_total `{GraphicsFrontEnd} univ rs load_source seams synthetic :
  (∀ p source, load_source p = Ok source → p ∈ univ ∧ is_str source) →
  is_Some (load_with_graphics_test_seams
             (load_fuel load_source seams synthetic univ (set_of_list rs)) rs load_source seams synthetic).
Proof.
  intros Hu. unfold load_with_graphics_test_seams.
  destruct (load_loop_total load_source seams synthetic univ
    (load_fuel load_source seams synthetic univ (set_of_list rs))
    ((λ root, (root, None)) <$> set_of_list rs) [] []) as [r El]; [done|constructor| |].
  { rewrite length_fmap. unfold load_fuel.
    pose proof (weight_left_total (λ p : str, p)
      (λ p, length (source_imports load_source seams synthetic p)) univ []). simpl. lia. }
  rewrite El. simpl. destruct r as [[sources mods]|e]; [|by eexists].
  apply (load_loop_spec _ _ _ (set_of_list rs)) in El; [|apply load_inv_start].
  case_match; [|by eexists]. destruct (loaded_traversal _ _ _ _ _ _ El) as (r' & -> & _). simpl.
  destruct r'; by eexists.
Qed.


(** C27 A loaded graph is exact: its modules are those the roots import, each with the
    source and imports the reader gives and a distinct alias, and the traversal lists
    each of them once, after all its imports. *)
Theorem loaded_graph_exact `{GraphicsFrontEnd} fuel rs load_source seams synthetic g sources :
  load_with_graphics_test_seams fuel rs load_source seams synthetic = Some (Ok (g, sources)) →
  (∀ p, is_Some (map_get p (modules g)) ↔ reached load_source seams synthetic rs p) ∧
  (∀ p m, map_get p (modules g) = Some m →
     ∃ source imports, readable load_source seams synthetic p source imports ∧
       m = mkModule p (module_alias p) imports ∧ map_get p sources = Some source) ∧
  no_alias_twice load_source seams synthetic rs ∧
  NoDup (traversal g) ∧
  (∀ p, p ∈ traversal g ↔ reached load_source seams synthetic rs p) ∧
  (∀ l1 p l2, traversal g = l1 ++ p :: l2 →
     ∀ q, q ∈ source_imports load_source seams synthetic p → q ∈ l1).
Proof.
  intros (HG & _ & Ha & _)%load_spec. pose proof (ge_order _ _ _ _ _ _ HG) as (Hn & Hin & Ho).
  split_and!; [apply HG|apply HG|done|done|done|]. intros l1 p l2 E q Hq. apply (Ho l1 p l2 E).
  unfold imports_of. rewrite (targets_edges load_source seams synthetic); [done| |].
  - intros q' m Hq'. destruct (ge_record _ _ _ _ _ _ HG q' m Hq') as (s & i & ? & ? & _). eauto.
  - apply (ge_modules _ _ _ _ _ _ HG), Hin. rewrite E. set_solver.
Qed.

(** An import cycle is reported with a real cycle: when every module can be read
    and the aliases are distinct, the error of a failed load lists modules that
    import each other in turn, back to the first. *)
Theorem import_cycles_are_reported `{GraphicsFrontEnd} fuel rs load_source seams synthetic d :
  load_with_graphics_test_seams fuel rs load_source seams synthetic = Some (Err d) →
  all_readable load_source seams synthetic rs → no_alias_twice load_source seams synthetic rs →
  ∃ p l, reached load_source seams synthetic rs p ∧
    is_chain (λ a b, b ∈ source_imports load_source seams synthetic a) (p :: l ++ [p]) ∧
    diag_message d = string_bytes "import cycle: " ++ join_arrow (p :: l ++ [p]).
Proof.
  intros E Hr Ha. apply load_spec in E as [?|[?|(_ & mods & Ht & Hm & cycle & (p & l & -> & Hch) & Hd)]];
    [done..|].
  assert (reached load_source seams synthetic rs p) as Hp.
  { apply Hm. destruct l; destruct Hch as [Hpq _]; unfold imports_of, targets in Hpq;
      (destruct (map_get p mods); [by eexists|by apply not_elem_of_nil in Hpq]). }
  exists p, l. split; [done|]. split; [|done].
  apply (is_chain_change (imports_of mods) (λ a b, b ∈ source_imports load_source seams synthetic a)
    (reached load_source seams synthetic rs)) in Hch; [done| |done].
  intros x y Hx Hxy. unfold imports_of in Hxy. rewrite Ht in Hxy by done.
  split; [done|]. by eapply closed_from_step.
Qed.

(** The closures of a loaded graph are exact: the dependencies of a module are what
    it imports, directly or not, and the modules its change invalidates are those
    that import it, directly or not; each includes the module itself. *)
Theorem closures_are_exact `{GraphicsFrontEnd} fuel rs load_source seams synthetic g sources p :
  load_with_graphics_test_seams fuel rs load_source seams synthetic = Some (Ok (g, sources)) →
  ∃ dependencies invalidated,
    dependency_closure g p = Some dependencies ∧ invalidation_closure g p = Some invalidated ∧
    (∀ q, q ∈ dependencies ↔ rtc (imports_of (modules g)) p q) ∧
    (∀ q, q ∈ invalidated ↔ rtc (imports_of (modules g)) q p).
Proof.
  intros (HG & _)%load_spec. pose proof (ge_sorted _ _ _ _ _ _ HG) as Hs.
  pose proof (ge_reverse _ _ _ _ _ _ HG) as Hrev.
  destruct (reverse_edges_spec (modules g) []) as [Hrs _]; [constructor|].
  change (sorted_map (build_reverse_edges (modules g))) in Hrs. rewrite <- Hrev in Hrs.
  destruct (closure_loop_spec (direct_dependencies g) fst (λ e, length (module_imports e.2)) (modules g))
    with (roots := [p]) (fuel := S (S (sum_list_with (λ e, length (module_imports e.2)) (modules g))))
    as (dd & Ed & _ & Hd); [|simpl; lia|].
  { intros i. unfold direct_dependencies. destruct (map_get i (modules g)) as [m|] eqn:E; [|by left].
    right. exists (i, m). split; [by apply map_get_elem|]. by rewrite length_fmap. }
  destruct (closure_loop_spec (reverse_dependencies g) fst (λ e, length e.2) (reverse_edges g))
    with (roots := [p]) (fuel := S (S (sum_list_with (λ e, length e.2) (reverse_edges g))))
    as (inv & Ei & _ & Hi); [|simpl; lia|].
  { intros i. unfold reverse_dependencies. destruct (map_get i (reverse_edges g)) as [l|] eqn:E; [|by left].
    right. exists (i, l). split; [by apply map_get_elem|done]. }
  exists dd, inv. split; [done|]. split; [done|]. split; intros q.
  - rewrite Hd. unfold closed_from. setoid_rewrite list_elem_of_singleton.
    split; [by intros (r & -> & ?)|by exists p].
  - rewrite Hi. unfold closed_from. setoid_rewrite list_elem_of_singleton.
    rewrite (rtc_reversed (imports_of (modules g))). split; [intros (r & -> & Hr)|intros Hr; exists p; split; [done|]].
    + eapply rtc_subrel; [|exact Hr]. intros a b Hab. unfold reverse_dependencies in Hab.
      rewrite Hrev in Hab. by apply build_reverse_edges_spec in Hab.
    + eapply rtc_subrel; [|exact Hr]. intros a b Hab. unfold reverse_dependencies.
      rewrite Hrev. by apply build_reverse_edges_spec.
Qed.

(** ** Two projects: one with nested imports, one whose modules import each other *)

Definition no_declarations : GraphicsFrontEnd := {|
  type_layout_names := λ _, Ok ([], []);
  extern_functions := λ _, Ok [];
  gfx_cmd_source := []; asset_tasks_source := []; graphics_source := [];
|}.

(** The source that imports one path. *)
Definition importing (path : string) : str :=
  string_bytes "import " ++ [34%Z] ++ string_bytes path ++ [34%Z] ++ string_bytes ";".

Definition MAIN : str := string_bytes "src/main.stasis".
Definition LIB : str := string_bytes "src/lib/a.stasis".
Definition SHARED : str := string_bytes "src/shared.stasis".

Definition reader_of (files : list (str * str)) (path : str) : Result str str :=
  match List.find (λ e, bool_decide (e.1 = path)) files with
  | Some e => Ok e.2
  | None => Err (string_bytes "missing module")
  end.

Definition sample_files : list (str * str) :=
  [(MAIN, importing "lib/a.stasis"); (LIB, importing "../shared.stasis"); (SHARED, [])].

Definition cyclic_files : list (str * str) :=
  [(MAIN, importing "shared.stasis"); (SHARED, importing "main.stasis")].

Definition load_sample (files : list (str * str)) :
    option (Result (ModuleGraph * list (str * str)) SourceDiagnostic) :=
  load_with_graphics_test_seams (H := no_declarations) 10 [MAIN] (reader_of files) false None.

(** A text of ASCII bytes. *)
Lemma ascii_is_str s : Forall (λ c, 0 ≤ c < 128)%Z s → is_str s.
Proof.
  intros Hs. exists s. split.
  - eapply Forall_impl; [exact Hs|]. intros c Hc. left. simpl in Hc. lia.
  - induction Hs as [|c s Hc _ IH]; [done|].
    change (Documents.encode (c :: s)) with (Documents.encode_char c ++ Documents.encode s).
    rewrite <- IH. unfold Documents.encode_char. by rewrite (proj2 (Z.ltb_lt c 128)) by lia.
Qed.


Lemma loaded_graph_exact_witness :
  ∃ g sources, load_sample sample_files = Some (Ok (g, sources)) ∧ traversal g = [SHARED; LIB; MAIN] ∧
    NoDup (traversal g).
Proof.
  destruct (load_sample sample_files) as [[[g sources]|d]|] eqn:E; [|vm_compute in E; discriminate E..].
  exists g, sources. split; [done|].
  destruct (loaded_graph_exact (H := no_declarations) 10 [MAIN] (reader_of sample_files) false None
    g sources E) as (_ & _ & _ & Hn & _). split; [|done].
  vm_compute in E. apply (inj Some), Ok_inj in E. by injection E as <- <-.
Defined.

Lemma import_cycles_are_reported_witness :
  ∃ d p l, load_sample cyclic_files = Some (Err d) ∧
    diag_message d = string_bytes "import cycle: " ++ join_arrow (p :: l ++ [p]).
Proof.
  destruct (load_sample cyclic_files) as [[|d]|] eqn:E; [vm_compute in E; discriminate E| |vm_compute in E; discriminate E].
  assert (∀ p, reached (H := no_declarations) (reader_of cyclic_files) false None [MAIN] p →
               p = MAIN ∨ p = SHARED) as Hreached.
  { intros p (r & ->%list_elem_of_singleton & Hp). 
    assert (∀ a b, a = MAIN ∨ a = SHARED → rtc (λ a b, b ∈ source_imports (H := no_declarations)
      (reader_of cyclic_files) false None a) a b → b = MAIN ∨ b = SHARED) as Hclosed.
    { intros a b Ha Hab. revert Ha. induction Hab as [|a b c Hab _ IH]; [done|].
      intros [->| ->]; apply IH; vm_compute in Hab; apply list_elem_of_In in Hab as [<-|[]]; auto. }
    by apply (Hclosed MAIN); [left|]. }
  destruct (import_cycles_are_reported (H := no_declarations) 10 [MAIN] (reader_of cyclic_files) false None d E)
    as (p & l & _ & _ & Hd).
  - intros p [->| ->]%Hreached; do 2 eexists; vm_compute; reflexivity.
  - intros p q [->| ->]%Hreached [->| ->]%Hreached Ha;
      first [exact eq_refl|vm_compute in Ha; discriminate Ha].
  - exists d, p, l. split; [exact eq_refl|exact Hd].
Defined.

Lemma closures_are_exact_witness :
  ∃ g sources dependencies invalidated, load_sample sample_files = Some (Ok (g, sources)) ∧
    dependency_closure g LIB = Some dependencies ∧ invalidation_closure g LIB = Some invalidated ∧
    (∀ q, q ∈ dependencies ↔ rtc (imports_of (modules g)) LIB q) ∧
    (∀ q, q ∈ invalidated ↔ rtc (imports_of (modules g)) q LIB).
Proof.
  destruct (load_sample sample_files) as [[[g sources]|d]|] eqn:E; [|vm_compute in E; discriminate E..].
  destruct (closures_are_exact (H := no_declarations) 10 [MAIN] (reader_of sample_files) false None
    g sources LIB E) as (dependencies & invalidated & Hd).
  exists g, sources, dependencies, invalidated. split; [exact eq_refl|exact Hd].
Defined.
