(* ===== verification/Formatter.v ===== *)
(** * The formatter

    Models [crates/stasis_compiler/src/frontend/formatter.rs].  A source is scanned into
    tokens that keep the comments, the commas of enums are made canonical, and the tokens
    are written again with canonical white space; the result is checked against the source.

    [None] around a result is a panic of [generic_angle_ranges] or of the lexer, or a lack of
    fuel.  The tops of the stacks of braces and parentheses are the heads of their lists. *)

From S2P Require Import Prelude BTree Lexer Identity Text Imports ParserTokens ParserFunctions ParserLocals.
#[local] Open Scope nat_scope.
#[local] Set Warnings "-register-all,-notation-overridden".

Definition INDENT_WIDTH : nat := 4.
Definition LINE_WIDTH : nat := 160.

(** ** Tokens *)

Inductive TokenKind := Word | Number | StringText | Backtick | LineComment | BlockComment | Symbol.

#[export] Instance TokenKind_eq_dec : EqDecision TokenKind.
Proof. solve_decision. Defined.

Record Token := mkToken {
  kind : TokenKind;
  text : str;
  start : nat;
  end_ : nat;
  newline_before : bool;
  blank_before : bool;
}.

#[export] Instance Token_eq_dec : EqDecision Token.
Proof. solve_decision. Defined.

Definition has_kind (k : TokenKind) (t : Token) : bool := bool_decide (kind t = k).
Definition is_symbol (expected : string) (t : Token) : bool := has_kind Symbol t && bool_decide (text t = string_bytes expected).
Definition is_word (expected : string) (t : Token) : bool := has_kind Word t && bool_decide (text t = string_bytes expected).
Definition is_comment (t : Token) : bool := has_kind LineComment t || has_kind BlockComment t.

(** [matches!(text, ..)] *)
Definition is_one_of (texts : list string) (s : str) : bool := existsb (λ x, bool_decide (s = string_bytes x)) texts.

(** [is_some_and] *)
Definition is_some_and {A} (p : A → bool) (o : option A) : bool := match o with Some x => p x | None => false end.

(** ** Scanning *)

Definition NEWLINE : Z := 10.
Definition RETURN : Z := 13.
Definition SPACE : Z := 32.
Definition SLASH : Z := 47.
Definition STAR : Z := 42.
Definition QUOTE_MARK : Z := 34.
Definition TICK : Z := 96.
Definition ESCAPE : Z := 92.
Definition COMMA_TEXT : str := [44%Z].

Definition is_line_end (b : Z) : bool := (b =? RETURN)%Z || (b =? NEWLINE)%Z.

(** [u8::is_ascii_whitespace] *)
Definition is_ascii_space (b : Z) : bool := (b =? 32)%Z || (b =? 9)%Z || (b =? 10)%Z || (b =? 12)%Z || (b =? 13)%Z.

Definition utf8_width (b : Z) : nat :=
  if (b <? 0x80)%Z then 1 else if (b <? 0xE0)%Z then 2 else if (b <? 0xF0)%Z then 3 else 4.

Definition is_word_start (b : Z) : bool := is_ascii_alphabetic b || (b =? 95)%Z.
Definition is_word_continue (b : Z) : bool := is_word_start b || is_ascii_digit b.

(** The length up to the end of a block comment, after its start. *)
Fixpoint comment_len (fuel : nat) (l : list Z) : option nat :=
  match fuel with
  | O => None
  | S fuel' =>
      match l with
      | b :: (c :: _) as l' =>
          if (b =? STAR)%Z && (c =? SLASH)%Z then Some 2
          else n ← comment_len fuel' (drop (utf8_width b) l); Some (utf8_width b + n)
      | _ => None
      end
  end.

(** The length up to the end of a string, after its quote. *)
Fixpoint string_len (fuel : nat) (l : list Z) : option nat :=
  match fuel with
  | O => None
  | S fuel' =>
      match l with
      | [] => None
      | b :: l' =>
          if (b =? ESCAPE)%Z then
            let width := match l' with c :: _ => S (utf8_width c) | [] => 1 end in
            n ← string_len fuel' (drop width l); Some (width + n)
          else if (b =? QUOTE_MARK)%Z then Some 1
          else n ← string_len fuel' (drop (utf8_width b) l); Some (utf8_width b + n)
      end
  end.

Fixpoint backtick_len (fuel : nat) (l : list Z) : option nat :=
  match fuel with
  | O => None
  | S fuel' =>
      match l with
      | [] => None
      | b :: l' =>
          if (b =? TICK)%Z then Some 1
          else n ← backtick_len fuel' (drop (utf8_width b) l); Some (utf8_width b + n)
      end
  end.

(** The rest of a number after the byte [previous]. *)
Fixpoint number_len (previous : Z) (l : list Z) : nat :=
  match l with
  | b :: l' =>
      let digit_follows := match l' with d :: _ => is_ascii_digit d | [] => false end in
      if is_ascii_alphabetic b || is_ascii_digit b || (b =? 95)%Z
         || ((b =? 46)%Z && digit_follows)
         || (((b =? 43)%Z || (b =? 45)%Z) && ((previous =? 101)%Z || (previous =? 69)%Z) && digit_follows)
      then S (number_len b l') else 0
  | [] => 0
  end.

Definition matched_operator_width (l : list Z) : nat :=
  match l with
  | b :: c :: _ =>
      if is_one_of ["+="; "-="; "*="; "/="; "%="; "=="; "!="; "<="; ">="; "<<"; ">>"; "&&"; "||"; "->"; "::"]%string [b; c]
      then 2 else utf8_width b
  | [b] => utf8_width b
  | [] => 0
  end.

(** The token at the start of the text: its kind and its length. *)
Definition scan_token (l : list Z) : Result (TokenKind * nat) str :=
  let fuel := S (length l) in
  let closed kind prefix len message :=
    match len with Some n => Ok (kind, prefix + n) | None => Err (string_bytes message) end in
  match l with
  | [] => Ok (Symbol, 0)
  | b :: rest =>
      let next := default 0%Z (rest !! 0) in
      if (b =? SLASH)%Z && (0 <? length rest) && (next =? SLASH)%Z then
        Ok (LineComment, 2 + prefix_len (λ c, negb (is_line_end c)) (drop 2 l))
      else if (b =? SLASH)%Z && (0 <? length rest) && (next =? STAR)%Z then
        closed BlockComment 2 (comment_len fuel (drop 2 l)) "unterminated block comment"%string
      else if (b =? QUOTE_MARK)%Z then closed StringText 1 (string_len fuel rest) "unterminated string literal"%string
      else if (b =? TICK)%Z then closed Backtick 1 (backtick_len fuel rest) "unterminated backtick literal"%string
      else if is_word_start b then Ok (Word, 1 + prefix_len is_word_continue rest)
      else if is_ascii_digit b then Ok (Number, 1 + number_len b rest)
      else Ok (Symbol, matched_operator_width l)
  end.

(** [str::get] *)
Definition str_get (source : str) (a b : nat) : option str :=
  if (a <=? b) && (b <=? length source) && Lexer.is_char_boundary source a && Lexer.is_char_boundary source b
  then Some (take (b - a) (drop a source)) else None.

(** The scan from a cursor, with the line ends since the last token. *)
Fixpoint scan_loop (fuel : nat) (source : str) (cursor newline_count : nat) : option (Result (list Token) str) :=
  match fuel with
  | O => None
  | S fuel' =>
      match drop cursor source with
      | [] => Some (Ok [])
      | b :: rest =>
          if is_ascii_space b then
            if (b =? NEWLINE)%Z then scan_loop fuel' source (S cursor) (S newline_count)
            else if (b =? RETURN)%Z then
              scan_loop fuel' source (if is_some_and (Z.eqb NEWLINE) (rest !! 0) then S (S cursor) else S cursor) (S newline_count)
            else scan_loop fuel' source (S cursor) newline_count
          else
            match scan_token (b :: rest) with
            | Err e => Some (Err e)
            | Ok (k, width) =>
                match str_get source cursor (cursor + width) with
                | None => Some (Err (string_bytes "formatter encountered an invalid UTF-8 boundary"))
                | Some token_text =>
                    parse! tokens := scan_loop fuel' source (cursor + width) 0 in
                    Some (Ok (mkToken k token_text cursor (cursor + width) (0 <? newline_count) (1 <? newline_count) :: tokens))
                end
            end
      end
  end.

Definition scan (source : str) : option (Result (list Token) str) := scan_loop (S (length source)) source 0 0.

(** ** Tokens that are changed before they are written *)

Definition split_generic_shift_closers (tokens : list Token) (generic_angles : list (nat * nat)) : list Token :=
  concat ((λ t,
    let middle := start t + 1 in
    if is_symbol ">>" t && bool_decide ((start t, middle) ∈ generic_angles) && bool_decide ((middle, end_ t) ∈ generic_angles)
    then [mkToken (kind t) (string_bytes ">") (start t) middle (newline_before t) (blank_before t);
          mkToken (kind t) (string_bytes ">") middle (end_ t) false false]
    else [t]) <$> tokens).

(** The commas of enums.  [next_non_comment_index] skips comments: the tokens before the next
    other token, that token, and the tokens after it. *)
Fixpoint next_non_comment (tokens : list Token) : option (list Token * Token * list Token) :=
  match tokens with
  | [] => None
  | t :: tokens =>
      if is_comment t then
        '(comments, next, rest) ← next_non_comment tokens; Some (t :: comments, next, rest)
      else Some ([], t, tokens)
  end.

Definition enum_comma : Token := mkToken Symbol COMMA_TEXT 0 0 false false.
Definition missing_brace : str := string_bytes "enum declaration is missing its closing brace".
Definition missing_value : str := string_bytes "enum variant is missing its value".

(** [let x = next_non_comment_index(..).ok_or_else(..)?] *)
Definition next_or {A} (message : str) (tokens : list Token) (k : list Token * Token * list Token → Result A str) : Result A str :=
  match next_non_comment tokens with Some r => k r | None => Err message end.

(** The value of a variant, when there is one: the tokens of the variant up to its last
    other token, and the tokens from there to the delimiter, the delimiter and the rest. *)
Definition variant_value (core : list Token) (r : list Token * Token * list Token) :
    Result (list Token * (list Token * Token * list Token)) str :=
  let '(between, delimiter, rest) := r in
  if is_symbol "=" delimiter then
    next_or missing_value rest (λ '(c1, t1, rest1),
      let core := core ++ between ++ [delimiter] ++ c1 in
      let finish core number rest :=
        if has_kind Number number then next_or missing_brace rest (λ r, Ok (core ++ [number], r))
        else Err (string_bytes "enum variant value must be an integer") in
      if is_symbol "-" t1 then next_or missing_value rest1 (λ '(c2, t2, rest2), finish (core ++ [t1] ++ c2) t2 rest2)
      else finish core t1 rest1)
  else Ok (core, r).

(** The variants from a token that is not a comment: what is written for them, with the
    closing brace, and the tokens after it. *)
Fixpoint enum_variants (fuel : nat) (r : list Token * Token * list Token) (out : list Token) : option (Result (list Token * list Token) str) :=
  match fuel with
  | O => None
  | S fuel' =>
      let '(comments, cursor, rest) := r in
      let out := out ++ comments in
      if is_symbol "}" cursor then Some (Ok (out ++ [cursor], rest))
      else if negb (has_kind Word cursor) then Some (Err (string_bytes "expected enum variant name"))
      else
        match (next_or missing_brace rest (λ r, variant_value [cursor] r)) with
        | Err e => Some (Err e)
        | Ok (core, (between, delimiter, rest)) =>
            if is_symbol "," delimiter then
              match next_non_comment rest with
              | None => Some (Err missing_brace)
              | Some next => enum_variants fuel' next (out ++ core ++ [match between with [] => delimiter | _ => enum_comma end] ++ between)
              end
            else if has_kind Word delimiter || is_symbol "}" delimiter then
              enum_variants fuel' (between, delimiter, rest) (out ++ core ++ [enum_comma])
            else Some (Err (string_bytes "unexpected token '" ++ text delimiter ++ string_bytes "' after enum variant"))
        end
  end.

Fixpoint canonicalize_loop (fuel : nat) (brace_depth : nat) (tokens out : list Token) : option (Result (list Token) str) :=
  match fuel with
  | O => None
  | S fuel' =>
      match tokens with
      | [] => Some (Ok out)
      | t :: tokens =>
          if (brace_depth =? 0) && is_word "enum" t then
            match next_non_comment tokens with
            | None => Some (Err (string_bytes "incomplete enum declaration"))
            | Some (c1, name, tokens) =>
                if negb (has_kind Word name) then Some (Err (string_bytes "expected enum name"))
                else
                  match next_non_comment tokens with
                  | None => Some (Err (string_bytes "enum declaration is missing its body"))
                  | Some (c2, open, tokens) =>
                      if negb (is_symbol "{" open) then Some (Err (string_bytes "enum declaration is missing its opening brace"))
                      else
                        match next_non_comment tokens with
                        | None => Some (Err missing_brace)
                        | Some r =>
                            parse! p := enum_variants fuel' r (out ++ [t] ++ c1 ++ [name] ++ c2 ++ [open]) in
                            canonicalize_loop fuel' brace_depth p.2 p.1
                        end
                  end
            end
          else
            canonicalize_loop fuel'
              (if is_symbol "{" t then S brace_depth else if is_symbol "}" t then brace_depth - 1 else brace_depth)
              tokens (out ++ [t])
      end
  end.

Definition canonicalize_enum_commas (tokens : list Token) : option (Result (list Token) str) :=
  canonicalize_loop (S (length tokens)) 0 tokens [].

(** ** The writer *)

Record Writer := mkWriter { output : str; line : str; indent : nat; extra_indent_once : nat }.

Definition new_writer : Writer := mkWriter [] [] 0 0.

(** [chars().count()]: the bytes that start a character. *)
Definition char_count (s : str) : nat := length (filter (λ b, (b < 0x80 ∨ 0xC0 ≤ b)%Z) s).

Definition column (w : Writer) : nat :=
  match line w with [] => (indent w + extra_indent_once w) * INDENT_WIDTH | l => char_count l end.

Definition line_is_empty (w : Writer) : bool := bool_decide (line w = []).

Definition ensure_indent (w : Writer) : Writer :=
  match line w with
  | [] => mkWriter (output w) (replicate ((indent w + extra_indent_once w) * INDENT_WIDTH) SPACE) (indent w) 0
  | _ => w
  end.

(** [self.line.push_str] *)
Definition push_line (s : str) (w : Writer) : Writer := mkWriter (output w) (line w ++ s) (indent w) (extra_indent_once w).

Definition write (s : str) (w : Writer) : Writer := push_line s (ensure_indent w).

Definition space (w : Writer) : Writer :=
  if line_is_empty w || is_some_and (Z.eqb SPACE) (last (line w)) then w else push_line [SPACE] w.

Definition is_blank_byte (b : Z) : bool := (b =? SPACE)%Z || (b =? 9)%Z.

Fixpoint drop_blanks (s : str) : str :=
  match s with b :: s' => if is_blank_byte b then drop_blanks s' else s | [] => [] end.

(** [trim_end_matches] of spaces and tabs. *)
Definition trim_blanks (s : str) : str := reverse (drop_blanks (reverse s)).

Definition trim_line_end (w : Writer) : Writer := mkWriter (output w) (trim_blanks (line w)) (indent w) (extra_indent_once w).

Definition newline (w : Writer) : Writer :=
  let w := trim_line_end w in
  mkWriter (output w ++ line w ++ [NEWLINE]) [] (indent w) 0.

Definition newline_if_needed (w : Writer) : Writer := if line_is_empty w then w else newline w.

(** [while output.ends_with("\n\n\n")], from the end of the text. *)
Fixpoint pop_newlines (reversed : str) : str :=
  match reversed with
  | a :: (b :: c :: _) as r' =>
      if (a =? NEWLINE)%Z && (b =? NEWLINE)%Z && (c =? NEWLINE)%Z then pop_newlines r' else reversed
  | _ => reversed
  end.

Definition blank_line (w : Writer) : Writer :=
  let w := newline_if_needed w in
  let popped := reverse (pop_newlines (reverse (output w))) in
  let ended := bool_decide (popped = []) || ends_with [NEWLINE; NEWLINE] popped in
  mkWriter (if ended then popped else popped ++ [NEWLINE]) (line w) (indent w) (extra_indent_once w).

Definition write_multiline_comment (s : str) (w : Writer) : Writer :=
  match split_on NEWLINE s with
  | [] => w
  | first :: lines =>
      foldl (λ w l, push_line (trim_end_matches RETURN l) (newline w)) (write (trim_end_matches RETURN first) w) lines
  end.

Definition finish (w : Writer) : str := trim_end_matches NEWLINE (output (newline_if_needed w)) ++ [NEWLINE].

Definition indent_more (w : Writer) : Writer := mkWriter (output w) (line w) (S (indent w)) (extra_indent_once w).
(** [extra_indent_once = 1] *)
Definition indent_once (w : Writer) : Writer := mkWriter (output w) (line w) (indent w) 1.
Definition indent_less (w : Writer) : Writer := mkWriter (output w) (line w) (indent w - 1) (extra_indent_once w).

(** ** Spacing *)

Definition is_generic_angle_token (generic_angles : list (nat * nat)) (t : Token) : bool :=
  negb (start t =? end_ t) && bool_decide ((start t, end_ t) ∈ generic_angles).

(** [next_significant] of the tokens from an index. *)
Definition next_significant (tokens : list Token) : option Token := List.find (λ t, negb (is_comment t)) tokens.

(** Of the token at an index, the first of a list. *)
Definition has_attached_comment (tokens : list Token) : bool :=
  is_some_and (λ t, is_comment t && negb (newline_before t)) (head tokens).
Definition has_attached_line_comment (tokens : list Token) : bool :=
  is_some_and (λ t, has_kind LineComment t && negb (newline_before t)) (head tokens).

(** The statement ends before a block opens. *)
Fixpoint ends_before_block (tokens : list Token) : bool :=
  match tokens with
  | [] => false
  | t :: tokens => if is_symbol "{" t then false else if is_symbol ";" t then true else ends_before_block tokens
  end.

Definition keeps_top_level_group (tokens : list Token) (current_kind : option str) : bool :=
  match current_kind, filter (λ t, is_comment t = false) tokens with
  | Some current, first :: next => has_kind Word first && bool_decide (text first = current) && ends_before_block next
  | _, _ => false
  end.

Definition is_operator (t : Token) : bool :=
  has_kind Symbol t && is_one_of ["="; "+="; "-="; "*="; "/="; "%="; "=="; "!="; "<"; "<="; "<<"; ">"; ">="; ">>"; "+"; "-"; "*"; "/";
    "%"; "&&"; "||"; "|"; "&"; "^"; "~"; "->"]%string (text t).

Definition is_bitwise_or_shift_operator (t : Token) : bool := has_kind Symbol t && is_one_of ["&"; "|"; "^"; "<<"; ">>"]%string (text t).

Definition is_unary_operator (t : Token) (previous : option Token) : bool :=
  has_kind Symbol t && is_one_of ["!"; "-"; "+"; "~"]%string (text t)
  && match previous with
     | None => true
     | Some p => is_symbol "(" p || is_symbol "[" p || is_symbol "{" p || is_symbol "," p || is_symbol ";" p || is_operator p || is_word "return" p
     end.

(** A word, a number, a string or a backtick literal. *)
Definition is_atom (t : Token) : bool := has_kind Word t || has_kind Number t || has_kind StringText t || has_kind Backtick t.

Definition needs_space_before (previous : option Token) (current : Token) (current_is_unary previous_was_unary : bool) : bool :=
  match previous with
  | None => false
  | Some p =>
      if is_symbol "(" current then
        is_word "if" p || is_word "for" p || is_word "foreach" p || (negb previous_was_unary && is_bitwise_or_shift_operator p)
      else if is_one_of [")"; "]"; ","; ";"; ":"; "."]%string (text current) then false
      else if is_one_of ["("; "["; "."; "@"]%string (text p) then false
      else if is_symbol "[" current || is_symbol "@" current then is_symbol "@" current && has_kind Word p
      else if current_is_unary then has_kind Word p || has_kind Number p || is_operator p
      else if previous_was_unary then false
      else if is_operator current || is_operator p then true
      else if is_symbol ":" p || is_symbol "," p then true
      else if is_symbol "}" p && is_word "else" current then true
      else if is_symbol ")" p && has_kind Word current then true
      else is_atom p && is_atom current
  end.

Definition has_line_end (s : str) : bool := existsb is_line_end s.

(** The tokens inside the parenthesis that the first token opens, when it is closed, and
    the closing token. *)
Fixpoint matching_close (open close : string) (depth : nat) (tokens inside : list Token) : option (list Token * Token) :=
  match tokens with
  | [] => None
  | t :: tokens =>
      if is_symbol open t then matching_close open close (S depth) tokens (inside ++ [t])
      else if is_symbol close t then
        if depth - 1 =? 0 then Some (inside, t) else matching_close open close (depth - 1) tokens (inside ++ [t])
      else matching_close open close depth tokens (inside ++ [t])
  end.

(** Of a parenthesis with the tokens from it. *)
Definition should_wrap_parens (tokens : list Token) (current_column : nat) : bool :=
  match matching_close "(" ")" 0 tokens [] with
  | None => false
  | Some (inside, close) =>
      existsb (λ t, has_kind LineComment t || has_line_end (text t)) (tail inside)
      || (LINE_WIDTH <? current_column + sum_list_with (λ t, char_count (text t) + 1) (tail inside ++ [close]))
  end.

(** ** Rendering *)

Inductive BraceKind := BraceBlock | BraceEnum | BraceFunction.

#[export] Instance BraceKind_eq_dec : EqDecision BraceKind.
Proof. solve_decision. Defined.

Record ParenContext := mkParen { wrapped : bool; for_header : bool }.

Record Render := mkRender {
  writer : Writer;
  braces : list BraceKind;
  brace_content : list bool;
  parens : list ParenContext;
  bracket_depth : nat;
  last_significant : option Token;
  last_was_unary : bool;
  force_space_after_comment : bool;
  enum_member_started : bool;
  top_level_kind : option str;
  top_level_has_enum : bool;
  top_level_has_function_body : bool;
}.

Definition start_render : Render := mkRender new_writer [] [] [] 0 None false false false None false false.

Definition on_writer (f : Writer → Writer) (r : Render) : Render :=
  mkRender (f (writer r)) (braces r) (brace_content r) (parens r) (bracket_depth r) (last_significant r) (last_was_unary r)
    (force_space_after_comment r) (enum_member_started r) (top_level_kind r) (top_level_has_enum r) (top_level_has_function_body r).

Definition with_braces (bs : list BraceKind) (contents : list bool) (r : Render) : Render :=
  mkRender (writer r) bs contents (parens r) (bracket_depth r) (last_significant r) (last_was_unary r)
    (force_space_after_comment r) (enum_member_started r) (top_level_kind r) (top_level_has_enum r) (top_level_has_function_body r).

Definition with_parens (ps : list ParenContext) (r : Render) : Render :=
  mkRender (writer r) (braces r) (brace_content r) ps (bracket_depth r) (last_significant r) (last_was_unary r)
    (force_space_after_comment r) (enum_member_started r) (top_level_kind r) (top_level_has_enum r) (top_level_has_function_body r).

Definition with_brackets (depth : nat) (r : Render) : Render :=
  mkRender (writer r) (braces r) (brace_content r) (parens r) depth (last_significant r) (last_was_unary r)
    (force_space_after_comment r) (enum_member_started r) (top_level_kind r) (top_level_has_enum r) (top_level_has_function_body r).

(** The end of the branches: [last_significant = Some(token)]. *)
Definition after_token (t : Token) (unary : bool) (r : Render) : Render :=
  mkRender (writer r) (braces r) (brace_content r) (parens r) (bracket_depth r) (Some t) unary
    false (enum_member_started r) (top_level_kind r) (top_level_has_enum r) (top_level_has_function_body r).

Definition force_space (b : bool) (r : Render) : Render :=
  mkRender (writer r) (braces r) (brace_content r) (parens r) (bracket_depth r) (last_significant r) (last_was_unary r)
    b (enum_member_started r) (top_level_kind r) (top_level_has_enum r) (top_level_has_function_body r).

Definition member_started (b : bool) (r : Render) : Render :=
  mkRender (writer r) (braces r) (brace_content r) (parens r) (bracket_depth r) (last_significant r) (last_was_unary r)
    (force_space_after_comment r) b (top_level_kind r) (top_level_has_enum r) (top_level_has_function_body r).

Definition with_top_level (k : option str) (has_enum has_function : bool) (r : Render) : Render :=
  mkRender (writer r) (braces r) (brace_content r) (parens r) (bracket_depth r) (last_significant r) (last_was_unary r)
    (force_space_after_comment r) (enum_member_started r) k has_enum has_function.

(** The top level item is over. *)
Definition end_item (r : Render) : Render := with_top_level None false false r.

Definition at_top (r : Render) : bool := bool_decide (braces r = []).
Definition outside (r : Render) : bool := match parens r with [] => (bracket_depth r =? 0) | _ => false end.
Definition in_enum (r : Render) : bool := is_some_and (λ k, bool_decide (k = BraceEnum)) (head (braces r)).
Definition in_for_header (r : Render) : bool := is_some_and for_header (head (parens r)).
Definition in_wrapped (r : Render) : bool := is_some_and wrapped (head (parens r)).

(** [if !self.line_is_empty() { self.space() }] *)
Definition space_if_needed (w : Writer) : Writer := if line_is_empty w then w else space w.

Definition set_content (contents : list bool) : list bool := match contents with [] => [] | _ :: l => true :: l end.

(** The blank lines before a token, after the token [previous]. *)
Definition before_token (previous : option Token) (t : Token) (r : Render) : Render :=
  let inside_function := bool_decide (BraceFunction ∈ braces r) in
  let between_function_items := inside_function && is_some_and id (head (brace_content r)) in
  let top_level_comment_boundary := at_top r && blank_before t && (is_comment t || is_some_and is_comment previous) in
  let r := if is_symbol "}" t then r else with_braces (braces r) (set_content (brace_content r)) r in
  let w := writer r in
  if top_level_comment_boundary then on_writer blank_line r
  else if between_function_items && blank_before t && negb (line_is_empty w) && is_comment t then on_writer blank_line r
  else if between_function_items && blank_before t && negb (is_symbol "}" t) && line_is_empty w
          && negb (ends_with [NEWLINE; NEWLINE] (output w)) && negb (bool_decide (output w = []))
  then on_writer blank_line r else r.

(** An item that ended with the last token may end its group. *)
Definition end_group (rest : list Token) (r : Render) : Render :=
  if keeps_top_level_group rest (top_level_kind r) then r else end_item (on_writer blank_line r).

Definition ends_item (p : Token) : bool := is_symbol ";" p || is_symbol "}" p.

Definition render_line_comment (t : Token) (rest : list Token) (r : Render) : Render :=
  let attached := negb (newline_before t) && negb (line_is_empty (writer r)) in
  let r := on_writer (λ w, newline (write (text t) (space_if_needed w))) r in
  let r :=
    if attached && at_top r && is_some_and ends_item (last_significant r) then end_group rest r
    else if is_some_and is_operator (last_significant r)
    then on_writer indent_once r else r in
  force_space false r.

Definition render_block_comment (t : Token) (rest : list Token) (r : Render) : Render :=
  let starts_line := line_is_empty (writer r) in
  let closes_line := is_some_and (λ p, (is_symbol ";" p && negb (in_for_header r)) || is_symbol "{" p || is_symbol "}" p) (last_significant r) in
  let multiline := has_line_end (text t) in
  let r := on_writer (λ w, (if multiline then write_multiline_comment else write) (text t) (space_if_needed w)) r in
  if starts_line || closes_line || multiline then
    let r := on_writer newline r in
    if closes_line && at_top r && is_some_and ends_item (last_significant r) then end_group rest r else r
  else force_space true r.

(** What the word of an item says about it. *)
Definition note_item (t : Token) (r : Render) : Render :=
  if at_top r && outside r then
    with_top_level
      (match top_level_kind r with None => if has_kind Word t then Some (text t) else None | k => k end)
      (top_level_has_enum r || is_word "enum" t)
      (top_level_has_function_body r || is_word "function" t || is_word "test" t) r
  else r.

Definition render_open_brace (t : Token) (rest : list Token) (r : Render) : Render :=
  let r := on_writer (λ w, indent_more (write (string_bytes "{") (space_if_needed w))) r in
  let opens_enum := top_level_has_enum r && at_top r in
  let r := if opens_enum then member_started false r else r in
  let kind := if opens_enum then BraceEnum else if at_top r && top_level_has_function_body r then BraceFunction else BraceBlock in
  let r := with_braces (kind :: braces r) (false :: brace_content r) r in
  let r := if has_attached_line_comment rest then r else on_writer newline r in
  after_token t false r.

Definition render_close_brace (t : Token) (rest : list Token) (r : Render) : Result Render str :=
  let r := on_writer (λ w, indent_less (newline_if_needed w)) r in
  match braces r, brace_content r with
  | [], _ => Err (string_bytes "unmatched closing brace")
  | _, [] => Err (string_bytes "unmatched closing brace content")
  | closed :: bs, _ :: contents =>
      let r := on_writer (write (string_bytes "}")) (with_braces bs (set_content contents) r) in
      let r := if bool_decide (closed = BraceEnum) then member_started false r else r in
      let next := next_significant rest in
      let r :=
        if has_attached_comment rest then r
        else if is_some_and (is_word "else") next then on_writer space r
        else if is_some_and (λ n, is_symbol ";" n || is_symbol "," n) next then r
        else if at_top r then end_item (on_writer blank_line r) else on_writer newline r in
      Ok (after_token t false r)
  end.

Definition render_open_paren (t : Token) (rest : list Token) (r : Render) : Render :=
  let spaced := needs_space_before (last_significant r) t false (last_was_unary r) || force_space_after_comment r in
  let r := on_writer (λ w, write (string_bytes "(") (if spaced then space w else w)) r in
  let header := is_some_and (is_word "for") (last_significant r) in
  let wraps := negb header && should_wrap_parens (t :: rest) (column (writer r)) in
  let r := with_parens (mkParen wraps header :: parens r) r in
  after_token t false (if wraps then on_writer (λ w, newline (indent_more w)) r else r).

Definition render_close_paren (t : Token) (r : Render) : Result Render str :=
  match parens r with
  | [] => Err (string_bytes "unmatched closing parenthesis")
  | context :: ps =>
      let r := with_parens ps r in
      let r := if wrapped context then on_writer (λ w, indent_less (newline_if_needed w)) r else r in
      Ok (after_token t false (on_writer (write (string_bytes ")")) r))
  end.

Definition render_semicolon (t : Token) (rest : list Token) (r : Render) : Render :=
  let r := on_writer (write (string_bytes ";")) r in
  let r :=
    if in_for_header r then on_writer space r
    else if has_attached_comment rest then r
    else
      let r := on_writer newline r in
      if at_top r then end_item (if keeps_top_level_group rest (top_level_kind r) then r else on_writer blank_line r) else r in
  after_token t false r.

Definition render_comma (t : Token) (rest : list Token) (r : Render) : Render :=
  let r := on_writer (write (string_bytes ",")) r in
  let r :=
    if in_enum r && outside r then
      let r := member_started false r in
      if has_attached_comment rest then r else on_writer newline r
    else if in_wrapped r then on_writer newline r
    else on_writer space r in
  after_token t false r.

Definition render_other (generic_angles : list (nat * nat)) (t : Token) (r : Render) : Render :=
  let r := if is_one_of ["&&"; "||"]%string (text t) && in_wrapped r && negb (line_is_empty (writer r)) then on_writer newline r else r in
  let unary := is_unary_operator t (last_significant r) in
  let after_generic_open := is_some_and (λ p, is_symbol "<" p && is_generic_angle_token generic_angles p) (last_significant r) in
  let spaced := negb after_generic_open
    && (needs_space_before (last_significant r) t unary (last_was_unary r) || force_space_after_comment r) in
  let r := on_writer (λ w, write (text t) (if spaced then space w else w)) r in
  let r := if in_enum r && outside r && has_kind Word t then member_started true r else r in
  after_token t unary r.

(** A token that is not a comment. *)
Definition render_significant (generic_angles : list (nat * nat)) (t : Token) (rest : list Token) (r : Render) : Result Render str :=
  let r :=
    if in_enum r && outside r && has_kind Word t && enum_member_started r && negb (is_some_and (is_symbol "=") (last_significant r))
    then on_writer newline_if_needed r else r in
  let r := note_item t r in
  if is_symbol "{" t then Ok (render_open_brace t rest r)
  else if is_symbol "}" t then render_close_brace t rest r
  else if is_symbol "(" t then Ok (render_open_paren t rest r)
  else if is_symbol ")" t then render_close_paren t r
  else if is_symbol "[" t then
    Ok (after_token t false (with_brackets (S (bracket_depth r)) (on_writer (write (string_bytes "[")) r)))
  else if is_symbol "]" t then
    if bracket_depth r =? 0 then Err (string_bytes "unmatched closing bracket")
    else Ok (after_token t false (with_brackets (bracket_depth r - 1) (on_writer (write (string_bytes "]")) r)))
  else if is_symbol ";" t then Ok (render_semicolon t rest r)
  else if is_symbol "," t then Ok (render_comma t rest r)
  else if is_generic_angle_token generic_angles t then Ok (after_token t false (on_writer (write (text t)) r))
  else Ok (render_other generic_angles t r).

Definition render_token (generic_angles : list (nat * nat)) (previous : option Token) (t : Token) (rest : list Token) (r : Render) :
    Result Render str :=
  let r := before_token previous t r in
  if has_kind LineComment t then Ok (render_line_comment t rest r)
  else if has_kind BlockComment t then Ok (render_block_comment t rest r)
  else render_significant generic_angles t rest r.

Fixpoint render_loop (generic_angles : list (nat * nat)) (previous : option Token) (tokens : list Token) (r : Render) : Result Render str :=
  match tokens with
  | [] => Ok r
  | t :: rest =>
      match render_token generic_angles previous t rest r with
      | Ok r => render_loop generic_angles (Some t) rest r
      | Err e => Err e
      end
  end.

Definition render (tokens : list Token) (generic_angles : list (nat * nat)) : Result str str :=
  match render_loop generic_angles None tokens start_render with
  | Err e => Err e
  | Ok r =>
      if negb (at_top r) then Err (string_bytes "unmatched opening brace")
      else if negb (bool_decide (length (parens r) = 0)) then Err (string_bytes "unmatched opening parenthesis")
      else if negb (bracket_depth r =? 0) then Err (string_bytes "unmatched opening bracket")
      else Ok (finish (writer r))
  end.

(** ** Line ends *)

Fixpoint line_endings (fuel : nat) (source : str) : list str :=
  match fuel with
  | O => []
  | S fuel' =>
      match source with
      | [] => []
      | b :: rest =>
          if (b =? RETURN)%Z then
            if is_some_and (Z.eqb NEWLINE) (head rest) then [RETURN; NEWLINE] :: line_endings fuel' (tail rest)
            else [RETURN] :: line_endings fuel' rest
          else if (b =? NEWLINE)%Z then [NEWLINE] :: line_endings fuel' rest
          else line_endings fuel' rest
      end
  end.

Fixpoint apply_line_endings (formatted : str) (endings : list str) (fallback : str) : str :=
  match formatted with
  | [] => []
  | b :: formatted =>
      if (b =? NEWLINE)%Z then
        match endings with
        | ending :: endings => ending ++ apply_line_endings formatted endings fallback
        | [] => fallback ++ apply_line_endings formatted [] fallback
        end
      else b :: apply_line_endings formatted endings fallback
  end.

Definition apply_source_line_endings (formatted source : str) : str :=
  let endings := line_endings (length source) source in
  apply_line_endings formatted endings (default [NEWLINE] (last endings)).

(** [replace("\r\n", "\n").replace('\r', "\n")] *)
Fixpoint normalize_line_endings (source : str) : str :=
  match source with
  | [] => []
  | b :: rest =>
      if (b =? RETURN)%Z then
        match rest with
        | c :: _ => if (c =? NEWLINE)%Z then normalize_line_endings rest else NEWLINE :: normalize_line_endings rest
        | [] => [NEWLINE]
        end
      else b :: normalize_line_endings rest
  end.

(** ** The checks *)

Definition significant_tokens (tokens : list Token) : list (TokenKind * str) :=
  (λ t, (kind t, normalize_line_endings (text t))) <$> tokens.

(** The tokens of the compiler but for the commas of enums: the depth of the braces, a
    pending enum and the depth of its braces. *)
Fixpoint without_enum_commas (source : str) (tokens : list Lexer.Token) (brace_depth : nat) (pending_enum : bool) (enum_depth : option nat) :
    list (Lexer.TokenKind * str) :=
  match tokens with
  | [] => []
  | t :: tokens =>
      let token_text := take (Lexer.end_ t - Lexer.start t) (drop (Lexer.start t) source) in
      let pending_enum := pending_enum || ((brace_depth =? 0) && bool_decide (Lexer.kind t = Identifier)
        && bool_decide (token_text = string_bytes "enum")) in
      let opens := bool_decide (Lexer.kind t = LBrace) in
      let brace_depth := if opens then S brace_depth else brace_depth in
      let enum_depth := if opens && pending_enum then Some brace_depth else enum_depth in
      let pending_enum := pending_enum && negb opens in
      let enum_comma := bool_decide (Lexer.kind t = Comma) && bool_decide (enum_depth = Some brace_depth) in
      let closes := bool_decide (Lexer.kind t = RBrace) in
      let rest := without_enum_commas source tokens
        (if closes then brace_depth - 1 else brace_depth) pending_enum
        (if closes && bool_decide (enum_depth = Some brace_depth) then None else enum_depth) in
      if enum_comma then rest else (Lexer.kind t, token_text) :: rest
  end.

(** [None] when a token cannot be sliced, which panics. *)
Definition compiler_tokens_without_enum_commas (source : str) : option (Result (list (Lexer.TokenKind * str)) str) :=
  parse! tokens := lex_text source in
  if forallb (λ t, Lexer.is_char_boundary source (Lexer.start t) && Lexer.is_char_boundary source (Lexer.end_ t)) tokens
  then Some (Ok (without_enum_commas source tokens 0 false None)) else None.

(** The formatted text, with the tokens that were written. *)
Definition formatted_source (source : str) : option (Result (list Token * str) str) :=
  parse! generic_angles := generic_angle_ranges source in
  parse! first := scan source in
  parse! scanned := canonicalize_enum_commas first in
  let tokens := split_generic_shift_closers scanned generic_angles in
  parse! rendered := Some (render tokens generic_angles) in
  Some (Ok (tokens, apply_source_line_endings rendered source)).

Definition format_source (source : str) : option (Result str str) :=
  parse! p := formatted_source source in
  let '(tokens, formatted) := p in
  parse! formatted_angles := generic_angle_ranges formatted in
  parse! scanned_formatted := scan formatted in
  let formatted_tokens := split_generic_shift_closers scanned_formatted formatted_angles in
  if negb (bool_decide (significant_tokens tokens = significant_tokens formatted_tokens))
  then Some (Err (string_bytes "formatter changed the Stasis token stream"))
  else
    parse! before := compiler_tokens_without_enum_commas source in
    parse! after := compiler_tokens_without_enum_commas formatted in
    if bool_decide (before = after) then Some (Ok formatted)
    else Some (Err (string_bytes "formatter changed the compiler token stream")).
