(* ===== verification/FormatterProps.v ===== *)
(** * The formatter changes white space only

    What the formatter writes has the bytes of the source but for white space and the commas
    of enums; its layout is canonical; and it answers for every ASCII source. *)

From S2P Require Import Prelude BTree Lexer Documents Identity Text Imports ParserTokens ParserFunctions ParserLocals ParserTotal ParserPasses Formatter.
#[local] Open Scope nat_scope.
#[local] Set Warnings "-clear-no-such-hyp,-notation-overridden".

(** ** The bytes that are not white space *)

Definition solid (s : str) : str := filter (λ b, is_ascii_space b = false) s.
Definition solid_texts (tokens : list Token) : str := concat (solid ∘ text <$> tokens).

Lemma solid_cons b s : solid (b :: s) = if is_ascii_space b then solid s else b :: solid s.
Proof. unfold solid. cbn [filter list_filter]. by destruct (is_ascii_space b). Qed.

Lemma solid_app s t : solid (s ++ t) = solid s ++ solid t.
Proof. apply filter_app. Qed.

Lemma solid_blank s : Forall (λ b, is_ascii_space b = true) s → solid s = [].
Proof. intros H. induction H as [|b s Hb _ IH]; [done|]. by rewrite solid_cons, Hb. Qed.

Lemma solid_texts_app l l' : solid_texts (l ++ l') = solid_texts l ++ solid_texts l'.
Proof. unfold solid_texts. by rewrite fmap_app, concat_app. Qed.

Lemma solid_texts_cons t l : solid_texts (t :: l) = solid (text t) ++ solid_texts l.
Proof. done. Qed.

(** ** The writer *)

(** What was written. *)
Definition content (w : Writer) : str := solid (output w ++ line w).

Lemma drop_blanks_spec s : ∃ p, s = p ++ drop_blanks s ∧ Forall (λ b, is_blank_byte b = true) p.
Proof.
  induction s as [|b s (p & Hs & Hp)]; cbn [drop_blanks]; [by exists []|]. destruct (is_blank_byte b) eqn:Eb; [|by exists []].
  exists (b :: p). split; [by rewrite Hs at 1|by constructor].
Qed.

Lemma trim_blanks_spec s : ∃ p, s = trim_blanks s ++ p ∧ Forall (λ b, is_blank_byte b = true) p.
Proof.
  unfold trim_blanks. destruct (drop_blanks_spec (reverse s)) as (p & Hs & Hp). exists (reverse p). split; [|by apply Forall_reverse].
  rewrite <- reverse_app, <- Hs. by rewrite reverse_involutive.
Qed.

Lemma blank_is_space b : is_blank_byte b = true → is_ascii_space b = true.
Proof. unfold is_blank_byte, is_ascii_space, SPACE. intros [->| ->]%orb_true_iff; by rewrite ?orb_true_r. Qed.

Lemma solid_trim s : solid (trim_blanks s) = solid s.
Proof.
  destruct (trim_blanks_spec s) as (p & Hs & Hp). rewrite Hs at 2. rewrite solid_app, (solid_blank p), app_nil_r; [done|].
  eapply Forall_impl; [done|]. intros b. apply blank_is_space.
Qed.

Lemma solid_replicate_space k : solid (replicate k SPACE) = [].
Proof. apply solid_blank, Forall_replicate. done. Qed.

Lemma content_push s w : content (push_line s w) = content w ++ solid s.
Proof. unfold content. simpl. by rewrite app_assoc, solid_app. Qed.

Lemma content_indent w : content (ensure_indent w) = content w.
Proof.
  unfold content, ensure_indent. destruct (line w) eqn:El; [|by rewrite El]. simpl. by rewrite app_nil_r, solid_app, solid_replicate_space, app_nil_r.
Qed.

Lemma content_write s w : content (write s w) = content w ++ solid s.
Proof. unfold write. by rewrite content_push, content_indent. Qed.

Lemma content_space w : content (space w) = content w.
Proof. unfold space. destruct (_ || _); [done|]. rewrite content_push. apply app_nil_r. Qed.

Lemma content_newline w : content (newline w) = content w.
Proof. unfold content, newline. simpl. by rewrite app_nil_r, !solid_app, solid_trim, app_nil_r. Qed.

Lemma content_newline_if_needed w : content (newline_if_needed w) = content w.
Proof. unfold newline_if_needed. destruct (line_is_empty w); [done|apply content_newline]. Qed.

Lemma content_space_if_needed w : content (space_if_needed w) = content w.
Proof. unfold space_if_needed. destruct (line_is_empty w); [done|apply content_space]. Qed.

Lemma pop_newlines_spec r : ∃ p, r = p ++ pop_newlines r ∧ Forall (λ b, b = NEWLINE) p.
Proof.
  induction r as [|a r (p & Hr & Hp)]; [by exists []|]. cbn [pop_newlines]. destruct r as [|b [|c r']]; [by exists []..|].
  destruct (_ && _) eqn:E; [|by exists []]. apply andb_true_iff in E as [[->%Z.eqb_eq _]%andb_true_iff _].
  exists (NEWLINE :: p). split; [by rewrite Hr at 1|by constructor].
Qed.

Lemma solid_newlines p : Forall (λ b, b = NEWLINE) p → solid p = [].
Proof. intros H. apply solid_blank. eapply Forall_impl; [done|]. by intros b ->. Qed.

Lemma content_blank_line w : content (blank_line w) = content w.
Proof.
  unfold blank_line. cbv zeta. rewrite <- (content_newline_if_needed w). generalize (newline_if_needed w). clear w. intros w.
  destruct (pop_newlines_spec (reverse (output w))) as (p & Hr & Hp). set (popped := reverse (pop_newlines (reverse (output w)))).
  assert (output w = popped ++ reverse p) as Ho.
  { apply (f_equal reverse) in Hr. by rewrite reverse_involutive, reverse_app in Hr. }
  unfold content. simpl. rewrite Ho, !solid_app, (solid_newlines (reverse p)), app_nil_r by by apply Forall_reverse.
  destruct (_ || _); [done|]. by rewrite solid_app, app_nil_r.
Qed.

Lemma trim_start_matches_spec b s : ∃ p, s = p ++ trim_start_matches b s ∧ Forall (λ c, c = b) p.
Proof.
  induction s as [|c s (p & Hs & Hp)]; simpl; [by exists []|]. destruct (Z.eqb_spec c b) as [->|]; [|by exists []].
  exists (b :: p). split; [by rewrite Hs at 1|by constructor].
Qed.

Lemma trim_end_matches_spec b s : ∃ p, s = trim_end_matches b s ++ p ∧ Forall (λ c, c = b) p.
Proof.
  unfold trim_end_matches. destruct (trim_start_matches_spec b (reverse s)) as (p & Hs & Hp). exists (reverse p).
  split; [|by apply Forall_reverse]. rewrite <- reverse_app, <- Hs. by rewrite reverse_involutive.
Qed.

Lemma solid_trim_matches b s : is_ascii_space b = true → solid (trim_end_matches b s) = solid s.
Proof.
  intros Hb. destruct (trim_end_matches_spec b s) as (p & Hs & Hp). rewrite Hs at 2. rewrite solid_app, (solid_blank p), app_nil_r; [done|].
  eapply Forall_impl; [done|]. by intros c ->.
Qed.

Lemma solid_split s : concat (solid <$> split_on NEWLINE s) = solid s.
Proof.
  induction s as [|c s IH]; [done|]. cbn [split_on]. destruct (Z.eqb_spec c NEWLINE) as [->|Hc].
  - rewrite fmap_cons. cbn [concat]. rewrite IH. done.
  - destruct (split_on NEWLINE s) as [|w ws] eqn:E; rewrite !fmap_cons in *; cbn [concat] in *.
    + rewrite !solid_cons, <- IH. by destruct (is_ascii_space c).
    + change (c :: w) with ([c] ++ w). rewrite solid_app, <- app_assoc, IH. by rewrite <- solid_app.
Qed.

Lemma content_multiline s w : content (write_multiline_comment s w) = content w ++ solid s.
Proof.
  unfold write_multiline_comment. rewrite <- (solid_split s). destruct (split_on NEWLINE s) as [|first lines]; [by rewrite app_nil_r|].
  rewrite fmap_cons. cbn [concat].
  assert (∀ w, content (foldl (λ w l, push_line (trim_end_matches RETURN l) (newline w)) w lines) = content w ++ concat (solid <$> lines)) as Hl.
  { induction lines as [|l lines IH]; intros w'; [by rewrite app_nil_r|]. cbn [foldl]. rewrite IH, content_push, content_newline, solid_trim_matches by done.
    by rewrite fmap_cons, <- app_assoc. }
  by rewrite Hl, content_write, solid_trim_matches, <- app_assoc.
Qed.

Lemma solid_finish w : solid (finish w) = content w.
Proof.
  unfold finish. rewrite solid_app, app_nil_r, solid_trim_matches by done. rewrite <- (content_newline_if_needed w).
  unfold content, newline_if_needed. destruct (line_is_empty w) eqn:E; [|by rewrite app_nil_r].
  apply bool_decide_eq_true in E. by rewrite E, app_nil_r.
Qed.

Lemma content_indent_more w : content (indent_more w) = content w.
Proof. done. Qed.

Lemma content_indent_less w : content (indent_less w) = content w.
Proof. done. Qed.

Lemma content_indent_once w : content (indent_once w) = content w.
Proof. done. Qed.

(** ** Rendering writes the tokens *)

Lemma is_symbol_text expected t : is_symbol expected t = true → text t = string_bytes expected.
Proof. unfold is_symbol. intros [_ H%bool_decide_eq_true]%andb_true_iff. done. Qed.

#[local] Arguments write : simpl never.
#[local] Arguments newline : simpl never.
#[local] Arguments blank_line : simpl never.
#[local] Arguments space : simpl never.
#[local] Arguments newline_if_needed : simpl never.
#[local] Arguments space_if_needed : simpl never.
#[local] Arguments write_multiline_comment : simpl never.
#[local] Arguments indent_more : simpl never.
#[local] Arguments indent_less : simpl never.
#[local] Arguments indent_once : simpl never.
#[local] Arguments content : simpl never.

(** The cases of the conditions, and what each operation of the writer writes. *)
Ltac written :=
  repeat (case_match; simplify_eq/=);
  repeat (rewrite ?content_write, ?content_newline, ?content_blank_line, ?content_newline_if_needed, ?content_space, ?content_space_if_needed,
    ?content_multiline, ?content_indent_more, ?content_indent_less, ?content_indent_once, ?app_nil_r; simpl);
  try done.

Lemma content_before previous t r : content (writer (before_token previous t r)) = content (writer r).
Proof. unfold before_token. cbv zeta. destruct (is_symbol "}" t); written. Qed.

Lemma content_end_group rest r : content (writer (end_group rest r)) = content (writer r).
Proof. unfold end_group. written. Qed.

Lemma content_note t r : writer (note_item t r) = writer r.
Proof. unfold note_item. by case_match. Qed.

Lemma content_line_comment t rest r : content (writer (render_line_comment t rest r)) = content (writer r) ++ solid (text t).
Proof. unfold render_line_comment. cbv zeta. simpl. case_match; rewrite ?content_end_group; written. Qed.

Lemma content_block_comment t rest r : content (writer (render_block_comment t rest r)) = content (writer r) ++ solid (text t).
Proof.
  unfold render_block_comment. cbv zeta. simpl. destruct (has_line_end (text t)); simpl; rewrite ?orb_true_r;
    repeat (case_match; simpl); rewrite ?content_end_group; written.
Qed.

Lemma content_open_brace t rest r : content (writer (render_open_brace t rest r)) = content (writer r) ++ string_bytes "{".
Proof. unfold render_open_brace. cbv zeta. simpl. destruct (has_attached_line_comment rest), (_ && _); simpl; rewrite ?content_newline, content_indent_more; written. Qed.

Lemma content_close_brace t rest r r' : render_close_brace t rest r = Ok r' → content (writer r') = content (writer r) ++ string_bytes "}".
Proof.
  unfold render_close_brace. cbv zeta. simpl. destruct (braces r) as [|closed bs]; [done|]. destruct (brace_content r) as [|c contents]; [done|].
  intros [= <-]. destruct (bool_decide (closed = BraceEnum)); simpl; written; by rewrite content_indent_less, content_newline_if_needed.
Qed.

Lemma content_open_paren t rest r : content (writer (render_open_paren t rest r)) = content (writer r) ++ string_bytes "(".
Proof. unfold render_open_paren. cbv zeta. simpl. do 2 (case_match; simpl); rewrite ?content_newline, ?content_indent_more; written. Qed.

Lemma content_close_paren t r r' : render_close_paren t r = Ok r' → content (writer r') = content (writer r) ++ string_bytes ")".
Proof.
  unfold render_close_paren. destruct (parens r) as [|context ps]; [done|]. cbv zeta. intros [= <-]. simpl. rewrite content_write.
  destruct (wrapped context); simpl; [|done]. by rewrite content_indent_less, content_newline_if_needed.
Qed.

Lemma content_semicolon t rest r : content (writer (render_semicolon t rest r)) = content (writer r) ++ string_bytes ";".
Proof. unfold render_semicolon. cbv zeta. simpl. written. Qed.

Lemma content_comma t rest r : content (writer (render_comma t rest r)) = content (writer r) ++ string_bytes ",".
Proof. unfold render_comma. cbv zeta. simpl. written. Qed.

Lemma content_other angles t r : content (writer (render_other angles t r)) = content (writer r) ++ solid (text t).
Proof. unfold render_other. cbv zeta. simpl. destruct (_ && negb (line_is_empty _)); simpl; written. Qed.

Lemma content_significant angles t rest r r' :
  render_significant angles t rest r = Ok r' → content (writer r') = content (writer r) ++ solid (text t).
Proof.
  unfold render_significant. cbv zeta. match goal with |- context [note_item t ?x] => set (r0 := x) end.
  assert (content (writer (note_item t r0)) = content (writer r)) as <-.
  { rewrite content_note. subst r0. case_match; [apply content_newline_if_needed|done]. }
  generalize (note_item t r0). clear r0. intros r0.
  destruct (is_symbol "{" t) eqn:E1; [intros [= <-]; rewrite content_open_brace; by rewrite (is_symbol_text _ _ E1)|].
  destruct (is_symbol "}" t) eqn:E2; [intros Hr; rewrite (content_close_brace _ _ _ _ Hr); by rewrite (is_symbol_text _ _ E2)|].
  destruct (is_symbol "(" t) eqn:E3; [intros [= <-]; rewrite content_open_paren; by rewrite (is_symbol_text _ _ E3)|].
  destruct (is_symbol ")" t) eqn:E4; [intros Hr; rewrite (content_close_paren _ _ _ Hr); by rewrite (is_symbol_text _ _ E4)|].
  destruct (is_symbol "[" t) eqn:E5; [intros [= <-]; simpl; rewrite content_write; by rewrite (is_symbol_text _ _ E5)|].
  destruct (is_symbol "]" t) eqn:E6.
  { destruct (bracket_depth r0 =? 0); [done|]. intros [= <-]. simpl. rewrite content_write. by rewrite (is_symbol_text _ _ E6). }
  destruct (is_symbol ";" t) eqn:E7; [intros [= <-]; rewrite content_semicolon; by rewrite (is_symbol_text _ _ E7)|].
  destruct (is_symbol "," t) eqn:E8; [intros [= <-]; rewrite content_comma; by rewrite (is_symbol_text _ _ E8)|].
  destruct (is_generic_angle_token angles t); intros [= <-]; [simpl; apply content_write|apply content_other].
Qed.

Lemma content_token angles previous t rest r r' :
  render_token angles previous t rest r = Ok r' → content (writer r') = content (writer r) ++ solid (text t).
Proof.
  unfold render_token. cbv zeta. rewrite <- (content_before previous t r). generalize (before_token previous t r). clear r. intros r.
  destruct (has_kind LineComment t); [intros [= <-]; apply content_line_comment|].
  destruct (has_kind BlockComment t); [intros [= <-]; apply content_block_comment|]. apply content_significant.
Qed.

Lemma content_loop angles tokens : ∀ previous r r',
  render_loop angles previous tokens r = Ok r' → content (writer r') = content (writer r) ++ solid_texts tokens.
Proof.
  induction tokens as [|t tokens IH]; intros previous r r'; cbn [render_loop]; [intros [= <-]; by rewrite app_nil_r|].
  destruct (render_token angles previous t tokens r) as [r1|] eqn:E; [|done]. intros Hr. rewrite (IH _ _ _ Hr), (content_token _ _ _ _ _ _ E).
  by rewrite <- app_assoc.
Qed.

Lemma solid_render tokens angles out : render tokens angles = Ok out → solid out = solid_texts tokens.
Proof.
  unfold render. destruct (render_loop _ _ _ _) as [r|] eqn:E; [|done]. destruct (negb (at_top r)); [done|]. destruct (negb _); [done|].
  destruct (negb _); [done|]. intros [= <-]. rewrite solid_finish. by rewrite (content_loop _ _ _ _ _ E).
Qed.

(** ** Scanning keeps the bytes *)

(** The fuel of the loops over delimited tokens is enough. *)
Lemma utf8_width_pos b : 1 ≤ utf8_width b.
Proof. unfold utf8_width. repeat case_match; lia. Qed.

Lemma delimited_fuel fuel : ∀ fuel' l, length l < fuel → length l < fuel' →
  comment_len fuel l = comment_len fuel' l ∧ string_len fuel l = string_len fuel' l ∧ backtick_len fuel l = backtick_len fuel' l.
Proof.
  induction fuel as [|fuel IH]; intros fuel' l Hf Hf'; [lia|]. destruct fuel' as [|fuel']; [lia|]. cbn [comment_len string_len backtick_len].
  destruct l as [|b l]; [done|]. cbn [length] in *. pose proof (utf8_width_pos b) as Hw.
  assert (∀ k, 1 ≤ k → length (drop k (b :: l)) < fuel ∧ length (drop k (b :: l)) < fuel') as Hd.
  { intros k Hk. rewrite length_drop. cbn [length]. lia. }
  split_and!.
  - destruct l as [|c l]; [done|]. destruct (_ && _); [done|].
    destruct (Hd _ Hw) as [H1 H2]. by destruct (IH fuel' _ H1 H2) as (-> & _ & _).
  - destruct (b =? ESCAPE)%Z; [|destruct (b =? QUOTE_MARK)%Z; [done|]; destruct (Hd _ Hw) as [H1 H2]; by destruct (IH fuel' _ H1 H2) as (_ & -> & _)].
    cbv zeta. destruct l as [|c l].
    + destruct (IH fuel' []) as (_ & Hs & _); [simpl in *; lia..|]. cbn [drop]. by rewrite Hs.
    + destruct (IH fuel' (drop (utf8_width c) (c :: l))) as (_ & Hs & _); [rewrite length_drop; simpl in *; lia..|]. cbn [drop]. by rewrite Hs.
  - destruct (b =? TICK)%Z; [done|]. destruct (Hd _ Hw) as [H1 H2]. by destruct (IH fuel' _ H1 H2) as (_ & _ & ->).
Qed.

Lemma str_get_spec source a b s : str_get source a b = Some s → a ≤ b ≤ length source ∧ s = take (b - a) (drop a source).
Proof.
  unfold str_get. destruct (_ && _) eqn:E; [|done]. intros [= <-]. apply andb_true_iff in E as [[[E1%Nat.leb_le E2%Nat.leb_le]%andb_true_iff _]%andb_true_iff _].
  done.
Qed.

Lemma drop_tail (source rest : str) cursor b : drop cursor source = b :: rest → drop (S cursor) source = rest.
Proof. intros H. rewrite <- (Nat.add_1_r cursor), <- drop_drop, H. done. Qed.

Lemma solid_scan fuel source : ∀ cursor count tokens,
  scan_loop fuel source cursor count = Some (Ok tokens) → solid_texts tokens = solid (drop cursor source).
Proof.
  induction fuel as [|fuel IH]; intros cursor count tokens; cbn [scan_loop]; [done|].
  destruct (drop cursor source) as [|b rest] eqn:Ed; [by intros [= <-]|]. pose proof (drop_tail _ _ _ _ Ed) as Ed1.
  destruct (is_ascii_space b) eqn:Eb.
  - rewrite solid_cons, Eb. destruct (b =? NEWLINE)%Z; [intros ->%IH; by rewrite Ed1|].
    destruct (b =? RETURN)%Z; [|intros ->%IH; by rewrite Ed1].
    intros ->%IH. destruct rest as [|c rest]; [simpl; by rewrite Ed1|]. cbn [lookup list_lookup is_some_and].
    destruct (Z.eqb_spec NEWLINE c) as [<-|]; [|by rewrite Ed1]. by rewrite (drop_tail _ _ _ _ Ed1).
  - destruct (scan_token (b :: rest)) as [[k width]|e] eqn:Et; [|done].
    destruct (str_get source cursor (cursor + width)) as [token_text|] eqn:Eg; [|done].
    destruct (scan_loop fuel source (cursor + width) 0) as [[ts|e]|] eqn:Es; [|done|done]. simpl. intros [= <-].
    rewrite solid_texts_cons, (IH _ _ _ Es). cbn [text]. apply str_get_spec in Eg as [Hle ->]. rewrite <- Ed, <- solid_app, <- drop_drop.
    replace (cursor + width - cursor) with width by lia. by rewrite take_drop.
Qed.

Lemma solid_split_closers tokens angles : solid_texts (split_generic_shift_closers tokens angles) = solid_texts tokens.
Proof.
  unfold split_generic_shift_closers. induction tokens as [|t tokens IH]; [done|]. rewrite fmap_cons. cbn [concat]. rewrite solid_texts_app, IH, solid_texts_cons.
  f_equal. cbv zeta. destruct (_ && _) eqn:E; [|by unfold solid_texts; simpl; rewrite app_nil_r].
  apply andb_true_iff in E as [[E _]%andb_true_iff _]. by rewrite (is_symbol_text _ _ E).
Qed.

(** ** Line ends *)

Definition line_ends (s : str) : Prop := Forall (λ b, is_line_end b = true) s.

Lemma line_end_is_space b : is_line_end b = true → is_ascii_space b = true.
Proof. unfold is_line_end, is_ascii_space, RETURN, NEWLINE. intros [->| ->]%orb_true_iff; by rewrite ?orb_true_r. Qed.

Lemma solid_line_ends s : line_ends s → solid s = [].
Proof. intros H. apply solid_blank. eapply Forall_impl; [done|]. intros b. apply line_end_is_space. Qed.

Lemma line_endings_spec fuel : ∀ source, Forall line_ends (line_endings fuel source).
Proof.
  induction fuel as [|fuel IH]; intros source; cbn [line_endings]; [done|]. destruct source as [|b rest]; [done|].
  repeat case_match; try apply IH; constructor; try apply IH; repeat constructor.
Qed.

Lemma solid_apply formatted : ∀ endings fallback, Forall line_ends endings → line_ends fallback →
  solid (apply_line_endings formatted endings fallback) = solid formatted.
Proof.
  induction formatted as [|b formatted IH]; intros endings fallback He Hf; cbn [apply_line_endings]; [done|].
  destruct (Z.eqb_spec b NEWLINE) as [->|Hb]; [|rewrite !solid_cons, IH by done; done].
  change (solid (NEWLINE :: formatted)) with (solid formatted).
  destruct He as [|e endings He Hes]; rewrite solid_app, IH by done; by rewrite solid_line_ends.
Qed.

Lemma solid_apply_source formatted source : solid (apply_source_line_endings formatted source) = solid formatted.
Proof.
  unfold apply_source_line_endings. cbv zeta. pose proof (line_endings_spec (length source) source) as He.
  apply solid_apply; [done|]. destruct (last _) as [e|] eqn:El; simpl; [|by repeat constructor].
  rewrite Forall_forall in He. apply He. by apply last_Some_elem_of.
Qed.

(** ** The commas of enums *)

(** The bytes that are neither white space nor commas. *)
Definition plain (s : str) : str := filter (λ b, b ≠ 44%Z) (solid s).
Definition plain_texts (tokens : list Token) : str := filter (λ b, b ≠ 44%Z) (solid_texts tokens).

Lemma plain_texts_app l l' : plain_texts (l ++ l') = plain_texts l ++ plain_texts l'.
Proof. unfold plain_texts. rewrite solid_texts_app. apply filter_app. Qed.

Lemma plain_comma t : is_symbol "," t = true → plain_texts [t] = [].
Proof. intros H%is_symbol_text. unfold plain_texts, solid_texts. simpl. by rewrite H. Qed.

Lemma plain_enum_comma : plain_texts [enum_comma] = [].
Proof. done. Qed.

(** The tokens of a split at the next token that is not a comment. *)
Definition flat (r : list Token * Token * list Token) : list Token := r.1.1 ++ r.1.2 :: r.2.

Lemma next_non_comment_flat tokens r : next_non_comment tokens = Some r → tokens = flat r.
Proof.
  revert r. induction tokens as [|t tokens IH]; intros r; cbn [next_non_comment]; [done|]. destruct (is_comment t); [|by intros [= <-]].
  destruct (next_non_comment tokens) as [[[c x] rest]|]; [|done]. intros [= <-]. by rewrite (IH _ eq_refl).
Qed.

Lemma next_or_Ok {A} message tokens (k : list Token * Token * list Token → Result A str) x :
  next_or message tokens k = Ok x → ∃ r, tokens = flat r ∧ k r = Ok x.
Proof. unfold next_or. destruct (next_non_comment tokens) as [r|] eqn:E; [|done]. intros H. exists r. split; [by apply next_non_comment_flat|done]. Qed.

Lemma variant_value_flat core r core' r' : variant_value core r = Ok (core', r') → core' ++ flat r' = core ++ flat r.
Proof.
  destruct r as [[between delimiter] rest]. unfold variant_value. destruct (is_symbol "=" delimiter); [|by intros [= <- <-]].
  intros ([[c1 t1] rest1] & -> & H)%next_or_Ok. unfold flat. cbn [fst snd] in *. destruct (is_symbol "-" t1).
  - apply next_or_Ok in H as ([[c2 t2] rest2] & -> & H). destruct (has_kind Number t2); [|done].
    apply next_or_Ok in H as (r2 & -> & [= <- <-]). unfold flat. cbn [fst snd]. by rewrite <- !app_assoc.
  - destruct (has_kind Number t1); [|done]. apply next_or_Ok in H as (r1 & -> & [= <- <-]). unfold flat. cbn [fst snd]. by rewrite <- !app_assoc.
Qed.

Lemma plain_enum_variants fuel : ∀ r out out' rest',
  enum_variants fuel r out = Some (Ok (out', rest')) → plain_texts (out' ++ rest') = plain_texts (out ++ flat r).
Proof.
  induction fuel as [|fuel IH]; intros [[comments cursor] rest] out out' rest'; cbn [enum_variants]; [done|].
  destruct (is_symbol "}" cursor); [intros [= <- <-]; by unfold flat; rewrite <- !app_assoc|]. destruct (negb (has_kind Word cursor)); [done|].
  destruct (next_or _ _ _) as [[core [[between delimiter] rest1]]|e] eqn:En; [|done].
  apply next_or_Ok in En as (r1 & -> & Hv%variant_value_flat). unfold flat in Hv |- *. cbn [fst snd] in *.
  change (out ++ comments ++ cursor :: r1.1.1 ++ r1.1.2 :: r1.2) with (out ++ comments ++ [cursor] ++ r1.1.1 ++ r1.1.2 :: r1.2). rewrite <- Hv.
  destruct (is_symbol "," delimiter) eqn:Ec.
  - destruct (next_non_comment rest1) as [next|] eqn:Enn; [|done]. apply next_non_comment_flat in Enn as ->. intros ->%IH.
    rewrite !plain_texts_app. change (delimiter :: flat next) with ([delimiter] ++ flat next). rewrite plain_texts_app, (plain_comma _ Ec).
    assert (plain_texts [match between with [] => delimiter | _ :: _ => enum_comma end] = []) as ->.
    { destruct between; [by apply plain_comma|apply plain_enum_comma]. }
    by rewrite <- !app_assoc.
  - destruct (_ || _); [|done]. intros ->%IH. unfold flat. cbn [fst snd]. rewrite !plain_texts_app, plain_enum_comma. by rewrite <- !app_assoc.
Qed.

Lemma plain_canonicalize fuel : ∀ depth tokens out out',
  canonicalize_loop fuel depth tokens out = Some (Ok out') → plain_texts out' = plain_texts (out ++ tokens).
Proof.
  induction fuel as [|fuel IH]; intros depth tokens out out'; cbn [canonicalize_loop]; [done|].
  destruct tokens as [|t tokens]; [intros [= <-]; by rewrite app_nil_r|].
  destruct (_ && is_word "enum" t); [|intros ->%IH; by rewrite <- app_assoc].
  destruct (next_non_comment tokens) as [[[c1 name] tokens1]|] eqn:E1; [|done]. apply next_non_comment_flat in E1 as ->.
  destruct (negb _); [done|]. destruct (next_non_comment tokens1) as [[[c2 open] tokens2]|] eqn:E2; [|done]. apply next_non_comment_flat in E2 as ->.
  destruct (negb _); [done|]. destruct (next_non_comment tokens2) as [r|] eqn:E3; [|done]. apply next_non_comment_flat in E3 as ->.
  destruct (enum_variants _ _ _) as [[[out1 rest1]|e]|] eqn:Ev; [|done|done]. simpl. intros ->%IH. rewrite (plain_enum_variants _ _ _ _ _ Ev).
  unfold flat. cbn [fst snd]. by rewrite <- !app_assoc.
Qed.

(** Without enums nothing changes. *)
Lemma canonicalize_no_enum fuel : ∀ depth tokens out, length tokens < fuel → Forall (λ t, is_word "enum" t = false) tokens →
  canonicalize_loop fuel depth tokens out = Some (Ok (out ++ tokens)).
Proof.
  induction fuel as [|fuel IH]; intros depth tokens out Hf Hn; [lia|]. cbn [canonicalize_loop].
  destruct Hn as [|t tokens Ht Hn]; [by rewrite app_nil_r|]. rewrite Ht, andb_false_r, IH; [by rewrite <- app_assoc|simpl in *; lia|done].
Qed.

(** ** What is written *)

Lemma formatted_source_spec source tokens formatted : formatted_source source = Some (Ok (tokens, formatted)) →
  ∃ angles first scanned rendered, generic_angle_ranges source = Some (Ok angles) ∧ scan source = Some (Ok first)
  ∧ canonicalize_enum_commas first = Some (Ok scanned) ∧ tokens = split_generic_shift_closers scanned angles
  ∧ render tokens angles = Ok rendered ∧ formatted = apply_source_line_endings rendered source.
Proof.
  intros H. unfold formatted_source in H. bind_step H angles Ha. bind_step H found Hs. bind_step H scanned Hc.
  cbv zeta in H. bind_step H rendered Hr. apply (inj Some) in Hr. simplify_eq. by exists angles, found, scanned, rendered.
Qed.

Lemma formatted_bytes source tokens formatted found : formatted_source source = Some (Ok (tokens, formatted)) → scan source = Some (Ok found) →
  plain formatted = plain source ∧ (Forall (λ t, is_word "enum" t = false) found → solid formatted = solid source).
Proof.
  intros (angles & found' & scanned & rendered & _ & Hs & Hc & -> & Hr & ->)%formatted_source_spec Hs'. simplify_eq.
  apply solid_render in Hr. rewrite solid_split_closers in Hr. unfold plain. rewrite solid_apply_source, Hr.
  pose proof (solid_scan _ _ _ _ _ Hs) as Hf. rewrite drop_0 in Hf. rewrite <- Hf. split.
  - change (plain_texts scanned = plain_texts found'). unfold canonicalize_enum_commas in Hc. by apply plain_canonicalize in Hc.
  - intros Hn. unfold canonicalize_enum_commas in Hc. rewrite canonicalize_no_enum in Hc by (done || lia). by injection Hc as <-.
Qed.

Lemma format_source_formatted source out : format_source source = Some (Ok out) →
  (∃ tokens, formatted_source source = Some (Ok (tokens, out)))
  ∧ ∃ compiled, compiler_tokens_without_enum_commas source = Some (Ok compiled) ∧ compiler_tokens_without_enum_commas out = Some (Ok compiled).
Proof.
  intros H. unfold format_source in H. bind_step H p Hp. destruct p as [tokens formatted]. cbn beta iota zeta in H.
  bind_step H angles Ha. bind_step H scanned Hs.
  cbv zeta in H. destruct (negb _); [done|]. bind_step H old Hb. bind_step H new Haf.
  destruct (bool_decide_reflect (old = new)) as [->|]; [|done]. simplify_eq. split; [by exists tokens|]. by exists new.
Qed.

(** C23 Formatting changes white space and the commas of enums only.  A formatted source has
    the bytes of the source, in order, but for white space and commas, and but for white
    space alone when the source has no word [enum]; and it has the same compiler tokens, but
    for the commas of enums. *)
Theorem formatting_keeps_source source out :
  format_source source = Some (Ok out) →
  plain out = plain source
  ∧ (∀ tokens, scan source = Some (Ok tokens) → Forall (λ t, is_word "enum" t = false) tokens → solid out = solid source)
  ∧ ∃ compiled, compiler_tokens_without_enum_commas source = Some (Ok compiled) ∧ compiler_tokens_without_enum_commas out = Some (Ok compiled).
Proof.
  intros ((tokens & Hf) & Hcompiled)%format_source_formatted. split_and!; [| |done].
  - pose proof Hf as (angles & found & scanned & rendered & _ & Hs & _)%formatted_source_spec. by eapply formatted_bytes.
  - intros found Hs Hn. by eapply formatted_bytes.
Qed.

(** ** Layout *)

(** No line ends with a blank. *)
Fixpoint no_blank_ends (s : str) : bool :=
  match s with
  | b :: (c :: _) as s' => negb (is_blank_byte b && (c =? NEWLINE)%Z) && no_blank_ends s'
  | _ => true
  end.

(** No two empty lines follow each other. *)
Fixpoint no_empty_pairs (s : str) : bool :=
  match s with
  | a :: (b :: c :: _) as s' => negb ((a =? NEWLINE)%Z && (b =? NEWLINE)%Z && (c =? NEWLINE)%Z) && no_empty_pairs s'
  | _ => true
  end.

(** A text of lines without trailing blanks and with at most one empty line between others;
    it starts with no empty line and ends with one line end. *)
Record canonical_layout (s : str) : Prop := {
  cl_end : ∃ body, s = body ++ [NEWLINE] ∧ last body ≠ Some NEWLINE;
  cl_blanks : no_blank_ends s = true;
  cl_pairs : no_empty_pairs s = true;
  cl_start : s = [NEWLINE] ∨ head s ≠ Some NEWLINE;
}.

Lemma no_blank_ends_cons b s : no_blank_ends (b :: s) = true ↔ (is_blank_byte b = true → head s ≠ Some NEWLINE) ∧ no_blank_ends s = true.
Proof.
  destruct s as [|c s]; [naive_solver|]. change (no_blank_ends (b :: c :: s)) with (negb (is_blank_byte b && (c =? NEWLINE)%Z) && no_blank_ends (c :: s)).
  rewrite andb_true_iff, negb_true_iff, andb_false_iff. cbn [head]. destruct (is_blank_byte b), (Z.eqb_spec c NEWLINE); naive_solver.
Qed.

Lemma no_empty_pairs_cons a s : no_empty_pairs (a :: s) = true ↔ (a = NEWLINE → take 2 s ≠ [NEWLINE; NEWLINE]) ∧ no_empty_pairs s = true.
Proof.
  destruct s as [|b [|c s]]; [by split; [split; [|done]|]..|].
  change (no_empty_pairs (a :: b :: c :: s)) with (negb ((a =? NEWLINE)%Z && (b =? NEWLINE)%Z && (c =? NEWLINE)%Z) && no_empty_pairs (b :: c :: s)).
  rewrite andb_true_iff, negb_true_iff. cbn [take]. destruct (Z.eqb_spec a NEWLINE), (Z.eqb_spec b NEWLINE), (Z.eqb_spec c NEWLINE); simpl; naive_solver.
Qed.

Lemma no_blank_ends_app s t : no_blank_ends (s ++ t) = true ↔
  no_blank_ends s = true ∧ no_blank_ends t = true ∧ (is_some_and is_blank_byte (last s) = true → head t ≠ Some NEWLINE).
Proof.
  induction s as [|b s IH]; [naive_solver|]. rewrite <- app_comm_cons, !no_blank_ends_cons, IH.
  destruct s as [|c s]; [simpl; naive_solver|]. rewrite <- app_comm_cons. cbn [head]. change (last (b :: c :: s)) with (last (c :: s)). tauto.
Qed.

Lemma no_empty_pairs_break s x t : x ≠ NEWLINE → no_empty_pairs (s ++ x :: t) = true ↔ no_empty_pairs s = true ∧ no_empty_pairs t = true.
Proof.
  intros Hx. induction s as [|a s IH].
  - change ([] ++ x :: t) with (x :: t). rewrite no_empty_pairs_cons. naive_solver.
  - rewrite <- app_comm_cons, !no_empty_pairs_cons, IH. assert (take 2 (s ++ x :: t) = [NEWLINE; NEWLINE] ↔ take 2 s = [NEWLINE; NEWLINE]) as ->; [|tauto].
    destruct s as [|b [|c s]]; simpl; rewrite ?take_0; naive_solver.
Qed.

Lemma no_empty_pairs_none s : NEWLINE ∉ s → no_empty_pairs s = true.
Proof.
  induction s as [|a s IH]; [done|]. intros [Ha Hs]%not_elem_of_cons. apply no_empty_pairs_cons. split; [by intros ->|by apply IH].
Qed.

Lemma no_blank_ends_none s : NEWLINE ∉ s → no_blank_ends s = true.
Proof.
  induction s as [|a s IH]; [done|]. intros [Ha Hs]%not_elem_of_cons. apply no_blank_ends_cons. split; [|by apply IH].
  intros _. destruct s as [|c s]; [done|]. intros [= ->]. apply Hs. by left.
Qed.

(** Output of whole lines. *)
Record tidy (o : str) : Prop := {
  td_last : o = [] ∨ last o = Some NEWLINE;
  td_blanks : no_blank_ends o = true;
  td_pairs : no_empty_pairs o = true;
  td_start : head o ≠ Some NEWLINE;
}.

Lemma tidy_line o m : tidy o → NEWLINE ∉ m → is_some_and is_blank_byte (last m) = false → m ≠ [] → tidy (o ++ m ++ [NEWLINE]).
Proof.
  intros [Hl Hb Hp Hs] Hm Hlast Hne. split.
  - right. by rewrite app_assoc, last_snoc.
  - apply no_blank_ends_app. split; [done|]. split.
    + apply no_blank_ends_app. split; [by apply no_blank_ends_none|]. split; [done|]. by rewrite Hlast.
    + intros Ho. destruct Hl as [->|Hl]; [done|]. by rewrite Hl in Ho.
  - destruct m as [|x m]; [done|]. apply not_elem_of_cons in Hm as [Hx Hm]. rewrite <- app_comm_cons, no_empty_pairs_break by done. split; [done|].
    clear -Hm. induction m as [|y m IH]; [done|]. apply not_elem_of_cons in Hm as [Hy Hm]. rewrite <- app_comm_cons. apply no_empty_pairs_cons.
    split; [by intros ->|by apply IH].
  - destruct o as [|a o]; [|done]. destruct m as [|x m]; [done|]. apply not_elem_of_cons in Hm as [Hx _]. by intros [= ->].
Qed.

Lemma tidy_blank o : tidy o → o ≠ [] → ends_with [NEWLINE; NEWLINE] o = false → tidy (o ++ [NEWLINE]).
Proof.
  intros [Hl Hb Hp Hs] Hne He. destruct Hl as [|Hl]; [done|]. split.
  - right. by rewrite last_snoc.
  - apply no_blank_ends_app. split; [done|]. split; [done|]. by rewrite Hl.
  - destruct (exists_last Hne) as (o1 & y & ->). rewrite last_snoc in Hl. injection Hl as ->.
    destruct o1 as [|z o1]; [done|]. destruct (exists_last (l := z :: o1)) as (o2 & w & Ho); [done|]. rewrite Ho in *.
    assert (w ≠ NEWLINE) as Hw.
    { intros ->. apply bool_decide_eq_false in He. apply He. rewrite !length_app. simpl.
      replace (length o2 + 1 + 1 - 2) with (length o2) by lia. by rewrite <- app_assoc, drop_app_length. }
    rewrite <- app_assoc in Hp |- *. rewrite <- !app_assoc. simpl in *. rewrite no_empty_pairs_break in * by done. by destruct Hp.
  - destruct o; [done|exact Hs].
Qed.

Lemma pop_newlines_tidy o : tidy o → pop_newlines (reverse o) = reverse o.
Proof.
  intros [_ _ Hp _]. destruct (reverse o) as [|a [|b [|c r]]] eqn:E; [done..|]. cbn [pop_newlines].
  destruct (_ && _) eqn:En; [|done]. apply andb_true_iff in En as [[->%Z.eqb_eq ->%Z.eqb_eq]%andb_true_iff ->%Z.eqb_eq].
  exfalso. apply (f_equal reverse) in E. rewrite reverse_involutive in E. subst o. rewrite !reverse_cons, <- !app_assoc in Hp. simpl in Hp.
  clear -Hp. induction (reverse r) as [|x l IH]; [done|]. rewrite <- app_comm_cons in Hp. apply no_empty_pairs_cons in Hp as [_ Hp]. by apply IH.
Qed.

(** The line that is written: it has a byte that is not blank, and no line end. *)
Record text_ok (s : str) : Prop := {
  tx_newline : NEWLINE ∉ s;
  tx_solid : ∃ b, b ∈ s ∧ is_blank_byte b = false;
}.

Definition neat (w : Writer) : Prop := tidy (output w) ∧ (line w = [] ∨ text_ok (line w)).
Definition full (w : Writer) : Prop := tidy (output w) ∧ text_ok (line w).

Lemma full_neat w : full w → neat w.
Proof. intros [? ?]. split; [done|by right]. Qed.

Lemma blanks_text k : NEWLINE ∉ replicate k SPACE.
Proof. intros [H _]%elem_of_replicate. by vm_compute in H. Qed.

Lemma full_write s w : text_ok s → neat w → full (write s w).
Proof.
  intros [Hn (b & Hb & Hbl)] [Ht Hl]. unfold write, push_line, ensure_indent. destruct (line w) as [|c l] eqn:El; (split; [done|]); simpl.
  - split; [|exists b; split; [apply elem_of_app; by right|done]]. rewrite elem_of_app. intros [?%blanks_text|?]; done.
  - destruct Hl as [?|[Hnl Hs]]; [done|]. rewrite El. split; [rewrite elem_of_app; tauto|].
    exists b. split; [apply elem_of_app; by right|done].
Qed.

Lemma full_space w : full w → full (space w).
Proof.
  intros [Ht [Hn (b & Hb & Hbl)]]. unfold space. destruct (_ || _); [by split; [|split; eauto]|]. split; [done|]. simpl.
  split; [rewrite elem_of_app, list_elem_of_singleton; by intros [?|?]|]. exists b. split; [apply elem_of_app; by left|done].
Qed.

Lemma neat_space w : neat w → neat (space w).
Proof.
  intros [Ht [Hl|Hl]]; [|by apply full_neat, full_space]. unfold space, line_is_empty. rewrite Hl, bool_decide_eq_true_2 by done. split; [done|by left].
Qed.

Lemma trim_blanks_last s : is_some_and is_blank_byte (last (trim_blanks s)) = false.
Proof.
  unfold trim_blanks. rewrite last_reverse. induction (reverse s) as [|b l IH]; [done|]. cbn [drop_blanks]. destruct (is_blank_byte b) eqn:E; [done|]. exact E.
Qed.

Lemma neat_newline w : full w → neat (newline w).
Proof.
  intros [Ht [Hn (b & Hb & Hbl)]]. split; [|by left]. unfold newline. simpl. destruct (trim_blanks_spec (line w)) as (p & Hs & Hp). apply tidy_line; [done| | |].
  - intros Hin. apply Hn. rewrite Hs. apply elem_of_app. by left.
  - apply trim_blanks_last.
  - intros Hnil. rewrite Hnil in Hs. rewrite Hs in Hb. rewrite Forall_forall in Hp. specialize (Hp b Hb). congruence.
Qed.

Lemma neat_newline_if_needed w : neat w → neat (newline_if_needed w).
Proof.
  intros [Ht [Hl|Hl]]; unfold newline_if_needed, line_is_empty.
  - rewrite Hl, bool_decide_eq_true_2 by done. split; [done|by left].
  - case_bool_decide; [split; [done|by right]|by apply neat_newline].
Qed.

Lemma line_newline_if_needed w : line (newline_if_needed w) = [].
Proof. unfold newline_if_needed, line_is_empty. by case_bool_decide. Qed.

Lemma neat_space_if_needed w : neat w → neat (space_if_needed w).
Proof. intros H. unfold space_if_needed. case_match; [done|by apply neat_space]. Qed.

Lemma neat_blank_line w : neat w → neat (blank_line w).
Proof.
  intros H%neat_newline_if_needed. unfold blank_line. cbv zeta. pose proof (line_newline_if_needed w) as Hl. revert H Hl. generalize (newline_if_needed w). clear w.
  intros w [Ht _] Hl. rewrite (pop_newlines_tidy _ Ht), reverse_involutive. split; [|by left]. simpl.
  case_bool_decide; [done|]. simpl. destruct (ends_with _ _) eqn:Ee; [done|]. by apply tidy_blank.
Qed.

Lemma neat_indent_more w : neat w → neat (indent_more w).
Proof. done. Qed.
Lemma neat_indent_less w : neat w → neat (indent_less w).
Proof. done. Qed.
Lemma neat_indent_once w : neat w → neat (indent_once w).
Proof. done. Qed.
Lemma full_indent_more w : full w → full (indent_more w).
Proof. done. Qed.

Lemma no_empty_pairs_prefix s t : no_empty_pairs (s ++ t) = true → no_empty_pairs s = true.
Proof.
  induction s as [|a s IH]; [done|]. rewrite <- app_comm_cons, !no_empty_pairs_cons. intros [Ha Hp]. split; [|by apply IH].
  intros Han Ht. apply (Ha Han). destruct s as [|b [|c s]]; [done..|]. exact Ht.
Qed.

Lemma trim_end_matches_last b s : last (trim_end_matches b s) ≠ Some b.
Proof.
  unfold trim_end_matches. rewrite last_reverse. induction (reverse s) as [|c l IH]; [done|]. simpl. destruct (Z.eqb_spec c b); [done|].
  by intros [= ->].
Qed.

Lemma layout_finish w : neat w → canonical_layout (finish w).
Proof.
  intros [Ht _]%neat_newline_if_needed. unfold finish. revert Ht. generalize (output (newline_if_needed w)). intros o [Hl Hb Hp Hs].
  pose proof (trim_end_matches_last NEWLINE o) as Hlast. destruct (trim_end_matches_spec NEWLINE o) as (p & Ho & Hall).
  set (body := trim_end_matches NEWLINE o) in *. clearbody body.
  destruct p as [|x p].
  - rewrite app_nil_r in Ho. subst o. destruct Hl as [->|Hl]; [|done]. split; [by exists []|done..|by left].
  - apply Forall_cons in Hall as [-> _]. rewrite (app_assoc body [NEWLINE] p : body ++ NEWLINE :: p = _) in Ho. subst o. split.
    + by exists body.
    + by apply no_blank_ends_app in Hb as [? _].
    + by eapply no_empty_pairs_prefix.
    + right. destruct body; [done|]. exact Hs.
Qed.

(** ** Rendering keeps the layout *)

Create HintDb layout.
#[local] Hint Resolve full_neat full_write full_space neat_space neat_newline neat_newline_if_needed neat_space_if_needed neat_blank_line
  neat_indent_more neat_indent_less neat_indent_once full_indent_more : layout.

(** The cases of the conditions, and what each operation of the writer keeps. *)
Ltac laid_out := repeat (case_match; simplify_eq/=); simpl; eauto 8 with layout.

Lemma symbol_ok expected : forallb (λ b, negb (b =? NEWLINE)%Z) (string_bytes expected) = true →
  existsb (λ b, negb (is_blank_byte b)) (string_bytes expected) = true → text_ok (string_bytes expected).
Proof.
  rewrite forallb_forall, existsb_exists. intros Hn (b & Hb & Hbl). split.
  - intros Hin%list_elem_of_In. by apply Hn in Hin.
  - exists b. split; [by apply list_elem_of_In|]. by apply negb_true_iff.
Qed.

Section layout.
Context (t : Token) (rest : list Token) (t_ok : text_ok (text t)).

#[local] Hint Extern 1 (text_ok (string_bytes _)) => (apply symbol_ok; reflexivity) : layout.
#[local] Hint Resolve t_ok : layout.

Lemma neat_before previous r : neat (writer r) → neat (writer (before_token previous t r)).
Proof. intros H. unfold before_token. cbv zeta. destruct (is_symbol "}" t); laid_out. Qed.

Lemma neat_end_group r : neat (writer r) → neat (writer (end_group rest r)).
Proof. intros H. unfold end_group. laid_out. Qed.
#[local] Hint Resolve neat_end_group : layout.

Lemma neat_line_comment r : neat (writer r) → neat (writer (render_line_comment t rest r)).
Proof.
  intros H. unfold render_line_comment. cbv zeta. simpl.
  assert (neat (newline (write (text t) (space_if_needed (writer r))))) as Hn by eauto with layout.
  case_match; [by apply neat_end_group|]. laid_out.
Qed.

Lemma neat_block_comment r : has_line_end (text t) = false → neat (writer r) → neat (writer (render_block_comment t rest r)).
Proof.
  intros Hl H. unfold render_block_comment. cbv zeta. rewrite Hl. simpl.
  assert (neat (newline (write (text t) (space_if_needed (writer r))))) as Hn by eauto with layout.
  case_match; [|by laid_out]. case_match; [by apply neat_end_group|done].
Qed.

Lemma neat_open_brace r : neat (writer r) → neat (writer (render_open_brace t rest r)).
Proof.
  intros H. unfold render_open_brace. cbv zeta. simpl.
  assert (full (indent_more (write (string_bytes "{") (space_if_needed (writer r))))) as Hn by eauto with layout.
  destruct (has_attached_line_comment rest), (_ && _); simpl; eauto with layout.
Qed.

Lemma neat_close_brace r r' : neat (writer r) → render_close_brace t rest r = Ok r' → neat (writer r').
Proof.
  intros H. unfold render_close_brace. cbv zeta. simpl. destruct (braces r) as [|closed bs]; [done|]. destruct (brace_content r) as [|c contents]; [done|].
  assert (full (write (string_bytes "}") (indent_less (newline_if_needed (writer r))))) as Hn by eauto with layout.
  intros [= <-]. destruct (bool_decide (closed = BraceEnum)); laid_out.
Qed.

Lemma neat_open_paren r : neat (writer r) → neat (writer (render_open_paren t rest r)).
Proof.
  intros H. unfold render_open_paren. cbv zeta. simpl.
  assert (∀ b : bool, full (write (string_bytes "(") (if b then space (writer r) else writer r))) as Hn by (intros []; eauto with layout).
  case_match; simpl; eauto with layout.
Qed.

Lemma neat_close_paren r r' : neat (writer r) → render_close_paren t r = Ok r' → neat (writer r').
Proof.
  intros H. unfold render_close_paren. destruct (parens r) as [|context ps]; [done|]. cbv zeta. intros [= <-]. simpl.
  destruct (wrapped context); simpl; eauto 6 with layout.
Qed.

Lemma neat_semicolon r : neat (writer r) → neat (writer (render_semicolon t rest r)).
Proof.
  intros H. unfold render_semicolon. cbv zeta. simpl. assert (full (write (string_bytes ";") (writer r))) as Hn by eauto with layout. laid_out.
Qed.

Lemma neat_comma r : neat (writer r) → neat (writer (render_comma t rest r)).
Proof.
  intros H. unfold render_comma. cbv zeta. simpl. assert (full (write (string_bytes ",") (writer r))) as Hn by eauto with layout. laid_out.
Qed.

Lemma neat_other angles r : neat (writer r) → neat (writer (render_other angles t r)).
Proof.
  intros H. unfold render_other. cbv zeta.
  set (r1 := if _ && negb (line_is_empty (writer r)) then on_writer newline r else r).
  assert (neat (writer r1)) as H1.
  { subst r1. destruct (_ && _) eqn:E; [|done]. simpl. apply neat_newline. apply andb_true_iff in E as [_ E].
    destruct H as [Ht [Hl|Hl]]; [|by split]. unfold line_is_empty in E. by rewrite Hl in E. }
  clearbody r1. simpl.
  assert (∀ b : bool, full (write (text t) (if b then space (writer r1) else writer r1))) as Hn by (intros []; eauto with layout).
  case_match; simpl; eauto with layout.
Qed.

Lemma neat_significant angles r r' : neat (writer r) → render_significant angles t rest r = Ok r' → neat (writer r').
Proof.
  intros H. unfold render_significant. cbv zeta. match goal with |- context [note_item t ?x] => set (r0 := x) end.
  assert (neat (writer (note_item t r0))) as H0.
  { rewrite content_note. subst r0. case_match; [simpl; eauto with layout|done]. }
  revert H0. generalize (note_item t r0). clear r0. intros r0 H0.
  destruct (is_symbol "{" t); [intros [= <-]; by apply neat_open_brace|]. destruct (is_symbol "}" t); [by apply neat_close_brace|].
  destruct (is_symbol "(" t); [intros [= <-]; by apply neat_open_paren|]. destruct (is_symbol ")" t); [by apply neat_close_paren|].
  destruct (is_symbol "[" t); [intros [= <-]; simpl; eauto with layout|].
  destruct (is_symbol "]" t); [destruct (bracket_depth r0 =? 0); [done|]; intros [= <-]; simpl; eauto with layout|].
  destruct (is_symbol ";" t); [intros [= <-]; by apply neat_semicolon|]. destruct (is_symbol "," t); [intros [= <-]; by apply neat_comma|].
  destruct (is_generic_angle_token angles t); intros [= <-]; [simpl; eauto with layout|by apply neat_other].
Qed.

Lemma neat_token angles previous r r' : has_line_end (text t) = false → neat (writer r) → render_token angles previous t rest r = Ok r' → neat (writer r').
Proof.
  intros Hl H%(neat_before previous). unfold render_token. cbv zeta. revert H. generalize (before_token previous t r). clear r. intros r H.
  destruct (has_kind LineComment t); [intros [= <-]; by apply neat_line_comment|].
  destruct (has_kind BlockComment t); [intros [= <-]; by apply neat_block_comment|]. by apply neat_significant.
Qed.
End layout.

(** A token on one line. *)
Definition one_line (t : Token) : Prop := text_ok (text t) ∧ has_line_end (text t) = false.

Lemma neat_loop angles tokens : Forall one_line tokens → ∀ previous r r',
  neat (writer r) → render_loop angles previous tokens r = Ok r' → neat (writer r').
Proof.
  induction 1 as [|t tokens [Ht Hl] _ IH]; intros previous r r' H; cbn [render_loop]; [by intros [= <-]|].
  destruct (render_token angles previous t tokens r) as [r1|] eqn:E; [|done]. apply IH. by eapply neat_token.
Qed.

Lemma layout_render tokens angles out : Forall one_line tokens → render tokens angles = Ok out → canonical_layout out.
Proof.
  intros Ht. unfold render. destruct (render_loop _ _ _ _) as [r|] eqn:E; [|done]. destruct (negb (at_top r)); [done|]. destruct (negb _); [done|].
  destruct (negb _); [done|]. intros [= <-]. apply layout_finish. eapply neat_loop; [done| |done]. split; [|by left]. by split; [left|..].
Qed.

Lemma has_line_end_false s : has_line_end s = false → (NEWLINE ∉ s) ∧ RETURN ∉ s.
Proof.
  unfold has_line_end. intros H. assert (∀ b, b ∈ s → is_line_end b = false) as Hs.
  { intros b Hb%list_elem_of_In. destruct (is_line_end b) eqn:E; [|done]. assert (existsb is_line_end s = true); [|congruence].
    apply existsb_exists. by exists b. }
  split; intros Hin%Hs; done.
Qed.

(** The tokens of a scan start with a byte that is not white space. *)
Lemma scan_starts fuel source : ∀ cursor count tokens, scan_loop fuel source cursor count = Some (Ok tokens) →
  Forall (λ t, text t = [] ∨ ∃ b s, text t = b :: s ∧ is_ascii_space b = false) tokens.
Proof.
  induction fuel as [|fuel IH]; intros cursor count tokens; cbn [scan_loop]; [done|].
  destruct (drop cursor source) as [|b rest] eqn:Ed; [by intros [= <-]|]. destruct (is_ascii_space b) eqn:Eb.
  - repeat case_match; apply IH.
  - destruct (scan_token (b :: rest)) as [[k width]|e]; [|done].
    destruct (str_get source cursor (cursor + width)) as [token_text|] eqn:Eg; [|done].
    destruct (scan_loop fuel source (cursor + width) 0) as [[ts|e]|] eqn:Es; [|done|done]. simpl. intros [= <-].
    constructor; [|by eapply IH]. apply str_get_spec in Eg as [_ ->]. simpl. rewrite Ed. destruct (cursor + width - cursor); [by left|right].
    simpl. eauto.
Qed.

(** Every token has bytes. *)
Lemma operator_width_pos b l : 1 ≤ matched_operator_width (b :: l).
Proof. unfold matched_operator_width. pose proof (utf8_width_pos b). destruct l; [done|]. case_match; lia. Qed.

Lemma scan_token_width b l k width : scan_token (b :: l) = Ok (k, width) → 1 ≤ width.
Proof.
  unfold scan_token. cbv zeta.
  destruct (_ && _ && _); [intros [= <- <-]; lia|]. destruct (_ && _ && _); [destruct (comment_len _ _); [|done]; intros [= <- <-]; lia|].
  destruct (b =? QUOTE_MARK)%Z; [destruct (string_len _ _); [|done]; intros [= <- <-]; lia|].
  destruct (b =? TICK)%Z; [destruct (backtick_len _ _); [|done]; intros [= <- <-]; lia|].
  destruct (is_word_start b); [intros [= <- <-]; lia|]. destruct (is_ascii_digit b); [intros [= <- <-]; lia|]. intros [= <- <-]. apply operator_width_pos.
Qed.

Lemma scan_texts fuel source : ∀ cursor count tokens, scan_loop fuel source cursor count = Some (Ok tokens) → Forall (λ t, text t ≠ []) tokens.
Proof.
  induction fuel as [|fuel IH]; intros cursor count tokens; cbn [scan_loop]; [done|].
  destruct (drop cursor source) as [|b rest] eqn:Ed; [by intros [= <-]|]. destruct (is_ascii_space b) eqn:Eb.
  - repeat case_match; apply IH.
  - destruct (scan_token (b :: rest)) as [[k width]|e] eqn:Et; [|done].
    destruct (str_get source cursor (cursor + width)) as [token_text|] eqn:Eg; [|done].
    destruct (scan_loop fuel source (cursor + width) 0) as [[ts|e]|] eqn:Es; [|done|done]. simpl. intros [= <-].
    constructor; [|by eapply IH]. apply str_get_spec in Eg as [_ ->]. simpl. rewrite Ed. apply scan_token_width in Et.
    replace (cursor + width - cursor) with width by lia. by destruct width; [lia|].
Qed.

Lemma scan_one_line source tokens : scan source = Some (Ok tokens) → Forall (λ t, has_line_end (text t) = false) tokens → Forall one_line tokens.
Proof.
  intros Hs Hl. pose proof (scan_starts _ _ _ _ _ Hs) as Hst. pose proof (scan_texts _ _ _ _ _ Hs) as Hne. rewrite Forall_forall in *. intros t Ht.
  specialize (Hl t Ht). split; [|done]. split; [by apply has_line_end_false|]. destruct (Hst t Ht) as [?|(b & s & -> & Hb)]; [by destruct (Hne t Ht)|].
  exists b. split; [by left|]. destruct (is_blank_byte b) eqn:E; [|done]. apply blank_is_space in E. congruence.
Qed.

(** The commas of enums are on one line too. *)
Section forall_tokens.
Context (P : Token → Prop) (Pcomma : P enum_comma).

Lemma Forall_enum_variants fuel : ∀ r out out' rest', Forall P (out ++ flat r) →
  enum_variants fuel r out = Some (Ok (out', rest')) → Forall P (out' ++ rest').
Proof.
  induction fuel as [|fuel IH]; intros [[comments cursor] rest] out out' rest' HP; cbn [enum_variants]; [done|].
  destruct (is_symbol "}" cursor); [intros [= <- <-]; by unfold flat in HP; rewrite <- !app_assoc|]. destruct (negb (has_kind Word cursor)); [done|].
  destruct (next_or _ _ _) as [[core [[between delimiter] rest1]]|e] eqn:En; [|done].
  apply next_or_Ok in En as (r1 & -> & Hv%variant_value_flat). unfold flat in Hv, HP. cbn [fst snd] in *.
  change (out ++ comments ++ cursor :: r1.1.1 ++ r1.1.2 :: r1.2) with (out ++ comments ++ [cursor] ++ r1.1.1 ++ r1.1.2 :: r1.2) in HP. rewrite <- Hv in HP.
  rewrite !Forall_app, Forall_cons in HP. destruct HP as (Ho & Hc & Hcore & Hbt & Hd & Hr).
  destruct (is_symbol "," delimiter).
  - destruct (next_non_comment rest1) as [next|] eqn:Enn; [|done]. apply next_non_comment_flat in Enn as ->. apply IH.
    rewrite !Forall_app. split_and!; try done. constructor; [|done]. by destruct between.
  - destruct (_ || _); [|done]. apply IH. unfold flat. cbn [fst snd]. rewrite !Forall_app, Forall_cons. split_and!; try done. by constructor.
Qed.

Lemma Forall_canonicalize fuel : ∀ depth tokens out out', Forall P (out ++ tokens) →
  canonicalize_loop fuel depth tokens out = Some (Ok out') → Forall P out'.
Proof.
  induction fuel as [|fuel IH]; intros depth tokens out out' HP; cbn [canonicalize_loop]; [done|].
  destruct tokens as [|t tokens]; [intros [= <-]; by rewrite app_nil_r in HP|].
  destruct (_ && is_word "enum" t); [|apply IH; by rewrite <- app_assoc].
  destruct (next_non_comment tokens) as [[[c1 name] tokens1]|] eqn:E1; [|done]. apply next_non_comment_flat in E1 as ->.
  destruct (negb _); [done|]. destruct (next_non_comment tokens1) as [[[c2 open] tokens2]|] eqn:E2; [|done]. apply next_non_comment_flat in E2 as ->.
  destruct (negb _); [done|]. destruct (next_non_comment tokens2) as [r|] eqn:E3; [|done]. apply next_non_comment_flat in E3 as ->.
  destruct (enum_variants _ _ _) as [[[out1 rest1]|e]|] eqn:Ev; [|done|done]. simpl. apply IH. eapply Forall_enum_variants; [|done].
  unfold flat in HP. cbn [fst snd] in HP. by rewrite <- !app_assoc.
Qed.
End forall_tokens.

Lemma Forall_split_closers tokens angles : Forall one_line tokens → Forall one_line (split_generic_shift_closers tokens angles).
Proof.
  unfold split_generic_shift_closers. induction 1 as [|t tokens Ht _ IH]; [done|]. rewrite fmap_cons. cbn [concat]. apply Forall_app. split; [|done].
  cbv zeta. assert (text_ok (string_bytes ">")) by (by apply symbol_ok). case_match; repeat (apply Forall_cons; split; [done|]); done.
Qed.

(** A source whose line ends are line feeds keeps them. *)
Lemma line_endings_feeds fuel : ∀ source, RETURN ∉ source → Forall (λ e, e = [NEWLINE]) (line_endings fuel source).
Proof.
  induction fuel as [|fuel IH]; intros source Hr; cbn [line_endings]; [done|]. destruct source as [|b rest]; [done|].
  apply not_elem_of_cons in Hr as [Hb Hr]. destruct (Z.eqb_spec b RETURN) as [->|]; [done|]. case_match; [constructor; [done|]|]; by apply IH.
Qed.

Lemma apply_feeds formatted : ∀ endings, Forall (λ e, e = [NEWLINE]) endings → apply_line_endings formatted endings [NEWLINE] = formatted.
Proof.
  induction formatted as [|b formatted IH]; intros endings He; cbn [apply_line_endings]; [done|].
  destruct (Z.eqb_spec b NEWLINE) as [->|]; [|by rewrite IH]. destruct He as [|e endings -> He]; by rewrite IH.
Qed.

Lemma apply_source_feeds formatted source : RETURN ∉ source → apply_source_line_endings formatted source = formatted.
Proof.
  intros Hr. unfold apply_source_line_endings. cbv zeta. pose proof (line_endings_feeds (length source) source Hr) as He.
  assert (default [NEWLINE] (last (line_endings (length source) source)) = [NEWLINE]) as ->; [|by apply apply_feeds].
  destruct (last _) as [e|] eqn:El; [|done]. rewrite Forall_forall in He. simpl. apply He. by apply last_Some_elem_of.
Qed.

(** C24 The layout of a formatted source is canonical.  When the line ends of the source are
    line feeds and no token spans lines, the result ends with one line end, no line ends with
    a blank, no two empty lines follow each other and the first line is not empty. *)
Theorem formatted_layout source out tokens :
  format_source source = Some (Ok out) → RETURN ∉ source →
  scan source = Some (Ok tokens) → Forall (λ t, has_line_end (text t) = false) tokens →
  canonical_layout out.
Proof.
  intros ((written & Hf) & _)%format_source_formatted Hr Hs Hl. pose proof (scan_one_line source tokens Hs Hl) as Hone.
  apply formatted_source_spec in Hf as (angles & found & scanned & rendered & _ & Hs' & Hc & -> & Hre & ->). simplify_eq.
  rewrite apply_source_feeds by done. eapply layout_render; [|done]. apply Forall_split_closers. unfold canonicalize_enum_commas in Hc.
  refine (Forall_canonicalize one_line _ _ 0 found [] scanned Hone Hc). split; [by apply (symbol_ok ",")|done].
Qed.

(** ** The formatter answers *)

Lemma scan_answers fuel source : ∀ cursor count, length source - cursor < fuel → is_Some (scan_loop fuel source cursor count).
Proof.
  induction fuel as [|fuel IH]; intros cursor count Hf; [lia|]. cbn [scan_loop].
  destruct (drop cursor source) as [|b rest] eqn:Ed; [done|].
  assert (cursor < length source) as Hc. { assert (length (drop cursor source) ≠ 0) as H by (by rewrite Ed). rewrite length_drop in H. lia. }
  destruct (is_ascii_space b); [repeat case_match; apply IH; lia|]. destruct (scan_token (b :: rest)) as [[k width]|e] eqn:Et; [|done].
  apply scan_token_width in Et. destruct (str_get _ _ _); [|done]. destruct (IH (cursor + width) 0 ltac:(lia)) as [[ts|e] ->]; done.
Qed.

Lemma flat_length r : length (flat r) = length r.1.1 + S (length r.2).
Proof. unfold flat. by rewrite length_app. Qed.

Lemma next_non_comment_length tokens r : next_non_comment tokens = Some r → length r.2 < length tokens.
Proof. intros ->%next_non_comment_flat. rewrite flat_length. lia. Qed.

(** The tokens after a variant are fewer than those before it. *)
Lemma variant_length tokens cursor core r' :
  next_or missing_brace tokens (λ r, variant_value [cursor] r) = Ok (core, r') → length (flat r') ≤ length tokens.
Proof.
  intros ([[between delimiter] rest] & -> & H)%next_or_Ok. unfold variant_value in H.
  destruct (is_symbol "=" delimiter); [|injection H as <- <-; rewrite !flat_length; simpl; lia].
  apply next_or_Ok in H as ([[c1 t1] rest1] & -> & H). destruct (is_symbol "-" t1).
  - apply next_or_Ok in H as ([[c2 t2] rest2] & -> & H). destruct (has_kind Number t2); [|done].
    apply next_or_Ok in H as (r2 & -> & H). injection H as <- <-. do 5 (rewrite ?flat_length; cbn [fst snd]). lia.
  - destruct (has_kind Number t1); [|done]. apply next_or_Ok in H as (r1 & -> & H). injection H as <- <-.
    do 5 (rewrite ?flat_length; cbn [fst snd]). lia.
Qed.

Lemma enum_variants_answers fuel : ∀ r out, length r.2 < fuel →
  ∃ x, enum_variants fuel r out = Some x ∧ ∀ p, x = Ok p → length p.2 ≤ length r.2.
Proof.
  induction fuel as [|fuel IH]; intros [[comments cursor] rest] out Hf; [lia|]. cbn [enum_variants]. cbn [fst snd] in *.
  destruct (is_symbol "}" cursor); [eexists; split; [done|]; by intros p [= <-]|]. destruct (negb _); [by eexists|].
  destruct (next_or _ _ _) as [[core [[between delimiter] rest1]]|e] eqn:En; [|by eexists].
  apply variant_length in En. rewrite flat_length in En. cbn [fst snd] in En.
  destruct (is_symbol "," delimiter).
  - destruct (next_non_comment rest1) as [next|] eqn:Enn; [|by eexists]. apply next_non_comment_length in Enn.
    edestruct (IH next) as (x & -> & Hx); [lia|]. exists x. split; [done|]. intros p Hp%Hx. lia.
  - destruct (_ || _); [|by eexists]. edestruct (IH (between, delimiter, rest1)) as (x & -> & Hx); [simpl; lia|]. exists x. split; [done|].
    intros p Hp%Hx. simpl in Hp. lia.
Qed.

Lemma canonicalize_answers fuel : ∀ depth tokens out, length tokens < fuel → is_Some (canonicalize_loop fuel depth tokens out).
Proof.
  induction fuel as [|fuel IH]; intros depth tokens out Hf; [lia|]. cbn [canonicalize_loop]. destruct tokens as [|t tokens]; [done|]. cbn [length] in Hf.
  destruct (_ && _); [|apply IH; lia]. destruct (next_non_comment tokens) as [[[c1 name] tokens1]|] eqn:E1; [|done]. apply next_non_comment_length in E1.
  destruct (negb _); [done|]. destruct (next_non_comment tokens1) as [[[c2 open] tokens2]|] eqn:E2; [|done]. apply next_non_comment_length in E2.
  destruct (negb _); [done|]. destruct (next_non_comment tokens2) as [r|] eqn:E3; [|done]. apply next_non_comment_length in E3. cbn [fst snd] in *.
  edestruct (enum_variants_answers fuel r) as (x & -> & Hx); [lia|]. destruct x as [[out1 rest1]|e]; [|done].
  specialize (Hx _ eq_refl). cbn [fst snd] in Hx. simpl. apply IH. simpl. lia.
Qed.

(** An ASCII source. *)
Definition ascii (s : str) : Prop := Forall (λ b, (0 <= b < 128)%Z) s.

Lemma ascii_boundary (s : list Z) i : ascii s → i ≤ length s → Lexer.is_char_boundary s i = true.
Proof.
  intros Ha Hi. unfold Lexer.is_char_boundary. destruct (s !! i) as [b|] eqn:E.
  - unfold ascii in Ha. rewrite Forall_lookup in Ha. specialize (Ha i b E). unfold Lexer.is_continuation. replace (128 <=? b)%Z with false by (symmetry; apply Z.leb_gt; lia); done.
  - apply lookup_ge_None in E. apply Nat.eqb_eq. lia.
Qed.

Lemma lexed_inside s ts t : lex_with_diagnostic s = Some (Ok ts) → t ∈ ts → Lexer.start t ≤ length s ∧ Lexer.end_ t ≤ length s.
Proof.
  intros E%lex_Ok_lexed Ht. destruct (lexed_layout _ _ _ E) as (ts' & -> & Hf & _). apply elem_of_app in Ht as [Ht|Ht%list_elem_of_singleton].
  - rewrite Forall_forall in Hf. destruct (Hf t Ht) as (_ & ? & ?). lia.
  - subst t. simpl. lia.
Qed.

Lemma ascii_sliceable s : ascii s → sliceable s.
Proof.
  intros Ha. split.
  - apply ascii_source, forallb_forall. intros b Hb%list_elem_of_In. unfold ascii in Ha. rewrite Forall_forall in Ha. specialize (Ha b Hb).
    apply andb_true_iff. rewrite Z.leb_le, Z.ltb_lt. done.
  - intros ts t Hl Ht _. destruct (lexed_inside s ts t Hl Ht). split; by apply ascii_boundary.
Qed.

Lemma angle_answers source : sliceable source → is_Some (generic_angle_ranges source).
Proof.
  intros Hs. apply pass_total; [done|]. intros ts Hts. assert (is_Some (angle_ranges source [] ts [])) as [x ->]; [|done]. by apply angle_ranges_total.
Qed.

Lemma compiler_tokens_answer s : ascii s → is_Some (compiler_tokens_without_enum_commas s).
Proof.
  intros Ha. unfold compiler_tokens_without_enum_commas, lex_text, lex. destruct (lex_spec s) as ([ts|e] & Hlex & _); rewrite Hlex; simpl; [|done].
  destruct (forallb _ _) eqn:Ef; [done|]. assert (forallb (λ t, Lexer.is_char_boundary s (Lexer.start t) && Lexer.is_char_boundary s (Lexer.end_ t)) ts = true); [|congruence].
  apply forallb_forall. intros t Ht%list_elem_of_In. destruct (lexed_inside s ts t Hlex Ht). apply andb_true_iff. split; by apply ascii_boundary.
Qed.

(** What is written for an ASCII source is ASCII. *)
Lemma ascii_plain s out : ascii s → plain out = plain s → ascii out.
Proof.
  unfold ascii. rewrite !Forall_forall. intros Ha Hp b Hb. destruct (is_ascii_space b) eqn:Es.
  { unfold is_ascii_space in Es. to_props. lia. }
  destruct (decide (b = 44%Z)) as [->|Hn]; [lia|]. apply Ha. assert (b ∈ plain out) as Hin by (apply list_elem_of_filter; split; [done|]; by apply list_elem_of_filter).
  rewrite Hp in Hin. by apply list_elem_of_filter in Hin as [_ [_ Hin]%list_elem_of_filter].
Qed.

Lemma formatted_answers source : ascii source → is_Some (formatted_source source).
Proof.
  intros Ha. unfold formatted_source. destruct (angle_answers source (ascii_sliceable _ Ha)) as [[angles|e] ->]; [|done].
  destruct (scan_answers (S (length source)) source 0 0 ltac:(lia)) as [x Hx]. unfold scan. rewrite Hx. destruct x as [found|e]; [|done].
  destruct (canonicalize_answers (S (length found)) 0 found [] ltac:(lia)) as [y Hy]. unfold canonicalize_enum_commas. cbn [parse_bind mbind option_bind]. rewrite Hy.
  destruct y as [scanned|e]; [|done]. cbn [parse_bind mbind option_bind]. by destruct (render _ _).
Qed.

(** The formatter always answers.  For every ASCII source no loop of the formatter lacks
    fuel and no slice is taken inside a character: the result is the formatted source or an
    error. *)
Theorem formatter_answers source : ascii source → is_Some (format_source source).
Proof.
  intros Ha. unfold format_source. destruct (formatted_answers source Ha) as [[[tokens formatted]|e] Hf]; rewrite Hf; [|done].
  assert (ascii formatted) as Hb.
  { apply (ascii_plain source); [done|]. pose proof Hf as (angles & found & scanned & rendered & _ & Hs & _)%formatted_source_spec. by eapply formatted_bytes. }
  cbn [parse_bind mbind option_bind]. destruct (angle_answers formatted (ascii_sliceable _ Hb)) as [[angles|e] ->]; [|done].
  cbn [parse_bind mbind option_bind]. unfold scan. destruct (scan_answers (S (length formatted)) formatted 0 0 ltac:(lia)) as [[found|e] ->]; [|done].
  cbn [parse_bind mbind option_bind]. cbv zeta. destruct (negb _); [done|].
  destruct (compiler_tokens_answer source Ha) as [[old|e] ->]; [|done]. cbn [parse_bind mbind option_bind].
  destruct (compiler_tokens_answer formatted Hb) as [[new|e] ->]; [|done]. cbn [parse_bind mbind option_bind]. by case_bool_decide.
Qed.

(** *** A concrete source *)
Definition sample : str := string_bytes "struct P{x:i32;y:f32;}enum A{B=1 C,D=-2}global p:P;function main(){if(p.x<=1){p.y=2.5;}}".
Definition sample_formatted : str := match format_source sample with Some (Ok s) => s | _ => [] end.
Definition sample_tokens : list Token := match scan sample with Some (Ok l) => l | _ => [] end.

Lemma formatting_keeps_source_witness : plain sample_formatted = plain sample.
Proof.
  assert (format_source sample = Some (Ok sample_formatted)) as H by (vm_compute; reflexivity).
  exact (proj1 (formatting_keeps_source sample sample_formatted H)).
Defined.

Lemma formatted_layout_witness : canonical_layout sample_formatted.
Proof.
  apply (formatted_layout sample sample_formatted sample_tokens); [vm_compute; reflexivity| |vm_compute; reflexivity|].
  - apply (bool_decide_unpack (RETURN ∉ sample)). vm_compute. exact I.
  - apply (bool_decide_unpack (Forall (λ t, has_line_end (text t) = false) sample_tokens)). vm_compute. exact I.
Defined.

Lemma formatter_answers_witness : is_Some (format_source sample).
Proof.
  apply formatter_answers, (bool_decide_unpack (Forall (λ b, (0 <= b < 128)%Z) sample)). vm_compute. exact I.
Defined.

(** The text of the formatted source. *)
Example sample_text : sample_formatted = concat ((λ l, string_bytes l ++ [NEWLINE]) <$>
  ["struct P {"; "    x: i32;"; "    y: f32;"; "}"; ""; "enum A {"; "    B = 1,"; "    C,"; "    D = -2,"; "}"; ""; "global p: P;"; "";
   "function main() {"; "    if (p.x <= 1) {"; "        p.y = 2.5;"; "    }"; "}"]%string).
Proof. by vm_compute. Qed.

(** A comment whose line ends with a blank: the formatter drops the blank, which is a part of
    the comment token, and then refuses its own result. *)
Example trailing_blank_refused :
  let source := string_bytes "// note " ++ [NEWLINE] ++ string_bytes "global a: i32;" ++ [NEWLINE] in
  let block := string_bytes "/* note " ++ [NEWLINE] ++ string_bytes "*/" ++ [NEWLINE] ++ string_bytes "global a: i32;" ++ [NEWLINE] in
  format_source source = Some (Err (string_bytes "formatter changed the Stasis token stream")) ∧
  format_source block = Some (Err (string_bytes "formatter changed the Stasis token stream")).
Proof. by vm_compute. Qed.
