(* ===== verification/EffectContracts.v ===== *)
(** * Effect contracts

    Models [crates/stasis_compiler/src/data_flow/effect_contracts.rs] and the summaries of
    [build_function_data_flow_summaries] (data_flow.rs): a function whose contract names
    regions and capabilities may write those regions and use those capabilities only, also
    through the functions it calls.

    [None] is an index out of range, where the code panics, or a lack of fuel.  The set
    [visiting] is passed down: the code takes out again what it put in. *)

From S2P Require Import Prelude BTree Lexer Identity Text Imports Functions ParserLayout Effects.
From S2P Require StateMigration RecordState.
#[local] Open Scope nat_scope.
#[local] Set Warnings "-register-all".

(** ** Summaries *)

Inductive ParameterStorageKind := Dynamic | Aos | Soa.

Record FunctionDataFlowSummary := mkSummary {
  fs_schema_version : Z;
  fs_function : str;
  fs_file : str;
  fs_source_start : Z;
  fs_source_end : Z;
  fs_signature_hash : str;
  fs_direct : FunctionDataFlowEffects;
  fs_aggregate : FunctionDataFlowEffects;
  internal_direct_fingerprint : Z;
  internal_syntax_fingerprint : Z;
  internal_function_id : nat;
  internal_signature_hash : Z;
  parameter_storage_kinds : list ParameterStorageKind;
  internal_call_sites : list CallSite;
  internal_direct_write_paths : list str;
  internal_aggregate_write_paths : list str;
}.

Definition FUNCTION_DATA_FLOW_SCHEMA_VERSION : Z := 3.

(** The dense position of a function. *)
Definition dense_position (f : FunctionMeta) : nat := Z.to_nat (storage_index f).

Section summaries.
Context (files : list SourceFile) (direct_by_id aggregate_by_id : list EffectSets).
(** The hashes of the effects and of the statements, and the storage of the parameters. *)
Context (effect_fingerprint : EffectSets → Z) (effect_syntax_fingerprint : nat → Z).
Context (storage_kinds : list (list ParameterStorageKind)).

(** The summary of a function whose effects were analysed. *)
Definition summarize (f : FunctionMeta) : option FunctionDataFlowSummary :=
  file ← files !! Z.to_nat (file_id f);
  direct ← direct_by_id !! dense_position f;
  aggregate ← aggregate_by_id !! dense_position f;
  Some (mkSummary FUNCTION_DATA_FLOW_SCHEMA_VERSION (name f) (sf_path file) (source_range f).1 (source_range f).2
    (RecordState.hex_fixed 8 (signature_hash f)) (to_effects direct (param_names f)) (to_effects aggregate (param_names f))
    (effect_fingerprint direct) (effect_syntax_fingerprint (dense_position f)) (dense_position f) (signature_hash f)
    (default [] (storage_kinds !! dense_position f)) (site_list direct)
    (writes direct ++ parameter_writes direct) (writes aggregate ++ parameter_writes aggregate)).

(** The order of the summaries: by file, then position, then name. *)
Definition summary_leb (a b : FunctionDataFlowSummary) : bool :=
  match cmp (fs_file a, (fs_source_start a, fs_function a)) (fs_file b, (fs_source_start b, fs_function b)) with
  | Gt => false | _ => true
  end.

Definition build_summaries (included_function_ids : list FunctionId) (functions : list FunctionMeta) :
    option (list FunctionDataFlowSummary) :=
  sort_by summary_leb <$> mapM summarize (filter (λ f, id f ∈ included_function_ids) functions).
End summaries.

(** ** Regions *)

Definition OPEN_BRACKET : Z := 91.

(** An array type: its element type and its capacity. *)
Definition split_array_type (type_name : str) : option (str * str) :=
  let trimmed := trim type_name in
  open ← rfind_byte OPEN_BRACKET trimmed;
  let last := length trimmed - 1 in
  if (S open <=? last) && ends_with (string_bytes "]") trimmed
  then Some (trim (take open trimmed), trim (take (last - S open) (drop (S open) trimmed)))
  else None.

(** [path.split(['.', '[']).next()] *)
Fixpoint root_name (path : str) : str :=
  match path with
  | [] => []
  | b :: path => if (b =? DOT)%Z || (b =? OPEN_BRACKET)%Z then [] else b :: root_name path
  end.

Definition is_host_capability (value : str) : bool :=
  existsb (λ c, bool_decide (value = string_bytes c))
    ["graphics"; "audio"; "storage"; "network"; "nondeterministic"; "platform"; "memory"; "code_swap"]%string.

Fixpoint collect_declared_regions (fuel : nat) (path type_name : str) (structs : list (str * list ParsedField))
    (visiting regions : list str) : option (list str) :=
  match fuel with
  | O => None
  | S fuel' =>
      let regions := set_insert path regions in
      let element_type := default type_name (fst <$> split_array_type type_name) in
      if bool_decide (element_type ∈ visiting) then Some regions
      else
        foldl (λ acc field, regions ← acc;
            collect_declared_regions fuel' (path ++ DOT :: field_name field) (field_type_name field) structs
              (set_insert element_type visiting) regions)
          (Some regions) (default [] (map_get element_type structs))
  end.

Definition region_contains (region path : str) : bool :=
  bool_decide (path = region)
  || match strip_prefix region path with
     | Some (b :: _) => (b =? DOT)%Z || (b =? OPEN_BRACKET)%Z
     | _ => false
     end.

Definition write_is_allowed (path : str) (regions contract : list str) (capability_globals : list (str * list str)) : bool :=
  existsb (λ region, region_contains region path) regions
  || existsb (λ capability, match map_get capability capability_globals with
                            | Some globals => bool_decide (root_name path ∈ globals)
                            | None => false
                            end) contract.

(** The files with a layout, and the structs of all of them. *)
Fixpoint collect_layouts (files : list SourceFile) (structs : list (str * list ParsedField))
    (layouts : list (SourceFile * ParsedTypeLayout)) : option (list (str * list ParsedField) * list (SourceFile * ParsedTypeLayout)) :=
  match files with
  | [] => Some (structs, layouts)
  | file :: files =>
      r ← parse_top_level_type_layout (sf_content file);
      match r with
      | Err _ => collect_layouts files structs layouts
      | Ok layout =>
          collect_layouts files
            (foldl (λ m s, map_insert (struct_name s) (struct_fields s) m) structs (pl_structs layout)) (layouts ++ [(file, layout)])
      end
  end.

(** The capability that owns the globals of a file. *)
Definition owned_capability (file : SourceFile) : option str :=
  let normalized_path := replace_byte BACKSLASH [SEP] (sf_path file) in
  if ends_with (string_bytes "stdlib/internal/gfx_cmd.stasis") normalized_path then Some (string_bytes "graphics")
  else if ends_with (string_bytes "stdlib/internal/host_window_request.stasis") normalized_path then Some (string_bytes "platform")
  else None.

Section declared.
Context (structs : list (str * list ParsedField)).

Definition region_fuel : nat := S (S (length structs)).
Definition declare_region (path type_name : str) (regions : list str) : option (list str) :=
  collect_declared_regions region_fuel path type_name structs [] regions.

Definition declare_block (regions : option (list str)) (block : ParsedGlobalBlockDefinition) : option (list str) :=
  regions ← regions;
  foldl (λ acc field, regions ← acc; declare_region (block_name block ++ DOT :: field_name field) (field_type_name field) regions)
    (Some (set_insert (block_name block) regions)) (block_fields block).

Definition declare_layout (st : option (list (str * list str) * list str)) (p : SourceFile * ParsedTypeLayout) :
    option (list (str * list str) * list str) :=
  '(capability_globals, regions) ← st;
  let capability_globals :=
    match owned_capability p.1 with
    | Some capability =>
        map_insert capability (extend (global_name <$> pl_globals p.2) (default [] (map_get capability capability_globals)))
          capability_globals
    | None => capability_globals
    end in
  regions ← foldl (λ acc global, regions ← acc; declare_region (global_name global) (global_type_name global) regions)
    (Some regions) (pl_globals p.2);
  regions ← foldl declare_block (Some regions) (pl_global_blocks p.2);
  Some (capability_globals, regions).
End declared.

(** The globals of each capability, and the declared regions. *)
Definition declared_regions (files : list SourceFile) : option (list (str * list str) * list str) :=
  '(structs, layouts) ← collect_layouts files [] [];
  foldl (declare_layout structs) (Some ([], [])) layouts.

(** ** Call chains *)

Section chains.
Context (summaries : list FunctionDataFlowSummary).

Definition summary_by_id : list (nat * FunctionDataFlowSummary) :=
  map_of_list ((λ s, (internal_function_id s, s)) <$> summaries).

Definition summary_of (f : nat) : option FunctionDataFlowSummary := map_get f summary_by_id.

(** [for call_site in &summary.internal_call_sites]: the first site with a chain, or the
    function alone. *)
Fixpoint search_sites (chain_of : CallSite → option (option (list nat))) (current : nat) (sites : list CallSite) : option (list nat) :=
  match sites with
  | [] => Some [current]
  | s :: sites =>
      r ← chain_of s;
      match r with
      | Some chain => Some (current :: chain)
      | None => search_sites chain_of current sites
      end
  end.

(** From a function to one that [originates] the effect, through functions that contain it. *)
Fixpoint effect_call_chain (fuel : nat) (contains originates : FunctionDataFlowSummary → bool) (visiting : list nat) (current : nat) :
    option (list nat) :=
  match fuel with
  | O => None
  | S fuel' =>
      if bool_decide (current ∈ visiting) then Some [current]
      else
        match summary_of current with
        | None => Some [current]
        | Some summary =>
            if originates summary then Some [current]
            else
              search_sites (λ s,
                match summary_of (target_id s) with
                | None => Some None
                | Some child_summary =>
                    if negb (contains child_summary) && negb (originates child_summary) then Some None
                    else
                      chain ← effect_call_chain fuel' contains originates (set_insert current visiting) (target_id s);
                      Some (if default false (id ← last chain; originates <$> summary_of id) then Some chain else None)
                end) current (internal_call_sites summary)
        end
  end.

Definition writes_directly (path : str) (summary : FunctionDataFlowSummary) : bool :=
  bool_decide (path ∈ internal_direct_write_paths summary).

(** From a function that writes a path to one that writes it itself, with the path in each. *)
Fixpoint write_call_chain (fuel : nat) (visiting : list (nat * str)) (current : nat) (path : str) : option (list nat) :=
  match fuel with
  | O => None
  | S fuel' =>
      if bool_decide ((current, path) ∈ visiting) then Some [current]
      else
        match summary_of current with
        | None => Some [current]
        | Some summary =>
            if writes_directly path summary then Some [current]
            else
              search_sites (λ s,
                match summary_of (target_id s) with
                | None => Some None
                | Some child =>
                    match list_find (λ candidate, substitute_path candidate (substitutions_of (arguments s)) false = Some path)
                            (internal_aggregate_write_paths child) with
                    | None => Some None
                    | Some (_, child_path) =>
                        chain ← write_call_chain fuel' (set_insert (current, path) visiting) (target_id s) child_path;
                        Some (if (1 <? length chain) || writes_directly child_path child then Some chain else None)
                    end
                end) current (internal_call_sites summary)
        end
  end.

Definition effect_chain_fuel : nat := S (S (length summaries)).
Definition write_chain_fuel : nat := S (S (sum_list_with (λ s, S (length (internal_aggregate_write_paths s))) summaries)).

Definition display_call_chain (chain : list nat) : str :=
  join_with (string_bytes " -> ") (omap (λ f, fs_function <$> summary_of f) chain).
End chains.

(** ** Validation *)

Record EffectContractViolation := mkViolation {
  ev_file : str;
  ev_source_start : Z;
  ev_source_end : Z;
  ev_function : str;
  ev_message : str;
}.

(** Text with its parameters. *)
Definition text (parts : list (str + string)) : str := concat ((λ p, match p with inl s => s | inr s => string_bytes s end) <$> parts).

Section validation.
Context (files : list SourceFile) (summaries : list FunctionDataFlowSummary).

Definition contract_violation (boundary : FunctionMeta) (message : str) : option EffectContractViolation :=
  file ← files !! Z.to_nat (file_id boundary);
  Some (mkViolation (sf_path file) (signature_range boundary).1 (signature_range boundary).2 (name boundary) message).

Context (capability_globals : list (str * list str)) (regions : list str).

Definition unknown_region (region : str) : bool := negb (is_host_capability region) && negb (bool_decide (region ∈ regions)).

Definition allowed_regions (contract : list str) : list str := filter (λ region, is_host_capability region = false) contract.

Definition rejected_write (contract : list str) (path : str) : bool :=
  negb (write_is_allowed path (allowed_regions contract) contract capability_globals).

Definition rejected_host_effect (contract : list str) (effect : FunctionHostEffect) : bool :=
  bool_decide (hf_capability effect = string_bytes "unknown") || negb (bool_decide (hf_capability effect ∈ contract)).

(** What the chains look for. *)
Definition contains_effect (effect : FunctionHostEffect) (candidate : FunctionDataFlowSummary) : bool :=
  bool_decide (effect ∈ pe_host_effects (fs_aggregate candidate)).
Definition originates_effect (effect : FunctionHostEffect) (candidate : FunctionDataFlowSummary) : bool :=
  bool_decide (effect ∈ pe_host_effects (fs_direct candidate)).
Definition contains_parameter_write (path : str) (candidate : FunctionDataFlowSummary) : bool :=
  bool_decide (path ∈ pe_parameter_writes (fs_aggregate candidate)).
Definition originates_parameter_write (candidate : FunctionDataFlowSummary) : bool :=
  negb (bool_decide (pe_parameter_writes (fs_direct candidate) = [])).

(** The first rule of a contract that a function breaks: the start of the message, and the
    chain that the message ends with, unless the contract itself is wrong. *)
Definition broken_rule (boundary : FunctionMeta) (contract : list str) (summary : FunctionDataFlowSummary) :
    option (option str) :=
  let on := text [inr "effect contract on '"; inl (name boundary); inr "' "]%string in
  let chain_text chain := text [inr "originating operation is reachable through "; inl (display_call_chain summaries chain)]%string in
  match list_find (λ region, unknown_region region = true) contract with
  | Some (_, region) => Some (Some (text [inl on; inr "names unknown global region '"; inl region; inr "'"]%string))
  | None =>
  match list_find (λ path, rejected_write contract path = true) (pe_writes (fs_aggregate summary)) with
  | Some (_, path) =>
      chain ← write_call_chain summaries (write_chain_fuel summaries) [] (dense_position boundary) path;
      Some (Some (text [inl on; inr "rejects write '"; inl path; inr "'; "; inl (chain_text chain)]%string))
  | None =>
  match pe_parameter_writes (fs_aggregate summary) with
  | path :: _ =>
      chain ← effect_call_chain summaries (effect_chain_fuel summaries)
        (contains_parameter_write path) originates_parameter_write [] (dense_position boundary);
      Some (Some (text [inl on; inr "rejects write through parameter '"; inl path;
        inr "': its global region is not proven; "; inl (chain_text chain)]%string))
  | [] =>
  match list_find (λ effect, rejected_host_effect contract effect = true) (pe_host_effects (fs_aggregate summary)) with
  | Some (_, effect) =>
      chain ← effect_call_chain summaries (effect_chain_fuel summaries)
        (contains_effect effect) (originates_effect effect) [] (dense_position boundary);
      Some (Some (text [inl on; inr "rejects host effect '"; inl (hf_capability effect); inr "' from '";
        inl (hf_function effect); inr "'; "; inl (chain_text chain)]%string))
  | None => Some None
  end end end end.

(** [for boundary in functions] *)
Fixpoint validate_functions (functions : list FunctionMeta) : option (Result unit EffectContractViolation) :=
  match functions with
  | [] => Some (Ok tt)
  | boundary :: functions =>
      match effect_contract boundary, summary_of summaries (dense_position boundary) with
      | Some contract, Some summary =>
          broken ← broken_rule boundary contract summary;
          match broken with
          | Some message => Err <$> contract_violation boundary message
          | None => validate_functions functions
          end
      | _, _ => validate_functions functions
      end
  end.
End validation.

Definition validate_effect_contracts (files : list SourceFile) (functions : list FunctionMeta)
    (summaries : list FunctionDataFlowSummary) : option (Result unit EffectContractViolation) :=
  '(capability_globals, regions) ← declared_regions files;
  validate_functions files summaries capability_globals regions functions.
