(* ===== verification/EffectContractsProps.v ===== *)
(** * Effect contracts: what an accepted contract bounds

    Validation always answers; a chain of functions in a message is a chain of calls; and
    what a function with an accepted contract does, also through the functions it calls, is
    within its contract, but for writes whose path is lost at an unknown argument.  The
    samples at the end show such a write, and chains that do not lead to the write of their
    message. *)

From stdpp Require Import relations.
From S2P Require Import Prelude BTree Worklist Documents Lexer Identity Text Imports Functions ParserLayout ParserTotal ParserPasses.
From S2P Require Import Effects EffectComponents EffectProps EffectContracts.
#[local] Open Scope nat_scope.
#[local] Set Warnings "-clear-no-such-hyp".

(** ** Declared regions *)

Lemma foldl_option_total {A B} (f : B → A → option B) (l : list A) : (∀ b x, x ∈ l → is_Some (f b x)) → ∀ b,
  is_Some (foldl (λ acc x, b ← acc; f b x) (Some b) l).
Proof.
  intros Hf. induction l as [|x l IH]; intros b; cbn [foldl mbind option_bind]; [done|].
  destruct (Hf b x ltac:(by left)) as [b' ->]. apply IH. intros. apply Hf. by right.
Qed.

Lemma map_get_in_keys `{OrdKey K} {V} (k : K) (v : V) (m : list (K * V)) : map_get k m = Some v → k ∈ m.*1.
Proof.
  induction m as [|[k' v'] m IH]; [done|]. rewrite fmap_cons. cbn [map_get fst]. destruct (cmp k k') eqn:Ec; intros Hm.
  - apply cmp_eq in Ec as ->. by left.
  - done.
  - right. by apply IH.
Qed.

Section regions.
Context (structs : list (str * list ParsedField)).

Definition types_left (visiting : list str) : nat := weight_left (λ k : str, k) (λ _, 1) structs.*1 visiting.

Lemma collect_regions_total fuel : ∀ path type_name visiting regions,
  types_left visiting < fuel → is_Some (collect_declared_regions fuel path type_name structs visiting regions).
Proof.
  induction fuel as [|fuel IH]; intros path type_name visiting regions Hf; [lia|]. cbn [collect_declared_regions]. cbv zeta.
  set (element := default type_name _). case_bool_decide as Hv; [done|].
  destruct (map_get element structs) as [fields|] eqn:E; [|done]. cbn [default from_option id].
  apply (foldl_option_total (λ regions field, collect_declared_regions fuel (path ++ DOT :: field_name field) (field_type_name field) structs
    (set_insert element visiting) regions)).
  intros regions' field _. apply IH.
  assert (element ∈ structs.*1) as Hin.
  { by eapply map_get_in_keys. }
  pose proof (weight_left_visit (λ k : str, k) (λ _, 1) structs.*1 visiting (set_insert element visiting) element Hin Hv) as Hw.
  unfold types_left in *. specialize (Hw ltac:(intros k Hk; apply elem_of_set_insert; by right) ltac:(apply elem_of_set_insert; by left)). lia.
Qed.

Lemma declare_region_total path type_name regions : is_Some (declare_region structs path type_name regions).
Proof.
  apply collect_regions_total. unfold types_left, region_fuel. pose proof (weight_left_total (λ k : str, k) (λ _, 1) structs.*1 []) as H.
  rewrite sum_ones, length_fmap in H. lia.
Qed.

Lemma declare_block_total regions block : is_Some (declare_block structs (Some regions) block).
Proof.
  unfold declare_block. cbn [mbind option_bind].
  apply (foldl_option_total (λ regions field, declare_region structs (block_name block ++ DOT :: field_name field) (field_type_name field) regions)).
  intros. apply declare_region_total.
Qed.

Lemma declare_layout_total st p : is_Some (declare_layout structs (Some st) p).
Proof.
  destruct st as [globals regions]. unfold declare_layout. cbn [mbind option_bind]. cbv zeta.
  destruct (foldl_option_total (λ regions global, declare_region structs (global_name global) (global_type_name global) regions) (pl_globals p.2)
    ltac:(intros; apply declare_region_total) regions) as [regions1 ->]. cbn [mbind option_bind].
  assert (∀ l regions, is_Some (foldl (declare_block structs) (Some regions) l)) as Hb.
  { induction l as [|b l IH]; intros r; cbn [foldl]; [done|]. destruct (declare_block_total r b) as [r' ->]. apply IH. }
  by destruct (Hb (pl_global_blocks p.2) regions1) as [regions2 ->].
Qed.
End regions.

Lemma declared_regions_total files : Forall (λ f, sliceable (sf_content f)) files → is_Some (declared_regions files).
Proof.
  intros Hf. unfold declared_regions.
  assert (∀ structs layouts, is_Some (collect_layouts files structs layouts)) as Hc.
  { induction Hf as [|f files Hs _ IH]; intros structs layouts; cbn [collect_layouts]; [done|].
    destruct (layout_total _ Hs) as [[layout|e] ->]; apply IH. }
  destruct (Hc [] []) as [[structs layouts] ->]. cbn [mbind option_bind].
  assert (∀ l st, is_Some (foldl (declare_layout structs) (Some st) l)) as Hl; [|apply Hl].
  induction l as [|p l IH]; intros st; cbn [foldl]; [done|]. destruct (declare_layout_total structs st p) as [st' ->]. apply IH.
Qed.

(** ** Call chains *)

Section chains.
Context (summaries : list FunctionDataFlowSummary).
#[local] Abbreviation summary f := (summary_of summaries f).

Lemma summary_of_id f s : summary f = Some s → s ∈ summaries ∧ internal_function_id s = f.
Proof.
  unfold summary_of, summary_by_id. rewrite map_get_of_list. destruct (list_find _ _) as [[i [k v]]|] eqn:E; [|done].
  intros [= <-]. apply list_find_Some in E as (Hi & Hk & _). apply list_elem_of_lookup_2 in Hi.
  rewrite elem_of_reverse, list_elem_of_fmap in Hi. destruct Hi as (s' & [= -> ->] & Hs). done.
Qed.

Lemma summary_of_total s : s ∈ summaries → NoDup (internal_function_id <$> summaries) → summary (internal_function_id s) = Some s.
Proof.
  intros Hs Hnd. destruct (summary (internal_function_id s)) as [s'|] eqn:E.
  - apply summary_of_id in E as [Hs' He]. apply list_elem_of_lookup in Hs as [i Hi], Hs' as [j Hj].
    assert (i = j) as ->; [|by simplify_eq]. eapply NoDup_lookup; [exact Hnd|by rewrite list_lookup_fmap, Hi|by rewrite list_lookup_fmap, Hj, <- He].
  - exfalso. unfold summary_of, summary_by_id in E. rewrite map_get_of_list in E. apply fmap_None, list_find_None in E.
    rewrite Forall_forall in E. apply (E (internal_function_id s, s)); [|done]. apply elem_of_reverse, list_elem_of_fmap. by exists s.
Qed.

(** The searches end. *)
Lemma search_sites_total chain_of current sites : (∀ s, s ∈ sites → is_Some (chain_of s)) → is_Some (search_sites chain_of current sites).
Proof.
  induction sites as [|s sites IH]; intros Hc; cbn [search_sites]; [done|].
  destruct (Hc s ltac:(by left)) as [[chain|] ->]; cbn [mbind option_bind]; [done|]. apply IH. intros. apply Hc. by right.
Qed.

Definition functions_left (visiting : list nat) : nat := weight_left internal_function_id (λ _, 1) summaries visiting.

Lemma effect_chain_total contains originates fuel : ∀ visiting current,
  functions_left visiting < fuel → is_Some (effect_call_chain summaries fuel contains originates visiting current).
Proof.
  induction fuel as [|fuel IH]; intros visiting current Hf; [lia|]. cbn [effect_call_chain]. case_bool_decide as Hv; [done|].
  destruct (summary current) as [s|] eqn:Es; [|done]. destruct (originates s); [done|]. apply search_sites_total. intros site _.
  destruct (summary (target_id site)) as [child|]; [|done]. destruct (_ && _); [done|].
  destruct (IH (set_insert current visiting) (target_id site)) as [chain ->]; [|done].
  apply summary_of_id in Es as [Hs He].
  pose proof (weight_left_visit internal_function_id (λ _, 1) summaries visiting (set_insert current visiting) s Hs) as Hw. rewrite He in Hw.
  unfold functions_left in *. specialize (Hw Hv ltac:(intros k Hk; apply elem_of_set_insert; by right) ltac:(apply elem_of_set_insert; by left)). lia.
Qed.

Lemma effect_chain_answers contains originates current :
  is_Some (effect_call_chain summaries (effect_chain_fuel summaries) contains originates [] current).
Proof.
  apply effect_chain_total. unfold functions_left, effect_chain_fuel.
  pose proof (weight_left_total internal_function_id (λ _, 1) summaries []) as H.
  rewrite sum_ones in H. lia.
Qed.

(** The pairs that a search of writes visits, after the first. *)
Definition write_pairs : list (nat * str) :=
  concat ((λ s, (λ p, (internal_function_id s, p)) <$> internal_aggregate_write_paths s) <$> summaries).
Definition pairs_left (visiting : list (nat * str)) : nat := weight_left (λ k : nat * str, k) (λ _, 1) write_pairs visiting.

Lemma elem_of_write_pairs f s p : summary f = Some s → p ∈ internal_aggregate_write_paths s → (f, p) ∈ write_pairs.
Proof.
  intros [Hs <-]%summary_of_id Hp. unfold write_pairs. rewrite list_elem_of_In, in_concat. eexists. rewrite <- !list_elem_of_In. split.
  - apply list_elem_of_fmap. by exists s.
  - apply list_elem_of_fmap. by exists p.
Qed.

Lemma write_chain_total fuel : ∀ visiting current path,
  (if decide ((current, path) ∈ write_pairs) then pairs_left visiting else S (pairs_left visiting)) < fuel →
  is_Some (write_call_chain summaries fuel visiting current path).
Proof.
  induction fuel as [|fuel IH]; intros visiting current path Hf; [lia|]. cbn [write_call_chain]. case_bool_decide as Hv; [done|].
  destruct (summary current) as [s|] eqn:Es; [|done]. destruct (writes_directly path s); [done|]. apply search_sites_total. intros site _.
  destruct (summary (target_id site)) as [child|] eqn:Ec; [|done]. destruct (list_find _ _) as [[i child_path]|] eqn:Ep; [|done].
  apply list_find_Some in Ep as (Hi%list_elem_of_lookup_2 & _ & _).
  destruct (IH (set_insert (current, path) visiting) (target_id site) child_path) as [chain ->]; [|done].
  rewrite decide_True by (by eapply elem_of_write_pairs).
  assert (∀ k, k ∈ visiting → k ∈ set_insert (current, path) visiting) as Hm by (intros k Hk; apply elem_of_set_insert; by right).
  pose proof (weight_left_le (λ k : nat * str, k) (λ _, 1) write_pairs visiting (set_insert (current, path) visiting) Hm) as Hle.
  change (pairs_left (set_insert (current, path) visiting) ≤ pairs_left visiting) in Hle.
  destruct (decide ((current, path) ∈ write_pairs)) as [Hin|Hout]; [|lia].
  assert (pairs_left (set_insert (current, path) visiting) + 1 ≤ pairs_left visiting); [|lia].
  apply (weight_left_visit (λ k : nat * str, k) (λ _, 1) write_pairs visiting (set_insert (current, path) visiting) (current, path) Hin Hv Hm).
  apply elem_of_set_insert. by left.
Qed.

Lemma write_chain_answers current path : is_Some (write_call_chain summaries (write_chain_fuel summaries) [] current path).
Proof.
  apply write_chain_total. unfold pairs_left, write_chain_fuel.
  pose proof (weight_left_total (λ k : nat * str, k) (λ _, 1) write_pairs []) as H.
  assert (sum_list_with (λ _ : nat * str, 1) write_pairs ≤ sum_list_with (λ s, S (length (internal_aggregate_write_paths s))) summaries) as Hl;
    [|destruct (decide _); lia].
  rewrite sum_ones. unfold write_pairs. clear H. induction summaries as [|s l IH]; [done|].
  rewrite fmap_cons. cbn [concat sum_list_with]. rewrite length_app, length_fmap. lia.
Qed.

(** A chain of calls from a function to one that originates an effect. *)
Inductive call_chain (originates : FunctionDataFlowSummary → bool) : nat → list nat → Prop :=
| chain_here f s : summary f = Some s → originates s = true → call_chain originates f [f]
| chain_call f s site chain : summary f = Some s → site ∈ internal_call_sites s → call_chain originates (target_id site) chain →
    call_chain originates f (f :: chain).

(** A chain of calls from a function to the first that originates an effect, through
    functions that contain it. *)
Inductive search_chain (contains originates : FunctionDataFlowSummary → bool) : nat → list nat → Prop :=
| schain_here f s : summary f = Some s → originates s = true → search_chain contains originates f [f]
| schain_call f s site child chain : summary f = Some s → originates s = false → site ∈ internal_call_sites s →
    summary (target_id site) = Some child → contains child = true ∨ originates child = true →
    search_chain contains originates (target_id site) chain → search_chain contains originates f (f :: chain).

(** A chain of calls from a function that writes a path to one that writes it itself. *)
Inductive write_chain : nat → str → list nat → Prop :=
| wchain_here f path s : summary f = Some s → path ∈ internal_direct_write_paths s → write_chain f path [f]
| wchain_call f path s site child_path chain : summary f = Some s → site ∈ internal_call_sites s →
    substitute_path child_path (substitutions_of (arguments site)) false = Some path → write_chain (target_id site) child_path chain →
    write_chain f path (f :: chain).

Lemma search_sites_spec chain_of current sites chain : search_sites chain_of current sites = Some chain →
  chain = [current] ∧ Forall (λ s, chain_of s = Some None) sites
  ∨ ∃ s rest, s ∈ sites ∧ chain_of s = Some (Some rest) ∧ chain = current :: rest.
Proof.
  induction sites as [|s sites IH]; cbn [search_sites]; [intros [= <-]; by left|].
  destruct (chain_of s) as [[rest|]|] eqn:Ec; cbn [mbind option_bind]; [| |done].
  - intros [= <-]. right. exists s, rest. split_and!; [by left|done..].
  - intros [[-> Hall]|(s' & rest & Hs & Hc & ->)]%IH; [left; split; [done|by constructor]|].
    right. exists s', rest. split_and!; [by right|done..].
Qed.

Lemma effect_chain_search contains originates fuel : ∀ visiting current chain,
  effect_call_chain summaries fuel contains originates visiting current = Some chain →
  search_chain contains originates current chain ∨ chain = [current].
Proof.
  induction fuel as [|fuel IH]; intros visiting current chain; cbn [effect_call_chain]; [done|]. case_bool_decide as Hv; [intros [= <-]; by right|].
  destruct (summary current) as [s|] eqn:Es; [|intros [= <-]; by right].
  destruct (originates s) eqn:Eo; [intros [= <-]; left; by econstructor|].
  intros [[-> _]|(site & rest & Hs & Hc & ->)]%search_sites_spec; [by right|left].
  destruct (summary (target_id site)) as [child|] eqn:Ech; [|done]. destruct (negb (contains child) && _) eqn:Eco; [done|].
  destruct (effect_call_chain _ _ _ _ _ _) as [chain'|] eqn:Er; [|done]. cbn [mbind option_bind] in Hc.
  destruct (default false _) eqn:Ed; [|done]. injection Hc as ->. eapply schain_call; [done..| |].
  { destruct (contains child); [by left|]. destruct (originates child); [by right|done]. }
  destruct (IH _ _ _ Er) as [?| ->]; [done|]. cbn [last mbind option_bind] in Ed. rewrite Ech in Ed. by econstructor.
Qed.

Lemma search_chain_calls contains originates f chain : search_chain contains originates f chain → call_chain originates f chain.
Proof. induction 1; by econstructor. Qed.

Lemma effect_chain_sound contains originates fuel visiting current chain :
  effect_call_chain summaries fuel contains originates visiting current = Some chain → call_chain originates current chain ∨ chain = [current].
Proof. intros [?|?]%effect_chain_search; [left; by eapply search_chain_calls|by right]. Qed.

Lemma write_chain_sound fuel : ∀ visiting current path chain,
  write_call_chain summaries fuel visiting current path = Some chain → write_chain current path chain ∨ chain = [current].
Proof.
  induction fuel as [|fuel IH]; intros visiting current path chain; cbn [write_call_chain]; [done|]. case_bool_decide as Hv; [intros [= <-]; by right|].
  destruct (summary current) as [s|] eqn:Es; [|intros [= <-]; by right].
  unfold writes_directly. case_bool_decide as Eo; [intros [= <-]; left; by econstructor|].
  intros [[-> _]|(site & rest & Hs & Hc & ->)]%search_sites_spec; [by right|left].
  destruct (summary (target_id site)) as [child|] eqn:Ech; [|done]. destruct (list_find _ _) as [[i child_path]|] eqn:Ep; [|done].
  apply list_find_Some in Ep as (_ & Hsub & _).
  destruct (write_call_chain _ _ _ _ _) as [chain'|] eqn:Er; [|done]. cbn [mbind option_bind] in Hc.
  destruct ((1 <? length chain') || _) eqn:Ed; [|done]. injection Hc as ->. eapply wchain_call; [done..|].
  destruct (IH _ _ _ _ Er) as [?| ->]; [done|]. simpl in Ed. apply bool_decide_eq_true in Ed. by econstructor.
Qed.
End chains.

(** ** Chains reach what they look for *)

Section complete.
Context (summaries : list FunctionDataFlowSummary) (contains originates : FunctionDataFlowSummary → bool).
#[local] Abbreviation summary f := (summary_of summaries f).
#[local] Abbreviation chain_to := (call_chain summaries originates).

Lemma call_chain_last f p : chain_to f p → ∃ g s, last p = Some g ∧ summary g = Some s ∧ originates s = true.
Proof.
  induction 1 as [f s Hs Ho|f s site chain Hs Hsite Hch (g & t & Hl & Ht & Ho)]; [by exists f, s|]. exists g, t. split; [|done].
  destruct chain; [done|exact Hl].
Qed.

Lemma call_chain_suffix f g p : chain_to g p → f ∈ p → ∃ p', chain_to f p' ∧ p' `sublist_of` p.
Proof.
  induction 1 as [g s Hs Ho|g s site chain Hs Hsite Hch IH]; intros Hf.
  - apply list_elem_of_singleton in Hf as ->. exists [g]. split; [by econstructor|done].
  - apply elem_of_cons in Hf as [->|Hf]; [exists (g :: chain); split; [by econstructor|done]|].
    destruct (IH Hf) as (p' & Hp & Hsub). exists p'. split; [done|by constructor].
Qed.

(** A chain of calls without repetition. *)
Lemma call_chain_simple f p : chain_to f p → ∃ p', chain_to f p' ∧ NoDup p' ∧ ∀ g, g ∈ p' → g ∈ p.
Proof.
  induction 1 as [f s Hs Ho|f s site chain Hs Hsite Hch (p' & Hp & Hnd & Hin)].
  - exists [f]. split_and!; [by econstructor|apply NoDup_singleton|done].
  - destruct (decide (f ∈ p')) as [Hf|Hf].
    + destruct (call_chain_suffix f _ p' Hp Hf) as (q & Hq & Hsub). exists q. split; [done|]. split; [by eapply sublist_NoDup|].
      intros g Hg. right. apply Hin. by eapply elem_of_sublist.
    + exists (f :: p'). split; [by econstructor|]. split; [by constructor|]. intros g [->|Hg]%elem_of_cons; [by left|right; auto].
Qed.

Lemma effect_chain_complete fuel : ∀ visiting f p chain,
  chain_to f p → NoDup p → (∀ g, g ∈ p → g ∉ visiting) → (∀ g s, g ∈ p → summary g = Some s → contains s = true) →
  effect_call_chain summaries fuel contains originates visiting f = Some chain → chain_to f chain.
Proof.
  induction fuel as [|fuel IH]; intros visiting f p chain Hp Hnd Hv Hc He; [done|].
  destruct (effect_chain_sound _ _ _ _ _ _ _ He) as [?| ->]; [done|]. cbn [effect_call_chain] in He.
  inversion Hp as [? s Hs Ho|? s site q Hs Hsite Hq]; subst; [by econstructor|].
  rewrite bool_decide_eq_false_2 in He by (apply Hv; by left). rewrite Hs in He.
  destruct (originates s) eqn:Eo; [by econstructor|].
  apply search_sites_spec in He as [[_ Hnone]|(s' & rest & _ & Hcs & Heq)].
  2:{ injection Heq as <-. destruct (summary (target_id s')); [|done]. destruct (_ && _); [done|].
      destruct (effect_call_chain _ _ _ _ _ _); [|done]. cbn [mbind option_bind] in Hcs. destruct (default false _) eqn:Ed; [|done].
      injection Hcs as ->. done. }
  rewrite Forall_forall in Hnone. specialize (Hnone site Hsite). exfalso.
  assert (∃ t, summary (target_id site) = Some t) as [t Ht] by (inversion Hq; eauto). rewrite Ht in Hnone.
  assert (target_id site ∈ q) as Hin by (inversion Hq; by left).
  rewrite (Hc (target_id site) t) in Hnone by (done || by right). cbn [negb andb] in Hnone.
  destruct (effect_call_chain _ _ _ _ _ _) as [chain'|] eqn:Er; [|done]. cbn [mbind option_bind] in Hnone.
  apply NoDup_cons in Hnd as [Hf Hnd].
  assert (chain_to (target_id site) chain') as Hch.
  { eapply (IH _ _ q); [done|done| |intros; eapply Hc; [by right|done]|done].
    intros g Hg [->|Hgv]%elem_of_set_insert; [done|]. apply (Hv g); [by right|done]. }
  apply call_chain_last in Hch as (g & u & Hl & Hu & Hou). rewrite Hl in Hnone. cbn [mbind option_bind] in Hnone. rewrite Hu in Hnone.
  cbn [fmap option_fmap option_map] in Hnone. by rewrite Hou in Hnone.
Qed.

(** The search gives up only when every chain of calls to an origin leaves the functions
    that contain the effect. *)
Lemma effect_chain_found_or_none f : ∃ chain,
  effect_call_chain summaries (effect_chain_fuel summaries) contains originates [] f = Some chain
  ∧ (search_chain summaries contains originates f chain
     ∨ chain = [f] ∧ ¬ ∃ p, chain_to f p ∧ ∀ g s, g ∈ p → summary g = Some s → contains s = true).
Proof.
  destruct (effect_chain_answers summaries contains originates f) as [chain He]. exists chain. split; [done|].
  destruct (effect_chain_search _ _ _ _ _ _ _ He) as [?| ->]; [by left|].
  destruct (decide (default false (originates <$> summary f) = true)) as [Ho|Ho].
  - left. destruct (summary f) as [s|] eqn:Es; [|done]. by econstructor.
  - right. split; [done|]. intros (p & Hp & Hc). destruct (call_chain_simple f p Hp) as (q & Hq & Hnd & Hsub).
    eapply effect_chain_complete in He; [|exact Hq|done|by intros g _ ?%not_elem_of_nil|intros; eapply Hc; [by apply Hsub|done]].
    inversion He as [? s Hs Hor|? s site chain Hs Hsite Hch]; subst; [by rewrite Hs in Ho|by inversion Hch].
Qed.
End complete.

(** ** Programs *)

Section program.
Context (files : list SourceFile) (direct aggs : list EffectSets).
Context (fingerprint : EffectSets → Z) (syntax_fingerprint : nat → Z) (kinds : list (list ParameterStorageKind)).
Context (included : list FunctionId) (functions : list FunctionMeta) (summaries : list FunctionDataFlowSummary).
Context (direct_ok : Forall effects_ok direct) (aggregates : build_aggregate_effects direct = Some (Ok aggs)).
Context (summaries_of : build_summaries files direct aggs fingerprint syntax_fingerprint kinds included functions = Some summaries).
Context (positions : NoDup (dense_position <$> filter (λ f, id f ∈ included) functions)).

Lemma aggregates_exact f e fact : aggs !! f = Some e → holds e fact ↔ reaches direct f fact.
Proof.
  destruct (aggregates_spec direct direct_ok) as (r & Hr & Hok & _). rewrite aggregates in Hr. injection Hr as <-.
  destruct (Hok aggs eq_refl) as [_ Hex]. apply Hex.
Qed.

Lemma summaries_elem s : s ∈ summaries ↔ ∃ f, f ∈ functions ∧ id f ∈ included
  ∧ summarize files direct aggs fingerprint syntax_fingerprint kinds f = Some s.
Proof.
  unfold build_summaries in summaries_of. destruct (mapM _ _) as [l|] eqn:El; [|done]. injection summaries_of as <-.
  rewrite elem_of_sort_by. apply mapM_Some in El. split.
  - intros [i Hi]%list_elem_of_lookup. eapply Forall2_lookup_r in El as (f & Hf%list_elem_of_lookup_2 & Hs); [|done].
    apply list_elem_of_filter in Hf as [? ?]. by exists f.
  - intros (f & Hf & Hin & Hs). assert (f ∈ filter (λ f, id f ∈ included) functions) as [i Hi]%list_elem_of_lookup by (by apply list_elem_of_filter).
    eapply Forall2_lookup_l in El as (s' & Hs' & Heq); [|done]. rewrite Hs in Heq. injection Heq as <-. by eapply list_elem_of_lookup_2.
Qed.

Lemma summarize_position f s : summarize files direct aggs fingerprint syntax_fingerprint kinds f = Some s → internal_function_id s = dense_position f.
Proof.
  unfold summarize. destruct (files !! _) as [file|]; [|done]. cbn [mbind option_bind]. destruct (direct !! _) as [d|]; [|done]. cbn [mbind option_bind].
  destruct (aggs !! _) as [a|]; [|done]. by intros [= <-].
Qed.

Lemma summary_ids : NoDup (internal_function_id <$> summaries).
Proof.
  pose proof summaries_of as Hs. unfold build_summaries in Hs. destruct (mapM _ _) as [l|] eqn:El; [|done]. injection Hs as <-.
  rewrite sort_by_Permutation. replace (internal_function_id <$> l) with (dense_position <$> filter (λ f, id f ∈ included) functions); [done|].
  apply mapM_Some in El. clear -El. induction El as [|f s fs l Hs _ IH]; [done|]. rewrite !fmap_cons. f_equal; [|done]. by erewrite summarize_position.
Qed.

(** The summary of an included function. *)
Lemma summary_included f : f ∈ functions → id f ∈ included →
  ∃ s d a, summary_of summaries (dense_position f) = Some s ∧ direct !! dense_position f = Some d ∧ aggs !! dense_position f = Some a
  ∧ fs_direct s = to_effects d (param_names f) ∧ fs_aggregate s = to_effects a (param_names f) ∧ internal_call_sites s = site_list d.
Proof.
  intros Hf Hin. pose proof summaries_of as Hs. unfold build_summaries in Hs. destruct (mapM _ _) as [l|] eqn:El; [|done]. clear Hs.
  apply mapM_Some in El. assert (f ∈ filter (λ f, id f ∈ included) functions) as [i Hi]%list_elem_of_lookup by (by apply list_elem_of_filter).
  eapply Forall2_lookup_l in El as (s & _ & Hs); [|done].
  pose proof (summary_of_total summaries s ltac:(apply summaries_elem; by exists f) summary_ids) as Hso.
  rewrite (summarize_position f s Hs) in Hso. unfold summarize in Hs.
  destruct (files !! _) as [file|]; [|done]. cbn [mbind option_bind] in Hs. destruct (direct !! _) as [d|] eqn:Ed; [|done]. cbn [mbind option_bind] in Hs.
  destruct (aggs !! _) as [a|] eqn:Ea; [|done]. injection Hs as <-. by eexists _, d, a.
Qed.

Lemma summary_of_included g s : summary_of summaries g = Some s → ∃ f, f ∈ functions ∧ id f ∈ included ∧ dense_position f = g.
Proof.
  intros [Hs <-]%summary_of_id. apply summaries_elem in Hs as (f & Hf & Hin & Hsum). exists f. split_and!; [done..|].
  symmetry. by apply summarize_position.
Qed.
(** Functions whose effects were not analysed have none. *)
Context (not_included : ∀ g d, direct !! g = Some d → d = no_effects ∨ ∃ f, f ∈ functions ∧ id f ∈ included ∧ dense_position f = g).

Lemma summary_effects g t : summary_of summaries g = Some t →
  ∃ d a, direct !! g = Some d ∧ aggs !! g = Some a ∧ pe_host_effects (fs_direct t) = host_effects d
  ∧ pe_host_effects (fs_aggregate t) = host_effects a ∧ internal_call_sites t = site_list d.
Proof.
  intros Ht. destruct (summary_of_included g t Ht) as (h & Hh & Hin & <-).
  destruct (summary_included h Hh Hin) as (t' & d & a & Ht' & Hd & Ha & Htd & Hta & Hst).
  rewrite Ht in Ht'. injection Ht' as <-. exists d, a. by rewrite Htd, Hta.
Qed.

Lemma analysed_summary g d : direct !! g = Some d → d ≠ no_effects → ∃ t, summary_of summaries g = Some t.
Proof.
  intros Hd Hne. destruct (not_included g d Hd) as [?|(h & Hh & Hin & <-)]; [done|].
  destruct (summary_included h Hh Hin) as (t & _ & _ & Ht & _). by exists t.
Qed.

Lemma transfer_effect subs retain fact effect : transfer subs retain fact = Some (FHostEffect effect) → fact = FHostEffect effect.
Proof. destruct fact; simpl; try destruct (substitute_path _ _ _); by intros; simplify_eq/=. Qed.

(** A function that a host effect reaches has a chain of calls to one that has it. *)
Lemma reached_effect_chain effect g : reaches direct g (FHostEffect effect) →
  ∃ p, call_chain summaries (originates_effect effect) g p ∧ ∀ h, h ∈ p → reaches direct h (FHostEffect effect).
Proof.
  intros Hg. remember (FHostEffect effect) as fact eqn:Ef. revert Ef.
  induction Hg as [g d fact fact' Hd Hh Ht|g site fact fact' Hsite Hlt Hg IH Ht]; intros ->; pose proof Ht as ->%transfer_effect.
  - destruct (analysed_summary g d Hd) as [t Hst]; [by intros ->; apply no_effects_holds in Hh|]. exists [g]. split.
    + econstructor; [exact Hst|]. destruct (summary_effects g t Hst) as (d' & a & Hd' & _ & Hed & _). simplify_eq.
      unfold originates_effect. rewrite Hed. by apply bool_decide_eq_true.
    + intros h ->%list_elem_of_singleton. by eapply reach_own.
  - destruct (IH eq_refl) as (p & Hp & Hall). pose proof Hsite as Hs. unfold sites_of in Hs.
    destruct (direct !! g) as [d|] eqn:Hd; [|by apply not_elem_of_nil in Hs].
    destruct (analysed_summary g d Hd) as [t Hst]; [by intros ->; apply not_elem_of_nil in Hs|]. exists (g :: p). split.
    + econstructor; [exact Hst| |exact Hp]. destruct (summary_effects g t Hst) as (d' & a & Hd' & _ & _ & _ & ->). by simplify_eq.
    + intros h [->|Hh]%elem_of_cons; [|by apply Hall]. by eapply reach_call.
Qed.

Lemma effect_chain_found f s effect : summary_of summaries f = Some s → effect ∈ pe_host_effects (fs_aggregate s) →
  ∃ chain, effect_call_chain summaries (effect_chain_fuel summaries) (contains_effect effect) (originates_effect effect) [] f = Some chain
  ∧ call_chain summaries (originates_effect effect) f chain.
Proof.
  intros Hs He. destruct (summary_effects f s Hs) as (d & a & Hd & Ha & _ & Hea & _). rewrite Hea in He.
  destruct (reached_effect_chain effect f) as (p & Hp & Hall); [by apply (aggregates_exact f a)|].
  destruct (call_chain_simple summaries _ f p Hp) as (q & Hq & Hnd & Hsub).
  destruct (effect_chain_answers summaries (contains_effect effect) (originates_effect effect) f) as [chain Hc]. exists chain. split; [done|].
  eapply effect_chain_complete; [exact Hq|done|by intros g _ ?%not_elem_of_nil| |exact Hc].
  intros g t Hg Ht. destruct (summary_effects g t Ht) as (d' & a' & _ & Ha' & _ & Hea' & _). unfold contains_effect. rewrite Hea'.
  apply bool_decide_eq_true. apply (aggregates_exact g a' (FHostEffect effect) Ha'). by apply Hall, Hsub.
Qed.
End program.

(** ** Validation *)

Lemma violation_answers files boundary message : is_Some (files !! Z.to_nat (file_id boundary)) →
  is_Some (contract_violation files boundary message).
Proof. intros [file Hf]. unfold contract_violation. by rewrite Hf. Qed.

Lemma broken_rule_answers summaries globals regions boundary contract summary :
  is_Some (broken_rule summaries globals regions boundary contract summary).
Proof.
  unfold broken_rule. cbv zeta. destruct (list_find _ contract) as [[i region]|]; [done|].
  destruct (list_find _ (pe_writes _)) as [[i path]|]; [by destruct (write_chain_answers summaries (dense_position boundary) path) as [chain ->]|].
  destruct (pe_parameter_writes _) as [|path l].
  - destruct (list_find _ (pe_host_effects _)) as [[i effect]|]; [|done].
    by destruct (effect_chain_answers summaries (contains_effect effect) (originates_effect effect)
      (dense_position boundary)) as [chain ->].
  - by destruct (effect_chain_answers summaries (contains_parameter_write path)
      originates_parameter_write (dense_position boundary)) as [chain ->].
Qed.

Lemma broken_rule_none summaries globals regions boundary contract summary :
  broken_rule summaries globals regions boundary contract summary = Some None →
  (∀ region, region ∈ contract → is_host_capability region = true ∨ region ∈ regions)
  ∧ (∀ path, path ∈ pe_writes (fs_aggregate summary) → write_is_allowed path (allowed_regions contract) contract globals = true)
  ∧ pe_parameter_writes (fs_aggregate summary) = []
  ∧ ∀ effect, effect ∈ pe_host_effects (fs_aggregate summary) → hf_capability effect ≠ string_bytes "unknown" ∧ hf_capability effect ∈ contract.
Proof.
  unfold broken_rule. cbv zeta. destruct (list_find _ contract) as [[i region]|] eqn:E1; [done|].
  destruct (list_find _ (pe_writes _)) as [[i path]|] eqn:E2; [by destruct (write_call_chain _ _ _ _ _)|].
  destruct (pe_parameter_writes _) as [|path l]; [|by destruct (effect_call_chain _ _ _ _ _ _)].
  destruct (list_find _ (pe_host_effects _)) as [[i effect]|] eqn:E3; [by destruct (effect_call_chain _ _ _ _ _ _)|].
  intros _. apply list_find_None in E1, E2, E3. rewrite Forall_forall in E1. rewrite Forall_forall in E2. rewrite Forall_forall in E3.
  split_and!; [| |done|].
  - intros region Hr. specialize (E1 region Hr). unfold unknown_region in E1. destruct (is_host_capability region); [by left|right].
    simpl in E1. by destruct (bool_decide_reflect (region ∈ regions)).
  - intros path Hp. specialize (E2 path Hp). unfold rejected_write in E2. by destruct (write_is_allowed _ _ _ _).
  - intros effect He. specialize (E3 effect He). unfold rejected_host_effect in E3.
    destruct (bool_decide_reflect (hf_capability effect = string_bytes "unknown")); [done|]. split; [done|].
    simpl in E3. by destruct (bool_decide_reflect (hf_capability effect ∈ contract)).
Qed.

Lemma validate_functions_answers files summaries globals regions functions :
  Forall (λ f, is_Some (files !! Z.to_nat (file_id f))) functions → is_Some (validate_functions files summaries globals regions functions).
Proof.
  induction 1 as [|f functions Hf _ IH]; cbn [validate_functions]; [done|].
  destruct (effect_contract f) as [contract|]; [|done]. destruct (summary_of summaries _) as [summary|]; [|done].
  destruct (broken_rule_answers summaries globals regions f contract summary) as [[message|] ->]; cbn [mbind option_bind]; [|done].
  by destruct (violation_answers files f message Hf) as [v ->].
Qed.

Lemma validate_functions_accepts files summaries globals regions functions f contract summary :
  validate_functions files summaries globals regions functions = Some (Ok tt) → f ∈ functions → effect_contract f = Some contract →
  summary_of summaries (dense_position f) = Some summary → broken_rule summaries globals regions f contract summary = Some None.
Proof.
  induction functions as [|g functions IH]; intros Hv Hf Hc Hs; [by apply not_elem_of_nil in Hf|]. cbn [validate_functions] in Hv.
  apply elem_of_cons in Hf as [<-|Hf].
  - rewrite Hc, Hs in Hv. destruct (broken_rule _ _ _ _ _ _) as [[message|]|]; cbn [mbind option_bind] in Hv; [|done|done].
    by destruct (contract_violation files f message).
  - apply IH; [|done..]. destruct (effect_contract g) as [c|]; [|done]. destruct (summary_of summaries (dense_position g)) as [s|]; [|done].
    destruct (broken_rule summaries globals regions g c s) as [[message|]|]; cbn [mbind option_bind] in Hv;
      [by destruct (contract_violation files g message)|done|done].
Qed.

(** ** What contracts bound *)

(** A path is a region or continues it with a field or an index. *)
Definition inside (region path : str) : Prop :=
  path = region ∨ ∃ b rest, path = region ++ b :: rest ∧ (b = DOT ∨ b = OPEN_BRACKET).

Lemma region_contains_spec region path : region_contains region path = true ↔ inside region path.
Proof.
  unfold region_contains, inside. rewrite orb_true_iff, bool_decide_eq_true. f_equiv. split.
  - destruct (strip_prefix region path) as [[|b rest]|] eqn:E; [done| |done]. apply strip_prefix_spec in E as ->.
    rewrite orb_true_iff, !Z.eqb_eq. intros Hb. by exists b, rest.
  - intros (b & rest & -> & Hb). rewrite (proj2 (strip_prefix_spec region (region ++ b :: rest) (b :: rest)) eq_refl).
    by rewrite orb_true_iff, !Z.eqb_eq.
Qed.

(** A region may be written: it is inside a region of the contract, or its global belongs to
    a capability of the contract. *)
Definition write_within (globals : list (str * list str)) (contract : list str) (path : str) : Prop :=
  (∃ region, region ∈ contract ∧ is_host_capability region = false ∧ inside region path)
  ∨ ∃ capability owned, capability ∈ contract ∧ map_get capability globals = Some owned ∧ root_name path ∈ owned.

Lemma write_is_allowed_spec globals contract path :
  write_is_allowed path (allowed_regions contract) contract globals = true ↔ write_within globals contract path.
Proof.
  unfold write_is_allowed, write_within. rewrite orb_true_iff, !existsb_exists. setoid_rewrite <- list_elem_of_In. f_equiv.
  - unfold allowed_regions. setoid_rewrite list_elem_of_filter. setoid_rewrite region_contains_spec. naive_solver.
  - split.
    + intros (c & Hc & Hg). destruct (map_get c globals) as [owned|] eqn:E; [|done]. apply bool_decide_eq_true in Hg. by exists c, owned.
    + intros (c & owned & Hc & Hg & Hr). exists c. rewrite Hg. split; [done|]. by apply bool_decide_eq_true.
Qed.

(** A fact is within a contract: a write is; a path through a parameter is not through one
    that the function has; a host effect has a capability of the contract. *)
Definition within_contract (globals : list (str * list str)) (contract parameter_names : list str) (fact : Fact) : Prop :=
  match fact with
  | FWrite p => if is_symbolic p then public_parameter_path p parameter_names = None else write_within globals contract p
  | FHostEffect h => hf_capability h ≠ string_bytes "unknown" ∧ hf_capability h ∈ contract
  | _ => True
  end.

Lemma accepted_within summaries globals regions f contract s a fact :
  broken_rule summaries globals regions f contract s = Some None → fs_aggregate s = to_effects a (param_names f) →
  holds a fact → within_contract globals contract (param_names f) fact.
Proof.
  intros (_ & Hw & Hp & Hh)%broken_rule_none Hsa Hfact. rewrite Hsa in Hw, Hp, Hh.
  cbn [to_effects pe_writes pe_parameter_writes pe_host_effects] in Hw, Hp, Hh.
  destruct fact as [p|p|g|g|h]; simpl in *; [done| |done|done|by apply Hh].
  destruct (is_symbolic p); [|by apply write_is_allowed_spec, Hw]. destruct (public_parameter_path p (param_names f)) as [q|] eqn:Eq; [|done].
  exfalso. apply (not_elem_of_nil q). rewrite <- Hp. unfold public_parameter_paths. apply list_elem_of_omap. by exists p.
Qed.

(** ** The writes of a call tree

    A call site hands on no path for an argument that is a local value, a computed value or a
    place whose root the compiler does not know.  [substitute_path] answers [None] then, and
    the write of the callee is not among the facts of the caller.  Here no write is left out:
    in the eyes of a function, a write of its call tree is through a path or through one
    that was lost on the way. *)
Inductive tree_write (direct : list EffectSets) : nat → option str → Prop :=
| tree_own f e p : direct !! f = Some e → holds e (FWrite p) → tree_write direct f (Some p)
| tree_call f s p : s ∈ sites_of direct f → target_id s < length direct → tree_write direct (target_id s) (Some p) →
    tree_write direct f (substitute_path p (substitutions_of (arguments s)) false)
| tree_lost f s : s ∈ sites_of direct f → target_id s < length direct → tree_write direct (target_id s) None →
    tree_write direct f None.

(** A call hands on no path for the parameter that a path of the callee goes through. *)
Definition unknown_argument (s : CallSite) (p : str) : Prop :=
  ∀ index, symbolic_parameter_index p = Some index → ∀ a, arguments s !! Z.to_nat index ≠ Some (Some a).

(** Below a function a write through a parameter loses its path at a call. *)
Definition loses_write (direct : list EffectSets) (f : nat) : Prop :=
  ∃ g s p, leads direct f g ∧ s ∈ sites_of direct g ∧ target_id s < length direct
  ∧ tree_write direct (target_id s) (Some p) ∧ is_symbolic p = true ∧ unknown_argument s p.

Lemma substitutions_sorted (args : list (option str)) : ∀ n : nat,
  let m := omap (λ p, (λ path, (Z.of_nat p.1, path)) <$> p.2) (imap (λ i a, (n + i, a)) args) in
  sorted_map m ∧ Forall (λ k, Z.of_nat n ≤ k)%Z m.*1.
Proof.
  induction args as [|a args IH]; intros n; [split; constructor|]. cbv zeta. rewrite imap_cons.
  rewrite (imap_ext _ (λ i a, (S n + i, a))) by (intros; simpl; f_equal; lia).
  destruct (IH (S n)) as [Hs Hk]. assert (∀ l, Forall (λ k, Z.of_nat (S n) ≤ k)%Z l → Forall (λ k, Z.of_nat n ≤ k)%Z l) as Hle
    by (intros l Hl; apply (Forall_impl _ _ _ Hl); lia).
  destruct a as [a|]; [|split; [exact Hs|by apply Hle]]. rewrite Nat.add_0_r. simpl. split.
  - constructor; [exact Hs|]. apply (Forall_impl _ _ _ Hk). intros k Hn. unfold key_lt. simpl. apply Z.compare_lt_iff. lia.
  - constructor; [lia|by apply Hle].
Qed.

Lemma known_argument_get (args : list (option str)) (i : nat) a :
  args !! i = Some (Some a) → map_get (Z.of_nat i) (substitutions_of args) = Some a.
Proof.
  intros Hi. destruct (substitutions_sorted args 0) as [Hs _]. apply (map_get_elem _ _ _ Hs).
  apply list_elem_of_omap. exists (i, Some a). split; [|done]. apply list_elem_of_lookup. exists i.
  by rewrite list_lookup_imap, Hi.
Qed.

Lemma substitute_lost s p :
  substitute_path p (substitutions_of (arguments s)) false = None → is_symbolic p = true ∧ unknown_argument s p.
Proof.
  unfold unknown_argument, symbolic_parameter_index, substitute_path. intros Hn. split.
  - destruct (is_symbolic p) eqn:E; [done|]. unfold symbolic_parts in Hn. destruct p as [|b p]; [done|]. simpl in E, Hn.
    by rewrite E in Hn.
  - intros index Hi a Ha. destruct (symbolic_parts p) as [[i suffix]|] eqn:Ep; [|done]. cbn in Hi. subst i.
    assert (0 ≤ index)%Z as Hpos.
    { unfold symbolic_parts in Ep. destruct p as [|b p]; [done|]. destruct (b =? DOLLAR)%Z; [|done].
      injection Ep as Hu _. apply parse_unsigned_range in Hu. unfold in_u in Hu. lia. }
    cbn in Hn. apply known_argument_get in Ha. rewrite Z2Nat.id in Ha by done. by rewrite Ha in Hn.
Qed.

Lemma tree_write_reaches direct f w : tree_write direct f w → ∀ p, w = Some p →
  reaches direct f (FWrite p) ∨ is_symbolic p = true ∧ symbolic_parameter_index p = None.
Proof.
  induction 1 as [f e p Hd Hh|f s p Hs Hlt Hw IH|f s Hs Hlt Hw IH]; intros q E; [injection E as <-| |done].
  - destruct (substitute_path p [] true) as [p'|] eqn:Es.
    + left. eapply (reach_own _ _ _ (FWrite p)); [done..|]. cbn. rewrite Es. cbn. do 2 f_equal.
      unfold substitute_path in Es. destruct (symbolic_parts p) as [[[i|] suffix]|]; cbn in Es; by simplify_eq/=.
    + right. unfold substitute_path, symbolic_parameter_index in *. unfold symbolic_parts in *. destruct p as [|b p]; [done|].
      cbn. destruct (b =? DOLLAR)%Z; [|done]. split; [done|]. cbn in *. by destruct (parse_unsigned 64 _).
  - left. destruct (IH p eq_refl) as [Hr|[Hsym Hi]].
    + eapply (reach_call _ _ _ (FWrite p)); [done..|]. cbn. by rewrite E.
    + unfold substitute_path in E. unfold symbolic_parameter_index, symbolic_parts in *. destruct p as [|b p]; [done|].
      simpl in Hsym. rewrite Hsym in *. cbn in Hi, E. by rewrite Hi in E.
Qed.

Lemma tree_write_lost direct f w : tree_write direct f w → w = None → loses_write direct f.
Proof.
  induction 1 as [f e p Hd Hh|f s p Hs Hlt Hw IH|f s Hs Hlt Hw IH]; intros E; [done| |].
  - apply substitute_lost in E as [Hsym Hu]. exists f, s, p. split_and!; [apply rtc_refl|done..].
  - destruct (IH eq_refl) as (g & s' & p & Hl & Hrest). exists g, s', p. split; [|exact Hrest].
    eapply rtc_l; [|exact Hl]. split; [done|]. by exists s.
Qed.

(** C19 An accepted contract bounds what the function does, also through the functions it
    calls, as far as the compiler knows the paths.  Validation of a program whose sources can
    be sliced always answers; when it accepts, every function with a contract names known
    regions and capabilities only, and every fact that reaches it is within the contract:
    each host effect of its call tree, and each write of its call tree whose path is known
    to it.  A write of the call tree escapes the contract only where its path is lost: at a
    call, below the function, whose argument for the written parameter is no known path.
    The code lets those writes pass, be the argument a local value or a place with an
    unknown root ([unknown_argument_write_accepted]); docs/spec.md asks to reject the
    latter. *)
Theorem contracts_bound_effects files direct aggs fingerprint syntax_fingerprint kinds included functions summaries :
  Forall effects_ok direct → build_aggregate_effects direct = Some (Ok aggs) →
  build_summaries files direct aggs fingerprint syntax_fingerprint kinds included functions = Some summaries →
  NoDup (dense_position <$> filter (λ f, id f ∈ included) functions) →
  Forall (λ f, sliceable (sf_content f)) files → Forall (λ f, is_Some (files !! Z.to_nat (file_id f))) functions →
  ∃ globals regions r, declared_regions files = Some (globals, regions) ∧ validate_effect_contracts files functions summaries = Some r
  ∧ (r = Ok tt → ∀ f contract, f ∈ functions → id f ∈ included → effect_contract f = Some contract →
      (∀ region, region ∈ contract → is_host_capability region = true ∨ region ∈ regions)
      ∧ (∀ fact, reaches direct (dense_position f) fact → within_contract globals contract (param_names f) fact)
      ∧ ∀ w, tree_write direct (dense_position f) w →
          match w with
          | Some path => within_contract globals contract (param_names f) (FWrite path)
          | None => loses_write direct (dense_position f)
          end).
Proof.
  intros Hok Haggs Hsum Hpos Hfiles Hids. destruct (declared_regions_total files Hfiles) as [[globals regions] Hreg].
  destruct (validate_functions_answers files summaries globals regions functions Hids) as [r Hr].
  exists globals, regions, r. split; [done|]. unfold validate_effect_contracts. rewrite Hreg. split; [done|]. intros -> f contract Hf Hin Hc.
  destruct (summary_included _ _ _ _ _ _ _ _ _ Hsum Hpos f Hf Hin) as (s & d & a & Hs & Hd & Ha & Hsd & Hsa & _).
  pose proof (validate_functions_accepts _ _ _ _ _ _ _ _ Hr Hf Hc Hs) as Hbr.
  assert (∀ fact, reaches direct (dense_position f) fact → within_contract globals contract (param_names f) fact) as Hwithin.
  { intros fact Hreach. apply (aggregates_exact direct aggs Hok Haggs (dense_position f) a fact Ha) in Hreach.
    by eapply accepted_within. }
  split_and!; [by eapply broken_rule_none|done|]. intros [path|] Hw; [|by eapply tree_write_lost].
  destruct (tree_write_reaches _ _ _ Hw path eq_refl) as [Hr'|[Hsym Hi]]; [by apply Hwithin|]. cbn. rewrite Hsym.
  unfold public_parameter_path. unfold symbolic_parameter_index in Hi.
  destruct (symbolic_parts path) as [[i suffix]|]; [|done]. cbn in Hi |- *. by rewrite Hi.
Qed.


(** ** A program *)

(** The function at an index, with its parameters and its contract. *)
Definition sample_function (i : nat) (function_name : string) (parameters : list string) (contract : option (list string)) : FunctionMeta := {|
  id := Z.of_nat i; symbol_id := mkSymbolId []; storage_index := Z.of_nat i; name := string_bytes function_name;
  module_alias := []; name_hash := 0; file_id := 0; source_range := (0, 0)%Z; signature_range := (Z.of_nat i, 9)%Z;
  signature_hash := Z.of_nat i; body_hash := 0; param_names := string_bytes <$> parameters; params := []; return_type := TYPE_ID_VOID;
  inline := false; host_export := None; effect_contract := (λ c : list string, string_bytes <$> c) <$> contract; requires_contract := None;
  dependencies := []; dependents := []; call_sites := []; dirty := false |}.

Definition sample_file : SourceFile :=
  mkSourceFile (string_bytes "main.stasis") (string_bytes "struct World { x: i32; } global world: World;") [] 0 [].

Definition calling (sites : list CallSite) (e : EffectSets) : EffectSets := with_site_list (λ _, sites) e.
Definition writing_parameters (paths : list string) (e : EffectSets) : EffectSets := with_parameter_writes (λ _, string_bytes <$> paths) e.
Definition drawing (e : EffectSets) : EffectSets :=
  with_host_effects (λ _, [mkHostEffect (string_bytes "draw") (string_bytes "graphics")]) e.
Definition passing (target : nat) (args : list string) : CallSite := sample_site target (Some ∘ string_bytes <$> args).

Definition sample_summaries (direct : list EffectSets) (functions : list FunctionMeta) : list FunctionDataFlowSummary :=
  match build_aggregate_effects direct with
  | Some (Ok aggs) => default [] (build_summaries [sample_file] direct aggs (λ _, 0%Z) (λ _, 0%Z) [] (id <$> functions) functions)
  | _ => []
  end.

(** [tick] may write [world] and draw; it calls [move] with [world], which writes through its
    parameter and calls [render], which draws. *)
Definition tick_functions : list FunctionMeta :=
  [sample_function 0 "tick" [] (Some ["world"; "graphics"]%string); sample_function 1 "move" ["entity"%string] None;
   sample_function 2 "render" [] None].
Definition tick_effects : list EffectSets :=
  [calling [passing 1 ["world"%string]] no_effects;
   calling [passing 2 []] (writing_parameters ["$0.x"%string] no_effects); drawing no_effects].
Definition tick_aggregates : list EffectSets :=
  match build_aggregate_effects tick_effects with Some (Ok aggs) => aggs | _ => [] end.

Lemma tick_ok : Forall effects_ok tick_effects.
Proof. repeat constructor; apply effects_okb_spec; vm_compute; reflexivity. Qed.

Lemma contracts_bound_effects_witness :
  validate_effect_contracts [sample_file] tick_functions (sample_summaries tick_effects tick_functions) = Some (Ok tt)
  ∧ ∃ globals, (∀ fact, reaches tick_effects 0 fact → within_contract globals (string_bytes <$> ["world"; "graphics"]%string) [] fact)
    ∧ ∀ path, tree_write tick_effects 0 (Some path) → within_contract globals (string_bytes <$> ["world"; "graphics"]%string) [] (FWrite path).
Proof.
  assert (validate_effect_contracts [sample_file] tick_functions (sample_summaries tick_effects tick_functions) = Some (Ok tt)) as Hv
    by (vm_compute; reflexivity).
  split; [exact Hv|].
  destruct (contracts_bound_effects [sample_file] tick_effects tick_aggregates (λ _, 0%Z) (λ _, 0%Z) [] (id <$> tick_functions) tick_functions
    (sample_summaries tick_effects tick_functions)) as (globals & regions & r & _ & Hr & Hb).
  - exact tick_ok.
  - vm_compute. reflexivity.
  - vm_compute. reflexivity.
  - apply (bool_decide_unpack _). vm_compute. reflexivity.
  - constructor; [apply sliceable_check; vm_compute; reflexivity|constructor].
  - repeat constructor; by eexists.
  - exists globals. rewrite Hv in Hr. injection Hr as <-.
    destruct (Hb eq_refl (sample_function 0 "tick" [] (Some ["world"; "graphics"]%string)) (string_bytes <$> ["world"; "graphics"]%string)) as (_ & Hfacts & Hwrites).
    + by left.
    + by left.
    + done.
    + split; [exact Hfacts|]. intros path. apply (Hwrites (Some path)).
Defined.


(** ** Chains that stop short *)

(** [move] is called with one region for both parameters of [both], which writes through its
    second and calls [move] again.  The search follows the first parameter only, back to
    [move], and gives up: the chain is the function alone, and the call chain to the write
    is not reported. *)
Definition both_functions : list FunctionMeta :=
  [sample_function 0 "tick" [] (Some []); sample_function 1 "move" ["a"%string] None; sample_function 2 "both" ["b"; "c"]%string None].
Definition both_effects : list EffectSets :=
  [calling [passing 1 ["world"%string]] no_effects; calling [passing 2 ["$0"; "$0"]%string] no_effects;
   calling [passing 1 ["$0"%string]] (writing_parameters ["$1.x"%string] no_effects)].

Lemma write_chain_stops_short :
  let summaries := sample_summaries both_effects both_functions in
  write_call_chain summaries (write_chain_fuel summaries) [] 0 (string_bytes "world.x") = Some [0]
  ∧ write_chain summaries 0 (string_bytes "world.x") [0; 1; 2].
Proof.
  cbv zeta. split; [by vm_compute|].
  eapply (wchain_call _ 0 _ _ (passing 1 ["world"%string]) (string_bytes "$0.x")); [by vm_compute|by left|by vm_compute|].
  eapply (wchain_call _ 1 _ _ (passing 2 ["$0"; "$0"]%string) (string_bytes "$1.x")); [by vm_compute|by left|by vm_compute|].
  eapply wchain_here; [by vm_compute|by left].
Qed.

(** A write through a parameter is looked for by the name that the first function gives it:
    two calls down, under other names, it is not found. *)
Definition renaming_functions : list FunctionMeta :=
  [sample_function 0 "outer" ["p"%string] (Some []); sample_function 1 "middle" ["q"%string] None; sample_function 2 "inner" ["r"%string] None].
Definition renaming_effects : list EffectSets :=
  [calling [passing 1 ["$0"%string]] no_effects; calling [passing 2 ["$0"%string]] no_effects; writing_parameters ["$0.x"%string] no_effects].

Lemma parameter_chain_stops_short :
  let summaries := sample_summaries renaming_effects renaming_functions in
  effect_call_chain summaries (effect_chain_fuel summaries) (contains_parameter_write (string_bytes "p.x")) originates_parameter_write [] 0 = Some [0]
  ∧ call_chain summaries originates_parameter_write 0 [0; 1; 2].
Proof.
  cbv zeta. split; [by vm_compute|].
  eapply (chain_call _ _ 0 _ (passing 1 ["$0"%string])); [by vm_compute|by left|].
  eapply (chain_call _ _ 1 _ (passing 2 ["$0"%string])); [by vm_compute|by left|].
  eapply chain_here; [by vm_compute|by vm_compute].
Qed.

(** [outer] hands [world] to [good] and its own parameter to [bad]; both write through their
    parameter.  The search takes the first callee that writes through any parameter, so the
    message about the write through [p] names [good], which does not write there. *)
Definition branch_functions : list FunctionMeta :=
  [sample_function 0 "outer" ["p"%string] (Some ["world"%string]); sample_function 1 "good" ["q"%string] None;
   sample_function 2 "bad" ["r"%string] None].
Definition branch_effects : list EffectSets :=
  [calling [passing 1 ["world"%string]; passing 2 ["$0"%string]] no_effects; writing_parameters ["$0.x"%string] no_effects;
   writing_parameters ["$0.x"%string] no_effects].

Lemma parameter_chain_goes_wrong :
  let summaries := sample_summaries branch_effects branch_functions in
  validate_effect_contracts [sample_file] branch_functions summaries
  = Some (Err (mkViolation (string_bytes "main.stasis") 0 9 (string_bytes "outer")
      (text [inr "effect contract on 'outer' rejects write through parameter 'p.x': its global region is not proven; ";
             inr "originating operation is reachable through outer -> good"]%string)))
  ∧ write_chain summaries 0 (string_bytes "$0.x") [0; 2] ∧ ¬ write_chain summaries 0 (string_bytes "$0.x") [0; 1].
Proof.
  cbv zeta. split_and!; [by vm_compute| |].
  - eapply (wchain_call _ 0 _ _ (passing 2 ["$0"%string]) (string_bytes "$0.x")); [by vm_compute|right; by left|by vm_compute|].
    eapply wchain_here; [by vm_compute|by left].
  - intros H. inversion H as [|? ? s site child_path ? Hs Hsite Hsub Hch]; subst. vm_compute in Hs. injection Hs as <-.
    apply elem_of_cons in Hsite as [->|[->|?%not_elem_of_nil]%elem_of_cons]; [|inversion Hch|done].
    inversion Hch as [? ? t Ht Hp|? ? ? ? ? ? ? ? ? Hnil]; subst; [|inversion Hnil]. vm_compute in Ht. injection Ht as <-.
    apply list_elem_of_singleton in Hp as ->. by vm_compute in Hsub.
Qed.

(** ** Writes that are lost *)

(** [tick] may write nothing.  It hands an argument without a known path to [damage], which
    writes through its parameter: the contract is accepted.  With the path of a global the
    same call is rejected. *)
Definition damage_functions : list FunctionMeta :=
  [sample_function 0 "tick" [] (Some []); sample_function 1 "damage" ["target"%string] None].
Definition damage_effects (argument : option str) : list EffectSets :=
  [calling [sample_site 1 [argument]] no_effects; writing_parameters ["$0.hp"%string] no_effects].

Lemma unknown_argument_write_accepted :
  validate_effect_contracts [sample_file] damage_functions (sample_summaries (damage_effects None) damage_functions) = Some (Ok tt)
  ∧ tree_write (damage_effects None) 0 None
  ∧ validate_effect_contracts [sample_file] damage_functions
      (sample_summaries (damage_effects (Some (string_bytes "world"))) damage_functions)
    = Some (Err (mkViolation (string_bytes "main.stasis") 0 9 (string_bytes "tick")
        (string_bytes "effect contract on 'tick' rejects write 'world.hp'; originating operation is reachable through tick -> damage"))).
Proof.
  split_and!; [by vm_compute| |by vm_compute].
  apply (tree_call (damage_effects None) 0 (sample_site 1 [None]) (string_bytes "$0.hp")); [by left|simpl; lia|].
  eapply tree_own; [done|]. cbn. by left.
Qed.
