(* ===== verification/Indexer.v ===== *)
(** * The indexer of functions

    Models [crates/stasis_compiler/src/frontend/indexer.rs] and
    [crates/stasis_compiler/src/host_exports.rs] but for the manifest in JSON: the record of
    a function with its types, hashes, contracts, host export and the calls of its body.

    The text of an error of the type table is its constructor.  A slice of a text is [None]
    where Rust panics. *)

From S2P Require Import Prelude BTree Lexer Identity Text Imports Functions Types TypesProps TypesTable.
From S2P Require Import ParserTokens ParserFunctions ParserPasses FormatterProps.
#[local] Open Scope Z_scope.
#[local] Set Warnings "-notation-overridden,-clear-no-such-hyp".

(** ** Host exports *)

Definition HOST_EXPORT_ABI_VERSION : Z := 1.

Definition is_word_byte (b : Z) : bool := (b =? 95) || Lexer.is_ascii_alphabetic b || is_ascii_digit b.

(** ASCII words that do not start with a digit. *)
Definition is_plain_name (s : str) : bool :=
  match s with [] => false | b :: rest => ((b =? 95) || Lexer.is_ascii_alphabetic b) && forallb is_word_byte rest end.

Definition is_any_of (s : str) (names : list string) : bool := existsb (λ n, bool_decide (s = string_bytes n)) names.

Definition symbol (e : HostExport) : str := string_bytes "stasis_host_v1_" ++ he_name e.

(** [HostExport::validate] *)
Definition validate_export (e : HostExport) : Result unit str :=
  if negb (is_plain_name (he_name e)) || starts_with (string_bytes "stasis_") (he_name e)
     || is_any_of (he_name e) ["main"; "tick"; "render"; "on_code_swap"]
  then Err (string_bytes "@host_export requires a non-reserved ASCII identifier")
  else if (3 <? length (he_parameters e))%nat || existsb (λ t, negb (is_any_of t ["i32"; "bool"])) (he_parameters e)
          || negb (is_any_of (he_return_type e) ["void"; "i32"])
  then Err (string_bytes "host export ABI v1 supports at most three i32/bool parameters and void/i32 return")
  else Ok tt.

Definition c_return_type (e : HostExport) : str := string_bytes (if bool_decide (he_return_type e = string_bytes "void") then "void" else "int32_t").

Definition arguments_with (prefix : string) (e : HostExport) : str :=
  join_with (string_bytes ", ") ((λ i, string_bytes prefix ++ show (Z.of_nat i)) <$> seq 0 (length (he_parameters e))).

Definition c_parameters (e : HostExport) : str :=
  match he_parameters e with [] => string_bytes "void" | _ => arguments_with "int32_t arg" e end.

Definition c_declaration (e : HostExport) : str :=
  c_return_type e ++ string_bytes " " ++ symbol e ++ string_bytes "(" ++ c_parameters e ++ string_bytes ");".

Definition c_wrapper (target : str) (e : HostExport) : str :=
  let prefix := if bool_decide (he_return_type e = string_bytes "void") then [] else string_bytes "return " in
  string_bytes "extern " ++ c_return_type e ++ string_bytes " " ++ target ++ string_bytes "(" ++ c_parameters e ++ string_bytes ");"
  ++ [NEWLINE] ++ string_bytes "STASIS_EXPORT " ++ c_return_type e ++ string_bytes " " ++ symbol e ++ string_bytes "(" ++ c_parameters e
  ++ string_bytes ") { " ++ prefix ++ target ++ string_bytes "(" ++ arguments_with "arg" e ++ string_bytes "); }" ++ [NEWLINE].

Definition is_named (n : string) (a : ParsedFunctionAnnotation) : bool := bool_decide (ann_name a = string_bytes n).

Definition annotations_named (n : string) (l : list ParsedFunctionAnnotation) : list ParsedFunctionAnnotation := filter (λ a, is_named n a = true) l.

Definition lifecycle_entries : list string :=
  ["main"; "tick"; "render"; "on_code_swap"; "gfx_cmd_construction_reset"; "gfx_cmd_construction_finish"].

(** [host_exports::parse] *)
Definition parse_host_export (f : ParsedFunctionSignature) : Result (option HostExport) str :=
  let once : Result (option HostExport) str := Err (string_bytes "declare @host_export(name) exactly once with one identifier") in
  match annotations_named "host_export" (fn_annotations f) with
  | [] => Ok None
  | [annotation] =>
      match ann_arguments annotation with
      | [argument] =>
          if negb (ann_has_parentheses annotation) || negb (bool_decide (arg_kind argument = ArgIdentifier)) then once
          else if is_any_of (fn_name f) lifecycle_entries then Err (string_bytes "@host_export cannot replace a fixed lifecycle entry")
          else if (match fn_generic_parameters f with [] => false | _ => true end)
                  || existsb (λ a, is_named "requires" a || is_named "extern" a) (fn_annotations f)
          then Err (string_bytes "@host_export requires a concrete guest function without caller preconditions")
          else
            let export := mkHostExport (arg_text argument) (param_type_name <$> fn_params f) (fn_return_type_name f) in
            let? _ := validate_export export in
            Ok (Some export)
      | _ => once
      end
  | _ => once
  end.

(** [host_exports::symbol] *)
Definition function_symbol (f : FunctionMeta) : str := match host_export f with Some e => symbol e | None => name f end.

Record HostExportRecord := mkExportRecord {
  er_signature : HostExport;
  er_symbol : str;
  er_target_symbol : str;
  er_source_symbol_id : str;
  er_source_path : str;
}.

Record HostExports := mkExports { abi_version : Z; he_functions : list HostExportRecord }.

Definition target_prefix : str := string_bytes "aot_fn_".

(** The record of a function, if it is exported. *)
Definition export_record (files : list SourceFile) (f : FunctionMeta) : option (option HostExportRecord) :=
  match host_export f with
  | None => Some None
  | Some signature =>
      file ← files !! Z.to_nat (file_id f);
      Some (Some (mkExportRecord signature (symbol signature) (target_prefix ++ show (id f)) (canonical (symbol_id f)) (sf_path file)))
  end.

Definition symbol_leb (a b : HostExportRecord) : bool := match cmp (er_symbol a : list Z) (er_symbol b) with Gt => false | _ => true end.

(** [HostExports::from_compiler] *)
Definition from_compiler (files : list SourceFile) (functions : list FunctionMeta) : option HostExports :=
  records ← mapM (export_record files) functions;
  Some (mkExports HOST_EXPORT_ABI_VERSION (sort_by symbol_leb (omap (λ r, r) records))).

(** [id.bytes().all(..)] after the prefix of a target. *)
Definition is_target (target : str) : bool :=
  match strip_prefix target_prefix target with Some [] | None => false | Some digits => all_digits digits end.

Fixpoint validate_records (records : list HostExportRecord) (symbols : list str) : Result unit str :=
  match records with
  | [] => Ok tt
  | r :: records =>
      let? _ := validate_export (er_signature r) in
      if negb (bool_decide (er_symbol r = symbol (er_signature r))) || bool_decide (er_symbol r ∈ symbols)
      then Err (string_bytes "invalid or duplicate host export symbol")
      else if negb (is_target (er_target_symbol r)) then Err (string_bytes "invalid host export target symbol")
      else validate_records records (er_symbol r :: symbols)
  end.

(** [HostExports::validate] *)
Definition validate_exports (e : HostExports) : Result unit str :=
  if negb (abi_version e =? HOST_EXPORT_ABI_VERSION)
  then Err (string_bytes "unsupported host export ABI version " ++ show (abi_version e))
  else validate_records (he_functions e) [].

Definition line (s : str) : str := s ++ [NEWLINE].

Definition header_start : str :=
  concat (line <$> [string_bytes "#ifndef STASIS_HOST_EXPORTS_H"; string_bytes "#define STASIS_HOST_EXPORTS_H"; string_bytes "#include <stdint.h>";
    string_bytes "#define STASIS_HOST_EXPORT_ABI_VERSION 1"; string_bytes "#ifdef __cplusplus";
    string_bytes "extern " ++ [34] ++ string_bytes "C" ++ [34] ++ string_bytes " {"; string_bytes "#endif";
    string_bytes "/* bool arguments use int32_t: exactly 0 or 1. Call after main, between ticks. */"]).

Definition header_end : str :=
  concat (line <$> [string_bytes "#ifdef __cplusplus"; string_bytes "}"; string_bytes "#endif"; string_bytes "#endif"]).

Definition header (e : HostExports) : Result str str :=
  let? _ := validate_exports e in
  Ok (header_start ++ concat ((λ r, line (c_declaration (er_signature r))) <$> he_functions e) ++ header_end).

Definition c_wrappers (e : HostExports) : Result str str :=
  let? _ := validate_exports e in
  Ok (concat ((λ r, c_wrapper (er_target_symbol r) (er_signature r)) <$> he_functions e)).

(** ** Records of functions *)

Record IndexedCallDependency := mkDependency {
  dep_qualifier : option str;
  dep_qualifier_span : option (Z * Z);
  dep_name : str;
  dep_name_span : Z * Z;
  dep_has_arguments : bool;
}.

Record IndexedFunction := mkIndexedFunction {
  if_name : str;
  if_generic_parameters : list ParsedGenericParameter;
  if_name_hash : Z;
  if_source_range : Z * Z;
  if_signature_range : Z * Z;
  if_signature_hash : Z;
  if_body_hash : Z;
  if_param_names : list str;
  if_params : list TypeId;
  if_param_type_names : list str;
  if_return_type : TypeId;
  if_inline : bool;
  if_host_export : option HostExport;
  if_effect_contract : option (list str);
  if_requires_contract : option (list str);
  if_dependencies : list IndexedCallDependency;
}.

Record IndexedSourceFunctionItem := mkItem { it_name : str; it_source_range : Z * Z; it_signature_range : Z * Z }.

(** [range.start as u32..range.end as u32] *)
Definition range_u32 (r : nat * nat) : Z * Z := (wrap 32 (Z.of_nat r.1), wrap 32 (Z.of_nat r.2)).

Definition source_function_items (source : str) : Parse (list IndexedSourceFunctionItem) str :=
  parse! functions := parse_top_level_functions source in
  Some (Ok ((λ f, mkItem (fn_name f) (range_u32 (fn_body_range f)) (range_u32 (fn_signature_range f))) <$> functions)).

(** ** Diagnostics *)

Inductive IndexMessage := IndexText (text : str) | IndexTypeError (e : TypeError).

Record IndexDiagnostic := mkIndexDiagnostic {
  ix_message : IndexMessage;
  ix_start : nat;
  ix_end : nat;
  ix_symbol : str;
}.

Definition of_parser_diagnostic (d : ParserDiagnostic) : IndexDiagnostic :=
  mkIndexDiagnostic (IndexText (pd_message d)) (pd_start d) (pd_end d) (pd_symbol d).

Definition diagnostic_for_function (f : ParsedFunctionSignature) (message : IndexMessage) (range : nat * nat) : IndexDiagnostic :=
  mkIndexDiagnostic message range.1 (Nat.max range.2 (range.1 + 1)) (fn_name f).

(** ** Hashes *)

Definition FNV_BASIS : Z := 1469598103934665603.
Definition FNV_PRIME : Z := 1099511628211.

Definition hash_byte (hash byte : Z) : Z := wrap 64 (Z.lxor hash byte * FNV_PRIME).

Definition hash_text (text : str) : Z := foldl hash_byte FNV_BASIS text.

(** [hash.wrapping_mul(..).wrapping_add(x)] *)
Definition mix (hash x : Z) : Z := wrap 64 (wrap 64 (hash * FNV_PRIME) + x).

Definition hash_signature (name_hash : Z) (params : list TypeId) (return_type : TypeId) (inline : bool) : Z :=
  mix (foldl mix (mix name_hash return_type) params) (if inline then 1 else 0).

(** ** Contracts *)

Definition has_byte (b : Z) (s : str) : bool := bool_decide (b ∈ (s : list Z)).

(** The error of a region, if it has one. *)
Definition region_error (region : str) : option str :=
  let quoted := string_bytes "@effects region '" ++ region in
  if has_byte 91 region || has_byte 93 region || has_byte STAR region
  then Some (quoted ++ string_bytes "' cannot use an index or wildcard; name the collection region instead")
  else if negb (forallb is_plain_name (split_on PERIOD region))
  then Some (quoted ++ string_bytes "' must be a statically named global path or host capability")
  else None.

(** The arguments of a contract, trimmed; [refuse_argument] is the error of one. *)
Fixpoint contract_loop (refuse_argument : str → option str) (duplicate : str → str)
    (arguments : list ParsedFunctionAnnotationArgument) (out : list str) : Result (list str) str :=
  match arguments with
  | [] => Ok out
  | a :: arguments =>
      let text := trim (arg_text a) in
      match refuse_argument text with
      | Some e => Err e
      | None =>
          if bool_decide (text ∈ out) then Err (duplicate text) else contract_loop refuse_argument duplicate arguments (out ++ [text])
      end
  end.

Definition parse_effect_contract (annotations : list ParsedFunctionAnnotation) : Result (option (list str)) str :=
  match annotations_named "effects" annotations with
  | [] => Ok None
  | [annotation] =>
      if negb (ann_has_parentheses annotation) then Err (string_bytes "@effects requires parentheses, for example @effects(graphics)")
      else
        let? regions := contract_loop region_error (λ region, string_bytes "duplicate @effects region '" ++ region ++ string_bytes "'")
                          (ann_arguments annotation) [] in
        Ok (Some regions)
  | _ => Err (string_bytes "a function may declare @effects only once")
  end.

Definition empty_preflight (requirement : str) : option str :=
  match requirement with [] => Some (string_bytes "@requires contains an empty preflight") | _ => None end.

Definition parse_requires_contract (annotations : list ParsedFunctionAnnotation) : Result (option (list str)) str :=
  match annotations_named "requires" annotations with
  | [] => Ok None
  | [annotation] =>
      if negb (ann_has_parentheses annotation)
      then Err (string_bytes "@requires requires parentheses, for example @requires(events.can_push())")
      else
        match ann_arguments annotation with
        | [] => Err (string_bytes "@requires must name at least one collection preflight")
        | arguments =>
            let? requirements := contract_loop empty_preflight
              (λ requirement, string_bytes "duplicate @requires preflight '" ++ requirement ++ string_bytes "'") arguments [] in
            Ok (Some requirements)
        end
  | _ => Err (string_bytes "a function may declare @requires only once")
  end.

(** ** Calls *)

Definition is_call_keyword (identifier : str) : bool := is_any_of identifier ["if"; "for"; "foreach"; "return"; "function"].

Definition is_identifier (t : option Token) : bool := match t with Some t => is_kind Identifier t | None => false end.
Definition is_open (t : option Token) : bool := match t with Some t => is_kind LParen t | None => false end.

(** The token is a period: a slice of the text, if it is of kind [Other]. *)
Definition is_period (body : str) (t : option Token) : option bool :=
  match t with
  | Some t => if is_kind Other t then text ← token_text body t; Some (bool_decide (text = [PERIOD])) else Some false
  | None => Some false
  end.

Definition span_u32 (t : Token) : Z * Z := range_u32 (start t, end_ t).

Definition call_has_arguments (after_open : option Token) : bool :=
  match after_open with Some t => negb (is_kind RParen t) | None => false end.

(** [tokens.get(index.wrapping_sub(k))] *)
Definition token_before (tokens : list Token) (i k : nat) : option Token := if (k <=? i)%nat then tokens !! (i - k)%nat else None.

(** A call without a receiver, or whose receiver is no identifier. *)
Definition plain_call (body : str) (tokens : list Token) (i : nat) (token : Token) (identifier : str) : option (option IndexedCallDependency) :=
  dot_before ← is_period body (token_before tokens i 1);
  let open := is_open (tokens !! (i + 1)%nat) in
  let call has_arguments := mkDependency None None identifier (span_u32 token) has_arguments in
  Some (if (dot_before : bool) then (if negb (is_identifier (token_before tokens i 2)) && open then Some (call true) else None)
        else if open then Some (call (call_has_arguments (tokens !! (i + 2)%nat))) else None).

(** A token of the kind at the index. *)
Definition kind_at (k : TokenKind) (tokens : list Token) (i : nat) : bool := match tokens !! i with Some t => is_kind k t | None => false end.

(** One iteration: the dependency that the token at [i] adds, if any. *)
Definition dependency_at (body : str) (tokens : list Token) (i : nat) (token : Token) : option (option IndexedCallDependency) :=
  if negb (is_kind Identifier token) then Some None
  else
    identifier ← token_text body token;
    if is_call_keyword identifier then Some None
    else
      dot_after ← is_period body (tokens !! (i + 1)%nat);
      match tokens !! (i + 2)%nat with
      | Some method =>
          if dot_after && is_kind Identifier method && is_open (tokens !! (i + 3)%nat) then
            name ← token_text body method;
            Some (Some (mkDependency (Some identifier) (Some (span_u32 token)) name (span_u32 method) true))
          else plain_call body tokens i token identifier
      | None => plain_call body tokens i token identifier
      end.

Fixpoint dependencies_from (body : str) (tokens : list Token) (i : nat) (rest : list Token) (out : list IndexedCallDependency) :
    option (list IndexedCallDependency) :=
  match rest with
  | [] => Some out
  | token :: rest =>
      d ← dependency_at body tokens i token;
      dependencies_from body tokens (S i) rest (out ++ option_list d)
  end.

Definition collect_dependencies (body : str) : Parse (list IndexedCallDependency) str :=
  parse! tokens := lex_text body in
  out ← dependencies_from body tokens 0 tokens [];
  Some (Ok out).

(** ** The index of a file *)

(** The names and the types of the parameters. *)
Fixpoint intern_names (names : list str) (t : TypeTable) (out : list TypeId) : TypeTable * Result (list TypeId) TypeError :=
  match names with
  | [] => (t, Ok out)
  | n :: names =>
      match resolve_or_intern n t with
      | (t, Err e) => (t, Err e)
      | (t, Ok id) => intern_names names t (out ++ [id])
      end
  end.

(** The contracts of a function; an error is a text at the signature. *)
Definition parse_contracts (f : ParsedFunctionSignature) : Result (option HostExport * option (list str) * option (list str)) str :=
  let? host_export := parse_host_export f in
  let? effects := parse_effect_contract (fn_annotations f) in
  let? requires := parse_requires_contract (fn_annotations f) in
  Ok (host_export, effects, requires).

Definition signature_hash_of (f : ParsedFunctionSignature) (params : list TypeId) (return_type : TypeId) (export : option HostExport) : Z :=
  let hash := hash_signature (hash_text (fn_name f)) params return_type (existsb (is_named "inline") (fn_annotations f)) in
  match export with Some e => mix hash (hash_text (symbol e)) | None => hash end.

Definition body_hash_of (body : str) (requires : option (list str)) : Z :=
  match requires with
  | Some requirements => foldl (λ hash r, mix hash (hash_text r)) (mix (hash_text body) (hash_text (string_bytes "@requires"))) requirements
  | None => hash_text body
  end.

(** The record of a function whose types are interned. *)
Definition indexed_function (source : str) (f : ParsedFunctionSignature) (params : list TypeId) (return_type : TypeId) :
    Parse IndexedFunction IndexDiagnostic :=
  match parse_contracts f with
  | Err e => Some (Err (diagnostic_for_function f (IndexText e) (fn_signature_range f)))
  | Ok (export, effects, requires) =>
      match str_slice source (fn_body_range f).1 (fn_body_range f).2 with
      | None => Some (Err (diagnostic_for_function f (IndexText (string_bytes "invalid function body range")) (fn_body_range f)))
      | Some body =>
          r ← collect_dependencies body;
          match r with
          | Err e => Some (Err (diagnostic_for_function f (IndexText e) (fn_body_range f)))
          | Ok dependencies =>
              Some (Ok (mkIndexedFunction (fn_name f) (fn_generic_parameters f) (hash_text (fn_name f))
                (range_u32 (fn_body_range f)) (range_u32 (fn_signature_range f))
                (signature_hash_of f params return_type export) (body_hash_of body requires)
                (param_name <$> fn_params f) params (param_type_name <$> fn_params f) return_type
                (existsb (is_named "inline") (fn_annotations f)) export effects requires dependencies))
          end
      end
  end.

(** The types of a function, then its record. *)
Definition index_function (source : str) (f : ParsedFunctionSignature) (t : TypeTable) :
    option (TypeTable * Result IndexedFunction IndexDiagnostic) :=
  let failed e := Err (diagnostic_for_function f (IndexTypeError e) (fn_signature_range f)) in
  match intern_names (param_type_name <$> fn_params f) t [] with
  | (t, Err e) => Some (t, failed e)
  | (t, Ok params) =>
      match resolve_or_intern (fn_return_type_name f) t with
      | (t, Err e) => Some (t, failed e)
      | (t, Ok return_type) => r ← indexed_function source f params return_type; Some (t, r)
      end
  end.

Fixpoint index_parsed_functions (source : str) (functions : list ParsedFunctionSignature) (t : TypeTable) (out : list IndexedFunction) :
    option (TypeTable * Result (list IndexedFunction) IndexDiagnostic) :=
  match functions with
  | [] => Some (t, Ok out)
  | f :: functions =>
      '(t, r) ← index_function source f t;
      match r with
      | Err e => Some (t, Err e)
      | Ok g => index_parsed_functions source functions t (out ++ [g])
      end
  end.

Definition index_file_with_diagnostic (source : str) (t : TypeTable) : option (TypeTable * Result (list IndexedFunction) IndexDiagnostic) :=
  r ← parse_top_level_functions_with_diagnostic source;
  match r with
  | Err d => Some (t, Err (of_parser_diagnostic d))
  | Ok functions => index_parsed_functions source functions t []
  end.

Definition index_file (source : str) (t : TypeTable) : option (TypeTable * Result (list IndexedFunction) IndexMessage) :=
  '(t, r) ← index_file_with_diagnostic source t; Some (t, map_err ix_message r).

(** ** Calls, by the callee

    The loop finds a call with a receiver at the receiver, two tokens before the callee.
    [call_at] says what each callee should give. *)

Lemma omap_step {A B} (f : A → option B) x l : omap f (x :: l) = option_list (f x) ++ omap f l.
Proof. simpl. by destruct (f x). Qed.

Section calls.
Context (body : str) (tokens : list Token).

Definition text_at (i : nat) : str := match tokens !! i with Some t => take (end_ t - start t) (drop (start t) body) | None => [] end.
Definition span_at (i : nat) : Z * Z := match tokens !! i with Some t => span_u32 t | None => (0, 0) end.
Definition period_at (i : nat) : bool := kind_at Other tokens i && bool_decide (text_at i = [PERIOD]).
Definition keyword_at (i : nat) : bool := is_call_keyword (text_at i).

(** [p] holds [k] tokens before. *)
Definition before (p : nat → bool) (i k : nat) : bool := (k <=? i)%nat && p (i - k)%nat.

Definition arguments_at (i : nat) : bool := match tokens !! i with Some t => negb (is_kind RParen t) | None => false end.

(** The call whose callee is the token at [i]: an identifier before a parenthesis, that is
    not a keyword, or whose receiver is an identifier that is not one. *)
Definition call_at (i : nat) : option IndexedCallDependency :=
  if kind_at Identifier tokens i && kind_at LParen tokens (i + 1) then
    if before period_at i 1 && before (kind_at Identifier tokens) i 2 then
      if keyword_at (i - 2) then None
      else Some (mkDependency (Some (text_at (i - 2))) (Some (span_at (i - 2))) (text_at i) (span_at i) true)
    else if keyword_at i then None
    else Some (mkDependency None None (text_at i) (span_at i) (before period_at i 1 || arguments_at (i + 2)))
  else None.

(** A receiver and its method. *)
Definition method_at (i : nat) : bool :=
  kind_at Identifier tokens i && negb (keyword_at i) && period_at (i + 1) && kind_at Identifier tokens (i + 2) && kind_at LParen tokens (i + 3).

(** What the loop adds at the token. *)
Definition added_at (i : nat) : option IndexedCallDependency :=
  if kind_at Identifier tokens i && negb (keyword_at i) then
    if method_at i then Some (mkDependency (Some (text_at i)) (Some (span_at i)) (text_at (i + 2)) (span_at (i + 2)) true)
    else if before period_at i 1 then
      (if negb (before (kind_at Identifier tokens) i 2) && kind_at LParen tokens (i + 1)
       then Some (mkDependency None None (text_at i) (span_at i) true) else None)
    else if kind_at LParen tokens (i + 1) then Some (mkDependency None None (text_at i) (span_at i) (arguments_at (i + 2))) else None
  else None.

Lemma kind_at_unique i k k' : kind_at k tokens i = true → kind_at k' tokens i = true → k = k'.
Proof. unfold kind_at, is_kind. destruct (tokens !! i); [|done]. by intros <-%bool_decide_eq_true <-%bool_decide_eq_true. Qed.

Lemma kind_not i k k' : kind_at k tokens i = true → k ≠ k' → kind_at k' tokens i = false.
Proof. intros H Hk. destruct (kind_at k' tokens i) eqn:E; [|done]. by destruct (Hk (kind_at_unique _ _ _ H E)). Qed.

Lemma period_other i : period_at i = true → kind_at Other tokens i = true.
Proof. unfold period_at. by intros [? _]%andb_true_iff. Qed.

Lemma period_not i k : kind_at k tokens i = true → k ≠ Other → period_at i = false.
Proof. intros H Hk. unfold period_at. by rewrite (kind_not i k Other H Hk). Qed.

(** Without a receiver before it, a token gives its own call. *)
Lemma added_call i : before method_at i 2 = false → method_at i = false → added_at i = call_at i.
Proof.
  intros H2 Hm. unfold added_at, call_at. rewrite Hm. destruct (kind_at Identifier tokens i) eqn:Ei; [|done]. cbn [andb].
  unfold before in *. destruct (kind_at LParen tokens (i + 1)) eqn:Eo; [|rewrite andb_false_r; by repeat case_match].
  destruct ((1 <=? i)%nat && period_at (i - 1)%nat) eqn:Ep; cbn [andb orb].
  - destruct ((2 <=? i)%nat && kind_at Identifier tokens (i - 2)) eqn:Er; [|cbn [negb andb]; by destruct (keyword_at i)].
    assert (keyword_at (i - 2) = true) as ->; [|by destruct (negb _)].
    apply andb_true_iff in Ep as [Hi Ep], Er as [Hi2 Er]. rewrite Hi2 in H2. cbn [andb] in H2. apply Nat.leb_le in Hi2.
    revert H2. unfold method_at. replace (i - 2 + 1)%nat with (i - 1)%nat by lia. replace (i - 2 + 2)%nat with i by lia. replace (i - 2 + 3)%nat with (i + 1)%nat by lia.
    rewrite Er, Ep, Ei, Eo. by destruct (keyword_at (i - 2)).
  - by destruct (keyword_at i).
Qed.

(** A receiver gives the call of its method, and the two tokens after it nothing. *)
Lemma added_method i : method_at i = true →
  added_at i = call_at (i + 2) ∧ added_at (i + 1) = None ∧ added_at (i + 2) = None
  ∧ call_at i = None ∧ call_at (i + 1) = None ∧ method_at (i + 1) = false ∧ method_at (i + 2) = false.
Proof.
  intros Hm. pose proof Hm as Hm'. unfold method_at in Hm'. repeat (apply andb_true_iff in Hm' as [Hm' ?]).
  rename Hm' into Hi. assert (kind_at Identifier tokens (i + 1) = false) as Hn1 by (eapply kind_not; [by apply period_other|done]).
  assert (kind_at LParen tokens (i + 1) = false) as Hn2 by (eapply kind_not; [by apply period_other|done]).
  assert (period_at (i + 3) = false) as Hn3 by (by eapply period_not).
  assert (method_at (i + 2) = false) as Hm2.
  { unfold method_at. replace (i + 2 + 1)%nat with (i + 3)%nat by lia. rewrite Hn3. by rewrite !andb_false_r. }
  assert (before period_at (i + 2) 1 = true) as Hb1.
  { unfold before. replace (i + 2 - 1)%nat with (i + 1)%nat by lia. apply andb_true_iff. split; [apply Nat.leb_le; lia|done]. }
  assert (before (kind_at Identifier tokens) (i + 2) 2 = true) as Hb2.
  { unfold before. replace (i + 2 - 2)%nat with i by lia. apply andb_true_iff. split; [apply Nat.leb_le; lia|done]. }
  split_and!; [| | | | | |done].
  - unfold added_at, call_at. rewrite Hm, Hi, Hb1, Hb2. replace (i + 2 + 1)%nat with (i + 3)%nat by lia. replace (i + 2 - 2)%nat with i by lia.
    destruct (keyword_at i); [done|]. cbn [negb andb]. by match goal with Ha : kind_at Identifier tokens (i + 2) = true, Hb : kind_at LParen tokens (i + 3) = true |- _ => rewrite Ha, Hb end.
  - unfold added_at. by rewrite Hn1.
  - unfold added_at. rewrite Hm2, Hb1, Hb2. by destruct (_ && _).
  - unfold call_at. by rewrite Hn2, andb_false_r.
  - unfold call_at. by rewrite Hn1.
  - unfold method_at. by rewrite Hn1.
Qed.

Lemma added_calls n : ∀ i, (i + n = length tokens)%nat → before method_at i 1 = false → before method_at i 2 = false →
  omap added_at (seq i n) = omap call_at (seq i n).
Proof.
  induction n as [n IH] using lt_wf_ind. intros i Hn H1 H2. destruct n as [|n]; [done|]. destruct (method_at i) eqn:Em.
  - assert (i + 3 < length tokens)%nat as Hlen.
    { unfold method_at in Em. apply andb_true_iff in Em as [_ Em]. unfold kind_at in Em. destruct (tokens !! (i + 3)%nat) eqn:El; [|done].
      by apply lookup_lt_Some in El. }
    destruct n as [|[|n]]; [lia..|]. destruct (added_method i Em) as (Ha & Hb & Hc & Hd & He & Hf & Hg). cbn [seq].
    replace (S i) with (i + 1)%nat by lia. replace (S (i + 1)) with (i + 2)%nat by lia. replace (S (i + 2)) with (i + 3)%nat by lia.
    rewrite !omap_step, Hb, Hc, Hd, He, Ha. 
    assert (omap added_at (seq (i + 3) n) = omap call_at (seq (i + 3) n)) as ->; [|done].
    apply IH; [lia|lia|..]; unfold before; [replace (i + 3 - 1)%nat with (i + 2)%nat by lia; rewrite Hg|replace (i + 3 - 2)%nat with (i + 1)%nat by lia; rewrite Hf];
      apply andb_false_r.
  - cbn [seq]. rewrite !omap_step, added_call by done. f_equal.
    apply (IH n); [lia|lia|..]; unfold before; [replace (S i - 1)%nat with i by lia; by rewrite Em, andb_false_r|].
    unfold before in H1. destruct i as [|i]; [done|]. by replace (S (S i) - 2)%nat with (S i - 1)%nat by lia.
Qed.

(** *** The loop, which slices the text *)

Lemma text_at_Some i t s : tokens !! i = Some t → token_text body t = Some s → text_at i = s.
Proof.
  intros Hi. unfold text_at, token_text, str_slice. rewrite Hi. destruct (_ && _); [|done]. by intros [= <-].
Qed.

Lemma is_period_Some i b : is_period body (tokens !! i) = Some b → b = period_at i.
Proof.
  unfold is_period, period_at, kind_at. destruct (tokens !! i) as [t|] eqn:Ei; [|by intros [= <-]]. destruct (is_kind Other t); [|by intros [= <-]].
  destruct (token_text body t) as [s|] eqn:Es; [|done]. intros [= <-]. by rewrite (text_at_Some i t s).
Qed.

Lemma token_before_period i k b : is_period body (token_before tokens i k) = Some b → b = before period_at i k.
Proof. unfold token_before, before. destruct (k <=? i)%nat; [apply is_period_Some|by intros [= <-]]. Qed.

Lemma plain_call_Some i t s d : tokens !! i = Some t → token_text body t = Some s → plain_call body tokens i t s = Some d →
  d = if before period_at i 1 then
        (if negb (before (kind_at Identifier tokens) i 2) && kind_at LParen tokens (i + 1) then Some (mkDependency None None (text_at i) (span_at i) true) else None)
      else if kind_at LParen tokens (i + 1) then Some (mkDependency None None (text_at i) (span_at i) (arguments_at (i + 2))) else None.
Proof.
  intros Hi Hs. unfold plain_call. destruct (is_period _ _) as [b|] eqn:Eb; [|done]. apply token_before_period in Eb as ->. intros [= <-].
  unfold span_at. rewrite Hi, (text_at_Some i t s Hi Hs).
  assert (is_identifier (token_before tokens i 2) = before (kind_at Identifier tokens) i 2) as ->.
  { unfold token_before, before, kind_at. by destruct (2 <=? i)%nat. }
  done.
Qed.

Lemma dependency_at_Some i t d : tokens !! i = Some t → dependency_at body tokens i t = Some d → d = added_at i.
Proof.
  intros Hi. unfold dependency_at, added_at. assert (kind_at Identifier tokens i = is_kind Identifier t) as -> by (unfold kind_at; by rewrite Hi).
  destruct (is_kind Identifier t) eqn:Ek; cbn [negb andb]; [|by intros [= <-]]. destruct (token_text body t) as [s|] eqn:Es; [|done].
  cbn [mbind option_bind]. unfold keyword_at. rewrite (text_at_Some i t s Hi Es). destruct (is_call_keyword s) eqn:Ekw; cbn [negb]; [by intros [= <-]|].
  destruct (is_period body (tokens !! (i + 1)%nat)) as [dot|] eqn:Ed; [|done]. apply is_period_Some in Ed as ->. cbn [mbind option_bind].
  unfold method_at. assert (kind_at Identifier tokens i = true) as -> by (unfold kind_at; by rewrite Hi). cbn [andb].
  unfold keyword_at. rewrite (text_at_Some i t s Hi Es), Ekw. cbn [negb andb].
  unfold kind_at at 1 2. destruct (tokens !! (i + 2)%nat) as [method|] eqn:Em.
  - change (is_open (tokens !! (i + 3)%nat)) with (kind_at LParen tokens (i + 3)). unfold kind_at at 1.
    destruct (period_at (i + 1) && is_kind Identifier method && _) eqn:Ecase.
    + destruct (token_text body method) as [n|] eqn:En; [|done]. intros [= <-]. unfold span_at. rewrite Hi, Em. by rewrite (text_at_Some _ _ _ Em En).
    + intros Hp. pose proof (plain_call_Some _ _ _ _ Hi Es Hp) as ->. by rewrite (text_at_Some i t s Hi Es).
  - rewrite !andb_false_r. intros Hp. pose proof (plain_call_Some _ _ _ _ Hi Es Hp) as ->. by rewrite (text_at_Some i t s Hi Es).
Qed.

Lemma dependencies_from_Some rest : ∀ i out deps, (∀ j t, rest !! j = Some t → tokens !! (i + j)%nat = Some t) →
  dependencies_from body tokens i rest out = Some deps → deps = out ++ omap added_at (seq i (length rest)).
Proof.
  induction rest as [|t rest IH]; intros i out deps Hrest; cbn [dependencies_from].
  { intros [= <-]. by rewrite app_nil_r. }
  destruct (dependency_at body tokens i t) as [d|] eqn:Ed; [|done]. cbn [mbind option_bind].
  apply dependency_at_Some in Ed as ->; [|specialize (Hrest 0%nat t eq_refl); by rewrite Nat.add_0_r in Hrest].
  intros ->%IH; [|intros j u Hj; specialize (Hrest (S j) u Hj); by replace (S i + j)%nat with (i + S j)%nat by lia].
  rewrite <- app_assoc. cbn [length seq]. by rewrite omap_step.
Qed.
End calls.

Lemma keyword_period_total body tokens : ParserTotal.readable body tokens →
  (∀ i, is_Some (is_period body (tokens !! i))) ∧ ∀ t, t ∈ tokens → is_Some (token_text body t).
Proof.
  intros Hr. assert (∀ t, t ∈ tokens → is_Some (token_text body t)) as Ht.
  { intros t Hin. apply ParserTotal.text_total. destruct Hr as [Ha _]. rewrite Forall_forall in Ha. by apply Ha. }
  split; [|done]. intros i. unfold is_period. destruct (tokens !! i) as [t|] eqn:Ei; [|done]. destruct (is_kind Other t); [|done].
  apply list_elem_of_lookup_2 in Ei. destruct (Ht t Ei) as [s ->]. done.
Qed.

Lemma dependency_at_total body tokens i t : ParserTotal.readable body tokens → tokens !! i = Some t → is_Some (dependency_at body tokens i t).
Proof.
  intros Hr Hi. destruct (keyword_period_total body tokens Hr) as [Hp Ht]. unfold dependency_at. destruct (negb _); [done|].
  destruct (Ht t) as [s ->]; [by eapply list_elem_of_lookup_2|]. cbn [mbind option_bind]. destruct (is_call_keyword s); [done|].
  destruct (Hp (i + 1)%nat) as [dot ->]. cbn [mbind option_bind]. assert (is_Some (plain_call body tokens i t s)) as Hplain.
  { unfold plain_call, token_before. destruct (1 <=? i)%nat; [|done]. by destruct (Hp (i - 1)%nat) as [b ->]. }
  destruct (tokens !! (i + 2)%nat) as [method|] eqn:Em; [|done]. destruct (_ && _); [|done].
  by destruct (Ht method) as [n ->]; [eapply list_elem_of_lookup_2|].
Qed.

Lemma dependencies_from_total body tokens rest : ParserTotal.readable body tokens →
  ∀ i out, (∀ j t, rest !! j = Some t → tokens !! (i + j)%nat = Some t) → is_Some (dependencies_from body tokens i rest out).
Proof.
  intros Hr. induction rest as [|t rest IH]; intros i out Hrest; [done|]. cbn [dependencies_from].
  destruct (dependency_at_total body tokens i t Hr) as [d ->]; [specialize (Hrest 0%nat t eq_refl); by rewrite Nat.add_0_r in Hrest|].
  apply IH. intros j u Hj. specialize (Hrest (S j) u Hj). by replace (S i + j)%nat with (i + S j)%nat by lia.
Qed.

(** The calls of the tokens of a body. *)
Definition calls_of (body : str) (tokens : list Token) : list IndexedCallDependency := omap (call_at body tokens) (seq 0 (length tokens)).

Lemma dependencies_calls body tokens deps : dependencies_from body tokens 0 tokens [] = Some deps → deps = calls_of body tokens.
Proof.
  intros ->%dependencies_from_Some; [|done]. apply added_calls; [lia|done..].
Qed.

Lemma collect_Ok body deps : collect_dependencies body = Some (Ok deps) → ∃ tokens, lex_text body = Some (Ok tokens) ∧ deps = calls_of body tokens.
Proof.
  unfold collect_dependencies. destruct (lex_text body) as [[tokens|e]|]; [|done..]. cbn [parse_bind mbind option_bind].
  destruct (dependencies_from _ _ _ _ _) as [out|] eqn:Ed; [|done]. intros [= ->]. exists tokens. split; [done|]. by apply dependencies_calls.
Qed.

Lemma collect_total body : sliceable body → is_Some (collect_dependencies body).
Proof.
  intros Hs. apply pass_total; [done|]. intros tokens Hr. destruct (dependencies_from_total body tokens tokens Hr 0 []) as [out ->]; [done|]. done.
Qed.

(** C18 The calls that a body depends on are exactly its callees, in the order of the text:
    every identifier before a parenthesis that is not a keyword, with its receiver when the
    identifier follows one and a period, and never twice although the loop finds a method
    at its receiver.  A body whose tokens end between characters is always answered, and
    refused only by the lexer. *)
Theorem call_dependencies_exact body : sliceable body →
  ∃ r, lex_text body = Some r ∧ collect_dependencies body = Some (match r with Ok tokens => Ok (calls_of body tokens) | Err e => Err e end).
Proof.
  intros Hs. destruct (collect_total body Hs) as [x Hx]. destruct (lex_text body) as [[tokens|e]|] eqn:El.
  - exists (Ok tokens). split; [done|]. destruct x as [deps|e].
    + rewrite Hx. apply collect_Ok in Hx as (tokens' & Hl & ->). congruence.
    + revert Hx. unfold collect_dependencies. rewrite El. cbn [parse_bind mbind option_bind]. by destruct (dependencies_from _ _ _ _ _).
  - exists (Err e). split; [done|]. revert Hx. unfold collect_dependencies. by rewrite El.
  - revert Hx. unfold collect_dependencies. by rewrite El.
Qed.

Definition sample_body : str := string_bytes "{ if (ready()) { audio.play(x); } items[0].push(y); return f(g(1), h()); }".

Lemma call_dependencies_exact_witness :
  sliceable sample_body ∧ ∃ tokens, lex_text sample_body = Some (Ok tokens)
  ∧ (λ d, (dep_qualifier d, dep_name d, dep_has_arguments d)) <$> calls_of sample_body tokens
    = [(None, string_bytes "ready", false); (Some (string_bytes "audio"), string_bytes "play", true); (None, string_bytes "push", true);
       (None, string_bytes "f", true); (None, string_bytes "g", true); (None, string_bytes "h", false)].
Proof.
  assert (sliceable sample_body) as Hs by (apply ascii_sliceable; apply (bool_decide_unpack (ascii sample_body)); vm_compute; exact I).
  split; [exact Hs|]. destruct (call_dependencies_exact sample_body Hs) as (r & Hr & _). destruct r as [tokens|e]; [|vm_compute in Hr; discriminate Hr].
  exists tokens. split; [exact Hr|]. vm_compute in Hr. injection Hr as <-. vm_compute. reflexivity.
Defined.


(** ** The index of a file is exact *)

Lemma intern_names_spec names : ∀ t out t' r, Table t → intern_names names t out = (t', r) →
  Table t' ∧ extends t t' ∧
  match r with Ok ids => ∃ new, ids = out ++ new ∧ Forall2 (λ n id, denote t' (trim n) = Some id) names new | Err e => clean_error e end.
Proof.
  induction names as [|n names IH]; intros t out t' r Ht; cbn [intern_names].
  { intros [= <- <-]. split; [done|]. split; [done|]. exists []. rewrite app_nil_r. split; [done|constructor]. }
  pose proof (intern_inner_spec (trim n) t Ht (trim_trim n)) as (Ht1 & Hx1 & Hr). change (resolve_or_intern_inner (trim n) t) with (resolve_or_intern n t) in *.
  destruct (resolve_or_intern n t) as [t1 [id|e]]; cbn [fst snd] in *; [|intros [= <- <-]; by split_and!].
  intros Hn. destruct (IH _ _ _ _ Ht1 Hn) as (Ht' & Hx & Hres). split; [done|]. split; [by etrans|]. destruct r as [ids|e]; [|done].
  destruct Hres as (new & -> & Hnew). exists (id :: new). split; [by rewrite <- app_assoc|]. constructor; [|done].
  eapply denote_mono; [exact Ht1|apply Ht'|done|done].
Qed.

(** The record of a function of the source, whose types are those of the table. *)
Record indexes (source : str) (t : TypeTable) (f : ParsedFunctionSignature) (g : IndexedFunction) : Prop := {
  indexes_params : Forall2 (λ n id, resolve t n = Some id) (param_type_name <$> fn_params f) (if_params g);
  indexes_return : resolve t (fn_return_type_name f) = Some (if_return_type g);
  indexes_record : indexed_function source f (if_params g) (if_return_type g) = Some (Ok g);
}.

Lemma denote_resolve t t' n id : Table t → Table t' → extends t t' → denote t (trim n) = Some id → resolve t' n = Some id.
Proof. intros Ht Ht' Hx Hd. unfold resolve. rewrite resolve_by_keys_existing by done. eapply denote_mono; [exact Ht|apply Ht'|done|done]. Qed.

Lemma index_function_spec source f t t' r : Table t → index_function source f t = Some (t', r) →
  Table t' ∧ extends t t' ∧ ∀ g, r = Ok g → ∀ t'', Table t'' → extends t' t'' → indexes source t'' f g.
Proof.
  intros Ht. unfold index_function. destruct (intern_names _ t []) as [t1 [params|e]] eqn:Ep;
    destruct (intern_names_spec _ _ _ _ _ Ht Ep) as (Ht1 & Hx1 & Hp); [|by intros [= <- <-]].
  destruct Hp as (new & -> & Hp). cbn [app].
  pose proof (intern_inner_spec (trim (fn_return_type_name f)) t1 Ht1 (trim_trim _)) as (Ht2 & Hx2 & Hr).
  change (resolve_or_intern_inner (trim (fn_return_type_name f)) t1) with (resolve_or_intern (fn_return_type_name f) t1) in *.
  destruct (resolve_or_intern (fn_return_type_name f) t1) as [t2 [return_type|e]]; cbn [fst snd] in *.
  2: { intros [= <- <-]. split_and!; [done|by etrans|done]. }
  destruct (indexed_function source f new return_type) as [r'|] eqn:Ei; [|done]. intros [= <- <-]. split; [done|]. split; [by etrans|].
  intros g -> t'' Ht'' Hx. assert (if_params g = new ∧ if_return_type g = return_type) as [Hg Hg'].
  { revert Ei. unfold indexed_function. destruct (parse_contracts f) as [[[export effects] requires]|]; [|done]. destruct (str_slice _ _ _); [|done].
    destruct (collect_dependencies _) as [[deps|]|]; [|done..]. by intros [= <-]. }
  split; rewrite ?Hg, ?Hg'; [|by eapply (denote_resolve t2)|done].
  eapply Forall2_impl; [exact Hp|]. intros n id Hd. eapply denote_resolve; [exact Ht1|done|by etrans|done].
Qed.

Lemma index_parsed_functions_spec source functions : ∀ t out t' r, Table t → index_parsed_functions source functions t out = Some (t', r) →
  Table t' ∧ extends t t' ∧ ∀ gs, r = Ok gs → ∃ new, gs = out ++ new
    ∧ ∀ t'', Table t'' → extends t' t'' → Forall2 (indexes source t'') functions new.
Proof.
  induction functions as [|f functions IH]; intros t out t' r Ht; cbn [index_parsed_functions].
  { intros [= <- <-]. split_and!; [done..|]. intros gs [= <-]. exists []. split; [by rewrite app_nil_r|]. constructor. }
  destruct (index_function source f t) as [[t1 r1]|] eqn:Ef; [|done]. cbn [mbind option_bind].
  destruct (index_function_spec _ _ _ _ _ Ht Ef) as (Ht1 & Hx1 & Hg). destruct r1 as [g|e]; [|by intros [= <- <-]].
  intros Hrest. destruct (IH _ _ _ _ Ht1 Hrest) as (Ht' & Hx & Hgs). split; [done|]. split; [by etrans|]. intros gs Hr.
  destruct (Hgs gs Hr) as (new & -> & Hnew). exists (g :: new). split; [by rewrite <- app_assoc|]. intros t'' Ht'' Hx''. constructor; [|by apply Hnew].
  apply Hg; [done..|]. by etrans.
Qed.

(** C17 The index of a file has one record for each function that the parser finds, in order.
    The types of a record are those that the names of its signature resolve to in the table
    that is left, and in any that the compiler makes of it; the rest of the record is that
    of the function alone.  The table stays exact and keeps its types, also when the file is
    refused. *)
Theorem index_file_exact source t t' r : Table t → index_file_with_diagnostic source t = Some (t', r) →
  Table t' ∧ extends t t' ∧
  ∀ gs, r = Ok gs → ∃ fs, parse_top_level_functions_with_diagnostic source = Some (Ok fs)
    ∧ ∀ t'', rtc TableStep t' t'' → Forall2 (indexes source t'') fs gs.
Proof.
  intros Ht. unfold index_file_with_diagnostic. destruct (parse_top_level_functions_with_diagnostic source) as [[fs|d]|] eqn:Ep; [| |done]; cbn [mbind option_bind].
  2: { intros [= <- <-]. by split_and!. }
  intros Hi. destruct (index_parsed_functions_spec _ _ _ _ _ _ Ht Hi) as (Ht' & Hx & Hg). split_and!; [done..|]. intros gs Hr.
  destruct (Hg gs Hr) as (new & -> & Hnew). exists fs. split; [done|]. intros t'' Hs. destruct (steps_table _ _ Ht' Hs) as [Ht'' Hx'']. by apply Hnew.
Qed.

(** *** It is answered for every ASCII source *)

Lemma indexed_function_total source f params return_type : ascii source → is_Some (indexed_function source f params return_type).
Proof.
  intros Ha. unfold indexed_function. destruct (parse_contracts f) as [[[export effects] requires]|]; [|done].
  destruct (str_slice source _ _) as [body|] eqn:Eb; [|done]. destruct (collect_total body) as [[deps|e] ->]; [|done..].
  apply ascii_sliceable. revert Eb. unfold str_slice. destruct (_ && _); [|done]. intros [= <-]. unfold ascii. by apply Forall_take, Forall_drop.
Qed.

Lemma index_parsed_functions_total source functions : ascii source → ∀ t out, is_Some (index_parsed_functions source functions t out).
Proof.
  intros Ha. induction functions as [|f functions IH]; intros t out; [done|]. cbn [index_parsed_functions].
  assert (is_Some (index_function source f t)) as [[t1 [g|e]] ->]; [|apply IH|done].
  unfold index_function. destruct (intern_names _ t []) as [t1 [params|e]]; [|done]. destruct (resolve_or_intern _ t1) as [t2 [id|e]]; [|done].
  by destruct (indexed_function_total source f params id Ha) as [r ->].
Qed.

Lemma index_file_total source t : ascii source → is_Some (index_file_with_diagnostic source t).
Proof.
  intros Ha. unfold index_file_with_diagnostic. destruct (functions_impl_total source false (ascii_sliceable _ Ha)) as [[fs|d] Hf];
    unfold parse_top_level_functions_with_diagnostic; rewrite Hf; [|done]. by apply index_parsed_functions_total.
Qed.

(** An identifier before a character that is not ASCII: the parser accepts the function, and
    the loop over its body slices the first byte of the character, to compare it with a
    period. *)
Definition split_source : str := string_bytes "function f(): void { x " ++ [195; 169] ++ string_bytes "; }".

Example non_ascii_body_panics :
  is_ok <$> parse_top_level_functions split_source = Some true ∧ index_file split_source TypeTable_new = None.
Proof. vm_compute. done. Qed.

Definition indexed_source : str :=
  string_bytes "function @inline @effects(graphics, state.ui) draw(x: i32, names: i32[4]): bool { return audio.play(x); } function main(): void { draw(1, 2); }".

Lemma index_file_exact_witness :
  ∃ t' gs fs, index_file_with_diagnostic indexed_source TypeTable_new = Some (t', Ok gs)
    ∧ parse_top_level_functions_with_diagnostic indexed_source = Some (Ok fs) ∧ Forall2 (indexes indexed_source t') fs gs
    ∧ if_name <$> gs = [string_bytes "draw"; string_bytes "main"] ∧ if_params <$> gs = [[1; 8]; []].
Proof.
  destruct (index_file_with_diagnostic indexed_source TypeTable_new) as [[t' [gs|e]]|] eqn:E; [|vm_compute in E; discriminate E..].
  destruct (index_file_exact indexed_source TypeTable_new t' (Ok gs) new_table E) as (_ & _ & H). destruct (H gs eq_refl) as (fs & Hp & Hi).
  exists t', gs, fs. split; [reflexivity|]. split; [exact Hp|]. split; [apply Hi; constructor|]. vm_compute in E. injection E as <- <-.
  split; reflexivity.
Defined.

(** ** The hashes tell single changes apart *)

(** The inverse of the prime modulo [2 ^ 64]. *)
Definition FNV_INVERSE : Z := 14886173955864302971.

Lemma prime_inverse h : in_u 64 h → wrap 64 (wrap 64 (h * FNV_PRIME) * FNV_INVERSE) = h.
Proof.
  intros Hh. unfold wrap. rewrite Z.mul_mod_idemp_l by lia. rewrite <- Z.mul_assoc, <- Z.mul_mod_idemp_r by lia.
  replace ((FNV_PRIME * FNV_INVERSE) mod 2 ^ 64) with 1 by (vm_compute; reflexivity). rewrite Z.mul_1_r. by apply Z.mod_small.
Qed.

Lemma prime_cancel h k : in_u 64 h → in_u 64 k → wrap 64 (h * FNV_PRIME) = wrap 64 (k * FNV_PRIME) → h = k.
Proof. intros Hh Hk He. by rewrite <- (prime_inverse h Hh), <- (prime_inverse k Hk), He. Qed.

Lemma add_cancel a x y : in_u 64 x → in_u 64 y → wrap 64 (a + x) = wrap 64 (a + y) → x = y.
Proof.
  unfold wrap, in_u. intros Hx Hy He. apply (f_equal (λ z, (z - a) mod 2 ^ 64)) in He. rewrite !Zminus_mod_idemp_l in He.
  replace (a + x - a) with x in He by lia. replace (a + y - a) with y in He by lia. by rewrite !Z.mod_small in He.
Qed.

Lemma mix_range h x : in_u 64 (mix h x).
Proof. apply wrap_range. lia. Qed.

Lemma mix_state h k x : in_u 64 h → in_u 64 k → mix h x = mix k x → h = k.
Proof.
  intros Hh Hk He. apply prime_cancel; [done..|]. unfold mix in He. rewrite !(Z.add_comm _ x) in He.
  apply (add_cancel x) in He; [done|apply wrap_range; lia..].
Qed.

Lemma mix_argument h x y : in_u 64 x → in_u 64 y → mix h x = mix h y → x = y.
Proof. apply add_cancel. Qed.

Lemma mixes_state l : ∀ h k, in_u 64 h → in_u 64 k → foldl mix h l = foldl mix k l → h = k.
Proof.
  induction l as [|x l IH]; intros h k Hh Hk; [done|]. cbn [foldl]. intros He. eapply mix_state; [done..|].
  apply IH; [apply mix_range..|exact He].
Qed.

Lemma mixes_range l : ∀ h, in_u 64 h → in_u 64 (foldl mix h l).
Proof. induction l as [|x l IH]; intros h Hh; [done|]. apply IH, mix_range. Qed.

Lemma lxor_range h b : in_u 64 h → in_u 64 b → in_u 64 (Z.lxor h b).
Proof.
  unfold in_u. intros Hh Hb. assert (Z.lxor h b = Z.lxor h b mod 2 ^ 64) as ->; [|apply Z.mod_pos_bound; lia].
  apply Z.bits_inj_iff'. intros i Hi. destruct (Z.lt_ge_cases i 64) as [Hlt|Hge]; [by rewrite Z.mod_pow2_bits_low|].
  rewrite Z.mod_pow2_bits_high, Z.lxor_spec by lia.
  rewrite <- (Z.mod_small h (2 ^ 64)), <- (Z.mod_small b (2 ^ 64)) by done. by rewrite !Z.mod_pow2_bits_high by lia.
Qed.

Lemma hash_byte_range h b : in_u 64 (hash_byte h b).
Proof. apply wrap_range. lia. Qed.

Lemma hash_byte_cancel h k b c : in_u 64 h → in_u 64 k → in_u 8 b → in_u 8 c → hash_byte h b = hash_byte k c → Z.lxor h b = Z.lxor k c.
Proof.
  intros Hh Hk Hb Hc. assert (∀ z, in_u 8 z → in_u 64 z) as Hw by (unfold in_u; intros; lia). apply prime_cancel; apply lxor_range; auto.
Qed.

Lemma hash_bytes_state l : Forall (in_u 8) l → ∀ h k, in_u 64 h → in_u 64 k → foldl hash_byte h l = foldl hash_byte k l → h = k.
Proof.
  induction 1 as [|b l Hb _ IH]; intros h k Hh Hk; [done|]. cbn [foldl]. intros He%IH; [|apply hash_byte_range..].
  apply hash_byte_cancel in He; [|done..]. apply (f_equal (λ z, Z.lxor z b)) in He. by rewrite !Z.lxor_assoc, Z.lxor_nilpotent, !Z.lxor_0_r in He.
Qed.

Lemma hash_bytes_range l : ∀ h, in_u 64 h → in_u 64 (foldl hash_byte h l).
Proof. induction l as [|b l IH]; intros h Hh; [done|]. apply IH, hash_byte_range. Qed.

(** A single change is never lost in a hash.  The signature hash differs when only the
    hash of the name, the return type, one parameter type, or [inline] differs; the hash of
    a text differs when one byte of it differs. *)
Lemma hashes_tell_changes_apart name params return_type inline :
  in_u 64 name → in_u 16 return_type → Forall (in_u 16) params →
  (∀ name', in_u 64 name' → hash_signature name params return_type inline = hash_signature name' params return_type inline → name = name')
  ∧ (∀ r, in_u 16 r → hash_signature name params return_type inline = hash_signature name params r inline → return_type = r)
  ∧ (∀ i p q, in_u 16 q → params !! i = Some p →
       hash_signature name params return_type inline = hash_signature name (<[i := q]> params) return_type inline → p = q)
  ∧ (∀ b, hash_signature name params return_type inline = hash_signature name params return_type b → inline = b)
  ∧ (∀ text i b c, Forall (in_u 8) text → in_u 8 c → text !! i = Some b → hash_text text = hash_text (<[i := c]> text) → b = c).
Proof.
  intros Hn Hr Hp. assert (∀ z, in_u 16 z → in_u 64 z) as Hw by (unfold in_u; intros; lia).
  assert (∀ b : bool, in_u 64 (if b then 1 else 0)) as Hb by (intros []; unfold in_u; lia).
  assert (∀ l h, in_u 64 (foldl mix (mix h return_type) l)) as Hl by (intros; apply mixes_range, mix_range). split_and!.
  - intros name' Hn' He. unfold hash_signature in He. apply mix_state in He; [|apply Hl..]. apply mixes_state in He; [|apply mix_range..]. by apply mix_state in He.
  - intros r Hr' He. unfold hash_signature in He. apply mix_state in He; [|apply mixes_range, mix_range..].
    apply mixes_state in He; [|apply mix_range..]. apply mix_argument in He; auto.
  - intros i p q Hq Hi He. unfold hash_signature in He. apply mix_state in He; [|apply Hl..]. revert He.
    rewrite (insert_take_drop params i q) by (by eapply lookup_lt_Some). rewrite <- (take_drop_middle params i p Hi) at 1. rewrite !foldl_app. cbn [foldl].
    intros He. apply mixes_state in He; [|apply mix_range..]. apply mix_argument in He; [done| |by apply Hw].
    rewrite Forall_lookup in Hp. by apply Hw, (Hp i).
  - intros b He. unfold hash_signature in He. apply mix_argument in He; [|apply Hb..]. by destruct inline, b.
  - intros text i b c Ht Hc Hi. unfold hash_text. rewrite (insert_take_drop text i c) by (by eapply lookup_lt_Some).
    rewrite <- (take_drop_middle text i b Hi) at 1. rewrite !foldl_app. cbn [foldl].
    intros He. apply hash_bytes_state in He; [|by apply Forall_drop|apply hash_byte_range..].
    assert (in_u 8 b) as Hb' by (rewrite Forall_lookup in Ht; by apply (Ht i)).
    assert (in_u 64 (foldl hash_byte FNV_BASIS (take i text))) as Hs by (apply hash_bytes_range; unfold in_u, FNV_BASIS; lia).
    apply hash_byte_cancel in He; [|done..]. set (h := foldl _ _ _) in *. apply (f_equal (Z.lxor h)) in He.
    by rewrite <- !Z.lxor_assoc, Z.lxor_nilpotent, !Z.lxor_0_l in He.
Qed.

(** ** Contracts *)

Lemma contract_loop_exact refuse_argument duplicate arguments : ∀ out regions,
  contract_loop refuse_argument duplicate arguments out = Ok regions ↔
  regions = out ++ (trim ∘ arg_text <$> arguments) ∧ Forall (λ a, refuse_argument (trim (arg_text a)) = None) arguments
  ∧ NoDup (trim ∘ arg_text <$> arguments) ∧ ∀ x, x ∈ out → x ∉ (trim ∘ arg_text <$> arguments).
Proof.
  induction arguments as [|a arguments IH]; intros out regions; cbn [contract_loop fmap list_fmap].
  { rewrite app_nil_r. split; [intros [= ->]|by intros (-> & _)]. split_and!; [done|done|constructor|intros x _; apply not_elem_of_nil]. }
  rewrite Forall_cons, NoDup_cons. destruct (refuse_argument (trim (arg_text a))) as [e|] eqn:Er; [split; [done|by intros (_ & [? _] & _)]|].
  case_bool_decide as Hin.
  - split; [done|]. intros (_ & _ & _ & Hout). destruct (Hout _ Hin). by left.
  - rewrite IH, <- app_assoc. cbn [app]. setoid_rewrite elem_of_app. setoid_rewrite not_elem_of_cons. setoid_rewrite list_elem_of_singleton.
    change (list_fmap _ _ (trim ∘ arg_text) arguments) with (trim ∘ arg_text <$> arguments). naive_solver.
Qed.

(** A contract is accepted exactly when it is declared once, with parentheses, and its
    regions are paths of names, all different; it is its regions. *)
Lemma effect_contract_exact annotations regions :
  parse_effect_contract annotations = Ok (Some regions) ↔
  ∃ a, annotations_named "effects" annotations = [a] ∧ ann_has_parentheses a = true ∧ regions = trim ∘ arg_text <$> ann_arguments a
    ∧ NoDup regions ∧ Forall (λ r, region_error r = None) regions.
Proof.
  unfold parse_effect_contract. destruct (annotations_named "effects" annotations) as [|a [|b l]]; [split; [done|by intros (? & ? & _)]| |split; [done|by intros (? & ? & _)]].
  destruct (ann_has_parentheses a) eqn:Ep; cbn [negb]; [|split; [done|intros (? & [= <-] & ? & _); congruence]].
  destruct (contract_loop _ _ _ _) as [r|e] eqn:Ec; cbn [result_bind].
  - apply contract_loop_exact in Ec as (-> & Hf & Hd & _). cbn [app]. split.
    + intros [= <-]. exists a. split_and!; [done..|]. by apply Forall_fmap.
    + by intros (? & [= <-] & _ & -> & _).
  - split; [done|]. intros (? & [= <-] & _ & -> & Hd & Hf). apply Forall_fmap in Hf. exfalso.
    assert (∀ r, contract_loop region_error (λ region, string_bytes "duplicate @effects region '" ++ region ++ string_bytes "'") (ann_arguments a) [] ≠ Ok r) as Hno by (intros r; by rewrite Ec).
    apply (Hno (trim ∘ arg_text <$> ann_arguments a)). apply contract_loop_exact. split_and!; [done..|]. intros x Hx. by apply not_elem_of_nil in Hx.
Qed.

(** ** The exports of a program *)

Definition record_ok (r : HostExportRecord) : Prop :=
  validate_export (er_signature r) = Ok tt ∧ er_symbol r = symbol (er_signature r) ∧ is_target (er_target_symbol r) = true.

Lemma validate_records_exact records : ∀ seen,
  validate_records records seen = Ok tt ↔ Forall record_ok records ∧ NoDup (er_symbol <$> records) ∧ ∀ s, s ∈ seen → s ∉ er_symbol <$> records.
Proof.
  induction records as [|r records IH]; intros seen; cbn [validate_records].
  { split; [|done]. intros _. split; [constructor|]. split; [constructor|]. intros s _. apply not_elem_of_nil. }
  rewrite Forall_cons, fmap_cons, NoDup_cons. unfold record_ok at 1. destruct (validate_export (er_signature r)) as [[]|e] eqn:Ev; cbn [result_bind]; [|split; [done|by intros [[[? _] _] _]]].
  destruct (negb (bool_decide (er_symbol r = symbol (er_signature r))) || bool_decide (er_symbol r ∈ seen)) eqn:Ec.
  - split; [done|]. intros ([(_ & Hs & _) _] & _ & Hseen). rewrite bool_decide_true in Ec by done. cbn [negb orb] in Ec. apply bool_decide_eq_true in Ec.
    destruct (Hseen _ Ec). by left.
  - apply orb_false_iff in Ec as [Hs%negb_false_iff%bool_decide_eq_true Hin%bool_decide_eq_false].
    destruct (is_target (er_target_symbol r)) eqn:Et; cbn [negb]; [|split; [done|by intros [[(_ & _ & ?) _] _]]].
    rewrite IH. setoid_rewrite elem_of_cons. naive_solver.
Qed.

Lemma target_of_id i : 0 ≤ i → is_target (target_prefix ++ show i) = true.
Proof.
  intros Hi. destruct (show_spec i Hi) as (Hd & Hn & _). unfold is_target.
  assert (strip_prefix target_prefix (target_prefix ++ show i) = Some (show i)) as -> by (unfold target_prefix; simpl; reflexivity).
  by destruct (show i).
Qed.

Lemma symbol_inj e e' : symbol e = symbol e' ↔ he_name e = he_name e'.
Proof. unfold symbol. split; [apply app_inj_1; done|by intros ->]. Qed.

Lemma export_records_spec files functions : ∀ records, mapM (export_record files) functions = Some records →
  (∀ f e, f ∈ functions → host_export f = Some e → validate_export e = Ok tt) → Forall (λ f, 0 ≤ id f) functions →
  Forall record_ok (omap (λ r, r) records) ∧ er_symbol <$> omap (λ r, r) records = symbol <$> omap host_export functions.
Proof.
  induction functions as [|f functions IH]; intros records; cbn [mapM]; [by intros [= <-]|].
  destruct (export_record files f) as [o|] eqn:Ef; [|done]. cbn [mbind option_bind].
  destruct (mapM (export_record files) functions) as [rest|] eqn:Er; [|done]. intros [= <-] Hv [Hid Hids]%Forall_cons.
  destruct (IH rest eq_refl) as [Hok Hs]; [intros g e Hg; apply Hv; by right|done|]. rewrite !omap_step. unfold export_record in Ef.
  destruct (host_export f) as [e|] eqn:Eh; [|by injection Ef as <-]. destruct (files !! Z.to_nat (file_id f)) as [file|]; [|done]. injection Ef as <-.
  cbn [option_list app fmap list_fmap]. split; [|simpl; f_equal; exact Hs]. constructor; [|done]. split_and!; simpl; [apply (Hv f); [by left|done]|done|by apply target_of_id].
Qed.

Lemma parsed_export_valid f e : parse_host_export f = Ok (Some e) → validate_export e = Ok tt.
Proof.
  unfold parse_host_export. destruct (annotations_named _ _) as [|a [|b l]]; [done| |done]. destruct (ann_arguments a) as [|argument [|c m]]; [done| |done].
  destruct (_ || _); [done|]. destruct (is_any_of _ _); [done|]. destruct (_ || _); [done|].
  destruct (validate_export _) as [[]|] eqn:Ev; [|done]. by intros [= <-].
Qed.

(** The exports that a compiler makes of functions with valid export signatures are
    valid exactly when no two functions export the same name, and only then is a header
    written for them. *)
Lemma compiled_exports_valid files functions exports :
  (∀ f e, f ∈ functions → host_export f = Some e → validate_export e = Ok tt) → Forall (λ f, 0 ≤ id f) functions →
  from_compiler files functions = Some exports →
  (validate_exports exports = Ok tt ↔ NoDup (he_name <$> omap host_export functions)) ∧ (is_ok (header exports) = true ↔ validate_exports exports = Ok tt).
Proof.
  intros Hv Hids. unfold from_compiler. destruct (mapM _ functions) as [records|] eqn:Em; [|done]. intros [= <-].
  destruct (export_records_spec _ _ _ Em Hv Hids) as [Hok Hs]. split.
  - unfold validate_exports. cbn [abi_version he_functions]. rewrite Z.eqb_refl. cbn [negb]. rewrite validate_records_exact.
    assert (NoDup (er_symbol <$> sort_by symbol_leb (omap (λ r, r) records)) ↔ NoDup (he_name <$> omap host_export functions)) as <-.
    { rewrite (sort_by_Permutation symbol_leb), Hs. generalize (omap host_export functions). intros l. induction l as [|e l IH]; [done|].
      rewrite !fmap_cons, !NoDup_cons, IH, !list_elem_of_fmap. setoid_rewrite symbol_inj. done. }
    split; [by intros (_ & ? & _)|]. intros Hd. split_and!; [by rewrite (sort_by_Permutation symbol_leb)|done|intros s Hin; by apply not_elem_of_nil in Hin].
  - unfold header. by destruct (validate_exports _) as [[]|].
Qed.
