(* ===== verification/ConstantIndex.v ===== *)
(** * The index of compile-time declarations

    Models [crates/stasis_compiler/src/frontend/constant_index.rs]: the index of the
    constants, constant groups and enums of the sources, what a name written in a module
    resolves to, and the evaluation of [i32] expressions in generic arguments.

    The index keeps its [BTreeMap]s as sorted lists.  [None] around a result is a panic of
    the declaration parser or a lack of fuel.  The names that are visible in a module are
    those of its dependency closure, which always answers on a loaded graph
    ([ModuleGraphProps.closures_are_exact]). *)

From S2P Require Import Prelude BTree Lexer Identity Text Imports ModuleGraph Functions Hir ParserTokens ParserFunctions ParserLayout Memo.
#[local] Open Scope Z_scope.
#[local] Set Warnings "-register-all,-notation-overridden".

(** ** Identities *)

#[export] Instance SourceTypeOrigin_eq_dec : EqDecision SourceTypeOrigin.
Proof. solve_decision. Defined.
#[export] Instance CompileTimeValueOwner_eq_dec : EqDecision CompileTimeValueOwner.
Proof. solve_decision. Defined.
#[export] Instance CompileTimeValueId_eq_dec : EqDecision CompileTimeValueId.
Proof. solve_decision. Defined.

(** The derived [Ord]. *)
Definition owner_key (o : CompileTimeValueOwner) : nat * list Z :=
  match o with FlatOwner => (0%nat, []) | GroupOwner g => (1%nat, g) | EnumOwner e => (2%nat, e) end.

#[export] Instance CompileTimeValueOwner_ord : OrdKey CompileTimeValueOwner.
Proof. refine (ord_via owner_key _). by intros [|?|?] [|?|?]; intros [=]; subst. Defined.

#[export] Instance CompileTimeValueId_ord : OrdKey CompileTimeValueId.
Proof.
  refine (ord_via (λ i, ((ctv_source_path i : list Z), (ctv_owner i, (ctv_member i : list Z)))) _).
  by intros [? ? ?] [? ? ?]; intros [=]; subst.
Defined.

#[export] Instance SourceTypeOrigin_ord : OrdKey SourceTypeOrigin.
Proof.
  refine (ord_via (λ o, ((sto_path o : list Z), (sto_name o : list Z))) _). by intros [? ?] [? ?]; intros [=]; subst.
Defined.

Definition display_value_id (i : CompileTimeValueId) : str :=
  let owner := match ctv_owner i with FlatOwner => [] | GroupOwner g | EnumOwner g => g ++ [PERIOD] end in
  ctv_source_path i ++ string_bytes "::" ++ owner ++ ctv_member i.

(** ** The index *)

Record IndexedConstantDeclaration := mkIndexed {
  ic_id : CompileTimeValueId;
  ic_name_range : option (nat * nat);
  ic_value_range : nat * nat;
  ic_type_name : str;
  ic_value_text : str;
}.

Record IndexedConstantGroup := mkIndexedGroup {
  ig_source_path : str;
  ig_name : str;
  ig_members : list IndexedConstantDeclaration;
}.

(** The entries of a path and a name, in the order of the source. *)
Definition Entries (A : Type) : Type := list ((list Z * list Z) * list A).

Record CompileTimeDeclarationIndex := mkIndex {
  ix_flat_constants : Entries IndexedConstantDeclaration;
  ix_groups : Entries IndexedConstantGroup;
  ix_enums : Entries ParsedEnumDefinition;
  host_sprite_ref_enum_paths : list str;
  value_names_by_path : list (list Z * list (list Z));
}.

Definition entries {A} (m : Entries A) (path name : str) : list A := default [] (map_get ((path, name) : list Z * list Z) m).

(** [entry(key).or_default().push(x)] *)
Definition push_entry {A} (path name : str) (x : A) (m : Entries A) : Entries A :=
  map_insert ((path, name) : list Z * list Z) (entries m path name ++ [x]) m.

Definition indexed_flat_constant (path : str) (c : ParsedConstDefinition) : IndexedConstantDeclaration :=
  mkIndexed (mkValueId path FlatOwner (const_name c)) None (const_value_range c) (const_type_name c) (const_value_text c).

Definition indexed_group_member (path group : str) (m : ParsedConstGroupMemberDefinition) : IndexedConstantDeclaration :=
  mkIndexed (mkValueId path (GroupOwner group) (member_name m)) (Some (member_name_range m)) (member_value_range m)
    (member_type_name m) (member_value_text m).

Definition indexed_group (path : str) (g : ParsedConstGroupDefinition) : IndexedConstantGroup :=
  mkIndexedGroup path (group_name g) (indexed_group_member path (group_name g) <$> group_members g).

(** [CompileTimeDeclarationIndex::default] *)
Definition empty_index : CompileTimeDeclarationIndex := mkIndex [] [] [] [] [].

(** The names of values a layout declares. *)
Definition value_names (l : ParsedTypeLayout) : list str :=
  (const_name <$> pl_constants l) ++ (global_name <$> pl_globals l) ++ (block_name <$> pl_global_blocks l).

Definition index_layout (path : str) (is_host_graphics_source : bool) (l : ParsedTypeLayout) (ix : CompileTimeDeclarationIndex) :
    CompileTimeDeclarationIndex :=
  let names := foldl (λ names n, set_insert (n : list Z) names)
    (default [] (map_get (path : list Z) (value_names_by_path ix))) (value_names l) in
  let flat := foldl (λ m c, push_entry path (const_name c) (indexed_flat_constant path c) m) (ix_flat_constants ix) (pl_constants l) in
  let groups := foldl (λ m g, push_entry path (group_name g) (indexed_group path g) m) (ix_groups ix) (pl_const_groups l) in
  let enums := foldl (λ m e, push_entry path (enum_name e) e m) (ix_enums ix) (pl_enums l) in
  let host := is_host_graphics_source && existsb (λ e, bool_decide (enum_name e = SPRITE_REF)) (pl_enums l) in
  mkIndex flat groups enums
    (if host then set_insert (path : list Z) (host_sprite_ref_enum_paths ix) else host_sprite_ref_enum_paths ix)
    (map_insert (path : list Z) names (value_names_by_path ix)).

(** An error is the path of the file and the message of the parser. *)
Fixpoint build_loop `{GraphicsFrontEnd} (files : list SourceFile) (ix : CompileTimeDeclarationIndex) :
    option (Result CompileTimeDeclarationIndex (str * str)) :=
  match files with
  | [] => Some (Ok ix)
  | file :: files =>
      r ← parse_top_level_type_layout (sf_original_content file);
      match r with
      | Err e => Some (Err (sf_path file, e))
      | Ok layout =>
          build_loop files
            (index_layout (sf_path file) (is_recognized_graphics_implementation_source (sf_path file) (sf_original_content file)) layout ix)
      end
  end.

Definition build `{GraphicsFrontEnd} (files : list SourceFile) : option (Result CompileTimeDeclarationIndex (str * str)) :=
  build_loop files empty_index.

(** ** Lookups *)

Definition flat_constants (ix : CompileTimeDeclarationIndex) (path name : str) : list IndexedConstantDeclaration :=
  entries (ix_flat_constants ix) path name.
Definition groups (ix : CompileTimeDeclarationIndex) (path name : str) : list IndexedConstantGroup := entries (ix_groups ix) path name.
Definition enums (ix : CompileTimeDeclarationIndex) (path name : str) : list ParsedEnumDefinition := entries (ix_enums ix) path name.

Definition all_flat_constants (ix : CompileTimeDeclarationIndex) : list IndexedConstantDeclaration := concat (ix_flat_constants ix).*2.
Definition all_groups (ix : CompileTimeDeclarationIndex) : list IndexedConstantGroup := concat (ix_groups ix).*2.
Definition enum_declarations (ix : CompileTimeDeclarationIndex) : list (str * ParsedEnumDefinition) :=
  mjoin ((λ e : (list Z * list Z) * list ParsedEnumDefinition, (λ d, (e.1.1, d)) <$> e.2) <$> ix_enums ix).

Definition has_value_name (ix : CompileTimeDeclarationIndex) (path name : str) : bool :=
  match map_get (path : list Z) (value_names_by_path ix) with Some names => bool_decide (name ∈ names) | None => false end.

(** ** Visible names *)

Section visible.
Context (ix : CompileTimeDeclarationIndex) (graph : ModuleGraph) (source_path : str).

Definition closure : list str := default [] (dependency_closure graph source_path).

(** The closure without the module itself. *)
Definition visible_paths : list str := filter (λ p, p ≠ source_path) closure.

(** [flat_map] over the visible modules. *)
Definition visible_entries {A} (lookup : str → list A) : list A := mjoin (lookup <$> visible_paths).

Definition not_empty {A} (l : list A) : bool := match l with [] => false | _ => true end.

Definition has_visible_flat_constant (n : str) : bool :=
  not_empty (flat_constants ix source_path n) || existsb (λ p, not_empty (flat_constants ix p n)) visible_paths.

Definition has_visible_group_namespace (n : str) : bool :=
  not_empty (groups ix source_path n) || existsb (λ p, not_empty (groups ix p n)) visible_paths.

Definition has_visible_group_member_name (n : str) : bool :=
  existsb (λ g, (bool_decide (ig_source_path g = source_path) || bool_decide (ig_source_path g ∈ closure))
    && existsb (λ m, bool_decide (ctv_member (ic_id m) = n)) (ig_members g)) (all_groups ix).

Definition has_visible_value_name (n : str) : bool :=
  has_value_name ix source_path n || existsb (λ p, has_value_name ix p n) visible_paths.

Definition imported_alias_shadow_error (identifier : str) : option str :=
  alias ← head (split_on PERIOD identifier);
  _ ← imported_alias_target graph source_path alias;
  if has_visible_value_name alias
  then Some (string_bytes "value binding '" ++ alias ++ string_bytes "' shadows the imported module alias") else None.

(** ** Resolution *)

Definition COMMA_SPACE : str := string_bytes ", ".

Definition ambiguous_flat_constant_error (n : str) (paths : list str) : str :=
  string_bytes "ambiguous compile-time constant '" ++ n ++ string_bytes "' from '" ++ source_path ++ string_bytes "': "
  ++ join_with COMMA_SPACE (set_of_list (paths : list (list Z))).

(** The only element of a list, if there is one. *)
Definition unique {A} (message : str) (l : list A) : Result (option A) str :=
  match l with [] => Ok None | [x] => Ok (Some x) | _ => Err message end.

Definition unique_group (l : list IndexedConstantGroup) (n path : str) : Result (option IndexedConstantGroup) str :=
  unique (string_bytes "ambiguous constant group '" ++ n ++ string_bytes "' in '" ++ path ++ string_bytes "'") l.

Definition unique_group_owner (local visible : list IndexedConstantGroup) (n path : str) : Result (option IndexedConstantGroup) str :=
  match local with
  | [] => unique (string_bytes "ambiguous constant group '" ++ n ++ string_bytes "' visible from '" ++ path ++ string_bytes "'") visible
  | _ => unique_group local n path
  end.

Definition unique_enum (l : list ParsedEnumDefinition) (n path : str) : Result (option ParsedEnumDefinition) str :=
  unique (string_bytes "ambiguous enum '" ++ n ++ string_bytes "' in '" ++ path ++ string_bytes "'") l.

Definition unique_identities (ids : list CompileTimeValueId) (spelling : str) : Result (option CompileTimeValueId) str :=
  unique (string_bytes "ambiguous compile-time value '" ++ spelling ++ string_bytes "'") (set_of_list ids).

Definition visible_alias_target (alias : str) : option str :=
  match map_get (source_path : list Z) (modules graph) with
  | Some m => if bool_decide (record_alias m = alias) then Some (module_path m) else imported_alias_target graph source_path alias
  | None => imported_alias_target graph source_path alias
  end.

Definition visible_group_owner (n : str) : Result (option IndexedConstantGroup) str :=
  unique_group_owner (groups ix source_path n) (visible_entries (λ p, groups ix p n)) n source_path.

Definition visible_enum_owner (n : str) : Result (option ParsedEnumDefinition) str :=
  match enums ix source_path n with
  | [] => unique_enum (visible_entries (λ p, enums ix p n)) n source_path
  | local => unique_enum local n source_path
  end.

Definition enum_source_path (n : str) : Result (option str) str :=
  if not_empty (enums ix source_path n) then Ok (Some source_path)
  else
    unique (string_bytes "ambiguous compile-time enum '" ++ n ++ string_bytes "' visible from '" ++ source_path ++ string_bytes "'")
      (filter (λ p, not_empty (enums ix p n) = true) visible_paths).

(** How often the enum has the variant. *)
Definition variant_count (member : str) (e : ParsedEnumDefinition) : nat :=
  length (filter (λ v, variant_name v = member) (enum_variants e)).

(** The host modules whose sprite enum has the variant, once for each time. *)
Definition host_matches (member : str) : list str :=
  mjoin ((λ p, if bool_decide (p ∈ host_sprite_ref_enum_paths ix)
               then mjoin ((λ e, replicate (variant_count member e) p) <$> enums ix p SPRITE_REF) else []) <$> visible_paths).

Definition visible_enum_variant_source_path (n member : str) (owner : option ParsedEnumDefinition) : Result (option str) str :=
  match owner with
  | None => Ok None
  | Some enumeration =>
      match variant_count member enumeration with
      | 1%nat => enum_source_path n
      | S (S _) => Err (string_bytes "ambiguous enum variant '" ++ qualified n member ++ string_bytes "'")
      | O =>
          if negb (bool_decide (n = SPRITE_REF)) || negb (is_explicit_graphics_test_seam_path source_path)
             || negb (not_empty (enums ix source_path n))
          then Ok None
          else
            unique (string_bytes "ambiguous host SpriteRef variant 'SpriteRef." ++ member ++ string_bytes "' visible from '"
                    ++ source_path ++ string_bytes "'") (host_matches member)
      end
  end.

Definition members_named (member : str) (g : IndexedConstantGroup) : list IndexedConstantDeclaration :=
  filter (λ m, ctv_member (ic_id m) = member) (ig_members g).

(** What the parts of a two-part name give: the candidates and the error of a missing one. *)
Definition alias_candidates (root member spelling : str) : Result (list CompileTimeValueId * option str) str :=
  match visible_alias_target root with
  | None => Ok ([], None)
  | Some target =>
      match flat_constants ix target member with
      | [] => Ok ([], Some (string_bytes "unknown constant '" ++ member ++ string_bytes "' in imported module '" ++ root ++ string_bytes "'"))
      | [c] => Ok ([ic_id c], None)
      | _ => Err (string_bytes "ambiguous compile-time value '" ++ spelling ++ string_bytes "' in module '" ++ root ++ string_bytes "'")
      end
  end.

Definition group_candidates (root member : str) : Result (list CompileTimeValueId * option str) str :=
  let? owner := visible_group_owner root in
  match owner with
  | None => Ok ([], None)
  | Some group =>
      match members_named member group with
      | [m] => Ok ([ic_id m], None)
      | [] => Ok ([], Some (string_bytes "unknown constant group member '" ++ qualified root member ++ string_bytes "' in '"
                            ++ ig_source_path group ++ string_bytes "'"))
      | _ => Err (string_bytes "ambiguous constant group member '" ++ qualified root member ++ string_bytes "'")
      end
  end.

Definition or_error (e e' : option str) : option str := match e with Some _ => e | None => e' end.

Definition resolve_two_part (root member spelling : str) : Result (option CompileTimeValueId) str :=
  let? (flat, flat_error) := alias_candidates root member spelling in
  let? (grouped, group_error) := group_candidates root member in
  let missing := or_error group_error flat_error in
  let? owner := visible_enum_owner root in
  let? path := visible_enum_variant_source_path root member owner in
  let '(variants, missing) :=
    match path with
    | Some p => ([mkValueId p (EnumOwner root) member], missing)
    | None =>
        ([], or_error missing (if bool_decide (is_Some owner)
                               then Some (string_bytes "unknown enum variant '" ++ qualified root member ++ string_bytes "'") else None))
    end in
  match flat ++ grouped ++ variants, missing with
  | [], Some error => Err error
  | candidates, _ => unique_identities candidates spelling
  end.

Definition resolve_exact_qualified (target owner member alias spelling : str) : Result CompileTimeValueId str :=
  let in_module := string_bytes "' in module '" ++ alias ++ string_bytes "'" in
  let? group := unique_group (groups ix target owner) owner target in
  match group with
  | Some g =>
      match members_named member g with
      | [m] => Ok (ic_id m)
      | [] => Err (string_bytes "unknown constant group member '" ++ qualified owner member ++ in_module)
      | _ => Err (string_bytes "ambiguous constant group member '" ++ spelling ++ string_bytes "'")
      end
  | None =>
      let? enumeration := unique_enum (enums ix target owner) owner target in
      match enumeration with
      | Some e =>
          if existsb (λ v, bool_decide (variant_name v = member)) (enum_variants e)
          then Ok (mkValueId target (EnumOwner owner) member)
          else Err (string_bytes "unknown enum variant '" ++ qualified owner member ++ in_module)
      | None => Err (string_bytes "unknown compile-time owner '" ++ owner ++ in_module)
      end
  end.

Definition resolve_flat (n : str) : Result (option CompileTimeValueId) str :=
  let ids l := ic_id <$> l in
  let pick l :=
    match l with
    | _ :: _ :: _ => Err (ambiguous_flat_constant_error n (ctv_source_path <$> ids l))
    | _ => Ok (head (ids l))
    end in
  match flat_constants ix source_path n with
  | [] => pick (visible_entries (λ p, flat_constants ix p n))
  | local => pick local
  end.

Definition resolve_compile_time_value (identifier : str) (lexical_root_shadowed : bool) : Result (option CompileTimeValueId) str :=
  match split_on PERIOD identifier with
  | [n] => resolve_flat n
  | [root; member] =>
      if lexical_root_shadowed || has_visible_value_name root then Ok None else resolve_two_part root member identifier
  | [alias; owner; member] =>
      if lexical_root_shadowed || has_visible_value_name alias then Ok None
      else
        match imported_alias_target graph source_path alias with
        | None => Ok None
        | Some target => let? i := resolve_exact_qualified target owner member alias identifier in Ok (Some i)
        end
  | _ => Ok None
  end.
End visible.

Definition constant_declaration (ix : CompileTimeDeclarationIndex) (i : CompileTimeValueId) : option IndexedConstantDeclaration :=
  let found := List.find (λ d, bool_decide (ic_id d = i)) in
  match ctv_owner i with
  | FlatOwner => found (flat_constants ix (ctv_source_path i) (ctv_member i))
  | GroupOwner g => found (mjoin (ig_members <$> groups ix (ctv_source_path i) g))
  | EnumOwner _ => None
  end.

(** ** Names that are declared twice *)

(** An error: the path, the range, the name and the message. *)
Definition DeclarationError : Type := str * (nat * nat) * str * str.

Fixpoint duplicate_member (path group : str) (members : list ParsedConstGroupMemberDefinition) (seen : list str) : option DeclarationError :=
  match members with
  | [] => None
  | m :: members =>
      if bool_decide (member_name m ∈ seen)
      then Some (path, member_name_range m, member_name m,
                 string_bytes "duplicate constant group member '" ++ qualified group (member_name m) ++ string_bytes "'")
      else duplicate_member path group members (member_name m :: seen)
  end.

Fixpoint duplicate_group (path : str) (others : list str) (l : list ParsedConstGroupDefinition) (seen : list str) : option DeclarationError :=
  match l with
  | [] => None
  | g :: l =>
      if bool_decide (group_name g ∈ others) || bool_decide (group_name g ∈ seen)
      then Some (path, group_name_range g, group_name g, string_bytes "duplicate top-level declaration '" ++ group_name g ++ string_bytes "'")
      else match duplicate_member path (group_name g) (group_members g) [] with
           | Some e => Some e
           | None => duplicate_group path others l (group_name g :: seen)
           end
  end.

Definition other_top_level_names (l : ParsedTypeLayout) : list str :=
  (const_name <$> pl_constants l) ++ (enum_name <$> pl_enums l) ++ (struct_name <$> pl_structs l).

Fixpoint duplicate_file (files : list SourceFile) : option (Result unit DeclarationError) :=
  match files with
  | [] => Some (Ok tt)
  | file :: files =>
      r ← parse_top_level_type_layout (sf_original_content file);
      match r with
      | Err message => Some (Err (sf_path file, (0, Nat.max (length (sf_original_content file)) 1)%nat, [], message))
      | Ok l =>
          match duplicate_group (sf_path file) (other_top_level_names l) (pl_const_groups l) [] with
          | Some e => Some (Err e)
          | None => duplicate_file files
          end
      end
  end.

Definition path_leb (a b : SourceFile) : bool := match cmp (sf_path a : list Z) (sf_path b) with Gt => false | _ => true end.

Definition validate_group_declaration_names (files : list SourceFile) : option (Result unit DeclarationError) :=
  duplicate_file (sort_by path_leb files).

(** ** Tokens of an expression *)

Inductive ConstantToken :=
| TokInteger (text : str)
| TokIdentifier (n : str)
| TokOperator (op : ExprBinaryOp)
| TokUnary (op : ExprUnaryOp)
| TokOpen
| TokClose.

Definition is_constant_identifier_start (b : Z) : bool := Lexer.is_ascii_alphabetic b || (b =? 95).
Definition is_constant_identifier_char (b : Z) : bool := is_constant_identifier_start b || is_ascii_digit b.

(** The rest of an identifier, with its further parts. *)
Fixpoint identifier_len (l : list Z) : nat :=
  match l with
  | b :: l' =>
      if is_constant_identifier_char b then S (identifier_len l')
      else if b =? PERIOD then
        match l' with c :: l'' => if is_constant_identifier_start c then S (S (identifier_len l'')) else 0%nat | [] => 0%nat end
      else 0%nat
  | [] => 0%nat
  end.

(** A token of one byte. *)
Definition byte_token (b : Z) : option ConstantToken :=
  if b =? 43 then Some (TokOperator Add) else if b =? 45 then Some (TokOperator Subtract)
  else if b =? 42 then Some (TokOperator Multiply) else if b =? 47 then Some (TokOperator Divide)
  else if b =? 37 then Some (TokOperator Remainder) else if b =? 38 then Some (TokOperator BitAnd)
  else if b =? 94 then Some (TokOperator BitXor) else if b =? 124 then Some (TokOperator BitOr)
  else if b =? 126 then Some (TokUnary BitwiseNot) else if b =? 40 then Some TokOpen
  else if b =? 41 then Some TokClose else None.

Definition is_white (b : Z) : bool := (b =? 32) || (b =? 9) || (b =? 10) || (b =? 12) || (b =? 13).

(** The token at the start of a text that does not start with white space, and its length. *)
Definition constant_token (b : Z) (rest : list Z) : Result (ConstantToken * nat) str :=
  if is_ascii_digit b then let n := S (prefix_len is_ascii_digit rest) in Ok (TokInteger (take n (b :: rest)), n)
  else if is_constant_identifier_start b then let n := S (identifier_len rest) in Ok (TokIdentifier (take n (b :: rest)), n)
  else if (b =? 60) && bool_decide (head rest = Some 60) then Ok (TokOperator ShiftLeft, 2%nat)
  else if (b =? 62) && bool_decide (head rest = Some 62) then Ok (TokOperator ShiftRight, 2%nat)
  else match byte_token b with
       | Some t => Ok (t, 1%nat)
       | None => Err (string_bytes "unsupported token '" ++ byte_as_char b ++ string_bytes "' in compile-time expression")
       end.

Fixpoint tokenize_loop (fuel : nat) (bytes : list Z) : option (Result (list ConstantToken) str) :=
  match fuel with
  | O => None
  | S fuel' =>
      match bytes with
      | [] => Some (Ok [])
      | b :: rest =>
          if is_white b then tokenize_loop fuel' rest
          else
            match constant_token b rest with
            | Err e => Some (Err e)
            | Ok (t, n) =>
                r ← tokenize_loop fuel' (drop n bytes);
                Some (match r with Ok tokens => Ok (t :: tokens) | Err e => Err e end)
            end
      end
  end.

Definition tokenize_constant_expression (source : str) : option (Result (list ConstantToken) str) :=
  tokenize_loop (S (length source)) source.

(** ** Evaluation of [i32] expressions *)

Definition MAX_CONSTANT_EVALUATION_STEPS : Z := 10000.
Definition MAX_CONSTANT_DEPENDENCY_DEPTH : nat := 128.

(** The operations of [i32] that the evaluator checks. *)
Definition i32_operation (op : ExprBinaryOp) (lhs rhs : Z) : option Z :=
  match op with
  | Add => checked_i 32 (lhs + rhs)
  | Subtract => checked_i 32 (lhs - rhs)
  | Multiply => checked_i 32 (lhs * rhs)
  | Divide => if rhs =? 0 then None else checked_i 32 (Z.quot lhs rhs)
  | Remainder => if (rhs =? 0) || ((lhs =? - 2 ^ 31) && (rhs =? -1)) then None else Some (Z.rem lhs rhs)
  | ShiftLeft => Some (i32_wrapping_shl lhs (shift_count rhs))
  | ShiftRight => Some (i32_wrapping_shr lhs (shift_count rhs))
  | BitAnd => Some (Z.land lhs rhs)
  | BitXor => Some (Z.lxor lhs rhs)
  | BitOr => Some (Z.lor lhs rhs)
  end.

Definition checked_i32_binary (lhs : Z) (op : ExprBinaryOp) (rhs : Z) : Result Z str :=
  ok_or (i32_operation op lhs rhs)
    (string_bytes "checked compile-time operation '" ++ string_bytes (binary_spelling op) ++ string_bytes "' overflowed or divided by zero").

(** [GenericI32EvaluationState]: the values, the declarations in progress and the steps. *)
Definition I32Eval : Type → Type := Evaluation CompileTimeValueId Z Z str.
Definition GenericI32EvaluationState : Type := Memo CompileTimeValueId Z Z.
Definition fresh_state : GenericI32EvaluationState := mkMemo [] [] 0.

Definition set_steps (steps : Z) (st : GenericI32EvaluationState) : GenericI32EvaluationState := mkMemo (cache st) (stack st) steps.

Definition too_many_steps : str := string_bytes "compile-time expression evaluation exceeded 10000 steps".
Definition too_deep : str := string_bytes "constant dependency depth exceeded (maximum 128)".

Definition ensure_constant_evaluation_steps (steps : Z) : Result unit str :=
  if MAX_CONSTANT_EVALUATION_STEPS <? steps then Err too_many_steps else Ok tt.

Definition count_step : I32Eval unit := λ st,
  let steps := saturating_u64_add (extra st) 1 in
  Some (ensure_constant_evaluation_steps steps, set_steps steps st).

(** [text.parse::<i64>()] of digits. *)
Definition parse_i64 (text : str) : Result Z str :=
  ok_or (checked_i 64 (decimal text))
    (string_bytes "invalid compile-time integer '" ++ text ++ string_bytes "': number too large to fit in target type").

Definition to_i32 (value : Z) (text : str) : Result Z str :=
  ok_or (checked_i 32 value) (string_bytes "compile-time integer '" ++ text ++ string_bytes "' is outside i32 range").

Definition negate_i32 (value : Z) : Result Z str := ok_or (checked_i 32 (- value)) (string_bytes "compile-time negation overflowed i32").

(** [{:?}] of the tokens that start no expression. *)
Definition debug_operator (op : ExprBinaryOp) : string :=
  match op with
  | Add => "Add" | Subtract => "Subtract" | Multiply => "Multiply" | Divide => "Divide" | Remainder => "Remainder"
  | ShiftLeft => "ShiftLeft" | ShiftRight => "ShiftRight" | BitAnd => "BitAnd" | BitXor => "BitXor" | BitOr => "BitOr"
  end.

Definition debug_token (t : ConstantToken) : str :=
  match t with
  | TokOperator op => string_bytes "Operator(" ++ string_bytes (debug_operator op) ++ string_bytes ")"
  | _ => string_bytes "Close"
  end.

(** *** The parser, which evaluates as it reads

    [resolver] evaluates a name that is no generic value.  Every call of
    [parse_constant_prefix] takes a token, so the fuel is for twice the tokens. *)
Section parser.
Context (generic_values : list (list Z * Z)) (resolver : str → I32Eval Z).

Definition negative_literal (text : str) : Result Z str :=
  let? value := parse_i64 text in
  ok_or (checked_i 32 (- value)) (string_bytes "compile-time integer '-" ++ text ++ string_bytes "' is outside i32 range").

Fixpoint parse_constant_expression (fuel : nat) (min_precedence : Z) (tokens : list ConstantToken) {struct fuel} :
    I32Eval (Z * list ConstantToken) :=
  match fuel with
  | O => λ _, None
  | S fuel' =>
      do! (lhs, rest) := parse_constant_prefix fuel' tokens in
      operator_loop fuel' min_precedence lhs rest
  end
with operator_loop (fuel : nat) (min_precedence lhs : Z) (tokens : list ConstantToken) {struct fuel} :
    I32Eval (Z * list ConstantToken) :=
  match fuel with
  | O => λ _, None
  | S fuel' =>
      match tokens with
      | TokOperator op :: rest =>
          if precedence op <? min_precedence then eval_ret (lhs, tokens)
          else
            do! (rhs, rest) := parse_constant_expression fuel' (precedence op + 1) rest in
            do! value := eval_lift (checked_i32_binary lhs op rhs) in
            operator_loop fuel' min_precedence value rest
      | _ => eval_ret (lhs, tokens)
      end
  end
with parse_constant_prefix (fuel : nat) (tokens : list ConstantToken) {struct fuel} : I32Eval (Z * list ConstantToken) :=
  match fuel with
  | O => λ _, None
  | S fuel' =>
      do! _ := count_step in
      match tokens with
      | [] => eval_fail (string_bytes "compile-time expression ended unexpectedly")
      | TokInteger text :: rest => do! value := eval_lift (let? v := parse_i64 text in to_i32 v text) in eval_ret (value, rest)
      | TokIdentifier n :: rest =>
          do! value := match map_get (n : list Z) generic_values with Some v => eval_ret v | None => resolver n end in
          eval_ret (value, rest)
      | TokOperator Add :: rest => parse_constant_prefix fuel' rest
      | TokOperator Subtract :: TokInteger text :: rest => do! value := eval_lift (negative_literal text) in eval_ret (value, rest)
      | TokOperator Subtract :: rest | TokUnary Negate :: rest =>
          do! (operand, rest) := parse_constant_prefix fuel' rest in
          do! value := eval_lift (negate_i32 operand) in
          eval_ret (value, rest)
      | TokUnary BitwiseNot :: rest =>
          do! (operand, rest) := parse_constant_prefix fuel' rest in
          eval_ret (Z.lnot operand, rest)
      | TokOpen :: rest =>
          do! (value, rest) := parse_constant_expression fuel' 0 rest in
          match rest with
          | TokClose :: rest => eval_ret (value, rest)
          | _ => eval_fail (string_bytes "missing ')' in compile-time expression")
          end
      | other :: _ => eval_fail (string_bytes "unexpected token " ++ debug_token other ++ string_bytes " in compile-time expression")
      end
  end.

Definition constant_fuel (tokens : list ConstantToken) : nat := (2 * length tokens + 3)%nat.

Definition evaluate_tokens (source : str) (tokens : list ConstantToken) : I32Eval Z :=
  do! (value, rest) := parse_constant_expression (constant_fuel tokens) 0 tokens in
  match rest with
  | [] => eval_ret value
  | _ => eval_fail (string_bytes "unexpected token in compile-time expression '" ++ source ++ string_bytes "'")
  end.

Definition evaluate_i32_expression_with_resolver (source : str) : I32Eval Z :=
  match tokenize_constant_expression source with
  | None => λ _, None
  | Some (Err e) => eval_fail e
  | Some (Ok tokens) => evaluate_tokens source tokens
  end.
End parser.

(** *** Declarations *)

Section declarations.
Context (ix : CompileTimeDeclarationIndex) (graph : ModuleGraph).

Definition has_period (s : str) : bool := bool_decide (PERIOD ∈ s).

(** What a name in an expression of a module stands for. *)
Definition resolve_constant_name (source_path identifier : str) (generic_values : list (list Z * Z)) : Result CompileTimeValueId str :=
  if negb (has_period identifier) && negb (has_visible_flat_constant ix graph source_path identifier)
     && has_visible_group_member_name ix graph source_path identifier
  then Err (string_bytes "constant group member '" ++ identifier ++ string_bytes "' must be qualified by its group name")
  else
    let root := default identifier (head (split_on PERIOD identifier)) in
    let? resolved := resolve_compile_time_value ix graph source_path identifier
      (bool_decide (is_Some (map_get (root : list Z) generic_values))) in
    ok_or resolved (string_bytes "unknown compile-time i32 value '" ++ identifier ++ string_bytes "'").

Definition evaluate_expression (rec : CompileTimeValueId → I32Eval Z) (source_path expression : str) (generic_values : list (list Z * Z)) :
    I32Eval Z :=
  evaluate_i32_expression_with_resolver generic_values
    (λ identifier, do! i := eval_lift (resolve_constant_name source_path identifier generic_values) in rec i) expression.

Definition not_i32 (i : CompileTimeValueId) : str :=
  string_bytes "compile-time value '" ++ display_value_id i ++ string_bytes "' is not i32".

Definition constant_cycle (cycle : list CompileTimeValueId) : str :=
  string_bytes "constant reference cycle: " ++ join_with (string_bytes " -> ") (display_value_id <$> cycle).

(** The module and the text of the initializer of an [i32] constant. *)
Definition i32_initializer (i : CompileTimeValueId) : Result (str * str) str :=
  match ctv_owner i with
  | EnumOwner _ => Err (not_i32 i)
  | _ =>
      let? d := ok_or (constant_declaration ix i)
        (string_bytes "missing indexed constant '" ++ display_value_id i ++ string_bytes "'." ++ ctv_member i) in
      if negb (bool_decide (trim (ic_type_name d) = string_bytes "i32")) then Err (not_i32 i)
      else Ok (ctv_source_path (ic_id d), ic_value_text d)
  end.

Definition evaluate_id (depth : nat) (i : CompileTimeValueId) : I32Eval Z :=
  memoized MAX_CONSTANT_DEPENDENCY_DEPTH constant_cycle too_deep i32_initializer
    (λ rec p, evaluate_expression rec p.1 p.2 []) depth i.

(** One declaration more than the stack may hold. *)
Definition i32_depth : nat := S MAX_CONSTANT_DEPENDENCY_DEPTH.

Definition evaluate_generic_i32_with_state (source_path expression : str) (generic_values : list (list Z * Z)) : I32Eval Z :=
  λ st, evaluate_expression (evaluate_id i32_depth) source_path expression generic_values (set_steps 0 st).

Definition evaluate_generic_i32 (source_path expression : str) (generic_values : list (list Z * Z)) : option (Result Z str) :=
  fst <$> evaluate_generic_i32_with_state source_path expression generic_values fresh_state.

Definition evaluate_i32_declaration_with_state (i : CompileTimeValueId) : I32Eval Z :=
  match ctv_owner i with
  | EnumOwner _ => eval_fail (not_i32 i)
  | _ => evaluate_id i32_depth i
  end.
End declarations.
