(* ===== verification/ConstantIndexProps.v ===== *)
(** * Compile-time [i32] expressions: the evaluator is its semantics

    The grammar of constant expressions, the value of an expression by way of the
    declarations it names, and the proof that [ConstantIndex.evaluate_generic_i32] always
    replies and finds exactly this value, unless one of its two limits is exceeded. *)

From S2P Require Import Prelude BTree Memo Lexer Identity Text Imports ModuleGraph Functions Hir.
From S2P Require Import ParserTokens ParserFunctions ParserLayout ConstantIndex.
#[local] Open Scope Z_scope.
#[local] Set Warnings "-clear-no-such-hyp,-notation-overridden".

(** ** The grammar *)

Inductive ConstantExpr :=
| CInteger (text : str)
| CNegativeLiteral (text : str)
| CName (n : str)
| CNegative (e : ConstantExpr)
| CInverse (e : ConstantExpr)
| COperation (lhs : ConstantExpr) (op : ExprBinaryOp) (rhs : ConstantExpr).

Definition starts_integer (ts : list ConstantToken) : bool := match ts with TokInteger _ :: _ => true | _ => false end.

(** [prefix_of ts e]: an operand with its prefix operators.  [expression_of p ts e]: an
    expression whose operators outside parentheses have precedence [p] at least; they
    associate to the left. *)
Inductive prefix_of : list ConstantToken → ConstantExpr → Prop :=
| p_integer text : prefix_of [TokInteger text] (CInteger text)
| p_name n : prefix_of [TokIdentifier n] (CName n)
| p_plus ts e : prefix_of ts e → prefix_of (TokOperator Add :: ts) e
| p_negative_literal text : prefix_of [TokOperator Subtract; TokInteger text] (CNegativeLiteral text)
| p_minus ts e : prefix_of ts e → starts_integer ts = false → prefix_of (TokOperator Subtract :: ts) (CNegative e)
| p_negate ts e : prefix_of ts e → prefix_of (TokUnary Negate :: ts) (CNegative e)
| p_inverse ts e : prefix_of ts e → prefix_of (TokUnary BitwiseNot :: ts) (CInverse e)
| p_paren ts e : expression_of 0 ts e → prefix_of (TokOpen :: ts ++ [TokClose]) e
with expression_of : Z → list ConstantToken → ConstantExpr → Prop :=
| e_prefix p ts e : prefix_of ts e → expression_of p ts e
| e_operation p l op r e1 e2 :
    p ≤ precedence op → expression_of (precedence op) l e1 → expression_of (precedence op + 1) r e2 →
    expression_of p (l ++ TokOperator op :: r) (COperation e1 op e2).

Scheme prefix_of_mut := Minimality for prefix_of Sort Prop
with expression_of_mut := Minimality for expression_of Sort Prop.
Combined Scheme constant_grammar_ind from prefix_of_mut, expression_of_mut.

(** The next token, if it is an operator, has precedence below [p]. *)
Definition next_below (p : Z) (ts : list ConstantToken) : Prop :=
  ∀ op rest, ts = TokOperator op :: rest → precedence op < p.

Lemma expression_lower p q ts e : expression_of p ts e → q ≤ p → expression_of q ts e.
Proof. destruct 1 as [p ts e|p l op r e1 e2 Hp Hl Hr]; intros Hq; [by apply e_prefix|]. apply e_operation; [lia|done..]. Qed.

Lemma constant_precedence_range op : 40 ≤ precedence op ≤ 100.
Proof. destruct op; simpl; lia. Qed.

Lemma prefix_not_nil ts e : prefix_of ts e → ts ≠ [].
Proof. by destruct 1. Qed.

(** *** It is unambiguous

    A parser that builds the tree; [Some None] is a refusal. *)
Fixpoint tree_expression (fuel : nat) (p : Z) (ts : list ConstantToken) {struct fuel} : option (option (ConstantExpr * list ConstantToken)) :=
  match fuel with
  | O => None
  | S f => r ← tree_prefix f ts; match r with Some (e, rest) => tree_loop f p e rest | None => Some None end
  end
with tree_loop (fuel : nat) (p : Z) (e : ConstantExpr) (ts : list ConstantToken) {struct fuel} :
    option (option (ConstantExpr * list ConstantToken)) :=
  match fuel with
  | O => None
  | S f =>
      match ts with
      | TokOperator op :: rest =>
          if precedence op <? p then Some (Some (e, ts))
          else r ← tree_expression f (precedence op + 1) rest;
               match r with Some (e2, rest) => tree_loop f p (COperation e op e2) rest | None => Some None end
      | _ => Some (Some (e, ts))
      end
  end
with tree_prefix (fuel : nat) (ts : list ConstantToken) {struct fuel} : option (option (ConstantExpr * list ConstantToken)) :=
  match fuel with
  | O => None
  | S f =>
      let wrap g r := match r with Some (e, rest) => Some (g e, rest) | None => None end in
      match ts with
      | TokInteger text :: rest => Some (Some (CInteger text, rest))
      | TokIdentifier n :: rest => Some (Some (CName n, rest))
      | TokOperator Add :: rest => tree_prefix f rest
      | TokOperator Subtract :: TokInteger text :: rest => Some (Some (CNegativeLiteral text, rest))
      | TokOperator Subtract :: rest | TokUnary Negate :: rest => wrap CNegative <$> tree_prefix f rest
      | TokUnary BitwiseNot :: rest => wrap CInverse <$> tree_prefix f rest
      | TokOpen :: rest =>
          r ← tree_expression f 0 rest;
          Some match r with Some (e, TokClose :: rest) => Some (e, rest) | _ => None end
      | _ => Some None
      end
  end.

Lemma tree_answers f :
  (∀ p ts, (2 * length ts + 2 ≤ f)%nat → ∃ r, tree_expression f p ts = Some r ∧ ∀ e rest, r = Some (e, rest) → (length rest < length ts)%nat)
  ∧ (∀ p e ts, (2 * length ts + 1 ≤ f)%nat → ∃ r, tree_loop f p e ts = Some r ∧ ∀ e rest, r = Some (e, rest) → (length rest ≤ length ts)%nat)
  ∧ (∀ ts, (2 * length ts + 1 ≤ f)%nat → ∃ r, tree_prefix f ts = Some r ∧ ∀ e rest, r = Some (e, rest) → (length rest < length ts)%nat).
Proof.
  induction f as [|f (IHe & IHl & IHp)]; [split_and!; intros; lia|]. split_and!.
  - intros p ts Hf. cbn [tree_expression]. destruct (IHp ts) as (r & -> & Hr); [lia|]. simpl. destruct r as [[e rest]|]; [|by eexists].
    specialize (Hr _ _ eq_refl). destruct (IHl p e rest) as (r & -> & Hr2); [lia|]. exists r. split; [done|]. intros e' rest' E.
    specialize (Hr2 _ _ E). lia.
  - intros p e ts Hf. cbn [tree_loop]. destruct ts as [|[| |op| | |] ts]; try (eexists; split; [done|]; intros ? ? [= <- <-]; lia).
    destruct (_ <? _); [eexists; split; [done|]; intros ? ? [= <- <-]; lia|]. cbn [length] in *.
    destruct (IHe (precedence op + 1) ts) as (r & -> & Hr); [lia|]. simpl. destruct r as [[e2 rest]|]; [|by eexists].
    specialize (Hr _ _ eq_refl). destruct (IHl p (COperation e op e2) rest) as (r & -> & Hr2); [lia|]. exists r. split; [done|]. intros e' rest' E.
    specialize (Hr2 _ _ E). lia.
  - intros ts Hf. cbn [tree_prefix]. cbv zeta. destruct ts as [|t ts]; [by eexists|]. cbn [length] in *.
    assert (∀ g : ConstantExpr → ConstantExpr, ∃ r, (λ r, match r with Some (e, rest) => Some (g e, rest) | None => None end) <$> tree_prefix f ts = Some r
      ∧ ∀ e rest, r = Some (e, rest) → (length rest < S (length ts))%nat) as Hw.
    { intros g. destruct (IHp ts) as (r & -> & Hr); [lia|]. eexists. split; [done|]. destruct r as [[e rest]|]; [|done]. intros ? ? [= <- <-].
      specialize (Hr _ _ eq_refl). lia. }
    destruct t as [text|n|op|op| |]; try (eexists; split; [done|]; intros ? ? [= <- <-]; lia); try by eexists.
    + destruct op; try by eexists.
      * destruct (IHp ts) as (r & -> & Hr); [lia|]. exists r. split; [done|]. intros e rest E. specialize (Hr _ _ E). lia.
      * destruct ts as [|[] ts']; try apply (Hw CNegative). eexists; split; [done|]. intros ? ? [= <- <-]. simpl. lia.
    + destruct op; [apply (Hw CNegative)|apply (Hw CInverse)].
    + destruct (IHe 0 ts) as (r & -> & Hr); [lia|]. eexists. split; [done|]. intros e rest. destruct r as [[e' [|[] rest']]|]; try done.
      intros [= <- <-]. specialize (Hr _ _ eq_refl). simpl in Hr. lia.
Qed.

Definition tree_gives (m : nat → option (option (ConstantExpr * list ConstantToken))) (e : ConstantExpr) (rest : list ConstantToken) : Prop :=
  ∀ f r, m f = Some r → r = Some (e, rest).

Lemma tree_complete :
  (∀ ts e, prefix_of ts e → ∀ rest, tree_gives (λ f, tree_prefix f (ts ++ rest)) e rest)
  ∧ (∀ k ts e, expression_of k ts e → ∀ p rest e' rest', p ≤ k → next_below (k + 1) rest →
       tree_gives (λ f, tree_loop f p e rest) e' rest' → tree_gives (λ f, tree_expression f p (ts ++ rest)) e' rest').
Proof.
  assert (∀ p e rest, next_below p rest → tree_gives (λ f, tree_loop f p e rest) e rest) as Hstop.
  { intros p e rest Hn [|f] r; [done|]. cbn [tree_loop]. destruct rest as [|[| |op| | |] rest]; try by intros [= <-].
    specialize (Hn op rest eq_refl). rewrite (proj2 (Z.ltb_lt _ _) Hn). by intros [= <-]. }
  apply constant_grammar_ind.
  - intros text rest [|f] r; [done|]. by intros [= <-].
  - intros n rest [|f] r; [done|]. by intros [= <-].
  - intros ts e _ IH rest [|f] r; [done|]. apply IH.
  - intros text rest [|f] r; [done|]. by intros [= <-].
  - intros ts e Hd IH Hs rest [|f] r; [done|]. cbn [app tree_prefix]. cbv zeta.
    assert ((λ r, match r with Some (e, rest) => Some (CNegative e, rest) | None => None end) <$> tree_prefix f (ts ++ rest) = Some r → r = Some (CNegative e, rest)) as Hw.
    { destruct (tree_prefix f (ts ++ rest)) as [r'|] eqn:E; [|done]. apply IH in E as ->. by intros [= <-]. }
    apply prefix_not_nil in Hd. destruct ts as [|[] ts]; done.
  - intros ts e _ IH rest [|f] r; [done|]. cbn [app tree_prefix]. destruct (tree_prefix f (ts ++ rest)) as [r'|] eqn:E; [|done]. apply IH in E as ->. by intros [= <-].
  - intros ts e _ IH rest [|f] r; [done|]. cbn [app tree_prefix]. destruct (tree_prefix f (ts ++ rest)) as [r'|] eqn:E; [|done]. apply IH in E as ->. by intros [= <-].
  - intros ts e _ IH rest [|f] r; [done|]. cbn [app tree_prefix]. rewrite <- app_assoc. cbn [app].
    destruct (tree_expression f 0 (ts ++ TokClose :: rest)) as [r'|] eqn:E; [|done].
    apply (IH 0 (TokClose :: rest) e (TokClose :: rest)) in E as ->; [by intros [= <-]|lia|by intros ? ?|]. apply Hstop. by intros ? ?.
  - intros k ts e _ IH p rest e' rest' _ _ Hl [|f] r; [done|]. cbn [tree_expression]. destruct (tree_prefix f (ts ++ rest)) as [r'|] eqn:E; [|done].
    apply IH in E as ->. simpl. apply Hl.
  - intros k l op r e1 e2 Hk _ IHl _ IHr p rest e' rest' Hp Hn Hc. rewrite <- app_assoc. cbn [app].
    apply IHl; [lia|intros ? ? [= <- _]; lia|]. intros [|f] x; [done|]. cbn [tree_loop]. destruct (Z.ltb_spec (precedence op) p); [lia|].
    destruct (tree_expression f (precedence op + 1) (r ++ rest)) as [r'|] eqn:E; [|done].
    apply (IHr (precedence op + 1) rest e2 rest) in E as ->; [simpl; apply Hc|lia| |].
    + intros op' rest1 Hrest. specialize (Hn op' rest1 Hrest). lia.
    + apply Hstop. intros op' rest1 Hrest. specialize (Hn op' rest1 Hrest). lia.
Qed.

Lemma expression_unique ts e e' : expression_of 0 ts e → expression_of 0 ts e' → e = e'.
Proof.
  intros He He'. destruct (proj1 (tree_answers (2 * length ts + 2)) 0 ts ltac:(lia)) as (r & Hr & _).
  assert (∀ e, expression_of 0 ts e → r = Some (e, [])) as Hall.
  { intros e0 H0. eapply (proj2 tree_complete 0 ts e0 H0 0 [] e0 []); [lia|by intros ? ?| |rewrite app_nil_r; exact Hr].
    intros [|f] x; [done|]. by intros [= <-]. }
  pose proof (Hall e He) as H1. pose proof (Hall e' He') as H2. congruence.
Qed.

(** ** Values *)

Section values.
Context (ix : CompileTimeDeclarationIndex) (graph : ModuleGraph).
#[local] Abbreviation Declared := (CompileTimeValueId → Z → Prop).

(** The value of an expression in a module, with the values of the generic parameters:
    every intermediate result is an [i32]. *)
Inductive value_of (D : Declared) (path : str) (env : list (list Z * Z)) : ConstantExpr → Z → Prop :=
| v_integer text : in_i 32 (decimal text) → value_of D path env (CInteger text) (decimal text)
| v_negative_literal text : in_i 32 (- decimal text) → value_of D path env (CNegativeLiteral text) (- decimal text)
| v_generic n v : map_get (n : list Z) env = Some v → value_of D path env (CName n) v
| v_name n i v :
    map_get (n : list Z) env = None → resolve_constant_name ix graph path n env = Ok i → D i v → value_of D path env (CName n) v
| v_negative e v : value_of D path env e v → in_i 32 (- v) → value_of D path env (CNegative e) (- v)
| v_inverse e v : value_of D path env e v → value_of D path env (CInverse e) (Z.lnot v)
| v_operation e1 op e2 v1 v2 v :
    value_of D path env e1 v1 → value_of D path env e2 v2 → i32_operation op v1 v2 = Some v →
    value_of D path env (COperation e1 op e2) v.

(** The value of a text. *)
Definition text_value (D : Declared) (path : str) (env : list (list Z * Z)) (text : str) (v : Z) : Prop :=
  ∃ tokens e, tokenize_constant_expression text = Some (Ok tokens) ∧ expression_of 0 tokens e ∧ value_of D path env e v.

(** The value of an initializer, in the module of its declaration, where no generic
    parameter is known. *)
Definition initializer_value (D : Declared) (p : str * str) (v : Z) : Prop := text_value D p.1 [] p.2 v.

Lemma value_mono (D D' : Declared) path env e v : (∀ i w, D i w → D' i w) → value_of D path env e v → value_of D' path env e v.
Proof. intros HD. induction 1; try by econstructor. apply v_name with i; auto. Qed.

Lemma value_det (D : Declared) path env e : (∀ i v w, D i v → D i w → v = w) → ∀ v w, value_of D path env e v → value_of D path env e w → v = w.
Proof.
  intros HD v w Hv. revert w. induction Hv as [text H|text H|n v H|n i v H Hi Hd|e v _ IH H|e v _ IH|e1 op e2 v1 v2 v _ IH1 _ IH2 H];
    intros w Hw; inversion Hw; subst; try congruence.
  - eapply HD; [done|]. congruence.
  - f_equal. by apply IH.
  - f_equal. by apply IH.
  - match goal with H1 : value_of D path env e1 _, H2 : value_of D path env e2 _ |- _ => apply IH1 in H1; apply IH2 in H2 end. congruence.
Qed.

(** The declarations that are known after some number of nested ones are enough. *)
Lemma value_finite (Dn : nat → Declared) path env e v :
  (∀ n m i w, n ≤ m → Dn n i w → Dn m i w)%nat → value_of (λ i w, ∃ n, Dn n i w) path env e v → ∃ n, value_of (Dn n) path env e v.
Proof.
  intros HD. induction 1 as [text H|text H|n v H|n i v H Hi [m Hd]|e v _ [m IH] H|e v _ [m IH]|e1 op e2 v1 v2 v _ [m1 IH1] _ [m2 IH2] H].
  - exists 0%nat. by constructor.
  - exists 0%nat. by constructor.
  - exists 0%nat. by constructor.
  - exists m. by apply v_name with i.
  - exists m. by constructor.
  - exists m. by constructor.
  - exists (max m1 m2). apply v_operation with v1 v2; [| |done]; (eapply value_mono; [|done]); intros i w; apply HD; lia.
Qed.

Lemma text_value_mono (D D' : Declared) path env text v : (∀ i w, D i w → D' i w) → text_value D path env text v → text_value D' path env text v.
Proof. intros HD (ts & e & Ht & He & Hv). exists ts, e. split_and!; [done..|]. by eapply value_mono. Qed.

Lemma text_value_det (D : Declared) path env text v w :
  (∀ i v w, D i v → D i w → v = w) → text_value D path env text v → text_value D path env text w → v = w.
Proof.
  intros HD (ts & e & Ht & He & Hv) (ts' & e' & Ht' & He' & Hw). rewrite Ht in Ht'. injection Ht' as <-.
  pose proof (expression_unique _ _ _ He He') as <-. by eapply value_det.
Qed.

(** [i] is an [i32] constant with the value [v]: the values of the declarations are the
    least that their initializers give. *)
Definition declared : Declared := denotes (i32_initializer ix) initializer_value.

Lemma initializer_mono (D D' : Declared) p v : (∀ i w, D i w → D' i w) → initializer_value D p v → initializer_value D' p v.
Proof. apply text_value_mono. Qed.

Lemma initializer_finite p v :
  initializer_value declared p v → ∃ n, initializer_value (denotes_in (i32_initializer ix) initializer_value n) p v.
Proof.
  intros (ts & e & Ht & He & [n Hv]%value_finite); [by exists n, ts, e|].
  intros n m i w Hnm H1. eapply denotes_in_mono; [exact initializer_mono|exact H1|exact Hnm].
Qed.

(** ** The parser replies *)

Section constant_parser_answers.
Context (env : list (list Z * Z)) (resolver : str → I32Eval Z) (n : nat).
Context (resolver_answers : ∀ name, replies n (resolver name)).

Lemma step_answers : replies n count_step.
Proof. intros st _. eexists _, _. split; [reflexivity|]. done. Qed.

Lemma constant_parser_answers f :
  (∀ p ts, (2 * length ts + 2 ≤ f)%nat → replies_with n (parse_constant_expression env resolver f p ts) (λ x, length x.2 < length ts)%nat)
  ∧ (∀ p v ts, (2 * length ts + 1 ≤ f)%nat → replies_with n (operator_loop env resolver f p v ts) (λ x, length x.2 ≤ length ts)%nat)
  ∧ (∀ ts, (2 * length ts + 1 ≤ f)%nat → replies_with n (parse_constant_prefix env resolver f ts) (λ x, length x.2 < length ts)%nat).
Proof.
  induction f as [|f (IHe & IHl & IHp)]; [split_and!; intros; lia|]. split_and!.
  - intros p ts Hf. cbn [parse_constant_expression]. eapply replies_bind; [apply IHp; lia|]. intros [v rest] Hr. simpl in Hr.
    eapply replies_mono; [apply IHl; lia|]. intros x Hx. simpl in Hx. lia.
  - intros p v ts Hf. cbn [operator_loop]. destruct ts as [|[| |op| | |] ts]; try (apply replies_ret; simpl; lia).
    destruct (_ <? _); [apply replies_ret; simpl; lia|]. cbn [length] in *.
    eapply replies_bind; [apply IHe; lia|]. intros [w rest] Hr. simpl in Hr. eapply (replies_bind _ _ _ (λ _, True)); [by apply replies_lift|].
    intros u _. eapply replies_mono; [apply IHl; lia|]. intros x Hx. simpl in Hx. lia.
  - intros ts Hf. cbn [parse_constant_prefix]. eapply replies_bind; [apply step_answers|]. intros _ _.
    destruct ts as [|t ts]; [apply replies_fail|]. cbn [length] in *.
    assert (∀ m : I32Eval Z, replies n m → replies_with n (do! v := m in eval_ret (v, ts)) (λ x, length x.2 < S (length ts))%nat) as Hval.
    { intros m Hm. eapply replies_bind; [exact Hm|]. intros v _. apply replies_ret. simpl. lia. }
    assert (∀ k : Z → I32Eval Z, (∀ v, replies n (k v)) →
      replies_with n (do! (v, rest) := parse_constant_prefix env resolver f ts in do! w := k v in eval_ret (w, rest)) (λ x, length x.2 < S (length ts))%nat) as Hpre.
    { intros k Hk. eapply replies_bind; [apply IHp; lia|]. intros [v rest] Hr. eapply replies_bind; [apply Hk|]. intros w _. apply replies_ret. simpl in *. lia. }
    assert (∀ r : Result Z str, replies n (eval_lift r : I32Eval Z)) as Hlift by (intros; by apply replies_lift).
    destruct t as [text|name|op|op| |]; try apply replies_fail.
    + apply Hval, Hlift.
    + apply Hval. destruct (map_get _ env); [by apply replies_ret|apply resolver_answers].
    + destruct op; try apply replies_fail.
      * eapply replies_mono; [apply IHp; lia|]. intros x Hx. simpl in *. lia.
      * destruct ts as [|[text'| | | | |] ts']; try (apply Hpre; intros; apply Hlift).
        eapply replies_bind; [apply Hlift|]. intros v _. apply replies_ret. simpl. lia.
    + destruct op; [apply Hpre; intros; apply Hlift|].
      eapply replies_bind; [apply IHp; lia|]. intros [v rest] Hr. apply replies_ret. simpl in *. lia.
    + eapply replies_bind; [apply IHe; lia|]. intros [v rest] Hr. destruct rest as [|[] rest]; try apply replies_fail. apply replies_ret. simpl in *. lia.
Qed.
End constant_parser_answers.

Lemma constant_token_progress b rest t k : constant_token b rest = Ok (t, k) → (1 ≤ k)%nat.
Proof.
  unfold constant_token. destruct (is_ascii_digit b); [intros [= <- <-]; lia|]. destruct (is_constant_identifier_start b); [intros [= <- <-]; lia|].
  destruct (_ && _); [intros [= <- <-]; lia|]. destruct (_ && _); [intros [= <- <-]; lia|]. destruct (byte_token b); [|done]. intros [= <- <-]. lia.
Qed.

Lemma tokenize_answers text : is_Some (tokenize_constant_expression text).
Proof.
  unfold tokenize_constant_expression. assert (length text < S (length text))%nat as H by lia. revert H. generalize (S (length text)). intros f.
  revert text. induction f as [|f IH]; intros text H; [lia|]. cbn [tokenize_loop]. destruct text as [|b rest]; [done|]. cbn [length] in H.
  destruct (is_white b); [apply IH; lia|]. destruct (constant_token b rest) as [[t k]|e] eqn:E; [|done]. apply constant_token_progress in E.
  destruct (IH (drop k (b :: rest))) as [r ->]; [rewrite length_drop; simpl; lia|]. by destruct r.
Qed.

Lemma expression_answers n rec path text env :
  (∀ i, replies n (rec i)) → replies n (evaluate_expression ix graph rec path text env).
Proof.
  intros Hrec. unfold evaluate_expression, evaluate_i32_expression_with_resolver. destruct (tokenize_answers text) as [[tokens|e] ->]; [|apply replies_fail].
  unfold evaluate_tokens. eapply replies_bind.
  - apply (constant_parser_answers env). { intros name. eapply (replies_bind _ _ _ (λ _, True)); [by apply replies_lift|]. intros i _. apply Hrec. }
    unfold constant_fuel. lia.
  - intros [v rest] _. destruct rest; [by apply replies_ret|apply replies_fail].
Qed.

Lemma evaluate_id_answers i : replies 0 (evaluate_id ix graph i32_depth i).
Proof.
  apply memoized_answers; [|unfold i32_depth; lia|unfold i32_depth; lia]. intros n rec p. apply expression_answers.
Qed.

(** ** What is found is the value *)

#[local] Abbreviation Y := (finds (X:=Z) (i32_initializer ix) initializer_value).

Section constant_parser_sound.
Context (path : str) (env : list (list Z * Z)) (resolver : str → I32Eval Z).
#[local] Abbreviation value := (value_of declared path env).
Context (resolver_finds : ∀ name, map_get (name : list Z) env = None → Y (resolver name) (value (CName name))).

(** The tokens that were read are an expression with the value that was found. *)
Definition reads (p : Z) (before ts : list ConstantToken) (x : Z * list ConstantToken) : Prop :=
  ∃ used e, ts = used ++ x.2 ∧ expression_of p (before ++ used) e ∧ value e x.1 ∧ next_below p x.2.

Definition reads_prefix (ts : list ConstantToken) (x : Z * list ConstantToken) : Prop :=
  ∃ used e, ts = used ++ x.2 ∧ prefix_of used e ∧ value e x.1.

Lemma step_finds : Y count_step (λ _, True).
Proof. intros st r st' Hs [= <- <-]. done. Qed.

Lemma literal_finds (r : Result Z str) e t rest : (∀ v, r = Ok v → value e v) → prefix_of t e →
  Y (do! v := eval_lift r in eval_ret (v, rest)) (reads_prefix (t ++ rest)).
Proof.
  intros Hr Ht. apply (finds_bind _ _ (value e)); [by apply finds_lift|]. intros v Hv. apply finds_ret. by exists t, e.
Qed.

Lemma negative_literal_value text v : negative_literal text = Ok v → value (CNegativeLiteral text) v.
Proof.
  unfold negative_literal, parse_i64, ok_or, checked_i. simpl. case_bool_decide; [|done]. simpl. case_bool_decide as Hi; [|done].
  intros [= <-]. by apply v_negative_literal.
Qed.

Lemma literal_value text v : (let? v := parse_i64 text in to_i32 v text) = Ok v → value (CInteger text) v.
Proof.
  unfold parse_i64, to_i32, ok_or, checked_i. case_bool_decide; [|done]. simpl. case_bool_decide as Hi; [|done].
  intros [= <-]. by apply v_integer.
Qed.

Lemma negate_value e v w : value e v → negate_i32 v = Ok w → value (CNegative e) w.
Proof. intros Hv. unfold negate_i32, ok_or, checked_i. case_bool_decide; [|done]. intros [= <-]. by apply v_negative. Qed.

(** A prefix operator on what is read after it. *)
Lemma operand_finds f t (g : ConstantExpr → ConstantExpr) (k : Z → Result Z str) ts :
  Y (parse_constant_prefix env resolver f ts) (reads_prefix ts) →
  (∀ used e, prefix_of used e → (∃ rest, ts = used ++ rest) → prefix_of (t :: used) (g e)) →
  (∀ e v w, value e v → k v = Ok w → value (g e) w) →
  Y (do! (v, rest) := parse_constant_prefix env resolver f ts in do! w := eval_lift (k v) in eval_ret (w, rest)) (reads_prefix (t :: ts)).
Proof.
  intros Hm Hg Hk. eapply finds_bind; [exact Hm|]. intros [v rest] (used & e & -> & He & Hv). simpl in *.
  apply (finds_bind _ _ (value (g e))); [apply finds_lift; intros w; by apply (Hk e v)|]. intros w Hw. apply finds_ret. exists (t :: used), (g e). split_and!; [done| |done].
  apply Hg; [done|by exists rest].
Qed.

Lemma constant_parser_sound f :
  (∀ p ts, p ≤ 101 → Y (parse_constant_expression env resolver f p ts) (reads p [] ts))
  ∧ (∀ p k before e1 v ts, p ≤ k → expression_of k before e1 → value e1 v → next_below (k + 1) ts →
       Y (operator_loop env resolver f p v ts) (reads p before ts))
  ∧ (∀ ts, Y (parse_constant_prefix env resolver f ts) (reads_prefix ts)).
Proof.
  induction f as [|f (IHe & IHl & IHp)]; [by split_and!|]. split_and!.
  - intros p ts Hp. cbn [parse_constant_expression]. eapply finds_bind; [apply IHp|]. intros [v rest] (used & e & -> & He & Hv). simpl in *.
    eapply finds_mono; [apply (IHl p 200 used e); [lia|by apply e_prefix|done|]|].
    { intros op ? _. pose proof (constant_precedence_range op). lia. }
    intros x (more & e' & -> & He' & Hv' & Hn). exists (used ++ more), e'. split_and!; [by rewrite app_assoc|done..].
  - intros p k before e1 v ts Hp He1 Hv1 Hn. cbn [operator_loop].
    assert ((∀ op rest, ts = TokOperator op :: rest → precedence op < p) → Y (eval_ret (v, ts)) (reads p before ts)) as Hstop.
    { intros Hs. apply finds_ret. exists [], e1. rewrite app_nil_r. split_and!; [done| |done|exact Hs]. by eapply expression_lower. }
    destruct ts as [|[| |op| | |] ts]; try (apply Hstop; intros ? ? [=]). specialize (Hn op ts eq_refl).
    destruct (Z.ltb_spec (precedence op) p); [apply Hstop; by intros ? ? [= <- _]|].
    eapply finds_bind; [apply IHe; pose proof (constant_precedence_range op); lia|]. intros [w rest] (used & e2 & -> & He2 & Hv2 & Hn2). simpl in *.
    apply (finds_bind _ _ (λ u, i32_operation op v w = Some u)).
    { apply finds_lift. unfold checked_i32_binary, ok_or. by destruct (i32_operation op v w); intros ? [= <-]. }
    intros u Hu. eapply finds_mono; [apply (IHl p (precedence op) (before ++ TokOperator op :: used) (COperation e1 op e2)); [lia| |by eapply v_operation|done]|].
    + apply e_operation; [lia| |done]. eapply expression_lower; [done|lia].
    + intros x (more & e' & -> & He' & Hv' & Hn'). exists (TokOperator op :: used ++ more), e'. split_and!; [by simpl; rewrite <- app_assoc| |done..].
      by rewrite <- app_assoc in He'.
  - intros ts. cbn [parse_constant_prefix]. eapply finds_bind; [apply step_finds|]. intros _ _. destruct ts as [|t ts]; [apply finds_fail|].
    destruct t as [text|name|op|op| |]; try apply finds_fail.
    + apply (literal_finds _ (CInteger text) [TokInteger text]); [apply literal_value|constructor].
    + apply (finds_bind _ _ (value (CName name))).
      * destruct (map_get (name : list Z) env) as [v|] eqn:Ev; [apply finds_ret; by apply v_generic|by apply resolver_finds].
      * intros v Hv. apply finds_ret. exists [TokIdentifier name], (CName name). split_and!; [done|constructor|done].
    + destruct op; try apply finds_fail.
      * eapply finds_mono; [apply IHp|]. intros x (used & e & -> & He & Hv). exists (TokOperator Add :: used), e. split_and!; [done|by constructor|done].
      * assert (starts_integer ts = false → Y (do! (v, rest) := parse_constant_prefix env resolver f ts in do! w := eval_lift (negate_i32 v) in eval_ret (w, rest))
          (reads_prefix (TokOperator Subtract :: ts))) as Hneg.
        { intros Hi. apply (operand_finds f (TokOperator Subtract) CNegative); [apply IHp| |apply negate_value].
          intros used e He [rest ->]. apply p_minus; [done|]. apply prefix_not_nil in He. by destruct used as [|[] ?]. }
        destruct ts as [|[text'| | | | |] ts']; try (by apply Hneg).
        apply (literal_finds _ (CNegativeLiteral text') [TokOperator Subtract; TokInteger text']); [apply negative_literal_value|constructor].
    + destruct op.
      * apply (operand_finds f (TokUnary Negate) CNegative); [apply IHp|by constructor|apply negate_value].
      * eapply finds_bind; [apply IHp|]. intros [v rest] (used & e & -> & He & Hv). apply finds_ret. simpl in *.
        exists (TokUnary BitwiseNot :: used), (CInverse e). split_and!; [done|by constructor|by constructor].
    + eapply finds_bind; [apply IHe; lia|]. intros [v rest] (used & e & -> & He & Hv & _). simpl in *. destruct rest as [|[] rest]; try apply finds_fail.
      apply finds_ret. exists (TokOpen :: used ++ [TokClose]), e. split_and!; [by simpl; rewrite <- app_assoc|by constructor|done].
Qed.
End constant_parser_sound.

Lemma expression_sound rec path text env :
  (∀ i, Y (rec i) (declared i)) → Y (evaluate_expression ix graph rec path text env) (text_value declared path env text).
Proof.
  intros Hrec. unfold evaluate_expression, evaluate_i32_expression_with_resolver.
  destruct (tokenize_constant_expression text) as [[tokens|e]|] eqn:Et; [|apply finds_fail|by intros ? ? ? ?].
  unfold evaluate_tokens. eapply finds_bind.
  - apply (constant_parser_sound path env); [|lia]. intros name Hn. apply (finds_bind _ _ (λ i, resolve_constant_name ix graph path name env = Ok i)); [by apply finds_lift|].
    intros i Hi. eapply finds_mono; [apply Hrec|]. intros v Hv. by eapply v_name.
  - intros [v rest] (used & e & -> & He & Hv & _). destruct rest; [|apply finds_fail]. apply finds_ret. simpl in *.
    rewrite app_nil_r in Et. by exists used, e.
Qed.

Lemma evaluate_id_sound depth i : Y (evaluate_id ix graph depth i) (declared i).
Proof. apply memoized_sound; [apply initializer_finite|]. intros rec p. apply expression_sound. Qed.

(** ** The value is found, unless a limit is exceeded *)

Definition i32_limit (e : str) : Prop := e = too_many_steps ∨ e = too_deep.

#[local] Instance i32_limit_dec e : Decision (i32_limit e).
Proof. unfold i32_limit. apply _. Defined.

#[local] Abbreviation C := (completes (X:=Z) (i32_initializer ix) initializer_value i32_limit).

Section constant_parser_complete.
Context (n : nat) (path : str) (env : list (list Z * Z)) (resolver : str → I32Eval Z).
#[local] Abbreviation value := (value_of (denotes_in (i32_initializer ix) initializer_value n) path env).
Context (resolver_completes : ∀ name v, map_get (name : list Z) env = None → value (CName name) v → C n (resolver name) v).

Lemma step_completes : C n count_step tt.
Proof.
  intros st r st' Hs _ [= <- <-]. split_and!; [done..|]. unfold ensure_constant_evaluation_steps. destruct (_ <? _); [|by left].
  right. exists too_many_steps. split; [done|by left].
Qed.

Lemma no_fuel_completes {A} (a : A) : C n (λ _, None) a.
Proof. by intros ? ? ? ? ?. Qed.

Lemma literal_completes (r : Result Z str) v (rest : list ConstantToken) : r = Ok v → C n (do! v := eval_lift r in eval_ret (v, rest)) (v, rest).
Proof. intros Hr. eapply completes_bind; [by apply completes_lift|]. apply completes_ret. Qed.

Lemma literal_of_value text v : value (CInteger text) v → (let? v := parse_i64 text in to_i32 v text) = Ok v.
Proof.
  inversion 1 as [? Hi| | | | | |]; subst. unfold parse_i64, to_i32, ok_or, checked_i. rewrite bool_decide_true by (unfold in_i in *; lia).
  simpl. by rewrite bool_decide_true.
Qed.

Lemma negative_literal_of_value text v : value (CNegativeLiteral text) v → negative_literal text = Ok v.
Proof.
  inversion 1 as [|? Hi| | | | |]; subst. unfold negative_literal, parse_i64, ok_or, checked_i. rewrite bool_decide_true by (unfold in_i in *; lia).
  simpl. by rewrite bool_decide_true.
Qed.

(** A negation of what is read after the operator. *)
Lemma negation_completes f ts e v rest :
  (∀ w, value e w → C n (parse_constant_prefix env resolver f (ts ++ rest)) (w, rest)) → value (CNegative e) v →
  C n (do! (v, rest) := parse_constant_prefix env resolver f (ts ++ rest) in do! w := eval_lift (negate_i32 v) in eval_ret (w, rest)) (v, rest).
Proof.
  intros Hp. inversion 1 as [| | | |? w Hw Hi| |]; subst. eapply completes_bind; [by apply Hp|].
  eapply completes_bind; [|apply completes_ret]. apply completes_lift. unfold negate_i32, ok_or, checked_i. by rewrite bool_decide_true.
Qed.

Lemma stop_completes p v rest f : next_below p rest → C n (operator_loop env resolver f p v rest) (v, rest).
Proof.
  intros Hn. destruct f as [|f]; [apply no_fuel_completes|]. cbn [operator_loop]. destruct rest as [|[| |op| | |] rest]; try apply completes_ret.
  specialize (Hn op rest eq_refl). rewrite (proj2 (Z.ltb_lt _ _) Hn). apply completes_ret.
Qed.

Lemma constant_parser_complete :
  (∀ ts e, prefix_of ts e → ∀ v rest f, value e v → C n (parse_constant_prefix env resolver f (ts ++ rest)) (v, rest))
  ∧ (∀ k ts e, expression_of k ts e → ∀ p v rest b, p ≤ k → next_below (k + 1) rest → value e v →
       (∀ f, C n (operator_loop env resolver f p v rest) b) → ∀ f, C n (parse_constant_expression env resolver f p (ts ++ rest)) b).
Proof.
  apply constant_grammar_ind.
  - intros text v rest [|f] Hv; [apply no_fuel_completes|]. eapply completes_bind; [apply step_completes|]. by apply literal_completes, literal_of_value.
  - intros name v rest [|f] Hv; [apply no_fuel_completes|]. eapply completes_bind; [apply step_completes|]. eapply completes_bind; [|apply completes_ret].
    destruct (map_get (name : list Z) env) as [w|] eqn:E; [|by apply resolver_completes]. inversion Hv; subst; [|congruence].
    assert (w = v) as -> by congruence. apply completes_ret.
  - intros ts e _ IH v rest [|f] Hv; [apply no_fuel_completes|]. eapply completes_bind; [apply step_completes|]. by apply IH.
  - intros text v rest [|f] Hv; [apply no_fuel_completes|]. eapply completes_bind; [apply step_completes|]. by apply literal_completes, negative_literal_of_value.
  - intros ts e Hd IH Hs v rest [|f] Hv; [apply no_fuel_completes|]. eapply completes_bind; [apply step_completes|]. apply prefix_not_nil in Hd.
    destruct ts as [|[] ts]; try done; (apply (negation_completes f _ e); [intros w Hw; by apply IH|done]).
  - intros ts e _ IH v rest [|f] Hv; [apply no_fuel_completes|]. eapply completes_bind; [apply step_completes|].
    apply (negation_completes f ts e); [intros w Hw; by apply IH|done].
  - intros ts e _ IH v rest [|f] Hv; [apply no_fuel_completes|]. eapply completes_bind; [apply step_completes|].
    inversion Hv as [| | | | |? w Hw|]; subst. eapply completes_bind; [by apply IH|]. apply completes_ret.
  - intros ts e _ IH v rest [|f] Hv; [apply no_fuel_completes|]. eapply completes_bind; [apply step_completes|]. cbn [app]. rewrite <- app_assoc. cbn [app].
    eapply completes_bind; [apply (IH 0 v (TokClose :: rest)); [lia|by intros ? ?|done|]|]; [intros f'; apply stop_completes; by intros ? ?|apply completes_ret].
  - intros k ts e _ IH p v rest b _ _ Hv Hl [|f]; [apply no_fuel_completes|]. cbn [parse_constant_expression]. eapply completes_bind; [by apply IH|]. apply Hl.
  - intros k l op r e1 e2 Hk _ IHl _ IHr p v rest b Hp Hn Hv Hl f. rewrite <- app_assoc. cbn [app]. inversion Hv as [| | | | | |? ? ? v1 v2 ? Hv1 Hv2 Hop]; subst.
    apply (IHl p v1); [lia|intros ? ? [= <- _]; lia|done|]. clear f. intros [|f]; [apply no_fuel_completes|]. cbn [operator_loop].
    destruct (Z.ltb_spec (precedence op) p); [lia|]. assert (next_below (precedence op + 1) rest) as Hn'.
    { intros op' rest1 Hrest. specialize (Hn op' rest1 Hrest). lia. }
    eapply completes_bind; [apply (IHr (precedence op + 1) v2 rest (v2, rest)); [lia| |done|]|].
    + intros op' rest1 Hrest. specialize (Hn' op' rest1 Hrest). lia.
    + intros f'. by apply stop_completes.
    + eapply completes_bind; [|apply Hl]. apply completes_lift. unfold checked_i32_binary. by rewrite Hop.
Qed.
End constant_parser_complete.

Lemma expression_complete n rec path text env v :
  (∀ i w, denotes_in (i32_initializer ix) initializer_value n i w → C n (rec i) w) →
  text_value (denotes_in (i32_initializer ix) initializer_value n) path env text v → C n (evaluate_expression ix graph rec path text env) v.
Proof.
  intros Hrec (tokens & e & Ht & He & Hv). unfold evaluate_expression, evaluate_i32_expression_with_resolver. rewrite Ht. unfold evaluate_tokens.
  eapply completes_bind.
  - rewrite <- (app_nil_r tokens) at 2. eapply (proj2 (constant_parser_complete n path env _ _) 0 tokens e He 0 v [] (v, [])); [lia|by intros ? ?|done|].
    intros f. apply stop_completes. by intros ? ?.
  - apply completes_ret.
  Unshelve. intros name w Hn Hw. inversion Hw as [| |? ? Hg|? i ? _ Hi Hd| | |]; subst; [congruence|].
  eapply completes_bind; [apply completes_lift, Hi|]. by apply Hrec.
Qed.

Lemma initializer_det (D : Declared) p v w :
  (∀ i v w, D i v → D i w → v = w) → initializer_value D p v → initializer_value D p w → v = w.
Proof. apply text_value_det. Qed.

Lemma evaluate_id_complete n depth i v :
  denotes_in (i32_initializer ix) initializer_value n i v → C n (evaluate_id ix graph depth i) v.
Proof.
  apply memoized_completes.
  - apply initializer_mono.
  - apply initializer_finite.
  - intros rec p. apply expression_sound.
  - intros D HD p w w'. by apply initializer_det.
  - by right.
  - intros m rec p w. apply expression_complete.
  - apply _.
  - apply _.
Qed.

(** *** The theorems *)

(** The value of a text in a module, by way of the declarations of the program. *)
Definition expression_value (path text : str) (env : list (list Z * Z)) (v : Z) : Prop := text_value declared path env text v.

Lemma expression_exact path text env st r st' :
  sound (i32_initializer ix) initializer_value st → stack st = [] →
  evaluate_generic_i32_with_state ix graph path text env st = Some (r, st') →
  sound (i32_initializer ix) initializer_value st' ∧ stack st' = []
  ∧ (∀ v, r = Ok v → expression_value path text env v) ∧ (∀ v, expression_value path text env v → r = Ok v ∨ ∃ e, r = Err e ∧ i32_limit e).
Proof.
  intros Hs Hst Hr. pose proof (expression_sound _ path text env (evaluate_id_sound i32_depth)) as Hy.
  destruct (Hy (set_steps 0 st) r st' Hs Hr) as (Hs' & Hst' & Hv). split_and!; [done|by rewrite Hst'|done|].
  intros v (tokens & e & Ht & He & Hval). apply value_finite in Hval as [n Hval].
  2: { intros k m i w Hkm H1. eapply denotes_in_mono; [exact initializer_mono|exact H1|exact Hkm]. }
  apply (expression_complete n _ path text env v (λ i w, evaluate_id_complete n i32_depth i w)) with (st := set_steps 0 st) (st' := st'); [by exists tokens, e|done| |done].
  intros k w Hk. cbn [set_steps stack] in Hk. rewrite Hst in Hk. by apply not_elem_of_nil in Hk.
Qed.
End values.

(** C15 The evaluator of compile-time [i32] expressions always answers.  The value it finds
    is the value of the text: of the only expression of the grammar that the tokens of the
    text are, where a name stands for the constant that it is resolved to and a constant
    has the value of its initializer; and a text that has a value is evaluated to it,
    whatever other declarations are cyclic, unless the evaluation exceeds its limit on
    steps or its limit on nested declarations. *)
Theorem generic_i32_exact ix graph path text env :
  ∃ r, evaluate_generic_i32 ix graph path text env = Some r
  ∧ (∀ v, r = Ok v → expression_value ix graph path text env v)
  ∧ (∀ v, expression_value ix graph path text env v → r = Ok v ∨ r = Err too_many_steps ∨ r = Err too_deep).
Proof.
  destruct (expression_answers ix graph 0 _ path text env (evaluate_id_answers ix graph) (set_steps 0 fresh_state)) as (r & st' & Hr & _); [simpl; lia|].
  destruct (expression_exact ix graph path text env fresh_state r st') as (_ & _ & Hs & Hc); [by intros k v Hin%not_elem_of_nil|done|exact Hr|].
  exists r. split_and!; [|done|].
  - unfold evaluate_generic_i32, evaluate_generic_i32_with_state, evaluate_expression in *. by rewrite Hr.
  - intros v [->|(e & -> & [->| ->])]%Hc; auto.
Qed.

(** ** The index

    What the index holds under a path and a name, in terms of the parsed files. *)

Definition Program : Type := list (str * ParsedTypeLayout).

Definition parsed (files : list SourceFile) (program : Program) : Prop :=
  Forall2 (λ file e, e.1 = sf_path file ∧ parse_top_level_type_layout (sf_original_content file) = Some (Ok e.2)) files program.

(** The declarations of the files of a path. *)
Definition declarations_at {A} (program : Program) (p : str) (f : ParsedTypeLayout → list A) : list A :=
  mjoin ((λ e, if bool_decide (e.1 = p) then f e.2 else []) <$> program).

Lemma push_entry_sorted {A} path name (x : A) m : sorted_map m → sorted_map (push_entry path name x m).
Proof. apply map_insert_sorted. Qed.

Lemma entries_push {A} p n path name (x : A) m : sorted_map m →
  entries (push_entry path name x m) p n = entries m p n ++ (if bool_decide (path = p ∧ name = n) then [x] else []).
Proof.
  intros Hm. unfold push_entry, entries at 1. rewrite map_get_insert_case by done.
  destruct (decide _) as [Hk|Hk]; case_bool_decide as Hn; simpl; rewrite ?app_nil_r; try done.
  - by injection Hk as -> ->.
  - injection Hk as -> ->. by destruct Hn.
  - destruct Hn as [-> ->]. by destruct Hk.
Qed.

Lemma entries_fold {A B} (key : B → str) (f : B → A) path l : ∀ m, sorted_map m →
  let m' := foldl (λ m c, push_entry path (key c) (f c) m) m l in
  sorted_map m' ∧ ∀ p n, entries m' p n = entries m p n ++ (if bool_decide (path = p) then f <$> filter (λ c, key c = n) l else []).
Proof.
  induction l as [|c l IH]; intros m Hm; simpl.
  { split; [done|]. intros p n. case_bool_decide; by rewrite app_nil_r. }
  destruct (IH (push_entry path (key c) (f c) m)) as [Hs He]; [by apply push_entry_sorted|]. split; [done|]. intros p n.
  rewrite He, entries_push, <- app_assoc by done. f_equal. rewrite filter_cons.
  repeat case_bool_decide; repeat case_decide; simpl; try done; naive_solver.
Qed.

Record indexed (program : Program) (ix : CompileTimeDeclarationIndex) : Prop := {
  indexed_sorted : sorted_map (ix_flat_constants ix) ∧ sorted_map (ix_groups ix) ∧ sorted_map (ix_enums ix);
  indexed_flat p n :
    flat_constants ix p n = declarations_at program p (λ l, indexed_flat_constant p <$> filter (λ c, const_name c = n) (pl_constants l));
  indexed_groups p n :
    groups ix p n = declarations_at program p (λ l, indexed_group p <$> filter (λ g, group_name g = n) (pl_const_groups l));
  indexed_enums p n : enums ix p n = declarations_at program p (λ l, filter (λ e, enum_name e = n) (pl_enums l));
}.

Lemma declarations_at_snoc {A} program path l p (f : ParsedTypeLayout → list A) :
  declarations_at (program ++ [(path, l)]) p f = declarations_at program p f ++ (if bool_decide (path = p) then f l else []).
Proof. unfold declarations_at. rewrite fmap_app, join_app. simpl. by rewrite app_nil_r. Qed.

Lemma index_layout_indexed program ix path host l : indexed program ix → indexed (program ++ [(path, l)]) (index_layout path host l ix).
Proof.
  intros [(Hs1 & Hs2 & Hs3) Hf Hg He].
  destruct (entries_fold const_name (indexed_flat_constant path) path (pl_constants l) (ix_flat_constants ix) Hs1) as [Hs1' Hf'].
  destruct (entries_fold group_name (indexed_group path) path (pl_const_groups l) (ix_groups ix) Hs2) as [Hs2' Hg'].
  destruct (entries_fold enum_name (λ e, e) path (pl_enums l) (ix_enums ix) Hs3) as [Hs3' He'].
  split; [done|..]; intros p n; rewrite declarations_at_snoc; [rewrite <- Hf|rewrite <- Hg|rewrite <- He];
    [etrans; [apply Hf'|]|etrans; [apply Hg'|]|etrans; [apply He'|]]; f_equal; case_bool_decide; subst; try done.
  by rewrite list_fmap_id.
Qed.

Lemma build_loop_indexed `{GraphicsFrontEnd} files : ∀ program ix ix', indexed program ix → build_loop files ix = Some (Ok ix') →
  ∃ more, parsed files more ∧ indexed (program ++ more) ix'.
Proof.
  induction files as [|file files IH]; intros program ix ix' Hix; cbn [build_loop].
  { intros [= <-]. exists []. rewrite app_nil_r. split; [constructor|done]. }
  destruct (parse_top_level_type_layout _) as [[l|e]|] eqn:El; [|done..]. cbn [mbind option_bind].
  intros Hb. eapply (IH (program ++ [(sf_path file, l)])) in Hb as (more & Hp & Hix'); [|by apply index_layout_indexed].
  exists ((sf_path file, l) :: more). split; [by constructor|]. by rewrite <- app_assoc in Hix'.
Qed.

Lemma build_indexed `{GraphicsFrontEnd} files ix : build files = Some (Ok ix) → ∃ program, parsed files program ∧ indexed program ix.
Proof. apply (build_loop_indexed files []). split; [repeat split; constructor|done..]. Qed.

(** ** Names

    What a name of a module stands for, in terms of the declarations of the program. *)

Definition declares (program : Program) (i : CompileTimeValueId) : Prop :=
  ∃ l, (ctv_source_path i, l) ∈ program ∧
    match ctv_owner i with
    | FlatOwner => ∃ c, c ∈ pl_constants l ∧ const_name c = ctv_member i
    | GroupOwner g => ∃ gr, gr ∈ pl_const_groups l ∧ group_name gr = g ∧ ∃ m, m ∈ group_members gr ∧ member_name m = ctv_member i
    | EnumOwner e => ∃ en, en ∈ pl_enums l ∧ enum_name en = e ∧ ∃ v, v ∈ enum_variants en ∧ variant_name v = ctv_member i
    end.

Definition has_group (program : Program) (n p : str) : Prop := ∃ l gr, (p, l) ∈ program ∧ gr ∈ pl_const_groups l ∧ group_name gr = n.
Definition has_enum (program : Program) (n p : str) : Prop := ∃ l en, (p, l) ∈ program ∧ en ∈ pl_enums l ∧ enum_name en = n.

Section resolution.
Context (ix : CompileTimeDeclarationIndex) (graph : ModuleGraph) (program : Program) (source_path : str).
Context (Hix : indexed program ix).
#[local] Abbreviation local := source_path.

(** The module itself, and the modules it reaches when it has no such declaration. *)
Definition scope (has : str → Prop) (p : str) : Prop := p = local ∨ p ∈ visible_paths graph local ∧ ¬ has local.

Definition flat_in (n : str) (p : str) : Prop := declares program (mkValueId p FlatOwner n).

(** A local test seam may use the variants of the enum of the host. *)
Definition host_variant (member p : str) : Prop :=
  is_explicit_graphics_test_seam_path local = true ∧ has_enum program SPRITE_REF local
  ∧ ¬ declares program (mkValueId local (EnumOwner SPRITE_REF) member)
  ∧ p ∈ visible_paths graph local ∧ p ∈ host_sprite_ref_enum_paths ix.

Inductive denoted : list str → CompileTimeValueId → Prop :=
| d_flat n p : scope (flat_in n) p → denoted [n] (mkValueId p FlatOwner n)
| d_alias root member p : visible_alias_target graph local root = Some p → denoted [root; member] (mkValueId p FlatOwner member)
| d_group root member p : scope (has_group program root) p → denoted [root; member] (mkValueId p (GroupOwner root) member)
| d_enum root member p : scope (has_enum program root) p → denoted [root; member] (mkValueId p (EnumOwner root) member)
| d_host member p : host_variant member p → denoted [SPRITE_REF; member] (mkValueId p (EnumOwner SPRITE_REF) member)
| d_exact_group alias owner member p :
    imported_alias_target graph local alias = Some p → denoted [alias; owner; member] (mkValueId p (GroupOwner owner) member)
| d_exact_enum alias owner member p :
    imported_alias_target graph local alias = Some p → ¬ has_group program owner p → denoted [alias; owner; member] (mkValueId p (EnumOwner owner) member).

(** The declarations that a name stands for. *)
Definition stands_for_parts (parts : list str) (i : CompileTimeValueId) : Prop := denoted parts i ∧ declares program i.
Definition stands_for (identifier : str) : CompileTimeValueId → Prop := stands_for_parts (split_on PERIOD identifier).

(** *** What the lookups find *)

Lemma elem_of_declarations_at {A} (f : ParsedTypeLayout → list A) p x : x ∈ declarations_at program p f ↔ ∃ l, (p, l) ∈ program ∧ x ∈ f l.
Proof.
  unfold declarations_at. rewrite list_elem_of_join. setoid_rewrite list_elem_of_fmap. split.
  - intros (xs & Hx & [path l] & -> & Hin). simpl in Hx. case_bool_decide; [subst|by apply not_elem_of_nil in Hx]. by exists l.
  - intros (l & Hin & Hx). eexists. split; [|by exists (p, l)]. simpl. by rewrite bool_decide_true.
Qed.

Lemma flat_elem p n d : d ∈ flat_constants ix p n ↔ ∃ l c, (p, l) ∈ program ∧ c ∈ pl_constants l ∧ const_name c = n ∧ d = indexed_flat_constant p c.
Proof.
  rewrite (indexed_flat _ _ Hix), elem_of_declarations_at. setoid_rewrite list_elem_of_fmap. setoid_rewrite list_elem_of_filter. naive_solver.
Qed.

Lemma flat_id p n d : d ∈ flat_constants ix p n → ic_id d = mkValueId p FlatOwner n ∧ flat_in n p.
Proof. intros (l & c & Hl & Hc & <- & ->)%flat_elem. split; [done|]. exists l. split; [done|]. by exists c. Qed.

Lemma flat_declared p n : flat_in n p → ∃ d, d ∈ flat_constants ix p n.
Proof. intros (l & Hl & c & Hc & Hn). exists (indexed_flat_constant p c). apply flat_elem. by exists l, c. Qed.

Lemma group_elem p n g : g ∈ groups ix p n ↔ ∃ l gr, (p, l) ∈ program ∧ gr ∈ pl_const_groups l ∧ group_name gr = n ∧ g = indexed_group p gr.
Proof.
  rewrite (indexed_groups _ _ Hix), elem_of_declarations_at. setoid_rewrite list_elem_of_fmap. setoid_rewrite list_elem_of_filter. naive_solver.
Qed.

Lemma group_has p n g : g ∈ groups ix p n → has_group program n p.
Proof. intros (l & gr & Hl & Hg & Hn & _)%group_elem. by exists l, gr. Qed.

Lemma has_group_elem p n : has_group program n p → ∃ g, g ∈ groups ix p n.
Proof. intros (l & gr & Hl & Hg & Hn). exists (indexed_group p gr). apply group_elem. by exists l, gr. Qed.

Lemma group_member_id p n g m : g ∈ groups ix p n → m ∈ ig_members g →
  ic_id m = mkValueId p (GroupOwner n) (ctv_member (ic_id m)) ∧ declares program (ic_id m).
Proof.
  intros (l & gr & Hl & Hg & <- & ->)%group_elem (pm & -> & Hm)%list_elem_of_fmap. split; [done|]. exists l. split; [done|].
  exists gr. split_and!; [done..|]. by exists pm.
Qed.

Lemma group_member_declared p n member : declares program (mkValueId p (GroupOwner n) member) →
  ∃ g m, g ∈ groups ix p n ∧ m ∈ members_named member g.
Proof.
  intros (l & Hl & gr & Hg & Hn & pm & Hm & Hpm). exists (indexed_group p gr), (indexed_group_member p (group_name gr) pm).
  split; [apply group_elem; by exists l, gr|]. apply list_elem_of_filter. split; [done|]. by apply list_elem_of_fmap_2.
Qed.

Lemma enum_elem p n e : e ∈ enums ix p n ↔ ∃ l, (p, l) ∈ program ∧ e ∈ pl_enums l ∧ enum_name e = n.
Proof. rewrite (indexed_enums _ _ Hix), elem_of_declarations_at. setoid_rewrite list_elem_of_filter. naive_solver. Qed.

Lemma enum_has p n e : e ∈ enums ix p n → has_enum program n p.
Proof. intros (l & Hl & He & Hn)%enum_elem. by exists l, e. Qed.

Lemma has_enum_elem p n : has_enum program n p → ∃ e, e ∈ enums ix p n.
Proof. intros (l & e & Hl & He & Hn). exists e. apply enum_elem. by exists l. Qed.

Definition has_variant (member : str) (e : ParsedEnumDefinition) : Prop := ∃ v, v ∈ enum_variants e ∧ variant_name v = member.

Lemma variant_declared p n member : declares program (mkValueId p (EnumOwner n) member) ↔ ∃ e, e ∈ enums ix p n ∧ has_variant member e.
Proof.
  split.
  - intros (l & Hl & e & He & Hn & Hv). exists e. split; [|done]. apply enum_elem. by exists l.
  - intros (e & (l & Hl & He & Hn)%enum_elem & Hv). exists l. split; [done|]. by exists e.
Qed.

Lemma variant_count_pos member e : (0 < variant_count member e)%nat ↔ has_variant member e.
Proof.
  unfold variant_count, has_variant. destruct (filter _ _) as [|v vs] eqn:Ef; simpl; split; try lia.
  - intros (v & Hv & Hm). apply (filter_nil_not_elem_of _ _ v Ef) in Hv; [done|exact Hm].
  - intros _. assert (v ∈ filter (λ v, variant_name v = member) (enum_variants e)) as Hv by (rewrite Ef; by left).
    apply list_elem_of_filter in Hv as [Hm Hv]. by exists v.
Qed.

(** *** What the module sees *)

(** The declarations of the module, or those it sees in others. *)
Definition scoped {A} (lookup : str → list A) : list A :=
  match lookup local with [] => visible_entries graph local lookup | l => l end.

Lemma elem_of_visible {A} (lookup : str → list A) x : x ∈ visible_entries graph local lookup ↔ ∃ p, p ∈ visible_paths graph local ∧ x ∈ lookup p.
Proof.
  unfold visible_entries. rewrite list_elem_of_join. setoid_rewrite list_elem_of_fmap. naive_solver.
Qed.

Lemma elem_of_scoped {A} (lookup : str → list A) (has : str → Prop) x :
  (∀ p, has p ↔ ∃ x, x ∈ lookup p) → x ∈ scoped lookup ↔ ∃ p, scope has p ∧ x ∈ lookup p.
Proof.
  intros Hhas. unfold scoped, scope. destruct (lookup local) as [|y l] eqn:El.
  - rewrite elem_of_visible. assert (¬ has local) as Hn by (rewrite Hhas, El; intros [? Hx]; by apply not_elem_of_nil in Hx). split.
    + intros (p & Hp & Hx). exists p. auto.
    + intros (p & [->|[Hp _]] & Hx); [rewrite El in Hx; by apply not_elem_of_nil in Hx|by exists p].
  - rewrite <- El. assert (has local) as Hl by (rewrite Hhas; exists y; rewrite El; by left). split.
    + intros Hx. exists local. auto.
    + intros (p & [->|[_ Hn]] & Hx); done.
Qed.

Lemma has_flat_iff n p : flat_in n p ↔ ∃ d, d ∈ flat_constants ix p n.
Proof. split; [apply flat_declared|]. by intros [d [_ ?]%flat_id]. Qed.
Lemma has_group_iff n p : has_group program n p ↔ ∃ g, g ∈ groups ix p n.
Proof. split; [apply has_group_elem|]. by intros [g ?%group_has]. Qed.
Lemma has_enum_iff n p : has_enum program n p ↔ ∃ e, e ∈ enums ix p n.
Proof. split; [apply has_enum_elem|]. by intros [e ?%enum_has]. Qed.

Lemma unique_exact {A} message (l : list A) o : unique message l = Ok o → l = option_list o.
Proof. destruct l as [|x [|y l]]; intros [= <-]; done. Qed.

Lemma group_owner_scoped n o : visible_group_owner ix graph local n = Ok o → scoped (λ p, groups ix p n) = option_list o.
Proof. unfold visible_group_owner, unique_group_owner, scoped. destruct (groups ix local n); [|unfold unique_group]; apply unique_exact. Qed.

Lemma enum_owner_scoped n o : visible_enum_owner ix graph local n = Ok o → scoped (λ p, enums ix p n) = option_list o.
Proof. unfold visible_enum_owner, unique_enum, scoped. destruct (enums ix local n); apply unique_exact. Qed.

(** *** The candidates of a name *)

Lemma resolve_flat_exact n i : resolve_flat ix graph local n = Ok (Some i) →
  stands_for_parts [n] i ∧ ∀ j, stands_for_parts [n] j → j = i.
Proof.
  intros Hr. assert (∃ d, scoped (λ p, flat_constants ix p n) = [d] ∧ i = ic_id d) as (d & Hs & ->).
  { revert Hr. unfold resolve_flat, scoped. destruct (flat_constants ix local n) as [|x [|y l]]; [|intros [= <-]; by exists x|done].
    destruct (visible_entries _ _ _) as [|x [|y l]]; intros [= <-]. by exists x. }
  assert (∀ x, x = d ↔ ∃ p, scope (flat_in n) p ∧ x ∈ flat_constants ix p n) as Hd.
  { intros x. rewrite <- (elem_of_scoped (λ p, flat_constants ix p n)) by (intros; apply has_flat_iff). rewrite Hs. by rewrite list_elem_of_singleton. }
  split.
  - destruct (proj1 (Hd d) eq_refl) as (p & Hp & [-> Hin]%flat_id). split; [by apply d_flat|done].
  - intros j [Hj Hdecl]. inversion Hj as [n' p Hp| | | | | |]; subst. destruct (flat_declared p n Hdecl) as [x Hx].
    assert (x = d) as -> by (apply Hd; by exists p). by apply flat_id in Hx as [-> _].
Qed.

Lemma alias_candidates_exact root member spelling l e : alias_candidates ix graph local root member spelling = Ok (l, e) →
  ∀ j, j ∈ l ↔ ∃ p, visible_alias_target graph local root = Some p ∧ j = mkValueId p FlatOwner member ∧ declares program j.
Proof.
  unfold alias_candidates. destruct (visible_alias_target graph local root) as [p|].
  2: { intros [= <- _] j. split; [by intros ?%not_elem_of_nil|by intros (? & ? & _)]. }
  destruct (flat_constants ix p member) as [|d [|d' ds]] eqn:Ef; intros [= <- _] j.
  - split; [by intros ?%not_elem_of_nil|]. intros (? & [= <-] & -> & [d Hd]%flat_declared). rewrite Ef in Hd. by apply not_elem_of_nil in Hd.
  - rewrite list_elem_of_singleton. assert (d ∈ flat_constants ix p member) as [Hi Hd]%flat_id by (rewrite Ef; by left). split.
    + intros ->. exists p. by rewrite Hi.
    + intros (? & [= <-] & -> & _). done.
Qed.

Lemma group_candidates_exact root member l e : group_candidates ix graph local root member = Ok (l, e) →
  ∀ j, j ∈ l ↔ ∃ p, scope (has_group program root) p ∧ j = mkValueId p (GroupOwner root) member ∧ declares program j.
Proof.
  unfold group_candidates. destruct (visible_group_owner ix graph local root) as [o|] eqn:Eo; [|done]. cbn [result_bind].
  apply group_owner_scoped in Eo. pose proof (λ g, elem_of_scoped (λ p, groups ix p root) _ g (has_group_iff root)) as Hs. rewrite Eo in Hs.
  assert (∀ p j, scope (has_group program root) p → j = mkValueId p (GroupOwner root) member → declares program j →
    ∃ g m, o = Some g ∧ m ∈ members_named member g ∧ ic_id m = j) as Hdecl.
  { intros p j Hp -> (g & m & Hg & Hm)%group_member_declared. exists g, m. assert (g ∈ option_list o) as Ho by (apply Hs; by exists p).
    destruct o as [g'|]; [|by apply not_elem_of_nil in Ho]. apply list_elem_of_singleton in Ho as ->. split_and!; [done..|].
    apply list_elem_of_filter in Hm as [Hn Hm]. destruct (group_member_id p root g' m Hg Hm) as [-> _]. by rewrite Hn. }
  destruct o as [g|].
  2: { intros [= <- _] j. split; [by intros ?%not_elem_of_nil|]. intros (p & Hp & Hj & Hd). by destruct (Hdecl p j Hp Hj Hd) as (? & ? & ? & _). }
  assert (g ∈ option_list (Some g)) as (p & Hp & Hg)%Hs by (by left).
  destruct (members_named member g) as [|m [|m' ms]] eqn:Em; intros [= <- _] j.
  - split; [by intros ?%not_elem_of_nil|]. intros (q & Hq & Hj & Hd). destruct (Hdecl q j Hq Hj Hd) as (? & m & [= <-] & Hm & _).
    rewrite Em in Hm. by apply not_elem_of_nil in Hm.
  - rewrite list_elem_of_singleton. assert (m ∈ members_named member g) as [Hn Hm]%list_elem_of_filter by (rewrite Em; by left).
    destruct (group_member_id p root g m Hg Hm) as [Hi Hd]. rewrite Hn in Hi. split.
    + intros ->. exists p. split_and!; [done..|]. done.
    + intros (q & Hq & Hj & Hd'). destruct (Hdecl q j Hq Hj Hd') as (? & m' & [= <-] & Hm' & <-). rewrite Em in Hm'.
      by apply list_elem_of_singleton in Hm' as ->.
Qed.

Lemma not_empty_iff {A} (l : list A) : not_empty l = true ↔ ∃ x, x ∈ l.
Proof. destruct l as [|y l]; split; try done; [intros [x Hx]; by apply not_elem_of_nil in Hx|intros _; exists y; by left]. Qed.

Lemma host_matches_elem member p : p ∈ host_matches ix graph local member ↔
  p ∈ visible_paths graph local ∧ p ∈ host_sprite_ref_enum_paths ix ∧ declares program (mkValueId p (EnumOwner SPRITE_REF) member).
Proof.
  unfold host_matches. rewrite list_elem_of_join. setoid_rewrite list_elem_of_fmap. rewrite variant_declared. split.
  - intros (ps & Hp & q & -> & Hq). case_bool_decide as Hh; [|by apply not_elem_of_nil in Hp].
    apply list_elem_of_join in Hp as (l & Hp & (e & -> & He)%list_elem_of_fmap). apply elem_of_replicate in Hp as [-> Hn].
    split_and!; [done..|]. exists e. split; [done|]. apply variant_count_pos. lia.
  - intros (Hv & Hh & e & He & Hm%variant_count_pos). eexists. split; [|by exists p]. rewrite bool_decide_true by done.
    apply list_elem_of_join. exists (replicate (variant_count member e) p). split; [apply elem_of_replicate; split; [done|lia]|].
    apply list_elem_of_fmap. by exists e.
Qed.

(** The module of the enum that the module sees. *)
Lemma enum_source_path_exact n e path : scoped (λ p, enums ix p n) = [e] → enum_source_path ix graph local n = Ok path →
  ∃ p, path = Some p ∧ e ∈ enums ix p n ∧ ∀ q, scope (has_enum program n) q → (∃ x, x ∈ enums ix q n) → q = p.
Proof.
  intros Hs. pose proof (λ x, elem_of_scoped (λ p, enums ix p n) _ x (has_enum_iff n)) as Hin. rewrite Hs in Hin.
  assert (e ∈ [e]) as (q & Hq & He)%Hin by (by left). unfold enum_source_path. destruct (not_empty (enums ix local n)) eqn:El.
  - intros [= <-]. apply not_empty_iff, has_enum_iff in El. exists local. destruct Hq as [->|[_ Hq]]; [|done].
    split_and!; [done..|]. by intros q [->|[_ Hq]] _.
  - assert (∀ q', scope (has_enum program n) q' → (∃ x, x ∈ enums ix q' n) → q' ∈ filter (λ p, not_empty (enums ix p n) = true) (visible_paths graph local)) as Hf.
    { intros q' [->|[Hv _]] Hx; [apply not_empty_iff in Hx; congruence|]. apply list_elem_of_filter. by rewrite not_empty_iff. }
    intros Hu%unique_exact. rewrite Hu in Hf. destruct path as [p|].
    2: { destruct (not_elem_of_nil q). apply Hf; [done|by exists e]. }
    exists p. assert (∀ q', scope (has_enum program n) q' → (∃ x, x ∈ enums ix q' n) → q' = p) as Hp.
    { intros q' Hq' Hx. by apply list_elem_of_singleton, Hf. }
    split_and!; [done| |done]. rewrite <- (Hp q) by eauto. done.
Qed.

Lemma variant_path_exact n member owner path : visible_enum_owner ix graph local n = Ok owner →
  visible_enum_variant_source_path ix graph local n member owner = Ok path →
  ∀ p, path = Some p ↔ (scope (has_enum program n) p ∨ n = SPRITE_REF ∧ host_variant member p) ∧ declares program (mkValueId p (EnumOwner n) member).
Proof.
  intros Ho%enum_owner_scoped. pose proof (λ x, elem_of_scoped (λ p, enums ix p n) _ x (has_enum_iff n)) as Hin. rewrite Ho in Hin.
  assert (∀ p, scope (has_enum program n) p → declares program (mkValueId p (EnumOwner n) member) →
    ∃ e, owner = Some e ∧ e ∈ enums ix p n ∧ has_variant member e) as Hdecl.
  { intros p Hp (e & He & Hv)%variant_declared. assert (e ∈ option_list owner) as Hoe by (apply Hin; by exists p).
    destruct owner as [e'|]; [|by apply not_elem_of_nil in Hoe]. apply list_elem_of_singleton in Hoe as ->. by exists e'. }
  unfold visible_enum_variant_source_path. destruct owner as [e|].
  2: { intros [= <-] p. split; [done|]. intros [[Hp|(-> & _ & [x Hx]%has_enum_iff & _)] Hd]; [by destruct (Hdecl p Hp Hd) as (? & ? & _)|].
       assert (x ∈ option_list (@None ParsedEnumDefinition)) as Hn by (apply Hin; exists local; split; [by left|done]). by apply not_elem_of_nil in Hn. }
  assert (has_enum program n local → enums ix local n = [e]) as Hlocal.
  { intros Hl%has_enum_iff. unfold scoped in Ho. destruct Hl as [x Hx]. destruct (enums ix local n); [by apply not_elem_of_nil in Hx|done]. }
  destruct (variant_count member e) as [|[|k]] eqn:Ec; [|intros Hpath|done].
  - assert (¬ has_variant member e) as Hnv by (rewrite <- variant_count_pos; lia).
    assert (∀ p, scope (has_enum program n) p → ¬ declares program (mkValueId p (EnumOwner n) member)) as Hno.
    { intros p Hp Hd. by destruct (Hdecl p Hp Hd) as (? & [= <-] & _ & ?). }
    destruct (_ || _ || _) eqn:Ecase.
    + intros [= <-] p. split; [done|]. intros [[Hp|(-> & Hseam & Hl & _)] Hd]; [by destruct (Hno p Hp)|].
      apply has_enum_iff, not_empty_iff in Hl. by rewrite Hseam, Hl in Ecase.
    + intros Hu%unique_exact p. apply orb_false_iff in Ecase as [[->%negb_false_iff%bool_decide_eq_true Hseam%negb_false_iff]%orb_false_iff Hl%negb_false_iff].
      apply not_empty_iff, has_enum_iff in Hl. assert (path = Some p ↔ p ∈ host_matches ix graph local member) as ->.
      { rewrite Hu. destruct path as [q|]; simpl; [rewrite list_elem_of_singleton; split; [by intros [= ->]|by intros ->]|]. by rewrite elem_of_nil. }
      rewrite host_matches_elem. split.
      * intros (Hv & Hh & Hd). split; [right|done]. split; [done|]. split_and!; [done..| |done|done]. apply Hno. by left.
      * intros [[Hp|(_ & _ & _ & _ & Hv & Hh)] Hd]; [by destruct (Hno p Hp)|]. done.
  - assert (has_variant member e) as Hv by (rewrite <- variant_count_pos; lia).
    destruct (enum_source_path_exact n e path Ho Hpath) as (q & -> & He & Hq). intros p. split.
    + intros [= ->]. split; [left|apply variant_declared; by exists e]. assert (e ∈ option_list (Some e)) as (q & Hsq & Heq)%Hin by (by left).
      rewrite <- (Hq q) by eauto. done.
    + intros [[Hp|(-> & _ & Hl & Hnd & _)] Hd].
      * destruct (Hdecl p Hp Hd) as (? & [= <-] & Hep & _). f_equal. symmetry. apply Hq; [done|by exists e].
      * destruct Hnd. apply variant_declared. exists e. split; [|done]. rewrite Hlocal by done. by left.
Qed.

Lemma unique_identities_exact ids spelling i : unique_identities ids spelling = Ok (Some i) → ∀ j, j ∈ ids ↔ j = i.
Proof. intros H%unique_exact j. rewrite <- (elem_of_set_of_list ids j), H. apply list_elem_of_singleton. Qed.

Lemma resolve_two_part_exact root member spelling i : resolve_two_part ix graph local root member spelling = Ok (Some i) →
  stands_for_parts [root; member] i ∧ ∀ j, stands_for_parts [root; member] j → j = i.
Proof.
  unfold resolve_two_part. destruct (alias_candidates _ _ _ _ _ _) as [[flat e1]|] eqn:Ea; [|done]. cbn [result_bind].
  destruct (group_candidates _ _ _ _ _) as [[grouped e2]|] eqn:Eg; [|done]. cbn [result_bind].
  destruct (visible_enum_owner _ _ _ _) as [owner|] eqn:Eo; [|done]. cbn [result_bind].
  destruct (visible_enum_variant_source_path _ _ _ _ _ _) as [path|] eqn:Ep; [|done]. cbn [result_bind].
  pose proof (alias_candidates_exact _ _ _ _ _ Ea) as Ha. pose proof (group_candidates_exact _ _ _ _ Eg) as Hg.
  pose proof (variant_path_exact _ _ _ _ Eo Ep) as Hv.
  set (variants := match path with Some p => [mkValueId p (EnumOwner root) member] | None => [] end). intros Hr.
  assert (∀ j, j ∈ flat ++ grouped ++ variants ↔ j = i) as Hi.
  { revert Hr. unfold variants. destruct path as [p|]; destruct (flat ++ _); try destruct (or_error _ _); try done; apply unique_identities_exact. }
  assert (∀ j, j ∈ variants ↔ ∃ p, path = Some p ∧ j = mkValueId p (EnumOwner root) member) as Hvar.
  { intros j. unfold variants. destruct path as [p|]; [rewrite list_elem_of_singleton|rewrite elem_of_nil]; naive_solver. }
  assert (∀ j, stands_for_parts [root; member] j ↔ j ∈ flat ++ grouped ++ variants) as Hs.
  2: { split; [by apply Hs, Hi|]. intros j Hj. by apply Hi, Hs. }
  intros j. rewrite !elem_of_app, Ha, Hg, Hvar. split.
  - intros [Hj Hd]. inversion Hj as [|? ? p Hp|? ? p Hp|? ? p Hp|? p Hp| |]; subst; [left; by exists p|right; left; by exists p|..];
      right; right; exists p; (split; [apply Hv|done]); split; auto.
  - intros [(p & Hp & -> & Hd)|[(p & Hp & -> & Hd)|(p & [[Hp|[-> Hp]] Hd]%Hv & ->)]]; (split; [|done]); by constructor.
Qed.

Lemma resolve_exact_qualified_exact target owner member alias spelling i : imported_alias_target graph local alias = Some target →
  resolve_exact_qualified ix target owner member alias spelling = Ok i →
  stands_for_parts [alias; owner; member] i ∧ ∀ j, stands_for_parts [alias; owner; member] j → j = i.
Proof.
  intros Ht. unfold resolve_exact_qualified, unique_group, unique_enum. destruct (unique _ (groups ix target owner)) as [o|] eqn:Eo; [|done].
  apply unique_exact in Eo. cbn [result_bind].
  assert (∀ g m, o = Some g → members_named member g = [m] → ic_id m = mkValueId target (GroupOwner owner) member ∧ declares program (ic_id m)) as Hm.
  { intros g m -> Hm. assert (m ∈ members_named member g) as [Hn Hin]%list_elem_of_filter by (rewrite Hm; by left).
    assert (g ∈ groups ix target owner) as Hg by (rewrite Eo; by left). destruct (group_member_id _ _ _ _ Hg Hin) as [He Hd]. by rewrite Hn in He. }
  destruct o as [g|].
  - destruct (members_named member g) as [|m [|m' ms]] eqn:Em; try done. intros [= <-]. destruct (Hm g m eq_refl Em) as [Hi Hd]. split.
    + split; [rewrite Hi; by apply d_exact_group|done].
    + intros j [Hj Hdj]. inversion Hj as [| | | | |? ? ? p Hp|? ? ? p Hp Hng]; subst; assert (p = target) as -> by congruence; [by rewrite Hi|].
      destruct Hng. apply has_group_iff. exists g. rewrite Eo. by left.
  - destruct (unique _ (enums ix target owner)) as [o'|] eqn:Ee; [|done]. apply unique_exact in Ee. cbn [result_bind]. destruct o' as [e|]; [|done].
    destruct (existsb _ _) eqn:Ev; [|done]. intros [= <-]. assert (¬ has_group program owner target) as Hng.
    { intros [g Hg]%has_group_iff. rewrite Eo in Hg. by apply not_elem_of_nil in Hg. }
    split.
    + split; [by apply d_exact_enum|]. apply variant_declared. exists e. split; [rewrite Ee; by left|].
      apply existsb_exists in Ev as (v & Hv%list_elem_of_In & Hb%bool_decide_eq_true). by exists v.
    + intros j [Hj Hdj]. inversion Hj as [| | | | |? ? ? p Hp|? ? ? p Hp _]; subst; assert (p = target) as -> by congruence; [|done].
      destruct Hng. apply has_group_iff. destruct (group_member_declared _ _ _ Hdj) as (g & m & Hg & _). by exists g.
Qed.

Lemma resolve_exact identifier shadowed i : resolve_compile_time_value ix graph local identifier shadowed = Ok (Some i) →
  stands_for identifier i ∧ ∀ j, stands_for identifier j → j = i.
Proof.
  unfold resolve_compile_time_value, stands_for. destruct (split_on PERIOD identifier) as [|a [|b [|c [|d parts]]]]; try done.
  - apply resolve_flat_exact.
  - destruct (_ || _); [done|]. apply resolve_two_part_exact.
  - destruct (_ || _); [done|]. destruct (imported_alias_target graph local a) as [t|] eqn:Et; [|done].
    destruct (resolve_exact_qualified _ _ _ _ _ _) as [i'|] eqn:Er; [|done]. intros [= <-]. by eapply resolve_exact_qualified_exact.
Qed.
End resolution.

(** C16 A name that an index of the source files resolves is the name of a declaration of
    the program, by its local scope, an import or an exact path, and of no other: whenever
    there are two declarations that it could stand for, it is refused. *)
Theorem resolved_names_are_unambiguous `{GraphicsFrontEnd} files ix graph source_path identifier shadowed i :
  build files = Some (Ok ix) → resolve_compile_time_value ix graph source_path identifier shadowed = Ok (Some i) →
  ∃ program, parsed files program ∧ stands_for ix graph program source_path identifier i
    ∧ ∀ j, stands_for ix graph program source_path identifier j → j = i.
Proof.
  intros (program & Hp & Hix)%build_indexed Hr. exists program. split; [done|]. by apply (resolve_exact ix graph program source_path Hix _ shadowed).
Qed.
