(* ===== verification/ConstantEval.v ===== *)
(** * Evaluation of scalar constants

    Models [crates/stasis_compiler/src/frontend/constant_evaluation.rs]: the value of a
    scalar initializer, with its type and its bits, by way of the constants and enum
    variants it names.

    A scalar is its bits, an [u64].  Floats are computed by [SpecFloat], the specification
    of IEEE arithmetic of the standard library, rounding to nearest even; which NaN an
    operation answers is the class [NanBits], as Rust leaves it open.  The maps of the
    evaluator are functions of the index, and its cache and stack are those of [Memo]. *)

From Stdlib Require Import Floats.SpecFloat.
From S2P Require Import Prelude BTree Memo Lexer Identity Text Imports ModuleGraph Functions Hir Types BodyScan BodyExpr.
From S2P Require Import ParserTokens ParserFunctions ParserLayout ConstantIndex.
#[local] Open Scope Z_scope.
#[local] Set Warnings "-register-all,-notation-overridden".

(** ** Values *)

Record EvaluatedScalar := mkScalar {
  es_type_id : TypeId;
  es_bits : Z;
  es_nominal_origin : option SourceTypeOrigin;
}.

#[export] Instance EvaluatedScalar_eq_dec : EqDecision EvaluatedScalar.
Proof. solve_decision. Defined.

Record DeclarationKey := mkKey { dk_path : str; dk_name : str; dk_owner : CompileTimeValueOwner }.

#[export] Instance DeclarationKey_eq_dec : EqDecision DeclarationKey.
Proof. solve_decision. Defined.

Record ConstantDeclaration := mkConstant { cd_key : DeclarationKey; cd_id : CompileTimeValueId; cd_definition : IndexedConstantDeclaration }.
Record EnumDeclaration := mkEnumDeclaration { ed_key : DeclarationKey; ed_definition : ParsedEnumDefinition }.

Inductive ScalarKind := KindBool | KindI32 | KindU8 | KindU16 | KindU32 | KindF32 | KindF64.

#[export] Instance ScalarKind_eq_dec : EqDecision ScalarKind.
Proof. solve_decision. Defined.

Definition integer_width (k : ScalarKind) : option Z :=
  match k with KindI32 | KindU32 => Some 32 | KindU16 => Some 16 | KindU8 => Some 8 | _ => None end.

Definition is_integer_kind (k : ScalarKind) : bool := bool_decide (is_Some (integer_width k)).
Definition is_float (k : ScalarKind) : bool := match k with KindF32 | KindF64 => true | _ => false end.
Definition is_unsigned (k : ScalarKind) : bool := match k with KindU8 | KindU16 | KindU32 => true | _ => false end.

Definition scalar_kind (type_id : TypeId) : option ScalarKind :=
  if type_id =? TYPE_ID_BOOL then Some KindBool
  else if type_id =? TYPE_ID_I32 then Some KindI32
  else if type_id =? TYPE_ID_U8 then Some KindU8
  else if type_id =? TYPE_ID_U16 then Some KindU16
  else if type_id =? TYPE_ID_U32 then Some KindU32
  else if type_id =? TYPE_ID_F32 then Some KindF32
  else if type_id =? TYPE_ID_F64 then Some KindF64
  else None.

(** An error is its message, with the error of the expression parser when it quotes one. *)
Inductive ConstantError :=
| ConstErr (message : str)
| ConstParse (context : str) (error : BodyError)
| MissingConstant (i : CompileTimeValueId).

Definition message (parts : list str) : ConstantError := ConstErr (concat parts).
Definition text_of (s : string) : str := string_bytes s.

(** ** Integers *)

Definition normalize_integer_bits (bits : Z) (k : ScalarKind) : Z :=
  match k with
  | KindU8 => Z.land bits 255
  | KindU16 => Z.land bits 65535
  | KindI32 | KindU32 => Z.land bits 4294967295
  | _ => bits
  end.

(** The integer that the bits of a value stand for. *)
Definition integer_value (bits : Z) (k : ScalarKind) : Z :=
  match k with
  | KindI32 => as_i32 (wrap 32 bits)
  | KindU8 => wrap 8 bits
  | KindU16 => wrap 16 bits
  | _ => wrap 32 bits
  end.

Definition encode_integer_value (value : Z) (k : ScalarKind) : option Z :=
  match k with
  | KindI32 => wrap 32 <$> checked_i 32 value
  | KindU8 => checked_u 8 value
  | KindU16 => checked_u 16 value
  | KindU32 => checked_u 32 value
  | _ => None
  end.

(** The bits of the shifts and of the bitwise operators, before they are normalized. *)
Definition bitwise_bits (op : ExprBinaryOp) (result_kind : ScalarKind) (lhs_bits rhs_bits : Z) : Z :=
  let width := default 32 (integer_width result_kind) in
  let shift := Z.land (wrap 32 rhs_bits) (width - 1) in
  match op with
  | ShiftLeft => wrap 32 (Z.shiftl (wrap 32 lhs_bits) shift)
  | ShiftRight =>
      if bool_decide (result_kind = KindI32) then wrap 32 (Z.shiftr (as_i32 lhs_bits) shift)
      else Z.shiftr (wrap 32 lhs_bits) shift
  | BitAnd => Z.land lhs_bits rhs_bits
  | BitXor => Z.lxor lhs_bits rhs_bits
  | _ => Z.lor lhs_bits rhs_bits
  end.

(** The bits of the arithmetic operators of 32-bit operands, before they are normalized. *)
Definition arithmetic_bits (op : ExprBinaryOp) (result_kind : ScalarKind) (lhs rhs : Z) : Result Z ConstantError :=
  let signed := bool_decide (result_kind = KindI32) in
  match op with
  | Add => Ok (wrap 32 (lhs + rhs))
  | Subtract => Ok (wrap 32 (lhs - rhs))
  | Multiply => Ok (wrap 32 (lhs * rhs))
  | Divide =>
      if rhs =? 0 then Err (message [text_of "division by zero in scalar constant expression"])
      else Ok (if signed then wrap 32 (swrap 32 (Z.quot (as_i32 lhs) (as_i32 rhs))) else lhs / rhs)
  | _ =>
      if rhs =? 0 then Err (message [text_of "remainder by zero in scalar constant expression"])
      else Ok (if signed then wrap 32 (Z.rem (as_i32 lhs) (as_i32 rhs)) else lhs `mod` rhs)
  end.

(** ** Floats *)

(** The bits of the NaN that an operation with the operands of these bits answers. *)
Class NanBits := { nan_bits : ScalarKind → list Z → Z }.

(** A format: the bits of the mantissa with its hidden bit, and the largest exponent. *)
Definition float_precision (k : ScalarKind) : Z := match k with KindF64 => 53 | _ => 24 end.
Definition float_emax (k : ScalarKind) : Z := match k with KindF64 => 1024 | _ => 128 end.
Definition float_width (k : ScalarKind) : Z := match k with KindF64 => 64 | _ => 32 end.
Definition float_emin (k : ScalarKind) : Z := 3 - float_emax k - float_precision k.

(** [from_bits] *)
Definition float_of_bits (k : ScalarKind) (bits : Z) : spec_float :=
  let bits := wrap (float_width k) bits in
  let hidden := float_precision k - 1 in
  let sign := Z.testbit bits (float_width k - 1) in
  let mantissa := wrap hidden bits in
  let exponent := wrap (float_width k - 1 - hidden) (Z.shiftr bits hidden) in
  if exponent =? 2 * float_emax k - 1 then (if mantissa =? 0 then S754_infinity sign else S754_nan)
  else
    let '(m, e) := if exponent =? 0 then (mantissa, float_emin k) else (mantissa + 2 ^ hidden, exponent + float_emin k - 1) in
    match m with Zpos p => S754_finite sign p e | _ => S754_zero sign end.

(** [to_bits] of the answer of an operation. *)
Definition float_to_bits `{NanBits} (k : ScalarKind) (operands : list Z) (x : spec_float) : Z :=
  let hidden := float_precision k - 1 in
  let signed (s : bool) (bits : Z) := wrap (float_width k) (if s then bits + 2 ^ (float_width k - 1) else bits) in
  match x with
  | S754_zero s => signed s 0
  | S754_infinity s => signed s (Z.shiftl (2 * float_emax k - 1) hidden)
  | S754_nan => wrap (float_width k) (nan_bits k operands)
  | S754_finite s m e =>
      signed s (if Zpos m <? 2 ^ hidden then Zpos m else Z.shiftl (e - float_emin k + 1) hidden + (Zpos m - 2 ^ hidden))
  end.

(** A float in another format, to the nearest. *)
Definition round_float (k : ScalarKind) (x : spec_float) : spec_float :=
  match x with S754_finite s m e => binary_round (float_precision k) (float_emax k) s m e | x => x end.

(** [f64::from] of an integer, and its conversion to the format. *)
Definition float_of_integer (k : ScalarKind) (v : Z) : spec_float := round_float k (binary_normalize 53 1024 v 0 false).

Definition float_operation (op : ExprBinaryOp) (k : ScalarKind) (x y : spec_float) : spec_float :=
  let prec := float_precision k in
  let emax := float_emax k in
  match op with
  | Add => SFadd prec emax x y
  | Subtract => SFsub prec emax x y
  | Multiply => SFmul prec emax x y
  | _ => SFdiv prec emax x y
  end.

Definition float_bits `{NanBits} (op : ExprBinaryOp) (k : ScalarKind) (lhs rhs : Z) : Z :=
  float_to_bits k [lhs; rhs] (float_operation op k (float_of_bits k lhs) (float_of_bits k rhs)).

(** An operand of kind [source] in the format [target]. *)
Definition convert_to_float `{NanBits} (value : EvaluatedScalar) (target : ScalarKind) : Result Z ConstantError :=
  match scalar_kind (es_type_id value) with
  | None => Err (message [text_of "unsupported float operand"])
  | Some source =>
      if bool_decide (source = KindF64) && bool_decide (target = KindF32)
      then Err (message [text_of "f64 operand cannot be narrowed to f32 in a constant expression"])
      else
        let target := if bool_decide (target = KindF64) then KindF64 else KindF32 in
        match source with
        | KindBool => Err (message [text_of "bool is not a numeric operand"])
        | KindF32 | KindF64 => Ok (float_to_bits target [es_bits value] (round_float target (float_of_bits source (es_bits value))))
        | _ => Ok (float_to_bits target [] (float_of_integer target (integer_value (es_bits value) source)))
        end
  end.

(** ** The evaluator *)

Definition ScalarEval : Type → Type := Evaluation DeclarationKey EvaluatedScalar unit ConstantError.

Definition MAX_CONSTANT_RECURSION_DEPTH : nat := 128.

Definition display_declaration_key (k : DeclarationKey) : str := dk_path k ++ text_of "::" ++ dk_name k.

(** The only declaration of a list, whose paths are sorted. *)
Definition unique_declaration (declarations : list EnumDeclaration) (kind : string) (n scope_path : str) : Result EnumDeclaration str :=
  let paths := (λ d : EnumDeclaration, dk_path (ed_key d)) <$> declarations in
  let visible := text_of kind ++ text_of " '" ++ n ++ text_of "' visible from '" ++ scope_path ++ text_of "'" in
  match declarations with
  | [d] => Ok d
  | [] => Err (text_of "unknown compile-time " ++ visible)
  | _ => Err (text_of "ambiguous compile-time " ++ visible ++ text_of ": "
              ++ join_with COMMA_SPACE (sort_by (λ a b : list Z, match cmp a b with Gt => false | _ => true end) paths))
  end.

Section evaluator.
Context `{NanBits}.
Context (files : list SourceFile) (graph : ModuleGraph) (types : TypeTable) (ix : CompileTimeDeclarationIndex).

(** [new_with_index]: the flat constants and the members of the groups under their keys. *)
Definition constant_of (d : IndexedConstantDeclaration) : ConstantDeclaration :=
  let i := ic_id d in mkConstant (mkKey (ctv_source_path i) (ctv_member i) (ctv_owner i)) i d.

Definition constants : list ConstantDeclaration :=
  ((λ d, mkConstant (mkKey (ctv_source_path (ic_id d)) (ctv_member (ic_id d)) FlatOwner) (ic_id d) d) <$> all_flat_constants ix)
  ++ (constant_of <$> mjoin (ig_members <$> all_groups ix)).

Definition constants_of (k : DeclarationKey) : list ConstantDeclaration := filter (λ d, cd_key d = k) constants.

Definition enums_for_path_name (path n : str) : list EnumDeclaration :=
  (λ e, mkEnumDeclaration (mkKey path n (EnumOwner n)) e.2)
  <$> filter (λ e : str * ParsedEnumDefinition, e.1 = path ∧ enum_name e.2 = n) (enum_declarations ix).

Definition type_name (id : TypeId) : str :=
  match type_info types id with Some info => ti_name info | None => text_of "type " ++ show id end.

(** *** Names of modules and enums *)

Definition resolve_alias (scope_path alias : str) : option str := visible_alias_target graph scope_path alias.

Definition resolve_unqualified_enum (scope_path n : str) : Result EnumDeclaration str :=
  match enums_for_path_name scope_path n with
  | [] => unique_declaration (visible_entries graph scope_path (λ p, enums_for_path_name p n)) "enum" n scope_path
  | local => unique_declaration local "enum" n scope_path
  end.

Definition resolve_exact_enum (source_path n : str) : Result EnumDeclaration str :=
  unique_declaration (enums_for_path_name source_path n) "enum" n source_path.

(** The types of an enum under the names it has, as a sorted set. *)
Definition enum_type_ids (declaration : EnumDeclaration) (visible_scope : option str) : list TypeId :=
  let k := ed_key declaration in
  let dotted alias := alias ++ [PERIOD] ++ dk_name k in
  let qualified_name := dotted ∘ record_alias <$> option_list (map_get (dk_path k : list Z) (modules graph)) in
  let imports :=
    match visible_scope with
    | Some path => match map_get (path : list Z) (modules graph) with Some m => module_imports m | None => [] end
    | None => []
    end in
  let imported := (λ i, dotted (import_alias i)) <$> filter (λ i, import_target i = dk_path k) imports in
  set_of_list (omap (resolve types) (qualified_name ++ imported ++ [dk_name k])).

Definition enum_type_id (declaration : EnumDeclaration) : Result TypeId ConstantError :=
  let ids := enum_type_ids declaration None in
  let named := resolve types (dk_name (ed_key declaration)) in
  match (match named with Some id => if bool_decide (id ∈ ids) then Some id else None | None => None end) with
  | Some id => Ok id
  | None =>
      ok_or (head ids) (message [text_of "enum type '"; dk_name (ed_key declaration); text_of "' from '"; dk_path (ed_key declaration);
        text_of "' has no resolved TypeId"])
  end.

(** The variants from one on, with the value of the next one that has none. *)
Fixpoint variant_loop (declaration : EnumDeclaration) (member : str) (variants : list ParsedEnumVariant) (next_value : Z) :
    Result EvaluatedScalar ConstantError :=
  match variants with
  | [] => Err (message [text_of "unknown enum variant '"; enum_name (ed_definition declaration); [PERIOD]; member; text_of "'"])
  | v :: variants =>
      let value := default next_value (variant_value v) in
      if bool_decide (variant_name v = member) then
        let? type_id := enum_type_id declaration in
        Ok (mkScalar type_id (wrap 32 value) (Some (mkOrigin (dk_path (ed_key declaration)) (dk_name (ed_key declaration)))))
      else
        match checked_i 32 (value + 1) with
        | None => Err (message [text_of "enum '"; enum_name (ed_definition declaration); text_of "' variant discriminant overflow"])
        | Some next_value => variant_loop declaration member variants next_value
        end
  end.

Definition evaluate_variant (declaration : EnumDeclaration) (member : str) : Result EvaluatedScalar ConstantError :=
  variant_loop declaration member (enum_variants (ed_definition declaration)) 0.

(** The origins of the enums of a list that may have the type. *)
Definition origin_of (d : EnumDeclaration) : SourceTypeOrigin := mkOrigin (dk_path (ed_key d)) (dk_name (ed_key d)).

Definition declarations_of_type (scope_path : str) (expected : TypeId) (l : list EnumDeclaration) : list SourceTypeOrigin :=
  set_of_list (origin_of <$> filter (λ d, bool_decide (expected ∈ enum_type_ids d (Some scope_path)) = true) l).

Definition qualifier_path (scope_path qualifier : str) : option str :=
  match resolve_alias scope_path qualifier with
  | Some p => Some p
  | None =>
      module_path <$> List.find (λ m, bool_decide (record_alias m = qualifier) && bool_decide (module_path m ∈ closure graph scope_path))
        (modules graph).*2
  end.

Definition unknown_type (expected : TypeId) : ConstantError := message [text_of "unknown scalar initializer type "; show expected].

Definition expected_enum_origins (scope_path : str) (expected : TypeId) : Result (list SourceTypeOrigin) ConstantError :=
  match source_type_origin types expected with
  | Some origin => Ok (set_of_list (origin_of <$> enums_for_path_name (sto_path origin) (sto_name origin)))
  | None =>
      let? info := ok_or (type_info types expected) (unknown_type expected) in
      match rsplit_once PERIOD (ti_name info) with
      | Some (qualifier, expected_name) =>
          match qualifier_path scope_path qualifier with
          | None => Ok []
          | Some source_path => Ok (declarations_of_type scope_path expected (enums_for_path_name source_path expected_name))
          end
      | None =>
          let expected_name := ti_name info in
          let candidates :=
            match enums_for_path_name scope_path expected_name with
            | [] => mjoin ((λ p, enums_for_path_name p expected_name) <$> closure graph scope_path)
            | local => local
            end in
          Ok (declarations_of_type scope_path expected candidates)
      end
  end.

(** *** Types *)

Definition coerce_enum_to_expected (scope_path : str) (value : EvaluatedScalar) (expected : TypeId) : Result EvaluatedScalar ConstantError :=
  match es_nominal_origin value with
  | None => Err (message [text_of "scalar type "; type_name (es_type_id value); text_of " is incompatible with "; type_name expected])
  | Some origin =>
      let? origins := expected_enum_origins scope_path expected in
      if bool_decide (origin ∈ origins) then Ok (mkScalar expected (es_bits value) (es_nominal_origin value))
      else Err (message [text_of "enum value from '"; sto_path origin; [PERIOD]; sto_name origin;
             text_of "' does not match expected enum type "; type_name expected])
  end.

Definition incompatible (value : EvaluatedScalar) (expected : TypeId) : ConstantError :=
  message [text_of "scalar type "; type_name (es_type_id value); text_of " is incompatible with "; type_name expected].

Definition coerce_to_expected (scope_path : str) (value : EvaluatedScalar) (expected : TypeId) : Result EvaluatedScalar ConstantError :=
  match scalar_kind (es_type_id value) with
  | None => coerce_enum_to_expected scope_path value expected
  | Some source =>
      match scalar_kind expected with
      | None => Err (message [text_of "scalar type "; type_name (es_type_id value); text_of " cannot initialize "; type_name expected])
      | Some target =>
          if bool_decide (source = KindBool) && bool_decide (target = KindBool) then Ok (mkScalar expected (es_bits value) None)
          else if is_integer_kind source && is_integer_kind target then
            let? bits := ok_or (encode_integer_value (integer_value (es_bits value) source) target)
              (message [text_of "constant value is not representable in scalar type "; type_name expected]) in
            Ok (mkScalar expected bits None)
          else if is_float source && is_float target && bool_decide (source = target) then Ok (mkScalar expected (es_bits value) None)
          else Err (incompatible value expected)
      end
  end.

Definition validate_expected_type (scope_path : str) (expected : TypeId) : Result unit ConstantError :=
  match scalar_kind expected with
  | Some _ => Ok tt
  | None =>
      let? info := ok_or (type_info types expected) (unknown_type expected) in
      let unsupported := message [text_of "type '"; ti_name info; text_of "' is not a supported scalar initializer type"] in
      if bool_decide (ti_category info = CatNamed) then
        let? origins := expected_enum_origins scope_path expected in
        match origins with [] => Err unsupported | _ => Ok tt end
      else Err unsupported
  end.

Definition unsupported_type (type_name : str) : ConstantError :=
  message [text_of "type '"; type_name; text_of "' is not a supported scalar initializer type"].

(** [map_err] of the search for an enum. *)
Definition enum_error (type_name : str) (e : str) : ConstantError :=
  if starts_with (text_of "unknown compile-time enum '") e then unsupported_type type_name else ConstErr e.

Definition declared_enum (scope_path type_name : str) : Result EnumDeclaration ConstantError :=
  match split_on PERIOD type_name with
  | [n] => map_err (enum_error type_name) (resolve_unqualified_enum scope_path n)
  | [alias; n] =>
      match resolve_alias scope_path alias with
      | None => Err (message [text_of "module alias '"; alias; text_of "' is not imported in '"; scope_path; text_of "'"])
      | Some target => map_err (enum_error type_name) (resolve_exact_enum target n)
      end
  | _ => Err (message [text_of "unsupported scalar type name '"; type_name; text_of "'"])
  end.

Definition resolve_declared_type (scope_path declared_name : str) : Result TypeId ConstantError :=
  let type_name := trim declared_name in
  let resolved := resolve types type_name in
  let declaration :=
    let? d := declared_enum scope_path type_name in
    match resolved with Some id => Ok id | None => enum_type_id d end in
  match resolved with
  | Some id => if bool_decide (is_Some (scalar_kind id)) then Ok id else declaration
  | None => declaration
  end.

(** *** Literals and operators *)

Definition evaluate_integer_literal (value : Z) (expected : option TypeId) : Result EvaluatedScalar ConstantError :=
  let? type_id :=
    match expected with
    | None => Ok TYPE_ID_I32
    | Some id =>
        match scalar_kind id with
        | Some k => if is_integer_kind k then Ok id else Err (message [text_of "integer literal cannot initialize scalar type "; type_name id])
        | None => Err (message [text_of "integer literal cannot initialize scalar type "; type_name id])
        end
    end in
  if integer_literal_fits types value type_id then Ok (mkScalar type_id (wrap 64 value) None)
  else Err (message [text_of "integer literal "; show value; text_of " is not representable in scalar type "; type_name type_id]).

Definition evaluate_float_literal (bits : Z) (expected : option TypeId) : Result EvaluatedScalar ConstantError :=
  let? type_id :=
    match expected with
    | None => Ok TYPE_ID_F32
    | Some id =>
        if (id =? TYPE_ID_F32) || (id =? TYPE_ID_F64) then Ok id
        else Err (message [text_of "floating-point literal cannot initialize scalar type "; type_name id])
    end in
  Ok (mkScalar type_id (if type_id =? TYPE_ID_F64 then bits else float_to_bits KindF32 [bits] (round_float KindF32 (float_of_bits KindF64 bits))) None).

Definition requires_numeric (op : string) : ConstantError := message [text_of "unary '"; text_of op; text_of "' requires a numeric scalar operand"].

(** The operator on the bits of an operand. *)
Definition unary_bits (op : ExprUnaryOp) (k : ScalarKind) (bits : Z) : Result Z ConstantError :=
  match op with
  | Negate =>
      if is_float k then Ok (Z.lxor bits (if bool_decide (k = KindF32) then 2 ^ 31 else 2 ^ 63))
      else
        match integer_width k with
        | Some w => Ok (wrap w (0 - wrap w bits))
        | None => Err (requires_numeric "-")
        end
  | BitwiseNot =>
      if is_integer_kind k then Ok (normalize_integer_bits (wrap 64 (Z.lnot bits)) k)
      else Err (message [text_of "unary '~' requires an exact builtin integer operand"])
  end.

Definition coerce_expected (scope_path : str) (value : EvaluatedScalar) (expected : option TypeId) : Result EvaluatedScalar ConstantError :=
  match expected with Some id => coerce_to_expected scope_path value id | None => Ok value end.

Definition unary_value (scope_path : str) (op : ExprUnaryOp) (value : EvaluatedScalar) (expected : option TypeId) :
    Result EvaluatedScalar ConstantError :=
  match scalar_kind (es_type_id value) with
  | None => Err (requires_numeric (unary_spelling op))
  | Some k =>
      let? bits := unary_bits op k (es_bits value) in
      coerce_expected scope_path (mkScalar (es_type_id value) bits (es_nominal_origin value)) expected
  end.

Definition scalar_type (expected : option TypeId) : option TypeId :=
  match expected with Some id => if bool_decide (is_Some (scalar_kind id)) then Some id else None | None => None end.

Definition is_remainder (op : ExprBinaryOp) : bool := match op with Remainder => true | _ => false end.

Definition numeric_operands (op : ExprBinaryOp) : ConstantError :=
  message [text_of "binary '"; text_of (binary_spelling op); text_of "' requires numeric operands"].
Definition exact_operands (op : ExprBinaryOp) : ConstantError :=
  message [text_of "binary '"; text_of (binary_spelling op); text_of "' requires exact builtin integer operands"].
Definition scalar_operands (op : ExprBinaryOp) : ConstantError :=
  message [text_of "binary '"; text_of (binary_spelling op); text_of "' requires scalar operands"].

Definition kind_is (p : ScalarKind → bool) (id : TypeId) : bool := match scalar_kind id with Some k => p k | None => false end.

Definition binary_result_type (expected : option TypeId) (lhs rhs : TypeId) (op : ExprBinaryOp) : Result TypeId ConstantError :=
  let? lhs_kind := ok_or (scalar_kind lhs) (message [text_of "unsupported scalar operand"]) in
  let? rhs_kind := ok_or (scalar_kind rhs) (message [text_of "unsupported scalar operand"]) in
  let integers := is_integer_kind lhs_kind && is_integer_kind rhs_kind in
  let joined := if lhs =? rhs then lhs else TYPE_ID_I32 in
  let expects p := match expected with Some id => kind_is p id | None => false end in
  if requires_integer_operands op then
    if expects is_integer_kind then Ok (default joined expected)
    else if negb integers then Err (exact_operands op) else Ok joined
  else if expects is_float || (expects is_integer_kind && integers) then Ok (default joined expected)
  else if is_float lhs_kind || is_float rhs_kind then
    if (negb (is_float lhs_kind) && negb (is_integer_kind lhs_kind)) || (negb (is_float rhs_kind) && negb (is_integer_kind rhs_kind))
    then Err (numeric_operands op)
    else Ok (if (lhs =? TYPE_ID_F64) || (rhs =? TYPE_ID_F64) then TYPE_ID_F64 else TYPE_ID_F32)
  else if negb integers then Err (numeric_operands op)
  else Ok (default joined (scalar_type expected)).

(** The type of the result of an operator on two operands. *)
Definition operation_type (op : ExprBinaryOp) (expected : option TypeId) (lhs rhs : TypeId) (lhs_kind rhs_kind : ScalarKind) :
    Result TypeId ConstantError :=
  if requires_integer_operands op then
    if negb (is_integer_kind lhs_kind) || negb (is_integer_kind rhs_kind) then Err (exact_operands op)
    else if negb (is_shift op) && negb (lhs =? rhs) then
      Err (message [text_of "binary '"; text_of (binary_spelling op); text_of "' requires matching integer lanes, found "; type_name lhs;
        text_of " and "; type_name rhs])
    else Ok lhs
  else binary_result_type expected lhs rhs op.

Definition binary_value (op : ExprBinaryOp) (expected : option TypeId) (lhs rhs : EvaluatedScalar) : Result EvaluatedScalar ConstantError :=
  let? lhs_kind := ok_or (scalar_kind (es_type_id lhs)) (scalar_operands op) in
  let? rhs_kind := ok_or (scalar_kind (es_type_id rhs)) (scalar_operands op) in
  let? result_type := operation_type op expected (es_type_id lhs) (es_type_id rhs) lhs_kind rhs_kind in
  let? result_kind := ok_or (scalar_kind result_type)
    (message [text_of "binary '"; text_of (binary_spelling op); text_of "' produced a non-scalar result"]) in
  let result (bits : Z) : Result EvaluatedScalar ConstantError := Ok (mkScalar result_type bits None) in
  let lhs_bits := wrap 32 (es_bits lhs) in
  let rhs_bits := wrap 32 (es_bits rhs) in
  if requires_integer_operands op then result (normalize_integer_bits (bitwise_bits op result_kind lhs_bits rhs_bits) result_kind)
  else if is_float lhs_kind || is_float rhs_kind then
    if is_remainder op
    then Err (message [text_of "floating-point '%' is not supported in scalar constant expressions"])
    else
      let? x := convert_to_float lhs result_kind in
      let? y := convert_to_float rhs result_kind in
      result (float_bits op (if bool_decide (result_kind = KindF64) then KindF64 else KindF32) x y)
  else if negb (is_integer_kind lhs_kind) || negb (is_integer_kind rhs_kind) then Err (numeric_operands op)
  else
    let? bits := arithmetic_bits op result_kind lhs_bits rhs_bits in
    result (normalize_integer_bits bits result_kind).

(** The type that the right operand is evaluated for. *)
Definition rhs_expected (op : ExprBinaryOp) (expected : option TypeId) (lhs : TypeId) : option TypeId :=
  if is_shift op then None
  else match scalar_type expected with
       | Some id => Some id
       | None => if kind_is is_unsigned lhs then Some lhs else None
       end.

(** *** Names *)

Definition id_of_key (k : DeclarationKey) : CompileTimeValueId := mkValueId (dk_path k) (dk_owner k) (dk_name k).
Definition key_of_id (i : CompileTimeValueId) : DeclarationKey := mkKey (ctv_source_path i) (ctv_member i) (ctv_owner i).

(** The declaration of an identity. *)
Definition find_constant (i : CompileTimeValueId) : option ConstantDeclaration :=
  List.find (λ d, bool_decide (cd_id d = i)) (constants_of (key_of_id i)).

Definition unknown_constant (i : CompileTimeValueId) : ConstantError := message [text_of "unknown constant '"; display_value_id i; text_of "'"].

(** What a name in an expression of a module stands for. *)
Definition resolve_scalar_name (scope_path identifier : str) : Result CompileTimeValueId ConstantError :=
  match imported_alias_shadow_error ix graph scope_path identifier with
  | Some e => Err (ConstErr e)
  | None =>
      match resolve_compile_time_value ix graph scope_path identifier false with
      | Ok (Some i) => Ok i
      | Err e =>
          if negb (has_period identifier) && starts_with (text_of "ambiguous compile-time value '") e
          then Err (message [text_of "ambiguous compile-time constant '"; identifier; text_of "' visible from '"; scope_path; text_of "'"])
          else Err (ConstErr e)
      | Ok None =>
          if negb (has_period identifier) && negb (has_visible_flat_constant ix graph scope_path identifier)
             && has_visible_group_member_name ix graph scope_path identifier
          then Err (message [text_of "constant group member '"; identifier; text_of "' must be qualified by its group name"])
          else
            Err (message [text_of "unknown compile-time "; text_of (if has_period identifier then "value" else "constant"); text_of " '";
              identifier; text_of "' visible from '"; scope_path; text_of "'"])
      end
  end.

(** The value of an enum variant. *)
Definition variant_scalar (i : CompileTimeValueId) (enum : str) : Result EvaluatedScalar ConstantError :=
  match enums_for_path_name (ctv_source_path i) enum with
  | d :: _ => evaluate_variant d (ctv_member i)
  | [] => Err (message [text_of "unknown enum '"; enum; text_of "' in '"; ctv_source_path i; text_of "'"])
  end.

(** *** Expressions, over the evaluation [rec] of a constant *)

Definition evaluate_identifier_id (rec : DeclarationKey → ScalarEval EvaluatedScalar) (i : CompileTimeValueId) : ScalarEval EvaluatedScalar :=
  match ctv_owner i with
  | EnumOwner enum => eval_lift (variant_scalar i enum)
  | _ => match find_constant i with Some d => rec (cd_key d) | None => eval_fail (unknown_constant i) end
  end.

Definition resolve_identifier (rec : DeclarationKey → ScalarEval EvaluatedScalar) (scope_path identifier : str) : ScalarEval EvaluatedScalar :=
  do! i := eval_lift (resolve_scalar_name scope_path identifier) in evaluate_identifier_id rec i.

Definition refused (s : string) : ScalarEval EvaluatedScalar := eval_fail (message [text_of s]).

(** The literal that an operator makes with its operand. *)
Definition contextual_literal (op : ExprUnaryOp) (operand : SimpleExpr) : option Z :=
  match op with Negate => contextual_integer_literal_value (Unary op operand) | BitwiseNot => None end.

Fixpoint evaluate_scalar (rec : DeclarationKey → ScalarEval EvaluatedScalar) (scope_path : str) (e : SimpleExpr) (expected : option TypeId) :
    ScalarEval EvaluatedScalar :=
  match e with
  | Int value => eval_lift (evaluate_integer_literal value expected)
  | Float bits => eval_lift (evaluate_float_literal bits expected)
  | Bool value =>
      match expected with
      | Some id => if id =? TYPE_ID_BOOL then eval_ret (mkScalar TYPE_ID_BOOL (if value then 1 else 0) None)
                   else refused "boolean literal cannot initialize a non-bool scalar"
      | None => eval_ret (mkScalar TYPE_ID_BOOL (if value then 1 else 0) None)
      end
  | Identifier n => resolve_identifier rec scope_path n
  | Unary op operand =>
      match contextual_literal op operand with
      | Some value => eval_lift (evaluate_integer_literal value expected)
      | None =>
          do! value := evaluate_scalar rec scope_path operand (scalar_type expected) in
          eval_lift (unary_value scope_path op value expected)
      end
  | Binary lhs op rhs =>
      if bool_decide (is_Some expected) && bool_decide (scalar_type expected = None)
      then refused "binary scalar expression has a non-scalar contextual type"
      else
        do! lhs_value := evaluate_scalar rec scope_path lhs (scalar_type expected) in
        do! rhs_value := evaluate_scalar rec scope_path rhs (rhs_expected op expected (es_type_id lhs_value)) in
        eval_lift (binary_value op expected lhs_value rhs_value)
  | DefaultValue _ => refused "default-value expressions are not compile-time scalar constants"
  | StringLiteral _ => refused "string literals are not scalar compile-time defaults"
  | Condition _ => refused "conditions are not scalar compile-time defaults"
  | IndexedPathExpr _ _ _ _ => refused "runtime state paths are not compile-time scalar constants"
  | Call target _ _ _ =>
      eval_fail (message [text_of "runtime call '"; target; text_of "' is not allowed in a scalar compile-time expression"])
  | ResolvedConstant _ type_id (Scalar bits nominal_origin) => eval_ret (mkScalar type_id bits nominal_origin)
  | ResolvedConstant _ _ (ConstString _) => refused "string constants are not scalar compile-time values"
  end.

(** *** Constants *)

Definition scalar_cycle (cycle : list DeclarationKey) : ConstantError :=
  message [text_of "compile-time constant cycle: "; join_with (text_of " -> ") (display_declaration_key <$> cycle)].

Definition scalar_too_deep : ConstantError := message [text_of "compile-time constant evaluation exceeded 128 nested declarations"].

Definition constant_at (k : DeclarationKey) : Result ConstantDeclaration ConstantError :=
  ok_or (find_constant (id_of_key k)) (unknown_constant (id_of_key k)).

Definition parse_initializer_of (d : ConstantDeclaration) : Result SimpleExpr ConstantError :=
  map_err (ConstParse (text_of "invalid initializer for constant '" ++ ctv_member (cd_id d) ++ text_of "'"))
    (parse_value_expression_at (ic_value_text (cd_definition d)) 0).

(** The initializer of a constant, evaluated for its declared type. *)
Definition constant_body (rec : DeclarationKey → ScalarEval EvaluatedScalar) (d : ConstantDeclaration) : ScalarEval EvaluatedScalar :=
  let path := dk_path (cd_key d) in
  do! declared_type := eval_lift (resolve_declared_type path (ic_type_name (cd_definition d))) in
  do! expression := eval_lift (parse_initializer_of d) in
  do! value := evaluate_scalar rec path expression (Some declared_type) in
  eval_lift (coerce_to_expected path value declared_type).

Definition evaluate_constant (depth : nat) (k : DeclarationKey) : ScalarEval EvaluatedScalar :=
  memoized MAX_CONSTANT_RECURSION_DEPTH scalar_cycle scalar_too_deep constant_at constant_body depth k.

(** One declaration more than the stack may hold. *)
Definition scalar_depth : nat := S MAX_CONSTANT_RECURSION_DEPTH.

(** [evaluate_constant] from the stack of the evaluator. *)
Definition constant_value : DeclarationKey → ScalarEval EvaluatedScalar := evaluate_constant scalar_depth.

Definition evaluate (scope_path expression : str) (expected_type : TypeId) : ScalarEval EvaluatedScalar :=
  if negb (existsb (λ f, bool_decide (sf_path f = scope_path)) files)
  then eval_fail (message [text_of "unknown scalar initializer scope '"; scope_path; text_of "'"])
  else
    do! _ := eval_lift (validate_expected_type scope_path expected_type) in
    do! parsed := eval_lift (map_err (ConstParse (text_of "invalid scalar constant expression")) (parse_value_expression_at expression 0)) in
    do! result := evaluate_scalar constant_value scope_path parsed (Some expected_type) in
    eval_lift (coerce_to_expected scope_path result expected_type).

(** *** Names of the program *)

Definition group_of (i : CompileTimeValueId) : str := match ctv_owner i with GroupOwner g => g | _ => [] end.

Definition group_member (i : CompileTimeValueId) : str := group_of i ++ [PERIOD] ++ ctv_member i.

Definition is_ascii (s : str) : bool := forallb (λ b, b <? 128) s.

Definition validate_group_string_value (i : CompileTimeValueId) (category : TypeCategory) (value : str) : Result unit ConstantError :=
  if bool_decide (category = CatAsciiFixed ∨ category = CatAsciiView) && negb (is_ascii value)
  then Err (message [text_of "ASCII constant group member '"; group_member i; text_of "' contains non-ASCII text"]) else Ok tt.

(** The value of a member of a group whose type is a text; [None] when it is not. *)
Definition group_text (i : CompileTimeValueId) : Result (option (TypeId * ResolvedConstantValue)) ConstantError :=
  match ctv_owner i with
  | GroupOwner _ =>
      let? d := ok_or (find_constant i) (MissingConstant i) in
      let? type_id := ok_or (resolve types (ic_type_name (cd_definition d)))
        (message [text_of "constant group member '"; group_member i; text_of "' has unresolved type '"; ic_type_name (cd_definition d); text_of "'"]) in
      let? info := ok_or (type_info types type_id)
        (message [text_of "constant group member '"; ctv_member i; text_of "' has unknown type "; show type_id]) in
      match ti_category info with
      | CatAsciiView | CatUtf8View =>
          let? expression := map_err (ConstParse (text_of "invalid string initializer for '" ++ ctv_member i ++ text_of "'"))
            (parse_value_expression_at (ic_value_text (cd_definition d)) 0) in
          match expression with
          | StringLiteral value =>
              let? _ := validate_group_string_value i (ti_category info) value in
              Ok (Some (type_id, ConstString value))
          | _ => Err (message [text_of "string constant group member '"; group_member i; text_of "' requires a literal string initializer"])
          end
      | CatAsciiFixed | CatUtf8Fixed =>
          Err (message [text_of "constant group member '"; group_member i; text_of "' uses unsupported fixed string type '"; ti_name info;
            text_of "'; use ascii[] or utf8[]"])
      | _ => Ok None
      end
  | _ => Ok None
  end.

Definition materialize_id (i : CompileTimeValueId) : ScalarEval (CompileTimeValueId * TypeId * ResolvedConstantValue) :=
  do! text := eval_lift (group_text i) in
  match text with
  | Some (type_id, value) => eval_ret (i, type_id, value)
  | None =>
      do! evaluated := evaluate_identifier_id constant_value i in
      eval_ret (i, es_type_id evaluated, Scalar (es_bits evaluated) (es_nominal_origin evaluated))
  end.

Definition materialize_identifier (scope_path identifier : str) (lexical_root_shadowed : bool) :
    ScalarEval (option (CompileTimeValueId * TypeId * ResolvedConstantValue)) :=
  do! resolved := eval_lift (map_err ConstErr (resolve_compile_time_value ix graph scope_path identifier lexical_root_shadowed)) in
  match resolved with
  | None => eval_ret None
  | Some i =>
      match ctv_owner i with
      | FlatOwner => eval_ret None
      | _ => do! m := materialize_id i in eval_ret (Some m)
      end
  end.

(** The members of all groups; an error is the member, its range and the message. *)
Fixpoint validate_members (members : list IndexedConstantDeclaration) (st : Memo DeclarationKey EvaluatedScalar unit) :
    option (Result unit (CompileTimeValueId * (nat * nat) * ConstantError) * Memo DeclarationKey EvaluatedScalar unit) :=
  match members with
  | [] => Some (Ok tt, st)
  | m :: members =>
      match materialize_id (ic_id m) st with
      | None => None
      | Some (Ok _, st) => validate_members members st
      | Some (Err e, st) => Some (Err (ic_id m, default (ic_value_range m) (ic_name_range m), e), st)
      end
  end.

Definition validate_all_group_members : Memo DeclarationKey EvaluatedScalar unit →
    option (Result unit (CompileTimeValueId * (nat * nat) * ConstantError) * Memo DeclarationKey EvaluatedScalar unit) :=
  validate_members (mjoin (ig_members <$> all_groups ix)).

Definition unresolved_group_value_error (scope_path identifier : str) (lexical_root_shadowed : bool) : option str :=
  if lexical_root_shadowed || has_period identifier || has_visible_flat_constant ix graph scope_path identifier then None
  else if has_visible_group_namespace ix graph scope_path identifier
  then Some (text_of "constant group '" ++ identifier ++ text_of "' is a namespace and cannot be used as a value")
  else if has_visible_group_member_name ix graph scope_path identifier
  then Some (text_of "constant group member '" ++ identifier ++ text_of "' must be qualified by its group name") else None.
End evaluator.
