(* ===== verification/ConstantEvalProps.v ===== *)
(** * Scalar constants: the evaluator is its semantics

    The value of a scalar expression as a relation without a cache and a stack, and the
    proof that the evaluator of [ConstantEval] always answers and finds exactly this value,
    unless the nesting of declarations exceeds its limit.  The examples at the end show
    where the types of intermediate results go wrong. *)

From S2P Require Import Prelude BTree Memo Lexer Identity Text Imports ModuleGraph Functions Hir Types BodyScan BodyExpr.
From S2P Require Import ParserTokens ParserFunctions ParserLayout ConstantIndex ConstantIndexProps ConstantEval ModuleGraphProps.
#[local] Open Scope Z_scope.
#[local] Set Warnings "-register-all,-clear-no-such-hyp,-notation-overridden".

(** ** The value of an expression *)

Section values.
Context `{NanBits}.
Context (files : list SourceFile) (graph : ModuleGraph) (types : TypeTable) (ix : CompileTimeDeclarationIndex).
#[local] Abbreviation Declared := (DeclarationKey → EvaluatedScalar → Prop).
#[local] Abbreviation state := (Memo DeclarationKey EvaluatedScalar unit).

(** The value of an identity: a variant has its own, a constant the one it is declared with. *)
Inductive id_value (D : Declared) (i : CompileTimeValueId) (v : EvaluatedScalar) : Prop :=
| iv_variant enum : ctv_owner i = EnumOwner enum → variant_scalar graph types ix i enum = Ok v → id_value D i v
| iv_constant d : (∀ enum, ctv_owner i ≠ EnumOwner enum) → find_constant ix i = Some d → D (cd_key d) v → id_value D i v.

(** The value of an expression in a module, for the type that is expected, if any. *)
Inductive scalar_value (D : Declared) (path : str) : SimpleExpr → option TypeId → EvaluatedScalar → Prop :=
| sv_int n expected v : evaluate_integer_literal types n expected = Ok v → scalar_value D path (Int n) expected v
| sv_float bits expected v : evaluate_float_literal types bits expected = Ok v → scalar_value D path (Float bits) expected v
| sv_bool b expected :
    expected = None ∨ expected = Some TYPE_ID_BOOL →
    scalar_value D path (Bool b) expected (mkScalar TYPE_ID_BOOL (if b then 1 else 0) None)
| sv_name n i expected v :
    resolve_scalar_name graph ix path n = Ok i → id_value D i v → scalar_value D path (Identifier n) expected v
| sv_literal op e n expected v :
    contextual_literal op e = Some n → evaluate_integer_literal types n expected = Ok v → scalar_value D path (Unary op e) expected v
| sv_unary op e expected x v :
    contextual_literal op e = None → scalar_value D path e (scalar_type expected) x →
    unary_value graph types ix path op x expected = Ok v → scalar_value D path (Unary op e) expected v
| sv_binary e1 op e2 expected x y v :
    (is_Some expected → is_Some (scalar_type expected)) →
    scalar_value D path e1 (scalar_type expected) x → scalar_value D path e2 (rhs_expected op expected (es_type_id x)) y →
    binary_value types op expected x y = Ok v → scalar_value D path (Binary e1 op e2) expected v
| sv_resolved i type_id bits origin expected :
    scalar_value D path (ResolvedConstant i type_id (Scalar bits origin)) expected (mkScalar type_id bits origin).

(** The value of a declaration: its initializer for its declared type. *)
Definition constant_step (D : Declared) (d : ConstantDeclaration) (v : EvaluatedScalar) : Prop :=
  ∃ type_id e x, resolve_declared_type graph types ix (dk_path (cd_key d)) (ic_type_name (cd_definition d)) = Ok type_id
    ∧ parse_initializer_of d = Ok e ∧ scalar_value D (dk_path (cd_key d)) e (Some type_id) x
    ∧ coerce_to_expected graph types ix (dk_path (cd_key d)) x type_id = Ok v.

Definition constant_denotes : Declared := denotes (constant_at ix) constant_step.

(** ** It is a function, of the declarations it needs *)

Lemma id_value_mono (D D' : Declared) i v : (∀ k w, D k w → D' k w) → id_value D i v → id_value D' i v.
Proof. intros HD [enum Ho Hv|d Ho Hf Hv]; [by eapply iv_variant|eapply iv_constant; eauto]. Qed.

Lemma id_value_det (D : Declared) i v w : (∀ k v w, D k v → D k w → v = w) → id_value D i v → id_value D i w → v = w.
Proof.
  intros HD [enum Ho Hv|d Ho Hf Hv] [enum' Ho' Hw|d' Ho' Hf' Hw]; try (by destruct (Ho _ Ho')); try (by destruct (Ho' _ Ho)); [congruence|].
  eapply HD; [done|]. congruence.
Qed.

Lemma scalar_value_mono (D D' : Declared) path e expected v :
  (∀ k w, D k w → D' k w) → scalar_value D path e expected v → scalar_value D' path e expected v.
Proof. intros HD. induction 1; try (by econstructor; eauto). eapply sv_name; [done|]. by eapply id_value_mono. Qed.

Lemma scalar_value_det (D : Declared) path e expected v w : (∀ k v w, D k v → D k w → v = w) →
  scalar_value D path e expected v → scalar_value D path e expected w → v = w.
Proof.
  intros HD Hv. revert w. induction Hv as [| | |n i expected v Hn Hi| |op e expected x v Hc Hx IH Hu|e1 op e2 expected x y v Hs Hx IHx Hy IHy Hb|];
    intros w Hw; inversion Hw; subst; try congruence.
  - eapply id_value_det; [done..|]. congruence.
  - match goal with Hx' : scalar_value D path e _ ?x' |- _ => apply IH in Hx' as -> end. congruence.
  - match goal with Hx' : scalar_value D path e1 _ _ |- _ => apply IHx in Hx' as -> end.
    match goal with Hy' : scalar_value D path e2 _ _ |- _ => apply IHy in Hy' as -> end. congruence.
Qed.

Lemma scalar_value_finite (Dn : nat → Declared) path e expected v :
  (∀ n m k w, (n ≤ m)%nat → Dn n k w → Dn m k w) → scalar_value (λ k w, ∃ n, Dn n k w) path e expected v →
  ∃ n, scalar_value (Dn n) path e expected v.
Proof.
  intros HD. induction 1 as [| | |n i expected v Hn Hi| |op e expected x v Hc Hx [m IH] Hu|e1 op e2 expected x y v Hs Hx [m1 IH1] Hy [m2 IH2] Hb|];
    try (by exists 0%nat; constructor).
  - destruct Hi as [enum Ho Hv|d Ho Hf [m Hv]]; [exists 0%nat|exists m]; (eapply sv_name; [done|]); [by eapply iv_variant|by eapply iv_constant].
  - exists 0%nat. by eapply sv_literal.
  - exists m. by eapply sv_unary.
  - exists (max m1 m2). eapply sv_binary; [done| | |done]; (eapply scalar_value_mono; [|done]); intros k w; apply HD; lia.
Qed.

Lemma constant_step_mono (D D' : Declared) d v : (∀ k w, D k w → D' k w) → constant_step D d v → constant_step D' d v.
Proof. intros HD (t & e & x & Ht & He & Hx & Hv). exists t, e, x. split_and!; [done..| |done]. by eapply scalar_value_mono. Qed.

Lemma constant_step_det (D : Declared) d v w : (∀ k v w, D k v → D k w → v = w) → constant_step D d v → constant_step D d w → v = w.
Proof.
  intros HD (t & e & x & Ht & He & Hx & Hv) (t' & e' & x' & Ht' & He' & Hx' & Hw).
  assert (t' = t) as -> by congruence. assert (e' = e) as -> by congruence. assert (x' = x) as -> by (by eapply scalar_value_det). congruence.
Qed.

#[local] Abbreviation denotes_n := (denotes_in (constant_at ix) constant_step).

Lemma denotes_n_mono n m k w : (n ≤ m)%nat → denotes_n n k w → denotes_n m k w.
Proof. intros Hnm H1. eapply denotes_in_mono; [exact constant_step_mono|exact H1|exact Hnm]. Qed.

Lemma constant_step_finite d v : constant_step constant_denotes d v → ∃ n, constant_step (denotes_n n) d v.
Proof.
  intros (t & e & x & Ht & He & [n Hx]%scalar_value_finite & Hv); [by exists n, t, e, x|]. intros n m k w. apply denotes_n_mono.
Qed.

(** ** The evaluator answers *)

Lemma identifier_replies n (rec : DeclarationKey → ScalarEval EvaluatedScalar) i :
  (∀ k, replies n (rec k)) → replies n (evaluate_identifier_id graph types ix rec i).
Proof.
  intros Hrec. unfold evaluate_identifier_id.
  destruct (ctv_owner i); [destruct (find_constant ix i); [apply Hrec|apply replies_fail]..|by apply replies_lift].
Qed.

Lemma scalar_replies n (rec : DeclarationKey → ScalarEval EvaluatedScalar) path e : (∀ k, replies n (rec k)) →
  ∀ expected, replies n (evaluate_scalar graph types ix rec path e expected).
Proof.
  intros Hrec. assert (∀ r : Result EvaluatedScalar ConstantError, replies n (eval_lift r : ScalarEval EvaluatedScalar)) as Hl by (intros; by apply replies_lift).
  induction e as [| | |b| |i type_id value| |name| | |op e IH|e1 IH1 op e2 IH2]; intros expected; cbn [evaluate_scalar];
    try apply replies_fail; try apply Hl.
  - destruct expected as [id|]; [destruct (id =? _)|]; [by apply replies_ret|apply replies_fail|by apply replies_ret].
  - destruct value; [by apply replies_ret|apply replies_fail].
  - eapply (replies_bind _ _ _ (λ _, True)); [by apply replies_lift|]. intros i _. by apply identifier_replies.
  - destruct (contextual_literal op e); [apply Hl|]. eapply replies_bind; [apply IH|]. intros x _. apply Hl.
  - destruct (_ && _); [apply replies_fail|]. eapply replies_bind; [apply IH1|]. intros x _. eapply replies_bind; [apply IH2|]. intros y _. apply Hl.
Qed.

Lemma constant_value_replies k : replies 0 (constant_value graph types ix k).
Proof.
  apply memoized_answers; [|unfold scalar_depth; lia|unfold scalar_depth; lia]. intros n rec d Hrec. unfold constant_body.
  eapply (replies_bind _ _ _ (λ _, True)); [by apply replies_lift|]. intros t _. eapply (replies_bind _ _ _ (λ _, True)); [by apply replies_lift|].
  intros e _. eapply replies_bind; [by apply scalar_replies|]. intros x _. by apply replies_lift.
Qed.

(** ** What is found is the value *)

#[local] Abbreviation F := (finds (X:=unit) (constant_at ix) constant_step).

Lemma identifier_finds (rec : DeclarationKey → ScalarEval EvaluatedScalar) i :
  (∀ k, F (rec k) (constant_denotes k)) → F (evaluate_identifier_id graph types ix rec i) (id_value constant_denotes i).
Proof.
  intros Hrec. unfold evaluate_identifier_id.
  destruct (ctv_owner i) eqn:Ho; [destruct (find_constant ix i) as [d|] eqn:Ed; [|apply finds_fail]..|].
  1,2: eapply finds_mono; [apply Hrec|]; intros v Hv; eapply iv_constant; [by rewrite Ho|done|done].
  apply finds_lift. intros v Hv. by eapply iv_variant.
Qed.

Lemma scalar_finds (rec : DeclarationKey → ScalarEval EvaluatedScalar) path e : (∀ k, F (rec k) (constant_denotes k)) →
  ∀ expected, F (evaluate_scalar graph types ix rec path e expected) (scalar_value constant_denotes path e expected).
Proof.
  intros Hrec. induction e as [| | |b| |i type_id value| |name| | |op e IH|e1 IH1 op e2 IH2]; intros expected; cbn [evaluate_scalar]; try apply finds_fail.
  - apply finds_lift. apply sv_int.
  - apply finds_lift. apply sv_float.
  - destruct expected as [id|]; [destruct (Z.eqb_spec id TYPE_ID_BOOL) as [->|]; [|apply finds_fail]|]; apply finds_ret, sv_bool; auto.
  - destruct value; [|apply finds_fail]. apply finds_ret, sv_resolved.
  - apply (finds_bind _ _ (λ i, resolve_scalar_name graph ix path name = Ok i)); [by apply finds_lift|]. intros i Hi.
    eapply finds_mono; [by apply identifier_finds|]. intros v Hv. by eapply sv_name.
  - destruct (contextual_literal op e) as [n|] eqn:El; [apply finds_lift; intros v Hv; by eapply sv_literal|].
    eapply finds_bind; [apply IH|]. intros x Hx. apply finds_lift. intros v Hv. by eapply sv_unary.
  - destruct (bool_decide (is_Some expected) && bool_decide (scalar_type expected = None)) eqn:Es; [apply finds_fail|].
    eapply finds_bind; [apply IH1|]. intros x Hx. eapply finds_bind; [apply IH2|]. intros y Hy. apply finds_lift. intros v Hv. eapply sv_binary; [|done..].
    intros Hs. apply andb_false_iff in Es as [Es%bool_decide_eq_false|Es%bool_decide_eq_false]; [done|]. by destruct (scalar_type expected).
Qed.

Lemma body_finds (rec : DeclarationKey → ScalarEval EvaluatedScalar) d :
  (∀ k, F (rec k) (constant_denotes k)) → F (constant_body graph types ix rec d) (constant_step constant_denotes d).
Proof.
  intros Hrec. unfold constant_body.
  apply (finds_bind _ _ (λ t, resolve_declared_type graph types ix (dk_path (cd_key d)) (ic_type_name (cd_definition d)) = Ok t)); [by apply finds_lift|].
  intros t Ht. apply (finds_bind _ _ (λ e, parse_initializer_of d = Ok e)); [by apply finds_lift|]. intros e He.
  eapply finds_bind; [by apply scalar_finds|]. intros x Hx. apply finds_lift. intros v Hv. by exists t, e, x.
Qed.

Lemma constant_value_finds depth k : F (evaluate_constant graph types ix depth k) (constant_denotes k).
Proof. apply memoized_sound; [apply constant_step_finite|]. apply body_finds. Qed.

(** ** The value is found, unless the limit is exceeded *)

Definition scalar_limit (e : ConstantError) : Prop := e = scalar_too_deep.

#[local] Instance scalar_limit_dec e : Decision (scalar_limit e).
Proof.
  destruct e as [t|context error|i]; [|by right..]. unfold scalar_limit, scalar_too_deep, message. set (u := concat _).
  destruct (decide (t = u)) as [->|Hn]; [by left|right; by intros [= ->]].
Defined.

#[local] Abbreviation C := (completes (X:=unit) (constant_at ix) constant_step scalar_limit).

Lemma identifier_completes n (rec : DeclarationKey → ScalarEval EvaluatedScalar) i v :
  (∀ k w, denotes_n n k w → C n (rec k) w) → id_value (denotes_n n) i v → C n (evaluate_identifier_id graph types ix rec i) v.
Proof.
  intros Hrec [enum Ho Hv|d Ho Hf Hv]; unfold evaluate_identifier_id; [rewrite Ho; by apply completes_lift|].
  destruct (ctv_owner i) as [|group|enum]; [rewrite Hf; by apply Hrec..|by destruct (Ho enum)].
Qed.

Lemma scalar_completes n (rec : DeclarationKey → ScalarEval EvaluatedScalar) path e expected v :
  (∀ k w, denotes_n n k w → C n (rec k) w) → scalar_value (denotes_n n) path e expected v → C n (evaluate_scalar graph types ix rec path e expected) v.
Proof.
  intros Hrec. induction 1 as [m expected v Hv|bits expected v Hv|b expected Hb|name i expected v Hn Hi|op e m expected v Hc Hv
    |op e expected x v Hc Hx IH Hu|e1 op e2 expected x y v Hs Hx IHx Hy IHy Hb|]; cbn [evaluate_scalar].
  - by apply completes_lift.
  - by apply completes_lift.
  - destruct Hb as [->| ->]; apply completes_ret.
  - eapply completes_bind; [by apply completes_lift|]. by apply identifier_completes.
  - rewrite Hc. by apply completes_lift.
  - rewrite Hc. eapply completes_bind; [exact IH|]. by apply completes_lift.
  - assert (bool_decide (is_Some expected) && bool_decide (scalar_type expected = None) = false) as ->.
    { apply andb_false_iff. destruct expected as [id|]; [right|by left]. apply bool_decide_eq_false. intros Hnone. rewrite Hnone in Hs. by destruct Hs as [? ?]. }
    eapply completes_bind; [exact IHx|]. eapply completes_bind; [exact IHy|]. by apply completes_lift.
  - apply completes_ret.
Qed.

Lemma constant_value_completes n depth k v : denotes_n n k v → C n (evaluate_constant graph types ix depth k) v.
Proof.
  apply memoized_completes.
  - apply constant_step_mono.
  - apply constant_step_finite.
  - intros rec d. apply body_finds.
  - intros D HD d w w'. by apply constant_step_det.
  - done.
  - intros m rec d w Hrec (t & e & x & Ht & He & Hx & Hw). unfold constant_body. eapply completes_bind; [by apply completes_lift|].
    eapply completes_bind; [by apply completes_lift|]. eapply completes_bind; [by eapply scalar_completes|]. by apply completes_lift.
  - apply _.
  - apply _.
Qed.

(** ** The evaluator over its life *)

(** What an evaluator is asked. *)
Inductive Request :=
| EvaluateRequest (scope_path expression : str) (expected_type : TypeId)
| MaterializeRequest (scope_path identifier : str) (lexical_root_shadowed : bool).

Definition ask (q : Request) (st : state) : option state :=
  match q with
  | EvaluateRequest path text t => snd <$> evaluate files graph types ix path text t st
  | MaterializeRequest path n shadowed => snd <$> materialize_identifier graph types ix path n shadowed st
  end.

Fixpoint ask_all (requests : list Request) (st : state) : option state :=
  match requests with [] => Some st | q :: requests => match ask q st with Some st => ask_all requests st | None => None end end.

Definition new_evaluator : state := mkMemo [] [] tt.

(** What an expression of a module is worth for a type. *)
Definition evaluation_value (scope_path expression : str) (expected : TypeId) (v : EvaluatedScalar) : Prop :=
  existsb (λ f, bool_decide (sf_path f = scope_path)) files = true
  ∧ validate_expected_type graph types ix scope_path expected = Ok tt
  ∧ ∃ e x, parse_value_expression_at expression 0 = Ok e ∧ scalar_value constant_denotes scope_path e (Some expected) x
    ∧ coerce_to_expected graph types ix scope_path x expected = Ok v.

Lemma evaluate_replies path text t : replies 0 (evaluate files graph types ix path text t).
Proof.
  unfold evaluate. destruct (negb _); [apply replies_fail|]. eapply (replies_bind _ _ _ (λ _, True)); [by apply replies_lift|]. intros _ _.
  eapply (replies_bind _ _ _ (λ _, True)); [by apply replies_lift|]. intros e _.
  eapply replies_bind; [apply scalar_replies, constant_value_replies|]. intros x _. by apply replies_lift.
Qed.

Lemma evaluate_finds path text t : F (evaluate files graph types ix path text t) (evaluation_value path text t).
Proof.
  unfold evaluate. destruct (existsb _ files) eqn:Ef; [|apply finds_fail]. cbn [negb].
  apply (finds_bind _ _ (λ u, validate_expected_type graph types ix path t = Ok u)); [by apply finds_lift|]. intros [] Ht.
  apply (finds_bind _ _ (λ e, parse_value_expression_at text 0 = Ok e)).
  { apply finds_lift. intros e. by destruct (parse_value_expression_at text 0) as [e'|]; [intros [= <-]|]. }
  intros e He. eapply finds_bind; [apply scalar_finds; intros k; apply constant_value_finds|]. intros x Hx. apply finds_lift. intros v Hv.
  split; [done|]. split; [done|]. by exists e, x.
Qed.

Lemma evaluate_completes path text t v : evaluation_value path text t v → ∃ n, C n (evaluate files graph types ix path text t) v.
Proof.
  intros (Hf & Ht & e & x & He & [n Hx]%scalar_value_finite & Hv); [|intros n m k w; apply denotes_n_mono]. exists n.
  unfold evaluate. rewrite Hf. cbn [negb]. eapply completes_bind; [by apply completes_lift|].
  eapply completes_bind; [apply completes_lift; by rewrite He|]. eapply completes_bind; [|by apply completes_lift].
  eapply scalar_completes; [|done]. intros k w. apply constant_value_completes.
Qed.

Lemma materialize_replies i : replies 0 (materialize_id graph types ix i).
Proof.
  unfold materialize_id. eapply (replies_bind _ _ _ (λ _, True)); [by apply replies_lift|]. intros [[t w]|] _; [by apply replies_ret|].
  eapply replies_bind; [apply identifier_replies, constant_value_replies|]. intros x _. by apply replies_ret.
Qed.

Lemma materialize_identifier_replies path n shadowed : replies 0 (materialize_identifier graph types ix path n shadowed).
Proof.
  unfold materialize_identifier. eapply (replies_bind _ _ _ (λ _, True)); [by apply replies_lift|]. intros [i|] _; [|by apply replies_ret].
  destruct (ctv_owner i); [by apply replies_ret|..]; (eapply replies_bind; [apply materialize_replies|]; intros x _; by apply replies_ret).
Qed.

Lemma materialize_identifier_finds path n shadowed : F (materialize_identifier graph types ix path n shadowed) (λ _, True).
Proof.
  assert (∀ i, F (materialize_id graph types ix i) (λ _, True)) as Hm.
  { intros i. unfold materialize_id. eapply (finds_bind _ _ (λ _, True)); [by apply finds_lift|]. intros [[t w]|] _; [by apply finds_ret|].
    eapply finds_bind; [apply identifier_finds; intros k; apply constant_value_finds|]. intros x _. by apply finds_ret. }
  unfold materialize_identifier. eapply (finds_bind _ _ (λ _, True)); [by apply finds_lift|]. intros [i|] _; [|by apply finds_ret].
  destruct (ctv_owner i); [by apply finds_ret|..]; (eapply finds_bind; [apply Hm|]; intros x _; by apply finds_ret).
Qed.

(** An evaluator answers all it is asked, and what it remembers is right. *)
Lemma ask_all_sound requests : ∀ st, sound (constant_at ix) constant_step st → stack st = [] →
  ∃ st', ask_all requests st = Some st' ∧ sound (constant_at ix) constant_step st' ∧ stack st' = [].
Proof.
  induction requests as [|q requests IH]; intros st Hs Hst; [by exists st|]. cbn [ask_all].
  assert (∃ st', ask q st = Some st' ∧ sound (constant_at ix) constant_step st' ∧ stack st' = []) as (st' & -> & Hs' & Hst').
  2: by apply IH.
  assert (0 ≤ length (stack st))%nat as Hn by lia. destruct q as [path text t|path n shadowed]; cbn [ask].
  - destruct (evaluate_replies path text t st Hn) as (r & st' & Hr & Hst' & _). destruct (evaluate_finds path text t st r st' Hs Hr) as (Hs' & _ & _).
    exists st'. rewrite Hr. split_and!; [done..|by rewrite Hst'].
  - destruct (materialize_identifier_replies path n shadowed st Hn) as (r & st' & Hr & Hst' & _).
    destruct (materialize_identifier_finds path n shadowed st r st' Hs Hr) as (Hs' & _ & _).
    exists st'. rewrite Hr. split_and!; [done..|by rewrite Hst'].
Qed.

(** C14 However often it was asked before, the evaluator of scalar constants answers.  The
    value it finds is the value of the expression for the expected type, where a constant
    has the value of its initializer for its declared type; and an expression that has a
    value is evaluated to it, unless more than 128 declarations nest. *)
Theorem scalar_constants_exact requests path text expected :
  ∃ st r st', ask_all requests new_evaluator = Some st ∧ evaluate files graph types ix path text expected st = Some (r, st')
  ∧ (∀ v, r = Ok v → evaluation_value path text expected v)
  ∧ (∀ v, evaluation_value path text expected v → r = Ok v ∨ r = Err scalar_too_deep).
Proof.
  destruct (ask_all_sound requests new_evaluator) as (st & Hst & Hs & Hk); [by intros k v Hin%not_elem_of_nil|done|].
  destruct (evaluate_replies path text expected st) as (r & st' & Hr & _ & _); [lia|]. exists st, r, st'. split_and!; [done..| |].
  - by destruct (evaluate_finds path text expected st r st' Hs Hr) as (_ & _ & ?).
  - intros v [n Hv]%evaluate_completes. destruct (Hv st r st' Hs) as (_ & _ & Hc); [|done|].
    + intros k w Hin. rewrite Hk in Hin. by apply not_elem_of_nil in Hin.
    + destruct Hc as [->|(e & -> & ->)]; auto.
Qed.

(** ** The type of a value *)

(** A value has the type it is expected to have; the bits of a number are those of an
    integer of its type, and a variant is of an enum that the type stands for. *)
Definition well_typed (scope_path : str) (expected : TypeId) (v : EvaluatedScalar) : Prop :=
  es_type_id v = expected ∧
  match es_nominal_origin v with
  | None => ∃ k, scalar_kind expected = Some k ∧ ∀ w, integer_width k = Some w → in_u w (es_bits v)
  | Some origin => ∃ origins, expected_enum_origins graph types ix scope_path expected = Ok origins ∧ origin ∈ origins
  end.

Lemma encode_integer_range value k bits w : encode_integer_value value k = Some bits → integer_width k = Some w → in_u w bits.
Proof.
  destruct k; intros He [= <-]; revert He; simpl; unfold checked_u, checked_i; case_bool_decide; try done; intros [= <-]; [|done..].
  apply wrap_range. lia.
Qed.

Lemma coerce_well_typed path x expected v : coerce_to_expected graph types ix path x expected = Ok v → well_typed path expected v.
Proof.
  unfold coerce_to_expected, well_typed. destruct (scalar_kind (es_type_id x)) as [source|] eqn:Es.
  - destruct (scalar_kind expected) as [target|] eqn:Et; [|done].
    case_bool_decide as Hb; cbn [andb]; [case_bool_decide as Hb'; cbn [andb]|].
    { intros [= <-]. simpl. split; [done|]. exists target. split; [done|]. by rewrite Hb'. }
    all: destruct (is_integer_kind source && is_integer_kind target); cbn [result_bind].
    all: try (destruct (encode_integer_value _ target) as [bits|] eqn:Eb; [|done]; intros [= <-]; simpl; split; [done|]; exists target;
              split; [done|]; intros w; by eapply encode_integer_range).
    all: destruct (is_float source && is_float target) eqn:Ef; cbn [andb]; [|done]; case_bool_decide; [|done]; intros [= <-]; simpl;
         split; [done|]; exists target; split; [done|]; apply andb_true_iff in Ef as [_ Ef]; by destruct target.
  - unfold coerce_enum_to_expected. destruct (es_nominal_origin x) as [origin|] eqn:Eo; [|done].
    destruct (expected_enum_origins _ _ _ _ _) as [origins|] eqn:Ee; [|done]. cbn. case_bool_decide; [|done]. intros [= <-]. cbn.
    split; [done|]. by exists origins.
Qed.

(** Whatever the evaluator remembers, a value it answers has the type that was expected:
    the bits of an integer fit the width of the type, and a variant is one of an enum that
    the type stands for in the module. *)
Theorem scalar_result_typed path text expected st v st' :
  evaluate files graph types ix path text expected st = Some (Ok v, st') → well_typed path expected v.
Proof.
  unfold evaluate. destruct (negb _); [done|]. unfold eval_bind, eval_lift.
  destruct (validate_expected_type _ _ _ _ _); [|done]. destruct (map_err _ _) as [e|]; [|done].
  destruct (evaluate_scalar _ _ _ _ _ _ _ _) as [[[x|] st1]|]; [|done..]. intros [= Hv <-]. by eapply coerce_well_typed.
Qed.

End values.

(** ** A program *)

Definition SAMPLE : str := text_of "main.stasis".

Definition sample_source : str :=
  text_of "const A: i32 = 2; const B: i32 = A * 3 - 1; const L: i32 = M; const M: i32 = L; const H: f32 = 0.5; "
  ++ text_of "enum Phase { Idle, Active = 7, } const LIMITS { FIRST: i32 = B + 1; SPEED: f32 = H * A; }".

Definition sample_file : SourceFile := mkSourceFile SAMPLE sample_source sample_source 0 [].
Definition sample_graph : ModuleGraph := mkGraph [SAMPLE] [(SAMPLE, mkModule SAMPLE (text_of "main") [])] [] [SAMPLE].
Definition sample_index : CompileTimeDeclarationIndex :=
  match build (H := no_declarations) [sample_file] with Some (Ok ix) => ix | _ => empty_index end.

#[local] Instance no_nan : NanBits := {| nan_bits _ _ := 0 |}.

(** The value of an expression of the program, as its bits. *)
Definition sample_value (text : string) (t : TypeId) : option (Result Z ConstantError) :=
  match evaluate [sample_file] sample_graph TypeTable_new sample_index SAMPLE (text_of text) t new_evaluator with
  | Some (Ok v, _) => Some (Ok (es_bits v))
  | Some (Err e, _) => Some (Err e)
  | None => None
  end.

Example sample_values :
  sample_value "B" TYPE_ID_I32 = Some (Ok 5) ∧ sample_value "LIMITS.FIRST * 2" TYPE_ID_I32 = Some (Ok 12)
  ∧ sample_value "LIMITS.SPEED" TYPE_ID_F32 = Some (Ok 1065353216).   (* 1.0 *)
Proof. vm_compute. done. Qed.

Example sample_cycle :
  sample_value "L + 1" TYPE_ID_I32
  = Some (Err (message [text_of "compile-time constant cycle: main.stasis::L -> main.stasis::M -> main.stasis::L"])).
Proof. vm_compute. done. Qed.

Example sample_unrepresentable :
  sample_value "-A" TYPE_ID_U32 = Some (Err (message [text_of "constant value is not representable in scalar type u32"])).
Proof. vm_compute. done. Qed.

(** The operator takes the expected type for the type of its result, and adds integers as
    integers: the sum of two integer constants is an [f32] whose bits are the integer, and
    a [bool] that is neither [true] nor [false]. *)
Lemma integer_sum_as_float_or_bool :
  sample_value "A + A" TYPE_ID_F32 = Some (Ok 4) ∧ sample_value "A + A" TYPE_ID_BOOL = Some (Ok 4)
  ∧ sample_value "4.0" TYPE_ID_F32 = Some (Ok 1082130432).
Proof. vm_compute. done. Qed.

Lemma scalar_result_typed_witness :
  ∃ v st, evaluate [sample_file] sample_graph TypeTable_new sample_index SAMPLE (text_of "LIMITS.FIRST * 2") TYPE_ID_I32 new_evaluator = Some (Ok v, st)
  ∧ well_typed sample_graph TypeTable_new sample_index SAMPLE TYPE_ID_I32 v.
Proof.
  eexists _, _. split; [vm_compute; reflexivity|]. eapply (scalar_result_typed [sample_file] _ _ _ _ (text_of "LIMITS.FIRST * 2") _ new_evaluator).
  vm_compute. reflexivity.
Defined.

Lemma resolved_names_are_unambiguous_witness :
  ∃ i, resolve_compile_time_value sample_index sample_graph SAMPLE (text_of "LIMITS.FIRST") false = Ok (Some i)
  ∧ ∃ program, parsed [sample_file] program ∧ stands_for sample_index sample_graph program SAMPLE (text_of "LIMITS.FIRST") i
    ∧ ∀ j, stands_for sample_index sample_graph program SAMPLE (text_of "LIMITS.FIRST") j → j = i.
Proof.
  eexists. split; [vm_compute; reflexivity|].
  eapply (resolved_names_are_unambiguous (H := no_declarations) [sample_file] sample_index sample_graph SAMPLE (text_of "LIMITS.FIRST") false).
  - vm_compute. reflexivity.
  - vm_compute. reflexivity.
Defined.

Example generic_value :
  evaluate_generic_i32 sample_index sample_graph SAMPLE (text_of "LIMITS.FIRST * -N") [(text_of "N", 3)] = Some (Ok (-18)).
Proof. vm_compute. done. Qed.
